(* ===== verification/_CoqProject ===== *)
-Q . S2P
Prelude.v
AtomicHashMap.v
BoundedQueue.v
RWLock.v
ObjectPool.v
CacheBuffer.v
DataVisitor.v
DataDispatcher.v
Blocker.v
TimingWheel.v
Timer.v
Signal.v
Listener.v
Message.v
ShmBlock.v
Segment.v
IntraDispatcher.v
Graph.v
Croutine.v
GlobalData.v
Scheduler.v
Warehouse.v
Managers.v
ChannelTracking.v
Duplicates.v
Topology.v
Notifier.v
ShmTransport.v
Services.v
Parameters.v
RecordFile.v
RecordFlush.v
RecordReader.v
RecordViewer.v
RecordPlayback.v
RecordWriter.v
Hybrid.v
Channels.v
Delivery.v
Component.v
ClassLoader.v
Mainboard.v
RecordTools.v
Player.v
UnboundedQueue.v
ThreadSafeQueue.v
ThreadPool.v
Logging.v
Recorder.v
Time.v
Poller.v
PollHandler.v
XsiSegment.v
MessageTraits.v
ProtobufFactory.v
Rtps.v
PerfEvents.v
Lifecycle.v
PyCyber.v
NodeData.v
Monitor.v
CommandLine.v
Multicast.v
