(* ===== verification/Prelude.v ===== *)
(** * Cyber RT: a verification development (root file)

    Cyber RT ([src/code/cyber]) is a middleware: components of a process, and
    processes of a host, exchange messages over named channels, run callbacks
    on timers and coroutines, discover each other, and record what they sent.
    This library models its core in Rocq and proves what makes it correct, and,
    where it is not, what goes wrong.

    ** The parts and how they interact

    A writer hands a message to a transmitter, in the process (the
    intra-process dispatcher), on the host (shared memory: a block of a
    [Segment] that the notifier announces) or over the network
    (RTPS).  On the side of the readers a dispatcher finds the
    [ListenerHandler] of the channel, whose signals call the listeners; a
    listener puts the message into the [CacheBuffer] of every [DataVisitor] of
    the channel ([DataDispatcher]) and wakes the visitors ([DataNotifier]),
    which fetch in order and, for several channels, fuse.  A visitor belongs to
    a coroutine, which the scheduler puts into a queue and a processor runs.
    Intra-process readers and writers of the [blocker] directory skip all this:
    they share a [Blocker] that keeps the latest messages.  Timers put their
    callbacks on a timing wheel.  Services and parameters are requests and
    answers over two channels.  Which writers, readers, nodes and services
    there are is what the managers of the topology keep in warehouses and in a
    [Graph].  Recordings are files of chunks that a thread writes and a viewer
    plays back.  Programs load components, record, play and show what there is.
    Below all of it lie lock-free containers, queues, pools and locks.

    ** Files

    Each file says in its header which sources it models; definitions keep the
    names of the functions and types they model.

    - [Prelude]: machine integers ([wrap], [swrap]), arrays indexed by machine
      integers ([zget], [zset]), transition systems ([trace], [ev_run]) and the
      simulation theorems that all interleavings below go through.
    - [AtomicHashMap] (base/atomic_hash_map.h): buckets as sorted lists,
      sequentially and as interleaved compare-and-swaps on a heap of nodes; the
      class [KVStore] is what the data path and the dispatchers assume of it.
    - [BoundedQueue] (base/bounded_queue.h): ring, sequential and interleaved.
    - [RWLock] (base/atomic_rw_lock.h, reentrant_rw_lock.h, rw_lock_guard.h):
      [RWSpec] is the abstract lock, which [ShmBlock] refines too.
    - [ObjectPool] (base/object_pool.h, concurrent_object_pool.h).
    - [Signal] (base/signal.h), [Listener] (transport/message/
      listener_handler.h, transport/dispatcher/dispatcher.h, .cc) and
      [IntraDispatcher] (transport/dispatcher/intra_dispatcher.h): who is
      called for a message.
    - [CacheBuffer], [DataVisitor], [DataDispatcher] (data/): the data path.
    - [Blocker] (blocker/): blockers, their manager, intra readers and writers.
    - [TimingWheel], [Timer] (timer/).
    - [Message] (message/message_header.h, transport/common/identity.h,
      transport/message/message_info.h, history.h, transport/shm/
      readable_info.h): what is on the wire and in the history.
    - [ShmBlock] (transport/shm/shm_conf.h, block.h), [Segment] (segment.h,
      posix_segment.h, state.h), [Notifier] (condition_notifier.h, .cc) and
      [ShmTransport] (transmitter/shm_transmitter.h, dispatcher/
      shm_dispatcher.h, .cc): sizes, block locks, the life of a segment of
      shared memory that processes create, replace and remove, announcements,
      and a message through all of it.
    - [Croutine] (croutine/, scheduler/processor.cc, task/task_manager.cc),
      [Scheduler] (scheduler/): coroutines that wait for data, and the two
      policies that choose among them.
    - [GlobalData] (common/global_data.h, .cc): names and their numbers.
    - [Graph] (service_discovery/container/graph.h): who gets data from whom.
      [Warehouse] (container/, role/), [Managers] (specific_manager/),
      [ChannelTracking], [Duplicates] and [Topology] (topology_manager.cc): who
      is in the topology; the class [Warehouse] is what the managers assume.
    - [Services] (service/), [Parameters] (parameter/).
    - [RecordFile] (record/file/), [RecordFlush] (the thread of
      record_file_writer.cc), [RecordReader], [RecordViewer], [RecordWriter]
      (record/) and [RecordPlayback], which puts them together; the classes
      [Proto], [Source] and [FileWriter] are what they assume of protobuf, of
      readers and of file writers.
    - [Hybrid] (transport/transmitter/hybrid_transmitter.h,
      receiver/hybrid_receiver.h), [Channels] (node/writer.h, reader.h,
      reader_base.h) and [Delivery]: writers and readers of several processes
      that choose their ways by the announcements of each other.  [Rtps]
      (transport/rtps/, the transmitters and receivers of one way,
      transport.h, endpoint.cc): the way over the network up to the library,
      and the choice of the way.  [XsiSegment] (shm/xsi_segment.cc,
      segment_factory.cc) does for System V what [Segment] does for POSIX, and
      [Multicast] (shm/multicast_notifier.cc, notifier_factory.cc) over sockets
      what [Notifier] does in shared memory.
    - [NodeData] (node/node.h, node.cc, reader.h, node_channel_impl.h,
      node_service_impl.h): what the readers of a node hold and show.
    - [MessageTraits] (message/message_traits.h, raw_message.h, py_message.h)
      and [ProtobufFactory] (message/protobuf_factory.cc): messages of any type
      behind a header, and the descriptions of types that writers announce.
    - [Component] (component/, node/node.h, node_channel_impl.h): components of
      any number of channels, and timer components.
    - [ClassLoader] (class_loader/) and [Mainboard] (class_loader_manager.h,
      .cc, mainboard/module_controller.h, .cc): libraries, their classes, and
      the program that loads components and takes them down.
    - [RecordTools] (tools/cyber_recorder/spliter.cc, recoverer.cc), [Player]
      (player/) and [Recorder] (recorder.cc): the tools that copy, play and make
      recordings, with their threads.
    - [UnboundedQueue], [ThreadSafeQueue] and [ThreadPool] (base/): a queue
      without locks, one with, and workers that wait for a bounded one.
    - [Logging] (logger/): files of bounded size, and the thread that writes
      them.  [PerfEvents] (event/): events of tasks and transports.
    - [Time] (time/, common/time_conversion.h), [Poller] and [PollHandler] (io/):
      rates and conversions; coroutines that wait for a descriptor.
    - [Lifecycle] (init.cc, state.cc, sysmo/) and [PyCyber]
      (python/internal/py_cyber.h, python/cyber_py3/cyber.py): the life of a
      process, and what its python bindings add.
    - [CommandLine] (mainboard/module_argument.cc, tools/cyber_recorder/main.cc)
      and [Monitor] (tools/cyber_monitor/): what programs are asked to do, and
      the table of channels that the monitor shows.

    ** State and operations

    State is passed explicitly.  A class is a [Record] with its fields, an
    operation a function on it; code with several failing calls runs in a monad
    ([Segment.M]).  Concurrent code is a set of threads, each at a program
    counter between two atomic accesses; [exec] takes one labelled step (a
    label names the thread and, for a weak compare-and-swap, whether it fails
    without reason) and may show an event, an operation's effect or answer.
    Memory is sequentially consistent: the acquire and release annotations of
    the source are not weakened, and plain fields that several threads use are
    read and written one access at a time.  Where the source holds a lock for a
    whole operation the operation is one step; where it does not ([Shutdown] and
    [CreateTask] of the scheduler, the fusion of several channels, the callbacks
    of a recorder, the workers of a pool) the steps between the locks are
    interleaved.  What is still one step without a lock says so where it is
    defined ([Node_Observe], [TopologyCallback] of the recorder).

    ** What is proved

    - Refinements of an abstract specification, for every interleaving: the
      bounded queue is a FIFO, a hash map bucket a map, [AtomicRWLock] and the
      block lock are readers-writer locks, the concurrent pool hands out no
      node twice, emissions of a signal call live slots only, the reference
      count of a segment counts, the notifier is a queue for a listener that
      keeps up.
    - Refinements of sequential components: handlers and dispatchers implement
      a table of listeners, the channel manager follows the live roles.
    - Invariants of whole subsystems by induction over sequences of operations:
      visitors read every channel in order and, after the message at which
      they start, without gaps except where the ring overtakes them, dispatch
      reaches the buffers of the live visitors and the callbacks, an
      intra-process write reaches exactly the live readers, a coroutine is run
      by one processor at a time and woken by the arrival of data (in the rings
      of a visitor or any other [Mailbox]), the tables of the scheduler agree,
      futures get the answers to their own requests, a
      segment of shared memory stays well-formed whatever the system calls
      answer.
    - Functional correctness with termination: a timer task fires at its tick,
      [GetDirectionOf] is reachability, a search for a free block finds one, a
      try-lock for reading is wait-free, the next routine has the highest
      priority, a viewer plays several recordings merged by time.
    - Round trips and bounds: message headers and infos, histories, parameters,
      names, the drift of periodic timers, sizes of shared memory, and
      recordings: what is written is read back for every schedule of the flush
      thread, segments split it where they should, and of a file that ends at
      any byte what was in it is recovered.
    - Conditions: where a property only holds for runs in which something does
      not happen (two programs with channels of one key, a [Stop] in the middle
      of a call, a swap that overtakes the flush thread), the property names the
      condition and a defect below is a run that breaks it.
    - Defects, each a theorem with a concrete run (see the files): the theorems
      whose names say what goes wrong, such as [get_copy_use_after_free],
      [enqueue_spurious_full], [reentrant_rwlock_wedges],
      [failed_reader_steals_subscription], [add_between_indices_fires_early],
      [reconnected_listener_is_never_released],
      [intra_remove_silences_other_readers],
      [write_after_removal_dereferences_null],
      [late_reader_leaves_the_blocks], [edge_keys_collide],
      [create_task_loses_message], [dead_writer_silences_listeners],
      [oversized_message_overflows], [participant_leave_forgets_process],
      [duplicate_leave_forgets_survivor], [close_can_hang],
      [swapped_chunks_play_nothing], [full_disk_goes_unnoticed],
      [damaged_section_loops_for_ever], [reopened_file_has_no_channels],
      [history_channels_collide], [reader_shutdown_silences_sibling],
      [proc_after_shutdown], [task_created_during_shutdown], [interval_is_not_kept],
      [bad_interval_goes_unnoticed], [colliding_classes_close_a_library],
      [unknown_library_leaves_null], [clear_leaves_libraries_open];
      of recordings [unknown_section_ends_recovery], [unfinished_split_fails],
      [black_channels_underflow], [writer_in_between_is_missed],
      [early_message_is_dropped], [leaving_writer_is_announced],
      [counts_get_lost], [time_of_another_message],
      [message_after_the_close]; of queues and pools [node_released_twice],
      [second_consumer_reads_deleted_node],
      [dequeue_misses_an_element], [break_can_be_missed], [wake_up_lost],
      [destructor_hangs], [waiting_tasks_are_dropped],
      [full_queue_drops_the_task], [tasks_begin_out_of_order]; of loggers and events
      [unbracketed_message_goes_astray], [late_message_stays],
      [unknown_level_wedges_the_logger], [renamed_log_keeps_length],
      [pending_events_are_lost]; of times and pollers [gps_time_ends_in_2038],
      [second_request_unwatched], [renewed_request_unheard],
      [stale_event_answers_new_request], [answer_before_yield_is_lost],
      [second_block_strands_the_first], [unblock_strands_the_waiter],
      [session_outside_coroutine_spins]; of messages and ways
      [empty_message_is_not_read], [huge_message_overruns],
      [type_of_python_message_is_lost], [description_doubles],
      [channels_of_one_key_collide], [channel_of_key_zero_is_never_shared],
      [deleted_receiver_listens], [unopened_transmitter_is_returned],
      [huge_depth_is_refused], [any_twenty_bytes_are_a_notice]; of processes
      [signal_during_init_is_lost], [late_signal_clears_twice],
      [py_init_pretends], [waiting_read_drops_a_message],
      [early_message_delays_callbacks], [early_request_shifts_answers],
      [writer_of_unknown_type_crashes], [messages_are_read_as_the_first],
      [depth_0_shows_nothing], [channel_has_one_reader_for_ever]; and of
      programs [grown_screen_runs_off_the_end], [space_on_missing_line],
      [other_monitor_taken_for_own], [failed_channel_is_listed],
      [abbreviated_option_reads_beyond_table], [negative_start_is_taken],
      [huge_segment_overflows], [printed_clock_is_not_read],
      [second_file_of_one_d_exits].

    ** Bounds and fuel

    Counters of 64 bits that only grow (queue indices, buffer positions, the
    numbers of requests and announcements) are kept at their width; theorems
    about them take a bound on the number of steps or writes below the
    wrap-around, stated in each.  Lock words of 32 bits take a bound of [2^30]
    or [2^31] steps.  The sequence number of a segment does wrap, and the search
    for a block is proved across the wrap.
    Loops with fuel: the traversal of [Graph] ([Graph.enough], more than there
    are edges), [CacheBuffer.FetchMulti_loop] (the number of messages asked
    for), [Blocker.pop_back_while] (the length of the queue),
    [GlobalData.probe] (more than there are names), [Topology.put_digits] (the
    ten digits of an [int]), [CommandLine.loop] (one more than there are
    characters to read), [RecordReader.ReadMessage] (more than twice the
    sections of the file) and [RecordViewer.FillBuffer] (the windows between
    begin and end, [RecordViewer.enough]); their lemmas show that the fuel
    suffices.  A damaged record file can use up any fuel
    ([damaged_section_loops_for_ever]).
    Loops that may go on for ever ([Segment.GetNextWritableBlockIndex]) take the
    list of their rounds instead, and a theorem says when they end.

    ** Not modelled

    The libraries behind the code, protobuf, Fast RTPS and python, are
    parameters or interfaces with the laws of their documentation.  Hash
    functions, uuids, serialisation and [sizeof] are parameters.  The C
    library is modelled where a result hangs on it ([getopt_long], [stoi],
    [strptime], [strftime] in [CommandLine] and [Topology]), the system where a
    component is about it (shared memory, sockets of the group, [epoll]), each
    call with all its answers.
    Left out, and why: the conversions of arguments in the python bindings
    (py_cyber.cc, py_record.cc, py_time.cc and others), the drawing of the
    monitor (screen.cc, general_message_base.cc, the rendering of messages) and
    the usage texts, which have no state of their own; the settings of a Fast
    RTPS participant and its generated type, which the library reads; files and
    environment (common/file.cc, util.h), which are calls of the system; macros
    and template dispatch (base/macros.h, for_each.h); floating point times and
    rates, for which numbers of one unit or parameters stand. *)

From stdpp Require Export base tactics numbers list gmap strings fin_maps.
From Stdlib Require Export ZArith Lia Sorted.

Declare Scope cyber_scope.
Delimit Scope cyber_scope with cyber.
#[global] Open Scope Z_scope.

(** ** Machine integers

    A C++ [uintN_t] is a [Z] in [[0, 2^N)], an [intN_t] a [Z] in
    [[-2^(N-1), 2^(N-1))]; arithmetic wraps through [wrap] and [swrap]. *)

Definition wrap (w z : Z) : Z := z mod 2 ^ w.

Definition swrap (w z : Z) : Z := (z + 2 ^ (w - 1)) mod 2 ^ w - 2 ^ (w - 1).

Abbreviation u64 := (wrap 64).
Abbreviation u32 := (wrap 32).
Abbreviation i64 := (swrap 64).
Abbreviation i32 := (swrap 32).

Definition in_u (w z : Z) : Prop := 0 ≤ z < 2 ^ w.

Definition in_s (w z : Z) : Prop := - 2 ^ (w - 1) ≤ z < 2 ^ (w - 1).

#[global] Instance in_u_dec w z : Decision (in_u w z).
Proof. unfold in_u. apply _. Defined.

#[global] Instance in_s_dec w z : Decision (in_s w z).
Proof. unfold in_s. apply _. Defined.

Create HintDb cyber.

Section Words.
Context (w : Z) (Hw : 0 < w).

Lemma pow_pos_w : 0 < 2 ^ w.
Proof using Hw. apply Z.pow_pos_nonneg; lia. Qed.

Lemma pow_half_w : 2 ^ w = 2 * 2 ^ (w - 1).
Proof using Hw. rewrite <- (Z.pow_succ_r 2 (w - 1)) by lia. f_equal; lia. Qed.

Lemma wrap_small z : in_u w z → wrap w z = z.
Proof using Type. unfold in_u, wrap. intros. apply Z.mod_small; lia. Qed.

Lemma wrap_bound z : in_u w (wrap w z).
Proof using Hw. unfold in_u, wrap. apply Z.mod_pos_bound, pow_pos_w. Qed.

Lemma wrap_idemp z : wrap w (wrap w z) = wrap w z.
Proof using Hw. apply wrap_small, wrap_bound. Qed.

Lemma wrap_add_l a b : wrap w (wrap w a + b) = wrap w (a + b).
Proof using Type. unfold wrap. apply Zplus_mod_idemp_l. Qed.

Lemma wrap_add_r a b : wrap w (a + wrap w b) = wrap w (a + b).
Proof using Type. unfold wrap. apply Zplus_mod_idemp_r. Qed.

Lemma wrap_sub_l a b : wrap w (wrap w a - b) = wrap w (a - b).
Proof using Type. unfold wrap. apply Zminus_mod_idemp_l. Qed.

Lemma wrap_sub_r a b : wrap w (a - wrap w b) = wrap w (a - b).
Proof using Type. unfold wrap. apply Zminus_mod_idemp_r. Qed.

Lemma swrap_small z : in_s w z → swrap w z = z.
Proof using Hw.
  unfold in_s, swrap. intros. rewrite Z.mod_small; [lia|].
  rewrite pow_half_w. lia.
Qed.

Lemma swrap_bound z : in_s w (swrap w z).
Proof using Hw.
  unfold in_s, swrap.
  pose proof (Z.mod_pos_bound (z + 2 ^ (w - 1)) (2 ^ w) pow_pos_w).
  pose proof pow_half_w. lia.
Qed.

Lemma wrap_swrap z : wrap w (swrap w z) = wrap w z.
Proof using Type.
  unfold wrap, swrap. rewrite Zminus_mod_idemp_l. f_equal; lia.
Qed.

Lemma swrap_wrap z : swrap w (wrap w z) = swrap w z.
Proof using Type. unfold wrap, swrap. rewrite Zplus_mod_idemp_l. done. Qed.
End Words.

Create Rewrite HintDb cyber.
#[export] Hint Rewrite wrap_add_l wrap_add_r wrap_sub_l wrap_sub_r
  wrap_swrap swrap_wrap : cyber.

(** [wordlia]: linear arithmetic with the widths unfolded. *)
Ltac wordlia :=
  unfold in_u, in_s in *;
  repeat match goal with
  | H : context [2 ^ 64] |- _ => change (2 ^ 64) with 18446744073709551616 in H
  | H : context [2 ^ 32] |- _ => change (2 ^ 32) with 4294967296 in H
  | H : context [2 ^ (64 - 1)] |- _ =>
      change (2 ^ (64 - 1)) with 9223372036854775808 in H
  | H : context [2 ^ (32 - 1)] |- _ => change (2 ^ (32 - 1)) with 2147483648 in H
  end;
  change (2 ^ 64) with 18446744073709551616;
  change (2 ^ 32) with 4294967296;
  change (2 ^ (64 - 1)) with 9223372036854775808;
  change (2 ^ (32 - 1)) with 2147483648;
  lia.

(** ** Arrays: lists indexed by machine integers *)

Definition zget {A} (l : list A) (i : Z) : option A :=
  if decide (0 ≤ i) then l !! Z.to_nat i else None.

Definition zset {A} (l : list A) (i : Z) (x : A) : list A :=
  if decide (0 ≤ i) then <[Z.to_nat i := x]> l else l.

Definition zlen {A} (l : list A) : Z := Z.of_nat (length l).

Section Arrays.
Context {A : Type}.
Implicit Types l : list A.

Lemma zlen_zset l i x : zlen (zset l i x) = zlen l.
Proof. unfold zlen, zset. case_decide; [|done]. by rewrite length_insert. Qed.

Lemma zlen_nonneg l : 0 ≤ zlen l.
Proof. unfold zlen. lia. Qed.

Lemma zget_zset_eq l i x : 0 ≤ i < zlen l → zget (zset l i x) i = Some x.
Proof.
  unfold zget, zset, zlen. intros. rewrite !decide_True by lia.
  apply list_lookup_insert_eq. lia.
Qed.

Lemma zget_zset_ne l i j x : i ≠ j → zget (zset l i x) j = zget l j.
Proof.
  unfold zget, zset. intros. repeat case_decide; try done.
  apply list_lookup_insert_ne. lia.
Qed.

Lemma zget_is_Some l i : 0 ≤ i < zlen l → is_Some (zget l i).
Proof.
  unfold zget, zlen. intros. rewrite decide_True by lia.
  apply lookup_lt_is_Some. lia.
Qed.

Lemma zget_Some_range l i x : zget l i = Some x → 0 ≤ i < zlen l.
Proof.
  unfold zget, zlen. case_decide; [|done]. intros ?%lookup_lt_Some. lia.
Qed.

Lemma zget_None l i : zlen l ≤ i → zget l i = None.
Proof.
  unfold zget, zlen. intros. rewrite decide_True by lia.
  apply lookup_ge_None. lia.
Qed.

Lemma zget_zset l i j x :
  zget (zset l i x) j =
  if decide (i = j ∧ 0 ≤ i < zlen l) then Some x else zget l j.
Proof.
  case_decide as H.
  - destruct H as [-> H]. by apply zget_zset_eq.
  - destruct (decide (i = j)) as [->|]; [|by apply zget_zset_ne].
    unfold zset, zget in *. case_decide; [|done].
    rewrite list_insert_ge; [done|]. unfold zlen in *. lia.
Qed.

Lemma zget_replicate n (x : A) i :
  0 ≤ i < Z.of_nat n → zget (replicate n x) i = Some x.
Proof.
  intros. unfold zget. rewrite decide_True by lia.
  apply lookup_replicate_2. lia.
Qed.

Lemma zlen_replicate n (x : A) : zlen (replicate n x) = Z.of_nat n.
Proof. unfold zlen. by rewrite length_replicate. Qed.
End Arrays.

#[export] Hint Rewrite @zlen_zset @zlen_replicate : cyber.
#[export] Hint Resolve zlen_nonneg : cyber.

(** Two positions of a ring of [n] cells that are less than [n] apart fall
    into the same cell only when they are equal. *)
Lemma ring_index_inj n i j :
  0 < n → i ≤ j < i + n → i mod n = j mod n → i = j.
Proof.
  intros Hn Hij Heq.
  assert (Hd : (j - i) mod n = 0).
  { rewrite Zminus_mod, Heq, Z.sub_diag. apply Z.mod_0_l. lia. }
  apply Z.mod_divide in Hd; [|lia]. destruct Hd as [k Hk].
  assert (k = 0) by nia. nia.
Qed.

(** Two positions of a window of at most [L] positions of a ring of [L] cells. *)
Lemma ring_window_inj L m n k k' :
  n - m ≤ L → m ≤ k < n → m ≤ k' < n → k mod L = k' mod L → k = k'.
Proof.
  intros HL Hk Hk' E. destruct (Z_le_gt_dec k k').
  - apply (ring_index_inj L); [lia|lia|done].
  - symmetry. apply (ring_index_inj L); [lia|lia|done].
Qed.

(** A longer array. *)
Lemma zlen_snoc {A} (l : list A) x : zlen (l ++ [x]) = zlen l + 1.
Proof. unfold zlen. rewrite length_app. simpl. lia. Qed.

Lemma zget_snoc {A} (vs : list A) v i :
  0 ≤ i → zget (vs ++ [v]) i = if decide (i = zlen vs) then Some v else zget vs i.
Proof.
  unfold zget, zlen. intros. rewrite !(decide_True (P := 0 ≤ i)) by lia. case_decide as E.
  - rewrite lookup_app_r by lia. by replace (Z.to_nat i - length vs)%nat with 0%nat by lia.
  - destruct (decide (Z.to_nat i < length vs)%nat).
    + by rewrite lookup_app_l by lia.
    + rewrite !lookup_ge_None_2; [done|lia|]. rewrite length_app. simpl. lia.
Qed.

Lemma zget_snoc_Some {A} (l : list A) x i y :
  zget (l ++ [x]) i = Some y ↔ zget l i = Some y ∨ (i = zlen l ∧ y = x).
Proof.
  unfold zget, zlen. case_decide; [|split; [done|intros [?|[]]; [done|lia]]].
  rewrite lookup_snoc_Some. split; (intros [?|[? ?]]; [left|right]); intuition (try lia; try congruence).
  - apply lookup_lt_Some in H0. lia.
Qed.

(** ** Filters *)

Lemma filter_iff_eq {A} (P Q : A → Prop) `{!∀ x, Decision (P x), !∀ x, Decision (Q x)} (l : list A) :
  (∀ x, x ∈ l → P x ↔ Q x) → filter P l = filter Q l.
Proof.
  induction l as [|x l IH]; intros Hpq; [done|]. rewrite !filter_cons.
  assert (Hl : filter P l = filter Q l) by (apply IH; intros; apply Hpq; by right).
  pose proof (Hpq x ltac:(left)). rewrite Hl.
  destruct (decide (P x)), (decide (Q x)); tauto.
Qed.

Lemma filter_all {A} (P : A → Prop) `{!∀ x, Decision (P x)} (l : list A) :
  (∀ x, x ∈ l → P x) → filter P l = l.
Proof.
  induction l as [|x l IH]; intros HP; [done|]. rewrite filter_cons_True by (apply HP; left).
  f_equal. apply IH. intros y Hy. apply HP. by right.
Qed.

Lemma filter_none {A} (P : A → Prop) `{!∀ x, Decision (P x)} (l : list A) :
  (∀ x, x ∈ l → ¬ P x) → filter P l = [].
Proof.
  induction l as [|x l IH]; intros HP; [done|]. rewrite filter_cons_False by (apply HP; left).
  apply IH. intros y Hy. apply HP. by right.
Qed.

(** ** Transition systems

    [trace step s ls s'] : from [s], the labelled steps [ls] lead to [s']. *)

Section Transitions.
Context {S L : Type} (step : S → L → S → Prop).

Inductive trace : S → list L → S → Prop :=
| trace_nil s : trace s [] s
| trace_snoc s ls s' l s'' :
    trace s ls s' → step s' l s'' → trace s (ls ++ [l]) s''.

Definition reachable (init s : S) : Prop := ∃ ls, trace init ls s.

Lemma trace_invariant (I : S → Prop) s ls s' :
  I s → (∀ a l b, I a → step a l b → I b) → trace s ls s' → I s'.
Proof. intros H0 Hstep. induction 1; eauto. Qed.

(** An invariant that may mention the labels seen so far. *)
Lemma trace_history_invariant (I : S → list L → Prop) s ls s' :
  I s [] → (∀ a h l b, I a h → step a l b → I b (h ++ [l])) →
  trace s ls s' → I s' ls.
Proof. intros H0 Hstep. induction 1; eauto. Qed.

Lemma trace_cons s l s' ls s'' :
  step s l s' → trace s' ls s'' → trace s (l :: ls) s''.
Proof.
  intros Hs. induction 1 as [t|t ls u k v Ht IH Hk].
  - apply (trace_snoc s [] s l t); [constructor|done].
  - rewrite app_comm_cons. eapply trace_snoc; eauto.
Qed.

Lemma trace_app s ls s' ls' s'' :
  trace s ls s' → trace s' ls' s'' → trace s (ls ++ ls') s''.
Proof.
  intros H1. induction 1; [by rewrite app_nil_r|].
  rewrite app_assoc. econstructor; eauto.
Qed.

Lemma reachable_step init s l s' :
  reachable init s → step s l s' → reachable init s'.
Proof. intros [ls H] Hs. exists (ls ++ [l]). by econstructor. Qed.
End Transitions.

#[export] Hint Constructors trace : cyber.
#[export] Hint Resolve trace_cons trace_app reachable_step : cyber.

(** Executable step functions: [run] follows a list of labels and fails when
    one of them is not enabled; it yields a trace of the induced relation. *)
Section Run.
Context {S L : Type} (exec : S → L → option S).

Definition exec_step (s : S) (l : L) (s' : S) : Prop := exec s l = Some s'.

Fixpoint run (s : S) (ls : list L) : option S :=
  match ls with
  | [] => Some s
  | l :: ls => match exec s l with Some s' => run s' ls | None => None end
  end.

Lemma run_app s ls ls' :
  run s (ls ++ ls') = match run s ls with Some s' => run s' ls' | None => None end.
Proof.
  revert s. induction ls as [|l ls IH]; intros s; simpl; [done|].
  destruct (exec s l); auto.
Qed.

Lemma run_trace s ls s' : run s ls = Some s' ↔ trace exec_step s ls s'.
Proof.
  split.
  - revert s. induction ls as [|l ls IH]; simpl; intros s H.
    + simplify_eq. constructor.
    + destruct (exec s l) as [s1|] eqn:E; [|done].
      apply (trace_cons _ s l s1); auto.
  - induction 1 as [|s ls t l u Ht IH Hs]; [done|].
    rewrite run_app, IH. simpl. unfold exec_step in Hs. by rewrite Hs.
Qed.
End Run.

(** A forward simulation: a concrete step either stutters or is matched by
    one step of the specification.  [obs] is the event a label shows. *)
Section Simulation.
Context {C A L E : Type}.
Context (cstep : C → L → C → Prop) (astep : A → E → A → Prop).
Context (obs : L → option E) (R : C → A → Prop).
Context (Hsim : ∀ c l c' a, R c a → cstep c l c' →
  match obs l with
  | None => R c' a
  | Some e => ∃ a', astep a e a' ∧ R c' a'
  end).

Lemma simulation_trace c ls c' a :
  R c a → trace cstep c ls c' →
  ∃ a', trace astep a (omap obs ls) a' ∧ R c' a'.
Proof using Hsim.
  intros HR. induction 1 as [|s ls s' l s'' Ht IH Hs].
  - exists a. split; [constructor|done].
  - destruct (IH HR) as (a1 & Ha & HR1).
    pose proof (Hsim _ _ _ _ HR1 Hs) as H. rewrite omap_app. simpl.
    destruct (obs l) as [e|].
    + destruct H as (a2 & Hst & HR2). exists a2. split; [|done].
      by econstructor.
    + exists a1. by rewrite app_nil_r.
Qed.
End Simulation.

(** [inv_some]: decompose a successful chain of option matches. *)
Ltac inv_some :=
  repeat match goal with
  | H : Some _ = Some _ |- _ => injection H as H; subst
  | H : None = Some _ |- _ => discriminate H
  | H : match ?x with _ => _ end = Some _ |- _ => destruct x eqn:?
  end; simplify_eq/=.

(** [done_cases]: split every test in the goal and close by computation. *)
Ltac done_cases := repeat (case_match || case_decide); simplify_eq/=; try done.

(** Executable steps that may show an event: labels of the induced relation
    carry the event, which the simulation observes. *)
Section EventRun.
Context {S L E : Type} (exec : S → L → option (S * option E)).

Definition ev_step (s : S) (l : L * option E) (s' : S) : Prop :=
  exec s l.1 = Some (s', l.2).

Fixpoint ev_run (s : S) (ls : list L) : option (S * list E) :=
  match ls with
  | [] => Some (s, [])
  | l :: ls =>
      match exec s l with
      | Some (s1, e) =>
          match ev_run s1 ls with
          | Some (s2, es) =>
              Some (s2, match e with Some x => x :: es | None => es end)
          | None => None
          end
      | None => None
      end
  end.

Lemma ev_run_trace s ls s' es :
  ev_run s ls = Some (s', es) →
  ∃ tr, trace ev_step s tr s' ∧ omap snd tr = es ∧ tr.*1 = ls.
Proof.
  revert s s' es. induction ls as [|l ls IH]; simpl; intros s s' es H.
  - simplify_eq. exists []. repeat split. constructor.
  - destruct (exec s l) as [[s1 e]|] eqn:El; [|done].
    destruct (ev_run s1 ls) as [[s2 es2]|] eqn:Er; [|done]. simplify_eq.
    destruct (IH _ _ _ Er) as (tr & Ht & He & Hl).
    exists ((l, e) :: tr). split; [by apply (trace_cons _ s _ s1)|].
    split; [destruct e; simpl; by f_equal|simpl; by f_equal].
Qed.

Lemma ev_run_invariant (I : S → Prop) s ls s' es :
  I s → (∀ a l b e, I a → exec a l = Some (b, e) → I b) →
  ev_run s ls = Some (s', es) → I s'.
Proof.
  intros H0 Hs (tr & Ht & _)%ev_run_trace.
  eapply (trace_invariant ev_step I); [done| |done].
  intros a [l e] b Ha Hab. eapply Hs; eauto.
Qed.

(** The same for runs whose labels all satisfy [P]. *)
Lemma ev_run_invariant_on (I : S → Prop) (P : L → Prop) s ls s' es :
  I s → (∀ a l b e, I a → P l → exec a l = Some (b, e) → I b) → Forall P ls →
  ev_run s ls = Some (s', es) → I s'.
Proof.
  intros H0 Hs HP. revert s s' es H0. induction HP as [|l ls Hl _ IH]; simpl; intros s s' es H0 H.
  - by simplify_eq.
  - destruct (exec s l) as [[s1 e]|] eqn:El; [|done].
    destruct (ev_run s1 ls) as [[s2 es2]|] eqn:Er; [|done]. simplify_eq. eauto.
Qed.

(** A state that keeps [I] and shows nothing, whatever happens. *)
Lemma ev_run_stuck (I : S → Prop) (P : L → Prop) s ls s' es :
  I s → (∀ a l b e, I a → P l → exec a l = Some (b, e) → I b ∧ e = None) → Forall P ls →
  ev_run s ls = Some (s', es) → I s' ∧ es = [].
Proof.
  intros H0 Hs HP. revert s s' es H0. induction HP as [|l ls Hl _ IH]; simpl; intros s s' es H0 H.
  - by simplify_eq.
  - destruct (exec s l) as [[s1 e]|] eqn:El; [|done]. destruct (Hs _ _ _ _ H0 Hl El) as [H1 ->].
    destruct (ev_run s1 ls) as [[s2 es2]|] eqn:Er; [|done]. simplify_eq. eauto.
Qed.

Lemma ev_run_silent s l s1 ls res :
  exec s l = Some (s1, None) → ev_run s1 ls = Some res → ev_run s (l :: ls) = Some res.
Proof. simpl. intros ->. by intros ->; destruct res. Qed.

Lemma ev_run_event s l s1 e ls s2 es :
  exec s l = Some (s1, Some e) → ev_run s1 ls = Some (s2, es) → ev_run s (l :: ls) = Some (s2, e :: es).
Proof. simpl. intros ->. by intros ->. Qed.

Lemma ev_run_app s ls ls' s1 es1 :
  ev_run s ls = Some (s1, es1) →
  ev_run s (ls ++ ls') =
    match ev_run s1 ls' with Some (s2, es2) => Some (s2, es1 ++ es2) | None => None end.
Proof.
  revert s s1 es1. induction ls as [|l ls IH]; simpl; intros s s1 es1 H.
  - simplify_eq. by destruct (ev_run s1 ls') as [[? ?]|].
  - destruct (exec s l) as [[s2 e]|]; [|done].
    destruct (ev_run s2 ls) as [[s3 es3]|] eqn:Er; [|done]. simplify_eq.
    rewrite (IH _ _ _ Er). destruct (ev_run s1 ls') as [[? ?]|]; [|done]. by destruct e.
Qed.
End EventRun.

(** The simulation of labelled executable steps; the relation may depend on
    the number of steps done, and the step hypothesis is only needed while
    that number is below a bound (counters that have not wrapped yet). *)
Section EventSimulation.
Context {S L E A : Type} (exec : S → L → option (S * option E)).
Context (astep : A → E → A → Prop) (bound : nat).
Context (R : nat → S → A → Prop).
Context (Hsim : ∀ n s l s' e a, (n < bound)%nat → R n s a →
  exec s l = Some (s', e) →
  match e with
  | None => R (Datatypes.S n) s' a
  | Some x => ∃ a', astep a x a' ∧ R (Datatypes.S n) s' a'
  end).

Lemma ev_simulation_bounded s ls s' es a :
  R 0 s a → (length ls ≤ bound)%nat → ev_run exec s ls = Some (s', es) →
  ∃ a', trace astep a es a' ∧ R (length ls) s' a'.
Proof using Hsim.
  intros HR Hlen (tr & Ht & <- & <-)%ev_run_trace.
  rewrite length_fmap in *.
  induction Ht as [s|s tr s1 [l e] s2 Ht IH Hs].
  { exists a. split; [constructor|done]. }
  rewrite length_app in *. simpl in *.
  destruct IH as (a1 & Ha & HR1); [done|lia|].
  rewrite omap_app, Nat.add_1_r.
  pose proof (Hsim (length tr) s1 l s2 e a1) as H. simpl.
  destruct e as [x|].
  - destruct H as (a2 & Hst & HR2); [lia|done|done|].
    exists a2. split; [by econstructor|done].
  - exists a1. rewrite app_nil_r. split; [done|]. apply H; [lia|done..].
Qed.
End EventSimulation.

Section EventSimulationAll.
Context {S L E A : Type} (exec : S → L → option (S * option E)).
Context (astep : A → E → A → Prop) (R : S → A → Prop).
Context (Hsim : ∀ s l s' e a, R s a → exec s l = Some (s', e) →
  match e with
  | None => R s' a
  | Some x => ∃ a', astep a x a' ∧ R s' a'
  end).

Lemma ev_simulation s ls s' es a :
  R s a → ev_run exec s ls = Some (s', es) →
  ∃ a', trace astep a es a' ∧ R s' a'.
Proof using Hsim.
  intros HR. apply (ev_simulation_bounded exec astep (length ls) (λ _, R));
    [|done|done].
  intros n s0 l s1 e a0 _. apply Hsim.
Qed.
End EventSimulationAll.

(** The simulation of a run that keeps to states with [ok] and labels with
    [P]. *)
Section EventSimulationWhile.
Context {S L E A : Type} (exec : S → L → option (S * option E)) (ok : S → bool).
Context (P : L → Prop) (astep : A → E → A → Prop) (R : S → A → Prop).

Fixpoint always (s : S) (ls : list L) : bool :=
  ok s &&
  match ls with
  | [] => true
  | l :: ls => match exec s l with Some (s', _) => always s' ls | None => true end
  end.

Context (Hsim : ∀ s l s' e a, ok s = true → ok s' = true → P l → R s a → exec s l = Some (s', e) →
  match e with
  | None => R s' a
  | Some x => ∃ a', astep a x a' ∧ R s' a'
  end).

Lemma ev_simulation_while s ls s' es a :
  R s a → Forall P ls → always s ls = true → ev_run exec s ls = Some (s', es) →
  ∃ a', trace astep a es a' ∧ R s' a'.
Proof using Hsim.
  intros HR HP. revert s a es HR. induction HP as [|l ls Hl HP IH]; simpl; intros s a es HR Hok Hrun.
  - simplify_eq. exists a. split; [constructor|done].
  - apply andb_true_iff in Hok as [Hs Hok]. destruct (exec s l) as [[s1 e]|] eqn:El; [|done].
    destruct (ev_run exec s1 ls) as [[s2 es2]|] eqn:Er; [|done]. simplify_eq.
    assert (Hs1 : ok s1 = true) by (destruct ls; simpl in Hok; by apply andb_true_iff in Hok as [? _]).
    pose proof (Hsim s l s1 e a Hs Hs1 Hl HR El) as H. destruct e as [x|].
    + destruct H as (a1 & Ha & HR1). destruct (IH s1 a1 es2 HR1 Hok Er) as (a2 & Ht & HR2).
      exists a2. split; [by eapply trace_cons|done].
    + by apply IH with (s := s1).
Qed.
End EventSimulationWhile.
