(* ===== verification/AtomicHashMap.v ===== *)
(** * [cyber/base/atomic_hash_map.h]: the fixed-size lock-free hash map

    A table of [2^bits] buckets; a bucket is a list of entries sorted by key
    behind a sentinel.  Sequential operations are in [Section Bucket] and
    [Section Table]; [Module Concurrent] interleaves the atomic loads and
    compare-and-swaps of one bucket.  [KVStore] is the interface the data
    path relies on. *)

From S2P Require Import Prelude.

(** What the clients of the map rely on: a finite map that answers with the
    last value set and whose values may be changed in place through the
    pointer [Get] hands out. *)
Class KVStore (M V : Type) := {
  kv_get : Z → M → option V;
  kv_set : Z → V → M → M;
  kv_modify : Z → (V → V) → M → M;
  kv_empty : M;
  kv_wf : M → Prop;
}.

Class KVStoreLaws (M V : Type) `{!KVStore M V} := {
  kv_wf_empty : kv_wf kv_empty;
  kv_wf_set k v m : in_u 64 k → kv_wf m → kv_wf (kv_set k v m);
  kv_wf_modify k f m : in_u 64 k → kv_wf m → kv_wf (kv_modify k f m);
  kv_get_empty k : in_u 64 k → kv_get k kv_empty = None;
  kv_get_set k k' v m : in_u 64 k → in_u 64 k' → kv_wf m →
    kv_get k' (kv_set k v m) = if decide (k = k') then Some v else kv_get k' m;
  kv_get_modify k k' f m : in_u 64 k → in_u 64 k' → kv_wf m →
    kv_get k' (kv_modify k f m) =
    if decide (k = k') then f <$> kv_get k m else kv_get k' m;
}.

Section Bucket.
Context {V : Type}.

Record Entry := mkEntry { ekey : Z; evalue : V }.

(** The entries after the sentinel [head_], in list order. *)
Definition Bucket := list Entry.

Fixpoint Bucket_Has (key : Z) (b : Bucket) : bool :=
  match b with
  | [] => false
  | target :: rest =>
      if ekey target <? key then Bucket_Has key rest else ekey target =? key
  end.

(** [Find] leaves [prev] and [target]: here the number of entries before
    the target ([prev] is the one just before it, the sentinel at 0). *)
Fixpoint Bucket_Find (key : Z) (b : Bucket) : bool * nat :=
  match b with
  | [] => (false, 0%nat)
  | target :: rest =>
      if ekey target =? key then (true, 0%nat)
      else if key <? ekey target then (false, 0%nat)
      else let '(found, i) := Bucket_Find key rest in (found, S i)
  end.

(** Without interference both compare-and-swaps succeed at once. *)
Definition Bucket_Insert (key : Z) (value : V) (b : Bucket) : Bucket :=
  let '(found, i) := Bucket_Find key b in
  if found then alter (λ e, mkEntry (ekey e) value) i b
  else take i b ++ mkEntry key value :: drop i b.

Definition Bucket_Get (key : Z) (b : Bucket) : option V :=
  let '(found, i) := Bucket_Find key b in
  if found then evalue <$> b !! i else None.

(** A write through the [V **] that [Get] stored. *)
Definition Bucket_modify (key : Z) (f : V → V) (b : Bucket) : Bucket :=
  let '(found, i) := Bucket_Find key b in
  if found then alter (λ e, mkEntry (ekey e) (f (evalue e))) i b else b.

Definition bsorted (b : Bucket) : Prop := StronglySorted Z.lt (ekey <$> b).

Definition babs (b : Bucket) : gmap Z V :=
  list_to_map ((λ e, (ekey e, evalue e)) <$> b).

Lemma bsorted_inv e b :
  bsorted (e :: b) → bsorted b ∧ ∀ k, k ∈ ekey <$> b → ekey e < k.
Proof.
  unfold bsorted. rewrite fmap_cons. intros H.
  apply StronglySorted_inv in H. destruct H as [H1 H2]. split; [done|].
  by rewrite Forall_forall in H2.
Qed.

Lemma bsorted_cons e b :
  bsorted b → (∀ k, k ∈ ekey <$> b → ekey e < k) → bsorted (e :: b).
Proof.
  unfold bsorted. intros H1 H2. rewrite fmap_cons. constructor; [done|].
  by apply Forall_forall.
Qed.

Lemma babs_None key b :
  bsorted b → (∀ k, k ∈ ekey <$> b → key < k) → babs b !! key = None.
Proof.
  intros _ H. unfold babs. apply not_elem_of_list_to_map_1.
  rewrite <- list_fmap_compose. intros Hin. apply H in Hin. lia.
Qed.

Lemma babs_cons e b : babs (e :: b) = <[ekey e := evalue e]> (babs b).
Proof. done. Qed.

Lemma babs_lt e b key :
  bsorted (e :: b) → key < ekey e → babs (e :: b) !! key = None.
Proof.
  intros [Hb Hlt]%bsorted_inv Hk. rewrite babs_cons, lookup_insert_ne by lia.
  apply babs_None; [done|]. intros k Hin. apply Hlt in Hin. lia.
Qed.

Lemma Bucket_Get_abs key b : bsorted b → Bucket_Get key b = babs b !! key.
Proof.
  unfold Bucket_Get. induction b as [|e b IH]; intros Hs; [done|]. simpl.
  destruct (Z.eqb_spec (ekey e) key) as [<-|Hne].
  { by rewrite babs_cons, lookup_insert_eq. }
  destruct (Z.ltb_spec key (ekey e)); [by rewrite babs_lt|].
  apply bsorted_inv in Hs as [Hb _]. specialize (IH Hb).
  rewrite babs_cons, lookup_insert_ne by done.
  destruct (Bucket_Find key b) as [[] i]; simpl; done.
Qed.

Lemma Bucket_Has_abs key b :
  bsorted b → Bucket_Has key b = bool_decide (is_Some (babs b !! key)).
Proof.
  induction b as [|e b IH]; intros Hs.
  { symmetry. apply bool_decide_eq_false. intros [? H].
    unfold babs in H. simpl in H. by rewrite lookup_empty in H. }
  simpl. destruct (Z.ltb_spec (ekey e) key).
  - rewrite babs_cons, lookup_insert_ne by lia.
    apply IH. by apply bsorted_inv in Hs as [? _].
  - destruct (Z.eqb_spec (ekey e) key) as [<-|]; symmetry.
    + apply bool_decide_eq_true. rewrite babs_cons, lookup_insert_eq. by eexists.
    + apply bool_decide_eq_false. rewrite babs_lt by (done || lia).
      by intros [? ?].
Qed.

Lemma Bucket_Insert_cons key v e b :
  Bucket_Insert key v (e :: b) =
  if ekey e =? key then mkEntry (ekey e) v :: b
  else if key <? ekey e then mkEntry key v :: e :: b
  else e :: Bucket_Insert key v b.
Proof.
  unfold Bucket_Insert. simpl. done_cases.
Qed.

Lemma Bucket_modify_cons key f e b :
  Bucket_modify key f (e :: b) =
  if ekey e =? key then mkEntry (ekey e) (f (evalue e)) :: b
  else if key <? ekey e then e :: b
  else e :: Bucket_modify key f b.
Proof.
  unfold Bucket_modify. simpl. done_cases.
Qed.

Lemma Bucket_Insert_keys key v b k :
  k ∈ ekey <$> Bucket_Insert key v b ↔ k = key ∨ k ∈ ekey <$> b.
Proof.
  induction b as [|e b IH].
  { unfold Bucket_Insert; simpl. set_solver. }
  rewrite Bucket_Insert_cons.
  destruct (Z.eqb_spec (ekey e) key); [|destruct (key <? ekey e)];
    rewrite ?fmap_cons, ?elem_of_cons in *; simpl; naive_solver.
Qed.

Lemma Bucket_Insert_sorted key v b : bsorted b → bsorted (Bucket_Insert key v b).
Proof.
  induction b as [|e b IH]; intros Hs.
  { unfold Bucket_Insert; simpl. apply bsorted_cons; [constructor|set_solver]. }
  rewrite Bucket_Insert_cons. pose proof Hs as [Hb Hlt]%bsorted_inv.
  destruct (Z.eqb_spec (ekey e) key); [by apply bsorted_cons|].
  destruct (Z.ltb_spec key (ekey e)).
  - apply bsorted_cons; [done|]. intros k.
    rewrite fmap_cons, elem_of_cons. simpl. intros [->|Hk]; [done|].
    apply Hlt in Hk. lia.
  - apply bsorted_cons; [by apply IH|]. intros k.
    rewrite Bucket_Insert_keys. intros [->|Hk]; [lia|auto].
Qed.

Lemma Bucket_Insert_abs key v b :
  bsorted b → babs (Bucket_Insert key v b) = <[key := v]> (babs b).
Proof.
  induction b as [|e b IH]; intros Hs; [done|].
  rewrite Bucket_Insert_cons. pose proof Hs as [Hb Hlt]%bsorted_inv.
  destruct (Z.eqb_spec (ekey e) key) as [<-|Hne].
  { rewrite !babs_cons. simpl. by rewrite insert_insert_eq. }
  destruct (key <? ekey e); rewrite !babs_cons; simpl; [done|].
  by rewrite IH, insert_insert_ne.
Qed.

Lemma Bucket_modify_keys key f b : ekey <$> Bucket_modify key f b = ekey <$> b.
Proof.
  induction b as [|e b IH]; [done|]. rewrite Bucket_modify_cons.
  destruct (ekey e =? key), (key <? ekey e); simpl; by f_equal.
Qed.

Lemma Bucket_modify_abs key f b :
  bsorted b → babs (Bucket_modify key f b) = alter f key (babs b).
Proof.
  induction b as [|e b IH]; intros Hs.
  { unfold Bucket_modify, babs. simpl. apply map_eq. intros i.
    by rewrite lookup_alter, !lookup_empty; case_decide. }
  rewrite Bucket_modify_cons. pose proof Hs as [Hb _]%bsorted_inv.
  destruct (Z.eqb_spec (ekey e) key) as [<-|Hne].
  { rewrite !babs_cons. simpl. by rewrite alter_insert_eq. }
  destruct (Z.ltb_spec key (ekey e)).
  - symmetry. apply map_eq. intros i. rewrite lookup_alter.
    case_decide; [|done]. subst. by rewrite babs_lt.
  - rewrite !babs_cons, IH, alter_insert_ne by done. done.
Qed.
End Bucket.

Arguments Entry : clear implicits.
Arguments Bucket : clear implicits.
Arguments mkEntry {V} _ _.

Section Table.
Context {V : Type}.

Record AtomicHashMap := mkMap {
  table_ : list (Bucket V);
  capacity_ : Z;
  mode_num_ : Z;
}.

(** [AtomicHashMap<K, V, TableSize>()]; the [enable_if] of the template
    asks for a power of two. *)
Definition AtomicHashMap_new (TableSize : Z) : AtomicHashMap :=
  mkMap (replicate (Z.to_nat TableSize) []) TableSize (u64 (TableSize - 1)).

Definition index_of (m : AtomicHashMap) (key : Z) : Z := Z.land key (mode_num_ m).

(** A key that indexes outside of [table_] is undefined behaviour in the
    source; the invariant below excludes it. *)
Definition bucket_of (m : AtomicHashMap) (key : Z) : Bucket V :=
  default [] (zget (table_ m) (index_of m key)).

Definition with_bucket (m : AtomicHashMap) (key : Z) (b : Bucket V) : AtomicHashMap :=
  mkMap (zset (table_ m) (index_of m key) b) (capacity_ m) (mode_num_ m).

Definition Has (m : AtomicHashMap) (key : Z) : bool :=
  Bucket_Has key (bucket_of m key).

Definition Get (m : AtomicHashMap) (key : Z) : option V :=
  Bucket_Get key (bucket_of m key).

Definition Set_ (m : AtomicHashMap) (key : Z) (value : V) : AtomicHashMap :=
  with_bucket m key (Bucket_Insert key value (bucket_of m key)).

(** [Set(key)] inserts the default value of the type. *)
Definition Set_default (dflt : V) (m : AtomicHashMap) (key : Z) : AtomicHashMap :=
  Set_ m key dflt.

Definition Modify (m : AtomicHashMap) (key : Z) (f : V → V) : AtomicHashMap :=
  with_bucket m key (Bucket_modify key f (bucket_of m key)).

(** Power-of-two capacity, sorted buckets. *)
Definition map_wf (m : AtomicHashMap) : Prop :=
  (∃ bits, 0 ≤ bits < 64 ∧ capacity_ m = 2 ^ bits) ∧
  mode_num_ m = capacity_ m - 1 ∧ zlen (table_ m) = capacity_ m ∧
  ∀ i b, zget (table_ m) i = Some b → bsorted b.

Lemma index_of_mod m key :
  map_wf m → in_u 64 key → index_of m key = key mod capacity_ m.
Proof.
  intros ((bits & Hb & Hc) & Hm & _) Hk. unfold index_of.
  rewrite Hm, Hc. rewrite <- Z.land_ones by lia. f_equal.
  rewrite Z.ones_equiv. lia.
Qed.

Lemma index_of_range m key :
  map_wf m → in_u 64 key → 0 ≤ index_of m key < zlen (table_ m).
Proof.
  intros Hwf Hk. rewrite index_of_mod by done.
  destruct Hwf as ((bits & Hb & Hc) & _ & -> & _).
  apply Z.mod_pos_bound. rewrite Hc. apply Z.pow_pos_nonneg; lia.
Qed.

Lemma bucket_of_sorted m key : map_wf m → bsorted (bucket_of m key).
Proof.
  intros (_ & _ & _ & Hs). unfold bucket_of.
  destruct (zget (table_ m) _) eqn:E; simpl; [eauto|constructor].
Qed.

Lemma bucket_of_with m key key' b :
  map_wf m → in_u 64 key → in_u 64 key' →
  bucket_of (with_bucket m key b) key' =
  if decide (index_of m key = index_of m key') then b else bucket_of m key'.
Proof.
  intros Hwf Hk Hk'. unfold bucket_of, with_bucket, index_of. simpl.
  fold (index_of m key) (index_of m key').
  rewrite zget_zset. pose proof (index_of_range m key Hwf Hk).
  repeat case_decide; naive_solver.
Qed.

Lemma with_bucket_wf m key b :
  map_wf m → bsorted b → map_wf (with_bucket m key b).
Proof.
  intros (Hc & Hm & Hl & Hs) Hb. repeat split; simpl; try done.
  - by rewrite zlen_zset.
  - intros i b'. rewrite zget_zset. case_decide; naive_solver.
Qed.

Lemma new_wf bits : 0 ≤ bits < 64 → map_wf (AtomicHashMap_new (2 ^ bits)).
Proof.
  intros Hb. pose proof (Z.pow_pos_nonneg 2 bits).
  pose proof (Z.pow_lt_mono_r 2 bits 64).
  unfold AtomicHashMap_new. repeat split; simpl.
  - by exists bits.
  - apply wrap_small. unfold in_u. lia.
  - rewrite zlen_replicate. lia.
  - intros i b. unfold zget. case_decide; [|done].
    rewrite lookup_replicate. intros [-> _]. constructor.
Qed.

Lemma Get_abs m key :
  map_wf m → Get m key = babs (bucket_of m key) !! key.
Proof. intros. apply Bucket_Get_abs. by apply bucket_of_sorted. Qed.

Lemma Get_with_bucket m key key' b f :
  map_wf m → in_u 64 key → in_u 64 key' → bsorted b →
  babs b = partial_alter f key (babs (bucket_of m key)) →
  Get (with_bucket m key b) key' =
  if decide (key = key') then f (Get m key) else Get m key'.
Proof.
  intros Hwf Hk Hk' Hs Hb.
  rewrite !Get_abs by (try apply with_bucket_wf; done).
  rewrite bucket_of_with by done.
  case_decide as Hi; [|case_decide; [congruence|done]].
  rewrite Hb, lookup_partial_alter. case_decide; [done|].
  unfold bucket_of. by rewrite Hi.
Qed.

Lemma Get_Set m key key' v :
  map_wf m → in_u 64 key → in_u 64 key' →
  Get (Set_ m key v) key' = if decide (key = key') then Some v else Get m key'.
Proof.
  intros Hwf Hk Hk'. pose proof (bucket_of_sorted m key Hwf).
  apply (Get_with_bucket m key key' _ (λ _, Some v)); auto.
  - by apply Bucket_Insert_sorted.
  - by rewrite Bucket_Insert_abs.
Qed.

Lemma bsorted_keys (b b' : Bucket V) :
  ekey <$> b' = ekey <$> b → bsorted b → bsorted b'.
Proof. unfold bsorted. by intros ->. Qed.

Lemma Get_Modify m key key' f :
  map_wf m → in_u 64 key → in_u 64 key' →
  Get (Modify m key f) key' =
  if decide (key = key') then f <$> Get m key else Get m key'.
Proof.
  intros Hwf Hk Hk'. pose proof (bucket_of_sorted m key Hwf).
  apply (Get_with_bucket m key key' _ (fmap f)); auto.
  - eapply bsorted_keys; [apply Bucket_modify_keys|done].
  - by rewrite Bucket_modify_abs.
Qed.

Lemma Has_Get m key : map_wf m → Has m key = bool_decide (is_Some (Get m key)).
Proof.
  intros Hwf. rewrite Get_abs by done. unfold Has.
  apply Bucket_Has_abs. by apply bucket_of_sorted.
Qed.

Lemma Get_new key TableSize : Get (AtomicHashMap_new TableSize) key = None.
Proof.
  unfold Get, bucket_of, AtomicHashMap_new, zget. simpl. case_decide; [|done].
  destruct (replicate _ _ !! _) eqn:E; [|done].
  apply lookup_replicate in E as [-> _]. done.
Qed.
End Table.

Arguments AtomicHashMap : clear implicits.

(** The default table size of the template. *)
Definition DefaultTableSize : Z := 128.

#[export] Instance AtomicHashMap_KVStore V : KVStore (AtomicHashMap V) V := {
  kv_get k m := Get m k;
  kv_set k v m := Set_ m k v;
  kv_modify k f m := Modify m k f;
  kv_empty := AtomicHashMap_new DefaultTableSize;
  kv_wf := map_wf;
}.

#[export] Instance AtomicHashMap_laws V : KVStoreLaws (AtomicHashMap V) V.
Proof.
  split; simpl; intros.
  - apply (new_wf 7). lia.
  - apply with_bucket_wf; [done|]. by apply Bucket_Insert_sorted, bucket_of_sorted.
  - apply with_bucket_wf; [done|].
    eapply bsorted_keys; [apply Bucket_modify_keys|by apply bucket_of_sorted].
  - apply Get_new.
  - by apply Get_Set.
  - by apply Get_Modify.
Qed.

(** ** One bucket under concurrency

    Threads interleave at the atomic accesses of [Find], [Insert], [Has] and
    [Get].  An entry or value that a thread has allocated but not published
    is private, so the shared heap receives it when the compare-and-swap that
    publishes it succeeds; the label of the step carries the addresses the
    allocator gave, which must be free. *)
Module Concurrent.
Section Concurrent.
Context {V : Type}.

(** [Entry]: [value_ptr] and [next] are the atomics. *)
Record node := mkNode { nkey : Z; value_ptr : nat; next : option nat }.

(** Address 0 is the sentinel [head_]. *)
Definition head_ : nat := 0.

Inductive op := OpInsert (key : Z) (value : V) | OpGet (key : Z) | OpHas (key : Z).

Definition op_key (o : op) : Z :=
  match o with OpInsert k _ | OpGet k | OpHas k => k end.

(** Where a thread stands. [Deref] is the copy out of the pointer that the
    copying overload of [Get] makes of the value it was pointed to. *)
Inductive pc :=
| Walk (o : op) (prev : nat)
| LoadOld (key : Z) (value : V) (target : nat)
| CasValue (key : Z) (value : V) (target old_val_ptr : nat)
| CasNext (key : Z) (value : V) (prev : nat) (target : option nat)
| LoadValue (key : Z) (target : nat)
| Deref (val : nat)
| UseAfterFree.

Record state := mkState {
  heap : gmap nat node;
  vals : gmap nat V;
  threads : gmap nat pc;
}.

Inductive event :=
| EvSet (key : Z) (value : V)
| EvGet (key : Z) (r : option V)
| EvHas (key : Z) (r : bool).

Inductive label :=
| LCall (t : nat) (o : op)
| LStep (t : nat) (new_entry new_value : nat).

Definition init : state :=
  mkState {[ head_ := mkNode 0 0 None ]} ∅ ∅.

Definition goto (s : state) (t : nat) (p : pc) : state :=
  mkState (heap s) (vals s) (<[t := p]> (threads s)).

Definition finish (s : state) (t : nat) : state :=
  mkState (heap s) (vals s) (delete t (threads s)).

(** The branch of [Find] that leaves with [target] found. *)
Definition on_found (s : state) (t : nat) (o : op) (target : nat) :
    state * option event :=
  match o with
  | OpInsert k v => (goto s t (LoadOld k v target), None)
  | OpGet k => (goto s t (LoadValue k target), None)
  | OpHas k => (finish s t, Some (EvHas k true))
  end.

Definition on_not_found (s : state) (t : nat) (o : op) (prev : nat)
    (target : option nat) : state * option event :=
  match o with
  | OpInsert k v => (goto s t (CasNext k v prev target), None)
  | OpGet k => (finish s t, Some (EvGet k None))
  | OpHas k => (finish s t, Some (EvHas k false))
  end.

(** One turn of the loop of [Find] or [Has]: load [prev->next], compare. *)
Definition walk (s : state) (t : nat) (o : op) (prev : nat) :
    option (state * option event) :=
  p ← heap s !! prev;
  match next p with
  | None => Some (on_not_found s t o prev None)
  | Some target =>
      n ← heap s !! target;
      Some (if nkey n =? op_key o then on_found s t o target
            else if op_key o <? nkey n then on_not_found s t o prev (Some target)
            else (goto s t (Walk o target), None))
  end.

(** [target->value_ptr.compare_exchange_strong], then [delete old_val_ptr];
    on failure the loop starts again from the head. *)
Definition cas_value (s : state) (t : nat) (k : Z) (v : V) (target old : nat)
    (new_value : nat) : option (state * option event) :=
  n ← heap s !! target;
  if bool_decide (value_ptr n = old) then
    match vals s !! new_value with
    | Some _ => None
    | None =>
        Some (mkState (<[target := mkNode (nkey n) new_value (next n)]> (heap s))
                (delete old (<[new_value := v]> (vals s)))
                (delete t (threads s)), Some (EvSet k v))
    end
  else Some (goto s t (Walk (OpInsert k v) head_), None).

(** [prev->next.compare_exchange_strong(target, new_entry)]. *)
Definition cas_next (s : state) (t : nat) (k : Z) (v : V) (prev : nat)
    (target : option nat) (new_entry new_value : nat) :
    option (state * option event) :=
  p ← heap s !! prev;
  if bool_decide (next p = target) then
    match heap s !! new_entry, vals s !! new_value with
    | None, None =>
        Some (mkState (<[new_entry := mkNode k new_value target]>
                         (<[prev := mkNode (nkey p) (value_ptr p) (Some new_entry)]>
                            (heap s)))
                (<[new_value := v]> (vals s))
                (delete t (threads s)), Some (EvSet k v))
    | _, _ => None
    end
  else Some (goto s t (Walk (OpInsert k v) head_), None).

Definition exec (s : state) (l : label) : option (state * option event) :=
  match l with
  | LCall t o =>
      match threads s !! t with
      | Some _ => None
      | None => Some (goto s t (Walk o head_), None)
      end
  | LStep t new_entry new_value =>
      match threads s !! t with
      | Some (Walk o prev) => walk s t o prev
      | Some (LoadOld k v target) =>
          n ← heap s !! target;
          Some (goto s t (CasValue k v target (value_ptr n)), None)
      | Some (CasValue k v target old) => cas_value s t k v target old new_value
      | Some (CasNext k v prev target) =>
          cas_next s t k v prev target new_entry new_value
      | Some (LoadValue k target) =>
          n ← heap s !! target;
          Some (goto s t (Deref (value_ptr n)),
                Some (EvGet k (vals s !! value_ptr n)))
      | Some (Deref val) =>
          match vals s !! val with
          | Some _ => Some (finish s t, None)
          | None => Some (goto s t UseAfterFree, None)
          end
      | Some UseAfterFree => None
      | None => None
      end
  end.

(** The specification: an atomic finite map. *)
Inductive spec_step : gmap Z V → event → gmap Z V → Prop :=
| spec_set m k v : spec_step m (EvSet k v) (<[k := v]> m)
| spec_get m k : spec_step m (EvGet k (m !! k)) m
| spec_has m k : spec_step m (EvHas k (bool_decide (is_Some (m !! k)))) m.

(** [l] comes before a key [k]: the sentinel before every key. *)
Definition before (l : nat) (n : node) (k : Z) : Prop := l = head_ ∨ nkey n < k.

(** [next] of every entry is its successor in key order. *)
Definition next_ok (h : gmap nat node) (l : nat) (n : node) : Prop :=
  match next n with
  | None => ∀ l' n', h !! l' = Some n' → l' ≠ head_ → ¬ before l n (nkey n')
  | Some l' =>
      l' ≠ head_ ∧ ∃ n', h !! l' = Some n' ∧ before l n (nkey n') ∧
      ∀ l2 n2, h !! l2 = Some n2 → l2 ≠ head_ → before l n (nkey n2) →
               nkey n' ≤ nkey n2
  end.

Definition heap_ok (h : gmap nat node) : Prop :=
  is_Some (h !! head_) ∧
  (∀ l n, h !! l = Some n → next_ok h l n) ∧
  (∀ l1 n1 l2 n2, h !! l1 = Some n1 → h !! l2 = Some n2 →
     l1 ≠ head_ → l2 ≠ head_ → nkey n1 = nkey n2 → l1 = l2).

Definition vals_ok (h : gmap nat node) (vs : gmap nat V) : Prop :=
  (∀ l n, h !! l = Some n → l ≠ head_ → is_Some (vs !! value_ptr n)) ∧
  (∀ l1 n1 l2 n2, h !! l1 = Some n1 → h !! l2 = Some n2 →
     l1 ≠ head_ → l2 ≠ head_ → value_ptr n1 = value_ptr n2 → l1 = l2).

Definition pc_ok (h : gmap nat node) (p : pc) : Prop :=
  match p with
  | Walk o prev => ∃ n, h !! prev = Some n ∧ before prev n (op_key o)
  | LoadOld k _ target | CasValue k _ target _ | LoadValue k target =>
      target ≠ head_ ∧ ∃ n, h !! target = Some n ∧ nkey n = k
  | CasNext k _ prev target =>
      (∃ n, h !! prev = Some n ∧ before prev n k) ∧
      match target with
      | None => True
      | Some tg => tg ≠ head_ ∧ ∃ n, h !! tg = Some n ∧ k < nkey n
      end
  | Deref _ | UseAfterFree => True
  end.

Definition represents (h : gmap nat node) (vs : gmap nat V) (m : gmap Z V) : Prop :=
  ∀ k v, m !! k = Some v ↔
    ∃ l n, l ≠ head_ ∧ h !! l = Some n ∧ nkey n = k ∧ vs !! value_ptr n = Some v.

Definition Inv (s : state) (m : gmap Z V) : Prop :=
  heap_ok (heap s) ∧ vals_ok (heap s) (vals s) ∧
  (∀ t p, threads s !! t = Some p → pc_ok (heap s) p) ∧
  represents (heap s) (vals s) m.

(** *** Facts about the key order *)

Definition absent (h : gmap nat node) (k : Z) : Prop :=
  ∀ l n, h !! l = Some n → l ≠ head_ → nkey n ≠ k.

Lemma absent_at_end h prev p k :
  heap_ok h → h !! prev = Some p → before prev p k → next p = None → absent h k.
Proof.
  intros (_ & Hn & _) Hp Hb He l n Hl Hl0 <-.
  specialize (Hn _ _ Hp). unfold next_ok in Hn. rewrite He in Hn. by eapply Hn.
Qed.

Lemma absent_between h prev p tg n k :
  heap_ok h → h !! prev = Some p → before prev p k → next p = Some tg →
  h !! tg = Some n → k < nkey n → absent h k.
Proof.
  intros (_ & Hn & _) Hp Hb He Htg Hk l n' Hl Hl0 <-.
  specialize (Hn _ _ Hp). unfold next_ok in Hn. rewrite He in Hn.
  destruct Hn as (_ & n0 & Htg0 & _ & Hmin). simplify_eq.
  specialize (Hmin _ _ Hl Hl0 Hb). lia.
Qed.

Lemma represents_absent h (vs : gmap nat V) m k :
  represents h vs m → absent h k → m !! k = None.
Proof.
  intros Hr Ha. destruct (m !! k) as [v|] eqn:E; [|done].
  apply Hr in E as (l & n & Hl0 & Hl & Hk & _). by destruct (Ha l n Hl Hl0).
Qed.

Lemma represents_found h (vs : gmap nat V) m l n :
  vals_ok h vs → represents h vs m → l ≠ head_ → h !! l = Some n →
  m !! nkey n = vs !! value_ptr n.
Proof.
  intros [Hv _] Hr Hl0 Hl. destruct (Hv _ _ Hl Hl0) as [v Hvv].
  rewrite Hvv. apply Hr. by exists l, n.
Qed.

Definition keeps (h h' : gmap nat node) : Prop :=
  ∀ l n, h !! l = Some n → ∃ n', h' !! l = Some n' ∧ nkey n' = nkey n.

Lemma keeps_key h h' l (P : Z → Prop) :
  keeps h h' → (∃ n, h !! l = Some n ∧ P (nkey n)) →
  ∃ n, h' !! l = Some n ∧ P (nkey n).
Proof.
  intros Hk (n & Hl & HP). destruct (Hk _ _ Hl) as (n' & ? & E).
  exists n'. by rewrite E.
Qed.

Lemma pc_ok_mono h h' p : keeps h h' → pc_ok h p → pc_ok h' p.
Proof.
  intros Hk. unfold pc_ok, before. destruct p; try done.
  - apply (keeps_key h h' _ (λ z, prev = head_ ∨ z < op_key o) Hk).
  - intros [? H]. split; [done|]. by apply (keeps_key h h' _ (.= key)) in H.
  - intros [? H]. split; [done|]. by apply (keeps_key h h' _ (.= key)) in H.
  - intros [H1 H2]. split.
    + by apply (keeps_key h h' _ (λ z, prev = head_ ∨ z < key) Hk).
    + destruct target; [|done]. destruct H2 as [? H]. split; [done|].
      by apply (keeps_key h h' _ (Z.lt key)) in H.
  - intros [? H]. split; [done|]. by apply (keeps_key h h' _ (.= key)) in H.
Qed.

(** *** [value_ptr] is swung *)

Lemma heap_ok_swing h tg n a :
  heap_ok h → h !! tg = Some n →
  heap_ok (<[tg := mkNode (nkey n) a (next n)]> h).
Proof.
  intros (H0 & Hn & Hu) Htg.
  set (h' := <[tg := _]> h).
  assert (Hback : ∀ l m, h' !! l = Some m →
    ∃ m', h !! l = Some m' ∧ nkey m' = nkey m ∧ next m' = next m).
  { intros l m. unfold h'. rewrite lookup_insert.
    case_decide; intros; simplify_eq/=; eauto. }
  assert (Hfwd : ∀ l m, h !! l = Some m →
    ∃ m', h' !! l = Some m' ∧ nkey m' = nkey m).
  { intros l m Hl. unfold h'. rewrite lookup_insert.
    case_decide; simplify_eq/=; eauto. }
  split; [|split].
  - destruct H0 as [x Hx]. destruct (Hfwd _ _ Hx) as (? & ? & _). by eexists.
  - intros l m (m' & Hl & Hk & Hx)%Hback. specialize (Hn _ _ Hl).
    unfold next_ok, before in *. rewrite <- Hx. destruct (next m') as [l'|].
    + destruct Hn as (? & n' & Hl' & Hb & Hmin). split; [done|].
      destruct (Hfwd _ _ Hl') as (n'' & ? & Hk'').
      exists n''. rewrite <- Hk, Hk''. repeat split; [done..|].
      intros l2 n2 (n2' & ? & <- & _)%Hback. eauto.
    + rewrite <- Hk. intros l2 n2 (n2' & ? & <- & _)%Hback. eauto.
  - intros l1 n1 l2 n2 (? & ? & <- & _)%Hback (? & ? & <- & _)%Hback. eauto.
Qed.

Lemma keeps_swing h tg n a :
  h !! tg = Some n → keeps h (<[tg := mkNode (nkey n) a (next n)]> h).
Proof.
  intros Htg l m Hl. rewrite lookup_insert. case_decide; simplify_eq/=; eauto.
Qed.

Lemma vals_ok_swing h (vs : gmap nat V) tg n a v :
  vals_ok h vs → h !! tg = Some n → tg ≠ head_ → vs !! a = None →
  vals_ok (<[tg := mkNode (nkey n) a (next n)]> h)
          (delete (value_ptr n) (<[a := v]> vs)).
Proof.
  intros [Hv Hu] Htg Ht0 Ha.
  assert (Hne : value_ptr n ≠ a).
  { intros <-. destruct (Hv _ _ Htg Ht0) as [? ?]. congruence. }
  assert (Hfresh : ∀ l m, h !! l = Some m → l ≠ head_ → value_ptr m ≠ a).
  { intros l m Hl Hl0 <-. destruct (Hv _ _ Hl Hl0) as [? ?]. congruence. }
  split.
  - intros l m. rewrite lookup_insert. case_decide; intros Hl Hl0; simplify_eq/=.
    + rewrite lookup_delete_ne, lookup_insert_eq by done. eauto.
    + rewrite lookup_delete_ne, lookup_insert_ne; eauto using not_eq_sym.
  - intros l1 n1 l2 n2. rewrite !lookup_insert.
    repeat case_decide; intros; simplify_eq/=; try done;
      naive_solver eauto using not_eq_sym.
Qed.

Lemma represents_swing h (vs : gmap nat V) m tg n a v :
  heap_ok h → vals_ok h vs → represents h vs m →
  h !! tg = Some n → tg ≠ head_ → vs !! a = None →
  represents (<[tg := mkNode (nkey n) a (next n)]> h)
             (delete (value_ptr n) (<[a := v]> vs)) (<[nkey n := v]> m).
Proof.
  intros (_ & _ & Huk) [Hv Hu] Hr Htg Ht0 Ha k w.
  assert (Hne : value_ptr n ≠ a).
  { intros <-. destruct (Hv _ _ Htg Ht0) as [? ?]. congruence. }
  rewrite lookup_insert. case_decide as Hk; split.
  - intros ?. simplify_eq. exists tg, (mkNode (nkey n) a (next n)).
    rewrite lookup_insert_eq. simpl.
    by rewrite lookup_delete_ne, lookup_insert_eq.
  - intros (l & n' & Hl0 & Hl & Hkn & Hw). rewrite lookup_insert in Hl.
    case_decide; simplify_eq/=.
    + by rewrite lookup_delete_ne, lookup_insert_eq in Hw.
    + exfalso. eauto using eq_sym.
  - intros (l & n' & Hl0 & Hl & Hkn & Hw)%Hr. exists l, n'.
    rewrite lookup_insert_ne by congruence. repeat split; [done..|].
    rewrite lookup_delete_ne, lookup_insert_ne; [done| |].
    + intros ->. congruence.
    + intros Heq. assert (tg = l) by eauto. congruence.
  - intros (l & n' & Hl0 & Hl & Hkn & Hw). rewrite lookup_insert in Hl.
    case_decide; simplify_eq/=. apply Hr. exists l, n'.
    repeat split; [done..|]. apply lookup_delete_Some in Hw as [? Hw].
    rewrite lookup_insert_ne in Hw; [done|].
    intros ->. destruct (Hv _ _ Hl Hl0). congruence.
Qed.

(** *** A new entry is linked in *)

Definition link (h : gmap nat node) (prev : nat) (p : node) (x : nat) (k : Z)
    (a : nat) : gmap nat node :=
  <[x := mkNode k a (next p)]>
    (<[prev := mkNode (nkey p) (value_ptr p) (Some x)]> h).

(** What [CasNext] knows when its compare-and-swap succeeds. *)
Definition gap (h : gmap nat node) (prev : nat) (p : node) (k : Z) : Prop :=
  h !! prev = Some p ∧ before prev p k ∧
  match next p with
  | None => True
  | Some tg => tg ≠ head_ ∧ ∃ n, h !! tg = Some n ∧ k < nkey n
  end.

Lemma gap_absent h prev p k : heap_ok h → gap h prev p k → absent h k.
Proof.
  intros Hh (Hp & Hb & Ht). destruct (next p) as [tg|] eqn:E.
  - destruct Ht as (_ & n & Htg & Hk). by apply (absent_between h prev p tg n).
  - by apply (absent_at_end h prev p).
Qed.

Lemma link_lookup h prev p x k a l m :
  h !! prev = Some p → h !! x = None → link h prev p x k a !! l = Some m →
  (l = x ∧ m = mkNode k a (next p)) ∨
  (l ≠ x ∧ ∃ m', h !! l = Some m' ∧ nkey m = nkey m' ∧
     value_ptr m = value_ptr m' ∧
     next m = if decide (l = prev) then Some x else next m').
Proof.
  unfold link. intros Hp Hx. rewrite !lookup_insert.
  repeat case_decide; intros; simplify_eq/=; [by left|right..]; eauto 10.
Qed.

Lemma link_old h prev p x k a l m :
  h !! prev = Some p → h !! x = None → h !! l = Some m →
  ∃ m', link h prev p x k a !! l = Some m' ∧ nkey m' = nkey m.
Proof.
  unfold link. intros Hp Hx Hl. rewrite !lookup_insert.
  repeat case_decide; simplify_eq/=; eauto.
Qed.

Lemma link_new h prev p x k a :
  link h prev p x k a !! x = Some (mkNode k a (next p)).
Proof. apply lookup_insert_eq. Qed.

(** Any entry before [k] is [prev] or has its successor at or before [prev];
    any entry after [k] is at or after the target. *)
Lemma gap_before h prev p k l n l' n' :
  heap_ok h → gap h prev p k → h !! l = Some n → before l n k → l ≠ prev →
  next n = Some l' → h !! l' = Some n' → nkey n' < k.
Proof.
  intros (H0 & Hn & Hu) (Hp & Hb & Ht) Hl Hbl Hne Hnx Hl'.
  pose proof (Hn _ _ Hl) as Hok. unfold next_ok in Hok. rewrite Hnx in Hok.
  destruct Hok as (Hl0' & n0 & Hn0 & Hb0 & Hmin). simplify_eq.
  destruct (decide (prev = head_)) as [->|Hp0].
  - (* [prev] is the sentinel: its successor is the least entry *)
    exfalso. specialize (Hn _ _ Hp). unfold next_ok, before in *.
    assert (l ≠ head_) by done.
    destruct (next p) as [tg|]; [|eapply Hn; eauto].
    destruct Hn as (_ & nt & Htg & _ & Hm). destruct Ht as (_ & nt' & Htg' & ?).
    simplify_eq. specialize (Hm _ _ Hl H). destruct Hbl; [done|]. lia.
  - assert (nkey p < k) by (by destruct Hb).
    destruct (decide (before l n (nkey p))) as [Hlp|Hlp].
    + specialize (Hmin _ _ Hp Hp0 Hlp). lia.
    + exfalso. unfold before in *.
      assert (l ≠ head_ ∧ nkey p ≤ nkey n) as [Hl0 Hle].
      { split; [intros ->; naive_solver|].
        destruct (Z.le_gt_cases (nkey p) (nkey n)); [done|naive_solver]. }
      assert (nkey p ≠ nkey n) by (intros E; apply Hne; eauto using eq_sym).
      specialize (Hn _ _ Hp). unfold next_ok, before in Hn.
      destruct (next p) as [tg|].
      * destruct Hn as (_ & nt & Htg & _ & Hm).
        destruct Ht as (_ & nt' & Htg' & ?). simplify_eq.
        assert (nkey nt ≤ nkey n) by (eapply Hm; [done..|right; lia]).
        destruct Hbl; [done|lia].
      * eapply Hn; [done..|right; lia].
Qed.

Lemma gap_after_end h prev p k l n :
  heap_ok h → gap h prev p k → h !! l = Some n → l ≠ prev → next n = None →
  ¬ before l n k.
Proof.
  intros (H0 & Hn & Hu) (Hp & Hb & Ht) Hl Hne Hnx Hbl.
  pose proof (Hn _ _ Hl) as Hok. unfold next_ok in Hok. rewrite Hnx in Hok.
  destruct (decide (prev = head_)) as [->|Hp0].
  - specialize (Hn _ _ Hp). unfold next_ok, before in *.
    destruct (next p) as [tg|]; [|eapply Hn; eauto].
    destruct Hn as (_ & nt & Htg & _ & Hm). destruct Ht as (_ & nt' & Htg' & ?).
    simplify_eq. specialize (Hm _ _ Hl Hne (or_introl eq_refl)).
    destruct Hbl; [done|lia].
  - assert (nkey p < k) by (by destruct Hb).
    unfold before in *. specialize (Hok _ _ Hp Hp0).
    assert (l ≠ head_) by naive_solver.
    assert (nkey p ≠ nkey n) by (intros E; apply Hne; eauto using eq_sym).
    specialize (Hn _ _ Hp). unfold next_ok, before in Hn.
    destruct (next p) as [tg|].
    + destruct Hn as (_ & nt & Htg & _ & Hm).
      destruct Ht as (_ & nt' & Htg' & ?). simplify_eq.
      assert (nkey nt ≤ nkey n) by (eapply Hm; [done..|right; lia]).
      destruct Hbl; [done|lia].
    + eapply Hn; [done..|right; lia].
Qed.

Lemma gap_next_new h prev p x k a :
  heap_ok h → gap h prev p k → h !! x = None →
  next_ok (link h prev p x k a) x (mkNode k a (next p)).
Proof.
  intros (H0 & Hn & Hu) (Hp & Hb & Ht) Hx.
  assert (x ≠ head_) by (intros ->; destruct H0; congruence).
  specialize (Hn _ _ Hp). unfold next_ok, before in *. simpl.
  destruct (next p) as [tg|] eqn:E.
  - destruct Hn as (Htg0 & nt & Htg & _ & Hm). split; [done|].
    destruct Ht as (_ & nt' & Htg' & Hk). simplify_eq.
    destruct (link_old h prev p x k a _ _ Hp Hx Htg) as (m & Hm1 & Hm2).
    exists m. rewrite Hm2. split; [done|]. split; [by right|].
    intros l2 n2 Hl2 Hl20 Hk2.
    destruct (link_lookup _ _ _ _ _ _ _ _ Hp Hx Hl2) as
      [[-> ->]|(_ & m2 & Hm2' & Heq & _)]; simpl in *.
    + naive_solver lia.
    + rewrite Heq in *. destruct Hk2; [done|]. eapply Hm; [done..|].
      destruct Hb; [by left|right; lia].
  - intros l2 n2 Hl2 Hl20 Hk2.
    destruct (link_lookup _ _ _ _ _ _ _ _ Hp Hx Hl2) as
      [[-> ->]|(_ & m2 & Hm2' & Heq & _)]; simpl in *.
    + naive_solver lia.
    + rewrite Heq in Hk2. eapply Hn; [done..|].
      destruct Hb; [by left|right]. destruct Hk2; [done|lia].
Qed.

Lemma gap_next_prev h prev p x k a :
  heap_ok h → gap h prev p k → h !! x = None →
  next_ok (link h prev p x k a) prev (mkNode (nkey p) (value_ptr p) (Some x)).
Proof.
  intros (H0 & Hn & Hu) (Hp & Hb & Ht) Hx.
  assert (x ≠ head_) by (intros ->; destruct H0; congruence).
  specialize (Hn _ _ Hp). unfold next_ok, before in *. simpl. split; [done|].
  exists (mkNode k a (next p)). split; [apply link_new|]. split; [done|].
  intros l2 n2 Hl2 Hl20 Hk2. simpl.
  destruct (link_lookup _ _ _ _ _ _ _ _ Hp Hx Hl2) as
    [[-> ->]|(_ & m2 & Hm2' & Heq & _)]; simpl; [done|].
  rewrite Heq in *. destruct (next p) as [tg|].
  - destruct Hn as (_ & nt & Htg & _ & Hm). destruct Ht as (_ & nt' & ? & ?).
    simplify_eq. specialize (Hm _ _ Hm2' Hl20 Hk2). lia.
  - exfalso. by eapply Hn.
Qed.

Lemma gap_next_other h prev p x k a l n :
  heap_ok h → gap h prev p k → h !! x = None → h !! l = Some n → l ≠ prev →
  next_ok (link h prev p x k a) l n.
Proof.
  intros Hh Hg Hx Hl Hne. pose proof Hg as (Hp & Hb & Ht).
  pose proof Hh as (_ & Hn & _). specialize (Hn _ _ Hl).
  unfold next_ok in *. destruct (next n) as [l'|] eqn:E.
  - destruct Hn as (? & n' & Hl' & Hbl & Hm). split; [done|].
    destruct (link_old h prev p x k a _ _ Hp Hx Hl') as (m & Hm1 & Hm2).
    exists m. unfold before in *. rewrite Hm2. do 2 (split; [done|]).
    intros l2 n2 Hl2 Hl20 Hk2.
    destruct (link_lookup _ _ _ _ _ _ _ _ Hp Hx Hl2) as
      [[-> ->]|(_ & m2 & Hm2' & Heq & _)]; simpl in *.
    + pose proof (gap_before h prev p k l n l' n' Hh Hg Hl Hk2 Hne E Hl'). lia.
    + rewrite Heq in *. eauto.
  - intros l2 n2 Hl2 Hl20 Hk2.
    destruct (link_lookup _ _ _ _ _ _ _ _ Hp Hx Hl2) as
      [[-> ->]|(_ & m2 & Hm2' & Heq & _)]; simpl in *.
    + by eapply (gap_after_end h prev p k l n).
    + unfold before in *. rewrite Heq in Hk2. by eapply Hn.
Qed.

Lemma heap_ok_link h prev p x k a :
  heap_ok h → gap h prev p k → h !! x = None → heap_ok (link h prev p x k a).
Proof.
  intros Hh Hg Hx. pose proof Hh as (H0 & Hn & Hu). pose proof Hg as (Hp & _).
  split; [|split].
  - destruct H0 as [z Hz].
    destruct (link_old h prev p x k a _ _ Hp Hx Hz) as (? & ? & _). by eexists.
  - intros l n. unfold link. rewrite !lookup_insert.
    case_decide as E1; [intros; simplify_eq; by apply gap_next_new|].
    case_decide as E2; [intros; simplify_eq; by apply gap_next_prev|].
    intros. apply gap_next_other; auto.
  - pose proof (gap_absent _ _ _ _ Hh Hg) as Ha.
    intros l1 n1 l2 n2 Hl1 Hl2 Hl10 Hl20 Heq.
    destruct (link_lookup _ _ _ _ _ _ _ _ Hp Hx Hl1) as
      [[-> ->]|(_ & m1 & Hm1 & E1 & _)];
    destruct (link_lookup _ _ _ _ _ _ _ _ Hp Hx Hl2) as
      [[-> ->]|(_ & m2 & Hm2 & E2 & _)]; simpl in *; try done.
    + exfalso. eapply Ha; [exact Hm2|done|congruence].
    + exfalso. eapply Ha; [exact Hm1|done|congruence].
    + eapply Hu; eauto. congruence.
Qed.

Lemma vals_ok_link h (vs : gmap nat V) prev p x k a v :
  vals_ok h vs → h !! prev = Some p → h !! x = None → vs !! a = None →
  vals_ok (link h prev p x k a) (<[a := v]> vs).
Proof.
  intros [Hv Hu] Hp Hx Ha.
  assert (Hfresh : ∀ l m, h !! l = Some m → l ≠ head_ → value_ptr m ≠ a).
  { intros l m Hl Hl0 <-. destruct (Hv _ _ Hl Hl0). congruence. }
  split.
  - intros l m Hl Hl0.
    destruct (link_lookup _ _ _ _ _ _ _ _ Hp Hx Hl) as
      [[-> ->]|(_ & m' & Hm' & _ & -> & _)]; simpl.
    + rewrite lookup_insert_eq. by eexists.
    + rewrite lookup_insert_ne; eauto using not_eq_sym.
  - intros l1 n1 l2 n2 Hl1 Hl2 Hl10 Hl20.
    destruct (link_lookup _ _ _ _ _ _ _ _ Hp Hx Hl1) as
      [[-> ->]|(_ & m1 & Hm1 & _ & -> & _)];
    destruct (link_lookup _ _ _ _ _ _ _ _ Hp Hx Hl2) as
      [[-> ->]|(_ & m2 & Hm2 & _ & -> & _)]; simpl; try done; intros E.
    + exfalso. eapply Hfresh; [exact Hm2|..]; congruence.
    + exfalso. eapply Hfresh; [exact Hm1|..]; congruence.
    + eauto.
Qed.

Lemma represents_link h (vs : gmap nat V) m prev p x k a v :
  heap_ok h → vals_ok h vs → represents h vs m → gap h prev p k →
  h !! x = None → vs !! a = None →
  represents (link h prev p x k a) (<[a := v]> vs) (<[k := v]> m).
Proof.
  intros Hh [Hv Hu] Hr Hg Hx Ha. pose proof Hg as (Hp & _).
  pose proof (gap_absent _ _ _ _ Hh Hg) as Habs.
  assert (x ≠ head_) by (destruct Hh as ([? ?] & _); intros ->; congruence).
  intros k' w. rewrite lookup_insert. case_decide as Hk; split.
  - intros ?. simplify_eq. exists x, (mkNode k' a (next p)).
    rewrite link_new. simpl. by rewrite lookup_insert_eq.
  - intros (l & n & Hl0 & Hl & Hkn & Hw).
    destruct (link_lookup _ _ _ _ _ _ _ _ Hp Hx Hl) as
      [[-> ->]|(_ & m' & Hm' & E & _)]; simpl in *.
    + by rewrite lookup_insert_eq in Hw.
    + exfalso. eapply Habs; [exact Hm'|done|congruence].
  - intros (l & n & Hl0 & Hl & Hkn & Hw)%Hr.
    destruct (link_old h prev p x k a _ _ Hp Hx Hl) as (n' & Hn' & E).
    destruct (link_lookup _ _ _ _ _ _ _ _ Hp Hx Hn') as
      [[-> ->]|(_ & m' & Hm' & _ & Ev & _)]; [congruence|]. simplify_eq.
    exists l, n'. rewrite Ev, lookup_insert_ne; [done|].
    intros ->. destruct (Hv _ _ Hl Hl0). congruence.
  - intros (l & n & Hl0 & Hl & Hkn & Hw).
    destruct (link_lookup _ _ _ _ _ _ _ _ Hp Hx Hl) as
      [[-> ->]|(_ & m' & Hm' & E & Ev & _)]; simpl in *; [done|].
    apply Hr. exists l, m'. rewrite Ev in Hw.
    rewrite lookup_insert_ne in Hw; [by rewrite <- E|].
    intros ->. destruct (Hv _ _ Hm' Hl0). congruence.
Qed.

Lemma keeps_link h prev p x k a :
  h !! prev = Some p → h !! x = None → keeps h (link h prev p x k a).
Proof. intros Hp Hx l n Hl. by apply link_old. Qed.

(** *** The simulation *)

Lemma bkt_Inv_goto s m t p : Inv s m → pc_ok (heap s) p → Inv (goto s t p) m.
Proof.
  intros (Hh & Hv & Ht & Hr) Hp. split; [done|]. split; [done|]. split; [|done].
  intros t' p'. simpl. rewrite lookup_insert. case_decide; naive_solver.
Qed.

Lemma Inv_finish s m t : Inv s m → Inv (finish s t) m.
Proof.
  intros (Hh & Hv & Ht & Hr). split; [done|]. split; [done|]. split; [|done].
  intros t' p'. simpl. intros [_ ?]%lookup_delete_Some. eauto.
Qed.

Definition matched (m : gmap Z V) (r : state * option event) : Prop :=
  match r.2 with
  | None => Inv r.1 m
  | Some x => ∃ m', spec_step m x m' ∧ Inv r.1 m'
  end.

Lemma on_found_sim s m t o target n :
  Inv s m → target ≠ head_ → heap s !! target = Some n → nkey n = op_key o →
  matched m (on_found s t o target).
Proof.
  intros HI Ht0 Ht Hk. unfold matched. destruct o as [k v|k|k]; simpl in *.
  - apply bkt_Inv_goto; [done|]. simpl. eauto.
  - apply bkt_Inv_goto; [done|]. simpl. eauto.
  - exists m. split; [|by apply Inv_finish].
    pose proof HI as (_ & Hv & _ & Hr).
    replace true with (bool_decide (is_Some (m !! k))); [constructor|].
    apply bool_decide_eq_true.
    rewrite <- Hk, (represents_found _ _ _ _ _ Hv Hr Ht0 Ht). by eapply Hv.
Qed.

Lemma on_not_found_sim s m t o prev p target :
  Inv s m → heap s !! prev = Some p → before prev p (op_key o) →
  absent (heap s) (op_key o) →
  match target with
  | None => True
  | Some tg => tg ≠ head_ ∧ ∃ n, heap s !! tg = Some n ∧ op_key o < nkey n
  end → matched m (on_not_found s t o prev target).
Proof.
  intros HI Hp Hb Ha Htg. pose proof HI as (_ & _ & _ & Hr).
  pose proof (represents_absent _ _ _ _ Hr Ha) as Hm.
  unfold matched. destruct o as [k v|k|k]; simpl in *.
  - apply bkt_Inv_goto; [done|]. simpl. eauto.
  - exists m. rewrite <- Hm. split; [constructor|by apply Inv_finish].
  - exists m. split; [|by apply Inv_finish].
    replace false with (bool_decide (is_Some (m !! k))); [constructor|].
    apply bool_decide_eq_false. rewrite Hm. by intros [? ?].
Qed.

Lemma walk_sim s m t o prev r :
  Inv s m → pc_ok (heap s) (Walk o prev) → walk s t o prev = Some r → matched m r.
Proof.
  intros HI (p & Hp & Hb) Hw. unfold walk in Hw. rewrite Hp in Hw. simpl in Hw.
  pose proof HI as (Hh & _). pose proof Hh as (_ & Hn & _).
  destruct (next p) as [tg|] eqn:E; simplify_eq.
  - specialize (Hn _ _ Hp). unfold next_ok in Hn. rewrite E in Hn.
    destruct Hn as (Htg0 & n & Htg & _). rewrite Htg in Hw. simplify_eq/=.
    destruct (Z.eqb_spec (nkey n) (op_key o)); [by eapply on_found_sim|].
    destruct (Z.ltb_spec (op_key o) (nkey n)).
    + eapply on_not_found_sim; [done..| |by eauto].
      by apply (absent_between _ prev p tg n).
    + apply bkt_Inv_goto; [done|]. exists n. split; [done|]. right. lia.
  - eapply on_not_found_sim; [done..| |done]. by apply (absent_at_end _ prev p).
Qed.

Lemma Inv_head s m : Inv s m → ∃ n, heap s !! head_ = Some n.
Proof. by intros (([? ?] & _) & _); eauto. Qed.

Lemma Inv_restart s m t o : Inv s m → Inv (goto s t (Walk o head_)) m.
Proof.
  intros HI. apply bkt_Inv_goto; [done|]. destruct (Inv_head s m HI) as [n Hn].
  exists n. split; [done|by left].
Qed.

Lemma threads_mono h h' (th : gmap nat pc) t :
  keeps h h' → (∀ t p, th !! t = Some p → pc_ok h p) →
  ∀ t' p, delete t th !! t' = Some p → pc_ok h' p.
Proof.
  intros Hk Ht t' p [_ H]%lookup_delete_Some. eapply pc_ok_mono; eauto.
Qed.

Lemma cas_value_sim s m t k v target old a r :
  Inv s m → pc_ok (heap s) (CasValue k v target old) →
  cas_value s t k v target old a = Some r → matched m r.
Proof.
  intros HI (Htg0 & n & Htg & Hk) Hc. unfold cas_value in Hc.
  rewrite Htg in Hc. simpl in Hc. case_bool_decide as Ho; simplify_eq.
  - destruct (vals s !! a) as [|] eqn:Ha; simplify_eq.
    destruct HI as (Hh & Hv & Ht & Hr).
    exists (<[nkey n := v]> m). split; [constructor|].
    split; [by apply heap_ok_swing|]. split; [by apply vals_ok_swing|].
    split; [|by apply represents_swing].
    eapply threads_mono; [by apply keeps_swing|done].
  - by apply Inv_restart.
Qed.

Lemma cas_next_sim s m t k v prev target x a r :
  Inv s m → pc_ok (heap s) (CasNext k v prev target) →
  cas_next s t k v prev target x a = Some r → matched m r.
Proof.
  intros HI ((p & Hp & Hb) & Htg) Hc. unfold cas_next in Hc.
  rewrite Hp in Hc. simpl in Hc. case_bool_decide as Ho; simplify_eq.
  - destruct (heap s !! x) eqn:Hx, (vals s !! a) eqn:Ha; simplify_eq.
    destruct HI as (Hh & Hv & Ht & Hr).
    assert (Hg : gap (heap s) prev p k) by done.
    exists (<[k := v]> m). split; [constructor|].
    split; [by apply heap_ok_link|]. split; [by apply vals_ok_link|].
    split; [|by apply represents_link].
    eapply threads_mono; [by apply keeps_link|done].
  - by apply Inv_restart.
Qed.

Lemma bkt_exec_sim s l s' e m :
  Inv s m → exec s l = Some (s', e) → matched m (s', e).
Proof.
  intros HI He. destruct l as [t o|t x a]; simpl in He.
  { destruct (threads s !! t); simplify_eq. by apply Inv_restart. }
  destruct (threads s !! t) as [p|] eqn:Et; [|done].
  pose proof HI as (_ & Hv & Hth & Hr). pose proof (Hth _ _ Et) as Hp.
  destruct p as [o prev|k v tg|k v tg old|k v prev tg|k tg|val|].
  - by eapply walk_sim.
  - destruct Hp as (? & n & Hn & ?). rewrite Hn in He. simplify_eq/=.
    apply bkt_Inv_goto; [done|]. simpl. eauto.
  - by eapply cas_value_sim.
  - by eapply cas_next_sim.
  - destruct Hp as (? & n & Hn & <-). rewrite Hn in He. simplify_eq/=.
    exists m. rewrite <- (represents_found _ _ _ _ _ Hv Hr H Hn).
    split; [constructor|by apply bkt_Inv_goto].
  - destruct (vals s !! val); simplify_eq; [by apply Inv_finish|by apply bkt_Inv_goto].
  - done.
Qed.

Lemma bkt_init_Inv : Inv init ∅.
Proof.
  unfold Inv, heap_ok, vals_ok, represents, init. cbn [heap vals threads].
  split; [|split; [|split]].
  - split; [by eexists|]. split.
    + intros l n [<- <-]%lookup_singleton_Some.
      intros l' n' [<- <-]%lookup_singleton_Some ?. done.
    + intros l1 n1 l2 n2 [<- <-]%lookup_singleton_Some
        [<- <-]%lookup_singleton_Some. done.
  - split.
    + intros l n [<- <-]%lookup_singleton_Some. done.
    + intros l1 n1 l2 n2 [<- <-]%lookup_singleton_Some
        [<- <-]%lookup_singleton_Some. done.
  - intros t p H. by rewrite lookup_empty in H.
  - intros k v. rewrite lookup_empty. split; [done|].
    intros (l & n & Hl & [<- <-]%lookup_singleton_Some & _). done.
Qed.

Lemma bkt_run_refines ls s es :
  ev_run exec init ls = Some (s, es) →
  ∃ m, trace spec_step ∅ es m ∧ Inv s m.
Proof.
  apply (ev_simulation exec spec_step Inv); [|apply bkt_init_Inv].
  intros. by apply (bkt_exec_sim s0 l s' e a) in H0.
Qed.
End Concurrent.
End Concurrent.

(** C32: interleaved [Set], [Get] and [Has] on one bucket are linearizable:
    whatever the schedule of atomic loads and compare-and-swaps, the visible
    events are a run of an atomic finite map, the final linked list holds
    exactly that map, its keys are unique and every [next] pointer leads to
    the next larger key. *)
Theorem bucket_linearizable (V : Type) ls (s : Concurrent.state (V := V)) es :
  ev_run Concurrent.exec Concurrent.init ls = Some (s, es) →
  ∃ m, trace Concurrent.spec_step ∅ es m ∧
       Concurrent.represents (Concurrent.heap s) (Concurrent.vals s) m ∧
       Concurrent.heap_ok (Concurrent.heap s).
Proof.
  intros (m & Ht & Hh & _ & _ & Hr)%Concurrent.bkt_run_refines. eauto.
Qed.

(** Two threads insert the keys 5 and 3 at the same place; the slower one
    fails its compare-and-swap, walks again and succeeds. *)
Definition race_schedule : list (Concurrent.label (V := Z)) :=
  [Concurrent.LCall 1 (Concurrent.OpInsert 5 50);
   Concurrent.LCall 2 (Concurrent.OpInsert 3 30);
   Concurrent.LStep 1 1 1; Concurrent.LStep 2 1 1;
   Concurrent.LStep 1 1 1; Concurrent.LStep 2 2 2;
   Concurrent.LStep 2 2 2; Concurrent.LStep 2 2 2;
   Concurrent.LCall 3 (Concurrent.OpGet 5);
   Concurrent.LStep 3 0 0; Concurrent.LStep 3 0 0; Concurrent.LStep 3 0 0;
   Concurrent.LStep 3 0 0].

Lemma bucket_linearizable_witness :
  ∃ s, ev_run Concurrent.exec Concurrent.init race_schedule =
         Some (s, [Concurrent.EvSet 5 50; Concurrent.EvSet 3 30;
                   Concurrent.EvGet 5 (Some 50)]) ∧
       ∃ m, trace Concurrent.spec_step ∅
              [Concurrent.EvSet 5 50; Concurrent.EvSet 3 30;
               Concurrent.EvGet 5 (Some 50)] m ∧
            Concurrent.represents (Concurrent.heap s) (Concurrent.vals s) m ∧
            Concurrent.heap_ok (Concurrent.heap s).
Proof.
  eexists. split; [vm_compute; reflexivity|].
  apply (bucket_linearizable Z race_schedule). vm_compute. reflexivity.
Defined.

(** Property: the overload of [Get] that copies the value out dereferences the
    pointer it loaded without protection: a concurrent [Set] of the same key
    deletes that value between the two, and the copy reads freed memory. *)
Theorem get_copy_use_after_free :
  ∃ ls (s : Concurrent.state (V := Z)) es,
    ev_run Concurrent.exec Concurrent.init ls = Some (s, es) ∧
    Concurrent.threads s !! 2%nat = Some Concurrent.UseAfterFree.
Proof.
  exists [Concurrent.LCall 1 (Concurrent.OpInsert 5 50);
     Concurrent.LStep 1 0 0; Concurrent.LStep 1 1 1;
     Concurrent.LCall 2 (Concurrent.OpGet 5);
     Concurrent.LStep 2 0 0; Concurrent.LStep 2 0 0;
     Concurrent.LCall 1 (Concurrent.OpInsert 5 51);
     Concurrent.LStep 1 0 0; Concurrent.LStep 1 0 0; Concurrent.LStep 1 0 2;
     Concurrent.LStep 2 0 0].
  eexists. eexists. split; vm_compute; reflexivity.
Qed.
