(* ===== verification/BoundedQueue.v ===== *)
(** * [cyber/base/bounded_queue.h]: the lock-free bounded queue

    [Section Queue] holds the state, the sequential reading of every member
    function and their FIFO specification.  [Module Interleaved] cuts
    [Enqueue] and [Dequeue] at their atomic accesses and proves that any
    schedule refines a bounded FIFO list. *)

From S2P Require Import Prelude.

Section Queue.
Context {T : Type}.

Record BoundedQueue := mkBQ {
  head_ : Z;
  tail_ : Z;
  commit_ : Z;
  pool_size_ : Z;
  pool_ : list T;
  break_all_wait_ : bool;
}.

(** [Init(size, strategy)]; the array is value-initialised.  The strategy
    object carries no queue state and a failing [calloc] is not modelled. *)
Definition Init (dflt : T) (size : Z) : BoundedQueue :=
  let pool_size := u64 (size + 2) in
  mkBQ 0 1 1 pool_size (replicate (Z.to_nat pool_size) dflt) false.

Definition GetIndex (q : BoundedQueue) (num : Z) : Z :=
  u64 (num - u64 (num / pool_size_ q * pool_size_ q)).

Definition with_tail (q : BoundedQueue) (t : Z) : BoundedQueue :=
  mkBQ (head_ q) t (commit_ q) (pool_size_ q) (pool_ q) (break_all_wait_ q).

Definition with_head (q : BoundedQueue) (h : Z) : BoundedQueue :=
  mkBQ h (tail_ q) (commit_ q) (pool_size_ q) (pool_ q) (break_all_wait_ q).

Definition with_commit (q : BoundedQueue) (c : Z) : BoundedQueue :=
  mkBQ (head_ q) (tail_ q) c (pool_size_ q) (pool_ q) (break_all_wait_ q).

Definition with_pool (q : BoundedQueue) (p : list T) : BoundedQueue :=
  mkBQ (head_ q) (tail_ q) (commit_ q) (pool_size_ q) p (break_all_wait_ q).

(** [Enqueue] when no other thread interferes: both loops end at once. *)
Definition Enqueue (q : BoundedQueue) (element : T) : bool * BoundedQueue :=
  let old_tail := tail_ q in
  let new_tail := u64 (old_tail + 1) in
  if GetIndex q new_tail =? GetIndex q (head_ q) then (false, q)
  else
    let q := with_tail q new_tail in
    let q := with_pool q (zset (pool_ q) (GetIndex q old_tail) element) in
    (true, with_commit q new_tail).

(** [Dequeue]; [None] is the return value [false]. *)
Definition Dequeue (q : BoundedQueue) : option T * BoundedQueue :=
  let new_head := u64 (head_ q + 1) in
  if new_head =? commit_ q then (None, q)
  else (zget (pool_ q) (GetIndex q new_head), with_head q new_head).

Definition Size (q : BoundedQueue) : Z := u64 (tail_ q - head_ q - 1).

Definition Empty (q : BoundedQueue) : bool := Size q =? 0.

Definition BreakAllWait (q : BoundedQueue) : BoundedQueue :=
  mkBQ (head_ q) (tail_ q) (commit_ q) (pool_size_ q) (pool_ q) true.

(** One turn of the loops of [WaitEnqueue] and [WaitDequeue]: the queue as
    other threads left it and what the strategy's [EmptyWait] will answer. *)
Record round := mkRound { r_queue : BoundedQueue; r_wait : bool }.

Inductive wait_result (A : Type) :=
| WaitDone (a : A) (q : BoundedQueue)
| WaitFailed
| StillWaiting.
Arguments WaitDone {A} _ _.
Arguments WaitFailed {A}.
Arguments StillWaiting {A}.

Fixpoint WaitEnqueue (rs : list round) (element : T) : wait_result unit :=
  match rs with
  | [] => StillWaiting
  | r :: rs =>
      if break_all_wait_ (r_queue r) then WaitFailed
      else match Enqueue (r_queue r) element with
           | (true, q) => WaitDone tt q
           | (false, _) => if r_wait r then WaitEnqueue rs element else WaitFailed
           end
  end.

Fixpoint WaitDequeue (rs : list round) : wait_result T :=
  match rs with
  | [] => StillWaiting
  | r :: rs =>
      if break_all_wait_ (r_queue r) then WaitFailed
      else match Dequeue (r_queue r) with
           | (Some x, q) => WaitDone x q
           | (None, _) => if r_wait r then WaitDequeue rs else WaitFailed
           end
  end.

(** ** Well-formedness and contents *)

(** Counters in order, the ring large enough, nothing about to wrap. *)
Definition counters_ok (q : BoundedQueue) : Prop :=
  2 ≤ pool_size_ q < 2 ^ 64 ∧ zlen (pool_ q) = pool_size_ q ∧
  0 ≤ head_ q < commit_ q ∧ commit_ q ≤ tail_ q ∧
  tail_ q - head_ q ≤ pool_size_ q - 1 ∧ tail_ q < 2 ^ 64 - 1.

(** The committed elements, oldest first. *)
Definition contents (q : BoundedQueue) (l : list T) : Prop :=
  zlen l = commit_ q - head_ q - 1 ∧
  ∀ j : nat, (j < length l)%nat →
    l !! j = zget (pool_ q) ((head_ q + 1 + Z.of_nat j) mod pool_size_ q).

Lemma GetIndex_mod q num :
  2 ≤ pool_size_ q < 2 ^ 64 → in_u 64 num → GetIndex q num = num mod pool_size_ q.
Proof.
  intros Hp Hn. unfold GetIndex.
  pose proof (Z.div_mod num (pool_size_ q)).
  pose proof (Z.mod_pos_bound num (pool_size_ q)).
  assert (0 ≤ num / pool_size_ q) by (apply Z.div_pos; unfold in_u in *; lia).
  rewrite (wrap_small 64 (num / _ * _)) by (unfold in_u in *; nia).
  rewrite wrap_small by (unfold in_u in *; nia). lia.
Qed.

Lemma contents_nil q : commit_ q = head_ q + 1 → contents q [].
Proof. intros H. split; [unfold zlen; simpl; lia|]. simpl. lia. Qed.

Lemma contents_frame q q' l :
  contents q l → head_ q' = head_ q → commit_ q' = commit_ q →
  pool_size_ q' = pool_size_ q →
  (∀ i, head_ q < i < commit_ q →
     zget (pool_ q') (i mod pool_size_ q) = zget (pool_ q) (i mod pool_size_ q)) →
  contents q' l.
Proof.
  intros [Hl Hj] Eh Ec Es Hp. split; [lia|]. intros j Hlt.
  rewrite Hj, Eh, Es by done. symmetry. apply Hp. unfold zlen in Hl. lia.
Qed.

Lemma contents_snoc q l x :
  contents q l →
  zget (pool_ q) (commit_ q mod pool_size_ q) = Some x →
  contents (with_commit q (commit_ q + 1)) (l ++ [x]).
Proof.
  intros [Hl Hj] Hx. unfold contents, zlen in *. rewrite length_app.
  simpl. split; [lia|]. intros j Hlt.
  destruct (decide (j = length l)) as [->|].
  - rewrite lookup_app_r, Nat.sub_diag by lia. simpl. rewrite <- Hx. repeat f_equal. lia.
  - rewrite lookup_app_l by lia. apply Hj. lia.
Qed.

Lemma contents_inv q l :
  contents q l → head_ q + 1 < commit_ q →
  ∃ x l', l = x :: l' ∧
    zget (pool_ q) ((head_ q + 1) mod pool_size_ q) = Some x ∧
    contents (with_head q (head_ q + 1)) l'.
Proof.
  intros [Hl Hj] Hlt. unfold zlen in Hl. destruct l as [|x l']; simpl in *; [lia|].
  exists x, l'. split; [done|]. split.
  - specialize (Hj 0%nat). rewrite Z.add_0_r in Hj. symmetry. apply Hj. lia.
  - split; simpl; [unfold zlen; lia|]. intros j Hlt'.
    specialize (Hj (S j)). simpl in Hj. rewrite Hj by lia. do 2 f_equal. lia.
Qed.

Lemma contents_empty q l : contents q l → head_ q + 1 = commit_ q → l = [].
Proof. intros [Hl _] H. destruct l; [done|]. unfold zlen in *. simpl in *. lia. Qed.

(** The slot a reserved position writes is none of the committed ones, and
    the test of [Enqueue] compares ring positions. *)
Lemma slot_ne (q : BoundedQueue) i j :
  0 < pool_size_ q → i < j < i + pool_size_ q →
  i mod pool_size_ q ≠ j mod pool_size_ q.
Proof. intros Hp Hij E. apply ring_index_inj in E; lia. Qed.

Lemma full_test q :
  counters_ok q →
  GetIndex q (tail_ q + 1) = GetIndex q (head_ q) ↔
  tail_ q + 1 - head_ q = pool_size_ q.
Proof.
  intros Hc. pose proof Hc as (Hp & _ & Hh & Ht & Hd & Hw).
  rewrite !GetIndex_mod by (simpl; unfold in_u; lia). split.
  - intros E. destruct (decide (tail_ q + 1 < head_ q + pool_size_ q)); [|lia].
    exfalso. eapply (slot_ne q (head_ q) (tail_ q + 1)); [lia..|]. done.
  - intros E. replace (tail_ q + 1) with (head_ q + 1 * pool_size_ q) by lia.
    by rewrite Z.mod_add by lia.
Qed.

(** *** Without interference *)

(** Between operations every reserved slot is committed. *)
Definition quiescent (q : BoundedQueue) (l : list T) : Prop :=
  counters_ok q ∧ commit_ q = tail_ q ∧ contents q l.

Lemma Init_quiescent dflt size :
  0 ≤ size < 2 ^ 64 - 2 → quiescent (Init dflt size) [].
Proof.
  intros H. unfold Init. rewrite wrap_small by (unfold in_u; lia).
  split; [|split; [done|by apply contents_nil]].
  unfold counters_ok. simpl. rewrite zlen_replicate. lia.
Qed.

Lemma Enqueue_quiescent q l x :
  quiescent q l → tail_ q < 2 ^ 64 - 2 →
  if decide (zlen l < pool_size_ q - 2)
  then (Enqueue q x).1 = true ∧ quiescent (Enqueue q x).2 (l ++ [x])
  else Enqueue q x = (false, q).
Proof.
  intros (Hc & Hq & Hl) Hw. pose proof Hc as (Hp & Hpl & Hh & Ht & Hd & _).
  pose proof (full_test q Hc) as Hf. pose proof Hl as [Hlen _].
  unfold Enqueue. rewrite wrap_small by (unfold in_u; lia).
  case_decide as Hd2.
  - destruct (Z.eqb_spec (GetIndex q (tail_ q + 1)) (GetIndex q (head_ q)));
      [lia|]. simpl. split; [done|]. split; [|split; [done|]].
    + unfold counters_ok. simpl. rewrite zlen_zset. lia.
    + rewrite GetIndex_mod by (simpl; unfold in_u; lia).
      set (q1 := with_pool _ _).
      replace (with_commit q1 (tail_ q + 1)) with (with_commit q1 (commit_ q1 + 1))
        by (simpl; by rewrite Hq).
      apply contents_snoc.
      * eapply contents_frame; [done..|]. simpl. intros i Hi.
        apply zget_zset_ne. apply not_eq_sym, slot_ne; lia.
      * simpl. rewrite <- Hq. apply zget_zset_eq. rewrite Hpl.
        apply Z.mod_pos_bound. lia.
  - destruct (Z.eqb_spec (GetIndex q (tail_ q + 1)) (GetIndex q (head_ q)));
      [done|lia].
Qed.

Lemma Dequeue_quiescent q l :
  quiescent q l →
  match l with
  | [] => Dequeue q = (None, q)
  | x :: l' => (Dequeue q).1 = Some x ∧ quiescent (Dequeue q).2 l'
  end.
Proof.
  intros (Hc & Hq & Hl). pose proof Hc as (Hp & Hpl & Hh & Ht & Hd & Hw).
  unfold Dequeue. rewrite wrap_small by (unfold in_u; lia).
  destruct (Z.eqb_spec (head_ q + 1) (commit_ q)) as [E|E].
  { by rewrite (contents_empty q l). }
  destruct (contents_inv q l) as (x & l' & -> & Hx & Hl'); [done|lia|].
  rewrite GetIndex_mod by (simpl; unfold in_u; lia). simpl. split; [done|].
  split; [|done]. unfold counters_ok. simpl. lia.
Qed.

Lemma Size_quiescent q l : quiescent q l → Size q = zlen l.
Proof.
  intros ((Hp & _ & Hh & Ht & Hd & Hw) & Hq & [Hl _]). unfold Size.
  rewrite wrap_small; unfold in_u; lia.
Qed.
End Queue.

Arguments BoundedQueue : clear implicits.

(** ** Every schedule of the atomic accesses *)

Module Interleaved.
Section Interleaved.
Context {T : Type}.

Inductive op := OpEnqueue (x : T) | OpDequeue.

(** The program points; local variables are the arguments. *)
Inductive pc :=
| EnqStart (x : T)
| EnqCheck (x : T) (old_tail : Z)
| EnqCas (x : T) (old_tail : Z)
| EnqWrite (x : T) (old_tail : Z)
| EnqCommit (x : T) (old_tail : Z)
| DeqStart
| DeqCheck (old_head : Z)
| DeqRead (old_head : Z)
| DeqCas (old_head : Z) (element : T).

(** The events: what the caller of the operation learns. *)
Inductive event :=
| EnqOk (x : T)
| EnqFalse (x : T)
| DeqOk (x : T)
| DeqFalse.

(** A thread starts an operation, or takes one step; [spurious] lets a weak
    compare-and-swap fail although it could succeed. *)
Inductive label := Call (t : nat) (o : op) | Step (t : nat) (spurious : bool).

Record state := mkState { queue : BoundedQueue T; threads : gmap nat pc }.

Definition goto (s : state) (t : nat) (p : pc) : state :=
  mkState (queue s) (<[t := p]> (threads s)).

Definition update (s : state) (t : nat) (p : pc) (q : BoundedQueue T) : state :=
  mkState q (<[t := p]> (threads s)).

Definition return_ (s : state) (t : nat) (q : BoundedQueue T) : state :=
  mkState q (delete t (threads s)).

Definition exec_enqueue (s : state) (t : nat) (spurious : bool) (p : pc) :
    option (state * option event) :=
  let q := queue s in
  match p with
  | EnqStart x => Some (goto s t (EnqCheck x (tail_ q)), None)
  | EnqCheck x old_tail =>
      if GetIndex q (u64 (old_tail + 1)) =? GetIndex q (head_ q)
      then Some (return_ s t q, Some (EnqFalse x))
      else Some (goto s t (EnqCas x old_tail), None)
  | EnqCas x old_tail =>
      if negb spurious && (tail_ q =? old_tail)
      then Some (update s t (EnqWrite x old_tail)
                   (with_tail q (u64 (old_tail + 1))), None)
      else Some (goto s t (EnqCheck x (tail_ q)), None)
  | EnqWrite x old_tail =>
      Some (update s t (EnqCommit x old_tail)
              (with_pool q (zset (pool_ q) (GetIndex q old_tail) x)), None)
  | EnqCommit x old_tail =>
      if negb spurious && (commit_ q =? old_tail)
      then Some (return_ s t (with_commit q (u64 (old_tail + 1))), Some (EnqOk x))
      else Some (s, None)
  | _ => None
  end.

Definition exec_dequeue (s : state) (t : nat) (spurious : bool) (p : pc) :
    option (state * option event) :=
  let q := queue s in
  match p with
  | DeqStart => Some (goto s t (DeqCheck (head_ q)), None)
  | DeqCheck old_head =>
      if u64 (old_head + 1) =? commit_ q
      then Some (return_ s t q, Some DeqFalse)
      else Some (goto s t (DeqRead old_head), None)
  | DeqRead old_head =>
      match zget (pool_ q) (GetIndex q (u64 (old_head + 1))) with
      | Some x => Some (goto s t (DeqCas old_head x), None)
      | None => None
      end
  | DeqCas old_head x =>
      if negb spurious && (head_ q =? old_head)
      then Some (return_ s t (with_head q (u64 (old_head + 1))), Some (DeqOk x))
      else Some (goto s t (DeqCheck (head_ q)), None)
  | _ => None
  end.

Definition exec (s : state) (l : label) : option (state * option event) :=
  match l with
  | Call t o =>
      match threads s !! t with
      | Some _ => None
      | None => Some (goto s t (match o with
                                | OpEnqueue x => EnqStart x
                                | OpDequeue => DeqStart
                                end), None)
      end
  | Step t spurious =>
      match threads s !! t with
      | Some p =>
          match exec_enqueue s t spurious p with
          | Some r => Some r
          | None => exec_dequeue s t spurious p
          end
      | None => None
      end
  end.

Definition init (dflt : T) (size : Z) : state := mkState (Init dflt size) ∅.

(** The specification: a list of at most [size] elements.  A failed
    [Dequeue] saw the empty list; a failed [Enqueue] promises nothing. *)
Inductive spec_step (size : Z) : list T → event → list T → Prop :=
| spec_enq l x : zlen l < size → spec_step size l (EnqOk x) (l ++ [x])
| spec_enq_false l x : spec_step size l (EnqFalse x) l
| spec_deq l x : spec_step size (x :: l) (DeqOk x) l
| spec_deq_false : spec_step size [] DeqFalse [].

(** *** What each program point knows *)

Definition thr_ok (q : BoundedQueue T) (p : pc) : Prop :=
  match p with
  | EnqStart _ | DeqStart => True
  | EnqCheck _ ot => 0 ≤ ot ≤ tail_ q
  | EnqCas _ ot =>
      0 ≤ ot ≤ tail_ q ∧ (ot = tail_ q → tail_ q + 1 - head_ q ≤ pool_size_ q - 1)
  | EnqWrite _ ot => commit_ q ≤ ot < tail_ q
  | EnqCommit x ot =>
      commit_ q ≤ ot < tail_ q ∧ zget (pool_ q) (ot mod pool_size_ q) = Some x
  | DeqCheck oh => 0 ≤ oh ≤ head_ q
  | DeqRead oh => 0 ≤ oh ≤ head_ q ∧ (oh = head_ q → oh + 1 < commit_ q)
  | DeqCas oh x =>
      0 ≤ oh ≤ head_ q ∧ (oh = head_ q → oh + 1 < commit_ q ∧
        zget (pool_ q) ((oh + 1) mod pool_size_ q) = Some x)
  end.

(** The position a thread has reserved and not yet committed. *)
Definition reserved (p : pc) : option Z :=
  match p with EnqWrite _ i | EnqCommit _ i => Some i | _ => None end.

Definition others_ok (s : state) (t : nat) (q : BoundedQueue T) : Prop :=
  ∀ t' p', t' ≠ t → threads s !! t' = Some p' → thr_ok q p'.

Definition exclusive (th : gmap nat pc) : Prop :=
  ∀ t1 t2 p1 p2 i, th !! t1 = Some p1 → th !! t2 = Some p2 →
    reserved p1 = Some i → reserved p2 = Some i → t1 = t2.

Definition Inv (n : nat) (s : state) (l : list T) : Prop :=
  counters_ok (queue s) ∧ tail_ (queue s) ≤ 1 + Z.of_nat n ∧
  contents (queue s) l ∧
  (∀ t p, threads s !! t = Some p → thr_ok (queue s) p) ∧
  exclusive (threads s).

Lemma exclusive_insert th t p p0 :
  exclusive th → th !! t = Some p0 →
  (∀ i, reserved p = Some i → reserved p0 = Some i) →
  exclusive (<[t := p]> th).
Proof.
  intros He Ht Hr t1 t2 p1 p2 i. rewrite !lookup_insert.
  repeat case_decide; intros; simplify_eq; eauto.
Qed.

Lemma exclusive_fresh th t p :
  exclusive th →
  (∀ t' p' i, th !! t' = Some p' → reserved p = Some i → reserved p' ≠ Some i) →
  exclusive (<[t := p]> th).
Proof.
  intros He Hr t1 t2 p1 p2 i. rewrite !lookup_insert.
  repeat case_decide; intros; simplify_eq; naive_solver.
Qed.

Lemma exclusive_delete th t : exclusive th → exclusive (delete t th).
Proof.
  intros He t1 t2 p1 p2 i [_ ?]%lookup_delete_Some [_ ?]%lookup_delete_Some. eauto.
Qed.

Lemma Inv_update n s l t p q l' :
  counters_ok q → tail_ q ≤ 1 + Z.of_nat (S n) → contents q l' →
  others_ok s t q → thr_ok q p → exclusive (<[t := p]> (threads s)) →
  Inv n s l → Inv (S n) (update s t p q) l'.
Proof.
  intros Hc Hn Hl Ho Hp He _. repeat split; try done; try apply Hc; try apply Hl.
  intros t' p'. simpl. rewrite lookup_insert. case_decide; naive_solver.
Qed.

Lemma bq_Inv_goto n s l t p p0 :
  Inv n s l → threads s !! t = Some p0 → thr_ok (queue s) p → reserved p = None →
  Inv (S n) (goto s t p) l.
Proof.
  intros HI Ht Hp Hr. pose proof HI as (Hc & Hn & Hl & Hth & He).
  apply (Inv_update n s l t p (queue s) l); try done.
  - lia.
  - intros t' p' _ ?. eauto.
  - eapply exclusive_insert; [done..|]. by rewrite Hr.
Qed.

Lemma Inv_return n s l t q l' :
  counters_ok q → tail_ q ≤ 1 + Z.of_nat (S n) → contents q l' →
  others_ok s t q → Inv n s l → Inv (S n) (return_ s t q) l'.
Proof.
  intros Hc Hn Hl Ho (_ & _ & _ & _ & He).
  repeat split; try done; try apply Hc; try apply Hl.
  - intros t' p'. simpl. intros [? ?]%lookup_delete_Some. eauto.
  - by apply exclusive_delete.
Qed.

(** *** How each write of a queue field affects the other threads *)

Lemma others_same n s l t : Inv n s l → others_ok s t (queue s).
Proof. intros (_ & _ & _ & Hth & _) t' p' _. eauto. Qed.

Lemma others_tail n s l t :
  Inv n s l → others_ok s t (with_tail (queue s) (tail_ (queue s) + 1)).
Proof.
  intros (Hc & _ & _ & Hth & _) t' p' _ Hp. specialize (Hth _ _ Hp).
  destruct p'; simpl in *; intuition lia.
Qed.

Lemma others_head n s l t :
  Inv n s l → others_ok s t (with_head (queue s) (head_ (queue s) + 1)).
Proof.
  intros (Hc & _ & _ & Hth & _) t' p' _ Hp. specialize (Hth _ _ Hp).
  destruct p'; simpl in *; intuition lia.
Qed.

Lemma others_commit n s l t p :
  Inv n s l → threads s !! t = Some p → reserved p = Some (commit_ (queue s)) →
  others_ok s t (with_commit (queue s) (commit_ (queue s) + 1)).
Proof.
  intros (Hc & _ & _ & Hth & He) Ht Hr t' p' Hne Hp.
  pose proof (Hth _ _ Hp) as Hok.
  assert (Hx : reserved p' ≠ Some (commit_ (queue s))).
  { intros E. apply Hne. eauto. }
  destruct p'; simpl in *; try done; try intuition lia.
  - assert (old_tail ≠ commit_ (queue s)) by congruence. lia.
  - assert (old_tail ≠ commit_ (queue s)) by congruence. intuition lia.
Qed.

Lemma others_write n s l t p ot x :
  Inv n s l → threads s !! t = Some p → reserved p = Some ot →
  commit_ (queue s) ≤ ot < tail_ (queue s) →
  others_ok s t
    (with_pool (queue s) (zset (pool_ (queue s)) (ot mod pool_size_ (queue s)) x)).
Proof.
  intros (Hc & _ & _ & Hth & He) Ht Hr Hot t' p' Hne Hp.
  pose proof (Hth _ _ Hp) as Hok. pose proof Hc as (Hps & _ & ? & ? & ? & _).
  assert (Hx : reserved p' ≠ Some ot) by (intros E; apply Hne; eauto).
  destruct p'; simpl in *; try done.
  - destruct Hok as [? <-]. split; [done|]. apply zget_zset_ne.
    assert (old_tail ≠ ot) by congruence.
    destruct (Z.lt_total ot old_tail) as [|[|]]; [|done|].
    + apply slot_ne; lia.
    + apply not_eq_sym, slot_ne; lia.
  - destruct Hok as [? Hok]. split; [done|]. intros E.
    destruct (Hok E) as [? <-]. split; [done|]. apply zget_zset_ne.
    apply not_eq_sym, slot_ne; lia.
Qed.

(** *** The simulation *)

Definition matched (n : nat) (size : Z) (l : list T) (r : state * option event) : Prop :=
  pool_size_ (queue r.1) = size + 2 ∧
  match r.2 with
  | None => Inv n r.1 l
  | Some e => ∃ l', spec_step size l e l' ∧ Inv n r.1 l'
  end.

Lemma in_ring n s l i :
  Inv n s l → 0 ≤ i ≤ tail_ (queue s) + 1 → in_u 64 i.
Proof. intros ((? & _ & ? & ? & ? & ?) & _). unfold in_u. lia. Qed.

Lemma mod_slot n s l i :
  Inv n s l → 0 ≤ i mod pool_size_ (queue s) < zlen (pool_ (queue s)).
Proof.
  intros ((? & -> & _) & _). apply Z.mod_pos_bound. lia.
Qed.

Lemma exec_enqueue_sim n size s t sp p r l :
  Z.of_nat n < 2 ^ 64 - 4 → Inv n s l → pool_size_ (queue s) = size + 2 →
  threads s !! t = Some p → exec_enqueue s t sp p = Some r →
  matched (S n) size l r.
Proof.
  intros Hn HI Hsz Ht Hx. pose proof HI as (Hc & Htl & Hl & Hth & He).
  pose proof Hc as (Hps & Hpl & Hh & Hct & Hd & Hw).
  pose proof (Hth _ _ Ht) as Hok.
  destruct p; simpl in Hx, Hok; simplify_eq; unfold matched; simpl.
  - split; [done|]. eapply bq_Inv_goto; simpl; [done..| |done]. lia.
  - rewrite wrap_small in * by (eapply in_ring; [done|lia]).
    destruct (Z.eqb_spec (GetIndex (queue s) (old_tail + 1))
      (GetIndex (queue s) (head_ (queue s)))) as [E|E]; simplify_eq/=;
      split; try done.
    + exists l. split; [constructor|].
      eapply Inv_return; eauto using others_same with lia.
    + eapply bq_Inv_goto; simpl; [done..| |done]. split; [lia|]. intros ->.
      pose proof (full_test _ Hc) as Hf. lia.
  - destruct (negb sp && (tail_ (queue s) =? old_tail)) eqn:E;
      simplify_eq/=; split; try done.
    + apply andb_true_iff in E as [_ <-%Z.eqb_eq].
      rewrite wrap_small by (eapply in_ring; [done|lia]).
      apply (Inv_update n s l); simpl; [|lia|done|by eapply others_tail|lia| |done].
      * unfold counters_ok. simpl. intuition lia.
      * apply exclusive_fresh; [done|]. simpl. intros t' p' i Hp' ? Hr.
        simplify_eq. specialize (Hth _ _ Hp').
        destruct p'; simplify_eq/=; lia.
    + eapply bq_Inv_goto; simpl; [done..| |done]. lia.
  - split; [done|].
    rewrite GetIndex_mod by (done || (eapply in_ring; [done|lia])).
    apply (Inv_update n s l); simpl; [|lia| |by eapply others_write| | |done].
    + unfold counters_ok. simpl. rewrite zlen_zset. done.
    + eapply contents_frame; [done..|]. simpl. intros i Hi.
      apply zget_zset_ne, not_eq_sym, slot_ne; lia.
    + split; [lia|]. apply zget_zset_eq. by eapply mod_slot.
    + eapply exclusive_insert; [done..|]. done.
  - destruct (negb sp && (commit_ (queue s) =? old_tail)) eqn:E;
      simplify_eq/=; split; try done.
    + apply andb_true_iff in E as [_ <-%Z.eqb_eq]. destruct Hok as [? Hx].
      rewrite wrap_small by (eapply in_ring; [done|lia]).
      exists (l ++ [x]). split.
      { constructor. destruct Hl as [-> _]. lia. }
      eapply Inv_return; simpl; [|lia| |by eapply others_commit|done].
      * unfold counters_ok. simpl. intuition lia.
      * by apply contents_snoc.
    + split; [done|]. split; [lia|done].
Qed.

Lemma exec_dequeue_sim n size s t sp p r l :
  Z.of_nat n < 2 ^ 64 - 4 → Inv n s l → pool_size_ (queue s) = size + 2 →
  threads s !! t = Some p → exec_dequeue s t sp p = Some r →
  matched (S n) size l r.
Proof.
  intros Hn HI Hsz Ht Hx. pose proof HI as (Hc & Htl & Hl & Hth & He).
  pose proof Hc as (Hps & Hpl & Hh & Hct & Hd & Hw).
  pose proof (Hth _ _ Ht) as Hok.
  destruct p; simpl in Hx, Hok; simplify_eq; unfold matched; simpl.
  - split; [done|]. eapply bq_Inv_goto; simpl; [done..| |done]. lia.
  - rewrite wrap_small in * by (eapply in_ring; [done|lia]).
    destruct (Z.eqb_spec (old_head + 1) (commit_ (queue s))) as [E|E];
      simplify_eq/=; split; try done.
    + exists l. rewrite (contents_empty (queue s) l) by (done || lia).
      split; [constructor|].
      eapply Inv_return; eauto using others_same with lia.
      by apply contents_nil; lia.
    + eapply bq_Inv_goto; simpl; [done..| |done]. lia.
  - rewrite wrap_small in * by (eapply in_ring; [done|lia]).
    rewrite GetIndex_mod in Hx by (done || (eapply in_ring; [done|lia])).
    destruct (zget _ _) as [x|] eqn:Ex; simplify_eq/=. split; [done|].
    eapply bq_Inv_goto; simpl; [done..| |done]. split; [lia|].
    intros ->. split; [lia|]. done.
  - destruct (negb sp && (head_ (queue s) =? old_head)) eqn:E;
      simplify_eq/=; split; try done.
    + apply andb_true_iff in E as [_ <-%Z.eqb_eq].
      destruct Hok as [_ [Hlt Hel]]; [done|].
      destruct (contents_inv _ _ Hl Hlt) as (x & l' & -> & Hx & Hl').
      simplify_eq. rewrite wrap_small by (eapply in_ring; [done|lia]).
      exists l'. split; [constructor|].
      eapply Inv_return; simpl; [|lia|done|by eapply others_head|done].
      unfold counters_ok. simpl. intuition lia.
    + eapply bq_Inv_goto; simpl; [done..| |done]. lia.
Qed.

Lemma bq_exec_sim n size s lb s' e l :
  Z.of_nat n < 2 ^ 64 - 4 → Inv n s l ∧ pool_size_ (queue s) = size + 2 →
  exec s lb = Some (s', e) → matched (S n) size l (s', e).
Proof.
  intros Hn [HI Hsz] Hx. destruct lb as [t o|t sp]; simpl in Hx.
  - destruct (threads s !! t) eqn:Ht; simplify_eq. split; [done|]. simpl.
    pose proof HI as (Hc & Htl & Hl & Hth & He).
    apply (Inv_update n s l); try done; [lia| | |].
    + by eapply others_same.
    + by destruct o.
    + apply exclusive_fresh; [done|]. by destruct o.
  - destruct (threads s !! t) as [p|] eqn:Ht; [|done].
    destruct (exec_enqueue s t sp p) as [r|] eqn:Eq; simplify_eq.
    + by eapply exec_enqueue_sim.
    + by eapply exec_dequeue_sim.
Qed.

Lemma bq_init_Inv dflt size :
  0 ≤ size < 2 ^ 64 - 2 → Inv 0 (init dflt size) [].
Proof.
  intros H. destruct (Init_quiescent dflt size H) as (Hc & _ & Hl).
  split; [done|]. split; [done|]. split; [done|]. split.
  - intros t p. simpl. by rewrite lookup_empty.
  - intros t1 t2 p1 p2 i. simpl. by rewrite lookup_empty.
Qed.

Lemma bq_run_refines dflt size ls s es :
  0 ≤ size < 2 ^ 64 - 2 → Z.of_nat (length ls) < 2 ^ 64 - 4 →
  ev_run exec (init dflt size) ls = Some (s, es) →
  ∃ l, trace (spec_step size) [] es l ∧ Inv (length ls) s l ∧
       pool_size_ (queue s) = size + 2.
Proof.
  intros Hs Hls Hr.
  apply (ev_simulation_bounded exec (spec_step size) (length ls)
    (λ n s l, Inv n s l ∧ pool_size_ (queue s) = size + 2)) with (a := []) in Hr;
    [|..|done].
  - destruct Hr as (l & ? & ? & ?). eauto.
  - intros n s0 lb s1 e l Hn HR Hx.
    apply (bq_exec_sim n size s0 lb s1 e l) in Hx as [Hp Hm]; [|lia|done].
    simpl in *. destruct e; [|done]. destruct Hm as (l' & ? & ?). eauto.
  - split; [by apply bq_init_Inv|]. simpl. by rewrite wrap_small; unfold in_u; lia.
Qed.

(** Elements put in and taken out, in the order of the events. *)
Definition enqueued (es : list event) : list T :=
  omap (λ e, match e with EnqOk x => Some x | _ => None end) es.

Definition dequeued (es : list event) : list T :=
  omap (λ e, match e with DeqOk x => Some x | _ => None end) es.

Lemma spec_fifo size es l :
  0 ≤ size → trace (spec_step size) [] es l →
  enqueued es = dequeued es ++ l ∧ zlen l ≤ size.
Proof.
  intros Hs. remember [] as l0 eqn:E0. unfold enqueued, dequeued.
  induction 1 as [|? es l1 e l2 Ht IH Hst]; [by subst|].
  destruct (IH E0) as [IHe IHl]. rewrite !omap_app, IHe.
  inversion Hst; subst; simpl; rewrite ?app_nil_r.
  - unfold zlen in *. rewrite length_app. simpl. rewrite <- app_assoc.
    split; [done|lia].
  - done.
  - rewrite <- app_assoc. unfold zlen in *. simpl in *. split; [done|lia].
  - done.
Qed.
End Interleaved.
End Interleaved.

(** C1: whatever the schedule of loads, stores and (weak) compare-and-swaps
    of any number of threads, the elements [Enqueue] accepted are exactly the
    elements [Dequeue] returned followed by the committed contents of the
    ring, in order: nothing is lost, duplicated or reordered, the ring never
    holds more than [size] elements, and a [Dequeue] that fails saw an empty
    queue (the event sequence is a run of the bounded list). *)
Theorem bounded_queue_refines_fifo (T : Type) (dflt : T) size ls s es :
  0 ≤ size < 2 ^ 64 - 2 → Z.of_nat (length ls) < 2 ^ 64 - 4 →
  ev_run Interleaved.exec (Interleaved.init dflt size) ls = Some (s, es) →
  ∃ l, trace (Interleaved.spec_step size) [] es l ∧
       contents (Interleaved.queue s) l ∧ zlen l ≤ size ∧
       Interleaved.enqueued es = Interleaved.dequeued es ++ l.
Proof.
  intros Hs Hls Hr.
  destruct (Interleaved.bq_run_refines dflt size ls s es Hs Hls Hr)
    as (l & Ht & (_ & _ & Hl & _) & _).
  destruct (Interleaved.spec_fifo size es l) as [He Hlen]; [lia|done|]. eauto.
Qed.

(** Two producers and a consumer on a queue of one element. *)
Definition two_producers : list (Interleaved.label (T := Z)) :=
  [Interleaved.Call 1 (Interleaved.OpEnqueue 10);
   Interleaved.Call 2 (Interleaved.OpEnqueue 20);
   Interleaved.Step 1 false; Interleaved.Step 2 false; Interleaved.Step 1 false;
   Interleaved.Step 2 false; Interleaved.Step 2 true; Interleaved.Step 1 false;
   Interleaved.Step 1 false; Interleaved.Step 2 false; Interleaved.Step 2 false;
   Interleaved.Step 2 false; Interleaved.Step 1 false;
   Interleaved.Call 3 Interleaved.OpDequeue;
   Interleaved.Step 3 false; Interleaved.Step 3 false; Interleaved.Step 3 false;
   Interleaved.Step 3 false].

Lemma bounded_queue_refines_fifo_witness :
  ∃ s, ev_run Interleaved.exec (Interleaved.init 0 1) two_producers =
         Some (s, [Interleaved.EnqFalse 20; Interleaved.EnqOk 10;
                   Interleaved.DeqOk 10]) ∧
  ∃ l, trace (Interleaved.spec_step 1) []
         [Interleaved.EnqFalse 20; Interleaved.EnqOk 10; Interleaved.DeqOk 10] l ∧
       contents (Interleaved.queue s) l ∧ zlen l ≤ 1 ∧
       Interleaved.enqueued
         [Interleaved.EnqFalse 20; Interleaved.EnqOk 10; Interleaved.DeqOk 10] =
       Interleaved.dequeued
         [Interleaved.EnqFalse 20; Interleaved.EnqOk 10; Interleaved.DeqOk 10] ++ l.
Proof.
  eexists. split; [vm_compute; reflexivity|].
  apply (bounded_queue_refines_fifo Z 0 1 two_producers); [lia|simpl; lia|].
  vm_compute. reflexivity.
Defined.

(** Property: without interference [Enqueue] returns false exactly when the queue
    already holds [size] elements and otherwise appends, [Dequeue] returns
    the oldest element or false on the empty queue, and [Size] counts. *)
Theorem bounded_queue_sequential (T : Type) (q : BoundedQueue T) l x :
  quiescent q l → tail_ q < 2 ^ 64 - 2 →
  (Enqueue q x).1 = bool_decide (zlen l < pool_size_ q - 2) ∧
  (zlen l < pool_size_ q - 2 → quiescent (Enqueue q x).2 (l ++ [x])) ∧
  (Dequeue q).1 = head l ∧ quiescent (Dequeue q).2 (tail l) ∧ Size q = zlen l.
Proof.
  intros Hq Ht. pose proof (Enqueue_quiescent q l x Hq Ht) as HE.
  pose proof (Dequeue_quiescent q l Hq) as HD. pose proof (Size_quiescent q l Hq).
  split; [|split; [|split; [|split]]]; try done.
  - case_decide; [rewrite bool_decide_eq_true_2|rewrite HE, bool_decide_eq_false_2];
      naive_solver.
  - intros. rewrite decide_True in HE by done. by destruct HE.
  - destruct l; [by rewrite HD|by destruct HD].
  - destruct l; [by rewrite HD|by destruct HD].
Qed.

Lemma bounded_queue_sequential_witness :
  let q := (Enqueue (Init 0 1) 7).2 in
  (Enqueue q 8).1 = bool_decide (zlen [7] < pool_size_ q - 2) ∧
  (zlen [7] < pool_size_ q - 2 → quiescent (Enqueue q 8).2 ([7] ++ [8])) ∧
  (Dequeue q).1 = Some 7 ∧ quiescent (Dequeue q).2 [] ∧ Size q = 1.
Proof.
  intros q. apply (bounded_queue_sequential Z q [7] 8); [|vm_compute; reflexivity].
  split; [|split; [reflexivity|]].
  - repeat split; vm_compute; (reflexivity || discriminate || intros; discriminate).
  - split; [reflexivity|]. intros [|j]; simpl; [reflexivity|]. lia.
Defined.

(** Property: [Enqueue] compares a position it loaded earlier with the current
    [head_]; when the queue has moved on in between, it returns false
    although at no moment more than one of two places was taken and the
    queue is empty when it answers. *)
Theorem enqueue_spurious_full :
  ∃ ls (s : Interleaved.state (T := Z)),
    ev_run Interleaved.exec (Interleaved.init 0 2) ls =
      Some (s, [Interleaved.EnqOk 1; Interleaved.DeqOk 1;
                Interleaved.EnqOk 2; Interleaved.DeqOk 2;
                Interleaved.EnqFalse 3]) ∧
    Size (Interleaved.queue s) = 0.
Proof.
  pose (enq := λ x : Z, Interleaved.Call 1 (Interleaved.OpEnqueue x)
                          :: replicate 5 (Interleaved.Step 1 false)).
  pose (deq := Interleaved.Call 1 Interleaved.OpDequeue
                 :: replicate 4 (Interleaved.Step (T := Z) 1 false)).
  exists ([Interleaved.Call 2 (Interleaved.OpEnqueue 3); Interleaved.Step 2 false]
          ++ enq 1 ++ deq ++ enq 2 ++ deq ++ [Interleaved.Step 2 false]).
  eexists. split; [vm_compute; reflexivity|].
  vm_compute. reflexivity.
Qed.
