(* ===== verification/RWLock.v ===== *)
(** * [cyber/base/atomic_rw_lock.h], [reentrant_rw_lock.h], [rw_lock_guard.h]

    [RWSpec] is the abstract readers-writer lock.  [Module Atomic] interleaves
    the atomic accesses of [AtomicRWLock] and refines it; [Module Reentrant]
    does the same for the steps of [ReentrantRWLock], whose release is not
    atomic with the reset of its owner. *)

From S2P Require Import Prelude.

(** ** The abstract lock *)

Module RWSpec.

Record state := mkState { readers : gset nat; writer : option nat }.

Inductive event := AcqRead (t : nat) | AcqWrite (t : nat) | RelRead (t : nat) | RelWrite (t : nat).

Definition free : state := mkState ∅ None.

(** A reader enters when there is no writer, a writer when there is nobody. *)
Inductive step : state → event → state → Prop :=
| step_acq_read r t :
    t ∉ r → step (mkState r None) (AcqRead t) (mkState ({[ t ]} ∪ r) None)
| step_acq_write t : step free (AcqWrite t) (mkState ∅ (Some t))
| step_rel_read r w t :
    t ∈ r → step (mkState r w) (RelRead t) (mkState (r ∖ {[ t ]}) w)
| step_rel_write r t : step (mkState r (Some t)) (RelWrite t) (mkState r None).

(** At most one writer, and never together with readers. *)
Definition exclusive (s : state) : Prop := writer s = None ∨ readers s = ∅.

Lemma step_exclusive s e s' : exclusive s → step s e s' → exclusive s'.
Proof. unfold exclusive. intros H. destruct 1; simpl in *; naive_solver set_solver. Qed.

Lemma trace_exclusive es s : trace step free es s → exclusive s.
Proof.
  apply (trace_invariant step exclusive); [by left|]. intros. by eapply step_exclusive.
Qed.

(** The value of the lock word that stands for an abstract state. *)
Definition word (s : state) : Z :=
  match writer s with Some _ => -1 | None => Z.of_nat (size (readers s)) end.

End RWSpec.

(** ** [AtomicRWLock] *)

Module Atomic.

Definition RW_LOCK_FREE : Z := 0.
Definition WRITE_EXCLUSIVE : Z := -1.

Inductive mode := Read | Write.

(** [RLCheck], [RLWaiters], [RLReload] are the inner [while] of [ReadLock]
    (its two tests and its reload), [RLCas] the outer one.  The retry counter
    only decides when to yield. *)
Inductive pc :=
| RLLoad
| RLCheck (lock_num : Z)
| RLWaiters (lock_num : Z)
| RLReload
| RLCas (lock_num : Z)
| Reading
| WLInc
| WLCas
| WLDec
| Writing.

Record lock := mkLock { lock_num_ : Z; write_lock_wait_num_ : Z; write_first_ : bool }.

Record state := mkState { lk : lock; threads : gmap nat pc }.

(** A guard is constructed, a thread takes a step ([spurious] as for every
    weak compare-and-swap), a guard is destroyed. *)
Inductive label := Acquire (t : nat) (m : mode) | Step (t : nat) (spurious : bool) | Release (t : nat).

Definition init (write_first : bool) : state := mkState (mkLock 0 0 write_first) ∅.

Definition goto (s : state) (t : nat) (p : pc) : state :=
  mkState (lk s) (<[t := p]> (threads s)).

Definition set_lock_num (l : lock) (n : Z) : lock :=
  mkLock n (write_lock_wait_num_ l) (write_first_ l).

Definition set_wait_num (l : lock) (n : Z) : lock :=
  mkLock (lock_num_ l) n (write_first_ l).

Definition ReadLock (s : state) (t : nat) (spurious : bool) (p : pc) :
    option (state * option RWSpec.event) :=
  let l := lk s in
  match p with
  | RLLoad => Some (goto s t (RLCheck (lock_num_ l)), None)
  | RLCheck n =>
      if n <? RW_LOCK_FREE then Some (goto s t RLReload, None)
      else if write_first_ l then Some (goto s t (RLWaiters n), None)
      else Some (goto s t (RLCas n), None)
  | RLWaiters n =>
      if 0 <? write_lock_wait_num_ l then Some (goto s t RLReload, None)
      else Some (goto s t (RLCas n), None)
  | RLReload => Some (goto s t (RLCheck (lock_num_ l)), None)
  | RLCas n =>
      if negb spurious && (lock_num_ l =? n)
      then Some (mkState (set_lock_num l (i32 (n + 1))) (<[t := Reading]> (threads s)),
                 Some (RWSpec.AcqRead t))
      else Some (goto s t (RLCheck (lock_num_ l)), None)
  | _ => None
  end.

Definition WriteLock (s : state) (t : nat) (spurious : bool) (p : pc) :
    option (state * option RWSpec.event) :=
  let l := lk s in
  match p with
  | WLInc =>
      Some (mkState (set_wait_num l (u32 (write_lock_wait_num_ l + 1)))
              (<[t := WLCas]> (threads s)), None)
  | WLCas =>
      if negb spurious && (lock_num_ l =? RW_LOCK_FREE)
      then Some (mkState (set_lock_num l WRITE_EXCLUSIVE) (<[t := WLDec]> (threads s)),
                 Some (RWSpec.AcqWrite t))
      else Some (s, None)
  | WLDec =>
      Some (mkState (set_wait_num l (u32 (write_lock_wait_num_ l - 1)))
              (<[t := Writing]> (threads s)), None)
  | _ => None
  end.

Definition ReadUnlock (s : state) (t : nat) : state * option RWSpec.event :=
  (mkState (set_lock_num (lk s) (i32 (lock_num_ (lk s) - 1))) (delete t (threads s)),
   Some (RWSpec.RelRead t)).

Definition WriteUnlock (s : state) (t : nat) : state * option RWSpec.event :=
  (mkState (set_lock_num (lk s) (i32 (lock_num_ (lk s) + 1))) (delete t (threads s)),
   Some (RWSpec.RelWrite t)).

(** The guards: the constructor locks, the destructor unlocks. *)
Definition exec (s : state) (l : label) : option (state * option RWSpec.event) :=
  match l with
  | Acquire t m =>
      match threads s !! t with
      | Some _ => None
      | None => Some (goto s t (match m with Read => RLLoad | Write => WLInc end), None)
      end
  | Step t spurious =>
      match threads s !! t with
      | Some p =>
          match ReadLock s t spurious p with
          | Some r => Some r
          | None => WriteLock s t spurious p
          end
      | None => None
      end
  | Release t =>
      match threads s !! t with
      | Some Reading => Some (ReadUnlock s t)
      | Some Writing => Some (WriteUnlock s t)
      | _ => None
      end
  end.

Definition reading (p : pc) : bool := match p with Reading => true | _ => false end.

Definition writing (p : pc) : bool := match p with WLDec | Writing => true | _ => false end.

Definition pc_ok (p : pc) : Prop :=
  match p with RLWaiters n | RLCas n => 0 ≤ n | _ => True end.

Definition Inv (n : nat) (s : state) (a : RWSpec.state) : Prop :=
  RWSpec.exclusive a ∧ lock_num_ (lk s) = RWSpec.word a ∧
  Z.of_nat (size (RWSpec.readers a)) ≤ Z.of_nat n ∧
  (∀ t, t ∈ RWSpec.readers a ↔ ∃ p, threads s !! t = Some p ∧ reading p = true) ∧
  (∀ t, RWSpec.writer a = Some t ↔ ∃ p, threads s !! t = Some p ∧ writing p = true) ∧
  (∀ t p, threads s !! t = Some p → pc_ok p).

(** A step that changes neither the lock word nor who holds the lock. *)
Lemma rw_Inv_quiet n s a t p l :
  Inv n s a → lock_num_ l = lock_num_ (lk s) → pc_ok p →
  reading p = from_option reading false (threads s !! t) →
  writing p = from_option writing false (threads s !! t) →
  Inv (S n) (mkState l (<[t := p]> (threads s))) a.
Proof.
  intros (Hx & Hl & Hn & Hr & Hw & Hp) Hl' Hok Er Ew.
  split; [done|]. split; [simpl; congruence|]. split; [lia|]. simpl. split; [|split].
  - intros t'. rewrite Hr, lookup_insert. case_decide; [subst t'|done].
    split; [intros (q & Hq & ?); rewrite Hq in Er; simpl in Er; exists p; naive_solver congruence|].
    intros (q & ? & Hq). simplify_eq. rewrite Er in Hq.
    destruct (threads s !! t) as [q'|]; naive_solver.
  - intros t'. rewrite Hw, lookup_insert. case_decide; [subst t'|done].
    split; [intros (q & Hq & ?); rewrite Hq in Ew; simpl in Ew; exists p; naive_solver congruence|].
    intros (q & ? & Hq). simplify_eq. rewrite Ew in Hq.
    destruct (threads s !! t) as [q'|]; naive_solver.
  - intros t' q. rewrite lookup_insert. case_decide; naive_solver.
Qed.

Lemma rw_not_reader n s a t p :
  Inv n s a → threads s !! t = Some p → reading p = false → t ∉ RWSpec.readers a.
Proof. intros (_ & _ & _ & Hr & _) Ht Hp (q & ? & ?)%Hr. congruence. Qed.

Lemma rw_acq_read n s r w t p :
  Z.of_nat n < 2 ^ 31 - 1 → Inv n s (RWSpec.mkState r w) → threads s !! t = Some p →
  reading p = false → writing p = false → 0 ≤ lock_num_ (lk s) →
  w = None ∧ t ∉ r ∧
  Inv (S n) (mkState (set_lock_num (lk s) (i32 (lock_num_ (lk s) + 1)))
               (<[t := Reading]> (threads s))) (RWSpec.mkState ({[ t ]} ∪ r) None).
Proof.
  intros Hn HI Ht Er Ew H0. pose proof (rw_not_reader _ _ _ _ _ HI Ht Er) as Hnr.
  destruct HI as (Hx & Hl & Hs & Hr & Hw & Hp). simpl in *.
  destruct w; [unfold RWSpec.word in Hl; simpl in Hl; lia|].
  unfold RWSpec.word in Hl. simpl in Hl. split; [done|]. split; [done|].
  assert (Hsz : size ({[ t ]} ∪ r) = S (size r)).
  { rewrite size_union by set_solver. by rewrite size_singleton. }
  split; [by left|]. split; [|split; [simpl; lia|split; [|split]]].
  - unfold RWSpec.word. simpl. rewrite swrap_small, Hsz; [lia|lia|unfold in_s; lia].
  - intros t'. simpl. rewrite elem_of_union, elem_of_singleton, Hr, lookup_insert.
    case_decide; naive_solver.
  - intros t'. simpl. split; [done|]. rewrite lookup_insert.
    intros (q & Hq & E). case_decide; simplify_eq/=. apply Hw. eauto.
  - intros t' q. simpl. rewrite lookup_insert. case_decide; naive_solver.
Qed.

Lemma rw_acq_write n s a t p :
  Inv n s a → threads s !! t = Some p → reading p = false → writing p = false →
  lock_num_ (lk s) = 0 →
  a = RWSpec.free ∧
  Inv (S n) (mkState (set_lock_num (lk s) WRITE_EXCLUSIVE) (<[t := WLDec]> (threads s)))
    (RWSpec.mkState ∅ (Some t)).
Proof.
  intros (Hx & Hl & Hs & Hr & Hw & Hp) Ht Er Ew H0. destruct a as [r w].
  unfold RWSpec.word in Hl. simpl in *. destruct w; [lia|].
  assert (r = ∅) as -> by (apply leibniz_equiv, size_empty_inv; lia). split; [done|].
  split; [by right|]. split; [done|]. split; [cbn [RWSpec.readers]; change (size (∅ : gset nat)) with 0%nat; lia|]. split; [|split].
  - intros t'. simpl. split; [set_solver|]. rewrite lookup_insert.
    intros (q & Hq & E). case_decide; simplify_eq/=. apply Hr. eauto.
  - intros t'. simpl. rewrite lookup_insert. case_decide as E; [subst; naive_solver|].
    split; [congruence|]. intros (q & Hq & ?).
    assert (None = Some t') by (apply Hw; eauto). done.
  - intros t' q. simpl. rewrite lookup_insert. case_decide; naive_solver.
Qed.

Lemma rw_rel_read n s a t p :
  Z.of_nat n < 2 ^ 31 - 1 → Inv n s a → threads s !! t = Some p → reading p = true →
  ∃ a', RWSpec.step a (RWSpec.RelRead t) a' ∧
    Inv (S n) (mkState (set_lock_num (lk s) (i32 (lock_num_ (lk s) - 1)))
                 (delete t (threads s))) a'.
Proof.
  intros Hn (Hx & Hl & Hs & Hr & Hw & Hp) Ht Er. destruct a as [r w]. simpl in *.
  assert (Hin : t ∈ r) by (apply Hr; eauto).
  assert (w = None) as -> by (destruct Hx; simpl in *; [done|set_solver]).
  unfold RWSpec.word in Hl. simpl in Hl.
  exists (RWSpec.mkState (r ∖ {[ t ]}) None). split; [by constructor|].
  assert (Hsz : Z.of_nat (size (r ∖ {[ t ]})) = Z.of_nat (size r) - 1).
  { rewrite size_difference, size_singleton by set_solver.
    assert (size r ≠ 0%nat) by (rewrite size_non_empty_iff; set_solver). lia. }
  split; [by left|]. split; [|split; [simpl; lia|split; [|split]]].
  - unfold RWSpec.word. simpl. rewrite swrap_small, Hsz; [lia|lia|unfold in_s; lia].
  - intros t'. simpl. rewrite elem_of_difference, elem_of_singleton, Hr, lookup_delete.
    case_decide; naive_solver.
  - intros t'. simpl. split; [done|]. rewrite lookup_delete.
    intros (q & Hq & E). case_decide; simplify_eq/=. apply Hw. eauto.
  - intros t' q. simpl. rewrite lookup_delete. case_decide; naive_solver.
Qed.

Lemma rw_rel_write n s a t p :
  Inv n s a → threads s !! t = Some p → writing p = true →
  ∃ a', RWSpec.step a (RWSpec.RelWrite t) a' ∧
    Inv (S n) (mkState (set_lock_num (lk s) (i32 (lock_num_ (lk s) + 1)))
                 (delete t (threads s))) a'.
Proof.
  intros (Hx & Hl & Hs & Hr & Hw & Hp) Ht Ew. destruct a as [r w]. simpl in *.
  assert (w = Some t) as -> by (apply Hw; eauto).
  unfold RWSpec.word in Hl. simpl in Hl.
  assert (r = ∅) as -> by (by destruct Hx).
  exists (RWSpec.mkState ∅ None). split; [constructor|].
  split; [by left|]. split; [|split; [cbn [RWSpec.readers]; change (size (∅ : gset nat)) with 0%nat; lia|split; [|split]]].
  - simpl. by rewrite Hl.
  - intros t'. simpl. split; [set_solver|]. rewrite lookup_delete.
    intros (q & Hq & E). case_decide; simplify_eq/=. apply Hr. eauto.
  - intros t'. simpl. split; [done|]. rewrite lookup_delete.
    intros (q & Hq & E). case_decide; simplify_eq/=.
    assert (Some t = Some t') by (apply Hw; eauto). congruence.
  - intros t' q. simpl. rewrite lookup_delete. case_decide; naive_solver.
Qed.

Definition matched (n : nat) (a : RWSpec.state) (r : state * option RWSpec.event) : Prop :=
  match r.2 with
  | None => Inv n r.1 a
  | Some e => ∃ a', RWSpec.step a e a' ∧ Inv n r.1 a'
  end.

Lemma rw_ReadLock_sim n s t sp p r a :
  Z.of_nat n < 2 ^ 31 - 1 → Inv n s a → threads s !! t = Some p →
  ReadLock s t sp p = Some r → matched (S n) a r.
Proof.
  intros Hn HI Ht Hr. pose proof HI as (_ & _ & _ & _ & _ & Hp).
  specialize (Hp _ _ Ht). unfold matched, ReadLock in *.
  assert (Hq : ∀ q, pc_ok q → reading q = reading p → writing q = writing p →
    Inv (S n) (goto s t q) a).
  { intros q ? E1 E2. apply rw_Inv_quiet; rewrite ?Ht; done. }
  destruct p; simplify_eq/=; try by apply Hq.
  - unfold RW_LOCK_FREE in *. destruct (Z.ltb_spec lock_num 0); simplify_eq/=.
    + by apply Hq.
    + destruct (write_first_ _); simplify_eq/=; by apply Hq.
  - destruct (0 <? _); simplify_eq/=; by apply Hq.
  - destruct (negb sp && _) eqn:E; simplify_eq/=; [|by apply Hq].
    apply andb_true_iff in E as [_ <-%Z.eqb_eq]. destruct a as [rs w].
    destruct (rw_acq_read n s rs w t _ Hn HI Ht) as (-> & ? & ?); [done..|].
    eexists. split; [by constructor|done].
Qed.

Lemma rw_WriteLock_sim n s t sp p r a :
  Inv n s a → threads s !! t = Some p →
  WriteLock s t sp p = Some r → matched (S n) a r.
Proof.
  intros HI Ht Hr. unfold matched, WriteLock in *.
  destruct p; simplify_eq/=.
  - apply rw_Inv_quiet; rewrite ?Ht; done.
  - destruct (negb sp && _) eqn:E; simplify_eq/=.
    + apply andb_true_iff in E as [_ E%Z.eqb_eq].
      destruct (rw_acq_write n s a t _ HI Ht) as (-> & ?); [done..|].
      eexists. split; [by constructor|done].
    + destruct HI as (? & ? & ? & ?). split; [done|]. split; [done|]. split; [lia|done].
  - apply rw_Inv_quiet; rewrite ?Ht; done.
Qed.

Lemma rw_exec_sim n s l s' e a :
  Z.of_nat n < 2 ^ 31 - 1 → Inv n s a → exec s l = Some (s', e) → matched (S n) a (s', e).
Proof.
  intros Hn HI Hx. destruct l as [t m|t sp|t]; simpl in Hx.
  - destruct (threads s !! t) eqn:Ht; simplify_eq.
    apply rw_Inv_quiet; rewrite ?Ht; by destruct m.
  - destruct (threads s !! t) as [p|] eqn:Ht; [|done].
    destruct (ReadLock s t sp p) eqn:E; simplify_eq;
      [by eapply rw_ReadLock_sim|by eapply rw_WriteLock_sim].
  - destruct (threads s !! t) as [p|] eqn:Ht; [|done]. unfold matched.
    unfold ReadUnlock, WriteUnlock in Hx.
    destruct p; simplify_eq/=; [by eapply rw_rel_read|by eapply rw_rel_write].
Qed.

Lemma rw_init_Inv wf : Inv 0 (init wf) RWSpec.free.
Proof.
  split; [by left|]. split; [done|]. split; [done|]. simpl.
  split; [|split]; intros t; rewrite ?lookup_empty; [set_solver|naive_solver|].
  by intros p ?.
Qed.

Lemma rw_run_refines wf ls s es :
  Z.of_nat (length ls) < 2 ^ 31 - 1 → ev_run exec (init wf) ls = Some (s, es) →
  ∃ a, trace RWSpec.step RWSpec.free es a ∧ Inv (length ls) s a.
Proof.
  intros Hls Hr.
  eapply (ev_simulation_bounded exec RWSpec.step (length ls) Inv);
    [|apply rw_init_Inv|done|done].
  intros n s0 l s1 e a Hn HI Hx.
  apply (rw_exec_sim n s0 l s1 e a) in Hx; [done|lia|done].
Qed.

End Atomic.

(** ** [ReentrantRWLock] *)

Module Reentrant.

Inductive mode := Read | Write.

(** [Enter] points test [write_thread_id_] against the own id. *)
Inductive pc :=
| Ready
| RLEnter
| RLLoad
| RLCheck (lock_num : Z)
| RLWaiters (lock_num : Z)
| RLReload
| RLCas (lock_num : Z)
| WLEnter
| WLInc
| WLCas
| WLSetId
| WLDec
| RUEnter
| WUAdd
| WUClear.

Record lock := mkLock {
  write_thread_id_ : option nat;
  write_lock_wait_num_ : Z;
  lock_num_ : Z;
  write_first_ : bool;
}.

(** [held] is the stack of guards of a thread, innermost first. *)
Record thread := mkThread { held : list mode; at_ : pc }.

Record state := mkState { lk : lock; threads : gmap nat thread }.

Inductive label := Lock (t : nat) (m : mode) | Unlock (t : nat) | Step (t : nat) (spurious : bool).

Definition init (write_first : bool) : state :=
  mkState (mkLock None 0 0 write_first) ∅.

Definition thread_of (s : state) (t : nat) : thread :=
  default (mkThread [] Ready) (threads s !! t).

Definition set_pc (s : state) (l : lock) (t : nat) (p : pc) : option state :=
  Some (mkState l (<[t := mkThread (held (thread_of s t)) p]> (threads s))).

(** The locking function returns: the guard is held. *)
Definition got (s : state) (l : lock) (t : nat) (m : mode) : option state :=
  Some (mkState l (<[t := mkThread (m :: held (thread_of s t)) Ready]> (threads s))).

Definition set_num (l : lock) (n : Z) : lock :=
  mkLock (write_thread_id_ l) (write_lock_wait_num_ l) n (write_first_ l).

Definition set_wait (l : lock) (n : Z) : lock :=
  mkLock (write_thread_id_ l) n (lock_num_ l) (write_first_ l).

Definition set_id (l : lock) (i : option nat) : lock :=
  mkLock i (write_lock_wait_num_ l) (lock_num_ l) (write_first_ l).

Definition ReadLock (s : state) (t : nat) (spurious : bool) (p : pc) : option state :=
  let l := lk s in
  match p with
  | RLEnter =>
      if bool_decide (write_thread_id_ l = Some t) then got s l t Read
      else set_pc s l t RLLoad
  | RLLoad | RLReload => set_pc s l t (RLCheck (lock_num_ l))
  | RLCheck n =>
      if n <? 0 then set_pc s l t RLReload
      else if write_first_ l then set_pc s l t (RLWaiters n)
      else set_pc s l t (RLCas n)
  | RLWaiters n =>
      if 0 <? write_lock_wait_num_ l then set_pc s l t RLReload
      else set_pc s l t (RLCas n)
  | RLCas n =>
      if negb spurious && (lock_num_ l =? n) then got s (set_num l (i32 (n + 1))) t Read
      else set_pc s l t (RLCheck (lock_num_ l))
  | _ => None
  end.

Definition WriteLock (s : state) (t : nat) (spurious : bool) (p : pc) : option state :=
  let l := lk s in
  match p with
  | WLEnter =>
      if bool_decide (write_thread_id_ l = Some t)
      then got s (set_num l (i32 (lock_num_ l - 1))) t Write
      else set_pc s l t WLInc
  | WLInc => set_pc s (set_wait l (u32 (write_lock_wait_num_ l + 1))) t WLCas
  | WLCas =>
      if negb spurious && (lock_num_ l =? 0) then set_pc s (set_num l (-1)) t WLSetId
      else Some s
  | WLSetId => set_pc s (set_id l (Some t)) t WLDec
  | WLDec => got s (set_wait l (u32 (write_lock_wait_num_ l - 1))) t Write
  | _ => None
  end.

Definition ReadUnlock (s : state) (t : nat) (p : pc) : option state :=
  let l := lk s in
  match p with
  | RUEnter =>
      if bool_decide (write_thread_id_ l = Some t) then set_pc s l t Ready
      else set_pc s (set_num l (i32 (lock_num_ l - 1))) t Ready
  | _ => None
  end.

(** [WriteUnlock]: the [fetch_add] and the reset of the owner are two steps. *)
Definition WriteUnlock (s : state) (t : nat) (p : pc) : option state :=
  let l := lk s in
  match p with
  | WUAdd =>
      let l' := set_num l (i32 (lock_num_ l + 1)) in
      if lock_num_ l =? -1 then set_pc s l' t WUClear else set_pc s l' t Ready
  | WUClear => set_pc s (set_id l None) t Ready
  | _ => None
  end.

Definition exec (s : state) (lb : label) : option state :=
  match lb with
  | Lock t m =>
      match at_ (thread_of s t), m with
      | Ready, Read => set_pc s (lk s) t RLEnter
      | Ready, Write => set_pc s (lk s) t WLEnter
      | _, _ => None
      end
  | Unlock t =>
      match thread_of s t with
      | mkThread (Read :: h) Ready =>
          Some (mkState (lk s) (<[t := mkThread h RUEnter]> (threads s)))
      | mkThread (Write :: h) Ready =>
          Some (mkState (lk s) (<[t := mkThread h WUAdd]> (threads s)))
      | _ => None
      end
  | Step t spurious =>
      let p := at_ (thread_of s t) in
      match ReadLock s t spurious p with
      | Some r => Some r
      | None =>
          match WriteLock s t spurious p with
          | Some r => Some r
          | None =>
              match ReadUnlock s t p with
              | Some r => Some r
              | None => WriteUnlock s t p
              end
          end
      end
  end.

(** The lock word says "a writer" while nobody holds or releases a guard. *)
Definition waiting (th : thread) : Prop :=
  held th = [] ∧
  match at_ th with
  | Ready | RLEnter | RLLoad | RLCheck _ | RLReload | WLEnter | WLInc | WLCas => True
  | RLWaiters n | RLCas n => 0 ≤ n
  | _ => False
  end.

Definition wedged (s : state) : Prop :=
  lock_num_ (lk s) = -1 ∧ write_thread_id_ (lk s) = None ∧ ∀ t, waiting (thread_of s t).

Lemma thread_of_insert l (m : gmap nat thread) t th t' :
  thread_of (mkState l (<[t := th]> m)) t' =
  if decide (t = t') then th else default (mkThread [] Ready) (m !! t').
Proof. unfold thread_of. simpl. rewrite lookup_insert. by case_decide. Qed.

Lemma wedged_at s l t p :
  wedged s → lock_num_ l = -1 → write_thread_id_ l = None →
  waiting (mkThread [] p) →
  wedged (mkState l (<[t := mkThread (held (thread_of s t)) p]> (threads s))).
Proof.
  intros (_ & _ & Hw) Hn Hi Hp. split; [done|]. split; [done|].
  intros t'. rewrite thread_of_insert. case_decide; [|apply Hw].
  by rewrite (proj1 (Hw t)).
Qed.

(** Once wedged, no thread ever obtains the lock again. *)
Lemma wedged_step s lb s' : wedged s → exec s lb = Some s' → wedged s'.
Proof.
  intros Hwd Hx. pose proof Hwd as (Hn & Hi & Hw). destruct lb as [t m|t|t sp]; simpl in Hx.
  - destruct (at_ (thread_of s t)); try done. unfold set_pc in Hx.
    destruct m; simplify_eq; by apply wedged_at.
  - destruct (thread_of s t) as [h p] eqn:E. pose proof (Hw t) as [Hh _].
    rewrite E in Hh. simpl in Hh. by subst h.
  - pose proof (Hw t) as [_ Hp].
    unfold ReadLock, WriteLock, ReadUnlock, WriteUnlock, set_pc in Hx.
    rewrite Hn, Hi in Hx. revert Hp Hx.
    destruct (at_ (thread_of s t)); simpl; intros Hp Hx; try done;
      repeat case_match; simplify_eq;
      repeat match goal with
      | H : bool_decide _ = true |- _ => apply bool_decide_eq_true in H
      | H : (_ && _)%bool = true |- _ => apply andb_true_iff in H as [_ H%Z.eqb_eq]
      | H : (_ <? _) = false |- _ => apply Z.ltb_ge in H
      end; try done; try lia; by apply wedged_at.
Qed.

End Reentrant.

(** C2: [AtomicRWLock] is a readers-writer lock: for every schedule of its
    loads and compare-and-swaps, with or without writer preference, the
    acquisitions and releases are a run of the abstract lock, so at most one
    guard writes and none reads beside it, and [lock_num_] always encodes the
    holders. *)
Theorem atomic_rwlock_exclusive wf ls s es :
  Z.of_nat (length ls) < 2 ^ 31 - 1 →
  ev_run Atomic.exec (Atomic.init wf) ls = Some (s, es) →
  ∃ a, trace RWSpec.step RWSpec.free es a ∧ RWSpec.exclusive a ∧
       Atomic.lock_num_ (Atomic.lk s) = RWSpec.word a ∧
       ∀ t, Atomic.threads s !! t = Some Atomic.Writing → RWSpec.writer a = Some t.
Proof.
  intros Hls Hr. destruct (Atomic.rw_run_refines wf ls s es Hls Hr)
    as (a & Ht & Hx & Hl & _ & _ & Hw & _).
  exists a. split; [done|]. split; [done|]. split; [done|].
  intros t Hth. apply Hw. eauto.
Qed.

(** Two readers enter, a writer waits for both to leave. *)
Definition readers_then_writer : list Atomic.label :=
  Atomic.Acquire 1 Atomic.Read :: replicate 4 (Atomic.Step 1 false) ++
  Atomic.Acquire 2 Atomic.Read :: replicate 4 (Atomic.Step 2 false) ++
  [Atomic.Acquire 3 Atomic.Write; Atomic.Step 3 false; Atomic.Step 3 false;
   Atomic.Release 1; Atomic.Release 2; Atomic.Step 3 true; Atomic.Step 3 false;
   Atomic.Step 3 false].

Lemma atomic_rwlock_exclusive_witness :
  ∃ s es, ev_run Atomic.exec (Atomic.init true) readers_then_writer = Some (s, es) ∧
  es = [RWSpec.AcqRead 1; RWSpec.AcqRead 2; RWSpec.RelRead 1; RWSpec.RelRead 2;
        RWSpec.AcqWrite 3] ∧
  ∃ a, trace RWSpec.step RWSpec.free es a ∧ RWSpec.exclusive a ∧
       Atomic.lock_num_ (Atomic.lk s) = RWSpec.word a ∧
       ∀ t, Atomic.threads s !! t = Some Atomic.Writing → RWSpec.writer a = Some t.
Proof.
  eexists. eexists. split; [vm_compute; reflexivity|]. split; [reflexivity|].
  apply (atomic_rwlock_exclusive true readers_then_writer); [simpl; lia|].
  vm_compute. reflexivity.
Defined.

(** Property: releasing a [ReentrantRWLock] for writing first makes the lock free
    and only then forgets the owner.  A thread that acquires it in between is
    forgotten instead; a nested read guard of that thread then decrements the
    lock word when it ends, and after all guards are gone the word stays at
    [WRITE_EXCLUSIVE]: whatever happens next, no thread holds a guard again. *)
Theorem reentrant_rwlock_wedges :
  ∃ ls s, run Reentrant.exec (Reentrant.init true) ls = Some s ∧
    Reentrant.lock_num_ (Reentrant.lk s) = -1 ∧
    ∀ ls' s', run Reentrant.exec s ls' = Some s' →
      ∀ t, Reentrant.held (Reentrant.thread_of s' t) = [].
Proof.
  pose (steps := λ t n, replicate n (Reentrant.Step t false)).
  exists (Reentrant.Lock 1 Reentrant.Write :: steps 1%nat 5%nat ++
     Reentrant.Unlock 1 :: steps 1%nat 1%nat ++
     Reentrant.Lock 2 Reentrant.Write :: steps 2%nat 5%nat ++
     Reentrant.Lock 2 Reentrant.Read :: steps 2%nat 1%nat ++ steps 1%nat 1%nat ++
     Reentrant.Unlock 2 :: steps 2%nat 1%nat ++
     Reentrant.Unlock 2 :: steps 2%nat 1%nat).
  eexists. split; [vm_compute; reflexivity|]. split; [reflexivity|].
  intros ls' s' Hr%run_trace t.
  eapply (trace_invariant _ Reentrant.wedged) in Hr as (_ & _ & Hw); [apply Hw| |].
  - split; [reflexivity|]. split; [reflexivity|]. intros t'. unfold Reentrant.thread_of.
    destruct (_ !! t') as [th|] eqn:E; [|done].
    apply (elem_of_map_to_list (M := gmap nat)) in E. vm_compute in E.
    apply list_elem_of_In in E. simpl in E.
    destruct E as [E|[E|[]]]; injection E as <- <-; done.
  - intros a l b. apply Reentrant.wedged_step.
Qed.
