(* ===== verification/ObjectPool.v ===== *)
(** * [cyber/base/object_pool.h] and [concurrent_object_pool.h]

    Both pools keep their unused nodes on a list threaded through the [next]
    fields of an arena.  [Module Plain] is the single-threaded [ObjectPool];
    [Module CC] interleaves the atomic accesses of [CCObjectPool], whose head
    carries a counter against the ABA problem. *)

From S2P Require Import Prelude.

(** The list of nodes from [h] on, through the [next] fields of the arena. *)
Fixpoint chain (next : list (option nat)) (h : option nat) (l : list nat) : Prop :=
  match l with
  | [] => h = None
  | n :: l' => h = Some n ∧ ∃ h', next !! n = Some h' ∧ chain next h' l'
  end.

Lemma chain_insert next h l n x :
  n ∉ l → chain next h l → chain (<[n := x]> next) h l.
Proof.
  revert h. induction l as [|m l IH]; intros h Hn; simpl; [done|].
  intros (-> & h' & Hm & Hc). split; [done|]. exists h'.
  rewrite list_lookup_insert_ne by set_solver. split; [done|].
  apply IH; [set_solver|done].
Qed.

Lemma chain_push next h l n :
  (n < length next)%nat → n ∉ l → chain next h l →
  chain (<[n := h]> next) (Some n) (n :: l).
Proof.
  intros Hlt Hn Hc. simpl. split; [done|]. exists h.
  rewrite list_lookup_insert_eq by done. split; [done|]. by apply chain_insert.
Qed.

Lemma chain_fun next h l l' : chain next h l → chain next h l' → l = l'.
Proof.
  revert h l'. induction l as [|n l IH]; intros h [|m l']; simpl; naive_solver.
Qed.

(** ** [ObjectPool] *)

Module Plain.

(** Objects are addressed by their index in [object_arena_]. *)
Record ObjectPool := mkPool {
  num_objects_ : Z;
  next : list (option nat);
  free_head_ : option nat;
}.

(** [ReleaseObject]; the null pointer is ignored. *)
Definition ReleaseObject (p : ObjectPool) (object : option nat) : ObjectPool :=
  match object with
  | None => p
  | Some n => mkPool (num_objects_ p) (<[n := free_head_ p]> (next p)) (Some n)
  end.

(** The constructors push the nodes [0 .. num_objects - 1] one by one; the
    initialiser of the second one only touches the object itself. *)
Definition ObjectPool_new (num_objects : nat) : ObjectPool :=
  fold_left (λ p i, mkPool (num_objects_ p) (<[i := free_head_ p]> (next p)) (Some i))
    (seq 0 num_objects)
    (mkPool (Z.of_nat num_objects) (replicate num_objects None) None).

(** [GetObject]: the object whose deleter is [ReleaseObject], or null. *)
Definition GetObject (p : ObjectPool) : option nat * ObjectPool :=
  match free_head_ p with
  | None => (None, p)
  | Some n => (Some n, mkPool (num_objects_ p) (next p) (default None (next p !! n)))
  end.

(** [free] is the free list, [out] the objects handed out. *)
Definition pool_ok (p : ObjectPool) (free : list nat) (out : gset nat) : Prop :=
  Z.of_nat (length (next p)) = num_objects_ p ∧ chain (next p) (free_head_ p) free ∧
  NoDup free ∧ (∀ n, (n < length (next p))%nat ↔ n ∈ free ∨ n ∈ out) ∧
  ∀ n, n ∈ free → n ∉ out.

Lemma GetObject_ok p free out :
  pool_ok p free out →
  match free with
  | [] => GetObject p = (None, p)
  | n :: free' =>
      (GetObject p).1 = Some n ∧ n ∉ out ∧ pool_ok (GetObject p).2 free' ({[ n ]} ∪ out)
  end.
Proof.
  intros (Hl & Hc & Hnd & Hin & Hex). unfold GetObject.
  destruct free as [|n free']; simpl in Hc; [by rewrite Hc|].
  destruct Hc as (-> & h' & Hn & Hc). simpl. rewrite Hn. simpl.
  apply NoDup_cons in Hnd as [Hn1 Hnd]. split; [done|]. split; [set_solver|].
  split; [done|]. split; [done|]. split; [done|]. simpl.
  split; [|set_solver]. intros m. rewrite Hin. set_solver.
Qed.

Lemma ReleaseObject_ok p free out n :
  pool_ok p free out → n ∈ out →
  pool_ok (ReleaseObject p (Some n)) (n :: free) (out ∖ {[ n ]}).
Proof.
  intros (Hl & Hc & Hnd & Hin & Hex) Hn. simpl.
  assert (n ∉ free) by set_solver.
  assert ((n < length (next p))%nat) by (apply Hin; by right).
  split; [simpl; by rewrite length_insert|].
  split; [by apply chain_push|]. split; [by constructor|].
  simpl. rewrite length_insert. split; [|set_solver].
  intros m. rewrite Hin. destruct (decide (m = n)); set_solver.
Qed.

(** Clients get objects and drop the ones they hold, in any order. *)
Inductive op := Get | Release (n : nat).

Definition client (s : ObjectPool * gset nat) (o : op) : option ((ObjectPool * gset nat) * option (option nat)) :=
  match o with
  | Get =>
      let '(r, p) := GetObject s.1 in
      Some ((p, match r with Some n => {[ n ]} ∪ s.2 | None => s.2 end), Some r)
  | Release n =>
      if decide (n ∈ s.2) then Some ((ReleaseObject s.1 (Some n), s.2 ∖ {[ n ]}), None)
      else None
  end.

Lemma client_ok s o s' e free :
  pool_ok s.1 free s.2 → client s o = Some (s', e) →
  (∃ free', pool_ok s'.1 free' s'.2 ∧
     (length free' + size s'.2 = length free + size s.2)%nat) ∧
  (∀ n, e = Some (Some n) → n ∉ s.2) ∧ (e = Some None → free = []).
Proof.
  intros Hp Hc. destruct o as [|n]; simpl in Hc.
  - pose proof (GetObject_ok _ _ _ Hp) as Hg. destruct free as [|m free].
    + rewrite Hg in Hc. simplify_eq/=. split; [eauto|]. split; [done|done].
    + destruct (GetObject s.1) as [r p]. destruct Hg as (Hr & Hm & Hp').
      simpl in Hr, Hp'. subst r. simplify_eq/=. split; [|by split; intros; simplify_eq].
      exists free. split; [done|]. rewrite size_union, size_singleton by set_solver. lia.
  - case_decide as Hn; simplify_eq/=. split; [|done].
    exists (n :: free). split; [by apply ReleaseObject_ok|]. simpl.
    rewrite size_difference, size_singleton by set_solver.
    assert (size s.2 ≠ 0%nat) by (rewrite size_non_empty_iff; set_solver). lia.
Qed.

Lemma ObjectPool_new_ok n : pool_ok (ObjectPool_new n) (rev (seq 0 n)) ∅.
Proof.
  unfold ObjectPool_new.
  assert (H : ∀ k, (k ≤ n)%nat →
    let p := fold_left (λ p i, mkPool (num_objects_ p) (<[i := free_head_ p]> (next p)) (Some i))
      (seq 0 k) (mkPool (Z.of_nat n) (replicate n None) None) in
    num_objects_ p = Z.of_nat n ∧ length (next p) = n ∧
    chain (next p) (free_head_ p) (rev (seq 0 k))).
  { induction k as [|k IH]; intros Hk.
    - simpl. by rewrite length_replicate.
    - rewrite seq_S, fold_left_app, rev_app_distr. simpl in *.
      destruct IH as (IH1 & IH2 & IH3); [lia|].
      split; [done|]. split; [by rewrite length_insert|].
      apply chain_push; [lia| |done].
      rewrite list_elem_of_In, <- in_rev, in_seq. lia. }
  destruct (H n) as (H1 & H2 & H3); [done|].
  split; [by rewrite H1, H2|]. split; [done|]. split; [|split; [|set_solver]].
  - apply NoDup_ListNoDup, NoDup_rev, seq_NoDup.
  - intros m. rewrite H2, list_elem_of_In, <- in_rev, in_seq. set_solver by lia.
Qed.

Lemma ObjectPool_new_length n : length (next (ObjectPool_new n)) = n.
Proof.
  unfold ObjectPool_new.
  assert (H : ∀ l p, length (next (fold_left (λ p i, mkPool (num_objects_ p)
    (<[i := free_head_ p]> (next p)) (Some i)) l p)) = length (next p)).
  { induction l as [|i l IH]; intros p; simpl; [done|]. by rewrite IH; simpl; rewrite length_insert. }
  rewrite H. apply length_replicate.
Qed.

Lemma client_length s o s' e :
  client s o = Some (s', e) → length (next s'.1) = length (next s.1).
Proof.
  destruct o as [|n]; simpl.
  - unfold GetObject. intros. destruct (free_head_ s.1); by simplify_eq/=.
  - case_decide; intros; simplify_eq/=. apply length_insert.
Qed.

End Plain.

(** Property: whatever the clients of a fresh [ObjectPool] of [n] objects do, the
    pool returns null only when all [n] objects are in use, and otherwise an
    object nobody holds. *)
Theorem object_pool_exclusive n ops s es o s' r :
  ev_run Plain.client (Plain.ObjectPool_new n, ∅) ops = Some (s, es) →
  Plain.client s o = Some (s', Some r) →
  match r with
  | Some m => m ∉ s.2 ∧ m ∈ s'.2 ∧ (m < n)%nat
  | None => base.size s.2 = n
  end.
Proof.
  intros Hr Ho.
  assert (HI : ∃ free, Plain.pool_ok s.1 free s.2 ∧
    (length free + base.size s.2 = n)%nat ∧ length (Plain.next s.1) = n).
  { eapply (ev_run_invariant Plain.client (λ s, ∃ free, Plain.pool_ok s.1 free s.2 ∧
      (length free + base.size s.2 = n)%nat ∧ length (Plain.next s.1) = n));
      [| |exact Hr].
    - exists (rev (seq 0 n)). split; [apply Plain.ObjectPool_new_ok|].
      cbn [fst snd]. rewrite size_empty, length_rev, length_seq.
      split; [lia|apply Plain.ObjectPool_new_length].
    - intros a l b e (f & Hp & Hsz & Hl) Hc.
      destruct (Plain.client_ok _ _ _ _ _ Hp Hc) as [(f' & Hp' & Hsz') _].
      exists f'. split; [done|]. split; [lia|].
      rewrite <- Hl. by eapply Plain.client_length. }
  destruct HI as (f & Hp & Hsz & Hl).
  destruct (Plain.client_ok _ _ _ _ _ Hp Ho) as [(f' & Hp' & Hsz') [Hs Hn]].
  destruct r as [m|]; [|rewrite Hn in Hsz by done; simpl in Hsz; lia].
  split; [by apply Hs|].
  assert (Hm : m ∈ s'.2).
  { destruct o; simpl in Ho; [|by case_decide].
    destruct (Plain.GetObject s.1) as [q p]. simplify_eq/=. set_solver. }
  split; [done|]. apply Plain.client_length in Ho.
  destruct Hp' as (_ & _ & _ & Hin & _). rewrite <- Hl, <- Ho. apply Hin. by right.
Qed.

Lemma object_pool_exclusive_witness :
  ∃ s es s', ev_run Plain.client (Plain.ObjectPool_new 2, ∅)
    [Plain.Get; Plain.Get; Plain.Release 1] = Some (s, es) ∧
  Plain.client s Plain.Get = Some (s', Some (Some 1%nat)) ∧
  (1%nat ∉ s.2 ∧ 1%nat ∈ s'.2 ∧ (1 < 2)%nat).
Proof.
  eexists. eexists. eexists. split; [vm_compute; reflexivity|].
  split; [vm_compute; reflexivity|].
  eapply (object_pool_exclusive 2 [Plain.Get; Plain.Get; Plain.Release 1] _ _ Plain.Get _ (Some 1%nat));
    vm_compute; reflexivity.
Defined.

(** ** [CCObjectPool] *)

Module CC.

Record Head := mkHead { count : Z; node : option nat }.

#[global] Instance Head_eq_dec : EqDecision Head.
Proof. solve_decision. Defined.

Record pool := mkPool { free_head_ : Head; next : list (option nat); capacity_ : Z }.

(** The constructor for a positive size: node [i] points to node [i + 1].
    (For size 0 the loop bound [capacity_ - 1] wraps around to [2^32 - 1] and
    the source writes outside of the arena.) *)
Definition CCObjectPool_new (size : nat) : pool :=
  mkPool (mkHead 0 (if decide (size = 0%nat) then None else Some 0%nat))
    ((λ i, if decide (S i < size)%nat then Some (S i) else None) <$> seq 0 size)
    (Z.of_nat size).

(** [FindFreeHead] reads the node's [next] between loading the head and the
    compare-and-swap; [ReleaseObject] writes it there. *)
Inductive pc :=
| FfLoad
| FfNext (old_head : Head) (n : nat)
| FfCas (old_head : Head) (n : nat) (new_node : option nat)
| RelLoad (object : nat)
| RelWrite (object : nat) (old_head : Head)
| RelCas (object : nat) (old_head : Head).

Inductive event := EvGet (n : nat) | EvNull | EvFree (n : nat).

(** [Get t] covers [GetObject] and [ConstructObject]; [Release t n] is the
    deleter of the shared pointer, run once by whoever drops it last. *)
Inductive label := Get (t : nat) | Release (t : nat) (n : nat) | Step (t : nat) (spurious : bool).

(** [owned]: the objects in use by the clients. *)
Record state := mkState { pl : pool; owned : gset nat; threads : gmap nat pc }.

Definition init (size : nat) : state := mkState (CCObjectPool_new size) ∅ ∅.

Definition goto (s : state) (t : nat) (p : pc) : state :=
  mkState (pl s) (owned s) (<[t := p]> (threads s)).

(** The head of the loop of [FindFreeHead], after [old_head] was loaded. *)
Definition FindFreeHead_test (s : state) (t : nat) : state * option event :=
  match node (free_head_ (pl s)) with
  | None => (mkState (pl s) (owned s) (delete t (threads s)), Some EvNull)
  | Some n => (goto s t (FfNext (free_head_ (pl s)) n), None)
  end.

Definition FindFreeHead (s : state) (t : nat) (spurious : bool) (p : pc) :
    option (state * option event) :=
  match p with
  | FfLoad => Some (FindFreeHead_test s t)
  | FfNext old n =>
      match next (pl s) !! n with
      | Some nx => Some (goto s t (FfCas old n nx), None)
      | None => None
      end
  | FfCas old n nx =>
      if negb spurious && bool_decide (free_head_ (pl s) = old)
      then Some (mkState
                   (mkPool (mkHead (u64 (count old + 1)) nx) (next (pl s)) (capacity_ (pl s)))
                   ({[ n ]} ∪ owned s) (delete t (threads s)), Some (EvGet n))
      else Some (FindFreeHead_test s t)
  | _ => None
  end.

Definition ReleaseObject (s : state) (t : nat) (spurious : bool) (p : pc) :
    option (state * option event) :=
  match p with
  | RelLoad n => Some (goto s t (RelWrite n (free_head_ (pl s))), None)
  | RelWrite n old =>
      Some (mkState
              (mkPool (free_head_ (pl s)) (<[n := node old]> (next (pl s))) (capacity_ (pl s)))
              (owned s) (<[t := RelCas n old]> (threads s)), None)
  | RelCas n old =>
      if negb spurious && bool_decide (free_head_ (pl s) = old)
      then Some (mkState
                   (mkPool (mkHead (u64 (count old + 1)) (Some n)) (next (pl s))
                      (capacity_ (pl s)))
                   (owned s) (delete t (threads s)), Some (EvFree n))
      else Some (goto s t (RelWrite n (free_head_ (pl s))), None)
  | _ => None
  end.

Definition exec (s : state) (l : label) : option (state * option event) :=
  match l with
  | Get t =>
      match threads s !! t with
      | Some _ => None
      | None => Some (goto s t FfLoad, None)
      end
  | Release t n =>
      match threads s !! t with
      | Some _ => None
      | None =>
          if bool_decide (n ∈ owned s)
          then Some (mkState (pl s) (owned s ∖ {[ n ]}) (<[t := RelLoad n]> (threads s)), None)
          else None
      end
  | Step t spurious =>
      match threads s !! t with
      | Some p =>
          match FindFreeHead s t spurious p with
          | Some r => Some r
          | None => ReleaseObject s t spurious p
          end
      | None => None
      end
  end.

(** The specification: free objects in stack order and objects handed out. *)
Record spec := mkSpec { free : list nat; out : gset nat }.

Inductive spec_step : spec → event → spec → Prop :=
| spec_get n f o : n ∉ o → spec_step (mkSpec (n :: f) o) (EvGet n) (mkSpec f ({[ n ]} ∪ o))
| spec_null o : spec_step (mkSpec [] o) EvNull (mkSpec [] o)
| spec_free n f o : n ∈ o → spec_step (mkSpec f o) (EvFree n) (mkSpec (n :: f) (o ∖ {[ n ]})).

(** The object a thread is putting back. *)
Definition pending (p : pc) : option nat :=
  match p with RelLoad n | RelWrite n _ | RelCas n _ => Some n | _ => None end.

(** A head loaded earlier: older, or still current. *)
Definition seen (s : state) (old : Head) : Prop :=
  count old ≤ count (free_head_ (pl s)) ∧
  (count old = count (free_head_ (pl s)) → old = free_head_ (pl s)).

Definition pc_ok (s : state) (p : pc) : Prop :=
  match p with
  | FfLoad | RelLoad _ => True
  | FfNext old n => seen s old ∧ node old = Some n
  | FfCas old n nx =>
      seen s old ∧ node old = Some n ∧
      (old = free_head_ (pl s) → next (pl s) !! n = Some nx)
  | RelWrite n old => seen s old
  | RelCas n old => seen s old ∧ next (pl s) !! n = Some (node old)
  end.

Definition users_ok (own : gset nat) (th : gmap nat pc) (o : gset nat) : Prop :=
  (∀ m, m ∈ o ↔ m ∈ own ∨ ∃ t p, th !! t = Some p ∧ pending p = Some m) ∧
  (∀ t p m, th !! t = Some p → pending p = Some m → m ∉ own) ∧
  (∀ t1 t2 p1 p2 m, th !! t1 = Some p1 → th !! t2 = Some p2 →
     pending p1 = Some m → pending p2 = Some m → t1 = t2).

Definition pool_ok (n : nat) (s : state) (a : spec) : Prop :=
  0 ≤ count (free_head_ (pl s)) ≤ Z.of_nat n ∧
  chain (next (pl s)) (node (free_head_ (pl s))) (free a) ∧
  NoDup (free a) ∧
  (∀ m, (m < length (next (pl s)))%nat ↔ m ∈ free a ∨ m ∈ out a) ∧
  (∀ m, m ∈ free a → m ∉ out a).

Definition Inv (n : nat) (s : state) (a : spec) : Prop :=
  pool_ok n s a ∧ users_ok (owned s) (threads s) (out a) ∧
  ∀ t p, threads s !! t = Some p → pc_ok s p.

Lemma users_quiet own th o t p :
  users_ok own th o →
  pending p = (match th !! t with Some q => pending q | None => None end) →
  users_ok own (<[t := p]> th) o.
Proof.
  intros (H1 & H2 & H3) Hp. split; [|split].
  - intros m. rewrite H1. f_equiv. split.
    + intros (t' & q & Hq & Hm). destruct (decide (t = t')) as [->|].
      * exists t', p. rewrite lookup_insert_eq. rewrite Hq in Hp. naive_solver congruence.
      * exists t', q. by rewrite lookup_insert_ne.
    + intros (t' & q & Hq & Hm). rewrite lookup_insert in Hq.
      case_decide; simplify_eq; [|eauto].
      destruct (th !! t') as [q'|] eqn:E; [|congruence]. exists t', q'. split; congruence.
  - intros t' q m. rewrite lookup_insert. case_decide; [|eauto].
    intros ? Hm. simplify_eq. destruct (th !! t') as [q'|] eqn:E; [|congruence].
    eapply H2; [done|congruence].
  - intros t1 t2 p1 p2 m. rewrite !lookup_insert.
    repeat case_decide; intros; simplify_eq; try done; try (by eapply H3).
    + destruct (th !! t1) as [q'|] eqn:E; [|congruence]. eapply H3; [done..| |done]. congruence.
    + destruct (th !! t2) as [q'|] eqn:E; [|congruence]. eapply H3; [done..| |]; [done|congruence].
Qed.

Lemma users_delete own th o t p :
  users_ok own th o → th !! t = Some p → pending p = None → users_ok own (delete t th) o.
Proof.
  intros (H1 & H2 & H3) Ht Hp. split; [|split].
  - intros m. rewrite H1. f_equiv. split.
    + intros (t' & q & Hq & Hm). exists t', q. rewrite lookup_delete_ne; [done|congruence].
    + intros (t' & q & [_ Hq]%lookup_delete_Some & Hm). eauto.
  - intros t' q m [_ ?]%lookup_delete_Some. eauto.
  - intros t1 t2 p1 p2 m [_ ?]%lookup_delete_Some [_ ?]%lookup_delete_Some. eauto.
Qed.

Lemma users_own own th o t p n :
  users_ok own th o → th !! t = Some p → pending p = None → n ∉ o →
  users_ok ({[ n ]} ∪ own) (delete t th) ({[ n ]} ∪ o).
Proof.
  intros Hu Ht Hp Hn. pose proof (users_delete _ _ _ _ _ Hu Ht Hp) as (H1 & H2 & H3).
  split; [|split; [|done]].
  - intros m. rewrite !elem_of_union, H1. naive_solver.
  - intros t' q m Hq Hm. rewrite elem_of_union, elem_of_singleton.
    intros [->|Ho]; [|by eapply H2]. apply Hn, H1. right. eauto.
Qed.

Lemma users_release own th o t n :
  users_ok own th o → th !! t = None → n ∈ own →
  users_ok (own ∖ {[ n ]}) (<[t := RelLoad n]> th) o.
Proof.
  intros (H1 & H2 & H3) Ht Hn. split; [|split].
  - intros m. rewrite H1, elem_of_difference, elem_of_singleton. split.
    + destruct (decide (m = n)) as [->|]; intros [Hm|(t' & q & Hq & Hm)].
      1,2: right; exists t, (RelLoad n); by rewrite lookup_insert_eq.
      * by left.
      * right. exists t', q. rewrite lookup_insert_ne; [done|congruence].
    + intros [[? _]|(t' & q & Hq & Hm)]; [by left|]. rewrite lookup_insert in Hq.
      case_decide; simplify_eq/=; [by left|right; eauto].
  - intros t' q m. rewrite lookup_insert, elem_of_difference.
    case_decide; intros; simplify_eq/=; [set_solver|]. intros [? _]. by eapply H2.
  - intros t1 t2 p1 p2 m. rewrite !lookup_insert.
    repeat case_decide; intros; simplify_eq/=; try done; try (by eapply H3);
      exfalso; by eapply H2.
Qed.

Lemma users_free own th o t p n :
  users_ok own th o → th !! t = Some p → pending p = Some n →
  n ∈ o ∧ users_ok own (delete t th) (o ∖ {[ n ]}).
Proof.
  intros (H1 & H2 & H3) Ht Hp. split; [apply H1; eauto|]. split; [|split].
  - intros m. rewrite elem_of_difference, elem_of_singleton, H1. split.
    + intros [[Ho|(t' & q & Hq & Hm)] Hne]; [by left|]. right. exists t', q.
      rewrite lookup_delete_ne; [done|congruence].
    + intros [Ho|(t' & q & [Hne Hq]%lookup_delete_Some & Hm)].
      * split; [by left|]. intros ->. by eapply H2.
      * split; [right; eauto|]. intros ->. by apply Hne; eapply H3.
  - intros t' q m [_ ?]%lookup_delete_Some. eauto.
  - intros t1 t2 p1 p2 m [_ ?]%lookup_delete_Some [_ ?]%lookup_delete_Some. eauto.
Qed.

(** *** The simulation *)

Definition matched (n : nat) (a : spec) (r : state * option event) : Prop :=
  match r.2 with
  | None => Inv n r.1 a
  | Some e => ∃ a', spec_step a e a' ∧ Inv n r.1 a'
  end.

Lemma pool_ok_S n s a : pool_ok n s a → pool_ok (S n) s a.
Proof. intros (? & ?). split; [lia|done]. Qed.

Lemma Inv_quiet n s a t p :
  Inv n s a → pc_ok s p →
  pending p = (match threads s !! t with Some q => pending q | None => None end) →
  Inv (S n) (goto s t p) a.
Proof.
  intros (Hp & Hu & Hpc) Hok Hpe. split; [by apply pool_ok_S in Hp|].
  split; [by apply users_quiet|].
  intros t' q. simpl. rewrite lookup_insert. case_decide; intros; simplify_eq; [done|].
  by apply (Hpc t').
Qed.

Lemma seen_head s : seen s (free_head_ (pl s)).
Proof. by split. Qed.

(** After a successful compare-and-swap every head seen before is stale. *)
Lemma pc_ok_new_head s s' p :
  pc_ok s p → next (pl s') = next (pl s) →
  count (free_head_ (pl s)) < count (free_head_ (pl s')) → pc_ok s' p.
Proof.
  intros Hp Hn Hc.
  assert (Hs : ∀ old, seen s old → seen s' old).
  { intros old [H1 H2]. split; [lia|]. intros. exfalso. lia. }
  destruct p; simpl in *; rewrite ?Hn; try naive_solver.
  destruct Hp as ([H1 H2] & Hnd & _). split; [by apply Hs|]. split; [done|].
  intros ->. exfalso. lia.
Qed.

Lemma FindFreeHead_test_sim n s t p a :
  Inv n s a → threads s !! t = Some p → pending p = None →
  matched (S n) a (FindFreeHead_test s t).
Proof.
  intros HI Ht Hp. unfold FindFreeHead_test.
  pose proof HI as ((Hc & Hch & Hnd & Hin & Hex) & Hu & Hpc).
  destruct (node (free_head_ (pl s))) as [m|] eqn:E; unfold matched; simpl.
  - apply Inv_quiet; [done| |by rewrite Ht]. simpl. split; [apply seen_head|done].
  - destruct a as [f o]. simpl in *.
    assert (f = []) as -> by (destruct f; [done|by destruct Hch]).
    eexists. split; [constructor|]. split; [|split].
    + split; [simpl; lia|]. simpl. by rewrite E.
    + by eapply users_delete.
    + intros t' q. simpl. intros [_ ?]%lookup_delete_Some. by apply (Hpc t').
Qed.

Lemma FindFreeHead_sim n s t sp p r a :
  Z.of_nat n < 2 ^ 64 - 1 → Inv n s a → threads s !! t = Some p →
  FindFreeHead s t sp p = Some r → matched (S n) a r.
Proof.
  intros Hn HI Ht Hx. pose proof HI as ((Hc & Hch & Hnd & Hin & Hex) & Hu & Hpc).
  pose proof (Hpc _ _ Ht) as Hok. destruct p; simpl in Hx, Hok; simplify_eq.
  - by eapply FindFreeHead_test_sim.
  - destruct (next (pl s) !! n0) as [nx|] eqn:E; simplify_eq. unfold matched. simpl.
    apply Inv_quiet; [done| |by rewrite Ht]. simpl. naive_solver.
  - destruct (negb sp && _) eqn:E; simplify_eq; [|by eapply FindFreeHead_test_sim].
    apply andb_true_iff in E as [_ <-%bool_decide_eq_true].
    destruct Hok as (_ & Hnode & Hnx). specialize (Hnx eq_refl).
    destruct a as [f o]. simpl in *. rewrite Hnode in Hch.
    destruct f as [|m f]; [done|]. destruct Hch as (E & h' & Hm & Hch). simplify_eq.
    apply NoDup_cons in Hnd as [Hn1 Hnd].
    assert (Hmo : m ∉ o) by set_solver.
    exists (mkSpec f ({[ m ]} ∪ o)). split; [by constructor|].
    split; [|split].
    + simpl. rewrite wrap_small by (unfold in_u; lia).
      split; [simpl; lia|]. split; [done|]. split; [done|].
      split; [intros k; rewrite Hin; set_solver|set_solver].
    + by eapply users_own.
    + intros t' q. simpl. intros [_ Hq]%lookup_delete_Some.
      eapply (pc_ok_new_head s); [by apply (Hpc t')|done|]. simpl.
      rewrite wrap_small by (unfold in_u; lia). lia.
Qed.

Lemma ReleaseObject_sim n s t sp p r a :
  Z.of_nat n < 2 ^ 64 - 1 → Inv n s a → threads s !! t = Some p →
  ReleaseObject s t sp p = Some r → matched (S n) a r.
Proof.
  intros Hn HI Ht Hx. pose proof HI as ((Hc & Hch & Hnd & Hin & Hex) & Hu & Hpc).
  pose proof (Hpc _ _ Ht) as Hok. destruct p; simpl in Hx, Hok; simplify_eq.
  - unfold matched. simpl. apply Inv_quiet; [done|apply seen_head|by rewrite Ht].
  - unfold matched. simpl. destruct a as [f o]. simpl in *.
    destruct (users_free _ _ _ _ _ object Hu Ht) as [Ho _]; [done|].
    assert (Hf : object ∉ f) by set_solver.
    assert (Hlen : (object < length (next (pl s)))%nat) by (apply Hin; by right).
    split; [|split].
    + split; [simpl; lia|]. simpl. rewrite length_insert.
      split; [by apply chain_insert|done].
    + apply users_quiet; [done|by rewrite Ht].
    + intros t' q. simpl. rewrite lookup_insert. case_decide; intros Hq; simplify_eq.
      * simpl. by rewrite list_lookup_insert_eq.
      * pose proof (Hpc _ _ Hq) as Hqok. destruct q; simpl in *; try done.
        -- destruct Hqok as (Hs & Hnd' & Hnx). split; [done|]. split; [done|].
           intros ->. rewrite list_lookup_insert_ne; [by apply Hnx|]. intros ->.
           rewrite Hnd' in Hch. destruct f; [done|]. destruct Hch as [? _]. set_solver.
        -- destruct Hqok as (Hs & Hnx). split; [done|].
           rewrite list_lookup_insert_ne; [done|]. intros ->.
           destruct Hu as (_ & _ & H3). exact (H (H3 t t' _ _ _ Ht Hq eq_refl eq_refl)).
  - destruct (negb sp && _) eqn:E; simplify_eq; unfold matched; simpl.
    + apply andb_true_iff in E as [_ <-%bool_decide_eq_true].
      destruct Hok as (_ & Hnx). destruct a as [f o]. simpl in *.
      destruct (users_free _ _ _ _ _ object Hu Ht) as [Ho Hu']; [done|].
      assert (Hf : object ∉ f) by set_solver.
      exists (mkSpec (object :: f) (o ∖ {[ object ]})). split; [by constructor|].
      split; [|split].
      * simpl. rewrite wrap_small by (unfold in_u; lia).
        split; [simpl; lia|]. split; [simpl; eauto|].
        split; [by constructor|]. split; [|set_solver].
        intros k. rewrite Hin. destruct (decide (k = object)); set_solver.
      * done.
      * intros t' q. simpl. intros [_ Hq]%lookup_delete_Some.
        eapply (pc_ok_new_head s); [by apply (Hpc t')|done|]. simpl.
        rewrite wrap_small by (unfold in_u; lia). lia.
    + apply Inv_quiet; [done|apply seen_head|by rewrite Ht].
Qed.

Lemma cc_exec_sim n s l s' e a :
  Z.of_nat n < 2 ^ 64 - 1 → Inv n s a → exec s l = Some (s', e) → matched (S n) a (s', e).
Proof.
  intros Hn HI Hx. destruct l as [t|t m|t sp]; simpl in Hx.
  - destruct (threads s !! t) eqn:Ht; simplify_eq. unfold matched. simpl.
    apply Inv_quiet; [done..|by rewrite Ht].
  - destruct (threads s !! t) eqn:Ht; simplify_eq. case_bool_decide; simplify_eq.
    destruct HI as (Hp & Hu & Hpc). unfold matched. simpl.
    split; [by apply pool_ok_S in Hp|]. split; [by apply users_release|].
    intros t' q. simpl. rewrite lookup_insert. case_decide; intros; simplify_eq; [done|].
    by apply (Hpc t').
  - destruct (threads s !! t) as [p|] eqn:Ht; [|done].
    destruct (FindFreeHead s t sp p) as [r|] eqn:E; simplify_eq.
    + by eapply FindFreeHead_sim.
    + by eapply ReleaseObject_sim.
Qed.

Lemma new_chain size k :
  (k < size)%nat →
  chain (next (CCObjectPool_new size)) (Some k) (seq k (size - k)).
Proof.
  intros Hk. remember (size - k)%nat as d eqn:Hd. revert k Hk Hd.
  induction d as [|d IH]; intros k Hk Hd; [lia|]. simpl. split; [done|].
  exists (if decide (S k < size)%nat then Some (S k) else None). split.
  - rewrite list_lookup_fmap, lookup_seq_lt by lia. done.
  - case_decide; [apply IH; lia|]. by replace d with 0%nat by lia.
Qed.

Lemma cc_init_Inv size : Inv 0 (init size) (mkSpec (seq 0 size) ∅).
Proof.
  assert (Hlen : length (next (CCObjectPool_new size)) = size).
  { simpl. by rewrite length_fmap, length_seq. }
  split; [|split].
  - split; [done|]. cbn [init pl free out]. split; [|split; [|split]].
    + simpl. case_decide; [by subst|].
      pose proof (new_chain size 0) as Hn. rewrite Nat.sub_0_r in Hn. apply Hn. lia.
    + apply NoDup_ListNoDup, seq_NoDup.
    + intros m. rewrite Hlen, list_elem_of_In, in_seq. set_solver by lia.
    + set_solver.
  - split; [|split].
    + intros m. simpl. split; [set_solver|]. intros [?|(t & p & Hp & _)]; [set_solver|].
      by rewrite lookup_empty in Hp.
    + intros t p m Hp. simpl in Hp. by rewrite lookup_empty in Hp.
    + intros t1 t2 p1 p2 m Hp. simpl in Hp. by rewrite lookup_empty in Hp.
  - intros t p Hp. simpl in Hp. by rewrite lookup_empty in Hp.
Qed.

Lemma cc_run_refines size ls s es :
  Z.of_nat (length ls) < 2 ^ 64 - 1 → ev_run exec (init size) ls = Some (s, es) →
  ∃ a, trace spec_step (mkSpec (seq 0 size) ∅) es a ∧ Inv (length ls) s a.
Proof.
  intros Hls Hr.
  eapply (ev_simulation_bounded exec spec_step (length ls) Inv);
    [|apply cc_init_Inv|done|done].
  intros n s0 l s1 e a Hn HI Hx.
  apply (cc_exec_sim n s0 l s1 e a) in Hx; [done|lia|done].
Qed.

Lemma spec_count a e a' : spec_step a e a' →
  (length (free a') + size (out a') = length (free a) + size (out a))%nat.
Proof.
  destruct 1; simpl; [rewrite size_union, size_singleton by set_solver; lia|done|].
  rewrite size_difference, size_singleton by set_solver.
  assert (size o ≠ 0%nat) by (rewrite size_non_empty_iff; set_solver). lia.
Qed.

Lemma spec_total es a0 a : trace spec_step a0 es a →
  (length (free a) + size (out a) = length (free a0) + size (out a0))%nat.
Proof. induction 1 as [|b ls b1 l b2 Ht IH Hs]; [done|]. apply spec_count in Hs. lia. Qed.
End CC.

(** C3: under every schedule of [GetObject] / [ConstructObject] and of the
    deleters' [ReleaseObject], the lock-free free list behaves like a stack:
    an object that is in use is never handed out again (the ABA counter), a
    null pointer is returned only when all objects are in use, and the free
    objects and those in use always make up the capacity. *)
Theorem cc_pool_never_hands_out_twice size ls s es :
  Z.of_nat (length ls) < 2 ^ 64 - 1 →
  ev_run CC.exec (CC.init size) ls = Some (s, es) →
  ∃ a, trace CC.spec_step (CC.mkSpec (seq 0 size) ∅) es a ∧
       CC.owned s ⊆ CC.out a ∧
       chain (CC.next (CC.pl s)) (CC.node (CC.free_head_ (CC.pl s))) (CC.free a) ∧
       (length (CC.free a) + base.size (CC.out a) = size)%nat.
Proof.
  intros Hls Hr. destruct (CC.cc_run_refines size ls s es Hls Hr)
    as (a & Ht & (_ & Hch & _) & (Ho & _) & _).
  exists a. split; [done|]. split; [intros m Hm; apply Ho; by left|]. split; [done|].
  apply CC.spec_total in Ht. cbn [CC.free CC.out] in Ht.
  rewrite length_seq, size_empty in Ht. lia.
Qed.

(** Thread 1 is about to take node 0 when thread 2 takes 0 and 1 and gives 0
    back: the head is node 0 again, but thread 1's compare-and-swap fails. *)
Definition aba_schedule : list CC.label :=
  [CC.Get 1; CC.Step 1 false; CC.Step 1 false;
   CC.Get 2; CC.Step 2 false; CC.Step 2 false; CC.Step 2 false;
   CC.Get 2; CC.Step 2 false; CC.Step 2 false; CC.Step 2 false;
   CC.Release 2 0; CC.Step 2 false; CC.Step 2 false; CC.Step 2 false;
   CC.Step 1 false; CC.Step 1 false; CC.Step 1 false].

Lemma cc_pool_never_hands_out_twice_witness :
  ∃ s es, ev_run CC.exec (CC.init 3) aba_schedule = Some (s, es) ∧
  es = [CC.EvGet 0; CC.EvGet 1; CC.EvFree 0; CC.EvGet 0] ∧
  ∃ a, trace CC.spec_step (CC.mkSpec (seq 0 3) ∅) es a ∧
       CC.owned s ⊆ CC.out a ∧
       chain (CC.next (CC.pl s)) (CC.node (CC.free_head_ (CC.pl s))) (CC.free a) ∧
       (length (CC.free a) + base.size (CC.out a) = 3)%nat.
Proof.
  eexists. eexists. split; [vm_compute; reflexivity|]. split; [reflexivity|].
  apply (cc_pool_never_hands_out_twice 3 aba_schedule); [simpl; lia|].
  vm_compute. reflexivity.
Defined.
