(* ===== verification/CacheBuffer.v ===== *)
(** * The ring buffers of the data path

    [CacheBuffer<T>] ([src/code/cyber/data/cache_buffer.h]) keeps the latest
    messages of a channel, [ChannelBuffer<T>]
    ([src/code/cyber/data/channel_buffer.h]) reads them by absolute position.
    Both hold the buffer's mutex for a whole operation, so the operations are
    sequential functions on the buffer.  [holds size b vs] says that [b] is
    the buffer after the messages [vs] were filled into it; the reading
    operations are characterised through it. *)

From S2P Require Import Prelude.

Section CacheBuffer.
Context {T : Type} (null : T).

Record CacheBuffer := mkCacheBuffer {
  head_ : Z;
  tail_ : Z;
  capacity_ : Z;
  buffer_ : list T;
}.

Definition CacheBuffer_new (size : Z) : CacheBuffer :=
  let capacity := u64 (size + 1) in
  mkCacheBuffer 0 0 capacity (replicate (Z.to_nat capacity) null).

Definition GetIndex (b : CacheBuffer) (pos : Z) : Z := pos mod capacity_ b.

Definition at_ (b : CacheBuffer) (pos : Z) : T :=
  default null (zget (buffer_ b) (GetIndex b pos)).

Definition Head (b : CacheBuffer) : Z := u64 (head_ b + 1).
Definition Tail (b : CacheBuffer) : Z := tail_ b.
Definition Size (b : CacheBuffer) : Z := u64 (tail_ b - head_ b).
Definition Front (b : CacheBuffer) : T := at_ b (u64 (head_ b + 1)).
Definition Back (b : CacheBuffer) : T := at_ b (tail_ b).
Definition Empty (b : CacheBuffer) : bool := tail_ b =? 0.
Definition Full (b : CacheBuffer) : bool :=
  u64 (capacity_ b - 1) =? u64 (tail_ b - head_ b).
Definition Capacity (b : CacheBuffer) : Z := capacity_ b.

(** [Fill] of a buffer without a fusion callback. *)
Definition Fill (b : CacheBuffer) (value : T) : CacheBuffer :=
  if Full b
  then mkCacheBuffer (u64 (head_ b + 1)) (u64 (tail_ b + 1)) (capacity_ b)
         (zset (buffer_ b) (GetIndex b (head_ b)) value)
  else mkCacheBuffer (head_ b) (u64 (tail_ b + 1)) (capacity_ b)
         (zset (buffer_ b) (GetIndex b (u64 (tail_ b + 1))) value).

(** ** [ChannelBuffer]: the new [*index] and the message, or [false]. *)

Definition Fetch (b : CacheBuffer) (index : Z) : option (Z * T) :=
  if Empty b then None
  else if index =? 0 then Some (Tail b, at_ b (Tail b))
  else if index =? u64 (Tail b + 1) then None
  else if index <? Head b then Some (Tail b, at_ b (Tail b))
  else Some (index, at_ b index).

Definition Latest (b : CacheBuffer) : option T :=
  if Empty b then None else Some (Back b).

(** The loop of [FetchMulti], with fuel: [index <= buffer_->Tail()]. *)
Fixpoint FetchMulti_loop (fuel : nat) (b : CacheBuffer) (index : Z) : option (list T) :=
  match fuel with
  | O => None
  | S fuel =>
      if index <=? Tail b
      then cons (at_ b index) <$> FetchMulti_loop fuel b (u64 (index + 1))
      else Some []
  end.

Definition FetchMulti (fuel : nat) (b : CacheBuffer) (fetch_size : Z) : option (option (list T)) :=
  if Empty b then Some None
  else
    let num := Z.min (Size b) fetch_size in
    Some <$> FetchMulti_loop fuel b (u64 (u64 (Tail b - num) + 1)).

(** ** What a buffer holds *)

Record holds (size : Z) (b : CacheBuffer) (vs : list T) : Prop := {
  h_tail : tail_ b = zlen vs;
  h_head : head_ b = Z.max 0 (zlen vs - size);
  h_cap : capacity_ b = size + 1;
  h_len : zlen (buffer_ b) = size + 1;
  h_cells : ∀ i, 1 ≤ i ≤ zlen vs → zlen vs - (size + 1) < i →
    zget (buffer_ b) (i mod (size + 1)) = zget vs (i - 1);
}.

Lemma new_holds size : 0 ≤ size < 2 ^ 64 - 1 → holds size (CacheBuffer_new size) [].
Proof.
  intros Hs. unfold CacheBuffer_new. rewrite wrap_small by wordlia.
  split; simpl; try done; [unfold zlen; simpl; lia| |unfold zlen; simpl; lia].
  rewrite zlen_replicate. lia.
Qed.

Context (size : Z) (Hsize : 0 ≤ size < 2 ^ 64 - 1).

Lemma holds_Size b vs : holds size b vs → zlen vs < 2 ^ 64 →
  Size b = Z.min size (zlen vs) ∧ Full b = (size <=? zlen vs) ∧ 0 ≤ zlen vs.
Proof using Hsize.
  intros [Ht Hh Hc Hl _] Hb. pose proof (zlen_nonneg vs).
  assert (HS : Size b = Z.min size (zlen vs)).
  { unfold Size. rewrite Ht, Hh. rewrite wrap_small; [|wordlia]. lia. }
  split; [done|]. split; [|done]. unfold Full. fold (Size b). rewrite HS, Hc.
  rewrite wrap_small by wordlia. lia.
Qed.

(** Both branches of [Fill] write the cell of position [tail_ + 1]. *)
Lemma Fill_holds b vs v : holds size b vs → zlen vs + 1 < 2 ^ 64 →
  holds size (Fill b v) (vs ++ [v]).
Proof using Hsize.
  intros Hb Hn. destruct (holds_Size b vs Hb) as (HS & HF & H0); [lia|].
  destruct Hb as [Ht Hh Hc Hl Hcells].
  assert (Hcell : (if Full b then GetIndex b (head_ b) else GetIndex b (u64 (tail_ b + 1)))
                  = (zlen vs + 1) mod (size + 1)).
  { rewrite HF. unfold GetIndex. rewrite Ht, Hh, Hc. destruct (Z.leb_spec size (zlen vs)).
    - replace (zlen vs + 1) with (Z.max 0 (zlen vs - size) + 1 * (size + 1)) by lia.
      by rewrite Z_mod_plus_full.
    - by rewrite wrap_small by wordlia. }
  assert (Hbuf : buffer_ (Fill b v) = zset (buffer_ b) ((zlen vs + 1) mod (size + 1)) v).
  { unfold Fill. rewrite <- Hcell. by destruct (Full b). }
  split.
  - rewrite zlen_snoc. unfold Fill. destruct (Full b); simpl; rewrite Ht; apply wrap_small; wordlia.
  - rewrite zlen_snoc. unfold Fill. rewrite HF.
    destruct (Z.leb_spec size (zlen vs)); simpl; rewrite Hh; [rewrite wrap_small by wordlia|]; lia.
  - unfold Fill. by destruct (Full b).
  - rewrite Hbuf. by autorewrite with cyber.
  - intros i Hi Hlo. rewrite zlen_snoc in *. rewrite Hbuf.
    rewrite zget_snoc by lia. rewrite zget_zset, Hl. case_decide as E; case_decide as E'.
    + done.
    + destruct E as [E _]. symmetry in E. apply (ring_index_inj (size + 1)) in E; lia.
    + destruct E. split; [by replace i with (zlen vs + 1) by lia|].
      apply Z.mod_pos_bound. lia.
    + apply Hcells; lia.
Qed.

Lemma holds_at b vs i : holds size b vs →
  1 ≤ i ≤ zlen vs → zlen vs - (size + 1) < i → zget vs (i - 1) = Some (at_ b i).
Proof using Hsize.
  intros [Ht Hh Hc Hl Hcells] Hi Hlo. unfold at_, GetIndex. rewrite Hc, Hcells by lia.
  destruct (zget_is_Some vs (i - 1)) as [x Hx]; [lia|]. by rewrite Hx.
Qed.

(** The position [Fetch] settles on. *)
Definition fetch_position (n index : Z) : option Z :=
  if n =? 0 then None
  else if (index =? 0) || (index <? n - size + 1) then Some n
  else if index =? n + 1 then None else Some index.

Lemma Fetch_holds b vs index : holds size b vs → zlen vs + 1 < 2 ^ 64 →
  0 ≤ index ≤ zlen vs + 1 →
  match fetch_position (zlen vs) index with
  | None => Fetch b index = None
  | Some p => 1 ≤ p ≤ zlen vs ∧ index ≤ p ∧
      ∃ v, Fetch b index = Some (p, v) ∧ zget vs (p - 1) = Some v
  end.
Proof using Hsize.
  intros Hb Hn Hi. destruct (holds_Size b vs Hb) as (HS & HF & H0); [lia|].
  pose proof Hb as [Ht Hh Hc Hl _].
  unfold fetch_position, Fetch, Empty, Head, Tail. rewrite Ht.
  destruct (Z.eqb_spec (zlen vs) 0); [done|].
  assert (Hlast : ∃ v, Some (zlen vs, at_ b (zlen vs)) = Some (zlen vs, v) ∧
                  zget vs (zlen vs - 1) = Some v).
  { exists (at_ b (zlen vs)). split; [done|]. apply holds_at; [done|lia..]. }
  destruct (Z.eqb_spec index 0); [simpl; split; [lia|]; split; [lia|done]|]. simpl.
  rewrite wrap_small by wordlia. rewrite Hh, (wrap_small 64 (Z.max _ _ + 1)) by wordlia.
  destruct (Z.ltb_spec index (zlen vs - size + 1)).
  - rewrite (proj2 (Z.ltb_lt index _)) by lia.
    destruct (Z.eqb_spec index (zlen vs + 1)) as [->|]; [lia|].
    split; [lia|]. split; [lia|done].
  - destruct (Z.eqb_spec index (zlen vs + 1)); [done|].
    destruct (Z.ltb_spec index (Z.max 0 (zlen vs - size) + 1)); [lia|].
    split; [lia|]. split; [lia|]. exists (at_ b index). split; [done|].
    apply holds_at; [done|lia..].
Qed.

Lemma Latest_holds b vs : holds size b vs → Latest b = last vs.
Proof using Hsize.
  intros Hb. pose proof Hb as [Ht _ _ _ _]. unfold Latest, Empty, Back. rewrite Ht.
  destruct vs as [|x vs'] using rev_ind; [done|]. rewrite last_snoc, zlen_snoc.
  pose proof (zlen_nonneg vs'). destruct (Z.eqb_spec (zlen vs' + 1) 0); [lia|].
  rewrite <- zlen_snoc with (x := x).
  assert (zget (vs' ++ [x]) (zlen (vs' ++ [x]) - 1) = Some (at_ b (zlen (vs' ++ [x])))) as Ha.
  { apply holds_at; [done|rewrite zlen_snoc; lia..]. }
  rewrite <- Ha, zlen_snoc, zget_snoc by lia. by rewrite decide_True by lia.
Qed.

Lemma FetchMulti_loop_holds b vs k fuel : holds size b vs → zlen vs + 1 < 2 ^ 64 →
  Z.of_nat k ≤ Z.min (size + 1) (zlen vs) → (k < fuel)%nat →
  FetchMulti_loop fuel b (zlen vs - Z.of_nat k + 1) =
  Some (drop (length vs - k) vs).
Proof using Hsize.
  intros Hb Hn. revert fuel. induction k as [|k IH]; intros fuel Hk Hf;
    (destruct fuel as [|fuel]; [lia|]); simpl; unfold Tail; rewrite (h_tail _ _ _ Hb).
  - rewrite (proj2 (Z.leb_gt _ _)) by lia. rewrite drop_ge by lia. done.
  - rewrite (proj2 (Z.leb_le _ _)) by lia.
    assert (0 ≤ zlen vs) by apply zlen_nonneg.
    rewrite wrap_small by wordlia.
    replace (zlen vs - Z.of_nat (S k) + 1 + 1) with (zlen vs - Z.of_nat k + 1) by lia.
    rewrite IH by lia. simpl. f_equal.
    assert (Ha : zget vs (zlen vs - Z.of_nat (S k) + 1 - 1) =
                 Some (at_ b (zlen vs - Z.of_nat (S k) + 1))) by (apply holds_at; [done|lia..]).
    unfold zget, zlen in Ha. rewrite decide_True in Ha by (unfold zlen in *; lia).
    replace (Z.to_nat (Z.of_nat (length vs) - Z.of_nat (S k) + 1 - 1))
      with (length vs - S k)%nat in Ha by lia.
    rewrite (drop_S _ _ _ Ha). f_equal. f_equal. unfold zlen in *. lia.
Qed.
End CacheBuffer.

Arguments CacheBuffer : clear implicits.

(** A buffer filled with [vs] from the start. *)
Definition filled {T} (null : T) (size : Z) (vs : list T) : CacheBuffer T :=
  fold_left Fill vs (CacheBuffer_new null size).

Lemma filled_holds {T} (null : T) size vs :
  0 ≤ size < 2 ^ 64 - 1 → zlen vs < 2 ^ 64 → holds size (filled null size vs) vs.
Proof.
  intros Hs. unfold filled. induction vs as [|v vs IH] using rev_ind; intros Hn.
  - by apply new_holds.
  - rewrite fold_left_app. simpl. rewrite zlen_snoc in Hn.
    apply Fill_holds; [done| |lia]. apply IH. lia.
Qed.

(** Property: a [CacheBuffer] of size [size >= 1] holds the last [size] messages filled into it:
    [Tail] counts the messages, [Size] is bounded by [size], [at] yields the
    message of every position from [Head] to [Tail], [Latest] the last one, and
    [FetchMulti] terminates with the last [min(fetch_size, Size)] in order. *)
Theorem cache_buffer_window {T} (null : T) size vs fetch_size :
  1 ≤ size < 2 ^ 64 - 1 → zlen vs + 1 < 2 ^ 64 → 0 ≤ fetch_size →
  let b := filled null size vs in
  Tail b = zlen vs ∧ Size b = Z.min size (zlen vs) ∧
  (∀ i, Head b ≤ i ≤ Tail b → zget vs (i - 1) = Some (at_ null b i)) ∧
  Latest null b = last vs ∧
  FetchMulti null (S (length vs)) b fetch_size =
    Some (if decide (vs = []) then None
          else Some (drop (length vs - Z.to_nat (Z.min (Size b) fetch_size)) vs)).
Proof.
  intros Hs Hn Hf b.
  assert (Hb : holds size b vs) by (apply filled_holds; lia).
  destruct (holds_Size size ltac:(lia) b vs Hb) as (HS & HF & H0); [lia|].
  pose proof Hb as [Ht Hh Hc Hl _].
  split; [done|]. split; [done|]. split; [|split; [by eapply (Latest_holds null size); [lia|]|]].
  - unfold Head, Tail. rewrite Ht, Hh. intros i Hi.
    rewrite wrap_small in Hi by wordlia. apply (holds_at null size); [lia|done|lia..].
  - unfold FetchMulti, Empty. rewrite Ht.
    destruct (Z.eqb_spec (zlen vs) 0) as [E|E].
    + by destruct vs; [|unfold zlen in E; simpl in E; lia].
    + rewrite decide_False by (intros ->; done).
      assert (0 ≤ Z.min (Size b) fetch_size ≤ zlen vs) by lia.
      unfold Tail. rewrite Ht, (wrap_small 64 (zlen vs - _)) by wordlia.
      rewrite wrap_small by wordlia.
      replace (zlen vs - Z.min (Size b) fetch_size + 1) with
        (zlen vs - Z.of_nat (Z.to_nat (Z.min (Size b) fetch_size)) + 1) by lia.
      rewrite (FetchMulti_loop_holds null size) with (vs := vs);
        [done|lia|done|lia|lia|unfold zlen in *; lia].
Qed.

Lemma cache_buffer_window_witness :
  (1 ≤ 2 < 2 ^ 64 - 1) ∧
  FetchMulti 0 6 (filled 0 2 [10; 11; 12; 13; 14]) 7 = Some (Some [13; 14]) ∧
  Latest 0 (filled 0 2 [10; 11; 12; 13; 14]) = Some 14.
Proof.
  pose proof (cache_buffer_window 0 2 [10; 11; 12; 13; 14] 7) as H.
  destruct H as (_ & _ & _ & HL & HF); [lia|unfold zlen; simpl; lia|lia|].
  split; [lia|]. split; [exact HF|exact HL].
Defined.
