(* ===== verification/DataVisitor.v ===== *)
(** * From the dispatcher to the readers

    [DataVisitor] ([src/code/cyber/data/data_visitor.h]) owns one
    [ChannelBuffer] per channel and, for two to four channels, an [AllLatest]
    fusion ([src/code/cyber/data/fusion/all_latest.h]); the four template
    specialisations differ in the number of channels, here the length of
    [buffer_m].  [DataDispatcher] and [DataNotifier] ([data_dispatcher.h],
    [data_notifier.h]) route a message to the buffers and callbacks of its
    channel through two hash maps, used through the [KVStore] interface. *)

From S2P Require Import Prelude AtomicHashMap CacheBuffer.

Section Visitor.
Context {T : Type} (null : T).

Record VisitorConfig := mkConfig { channel_id : Z; queue_size : Z }.

Record ChannelBuffer := mkChannelBuffer { channel_id_ : Z; buffer : CacheBuffer T }.

(** [data_fusion_] is the [AllLatest] object with its own buffer of tuples;
    it is absent in the specialisation for one channel. *)
Record visitor := mkVisitor {
  buffer_m : list ChannelBuffer;
  data_fusion_ : option (CacheBuffer (list T));
  next_msg_index_ : Z;
}.

Definition AllLatest_new (buffer_0 : ChannelBuffer) : CacheBuffer (list T) :=
  CacheBuffer_new [] (u64 (Capacity (buffer buffer_0) - 1)).

Definition DataVisitor_new (configs : list VisitorConfig) : visitor :=
  let bufs := (λ c, mkChannelBuffer (channel_id c) (CacheBuffer_new null (queue_size c)))
              <$> configs in
  mkVisitor bufs
    (match bufs with b0 :: _ :: _ => Some (AllLatest_new b0) | _ => None end) 0.

(** The fusion callback of [buffer_m0_] when nobody comes in between: the tuple
    of [m0] and the latest message of every other channel, when all of them have
    one.  Each buffer has a lock of its own: [fusion_step] below is one access,
    and [fusion_callback_alone] relates the two. *)
Definition fusion_callback (v : visitor) (fb : CacheBuffer (list T)) (m0 : T) : visitor :=
  match mapM (λ cb, Latest null (buffer cb)) (tail (buffer_m v)) with
  | None => v
  | Some ms => mkVisitor (buffer_m v) (Some (Fill fb (m0 :: ms))) (next_msg_index_ v)
  end.

(** [CacheBuffer::Fill] of the visitor's buffer number [pos]: the fusion
    callback is set on buffer 0 of a fusing visitor. *)
Definition Fill_at (v : visitor) (pos : nat) (value : T) : visitor :=
  match pos, data_fusion_ v with
  | O, Some fb => fusion_callback v fb value
  | _, _ =>
      mkVisitor
        (alter (λ cb, mkChannelBuffer (channel_id_ cb) (Fill (buffer cb) value)) pos (buffer_m v))
        (data_fusion_ v) (next_msg_index_ v)
  end.

(** [AllLatest::Fusion], or [Fetch] of the only buffer. *)
Definition Fusion (v : visitor) (index : Z) : option (Z * list T) :=
  match data_fusion_ v, buffer_m v with
  | Some fb, _ => Fetch [] fb index
  | None, cb :: _ =>
      match Fetch null (buffer cb) index with
      | Some (i, m) => Some (i, [m])
      | None => None
      end
  | None, [] => None
  end.

Definition TryFetch (v : visitor) : option (list T) * visitor :=
  match Fusion v (next_msg_index_ v) with
  | Some (index, ms) => (Some ms, mkVisitor (buffer_m v) (data_fusion_ v) (u64 (index + 1)))
  | None => (None, v)
  end.

(** ** The fusion callback in its steps

    [Fill] of the first buffer holds the mutex of that buffer until the callback
    has returned; the callback locks every other buffer for the time of one
    [Latest], and its own buffer for one [Fill].  [fusing] is the message that is
    being filled and the latest ones that were read for it so far. *)
Record fvisitor := mkFvisitor { vis : visitor; fusing : option (T * list T) }.

Definition fvisitor_new (configs : list VisitorConfig) : fvisitor := mkFvisitor (DataVisitor_new configs) None.

(** [Fill] of buffer [pos]; that of a first buffer with a callback begins it,
    once the one before has released the mutex. *)
Definition Fill_begin (y : fvisitor) (pos : nat) (value : T) : option fvisitor :=
  match pos, data_fusion_ (vis y) with
  | O, Some _ => match fusing y with Some _ => None | None => Some (mkFvisitor (vis y) (Some (value, []))) end
  | _, _ => Some (mkFvisitor (Fill_at (vis y) pos value) (fusing y))
  end.

(** The next access of the callback: [Latest] of the next buffer, which ends it
    when that is empty, or [Fill] of the buffer of tuples. *)
Definition fusion_step (y : fvisitor) : option fvisitor :=
  match fusing y with
  | None => None
  | Some (m0, ms) =>
      match buffer_m (vis y) !! S (length ms) with
      | Some cb =>
          match Latest null (buffer cb) with
          | Some m => Some (mkFvisitor (vis y) (Some (m0, ms ++ [m])))
          | None => Some (mkFvisitor (vis y) None)
          end
      | None =>
          match data_fusion_ (vis y) with
          | Some fb => Some (mkFvisitor (mkVisitor (buffer_m (vis y)) (Some (Fill fb (m0 :: ms))) (next_msg_index_ (vis y))) None)
          | None => None
          end
      end
  end.

(** ** What a visitor reads

    [hist] lists the messages filled into the visitor's buffers, each with
    the number of its channel.  [stream] is the sequence that is made when no
    fill comes into another: each message of channel 0 together with the latest
    message of every other channel at that moment, provided each has one. *)

Definition channel_hist (c : nat) (hist : list (nat * T)) : list T :=
  (filter (λ e, e.1 = c) hist).*2.

Definition fused (k : nat) (hist : list (nat * T)) (e : nat * T) : option (list T) :=
  match e with
  | (O, m0) => cons m0 <$> mapM (λ c, last (channel_hist c hist)) (seq 1 (k - 1))
  | _ => None
  end.

Fixpoint stream_from (k : nat) (past : list (nat * T)) (hist : list (nat * T)) : list (list T) :=
  match hist with
  | [] => []
  | e :: hist => option_list (fused k past e) ++ stream_from k (past ++ [e]) hist
  end.

Definition stream (k : nat) (hist : list (nat * T)) : list (list T) := stream_from k [] hist.

Lemma stream_from_snoc k past hist e :
  stream_from k past (hist ++ [e]) =
  stream_from k past hist ++ option_list (fused k (past ++ hist) e).
Proof.
  revert past. induction hist as [|e' hist IH]; intros past; simpl.
  - by rewrite !app_nil_r.
  - rewrite IH. rewrite <- !app_assoc. done.
Qed.

Lemma stream_snoc k hist e :
  stream k (hist ++ [e]) = stream k hist ++ option_list (fused k hist e).
Proof. apply stream_from_snoc. Qed.

Lemma stream_length k hist : zlen (stream k hist) ≤ zlen hist.
Proof.
  induction hist as [|e hist IH] using rev_ind; [done|].
  rewrite stream_snoc. unfold zlen in *. rewrite !length_app.
  destruct (fused k hist e); simpl; lia.
Qed.

Lemma channel_hist_snoc c hist e :
  channel_hist c (hist ++ [e]) = channel_hist c hist ++ (if decide (e.1 = c) then [e.2] else []).
Proof.
  unfold channel_hist. rewrite filter_app, fmap_app. f_equal.
  rewrite filter_cons, filter_nil. by case_decide.
Qed.

Lemma channel_hist_length c hist : zlen (channel_hist c hist) ≤ zlen hist.
Proof.
  unfold channel_hist, zlen. rewrite length_fmap. pose proof (length_filter (λ e, e.1 = c) hist). lia.
Qed.

Definition config_ok (c : VisitorConfig) : Prop := in_u 64 (channel_id c) ∧ in_u 32 (queue_size c).

Lemma stream_single hist : stream 1 hist = (λ m, [m]) <$> channel_hist 0 hist.
Proof.
  induction hist as [|[c m] hist IH] using rev_ind; [done|].
  rewrite stream_snoc, IH, channel_hist_snoc, fmap_app. f_equal. by destruct c.
Qed.

(** The visitor's buffers after the fills [hist], when the tuples [str] were
    made. *)
Record vholds (configs : list VisitorConfig) (hist : list (nat * T)) (str : list (list T)) (v : visitor) : Prop := {
  v_chan : channel_id_ <$> buffer_m v = channel_id <$> configs;
  v_bufs : ∀ c cfg cb, configs !! c = Some cfg → buffer_m v !! c = Some cb →
    (c ≠ 0%nat ∨ length configs = 1%nat) → holds (queue_size cfg) (buffer cb) (channel_hist c hist);
  v_single : length configs = 1%nat → str = (λ m, [m]) <$> channel_hist 0 hist;
  v_fuse : match configs with
    | c0 :: _ :: _ => ∃ fb, data_fusion_ v = Some fb ∧ holds (queue_size c0) fb str
    | _ => data_fusion_ v = None
    end;
}.

(** As long as no fill comes into another. *)
Definition vinv (configs : list VisitorConfig) (hist : list (nat * T)) (v : visitor) : Prop :=
  vholds configs hist (stream (length configs) hist) v.

Lemma DataVisitor_new_vholds configs : Forall config_ok configs → vholds configs [] [] (DataVisitor_new configs).
Proof.
  intros Hok. unfold DataVisitor_new. split; simpl; [| |done|].
  - rewrite <- list_fmap_compose. by apply list_fmap_ext.
  - intros c cfg cb Hc Hcb _. rewrite list_lookup_fmap, Hc in Hcb. simplify_eq/=.
    apply new_holds. eapply Forall_lookup in Hok as [_ Hq]; [|done]. wordlia.
  - destruct configs as [|c0 [|c1 configs]]; simpl; [done|done|].
    eexists. split; [done|]. unfold AllLatest_new, Capacity. simpl.
    inversion Hok as [|? ? [_ Hq] _]; subst.
    rewrite (wrap_small 64 (queue_size c0 + 1)) by wordlia.
    rewrite wrap_small by wordlia. replace (queue_size c0 + 1 - 1) with (queue_size c0) by lia.
    apply new_holds. wordlia.
Qed.

Lemma DataVisitor_new_vinv configs : Forall config_ok configs → vinv configs [] (DataVisitor_new configs).
Proof. apply DataVisitor_new_vholds. Qed.

Lemma vholds_length configs hist str v : vholds configs hist str v → length (buffer_m v) = length configs.
Proof. intros H. pose proof (v_chan _ _ _ _ H) as Hc. apply (f_equal length) in Hc. by rewrite !length_fmap in Hc. Qed.

Lemma vholds_latest configs hist str v c cb :
  Forall config_ok configs → vholds configs hist str v → c ≠ 0%nat → buffer_m v !! c = Some cb → Latest null (buffer cb) = last (channel_hist c hist).
Proof.
  intros Hok Hv Hc Hcb. destruct (lookup_lt_is_Some_2 configs c) as [cfg Hcfg].
  { rewrite <- (vholds_length _ _ _ _ Hv). by eapply lookup_lt_Some. }
  eapply (Latest_holds null (queue_size cfg)).
  - eapply Forall_lookup in Hok as [_ Hq]; [|done]. wordlia.
  - eapply v_bufs; try done. by left.
Qed.

(** The latest messages of the secondary channels. *)
Lemma secondary_latest configs hist str v :
  Forall config_ok configs → vholds configs hist str v →
  mapM (λ cb, Latest null (buffer cb)) (tail (buffer_m v)) =
  mapM (λ c, last (channel_hist c hist)) (seq 1 (length configs - 1)).
Proof.
  intros Hok Hv. pose proof (vholds_length _ _ _ _ Hv) as Hlen.
  assert (H : ∀ n bs, (∀ i cb, bs !! i = Some cb →
      Latest null (buffer cb) = last (channel_hist (n + i) hist)) →
      mapM (λ cb, Latest null (buffer cb)) bs =
      mapM (λ c, last (channel_hist c hist)) (seq n (length bs))).
  { intros n bs. revert n. induction bs as [|b bs IH]; intros n Hbs; [done|]. simpl.
    rewrite (Hbs 0%nat b) by done. rewrite Nat.add_0_r.
    rewrite (IH (S n)); [done|]. intros i cb Hi. rewrite (Hbs (S i) cb) by done.
    by rewrite Nat.add_succ_r. }
  rewrite <- Hlen. destruct (buffer_m v) as [|b0 bs] eqn:E; simpl; [done|].
  rewrite Nat.sub_0_r. apply H. intros i cb Hi. eapply (vholds_latest _ _ _ _ (S i)); try done. by rewrite E.
Qed.

(** A fill without callback. *)
Lemma vholds_plain configs hist str v pos m :
  Forall config_ok configs → vholds configs hist str v → (pos ≠ 0%nat ∨ length configs = 1%nat) → zlen hist + 1 < 2 ^ 64 →
  vholds configs (hist ++ [(pos, m)]) (if decide (pos = 0%nat) then str ++ [[m]] else str)
    (mkVisitor (alter (λ cb, mkChannelBuffer (channel_id_ cb) (Fill (buffer cb) m)) pos (buffer_m v)) (data_fusion_ v) (next_msg_index_ v)).
Proof.
  intros Hok [Hch Hb Hs Hf] Hpos Hn. split; simpl.
  - rewrite <- Hch. apply list_eq. intros i. rewrite !list_lookup_fmap.
    destruct (decide (i = pos)) as [->|]; [rewrite list_lookup_alter_eq|rewrite list_lookup_alter_ne by done; done].
    by destruct (buffer_m v !! pos).
  - intros c cfg cb Hc Hcb Hor. rewrite channel_hist_snoc. simpl.
    assert (Hq : in_u 32 (queue_size cfg)) by (eapply Forall_lookup in Hok as [_ Hq]; done).
    destruct (decide (pos = c)) as [->|].
    + rewrite list_lookup_alter_eq in Hcb.
      destruct (buffer_m v !! c) as [cb'|] eqn:E; [|done]. simplify_eq/=.
      pose proof (channel_hist_length c hist).
      apply (Fill_holds (queue_size cfg)); [wordlia|by eapply Hb|lia].
    + rewrite list_lookup_alter_ne in Hcb by done. rewrite app_nil_r. by eapply Hb.
  - intros H1. rewrite channel_hist_snoc, fmap_app, <- (Hs H1). simpl. case_decide; [done|]. by rewrite app_nil_r.
  - destruct configs as [|c0 [|c1 configs]]; [done..|]. destruct Hpos as [Hpos|]; [|done]. by rewrite decide_False.
Qed.

(** A fill of the first buffer when there are others: nothing comes into it. *)
Lemma vholds_first configs hist str v m :
  length configs ≠ 1%nat → vholds configs hist str v → vholds configs (hist ++ [(0%nat, m)]) str v.
Proof.
  intros H1 [Hch Hb Hs Hf]. split; try done. intros c cfg cb Hc Hcb [Hne|]; [|done].
  rewrite channel_hist_snoc. simpl. rewrite decide_False by done. rewrite app_nil_r. eapply Hb; try done. by left.
Qed.

(** A tuple is made. *)
Lemma vholds_tuple configs hist str v fb t :
  Forall config_ok configs → vholds configs hist str v → data_fusion_ v = Some fb → zlen str + 1 < 2 ^ 64 →
  vholds configs hist (str ++ [t]) (mkVisitor (buffer_m v) (Some (Fill fb t)) (next_msg_index_ v)).
Proof.
  intros Hok [Hch Hb Hs Hf] Hfb Hn. rewrite Hfb in Hf. destruct configs as [|c0 [|c1 configs]]; [done..|].
  split; try done. destruct Hf as (fb' & [= <-] & Hh). eexists. split; [done|].
  inversion Hok as [|? ? [_ Hq] _]; subst. apply (Fill_holds (queue_size c0)); [wordlia|done|done].
Qed.

Lemma Fill_at_vinv configs hist v pos m :
  Forall config_ok configs → vinv configs hist v → (pos < length configs)%nat →
  zlen hist + 1 < 2 ^ 64 →
  vinv configs (hist ++ [(pos, m)]) (Fill_at v pos m) ∧
  next_msg_index_ (Fill_at v pos m) = next_msg_index_ v.
Proof.
  intros Hok Hv Hpos Hn. pose proof (secondary_latest configs hist _ v Hok Hv) as Hsec.
  unfold vinv in *. rewrite stream_snoc. pose proof (stream_length (length configs) hist) as Hsl. unfold Fill_at. destruct pos as [|pos].
  - destruct configs as [|c0 [|c1 configs]]; [simpl in Hpos; lia| |].
    + pose proof (v_fuse _ _ _ _ Hv) as Hf. simpl in Hf. rewrite Hf. split; [|done]. rewrite <- Hf.
      apply (vholds_plain _ _ _ _ 0 m Hok Hv); [by right|done].
    + destruct (v_fuse _ _ _ _ Hv) as (fb & Hfu & Hfb). rewrite Hfu. unfold fusion_callback. rewrite Hsec. unfold fused.
      destruct (mapM _ (seq 1 _)) as [ms|]; simpl; (split; [|done]).
      * apply (vholds_first _ _ _ _ m); [done|]. apply vholds_tuple; try done. simpl in Hsl. lia.
      * rewrite app_nil_r. by apply vholds_first.
  - split; [|by destruct (data_fusion_ v)]. simpl. rewrite app_nil_r. apply (vholds_plain _ _ _ _ (S pos) m Hok Hv); [by left|done].
Qed.

(** Reading: positions are those of the tuples. *)
Lemma TryFetch_vholds configs hist str v c0 cs :
  configs = c0 :: cs → Forall config_ok configs → vholds configs hist str v →
  zlen str + 1 < 2 ^ 64 → 0 ≤ next_msg_index_ v ≤ zlen str + 1 →
  match fetch_position (queue_size c0) (zlen str) (next_msg_index_ v) with
  | None => TryFetch v = (None, v)
  | Some p => 1 ≤ p ≤ zlen str ∧ next_msg_index_ v ≤ p ∧
      ∃ ms, zget str (p - 1) = Some ms ∧
            TryFetch v = (Some ms, mkVisitor (buffer_m v) (data_fusion_ v) (p + 1))
  end.
Proof.
  intros -> Hok Hv Hn Hi.
  assert (Hq : in_u 32 (queue_size c0)) by (by inversion Hok as [|? ? [_ ?] _]).
  unfold TryFetch, Fusion. pose proof Hv as [Hch Hb Hs Hf]. destruct cs as [|c1 cs].
  - rewrite Hf. destruct (buffer_m v) as [|cb bs] eqn:E; [done|]. simpl.
    assert (Hh : holds (queue_size c0) (buffer cb) (channel_hist 0 hist))
      by (apply (Hb 0%nat); [done|done|by right]).
    specialize (Hs eq_refl).
    assert (Hns : zlen str = zlen (channel_hist 0 hist)) by (rewrite Hs; unfold zlen; by rewrite length_fmap).
    pose proof (Fetch_holds null (queue_size c0) ltac:(wordlia) _ _ (next_msg_index_ v) Hh) as HF.
    rewrite <- Hns in HF. destruct fetch_position as [p|].
    + destruct HF as (Hp & Hle & m & HF & Hg); [lia|lia|].
      split; [done|]. split; [done|]. exists [m]. rewrite HF.
      rewrite wrap_small by wordlia. split; [|done]. rewrite Hs.
      unfold zget in *. case_decide; [|done]. by rewrite list_lookup_fmap, Hg.
    + by rewrite HF by lia.
  - destruct Hf as (fb & Hfu & Hfb). rewrite Hfu.
    pose proof (Fetch_holds [] (queue_size c0) ltac:(wordlia) _ _ (next_msg_index_ v) Hfb) as HF.
    destruct fetch_position as [p|].
    + destruct HF as (Hp & Hle & ms & HF & Hg); [lia|lia|].
      split; [done|]. split; [done|]. exists ms. rewrite HF.
      by rewrite wrap_small by wordlia.
    + by rewrite HF by lia.
Qed.

Lemma TryFetch_vinv configs hist v c0 cs :
  configs = c0 :: cs → Forall config_ok configs → vinv configs hist v →
  zlen hist + 1 < 2 ^ 64 → 0 ≤ next_msg_index_ v ≤ zlen (stream (length configs) hist) + 1 →
  let n := zlen (stream (length configs) hist) in
  match fetch_position (queue_size c0) n (next_msg_index_ v) with
  | None => TryFetch v = (None, v)
  | Some p => 1 ≤ p ≤ n ∧ next_msg_index_ v ≤ p ∧
      ∃ ms, zget (stream (length configs) hist) (p - 1) = Some ms ∧
            TryFetch v = (Some ms, mkVisitor (buffer_m v) (data_fusion_ v) (p + 1))
  end.
Proof.
  intros -> Hok Hv Hn Hi n. pose proof (stream_length (length (c0 :: cs)) hist) as Hsl.
  apply (TryFetch_vholds (c0 :: cs) hist _ v c0 cs); try done. fold n. lia.
Qed.

(** A visitor at work: messages arrive on its channels, the fill of the first
    buffer goes on, a reader polls. *)
Inductive visitor_op := Arrive (pos : nat) (m : T) | Fuse | Poll.

Definition visitor_exec (y : fvisitor) (o : visitor_op) : option (fvisitor * option (list T)) :=
  match o with
  | Arrive pos m =>
      if decide (pos < length (buffer_m (vis y)))%nat then (λ y, (y, None)) <$> Fill_begin y pos m else None
  | Fuse => (λ y, (y, None)) <$> fusion_step y
  | Poll => let '(r, v') := TryFetch (vis y) in Some (mkFvisitor v' (fusing y), r)
  end.

Definition arrival (o : visitor_op) : option (nat * T) := match o with Arrive pos m => Some (pos, m) | _ => None end.
Definition arrivals (ops : list visitor_op) : list (nat * T) := omap arrival ops.

Lemma arrivals_snoc ops o : arrivals (ops ++ [o]) = arrivals ops ++ option_list (arrival o).
Proof. unfold arrivals. rewrite omap_app. simpl. by destruct (arrival o). Qed.

Lemma arrivals_length ops : zlen (arrivals ops) ≤ zlen ops.
Proof. induction ops as [|o ops IH] using rev_ind; [done|]. rewrite arrivals_snoc. unfold zlen in *. rewrite !length_app. destruct (arrival o); simpl; lia. Qed.

(** Deliveries: the position read and the length of the stream by then.  The
    first one is the latest message; a later one is the next message unless
    more than [size] messages have arrived since, then the latest again. *)
Inductive deliveries (size : Z) : list (Z * Z) → Prop :=
| deliveries_nil : deliveries size []
| deliveries_first n : 1 ≤ n → deliveries size [(n, n)]
| deliveries_next ds q m p n :
    deliveries size (ds ++ [(q, m)]) → q < p ≤ n →
    (n - q ≤ size → p = q + 1) → (size < n - q → p = n) →
    deliveries size ((ds ++ [(q, m)]) ++ [(p, n)]).

Definition read_index (ds : list (Z * Z)) : Z :=
  match last ds with Some d => d.1 + 1 | None => 0 end.

(** The reader's part of the invariant. *)
Record rinv (size : Z) (str : list (list T)) (index : Z) (es : list (list T)) (ds : list (Z * Z)) : Prop := {
  r_del : deliveries size ds;
  r_idx : index = read_index ds;
  r_es : Forall2 (λ ms d, zget str (d.1 - 1) = Some ms ∧ 1 ≤ d.1 ≤ zlen str) es ds;
}.

Lemma rinv_index size str index es ds : rinv size str index es ds → 0 ≤ index ≤ zlen str + 1.
Proof.
  intros [_ -> Hes]. unfold read_index. pose proof (zlen_nonneg str).
  destruct (last ds) as [d|] eqn:E; [|lia].
  apply last_Some in E as [ds' ->]. apply Forall2_app_inv_r in Hes as (es1 & es2 & _ & H2 & _).
  inversion H2 as [|? ? ? ? [_ Hd] _]; subst. lia.
Qed.

Lemma rinv_grow size str ext index es ds :
  rinv size str index es ds → rinv size (str ++ ext) index es ds.
Proof.
  intros [Hd Hi He]. split; [done|done|]. eapply Forall2_impl; [exact He|].
  intros ms d [Hg Hr]. unfold zlen in *. rewrite length_app. split; [|lia].
  unfold zget in *. case_decide; [|done]. by apply lookup_app_l_Some.
Qed.

Lemma rinv_deliver size str index es ds p ms :
  0 ≤ size → rinv size str index es ds → fetch_position size (zlen str) index = Some p →
  1 ≤ p ≤ zlen str → zget str (p - 1) = Some ms → index ≤ p →
  ∃ d, rinv size str (p + 1) (es ++ [ms]) (ds ++ [d]).
Proof.
  intros Hsz [Hd -> He] Hf Hp Hg Hle. exists (p, zlen str).
  split; [|unfold read_index; by rewrite last_snoc|
    by apply Forall2_app; [done|apply Forall2_cons; split; [done|apply Forall2_nil]]].
  unfold fetch_position, read_index in *.
  destruct (Z.eqb_spec (zlen str) 0); [done|].
  destruct ds as [|[q m] ds] using rev_ind.
  - simpl in Hf. simplify_eq. simpl. constructor. lia.
  - rewrite last_snoc in Hf, Hle. simpl in Hf, Hle.
    assert (0 < q + 1).
    { apply Forall2_app_inv_r in He as (es1 & es2 & _ & H2 & _).
      inversion H2 as [|? ? ? ? [_ Hdd] _]; subst. simpl in Hdd. lia. }
    destruct (Z.eqb_spec (q + 1) 0); [lia|]. simpl in Hf.
    destruct (Z.ltb_spec (q + 1) (zlen str - size + 1)); simplify_eq/=.
    + by constructor; [|lia..].
    + destruct (Z.eqb_spec (q + 1) (zlen str + 1)); simplify_eq.
      by constructor; [|lia..].
Qed.

(** ** The tuples that are made

    [made]: the tuple [t] is what the fill between the moments of [span] made:
    it begins with a message of channel 0, and the others are the latest of
    their channels, each at some moment in between. *)
Definition made (k : nat) (ops : list visitor_op) (span : nat * nat) (t : list T) : Prop :=
  (span.1 < span.2 ≤ length ops)%nat ∧ ∃ m0 ms, t = m0 :: ms ∧ ops !! span.1 = Some (Arrive 0 m0) ∧ S (length ms) = k ∧
    ∀ c m, ms !! c = Some m → ∃ i, (span.1 < i ≤ span.2)%nat ∧ last (channel_hist (S c) (arrivals (take i ops))) = Some m.

(** One fill after the other. *)
Definition one_after_another (spans : list (nat * nat)) : Prop :=
  ∀ i a b, spans !! i = Some a → spans !! S i = Some b → (a.2 ≤ b.1)%nat.

(** A channel that has had no message at some moment after [b]. *)
Definition silent (k : nat) (ops : list visitor_op) (b : nat) : Prop :=
  ∃ c i, (0 < c < k)%nat ∧ (b < i ≤ length ops)%nat ∧ channel_hist c (arrivals (take i ops)) = [].

Lemma made_snoc k ops o span t : made k ops span t → made k (ops ++ [o]) span t.
Proof.
  intros (Hs & m0 & ms & -> & H0 & Hk & H). split; [rewrite length_app; simpl; lia|]. exists m0, ms. split; [done|].
  split; [by apply lookup_app_l_Some|]. split; [done|]. intros c m Hm. destruct (H c m Hm) as (i & Hi & Hl). exists i. split; [done|]. by rewrite take_app_le by lia.
Qed.

Lemma silent_snoc k ops o b : silent k ops b → silent k (ops ++ [o]) b.
Proof. intros (c & i & Hc & Hi & H). exists c, i. rewrite length_app, take_app_le by lia. split_and!; try done; lia. Qed.

Lemma one_after_another_snoc spans s : one_after_another spans → (∀ a, last spans = Some a → (a.2 ≤ s.1)%nat) → one_after_another (spans ++ [s]).
Proof.
  intros H Hl i a b Ha Hb. apply lookup_app_Some in Hb as [Hb|[Hge Hb]].
  - apply (H i); [|done]. rewrite lookup_app_l in Ha; [done|]. apply lookup_lt_Some in Hb. lia.
  - destruct (S i - length spans)%nat as [|j] eqn:E; simplify_eq/=. apply Hl. rewrite last_lookup.
    replace (Init.Nat.pred (length spans)) with i by lia. rewrite lookup_app_l in Ha by lia. done.
Qed.
End Visitor.

Lemma snoc_lookup {A} (l : list A) x i z : (l ++ [x]) !! i = Some z → l !! i = Some z ∨ (i = length l ∧ x = z).
Proof.
  intros [H|[Hge H]]%lookup_app_Some; [by left|]. destruct (i - length l)%nat eqn:E; simplify_eq/=. right. split; [lia|done].
Qed.

Lemma vholds_fuses {T} (c0 : VisitorConfig) cs hist str (v : visitor (T := T)) :
  cs ≠ [] → vholds (c0 :: cs) hist str v → length (c0 :: cs) ≠ 1%nat ∧ is_Some (data_fusion_ v).
Proof. intros Hcs Hv. pose proof (v_fuse _ _ _ _ Hv) as Hf. destruct cs; [done|]. destruct Hf as (fb & -> & _). split; [done|by eexists]. Qed.

Section VisitorRun.
Context {T : Type} (null : T) (c0 : VisitorConfig) (cs : list VisitorConfig).
Context (Hok : Forall config_ok (c0 :: cs)).
Let k := length (c0 :: cs).

(** What is known after the operations [ops]; [pb] is when the fill that is
    under way began. *)
Record finv (ops : list (visitor_op (T := T))) (y : fvisitor) (str : list (list T)) (spans : list (nat * nat)) (pb : option nat) : Prop := {
  f_holds : vholds (c0 :: cs) (arrivals ops) str (vis y);
  f_made : Forall2 (made k ops) spans str;
  f_order : one_after_another spans;
  f_pend : match fusing y, pb with
    | Some (m0, ms), Some b => cs ≠ [] ∧ (b < length ops)%nat ∧ ops !! b = Some (Arrive 0 m0) ∧ (length ms < k)%nat ∧
        (∀ a, last spans = Some a → (a.2 ≤ b)%nat) ∧ (∀ b' m', ops !! b' = Some (Arrive 0 m') → (b' ≤ b)%nat) ∧
        ∀ c m, ms !! c = Some m → ∃ i, (b < i ≤ length ops)%nat ∧ last (channel_hist (S c) (arrivals (take i ops))) = Some m
    | None, None => True
    | _, _ => False
    end;
  f_all : ∀ b m, ops !! b = Some (Arrive 0 m) → (∃ e, (b, e) ∈ spans) ∨ pb = Some b ∨ silent k ops b;
  f_few : zlen str ≤ zlen ops;
}.

Lemma finv_new : finv [] (fvisitor_new null (c0 :: cs)) [] [] None.
Proof using Hok. split; simpl; try done. by apply DataVisitor_new_vholds. Qed.

Lemma spans_end ops y str spans pb a : finv ops y str spans pb → last spans = Some a → (a.2 ≤ length ops)%nat.
Proof using Type.
  intros F Ha. apply last_Some in Ha as [l ->]. pose proof (f_made _ _ _ _ _ F) as Hm.
  apply Forall2_app_inv_l in Hm as (l1 & l2 & _ & H2 & _). inversion H2 as [|? ? ? ? [? _] _]; subst. lia.
Qed.

(** An operation that is not a message of channel 0 leaves what was known about
    the tuples. *)
Lemma finv_quiet ops y str spans pb o v' :
  finv ops y str spans pb → (∀ m, o ≠ Arrive 0 m) → vholds (c0 :: cs) (arrivals (ops ++ [o])) str v' →
  finv (ops ++ [o]) (mkFvisitor v' (fusing y)) str spans pb.
Proof using Type.
  intros F Ho Hv. destruct F as [F1 F2 F3 F4 F5 F6].
  assert (H0 : ∀ b m, (ops ++ [o]) !! b = Some (Arrive 0 m) → ops !! b = Some (Arrive 0 m)).
  { intros b m [H|[-> ->]]%snoc_lookup; [done|]. by destruct (Ho m). }
  split; simpl; try done.
  - eapply Forall2_impl; [exact F2|]. intros. by apply made_snoc.
  - destruct (fusing y) as [[m0 ms]|], pb as [b|]; try done. destruct F4 as (P0 & P1 & P2 & P3 & P4 & P5 & P6). rewrite length_app. simpl.
    split_and!; try done; [lia|by apply lookup_app_l_Some|by intros b' m' Hb'%H0; eapply P5|].
    intros c m Hm. destruct (P6 c m Hm) as (i & Hi & Hl). exists i. rewrite take_app_le by lia. split; [lia|done].
  - intros b m Hb. destruct (F5 b m (H0 b m Hb)) as [H|[H|H]]; [by left|by right; left|right; right; by apply silent_snoc].
  - unfold zlen in *. rewrite length_app. lia.
Qed.

Lemma finv_arrive ops y str spans pb pos m y' :
  finv ops y str spans pb → zlen ops + 1 < 2 ^ 64 → (pos < k)%nat → Fill_begin null y pos m = Some y' →
  ∃ ext spans' pb', finv (ops ++ [Arrive pos m]) y' (str ++ ext) spans' pb' ∧ next_msg_index_ (vis y') = next_msg_index_ (vis y).
Proof using Hok.
  intros F Hn Hp E. pose proof F as [F1 F2 F3 F4 F5 F6]. pose proof (arrivals_length ops) as Ha.
  assert (Hsn : arrivals (ops ++ [Arrive pos m]) = arrivals ops ++ [(pos, m)]) by by rewrite arrivals_snoc.
  unfold Fill_begin in E. destruct pos as [|pos].
  - destruct (decide (cs = [])) as [Hcs|Hcs].
    + (* one channel *)
      pose proof (v_fuse _ _ _ _ F1) as Hf. rewrite Hcs in Hf. simpl in Hf. rewrite Hf in E. injection E as <-. assert (Hpb : fusing y = None ∧ pb = None).
      { destruct (fusing y) as [[m0 ms]|], pb; try done. by destruct F4 as [? _]. }
      destruct Hpb as [Hpb ->]. exists [[m]], (spans ++ [(length ops, S (length ops))]), None. simpl vis. unfold Fill_at. rewrite Hf. split; [|done].
      split; simpl; rewrite ?Hpb; try done.
      * rewrite Hsn, <- Hf. apply (vholds_plain _ _ _ _ 0 m Hok F1); [right; by rewrite Hcs|lia].
      * apply Forall2_app; [eapply Forall2_impl; [exact F2|]; intros; by apply made_snoc|]. constructor; [|constructor].
        split; simpl; [rewrite length_app; simpl; lia|]. exists m, []. split; [done|]. split; [by apply list_lookup_middle|]. split; [unfold k; by rewrite Hcs|]. intros c x Hx. by rewrite lookup_nil in Hx.
      * apply one_after_another_snoc; [done|]. intros a Hl. simpl. by eapply spans_end.
      * intros b x [H|[-> _]]%snoc_lookup; [|left; exists (S (length ops)); set_solver].
        destruct (F5 b x H) as [[e He]|[H1|H1]]; [left; exists e; set_solver|done|right; right; by apply silent_snoc].
      * unfold zlen in *. rewrite !length_app. simpl. lia.
    + (* a fill begins *)
      destruct (vholds_fuses c0 cs _ _ _ Hcs F1) as [Hne [fb Hfu]]. rewrite Hfu in E. destruct (fusing y) as [p|] eqn:Ep; [done|]. injection E as <-. destruct pb; [done|].
      exists [], spans, (Some (length ops)). split; [|done]. rewrite app_nil_r. split; simpl; try done.
      * rewrite Hsn. by apply vholds_first.
      * eapply Forall2_impl; [exact F2|]. intros. by apply made_snoc.
      * rewrite length_app. simpl. split_and!; try done; [lia|by apply list_lookup_middle| |].
        -- intros a Hl. by eapply spans_end.
        -- intros b' m' Hb'. apply lookup_lt_Some in Hb'. rewrite length_app in Hb'. simpl in Hb'. lia.
      * intros b x [H|[-> _]]%snoc_lookup; [|by right; left]. destruct (F5 b x H) as [H1|[H1|H1]]; [by left|done|right; right; by apply silent_snoc].
      * unfold zlen in *. rewrite length_app. lia.
  - assert (E' : y' = mkFvisitor (Fill_at null (vis y) (S pos) m) (fusing y)) by congruence. subst y'. exists [], spans, pb. rewrite app_nil_r.
    split; [|by unfold Fill_at; destruct (data_fusion_ (vis y))]. apply finv_quiet; try done.
    rewrite Hsn. apply (vholds_plain _ _ _ _ (S pos) m Hok F1); [by left|lia].
Qed.

Lemma finv_fuse ops y str spans pb y' :
  finv ops y str spans pb → zlen ops + 1 < 2 ^ 64 → fusion_step null y = Some y' →
  ∃ ext spans' pb', finv (ops ++ [Fuse]) y' (str ++ ext) spans' pb' ∧ next_msg_index_ (vis y') = next_msg_index_ (vis y).
Proof using Hok.
  intros F Hn E. unfold fusion_step in E. destruct (fusing y) as [[m0 ms]|] eqn:Ep; [|done].
  assert (Hsn : arrivals (ops ++ [Fuse]) = arrivals ops) by by rewrite arrivals_snoc, app_nil_r.
  pose proof (finv_quiet _ _ _ _ _ Fuse (vis y) F ltac:(done) ltac:(rewrite Hsn; apply F)) as [G1 G2 G3 G4 G5 G6]. simpl in G4. rewrite Ep in G4.
  destruct pb as [b|]; [|done]. destruct G4 as (P0 & P1 & P2 & P3 & P4 & P5 & P6).
  destruct (buffer_m (vis y) !! S (length ms)) as [cb|] eqn:Eb.
  - pose proof (vholds_latest null _ _ _ _ (S (length ms)) cb Hok (f_holds _ _ _ _ _ F) ltac:(done) Eb) as Hl. rewrite Hl in E.
    assert (Hk : (S (length ms) < k)%nat) by (unfold k; rewrite <- (vholds_length _ _ _ _ (f_holds _ _ _ _ _ F)); by eapply lookup_lt_Some).
    assert (Hb : (b < length ops)%nat) by (pose proof (f_pend _ _ _ _ _ F) as H; rewrite Ep in H; tauto).
    destruct (last (channel_hist (S (length ms)) (arrivals ops))) as [m|] eqn:El; injection E as <-.
    + exists [], spans, (Some b). rewrite app_nil_r. split; [|done]. split; simpl; try done. split_and!; try done; [rewrite length_app; simpl; lia|].
      intros c x [Hx|[-> ->]]%snoc_lookup; [by apply P6|]. exists (length ops). rewrite take_app_le, firstn_all by lia. rewrite length_app. split; [lia|done].
    + exists [], spans, None. rewrite app_nil_r. split; [|done]. split; simpl; try done. intros b' m' Hb'. destruct (G5 b' m' Hb') as [H|[[= <-]|H]]; [by left| |by right; right].
      right. right. exists (S (length ms)), (length ops). split; [lia|]. rewrite length_app, take_app_le, firstn_all by lia. split; [lia|]. by apply last_None.
  - apply lookup_ge_None in Eb. rewrite (vholds_length _ _ _ _ (f_holds _ _ _ _ _ F)) in Eb. assert (Hk : S (length ms) = k) by (unfold k in *; lia).
    destruct (data_fusion_ (vis y)) as [fb|] eqn:Ef; [|done]. injection E as <-. exists [m0 :: ms], (spans ++ [(b, length (ops ++ [Fuse]))]), None. split; [|done].
    split; simpl; try done.
    + rewrite Hsn. pose proof (f_few _ _ _ _ _ F). apply vholds_tuple; [done|apply F|done|lia].
    + apply Forall2_app; [done|]. constructor; [|constructor]. split; simpl; [lia|]. by exists m0, ms.
    + by apply one_after_another_snoc.
    + intros b' m' Hb'. destruct (G5 b' m' Hb') as [[e He]|[[= <-]|H]]; [left; exists e; set_solver|left; exists (length (ops ++ [Fuse])); set_solver|by right; right].
    + pose proof (f_few _ _ _ _ _ F). unfold zlen in *. rewrite !length_app. simpl. lia.
Qed.

Lemma visitor_run_inv (ops : list (visitor_op (T := T))) y es :
  zlen ops < 2 ^ 64 - 1 →
  ev_run (visitor_exec null) (fvisitor_new null (c0 :: cs)) ops = Some (y, es) →
  ∃ str spans pb ds, finv ops y str spans pb ∧ rinv (queue_size c0) str (next_msg_index_ (vis y)) es ds.
Proof using Hok.
  intros Hn (tr & Ht & <- & <-)%ev_run_trace.
  remember (fvisitor_new null (c0 :: cs)) as v0 eqn:Hv0.
  induction Ht as [v|v tr y1 [o e] y2 Ht IH Hs]; subst.
  { exists [], [], None, []. split; [by apply finv_new|]. split; [constructor|done|constructor]. }
  rewrite fmap_app in *. unfold zlen in Hn. rewrite length_app in Hn. simpl in Hn.
  destruct IH as (str & spans & pb & ds & F & R); [unfold zlen; lia|reflexivity|]. rewrite omap_app. cbn [fmap list_fmap].
  assert (Hlt : zlen tr.*1 + 1 < 2 ^ 64) by (unfold zlen; lia).
  pose proof (vholds_length _ _ _ _ (f_holds _ _ _ _ _ F)) as Hlen. unfold ev_step in Hs. simpl in Hs.
  destruct o as [pos m| |]; simpl in Hs.
  - case_decide as Hp; [|done]. rewrite Hlen in Hp. destruct (Fill_begin null y1 pos m) as [y'|] eqn:Ef; [|done]. simplify_eq/=. rewrite app_nil_r.
    destruct (finv_arrive _ _ _ _ _ _ _ _ F Hlt Hp Ef) as (ext & spans' & pb' & F' & Hi). exists (str ++ ext), spans', pb', ds. split; [done|]. rewrite Hi. by apply rinv_grow.
  - destruct (fusion_step null y1) as [y'|] eqn:Ef; [|done]. simplify_eq/=. rewrite app_nil_r.
    destruct (finv_fuse _ _ _ _ _ _ F Hlt Ef) as (ext & spans' & pb' & F' & Hi). exists (str ++ ext), spans', pb', ds. split; [done|]. rewrite Hi. by apply rinv_grow.
  - pose proof (f_few _ _ _ _ _ F) as Hfew.
    pose proof (TryFetch_vholds null _ _ _ (vis y1) c0 cs eq_refl Hok (f_holds _ _ _ _ _ F) ltac:(lia) (rinv_index _ _ _ _ _ R)) as HT.
    assert (Hsn : arrivals (tr.*1 ++ [Poll]) = arrivals tr.*1) by by rewrite arrivals_snoc, app_nil_r.
    destruct fetch_position as [p|] eqn:Ef.
    + destruct HT as (Hp & Hle & ms & Hg & HT). rewrite HT in Hs. simplify_eq/=.
      assert (Hq : 0 ≤ queue_size c0) by (inversion Hok as [|? ? [_ Hq] _]; wordlia).
      destruct (rinv_deliver _ _ _ _ _ p ms Hq R Ef Hp Hg Hle) as [d Hd]. exists str, spans, pb, (ds ++ [d]). split; [|exact Hd].
      apply finv_quiet; [done|done|]. rewrite Hsn. destruct (f_holds _ _ _ _ _ F). by split.
    + rewrite HT in Hs. simplify_eq/=. rewrite app_nil_r. exists str, spans, pb, ds. split; [|done]. apply finv_quiet; [done|done|]. rewrite Hsn. apply F.
Qed.
End VisitorRun.

(** The steps of the callback, when nobody comes in between, are
    [fusion_callback]. *)
Lemma fusion_callback_alone {T} (null : T) v fb m0 : data_fusion_ v = Some fb → buffer_m v ≠ [] →
  ∃ n, run (λ y _, fusion_step null y) (mkFvisitor v (Some (m0, []))) (replicate n ()) = Some (mkFvisitor (fusion_callback null v fb m0) None).
Proof.
  intros Hfb Hne. assert (H : ∀ bs pre ms, buffer_m v = pre ++ bs → length pre = S (length ms) → ∃ n,
    run (λ y _, fusion_step null y) (mkFvisitor v (Some (m0, ms))) (replicate n ()) =
      Some (mkFvisitor (match mapM (λ cb, Latest null (buffer cb)) bs with None => v | Some xs => mkVisitor (buffer_m v) (Some (Fill fb (m0 :: ms ++ xs))) (next_msg_index_ v) end) None)).
  { induction bs as [|cb bs IH]; intros pre ms E Hl.
    - exists 1%nat. simpl. unfold fusion_step. simpl. rewrite lookup_ge_None_2 by (rewrite E, app_nil_r; lia). by rewrite Hfb, app_nil_r.
    - assert (Hcb : buffer_m v !! S (length ms) = Some cb) by (rewrite E, <- Hl; by apply list_lookup_middle).
      simpl. destruct (Latest null (buffer cb)) as [m|] eqn:Em.
      + destruct (IH (pre ++ [cb]) (ms ++ [m])) as [n Hn]; [by rewrite <- (assoc_L (++))|rewrite !length_app; simpl; lia|].
        exists (S n). cbn [replicate run]. unfold fusion_step at 1. simpl. rewrite Hcb, Em, Hn. simpl. destruct (mapM _ bs) as [xs|]; simpl; [|done]. by rewrite <- (assoc_L (++)).
      + exists 1%nat. simpl. unfold fusion_step. simpl. by rewrite Hcb, Em. }
  destruct (buffer_m v) as [|b0 bs] eqn:E; [done|]. destruct (H bs [b0] []) as [n Hn]; [done|done|]. exists n. rewrite Hn. unfold fusion_callback. by rewrite E.
Qed.


(** Three channels: while a fill is under way new messages arrive on both
    secondary channels, one of them too late to be seen; the first fill finds
    one channel silent. *)
Definition demo_ops : list (visitor_op (T := Z)) :=
  [Arrive 0 10; Arrive 1 20; Fuse; Fuse; Arrive 2 30; Poll;
   Arrive 0 11; Fuse; Arrive 1 21; Arrive 2 31; Fuse; Poll; Fuse; Poll;
   Arrive 0 12; Fuse; Fuse; Fuse; Poll; Poll].

