(* ===== verification/DataDispatcher.v ===== *)
(** * Routing messages: [DataDispatcher] and [DataNotifier]

    The two singletons of [src/code/cyber/data/data_dispatcher.h] and
    [data_notifier.h], with the visitors that registered at them.  The
    dispatcher keeps weak pointers to the visitors' buffers (a visitor that
    was destroyed is skipped), the notifier shared pointers to their callbacks
    (a callback outlives its visitor).  Both maps are used through the
    [KVStore] interface, so the theorems hold for any map with its laws. *)

From S2P Require Import Prelude AtomicHashMap CacheBuffer DataVisitor.

Section Dispatcher.
Context {T : Type} (null : T).
Context {DM NM : Type}.
Context `{!KVStore DM (list (nat * nat)), !KVStoreLaws DM (list (nat * nat))}.
Context `{!KVStore NM (list nat), !KVStoreLaws NM (list nat)}.

(** A buffer is named by its visitor and its position there, a notifier by
    its visitor; [callback_set] holds the notifiers with a callback. *)
Record world := mkWorld {
  buffers_map_ : DM;
  notifies_map_ : NM;
  visitors : gmap nat (visitor (T := T));
  callback_set : gset nat;
  next_visitor : nat;
  is_shutdown : bool;
}.

Definition world_new : world := mkWorld kv_empty kv_empty ∅ ∅ 0 false.

Definition AddBuffer (channel : Z) (buffer : nat * nat) (m : DM) : DM :=
  match kv_get channel m with
  | Some _ => kv_modify channel (λ buffers : list (nat * nat), buffers ++ [buffer]) m
  | None => kv_set channel [buffer] m
  end.

Definition AddNotifier (channel : Z) (notifier : nat) (m : NM) : NM :=
  match kv_get channel m with
  | Some _ => kv_modify channel (λ notifies : list nat, notifies ++ [notifier]) m
  | None => kv_set channel [notifier] m
  end.

(** The constructor of [DataVisitor], with its registrations. *)
Definition create (w : world) (configs : list VisitorConfig) : world :=
  let id := next_visitor w in
  mkWorld
    (fold_left (λ m p, AddBuffer p.2 (id, p.1) m)
       (zip (seq 0 (length configs)) (channel_id <$> configs)) (buffers_map_ w))
    (match configs with
     | c0 :: _ => AddNotifier (channel_id c0) id (notifies_map_ w)
     | [] => notifies_map_ w
     end)
    (<[id := DataVisitor_new null configs]> (visitors w)) (callback_set w) (S id) (is_shutdown w).

Definition set_visitors (w : world) (vs : gmap nat (visitor (T := T))) : world :=
  mkWorld (buffers_map_ w) (notifies_map_ w) vs (callback_set w) (next_visitor w) (is_shutdown w).

Definition destroy (w : world) (id : nat) : world := set_visitors w (delete id (visitors w)).

Definition RegisterNotifyCallback (w : world) (id : nat) : world :=
  mkWorld (buffers_map_ w) (notifies_map_ w) (visitors w) ({[ id ]} ∪ callback_set w)
    (next_visitor w) (is_shutdown w).

(** The callbacks run, in order, and whether the channel has notifiers. *)
Definition Notify (w : world) (channel : Z) : bool * list nat :=
  match kv_get channel (notifies_map_ w) with
  | Some notifies => (true, filter (λ n, n ∈ callback_set w) notifies)
  | None => (false, [])
  end.

Definition fill_buffer (msg : T) (vs : gmap nat (visitor (T := T))) (b : nat * nat) :
    gmap nat (visitor (T := T)) :=
  match vs !! b.1 with
  | Some v => <[b.1 := Fill_at null v b.2 msg]> vs
  | None => vs
  end.

Definition Dispatch (w : world) (channel : Z) (msg : T) : bool * world * list nat :=
  if is_shutdown w then (false, w, [])
  else
    match kv_get channel (buffers_map_ w) with
    | None => (false, w, [])
    | Some buffers =>
        let w' := set_visitors w (fold_left (fill_buffer msg) buffers (visitors w)) in
        let '(r, called) := Notify w' channel in (r, w', called)
    end.

Inductive world_op :=
| Create (configs : list VisitorConfig) | Destroy (id : nat) | Register (id : nat)
| Send (channel : Z) (msg : T) | Fetch_by (id : nat) | Shutdown.

(** A visitor has at least one channel. *)
Definition world_exec (w : world) (o : world_op) : option world :=
  match o with
  | Create configs =>
      if decide (configs ≠ [] ∧ Forall config_ok configs) then Some (create w configs) else None
  | Destroy id => Some (destroy w id)
  | Register id =>
      match visitors w !! id with Some _ => Some (RegisterNotifyCallback w id) | None => None end
  | Send channel msg => Some (Dispatch w channel msg).1.2
  | Fetch_by id =>
      match visitors w !! id with
      | Some v => Some (set_visitors w (<[id := (TryFetch null v).2]> (visitors w)))
      | None => None
      end
  | Shutdown =>
      Some (mkWorld (buffers_map_ w) (notifies_map_ w) (visitors w) (callback_set w)
              (next_visitor w) true)
  end.

(** ** The specification of routing *)

Definition channels (v : visitor (T := T)) : list Z := channel_id_ <$> buffer_m v.

(** The positions of a channel among a visitor's channels. *)
Definition positions_of (channel : Z) (cs : list Z) : list nat :=
  omap (λ p, if decide (p.2 = channel) then Some p.1 else None) (zip (seq 0 (length cs)) cs).

(** What arrives at one visitor: one fill per position of the channel. *)
Definition receive (channel : Z) (msg : T) (v : visitor) : visitor :=
  fold_left (λ v pos, Fill_at null v pos msg) (positions_of channel (channels v)) v.

(** The visitors created so far with their channels, oldest first. *)
Definition refs (log : list (nat * list Z)) (channel : Z) : list (nat * nat) :=
  mjoin ((λ e, pair e.1 <$> positions_of channel e.2) <$> log).

Definition notifiers (log : list (nat * list Z)) (channel : Z) : list nat :=
  omap (λ e, match e.2 with
             | c0 :: _ => if decide (c0 = channel) then Some e.1 else None
             | [] => None end) log.

(** The visitors that the operations create, by number, with their channels;
    those that were destroyed are among them. *)
Definition creates (o : world_op) : option (list Z) := match o with Create configs => Some (channel_id <$> configs) | _ => None end.
Definition log_of (ops : list world_op) : list (nat * list Z) := imap pair (omap creates ops).

Lemma log_of_snoc ops o : log_of (ops ++ [o]) = log_of ops ++ match creates o with Some cs => [(length (log_of ops), cs)] | None => [] end.
Proof using Type.
  unfold log_of. rewrite omap_app, imap_app, length_imap. f_equal. simpl. destruct (creates o); [|done]. simpl. by rewrite Nat.add_0_r.
Qed.

Definition nonempty {A} (l : list A) : option (list A) :=
  match l with [] => None | _ => Some l end.

Record world_inv (w : world) (log : list (nat * list Z)) : Prop := {
  w_wf : kv_wf (buffers_map_ w) ∧ kv_wf (notifies_map_ w);
  w_bufs : ∀ c, in_u 64 c → kv_get c (buffers_map_ w) = nonempty (refs log c);
  w_nots : ∀ c, in_u 64 c → kv_get c (notifies_map_ w) = nonempty (notifiers log c);
  w_vis : ∀ id v, visitors w !! id = Some v → (id, channels v) ∈ log;
  w_ids : log.*1 = seq 0 (next_visitor w);
}.

Lemma nonempty_snoc {A} (l : list A) x :
  nonempty (l ++ [x]) = Some (default [] (nonempty l) ++ [x]).
Proof. by destruct l. Qed.

Lemma AddBuffer_get channel b m (f : Z → list (nat * nat)) :
  in_u 64 channel → kv_wf m → (∀ c, in_u 64 c → kv_get c m = nonempty (f c)) →
  kv_wf (AddBuffer channel b m) ∧
  ∀ c, in_u 64 c → kv_get c (AddBuffer channel b m) =
    nonempty (if decide (channel = c) then f c ++ [b] else f c).
Proof using Type*.
  intros Hc Hwf Hf. unfold AddBuffer. pose proof (Hf channel Hc) as Hch.
  destruct (kv_get channel m) as [l|] eqn:E.
  - split; [by apply kv_wf_modify|]. intros c Hc'. rewrite kv_get_modify by done.
    case_decide; [|by apply Hf]. subst c. rewrite E, nonempty_snoc, <- Hch. done.
  - split; [by apply kv_wf_set|]. intros c Hc'. rewrite kv_get_set by done.
    case_decide; [|by apply Hf]. subst c. by rewrite nonempty_snoc, <- Hch.
Qed.

Lemma AddNotifier_get channel n m (f : Z → list nat) :
  in_u 64 channel → kv_wf m → (∀ c, in_u 64 c → kv_get c m = nonempty (f c)) →
  kv_wf (AddNotifier channel n m) ∧
  ∀ c, in_u 64 c → kv_get c (AddNotifier channel n m) =
    nonempty (if decide (channel = c) then f c ++ [n] else f c).
Proof using Type*.
  intros Hc Hwf Hf. unfold AddNotifier. pose proof (Hf channel Hc) as Hch.
  destruct (kv_get channel m) as [l|] eqn:E.
  - split; [by apply kv_wf_modify|]. intros c Hc'. rewrite kv_get_modify by done.
    case_decide; [|by apply Hf]. subst c. rewrite E, nonempty_snoc, <- Hch. done.
  - split; [by apply kv_wf_set|]. intros c Hc'. rewrite kv_get_set by done.
    case_decide; [|by apply Hf]. subst c. by rewrite nonempty_snoc, <- Hch.
Qed.

Lemma AddBuffers_get id ps m (f : Z → list (nat * nat)) :
  Forall (λ p : nat * Z, in_u 64 p.2) ps → kv_wf m →
  (∀ c, in_u 64 c → kv_get c m = nonempty (f c)) →
  let m' := fold_left (λ m p, AddBuffer p.2 (id, p.1) m) ps m in
  kv_wf m' ∧ ∀ c, in_u 64 c → kv_get c m' =
    nonempty (f c ++ (pair id <$> omap (λ p, if decide (p.2 = c) then Some p.1 else None) ps)).
Proof using Type*.
  intros Hps. revert m f. induction Hps as [|[q c0] ps Hq Hps IH]; intros m f Hwf Hf; simpl.
  { split; [done|]. intros c Hc. rewrite app_nil_r. by apply Hf. }
  destruct (AddBuffer_get c0 (id, q) m f Hq Hwf Hf) as [Hwf' Hf'].
  destruct (IH (AddBuffer c0 (id, q) m) _ Hwf' Hf') as [H1 H2].
  split; [done|]. intros c Hc. rewrite H2 by done. case_decide; [|done].
  simpl. by rewrite <- app_assoc.
Qed.

Lemma channels_new configs : channels (DataVisitor_new null configs) = channel_id <$> configs.
Proof using Type. unfold channels, DataVisitor_new. simpl. rewrite <- list_fmap_compose. by apply list_fmap_ext. Qed.

Lemma refs_snoc log e channel :
  refs (log ++ [e]) channel = refs log channel ++ (pair e.1 <$> positions_of channel e.2).
Proof using Type. unfold refs. rewrite fmap_app, join_app. simpl. by rewrite app_nil_r. Qed.

Lemma notifiers_snoc log e channel :
  notifiers (log ++ [e]) channel = notifiers log channel ++
    match e.2 with c0 :: _ => if decide (c0 = channel) then [e.1] else [] | [] => [] end.
Proof using Type.
  unfold notifiers. rewrite omap_app. simpl. destruct e.2; [done|]. by case_decide.
Qed.

Lemma create_inv w log configs :
  configs ≠ [] → Forall config_ok configs → world_inv w log →
  world_inv (create w configs) (log ++ [(next_visitor w, channel_id <$> configs)]).
Proof using Type*.
  intros Hne Hok [[Hb Hn] Hbufs Hnots Hvis Hids]. destruct configs as [|c0 configs]; [done|].
  set (cfgs := c0 :: configs) in *. set (id := next_visitor w) in *.
  assert (H0 : in_u 64 (channel_id c0)) by (by inversion Hok as [|? ? [? _] _]).
  destruct (AddBuffers_get id (zip (seq 0 (length cfgs)) (channel_id <$> cfgs))
    (buffers_map_ w) (refs log)) as [Hwf1 Hg1]; [|done|done|].
  { apply Forall_forall. intros [q c] Hin. apply elem_of_zip_r in Hin. simpl.
    apply list_elem_of_fmap in Hin as (cfg & -> & Hin).
    rewrite Forall_forall in Hok. by destruct (Hok _ Hin). }
  destruct (AddNotifier_get (channel_id c0) id (notifies_map_ w) (notifiers log) H0 Hn Hnots)
    as [Hwf2 Hg2].
  split.
  - done.
  - intros c Hc. rewrite refs_snoc. unfold positions_of.
    replace (length (id, channel_id <$> cfgs).2) with (length cfgs)
      by (symmetry; apply length_fmap).
    by apply Hg1.
  - intros c Hc. rewrite notifiers_snoc. simpl. rewrite Hg2 by done.
    case_decide; [done|]. by rewrite app_nil_r.
  - intros id' v. simpl. rewrite lookup_insert. case_decide as E; intros Hv.
    + simplify_eq. rewrite channels_new. set_solver.
    + apply Hvis in Hv. set_solver.
  - rewrite fmap_app, Hids. cbn [create next_visitor]. fold id. by rewrite seq_S.
Qed.

Lemma set_visitors_inv w log vs :
  (∀ id v, vs !! id = Some v → ∃ v0, visitors w !! id = Some v0 ∧ channels v = channels v0) →
  world_inv w log → world_inv (set_visitors w vs) log.
Proof using Type*.
  intros Hvs [Hwf Hb Hn Hv Hi]. split; try done.
  intros id v Hid. simpl in Hid. destruct (Hvs _ _ Hid) as (v0 & H0 & ->). by apply Hv.
Qed.

Lemma Fill_at_channels v pos msg : channels (Fill_at null v pos msg) = channels v.
Proof using Type.
  unfold Fill_at, fusion_callback, channels.
  assert (H : ∀ k, channel_id_ <$> alter (λ cb, mkChannelBuffer (channel_id_ cb) (Fill (buffer cb) msg)) k (buffer_m v)
    = channel_id_ <$> buffer_m v).
  { intros k. apply list_eq. intros i. rewrite !list_lookup_fmap.
    destruct (decide (i = k)) as [->|]; [rewrite list_lookup_alter_eq|by rewrite list_lookup_alter_ne].
    by destruct (buffer_m v !! k). }
  destruct pos; [destruct (data_fusion_ v); [by destruct (mapM _ _)|]|]; simpl; apply H.
Qed.

Lemma TryFetch_channels v : channels (TryFetch null v).2 = channels v.
Proof using Type. unfold TryFetch. by destruct (Fusion _ _ _) as [[]|]. Qed.

(** Filling a list of buffers treats every visitor on its own. *)
Lemma fill_buffers_lookup msg bs vs id :
  fold_left (fill_buffer msg) bs vs !! id =
  (λ v, fold_left (λ v pos, Fill_at null v pos msg) (filter (λ b, b.1 = id) bs).*2 v) <$> vs !! id.
Proof using Type.
  revert vs. induction bs as [|[i q] bs IH]; intros vs; simpl; [by destruct (vs !! id)|].
  rewrite IH. unfold fill_buffer. simpl. rewrite filter_cons. simpl.
  destruct (vs !! i) as [v|] eqn:E.
  - case_decide as Ei; [subst; by rewrite lookup_insert_eq, E|]. by rewrite lookup_insert_ne.
  - case_decide as Ei; [subst; by rewrite E|done].
Qed.

Lemma filter_pair id id' (l : list nat) :
  (filter (λ b : nat * nat, b.1 = id) (pair id' <$> l)).*2 = if decide (id' = id) then l else [].
Proof using Type.
  induction l as [|q l IH]; [by case_decide|].
  rewrite fmap_cons, filter_cons. cbn [fst].
  destruct (decide (id' = id)); [by rewrite fmap_cons, IH|done].
Qed.

Lemma refs_of log channel id :
  NoDup log.*1 → (filter (λ b, b.1 = id) (refs log channel)).*2 =
  match list_find (λ e, e.1 = id) log with
  | Some (_, e) => positions_of channel e.2 | None => [] end.
Proof using Type.
  induction log as [|e log IH]; intros Hnd; [done|]. apply NoDup_cons in Hnd as [Hni Hnd].
  change (refs (e :: log) channel) with ((pair e.1 <$> positions_of channel e.2) ++ refs log channel).
  rewrite filter_app, fmap_app, filter_pair, IH by done. simpl.
  case_decide as E.
  - destruct (list_find _ log) as [[i e']|] eqn:El; [|by rewrite app_nil_r].
    apply list_find_Some in El as (El & <- & _). destruct Hni. rewrite E.
    apply list_elem_of_fmap_2. by eapply list_elem_of_lookup_2.
  - by destruct (list_find _ log) as [[i e']|].
Qed.

Lemma refs_in log channel id cs :
  NoDup log.*1 → (id, cs) ∈ log →
  (filter (λ b, b.1 = id) (refs log channel)).*2 = positions_of channel cs.
Proof using Type.
  intros Hnd Hin. rewrite refs_of by done.
  destruct (list_find_elem_of (λ e, e.1 = id) log (id, cs)) as [[i e] He]; [done|done|].
  rewrite He. apply list_find_Some in He as (He & Hid & _). destruct e as [id' cs']; simpl in *.
  subst id'. apply list_elem_of_lookup_1 in Hin as [j Hj].
  assert (i = j) as <-; [|congruence].
  eapply NoDup_lookup; [exact Hnd| |]; rewrite list_lookup_fmap, ?He, ?Hj; done.
Qed.

Lemma notifiers_in log channel id :
  NoDup log.*1 → (id ∈ notifiers log channel ↔ ∃ cs, (id, channel :: cs) ∈ log) ∧
  NoDup (notifiers log channel).
Proof using Type.
  intros Hnd. split.
  - unfold notifiers. rewrite list_elem_of_omap. split.
    + intros ([id' [|c0 cs]] & Hin & Hx); simpl in Hx; [done|]. case_decide; simplify_eq. eauto.
    + intros (cs & Hin). exists (id, channel :: cs). simpl. by rewrite decide_True.
  - induction log as [|[i [|c0 cs]] log IH]; simpl; [constructor|..];
      apply NoDup_cons in Hnd as [Hni Hnd]; [by apply IH|].
    case_decide; [|by apply IH]. apply NoDup_cons. split; [|by apply IH].
    unfold notifiers. rewrite list_elem_of_omap. intros ([i' l] & Hin & Hx).
    destruct Hni. simpl. destruct l; simpl in Hx; [done|]. case_decide; simplify_eq.
    by apply (list_elem_of_fmap_2 fst) in Hin.
Qed.

Lemma world_new_inv : world_inv world_new [].
Proof using Type*.
  split; [split; apply kv_wf_empty|..]; simpl; intros; rewrite ?kv_get_empty; try done.
Qed.

Lemma Dispatch_inv w log channel msg :
  world_inv w log → world_inv (Dispatch w channel msg).1.2 log.
Proof using Type*.
  intros Hw. unfold Dispatch. destruct (is_shutdown w); [done|].
  destruct (kv_get channel (buffers_map_ w)) as [bs|]; [|done].
  destruct (Notify _ _). simpl. apply set_visitors_inv; [|done].
  intros id v. rewrite fill_buffers_lookup. destruct (visitors w !! id) as [v0|]; [|done].
  simpl. intros Hv. injection Hv as <-. exists v0. split; [done|].
  generalize (filter (λ b, b.1 = id) bs).*2. intros qs. revert v0.
  induction qs as [|q qs IH]; intros v0; simpl; [done|]. by rewrite IH, Fill_at_channels.
Qed.

Lemma world_exec_inv w o w' log :
  world_inv w log → world_exec w o = Some w' → world_inv w' (log ++ match creates o with Some cs => [(length log, cs)] | None => [] end).
Proof using Type*.
  intros Hw Ho. assert (Hlen : length log = next_visitor w) by (rewrite <- (length_fmap fst), (w_ids _ _ Hw); apply length_seq).
  destruct o as [configs|id|id|channel msg|id|]; simpl in Ho |- *; rewrite ?app_nil_r, ?Hlen.
  - case_decide as H; simplify_eq. destruct H. by apply create_inv.
  - simplify_eq. apply set_visitors_inv; [|done].
    intros i v [_ Hv]%lookup_delete_Some. eauto.
  - destruct (visitors w !! id); simplify_eq. by destruct Hw.
  - simplify_eq. by apply Dispatch_inv.
  - destruct (visitors w !! id) as [v|] eqn:E; simplify_eq.
    apply set_visitors_inv; [|done]. intros i v'. rewrite lookup_insert.
    case_decide; [|eauto]. subst. intros. simplify_eq. exists v. by rewrite TryFetch_channels.
  - simplify_eq. by destruct Hw.
Qed.

Lemma world_run_inv ops : ∀ w, run world_exec world_new ops = Some w → world_inv w (log_of ops).
Proof using Type*.
  induction ops as [|o ops IH] using rev_ind; intros w E; [simplify_eq/=; apply world_new_inv|].
  rewrite run_app in E. destruct (run world_exec world_new ops) as [w1|] eqn:E1; [|done]. simpl in E.
  destruct (world_exec w1 o) as [w2|] eqn:E2; simplify_eq. rewrite log_of_snoc. eapply world_exec_inv; [by apply IH|done].
Qed.
End Dispatcher.

(** C22: however visitors were created, destroyed and read before, [Dispatch]
    on a channel fills the message into exactly the buffers of the living
    visitors that read this channel, once per buffer and in the order of a
    visitor's channels, and leaves every other visitor alone.  It runs exactly
    the registered callbacks of all visitors that were ever made with it as their
    first channel, each once and in the order in which they were made: those of
    the living, and those of visitors that were destroyed, which nothing takes
    out of the notifier.  It reports true when there is one such visitor, with a
    callback or without; after a shutdown it does nothing and reports false. *)
Theorem dispatch_routes {T DM NM} (null : T)
    `{!KVStore DM (list (nat * nat)), !KVStoreLaws DM (list (nat * nat))}
    `{!KVStore NM (list nat), !KVStoreLaws NM (list nat)}
    ops (w : world (T := T) (DM := DM) (NM := NM)) channel msg :
  run (world_exec null) world_new ops = Some w → in_u 64 channel →
  let '(r, w', called) := Dispatch null w channel msg in
  (is_shutdown w = true → r = false ∧ w' = w ∧ called = []) ∧
  (is_shutdown w = false →
    (∀ id, visitors w' !! id = receive null channel msg <$> visitors w !! id) ∧
    called = filter (λ id, id ∈ callback_set w) (notifiers (log_of ops) channel) ∧
    NoDup called ∧
    (∀ id, id ∈ called ↔ id ∈ callback_set w ∧ ∃ cs, (id, channel :: cs) ∈ log_of ops) ∧
    (r = true ↔ notifiers (log_of ops) channel ≠ [])).
Proof.
  intros Hr Hc. pose proof (world_run_inv null ops w Hr) as [Hwf Hb Hn Hv Hi]. set (log := log_of ops) in *.
  assert (Hnd : NoDup log.*1) by (rewrite Hi; apply NoDup_seq).
  unfold Dispatch. destruct (is_shutdown w) eqn:Es; [done|].
  assert (Hin : ∀ id, id ∈ filter (λ id, id ∈ callback_set w) (notifiers log channel) ↔ id ∈ callback_set w ∧ ∃ cs, (id, channel :: cs) ∈ log).
  { intros id. by rewrite list_elem_of_filter, (proj1 (notifiers_in log channel id Hnd)). }
  assert (Hnd2 : NoDup (filter (λ id, id ∈ callback_set w) (notifiers log channel))) by (apply NoDup_filter; by apply (notifiers_in log channel 0)).
  assert (Hrefs : ∀ id v, visitors w !! id = Some v →
    (filter (λ b, b.1 = id) (refs log channel)).*2 = positions_of channel (channels v)).
  { intros id v Hid. apply refs_in; [done|]. by apply Hv. }
  assert (Hnone : refs log channel = [] → notifiers log channel = []).
  { intros E. destruct (notifiers log channel) as [|id l] eqn:En; [done|]. exfalso.
    destruct (proj1 (proj1 (notifiers_in log channel id Hnd))) as [cs Hcs]; [rewrite En; left|].
    pose proof (refs_in log channel id _ Hnd Hcs) as H. rewrite E in H. unfold positions_of in H. simpl in H. by rewrite decide_True in H. }
  rewrite Hb by done. destruct (refs log channel) as [|b bs] eqn:Er; simpl.
  - split; [done|]. intros _. split; [|split; [by rewrite Hnone|split; [constructor|split]]].
    + intros id. destruct (visitors w !! id) as [v|] eqn:E; [|done]. simpl. unfold receive.
      rewrite <- (Hrefs id v E). done.
    + intros id. rewrite <- Hin. by rewrite (Hnone eq_refl).
    + by rewrite (Hnone eq_refl).
  - unfold Notify. simpl. rewrite Hn by done.
    assert (Hvis : ∀ id, fold_left (fill_buffer null msg) bs (fill_buffer null msg (visitors w) b) !! id
      = receive null channel msg <$> visitors w !! id).
    { intros id. change (fold_left (fill_buffer null msg) (b :: bs) (visitors w) !! id = receive null channel msg <$> visitors w !! id).
      rewrite fill_buffers_lookup. destruct (visitors w !! id) as [v|] eqn:E; [|done].
      simpl. unfold receive. by rewrite <- (Hrefs id v E). }
    destruct (notifiers log channel) as [|n ns] eqn:En; cbn [nonempty].
    + split; [done|]. intros _. split; [done|]. split; [done|]. split; [constructor|]. split; [exact Hin|done].
    + split; [done|]. intros _. split; [done|]. split; [done|]. split; [exact Hnd2|]. split; [exact Hin|done].
Qed.

(** Two visitors share channel 8; it is the first channel of the second one, and
    of a third one that was destroyed. *)
Definition two_visitors : list (world_op (T := Z)) :=
  [Create [mkConfig 7 2; mkConfig 8 2]; Create [mkConfig 8 2]; Register 0; Register 1; Create [mkConfig 8 1; mkConfig 7 1]; Register 2; Destroy 2].

Definition hashed_world : Type :=
  world (T := Z) (DM := AtomicHashMap (list (nat * nat))) (NM := AtomicHashMap (list nat)).

Lemma dispatch_routes_witness :
  ∃ w : hashed_world, run (world_exec 0) world_new two_visitors = Some w ∧
  (Dispatch 0 w 8 5).2 = [1%nat; 2%nat] ∧ visitors w !! 2%nat = None ∧ (Dispatch 0 w 8 5).1.1 = true ∧
  visitors (Dispatch 0 w 8 5).1.2 !! 0%nat = receive 0 8 5 <$> visitors w !! 0%nat.
Proof.
  destruct (run (world_exec 0) (world_new : hashed_world) two_visitors) as [w|] eqn:E;
    [|vm_compute in E; discriminate E].
  exists w. split; [reflexivity|].
  pose proof (dispatch_routes 0 two_visitors w 8 5 E ltac:(unfold in_u; lia)) as H.
  vm_compute in E. injection E as <-.
  split; [vm_compute; reflexivity|]. split; [vm_compute; reflexivity|].
  destruct (Dispatch _ _ _ _) as [[r w'] called]. destruct H as [_ H].
  destruct H as (H1 & _ & _ & _ & H4); [reflexivity|]. split; [|apply H1].
  apply H4. vm_compute. discriminate.
Defined.
