(* ===== verification/Blocker.v ===== *)
(** * Intra-process communication: blockers, their manager, readers, writers

    [Blocker<T>] ([src/code/cyber/blocker/blocker.h]) keeps the latest
    published messages of a channel, newest first, a snapshot of them, and the
    callbacks of the subscribers.  [BlockerManager] ([blocker_manager.h],
    [blocker_manager.cc]) maps channel names to blockers of one message type;
    [IntraReader] and [IntraWriter] ([intra_reader.h], [intra_writer.h]) are
    its clients.  Every operation holds the lock of what it touches and is
    atomic here. *)

From S2P Require Import Prelude.

(** ** [Blocker] *)

Section Blocker.
Context {M CB : Type}.

Record BlockerAttr := mkAttr { capacity : Z; channel_name : string }.

Definition BlockerAttr_default (channel : string) : BlockerAttr := mkAttr 10 channel.

Record Blocker := mkBlocker {
  attr_ : BlockerAttr;
  observed_msg_queue_ : list M;
  published_msg_queue_ : list M;
  published_callbacks_ : gmap string CB;
}.

Definition Blocker_new (attr : BlockerAttr) : Blocker := mkBlocker attr [] [] ∅.

(** [while (queue.size() > capacity) queue.pop_back()]; every iteration pops
    one message, so the length is enough fuel. *)
Fixpoint pop_back_while (fuel : nat) (cap : Z) (q : list M) : list M :=
  match fuel with
  | O => q
  | S fuel => if cap <? zlen q then pop_back_while fuel cap (removelast q) else q
  end.

Definition set_queues (b : Blocker) (observed published : list M) : Blocker :=
  mkBlocker (attr_ b) observed published (published_callbacks_ b).

Definition set_callbacks (b : Blocker) (cbs : gmap string CB) : Blocker :=
  mkBlocker (attr_ b) (observed_msg_queue_ b) (published_msg_queue_ b) cbs.

Definition Enqueue (b : Blocker) (msg : M) : Blocker :=
  if capacity (attr_ b) =? 0 then b
  else
    let q := msg :: published_msg_queue_ b in
    set_queues b (observed_msg_queue_ b) (pop_back_while (length q) (capacity (attr_ b)) q).

(** The callbacks run, in the (unspecified) order of the hash map. *)
Definition Notify (b : Blocker) : list CB := (map_to_list (published_callbacks_ b)).*2.

Definition Publish (b : Blocker) (msg : M) : Blocker * list CB :=
  let b' := Enqueue b msg in (b', Notify b').

Definition Reset (b : Blocker) : Blocker := set_callbacks (set_queues b [] []) ∅.
Definition ClearObserved (b : Blocker) : Blocker := set_queues b [] (published_msg_queue_ b).
Definition ClearPublished (b : Blocker) : Blocker := set_queues b (observed_msg_queue_ b) [].
Definition Observe (b : Blocker) : Blocker :=
  set_queues b (published_msg_queue_ b) (published_msg_queue_ b).
Definition IsObservedEmpty (b : Blocker) : bool := bool_decide (observed_msg_queue_ b = []).
Definition IsPublishedEmpty (b : Blocker) : bool := bool_decide (published_msg_queue_ b = []).

Definition Subscribe (b : Blocker) (callback_id : string) (callback : CB) : bool * Blocker :=
  match published_callbacks_ b !! callback_id with
  | Some _ => (false, b)
  | None => (true, set_callbacks b (<[callback_id := callback]> (published_callbacks_ b)))
  end.

Definition Unsubscribe (b : Blocker) (callback_id : string) : bool * Blocker :=
  (bool_decide (is_Some (published_callbacks_ b !! callback_id)),
   set_callbacks b (delete callback_id (published_callbacks_ b))).

Definition GetLatestObserved (dummy_msg_ : M) (b : Blocker) : M :=
  default dummy_msg_ (head (observed_msg_queue_ b)).
Definition GetLatestObservedPtr (b : Blocker) : option M := head (observed_msg_queue_ b).
Definition GetOldestObservedPtr (b : Blocker) : option M := last (observed_msg_queue_ b).
Definition GetLatestPublishedPtr (b : Blocker) : option M := head (published_msg_queue_ b).

Definition set_capacity (b : Blocker) (cap : Z) : Blocker :=
  mkBlocker (mkAttr cap (channel_name (attr_ b))) (observed_msg_queue_ b)
    (pop_back_while (length (published_msg_queue_ b)) cap (published_msg_queue_ b))
    (published_callbacks_ b).

Lemma removelast_take (q : list M) : removelast q = take (length q - 1) q.
Proof.
  induction q as [|x q IH]; [done|]. simpl. rewrite Nat.sub_0_r.
  destruct q as [|y q]; [done|]. rewrite IH. simpl. by rewrite Nat.sub_0_r.
Qed.

Lemma pop_back_while_take fuel cap (q : list M) :
  0 ≤ cap → (length q ≤ fuel)%nat → pop_back_while fuel cap q = take (Z.to_nat cap) q.
Proof.
  intros Hc. revert q. induction fuel as [|fuel IH]; intros q Hl; simpl.
  - destruct q; [by rewrite take_nil|simpl in Hl; lia].
  - destruct (Z.ltb_spec cap (zlen q)) as [H|H]; unfold zlen in H.
    + rewrite removelast_take, IH by (rewrite length_take; lia).
      rewrite take_take. f_equal. lia.
    + by rewrite take_ge by lia.
Qed.

Lemma Enqueue_published b msg : 0 ≤ capacity (attr_ b) →
  (length (published_msg_queue_ b) ≤ Z.to_nat (capacity (attr_ b)))%nat →
  published_msg_queue_ (Enqueue b msg) =
    take (Z.to_nat (capacity (attr_ b))) (msg :: published_msg_queue_ b) ∧
  attr_ (Enqueue b msg) = attr_ b ∧ observed_msg_queue_ (Enqueue b msg) = observed_msg_queue_ b ∧
  published_callbacks_ (Enqueue b msg) = published_callbacks_ b.
Proof.
  intros Hc Hl. unfold Enqueue. destruct (Z.eqb_spec (capacity (attr_ b)) 0) as [E|E].
  - rewrite E in *. simpl in *. by destruct (published_msg_queue_ b); [|simpl in Hl; lia].
  - split; [|done]. cbn [set_queues published_msg_queue_]. apply pop_back_while_take; [done|].
    simpl. lia.
Qed.

(** The operations on a blocker that touch its queues. *)
Inductive blocker_op :=
| OpPublish (msg : M) | OpObserve | OpClearObserved | OpClearPublished | OpReset
| OpCapacity (cap : Z) | OpSubscribe (id : string) (cb : CB) | OpUnsubscribe (id : string).

Definition blocker_exec (b : Blocker) (o : blocker_op) : option Blocker :=
  match o with
  | OpPublish msg => Some (Publish b msg).1
  | OpObserve => Some (Observe b)
  | OpClearObserved => Some (ClearObserved b)
  | OpClearPublished => Some (ClearPublished b)
  | OpReset => Some (Reset b)
  | OpCapacity cap => if decide (0 ≤ cap) then Some (set_capacity b cap) else None
  | OpSubscribe id cb => Some (Subscribe b id cb).2
  | OpUnsubscribe id => Some (Unsubscribe b id).2
  end.

Definition blocker_ok (b : Blocker) : Prop :=
  0 ≤ capacity (attr_ b) ∧
  (length (published_msg_queue_ b) ≤ Z.to_nat (capacity (attr_ b)))%nat.

Lemma blocker_exec_ok b o b' : blocker_ok b → blocker_exec b o = Some b' → blocker_ok b'.
Proof.
  intros [Hc Hl] Ho. destruct o; simpl in Ho; simplify_eq; try (split; [done|simpl; lia]).
  - unfold Publish. simpl. destruct (Enqueue_published b msg Hc Hl) as (Hp & Ha & _ & _).
    split; rewrite Ha; [done|]. rewrite Hp, length_take. lia.
  - case_decide; simplify_eq. split; [done|]. simpl.
    rewrite pop_back_while_take by done. rewrite length_take. lia.
  - unfold Subscribe. destruct (_ !! _); done.
Qed.

Lemma publishes_queue ms b b' : blocker_ok b →
  run blocker_exec b (OpPublish <$> ms) = Some b' →
  published_msg_queue_ b' = take (Z.to_nat (capacity (attr_ b))) (rev ms ++ published_msg_queue_ b) ∧
  attr_ b' = attr_ b ∧ observed_msg_queue_ b' = observed_msg_queue_ b ∧ blocker_ok b'.
Proof.
  revert b. induction ms as [|m ms IH]; intros b Hb Hr; simpl in Hr.
  - simplify_eq. destruct Hb. rewrite take_ge by (simpl; lia). done.
  - assert (Hb' : blocker_ok (Enqueue b m)) by (by eapply (blocker_exec_ok b (OpPublish m))).
    destruct Hb as [Hc Hl]. destruct (Enqueue_published b m Hc Hl) as (Hp & Ha & Ho & _).
    apply IH in Hr as (Hp' & Ha' & Ho' & Hok); [|done]. rewrite Hp', Ha', Ho', Ha, Ho, Hp.
    split; [|done]. simpl. rewrite <- app_assoc. simpl.
    rewrite !take_app, take_take. f_equal. f_equal. lia.
Qed.
End Blocker.

Arguments Blocker : clear implicits.
Arguments blocker_op : clear implicits.

(** Property: in every state of a blocker the published queue respects the
    capacity; publishing [ms] then leaves the newest [capacity] of the
    messages published so far, newest first, and does not touch the snapshot;
    [Observe] then makes the newest of them the latest and the oldest kept one
    the oldest observed message. *)
Theorem blocker_keeps_latest {M CB} attr ops (b : Blocker M CB) ms b' :
  0 ≤ capacity attr → run blocker_exec (Blocker_new attr) ops = Some b →
  run blocker_exec b (OpPublish <$> ms) = Some b' →
  let kept := take (Z.to_nat (capacity (attr_ b))) (rev ms ++ published_msg_queue_ b) in
  zlen (published_msg_queue_ b) ≤ capacity (attr_ b) ∧
  published_msg_queue_ b' = kept ∧ observed_msg_queue_ b' = observed_msg_queue_ b ∧
  GetLatestObservedPtr (Observe b') = head kept ∧
  GetOldestObservedPtr (Observe b') = last kept ∧ IsObservedEmpty (Observe b') = bool_decide (kept = []).
Proof.
  intros Hc Hr Hp kept.
  assert (Hb : blocker_ok b).
  { apply run_trace in Hr. eapply (trace_invariant _ blocker_ok); [| |exact Hr].
    - split; [done|]. simpl. lia.
    - intros a l a' Ha. by apply blocker_exec_ok. }
  destruct (publishes_queue ms b b' Hb Hp) as (Hq & _ & Ho & _). destruct Hb as [Hc' Hl].
  split; [unfold zlen; lia|]. fold kept in Hq.
  unfold GetLatestObservedPtr, GetOldestObservedPtr, IsObservedEmpty, Observe. simpl.
  by rewrite Hq.
Qed.

Lemma blocker_keeps_latest_witness :
  ∃ b b' : Blocker Z nat,
  run blocker_exec (Blocker_new (mkAttr 3 "c"))
    [OpPublish 1; OpPublish 2; OpObserve; OpCapacity 2] = Some b ∧
  run blocker_exec b (OpPublish <$> [3; 4; 5]) = Some b' ∧
  GetLatestObservedPtr (Observe b') = Some 5 ∧ GetOldestObservedPtr (Observe b') = Some 4.
Proof.
  eexists. eexists. split; [vm_compute; reflexivity|]. split; [vm_compute; reflexivity|].
  pose proof (blocker_keeps_latest (CB := nat) (mkAttr 3 "c")
    [OpPublish 1; OpPublish 2; OpObserve; OpCapacity 2] _ [3; 4; 5] _ ltac:(simpl; lia)
    ltac:(vm_compute; reflexivity) ltac:(vm_compute; reflexivity)) as (_ & _ & _ & H1 & H2 & _).
  split; [exact H1|exact H2].
Defined.

(** ** [BlockerManager], [IntraReader], [IntraWriter]

    [dynamic_pointer_cast<Blocker<T>>] is a comparison of type tags.  A
    subscriber's callback is [IntraReader::OnMessage] bound to a reader, which
    is named by a number. *)

Section Manager.
Context {M : Type}.

Record typed_blocker := mkTyped { type_ : nat; blocker : Blocker M nat }.

Abbreviation BlockerMap := (gmap string typed_blocker).

Definition GetBlocker (ty : nat) (ch : string) (m : BlockerMap) : option (Blocker M nat) :=
  match m !! ch with
  | Some tb => if decide (type_ tb = ty) then Some (blocker tb) else None
  | None => None
  end.

Definition GetOrCreateBlocker (ty : nat) (attr : BlockerAttr) (m : BlockerMap) :
    option (Blocker M nat) * BlockerMap :=
  match m !! channel_name attr with
  | Some tb => (if decide (type_ tb = ty) then Some (blocker tb) else None, m)
  | None => (Some (Blocker_new attr), <[channel_name attr := mkTyped ty (Blocker_new attr)]> m)
  end.

(** The blocker is a shared object: its clients change it in place. *)
Definition put (ch : string) (b : Blocker M nat) (m : BlockerMap) : BlockerMap :=
  alter (λ tb, mkTyped (type_ tb) b) ch m.

Definition Manager_Publish (ty : nat) (ch : string) (msg : M) (m : BlockerMap) :
    bool * BlockerMap * list nat :=
  match GetOrCreateBlocker ty (BlockerAttr_default ch) m with
  | (None, m') => (false, m', [])
  | (Some b, m') => let '(b', called) := Publish b msg in (true, put ch b' m', called)
  end.

Definition Manager_Subscribe (ty : nat) (ch : string) (cap : Z) (callback_id : string)
    (callback : nat) (m : BlockerMap) : bool * BlockerMap :=
  match GetOrCreateBlocker ty (mkAttr cap ch) m with
  | (None, m') => (false, m')
  | (Some b, m') => let '(r, b') := Subscribe b callback_id callback in (r, put ch b' m')
  end.

Definition Manager_Unsubscribe (ty : nat) (ch : string) (callback_id : string) (m : BlockerMap) :
    bool * BlockerMap :=
  match GetBlocker ty ch m with
  | None => (false, m)
  | Some b => let '(r, b') := Unsubscribe b callback_id in (r, put ch b' m)
  end.

Definition Manager_Observe (m : BlockerMap) : BlockerMap :=
  (λ tb, mkTyped (type_ tb) (Observe (blocker tb))) <$> m.

(** Every blocker is reset, then forgotten. *)
Definition Manager_Reset (m : BlockerMap) : BlockerMap := ∅.

Record IntraReader := mkReader {
  r_type : nat;
  r_channel : string;
  r_node : string;
  r_depth : Z;
  init_ : bool;
  latest_recv_time_ : option Z;
  second_to_lastest_recv_time_ : option Z;
}.

Definition set_init (r : IntraReader) (b : bool) : IntraReader :=
  mkReader (r_type r) (r_channel r) (r_node r) (r_depth r) b (latest_recv_time_ r)
    (second_to_lastest_recv_time_ r).

Definition OnMessage (now : Z) (r : IntraReader) : IntraReader :=
  mkReader (r_type r) (r_channel r) (r_node r) (r_depth r) (init_ r) (Some now)
    (latest_recv_time_ r).

Record IntraWriter := mkWriter { w_type : nat; w_channel : string; w_init : bool }.

Record state := mkState {
  blockers_ : BlockerMap;
  readers : gmap nat IntraReader;
  writers : gmap nat IntraWriter;
}.

Definition init : state := mkState ∅ ∅ ∅.

Definition Reader_Init (s : state) (id : nat) (r : IntraReader) : bool * state :=
  if init_ r then (true, s)
  else
    let '(ok, m) := Manager_Subscribe (r_type r) (r_channel r) (r_depth r) (r_node r) id (blockers_ s) in
    (ok, mkState m (<[id := set_init r true]> (readers s)) (writers s)).

Definition Reader_Shutdown (s : state) (id : nat) (r : IntraReader) : state :=
  if init_ r
  then mkState (Manager_Unsubscribe (r_type r) (r_channel r) (r_node r) (blockers_ s)).2
         (<[id := set_init r false]> (readers s)) (writers s)
  else s.

Definition Writer_Init (s : state) (id : nat) (w : IntraWriter) : state :=
  if w_init w then s
  else mkState (GetOrCreateBlocker (w_type w) (BlockerAttr_default (w_channel w)) (blockers_ s)).2
         (readers s) (<[id := mkWriter (w_type w) (w_channel w) true]> (writers s)).

Definition Writer_Shutdown (s : state) (id : nat) (w : IntraWriter) : state :=
  if w_init w
  then mkState (blockers_ s) (readers s) (<[id := mkWriter (w_type w) (w_channel w) false]> (writers s))
  else s.

(** [Write] with the clock reading of the callbacks; the readers notified. *)
Definition Write (s : state) (w : IntraWriter) (msg : M) (now : Z) : bool * state * list nat :=
  if w_init w then
    let '(ok, m, called) := Manager_Publish (w_type w) (w_channel w) msg (blockers_ s) in
    (ok, mkState m (fold_left (λ rs id, alter (OnMessage now) id rs) called (readers s)) (writers s),
     called)
  else (false, s, []).

(** The reading side of [IntraReader]: each looks its blocker up first. *)
Definition Reader_update (f : Blocker M nat → Blocker M nat) (s : state) (r : IntraReader) : state :=
  match GetBlocker (r_type r) (r_channel r) (blockers_ s) with
  | Some b => mkState (put (r_channel r) (f b) (blockers_ s)) (readers s) (writers s)
  | None => s
  end.

Definition Reader_ClearData : state → IntraReader → state :=
  Reader_update (λ b, ClearPublished (ClearObserved b)).
Definition Reader_Observe : state → IntraReader → state := Reader_update Observe.
Definition Reader_SetHistoryDepth (depth : Z) : state → IntraReader → state :=
  Reader_update (λ b, set_capacity b depth).

Definition Reader_query {A} (f : Blocker M nat → A) (none : A) (s : state) (r : IntraReader) : A :=
  match GetBlocker (r_type r) (r_channel r) (blockers_ s) with Some b => f b | None => none end.

Definition Reader_Empty : state → IntraReader → bool := Reader_query IsObservedEmpty true.
Definition Reader_HasReceived : state → IntraReader → bool :=
  Reader_query (λ b, negb (IsPublishedEmpty b)) false.
Definition Reader_GetHistoryDepth : state → IntraReader → Z :=
  Reader_query (λ b, u32 (capacity (attr_ b))) 0.
Definition Reader_GetLatestObserved : state → IntraReader → option M :=
  Reader_query GetLatestObservedPtr None.
Definition Reader_GetOldestObserved : state → IntraReader → option M :=
  Reader_query GetOldestObservedPtr None.

(** [IntraReader::Enqueue] publishes like a writer. *)
Definition Reader_Enqueue (s : state) (r : IntraReader) (msg : M) (now : Z) : state :=
  (Write s (mkWriter (r_type r) (r_channel r) true) msg now).1.2.

Inductive op :=
| NewReader (id ty : nat) (ch node : string) (depth : Z)
| InitReader (id : nat) | ShutdownReader (id : nat) | DestroyReader (id : nat)
| ClearReader (id : nat) | ObserveReader (id : nat) | SetDepth (id : nat) (depth : Z)
| EnqueueReader (id : nat) (msg : M) (now : Z)
| NewWriter (id ty : nat) (ch : string)
| InitWriter (id : nat) | ShutdownWriter (id : nat) | WriteMsg (id : nat) (msg : M) (now : Z)
| ObserveAll | ResetAll.

Definition with_reader (s : state) (id : nat) (f : IntraReader → state) : option state :=
  f <$> readers s !! id.

Definition with_writer (s : state) (id : nat) (f : IntraWriter → state) : option state :=
  f <$> writers s !! id.

(** The destructor of a reader shuts it down first. *)
Definition exec (s : state) (o : op) : option state :=
  match o with
  | NewReader id ty ch node depth =>
      if decide (readers s !! id = None)
      then Some (mkState (blockers_ s) (<[id := mkReader ty ch node depth false None None]> (readers s))
                   (writers s))
      else None
  | InitReader id => with_reader s id (λ r, (Reader_Init s id r).2)
  | ShutdownReader id => with_reader s id (Reader_Shutdown s id)
  | DestroyReader id =>
      with_reader s id (λ r, let s' := Reader_Shutdown s id r in
        mkState (blockers_ s') (delete id (readers s')) (writers s'))
  | ClearReader id => with_reader s id (Reader_ClearData s)
  | ObserveReader id => with_reader s id (Reader_Observe s)
  | SetDepth id depth => with_reader s id (Reader_SetHistoryDepth depth s)
  | EnqueueReader id msg now => with_reader s id (λ r, Reader_Enqueue s r msg now)
  | NewWriter id ty ch =>
      if decide (writers s !! id = None)
      then Some (mkState (blockers_ s) (readers s) (<[id := mkWriter ty ch false]> (writers s)))
      else None
  | InitWriter id => with_writer s id (Writer_Init s id)
  | ShutdownWriter id => with_writer s id (Writer_Shutdown s id)
  | WriteMsg id msg now => with_writer s id (λ w, (Write s w msg now).1.2)
  | ObserveAll => Some (mkState (Manager_Observe (blockers_ s)) (readers s) (writers s))
  | ResetAll => Some (mkState (Manager_Reset (blockers_ s)) (readers s) (writers s))
  end.

(** ** Callbacks never dangle *)

(** [entry m ch node id ty]: the callback stored for [node] at [ch]. *)
Definition entry (m : BlockerMap) (ch node : string) (id ty : nat) : Prop :=
  ∃ tb, m !! ch = Some tb ∧ type_ tb = ty ∧ published_callbacks_ (blocker tb) !! node = Some id.

Definition attrs (r : IntraReader) := (r_type r, r_channel r, r_node r, init_ r).

Definition owned (rs : gmap nat IntraReader) (ch node : string) (id ty : nat) : Prop :=
  ∃ r, rs !! id = Some r ∧ attrs r = (ty, ch, node, true).

Definition Inv (s : state) : Prop :=
  ∀ ch node id ty, entry (blockers_ s) ch node id ty → owned (readers s) ch node id ty.

Lemma GetBlocker_entry ty ch m b : GetBlocker ty ch m = Some b →
  ∀ node id, published_callbacks_ b !! node = Some id ↔ entry m ch node id ty.
Proof.
  unfold GetBlocker. intros Hb node id. destruct (m !! ch) as [tb|] eqn:E; [|done].
  case_decide as Ht; simplify_eq. split.
  - intros H. exists tb. done.
  - intros (tb' & H & _ & H'). by simplify_eq.
Qed.

Lemma GetOrCreate_entry ty attr m ob m' : GetOrCreateBlocker ty attr m = (ob, m') →
  (∀ ch node id ty', entry m' ch node id ty' ↔ entry m ch node id ty') ∧
  (∀ b, ob = Some b → GetBlocker ty (channel_name attr) m' = Some b).
Proof.
  unfold GetOrCreateBlocker, GetBlocker. destruct (m !! channel_name attr) as [tb|] eqn:E;
    intros; simplify_eq.
  - split; [done|]. intros b Hb. by rewrite E.
  - split.
    + intros ch node id ty'. unfold entry. destruct (decide (ch = channel_name attr)) as [->|].
      * rewrite lookup_insert_eq. rewrite E. split; intros (tb & H & _ & H'); by simplify_eq/=.
      * by rewrite lookup_insert_ne.
    + intros b Hb. simplify_eq. rewrite lookup_insert_eq. simpl. by rewrite decide_True.
Qed.

(** Putting a changed blocker back changes the entries of its channel. *)
Lemma put_entry ty ch b b' m : GetBlocker ty ch m = Some b →
  ∀ ch' node id ty', entry (put ch b' m) ch' node id ty' ↔
    if decide (ch' = ch) then ty' = ty ∧ published_callbacks_ b' !! node = Some id
    else entry m ch' node id ty'.
Proof.
  unfold GetBlocker, entry, put. intros Hb ch' node id ty'.
  destruct (m !! ch) as [tb|] eqn:E; [|done]. case_decide as Ht; simplify_eq.
  destruct (decide (ch' = ch)) as [->|]; [|by rewrite lookup_alter_ne].
  rewrite lookup_alter_eq, E. simpl. split.
  - intros (tb' & H & <- & H'). by simplify_eq/=.
  - intros [-> H]. eexists. split; [done|]. done.
Qed.

Lemma put_same_callbacks ty ch b b' m : GetBlocker ty ch m = Some b →
  published_callbacks_ b' = published_callbacks_ b →
  ∀ ch' node id ty', entry (put ch b' m) ch' node id ty' ↔ entry m ch' node id ty'.
Proof.
  intros Hb Hc ch' node id ty'. rewrite (put_entry ty) by done. case_decide; [|done].
  subst. rewrite Hc, (GetBlocker_entry ty ch m b Hb). split; [by intros [-> ?]|].
  intros Hen. split; [|by destruct Hen as (tb & ? & <- & ?); unfold GetBlocker in Hb;
    simplify_option_eq; exists tb].
  destruct Hen as (tb & H1 & <- & _). unfold GetBlocker in Hb. rewrite H1 in Hb. by case_decide.
Qed.

Lemma Enqueue_callbacks (b : Blocker M nat) msg :
  published_callbacks_ (Enqueue b msg) = published_callbacks_ b.
Proof. unfold Enqueue. by case_match. Qed.

Lemma Manager_Publish_entry ty ch msg m ok m' called :
  Manager_Publish ty ch msg m = (ok, m', called) →
  (∀ ch' node id ty', entry m' ch' node id ty' ↔ entry m ch' node id ty') ∧
  (∀ id, id ∈ called ↔ ∃ node, entry m ch node id ty) ∧
  ((∀ n1 n2 id, entry m ch n1 id ty → entry m ch n2 id ty → n1 = n2) → NoDup called).
Proof.
  unfold Manager_Publish. destruct (GetOrCreateBlocker _ _ _) as [ob m1] eqn:E.
  destruct (GetOrCreate_entry _ _ _ _ _ E) as [He Hg]. destruct ob as [b|]; simpl.
  - specialize (Hg b eq_refl). simpl in Hg. intros; simplify_eq. split; [|split].
    + intros ch' node id ty'. rewrite (put_same_callbacks ty ch b); [apply He|done|].
      apply Enqueue_callbacks.
    + intros id. unfold Notify. rewrite Enqueue_callbacks, list_elem_of_fmap. split.
      * intros ([node id'] & -> & Hin). exists node. apply elem_of_map_to_list in Hin.
        apply He. by apply (GetBlocker_entry ty ch m1 b).
      * intros (node & Hen). exists (node, id). split; [done|]. apply elem_of_map_to_list.
        apply (GetBlocker_entry ty ch m1 b Hg). by apply He.
    + unfold Notify. rewrite Enqueue_callbacks.
      intros Hinj. apply NoDup_fmap_2_strong; [|apply NoDup_map_to_list].
      intros [n1 i1] [n2 i2] H1 H2 Heq. simpl in Heq. subst.
      apply elem_of_map_to_list in H1, H2. f_equal.
      by apply (Hinj _ _ i2); apply He; apply (GetBlocker_entry ty ch m1 b Hg).
  - intros; simplify_eq. split; [done|]. split; [|constructor].
    intros id. split; [by intros ?%elem_of_nil|]. intros (node & tb & Hm & Ht & Hc).
    exfalso. unfold GetOrCreateBlocker in E. simpl in E. rewrite Hm in E.
    rewrite decide_True in E by done. simplify_eq.
Qed.

Lemma owned_inj rs ch n1 n2 id ty : owned rs ch n1 id ty → owned rs ch n2 id ty → n1 = n2.
Proof. intros (r & H & Ha) (r' & H' & Ha'). unfold attrs in *. congruence. Qed.

(** The clock readings of a reader do not matter for its subscription. *)
Lemma OnMessages_owned now called rs ch node id ty :
  owned rs ch node id ty ↔
  owned (fold_left (λ rs i, alter (OnMessage now) i rs) called rs) ch node id ty.
Proof.
  revert rs. induction called as [|i called IH]; intros rs; simpl; [done|].
  rewrite <- IH. unfold owned. destruct (decide (i = id)) as [->|];
    [|by rewrite lookup_alter_ne].
  rewrite lookup_alter_eq. split.
  - intros (r & -> & Ha). simpl. eauto.
  - intros (r & Hr & Ha). destruct (rs !! id) as [r0|]; [|done]. simplify_eq/=. eauto.
Qed.

Lemma Inv_entries s s' :
  Inv s → (∀ ch node id ty, entry (blockers_ s') ch node id ty → entry (blockers_ s) ch node id ty) →
  (∀ ch node id ty, owned (readers s) ch node id ty → owned (readers s') ch node id ty) → Inv s'.
Proof. intros HI He Ho ch node id ty H. by apply Ho, HI, He. Qed.

Lemma Reader_Init_Inv s id r ok s' : Inv s → readers s !! id = Some r →
  Reader_Init s id r = (ok, s') → Inv s'.
Proof.
  unfold Reader_Init. intros HI Hr. destruct (init_ r) eqn:Ei; [intros; by simplify_eq|].
  destruct (Manager_Subscribe _ _ _ _ _ _) as [ok' m] eqn:E. intros; simplify_eq.
  assert (Hown : ∀ ch node i ty, owned (readers s) ch node i ty →
    owned (<[id := set_init r true]> (readers s)) ch node i ty).
  { intros ch node i ty (r0 & H0 & Ha). destruct (decide (i = id)) as [->|].
    - simplify_eq. unfold attrs in Ha. congruence.
    - exists r0. by rewrite lookup_insert_ne. }
  unfold Manager_Subscribe in E. destruct (GetOrCreateBlocker _ _ _) as [ob m1] eqn:Eg.
  destruct (GetOrCreate_entry _ _ _ _ _ Eg) as [He Hg]. destruct ob as [b|]; simplify_eq.
  - specialize (Hg b eq_refl). simpl in Hg. destruct (Subscribe b (r_node r) id) as [r1 b'] eqn:Es.
    simplify_eq. intros ch node i ty Hen. simpl in *.
    rewrite (put_entry _ _ _ b' _ Hg) in Hen. case_decide as Hch.
    + destruct Hen as [-> Hen]. subst ch. unfold Subscribe in Es.
      destruct (_ !! r_node r) eqn:Ec; simplify_eq/=.
      * apply Hown, HI. apply He. by apply (GetBlocker_entry _ _ _ _ Hg).
      * rewrite lookup_insert in Hen. case_decide; simplify_eq.
        -- exists (set_init r true). by rewrite lookup_insert_eq.
        -- apply Hown, HI. apply He. by apply (GetBlocker_entry _ _ _ _ Hg).
    + by apply Hown, HI, He.
  - apply (Inv_entries s); [done|intros ????; apply He|done].
Qed.

(** After a reader was shut down no callback refers to it. *)
Lemma Reader_Shutdown_Inv s id r : Inv s → readers s !! id = Some r →
  Inv (Reader_Shutdown s id r) ∧
  ∀ ch node ty, ¬ entry (blockers_ (Reader_Shutdown s id r)) ch node id ty.
Proof.
  intros HI Hr.
  assert (Hmine : ∀ ch node ty, entry (blockers_ s) ch node id ty →
    init_ r = true ∧ ch = r_channel r ∧ node = r_node r ∧ ty = r_type r).
  { intros ch node ty Hen. destruct (HI _ _ _ _ Hen) as (r0 & H0 & Ha).
    unfold attrs in Ha. simplify_eq. done. }
  unfold Reader_Shutdown. destruct (init_ r) eqn:Ei.
  2: { split; [done|]. intros ch node ty Hen. by destruct (Hmine _ _ _ Hen). }
  assert (Hent : ∀ ch node i ty, entry (Manager_Unsubscribe (r_type r) (r_channel r) (r_node r)
      (blockers_ s)).2 ch node i ty →
    entry (blockers_ s) ch node i ty ∧ ¬ (ch = r_channel r ∧ node = r_node r ∧ ty = r_type r)).
  { intros ch node i ty. unfold Manager_Unsubscribe.
    destruct (GetBlocker _ _ _) as [b|] eqn:Eg; simpl.
    - rewrite (put_entry _ _ _ _ _ Eg). case_decide as Hch; [|intros; split; [done|naive_solver]].
      subst. intros [-> Hen]. simpl in Hen. apply lookup_delete_Some in Hen as [Hne Hen].
      split; [by apply (GetBlocker_entry _ _ _ _ Eg)|naive_solver].
    - intros Hen. split; [done|]. intros (-> & -> & ->). destruct Hen as (tb & H1 & H2 & _).
      unfold GetBlocker in Eg. rewrite H1, decide_True in Eg by done. done. }
  simpl. split.
  - intros ch node i ty Hen. apply Hent in Hen as [Hen Hne].
    destruct (HI _ _ _ _ Hen) as (r0 & H0 & Ha). exists r0. split; [|done]. simpl.
    rewrite lookup_insert_ne; [done|]. intros ->. apply Hne. simplify_eq.
    unfold attrs in Ha. by simplify_eq.
  - intros ch node ty Hen. apply Hent in Hen as [Hen Hne]. apply Hne.
    by destruct (Hmine _ _ _ Hen) as (_ & ? & ? & ?).
Qed.

Lemma Write_Inv s w msg now ok s' called : Inv s → Write s w msg now = (ok, s', called) → Inv s'.
Proof.
  unfold Write. intros HI. destruct (w_init w); [|intros; by simplify_eq].
  destruct (Manager_Publish _ _ _ _) as [[ok' m] cl] eqn:E. intros; simplify_eq.
  destruct (Manager_Publish_entry _ _ _ _ _ _ _ E) as (He & _ & _).
  apply (Inv_entries s); [done|intros ????; apply He|]. intros ch node id ty. simpl.
  apply OnMessages_owned.
Qed.

Lemma Reader_update_Inv f s r : (∀ b, published_callbacks_ (f b) = published_callbacks_ b) →
  Inv s → Inv (Reader_update f s r).
Proof.
  intros Hf HI. unfold Reader_update. destruct (GetBlocker _ _ _) as [b|] eqn:E; [|done].
  apply (Inv_entries s); [done| |done]. intros ch node id ty.
  by rewrite (put_same_callbacks _ _ _ _ _ E (Hf b)).
Qed.

Lemma exec_Inv s o s' : Inv s → exec s o = Some s' → Inv s'.
Proof.
  intros HI Ho. destruct o as [id ty ch node depth|id|id|id|id|id|id depth|id msg now|id ty ch|id|id|id msg now| |];
    simpl in Ho; unfold with_reader, with_writer in Ho;
    try (destruct (readers s !! id) as [r|] eqn:Er; simpl in Ho; [|done]);
    try (destruct (writers s !! id) as [w|] eqn:Ew; simpl in Ho; [|done]);
    try case_decide; simplify_eq/=.
  - apply (Inv_entries s); [done|done|]. intros c n i t (r & Hr & Ha). exists r. split; [|done].
    simpl. rewrite lookup_insert_ne; [done|]. intros ->. congruence.
  - destruct (Reader_Init s id r) as [ok s'] eqn:E. by eapply Reader_Init_Inv.
  - by apply Reader_Shutdown_Inv.
  - destruct (Reader_Shutdown_Inv s id r HI Er) as [H1 H2]. intros ch node i ty Hen.
    destruct (H1 _ _ _ _ Hen) as (r0 & H0 & Ha). exists r0. split; [|done]. simpl.
    rewrite lookup_delete_ne; [done|]. intros ->. by apply (H2 ch node ty).
  - by apply Reader_update_Inv.
  - by apply Reader_update_Inv.
  - by apply Reader_update_Inv.
  - unfold Reader_Enqueue. destruct (Write _ _ _ _) as [[ok s'] called] eqn:E. by eapply Write_Inv.
  - done.
  - unfold Writer_Init. destruct (w_init w); [done|].
    destruct (GetOrCreateBlocker _ _ _) as [ob m] eqn:E.
    destruct (GetOrCreate_entry _ _ _ _ _ E) as [He _].
    apply (Inv_entries s); [done|intros ????; apply He|done].
  - unfold Writer_Shutdown. by destruct (w_init w).
  - destruct (Write _ _ _ _) as [[ok s'] called] eqn:E. by eapply Write_Inv.
  - apply (Inv_entries s); [done| |done]. intros ch node id ty (tb & Hm & Ht & Hc).
    simpl in Hm. unfold Manager_Observe in Hm. rewrite lookup_fmap in Hm.
    destruct (blockers_ s !! ch) as [tb0|] eqn:E; [|done]. simplify_eq/=. by exists tb0.
  - intros ch node id ty (tb & Hm & _). simpl in Hm. unfold Manager_Reset in Hm.
    by rewrite lookup_empty in Hm.
Qed.

Lemma run_Inv ops s : run exec init ops = Some s → Inv s.
Proof.
  intros Hr%run_trace. eapply (trace_invariant _ Inv); [| |exact Hr].
  - intros ch node id ty (tb & Hm & _). simpl in Hm. by rewrite lookup_empty in Hm.
  - intros a l b. apply exec_Inv.
Qed.
End Manager.

(** Property: whatever readers, writers and the manager did before, a [Write] runs
    each subscribed callback of its channel and message type exactly once,
    every one of them belongs to a reader that exists and is initialised on
    that channel (no callback of a reader that was shut down or destroyed),
    and a writer that is not initialised publishes nothing. *)
Theorem intra_write_notifies_live_readers {M} ops (s : state (M := M)) w msg now :
  run exec init ops = Some s →
  let '(ok, s', called) := Write s w msg now in
  (w_init w = false → ok = false ∧ s' = s ∧ called = []) ∧
  NoDup called ∧
  (w_init w = true → ∀ id, id ∈ called ↔ ∃ node, entry (blockers_ s) (w_channel w) node id (w_type w)) ∧
  (∀ id, id ∈ called → ∃ r, readers s !! id = Some r ∧ init_ r = true ∧
     r_channel r = w_channel w ∧ r_type r = w_type w).
Proof.
  intros Hr. apply run_Inv in Hr as HI. unfold Write. destruct (w_init w).
  - destruct (Manager_Publish _ _ _ _) as [[ok m] called] eqn:E.
    destruct (Manager_Publish_entry _ _ _ _ _ _ _ E) as (_ & Hc & Hnd).
    split; [done|]. split; [|split; [done|]].
    + apply Hnd. intros n1 n2 id H1%HI H2%HI. by eapply owned_inj.
    + intros id (node & Hen)%Hc. apply HI in Hen as (r & Hr' & Ha).
      unfold attrs in Ha. simplify_eq. eauto.
  - split; [done|]. split; [constructor|]. split; [done|]. by intros id ?%elem_of_nil.
Qed.

(** Reader 1 on node a, reader 2 on node b, then reader 1 goes away. *)
Definition two_nodes : list (op (M := Z)) :=
  [NewReader 1 0 "c" "a" 5; NewReader 2 0 "c" "b" 5; InitReader 1; InitReader 2;
   NewWriter 1 0 "c"; InitWriter 1; WriteMsg 1 7 100; DestroyReader 1].

Lemma intra_write_notifies_live_readers_witness :
  ∃ s, run exec init two_nodes = Some s ∧
  (Write s (mkWriter 0 "c" true) 8 200).2 = [2%nat] ∧
  ∃ r, readers s !! 2%nat = Some r ∧ init_ r = true ∧ r_channel r = "c"%string ∧ r_type r = 0%nat.
Proof.
  destruct (run exec init two_nodes) as [s|] eqn:E; [|vm_compute in E; discriminate E].
  exists s. split; [reflexivity|].
  pose proof (intra_write_notifies_live_readers two_nodes s (mkWriter 0 "c" true) 8 200 E) as H.
  assert (Hc : (Write s (mkWriter 0 "c" true) 8 200).2 = [2%nat]).
  { vm_compute in E. injection E as <-. vm_compute. reflexivity. }
  split; [exact Hc|]. destruct (Write _ _ _ _) as [[ok s'] called]. simpl in Hc. subst called.
  destruct H as (_ & _ & _ & H). apply H. constructor.
Defined.

(** Property: two readers of one node on one channel: the second [Init] fails because
    the node's callback exists, yet leaves the reader marked as initialised;
    when it is destroyed it unsubscribes the node's callback, which belongs to
    the first reader: from then on the first reader, still initialised, is not
    notified of any message. *)
Theorem failed_reader_steals_subscription :
  ∃ s1 s2 s3 r2, run exec init [NewReader 1 0 "c" "n" 5; NewReader 2 0 "c" "n" 5; InitReader 1]
    = Some s1 ∧ readers s1 !! 2%nat = Some r2 ∧
  (Reader_Init (M := Z) s1 2 r2).1 = false ∧ (Write s1 (mkWriter 0 "c" true) 8 100).2 = [1%nat] ∧
  run exec s1 [InitReader 2; DestroyReader 2] = Some s2 ∧
  (init_ <$> readers s2 !! 1%nat) = Some true ∧
  Write s2 (mkWriter 0 "c" true) 8 200 = (true, s3, []).
Proof.
  eexists _, _, _, _. split; [vm_compute; reflexivity|]. split; [vm_compute; reflexivity|].
  split; [vm_compute; reflexivity|]. split; [vm_compute; reflexivity|].
  split; [vm_compute; reflexivity|]. split; vm_compute; reflexivity.
Qed.
