(* ===== verification/TimingWheel.v ===== *)
(** * The timing wheel

    [TimingWheel] ([src/code/cyber/timer/timing_wheel.h], [timing_wheel.cc])
    keeps weak pointers to timer tasks in the buckets of a work wheel (one
    bucket per tick of 2 ms) and an assistant wheel (one bucket per lap of the
    work wheel).  The ticker thread ([TickFunc]) is a state machine of four
    steps -- tick, advance the work index, advance the assistant index,
    cascade -- and other threads may add or drop tasks between any two of
    them.  A task is named by a number; it is alive as long as it is in
    [tasks] ([weak_ptr::lock] succeeds). *)

From S2P Require Import Prelude.

Definition WORK_WHEEL_SIZE : Z := 512.
Definition ASSISTANT_WHEEL_SIZE : Z := 64.
Definition TIMER_RESOLUTION_MS : Z := 2.
Definition TIMER_MAX_INTERVAL_MS : Z :=
  WORK_WHEEL_SIZE * ASSISTANT_WHEEL_SIZE * TIMER_RESOLUTION_MS.

Record TimerTask := mkTask {
  interval_ms : Z;
  remainder_interval_ms : Z;
  next_fire_duration_ms : Z;
  accumulated_error_ns : Z;
  last_execute_time_ns : Z;
}.

Definition set_remainder (t : TimerTask) (r : Z) : TimerTask :=
  mkTask (interval_ms t) r (next_fire_duration_ms t) (accumulated_error_ns t) (last_execute_time_ns t).

(** [TimerBucket]: its list of weak pointers. *)
Abbreviation TimerBucket := (list nat).

Record TimingWheel := mkWheel {
  running_ : bool;
  tick_count_ : Z;
  work_wheel_ : list TimerBucket;
  assistant_wheel_ : list TimerBucket;
  current_work_wheel_index_ : Z;
  current_assistant_wheel_index_ : Z;
}.

Definition GetWorkWheelIndex (index : Z) : Z := Z.land index (WORK_WHEEL_SIZE - 1).
Definition GetAssistantWheelIndex (index : Z) : Z := Z.land index (ASSISTANT_WHEEL_SIZE - 1).

Definition bucket (wheel : list TimerBucket) (i : Z) : TimerBucket := default [] (zget wheel i).

Definition TimerBucket_AddTask (wheel : list TimerBucket) (i : Z) (id : nat) : list TimerBucket :=
  zset wheel i (bucket wheel i ++ [id]).

Definition with_work (w : TimingWheel) (l : list TimerBucket) : TimingWheel :=
  mkWheel (running_ w) (tick_count_ w) l (assistant_wheel_ w)
    (current_work_wheel_index_ w) (current_assistant_wheel_index_ w).

Definition with_assistant (w : TimingWheel) (l : list TimerBucket) : TimingWheel :=
  mkWheel (running_ w) (tick_count_ w) (work_wheel_ w) l
    (current_work_wheel_index_ w) (current_assistant_wheel_index_ w).

(** [ceil(double(next_fire_duration_ms) / TIMER_RESOLUTION_MS)]; exact, since
    durations are far below [2^53]. *)
Definition ticks_of (t : TimerTask) : Z :=
  (next_fire_duration_ms t + (TIMER_RESOLUTION_MS - 1)) / TIMER_RESOLUTION_MS.

(** [AddTask(task, current_work_wheel_index)] of a running wheel: it also
    stores the remainder in the task. *)
Definition AddTask (w : TimingWheel) (id : nat) (t : TimerTask) (current_work_wheel_index : Z) :
    TimingWheel * TimerTask :=
  let work_wheel_index := u64 (current_work_wheel_index + ticks_of t) in
  if WORK_WHEEL_SIZE <=? work_wheel_index then
    let real_work_wheel_index := GetWorkWheelIndex work_wheel_index in
    let assistant_ticks := work_wheel_index / WORK_WHEEL_SIZE in
    let t' := set_remainder t real_work_wheel_index in
    if (assistant_ticks =? 1) && (real_work_wheel_index <? current_work_wheel_index_ w)
    then (with_work w (TimerBucket_AddTask (work_wheel_ w) real_work_wheel_index id), t')
    else
      let assistant_wheel_index :=
        GetAssistantWheelIndex (u64 (current_assistant_wheel_index_ w + assistant_ticks)) in
      (with_assistant w (TimerBucket_AddTask (assistant_wheel_ w) assistant_wheel_index id), t')
  else (with_work w (TimerBucket_AddTask (work_wheel_ w) work_wheel_index id), t).

(** [Tick]: the tasks of the current bucket whose callbacks are posted. *)
Definition Tick (w : TimingWheel) (tasks : gmap nat TimerTask) : TimingWheel * list nat :=
  let i := current_work_wheel_index_ w in
  (with_work w (zset (work_wheel_ w) i []),
   filter (λ id, is_Some (tasks !! id)) (bucket (work_wheel_ w) i)).

Definition cascade_task (tasks : gmap nat TimerTask) (work : list TimerBucket) (id : nat) :
    list TimerBucket :=
  match tasks !! id with
  | Some t => TimerBucket_AddTask work (remainder_interval_ms t) id
  | None => work
  end.

Definition Cascade (w : TimingWheel) (tasks : gmap nat TimerTask) (i : Z) : TimingWheel :=
  mkWheel (running_ w) (tick_count_ w)
    (fold_left (cascade_task tasks) (bucket (assistant_wheel_ w) i) (work_wheel_ w))
    (zset (assistant_wheel_ w) i [])
    (current_work_wheel_index_ w) (current_assistant_wheel_index_ w).

(** ** The ticker thread *)

(** Where [TickFunc] is: at the loop head, asleep, or between advancing the
    work index to 0 and the cascade. *)
Inductive phase := AtTick | Sleeping | NeedAssist | NeedCascade.

#[global] Instance phase_eq_dec : EqDecision phase.
Proof. solve_decision. Defined.

Record state := mkState { wheel : TimingWheel; tasks : gmap nat TimerTask; at_ : phase }.

Inductive label :=
| Add (id : nat) (t : TimerTask)   (** [AddTask(task)], of a new or a fired task *)
| Drop (id : nat)                  (** the last shared pointer goes away *)
| Step                             (** one step of the ticker *)
| Stop.                            (** [Shutdown] *)

Definition init : state :=
  mkState (mkWheel false 0 (replicate 512 []) (replicate 64 []) 0 0) ∅ AtTick.

Definition set_running (w : TimingWheel) (b : bool) : TimingWheel :=
  mkWheel b (tick_count_ w) (work_wheel_ w) (assistant_wheel_ w)
    (current_work_wheel_index_ w) (current_assistant_wheel_index_ w).

(** The events of the ticker: the number of the tick and what it posts. *)
Definition TickFunc (s : state) : option (state * option (Z * list nat)) :=
  let w := wheel s in
  match at_ s with
  | AtTick =>
      if running_ w then
        let '(w', fired) := Tick w (tasks s) in
        Some (mkState (mkWheel (running_ w') (u64 (tick_count_ w' + 1)) (work_wheel_ w')
                         (assistant_wheel_ w') (current_work_wheel_index_ w')
                         (current_assistant_wheel_index_ w')) (tasks s) Sleeping,
              Some (tick_count_ w, fired))
      else None
  | Sleeping =>
      let i := GetWorkWheelIndex (u64 (current_work_wheel_index_ w + 1)) in
      Some (mkState (mkWheel (running_ w) (tick_count_ w) (work_wheel_ w) (assistant_wheel_ w) i
                       (current_assistant_wheel_index_ w)) (tasks s)
              (if i =? 0 then NeedAssist else AtTick), None)
  | NeedAssist =>
      let i := GetAssistantWheelIndex (u64 (current_assistant_wheel_index_ w + 1)) in
      Some (mkState (mkWheel (running_ w) (tick_count_ w) (work_wheel_ w) (assistant_wheel_ w)
                       (current_work_wheel_index_ w) i) (tasks s) NeedCascade, None)
  | NeedCascade =>
      Some (mkState (Cascade w (tasks s) (current_assistant_wheel_index_ w)) (tasks s) AtTick, None)
  end.

(** [AddTask] starts the wheel when it does not run; [Start] then waits for
    the mutex [Shutdown] holds until the old ticker has left its loop. *)
Definition exec (s : state) (l : label) : option (state * option (Z * list nat)) :=
  let w := wheel s in
  match l with
  | Add id t =>
      if running_ w || bool_decide (at_ s = AtTick) then
        let '(w', t') := AddTask (set_running w true) id t (current_work_wheel_index_ w) in
        Some (mkState w' (<[id := t']> (tasks s)) (at_ s), None)
      else None
  | Drop id => Some (mkState w (delete id (tasks s)) (at_ s), None)
  | Step => TickFunc s
  | Stop => Some (mkState (set_running w false) (tasks s) (at_ s), None)
  end.

(** ** Following one task

    [lone s id l]: the task [id] is in exactly one place of the wheels (or
    nowhere).  [due] turns the place into the number of the tick at which the
    task fires, which no step of the wheel changes. *)

Inductive place := InWork (j : Z) | InAssistant (a : Z) | Nowhere.

#[global] Instance place_eq_dec : EqDecision place.
Proof. solve_decision. Defined.

Definition occ (b : TimerBucket) (id : nat) : TimerBucket := filter (λ x, x = id) b.

Definition lone (w : TimingWheel) (id : nat) (l : place) : Prop :=
  (∀ j, occ (bucket (work_wheel_ w) j) id = if decide (l = InWork j) then [id] else []) ∧
  (∀ a, occ (bucket (assistant_wheel_ w) a) id = if decide (l = InAssistant a) then [id] else []).

(** The number of the next tick, or of the last one while asleep. *)
Definition position (s : state) : Z :=
  match at_ s with Sleeping => tick_count_ (wheel s) - 1 | _ => tick_count_ (wheel s) end.

Definition laps (s : state) (a : Z) : Z :=
  let c := current_assistant_wheel_index_ (wheel s) in
  match at_ s with
  | AtTick | Sleeping => (a - c - 1) mod 64 + 1
  | NeedAssist => (a - c - 1) mod 64
  | NeedCascade => (a - c) mod 64
  end.

(** Ticks left for a task in a place. *)
Definition left_ (s : state) (t : TimerTask) (l : place) : Z :=
  let c := current_work_wheel_index_ (wheel s) in
  match l with
  | InWork j =>
      match at_ s with
      | Sleeping => (j - c - 1) mod 512 + 1
      | _ => (j - c) mod 512
      end
  | InAssistant a => 512 * laps s a - c + remainder_interval_ms t
  | Nowhere => 0
  end.

Definition in_wheel (l : place) : Prop :=
  match l with InWork j => 0 ≤ j < 512 | InAssistant a => 0 ≤ a < 64 | Nowhere => False end.

Definition due (s : state) (id : nat) (D : Z) : Prop :=
  ∃ l t, lone (wheel s) id l ∧ in_wheel l ∧ tasks s !! id = Some t ∧
    0 ≤ remainder_interval_ms t < 512 ∧ position s + left_ s t l = D ∧
    (at_ s = Sleeping → l ≠ InWork (current_work_wheel_index_ (wheel s))).

Definition gone (s : state) (id : nat) : Prop := lone (wheel s) id Nowhere.

Record wf (s : state) : Prop := {
  wf_work : zlen (work_wheel_ (wheel s)) = 512;
  wf_assist : zlen (assistant_wheel_ (wheel s)) = 64;
  wf_cw : 0 ≤ current_work_wheel_index_ (wheel s) < 512;
  wf_ca : 0 ≤ current_assistant_wheel_index_ (wheel s) < 64;
  wf_zero : at_ s = NeedAssist ∨ at_ s = NeedCascade → current_work_wheel_index_ (wheel s) = 0;
}.

Lemma work_index i : GetWorkWheelIndex i = i mod 512.
Proof. unfold GetWorkWheelIndex. exact (Z.land_ones i 9 ltac:(lia)). Qed.

Lemma assistant_index i : GetAssistantWheelIndex i = i mod 64.
Proof. unfold GetAssistantWheelIndex. exact (Z.land_ones i 6 ltac:(lia)). Qed.

Lemma bucket_zset wl i b j :
  bucket (zset wl i b) j = if decide (i = j ∧ 0 ≤ i < zlen wl) then b else bucket wl j.
Proof. unfold bucket. rewrite zget_zset. by case_decide. Qed.

Lemma bucket_out wl j : ¬ (0 ≤ j < zlen wl) → bucket wl j = [].
Proof.
  intros H. unfold bucket. destruct (zget wl j) eqn:E; [|done].
  apply zget_Some_range in E. lia.
Qed.

Lemma occ_snoc b id' id : occ (b ++ [id']) id = occ b id ++ (if decide (id' = id) then [id'] else []).
Proof. unfold occ. rewrite filter_app, filter_cons, filter_nil. by case_decide. Qed.

Lemma occ_bucket_add wl i id' id j :
  0 ≤ i < zlen wl →
  occ (bucket (TimerBucket_AddTask wl i id') j) id =
  occ (bucket wl j) id ++ (if decide (i = j ∧ id' = id) then [id'] else []).
Proof.
  intros Hi. unfold TimerBucket_AddTask. rewrite bucket_zset.
  destruct (decide (i = j)) as [->|Hne].
  - rewrite decide_True by done. rewrite occ_snoc. f_equal.
    destruct (decide (id' = id)); [by rewrite decide_True|by rewrite decide_False by tauto].
  - rewrite !decide_False by tauto. by rewrite app_nil_r.
Qed.

Lemma zlen_bucket_add wl i id : zlen (TimerBucket_AddTask wl i id) = zlen wl.
Proof. unfold TimerBucket_AddTask. apply zlen_zset. Qed.

Lemma ticks_of_range t : 1 ≤ next_fire_duration_ms t ≤ TIMER_MAX_INTERVAL_MS → 1 ≤ ticks_of t ≤ 32768.
Proof.
  unfold ticks_of. change TIMER_MAX_INTERVAL_MS with 65536.
  change (TIMER_RESOLUTION_MS - 1) with 1. change TIMER_RESOLUTION_MS with 2. intros.
  Z.to_euclidean_division_equations. lia.
Qed.

(** Where [AddTask] puts a task. *)
Definition place_of (s : state) (t : TimerTask) : place :=
  let c := current_work_wheel_index_ (wheel s) in
  let i := c + ticks_of t in
  if decide (i < 512) then InWork i
  else if decide (i < 1024 ∧ i mod 512 < c) then InWork (i mod 512)
  else InAssistant ((current_assistant_wheel_index_ (wheel s) + i / 512) mod 64).

Lemma AddTask_place s id t : wf s → 1 ≤ next_fire_duration_ms t ≤ TIMER_MAX_INTERVAL_MS →
  ∃ w' t', AddTask (set_running (wheel s) true) id t (current_work_wheel_index_ (wheel s)) = (w', t') ∧
  current_work_wheel_index_ w' = current_work_wheel_index_ (wheel s) ∧
  current_assistant_wheel_index_ w' = current_assistant_wheel_index_ (wheel s) ∧
  tick_count_ w' = tick_count_ (wheel s) ∧ in_wheel (place_of s t) ∧
  next_fire_duration_ms t' = next_fire_duration_ms t ∧
  (∀ a, place_of s t = InAssistant a →
     remainder_interval_ms t' = (current_work_wheel_index_ (wheel s) + ticks_of t) mod 512) ∧
  (remainder_interval_ms t' = remainder_interval_ms t ∨ 0 ≤ remainder_interval_ms t' < 512) ∧
  zlen (work_wheel_ w') = 512 ∧ zlen (assistant_wheel_ w') = 64 ∧
  (∀ j id', occ (bucket (work_wheel_ w') j) id' = occ (bucket (work_wheel_ (wheel s)) j) id' ++
     (if decide (place_of s t = InWork j ∧ id = id') then [id] else [])) ∧
  (∀ a id', occ (bucket (assistant_wheel_ w') a) id' = occ (bucket (assistant_wheel_ (wheel s)) a) id' ++
     (if decide (place_of s t = InAssistant a ∧ id = id') then [id] else [])).
Proof.
  intros [Hw Ha Hc Hca _] Hn. apply ticks_of_range in Hn. set (n := ticks_of t) in *.
  unfold AddTask, place_of. fold n. cbn [set_running current_work_wheel_index_
    current_assistant_wheel_index_ work_wheel_ assistant_wheel_].
  set (c := current_work_wheel_index_ (wheel s)) in *.
  set (ca := current_assistant_wheel_index_ (wheel s)) in *.
  rewrite wrap_small by wordlia. change WORK_WHEEL_SIZE with 512.
  pose proof (Z.mod_pos_bound (c + n) 512 ltac:(lia)) as Hm.
  assert (Hq : 0 ≤ (c + n) / 512 ≤ 64) by (Z.to_euclidean_division_equations; lia).
  destruct (Z.leb_spec 512 (c + n)).
  - rewrite decide_False by lia. rewrite work_index.
    assert (Hone : (((c + n) / 512 =? 1) && ((c + n) mod 512 <? c) = true) ↔ (c + n < 1024 ∧ (c + n) mod 512 < c)).
    { rewrite andb_true_iff, Z.eqb_eq, Z.ltb_lt. split; intros; (split; [|lia]);
        Z.to_euclidean_division_equations; lia. }
    destruct (_ && _).
    + rewrite decide_True by (by apply Hone). eexists. eexists. split; [done|]. simpl.
      split; [done|]. split; [done|]. split; [done|]. split; [done|]. split; [done|].
      split; [done|]. split; [by right|]. rewrite zlen_bucket_add.
      split; [done|]. split; [done|]. split.
      * intros j id'. rewrite occ_bucket_add by lia. f_equal.
        destruct (decide ((c + n) mod 512 = j ∧ id = id')) as [[-> ->]|Hne].
        -- by rewrite decide_True.
        -- rewrite decide_False; [done|]. intros [[=] ?]. by apply Hne.
      * intros a id'. by rewrite app_nil_r.
    + rewrite decide_False by (intros Hx; apply Hone in Hx; done).
      eexists. eexists. split; [done|]. simpl.
      rewrite wrap_small by wordlia. rewrite assistant_index.
      pose proof (Z.mod_pos_bound (ca + (c + n) / 512) 64 ltac:(lia)) as Hm2.
      split; [done|]. split; [done|]. split; [done|]. split; [done|]. split; [done|].
      split; [done|]. split; [by right|]. rewrite zlen_bucket_add.
      split; [done|]. split; [done|]. split.
      * intros j id'. by rewrite app_nil_r.
      * intros a id'. rewrite occ_bucket_add by lia. f_equal.
        destruct (decide ((ca + (c + n) / 512) mod 64 = a ∧ id = id')) as [[-> ->]|Hne].
        -- by rewrite decide_True.
        -- rewrite decide_False; [done|]. intros [[=] ?]. by apply Hne.
  - rewrite decide_True by lia. eexists. eexists. split; [done|]. simpl.
    split; [done|]. split; [done|]. split; [done|]. split; [lia|]. split; [done|].
    split; [done|]. split; [by left|]. rewrite zlen_bucket_add.
    split; [done|]. split; [done|]. split.
    + intros j id'. rewrite occ_bucket_add by lia. f_equal.
      destruct (decide (c + n = j ∧ id = id')) as [[-> ->]|Hne].
      * by rewrite decide_True.
      * rewrite decide_False; [done|]. intros [[=] ?]. by apply Hne.
    + intros a id'. by rewrite app_nil_r.
Qed.

Definition label_ok (l : label) : Prop :=
  match l with Add _ t => 1 ≤ next_fire_duration_ms t ≤ TIMER_MAX_INTERVAL_MS | _ => True end.

Definition not_about (id : nat) (l : label) : Prop :=
  match l with Add id' _ | Drop id' => id' ≠ id | _ => True end.

Lemma zlen_fold_cascade ts b work : zlen (fold_left (cascade_task ts) b work) = zlen work.
Proof.
  revert work. induction b as [|id b IH]; intros work; simpl; [done|]. rewrite IH.
  unfold cascade_task. destruct (ts !! id); [apply zlen_bucket_add|done].
Qed.

Lemma exec_wf s l s' e : wf s → label_ok l → exec s l = Some (s', e) → wf s'.
Proof.
  intros Hwf Hl Hx. destruct l as [id t|id| |]; simpl in Hx.
  - destruct (_ || _); [|done].
    destruct (AddTask_place s id t Hwf Hl) as (w' & t' & E & Hcw & Hca & _ & _ & _ & _ & _ & H1 & H2 & _).
    rewrite E in Hx. simplify_eq. destruct Hwf.
    split; simpl; rewrite ?Hcw, ?Hca; done.
  - simplify_eq. by destruct Hwf.
  - unfold TickFunc in Hx. destruct Hwf as [Hw Ha Hc Hca Hz]. destruct (at_ s) eqn:Ea.
    + destruct (running_ _); [|done]. unfold Tick in Hx. simplify_eq. split; simpl; rewrite ?zlen_zset; try done. naive_solver.
    + simplify_eq. split; simpl; rewrite ?work_index; try done.
      * apply Z.mod_pos_bound. lia.
      * case_match; [intros; lia|naive_solver].
    + simplify_eq. split; simpl; rewrite ?assistant_index; try done; [apply Z.mod_pos_bound; lia|].
      intros. apply Hz. by left.
    + simplify_eq. split; simpl; rewrite ?zlen_fold_cascade, ?zlen_zset; try done. naive_solver.
  - simplify_eq. by destruct Hwf.
Qed.

Lemma AddTask_due s id t s' e : wf s → label_ok (Add id t) → gone s id →
  at_ s = AtTick ∨ at_ s = Sleeping →
  (0 ≤ remainder_interval_ms t < 512) →
  exec s (Add id t) = Some (s', e) → due s' id (position s + ticks_of t).
Proof.
  intros Hwf Hl [Hg1 Hg2] Hat Hr0 Hx. simpl in Hx. destruct (_ || _); [|done].
  destruct (AddTask_place s id t Hwf Hl)
    as (w' & t' & E & Hcw & Hca & Htc & Hin & _ & Hr & Hr' & _ & _ & H1 & H2).
  rewrite E in Hx. simplify_eq. destruct Hwf as [_ _ Hc Hca0 _].
  apply ticks_of_range in Hl. exists (place_of s t), t'. simpl.
  split; [split|].
  - intros j. rewrite H1, Hg1. simpl. rewrite (decide_ext _ (place_of s t = InWork j)) by tauto. done.
  - intros a. rewrite H2, Hg2. simpl. rewrite (decide_ext _ (place_of s t = InAssistant a)) by tauto. done.
  - split; [done|]. split; [by rewrite lookup_insert_eq|].
    split; [destruct Hr' as [->|]; lia|].
    assert (Hp : position {| wheel := w'; tasks := <[id:=t']> (tasks s); at_ := at_ s |} = position s).
    { unfold position. simpl. by rewrite Htc. }
    rewrite Hp. rewrite Hcw. unfold left_, laps. simpl. rewrite Hcw, Hca.
    unfold place_of in *. set (c := current_work_wheel_index_ (wheel s)) in *.
    set (ca := current_assistant_wheel_index_ (wheel s)) in *. set (n := ticks_of t) in *.
    repeat case_decide; simpl in *.
    + destruct Hat as [Ea|Ea]; rewrite Ea; (split; [|intros; try done; intros [=]; lia]).
      * replace (c + n - c) with n by lia. rewrite Z.mod_small; lia.
      * replace (c + n - c - 1) with (n - 1) by lia. rewrite Z.mod_small; lia.
    + destruct Hat as [Ea|Ea]; rewrite Ea; (split; [|intros; try done; intros [=]; lia]);
        Z.to_euclidean_division_equations; lia.
    + rewrite Hr with (a := (ca + (c + n) / 512) mod 64) by done.
      assert (1 ≤ (c + n) / 512 ≤ 64) by (Z.to_euclidean_division_equations; lia).
      assert (((ca + (c + n) / 512) mod 64 - ca - 1) mod 64 + 1 = (c + n) / 512) as Hlap.
      { replace ((ca + (c + n) / 512) mod 64 - ca - 1) with ((ca + (c + n) / 512) mod 64 - (ca + 1)) by lia.
        rewrite Zminus_mod_idemp_l. rewrite Z.mod_small; lia. }
      rewrite Hlap. pose proof (Z.div_mod (c + n) 512 ltac:(lia)).
      destruct Hat as [Ea|Ea]; rewrite Ea; (split; [lia|done]).
Qed.

(** Steps of other tasks, and the ticker's steps, keep the due tick. *)
Lemma others_place s s' id l :
  (∀ j, occ (bucket (work_wheel_ (wheel s')) j) id = occ (bucket (work_wheel_ (wheel s)) j) id) →
  (∀ a, occ (bucket (assistant_wheel_ (wheel s')) a) id = occ (bucket (assistant_wheel_ (wheel s)) a) id) →
  lone (wheel s) id l → lone (wheel s') id l.
Proof. intros H1 H2 [L1 L2]. split; intros; by rewrite ?H1, ?H2. Qed.

Lemma exec_add_other s id' t s' e id : wf s → label_ok (Add id' t) → id' ≠ id →
  exec s (Add id' t) = Some (s', e) →
  e = None ∧ at_ s' = at_ s ∧ tasks s' !! id = tasks s !! id ∧
  tick_count_ (wheel s') = tick_count_ (wheel s) ∧
  current_work_wheel_index_ (wheel s') = current_work_wheel_index_ (wheel s) ∧
  current_assistant_wheel_index_ (wheel s') = current_assistant_wheel_index_ (wheel s) ∧
  ∀ l, lone (wheel s) id l → lone (wheel s') id l.
Proof.
  intros Hwf Hl Hne Hx. simpl in Hx. destruct (_ || _); [|done].
  destruct (AddTask_place s id' t Hwf Hl)
    as (w' & t' & E & Hcw & Hca & Htc & Hin & _ & Hr & Hr' & _ & _ & H1 & H2).
  rewrite E in Hx. simplify_eq. simpl. split; [done|]. split; [done|].
  split; [by rewrite lookup_insert_ne|]. split; [done|]. split; [done|]. split; [done|].
  intros l. apply (others_place s (mkState w' (<[id':=t']> (tasks s)) (at_ s))); simpl.
  - intros j. rewrite H1, decide_False by tauto. by rewrite app_nil_r.
  - intros a. rewrite H2, decide_False by tauto. by rewrite app_nil_r.
Qed.

Lemma same_due s s' id D :
  at_ s' = at_ s → tasks s' !! id = tasks s !! id →
  tick_count_ (wheel s') = tick_count_ (wheel s) →
  current_work_wheel_index_ (wheel s') = current_work_wheel_index_ (wheel s) →
  current_assistant_wheel_index_ (wheel s') = current_assistant_wheel_index_ (wheel s) →
  (∀ l, lone (wheel s) id l → lone (wheel s') id l) → due s id D → due s' id D.
Proof.
  intros Ha Ht Hc Hw Hs Hl (l & t & L & Hin & Hid & Hr & HD & Hsl).
  exists l, t. split; [by apply Hl|]. split; [done|]. split; [by rewrite Ht|]. split; [done|].
  unfold position, left_, laps in *. rewrite Ha, Hc, Hw, Hs. done.
Qed.

Lemma occ_cascade ts b work j id : zlen work = 512 →
  (∀ t, ts !! id = Some t → 0 ≤ remainder_interval_ms t < 512) →
  occ (bucket (fold_left (cascade_task ts) b work) j) id =
  occ (bucket work j) id ++
    (match ts !! id with
     | Some t => if decide (remainder_interval_ms t = j) then occ b id else []
     | None => [] end).
Proof.
  intros Hw Hr. revert work Hw. induction b as [|i b IH]; intros work Hw; simpl.
  { destruct (ts !! id); [case_decide|]; by rewrite app_nil_r. }
  assert (Hcons : occ (i :: b) id = (if decide (i = id) then [id] else []) ++ occ b id).
  { unfold occ. rewrite filter_cons. case_decide; [by subst|done]. }
  rewrite Hcons. unfold cascade_task at 2. destruct (ts !! i) as [t|] eqn:E.
  - rewrite IH by (by rewrite zlen_bucket_add). destruct (decide (i = id)) as [->|Hne].
    + rewrite E. rewrite occ_bucket_add by (rewrite Hw; by apply Hr).
      case_decide as Hd.
      * rewrite !(decide_True (P := remainder_interval_ms t = j)) by tauto.
        by rewrite <- app_assoc.
      * rewrite !(decide_False (P := remainder_interval_ms t = j)) by tauto.
        by rewrite !app_nil_r.
    + f_equal. destruct (decide (0 ≤ remainder_interval_ms t < 512)).
      * rewrite occ_bucket_add by lia. rewrite decide_False by tauto. by rewrite app_nil_r.
      * unfold TimerBucket_AddTask. by rewrite bucket_zset, decide_False by lia.
  - rewrite IH by done. destruct (decide (i = id)) as [->|Hne]; [by rewrite E|]. done.
Qed.

Lemma occ_filter_alive (ts : gmap nat TimerTask) b id : is_Some (ts !! id) →
  occ (filter (λ i : nat, is_Some (ts !! i)) b) id = occ b id.
Proof.
  intros Ht. unfold occ. induction b as [|i b IH]; [done|].
  rewrite !filter_cons. repeat case_decide; subst; rewrite ?filter_cons; repeat case_decide;
    subst; try done; by f_equal.
Qed.

Lemma occ_sublist (ts : gmap nat TimerTask) b id : occ b id = [] →
  occ (filter (λ i : nat, is_Some (ts !! i)) b) id = [].
Proof.
  unfold occ. induction b as [|i b IH]; [done|]. rewrite !filter_cons.
  destruct (decide (i = id)); [done|]. intros H. case_decide; [|by apply IH].
  rewrite filter_cons, decide_False by done. by apply IH.
Qed.

(** [Tick]: the task is posted exactly when its place is the current bucket. *)
Lemma Tick_due s id D s' e : wf s → at_ s = AtTick → due s id D → in_u 64 (tick_count_ (wheel s) + 1) →
  TickFunc s = Some (s', e) →
  ∃ fired, e = Some (tick_count_ (wheel s), fired) ∧
  if decide (tick_count_ (wheel s) = D) then occ fired id = [id] ∧ gone s' id
  else occ fired id = [] ∧ due s' id D.
Proof.
  intros [Hw Has Hc Hca _] Ha (l & t & [L1 L2] & Hin & Ht & Hr & HD & _) Hb Hx.
  unfold TickFunc in Hx. rewrite Ha in Hx. destruct (running_ _); [|done]. unfold Tick in Hx.
  simplify_eq. eexists. split; [done|].
  set (c := current_work_wheel_index_ (wheel s)) in *.
  unfold position, left_, laps in *. rewrite Ha in *. fold c in L1 |- *.
  assert (Hnow : position s + left_ s t l = tick_count_ (wheel s) ↔ l = InWork c).
  { unfold position, left_, laps. rewrite Ha. fold c. destruct l as [j|a|]; simpl in Hin; [| |done].
    - split; [|intros [= ->]; rewrite Z.sub_diag, Z.mod_0_l by lia; lia]. intros E. f_equal.
      assert ((j - c) mod 512 = 0) as Hm by lia. Z.to_euclidean_division_equations. lia.
    - split; [|done]. intros E. exfalso.
      pose proof (Z.mod_pos_bound (a - current_assistant_wheel_index_ (wheel s) - 1) 64). lia. }
  unfold position, left_, laps in Hnow. rewrite Ha in Hnow. fold c in Hnow.
  rewrite (decide_ext _ (l = InWork c)) by (rewrite <- Hnow; split; intros; lia).
  destruct (decide (l = InWork c)) as [->|Hne].
  - split.
    + rewrite occ_filter_alive by (by rewrite Ht). by rewrite L1, decide_True.
    + split; simpl.
      * intros j. fold c. rewrite bucket_zset. case_decide as Hj; [done|].
        rewrite L1. rewrite decide_False; [done|]. intros [= ->]. apply Hj. lia.
      * intros a. by rewrite L2.
  - split; [apply occ_sublist; by rewrite L1, decide_False|].
    exists l, t. simpl. split; [split|].
    + simpl. intros j. fold c. rewrite bucket_zset. case_decide as Hj; [|by rewrite L1].
      destruct Hj as [<- _]. by rewrite decide_False.
    + simpl. intros a. by rewrite L2.
    + split; [done|]. split; [done|]. split; [done|]. split; [|by intros _].
      unfold position, left_, laps. simpl. fold c. rewrite wrap_small by done.
      destruct l as [j|a|]; simpl in Hin; [|lia|done].
      assert (j ≠ c) by congruence.
      Z.to_euclidean_division_equations. lia.
Qed.

Lemma ticker_due s id D s' e : wf s → at_ s ≠ AtTick → due s id D →
  TickFunc s = Some (s', e) → e = None ∧ due s' id D.
Proof.
  intros [Hw Has Hc Hca Hz] Ha (l & t & [L1 L2] & Hin & Ht & Hr & HD & Hsl) Hx.
  unfold TickFunc in Hx. unfold position, left_, laps in HD.
  destruct (at_ s) eqn:E; [done|..]; simplify_eq; (split; [done|]); unfold due.
  - exists l, t. split; [done|]. split; [done|]. split; [done|]. split; [done|].
    split; [|simpl; by case_match].
    specialize (Hsl eq_refl). unfold position, left_, laps. simpl. rewrite work_index.
    rewrite wrap_small by wordlia.
    set (c := current_work_wheel_index_ (wheel s)) in *.
    destruct (Z.eqb_spec ((c + 1) mod 512) 0) as [E0|E0].
    + assert (c = 511) as -> by (Z.to_euclidean_division_equations; lia). simpl.
      destruct l as [j|a|]; simpl in Hin; [|lia|done].
      assert (j ≠ 511) by congruence.
      replace (511 + 1) with (1 * 512) by lia. rewrite Z.mod_mul by lia.
      rewrite (Z.mod_small (j - 0)) by lia. Z.to_euclidean_division_equations. lia.
    + assert ((c + 1) mod 512 = c + 1) as -> by (Z.to_euclidean_division_equations; lia).
      destruct l as [j|a|]; simpl in Hin; [|lia|done].
      replace (j - (c + 1)) with (j - c - 1) by lia. lia.
  - exists l, t. split; [done|]. split; [done|]. split; [done|]. split; [done|].
    split; [|done]. unfold position, left_, laps. simpl. rewrite assistant_index.
    rewrite wrap_small by wordlia.
    destruct l as [j|a|]; simpl in Hin; [done| |done].
    rewrite Zminus_mod_idemp_r.
    replace (a - (current_assistant_wheel_index_ (wheel s) + 1)) with
      (a - current_assistant_wheel_index_ (wheel s) - 1) by lia. done.
  - assert (Hc0 := Hz (or_intror eq_refl)). set (ca := current_assistant_wheel_index_ (wheel s)) in *.
    destruct (decide (l = InAssistant ca)) as [->|Hne].
    + exists (InWork (remainder_interval_ms t)), t. simpl. split; [split|].
      * intros j. simpl. rewrite (occ_cascade _ _ _ _ _ Hw) by (intros ? H1; by simplify_eq).
        rewrite Ht, L1, L2. rewrite (decide_False (P := InAssistant _ = InWork _)) by done.
        rewrite (decide_True (P := InAssistant _ = InAssistant _)) by done.
        repeat case_decide; simpl; congruence.
      * intros a. simpl. fold ca. rewrite bucket_zset. case_decide as Hj; [done|].
        rewrite L2, decide_False; [done|]. intros [= ->]. apply Hj. lia.
      * split; [done|]. split; [done|]. split; [done|]. split; [|done].
        unfold position, left_, laps. simpl. rewrite Hc0, !Z.sub_0_r, Z.sub_diag.
        rewrite Z.mod_small by lia. change (0 mod 64) with 0. lia.
    + exists l, t. simpl. split; [split|].
      * intros j. simpl. rewrite (occ_cascade _ _ _ _ _ Hw) by (intros ? H1; by simplify_eq).
        rewrite Ht, L1, L2. fold ca. rewrite (decide_False (P := l = InAssistant ca)) by done.
        destruct (decide (remainder_interval_ms t = j)); by rewrite app_nil_r.
      * intros a. simpl. fold ca. rewrite bucket_zset. case_decide as Hj; [|by rewrite L2].
        destruct Hj as [<- _]. by rewrite decide_False.
      * split; [done|]. split; [done|]. split; [done|]. split; [|done].
        unfold position, left_, laps. simpl. fold ca.
        destruct l as [j|a|]; simpl in Hin; [done| |done].
        assert (a ≠ ca) by congruence. Z.to_euclidean_division_equations. lia.
Qed.

Lemma gone_step s id l s' e : wf s → label_ok l → not_about id l → gone s id →
  exec s l = Some (s', e) → gone s' id ∧ ∀ i fired, e = Some (i, fired) → occ fired id = [].
Proof.
  intros Hwf Hl Hna Hg Hx. destruct l as [id' t|id'| |].
  - destruct (exec_add_other s id' t s' e id Hwf Hl Hna Hx) as (-> & _ & _ & _ & _ & _ & H).
    split; [by apply H|done].
  - simpl in Hx. simplify_eq. done.
  - simpl in Hx. unfold TickFunc in Hx. destruct Hg as [G1 G2].
    destruct (at_ s) eqn:Ea.
    + destruct (running_ _); [|done]. unfold Tick in Hx. simplify_eq. split.
      * split; [|done]. intros j. simpl. rewrite bucket_zset. by case_decide.
      * intros i fired ?. simplify_eq. apply occ_sublist. by rewrite G1.
    + simplify_eq. split; [split; done|done].
    + simplify_eq. split; [split; done|done].
    + simplify_eq. split; [|done]. split.
      * intros j. simpl. clear -G1 G2. specialize (G2 (current_assistant_wheel_index_ (wheel s))).
        simpl in G2. generalize dependent (bucket (assistant_wheel_ (wheel s))
          (current_assistant_wheel_index_ (wheel s))). intros b. revert G1.
        generalize (work_wheel_ (wheel s)). induction b as [|i b IH]; intros work G1 G2; simpl; [by rewrite G1|].
        unfold occ in G2. rewrite filter_cons in G2. case_decide; [done|].
        apply IH; [|done]. intros k. unfold cascade_task. destruct (tasks s !! i) as [t|]; [|apply G1].
        unfold TimerBucket_AddTask. rewrite bucket_zset. case_decide; [|apply G1].
        rewrite occ_snoc, decide_False, G1 by done. done.
      * intros a. simpl. rewrite bucket_zset. by case_decide.
  - simpl in Hx. simplify_eq. done.
Qed.

Lemma exec_ticks s l s' e : wf s → label_ok l → in_u 64 (tick_count_ (wheel s) + 1) →
  exec s l = Some (s', e) →
  match e with
  | Some (i, _) => i = tick_count_ (wheel s) ∧ tick_count_ (wheel s') = tick_count_ (wheel s) + 1
  | None => tick_count_ (wheel s') = tick_count_ (wheel s)
  end.
Proof.
  intros Hwf Hl Hb Hx. destruct l as [id t|id| |]; simpl in Hx.
  - destruct (_ || _); [|done].
    destruct (AddTask_place s id t Hwf Hl) as (w' & t' & E & _ & _ & Htc & _).
    rewrite E in Hx. by simplify_eq.
  - by simplify_eq.
  - unfold TickFunc in Hx. destruct (at_ s); [|by simplify_eq..].
    destruct (running_ _); [|done]. unfold Tick in Hx. simplify_eq. simpl.
    by rewrite wrap_small.
  - by simplify_eq.
Qed.

Lemma due_step s id D l s' e : wf s → label_ok l → not_about id l →
  in_u 64 (tick_count_ (wheel s) + 1) → due s id D → exec s l = Some (s', e) →
  match e with
  | Some (i, fired) =>
      if decide (i = D) then occ fired id = [id] ∧ gone s' id else occ fired id = [] ∧ due s' id D
  | None => due s' id D
  end.
Proof.
  intros Hwf Hl Hna Hb Hd Hx. destruct l as [id' t|id'| |].
  - destruct (exec_add_other s id' t s' e id Hwf Hl Hna Hx) as (-> & H1 & H2 & H3 & H4 & H5 & H6).
    by eapply same_due.
  - simpl in Hx. simplify_eq. eapply same_due; [..|exact Hd]; try done. simpl.
    by rewrite lookup_delete_ne.
  - destruct (decide (at_ s = AtTick)) as [Ha|Ha].
    + destruct (Tick_due s id D s' e Hwf Ha Hd Hb Hx) as (fired & -> & H). done.
    + by destruct (ticker_due s id D s' e Hwf Ha Hd Hx) as [-> H].
  - simpl in Hx. simplify_eq. by eapply same_due.
Qed.

Definition ticks_from (n : Z) (es : list (Z * list nat)) : Prop :=
  ∀ k e, es !! k = Some e → e.1 = n + Z.of_nat k.

Lemma ticks_from_cons n e es : e.1 = n → ticks_from (n + 1) es → ticks_from n (e :: es).
Proof.
  intros He Hes [|k] e' Hk; simpl in Hk; [simplify_eq; lia|]. rewrite (Hes k e' Hk). lia.
Qed.

Lemma run_tracked ls s s2 es id :
  wf s → Forall label_ok ls → Forall (not_about id) ls →
  0 ≤ tick_count_ (wheel s) → tick_count_ (wheel s) + zlen ls < 2 ^ 64 →
  ev_run exec s ls = Some (s2, es) →
  ticks_from (tick_count_ (wheel s)) es ∧
  (gone s id → ∀ i fired, (i, fired) ∈ es → occ fired id = []) ∧
  (∀ D, due s id D → ∀ i fired, (i, fired) ∈ es → occ fired id = if decide (i = D) then [id] else []).
Proof.
  revert s es. induction ls as [|l ls IH]; intros s es Hwf Hok Hna H0 Hb Hr; simpl in Hr.
  { simplify_eq. split; [intros k e Hk; by rewrite lookup_nil in Hk|]. by split; intros ? ? * ?%elem_of_nil. }
  destruct (exec s l) as [[s1 e]|] eqn:Hx; [|done].
  destruct (ev_run exec s1 ls) as [[s3 es']|] eqn:Hr'; [|done]. simplify_eq.
  apply Forall_cons in Hok as [Hl Hok]. apply Forall_cons in Hna as [Hn Hna].
  unfold zlen in Hb. simpl in Hb.
  assert (Hb1 : in_u 64 (tick_count_ (wheel s) + 1)) by (unfold in_u; lia).
  pose proof (exec_wf s l s1 e Hwf Hl Hx) as Hwf1.
  pose proof (exec_ticks s l s1 e Hwf Hl Hb1 Hx) as Ht.
  assert (0 ≤ tick_count_ (wheel s1) ∧ tick_count_ (wheel s1) + zlen ls < 2 ^ 64) as [H01 Hb'].
  { unfold zlen. destruct e as [[i f]|]; lia. }
  destruct (IH s1 es' Hwf1 Hok Hna H01 Hb' Hr') as (I1 & I2 & I3).
  pose proof (gone_step s id l s1 e Hwf Hl Hn) as Hg.
  pose proof (λ D, due_step s id D l s1 e Hwf Hl Hn Hb1) as Hd.
  destruct e as [[i0 f0]|].
  - destruct Ht as [-> Ht]. rewrite Ht in I1. split; [by apply ticks_from_cons|]. split.
    + intros Hgo i fired [Heq|Hin]%elem_of_cons; destruct (Hg Hgo Hx) as [Hg1 Hg2].
      * simplify_eq. by eapply Hg2.
      * by eapply I2.
    + intros D HD i fired [Heq|Hin]%elem_of_cons; specialize (Hd D HD Hx).
      * simplify_eq. case_decide; by destruct Hd.
      * case_decide; [|destruct Hd as [_ Hd]; by eapply I3]. destruct Hd as [_ Hd].
        rewrite (I2 Hd i fired Hin). rewrite decide_False; [done|].
        apply list_elem_of_lookup_1 in Hin as [k Hk]. apply I1 in Hk. simpl in Hk. lia.
  - rewrite Ht in I1. split; [done|]. split; [|by eauto].
    intros Hgo. apply I2. by destruct (Hg Hgo Hx).
Qed.

Lemma init_wf : wf init.
Proof. by split; simpl; rewrite ?zlen_replicate. Qed.

Lemma run_wf ls s es : Forall label_ok ls → ev_run exec init ls = Some (s, es) → zlen ls < 2 ^ 64 →
  wf s ∧ 0 ≤ tick_count_ (wheel s) ≤ zlen ls.
Proof.
  intros Hok Hr Hb. assert (H : ∀ ls s0 s es, wf s0 → Forall label_ok ls →
    0 ≤ tick_count_ (wheel s0) → tick_count_ (wheel s0) + zlen ls < 2 ^ 64 →
    ev_run exec s0 ls = Some (s, es) →
    wf s ∧ 0 ≤ tick_count_ (wheel s) ≤ tick_count_ (wheel s0) + zlen ls).
  { clear. induction ls as [|l ls IH]; intros s0 s es Hwf Hok H0 Hb Hr; simpl in Hr.
    - simplify_eq. split; [done|]. unfold zlen. simpl. lia.
    - destruct (exec s0 l) as [[s1 e]|] eqn:Hx; [|done].
      destruct (ev_run exec s1 ls) as [[s3 es']|] eqn:Hr'; [|done]. simplify_eq.
      apply Forall_cons in Hok as [Hl Hok]. unfold zlen in *. simpl in Hb.
      pose proof (exec_ticks s0 l s1 e Hwf Hl ltac:(unfold in_u; lia) Hx) as Ht.
      destruct (IH s1 s es') as [I1 I2]; [by eapply exec_wf|done| | |done|];
        [destruct e as [[]|]; lia..|]. split; [done|]. simpl. destruct e as [[]|]; lia. }
  destruct (H ls init s es init_wf Hok) as [H1 H2]; [done|simpl; lia|done|].
  split; [done|]. simpl in H2. lia.
Qed.

(** Property: a task added with a duration of 1 to [TIMER_MAX_INTERVAL_MS]
    milliseconds, while the ticker is at a tick or asleep, is posted exactly
    once, namely at the tick that lies [ceil(duration / 2 ms)] positions ahead
    -- across any number of laps and cascades, whatever other tasks come and go
    and whenever the wheel is stopped and restarted; ticks are numbered
    consecutively. *)
Theorem task_fires_at_its_tick ls0 s es0 id t s1 ls s2 es :
  zlen ls0 + zlen ls < 2 ^ 64 → Forall label_ok ls0 →
  ev_run exec init ls0 = Some (s, es0) → gone s id → at_ s = AtTick ∨ at_ s = Sleeping →
  1 ≤ next_fire_duration_ms t ≤ TIMER_MAX_INTERVAL_MS → 0 ≤ remainder_interval_ms t < 512 →
  exec s (Add id t) = Some (s1, None) →
  Forall label_ok ls → Forall (not_about id) ls → ev_run exec s1 ls = Some (s2, es) →
  ticks_from (tick_count_ (wheel s)) es ∧
  ∀ i fired, (i, fired) ∈ es →
    filter (λ x, x = id) fired = if decide (i = position s + ticks_of t) then [id] else [].
Proof.
  intros Hb Hok0 Hr0 Hg Hat Hn Hrem Hadd Hok Hna Hr. unfold zlen in Hb.
  destruct (run_wf ls0 s es0 Hok0 Hr0) as [Hwf [H0 H1]]; [unfold zlen; lia|].
  assert (Hl : label_ok (Add id t)) by done.
  pose proof (AddTask_due s id t s1 None Hwf Hl Hg Hat Hrem Hadd) as Hd.
  assert (Htc : tick_count_ (wheel s1) = tick_count_ (wheel s)).
  { simpl in Hadd. destruct (_ || _); [|done].
    destruct (AddTask_place s id t Hwf Hl) as (w' & t' & E & _ & _ & Htc & _).
    rewrite E in Hadd. by simplify_eq. }
  unfold zlen in H1.
  destruct (run_tracked ls s1 s2 es id (exec_wf _ _ _ _ Hwf Hl Hadd) Hok Hna) as (H2 & _ & H3);
    [lia|unfold zlen; lia|done|].
  rewrite Htc in H2. split; [done|]. by apply H3.
Qed.

(** Evaluating that a task is nowhere. *)
Lemma gone_by_search s id :
  forallb (forallb (λ x, negb (x =? id)%nat)) (work_wheel_ (wheel s) ++ assistant_wheel_ (wheel s)) = true →
  gone s id.
Proof.
  intros H. rewrite forallb_app, andb_true_iff, !forallb_forall in H. destruct H as [H1 H2].
  assert (Hb : ∀ b : list nat, forallb (λ x, negb (x =? id)%nat) b = true → occ b id = []).
  { intros b Hb. unfold occ. induction b as [|x b IH]; [done|]. simpl in Hb.
    apply andb_true_iff in Hb as [Hx Hb]. rewrite filter_cons, decide_False; [by apply IH|].
    intros ->. by rewrite Nat.eqb_refl in Hx. }
  assert (Hin : ∀ wl j, (∀ b : list nat, In b wl → forallb (λ x, negb (x =? id)%nat) b = true) →
    occ (bucket wl j) id = []).
  { intros wl j Hwl. unfold bucket, zget. case_decide; [|done].
    destruct (wl !! Z.to_nat j) as [b|] eqn:E; [|done]. apply Hb, Hwl.
    apply list_elem_of_In. by eapply list_elem_of_lookup_2. }
  split; intros; simpl; by apply Hin.
Qed.

Definition every_ms (ms : Z) : TimerTask := mkTask ms 0 ms 0 0.

(** A delay of 1100 ms needs more than a lap: task 7 is posted at tick 550. *)
Lemma task_fires_at_its_tick_witness :
  ∃ s1 s2 es, exec init (Add 7 (every_ms 1100)) = Some (s1, None) ∧
  ev_run exec s1 (Add 8 (every_ms 20) :: replicate 1110 Step) = Some (s2, es) ∧
  length es = 554%nat ∧ ticks_from 0 es ∧
  ∀ i fired, (i, fired) ∈ es →
    filter (λ x, x = 7%nat) fired = if decide (i = 550) then [7%nat] else [].
Proof.
  eexists. destruct (ev_run exec (mkState (AddTask (set_running (wheel init) true) 7 (every_ms 1100) 0).1
    {[ 7%nat := (AddTask (set_running (wheel init) true) 7 (every_ms 1100) 0).2 ]} AtTick)
    (Add 8 (every_ms 20) :: replicate 1110 Step)) as [[s2 es]|] eqn:E; [|vm_compute in E; discriminate E].
  exists s2, es. split; [reflexivity|]. split; [exact E|].
  split; [vm_compute in E; injection E as _ <-; vm_compute; reflexivity|].
  apply (task_fires_at_its_tick [] init [] 7 (every_ms 1100) _
    (Add 8 (every_ms 20) :: replicate 1110 Step) s2 es) in E; [exact E|..].
  - unfold zlen. rewrite length_cons, length_replicate. simpl. lia.
  - constructor.
  - reflexivity.
  - apply gone_by_search. vm_compute. reflexivity.
  - by left.
  - vm_compute. split; discriminate.
  - vm_compute. split; [discriminate|reflexivity].
  - reflexivity.
  - constructor; [vm_compute; split; discriminate|]. by apply Forall_replicate.
  - constructor; [done|]. by apply Forall_replicate.
Defined.

(** The ticker has run for one lap and has just advanced the work index to 0. *)
Definition first_lap : list label := Add 0 (every_ms 2) :: replicate 1023 Step ++ [Step].

(** Property: [TickFunc] advances the two indices in separate critical sections.  A
    task with a delay of 1024 ms (512 ticks) that is added when the work index
    has wrapped to 0 and the assistant index has not advanced yet is put into
    the assistant bucket that is cascaded immediately afterwards, and is posted
    at the very next tick, 512 ticks too early. *)
Theorem add_between_indices_fires_early :
  ∃ s es0 s2 es, ev_run exec init first_lap = Some (s, es0) ∧ at_ s = NeedAssist ∧
  gone s 7 ∧ ticks_of (every_ms 1024) = 512 ∧
  ev_run exec s (Add 7 (every_ms 1024) :: replicate 3 Step) = Some (s2, es) ∧
  es = [(position s, [7%nat])].
Proof.
  destruct (ev_run exec init first_lap) as [[s es0]|] eqn:E; [|vm_compute in E; discriminate E].
  vm_compute in E. injection E as <- <-.
  eexists _, _, _, _. split; [reflexivity|]. split; [reflexivity|]. split.
  - apply gone_by_search. vm_compute. reflexivity.
  - split; [reflexivity|]. split; vm_compute; reflexivity.
Qed.
