(* ===== verification/Timer.v ===== *)
(** * Timers

    [Timer] ([src/code/cyber/timer/timer.cc]): the options it accepts, the
    wrapped callback that measures how late it runs and schedules the next run,
    and the start/stop state of a timer.  Times are readings of the monotonic
    clock in nanoseconds; [execute_time_ns] and the error are divided as
    doubles and rounded with [llround], which is exact below [2^53]. *)

From S2P Require Import Prelude TimingWheel.

(** [std::llround(static_cast<double>(ns) / 1e6)]: half away from zero. *)
Definition llround_ms (ns : Z) : Z :=
  if 0 <=? ns then (ns + 500000) / 1000000 else - ((- ns + 500000) / 1000000).

Record TimerOption := mkOption { period : Z; oneshot : bool }.

Definition InitTimerTask (opt : TimerOption) : option TimerTask :=
  if period opt =? 0 then None
  else if TIMER_MAX_INTERVAL_MS <=? period opt then None
  else Some (mkTask (period opt) 0 (period opt) 0 0).

(** The callback of a periodic task that ran from [start] to [end_]; the task
    is then added to the wheel again. *)
Definition periodic_callback (task : TimerTask) (start end_ : Z) : TimerTask :=
  let execute_time_ns := u64 (end_ - start) in
  let execute_time_ms := u64 (llround_ms execute_time_ns) in
  let accumulated :=
    if last_execute_time_ns task =? 0 then accumulated_error_ns task
    else i64 (accumulated_error_ns task +
              u64 (u64 (start - last_execute_time_ns task) - u64 (interval_ms task * 1000000))) in
  let next :=
    if interval_ms task <=? execute_time_ms then TIMER_RESOLUTION_MS
    else
      let accumulated_error_ms := llround_ms accumulated in
      if accumulated_error_ms <=? i64 (u64 (interval_ms task - execute_time_ms - TIMER_RESOLUTION_MS))
      then u64 (u64 (interval_ms task - execute_time_ms) - accumulated_error_ms)
      else TIMER_RESOLUTION_MS in
  mkTask (interval_ms task) (remainder_interval_ms task) next accumulated start.

(** A task after a sequence of runs. *)
Definition runs (task : TimerTask) (rs : list (Z * Z)) : TimerTask :=
  fold_left (λ t r, periodic_callback t r.1 r.2) rs task.

Lemma llround_ms_close ns : Z.abs (ns - 1000000 * llround_ms ns) ≤ 500000.
Proof.
  unfold llround_ms. destruct (Z.leb_spec 0 ns); Z.to_euclidean_division_equations; lia.
Qed.

Lemma llround_ms_nonneg ns : 0 ≤ ns → 0 ≤ llround_ms ns ≤ ns.
Proof.
  intros. unfold llround_ms. rewrite (proj2 (Z.leb_le 0 ns)) by done.
  Z.to_euclidean_division_equations. lia.
Qed.

(** Clock readings of a sequence of runs, each after the previous one. *)
Inductive readings : Z → list (Z * Z) → Prop :=
| readings_nil t : readings t []
| readings_cons t s e rs : t < s → s ≤ e < 2 ^ 61 → readings e rs → readings t ((s, e) :: rs).

Lemma readings_snoc t rs s e : readings t (rs ++ [(s, e)]) →
  readings t rs ∧ t < s ∧ s ≤ e < 2 ^ 61 ∧ (∀ r, r ∈ rs → t < r.1 ∧ r.2 < s).
Proof.
  revert t. induction rs as [|[s0 e0] rs IH]; intros t; simpl; intros Hr; inversion Hr; subst.
  - split; [constructor|]. split; [done|]. split; [done|]. by intros r ?%elem_of_nil.
  - match goal with H : readings e0 _ |- _ => apply IH in H as (R1 & R2 & R3 & R4) end.
    split; [by constructor|]. split; [lia|]. split; [done|].
    intros r [->|Hin]%elem_of_cons; [simpl; lia|]. apply R4 in Hin. lia.
Qed.

Lemma periodic_error task start end_ first k :
  accumulated_error_ns task = last_execute_time_ns task - first - k * (interval_ms task * 1000000) →
  0 < first → first ≤ last_execute_time_ns task → last_execute_time_ns task < start → start < 2 ^ 61 →
  0 ≤ k → 0 ≤ interval_ms task → (k + 1) * (interval_ms task * 1000000) < 2 ^ 61 →
  accumulated_error_ns (periodic_callback task start end_) =
    start - first - (k + 1) * (interval_ms task * 1000000).
Proof.
  intros Ha Hf Hfl Hls Hs Hk Hi Hb. unfold periodic_callback. cbn [accumulated_error_ns].
  destruct (Z.eqb_spec (last_execute_time_ns task) 0); [lia|].
  rewrite wrap_sub_l, wrap_sub_r.
  rewrite <- (swrap_wrap 64 (_ + _)), wrap_add_r, swrap_wrap.
  rewrite Ha, swrap_small; [nia|lia|]. split; nia.
Qed.

Definition on_schedule (task : TimerTask) (s e : Z) (acc : Z) : Prop :=
  llround_ms (e - s) < interval_ms task ∧
  llround_ms acc ≤ interval_ms task - llround_ms (e - s) - TIMER_RESOLUTION_MS.

Lemma periodic_next task s e :
  0 < s ≤ e → e < 2 ^ 61 → 1 ≤ interval_ms task ≤ 2 ^ 32 →
  let t := periodic_callback task s e in
  - 2 ^ 62 < accumulated_error_ns t < 2 ^ 62 →
  next_fire_duration_ms t =
    if decide (on_schedule task s e (accumulated_error_ns t))
    then interval_ms task - llround_ms (e - s) - llround_ms (accumulated_error_ns t)
    else TIMER_RESOLUTION_MS.
Proof.
  intros Hse He Hi t Hacc. subst t. unfold periodic_callback in *.
  cbn [accumulated_error_ns next_fire_duration_ms] in *.
  set (acc := if last_execute_time_ns task =? 0 then _ else _) in *.
  pose proof (llround_ms_nonneg (e - s) ltac:(lia)) as Hx.
  pose proof (llround_ms_close acc) as Hy. change TIMER_RESOLUTION_MS with 2.
  rewrite (wrap_small 64 (e - s)) by wordlia.
  rewrite (wrap_small 64 (llround_ms (e - s))) by wordlia.
  set (x := llround_ms (e - s)) in *. set (y := llround_ms acc) in *.
  unfold on_schedule. fold x y. change TIMER_RESOLUTION_MS with 2.
  rewrite swrap_wrap, swrap_small by (unfold in_s; lia).
  destruct (Z.leb_spec (interval_ms task) x).
  - rewrite decide_False by lia. done.
  - destruct (Z.leb_spec y (interval_ms task - x - 2)).
    + rewrite decide_True by lia. rewrite wrap_sub_l, wrap_small by wordlia. lia.
    + rewrite decide_False by lia. done.
Qed.

Lemma InitTimerTask_fields opt task :
  InitTimerTask opt = Some task → 0 ≤ period opt →
  interval_ms task = period opt ∧ 1 ≤ period opt < 65536 ∧ last_execute_time_ns task = 0 ∧
  accumulated_error_ns task = 0.
Proof.
  unfold InitTimerTask. change TIMER_MAX_INTERVAL_MS with 65536. intros Ho Hp.
  destruct (Z.eqb_spec (period opt) 0); [done|].
  destruct (Z.leb_spec 65536 (period opt)); [done|]. simplify_eq. simpl. lia.
Qed.

(** The start of run [k] on the ideal schedule. *)
Definition ideal_start (first interval k : Z) : Z := first + k * (interval * 1000000).

(** Before a run that starts at [u]: the error is that of the last run. *)
Lemma runs_error task first e0 l : ∀ u v,
  1 ≤ interval_ms task < 65536 → last_execute_time_ns task = 0 → accumulated_error_ns task = 0 →
  readings 0 ((first, e0) :: l ++ [(u, v)]) → (zlen l + 2) * (interval_ms task * 1000000) < 2 ^ 61 →
  let t := runs task ((first, e0) :: l) in
  interval_ms t = interval_ms task ∧
  accumulated_error_ns t = last_execute_time_ns t - ideal_start first (interval_ms task) (zlen l) ∧
  0 < first ≤ last_execute_time_ns t ∧ last_execute_time_ns t < u ∧ u ≤ v < 2 ^ 61.
Proof.
  unfold ideal_start.
  induction l as [|[s1 e1] l IH] using rev_ind; intros u v Hp Hl0 Ha0 Hr Hb.
  - simpl. rewrite Hl0. simpl. split; [done|].
    inversion Hr as [|? ? ? ? H1 H2 H3]; subst. inversion H3; subst. unfold zlen. simpl. lia.
  - assert (Hlen : zlen (l ++ [(s1, e1)]) = zlen l + 1) by (unfold zlen; rewrite length_app; simpl; lia).
    rewrite Hlen in *. pose proof (zlen_nonneg l) as Hz.
    change ((first, e0) :: (l ++ [(s1, e1)]) ++ [(u, v)]) with
      (((first, e0) :: l ++ [(s1, e1)]) ++ [(u, v)]) in Hr.
    apply readings_snoc in Hr as (Hr & Hu & Huv & Hall).
    destruct (IH s1 e1 Hp Hl0 Ha0 Hr) as (I1 & I2 & I3 & I4 & I5); [nia|].
    unfold runs in *. rewrite app_comm_cons, fold_left_app in *. cbn [fold_left fst snd].
    set (t := fold_left _ _ _) in *. split; [done|].
    assert (Hs : s1 < u).
    { assert (Hin : (s1, e1) ∈ ((first, e0) :: l) ++ [(s1, e1)]) by set_solver.
      apply Hall in Hin. simpl in Hin. lia. }
    split; [|simpl; lia]. rewrite (periodic_error t s1 e1 first (zlen l)); [simpl; rewrite I1; lia|..];
      try lia; rewrite ?I1; nia.
Qed.

(** C31: a periodic timer does not drift: after any sequence of runs its
    accumulated error is the lateness of the last run with respect to the
    ideal schedule (first start plus a multiple of the interval).  When the
    run and the error leave room, the next run is scheduled within 1 ms of its
    ideal start; otherwise one tick later.  The next duration is never less
    than the wheel's resolution. *)
Theorem periodic_timer_does_not_drift opt task first e0 rs s e :
  InitTimerTask opt = Some task → 0 ≤ period opt →
  readings 0 ((first, e0) :: rs ++ [(s, e)]) →
  (zlen rs + 2) * (period opt * 1000000) < 2 ^ 61 →
  let t := runs task ((first, e0) :: rs ++ [(s, e)]) in
  let ideal k := first + k * (period opt * 1000000) in
  let k := zlen rs + 1 in
  accumulated_error_ns t = s - ideal k ∧
  (on_schedule t s e (accumulated_error_ns t) →
     Z.abs (e + next_fire_duration_ms t * 1000000 - ideal (k + 1)) ≤ 1000000) ∧
  (¬ on_schedule t s e (accumulated_error_ns t) → next_fire_duration_ms t = TIMER_RESOLUTION_MS) ∧
  TIMER_RESOLUTION_MS ≤ next_fire_duration_ms t.
Proof.
  intros Ho Hp0 Hr Hb t ideal k. destruct (InitTimerTask_fields opt task Ho Hp0) as (Hi & Hp & Hl0 & Ha0).
  destruct (runs_error task first e0 rs s e) as (I1 & I2 & I3 & I4 & I5); rewrite ?Hi; try done.
  rewrite Hi in I1, I2. unfold ideal_start in I2.
  subst t. unfold runs in *. rewrite app_comm_cons, fold_left_app in *. cbn [fold_left fst snd].
  set (t := fold_left _ _ _) in *. pose proof (zlen_nonneg rs) as Hz.
  assert (Hacc : accumulated_error_ns (periodic_callback t s e) = s - ideal k).
  { rewrite (periodic_error t s e first (zlen rs)); [rewrite I1; unfold ideal, k; lia|..];
      rewrite ?I1, ?I2; unfold ideal; try lia; nia. }
  assert (Hrange : 0 ≤ k * (period opt * 1000000) < 2 ^ 61) by (unfold k; nia).
  pose proof (periodic_next t s e ltac:(lia) ltac:(lia) ltac:(lia)) as Hnext. cbv zeta in Hnext.
  rewrite Hnext by (rewrite Hacc; unfold ideal; lia). clear Hnext.
  split; [done|].
  assert (Hon : on_schedule (periodic_callback t s e) s e (accumulated_error_ns (periodic_callback t s e))
    ↔ on_schedule t s e (accumulated_error_ns (periodic_callback t s e))) by done.
  rewrite Hon. rewrite Hacc. pose proof (llround_ms_close (s - ideal k)) as C1.
  pose proof (llround_ms_close (e - s)) as C2. case_decide as Hsch.
  - split; [|split; [done|]].
    + intros _. rewrite I1. unfold ideal in *. unfold k in *. lia.
    + destruct Hsch as [_ Hsch]. lia.
  - split; [done|]. split; [done|lia].
Qed.

(** A 100 ms timer whose third run starts 3 ms late is scheduled back. *)
Lemma periodic_timer_does_not_drift_witness :
  ∃ task, InitTimerTask (mkOption 100 false) = Some task ∧
  let t := runs task ((1000000000, 1000500000) :: [(1100000000, 1101000000)] ++ [(1203000000, 1205000000)]) in
  next_fire_duration_ms t = 95 ∧ accumulated_error_ns t = 1203000000 - (1000000000 + 2 * (100 * 1000000)).
Proof.
  exists (mkTask 100 0 100 0 0). split; [reflexivity|]. split; [vm_compute; reflexivity|].
  pose proof (periodic_timer_does_not_drift (mkOption 100 false) (mkTask 100 0 100 0 0)
    1000000000 1000500000 [(1100000000, 1101000000)] 1203000000 1205000000 eq_refl) as H.
  apply H; [simpl; lia| |vm_compute; reflexivity].
  repeat (constructor; [lia|lia|]). constructor.
Defined.

(** ** Starting and stopping *)

(** [task_] holds the only strong reference to the current task. *)
Record Timer := mkTimer {
  timer_opt_ : TimerOption;
  started_ : bool;
  task_ : option TimerTask;
}.

Definition Timer_new (opt : TimerOption) : Timer := mkTimer opt false None.

Definition SetTimerOption (opt : TimerOption) (t : Timer) : Timer :=
  mkTimer opt (started_ t) (task_ t).

(** [Start]: the new state and the task given to the wheel, if any. *)
Definition Start (reality_mode : bool) (t : Timer) : Timer * option TimerTask :=
  if negb reality_mode then (t, None)
  else if started_ t then (t, None)
  else
    match InitTimerTask (timer_opt_ t) with
    | Some task => (mkTimer (timer_opt_ t) true (Some task), Some task)
    | None => (mkTimer (timer_opt_ t) true (task_ t), None)
    end.

Definition Stop (t : Timer) : Timer :=
  match started_ t, task_ t with
  | true, Some _ => mkTimer (timer_opt_ t) false None
  | _, _ => mkTimer (timer_opt_ t) false (task_ t)
  end.

Inductive timer_op := OpSet (opt : TimerOption) | OpStart | OpStop.

Definition timer_exec (t : Timer) (o : timer_op) : option (Timer * option TimerTask) :=
  match o with
  | OpSet opt => Some (SetTimerOption opt t, None)
  | OpStart => Some (Start true t)
  | OpStop => Some (Stop t, None)
  end.

Definition valid_option (opt : TimerOption) : Prop :=
  1 ≤ period opt < TIMER_MAX_INTERVAL_MS.

Lemma InitTimerTask_spec opt : 0 ≤ period opt →
  InitTimerTask opt =
  if decide (valid_option opt) then Some (mkTask (period opt) 0 (period opt) 0 0) else None.
Proof.
  intros H0. unfold InitTimerTask, valid_option. destruct (Z.eqb_spec (period opt) 0).
  - by rewrite decide_False by lia.
  - destruct (Z.leb_spec TIMER_MAX_INTERVAL_MS (period opt)).
    + by rewrite decide_False by lia.
    + by rewrite decide_True by lia.
Qed.

(** A task exists only while the timer is started. *)
Lemma timer_task_started opt ops t es :
  ev_run timer_exec (Timer_new opt) ops = Some (t, es) → is_Some (task_ t) → started_ t = true.
Proof.
  intros Hr. eapply (ev_run_invariant timer_exec (λ t, is_Some (task_ t) → started_ t = true));
    [|..|exact Hr]; [by intros [? [=]]|].
  intros a [opt'| |] b e Ha Hs; simpl in Hs; simplify_eq; try done.
  - unfold Start in Hs. simpl in Hs. destruct (started_ a) eqn:E; simplify_eq; [done|].
    destruct (InitTimerTask _); by simplify_eq.
  - unfold Stop. destruct (started_ a), (task_ a); simpl; intros [? [=]]. naive_solver.
Qed.

(** Property: a timer hands a task to the wheel exactly when it is started from the
    stopped state with a period from 1 ms to below [TIMER_MAX_INTERVAL_MS];
    a second [Start] adds nothing, and [Stop] drops the last reference to the
    task, so that the wheel cannot run it any more.  A [Start] that rejects
    the period still counts as started: a later [Start] with a valid period
    adds nothing until the timer is stopped. *)
Theorem timer_start_stop opt ops t es opt' :
  ev_run timer_exec (Timer_new opt) ops = Some (t, es) → 0 ≤ period opt' →
  let ready := SetTimerOption opt' (Stop t) in
  task_ (Stop t) = None ∧ started_ (Stop t) = false ∧
  (Start true ready).2 =
    (if decide (valid_option opt') then Some (mkTask (period opt') 0 (period opt') 0 0) else None) ∧
  task_ (Start true ready).1 = (Start true ready).2 ∧
  (∀ opt'', (Start true (SetTimerOption opt'' (Start true ready).1)).2 = None) ∧
  Start false ready = (ready, None).
Proof.
  intros Hr Hp ready. pose proof (timer_task_started opt ops t es Hr) as Hts.
  assert (Hs : Stop t = mkTimer (timer_opt_ t) false None).
  { unfold Stop. destruct (started_ t), (task_ t); try done. by specialize (Hts (mk_is_Some _ _ eq_refl)). }
  subst ready. rewrite Hs. simpl. unfold Start. simpl. rewrite InitTimerTask_spec by done.
  by case_decide.
Qed.

Lemma timer_start_stop_witness :
  ∃ t es, ev_run timer_exec (Timer_new (mkOption 0 false)) [OpStart; OpSet (mkOption 50 true); OpStart]
    = Some (t, es) ∧ es = [] ∧
  (Start true (SetTimerOption (mkOption 50 true) (Stop t))).2 = Some (mkTask 50 0 50 0 0).
Proof.
  eexists. eexists. split; [vm_compute; reflexivity|]. split; [reflexivity|].
  apply (timer_start_stop (mkOption 0 false) [OpStart; OpSet (mkOption 50 true); OpStart] _ []
    (mkOption 50 true)); [vm_compute; reflexivity|simpl; lia].
Defined.
