(* ===== verification/Signal.v ===== *)
(** * Signals and slots

    [Signal], [Connection] and [Slot] of [src/code/cyber/base/signal.h].  A
    slot is named by the number of its connection; a slot that is not in
    [slots_] any more has been disconnected (that is how it left the list), so
    the list is the whole state.  An emission takes a copy of the list and
    calls the slots one by one without the lock; the functions it calls, and
    other threads, may connect and disconnect in between. *)

From S2P Require Import Prelude.

Lemma Forall_filter_keep {A} (P Q : A → Prop) `{!∀ x, Decision (Q x)} (l : list A) :
  Forall P l → Forall P (filter Q l).
Proof. rewrite !Forall_forall. intros Hall x [_ Hx]%list_elem_of_filter. by apply Hall. Qed.

Section Signal.
Context {CB : Type}.

Record Slot := mkSlot { slot_id : nat; cb_ : CB; connected_ : bool }.

Record Signal := mkSignal { slots_ : list Slot; next_slot : nat }.

Definition Signal_new : Signal := mkSignal [] 0.

(** [Connect]: the connection is the slot's number. *)
Definition Connect (sig : Signal) (cb : CB) : nat * Signal :=
  (next_slot sig, mkSignal (slots_ sig ++ [mkSlot (next_slot sig) cb true]) (S (next_slot sig))).

Definition ClearDisconnectedSlots (sig : Signal) : Signal :=
  mkSignal (filter (λ s, connected_ s = true) (slots_ sig)) (next_slot sig).

Definition Slot_Disconnect (s : Slot) : Slot := mkSlot (slot_id s) (cb_ s) false.

Definition HasSlot (conn : nat) (s : Slot) : bool := (conn =? slot_id s)%nat.

Definition Disconnect (sig : Signal) (conn : nat) : bool * Signal :=
  let find := existsb (HasSlot conn) (slots_ sig) in
  let sig' := mkSignal ((λ s, if HasSlot conn s then Slot_Disconnect s else s) <$> slots_ sig)
                (next_slot sig) in
  (find, if find then ClearDisconnectedSlots sig' else sig').

Definition DisconnectAllSlots (sig : Signal) : Signal := mkSignal [] (next_slot sig).

(** [Connection::IsConnected]. *)
Definition IsConnected (sig : Signal) (conn : nat) : bool :=
  existsb (λ s, HasSlot conn s && connected_ s) (slots_ sig).

(** One slot of the local copy: [Slot::operator()]. *)
Definition call_slot (sig : Signal) (id : nat) : option CB :=
  match list_find (λ s, slot_id s = id) (slots_ sig) with
  | Some (_, s) => if connected_ s then Some (cb_ s) else None
  | None => None
  end.

(** [operator()] without interference: the callbacks run, and the new state. *)
Definition Emit (sig : Signal) : list CB * Signal :=
  (omap (call_slot sig) (slot_id <$> slots_ sig), ClearDisconnectedSlots sig).

(** ** Emissions in progress *)

(** [running] maps a thread (or a nested call) to the rest of its copy. *)
Record state := mkState { sig : Signal; running : gmap nat (list nat) }.

Inductive label :=
| LConnect (cb : CB) | LDisconnect (conn : nat) | LDisconnectAll
| LEmit (t : nat)    (* copy the list *)
| LCall (t : nat).   (* call the next slot, or clear and return *)

Inductive event :=
| EvConnect (conn : nat) | EvDisconnect (conn : nat) (found : bool) | EvDisconnectAll
| EvCall (t conn : nat) (cb : CB).

Definition exec (s : state) (l : label) : option (state * option event) :=
  match l with
  | LConnect cb =>
      let '(c, g) := Connect (sig s) cb in Some (mkState g (running s), Some (EvConnect c))
  | LDisconnect conn =>
      let '(r, g) := Disconnect (sig s) conn in
      Some (mkState g (running s), Some (EvDisconnect conn r))
  | LDisconnectAll =>
      Some (mkState (DisconnectAllSlots (sig s)) (running s), Some EvDisconnectAll)
  | LEmit t =>
      match running s !! t with
      | None => Some (mkState (sig s) (<[t := slot_id <$> slots_ (sig s)]> (running s)), None)
      | Some _ => None
      end
  | LCall t =>
      match running s !! t with
      | None => None
      | Some [] =>
          Some (mkState (ClearDisconnectedSlots (sig s)) (delete t (running s)), None)
      | Some (id :: rest) =>
          Some (mkState (sig s) (<[t := rest]> (running s)),
                match call_slot (sig s) id with Some cb => Some (EvCall t id cb) | None => None end)
      end
  end.

Definition init : state := mkState Signal_new ∅.

(** ** The specification: the live connections, oldest first *)

Record spec := mkSpec { live : list (nat * CB); fresh : nat }.

Inductive spec_step : spec → event → spec → Prop :=
| spec_connect lv n cb : spec_step (mkSpec lv n) (EvConnect n) (mkSpec (lv ++ [(n, cb)]) (S n))
| spec_disconnect lv n c :
    spec_step (mkSpec lv n) (EvDisconnect c (bool_decide (c ∈ lv.*1)))
      (mkSpec (filter (λ e, e.1 ≠ c) lv) n)
| spec_all lv n : spec_step (mkSpec lv n) EvDisconnectAll (mkSpec [] n)
| spec_call lv n t c cb : (c, cb) ∈ lv → spec_step (mkSpec lv n) (EvCall t c cb) (mkSpec lv n).

Definition entry (s : Slot) : nat * CB := (slot_id s, cb_ s).

(** Between operations every slot of the list is connected. *)
Record ok (g : Signal) : Prop := {
  ok_connected : Forall (λ s, connected_ s = true) (slots_ g);
  ok_nodup : NoDup (slot_id <$> slots_ g);
  ok_fresh : Forall (λ s, (slot_id s < next_slot g)%nat) (slots_ g);
}.

Definition abs (g : Signal) : spec := mkSpec (entry <$> slots_ g) (next_slot g).

Lemma Clear_ok g : ok g → ClearDisconnectedSlots g = g.
Proof.
  intros [Hc _ _]. unfold ClearDisconnectedSlots. destruct g as [l n]. simpl in *. f_equal.
  induction Hc as [|s l Hs Hl IH]; [done|]. by rewrite filter_cons, decide_True, IH.
Qed.

Lemma Connect_ok g cb : ok g →
  ok (Connect g cb).2 ∧ spec_step (abs g) (EvConnect (Connect g cb).1) (abs (Connect g cb).2).
Proof.
  intros [Hc Hn Hf]. split.
  - split; simpl.
    + apply Forall_app. split; [done|]. by repeat constructor.
    + rewrite fmap_app. apply NoDup_app. split; [done|]. split; [|apply NoDup_singleton].
      intros i Hi Hi'. simpl in Hi'. apply list_elem_of_singleton in Hi'. subst.
      apply list_elem_of_fmap in Hi as (s & E & Hs). rewrite Forall_forall in Hf.
      apply Hf in Hs. lia.
    + apply Forall_app. split; [eapply Forall_impl; [exact Hf|simpl; lia]|].
      by repeat constructor.
  - unfold abs. simpl. rewrite fmap_app. apply spec_connect.
Qed.

Lemma Disconnect_slots g c : ok g →
  slots_ (Disconnect g c).2 = filter (λ s, slot_id s ≠ c) (slots_ g) ∧
  next_slot (Disconnect g c).2 = next_slot g ∧
  (Disconnect g c).1 = bool_decide (c ∈ slot_id <$> slots_ g).
Proof.
  intros [Hc Hn _]. unfold Disconnect. set (found := existsb _ _).
  assert (Hfound : found = bool_decide (c ∈ slot_id <$> slots_ g)).
  { subst found. apply Bool.eq_iff_eq_true. rewrite existsb_exists, bool_decide_eq_true, list_elem_of_fmap.
    split; intros (s & H1 & H2).
    - exists s. split; [by apply Nat.eqb_eq in H2|by apply list_elem_of_In].
    - exists s. split; [by apply list_elem_of_In|by apply Nat.eqb_eq]. }
  assert (Hslots : filter (λ s, connected_ s = true)
      ((λ s, if HasSlot c s then Slot_Disconnect s else s) <$> slots_ g) =
    filter (λ s, slot_id s ≠ c) (slots_ g)).
  { clear Hfound found. induction Hc as [|s l Hs Hl IH]; [done|].
    rewrite fmap_cons, !filter_cons. rewrite fmap_cons in Hn. apply NoDup_cons in Hn as [_ Hn].
    destruct (HasSlot c s) eqn:E.
    - apply Nat.eqb_eq in E as ->. rewrite decide_False by (simpl; congruence).
      rewrite decide_False by tauto. by apply IH.
    - apply Nat.eqb_neq in E. rewrite decide_True by done. rewrite decide_True by congruence.
      f_equal. by apply IH. }
  split; [|split; [by destruct found|done]].
  destruct found eqn:E; simpl; [done|]. rewrite <- Hslots. symmetry in Hfound.
  apply bool_decide_eq_false in Hfound. clear Hslots Hn E found.
  induction Hc as [|s l Hs Hl IH]; [done|].
  rewrite fmap_cons in Hfound. apply not_elem_of_cons in Hfound as [H1 H2].
  rewrite fmap_cons, filter_cons. destruct (HasSlot c s) eqn:E.
  - by apply Nat.eqb_eq in E.
  - rewrite decide_True by done. f_equal. by apply IH.
Qed.

Lemma Disconnect_ok g c : ok g →
  ok (Disconnect g c).2 ∧
  spec_step (abs g) (EvDisconnect c (Disconnect g c).1) (abs (Disconnect g c).2).
Proof.
  intros Hok. destruct (Disconnect_slots g c Hok) as (H1 & H2 & H3). destruct Hok as [Hc Hn Hf].
  split.
  - split; rewrite ?H1, ?H2.
    + by apply Forall_filter_keep.
    + clear -Hn. induction (slots_ g) as [|s l IH]; [constructor|].
      rewrite fmap_cons in Hn. apply NoDup_cons in Hn as [Hs Hn]. rewrite filter_cons.
      case_decide; [|by apply IH]. rewrite fmap_cons. apply NoDup_cons. split; [|by apply IH].
      intros (s' & E & Hin)%list_elem_of_fmap. apply list_elem_of_filter in Hin as [_ Hin].
      apply Hs. rewrite E. by apply list_elem_of_fmap_2.
    + by apply Forall_filter_keep.
  - unfold abs. rewrite H1, H2, H3.
    assert (Ha : entry <$> filter (λ s, slot_id s ≠ c) (slots_ g) =
                 filter (λ e, e.1 ≠ c) (entry <$> slots_ g)).
    { clear. induction (slots_ g) as [|s l IH]; [done|]. rewrite fmap_cons, !filter_cons.
      cbn [entry fst]. case_decide; [by rewrite fmap_cons, IH|done]. }
    rewrite Ha. assert (Hb : slot_id <$> slots_ g = (entry <$> slots_ g).*1).
    { rewrite <- list_fmap_compose. by apply list_fmap_ext. }
    rewrite Hb. apply spec_disconnect.
Qed.

Lemma call_slot_ok g id cb : ok g → call_slot g id = Some cb ↔ (id, cb) ∈ live (abs g).
Proof.
  intros [Hc Hn _]. unfold call_slot. simpl. rewrite list_elem_of_fmap.
  destruct (list_find _ _) as [[i s]|] eqn:E.
  - apply list_find_Some in E as (Hi & Hid & _).
    assert (Hs : connected_ s = true) by (by eapply Forall_lookup in Hc).
    rewrite Hs. split.
    + intros [= <-]. exists s. split; [unfold entry; by rewrite Hid|by eapply list_elem_of_lookup_2].
    + intros (s' & E' & Hin). unfold entry in E'. simplify_eq.
      apply list_elem_of_lookup_1 in Hin as [j Hj]. assert (i = j) as <-; [|congruence].
      apply (NoDup_lookup _ i j (slot_id s) Hn); rewrite list_lookup_fmap, ?Hi, ?Hj; simpl; congruence.
  - apply list_find_None in E. split; [done|]. intros (s & E' & Hin). unfold entry in E'. simplify_eq.
    rewrite Forall_forall in E. by destruct (E s Hin).
Qed.

Lemma Emit_ok g : ok g → Emit g = ((live (abs g)).*2, g).
Proof.
  intros Hok. unfold Emit. rewrite Clear_ok by done. f_equal. simpl.
  assert (H : ∀ l, (∀ s, s ∈ l → s ∈ slots_ g) →
    omap (call_slot g) (slot_id <$> l) = (entry <$> l).*2).
  { induction l as [|s l IH]; intros Hl; [done|]. rewrite !fmap_cons. cbn [omap list_omap].
    assert (E : call_slot g (slot_id s) = Some (cb_ s)).
    { apply call_slot_ok; [done|]. simpl. change (slot_id s, cb_ s) with (entry s).
      apply list_elem_of_fmap_2, Hl. by left. }
    rewrite E. f_equal. apply IH. intros s' Hs'. apply Hl. by right. }
  by apply H.
Qed.

Lemma exec_ok s l s' e : ok (sig s) → exec s l = Some (s', e) →
  match e with
  | None => ok (sig s') ∧ abs (sig s') = abs (sig s)
  | Some x => ok (sig s') ∧ spec_step (abs (sig s)) x (abs (sig s'))
  end.
Proof.
  intros Hok Hx. destruct l as [cb|conn| |t|t]; simpl in Hx.
  - pose proof (Connect_ok (sig s) cb Hok). by simplify_eq/=.
  - injection Hx as <- <-. exact (Disconnect_ok (sig s) conn Hok).
  - simplify_eq. split; [by repeat constructor|]. simpl. unfold abs. simpl. apply spec_all.
  - by destruct (running s !! t); simplify_eq/=.
  - destruct (running s !! t) as [[|id rest]|]; simplify_eq/=; [by rewrite Clear_ok|].
    destruct (call_slot (sig s) id) as [cb|] eqn:E; [|done]. split; [done|].
    destruct (abs (sig s)) as [lv n] eqn:Ea. apply spec_call.
    change lv with (live (mkSpec lv n)). rewrite <- Ea. by apply call_slot_ok.
Qed.

Lemma signal_run ls s es : ev_run exec init ls = Some (s, es) →
  ok (sig s) ∧ trace spec_step (mkSpec [] 0) es (abs (sig s)).
Proof.
  intros Hr. destruct (ev_simulation exec spec_step (λ s a, ok (sig s) ∧ abs (sig s) = a)
    ) with (s := init) (ls := ls) (s' := s) (es := es) (a := mkSpec [] 0) as (a & Ht & Hok & <-);
    [|split; [by repeat constructor|done]|done|done].
  intros s0 l s1 e a [Hok <-] Hx. pose proof (exec_ok s0 l s1 e Hok Hx) as H.
  destruct e; [destruct H; eauto|done].
Qed.
End Signal.

Arguments Signal : clear implicits.
Arguments Slot : clear implicits.

(** Property: however emissions, connections and disconnections are interleaved
    (by threads or by the called functions themselves), a signal is a run of
    its specification: a slot is called only while its connection is live, a
    disconnected one never again, [Disconnect] reports whether the connection
    was live; and an emission without interference calls exactly the live
    callbacks, in the order of their connection. *)
Theorem signal_calls_live_slots {CB} (ls : list (label (CB := CB))) s es :
  ev_run exec init ls = Some (s, es) →
  ∃ lv n, trace spec_step (mkSpec [] 0) es (mkSpec lv n) ∧ NoDup lv.*1 ∧
    Emit (sig s) = (lv.*2, sig s).
Proof.
  intros Hr. destruct (signal_run ls s es Hr) as [Hok Ht].
  exists (live (abs (sig s))), (fresh (abs (sig s))). split; [done|].
  split; [|by apply Emit_ok]. destruct Hok as [_ Hn _]. simpl.
  rewrite <- list_fmap_compose. erewrite list_fmap_ext; [exact Hn|]. done.
Qed.

(** Slot 0 disconnects slot 1 while an emission is under way. *)
Lemma signal_calls_live_slots_witness :
  ∃ s es, ev_run exec init
    [LConnect 10; LConnect 11; LConnect 12; LEmit 1; LCall 1; LDisconnect 1; LCall 1; LCall 1; LCall 1]
    = Some (s, es) ∧
  es = [EvConnect 0; EvConnect 1; EvConnect 2; EvCall 1 0 10; EvDisconnect 1 true; EvCall 1 2 12] ∧
  ∃ lv n, trace spec_step (mkSpec [] 0) es (mkSpec lv n) ∧ NoDup lv.*1 ∧
    Emit (sig s) = (lv.*2, sig s).
Proof.
  eexists. eexists. split; [vm_compute; reflexivity|]. split; [reflexivity|].
  apply (signal_calls_live_slots
    [LConnect 10; LConnect 11; LConnect 12; LEmit 1; LCall 1; LDisconnect 1; LCall 1; LCall 1; LCall 1]).
  vm_compute. reflexivity.
Defined.
