(* ===== verification/Listener.v ===== *)
(** * Listeners of a channel, and the dispatcher's table of them

    [ListenerHandler] ([src/code/cyber/transport/message/listener_handler.h])
    keeps one signal for the readers of a channel and one per opposite writer,
    with the connections by reader; [Dispatcher]
    ([src/code/cyber/transport/dispatcher/dispatcher.h], [dispatcher.cc]) keeps
    a handler per channel in a hash map, used through [KVStore].  The abstract
    specification of both is the list of listeners that should be called. *)

From S2P Require Import Prelude AtomicHashMap Signal.

Section Handler.
Context {L : Type}.

Record ListenerHandler := mkHandler {
  signal_ : Signal L;
  signal_conns_ : gmap Z nat;
  signals_ : gmap Z (Signal L);
  signals_conns_ : gmap Z (gmap Z nat);
}.

Definition ListenerHandler_new : ListenerHandler := mkHandler Signal_new ∅ ∅ ∅.

Definition Connect_all (h : ListenerHandler) (self_id : Z) (listener : L) : ListenerHandler :=
  let '(connection, sig) := Connect (signal_ h) listener in
  if IsConnected sig connection
  then mkHandler sig (<[self_id := connection]> (signal_conns_ h)) (signals_ h) (signals_conns_ h)
  else mkHandler sig (signal_conns_ h) (signals_ h) (signals_conns_ h).

Definition Connect_from (h : ListenerHandler) (self_id oppo_id : Z) (listener : L) : ListenerHandler :=
  let '(connection, sig) := Connect (default Signal_new (signals_ h !! oppo_id)) listener in
  let signals := <[oppo_id := sig]> (signals_ h) in
  if IsConnected sig connection
  then mkHandler (signal_ h) (signal_conns_ h) signals
         (<[oppo_id := <[self_id := connection]> (default ∅ (signals_conns_ h !! oppo_id))]>
            (signals_conns_ h))
  else mkHandler (signal_ h) (signal_conns_ h) signals (signals_conns_ h).

Definition Disconnect_all (h : ListenerHandler) (self_id : Z) : ListenerHandler :=
  match signal_conns_ h !! self_id with
  | None => h
  | Some connection =>
      mkHandler (Disconnect (signal_ h) connection).2 (delete self_id (signal_conns_ h))
        (signals_ h) (signals_conns_ h)
  end.

Definition Disconnect_from (h : ListenerHandler) (self_id oppo_id : Z) : ListenerHandler :=
  match signals_conns_ h !! oppo_id with
  | None => h
  | Some conns =>
      match conns !! self_id with
      | None => h
      | Some connection =>
          mkHandler (signal_ h) (signal_conns_ h)
            (alter (λ sig, (Disconnect sig connection).2) oppo_id (signals_ h))
            (<[oppo_id := delete self_id conns]> (signals_conns_ h))
      end
  end.

(** [Run]: the listeners called for a message of the writer [oppo_id]. *)
Definition Run (h : ListenerHandler) (oppo_id : Z) : list L * ListenerHandler :=
  let '(called, sig) := Emit (signal_ h) in
  match signals_ h !! oppo_id with
  | None => (called, mkHandler sig (signal_conns_ h) (signals_ h) (signals_conns_ h))
  | Some osig =>
      let '(called', osig') := Emit osig in
      (called ++ called',
       mkHandler sig (signal_conns_ h) (<[oppo_id := osig']> (signals_ h)) (signals_conns_ h))
  end.

(** ** The specification: who listens, in the order of connection *)

Record listeners := mkListeners {
  to_all : list (Z * L);            (* reader *)
  to_writer : Z → list (Z * L);     (* by writer: reader *)
}.

Definition no_listeners : listeners := mkListeners [] (λ _, []).

Definition upd (f : Z → list (Z * L)) (k : Z) (v : list (Z * L)) : Z → list (Z * L) :=
  λ k', if decide (k' = k) then v else f k'.

Inductive op :=
| OpConnect (self : Z) (l : L) | OpConnectFrom (self oppo : Z) (l : L)
| OpDisconnect (self : Z) | OpDisconnectFrom (self oppo : Z) | OpRun (oppo : Z).

(** A reader connects only when it is not connected already. *)
Definition spec_exec (a : listeners) (o : op) : option (listeners * option (list L)) :=
  match o with
  | OpConnect self l =>
      if decide (self ∈ (to_all a).*1) then None
      else Some (mkListeners (to_all a ++ [(self, l)]) (to_writer a), None)
  | OpConnectFrom self oppo l =>
      if decide (self ∈ (to_writer a oppo).*1) then None
      else Some (mkListeners (to_all a) (upd (to_writer a) oppo (to_writer a oppo ++ [(self, l)])), None)
  | OpDisconnect self =>
      Some (mkListeners (filter (λ e, e.1 ≠ self) (to_all a)) (to_writer a), None)
  | OpDisconnectFrom self oppo =>
      Some (mkListeners (to_all a)
              (upd (to_writer a) oppo (filter (λ e, e.1 ≠ self) (to_writer a oppo))), None)
  | OpRun oppo => Some (a, Some ((to_all a).*2 ++ (to_writer a oppo).*2))
  end.

Definition exec (h : ListenerHandler) (o : op) : option (ListenerHandler * option (list L)) :=
  match o with
  | OpConnect self l => Some (Connect_all h self l, None)
  | OpConnectFrom self oppo l => Some (Connect_from h self oppo l, None)
  | OpDisconnect self => Some (Disconnect_all h self, None)
  | OpDisconnectFrom self oppo => Some (Disconnect_from h self oppo, None)
  | OpRun oppo => let '(called, h') := Run h oppo in Some (h', Some called)
  end.

(** [tracks g conns ls]: the live slots of [g] are the listeners [ls], and
    [conns] holds the connection of every reader. *)
Definition tracks (g : Signal L) (conns : gmap Z nat) (ls : list (Z * L)) : Prop :=
  ok g ∧ ∃ ts : list (Z * nat * L),
    live (abs g) = (λ t, (t.1.2, t.2)) <$> ts ∧ ls = (λ t, (t.1.1, t.2)) <$> ts ∧
    NoDup ls.*1 ∧ (∀ self c, conns !! self = Some c ↔ ∃ l, (self, c, l) ∈ ts).

Lemma tracks_new : tracks Signal_new ∅ [].
Proof.
  split; [by repeat constructor|]. exists []. split; [done|]. split; [done|]. split; [constructor|].
  intros self c. rewrite lookup_empty. split; [done|]. by intros (l & ?%elem_of_nil).
Qed.

Lemma tracks_emit g conns ls : tracks g conns ls → Emit g = (ls.*2, g).
Proof.
  intros (Hok & ts & Hl & -> & _). rewrite Emit_ok by done. f_equal. rewrite Hl.
  rewrite <- !list_fmap_compose. by apply list_fmap_ext.
Qed.

Lemma Connect_connected (g : Signal L) l :
  IsConnected (Connect g l).2 (Connect g l).1 = true.
Proof.
  unfold IsConnected. apply existsb_exists. exists (mkSlot (next_slot g) l true). split.
  - apply list_elem_of_In. simpl. set_solver.
  - simpl. unfold HasSlot. simpl. by rewrite Nat.eqb_refl.
Qed.

Lemma tracks_connect g conns ls self l :
  tracks g conns ls → self ∉ ls.*1 →
  tracks (Connect g l).2 (<[self := (Connect g l).1]> conns) (ls ++ [(self, l)]).
Proof.
  intros (Hok & ts & Hl & -> & Hnd & Hc) Hni. split; [by apply Connect_ok|].
  exists (ts ++ [(self, next_slot g, l)]). split; [|split; [|split]].
  - unfold abs in *. simpl in *. by rewrite !fmap_app, Hl.
  - by rewrite fmap_app.
  - rewrite fmap_app. apply NoDup_app. split; [done|]. split; [|apply NoDup_singleton].
    simpl. intros x Hx ->%list_elem_of_singleton. done.
  - intros s c. rewrite lookup_insert. simpl. case_decide as E.
    + subst s. split.
      * intros [= <-]. exists l. set_solver.
      * intros [l' Hin]. apply elem_of_app in Hin as [Hin|Hin]; [|set_solver].
        exfalso. apply Hni. rewrite <- list_fmap_compose.
        by apply (list_elem_of_fmap_2 (fst ∘ (λ t : Z * nat * L, (t.1.1, t.2)))) in Hin.
    + rewrite Hc. split; intros [l' Hin]; exists l'; [set_solver|].
      apply elem_of_app in Hin as [Hin|Hin]; [done|]. apply list_elem_of_singleton in Hin. congruence.
Qed.

Lemma tracks_disconnect g conns ls self c :
  tracks g conns ls → conns !! self = Some c →
  tracks (Disconnect g c).2 (delete self conns) (filter (λ e, e.1 ≠ self) ls).
Proof.
  intros (Hok & ts & Hl & -> & Hnd & Hc) Hself.
  split; [by apply Disconnect_ok|].
  assert (Hids : NoDup ((λ t : Z * nat * L, t.1.2) <$> ts)).
  { destruct Hok as [_ Hn _].
    assert (E : slot_id <$> slots_ g = (λ t : Z * nat * L, t.1.2) <$> ts); [|by rewrite <- E].
    assert (E : (live (abs g)).*1 = slot_id <$> slots_ g).
    { simpl. rewrite <- list_fmap_compose. by apply list_fmap_ext. }
    rewrite <- E, Hl, <- list_fmap_compose. by apply list_fmap_ext. }
  assert (Hkey : ∀ t, t ∈ ts → t.1.1 ≠ self ↔ t.1.2 ≠ c).
  { intros [[s c'] l'] Hin. simpl. apply Hc in Hself as [l Hin'].
    apply list_elem_of_lookup_1 in Hin as [i Hi], Hin' as [j Hj]. split; intros Hne ->; apply Hne.
    - assert (i = j) as <-; [|congruence].
      apply (NoDup_lookup _ i j c Hids); by rewrite list_lookup_fmap, ?Hi, ?Hj.
    - rewrite <- list_fmap_compose in Hnd. assert (i = j) as <-; [|congruence].
      apply (NoDup_lookup _ i j self Hnd); by rewrite list_lookup_fmap, ?Hi, ?Hj. }
  exists (filter (λ t, t.1.1 ≠ self) ts). split; [|split; [|split]].
  - destruct (Disconnect_slots g c Hok) as (H1 & _ & _). unfold abs. cbn [live]. rewrite H1.
    assert (Hf : ∀ (us : list (Z * nat * L)) ss, (∀ t, t ∈ us → t ∈ ts) →
       entry <$> ss = (λ t, (t.1.2, t.2)) <$> us →
       entry <$> filter (λ s : Slot L, slot_id s ≠ c) ss =
       (λ t, (t.1.2, t.2)) <$> filter (λ t, t.1.1 ≠ self) us).
    { induction us as [|t us IH]; intros [|s ss] Hin E; try done.
      rewrite !fmap_cons in E. injection E as E1 E2 E.
      specialize (IH ss ltac:(set_solver) E). rewrite !filter_cons.
      assert (Hk := Hkey t ltac:(set_solver)). rewrite <- E1 in Hk.
      destruct (decide (slot_id s ≠ c)) as [Hd|Hd]; destruct (decide (t.1.1 ≠ self)) as [Hd'|Hd'];
        [|tauto|tauto|done].
      rewrite !fmap_cons, IH. unfold entry. by rewrite E1, E2. }
    apply Hf; [done|]. exact Hl.
  - clear. induction ts as [|t ts IH]; [done|]. rewrite fmap_cons, !filter_cons. cbn [fst].
    destruct (decide (t.1.1 ≠ self)); [by rewrite fmap_cons, IH|done].
  - assert (Hsub : ∀ ls : list (Z * L), NoDup ls.*1 → NoDup (filter (λ e, e.1 ≠ self) ls).*1).
    { clear. induction ls as [|e ls IH]; intros Hnd; [constructor|]. rewrite fmap_cons in Hnd.
      apply NoDup_cons in Hnd as [Hni Hnd]. rewrite filter_cons. case_decide; [|by apply IH].
      rewrite fmap_cons. apply NoDup_cons. split; [|by apply IH].
      intros (e' & E & Hin)%list_elem_of_fmap. apply list_elem_of_filter in Hin as [_ Hin].
      apply Hni. rewrite E. by apply list_elem_of_fmap_2. }
    by apply Hsub.
  - intros s c'. rewrite lookup_delete. case_decide as E.
    + subst. split; [done|]. intros (l & Hin). apply list_elem_of_filter in Hin as [Hne _]. done.
    + rewrite Hc. split; intros [l Hin]; exists l.
      * apply list_elem_of_filter. by split.
      * by apply list_elem_of_filter in Hin as [_ Hin].
Qed.

(** The representation relation of a handler. *)
Definition represents (h : ListenerHandler) (a : listeners) : Prop :=
  tracks (signal_ h) (signal_conns_ h) (to_all a) ∧
  ∀ oppo, match signals_ h !! oppo with
          | None => to_writer a oppo = [] ∧ signals_conns_ h !! oppo = None
          | Some g => ∃ conns, signals_conns_ h !! oppo = Some conns ∧ tracks g conns (to_writer a oppo)
          end.

Lemma handler_new_represents : represents ListenerHandler_new no_listeners.
Proof. split; [apply tracks_new|]. intros oppo. simpl. by rewrite !lookup_empty. Qed.

Lemma filter_absent (ls : list (Z * L)) self : self ∉ ls.*1 → filter (λ e, e.1 ≠ self) ls = ls.
Proof.
  induction ls as [|e ls IH]; intros H; [done|]. rewrite fmap_cons in H.
  apply not_elem_of_cons in H as [H1 H2]. rewrite filter_cons, decide_True by congruence.
  by rewrite IH.
Qed.

Lemma tracks_absent g conns ls self : tracks g conns ls → conns !! self = None → self ∉ ls.*1.
Proof.
  intros (_ & ts & _ & -> & _ & Hc) Hn Hin. rewrite <- list_fmap_compose in Hin.
  apply list_elem_of_fmap in Hin as ([[s c] l] & E & Hin). simpl in E. subst.
  assert (conns !! s = Some c) by (apply Hc; eauto). congruence.
Qed.

Lemma handler_exec_represents h a o a' e : represents h a → spec_exec a o = Some (a', e) →
  ∃ h', exec h o = Some (h', e) ∧ represents h' a'.
Proof.
  intros [Hall Hfrom] Ho. destruct o as [self l|self oppo l|self|self oppo|oppo]; simpl in Ho.
  - case_decide as Hin; simplify_eq. eexists. split; [done|]. unfold Connect_all.
    pose proof (tracks_connect _ _ _ self l Hall Hin) as Ht.
    pose proof (Connect_connected (signal_ h) l) as Hconn.
    destruct (Connect (signal_ h) l) as [c g]. simpl in *. rewrite Hconn. by split.
  - case_decide as Hin; simplify_eq. eexists. split; [done|]. unfold Connect_from.
    assert (Ht : ∃ conns, default ∅ (signals_conns_ h !! oppo) = conns ∧
       tracks (default Signal_new (signals_ h !! oppo)) conns (to_writer a oppo)).
    { specialize (Hfrom oppo). destruct (signals_ h !! oppo) as [g|]; simpl.
      - destruct Hfrom as (conns & -> & H). eauto.
      - destruct Hfrom as [-> ->]. simpl. eexists. split; [done|]. apply tracks_new. }
    destruct Ht as (conns & -> & Ht).
    pose proof (tracks_connect _ _ _ self l Ht Hin) as Ht'.
    pose proof (Connect_connected (default Signal_new (signals_ h !! oppo)) l) as Hconn.
    destruct (Connect _ l) as [c g]. simpl in *. rewrite Hconn. split; [done|].
    intros oppo'. specialize (Hfrom oppo'). simpl. unfold upd.
    destruct (decide (oppo' = oppo)) as [->|Hne]; [rewrite !lookup_insert_eq; eauto|].
    by rewrite !lookup_insert_ne.
  - simplify_eq. eexists. split; [done|]. unfold Disconnect_all.
    destruct (signal_conns_ h !! self) as [c|] eqn:E.
    + split; [by apply tracks_disconnect|done].
    + split; [|done]. simpl. rewrite filter_absent; [done|]. by eapply tracks_absent.
  - simplify_eq. eexists. split; [done|]. unfold Disconnect_from.
    pose proof (Hfrom oppo) as Hop. destruct (signals_ h !! oppo) as [g|] eqn:Eg.
    + destruct Hop as (conns & Hcs & Ht). rewrite Hcs.
      destruct (conns !! self) as [c|] eqn:Ec.
      * split; [done|]. intros oppo'. simpl. unfold upd.
        destruct (decide (oppo' = oppo)) as [->|Hne].
        -- rewrite lookup_alter_eq, Eg, lookup_insert_eq. simpl. eexists. split; [done|].
           by apply tracks_disconnect.
        -- rewrite lookup_alter_ne, lookup_insert_ne by done. apply Hfrom.
      * split; [done|]. intros oppo'. simpl. unfold upd.
        destruct (decide (oppo' = oppo)) as [->|Hne]; [|apply Hfrom].
        rewrite Eg. exists conns. split; [done|].
        rewrite filter_absent; [done|]. by eapply tracks_absent.
    + destruct Hop as [Hw Hcs]. rewrite Hcs. split; [done|]. intros oppo'. simpl. unfold upd.
      destruct (decide (oppo' = oppo)) as [->|Hne]; [|apply Hfrom]. rewrite Eg, Hw. done.
  - simplify_eq. unfold exec, Run. rewrite (tracks_emit _ _ _ Hall).
    pose proof (Hfrom oppo) as Hop. destruct (signals_ h !! oppo) as [g|] eqn:Eg.
    + destruct Hop as (conns & Hcs & Ht). rewrite (tracks_emit _ _ _ Ht).
      eexists. split; [done|]. split; [done|]. intros oppo'. simpl. rewrite insert_id by done.
      apply Hfrom.
    + destruct Hop as [-> _]. rewrite app_nil_r. eexists. split; [done|]. by split.
Qed.
End Handler.

Arguments ListenerHandler : clear implicits.
Arguments listeners : clear implicits.

(** Property: as long as no reader connects twice, a handler calls, for every
    message, exactly the listeners that are connected for all writers, in the
    order of their connection, followed by those connected for this writer;
    a listener that was disconnected is not called any more. *)
Theorem handler_calls_connected {L} (ops : list (op (L := L))) a es :
  ev_run spec_exec no_listeners ops = Some (a, es) →
  ∃ h, ev_run exec ListenerHandler_new ops = Some (h, es) ∧ represents h a.
Proof.
  assert (H : ∀ ops (h0 : ListenerHandler L) a0 a es, represents h0 a0 →
    ev_run spec_exec a0 ops = Some (a, es) →
    ∃ h, ev_run exec h0 ops = Some (h, es) ∧ represents h a).
  { clear. induction ops as [|o ops IH]; intros h0 a0 a es Hr Hs; simpl in *.
    - simplify_eq. eauto.
    - destruct (spec_exec a0 o) as [[a1 e]|] eqn:Ho; [|done].
      destruct (ev_run spec_exec a1 ops) as [[a2 es']|] eqn:Hs'; [|done]. simplify_eq.
      destruct (handler_exec_represents h0 a0 o a1 e Hr Ho) as (h1 & -> & Hr1).
      destruct (IH h1 a1 a es' Hr1 Hs') as (h & -> & Hr2). eauto. }
  apply H, handler_new_represents.
Qed.

Lemma handler_calls_connected_witness :
  ∃ h, ev_run exec ListenerHandler_new
    [OpConnect 1 10; OpConnectFrom 2 77 20; OpConnect 3 30; OpRun 77; OpDisconnect 1; OpRun 77; OpRun 5]
    = Some (h, [[10; 30; 20]; [30; 20]; [30]]).
Proof.
  destruct (handler_calls_connected
    [OpConnect 1 10; OpConnectFrom 2 77 20; OpConnect 3 30; OpRun 77; OpDisconnect 1; OpRun 77; OpRun 5]
    _ _ eq_refl) as (h & Hh & _).
  exists h. exact Hh.
Defined.

(** Property: a second [Connect] of the same reader forgets the first connection
    without disconnecting it: after [Disconnect] the first listener is still
    called for every message. *)
Theorem reconnected_listener_is_never_released :
  ∃ h, ev_run exec ListenerHandler_new [OpConnect 1 10; OpConnect 1 11; OpDisconnect 1; OpRun 5]
    = Some (h, [[10]]) ∧ signal_conns_ h = ∅.
Proof. eexists. split; vm_compute; reflexivity. Qed.

(** ** [Dispatcher] *)

Section Dispatcher.
Context {L DM : Type}.
Context `{!KVStore DM (nat * ListenerHandler L), !KVStoreLaws DM (nat * ListenerHandler L)}.

(** A handler carries the tag of its message type, which
    [dynamic_pointer_cast] compares. *)
Record Dispatcher := mkDispatcher { is_shutdown_ : bool; msg_listeners_ : DM }.

Definition Dispatcher_new : Dispatcher := mkDispatcher false kv_empty.

Definition Shutdown (d : Dispatcher) : Dispatcher := mkDispatcher true (msg_listeners_ d).

Definition HasChannel (d : Dispatcher) (channel_id : Z) : bool :=
  match kv_get channel_id (msg_listeners_ d) with Some _ => true | None => false end.

(** The overloads of [Connect]: for all writers, or for one. *)
Definition connect (h : ListenerHandler L) (self : Z) (oppo : option Z) (l : L) : ListenerHandler L :=
  match oppo with Some o => Connect_from h self o l | None => Connect_all h self l end.

Definition disconnect (h : ListenerHandler L) (self : Z) (oppo : option Z) : ListenerHandler L :=
  match oppo with Some o => Disconnect_from h self o | None => Disconnect_all h self end.

(** [AddListener]: the handler is a shared object that is changed in place. *)
Definition AddListener (d : Dispatcher) (ty : nat) (channel_id self : Z) (oppo : option Z) (l : L) :
    Dispatcher :=
  if is_shutdown_ d then d
  else
    match kv_get channel_id (msg_listeners_ d) with
    | Some (ty', _) =>
        if decide (ty' = ty)
        then mkDispatcher false
               (kv_modify channel_id (λ th : nat * ListenerHandler L, (th.1, connect th.2 self oppo l))
                  (msg_listeners_ d))
        else d
    | None =>
        mkDispatcher false
          (kv_set channel_id (ty, connect ListenerHandler_new self oppo l) (msg_listeners_ d))
    end.

Definition RemoveListener (d : Dispatcher) (channel_id self : Z) (oppo : option Z) : Dispatcher :=
  if is_shutdown_ d then d
  else
    match kv_get channel_id (msg_listeners_ d) with
    | Some _ =>
        mkDispatcher false
          (kv_modify channel_id (λ th : nat * ListenerHandler L, (th.1, disconnect th.2 self oppo))
             (msg_listeners_ d))
    | None => d
    end.

(** [OnMessage] of the dispatchers derived from this one, for a message of
    type [ty] from the writer [oppo]: the listeners called. *)
Definition OnMessage (d : Dispatcher) (ty : nat) (channel_id oppo : Z) : list L * Dispatcher :=
  if is_shutdown_ d then ([], d)
  else
    match kv_get channel_id (msg_listeners_ d) with
    | Some (ty', h) =>
        if decide (ty' = ty)
        then ((Run h oppo).1,
              mkDispatcher false
                (kv_modify channel_id (λ th : nat * ListenerHandler L, (th.1, (Run th.2 oppo).2))
                   (msg_listeners_ d)))
        else ([], d)
    | None => ([], d)
    end.

Inductive dispatcher_op :=
| Add (ty : nat) (channel self : Z) (oppo : option Z) (l : L)
| Remove (channel self : Z) (oppo : option Z)
| Message (ty : nat) (channel oppo : Z)
| Down.

Definition dispatcher_exec (d : Dispatcher) (o : dispatcher_op) : option (Dispatcher * option (list L)) :=
  match o with
  | Add ty ch self oppo l => Some (AddListener d ty ch self oppo l, None)
  | Remove ch self oppo => Some (RemoveListener d ch self oppo, None)
  | Message ty ch oppo => let '(called, d') := OnMessage d ty ch oppo in Some (d', Some called)
  | Down => Some (Shutdown d, None)
  end.

(** The specification: the first listener of a channel fixes its type. *)
Record table := mkTable { down : bool; rows : Z → option (nat * listeners L) }.

Definition set_row (t : table) (ch : Z) (r : nat * listeners L) : table :=
  mkTable (down t) (λ c, if decide (c = ch) then Some r else rows t c).

Definition connect_op (self : Z) (oppo : option Z) (l : L) : op :=
  match oppo with Some o => OpConnectFrom self o l | None => OpConnect self l end.

Definition disconnect_op (self : Z) (oppo : option Z) : op (L := L) :=
  match oppo with Some o => OpDisconnectFrom self o | None => OpDisconnect self end.

Definition in_table (t : table) (ch : Z) (ty : nat) (a : listeners L) (o : op) :
    option (table * option (list L)) :=
  match spec_exec a o with
  | Some (a', e) => Some (set_row t ch (ty, a'), e)
  | None => None
  end.

Definition table_exec (t : table) (o : dispatcher_op) : option (table * option (list L)) :=
  match o with
  | Add ty ch self oppo l =>
      if negb (bool_decide (in_u 64 ch)) then None
      else if down t then Some (t, None)
      else match rows t ch with
           | Some (ty', a) =>
               if decide (ty' = ty) then in_table t ch ty' a (connect_op self oppo l) else Some (t, None)
           | None => in_table t ch ty no_listeners (connect_op self oppo l)
           end
  | Remove ch self oppo =>
      if negb (bool_decide (in_u 64 ch)) then None
      else if down t then Some (t, None)
      else match rows t ch with
           | Some (ty', a) => in_table t ch ty' a (disconnect_op self oppo)
           | None => Some (t, None)
           end
  | Message ty ch oppo =>
      if negb (bool_decide (in_u 64 ch)) then None
      else Some (t, Some (if down t then []
                 else match rows t ch with
                      | Some (ty', a) =>
                          if decide (ty' = ty) then (to_all a).*2 ++ (to_writer a oppo).*2 else []
                      | None => []
                      end))
  | Down => Some (mkTable true (rows t), None)
  end.

Definition implements (d : Dispatcher) (t : table) : Prop :=
  is_shutdown_ d = down t ∧ kv_wf (msg_listeners_ d) ∧
  ∀ ch, in_u 64 ch →
    match rows t ch with
    | None => kv_get ch (msg_listeners_ d) = None
    | Some (ty, a) => ∃ h, kv_get ch (msg_listeners_ d) = Some (ty, h) ∧ represents h a
    end.

Lemma connect_exec h self oppo l : exec h (connect_op self oppo l) = Some (connect h self oppo l, None).
Proof. by destruct oppo. Qed.

Lemma disconnect_exec h self oppo :
  exec h (disconnect_op self oppo) = Some (disconnect h self oppo, None).
Proof. by destruct oppo. Qed.

(** Changing the handler of one row. *)
Lemma modify_row d t ch ty h a a' f :
  implements d t → down t = false → in_u 64 ch → rows t ch = Some (ty, a) →
  kv_get ch (msg_listeners_ d) = Some (ty, h) → represents (f h) a' →
  implements (mkDispatcher false (kv_modify ch (λ th : nat * ListenerHandler L, (th.1, f th.2)) (msg_listeners_ d)))
    (set_row t ch (ty, a')).
Proof using Type*.
  intros (Hs & Hwf & Hrows) Hd Hch Hrow Hget Hrep. split; [done|].
  split; [by apply kv_wf_modify|]. intros c Hc. simpl. rewrite kv_get_modify by done.
  destruct (decide (c = ch)) as [->|Hne].
  - rewrite decide_True by done. rewrite Hget. simpl. eauto.
  - rewrite decide_False by congruence. by apply Hrows.
Qed.

Lemma dispatcher_exec_implements d t o t' e : implements d t → table_exec t o = Some (t', e) →
  ∃ d', dispatcher_exec d o = Some (d', e) ∧ implements d' t'.
Proof using Type*.
  intros Hi Ho. pose proof Hi as (Hs & Hwf & Hrows).
  destruct o as [ty ch self oppo l|ch self oppo|ty ch oppo|]; simpl in Ho;
    [destruct (bool_decide (in_u 64 ch)) eqn:Ech; simpl in Ho; [apply bool_decide_eq_true in Ech|done]..|].
  - unfold dispatcher_exec, AddListener. rewrite Hs. destruct (down t) eqn:Ed;
      [simplify_eq; eauto|]. specialize (Hrows ch Ech) as Hrow.
    destruct (rows t ch) as [[ty' a]|] eqn:Er.
    + destruct Hrow as (h & Hget & Hrep). rewrite Hget. case_decide; [|simplify_eq; eauto].
      unfold in_table in Ho. destruct (spec_exec a _) as [[a' e']|] eqn:Es; simplify_eq.
      destruct (handler_exec_represents h a _ a' e Hrep Es) as (h' & Hx & Hrep').
      rewrite connect_exec in Hx. simplify_eq. eexists. split; [reflexivity|].
      by apply (modify_row d t ch ty h a a' (λ h, connect h self oppo l)).
    + rewrite Hrow. unfold in_table in Ho.
      destruct (spec_exec _ _) as [[a' e']|] eqn:Es; simplify_eq.
      destruct (handler_exec_represents ListenerHandler_new _ _ a' e handler_new_represents Es)
        as (h' & Hx & Hrep'). rewrite connect_exec in Hx. simplify_eq. eexists. split; [done|].
      split; [done|]. split; [by apply kv_wf_set|]. intros c Hc. simpl.
      rewrite kv_get_set by done. destruct (decide (c = ch)) as [->|Hne].
      * rewrite decide_True by done. eauto.
      * rewrite decide_False by congruence. by apply Hrows.
  - unfold dispatcher_exec, RemoveListener. rewrite Hs. destruct (down t) eqn:Ed;
      [simplify_eq; eauto|]. specialize (Hrows ch Ech) as Hrow.
    destruct (rows t ch) as [[ty' a]|] eqn:Er; [|rewrite Hrow; simplify_eq; eauto].
    destruct Hrow as (h & Hget & Hrep). rewrite Hget.
    unfold in_table in Ho. destruct (spec_exec a _) as [[a' e']|] eqn:Es; simplify_eq.
    destruct (handler_exec_represents h a _ a' e Hrep Es) as (h' & Hx & Hrep').
    rewrite disconnect_exec in Hx. simplify_eq. eexists. split; [done|].
    by apply (modify_row d t ch ty' h a a' (λ h, disconnect h self oppo)).
  - simplify_eq. unfold dispatcher_exec, OnMessage. rewrite Hs. destruct (down t') eqn:Ed; [eauto|].
    specialize (Hrows ch Ech) as Hrow.
    destruct (rows t' ch) as [[ty' a]|] eqn:Er; [|rewrite Hrow; eauto].
    destruct Hrow as (h & Hget & Hrep). rewrite Hget. case_decide; [|eauto]. subst.
    destruct (handler_exec_represents h a (OpRun oppo) a _ Hrep eq_refl) as (h' & Hx & Hrep').
    simpl in Hx. destruct (Run h oppo) as [called h1] eqn:Erun. simplify_eq. simpl.
    eexists. split; [done|].
    assert (Hset : implements (mkDispatcher false
       (kv_modify ch (λ th : nat * ListenerHandler L, (th.1, (Run th.2 oppo).2)) (msg_listeners_ d)))
       (set_row t' ch (ty, a))).
    { apply (modify_row d t' ch ty h a a (λ h, (Run h oppo).2)); try done. by rewrite Erun. }
    destruct Hset as (H1 & H2 & H3). split; [done|]. split; [done|]. intros c Hc.
    specialize (H3 c Hc). simpl in H3. case_decide; [subst; by rewrite Er|done].
  - simplify_eq. eexists. split; [done|]. by split.
Qed.
End Dispatcher.

(** Property: the dispatcher implements a table of listeners per channel: whatever
    listeners are added (of the type the channel already has), removed, and
    messages received, a message calls exactly the listeners of its channel,
    those for all writers first, then those for its writer; a listener of
    another type and everything after [Shutdown] is ignored. *)
Theorem dispatcher_implements_table {L DM}
    `{!KVStore DM (nat * ListenerHandler L), !KVStoreLaws DM (nat * ListenerHandler L)}
    (ops : list (dispatcher_op (L := L))) t es :
  ev_run table_exec (mkTable false (λ _, None)) ops = Some (t, es) →
  ∃ d : Dispatcher (DM := DM), ev_run dispatcher_exec Dispatcher_new ops = Some (d, es) ∧
    implements d t.
Proof.
  assert (H : ∀ ops (d0 : Dispatcher (DM := DM)) t0 t es, implements d0 t0 →
    ev_run table_exec t0 ops = Some (t, es) →
    ∃ d : Dispatcher (DM := DM), ev_run dispatcher_exec d0 ops = Some (d, es) ∧ implements d t).
  { clear ops t es. induction ops as [|o ops IH]; intros d0 t0 t es Hr Hs; simpl in *.
    - simplify_eq. eauto.
    - destruct (table_exec t0 o) as [[t1 e]|] eqn:Ho; [|done].
      destruct (ev_run table_exec t1 ops) as [[t2 es']|] eqn:Hs'; [|done]. simplify_eq.
      destruct (dispatcher_exec_implements d0 t0 o t1 e Hr Ho) as (d1 & -> & Hr1).
      destruct (IH d1 t1 t es' Hr1 Hs') as (d & -> & Hr2). eauto. }
  apply H. split; [done|]. split; [apply kv_wf_empty|]. intros ch Hch. simpl. by apply kv_get_empty.
Qed.

Lemma dispatcher_implements_table_witness :
  ∃ d : Dispatcher (DM := AtomicHashMap (nat * ListenerHandler Z)),
  ev_run dispatcher_exec Dispatcher_new
    [Add 0 7 1 None 10; Add 0 7 2 (Some 5) 20; Add 1 7 3 None 30; Message 0 7 5; Remove 7 1 None;
     Message 0 7 5; Message 0 8 5; Down; Message 0 7 5]
  = Some (d, [[10; 20]; [20]; []; []]).
Proof.
  destruct (dispatcher_implements_table (DM := AtomicHashMap (nat * ListenerHandler Z))
    [Add 0 7 1 None 10; Add 0 7 2 (Some 5) 20; Add 1 7 3 None 30; Message 0 7 5; Remove 7 1 None;
     Message 0 7 5; Message 0 8 5; Down; Message 0 7 5] _ _ eq_refl) as (d & Hd & _).
  exists d. exact Hd.
Defined.
