(* ===== verification/Message.v ===== *)
(** * Messages in memory and on the wire

    The byte layouts of [MessageHeader] ([src/code/cyber/message/
    message_header.h]), [Identity] and [MessageInfo] ([src/code/cyber/
    transport/common/identity.h], [transport/message/message_info.h]) and
    [ReadableInfo] ([transport/shm/readable_info.h]), and the cache of sent
    messages [History] ([transport/message/history.h]).  Bytes are integers
    from 0 to 255; the byte order of the host is a parameter. *)

From S2P Require Import Prelude.

(** ** Integers as bytes *)

Definition byte_ok (b : Z) : Prop := 0 ≤ b < 256.

(** The [n] low bytes of [v], least significant first. *)
Fixpoint le_bytes (n : nat) (v : Z) : list Z :=
  match n with
  | O => []
  | S n => v mod 256 :: le_bytes n (v / 256)
  end.

Fixpoint le_value (bs : list Z) : Z :=
  match bs with
  | [] => 0
  | b :: bs => b + 256 * le_value bs
  end.

Lemma length_le_bytes n v : length (le_bytes n v) = n.
Proof. revert v. induction n as [|n IH]; intros v; simpl; [done|]. by rewrite IH. Qed.

Lemma le_bytes_ok n v : Forall byte_ok (le_bytes n v).
Proof.
  revert v. induction n as [|n IH]; intros v; simpl; constructor; [|apply IH].
  apply Z.mod_pos_bound. lia.
Qed.

Lemma le_value_bytes n v : 0 ≤ v < 256 ^ Z.of_nat n → le_value (le_bytes n v) = v.
Proof.
  revert v. induction n as [|n IH]; intros v Hv; simpl.
  - change (256 ^ Z.of_nat 0) with 1 in Hv. lia.
  - rewrite Nat2Z.inj_succ, Z.pow_succ_r in Hv by lia. rewrite IH.
    + pose proof (Z.div_mod v 256). lia.
    + split; [apply Z.div_pos; lia|]. apply Z.div_lt_upper_bound; lia.
Qed.

Lemma le_bytes_value bs : Forall byte_ok bs → le_bytes (length bs) (le_value bs) = bs.
Proof.
  induction 1 as [|b bs Hb Hbs IH]; simpl; [done|]. unfold byte_ok in Hb.
  rewrite (Z.mul_comm 256), Z_mod_plus_full, Z.mod_small, Z_div_plus_full, Z.div_small by lia.
  by rewrite Z.add_0_l, IH.
Qed.

Lemma le_value_bound bs : Forall byte_ok bs → 0 ≤ le_value bs < 256 ^ Z.of_nat (length bs).
Proof.
  induction 1 as [|b bs Hb Hbs IH]; simpl length; [simpl; lia|].
  rewrite Nat2Z.inj_succ, Z.pow_succ_r by lia. simpl. unfold byte_ok in Hb. lia.
Qed.

#[export] Hint Resolve le_bytes_ok : cyber.

Section Host.
Context (big_endian : bool).

(** The memory of an [n]-byte integer on this host, and its value. *)
Definition host_bytes (n : nat) (v : Z) : list Z :=
  if big_endian then rev (le_bytes n v) else le_bytes n v.

Definition host_value (bs : list Z) : Z :=
  if big_endian then le_value (rev bs) else le_value bs.

Lemma host_value_bytes n v : 0 ≤ v < 256 ^ Z.of_nat n → host_value (host_bytes n v) = v.
Proof using Type.
  intros Hv. unfold host_value, host_bytes. destruct big_endian; rewrite ?rev_involutive;
    by apply le_value_bytes.
Qed.

Lemma host_bytes_value bs : Forall byte_ok bs → host_bytes (length bs) (host_value bs) = bs.
Proof using Type.
  intros Hb. unfold host_value, host_bytes. destruct big_endian; [|by apply le_bytes_value].
  rewrite <- length_rev, le_bytes_value; [apply rev_involutive|]. by apply Forall_rev.
Qed.

Lemma length_host_bytes n v : length (host_bytes n v) = n.
Proof using Type.
  unfold host_bytes. destruct big_endian; rewrite ?length_rev; apply length_le_bytes.
Qed.

Lemma host_bytes_ok n v : Forall byte_ok (host_bytes n v).
Proof using Type.
  unfold host_bytes. destruct big_endian; [apply Forall_rev|]; apply le_bytes_ok.
Qed.

(** [htonl] and [ntohl] swap the four bytes unless the host is big-endian. *)
Definition htonl (v : Z) : Z := if big_endian then v else le_value (rev (le_bytes 4 v)).

Lemma htonl_host v : in_u 32 v → host_bytes 4 (htonl v) = rev (le_bytes 4 v).
Proof using Type.
  intros Hv. unfold htonl, host_bytes. destruct big_endian; [done|].
  rewrite <- (length_le_bytes 4 v) at 1. rewrite <- length_rev. apply le_bytes_value.
  apply Forall_rev, le_bytes_ok.
Qed.

Lemma htonl_value v : in_u 32 v → htonl (host_value (rev (le_bytes 4 v))) = v.
Proof using Type.
  intros Hv. unfold htonl, host_value.
  assert (Hv' : 0 ≤ v < 256 ^ Z.of_nat 4) by (change (256 ^ Z.of_nat 4) with (2 ^ 32); exact Hv).
  destruct big_endian; [rewrite rev_involutive; by apply le_value_bytes|].
  pose proof (Forall_rev (le_bytes_ok 4 v)) as Hok.
  rewrite <- (length_le_bytes 4 v) at 1. rewrite <- length_rev, le_bytes_value by done.
  rewrite rev_involutive. by apply le_value_bytes.
Qed.

(** ** [MessageHeader] *)

Record MessageHeader := mkHeader {
  magic_num_ : list Z;
  seq_ : list Z;
  timestamp_ns_ : list Z;
  src_id_ : list Z;
  dst_id_ : list Z;
  msg_type_ : list Z;
  res_ : list Z;
  content_size_ : list Z;
}.

(** "BDACBDAC". *)
Definition magic : list Z := [66; 68; 65; 67; 66; 68; 65; 67].

Definition zeros (n : nat) : list Z := replicate n 0.

Definition MessageHeader_new : MessageHeader :=
  mkHeader magic (zeros 8) (zeros 8) (zeros 8) (zeros 8) (zeros 129) (zeros 19) (zeros 4).

(** A null pointer, or the bytes with their length. *)
Definition is_magic_num_match (h : MessageHeader) (other : option (list Z)) : bool :=
  match other with
  | None => false
  | Some bs => if decide (length bs = 8%nat) then bool_decide (magic_num_ h = bs) else false
  end.

Definition Convert32ToArray (input : Z) : list Z := host_bytes 4 (htonl input).

Definition Convert64ToArray (input : Z) : list Z :=
  Convert32ToArray (u32 (Z.shiftr (Z.land input 0xffffffff00000000) 32)) ++
  Convert32ToArray (u32 (Z.land input 0x00000000ffffffff)).

Definition ConvertArrayTo32 (input : list Z) : Z := htonl (host_value (take 4 input)).

Definition ConvertArrayTo64 (input : list Z) : Z :=
  Z.lor (u64 (Z.shiftl (ConvertArrayTo32 input) 32)) (ConvertArrayTo32 (drop 4 input)).

Definition seq (h : MessageHeader) : Z := ConvertArrayTo64 (seq_ h).
Definition timestamp_ns (h : MessageHeader) : Z := ConvertArrayTo64 (timestamp_ns_ h).
Definition src_id (h : MessageHeader) : Z := ConvertArrayTo64 (src_id_ h).
Definition dst_id (h : MessageHeader) : Z := ConvertArrayTo64 (dst_id_ h).
Definition content_size (h : MessageHeader) : Z := ConvertArrayTo32 (content_size_ h).

Definition set_seq (h : MessageHeader) (v : Z) : MessageHeader :=
  mkHeader (magic_num_ h) (Convert64ToArray v) (timestamp_ns_ h) (src_id_ h) (dst_id_ h)
    (msg_type_ h) (res_ h) (content_size_ h).
Definition set_timestamp_ns (h : MessageHeader) (v : Z) : MessageHeader :=
  mkHeader (magic_num_ h) (seq_ h) (Convert64ToArray v) (src_id_ h) (dst_id_ h)
    (msg_type_ h) (res_ h) (content_size_ h).
Definition set_src_id (h : MessageHeader) (v : Z) : MessageHeader :=
  mkHeader (magic_num_ h) (seq_ h) (timestamp_ns_ h) (Convert64ToArray v) (dst_id_ h)
    (msg_type_ h) (res_ h) (content_size_ h).
Definition set_dst_id (h : MessageHeader) (v : Z) : MessageHeader :=
  mkHeader (magic_num_ h) (seq_ h) (timestamp_ns_ h) (src_id_ h) (Convert64ToArray v)
    (msg_type_ h) (res_ h) (content_size_ h).
Definition set_content_size (h : MessageHeader) (v : Z) : MessageHeader :=
  mkHeader (magic_num_ h) (seq_ h) (timestamp_ns_ h) (src_id_ h) (dst_id_ h)
    (msg_type_ h) (res_ h) (Convert32ToArray v).

(** [set_msg_type]: at most 128 bytes, the rest of the field is zero. *)
Definition set_msg_type (h : MessageHeader) (msg_type : option (list Z)) : MessageHeader :=
  match msg_type with
  | None | Some [] => h
  | Some bs =>
      let real_len := if decide (129 ≤ length bs)%nat then 128%nat else length bs in
      mkHeader (magic_num_ h) (seq_ h) (timestamp_ns_ h) (src_id_ h) (dst_id_ h)
        (take real_len bs ++ zeros (129 - real_len)) (res_ h) (content_size_ h)
  end.

Lemma land_high v : in_u 64 v → Z.shiftr (Z.land v 0xffffffff00000000) 32 = v / 2 ^ 32.
Proof using Type.
  intros Hv. rewrite Z.shiftr_land. change (Z.shiftr 0xffffffff00000000 32) with (Z.ones 32).
  rewrite Z.shiftr_div_pow2 by lia. rewrite Z.land_ones by lia. apply Z.mod_small.
  split; [apply Z.div_pos; wordlia|]. apply Z.div_lt_upper_bound; wordlia.
Qed.

Lemma split64 v : in_u 64 v →
  in_u 32 (v / 2 ^ 32) ∧ in_u 32 (v mod 2 ^ 32) ∧
  u32 (Z.shiftr (Z.land v 0xffffffff00000000) 32) = v / 2 ^ 32 ∧
  u32 (Z.land v 0x00000000ffffffff) = v mod 2 ^ 32.
Proof using Type.
  intros Hv. assert (H1 : in_u 32 (v / 2 ^ 32)).
  { split; [apply Z.div_pos; wordlia|]. apply Z.div_lt_upper_bound; wordlia. }
  assert (H2 : in_u 32 (v mod 2 ^ 32)) by (apply (wrap_bound 32); lia).
  split; [done|]. split; [done|]. rewrite land_high by done.
  change 0x00000000ffffffff with (Z.ones 32). rewrite Z.land_ones by lia.
  by rewrite !wrap_small.
Qed.

(** The array holds the number in network byte order. *)
Lemma Convert64_network v : in_u 64 v → Convert64ToArray v = rev (le_bytes 8 v).
Proof using Type.
  intros Hv. destruct (split64 v Hv) as (H1 & H2 & E1 & E2).
  unfold Convert64ToArray, Convert32ToArray. rewrite E1, E2, !htonl_host by done.
  rewrite <- rev_app_distr. f_equal.
  assert (Hs : ∀ n m w, le_bytes (n + m) w = le_bytes n w ++ le_bytes m (w / 256 ^ Z.of_nat n)).
  { clear. induction n as [|n IH]; intros m w; simpl.
    - by rewrite Z.div_1_r.
    - rewrite IH. do 3 f_equal. rewrite Z.div_div by lia. f_equal.
      by rewrite Nat2Z.inj_succ, Z.pow_succ_r by lia. }
  change (le_bytes 8 v) with (le_bytes (4 + 4) v). rewrite (Hs 4%nat 4%nat v). change (256 ^ Z.of_nat 4) with (2 ^ 32). f_equal.
  assert (Hm : ∀ n w, le_bytes n (w mod 256 ^ Z.of_nat n) = le_bytes n w).
  { clear. induction n as [|n IH]; intros w; [done|].
    rewrite Nat2Z.inj_succ, Z.pow_succ_r by lia.
    pose proof (Z.rem_mul_r w 256 (256 ^ Z.of_nat n) ltac:(lia) ltac:(lia)) as Hr.
    rewrite Hr. cbn [le_bytes].
    rewrite (Z.mul_comm 256 (_ mod _)), Z_mod_plus_full, Z_div_plus_full by lia.
    rewrite Z.mod_mod by lia. f_equal.
    rewrite (Z.div_small (w mod 256)) by (apply Z.mod_pos_bound; lia). apply IH. }
  change (2 ^ 32) with (256 ^ Z.of_nat 4). apply Hm.
Qed.

Lemma Convert32_roundtrip v rest : in_u 32 v → ConvertArrayTo32 (Convert32ToArray v ++ rest) = v.
Proof using Type.
  intros Hv. unfold ConvertArrayTo32, Convert32ToArray.
  rewrite take_app_length' by (symmetry; apply length_host_bytes). rewrite htonl_host by done.
  by apply htonl_value.
Qed.

Lemma Convert64_roundtrip v : in_u 64 v → ConvertArrayTo64 (Convert64ToArray v) = v.
Proof using Type.
  intros Hv. destruct (split64 v Hv) as (H1 & H2 & E1 & E2).
  unfold ConvertArrayTo64, Convert64ToArray. rewrite E1, E2.
  rewrite Convert32_roundtrip by done.
  rewrite drop_app_length' by (symmetry; apply length_host_bytes).
  rewrite <- (app_nil_r (Convert32ToArray (v mod 2 ^ 32))), Convert32_roundtrip by done.
  rewrite wrap_small by (rewrite Z.shiftl_mul_pow2 by lia; wordlia).
  assert (Hland : Z.land (Z.shiftl (v / 2 ^ 32) 32) (v mod 2 ^ 32) = 0).
  { apply Z.bits_inj'. intros n Hn. rewrite Z.land_spec, Z.bits_0.
    destruct (Z.lt_ge_cases n 32).
    - by rewrite Z.shiftl_spec_low by lia.
    - rewrite (Z.mod_pow2_bits_high v 32 n) by lia. apply andb_false_r. }
  rewrite <- Z.lxor_lor, <- Z.add_nocarry_lxor, Z.shiftl_mul_pow2 by (done || lia).
  pose proof (Z.div_mod v (2 ^ 32) ltac:(lia)). lia.
Qed.

Inductive header_op :=
| SetSeq (v : Z) | SetTimestamp (v : Z) | SetSrc (v : Z) | SetDst (v : Z) | SetSize (v : Z)
| SetType (bs : option (list Z)).

Definition header_exec (h : MessageHeader) (o : header_op) : option MessageHeader :=
  match o with
  | SetSeq v => if decide (in_u 64 v) then Some (set_seq h v) else None
  | SetTimestamp v => if decide (in_u 64 v) then Some (set_timestamp_ns h v) else None
  | SetSrc v => if decide (in_u 64 v) then Some (set_src_id h v) else None
  | SetDst v => if decide (in_u 64 v) then Some (set_dst_id h v) else None
  | SetSize v => if decide (in_u 32 v) then Some (set_content_size h v) else None
  | SetType bs => Some (set_msg_type h bs)
  end.

(** What the getters should return after a sequence of setters. *)
Record fields := mkFields {
  f_seq : Z; f_timestamp : Z; f_src : Z; f_dst : Z; f_size : Z; f_type : list Z;
}.

Definition fields_exec (f : fields) (o : header_op) : fields :=
  match o with
  | SetSeq v => mkFields v (f_timestamp f) (f_src f) (f_dst f) (f_size f) (f_type f)
  | SetTimestamp v => mkFields (f_seq f) v (f_src f) (f_dst f) (f_size f) (f_type f)
  | SetSrc v => mkFields (f_seq f) (f_timestamp f) v (f_dst f) (f_size f) (f_type f)
  | SetDst v => mkFields (f_seq f) (f_timestamp f) (f_src f) v (f_size f) (f_type f)
  | SetSize v => mkFields (f_seq f) (f_timestamp f) (f_src f) (f_dst f) v (f_type f)
  | SetType None | SetType (Some []) => f
  | SetType (Some bs) =>
      mkFields (f_seq f) (f_timestamp f) (f_src f) (f_dst f) (f_size f) (take 128 bs)
  end.

Definition header_ok (h : MessageHeader) (f : fields) : Prop :=
  magic_num_ h = magic ∧
  seq h = f_seq f ∧ timestamp_ns h = f_timestamp f ∧ src_id h = f_src f ∧ dst_id h = f_dst f ∧
  content_size h = f_size f ∧
  msg_type_ h = f_type f ++ zeros (129 - length (f_type f)) ∧ (length (f_type f) ≤ 128)%nat ∧
  (length <$> [magic_num_ h; seq_ h; timestamp_ns_ h; src_id_ h; dst_id_ h; msg_type_ h; res_ h;
               content_size_ h]) = [8; 8; 8; 8; 8; 129; 19; 4]%nat.

Lemma length_Convert64 v : length (Convert64ToArray v) = 8%nat.
Proof using Type.
  unfold Convert64ToArray, Convert32ToArray. by rewrite length_app, !length_host_bytes.
Qed.

Lemma length_Convert32 v : length (Convert32ToArray v) = 4%nat.
Proof using Type. apply length_host_bytes. Qed.

Lemma zero_value : ConvertArrayTo64 (zeros 8) = 0 ∧ ConvertArrayTo32 (zeros 4) = 0.
Proof using Type. unfold ConvertArrayTo64, ConvertArrayTo32, htonl, host_value. by destruct big_endian. Qed.

Lemma header_new_ok : header_ok MessageHeader_new (mkFields 0 0 0 0 0 []).
Proof using Type.
  destruct zero_value as [H64 H32]. unfold header_ok, seq, timestamp_ns, src_id, dst_id, content_size.
  simpl. rewrite H64, H32. repeat split. lia.
Qed.

Lemma header_exec_ok h f o h' : header_ok h f → header_exec h o = Some h' →
  header_ok h' (fields_exec f o).
Proof using Type.
  intros (Hm & Hs & Ht & Hsrc & Hdst & Hsz & Hty & Hlen & Hl) Ho.
  simpl in Hl. injection Hl as L1 L2 L3 L4 L5 L6 L7 L8.
  destruct o as [v|v|v|v|v|bs]; simpl in Ho; try case_decide; simplify_eq;
    try (unfold header_ok, seq, timestamp_ns, src_id, dst_id, content_size in *; simpl in *;
         rewrite ?Convert64_roundtrip, ?length_Convert64, ?L1, ?L2, ?L3, ?L4, ?L5, ?L6, ?L7, ?L8 by done;
         by repeat split).
  - unfold header_ok, content_size in *. simpl in *.
    rewrite <- (app_nil_r (Convert32ToArray v)) at 1. rewrite Convert32_roundtrip by done.
    rewrite length_Convert32, L1, L2, L3, L4, L5, L6, L7. by repeat split.
  - unfold header_ok, set_msg_type. destruct bs as [[|b bs]|]; simpl fields_exec;
      [by rewrite ?L1; repeat split; try done; simpl; congruence| |by repeat split; try done; simpl; congruence].
    cbn [magic_num_ seq_ timestamp_ns_ src_id_ dst_id_ msg_type_ res_ content_size_ f_type f_seq
      f_timestamp f_src f_dst f_size].
    set (l := b :: bs). set (n := if decide _ then _ else _).
    assert (Hn : take 128 l = take n l ∧ (n ≤ 128)%nat ∧ length (take n l) = n).
    { subst n. rewrite length_take. case_decide; [split; [done|lia]|].
      split; [by rewrite !take_ge by lia|]. lia. }
    change (b :: take 127 bs) with (take 128 l).
    destruct Hn as (-> & Hn & Hnl). rewrite Hnl.
    do 6 (split; [done|]). split; [done|]. split; [done|]. simpl.
    rewrite length_app, Hnl. unfold zeros. rewrite length_replicate, L1, L2, L3, L4, L5, L7, L8.
    by replace (n + (129 - n))%nat with 129%nat by lia.
Qed.
End Host.

(** Property: on a host of either byte order, after any sequence of setters each
    getter of a [MessageHeader] returns the last value set (0 at first), the
    arrays keep their sizes and the magic number, the message type is the last
    one cut to 128 bytes and always NUL-terminated, and 64-bit fields are in
    network byte order. *)
Theorem header_getters_return_last_set be ops h :
  run (header_exec be) MessageHeader_new ops = Some h →
  header_ok be h (fold_left fields_exec ops (mkFields 0 0 0 0 0 [])) ∧
  last (msg_type_ h) = Some 0 ∧
  ∀ v, in_u 64 v → seq_ (set_seq be h v) = rev (le_bytes 8 v).
Proof.
  intros Hr.
  assert (H : ∀ ops h0 f0 h, header_ok be h0 f0 → run (header_exec be) h0 ops = Some h →
    header_ok be h (fold_left fields_exec ops f0)).
  { clear. induction ops as [|o ops IH]; intros h0 f0 h Hok Hr; simpl in *; [by simplify_eq|].
    destruct (header_exec be h0 o) as [h1|] eqn:Ho; [|done].
    eapply IH; [|exact Hr]. by eapply header_exec_ok. }
  pose proof (H ops _ _ h (header_new_ok be) Hr) as Hok. split; [done|].
  split; [|intros v Hv; by apply Convert64_network].
  destruct Hok as (_ & _ & _ & _ & _ & _ & -> & Hlen & _).
  replace (129 - length (f_type _))%nat with (S (128 - length (f_type (fold_left fields_exec ops
    (mkFields 0 0 0 0 0 [])))))%nat by lia.
  unfold zeros. rewrite replicate_S_end, app_assoc. apply last_snoc.
Qed.

Lemma header_getters_return_last_set_witness :
  ∃ h, run (header_exec false) MessageHeader_new
    [SetSeq 0x0102030405060708; SetType (Some [65; 66]); SetSize 258; SetSeq 513] = Some h ∧
  seq false h = 513 ∧ content_size false h = 258 ∧ seq_ h = [0; 0; 0; 0; 0; 0; 2; 1].
Proof.
  eexists. split; [vm_compute; reflexivity|].
  destruct (header_getters_return_last_set false
    [SetSeq 0x0102030405060708; SetType (Some [65; 66]); SetSize 258; SetSeq 513] _
    ltac:(vm_compute; reflexivity)) as ((_ & Hs & _ & _ & _ & Hc & _) & _ & _).
  split; [exact Hs|]. split; [exact Hc|]. vm_compute. reflexivity.
Defined.

(** ** [Identity], [MessageInfo], [ReadableInfo]

    [hash] is [std::hash<std::string>], which the code only relies on to be a
    function of the bytes. *)

Section Info.
Context (big_endian : bool) (hash : list Z → Z).

Definition ID_SIZE : nat := 8.

Record Identity := mkIdentity { data_ : list Z; hash_value_ : Z }.

(** The bytes of a fresh uuid, or no identity: zeros with hash value 0. *)
Definition Identity_new (uuid : option (list Z)) : Identity :=
  match uuid with
  | Some bs => mkIdentity (take ID_SIZE bs) (hash (take ID_SIZE bs))
  | None => mkIdentity (zeros ID_SIZE) 0
  end.

Definition set_data (bs : list Z) : Identity := mkIdentity (take ID_SIZE bs) (hash (take ID_SIZE bs)).

Definition Identity_eqb (a b : Identity) : bool := bool_decide (data_ a = data_ b).

Record MessageInfo := mkInfo {
  sender_id_ : Identity;
  channel_id_ : Z;
  seq_num_ : Z;
  spare_id_ : Identity;
}.

Definition MessageInfo_eqb (a b : MessageInfo) : bool :=
  Identity_eqb (sender_id_ a) (sender_id_ b) && (channel_id_ a =? channel_id_ b) &&
  (seq_num_ a =? seq_num_ b) && Identity_eqb (spare_id_ a) (spare_id_ b).

Definition MessageInfo_kSize : nat := 2 * ID_SIZE + 8.

Definition MessageInfo_SerializeTo (i : MessageInfo) : list Z :=
  data_ (sender_id_ i) ++ host_bytes big_endian 8 (seq_num_ i) ++ data_ (spare_id_ i).

(** Into a buffer of [len] bytes: the first [kSize] are overwritten. *)
Definition MessageInfo_SerializeTo_buf (i : MessageInfo) (dst : option (list Z)) : option (list Z) :=
  match dst with
  | None => None
  | Some buf =>
      if decide (length buf < MessageInfo_kSize)%nat then None
      else Some (MessageInfo_SerializeTo i ++ drop MessageInfo_kSize buf)
  end.

(** The object deserialised into keeps its channel id. *)
Definition MessageInfo_DeserializeFrom (this : MessageInfo) (src : option (list Z)) :
    bool * MessageInfo :=
  match src with
  | None => (false, this)
  | Some bs =>
      if decide (length bs = MessageInfo_kSize)
      then (true, mkInfo (set_data bs) (channel_id_ this)
                    (host_value big_endian (take 8 (drop ID_SIZE bs)))
                    (set_data (drop (ID_SIZE + 8) bs)))
      else (false, this)
  end.

Record ReadableInfo := mkReadable { host_id_ : Z; block_index_ : Z; r_channel_id_ : Z }.

Definition ReadableInfo_kSize : nat := 8 * 2 + 4.

Definition ReadableInfo_SerializeTo (i : ReadableInfo) : list Z :=
  host_bytes big_endian 8 (host_id_ i) ++ host_bytes big_endian 4 (block_index_ i) ++
  host_bytes big_endian 8 (r_channel_id_ i).

Definition ReadableInfo_DeserializeFrom (this : ReadableInfo) (src : option (list Z)) :
    bool * ReadableInfo :=
  match src with
  | None => (false, this)
  | Some bs =>
      if decide (length bs = ReadableInfo_kSize)
      then (true, mkReadable (host_value big_endian (take 8 bs))
                    (host_value big_endian (take 4 (drop 8 bs)))
                    (host_value big_endian (drop 12 bs)))
      else (false, this)
  end.

Definition identity_ok (i : Identity) : Prop := length (data_ i) = ID_SIZE.

Definition info_ok (i : MessageInfo) : Prop :=
  identity_ok (sender_id_ i) ∧ identity_ok (spare_id_ i) ∧ in_u 64 (seq_num_ i).

Lemma SerializeTo_length i : info_ok i → length (MessageInfo_SerializeTo i) = MessageInfo_kSize.
Proof using Type.
  intros (H1 & H2 & _). unfold MessageInfo_SerializeTo, identity_ok in *.
  by rewrite !length_app, length_host_bytes, H1, H2.
Qed.

Lemma host_roundtrip n v bits : in_u bits v → 2 ^ bits = 256 ^ Z.of_nat n →
  host_value big_endian (host_bytes big_endian n v) = v.
Proof using Type. intros Hv E. apply host_value_bytes. unfold in_u in Hv. by rewrite <- E. Qed.

Lemma Deserialize_Serialize this i : info_ok i →
  MessageInfo_DeserializeFrom this (Some (MessageInfo_SerializeTo i)) =
  (true, mkInfo (mkIdentity (data_ (sender_id_ i)) (hash (data_ (sender_id_ i)))) (channel_id_ this)
           (seq_num_ i) (mkIdentity (data_ (spare_id_ i)) (hash (data_ (spare_id_ i))))).
Proof using Type.
  intros Hi. pose proof (SerializeTo_length i Hi) as Hl. destruct Hi as (H1 & H2 & H3).
  unfold identity_ok in *. unfold MessageInfo_DeserializeFrom. rewrite decide_True by done.
  unfold MessageInfo_SerializeTo, set_data in *.
  rewrite !(take_app_length' (data_ (sender_id_ i))) by done.
  rewrite (drop_app_length' (data_ (sender_id_ i))) by done.
  rewrite take_app_length' by (symmetry; apply length_host_bytes).
  rewrite (host_roundtrip 8 _ 64) by done.
  rewrite app_assoc, drop_app_length' by (by rewrite length_app, length_host_bytes, H1).
  by rewrite !take_ge by lia.
Qed.

Definition readable_ok (i : ReadableInfo) : Prop :=
  in_u 64 (host_id_ i) ∧ in_u 32 (block_index_ i) ∧ in_u 64 (r_channel_id_ i).

Lemma Readable_roundtrip this i : readable_ok i →
  length (ReadableInfo_SerializeTo i) = ReadableInfo_kSize ∧
  ReadableInfo_DeserializeFrom this (Some (ReadableInfo_SerializeTo i)) = (true, i).
Proof using Type.
  intros (H1 & H2 & H3). unfold ReadableInfo_DeserializeFrom, ReadableInfo_SerializeTo.
  assert (Hl : length (host_bytes big_endian 8 (host_id_ i) ++ host_bytes big_endian 4 (block_index_ i) ++
    host_bytes big_endian 8 (r_channel_id_ i)) = ReadableInfo_kSize)
    by (by rewrite !length_app, !length_host_bytes).
  split; [done|]. rewrite decide_True by done.
  rewrite take_app_length' by (symmetry; apply length_host_bytes).
  rewrite drop_app_length' by (symmetry; apply length_host_bytes).
  rewrite take_app_length' by (symmetry; apply length_host_bytes).
  rewrite app_assoc, drop_app_length' by (by rewrite length_app, !length_host_bytes).
  rewrite (host_roundtrip 8 _ 64), (host_roundtrip 4 _ 32), (host_roundtrip 8 _ 64) by done.
  by destruct i.
Qed.
End Info.

(** Property: a [MessageInfo] written and read back is equal to the original exactly
    when the reading object already had its channel id, which is not written;
    the identities' hash values are recomputed from their bytes (so that an
    empty identity, whose hash value is 0, gets the hash of eight zero bytes);
    input of another size and too small buffers are refused. *)
Theorem message_info_roundtrip be hash this i bs buf :
  info_ok i → length bs ≠ MessageInfo_kSize →
  let '(ok, i') := MessageInfo_DeserializeFrom be hash this (Some (MessageInfo_SerializeTo be i)) in
  ok = true ∧ MessageInfo_eqb i' i = (channel_id_ this =? channel_id_ i) ∧
  hash_value_ (sender_id_ i') = hash (data_ (sender_id_ i)) ∧
  hash_value_ (spare_id_ i') = hash (data_ (spare_id_ i)) ∧
  MessageInfo_DeserializeFrom be hash this (Some bs) = (false, this) ∧
  MessageInfo_SerializeTo_buf be i (Some buf) =
    (if decide (length buf < MessageInfo_kSize)%nat then None
     else Some (MessageInfo_SerializeTo be i ++ drop MessageInfo_kSize buf)).
Proof.
  intros Hi Hbs. rewrite Deserialize_Serialize by done. split; [done|].
  split; [|split; [done|]; split; [done|]; split; [|done]].
  - unfold MessageInfo_eqb, Identity_eqb. simpl. rewrite !bool_decide_eq_true_2 by done.
    rewrite Z.eqb_refl. by destruct (_ =? _).
  - unfold MessageInfo_DeserializeFrom. by rewrite decide_False.
Qed.

Definition sample_info : MessageInfo :=
  mkInfo (mkIdentity [1; 2; 3; 4; 5; 6; 7; 8] 99) 5 1000 (mkIdentity (zeros 8) 0).

Lemma message_info_roundtrip_witness :
  info_ok sample_info ∧
  (MessageInfo_DeserializeFrom false (λ l, Z.of_nat (list_sum (Z.to_nat <$> l)) + 1)
     (mkInfo (mkIdentity (zeros 8) 0) 6 0 (mkIdentity (zeros 8) 0))
     (Some (MessageInfo_SerializeTo false sample_info))).1 = true.
Proof.
  assert (Hi : info_ok sample_info) by (split; [done|]; split; [done|]; unfold in_u; simpl; lia).
  split; [exact Hi|].
  pose proof (message_info_roundtrip false (λ l, Z.of_nat (list_sum (Z.to_nat <$> l)) + 1)
    (mkInfo (mkIdentity (zeros 8) 0) 6 0 (mkIdentity (zeros 8) 0)) sample_info [1] [] Hi
    ltac:(discriminate)) as H.
  destruct (MessageInfo_DeserializeFrom _ _ _ _) as [r i'] eqn:E. vm_compute in E.
  injection E as <- _. destruct H as [H _]. exact H.
Defined.

(** Property: a [ReadableInfo] sent between processes is read back unchanged,
    whatever the reading object held; input of another size is refused. *)
Theorem readable_info_roundtrip be this i bs :
  readable_ok i → length bs ≠ ReadableInfo_kSize →
  ReadableInfo_DeserializeFrom be this (Some (ReadableInfo_SerializeTo be i)) = (true, i) ∧
  length (ReadableInfo_SerializeTo be i) = ReadableInfo_kSize ∧
  ReadableInfo_DeserializeFrom be this (Some bs) = (false, this) ∧
  ReadableInfo_DeserializeFrom be this None = (false, this).
Proof.
  intros Hi Hbs. destruct (Readable_roundtrip be this i Hi) as [H1 H2].
  split; [done|]. split; [done|]. split; [|done].
  unfold ReadableInfo_DeserializeFrom. by rewrite decide_False.
Qed.

Lemma readable_info_roundtrip_witness :
  ReadableInfo_DeserializeFrom true (mkReadable 0 0 0)
    (Some (ReadableInfo_SerializeTo true (mkReadable 77 3 (2 ^ 63)))) = (true, mkReadable 77 3 (2 ^ 63)).
Proof.
  apply (readable_info_roundtrip true (mkReadable 0 0 0) (mkReadable 77 3 (2 ^ 63)) []); [|discriminate].
  repeat split; simpl; lia.
Defined.

(** ** [History] *)

Section History.
Context {M : Type}.

(** [keep_all]: the policy [HISTORY_KEEP_ALL]. *)
Record HistoryAttributes := mkAttributes { keep_all : bool; attr_depth : Z }.

Record History := mkHistory {
  enabled_ : bool;
  depth_ : Z;
  max_depth_ : Z;
  msgs_ : list (M * MessageInfo);
}.

(** [conf]: the limit of the global configuration, if there is one. *)
Definition History_new (conf : option Z) (attr : HistoryAttributes) : History :=
  let max := default 1000 conf in
  mkHistory false
    (if keep_all attr then max else if max <? attr_depth attr then max else attr_depth attr)
    max [].

Fixpoint pop_front_while (depth : Z) (l : list (M * MessageInfo)) : list (M * MessageInfo) :=
  match l with
  | [] => []
  | _ :: rest => if depth <? zlen l then pop_front_while depth rest else l
  end.

Definition set_msgs (h : History) (l : list (M * MessageInfo)) : History :=
  mkHistory (enabled_ h) (depth_ h) (max_depth_ h) l.

Definition Add (h : History) (msg : M) (info : MessageInfo) : History :=
  if enabled_ h then set_msgs h (pop_front_while (depth_ h) (msgs_ h ++ [(msg, info)])) else h.

Definition Clear (h : History) : History := set_msgs h [].
Definition Enable (h : History) : History := mkHistory true (depth_ h) (max_depth_ h) (msgs_ h).
Definition Disable (h : History) : History := mkHistory false (depth_ h) (max_depth_ h) (msgs_ h).

(** [GetCachedMessage] puts the cached messages before what [*msgs] holds. *)
Definition GetCachedMessage (h : History) (msgs : option (list (M * MessageInfo))) :
    option (list (M * MessageInfo)) :=
  match msgs with Some l => Some (msgs_ h ++ l) | None => None end.

Definition GetSize (h : History) : Z := zlen (msgs_ h).

Inductive history_op := HAdd (msg : M) (info : MessageInfo) | HClear | HEnable | HDisable.

Definition history_exec (h : History) (o : history_op) : option History :=
  match o with
  | HAdd msg info => Some (Add h msg info)
  | HClear => Some (Clear h)
  | HEnable => Some (Enable h)
  | HDisable => Some (Disable h)
  end.

(** The messages added while enabled since the last [Clear], oldest first. *)
Fixpoint added (enabled : bool) (acc : list (M * MessageInfo)) (ops : list history_op) :
    list (M * MessageInfo) :=
  match ops with
  | [] => acc
  | HAdd msg info :: ops => added enabled (if enabled then acc ++ [(msg, info)] else acc) ops
  | HClear :: ops => added enabled [] ops
  | HEnable :: ops => added true acc ops
  | HDisable :: ops => added false acc ops
  end.

Definition newest (n : Z) (l : list (M * MessageInfo)) : list (M * MessageInfo) :=
  drop (length l - Z.to_nat n) l.

Lemma pop_front_while_newest depth l : 0 ≤ depth → pop_front_while depth l = newest depth l.
Proof.
  intros Hd. unfold newest. induction l as [|x l IH]; [done|]. simpl pop_front_while.
  unfold zlen. destruct (Z.ltb_spec depth (Z.of_nat (length (x :: l)))) as [H|H]; simpl in H.
  - rewrite IH. rewrite length_cons.
    by replace (S (length l) - Z.to_nat depth)%nat with (S (length l - Z.to_nat depth)) by lia.
  - by replace (length (x :: l) - Z.to_nat depth)%nat with 0%nat by (simpl; lia).
Qed.

Lemma newest_snoc n l x : 0 ≤ n → newest n (newest n l ++ [x]) = newest n (l ++ [x]).
Proof.
  intros Hn. unfold newest. rewrite !length_app, length_drop. simpl.
  destruct (decide (length l ≤ Z.to_nat n)%nat).
  - replace (length l - Z.to_nat n)%nat with 0%nat by lia. simpl. by rewrite Nat.sub_0_r.
  - destruct (decide (Z.to_nat n = 0%nat)) as [E|E].
    + rewrite E. rewrite !drop_ge; rewrite ?length_app, ?length_drop; simpl; try done; lia.
    + rewrite !drop_app_le by (rewrite ?length_drop; lia). rewrite drop_drop. do 2 f_equal. lia.
Qed.
End History.

Arguments History : clear implicits.

(** Property: the history of a transmitter holds the newest [depth] of the messages
    added while it was enabled since it was last cleared, oldest first, where
    the depth is bounded by the configured maximum (which it is for
    [HISTORY_KEEP_ALL]). *)
Theorem history_keeps_newest {M} conf attr ops (h : History M) :
  0 ≤ attr_depth attr → 0 ≤ default 1000 conf →
  run history_exec (History_new conf attr) ops = Some h →
  depth_ h = (if keep_all attr then default 1000 conf else Z.min (attr_depth attr) (default 1000 conf)) ∧
  GetCachedMessage h (Some []) = Some (newest (depth_ h) (added false [] ops)) ∧
  GetSize h ≤ depth_ h.
Proof.
  intros Ha Hc Hr.
  assert (H : ∀ ops (h0 h : History M) acc, 0 ≤ depth_ h0 → msgs_ h0 = newest (depth_ h0) acc →
    run history_exec h0 ops = Some h →
    depth_ h = depth_ h0 ∧ msgs_ h = newest (depth_ h0) (added (enabled_ h0) acc ops)).
  { clear. induction ops as [|o ops IH]; intros h0 h acc Hd Hm Hr; simpl in Hr; [by simplify_eq|].
    destruct o as [msg info| | |]; simpl in Hr; simpl added.
    - unfold Add in Hr. destruct (enabled_ h0) eqn:E.
      + apply (IH _ _ (acc ++ [(msg, info)])) in Hr; simpl in *; [by rewrite E in Hr|done|].
        rewrite pop_front_while_newest, Hm by done. by apply newest_snoc.
      + apply (IH _ _ acc) in Hr; [by rewrite E in Hr|done|done].
    - apply (IH _ _ []) in Hr; [done|done|done].
    - by apply (IH _ _ acc) in Hr.
    - by apply (IH _ _ acc) in Hr. }
  assert (Hdep : depth_ (History_new (M := M) conf attr) =
    if keep_all attr then default 1000 conf else Z.min (attr_depth attr) (default 1000 conf)).
  { simpl. destruct (keep_all attr); [done|]. destruct (Z.ltb_spec (default 1000 conf) (attr_depth attr)); lia. }
  destruct (H ops _ h [] ltac:(rewrite Hdep; destruct (keep_all attr); lia) eq_refl Hr) as [H1 H2].
  rewrite Hdep in H1. split; [done|]. simpl. rewrite app_nil_r. unfold GetSize.
  rewrite H2, Hdep, H1. split; [done|]. unfold newest, zlen. rewrite length_drop.
  destruct (keep_all attr); lia.
Qed.

Lemma history_keeps_newest_witness :
  ∃ h : History Z, run history_exec (History_new (Some 3) (mkAttributes false 2))
    [HAdd 1 sample_info; HEnable; HAdd 2 sample_info; HAdd 3 sample_info; HAdd 4 sample_info] = Some h ∧
  GetCachedMessage h (Some []) = Some [(3, sample_info); (4, sample_info)].
Proof.
  eexists. split; [vm_compute; reflexivity|].
  apply (history_keeps_newest (Some 3) (mkAttributes false 2)
    [HAdd 1 sample_info; HEnable; HAdd 2 sample_info; HAdd 3 sample_info; HAdd 4 sample_info]);
    [simpl; lia|simpl; lia|vm_compute; reflexivity].
Defined.
