(* ===== verification/ShmBlock.v ===== *)
(** * Shared memory: sizes and block locks

    [ShmConf] ([src/code/cyber/transport/shm/shm_conf.h], [shm_conf.cc])
    chooses the number and size of the blocks, [Block] ([block.h], [block.cc])
    is a try-lock for one writer or many readers that refines the abstract
    lock of [RWLock]. *)

From S2P Require Import Prelude RWLock.

(** ** [ShmConf] *)

Definition EXTRA_SIZE : Z := 1024 * 4.
Definition STATE_SIZE : Z := 1024.
Definition BLOCK_SIZE : Z := 1024.
Definition MESSAGE_INFO_SIZE : Z := 1024.
Definition BLOCK_NUM_16K : Z := 512.
Definition MESSAGE_SIZE_16K : Z := 1024 * 16.
Definition BLOCK_NUM_128K : Z := 128.
Definition MESSAGE_SIZE_128K : Z := 1024 * 128.
Definition BLOCK_NUM_1M : Z := 64.
Definition MESSAGE_SIZE_1M : Z := 1024 * 1024.
Definition BLOCK_NUM_8M : Z := 32.
Definition MESSAGE_SIZE_8M : Z := 1024 * 1024 * 8.
Definition BLOCK_NUM_16M : Z := 16.
Definition MESSAGE_SIZE_16M : Z := 1024 * 1024 * 16.
Definition BLOCK_NUM_MORE : Z := 8.
Definition MESSAGE_SIZE_MORE : Z := 1024 * 1024 * 32.

Record ShmConf := mkConf {
  ceiling_msg_size_ : Z;
  block_buf_size_ : Z;
  block_num_ : Z;
  managed_shm_size_ : Z;
}.

Definition GetCeilingMessageSize (real_msg_size : Z) : Z :=
  if real_msg_size <=? MESSAGE_SIZE_16K then MESSAGE_SIZE_16K
  else if real_msg_size <=? MESSAGE_SIZE_128K then MESSAGE_SIZE_128K
  else if real_msg_size <=? MESSAGE_SIZE_1M then MESSAGE_SIZE_1M
  else if real_msg_size <=? MESSAGE_SIZE_8M then MESSAGE_SIZE_8M
  else if real_msg_size <=? MESSAGE_SIZE_16M then MESSAGE_SIZE_16M
  else MESSAGE_SIZE_MORE.

Definition GetBlockBufSize (ceiling_msg_size : Z) : Z := u64 (ceiling_msg_size + MESSAGE_INFO_SIZE).

Definition GetBlockNum (ceiling_msg_size : Z) : Z :=
  if ceiling_msg_size =? MESSAGE_SIZE_16K then BLOCK_NUM_16K
  else if ceiling_msg_size =? MESSAGE_SIZE_128K then BLOCK_NUM_128K
  else if ceiling_msg_size =? MESSAGE_SIZE_1M then BLOCK_NUM_1M
  else if ceiling_msg_size =? MESSAGE_SIZE_8M then BLOCK_NUM_8M
  else if ceiling_msg_size =? MESSAGE_SIZE_16M then BLOCK_NUM_16M
  else if ceiling_msg_size =? MESSAGE_SIZE_MORE then BLOCK_NUM_MORE
  else 0.

Definition ShmConf_Update (real_msg_size : Z) : ShmConf :=
  let ceiling := GetCeilingMessageSize real_msg_size in
  let buf := GetBlockBufSize ceiling in
  let num := GetBlockNum ceiling in
  mkConf ceiling buf num (u64 (EXTRA_SIZE + STATE_SIZE + (BLOCK_SIZE + buf) * num)).

Definition ShmConf_new : ShmConf := ShmConf_Update MESSAGE_SIZE_16K.

Definition classes : list Z :=
  [MESSAGE_SIZE_16K; MESSAGE_SIZE_128K; MESSAGE_SIZE_1M; MESSAGE_SIZE_8M; MESSAGE_SIZE_16M;
   MESSAGE_SIZE_MORE].

Lemma ceiling_in_classes n : GetCeilingMessageSize n ∈ classes.
Proof. unfold GetCeilingMessageSize, classes. repeat case_match; set_solver. Qed.

(** A property of every configuration follows from the six classes. *)
Lemma conf_cases (P : ShmConf → Prop) :
  Forall (λ c, P (ShmConf_Update c)) classes → ∀ n, P (ShmConf_Update n).
Proof.
  intros HP n. rewrite Forall_forall in HP. specialize (HP _ (ceiling_in_classes n)).
  unfold ShmConf_Update in *. replace (GetCeilingMessageSize (GetCeilingMessageSize n))
    with (GetCeilingMessageSize n) in HP; [done|].
  unfold GetCeilingMessageSize. by repeat case_match.
Qed.

Lemma conf_of_ceiling n : ShmConf_Update (ceiling_msg_size_ (ShmConf_Update n)) = ShmConf_Update n.
Proof.
  apply (conf_cases (λ c, ShmConf_Update (ceiling_msg_size_ c) = c)).
  repeat constructor; vm_compute; reflexivity.
Qed.

Lemma conf_num n : 0 < block_num_ (ShmConf_Update n) ∧ (block_num_ (ShmConf_Update n) | 2 ^ 32).
Proof.
  apply (conf_cases (λ c, 0 < block_num_ c ∧ (block_num_ c | 2 ^ 32))).
  repeat (constructor; [split; [vm_compute; reflexivity|]|]); [| | | | | |constructor].
  - by exists 8388608.
  - by exists 33554432.
  - by exists 67108864.
  - by exists 134217728.
  - by exists 268435456.
  - by exists 536870912.
Qed.

(** Numerals for the sizes, then one case per test that is still possible. *)
Ltac size_cases :=
  repeat match goal with
  | H : context [MESSAGE_SIZE_16K] |- _ => change MESSAGE_SIZE_16K with 16384 in H
  | H : context [MESSAGE_SIZE_128K] |- _ => change MESSAGE_SIZE_128K with 131072 in H
  | H : context [MESSAGE_SIZE_1M] |- _ => change MESSAGE_SIZE_1M with 1048576 in H
  | H : context [MESSAGE_SIZE_8M] |- _ => change MESSAGE_SIZE_8M with 8388608 in H
  | H : context [MESSAGE_SIZE_16M] |- _ => change MESSAGE_SIZE_16M with 16777216 in H
  | H : context [MESSAGE_SIZE_MORE] |- _ => change MESSAGE_SIZE_MORE with 33554432 in H
  end;
  change MESSAGE_SIZE_16K with 16384; change MESSAGE_SIZE_128K with 131072;
  change MESSAGE_SIZE_1M with 1048576; change MESSAGE_SIZE_8M with 8388608;
  change MESSAGE_SIZE_16M with 16777216; change MESSAGE_SIZE_MORE with 33554432;
  repeat match goal with
  | |- context [?a <=? ?b] => destruct (Z.leb_spec a b); [try lia|try (exfalso; lia)]
  end.

Lemma conf_fits n : n ≤ MESSAGE_SIZE_MORE → n ≤ ceiling_msg_size_ (ShmConf_Update n).
Proof.
  intros H. cbn [ShmConf_Update ceiling_msg_size_]. unfold GetCeilingMessageSize. size_cases; lia.
Qed.

Lemma ceiling_least n m : m ∈ classes → n ≤ m → GetCeilingMessageSize n ≤ m.
Proof.
  intros Hm Hnm. assert (m = 16384 ∨ m = 131072 ∨ m = 1048576 ∨ m = 8388608 ∨ m = 16777216
    ∨ m = 33554432) as Hc.
  { unfold classes in Hm. rewrite !elem_of_cons, elem_of_nil in Hm. tauto. }
  clear Hm. unfold GetCeilingMessageSize. size_cases; lia.
Qed.

(** Property: up to 32 MB the configuration of a message is the smallest class that
    holds it; a block buffer then has room for the message and its
    information; the blocks fit into the shared memory as long as the state
    and a block header take at most 1 KB; [Update] of a ceiling gives the same
    configuration (so that a process that opens the memory agrees with the one
    that made it).  A larger message still gets the class of 32 MB. *)
Theorem shm_conf_smallest_class n state_size block_size :
  0 ≤ n → 0 ≤ state_size ≤ STATE_SIZE → 0 ≤ block_size ≤ BLOCK_SIZE →
  let c := ShmConf_Update n in
  (n ≤ MESSAGE_SIZE_MORE →
     n + MESSAGE_INFO_SIZE ≤ block_buf_size_ c ∧
     ∀ m, m ∈ classes → n ≤ m → ceiling_msg_size_ c ≤ m) ∧
  (MESSAGE_SIZE_MORE < n → ceiling_msg_size_ c = MESSAGE_SIZE_MORE) ∧
  state_size + block_num_ c * block_size + block_num_ c * block_buf_size_ c ≤ managed_shm_size_ c ∧
  ShmConf_Update (ceiling_msg_size_ c) = c.
Proof.
  intros H0 Hst Hbl c. split; [|split; [|split; [|apply conf_of_ceiling]]].
  - intros Hn. split.
    + pose proof (conf_fits n Hn) as Hf. fold c in Hf.
      assert (Hb : block_buf_size_ c = ceiling_msg_size_ c + MESSAGE_INFO_SIZE).
      { apply (conf_cases (λ c, block_buf_size_ c = ceiling_msg_size_ c + MESSAGE_INFO_SIZE)).
        repeat constructor; vm_compute; reflexivity. }
      lia.
    + intros m Hm Hnm. by apply ceiling_least.
  - intros Hn. unfold c. cbn [ShmConf_Update ceiling_msg_size_]. unfold GetCeilingMessageSize.
    size_cases; lia.
  - apply (conf_cases (λ c, state_size + block_num_ c * block_size + block_num_ c * block_buf_size_ c
      ≤ managed_shm_size_ c)).
    unfold STATE_SIZE, BLOCK_SIZE in *.
    repeat constructor; match goal with |- context [ShmConf_Update ?x] =>
      let c := eval vm_compute in (ShmConf_Update x) in change (ShmConf_Update x) with c end; simpl; lia.
Qed.

Lemma shm_conf_smallest_class_witness :
  (0 ≤ 20000 ≤ MESSAGE_SIZE_MORE) ∧ 20000 + MESSAGE_INFO_SIZE ≤ block_buf_size_ (ShmConf_Update 20000).
Proof.
  split; [unfold MESSAGE_SIZE_MORE; lia|].
  apply (shm_conf_smallest_class 20000 0 0); unfold STATE_SIZE, BLOCK_SIZE, MESSAGE_SIZE_MORE; lia.
Defined.

(** ** [Block] *)

Module Block.

Definition kRWLockFree : Z := 0.
Definition kWriteExclusive : Z := -1.
Definition kMaxTryLockTimes : nat := 5.

(** [TryLockForRead] between its accesses; [k] counts the failed attempts. *)
Inductive pc := RLoad (k : nat) | RCas (lock_num : Z) (k : nat).

(** [holders]: who got the lock and has not released it. *)
Record state := mkState { lock_num_ : Z; holders : RWSpec.state; trying : gmap nat pc }.

Inductive label :=
| TryWrite (t : nat) (spurious : bool) | TryRead (t : nat) | Step (t : nat) (spurious : bool)
| ReleaseWrite (t : nat) | ReleaseRead (t : nat).

Definition init : state := mkState 0 RWSpec.free ∅.

(** [TryLockForWrite]: one weak compare-and-swap. *)
Definition TryLockForWrite (s : state) (t : nat) (spurious : bool) : state * option RWSpec.event :=
  if negb spurious && (lock_num_ s =? kRWLockFree)
  then (mkState kWriteExclusive (RWSpec.mkState (RWSpec.readers (holders s)) (Some t)) (trying s),
        Some (RWSpec.AcqWrite t))
  else (s, None).

(** [TryLockForRead]: gives up when a writer is seen or after five attempts. *)
Definition TryLockForRead (s : state) (t : nat) (spurious : bool) (p : pc) :
    state * option RWSpec.event :=
  match p with
  | RLoad k =>
      if lock_num_ s <? kRWLockFree then (mkState (lock_num_ s) (holders s) (delete t (trying s)), None)
      else (mkState (lock_num_ s) (holders s) (<[t := RCas (lock_num_ s) k]> (trying s)), None)
  | RCas n k =>
      if negb spurious && (lock_num_ s =? n)
      then (mkState (i32 (n + 1))
              (RWSpec.mkState ({[ t ]} ∪ RWSpec.readers (holders s)) (RWSpec.writer (holders s)))
              (delete t (trying s)), Some (RWSpec.AcqRead t))
      else if decide (S k = kMaxTryLockTimes)
      then (mkState (lock_num_ s) (holders s) (delete t (trying s)), None)
      else (mkState (lock_num_ s) (holders s) (<[t := RLoad (S k)]> (trying s)), None)
  end.

Definition ReleaseWriteLock (s : state) (t : nat) : state * option RWSpec.event :=
  (mkState (i32 (lock_num_ s + 1)) (RWSpec.mkState (RWSpec.readers (holders s)) None) (trying s),
   Some (RWSpec.RelWrite t)).

Definition ReleaseReadLock (s : state) (t : nat) : state * option RWSpec.event :=
  (mkState (i32 (lock_num_ s - 1))
     (RWSpec.mkState (RWSpec.readers (holders s) ∖ {[ t ]}) (RWSpec.writer (holders s))) (trying s),
   Some (RWSpec.RelRead t)).

(** Only a holder releases, and only a process that holds nothing tries. *)
Definition idle (s : state) (t : nat) : Prop :=
  trying s !! t = None ∧ t ∉ RWSpec.readers (holders s) ∧ RWSpec.writer (holders s) ≠ Some t.

#[global] Instance idle_dec s t : Decision (idle s t).
Proof. unfold idle. apply _. Defined.

Definition exec (s : state) (l : label) : option (state * option RWSpec.event) :=
  match l with
  | TryWrite t spurious => if decide (idle s t) then Some (TryLockForWrite s t spurious) else None
  | TryRead t =>
      if decide (idle s t)
      then Some (mkState (lock_num_ s) (holders s) (<[t := RLoad 0]> (trying s)), None) else None
  | Step t spurious =>
      match trying s !! t with Some p => Some (TryLockForRead s t spurious p) | None => None end
  | ReleaseWrite t =>
      if decide (RWSpec.writer (holders s) = Some t) then Some (ReleaseWriteLock s t) else None
  | ReleaseRead t =>
      if decide (t ∈ RWSpec.readers (holders s)) then Some (ReleaseReadLock s t) else None
  end.

Definition Inv (n : nat) (s : state) (a : RWSpec.state) : Prop :=
  holders s = a ∧ lock_num_ s = RWSpec.word a ∧ RWSpec.exclusive a ∧
  (size (RWSpec.readers a) ≤ n)%nat ∧
  (∀ t p, trying s !! t = Some p → t ∉ RWSpec.readers a ∧
     match p with RCas m _ => 0 ≤ m | _ => True end).

Lemma block_exec_sim n s l s' e a :
  (n < 2 ^ 30)%nat → Inv n s a → exec s l = Some (s', e) →
  match e with
  | None => Inv (S n) s' a
  | Some x => ∃ a', RWSpec.step a x a' ∧ Inv (S n) s' a'
  end.
Proof.
  intros Hn (Hh & Hl & Hx & Hs & Ht) He.
  assert (Hb : Z.of_nat n < 1073741824).
  { apply inj_lt in Hn. rewrite Nat2Z.inj_pow in Hn. exact Hn. }
  clear Hn. destruct s as [lk hd tr]. simpl in *. subst hd lk.
  destruct l as [t sp|t|t sp|t|t]; simpl in He.
  - case_decide as Hi; [|done]. unfold TryLockForWrite in He. simpl in He.
    destruct (negb sp && _) eqn:E; simplify_eq;
      [|split; [done|split; [done|split; [done|split; [lia|done]]]]].
    apply andb_true_iff in E as [_ E%Z.eqb_eq]. destruct a as [r [w|]]; simpl in E; [done|].
    unfold RWSpec.word in E. simpl in E.
    assert (r = ∅) as -> by (apply leibniz_equiv, size_empty_inv; unfold kRWLockFree in E; lia).
    exists (RWSpec.mkState ∅ (Some t)). split; [constructor|].
    split; [done|]. split; [done|]. split; [by right|].
    split; [cbn [RWSpec.readers]; rewrite size_empty; lia|]. simpl. intros t' p Hp. by apply Ht in Hp.
  - case_decide as Hi; [|done]. simplify_eq. split; [done|]. split; [done|]. split; [done|].
    split; [lia|]. intros t' p. simpl. rewrite lookup_insert. case_decide; intros; simplify_eq; [|eauto].
    split; [|done]. apply Hi.
  - destruct (tr !! t) as [p|] eqn:Ep; [|done]. destruct (Ht _ _ Ep) as [Hni Hp].
    destruct p as [k|m k]; simpl in He.
    + destruct (Z.ltb_spec (RWSpec.word a) kRWLockFree); simplify_eq; (split; [done|]);
        (split; [done|]); (split; [done|]); (split; [lia|]); intros t' p; simpl.
      * intros [_ Hp']%lookup_delete_Some. eauto.
      * rewrite lookup_insert. case_decide; intros; simplify_eq; [|eauto]. by split.
    + destruct (negb sp && _) eqn:E.
      * simplify_eq. apply andb_true_iff in E as [_ <-%Z.eqb_eq]. destruct a as [r [w|]];
          unfold RWSpec.word in Hp; simpl in Hp; [lia|]. simpl in *.
        assert (Hsz : size ({[ t ]} ∪ r) = S (size r)).
        { rewrite size_union by set_solver. by rewrite size_singleton. }
        eexists. split; [by constructor|]. split; [done|].
        split; [|split; [by left|split; [cbn [RWSpec.readers]; lia|]]].
        -- unfold RWSpec.word. simpl. rewrite Hsz, swrap_small; [lia|lia|]. unfold in_s. simpl. lia.
        -- intros t' p. simpl. intros [Hne Hp']%lookup_delete_Some. destruct (Ht _ _ Hp').
           split; [set_solver|done].
      * case_decide; simplify_eq; (split; [done|]); (split; [done|]); (split; [done|]);
          (split; [lia|]); intros t' p; simpl.
        -- intros [_ Hp']%lookup_delete_Some. eauto.
        -- rewrite lookup_insert. case_decide; intros; simplify_eq; [|eauto]. by split.
  - case_decide as Hw; [|done]. unfold ReleaseWriteLock in He. simplify_eq.
    destruct a as [r w]. simpl in *. subst w. assert (r = ∅) as -> by (by destruct Hx).
    eexists. split; [constructor|]. split; [done|]. split; [reflexivity|]. split; [by left|].
    split; [cbn [RWSpec.readers]; rewrite size_empty; lia|]. simpl. intros t' p Hp. by apply Ht in Hp.
  - case_decide as Hr; [|done]. unfold ReleaseReadLock in He. simplify_eq.
    destruct a as [r w]. simpl in *.
    assert (w = None) as -> by (destruct Hx; simpl in *; [done|set_solver]).
    assert (Hsz : Z.of_nat (size (r ∖ {[ t ]})) = Z.of_nat (size r) - 1).
    { rewrite size_difference, size_singleton by set_solver.
      assert (size r ≠ 0%nat) by (rewrite size_non_empty_iff; set_solver). lia. }
    eexists. split; [by constructor|]. split; [done|].
    split; [|split; [by left|split; [cbn [RWSpec.readers]; lia|]]].
    + unfold RWSpec.word. simpl. rewrite Hsz, swrap_small; [lia|lia|]. unfold in_s. simpl. lia.
    + intros t' p. simpl. intros Hp. destruct (Ht _ _ Hp). split; [set_solver|done].
Qed.

Lemma block_init_Inv : Inv 0 init RWSpec.free.
Proof. split; [done|]. split; [done|]. split; [by left|]. split; [done|]. by intros t p ?. Qed.

(** Steps a reader still has to make at most. *)
Definition rank (p : pc) : nat :=
  match p with RLoad k => 2 * (5 - k) | RCas _ k => 2 * (5 - k) - 1 end.

Definition pc_bound (p : pc) : Prop := match p with RLoad k | RCas _ k => (k < 5)%nat end.

Definition is_step (t : nat) (l : label) : bool :=
  match l with Step t' _ => (t' =? t)%nat | _ => false end.

Definition steps_of (t : nat) (ls : list label) : nat :=
  length (filter (λ l, is_step t l = true) ls).

(** A step of [t] either ends its attempt or lowers its rank; steps of others
    leave it where it is. *)
Lemma exec_rank s l s' e t p :
  exec s l = Some (s', e) → trying s !! t = Some p → pc_bound p →
  (is_step t l = true ∧ (trying s' !! t = None ∨
     ∃ p', trying s' !! t = Some p' ∧ pc_bound p' ∧ (rank p' < rank p)%nat)) ∨
  (is_step t l = false ∧ trying s' !! t = Some p).
Proof.
  intros He Hp Hb. destruct l as [t' sp|t'|t' sp|t'|t']; simpl in *; repeat case_decide; simplify_eq.
  - right. split; [done|]. unfold TryLockForWrite in *. case_match; by simplify_eq.
  - right. split; [done|]. simpl. rewrite lookup_insert_ne; [done|]. intros ->. destruct H as [H _]. congruence.
  - destruct (Nat.eqb_spec t' t) as [->|Hne].
    + left. split; [done|]. rewrite Hp in He. destruct p as [k|m k]; simpl in *.
      * case_match; simplify_eq; simpl; [left; apply lookup_delete_eq|right].
        rewrite lookup_insert_eq. eexists. split; [done|]. simpl. lia.
      * case_match; simplify_eq; simpl; [left; apply lookup_delete_eq|].
        case_decide; simplify_eq; simpl; [left; apply lookup_delete_eq|right].
        rewrite lookup_insert_eq. eexists. split; [done|]. unfold kMaxTryLockTimes in *. simpl. lia.
    + right. split; [done|]. destruct (trying s !! t') as [p'|]; [|done].
      destruct p'; simpl in He; repeat (case_match || case_decide); simplify_eq; simpl;
        by rewrite ?lookup_delete_ne, ?lookup_insert_ne.
  - right. split; [done|]. by injection He as <- _.
  - right. split; [done|]. by injection He as <- _.
Qed.

(** No more than [rank p] further steps before the attempt of [t] has an
    answer. *)
Lemma rank_bounds_steps ls : ∀ s t p s' es,
  trying s !! t = Some p → pc_bound p → ev_run exec s ls = Some (s', es) →
  (rank p < steps_of t ls)%nat →
  ∃ pre post s1 es1, ls = pre ++ post ∧ ev_run exec s pre = Some (s1, es1) ∧
    (steps_of t pre ≤ rank p)%nat ∧ trying s1 !! t = None.
Proof.
  induction ls as [|l ls IH]; intros s t p s' es Hp Hb Hr Hlt; [unfold steps_of in Hlt; cbn in Hlt; lia|].
  simpl in Hr. destruct (exec s l) as [[s1 e]|] eqn:He; [|done].
  destruct (ev_run exec s1 ls) as [[s2 es2]|] eqn:Hr2; [|done].
  assert (Hone : ev_run exec s [l] = Some (s1, match e with Some x => [x] | None => [] end)).
  { simpl. by rewrite He. }
  assert (Hc : ∀ k, steps_of t (l :: k) = ((if is_step t l then 1 else 0) + steps_of t k)%nat).
  { intros k. unfold steps_of. simpl. rewrite filter_cons. destruct (is_step t l);
      [by rewrite decide_True|by rewrite decide_False]. }
  assert (Hgo : ∀ p1, trying s1 !! t = Some p1 → pc_bound p1 →
     ((if is_step t l then 1 else 0) + rank p1 ≤ rank p)%nat →
     ∃ pre post s0 es0, l :: ls = pre ++ post ∧ ev_run exec s pre = Some (s0, es0) ∧
       (steps_of t pre ≤ rank p)%nat ∧ trying s0 !! t = None).
  { intros p1 Hp1 Hb1 Hle. rewrite Hc in Hlt.
    destruct (IH s1 t p1 s2 es2 Hp1 Hb1 Hr2) as (pre & post & s0 & es0 & -> & Hpre & Hn & Ht); [lia|].
    exists (l :: pre), post, s0. eexists. split; [done|]. simpl. rewrite He, Hpre.
    split; [done|]. rewrite Hc. split; [lia|done]. }
  destruct (exec_rank _ _ _ _ _ _ He Hp Hb) as [[Hi [Hn|(p' & Hp' & Hb' & Hlt')]]|[Hi Hp']].
  - exists [l], ls, s1. eexists. split; [done|]. split; [exact Hone|]. split; [|done].
    rewrite Hc, Hi. change (steps_of t []) with 0%nat. destruct p as [k|m k]; simpl in *; lia.
  - apply (Hgo p'); [done|done|]. rewrite Hi. lia.
  - apply (Hgo p); [done|done|]. rewrite Hi. lia.
Qed.

End Block.

(** Property: the lock of a block refines the readers-writer lock: in any
    interleaving of attempts (with spurious failures) and releases, an attempt
    that succeeds is an acquisition the abstract lock allows, so a block is
    never written while it is read or written.  ([2^30] steps are fewer than
    would overflow the counter.) *)
Theorem block_lock_exclusive ls s es :
  ev_run Block.exec Block.init ls = Some (s, es) → (length ls ≤ 2 ^ 30)%nat →
  ∃ a, trace RWSpec.step RWSpec.free es a ∧ RWSpec.exclusive a ∧ Block.holders s = a ∧
    Block.lock_num_ s = RWSpec.word a.
Proof.
  intros Hr Hn. destruct (ev_simulation_bounded Block.exec RWSpec.step (2 ^ 30) Block.Inv Block.block_exec_sim
    _ _ _ _ _ Block.block_init_Inv Hn Hr) as (a & Ht & (Hh & Hl & Hx & _)). by exists a.
Qed.

Definition lock_example : list Block.label :=
  [Block.TryRead 1; Block.Step 1 false; Block.TryRead 2; Block.Step 2 false; Block.Step 1 false;
   Block.Step 2 false; Block.TryWrite 3 false; Block.Step 2 false; Block.Step 2 false;
   Block.ReleaseRead 1; Block.ReleaseRead 2; Block.TryWrite 3 false].

Lemma block_lock_exclusive_witness :
  ∃ s, ev_run Block.exec Block.init lock_example =
      Some (s, [RWSpec.AcqRead 1; RWSpec.AcqRead 2; RWSpec.RelRead 1; RWSpec.RelRead 2;
                RWSpec.AcqWrite 3]) ∧
    RWSpec.exclusive (Block.holders s).
Proof.
  destruct (ev_run Block.exec Block.init lock_example) as [[s es]|] eqn:E;
    [|vm_compute in E; discriminate E].
  destruct (block_lock_exclusive _ _ _ E) as (a & _ & Hx & Hh & _).
  { apply Nat.le_trans with (2 ^ 4)%nat; [vm_compute; lia|apply Nat.pow_le_mono_r; lia]. }
  exists s. split; [|by rewrite Hh]. vm_compute in E. injection E as <- <-. reflexivity.
Defined.

(** Property: an attempt to read is wait-free: whatever the others do and however
    often the compare-and-swap fails, it has an answer within ten of its own
    steps (five rounds of a load and a compare-and-swap). *)
Theorem try_lock_for_read_wait_free s t ls s' es :
  Block.trying s !! t = Some (Block.RLoad 0) → ev_run Block.exec s ls = Some (s', es) →
  (10 < Block.steps_of t ls)%nat →
  ∃ pre post s1 es1, ls = pre ++ post ∧ ev_run Block.exec s pre = Some (s1, es1) ∧
    (Block.steps_of t pre ≤ 10)%nat ∧ Block.trying s1 !! t = None.
Proof. intros Hp. apply (Block.rank_bounds_steps ls s t (Block.RLoad 0)); [done|simpl; lia]. Qed.

(** A reader whose compare-and-swaps all fail gives up after ten steps; it may
    then try again. *)
Definition spurious_example : list Block.label :=
  [Block.TryRead 1] ++ replicate 10 (Block.Step 1 true) ++ [Block.TryRead 1; Block.Step 1 false].

Lemma try_lock_for_read_wait_free_witness :
  ∃ s s' es, ev_run Block.exec s (drop 1 spurious_example) = Some (s', es) ∧
    ∃ pre post s1 es1, drop 1 spurious_example = pre ++ post ∧
      ev_run Block.exec s pre = Some (s1, es1) ∧ (Block.steps_of 1 pre ≤ 10)%nat ∧
      Block.trying s1 !! 1%nat = None.
Proof.
  set (s := Block.mkState 0 RWSpec.free {[ 1%nat := Block.RLoad 0 ]}).
  destruct (ev_run Block.exec s (drop 1 spurious_example)) as [[s' es]|] eqn:E;
    [|vm_compute in E; discriminate E].
  exists s, s', es. split; [exact E|].
  apply (try_lock_for_read_wait_free s 1 _ s' es); [reflexivity|exact E|vm_compute; lia].
Defined.
