(* ===== verification/Segment.v ===== *)
(** * [cyber/transport/shm/segment.cc], [posix_segment.cc], [state.h]

    The shared memory of one channel: [World] holds the memory objects and the
    name under which the channel's object is found, [Segment] is what one
    process keeps.  Operations run in a monad of state and faults: a fault is a
    null [state_] or [blocks_] dereferenced, or a block outside of the array.
    The system calls succeed or fail as the argument [os] says.  [Module State]
    interleaves the accesses to the reference count. *)

From S2P Require Import Prelude RWLock ShmBlock.

(** ** [State]: the counters in the shared memory *)

Module State.

(** [DecreaseReferenceCounts] after its load. *)
Inductive pc := DecCheck (current_reference_count : Z).

Record state := mkState { reference_count_ : Z; dec : gmap nat pc }.

Inductive label := Increase (t : nat) | Decrease (t : nat) | Step (t : nat).

Inductive event := Attached | Detached.

Definition IncreaseReferenceCounts (s : state) : state * option event :=
  (mkState (u32 (reference_count_ s + 1)) (dec s), Some Attached).

(** One round of the loop: nothing to do at 0, else a (strong) compare-and-swap
    that on failure reloads the count. *)
Definition DecreaseReferenceCounts (s : state) (t : nat) (p : pc) : state * option event :=
  let '(DecCheck n) := p in
  if n =? 0 then (mkState (reference_count_ s) (delete t (dec s)), None)
  else if reference_count_ s =? n
  then (mkState (u32 (n - 1)) (delete t (dec s)), Some Detached)
  else (mkState (reference_count_ s) (<[t := DecCheck (reference_count_ s)]> (dec s)), None).

Definition exec (s : state) (l : label) : option (state * option event) :=
  match l with
  | Increase t => Some (IncreaseReferenceCounts s)
  | Decrease t =>
      match dec s !! t with
      | Some _ => None
      | None =>
          Some (mkState (reference_count_ s) (<[t := DecCheck (reference_count_ s)]> (dec s)), None)
      end
  | Step t =>
      match dec s !! t with Some p => Some (DecreaseReferenceCounts s t p) | None => None end
  end.

Definition init : state := mkState 0 ∅.

(** The number of processes attached: a decrement happens only above zero. *)
Inductive spec : nat → event → nat → Prop :=
| spec_attached n : spec n Attached (S n)
| spec_detached n : spec (S n) Detached n.

Definition Inv (k : nat) (s : state) (n : nat) : Prop :=
  reference_count_ s = Z.of_nat n ∧ (n ≤ k)%nat ∧
  ∀ t m, dec s !! t = Some (DecCheck m) → 0 ≤ m.

Lemma count_exec_sim k s l s' e n :
  (k < 2 ^ 31)%nat → Inv k s n → exec s l = Some (s', e) →
  match e with
  | None => Inv (S k) s' n
  | Some x => ∃ n', spec n x n' ∧ Inv (S k) s' n'
  end.
Proof.
  intros Hk' (Hc & Hn & Hd) He.
  assert (Hk : Z.of_nat k < 2147483648).
  { apply inj_lt in Hk'. rewrite Nat2Z.inj_pow in Hk'. exact Hk'. }
  clear Hk'. destruct s as [c d]. simpl in *. subst c.
  destruct l as [t|t|t]; simpl in He.
  - unfold IncreaseReferenceCounts in He. simplify_eq. exists (S n). split; [constructor|]. split; [|split; [lia|done]].
    simpl. rewrite wrap_small; [lia|]. wordlia.
  - destruct (d !! t) eqn:E; [done|]. simplify_eq. split; [done|]. split; [lia|].
    simpl. intros t' m. rewrite lookup_insert. case_decide; intros; simplify_eq; [lia|eauto].
  - destruct (d !! t) as [[m]|] eqn:E; [|done]. unfold DecreaseReferenceCounts in He.
    simpl in He. pose proof (Hd _ _ E). destruct (Z.eqb_spec m 0); simplify_eq.
    { split; [done|]. split; [lia|]. simpl. intros t' m' [_ ?]%lookup_delete_Some. eauto. }
    destruct (Z.eqb_spec (Z.of_nat n) m); simplify_eq.
    + exists (pred n). split; [destruct n; [lia|constructor]|].
      split; [|split; [lia|]].
      * simpl. rewrite wrap_small; [lia|]. wordlia.
      * simpl. intros t' m' [_ ?]%lookup_delete_Some. eauto.
    + split; [done|]. split; [lia|].
      simpl. intros t' m'. rewrite lookup_insert. case_decide; intros; simplify_eq; [lia|eauto].
Qed.

Lemma count_init_Inv : Inv 0 init 0.
Proof. split; [done|]. split; [done|]. by intros t m ?. Qed.
End State.

(** Property: the reference count is the number of processes attached, in any
    interleaving: a decrement is an atomic one and never goes below zero, so the
    count never wraps and the memory is removed by the last process only. *)
Theorem reference_count_never_underflows ls s es :
  ev_run State.exec State.init ls = Some (s, es) → (length ls ≤ 2 ^ 31)%nat →
  ∃ n, trace State.spec 0%nat es n ∧ State.reference_count_ s = Z.of_nat n.
Proof.
  intros Hr Hn. destruct (ev_simulation_bounded State.exec State.spec (2 ^ 31) State.Inv State.count_exec_sim
    _ _ _ _ _ State.count_init_Inv Hn Hr) as (n & Ht & Hc & _). by exists n.
Qed.

(** Two processes detach at once, one more than attached: the third finds 0. *)
Definition detach_example : list State.label :=
  [State.Increase 1; State.Increase 2; State.Decrease 1; State.Decrease 2; State.Step 1; State.Step 2;
   State.Decrease 3; State.Step 3; State.Step 2; State.Step 2].

Lemma reference_count_never_underflows_witness :
  ∃ s, ev_run State.exec State.init detach_example =
      Some (s, [State.Attached; State.Attached; State.Detached; State.Detached]) ∧
    ∃ n, State.reference_count_ s = Z.of_nat n.
Proof.
  destruct (ev_run State.exec State.init detach_example) as [[s es]|] eqn:E;
    [|vm_compute in E; discriminate E].
  destruct (reference_count_never_underflows _ _ _ E) as (n & _ & Hn).
  { apply Nat.le_trans with (2 ^ 4)%nat; [vm_compute; lia|apply Nat.pow_le_mono_r; lia]. }
  exists s. split; [|by exists n]. vm_compute in E. injection E as <- <-. reflexivity.
Defined.

(** ** [Segment] *)

(** What the system calls of one operation answer; the result of [shm_unlink]
    is only logged or returned. *)
Record os := mkOs { shm_open_ok : bool; ftruncate_ok : bool; fstat_ok : bool; mmap_ok : bool;
  unlink_ok : bool }.

Definition os_good : os := mkOs true true true true true.

(** A memory object: the fields of [State] and the locks of the blocks
    (the contents of the buffers are not kept). *)
Record Shm := mkShm { st_size : Z; need_remap_ : bool; seq_ : Z; refs : Z; shm_ceiling : Z;
  lock_nums : list Z }.

Record World := mkWorld { name : option nat; objs : list Shm }.

Inductive mapping := Unmapped | MapFailed | Mapped (id : nat).

(** [block_buf_addrs_]: the object and the offset; [None] is the null pointer
    that [operator[]] inserts for a missing index. *)
Record Seg := mkSeg { init_ : bool; conf_ : ShmConf; state_ : option nat; blocks_ : option nat;
  managed_shm_ : mapping; block_buf_addrs_ : gmap Z (option (nat * Z)) }.

Definition Segment_new : Seg := mkSeg false ShmConf_new None None Unmapped ∅.

Definition world_empty : World := mkWorld None [].

Inductive fault := NullState | NullBlocks | BlockOutOfRange (index : Z).

Inductive outcome (A : Type) :=
| Ok (a : A) (g : Seg) (w : World)
| Fault (f : fault)
| Spinning (g : Seg) (w : World).
Arguments Ok {A}. Arguments Fault {A}. Arguments Spinning {A}.

Definition M (A : Type) : Type := Seg → World → outcome A.

#[global] Instance M_ret : MRet M := λ A a g w, Ok a g w.

#[global] Instance M_bind : MBind M := λ A B k m g w,
  match m g w with
  | Ok a g' w' => k a g' w'
  | Fault f => Fault f
  | Spinning g' w' => Spinning g' w'
  end.

Definition get : M Seg := λ g w, Ok g g w.
Definition put (g : Seg) : M () := λ _ w, Ok () g w.
Definition world : M World := λ g w, Ok w g w.
Definition set_world (w : World) : M () := λ g _, Ok () g w.

Definition set_init (b : bool) : M () :=
  λ g w, Ok () (mkSeg b (conf_ g) (state_ g) (blocks_ g) (managed_shm_ g) (block_buf_addrs_ g)) w.
Definition set_managed (m : mapping) : M () :=
  λ g w, Ok () (mkSeg (init_ g) (conf_ g) (state_ g) (blocks_ g) m (block_buf_addrs_ g)) w.
Definition set_conf (c : ShmConf) : M () :=
  λ g w, Ok () (mkSeg (init_ g) c (state_ g) (blocks_ g) (managed_shm_ g) (block_buf_addrs_ g)) w.
Definition set_name (n : option nat) : M () := λ g w, Ok () g (mkWorld n (objs w)).

(** [state_->...]: reads and updates the object behind [state_]. *)
Definition on_state {A} (f : Shm → A * Shm) : M A :=
  λ g w, match state_ g with
         | Some id =>
             match objs w !! id with
             | Some o => let '(a, o') := f o in Ok a g (mkWorld (name w) (<[id := o']> (objs w)))
             | None => Fault NullState
             end
         | None => Fault NullState
         end.

(** [blocks_[index]]: reads and updates one lock. *)
Definition on_block {A} (index : Z) (f : Z → A * Z) : M A :=
  λ g w, match blocks_ g with
         | Some id =>
             match objs w !! id with
             | Some o =>
                 match zget (lock_nums o) index with
                 | Some n =>
                     let '(a, n') := f n in
                     Ok a g (mkWorld (name w) (<[id := mkShm (st_size o) (need_remap_ o) (seq_ o) (refs o)
                       (shm_ceiling o) (zset (lock_nums o) index n')]> (objs w)))
                 | None => Fault (BlockOutOfRange index)
                 end
             | None => Fault NullBlocks
             end
         | None => Fault NullBlocks
         end.

Definition need_remap : M bool := on_state (λ o, (need_remap_ o, o)).
Definition set_need_remap (b : bool) : M () :=
  on_state (λ o, ((), mkShm (st_size o) b (seq_ o) (refs o) (shm_ceiling o) (lock_nums o))).
Definition FetchAddSeq (diff : Z) : M Z :=
  on_state (λ o, (seq_ o, mkShm (st_size o) (need_remap_ o) (u32 (seq_ o + diff)) (refs o)
    (shm_ceiling o) (lock_nums o))).
Definition ceiling_msg_size : M Z := on_state (λ o, (shm_ceiling o, o)).
Definition Increase : M () :=
  on_state (λ o, ((), mkShm (st_size o) (need_remap_ o) (seq_ o) (u32 (refs o + 1)) (shm_ceiling o)
    (lock_nums o))).
Definition Decrease : M () :=
  on_state (λ o, ((), mkShm (st_size o) (need_remap_ o) (seq_ o)
    (if refs o =? 0 then 0 else u32 (refs o - 1)) (shm_ceiling o) (lock_nums o))).
Definition reference_counts : M Z := on_state (λ o, (refs o, o)).

(** A block's lock, as one process sees it between two of its accesses:
    [refused] when every compare-and-swap of the attempt fails. *)
Definition try_write (refused : bool) (n : Z) : bool * Z :=
  if negb refused && (n =? Block.kRWLockFree) then (true, Block.kWriteExclusive) else (false, n).
Definition try_read (refused : bool) (n : Z) : bool * Z :=
  if (n <? Block.kRWLockFree) || refused then (false, n) else (true, i32 (n + 1)).

Section Layout.
Context (sizeof_State sizeof_Block : Z).

Definition buf_offset (c : ShmConf) (i : Z) : Z :=
  sizeof_State + block_num_ c * sizeof_Block + i * block_buf_size_ c.

(** The loop that records the address of every buffer. *)
Definition fill_addrs (id : nat) (c : ShmConf) (m : gmap Z (option (nat * Z))) :
    gmap Z (option (nat * Z)) :=
  foldl (λ m i, <[i := Some (id, buf_offset c i)]> m) m (seqZ 0 (block_num_ c)).

(** The end of both [Open] functions: [state_] and the configuration it asks
    for, [blocks_], the buffers, one more reference. *)
Definition attach (id : nat) (place : Shm → Shm) : M bool :=
  g ← get;
  w ← world;
  put (mkSeg (init_ g) (conf_ g) (Some id) (blocks_ g) (managed_shm_ g) (block_buf_addrs_ g));;
  set_world (mkWorld (name w) (alter place id (objs w)));;
  c ← ceiling_msg_size;
  set_conf (ShmConf_Update c);;
  g ← get;
  put (mkSeg (init_ g) (conf_ g) (state_ g) (Some id) (managed_shm_ g)
         (fill_addrs id (conf_ g) (block_buf_addrs_ g)));;
  Increase;;
  set_init true;;
  mret true.

Definition OpenOnly (e : os) : M bool :=
  g ← get;
  w ← world;
  if init_ g then mret true
  else match name w with
       | None => mret false
       | Some id =>
           if negb (shm_open_ok e) then mret false
           else if negb (fstat_ok e) then mret false
           else match objs w !! id with
                | Some o =>
                    if mmap_ok e && (0 <? st_size o)
                    then set_managed (Mapped id);; attach id (λ o, o)
                    else set_managed MapFailed;; mret false
                | None => mret false
                end
       end.

(** The constructors of [State] and of the blocks, in memory of the size of the
    configuration. *)
Definition place (c : ShmConf) (o : Shm) : Shm :=
  mkShm (st_size o) false 0 0 (ceiling_msg_size_ c) (replicate (Z.to_nat (block_num_ c)) 0).

(** [shm_open] with [O_CREAT | O_EXCL]; a name left by a failed [ftruncate]
    stays. *)
Definition OpenOrCreate (e : os) : M bool :=
  g ← get;
  w ← world;
  if init_ g then mret true
  else match name w with
       | Some _ => OpenOnly e
       | None =>
           if negb (shm_open_ok e) then mret false
           else
             let id := length (objs w) in
             let size := if ftruncate_ok e then managed_shm_size_ (conf_ g) else 0 in
             set_world (mkWorld (Some id) (objs w ++ [mkShm size false 0 0 0 []]));;
             if negb (ftruncate_ok e) then mret false
             else if negb (mmap_ok e)
             then set_managed MapFailed;; set_name None;; mret false
             else set_managed (Mapped id);; attach id (place (conf_ g))
       end.

Definition Remove (e : os) : M bool :=
  w ← world;
  match name w with
  | None => mret false
  | Some _ => if unlink_ok e then set_name None;; mret true else mret false
  end.

Definition Reset : M () :=
  g ← get;
  put (mkSeg (init_ g) (conf_ g) None None Unmapped ∅).

Definition Destroy (e : os) : M bool :=
  g ← get;
  if negb (init_ g) then mret true
  else
    set_init false;;
    Decrease;;
    n ← reference_counts;
    if n =? 0 then Remove e else mret true.

Definition Remap (e : os) : M bool :=
  set_init false;;
  Reset;;
  OpenOnly e.

Definition Recreate (e : os) (msg_size : Z) : M bool :=
  set_init false;;
  set_need_remap true;;
  Reset;;
  Remove e;;
  set_conf (ShmConf_Update msg_size);;
  OpenOrCreate e.

(** The endless loop, as many rounds as [tries] has; a member says whether the
    weak compare-and-swap of that round fails although the block is free. *)
Fixpoint GetNextWritableBlockIndex (tries : list bool) : M Z :=
  match tries with
  | [] => λ g w, Spinning g w
  | spurious :: tries =>
      g ← get;
      seq ← FetchAddSeq 1;
      let try_idx := seq mod block_num_ (conf_ g) in
      locked ← on_block try_idx (try_write spurious);
      if locked : bool then mret try_idx else GetNextWritableBlockIndex tries
  end.

(** [block_buf_addrs_[index]] *)
Definition block_buf_addr (index : Z) : M (option (nat * Z)) :=
  g ← get;
  match block_buf_addrs_ g !! index with
  | Some a => mret a
  | None =>
      put (mkSeg (init_ g) (conf_ g) (state_ g) (blocks_ g) (managed_shm_ g)
             (<[index := None]> (block_buf_addrs_ g)));;
      mret None
  end.

(** [e1], [e2], [e3]: the system calls of opening, of [Remap], of [Recreate].
    The answer is the index, and the buffer. *)
Definition AcquireBlockToWrite (e1 e2 e3 : os) (msg_size : Z) (tries : list bool) :
    M (option (Z * option (nat * Z))) :=
  g ← get;
  opened ← (if init_ g then mret true else OpenOrCreate e1);
  if negb opened then mret None
  else
    remap ← need_remap;
    result ← (if remap : bool then Remap e2 else mret true);
    g ← get;
    result ← (if ceiling_msg_size_ (conf_ g) <? msg_size then Recreate e3 msg_size else mret result);
    if negb result then mret None
    else
      index ← GetNextWritableBlockIndex tries;
      buf ← block_buf_addr index;
      mret (Some (index, buf)).

Definition ReleaseWrittenBlock (index : Z) : M () :=
  g ← get;
  if block_num_ (conf_ g) <=? index then mret ()
  else on_block index (λ n, ((), i32 (n + 1))).

Definition AcquireBlockToRead (e1 e2 : os) (index : Z) (refused : bool) :
    M (option (option (nat * Z))) :=
  g ← get;
  opened ← (if init_ g then mret true else OpenOnly e1);
  if negb opened then mret None
  else
    g ← get;
    if block_num_ (conf_ g) <=? index then mret None
    else
      remap ← need_remap;
      result ← (if remap : bool then Remap e2 else mret true);
      if negb result then mret None
      else
        locked ← on_block index (try_read refused);
        if negb locked then mret None
        else buf ← block_buf_addr index; mret (Some buf).

Definition ReleaseReadBlock (index : Z) : M () :=
  g ← get;
  if block_num_ (conf_ g) <=? index then mret ()
  else on_block index (λ n, ((), i32 (n - 1))).

(** *** Well-formed worlds and segments *)

Definition conf_at (o : Shm) : ShmConf := ShmConf_Update (shm_ceiling o).

(** An object with a state and blocks in it. *)
Definition live (o : Shm) : Prop :=
  ceiling_msg_size_ (conf_at o) = shm_ceiling o ∧ st_size o = managed_shm_size_ (conf_at o) ∧
  zlen (lock_nums o) = block_num_ (conf_at o).

(** What never changes in a live object. *)
Definition shape (o : Shm) : Z * Z * Z := (st_size o, shm_ceiling o, zlen (lock_nums o)).

Definition wf_world (w : World) : Prop :=
  ∀ id, name w = Some id → ∃ o, objs w !! id = Some o ∧ (st_size o = 0 ∨ live o).

(** Where [state_] is set, [blocks_] and the buffers belong to the same live
    object, whose configuration is [conf_]. *)
Definition wf_seg (g : Seg) (w : World) : Prop :=
  (∃ n, conf_ g = ShmConf_Update n) ∧ blocks_ g = state_ g ∧
  (init_ g = true → is_Some (state_ g)) ∧
  ∀ id, state_ g = Some id → ∃ o, objs w !! id = Some o ∧ live o ∧ conf_ g = conf_at o ∧
    ∀ i, 0 ≤ i < block_num_ (conf_ g) →
      block_buf_addrs_ g !! i = Some (Some (id, buf_offset (conf_ g) i)).

Definition wf (g : Seg) (w : World) : Prop := wf_world w ∧ wf_seg g w.

(** Objects stay, live ones keep their shape and the request to remap: what
    other processes rely on.  With [locks] the locks do not change either. *)
Definition keeps (locks : bool) (o o' : Shm) : Prop :=
  shape o' = shape o ∧ (need_remap_ o = true → need_remap_ o' = true) ∧
  (locks = true → lock_nums o' = lock_nums o).

Definition evolves (locks : bool) (w w' : World) : Prop :=
  ∀ id o, objs w !! id = Some o → ∃ o', objs w' !! id = Some o' ∧ (live o → keeps locks o o').

Lemma evolves_weaken b w w' : evolves true w w' → evolves b w w'.
Proof.
  intros He id o Ho. destruct (He _ _ Ho) as (o' & Ho' & Hk). exists o'. split; [done|].
  intros Hl. destruct (Hk Hl) as (? & ? & ?). split; [done|]. split; [done|auto].
Qed.

Lemma evolves_refl b w : evolves b w w.
Proof. intros id o Ho. by exists o. Qed.

Lemma shape_live o o' : shape o' = shape o → live o → live o'.
Proof. unfold shape, live, conf_at. intros [= -> -> ->]. done. Qed.

Lemma shape_conf o o' : shape o' = shape o → conf_at o' = conf_at o.
Proof. unfold shape, conf_at. by intros [= _ -> _]. Qed.

Lemma evolves_trans b w1 w2 w3 : evolves b w1 w2 → evolves b w2 w3 → evolves b w1 w3.
Proof.
  intros H12 H23 id o Ho. destruct (H12 _ _ Ho) as (o2 & Ho2 & H2).
  destruct (H23 _ _ Ho2) as (o3 & Ho3 & H3). exists o3. split; [done|]. intros Hl.
  destruct (H2 Hl) as (Hs2 & Hn2 & Hk2). destruct H3 as (Hs3 & Hn3 & Hk3); [by eapply shape_live|].
  split; [congruence|]. split; [auto|]. intros Hb. rewrite Hk3, Hk2; done.
Qed.

(** The steps of other processes do not invalidate a segment. *)
Lemma wf_seg_evolves b g w w' : evolves b w w' → wf_seg g w → wf_seg g w'.
Proof.
  intros He (Hc & Hbl & Hi & Hs). split; [done|]. split; [done|]. split; [done|].
  intros id Hid. destruct (Hs id Hid) as (o & Ho & Hl & Hcf & Ha).
  destruct (He _ _ Ho) as (o' & Ho' & Hsh). specialize (Hsh Hl) as [Hsh _].
  exists o'. split; [done|]. split; [by eapply shape_live|]. split; [|done].
  by rewrite (shape_conf _ _ Hsh).
Qed.

(** Replacing an object by one of the same shape. *)
Lemma evolves_insert b w id o o' :
  objs w !! id = Some o → (live o → keeps b o o') →
  evolves b w (mkWorld (name w) (<[id := o']> (objs w))).
Proof.
  intros Ho Hsh id2 o2 Ho2. simpl. destruct (decide (id = id2)) as [<-|Hne].
  - exists o'. rewrite list_lookup_insert_eq by (by eapply lookup_lt_Some). split; [done|].
    by simplify_eq.
  - exists o2. by rewrite list_lookup_insert_ne.
Qed.

Lemma wf_world_insert w id o o' :
  wf_world w → objs w !! id = Some o → (st_size o = 0 ∨ live o → st_size o' = 0 ∨ live o') →
  wf_world (mkWorld (name w) (<[id := o']> (objs w))).
Proof.
  intros Hw Ho Hl id2 Hn. simpl in *. destruct (Hw _ Hn) as (o2 & Ho2 & Hl2).
  destruct (decide (id = id2)) as [<-|Hne].
  - exists o'. rewrite list_lookup_insert_eq by (by eapply lookup_lt_Some). split; [done|].
    simplify_eq. by apply Hl.
  - exists o2. by rewrite list_lookup_insert_ne.
Qed.

Lemma wf_insert b g w id o o' :
  wf g w → objs w !! id = Some o → live o → keeps b o o' →
  wf g (mkWorld (name w) (<[id := o']> (objs w))) ∧
  evolves b w (mkWorld (name w) (<[id := o']> (objs w))).
Proof.
  intros [Hw Hs] Ho Hl Hsh.
  assert (He : evolves b w (mkWorld (name w) (<[id := o']> (objs w)))) by (by eapply evolves_insert).
  split; [|done]. split; [|by eapply wf_seg_evolves].
  eapply wf_world_insert; [done|done|]. intros _. right. eapply shape_live; [apply Hsh|done].
Qed.

Lemma fill_addrs_lookup id c m i :
  0 ≤ i < block_num_ c → fill_addrs id c m !! i = Some (Some (id, buf_offset c i)).
Proof.
  intros Hi. unfold fill_addrs.
  assert (Hg : ∀ l (m : gmap Z (option (nat * Z))),
    i ∈ l ∨ m !! i = Some (Some (id, buf_offset c i)) →
    foldl (λ m i, <[i := Some (id, buf_offset c i)]> m) m l !! i = Some (Some (id, buf_offset c i))).
  { induction l as [|j l IH]; simpl; intros m' [H|H]; [by apply elem_of_nil in H|done|..].
    - apply IH. apply elem_of_cons in H as [->|H]; [right; by rewrite lookup_insert_eq|by left].
    - apply IH. right. destruct (decide (j = i)) as [->|Hne];
        [by rewrite lookup_insert_eq|by rewrite lookup_insert_ne]. }
  apply Hg. left. apply elem_of_seqZ. lia.
Qed.

(** The buffers do not overlap the blocks or each other and end before the
    memory does. *)
Lemma buffers_in_memory n i :
  0 ≤ sizeof_State ≤ STATE_SIZE → 0 ≤ sizeof_Block ≤ BLOCK_SIZE →
  let c := ShmConf_Update n in 0 ≤ i < block_num_ c →
  sizeof_State + block_num_ c * sizeof_Block ≤ buf_offset c i ∧
  buf_offset c i + block_buf_size_ c ≤ managed_shm_size_ c.
Proof.
  intros Hst Hbl c Hi. unfold buf_offset.
  assert (H : 0 ≤ block_buf_size_ c ∧
    STATE_SIZE + block_num_ c * BLOCK_SIZE + block_num_ c * block_buf_size_ c ≤ managed_shm_size_ c).
  { apply (conf_cases (λ c, 0 ≤ block_buf_size_ c ∧
      STATE_SIZE + block_num_ c * BLOCK_SIZE + block_num_ c * block_buf_size_ c ≤ managed_shm_size_ c)).
    repeat constructor; vm_compute; discriminate. }
  nia.
Qed.

(** *** What the operations do *)

(** [post m g w Q]: [m] has no fault and [Q] holds of its answer. *)
Definition post {A} (m : M A) (g : Seg) (w : World) (Q : A → Seg → World → Prop) : Prop :=
  match m g w with Ok a g' w' => Q a g' w' | _ => False end.

Definition count_one (o : Shm) : Shm :=
  mkShm (st_size o) (need_remap_ o) (seq_ o) (u32 (refs o + 1)) (shm_ceiling o) (lock_nums o).

Lemma attach_eq id pl g w o :
  objs w !! id = Some o →
  attach id pl g w =
    Ok true
      (mkSeg true (conf_at (pl o)) (Some id) (Some id) (managed_shm_ g)
         (fill_addrs id (conf_at (pl o)) (block_buf_addrs_ g)))
      (mkWorld (name w) (<[id := count_one (pl o)]> (objs w))).
Proof.
  intros Ho. pose proof (lookup_lt_Some _ _ _ Ho) as Hlt.
  assert (Hal : alter pl id (objs w) !! id = Some (pl o)) by (by rewrite list_lookup_alter_eq, Ho).
  unfold attach, get, put, world, set_world, ceiling_msg_size, Increase, on_state, set_init, set_conf.
  unfold mbind, M_bind, mret, M_ret. simpl. rewrite Hal. simpl.
  rewrite list_lookup_insert_eq by (by rewrite length_alter). simpl. rewrite list_insert_insert_eq.
  unfold count_one. do 2 f_equal. apply list_eq. intros j. destruct (decide (id = j)) as [<-|Hne].
  - rewrite !list_lookup_insert_eq; [done|done|by rewrite length_alter].
  - rewrite !list_lookup_insert_ne by done. by apply list_lookup_alter_ne.
Qed.

(** Both [Open] functions: on success the segment is attached to the object the
    channel's name stands for. *)
Definition opened (b : bool) (g : Seg) (w : World) (g' : Seg) (w' : World) : Prop :=
  wf g' w' ∧ evolves true w w' ∧
  if b then init_ g' = true ∧ ∃ id o, name w' = Some id ∧ state_ g' = Some id ∧ objs w' !! id = Some o ∧
    live o
  else init_ g' = false ∧ state_ g' = state_ g.

Lemma count_one_shape o : shape (count_one o) = shape o.
Proof. done. Qed.

Lemma attach_opened id pl g g0 w o :
  name w = Some id → objs w !! id = Some o → (live o → keeps true o (pl o)) → live (pl o) →
  post (attach id pl) g w (λ b, opened b g0 w).
Proof.
  intros Hn Ho Hsh Hl. unfold post. rewrite (attach_eq _ _ _ _ _ Ho).
  assert (Hlt : (id < length (objs w))%nat) by (by eapply lookup_lt_Some).
  assert (Hl' : live (count_one (pl o))) by (eapply shape_live; [apply count_one_shape|done]).
  split; [split|split].
  - intros id' Hn'. simpl in *. simplify_eq. exists (count_one (pl o)).
    rewrite list_lookup_insert_eq by done. split; [done|]. by right.
  - split; [|split; [done|split; [done|]]].
    + simpl. by exists (shm_ceiling (pl o)).
    + simpl. intros id' [= <-]. exists (count_one (pl o)).
      rewrite list_lookup_insert_eq by done. split; [done|]. split; [done|]. split; [done|].
      intros i Hi. by apply fill_addrs_lookup.
  - eapply evolves_insert; [done|]. intros H. by apply Hsh.
  - split; [done|]. exists id, (count_one (pl o)). simpl.
    rewrite list_lookup_insert_eq by done. done.
Qed.

Lemma opened_fail g w g' w' :
  wf_world w' → evolves true w w' → wf_seg g w → init_ g = false →
  g' = g ∨ (∃ m, g' = mkSeg false (conf_ g) (state_ g) (blocks_ g) m (block_buf_addrs_ g)) →
  opened false g w g' w'.
Proof.
  intros Hw He Hs Hi H. apply (wf_seg_evolves _ _ _ _ He) in Hs. split; [|split; [done|]].
  - split; [done|]. destruct H as [->|[m ->]]; [done|]. destruct Hs as (? & ? & ? & ?). by split.
  - destruct H as [->|[m ->]]; [done|]. done.
Qed.

(** A segment whose memory is mapped elsewhere before it attaches. *)
Lemma OpenOnly_opened e g w :
  wf g w → init_ g = false → post (OpenOnly e) g w (λ b g' w', opened b g w g' w' ∧ name w' = name w).
Proof.
  intros Hwf Hi. pose proof Hwf as [Hw Hs].
  unfold post, OpenOnly, get, world, mbind, M_bind. rewrite Hi.
  destruct (name w) as [id|] eqn:Hn; simpl; [|split; [apply opened_fail; auto using evolves_refl|done]].
  destruct (Hw id Hn) as (o & Ho & Hl).
  destruct (shm_open_ok e); simpl; [|split; [apply opened_fail; auto using evolves_refl|done]].
  destruct (fstat_ok e); simpl; [|split; [apply opened_fail; auto using evolves_refl|done]].
  rewrite Ho. destruct (mmap_ok e && (0 <? st_size o)) eqn:Em; simpl.
  - apply andb_true_iff in Em as [_ Hz%Z.ltb_lt]. destruct Hl as [Hl|Hl]; [lia|].
    pose proof (attach_opened id (λ o, o)
      (mkSeg (init_ g) (conf_ g) (state_ g) (blocks_ g) (Mapped id) (block_buf_addrs_ g))
      g w o Hn Ho (λ _, conj eq_refl (conj (λ H, H) (λ _, eq_refl))) Hl) as H.
    unfold post in H. rewrite (attach_eq _ _ _ _ _ Ho) in H |- *. split; [exact H|exact Hn].
  - split; [|done]. apply opened_fail; auto using evolves_refl. right. rewrite Hi. by eexists.
Qed.

Lemma wf_create w id size :
  id = length (objs w) →
  evolves true w (mkWorld (Some id) (objs w ++ [mkShm size false 0 0 0 []])) ∧
  objs (mkWorld (Some id) (objs w ++ [mkShm size false 0 0 0 []])) !! id = Some (mkShm size false 0 0 0 []).
Proof.
  intros ->. split; [|simpl; by rewrite lookup_app_r, Nat.sub_diag by lia].
  intros id' o Ho. exists o. simpl. split; [|done]. by apply lookup_app_l_Some.
Qed.

Lemma place_live n o :
  st_size o = managed_shm_size_ (ShmConf_Update n) → live (place (ShmConf_Update n) o).
Proof.
  intros Ho. unfold live, conf_at. change (shm_ceiling (place (ShmConf_Update n) o))
    with (ceiling_msg_size_ (ShmConf_Update n)). rewrite !conf_of_ceiling. split; [done|].
  split; [done|]. destruct (conf_num n). unfold zlen, place.
  cbn [lock_nums]. rewrite length_replicate. lia.
Qed.

Lemma OpenOrCreate_opened e g w :
  wf g w → init_ g = false → post (OpenOrCreate e) g w (λ b g' w', opened b g w g' w').
Proof.
  intros Hwf Hi. pose proof Hwf as [Hw Hs].
  unfold post, OpenOrCreate, get, world, mbind, M_bind. rewrite Hi.
  destruct (name w) as [id|] eqn:Hn.
  { pose proof (OpenOnly_opened e g w Hwf Hi) as H. unfold post in H.
    destruct (OpenOnly e g w); [apply H|done..]. }
  destruct (shm_open_ok e); simpl; [|apply opened_fail; auto using evolves_refl].
  set (size := if ftruncate_ok e then managed_shm_size_ (conf_ g) else 0).
  destruct (wf_create w _ size eq_refl) as [He Ho].
  destruct (ftruncate_ok e) eqn:Ef; simpl.
  2:{ apply opened_fail; auto. intros id Hid. simpl in Hid. injection Hid as <-.
      eexists. split; [exact Ho|by left]. }
  destruct (mmap_ok e) eqn:Em; simpl.
  2:{ apply opened_fail; [by intros id Hid|exact He|exact Hs|exact Hi|right; rewrite Hi; by eexists]. }
  destruct Hs as ((n & Hc) & _).
  assert (Hl : live (place (conf_ g) (mkShm size false 0 0 0 []))).
  { rewrite Hc. apply place_live. unfold size. by rewrite Hc. }
  assert (Hnl : ¬ live (mkShm size false 0 0 0 [])).
  { intros (H & _). simpl in H. vm_compute in H. discriminate. }
  pose proof (attach_opened _ (place (conf_ g))
    (mkSeg (init_ g) (conf_ g) (state_ g) (blocks_ g) (Mapped (length (objs w))) (block_buf_addrs_ g))
    g (mkWorld (Some (length (objs w))) (objs w ++ [mkShm size false 0 0 0 []])) _
    eq_refl Ho (λ H, False_ind _ (Hnl H)) Hl) as H.
  unfold post in H. rewrite (attach_eq _ _ _ _ _ Ho) in H |- *.
  destruct H as (H1 & H2 & H3). split; [exact H1|]. split; [|exact H3].
  by eapply evolves_trans.
Qed.

(** A memory that did not exist has the configuration of its creator. *)
Lemma OpenOrCreate_conf e g w g' w' n :
  conf_ g = ShmConf_Update n → name w = None → init_ g = false → OpenOrCreate e g w = Ok true g' w' →
  conf_ g' = conf_ g.
Proof.
  intros Hc Hn Hi. unfold OpenOrCreate, get, world, mbind, M_bind, mret, M_ret. rewrite Hi, Hn.
  destruct (shm_open_ok e); simpl; [|done]. destruct (ftruncate_ok e); simpl; [|done].
  destruct (mmap_ok e); simpl; [|done].
  destruct (wf_create w _ (managed_shm_size_ (conf_ g)) eq_refl) as [_ Ho].
  rewrite (attach_eq _ _ _ _ _ Ho). intros [= <- _]. simpl.
  unfold conf_at, place. simpl shm_ceiling. rewrite Hc. apply conf_of_ceiling.
Qed.

Lemma Reset_wf g w : wf g w → wf (mkSeg false (conf_ g) None None Unmapped ∅) w.
Proof. intros [Hw (Hc & _)]. split; [done|]. by split. Qed.

(** [Remap] and [Recreate] on a segment that is attached. *)
Lemma Remap_opened e g w :
  wf g w → post (Remap e) g w (λ b g' w', opened b (mkSeg false (conf_ g) None None Unmapped ∅) w g' w'
    ∧ name w' = name w).
Proof. intros Hwf. apply OpenOnly_opened; [by apply Reset_wf|done]. Qed.

Definition flag_remap (o : Shm) : Shm :=
  mkShm (st_size o) true (seq_ o) (refs o) (shm_ceiling o) (lock_nums o).

Lemma Recreate_opened e n g w id :
  wf g w → state_ g = Some id →
  post (Recreate e n) g w (λ b g' w', wf g' w' ∧ evolves true w w' ∧ init_ g' = b ∧
    (∃ o', objs w' !! id = Some o' ∧ need_remap_ o' = true) ∧
    (b = true → unlink_ok e = true → conf_ g' = ShmConf_Update n)).
Proof.
  intros Hwf Hid. pose proof Hwf as [Hw (Hc & Hb & Hi & Hs)].
  destruct (Hs id Hid) as (o & Ho & Hl & Hcf & Ha).
  assert (Hlt : (id < length (objs w))%nat) by (by eapply lookup_lt_Some).
  set (w1 := mkWorld (name w) (<[id := flag_remap o]> (objs w))).
  destruct (wf_insert true g w id o (flag_remap o) Hwf Ho Hl
    (conj eq_refl (conj (λ _, eq_refl) (λ _, eq_refl)))) as [Hwf1 He1]. fold w1 in Hwf1, He1.
  assert (Ho1 : objs w1 !! id = Some (flag_remap o)) by (by apply list_lookup_insert_eq).
  set (w2 := mkWorld (if unlink_ok e then None else name w1) (objs w1)).
  set (g2 := mkSeg false (ShmConf_Update n) None None Unmapped ∅).
  assert (Hwf2 : wf g2 w2).
  { split; [|split; [by exists n|done]]. intros id' Hid'. unfold w2 in *. simpl in Hid'.
    destruct (unlink_ok e); [done|]. by apply (proj1 Hwf1). }
  assert (Heq : Recreate e n g w = OpenOrCreate e g2 w2).
  { unfold Recreate, set_init, set_need_remap, on_state, Reset, Remove, set_conf, get, put, world,
      mbind, M_bind. simpl. rewrite Hid, Ho. simpl. unfold w2, w1, flag_remap. simpl.
    destruct (name w) eqn:En; simpl; [|by destruct (unlink_ok e)].
    by destruct (unlink_ok e). }
  unfold post. rewrite Heq. pose proof (OpenOrCreate_opened e g2 w2 Hwf2 eq_refl) as H.
  unfold post in H. destruct (OpenOrCreate e g2 w2) as [b g' w'| |] eqn:Eo; [|done..].
  destruct H as (H1 & H2 & H3). assert (H2' : evolves true w1 w') by exact H2.
  split; [done|]. split; [by eapply evolves_trans|].
  split; [destruct b; by destruct H3|].
  split.
  - destruct (H2' _ _ Ho1) as (o' & Ho' & Hk). exists o'. split; [done|].
    apply Hk; [|done]. by apply (shape_live o).
  - intros -> Hu. apply (OpenOrCreate_conf e g2 w2 g' w' n); [done| |done|done].
    unfold w2. by rewrite Hu.
Qed.

(** *** The search for a block *)

Definition update (w : World) (id : nat) (o : Shm) : World := mkWorld (name w) (<[id := o]> (objs w)).

(** The object after a round: the sequence number and the locks differ. *)
Definition bump (o : Shm) (locks : list Z) : Shm :=
  mkShm (st_size o) (need_remap_ o) (u32 (seq_ o + 1)) (refs o) (shm_ceiling o) locks.

Lemma update_update w id o1 o2 : update (update w id o1) id o2 = update w id o2.
Proof. unfold update. simpl. by rewrite list_insert_insert_eq. Qed.

Lemma update_lookup w id o o' : objs w !! id = Some o → objs (update w id o') !! id = Some o'.
Proof. intros Ho. simpl. apply list_lookup_insert_eq. by eapply lookup_lt_Some. Qed.

Lemma zset_same (l : list Z) i n : zget l i = Some n → zset l i n = l.
Proof. unfold zget, zset. case_decide; [|done]. apply list_insert_id. Qed.

Lemma bump_keeps o locks : zlen locks = zlen (lock_nums o) → keeps false o (bump o locks).
Proof. intros H. split; [|by split]. unfold shape. simpl. by rewrite H. Qed.

(** What a well-formed segment knows of the object it is attached to. *)
Lemma wf_attached g w id :
  wf g w → state_ g = Some id →
  ∃ o, objs w !! id = Some o ∧ live o ∧ conf_ g = conf_at o ∧ blocks_ g = Some id ∧
    zlen (lock_nums o) = block_num_ (conf_ g).
Proof.
  intros (_ & Hc & Hb & _ & Hs) Hid. destruct (Hs id Hid) as (o & Ho & Hl & Hcf & _).
  exists o. rewrite Hb, Hcf. split; [done|]. split; [done|]. split; [done|]. split; [done|]. apply Hl.
Qed.

Lemma round_index g w (s : Z) : wf g w → 0 ≤ s mod block_num_ (conf_ g) < block_num_ (conf_ g).
Proof. intros (_ & (n & ->) & _). apply Z.mod_pos_bound. apply conf_num. Qed.

Lemma next_seq g w (s k : Z) :
  wf g w → (u32 (s + 1) + k) mod block_num_ (conf_ g) = (s + (k + 1)) mod block_num_ (conf_ g).
Proof.
  intros (_ & (n & ->) & _). destruct (conf_num n) as [Hp Hd].
  set (m := block_num_ (ShmConf_Update n)) in *. unfold wrap.
  rewrite <- Zplus_mod_idemp_l, Z.mod_mod_divide by done. rewrite Zplus_mod_idemp_l. f_equal. lia.
Qed.

Lemma round_eq sp tries g w id o :
  wf g w → state_ g = Some id → objs w !! id = Some o →
  let i := seq_ o mod block_num_ (conf_ g) in
  ∃ n, zget (lock_nums o) i = Some n ∧
  GetNextWritableBlockIndex (sp :: tries) g w =
    if negb sp && (n =? 0)
    then Ok i g (update w id (bump o (zset (lock_nums o) i (-1))))
    else GetNextWritableBlockIndex tries g (update w id (bump o (lock_nums o))).
Proof.
  intros Hwf Hid Ho i. destruct (wf_attached _ _ _ Hwf Hid) as (o' & Ho' & _ & _ & Hb & Hlen).
  assert (o' = o) as -> by congruence.
  destruct (zget_is_Some (lock_nums o) i) as [n Hn].
  { rewrite Hlen. apply (round_index _ _ _ Hwf). }
  exists n. split; [done|]. cbn [GetNextWritableBlockIndex].
  unfold get, FetchAddSeq, on_state, on_block, mbind, M_bind, mret, M_ret. cbn beta iota.
  rewrite Hid, Ho. cbn beta iota zeta. rewrite Hb. cbn [objs name].
  rewrite list_lookup_insert_eq by (by eapply lookup_lt_Some). cbn beta iota zeta. cbn [lock_nums].
  fold i. rewrite Hn. unfold try_write, Block.kRWLockFree, Block.kWriteExclusive.
  destruct (negb sp && (n =? 0)); cbn beta iota zeta; rewrite list_insert_insert_eq; [done|].
  by rewrite (zset_same _ _ _ Hn).
Qed.

(** The block found was free and is now locked for writing, nothing else
    has changed; a search that goes on has changed no lock. *)
Lemma next_block_post tries : ∀ g w id o,
  wf g w → state_ g = Some id → objs w !! id = Some o →
  match GetNextWritableBlockIndex tries g w with
  | Ok i g' w' => g' = g ∧ 0 ≤ i < block_num_ (conf_ g) ∧ zget (lock_nums o) i = Some 0 ∧
      ∃ o', w' = update w id o' ∧ keeps false o o' ∧ lock_nums o' = zset (lock_nums o) i (-1)
  | Spinning g' w' => g' = g ∧ ∃ o', w' = update w id o' ∧ keeps false o o' ∧ lock_nums o' = lock_nums o
  | Fault _ => False
  end.
Proof.
  induction tries as [|sp tries IH]; intros g w id o Hwf Hid Ho.
  { simpl. split; [done|]. exists o. unfold update. rewrite list_insert_id by done. by destruct w. }
  destruct (round_eq sp tries g w id o Hwf Hid Ho) as (n & Hn & ->).
  destruct (negb sp && (n =? 0)) eqn:E.
  - apply andb_true_iff in E as [_ ->%Z.eqb_eq]. split; [done|]. split; [by apply (round_index _ w)|].
    split; [done|]. eexists. split; [done|]. split; [|done]. apply bump_keeps, zlen_zset.
  - destruct (wf_attached _ _ _ Hwf Hid) as (o' & Ho' & Hl & _). assert (o' = o) as -> by congruence.
    destruct (wf_insert false g w id o (bump o (lock_nums o)) Hwf Ho Hl (bump_keeps _ _ eq_refl)) as [Hwf1 _].
    specialize (IH g _ id _ Hwf1 Hid (update_lookup _ _ _ _ Ho)). unfold update in *.
    destruct (GetNextWritableBlockIndex tries g _); [|done|].
    + destruct IH as (-> & Hi & Hz & o1 & -> & Hk & Hls). split; [done|]. split; [done|].
      split; [done|]. exists o1. simpl. rewrite list_insert_insert_eq. split; [done|]. by split.
    + destruct IH as (-> & o1 & -> & Hk & Hls). split; [done|]. exists o1. simpl.
      rewrite list_insert_insert_eq. split; [done|]. by split.
Qed.

(** A free block [k] rounds ahead is found, or an earlier one. *)
Lemma next_block_found tries : ∀ g w id o k,
  wf g w → state_ g = Some id → objs w !! id = Some o →
  Forall (λ sp, sp = false) tries → 0 ≤ k < zlen tries →
  zget (lock_nums o) ((seq_ o + k) mod block_num_ (conf_ g)) = Some 0 →
  ∃ i w', GetNextWritableBlockIndex tries g w = Ok i g w'.
Proof.
  induction tries as [|sp tries IH]; intros g w id o k Hwf Hid Ho Hf Hk Hz; [unfold zlen in Hk; simpl in Hk; lia|].
  apply Forall_cons in Hf as [-> Hf].
  destruct (round_eq false tries g w id o Hwf Hid Ho) as (n & Hn & ->). simpl.
  destruct (Z.eqb_spec n 0) as [->|Hne]; [by do 2 eexists|].
  destruct (wf_attached _ _ _ Hwf Hid) as (o' & Ho' & Hl & _). assert (o' = o) as -> by congruence.
  destruct (wf_insert false g w id o (bump o (lock_nums o)) Hwf Ho Hl (bump_keeps _ _ eq_refl)) as [Hwf1 _].
  destruct (decide (k = 0)) as [->|Hk0]; [rewrite Z.add_0_r in Hz; congruence|].
  apply (IH g _ id (bump o (lock_nums o)) (k - 1)); [done|done|by eapply update_lookup|done| |].
  - unfold zlen in *. simpl in Hk. lia.
  - simpl. rewrite (next_seq g w) by done. by replace (k - 1 + 1) with k by lia.
Qed.

(** *** [AcquireBlockToWrite] and [AcquireBlockToRead] *)

Lemma buf_size_eq n :
  block_buf_size_ (ShmConf_Update n) = ceiling_msg_size_ (ShmConf_Update n) + MESSAGE_INFO_SIZE.
Proof.
  apply (conf_cases (λ c, block_buf_size_ c = ceiling_msg_size_ c + MESSAGE_INFO_SIZE)).
  repeat constructor; vm_compute; reflexivity.
Qed.

(** The buffer of block [i] of object [id], which is [o]. *)
Definition buffer_of (g : Seg) (id : nat) (o : Shm) (i : Z) (buf : option (nat * Z)) : Prop :=
  0 ≤ i < block_num_ (conf_ g) ∧ buf = Some (id, buf_offset (conf_ g) i) ∧
  sizeof_State + block_num_ (conf_ g) * sizeof_Block ≤ buf_offset (conf_ g) i ∧
  buf_offset (conf_ g) i + block_buf_size_ (conf_ g) ≤ st_size o.

Lemma block_buf_addr_eq g w id o i :
  0 ≤ sizeof_State ≤ STATE_SIZE → 0 ≤ sizeof_Block ≤ BLOCK_SIZE →
  wf g w → state_ g = Some id → objs w !! id = Some o → 0 ≤ i < block_num_ (conf_ g) →
  ∃ buf, block_buf_addr i g w = Ok buf g w ∧ buffer_of g id o i buf.
Proof.
  intros Hst Hbl (Hw & Hc & Hb & Hi & Hs) Hid Ho Hr. destruct (Hs id Hid) as (o' & Ho' & Hl & Hcf & Ha).
  assert (o' = o) as -> by congruence. exists (Some (id, buf_offset (conf_ g) i)). split.
  - unfold block_buf_addr, get, mbind, M_bind. by rewrite Ha.
  - split; [done|]. split; [done|]. destruct Hl as (_ & -> & _). rewrite <- Hcf.
    destruct Hc as [n Hn]. rewrite Hn in Hr |- *. by apply (buffers_in_memory n i).
Qed.

(** The end of [AcquireBlockToWrite]. *)
Definition found (g : Seg) (w : World) (id : nat) (o : Shm) (w' : World) (i : Z)
    (buf : option (nat * Z)) : Prop :=
  zget (lock_nums o) i = Some 0 ∧
  ∃ o', objs w' !! id = Some o' ∧ lock_nums o' = zset (lock_nums o) i (-1) ∧ buffer_of g id o' i buf.

Lemma write_tail tries g w id o :
  0 ≤ sizeof_State ≤ STATE_SIZE → 0 ≤ sizeof_Block ≤ BLOCK_SIZE →
  wf g w → state_ g = Some id → objs w !! id = Some o →
  match (index ← GetNextWritableBlockIndex tries;
         buf ← block_buf_addr index; mret (Some (index, buf))) g w with
  | Ok (Some (i, buf)) g' w' => g' = g ∧ wf g w' ∧ evolves false w w' ∧ found g w id o w' i buf
  | Spinning g' w' => wf g' w' ∧ evolves false w w'
  | _ => False
  end.
Proof.
  intros Hst Hbl Hwf Hid Ho. pose proof (next_block_post tries g w id o Hwf Hid Ho) as H.
  destruct (wf_attached _ _ _ Hwf Hid) as (o0 & Ho0 & Hl & _ & _ & Hlen). assert (o0 = o) as -> by congruence.
  unfold mbind, M_bind. destruct (GetNextWritableBlockIndex tries g w) as [i g' w'| |g' w']; [|done|].
  - destruct H as (-> & Hr & Hz & o' & -> & Hk & Hls).
    destruct (wf_insert false g w id o o' Hwf Ho Hl Hk) as [Hwf' He].
    destruct (block_buf_addr_eq g (update w id o') id o' i Hst Hbl Hwf' Hid (update_lookup _ _ _ _ Ho) Hr)
      as (buf & -> & Hbuf).
    unfold mret, M_ret. split; [done|]. split; [done|]. split; [done|]. split; [done|].
    exists o'. split; [by eapply update_lookup|done].
  - destruct H as (-> & o' & -> & Hk & _). by apply (wf_insert false g w id o o').
Qed.

(** The part of [AcquireBlockToWrite] before the search. *)
Definition prepared (msg_size : Z) (e3 : os) (g' : Seg) : Prop :=
  unlink_ok e3 = true → msg_size ≤ MESSAGE_SIZE_MORE → msg_size ≤ ceiling_msg_size_ (conf_ g').

Lemma opened_attached b g w g' w' :
  opened b g w g' w' → b = true → ∃ id o, state_ g' = Some id ∧ objs w' !! id = Some o ∧ live o.
Proof. intros (_ & _ & H) ->. destruct H as (_ & id & o & _ & H1 & H2 & H3). by exists id, o. Qed.

Lemma wf_init g w : wf g w → init_ g = true → ∃ id o, state_ g = Some id ∧ objs w !! id = Some o ∧ live o.
Proof.
  intros Hwf Hi. pose proof Hwf as (_ & _ & _ & H & _). destruct (H Hi) as [id Hid].
  destruct (wf_attached _ _ _ Hwf Hid) as (o & ? & ? & _). by exists id, o.
Qed.

(** What [AcquireBlockToWrite] may answer. *)
Definition write_answer (e3 : os) (msg_size : Z) (w : World)
    (r : outcome (option (Z * option (nat * Z)))) : Prop :=
  match r with
  | Ok (Some (i, buf)) g' w' =>
      wf g' w' ∧ evolves false w w' ∧ prepared msg_size e3 g' ∧
      ∃ id o', state_ g' = Some id ∧ objs w' !! id = Some o' ∧ buffer_of g' id o' i buf ∧
        zget (lock_nums o') i = Some (-1) ∧
        ∀ o, objs w !! id = Some o → live o →
          zget (lock_nums o) i = Some 0 ∧ lock_nums o' = zset (lock_nums o) i (-1)
  | Ok None g' w' => wf g' w' ∧ evolves false w w' ∧ init_ g' = false
  | Spinning g' w' => wf g' w' ∧ evolves false w w'
  | Fault _ => False
  end.

Lemma write_tail_answer e3 msg_size tries g w w0 :
  0 ≤ sizeof_State ≤ STATE_SIZE → 0 ≤ sizeof_Block ≤ BLOCK_SIZE →
  wf g w → evolves true w0 w → init_ g = true → prepared msg_size e3 g →
  write_answer e3 msg_size w0
    ((index ← GetNextWritableBlockIndex tries;
      buf ← block_buf_addr index; mret (Some (index, buf))) g w).
Proof.
  intros Hst Hbl Hwf He Hi Hp. destruct (wf_init g w Hwf Hi) as (id & o & Hid & Ho & Hl).
  pose proof (write_tail tries g w id o Hst Hbl Hwf Hid Ho) as H. unfold write_answer.
  destruct (wf_attached _ _ _ Hwf Hid) as (o1 & Ho1 & _ & _ & _ & Hlen). assert (o1 = o) as -> by congruence.
  match type of H with match ?r with _ => _ end =>
    destruct r as [[[i buf]|] g' w'|f|g' w'] end; [|done|done|].
  - destruct H as (-> & Hwf' & He' & Hz & o' & Ho' & Hls & Hbuf). split; [done|].
    split; [by eapply evolves_trans; [apply evolves_weaken|]|]. split; [done|].
    exists id, o'. split; [done|]. split; [done|]. split; [done|]. split.
    + rewrite Hls. apply zget_zset_eq. rewrite Hlen. apply Hbuf.
    + intros o2 Ho2 Hl2. destruct (He _ _ Ho2) as (o3 & Ho3 & Hk). simplify_eq.
      destruct (Hk Hl2) as (_ & _ & Hlk). rewrite <- Hlk by done. done.
  - destruct H as [Hwf' He']. split; [done|]. by eapply evolves_trans; [apply evolves_weaken|].
Qed.

(** [AcquireBlockToWrite] once the segment is open. *)
Lemma AcquireBlockToWrite_open e1 e2 e3 msg_size tries g w id o :
  init_ g = true → state_ g = Some id → objs w !! id = Some o →
  AcquireBlockToWrite e1 e2 e3 msg_size tries g w =
    (result ← (if need_remap_ o then Remap e2 else mret true);
     g ← get;
     result ← (if ceiling_msg_size_ (conf_ g) <? msg_size then Recreate e3 msg_size else mret result);
     if negb result then mret None
     else
       index ← GetNextWritableBlockIndex tries;
       buf ← block_buf_addr index;
       mret (Some (index, buf))) g w.
Proof.
  intros Hi Hid Ho. unfold AcquireBlockToWrite, need_remap, on_state, get.
  unfold mbind at 1, M_bind at 1. rewrite Hi. cbn [negb].
  unfold mbind at 1, M_bind at 1. unfold mret at 1, M_ret at 1. cbn [negb].
  unfold mbind at 1, M_bind at 1. rewrite Hid, Ho, list_insert_id by done. by destruct w.
Qed.

(** The rest, after [Remap] or without it. *)
Lemma write_rest e3 msg_size tries g w w0 (b : bool) :
  0 ≤ sizeof_State ≤ STATE_SIZE → 0 ≤ sizeof_Block ≤ BLOCK_SIZE →
  wf g w → evolves true w0 w → init_ g = b →
  (b = false → msg_size ≤ ceiling_msg_size_ (conf_ g)) →
  write_answer e3 msg_size w0
    ((result ← (if ceiling_msg_size_ (conf_ g) <? msg_size then Recreate e3 msg_size else mret b);
      if negb result then mret None
      else
        index ← GetNextWritableBlockIndex tries;
        buf ← block_buf_addr index;
        mret (Some (index, buf))) g w).
Proof.
  intros Hst Hbl Hwf He Hi Hb. destruct (Z.ltb_spec (ceiling_msg_size_ (conf_ g)) msg_size) as [Hlt|Hge].
  - destruct b; [|specialize (Hb eq_refl); lia].
    destruct (wf_init g w Hwf Hi) as (id & o & Hid & Ho & Hl).
    pose proof (Recreate_opened e3 msg_size g w id Hwf Hid) as H. unfold post in H.
    unfold mbind at 1, M_bind at 1. destruct (Recreate e3 msg_size g w) as [r g' w'| |]; [|done..].
    destruct H as (Hwf' & He' & Hi' & _ & Hc).
    assert (He2 : evolves true w0 w') by (by eapply evolves_trans).
    destruct r; cbn [negb].
    + apply (write_tail_answer e3 msg_size tries g' w' w0); [done|done|done|done|done|].
      intros Hu Hm. rewrite Hc by done. by apply conf_fits.
    + split; [done|]. split; [by apply evolves_weaken|done].
  - unfold mbind at 1, M_bind at 1. unfold mret at 1, M_ret at 1. destruct b; cbn [negb].
    + apply (write_tail_answer e3 msg_size tries g w w0); [done|done|done|done|done|]. by intros _ _.
    + split; [done|]. split; [by apply evolves_weaken|done].
Qed.

Lemma write_open e1 e2 e3 msg_size tries g w w0 :
  0 ≤ sizeof_State ≤ STATE_SIZE → 0 ≤ sizeof_Block ≤ BLOCK_SIZE →
  wf g w → evolves true w0 w → init_ g = true →
  match AcquireBlockToWrite e1 e2 e3 msg_size tries g w with
  | Fault f => f = NullState ∧ ∃ id o g' w', state_ g = Some id ∧ objs w !! id = Some o ∧
      need_remap_ o = true ∧ Remap e2 g w = Ok false g' w' ∧ ceiling_msg_size_ (conf_ g') < msg_size
  | r => write_answer e3 msg_size w0 r
  end.
Proof.
  intros Hst Hbl Hwf He Hi. destruct (wf_init g w Hwf Hi) as (id & o & Hid & Ho & Hl).
  rewrite (AcquireBlockToWrite_open _ _ _ _ _ _ _ _ _ Hi Hid Ho).
  destruct (need_remap_ o) eqn:En.
  - pose proof (Remap_opened e2 g w Hwf) as H. unfold post in H.
    unfold mbind at 1, M_bind at 1. destruct (Remap e2 g w) as [b g' w'| |] eqn:Er; [|done..].
    destruct H as [(Hwf' & He' & Hb) _]. unfold mbind at 1, M_bind at 1, get at 1.
    assert (Hi' : init_ g' = b) by (destruct b; apply Hb).
    destruct (decide (b = false ∧ ceiling_msg_size_ (conf_ g') < msg_size)) as [[-> Hlt]|Hn].
    + destruct Hb as [_ Hnone]. simpl in Hnone.
      rewrite (proj2 (Z.ltb_lt _ _) Hlt). unfold mbind at 1, M_bind at 1.
      unfold Recreate, set_init, set_need_remap, on_state, mbind, M_bind. cbn [state_]. rewrite Hnone.
      split; [done|]. by exists id, o, g', w'.
    + assert (Hr : write_answer e3 msg_size w0
        ((result ← (if ceiling_msg_size_ (conf_ g') <? msg_size then Recreate e3 msg_size else mret b);
          if negb result then mret None
          else
            index ← GetNextWritableBlockIndex tries;
            buf ← block_buf_addr index;
            mret (Some (index, buf))) g' w')).
      { apply write_rest; [done|done|done|by eapply evolves_trans|done|]. intros ->.
        destruct (Z.le_gt_cases msg_size (ceiling_msg_size_ (conf_ g'))); [done|]. naive_solver. }
      revert Hr. match goal with |- write_answer _ _ _ ?r → _ => by destruct r end.
  - unfold mbind at 1, M_bind at 1. unfold mret at 1, M_ret at 1.
    unfold mbind at 1, M_bind at 1, get at 1.
    assert (Hr : write_answer e3 msg_size w0
      ((result ← (if ceiling_msg_size_ (conf_ g) <? msg_size then Recreate e3 msg_size else mret true);
        if negb result then mret None
        else
          index ← GetNextWritableBlockIndex tries;
          buf ← block_buf_addr index;
          mret (Some (index, buf))) g w)) by (by apply write_rest).
    revert Hr. match goal with |- write_answer _ _ _ ?r → _ => by destruct r end.
Qed.

(** Both acquisitions start by opening the segment if need be. *)
Lemma open_guard {A} (open : M bool) (k : M (option A)) g w :
  (g ← get;
   opened ← (if init_ g then mret true else open);
   if negb opened then mret None else k) g w =
  if init_ g then k g w
  else match open g w with
       | Ok true g' w' => k g' w'
       | Ok false g' w' => Ok None g' w'
       | Fault f => Fault f
       | Spinning g' w' => Spinning g' w'
       end.
Proof.
  unfold mbind, M_bind, mret, M_ret, get. destruct (init_ g); cbn [negb]; [done|].
  destruct (open g w) as [[] g' w'| |]; done.
Qed.

Lemma open_guard_again {A} (open : M bool) (k : M (option A)) g w g' w' :
  init_ g = false → open g w = Ok true g' w' → init_ g' = true →
  (g ← get;
   opened ← (if init_ g then mret true else open);
   if negb opened then mret None else k) g w =
  (g ← get;
   opened ← (if init_ g then mret true else open);
   if negb opened then mret None else k) g' w'.
Proof. intros Hi Ho Hi'. by rewrite !open_guard, Hi, Ho, Hi'. Qed.

(** A new process in any world. *)
Lemma segment_new_wf_in w : wf_world w → wf Segment_new w.
Proof. intros Hw. split; [done|]. split; [by exists MESSAGE_SIZE_16K|]. done. Qed.

Lemma segment_new_wf : wf Segment_new world_empty.
Proof. apply segment_new_wf_in. by intros id ?. Qed.

(** *** [AcquireBlockToRead] *)

Definition read_answer (index : Z) (w : World) (r : outcome (option (option (nat * Z)))) : Prop :=
  match r with
  | Ok (Some buf) g' w' =>
      wf g' w' ∧ evolves false w w' ∧
      ∃ id o' n, state_ g' = Some id ∧ objs w' !! id = Some o' ∧ buffer_of g' id o' index buf ∧
        0 ≤ n ∧ zget (lock_nums o') index = Some (i32 (n + 1)) ∧
        ∀ o, objs w !! id = Some o → live o →
          zget (lock_nums o) index = Some n ∧ lock_nums o' = zset (lock_nums o) index (i32 (n + 1))
  | Ok None g' w' => wf g' w' ∧ evolves true w w'
  | _ => False
  end.

(** The end of [AcquireBlockToRead]; the index is checked against an older
    configuration, so here it may be out of range. *)
Lemma read_tail index refused g w w0 :
  0 ≤ sizeof_State ≤ STATE_SIZE → 0 ≤ sizeof_Block ≤ BLOCK_SIZE → 0 ≤ index →
  wf g w → evolves true w0 w → init_ g = true →
  let r := (locked ← on_block index (try_read refused);
            if negb locked then mret None
            else buf ← block_buf_addr index; mret (Some buf)) g w in
  if decide (index < block_num_ (conf_ g)) then read_answer index w0 r
  else r = Fault (BlockOutOfRange index).
Proof.
  intros Hst Hbl Hx Hwf He Hi r. destruct (wf_init g w Hwf Hi) as (id & o & Hid & Ho & Hl).
  destruct (wf_attached _ _ _ Hwf Hid) as (o1 & Ho1 & _ & _ & Hb & Hlen).
  assert (o1 = o) as -> by congruence. unfold r, mbind, M_bind, on_block. rewrite Hb, Ho.
  case_decide as Hr.
  2:{ by rewrite zget_None by lia. }
  destruct (zget_is_Some (lock_nums o) index) as [n Hn]; [lia|]. rewrite Hn. unfold try_read.
  destruct ((n <? Block.kRWLockFree) || refused) eqn:Et; cbn [negb].
  - rewrite zset_same by done. destruct o as [st nr sq rf cl lk]. cbn [st_size need_remap_ seq_ refs
      shm_ceiling lock_nums]. rewrite list_insert_id by done. unfold mret, M_ret. destruct w. done.
  - apply orb_false_iff in Et as [Hn0%Z.ltb_ge _].
    set (o' := mkShm _ _ _ _ _ _). assert (Hk : keeps false o o').
    { split; [|by split]. unfold shape, o'. simpl. by rewrite zlen_zset. }
    destruct (wf_insert false g w id o o' Hwf Ho Hl Hk) as [Hwf' He'].
    destruct (block_buf_addr_eq g (update w id o') id o' index Hst Hbl Hwf' Hid
      (update_lookup _ _ _ _ Ho) (conj Hx Hr)) as (buf & Hbuf & Hof).
    unfold update in Hbuf. rewrite Hbuf. unfold mret, M_ret. split; [done|].
    split; [by eapply evolves_trans; [apply evolves_weaken|]|].
    exists id, o', n. split; [done|]. split; [by apply (update_lookup w id o)|]. split; [done|].
    split; [done|]. split; [apply zget_zset_eq; lia|].
    intros o2 Ho2 Hl2. destruct (He _ _ Ho2) as (o3 & Ho3 & Hk3). simplify_eq.
    destruct (Hk3 Hl2) as (_ & _ & Hlk). rewrite <- Hlk by done. done.
Qed.

(** Property: whatever the system calls answer, [AcquireBlockToWrite] on a
    well-formed segment does one of these: it returns a block that was free and
    is now locked for writing, all other locks unchanged, with a buffer inside
    the memory, disjoint from the state and the blocks, and large enough for a
    message of up to 32 MB; it fails and leaves the segment to be opened again;
    or it goes on searching.  The one fault is the null [state_] of a
    [Recreate] that follows a failed [Remap].  What other processes know of the
    objects stays true. *)
Theorem acquire_block_to_write_spec e1 e2 e3 msg_size tries g w :
  0 ≤ sizeof_State ≤ STATE_SIZE → 0 ≤ sizeof_Block ≤ BLOCK_SIZE → wf g w →
  match AcquireBlockToWrite e1 e2 e3 msg_size tries g w with
  | Fault f => f = NullState ∧ ∃ g1 w1 id o g2 w2, state_ g1 = Some id ∧ objs w1 !! id = Some o ∧
      need_remap_ o = true ∧ Remap e2 g1 w1 = Ok false g2 w2 ∧ ceiling_msg_size_ (conf_ g2) < msg_size
  | r => write_answer e3 msg_size w r
  end.
Proof.
  intros Hst Hbl Hwf. destruct (init_ g) eqn:Hi.
  - pose proof (write_open e1 e2 e3 msg_size tries g w w Hst Hbl Hwf (evolves_refl _ _) Hi) as H.
    destruct (AcquireBlockToWrite e1 e2 e3 msg_size tries g w); [exact H| |exact H].
    destruct H as (-> & id & o & g' & w' & H). split; [done|]. by exists g, w, id, o, g', w'.
  - pose proof (OpenOrCreate_opened e1 g w Hwf Hi) as Hop. unfold post in Hop.
    destruct (OpenOrCreate e1 g w) as [b g' w'| |] eqn:Eo; [|done..].
    destruct Hop as (Hwf' & He' & Hb). destruct b.
    + unfold AcquireBlockToWrite. rewrite (open_guard_again _ _ _ _ _ _ Hi Eo (proj1 Hb)).
      fold (AcquireBlockToWrite e1 e2 e3 msg_size tries).
      pose proof (write_open e1 e2 e3 msg_size tries g' w' w Hst Hbl Hwf' He' (proj1 Hb)) as H.
      destruct (AcquireBlockToWrite e1 e2 e3 msg_size tries g' w'); [exact H| |exact H].
      destruct H as (-> & id & o & g2 & w2 & H). split; [done|]. by exists g', w', id, o, g2, w2.
    + unfold AcquireBlockToWrite. rewrite open_guard, Hi, Eo. split; [done|].
      split; [by apply evolves_weaken|apply Hb].
Qed.

(** Property: the search for a block ends when one is free: if no compare-and-swap
    fails without reason, as many rounds as there are blocks visit every block,
    also where the 32-bit sequence number wraps. *)
Theorem free_block_is_found g w id o j tries :
  wf g w → state_ g = Some id → objs w !! id = Some o → zget (lock_nums o) j = Some 0 →
  Forall (λ spurious, spurious = false) tries → block_num_ (conf_ g) ≤ zlen tries →
  ∃ i w', GetNextWritableBlockIndex tries g w = Ok i g w'.
Proof.
  intros Hwf Hid Ho Hj Hf Hlen. pose proof Hwf as (_ & (n & Hc) & _). destruct (conf_num n) as [Hp _].
  rewrite <- Hc in Hp.
  destruct (wf_attached _ _ _ Hwf Hid) as (o1 & Ho1 & _ & _ & _ & Hl). assert (o1 = o) as -> by congruence.
  pose proof (zget_Some_range _ _ _ Hj) as Hr. rewrite Hl in Hr.
  pose proof (Z.mod_pos_bound (j - seq_ o) (block_num_ (conf_ g)) Hp).
  apply (next_block_found tries g w id o ((j - seq_ o) mod block_num_ (conf_ g))); try done; [lia|].
  rewrite Zplus_mod_idemp_r. replace (seq_ o + (j - seq_ o)) with j by lia. by rewrite Z.mod_small.
Qed.

(** Property: [AcquireBlockToRead] on a well-formed segment adds one reader to the
    block it is asked for and to no other, unless a writer holds it, or fails
    and changes no lock.  Its only fault: the index was checked against the
    configuration before [Remap], and is out of the blocks after it. *)
Theorem acquire_block_to_read_spec e1 e2 index refused g w :
  0 ≤ sizeof_State ≤ STATE_SIZE → 0 ≤ sizeof_Block ≤ BLOCK_SIZE → 0 ≤ index → wf g w →
  match AcquireBlockToRead e1 e2 index refused g w with
  | Fault f => f = BlockOutOfRange index ∧ ∃ g1 w1 g2 w2, index < block_num_ (conf_ g1) ∧
      Remap e2 g1 w1 = Ok true g2 w2 ∧ block_num_ (conf_ g2) ≤ index
  | r => read_answer index w r
  end.
Proof.
  intros Hst Hbl Hx Hwf.
  assert (Hmain : ∀ g1 w1, wf g1 w1 → evolves true w w1 → init_ g1 = true →
    match (g ← get;
      if block_num_ (conf_ g) <=? index then mret None
      else
        remap ← need_remap;
        result ← (if remap : bool then Remap e2 else mret true);
        if negb result then mret None
        else
          locked ← on_block index (try_read refused);
          if negb locked then mret None
          else buf ← block_buf_addr index; mret (Some buf)) g1 w1 with
    | Fault f => f = BlockOutOfRange index ∧ ∃ g1 w1 g2 w2, index < block_num_ (conf_ g1) ∧
        Remap e2 g1 w1 = Ok true g2 w2 ∧ block_num_ (conf_ g2) ≤ index
    | r => read_answer index w r
    end).
  { intros g1 w1 Hwf1 He1 Hi1. unfold mbind at 1, M_bind at 1, get at 1.
    destruct (Z.leb_spec (block_num_ (conf_ g1)) index) as [Hle|Hlt]; [by split|].
    destruct (wf_init g1 w1 Hwf1 Hi1) as (id & o & Hid & Ho & Hl).
    unfold mbind at 1, M_bind at 1, need_remap, on_state. rewrite Hid, Ho, list_insert_id by done.
    replace (mkWorld (name w1) (objs w1)) with w1 by (by destruct w1).
    unfold mbind at 1, M_bind at 1. destruct (need_remap_ o) eqn:En.
    - pose proof (Remap_opened e2 g1 w1 Hwf1) as H. unfold post in H.
      destruct (Remap e2 g1 w1) as [b g2 w2| |] eqn:Er; [|done..].
      destruct H as [(Hwf2 & He2 & Hb) _]. assert (He : evolves true w w2) by (by eapply evolves_trans).
      destruct b; cbn [negb]; [|by split].
      pose proof (read_tail index refused g2 w2 w Hst Hbl Hx Hwf2 He (proj1 Hb)) as H. cbv zeta in H.
      revert H. case_decide as Hd.
      + match goal with |- read_answer _ _ ?r → _ => by destruct r end.
      + intros ->. split; [done|]. exists g1, w1, g2, w2. split; [done|]. split; [done|lia].
    - unfold mret at 1, M_ret at 1. cbn [negb].
      pose proof (read_tail index refused g1 w1 w Hst Hbl Hx Hwf1 He1 Hi1) as H. cbv zeta in H.
      rewrite decide_True in H by done. revert H.
      match goal with |- read_answer _ _ ?r → _ => by destruct r end. }
  unfold AcquireBlockToRead. rewrite open_guard. destruct (init_ g) eqn:Hi.
  - apply Hmain; [done|apply evolves_refl|done].
  - pose proof (OpenOnly_opened e1 g w Hwf Hi) as Hop. unfold post in Hop.
    destruct (OpenOnly e1 g w) as [b g' w'| |] eqn:Eo; [|done..].
    destruct Hop as [(Hwf' & He' & Hb) _]. destruct b; [|by split].
    apply Hmain; [done|done|apply Hb].
Qed.

End Layout.

(** *** Runs of two processes *)

(** [sizeof(State)] and [sizeof(Block)] with a virtual table pointer each. *)
Abbreviation write := (AcquireBlockToWrite 32 32 os_good os_good os_good).
Abbreviation read := (AcquireBlockToRead 32 32 os_good os_good).

(** [count] messages of [msg_size] bytes, written one after the other. *)
Fixpoint write_many (count : nat) (msg_size : Z) : M () :=
  match count with
  | O => mret ()
  | S k =>
      r ← write msg_size [false];
      match r with
      | Some (index, _) => ReleaseWrittenBlock index;; write_many k msg_size
      | None => mret ()
      end
  end.

(** A process in the memory another one left. *)
Definition then_world {A} (r : outcome A) (k : Seg → World → outcome (option (option (nat * Z)))) :
    outcome (option (option (nat * Z))) :=
  match r with Ok _ g w => k g w | Fault f => Fault f | Spinning g w => Spinning g w end.

(** The index of an answer, and what may be asked of the segment. *)
Definition answers {A} (r : outcome A) (test : A → Seg → World → bool) : bool :=
  match r with Ok a g w => test a g w | _ => false end.

Lemma answers_ok {A} (r : outcome A) test :
  answers r test = true → ∃ a g w, r = Ok a g w ∧ test a g w = true.
Proof. destruct r as [a g w| |]; simpl; [|done..]. by exists a, g, w. Qed.

Definition index_is (i : Z) (a : option (Z * option (nat * Z))) (g : Seg) (w : World) : bool :=
  match a with Some (j, _) => j =? i | None => false end.

Lemma acquire_block_to_write_spec_witness :
  ∃ buf g w, write 20000 [true; false] Segment_new world_empty = Ok (Some (1, buf)) g w ∧
    20000 ≤ ceiling_msg_size_ (conf_ g).
Proof.
  pose proof (acquire_block_to_write_spec 32 32 os_good os_good os_good 20000 [true; false] Segment_new
    world_empty) as H.
  assert (E : answers (write 20000 [true; false] Segment_new world_empty) (index_is 1) = true)
    by (vm_compute; reflexivity).
  apply answers_ok in E as ([[i buf]|] & g & w & E & Hi); [|discriminate Hi].
  simpl in Hi. apply Z.eqb_eq in Hi as ->. rewrite E in H. exists buf, g, w. split; [exact E|].
  destruct H as (_ & _ & Hp & _); [by split|by split|apply segment_new_wf|]. by apply Hp.
Defined.

Definition first_is_free (b : bool) (g : Seg) (w : World) : bool :=
  match state_ g, objs w with
  | Some 0%nat, o :: _ =>
      b && (block_num_ (conf_ g) =? 512) && match zget (lock_nums o) 0 with Some n => n =? 0 | None => false end
  | _, _ => false
  end.

Lemma free_block_is_found_witness :
  ∃ g w i w', OpenOrCreate 32 32 os_good Segment_new world_empty = Ok true g w ∧
    GetNextWritableBlockIndex (replicate 512 false) g w = Ok i g w'.
Proof.
  assert (E : answers (OpenOrCreate 32 32 os_good Segment_new world_empty) first_is_free = true)
    by (vm_compute; reflexivity).
  apply answers_ok in E as (b & g & w & E & Hb).
  pose proof (OpenOrCreate_opened 32 32 os_good Segment_new world_empty (segment_new_wf 32 32) eq_refl) as H.
  unfold post in H. rewrite E in H. unfold first_is_free in Hb.
  destruct (state_ g) as [[|]|] eqn:Hid; [|discriminate Hb..].
  destruct (objs w) as [|o os'] eqn:Ho; [discriminate Hb|].
  apply andb_true_iff in Hb as [[-> Hn%Z.eqb_eq]%andb_true_iff Hz].
  destruct (zget (lock_nums o) 0) as [n|] eqn:Hg; [|discriminate Hz]. apply Z.eqb_eq in Hz as ->.
  destruct (free_block_is_found 32 32 g w 0 o 0 (replicate 512 false) (proj1 H) Hid) as (i & w' & Hi).
  - by rewrite Ho.
  - exact Hg.
  - by apply Forall_replicate.
  - rewrite zlen_replicate, Hn. done.
  - by exists g, w, i, w'.
Defined.

Definition has_answer {A} (a : option A) (g : Seg) (w : World) : bool :=
  match a with Some _ => true | None => false end.

Lemma acquire_block_to_read_spec_witness :
  ∃ b g w buf g' w', OpenOrCreate 32 32 os_good Segment_new world_empty = Ok b g w ∧
    read 0 false Segment_new w = Ok (Some buf) g' w' ∧
    read_answer 32 32 0 w (read 0 false Segment_new w).
Proof.
  assert (E : answers (OpenOrCreate 32 32 os_good Segment_new world_empty)
    (λ _ _ w, answers (read 0 false Segment_new w) has_answer) = true) by (vm_compute; reflexivity).
  apply answers_ok in E as (b & g & w & E & Hb). apply answers_ok in Hb as ([buf|] & g' & w' & E' & Hb);
    [|discriminate Hb].
  exists b, g, w, buf, g', w'. split; [exact E|]. split; [exact E'|].
  pose proof (OpenOrCreate_opened 32 32 os_good Segment_new world_empty (segment_new_wf 32 32) eq_refl) as H.
  unfold post in H. rewrite E in H. destruct H as ((Hw & _) & _).
  pose proof (acquire_block_to_read_spec 32 32 os_good os_good 0 false Segment_new w) as H.
  rewrite E' in H |- *. apply H; [by split|by split|done|].
  by apply segment_new_wf_in.
Defined.

(** A wants 20000 bytes, makes a larger memory and leaves, which removes the
    name; B is still attached to the first memory. *)
Definition b_after_a_left (msg_size : Z) : outcome (option (Z * option (nat * Z))) :=
  match (write_many 1 100) Segment_new world_empty with
  | Ok _ a w =>
      match (write_many 1 100) Segment_new w with
      | Ok _ b w =>
          match (write_many 1 20000;; Destroy os_good) a w with
          | Ok _ _ w => write msg_size [false] b w
          | _ => Spinning b w
          end
      | _ => Spinning Segment_new w
      end
  | _ => Spinning Segment_new world_empty
  end.

(** Property: a writer whose memory another process has replaced and removed
    dereferences a null [state_] when its next message needs a larger class
    ([Recreate] runs although [Remap] has failed); a small message only fails. *)
Theorem write_after_removal_dereferences_null :
  b_after_a_left 20000 = Fault NullState ∧
  answers (b_after_a_left 100) (λ a _ _, match a with None => true | _ => false end) = true.
Proof. split; vm_compute; reflexivity. Qed.

(** A writes ten small messages, then one of 20 MB; B was attached to the
    first memory and is told of the last small message, of block [index]. *)
Definition b_reads_late (index : Z) : outcome (option (option (nat * Z))) :=
  match (write_many 1 100) Segment_new world_empty with
  | Ok _ a w =>
      match read 0 false Segment_new w with
      | Ok _ b w => then_world ((write_many 9 100;; write_many 1 20000000) a w) (λ _ w, read index false b w)
      | _ => Spinning Segment_new w
      end
  | _ => Spinning Segment_new world_empty
  end.

(** Property: a reader that is late looks outside of the blocks: block 9 is valid in
    the memory of 512 blocks the index is checked against, not among the 8
    blocks that [Remap] then attaches; block 7 is read (an unrelated one). *)
Theorem late_reader_leaves_the_blocks :
  b_reads_late 9 = Fault (BlockOutOfRange 9) ∧ answers (b_reads_late 7) has_answer = true.
Proof. split; vm_compute; reflexivity. Qed.
