(* ===== verification/IntraDispatcher.v ===== *)
(** * [cyber/transport/dispatcher/intra_dispatcher.h]

    Inside one process a message goes to its readers as a pointer.  The
    dispatcher's table holds, per channel, a handler of one type whose
    listeners are wrappers; a wrapper runs the [ChannelChain], which keeps one
    [ListenerHandler] per channel and message type (and per writer), and hands
    the message to the handlers of other types in serialised form.  Message
    types are numbered in the order of their names. *)

From S2P Require Import Prelude AtomicHashMap Signal Listener.

(** ** [std::map] from message types *)

Section TypeMap.
Context {V : Type}.

Fixpoint type_find (ty : nat) (l : list (nat * V)) : option V :=
  match l with
  | [] => None
  | (t, v) :: l => if decide (t = ty) then Some v else type_find ty l
  end.

Fixpoint type_insert (ty : nat) (v : V) (l : list (nat * V)) : list (nat * V) :=
  match l with
  | [] => [(ty, v)]
  | (t, v') :: l' =>
      if decide (t = ty) then (ty, v) :: l'
      else if decide (ty < t)%nat then (ty, v) :: l else (t, v') :: type_insert ty v l'
  end.

Definition type_erase (ty : nat) (l : list (nat * V)) : list (nat * V) := filter (λ e, e.1 ≠ ty) l.

Definition type_alter (ty : nat) (f : V → V) (l : list (nat * V)) : list (nat * V) :=
  (λ e, if decide (e.1 = ty) then (e.1, f e.2) else e) <$> l.
End TypeMap.

Section Intra.
Context {L Msg DM : Type}.
Context (FullByteSize : Msg → Z) (SerializeToHC : Msg → option (list Z))
  (ParseFromHC : nat → list Z → option Msg).

Abbreviation handler := (ListenerHandler L).
Abbreviation BaseHandlersType := (gmap Z (list (nat * handler))).

(** ** [ChannelChain] *)

Record ChannelChain := mkChain {
  handlers_ : BaseHandlersType;
  oppo_handlers_ : gmap Z BaseHandlersType;
}.

Definition ChannelChain_new : ChannelChain := mkChain ∅ ∅.

(** The overloads differ in the map they use: the common one, or a writer's. *)
Definition handlers_of (c : ChannelChain) (oppo : option Z) : option BaseHandlersType :=
  match oppo with None => Some (handlers_ c) | Some o => oppo_handlers_ c !! o end.

Definition set_handlers (c : ChannelChain) (oppo : option Z) (hs : BaseHandlersType) : ChannelChain :=
  match oppo with
  | None => mkChain hs (oppo_handlers_ c)
  | Some o => mkChain (handlers_ c) (<[o := hs]> (oppo_handlers_ c))
  end.

Definition Chain_GetHandler (channel_id : Z) (ty : nat) (hs : BaseHandlersType) :
    BaseHandlersType * bool :=
  let channel_handlers := default [] (hs !! channel_id) in
  match type_find ty channel_handlers with
  | None => (<[channel_id := type_insert ty ListenerHandler_new channel_handlers]> hs, true)
  | Some _ => (<[channel_id := channel_handlers]> hs, false)
  end.

(** The handler removed is returned as well. *)
Definition Chain_RemoveHandler (channel_id : Z) (ty : nat) (hs : BaseHandlersType) :
    BaseHandlersType * option handler :=
  match hs !! channel_id with
  | None => (hs, None)
  | Some channel_handlers =>
      let handler_base := type_find ty channel_handlers in
      let rest := type_erase ty channel_handlers in
      (match rest with [] => delete channel_id hs | _ => <[channel_id := rest]> hs end, handler_base)
  end.

(** [Connect] acts on the handler in the map. *)
Definition Chain_AddListener (c : ChannelChain) (self : Z) (oppo : option Z) (channel_id : Z) (ty : nat)
    (listener : L) : ChannelChain * bool :=
  let '(hs, created) := Chain_GetHandler channel_id ty (default ∅ (handlers_of c oppo)) in
  (set_handlers c oppo (alter (type_alter ty (λ h, connect h self oppo listener)) channel_id hs), created).

(** [Disconnect] acts on a handler that is in no map any more. *)
Definition Chain_RemoveListener (c : ChannelChain) (oppo : option Z) (channel_id : Z) (ty : nat) :
    ChannelChain :=
  match handlers_of c oppo with
  | None => c
  | Some hs =>
      let hs' := (Chain_RemoveHandler channel_id ty hs).1 in
      match oppo with
      | Some o =>
          if decide (hs' = ∅) then mkChain (handlers_ c) (delete o (oppo_handlers_ c))
          else set_handlers c oppo hs'
      | None => set_handlers c oppo hs'
      end
  end.

(** The loop of [Run]; [msg] is the serialised message once it is needed. *)
Fixpoint run_handlers (ty : nat) (message : Msg) (sender : Z) (l : list (nat * handler)) (msg : list Z) :
    list (L * Msg) * list (nat * handler) :=
  match l with
  | [] => ([], [])
  | (t, h) :: l =>
      if decide (t = ty)
      then
        let '(called, h') := Run h sender in
        let '(calls, l') := run_handlers ty message sender l msg in
        (((λ x, (x, message)) <$> called) ++ calls, (t, h') :: l')
      else
        let msg' :=
          match msg with
          | [] => if FullByteSize message <? 0 then [] else default [] (SerializeToHC message)
          | _ => msg
          end in
        let parsed := match msg' with [] => None | _ => ParseFromHC t msg' end in
        let '(called, h') :=
          match parsed with
          | Some m => let '(called, h') := Run h sender in ((λ x, (x, m)) <$> called, h')
          | None => ([], h)
          end in
        let '(calls, l') := run_handlers ty message sender l msg' in
        (called ++ calls, (t, h') :: l')
  end.

Definition Chain_Run (c : ChannelChain) (oppo : option Z) (channel_id : Z) (ty : nat) (message : Msg)
    (sender : Z) : list (L * Msg) * ChannelChain :=
  match handlers_of c oppo with
  | None => ([], c)
  | Some hs =>
      match hs !! channel_id with
      | None => ([], c)
      | Some channel_handlers =>
          let '(calls, l') := run_handlers ty message sender channel_handlers [] in
          (calls, set_handlers c oppo (<[channel_id := l']> hs))
      end
  end.

(** ** [IntraDispatcher] *)

(** [listener_wrapper]: what the lambda captures. *)
Record wrapper := mkWrapper { w_self : Z; w_oppo : option Z; w_channel : Z; w_type : nat }.

Context `{!KVStore DM (nat * ListenerHandler wrapper), !KVStoreLaws DM (nat * ListenerHandler wrapper)}.

Record IntraDispatcher := mkIntra { base : Dispatcher (DM := DM); chain_ : ChannelChain }.

Definition IntraDispatcher_new : IntraDispatcher := mkIntra Dispatcher_new ChannelChain_new.

(** [GetHandler]: the table, and whether the handler is of type [ty]. *)
Definition GetHandler (d : Dispatcher (DM := DM)) (channel_id : Z) (ty : nat) :
    Dispatcher (DM := DM) * bool :=
  match kv_get channel_id (msg_listeners_ d) with
  | Some (ty', _) => (d, bool_decide (ty' = ty))
  | None =>
      (mkDispatcher (is_shutdown_ d) (kv_set channel_id (ty, ListenerHandler_new) (msg_listeners_ d)), true)
  end.

Definition IntraDispatcher_AddListener (d : IntraDispatcher) (ty : nat) (channel_id self : Z)
    (oppo : option Z) (listener : L) : IntraDispatcher :=
  if is_shutdown_ (base d) then d
  else
    let '(c, created) := Chain_AddListener (chain_ d) self oppo channel_id ty listener in
    let '(b, found) := GetHandler (base d) channel_id ty in
    if found && created
    then
      mkIntra
        (mkDispatcher (is_shutdown_ b)
           (kv_modify channel_id
              (λ th : nat * ListenerHandler wrapper,
                 (th.1, connect th.2 self oppo (mkWrapper self oppo channel_id ty)))
              (msg_listeners_ b))) c
    else mkIntra b c.

Definition IntraDispatcher_RemoveListener (d : IntraDispatcher) (ty : nat) (channel_id self : Z)
    (oppo : option Z) : IntraDispatcher :=
  if is_shutdown_ (base d) then d
  else mkIntra (RemoveListener (base d) channel_id self oppo)
         (Chain_RemoveListener (chain_ d) oppo channel_id ty).

(** The wrappers called, one after the other. *)
Fixpoint run_wrappers (c : ChannelChain) (ws : list wrapper) (message : Msg) (sender : Z) :
    list (L * Msg) * ChannelChain :=
  match ws with
  | [] => ([], c)
  | w :: ws =>
      let '(calls, c1) := Chain_Run c (w_oppo w) (w_channel w) (w_type w) message sender in
      let '(calls', c2) := run_wrappers c1 ws message sender in
      (calls ++ calls', c2)
  end.

(** The message as the channel's handler, of type [ty'], gets it. *)
Definition delivered (ty ty' : nat) (message : Msg) : option Msg :=
  if decide (ty' = ty) then Some message
  else if FullByteSize message <? 0 then None
  else match SerializeToHC message with Some str => ParseFromHC ty' str | None => None end.

Definition IntraDispatcher_OnMessage (d : IntraDispatcher) (ty : nat) (channel_id : Z) (message : Msg)
    (sender : Z) : list (L * Msg) * IntraDispatcher :=
  if is_shutdown_ (base d) then ([], d)
  else
    match kv_get channel_id (msg_listeners_ (base d)) with
    | None => ([], d)
    | Some (ty', h) =>
        match delivered ty ty' message with
        | None => ([], d)
        | Some m =>
            let ms :=
              kv_modify channel_id (λ th : nat * ListenerHandler wrapper, (th.1, (Run th.2 sender).2))
                (msg_listeners_ (base d)) in
            let '(calls, c) := run_wrappers (chain_ d) (Run h sender).1 m sender in
            (calls, mkIntra (mkDispatcher false ms) c)
        end
    end.

Inductive intra_op :=
| IAdd (ty : nat) (channel self : Z) (oppo : option Z) (l : L)
| IRemove (ty : nat) (channel self : Z) (oppo : option Z)
| IMessage (ty : nat) (channel : Z) (message : Msg) (sender : Z)
| IDown.

Definition intra_exec (d : IntraDispatcher) (o : intra_op) :
    option (IntraDispatcher * option (list (L * Msg))) :=
  match o with
  | IAdd ty ch self oppo l => Some (IntraDispatcher_AddListener d ty ch self oppo l, None)
  | IRemove ty ch self oppo => Some (IntraDispatcher_RemoveListener d ty ch self oppo, None)
  | IMessage ty ch m sender =>
      let '(calls, d') := IntraDispatcher_OnMessage d ty ch m sender in Some (d', Some calls)
  | IDown => Some (mkIntra (Shutdown (base d)) (chain_ d), None)
  end.

(** ** The specification: a table of listeners *)

Definition list_for {A} (a : listeners A) (oppo : option Z) : list (Z * A) :=
  match oppo with None => to_all a | Some o => to_writer a o end.

(** One message type per channel; a listener is removed only when it is the
    only one of its kind (all messages, or those of one writer). *)
Definition intra_spec (t : table (L := L)) (o : intra_op) :
    option (table (L := L) * option (list (L * Msg))) :=
  match o with
  | IAdd ty ch self oppo l =>
      if negb (bool_decide (in_u 64 ch)) then None
      else if down t then Some (t, None)
      else
        let '(ty', a) := default (ty, no_listeners) (rows t ch) in
        if decide (ty' = ty)
        then match spec_exec a (connect_op self oppo l) with
             | Some (a', _) => Some (set_row t ch (ty, a'), None)
             | None => None
             end
        else None
  | IRemove ty ch self oppo =>
      if negb (bool_decide (in_u 64 ch)) then None
      else if down t then Some (t, None)
      else match rows t ch with
           | None => Some (t, None)
           | Some (ty', a) =>
               if decide (ty' = ty)
               then match list_for a oppo, spec_exec a (disconnect_op self oppo) with
                    | [], _ => Some (t, None)
                    | [(self', _)], Some (a', _) =>
                        if decide (self' = self) then Some (set_row t ch (ty, a'), None) else None
                    | _, _ => None
                    end
               else None
           end
  | IMessage ty ch m sender =>
      if negb (bool_decide (in_u 64 ch)) then None
      else
        Some (t, Some
          (if down t then []
           else match rows t ch with
                | None => []
                | Some (ty', a) =>
                    match delivered ty ty' m with
                    | Some m' => (λ x, (x, m')) <$> (to_all a).*2 ++ (to_writer a sender).*2
                    | None => []
                    end
                end))
  | IDown => Some (mkTable true (rows t), None)
  end.

(** *** Entries of the chain *)

Definition chain_entry (c : ChannelChain) (oppo : option Z) (ch : Z) : option (list (nat * handler)) :=
  handlers_of c oppo ≫= (.!! ch).

(** The listeners one handler of the chain holds. *)
Definition only (oppo : option Z) (ls : list (Z * L)) : listeners L :=
  match oppo with
  | None => mkListeners ls (λ _, [])
  | Some o => mkListeners [] (λ o', if decide (o' = o) then ls else [])
  end.

Definition entry_ok (e : option (list (nat * handler))) (ty : nat) (oppo : option Z)
    (ls : list (Z * L)) : Prop :=
  match ls with
  | [] => e = None
  | _ => ∃ h, e = Some [(ty, h)] ∧ represents h (only oppo ls)
  end.

Lemma represents_ext {A} (h : ListenerHandler A) a a' :
  represents h a → to_all a = to_all a' → (∀ o, to_writer a o = to_writer a' o) → represents h a'.
Proof.
  intros [Hall Hw] Ea Ew. split; [by rewrite <- Ea|]. intros o. specialize (Hw o). by rewrite <- Ew.
Qed.

Lemma handlers_of_set c oppo hs oppo' :
  handlers_of (set_handlers c oppo hs) oppo' =
  if decide (oppo' = oppo) then Some hs else handlers_of c oppo'.
Proof.
  destruct oppo as [o|], oppo' as [o'|]; simpl; try done. destruct (decide (o' = o)) as [->|Hne].
  - by rewrite lookup_insert_eq, decide_True.
  - rewrite lookup_insert_ne, decide_False by congruence. done.
Qed.

Lemma chain_entry_set c oppo hs oppo' ch :
  chain_entry (set_handlers c oppo hs) oppo' ch =
  if decide (oppo' = oppo) then hs !! ch else chain_entry c oppo' ch.
Proof. unfold chain_entry. rewrite handlers_of_set. by case_decide. Qed.

Lemma connect_represents {A} (h : ListenerHandler A) a self oppo l a' e :
  represents h a → spec_exec a (connect_op self oppo l) = Some (a', e) →
  represents (connect h self oppo l) a'.
Proof.
  intros Hr Hs. destruct (handler_exec_represents h a _ a' e Hr Hs) as (h' & Hx & Hr').
  rewrite connect_exec in Hx. by simplify_eq.
Qed.

Lemma disconnect_represents {A} (h : ListenerHandler A) a self oppo a' e :
  represents h a → spec_exec a (disconnect_op self oppo) = Some (a', e) →
  represents (disconnect h self oppo) a'.
Proof.
  intros Hr Hs. destruct (handler_exec_represents h a _ a' e Hr Hs) as (h' & Hx & Hr').
  rewrite disconnect_exec in Hx. by simplify_eq.
Qed.

Lemma run_represents {A} (h : ListenerHandler A) a sender :
  represents h a →
  (Run h sender).1 = (to_all a).*2 ++ (to_writer a sender).*2 ∧ represents (Run h sender).2 a.
Proof.
  intros Hr. destruct (handler_exec_represents h a (OpRun sender) a _ Hr eq_refl) as (h' & Hx & Hr').
  simpl in Hx. destruct (Run h sender). by simplify_eq.
Qed.

(** What connecting and disconnecting do to the list of one kind. *)
Lemma connect_list {A} (a : listeners A) self oppo l a' e :
  spec_exec a (connect_op self oppo l) = Some (a', e) →
  self ∉ (list_for a oppo).*1 ∧
  ∀ oppo', list_for a' oppo' =
    if decide (oppo' = oppo) then list_for a oppo ++ [(self, l)] else list_for a oppo'.
Proof.
  destruct oppo as [o|]; simpl; case_decide as Hin; intros; simplify_eq; (split; [done|]);
    intros [o'|]; simpl; try done; unfold upd; repeat case_decide; naive_solver.
Qed.

Lemma disconnect_list {A} (a : listeners A) self oppo a' e :
  spec_exec a (disconnect_op self oppo) = Some (a', e) →
  ∀ oppo', list_for a' oppo' =
    if decide (oppo' = oppo) then filter (λ e, e.1 ≠ self) (list_for a oppo) else list_for a oppo'.
Proof.
  destruct oppo as [o|]; simpl; intros; simplify_eq; destruct oppo' as [o'|]; simpl; try done;
    unfold upd; repeat case_decide; naive_solver.
Qed.

Lemma only_connect oppo ls self (l : L) :
  self ∉ ls.*1 →
  ∃ a', spec_exec (only oppo ls) (connect_op self oppo l) = Some (a', None) ∧
    to_all a' = to_all (only oppo (ls ++ [(self, l)])) ∧
    ∀ o, to_writer a' o = to_writer (only oppo (ls ++ [(self, l)])) o.
Proof.
  intros Hni. destruct oppo as [o|]; simpl.
  - rewrite (decide_True (P := o = o)) by done. rewrite decide_False by done. eexists. split; [done|].
    split; [done|]. intros o'. simpl. unfold upd. by repeat case_decide.
  - rewrite decide_False by done. eexists. by split.
Qed.

(** *** Chain operations on entries *)

Lemma Chain_AddListener_entry c self oppo ch ty (l : L) ls :
  entry_ok (chain_entry c oppo ch) ty oppo ls → self ∉ ls.*1 →
  let r := Chain_AddListener c self oppo ch ty l in
  entry_ok (chain_entry r.1 oppo ch) ty oppo (ls ++ [(self, l)]) ∧
  r.2 = bool_decide (ls = []) ∧
  ∀ oppo' ch', (oppo', ch') ≠ (oppo, ch) → chain_entry r.1 oppo' ch' = chain_entry c oppo' ch'.
Proof.
  intros He Hni. destruct (only_connect oppo ls self l Hni) as (a' & Ha' & Eall & Ewr).
  unfold Chain_AddListener, Chain_GetHandler.
  assert (Hhs : default ∅ (handlers_of c oppo) !! ch = chain_entry c oppo ch).
  { unfold chain_entry. by destruct (handlers_of c oppo). }
  set (hs0 := default ∅ (handlers_of c oppo)) in *.
  assert (Hother : ∀ hs1 chan oppo' ch', (oppo', ch') ≠ (oppo, ch) →
    (∀ c', c' ≠ ch → (hs1 : BaseHandlersType) !! c' = hs0 !! c') →
    chain_entry (set_handlers c oppo (alter chan ch hs1)) oppo' ch' = chain_entry c oppo' ch').
  { intros hs1 f oppo' ch' Hne Hs. rewrite chain_entry_set. case_decide as Eo; [|done]. subst oppo'.
    rewrite lookup_alter_ne by congruence. rewrite Hs by congruence. unfold chain_entry, hs0.
    by destruct (handlers_of c oppo). }
  assert (Hok : ∀ h ls', ls' = ls ++ [(self, l)] → represents h (only oppo ls) →
    entry_ok (Some [(ty, connect h self oppo l)]) ty oppo ls').
  { intros h ls' -> Hr. unfold entry_ok. destruct (ls ++ [(self, l)]) eqn:E; [by destruct ls|]. rewrite <- E.
    eexists. split; [done|]. eapply represents_ext; [by eapply connect_represents|by rewrite Eall, E|].
    intros o. by rewrite Ewr, E. }
  destruct ls as [|x ls].
  - simpl in He. rewrite Hhs, He. simpl. split; [|split; [done|]].
    + rewrite chain_entry_set, decide_True, lookup_alter_eq, lookup_insert_eq by done. simpl.
      rewrite decide_True by done. apply (Hok ListenerHandler_new [(self, l)]); [done|].
      eapply represents_ext; [apply handler_new_represents|by destruct oppo|].
      intros o. destruct oppo; simpl; [by case_decide|done].
    + intros oppo' ch' Hne. apply Hother; [done|]. intros c' Hc. by rewrite lookup_insert_ne.
  - destruct He as (h & He & Hr). rewrite Hhs, He. simpl. rewrite decide_True by done. simpl.
    split; [|split; [done|]].
    + rewrite chain_entry_set, decide_True, lookup_alter_eq, lookup_insert_eq by done. simpl.
      rewrite decide_True by done. by apply (Hok h ((x :: ls) ++ [(self, l)])).
    + intros oppo' ch' Hne. apply Hother; [done|]. intros c' Hc. by rewrite lookup_insert_ne.
Qed.

(** Removing from a map of one entry per channel. *)
Lemma Chain_RemoveListener_entry c oppo ch ty ls :
  entry_ok (chain_entry c oppo ch) ty oppo ls →
  chain_entry (Chain_RemoveListener c oppo ch ty) oppo ch = None ∧
  ∀ oppo' ch', (oppo', ch') ≠ (oppo, ch) →
    chain_entry (Chain_RemoveListener c oppo ch ty) oppo' ch' = chain_entry c oppo' ch'.
Proof.
  intros He. unfold Chain_RemoveListener. unfold chain_entry in He at 1.
  destruct (handlers_of c oppo) as [hs|] eqn:Eh.
  2:{ split; [unfold chain_entry; by rewrite Eh|done]. }
  simpl in He.
  assert (Hrem : (Chain_RemoveHandler ch ty hs).1 !! ch = None ∧
    ∀ ch', ch' ≠ ch → (Chain_RemoveHandler ch ty hs).1 !! ch' = hs !! ch').
  { unfold Chain_RemoveHandler. destruct ls as [|x ls].
    - simpl in He. rewrite He. by split.
    - destruct He as (h & -> & _). unfold type_erase. rewrite filter_cons, decide_False by (simpl; tauto).
      simpl. rewrite lookup_delete_eq. split; [done|]. intros ch' Hne. by rewrite lookup_delete_ne. }
  destruct Hrem as [Hn Ho]. set (hs' := (Chain_RemoveHandler ch ty hs).1) in *.
  assert (Hset : chain_entry (set_handlers c oppo hs') oppo ch = None ∧
    ∀ oppo' ch', (oppo', ch') ≠ (oppo, ch) →
      chain_entry (set_handlers c oppo hs') oppo' ch' = chain_entry c oppo' ch').
  { split; [by rewrite chain_entry_set, decide_True|]. intros oppo' ch' Hne. rewrite chain_entry_set.
    case_decide; [|done]. subst oppo'. rewrite Ho by congruence. unfold chain_entry. by rewrite Eh. }
  destruct oppo as [o|]; [|done]. destruct (decide (hs' = ∅)) as [E|]; [|done].
  split; [unfold chain_entry; simpl; by rewrite lookup_delete_eq|].
  intros oppo' ch' Hne. unfold chain_entry. destruct oppo' as [o'|]; [|done]. simpl.
  destruct (decide (o' = o)) as [->|]; [|by rewrite lookup_delete_ne].
  rewrite lookup_delete_eq. simpl in Eh. rewrite Eh. simpl.
  rewrite <- Ho by congruence. by rewrite E, lookup_empty.
Qed.

Lemma Chain_Run_entry c oppo ch ty m sender ls :
  entry_ok (chain_entry c oppo ch) ty oppo ls → (oppo = None ∨ oppo = Some sender) → ls ≠ [] →
  let r := Chain_Run c oppo ch ty m sender in
  r.1 = (λ x, (x, m)) <$> ls.*2 ∧ entry_ok (chain_entry r.2 oppo ch) ty oppo ls ∧
  ∀ oppo' ch', (oppo', ch') ≠ (oppo, ch) → chain_entry r.2 oppo' ch' = chain_entry c oppo' ch'.
Proof.
  intros He Hop Hne. destruct ls as [|x ls]; [done|]. destruct He as (h & He & Hr).
  unfold Chain_Run. unfold chain_entry in He. destruct (handlers_of c oppo) as [hs|] eqn:Eh; [|done].
  simpl in He. rewrite He. destruct (run_represents h _ sender Hr) as [Hc Hr'].
  simpl. rewrite decide_True by done. destruct (Run h sender) as [called h']. simpl in *. subst called.
  split; [|split].
  - rewrite app_nil_r. f_equal. destruct Hop as [->| ->]; simpl; [by rewrite app_nil_r|].
    by rewrite decide_True.
  - rewrite chain_entry_set, decide_True, lookup_insert_eq by done. by exists h'.
  - intros oppo' ch' Hn. rewrite chain_entry_set. case_decide; [|done]. subst oppo'.
    rewrite lookup_insert_ne by congruence. unfold chain_entry. by rewrite Eh.
Qed.

(** *** The refinement *)

(** The first listener of each kind has a wrapper in the table. *)
Definition wrap (oppo : option Z) (ch : Z) (ty : nat) (ls : list (Z * L)) : list (Z * wrapper) :=
  match ls with [] => [] | (self, _) :: _ => [(self, mkWrapper self oppo ch ty)] end.

Definition wrappers (ch : Z) (ty : nat) (a : listeners L) : listeners wrapper :=
  mkListeners (wrap None ch ty (to_all a)) (λ o, wrap (Some o) ch ty (to_writer a o)).

Definition row_ok (b : Dispatcher (DM := DM)) (c : ChannelChain) (ch : Z) (r : option (nat * listeners L)) :
    Prop :=
  match r with
  | None => kv_get ch (msg_listeners_ b) = None ∧ ∀ oppo, chain_entry c oppo ch = None
  | Some (ty, a) =>
      (∃ h, kv_get ch (msg_listeners_ b) = Some (ty, h) ∧ represents h (wrappers ch ty a)) ∧
      ∀ oppo, entry_ok (chain_entry c oppo ch) ty oppo (list_for a oppo)
  end.

Definition intra_implements (d : IntraDispatcher) (t : table (L := L)) : Prop :=
  is_shutdown_ (base d) = down t ∧ kv_wf (msg_listeners_ (base d)) ∧
  ∀ ch, in_u 64 ch → row_ok (base d) (chain_ d) ch (rows t ch).

Lemma list_for_wrappers ch ty a oppo : list_for (wrappers ch ty a) oppo = wrap oppo ch ty (list_for a oppo).
Proof. by destruct oppo. Qed.

Lemma represents_ext_for {A} (h : ListenerHandler A) a a' :
  represents h a → (∀ oppo, list_for a oppo = list_for a' oppo) → represents h a'.
Proof. intros Hr He. eapply represents_ext; [done|apply (He None)|]. intros o. apply (He (Some o)). Qed.

Lemma connect_possible {A} (a : listeners A) self oppo l :
  self ∉ (list_for a oppo).*1 → ∃ a', spec_exec a (connect_op self oppo l) = Some (a', None).
Proof. intros Hni. destruct oppo; simpl in *; rewrite decide_False by done; eauto. Qed.

Lemma disconnect_possible {A} (a : listeners A) self oppo :
  ∃ a', spec_exec a (disconnect_op self oppo) = Some (a', None).
Proof. destruct oppo; simpl; eauto. Qed.

(** The table's handler after a listener was added to the chain. *)
Lemma wrapper_added h ch ty a self oppo l a' e :
  represents h (wrappers ch ty a) → spec_exec a (connect_op self oppo l) = Some (a', e) →
  represents (if bool_decide (list_for a oppo = [])
              then connect h self oppo (mkWrapper self oppo ch ty) else h) (wrappers ch ty a').
Proof.
  intros Hr Hs. destruct (connect_list a self oppo l a' e Hs) as [Hni Ha'].
  case_bool_decide as El.
  - destruct (connect_possible (wrappers ch ty a) self oppo (mkWrapper self oppo ch ty)) as [wa Hwa].
    { rewrite list_for_wrappers, El. apply not_elem_of_nil. }
    destruct (connect_list _ _ _ _ _ _ Hwa) as [_ Hlw].
    eapply represents_ext_for; [by eapply connect_represents|].
    intros oppo'. rewrite Hlw, !list_for_wrappers, Ha', El. by case_decide; subst.
  - eapply represents_ext_for; [done|]. intros oppo'. rewrite !list_for_wrappers, Ha'. case_decide; [|done].
    subst. by destruct (list_for a oppo) as [|[]].
Qed.

(** Removing the only listener of a kind, or none. *)
Lemma wrapper_removed h ch ty a self oppo a' e :
  represents h (wrappers ch ty a) → spec_exec a (disconnect_op self oppo) = Some (a', e) →
  (list_for a oppo = [] ∨ ∃ l, list_for a oppo = [(self, l)]) →
  represents (disconnect h self oppo) (wrappers ch ty a').
Proof.
  intros Hr Hs Hl. destruct (disconnect_possible (wrappers ch ty a) self oppo) as [wa Hwa].
  eapply represents_ext_for; [by eapply disconnect_represents|].
  intros oppo'. rewrite (disconnect_list _ _ _ _ _ Hwa), !list_for_wrappers, (disconnect_list _ _ _ _ _ Hs).
  case_decide; [|done]. subst. destruct Hl as [->|[l ->]]; [done|]. simpl.
  by rewrite !filter_cons, !decide_False by (simpl; tauto).
Qed.

Lemma set_row_rows (t : table (L := L)) ch r ch' :
  rows (set_row t ch r) ch' = if decide (ch' = ch) then Some r else rows t ch'.
Proof. done. Qed.

(** Rows of other channels do not notice. *)
Lemma row_ok_frame b b' c c' ch r :
  kv_get ch (msg_listeners_ b') = kv_get ch (msg_listeners_ b) →
  (∀ oppo, chain_entry c' oppo ch = chain_entry c oppo ch) → row_ok b c ch r → row_ok b' c' ch r.
Proof.
  intros Hk Hc. unfold row_ok. destruct r as [[ty a]|]; rewrite Hk.
  - intros [H1 H2]. split; [done|]. intros oppo. by rewrite Hc.
  - intros [H1 H2]. split; [done|]. intros oppo. by rewrite Hc.
Qed.

Lemma IAdd_implements d t ty ch self oppo l t' e :
  intra_implements d t →
  intra_spec t (IAdd ty ch self oppo l) = Some (t', e) →
  e = None ∧ intra_implements (IntraDispatcher_AddListener d ty ch self oppo l) t'.
Proof using Type*.
  intros Hi Ho. pose proof Hi as (Hsd & Hwf & Hrows). simpl in Ho.
  destruct (bool_decide (in_u 64 ch)) eqn:Ech; simpl in Ho; [apply bool_decide_eq_true in Ech|done].
  unfold IntraDispatcher_AddListener. rewrite Hsd. destruct (down t) eqn:Ed; [by simplify_eq|].
  pose proof (Hrows ch Ech) as Hrow. destruct (default (ty, no_listeners) (rows t ch)) as [ty' a] eqn:Er.
  case_decide as Ety; [subst ty'|done].
  destruct (spec_exec a (connect_op self oppo l)) as [[a' e']|] eqn:Es; [|done]. simplify_eq.
  split; [done|]. destruct (connect_list a self oppo l a' e' Es) as [Hni Ha'].
  assert (Hent : ∀ oppo, entry_ok (chain_entry (chain_ d) oppo ch) ty oppo (list_for a oppo)).
  { unfold row_ok in Hrow. destruct (rows t ch) as [[ty1 a1]|]; simpl in Er; simplify_eq; [apply Hrow|].
    intros o. destruct Hrow as [_ Hc]. rewrite (Hc o). by destruct o. }
  destruct (Chain_AddListener_entry (chain_ d) self oppo ch ty l _ (Hent oppo) Hni) as (He1 & Hcr & Heo).
  destruct (Chain_AddListener (chain_ d) self oppo ch ty l) as [c created]. cbn [fst snd] in *. subst created.
  set (f := λ th : nat * ListenerHandler wrapper,
    (th.1, connect th.2 self oppo (mkWrapper self oppo ch ty))).
  assert (Hfinish : ∀ b h, is_shutdown_ b = false → kv_wf (msg_listeners_ b) →
    kv_get ch (msg_listeners_ b) = Some (ty, h) → represents h (wrappers ch ty a) →
    (∀ ch', in_u 64 ch' → ch' ≠ ch → kv_get ch' (msg_listeners_ b) = kv_get ch' (msg_listeners_ (base d))) →
    intra_implements
      (if bool_decide (list_for a oppo = [])
       then mkIntra (mkDispatcher (is_shutdown_ b) (kv_modify ch f (msg_listeners_ b))) c
       else mkIntra b c) (set_row t ch (ty, a'))).
  { intros b h Hb Hbw Hg Hr Hbo.
    assert (Hnew : ∀ oppo', entry_ok (chain_entry c oppo' ch) ty oppo' (list_for a' oppo')).
    { intros oppo'. rewrite Ha'. case_decide as E; [by subst|]. rewrite Heo by congruence. apply Hent. }
    pose proof (wrapper_added h ch ty a self oppo l a' e' Hr Es) as Hr'.
    case_bool_decide as El; (split; [simpl; congruence|]).
    - split; [by apply kv_wf_modify|]. intros ch' Hch'. rewrite set_row_rows. simpl. case_decide as E.
      + subst ch'. split; [|done]. simpl. rewrite kv_get_modify, decide_True by done. rewrite Hg. simpl. eauto.
      + eapply row_ok_frame; [| |by apply Hrows].
        * simpl. rewrite kv_get_modify, decide_False by congruence. by apply Hbo.
        * intros o. apply Heo. congruence.
    - split; [done|]. intros ch' Hch'. rewrite set_row_rows. simpl. case_decide as E.
      + subst ch'. split; [|done]. eauto.
      + eapply row_ok_frame; [by apply Hbo| |by apply Hrows]. intros o. apply Heo. congruence. }
  unfold GetHandler, row_ok in *. destruct (rows t ch) as [[ty1 a1]|] eqn:Erow; simpl in Er; simplify_eq.
  - destruct Hrow as [(h & Hg & Hr) _]. rewrite Hg. cbn [fst snd]. rewrite bool_decide_true by done.
    rewrite andb_true_l. by apply (Hfinish _ h).
  - destruct Hrow as [Hg _]. rewrite Hg. rewrite andb_true_l.
    apply (Hfinish (mkDispatcher _ _) ListenerHandler_new).
    + simpl; congruence.
    + by apply kv_wf_set.
    + simpl. by rewrite kv_get_set, decide_True.
    + apply handler_new_represents.
    + intros ch' Hch' Hne. simpl. by rewrite kv_get_set, decide_False by congruence.
Qed.

Lemma IRemove_implements d t ty ch self oppo t' e :
  intra_implements d t → intra_spec t (IRemove ty ch self oppo) = Some (t', e) →
  e = None ∧ intra_implements (IntraDispatcher_RemoveListener d ty ch self oppo) t'.
Proof using Type*.
  intros Hi Ho. pose proof Hi as (Hsd & Hwf & Hrows). simpl in Ho.
  destruct (bool_decide (in_u 64 ch)) eqn:Ech; simpl in Ho; [apply bool_decide_eq_true in Ech|done].
  unfold IntraDispatcher_RemoveListener, RemoveListener. rewrite Hsd.
  destruct (down t) eqn:Ed; [by simplify_eq|].
  pose proof (Hrows ch Ech) as Hrow. unfold row_ok in Hrow.
  set (c := Chain_RemoveListener (chain_ d) oppo ch ty).
  destruct (rows t ch) as [[ty' a]|] eqn:Er.
  - destruct Hrow as [(h & Hg & Hr) Hent]. case_decide as Ety; [subst ty'|done]. rewrite Hg.
    destruct (disconnect_possible a self oppo) as [a' Hs]. rewrite Hs in Ho.
    assert (Hcase : ∃ na, e = None ∧ (list_for a oppo = [] ∨ ∃ l, list_for a oppo = [(self, l)]) ∧
      (∀ ch', rows t' ch' = if decide (ch' = ch) then Some (ty, na) else rows t ch') ∧
      down t' = down t ∧ ∀ o, list_for na o = list_for a' o).
    { pose proof (disconnect_list _ _ _ _ _ Hs) as Ha'.
      destruct (list_for a oppo) as [|[self' l] [|]] eqn:El; [| |done].
      - simplify_eq. exists a. split; [done|]. split; [by left|].
        split; [intros ch'; by destruct (decide (ch' = ch)) as [->|]|]. split; [done|].
        intros o. rewrite Ha'. by destruct (decide (o = oppo)) as [->|].
      - destruct (decide (self' = self)) as [->|]; simplify_eq. exists a'. split; [done|].
        split; [right; by exists l|]. by split. }
    destruct Hcase as (na & -> & Hl & Ht' & Hd' & Hna). split; [done|].
    destruct (Chain_RemoveListener_entry _ oppo ch ty _ (Hent oppo)) as [Hc Hco]. fold c in Hc, Hco.
    assert (Ha'l : ∀ oppo', list_for na oppo' = if decide (oppo' = oppo) then [] else list_for a oppo').
    { intros oppo'. rewrite Hna, (disconnect_list _ _ _ _ _ Hs).
      destruct (decide (oppo' = oppo)) as [E|]; [|done].
      destruct Hl as [->|[l ->]]; [done|]. rewrite filter_cons.
      destruct (decide ((self, l).1 ≠ self)) as [Hn|]; [by destruct (Hn eq_refl)|done]. }
    split; [simpl; congruence|]. split; [by apply kv_wf_modify|].
    intros ch' Hch'. rewrite Ht'. simpl base. simpl chain_.
    destruct (decide (ch' = ch)) as [->|E].
    + pose proof (wrapper_removed h ch ty a self oppo a' None Hr Hs Hl) as Hr'. split.
      * cbn [msg_listeners_]. rewrite kv_get_modify, decide_True by done. rewrite Hg. simpl.
        eexists. split; [done|]. eapply represents_ext_for; [exact Hr'|].
        intros o. by rewrite !list_for_wrappers, Hna.
      * intros o. rewrite Ha'l. destruct (decide (o = oppo)) as [->|Eo]; [done|].
        rewrite Hco by congruence. apply Hent.
    + eapply row_ok_frame; [| |by apply Hrows].
      * simpl. by rewrite kv_get_modify, decide_False by congruence.
      * intros o. apply Hco. congruence.
  - destruct Hrow as [Hg Hent]. rewrite Hg. simplify_eq. split; [done|].
    destruct (Chain_RemoveListener_entry (chain_ d) oppo ch ty [] (Hent oppo)) as [Hc Hco].
    split; [simpl; congruence|]. split; [done|]. intros ch' Hch'. simpl base. simpl chain_.
    eapply row_ok_frame; [done| |by apply Hrows]. intros o.
    destruct (decide ((o, ch') = (oppo, ch))) as [[= -> ->]|Hne]; [|by apply Hco].
    unfold c. by rewrite Hc, Hent.
Qed.

(** The wrappers called for a message: of all messages, then of its writer's. *)
Lemma run_wrap c oppo ch ty m sender ls ws :
  entry_ok (chain_entry c oppo ch) ty oppo ls → (oppo = None ∨ oppo = Some sender) →
  ∃ c1, run_wrappers c ((wrap oppo ch ty ls).*2 ++ ws) m sender =
      (((λ x, (x, m)) <$> ls.*2) ++ (run_wrappers c1 ws m sender).1, (run_wrappers c1 ws m sender).2) ∧
    entry_ok (chain_entry c1 oppo ch) ty oppo ls ∧
    ∀ oppo' ch', (oppo', ch') ≠ (oppo, ch) → chain_entry c1 oppo' ch' = chain_entry c oppo' ch'.
Proof.
  intros He Hop. destruct ls as [|[self l] ls].
  - exists c. simpl. destruct (run_wrappers c ws m sender). by split.
  - destruct (Chain_Run_entry c oppo ch ty m sender _ He Hop) as (H1 & H2 & H3); [done|].
    exists (Chain_Run c oppo ch ty m sender).2. split; [|by split].
    cbn [wrap fmap list_fmap app run_wrappers snd w_oppo w_channel w_type].
    destruct (Chain_Run c oppo ch ty m sender) as [calls c1]. cbn [fst snd] in *. subst calls.
    by destruct (run_wrappers c1 ws m sender).
Qed.

Lemma IMessage_implements d t ty ch m sender t' e :
  intra_implements d t → intra_spec t (IMessage ty ch m sender) = Some (t', e) →
  ∃ d', intra_exec d (IMessage ty ch m sender) = Some (d', e) ∧ intra_implements d' t'.
Proof using Type*.
  intros Hi Ho. pose proof Hi as (Hsd & Hwf & Hrows). simpl in Ho.
  destruct (bool_decide (in_u 64 ch)) eqn:Ech; simpl in Ho; [apply bool_decide_eq_true in Ech|done].
  simplify_eq. unfold intra_exec, IntraDispatcher_OnMessage. rewrite Hsd.
  destruct (down t') eqn:Ed; [by exists d|]. pose proof (Hrows ch Ech) as Hrow. unfold row_ok in Hrow.
  destruct (rows t' ch) as [[ty' a]|] eqn:Er; [|destruct Hrow as [-> _]; by exists d].
  destruct Hrow as [(h & Hg & Hr) Hent]. rewrite Hg.
  destruct (delivered ty ty' m) as [m'|]; [|by exists d].
  destruct (run_represents h _ sender Hr) as [Hc Hr']. rewrite Hc. simpl to_all. simpl to_writer.
  destruct (run_wrap (chain_ d) None ch ty' m' sender (to_all a)
    (wrap (Some sender) ch ty' (to_writer a sender)).*2 (Hent None)) as (c1 & -> & He1 & Ho1); [by left|].
  assert (Hent1 : entry_ok (chain_entry c1 (Some sender) ch) ty' (Some sender) (to_writer a sender)).
  { rewrite Ho1 by congruence. apply (Hent (Some sender)). }
  destruct (run_wrap c1 (Some sender) ch ty' m' sender (to_writer a sender) [] Hent1) as (c2 & Hrun & He2 & Ho2);
    [by right|].
  rewrite app_nil_r in Hrun. rewrite Hrun. cbn [run_wrappers fst snd]. rewrite app_nil_r.
  eexists. split; [by rewrite fmap_app|]. split; [simpl; congruence|]. split; [by apply kv_wf_modify|].
  intros ch' Hch'. simpl base. simpl chain_. destruct (decide (ch' = ch)) as [->|Hne].
  - rewrite Er. split.
    + simpl. rewrite kv_get_modify, decide_True by done. rewrite Hg. simpl. eauto.
    + intros o. destruct (decide (o = Some sender)) as [->|Hs]; [done|].
      rewrite Ho2 by congruence. destruct (decide (o = None)) as [->|Hn]; [done|].
      rewrite Ho1 by congruence. apply Hent.
  - eapply row_ok_frame; [| |by apply Hrows].
    + simpl. by rewrite kv_get_modify, decide_False by congruence.
    + intros o. rewrite Ho2, Ho1 by congruence. done.
Qed.

Lemma intra_exec_implements d t o t' e :
  intra_implements d t → intra_spec t o = Some (t', e) →
  ∃ d', intra_exec d o = Some (d', e) ∧ intra_implements d' t'.
Proof using Type*.
  intros Hi Ho. destruct o as [ty ch self oppo l|ty ch self oppo|ty ch m sender|].
  - destruct (IAdd_implements _ _ _ _ _ _ _ _ _ Hi Ho) as [-> H]. eexists. by split.
  - destruct (IRemove_implements _ _ _ _ _ _ _ _ Hi Ho) as [-> H]. eexists. by split.
  - by eapply IMessage_implements.
  - simpl in Ho. simplify_eq. eexists. split; [done|]. destruct Hi as (H1 & H2 & H3).
    split; [done|]. split; [done|]. exact H3.
Qed.

Lemma intra_new_implements : intra_implements IntraDispatcher_new (mkTable false (λ _, None)).
Proof using Type*.
  split; [done|]. split; [apply kv_wf_empty|]. intros ch Hch. split; [by apply kv_get_empty|].
  intros [o|]; unfold chain_entry; simpl; by rewrite lookup_empty.
Qed.
End Intra.

(** Property: as long as a channel has one message type and a listener is removed
    only when it is the last of its kind (for all messages, or for one writer),
    the detour over wrappers and chain is invisible: every message reaches
    exactly the listeners of its channel for all messages, then those for its
    writer, each once; a message of another type reaches them as it is parsed
    from its serialised form; nothing happens after [Shutdown]. *)
Theorem intra_dispatcher_implements_table {L Msg DM} size ser par
    `{!KVStore DM (nat * ListenerHandler wrapper), !KVStoreLaws DM (nat * ListenerHandler wrapper)}
    (ops : list (intra_op (L := L) (Msg := Msg))) t es :
  ev_run (intra_spec size ser par) (mkTable false (λ _, None)) ops = Some (t, es) →
  ∃ d : IntraDispatcher (DM := DM),
    ev_run (intra_exec size ser par) IntraDispatcher_new ops = Some (d, es) ∧ intra_implements d t.
Proof.
  assert (H : ∀ ops (d0 : IntraDispatcher (L := L) (DM := DM)) t0 t es, intra_implements d0 t0 →
    ev_run (intra_spec size ser par) t0 ops = Some (t, es) →
    ∃ d : IntraDispatcher (DM := DM),
      ev_run (intra_exec size ser par) d0 ops = Some (d, es) ∧ intra_implements d t).
  { clear ops t es. induction ops as [|o ops IH]; intros d0 t0 t es Hr Hs; simpl in *.
    - simplify_eq. eauto.
    - destruct (intra_spec size ser par t0 o) as [[t1 e]|] eqn:Ho; [|done].
      destruct (ev_run _ t1 ops) as [[t2 es']|] eqn:Hs'; [|done]. simplify_eq.
      destruct (intra_exec_implements size ser par d0 t0 o t1 e Hr Ho) as (d1 & -> & Hr1).
      destruct (IH d1 t1 t es' Hr1 Hs') as (d & -> & Hr2). eauto. }
  apply H, intra_new_implements.
Qed.

Abbreviation table_map := (AtomicHashMap (nat * ListenerHandler wrapper)).

(** Messages are numbers, serialised as one byte; a parser of type 1 adds 100. *)
Abbreviation demo_exec :=
  (intra_exec (L := Z) (Msg := Z) (DM := table_map) (λ _, 1) (λ m, Some [m])
     (λ ty s, head s ≫= λ m, Some (m + 100 * Z.of_nat ty))).
Abbreviation demo_spec :=
  (intra_spec (L := Z) (Msg := Z) (λ _, 1) (λ m, Some [m])
     (λ ty s, head s ≫= λ m, Some (m + 100 * Z.of_nat ty))).

Definition intra_example : list (intra_op (L := Z) (Msg := Z)) :=
  [IAdd 0 7 1 None 10; IAdd 0 7 2 None 20; IAdd 0 7 3 (Some 5) 30; IMessage 0 7 42 5; IMessage 0 7 43 6;
   IRemove 0 7 3 (Some 5); IMessage 0 7 44 5; IMessage 1 7 45 5; IMessage 0 8 46 5; IDown; IMessage 0 7 47 5].

Lemma intra_dispatcher_implements_table_witness :
  ∃ d, ev_run demo_exec IntraDispatcher_new intra_example =
    Some (d, [[(10, 42); (20, 42); (30, 42)]; [(10, 43); (20, 43)]; [(10, 44); (20, 44)];
              [(10, 45); (20, 45)]; []; []]).
Proof.
  destruct (intra_dispatcher_implements_table (DM := table_map) (λ _ : Z, 1) (λ m, Some [m])
    (λ ty s, head s ≫= λ m, Some (m + 100 * Z.of_nat ty)) intra_example _ _ eq_refl) as (d & Hd & _).
  exists d. exact Hd.
Defined.

(** Property: [RemoveListener] takes the handler with all its listeners out of the
    chain: when one of two readers of a channel leaves, the other gets no
    message any more, whichever of the two leaves.  The same holds when the
    readers have different types and the first one leaves. *)
Theorem intra_remove_silences_other_readers :
  (∃ d, ev_run demo_exec IntraDispatcher_new
     [IAdd 0 7 1 None 10; IAdd 0 7 2 None 20; IMessage 0 7 42 5; IRemove 0 7 1 None; IMessage 0 7 43 5]
     = Some (d, [[(10, 42); (20, 42)]; []])) ∧
  (∃ d, ev_run demo_exec IntraDispatcher_new
     [IAdd 0 7 1 None 10; IAdd 0 7 2 None 20; IMessage 0 7 42 5; IRemove 0 7 2 None; IMessage 0 7 43 5]
     = Some (d, [[(10, 42); (20, 42)]; []])) ∧
  (∃ d, ev_run demo_exec IntraDispatcher_new
     [IAdd 0 7 1 None 10; IAdd 1 7 2 None 20; IMessage 0 7 42 5; IRemove 0 7 1 None; IMessage 1 7 43 5]
     = Some (d, [[(10, 42); (20, 142)]; []])).
Proof. split; [|split]; eexists; vm_compute; reflexivity. Qed.
