(* ===== verification/Graph.v ===== *)
(** * [cyber/service_discovery/container/graph.h], [graph.cc]

    The flow graph of the topology: nodes are vertices, a channel (an edge
    value) connects each of its writers with each of its readers.  [edges_]
    keeps the writers and readers of a value, [list_] the complete edges by
    source, keyed by value and target.  The specification is the pair of the
    two relations "writes" and "reads".  The operations take the graph's lock
    and are atomic here. *)

From stdpp Require Import sets fin_sets relations.
From S2P Require Import Prelude.

Inductive FlowDirection := UNREACHABLE | UPSTREAM | DOWNSTREAM.

#[global] Instance FlowDirection_eq_dec : EqDecision FlowDirection.
Proof. solve_decision. Defined.

(** A [Vertice] is its value; [GetKey] returns it. *)
Abbreviation Vertice := string.

Definition IsDummy (v : Vertice) : bool := String.eqb v "".

Record Edge := mkEdge { src_ : Vertice; dst_ : Vertice; value_ : string }.

Definition IsValid (e : Edge) : bool :=
  if String.eqb (value_ e) "" then false else negb (IsDummy (src_ e) && IsDummy (dst_ e)).

Definition GetKey (e : Edge) : string := value_ e +:+ "_" +:+ dst_ e.

(** A [VerticeSet] whose keys are the vertices' own is a set. *)
Record RelatedVertices := mkRelated { src : gset Vertice; dst : gset Vertice }.

Abbreviation AdjacencyList := (gmap string (gmap string Vertice)).

Record Graph := mkGraph { edges_ : gmap string RelatedVertices; list_ : AdjacencyList }.

Definition Graph_new : Graph := mkGraph ∅ ∅.

Definition touch (l : AdjacencyList) (k : string) : AdjacencyList :=
  match l !! k with Some _ => l | None => <[k := ∅]> l end.

Definition InsertCompleteEdge (l : AdjacencyList) (e : Edge) : AdjacencyList :=
  let l := touch (touch l (src_ e)) (dst_ e) in
  <[src_ e := <[GetKey e := dst_ e]> (default ∅ (l !! src_ e))]> l.

Definition DeleteCompleteEdge (l : AdjacencyList) (e : Edge) : AdjacencyList :=
  <[src_ e := delete (GetKey e) (default ∅ (l !! src_ e))]> l.

Definition related (g : Graph) (v : string) : RelatedVertices :=
  default (mkRelated ∅ ∅) (edges_ g !! v).

Definition InsertOutgoingEdge (g : Graph) (e : Edge) : Graph :=
  let r := related g (value_ e) in
  if decide (src_ e ∈ src r) then g
  else
    mkGraph (<[value_ e := mkRelated ({[ src_ e ]} ∪ src r) (dst r)]> (edges_ g))
      (foldl InsertCompleteEdge (list_ g) ((λ d, mkEdge (src_ e) d (value_ e)) <$> elements (dst r))).

Definition InsertIncomingEdge (g : Graph) (e : Edge) : Graph :=
  let r := related g (value_ e) in
  if decide (dst_ e ∈ dst r) then g
  else
    mkGraph (<[value_ e := mkRelated (src r) ({[ dst_ e ]} ∪ dst r)]> (edges_ g))
      (foldl InsertCompleteEdge (list_ g) ((λ s, mkEdge s (dst_ e) (value_ e)) <$> elements (src r))).

Definition DeleteOutgoingEdge (g : Graph) (e : Edge) : Graph :=
  let r := related g (value_ e) in
  if decide (src_ e ∈ src r)
  then
    mkGraph (<[value_ e := mkRelated (src r ∖ {[ src_ e ]}) (dst r)]> (edges_ g))
      (foldl DeleteCompleteEdge (list_ g) ((λ d, mkEdge (src_ e) d (value_ e)) <$> elements (dst r)))
  else g.

Definition DeleteIncomingEdge (g : Graph) (e : Edge) : Graph :=
  let r := related g (value_ e) in
  if decide (dst_ e ∈ dst r)
  then
    mkGraph (<[value_ e := mkRelated (src r) (dst r ∖ {[ dst_ e ]})]> (edges_ g))
      (foldl DeleteCompleteEdge (list_ g) ((λ s, mkEdge s (dst_ e) (value_ e)) <$> elements (src r)))
  else g.

Definition Insert (g : Graph) (e : Edge) : Graph :=
  if negb (IsValid e) then g
  else
    let g := match edges_ g !! value_ e with
             | Some _ => g
             | None => mkGraph (<[value_ e := mkRelated ∅ ∅]> (edges_ g)) (list_ g)
             end in
    let g := if IsDummy (src_ e) then g else InsertOutgoingEdge g e in
    if IsDummy (dst_ e) then g else InsertIncomingEdge g e.

Definition Delete (g : Graph) (e : Edge) : Graph :=
  if negb (IsValid e) then g
  else
    match edges_ g !! value_ e with
    | None => g
    | Some _ =>
        let g := if IsDummy (src_ e) then g else DeleteOutgoingEdge g e in
        if IsDummy (dst_ e) then g else DeleteIncomingEdge g e
    end.

Definition GetNumOfEdge (g : Graph) : Z :=
  u32 (foldr Z.add 0 ((λ e, Z.of_nat (size e.2)) <$> map_to_list (list_ g))).

(** [LevelTraverse]: [list_] is passed on, since [list_[key]] adds an empty set
    for a key that is missing.  The result is [None] when the fuel is used up;
    the loop takes a vertex from the queue every round. *)
Fixpoint traverse (fuel : nat) (l : AdjacencyList) (stop : Vertice) (visited : gmap string bool)
    (unvisited : list Vertice) : option (gmap string bool * AdjacencyList) :=
  match fuel with
  | O => None
  | S fuel =>
      match unvisited with
      | [] => Some (visited, l)
      | curr :: unvisited =>
          if default false (visited !! curr) then traverse fuel l stop visited unvisited
          else
            let visited := <[curr := true]> visited in
            if decide (curr = stop) then Some (visited, l)
            else
              let l := touch l curr in
              traverse fuel l stop visited (unvisited ++ (map_to_list (default ∅ (l !! curr))).*2)
      end
  end.

(** One more round than there are edges. *)
Definition enough (l : AdjacencyList) : nat := S (S (sum_list ((λ e, size e.2) <$> map_to_list l))).

Definition LevelTraverse (l : AdjacencyList) (start stop : Vertice) : option (bool * AdjacencyList) :=
  match traverse (enough l) l stop {[ stop := false ]} [start] with
  | Some (visited, l') => Some (default false (visited !! stop), l')
  | None => None
  end.

Definition GetDirectionOf (g : Graph) (lhs rhs : Vertice) : option (FlowDirection * Graph) :=
  if IsDummy lhs || IsDummy rhs then Some (UNREACHABLE, g)
  else
    match list_ g !! lhs, list_ g !! rhs with
    | Some _, Some _ =>
        match LevelTraverse (list_ g) lhs rhs with
        | None => None
        | Some (true, l) => Some (UPSTREAM, mkGraph (edges_ g) l)
        | Some (false, l) =>
            match LevelTraverse l rhs lhs with
            | None => None
            | Some (b, l) => Some (if b : bool then DOWNSTREAM else UNREACHABLE, mkGraph (edges_ g) l)
            end
        end
    | _, _ => Some (UNREACHABLE, g)
    end.

(** ** Complete edges *)

(** [holds l s k d]: [list_[s][k]] is [d]. *)
Definition holds (l : AdjacencyList) (s k : string) (d : Vertice) : Prop :=
  ∃ m, l !! s = Some m ∧ m !! k = Some d.

(** Every target of an edge is a key. *)
Definition closed (l : AdjacencyList) : Prop := ∀ s k d, holds l s k d → is_Some (l !! d).

Lemma touch_lookup l k k' : touch l k !! k' = if decide (k' = k) then Some (default ∅ (l !! k)) else l !! k'.
Proof.
  unfold touch. destruct (l !! k) as [m|] eqn:E; destruct (decide (k' = k)) as [->|Hne]; try done.
  - by rewrite lookup_insert_eq.
  - by rewrite lookup_insert_ne.
Qed.

Lemma holds_touch l k s key d : holds (touch l k) s key d ↔ holds l s key d.
Proof.
  unfold holds. rewrite touch_lookup. destruct (decide (s = k)) as [->|]; [|done].
  split; intros (m & Hm & Hd).
  - simplify_eq. destruct (l !! k) as [m|] eqn:E; simpl in Hd; [eauto|by rewrite lookup_empty in Hd].
  - exists m. by rewrite Hm.
Qed.

Lemma touch_mono l k k' : is_Some (l !! k') → is_Some (touch l k !! k').
Proof. intros [m Hm]. rewrite touch_lookup. case_decide; [eauto|]. by exists m. Qed.

Lemma holds_insert l e s k d :
  holds (InsertCompleteEdge l e) s k d ↔
  if decide (s = src_ e ∧ k = GetKey e) then d = dst_ e else holds l s k d.
Proof.
  unfold InsertCompleteEdge. set (l2 := touch (touch l (src_ e)) (dst_ e)).
  assert (Hl2 : holds l2 s k d ↔ holds l s k d) by (unfold l2; by rewrite !holds_touch).
  destruct (decide (s = src_ e)) as [->|Hs].
  - destruct (decide (k = GetKey e)) as [->|Hk].
    + rewrite decide_True by done. unfold holds. rewrite lookup_insert_eq.
      split; [intros (m & [= <-] & Hm)|intros ->]; [rewrite lookup_insert_eq in Hm; congruence|].
      eexists. split; [done|]. by rewrite lookup_insert_eq.
    + rewrite decide_False by tauto. rewrite <- Hl2. unfold holds. rewrite lookup_insert_eq. split.
      * intros (m & [= <-] & Hm). rewrite lookup_insert_ne in Hm by done.
        destruct (l2 !! src_ e); [eauto|]. simpl in Hm. by rewrite lookup_empty in Hm.
      * intros (m & Hm & Hd). eexists. split; [done|]. by rewrite Hm, lookup_insert_ne.
  - rewrite decide_False by tauto. rewrite <- Hl2. unfold holds. by rewrite lookup_insert_ne.
Qed.

Lemma holds_delete l e s k d :
  holds (DeleteCompleteEdge l e) s k d ↔ holds l s k d ∧ ¬ (s = src_ e ∧ k = GetKey e).
Proof.
  unfold DeleteCompleteEdge, holds. destruct (decide (s = src_ e)) as [->|Hs].
  - rewrite lookup_insert_eq. split.
    + intros (m & [= <-] & [Hk Hm]%lookup_delete_Some). destruct (l !! src_ e); simpl in Hm; [|by rewrite lookup_empty in Hm].
      split; [eauto|]. naive_solver.
    + intros [(m & Hm & Hd) Hne]. eexists. split; [done|]. rewrite Hm. simpl.
      rewrite lookup_delete_ne by naive_solver. done.
  - rewrite lookup_insert_ne by done. naive_solver.
Qed.

Lemma keys_insert l e k :
  is_Some (InsertCompleteEdge l e !! k) ↔ is_Some (l !! k) ∨ k = src_ e ∨ k = dst_ e.
Proof.
  unfold InsertCompleteEdge. rewrite lookup_insert_is_Some', !touch_lookup.
  repeat case_decide; subst; naive_solver.
Qed.

Lemma keys_delete l e k : is_Some (l !! k) → is_Some (DeleteCompleteEdge l e !! k).
Proof. intros H. unfold DeleteCompleteEdge. rewrite lookup_insert_is_Some'. by right. Qed.

Lemma closed_insert l e : closed l → closed (InsertCompleteEdge l e).
Proof.
  intros Hc s k d. rewrite holds_insert, keys_insert. case_decide; [naive_solver|].
  intros H1. left. eauto.
Qed.

Lemma closed_delete l e : closed l → closed (DeleteCompleteEdge l e).
Proof. intros Hc s k d [H _]%holds_delete. apply keys_delete. eauto. Qed.

Definition is_edge (es : list Edge) (s k : string) (d : Vertice) : Prop :=
  ∃ e, e ∈ es ∧ src_ e = s ∧ GetKey e = k ∧ dst_ e = d.

Lemma is_edge_cons e es s k d :
  is_edge (e :: es) s k d ↔ (src_ e = s ∧ GetKey e = k ∧ dst_ e = d) ∨ is_edge es s k d.
Proof.
  unfold is_edge. split.
  - intros (e' & [->|Hin]%elem_of_cons & H); [by left|right]. eauto.
  - intros [H|(e' & Hin & H)]; [exists e|exists e']; rewrite elem_of_cons; auto.
Qed.

Lemma holds_insert_all es : ∀ l s k d,
  (∀ d d', is_edge es s k d → is_edge es s k d' → d = d') →
  holds (foldl InsertCompleteEdge l es) s k d ↔
  is_edge es s k d ∨ (holds l s k d ∧ ¬ ∃ d', is_edge es s k d').
Proof.
  induction es as [|e es IH]; intros l s k d Hk.
  { simpl. split; [intros H; right|intros [(e & Hin & _)|[H _]]]; [|by apply elem_of_nil in Hin|done].
    split; [done|]. intros (d' & e & Hin & _). by apply elem_of_nil in Hin. }
  simpl. rewrite IH by (intros d1 d2 H1 H2; apply Hk; apply is_edge_cons; auto).
  rewrite holds_insert. setoid_rewrite is_edge_cons. split.
  - intros [H|[H Hn]]; [auto|]. case_decide as E.
    + destruct E as [-> ->]. subst d. left. left. done.
    + right. split; [done|]. intros (d' & [(Hs & Hg & _)|H']); [by apply E|eauto].
  - intros [[(<- & <- & <-)|H]|[H Hn]]; [|by left|].
    + destruct (decide (Exists (λ e', src_ e' = src_ e ∧ GetKey e' = GetKey e) es)) as [Hex|Hex].
      * apply Exists_exists in Hex as (e' & Hin & Hs & Hke). left.
        assert (He' : is_edge es (src_ e) (GetKey e) (dst_ e')) by (exists e'; auto).
        rewrite (Hk (dst_ e) (dst_ e')); [done|apply is_edge_cons; auto..].
      * right. rewrite decide_True by done. split; [done|]. intros (d' & e' & Hin & Hs & Hke & _).
        apply Hex, Exists_exists. eauto.
    + right. rewrite decide_False; [split; [done|]|].
      * intros (d' & H'). apply Hn. eauto.
      * intros [-> ->]. apply Hn. eauto.
Qed.

Lemma holds_delete_all es : ∀ l s k d,
  holds (foldl DeleteCompleteEdge l es) s k d ↔ holds l s k d ∧ ¬ ∃ d', is_edge es s k d'.
Proof.
  induction es as [|e es IH]; intros l s k d; simpl.
  { split; [|by intros [? _]]. intros H. split; [done|]. intros (d' & e & Hin & _).
    by apply elem_of_nil in Hin. }
  rewrite IH, holds_delete. setoid_rewrite is_edge_cons. naive_solver.
Qed.

Lemma closed_insert_all es l : closed l → closed (foldl InsertCompleteEdge l es).
Proof. revert l. induction es; simpl; auto using closed_insert. Qed.

Lemma closed_delete_all es l : closed l → closed (foldl DeleteCompleteEdge l es).
Proof. revert l. induction es; simpl; auto using closed_delete. Qed.

(** The edges of the four loops. *)
Lemma is_edge_out v s0 (ds : gset Vertice) s k d :
  is_edge ((λ d, mkEdge s0 d v) <$> elements ds) s k d ↔ s = s0 ∧ d ∈ ds ∧ k = v +:+ "_" +:+ d.
Proof.
  unfold is_edge. split.
  - intros (e & (d' & -> & Hd)%list_elem_of_fmap & <- & <- & <-). by apply elem_of_elements in Hd.
  - intros (-> & Hd & ->). exists (mkEdge s0 d v). split; [|done].
    apply (list_elem_of_fmap_2 (λ d, mkEdge s0 d v)). by apply elem_of_elements.
Qed.

Lemma is_edge_in v d0 (ss : gset Vertice) s k d :
  is_edge ((λ s, mkEdge s d0 v) <$> elements ss) s k d ↔ s ∈ ss ∧ d = d0 ∧ k = v +:+ "_" +:+ d0.
Proof.
  unfold is_edge. split.
  - intros (e & (s' & -> & Hs)%list_elem_of_fmap & <- & <- & <-). by apply elem_of_elements in Hs.
  - intros (Hs & -> & ->). exists (mkEdge s d0 v). split; [|done].
    apply (list_elem_of_fmap_2 (λ s, mkEdge s d0 v)). by apply elem_of_elements.
Qed.

(** ** The specification *)

(** Who writes and who reads a value; a value and a reader form an edge key. *)
Record topology := mkTopology { writers : gset (string * Vertice); readers : gset (string * Vertice) }.

Definition connects (t : topology) (s d : Vertice) : Prop :=
  ∃ v, (v, s) ∈ writers t ∧ (v, d) ∈ readers t.

Inductive op := OpInsert (e : Edge) | OpDelete (e : Edge).

Definition edge_of (o : op) : Edge := match o with OpInsert e | OpDelete e => e end.

Definition graph_exec (g : Graph) (o : op) : Graph :=
  match o with OpInsert e => Insert g e | OpDelete e => Delete g e end.

Definition join (b : bool) (x : string * Vertice) (X : gset (string * Vertice)) : gset (string * Vertice) :=
  if b then {[ x ]} ∪ X else X.

Definition leave (b : bool) (x : string * Vertice) (X : gset (string * Vertice)) : gset (string * Vertice) :=
  if b then X ∖ {[ x ]} else X.

Definition spec_exec (t : topology) (o : op) : topology :=
  let e := edge_of o in
  if negb (IsValid e) then t
  else
    let f := match o with OpInsert _ => join | OpDelete _ => leave end in
    mkTopology (f (negb (IsDummy (src_ e))) (value_ e, src_ e) (writers t))
      (f (negb (IsDummy (dst_ e))) (value_ e, dst_ e) (readers t)).

Section Names.
Context (names : string → Vertice → Prop).
Context (Hinj : ∀ v d v' d', names v d → names v' d' →
  v +:+ "_" +:+ d = v' +:+ "_" +:+ d' → v = v' ∧ d = d').

Definition graph_Inv (g : Graph) (t : topology) : Prop :=
  (∀ v s, s ∈ src (related g v) ↔ (v, s) ∈ writers t) ∧
  (∀ v d, d ∈ dst (related g v) ↔ (v, d) ∈ readers t) ∧
  (∀ s k d, holds (list_ g) s k d ↔
     ∃ v, k = v +:+ "_" +:+ d ∧ (v, s) ∈ writers t ∧ (v, d) ∈ readers t) ∧
  closed (list_ g) ∧ (∀ v d, (v, d) ∈ readers t → names v d).

Lemma related_set g v r l v' :
  related (mkGraph (<[v := r]> (edges_ g)) l) v' = if decide (v' = v) then r else related g v'.
Proof.
  unfold related. simpl. destruct (decide (v' = v)) as [->|]; [by rewrite lookup_insert_eq|].
  by rewrite lookup_insert_ne.
Qed.

Lemma InsertOutgoing_Inv g t e :
  graph_Inv g t →
  graph_Inv (InsertOutgoingEdge g e) (mkTopology ({[ (value_ e, src_ e) ]} ∪ writers t) (readers t)).
Proof using Hinj.
  intros (HW & HR & Hh & Hc & Hn). unfold InsertOutgoingEdge. case_decide as Hin.
  { apply HW in Hin. replace ({[(value_ e, src_ e)]} ∪ writers t) with (writers t) by set_solver.
    by destruct t. }
  set (v := value_ e) in *. set (s0 := src_ e) in *.
  assert (Hni : (v, s0) ∉ writers t) by (by rewrite <- HW).
  split; [|split; [|split; [|split]]].
  - intros v' s. rewrite related_set. cbn [src dst writers readers]. destruct (decide (v' = v)) as [->|];
    cbn [src dst]; [|rewrite HW; set_solver].
    rewrite elem_of_union, HW, elem_of_singleton. set_solver.
  - intros v' d. rewrite related_set. cbn [src dst writers readers]. destruct (decide (v' = v)) as [->|];
    cbn [src dst]; by rewrite HR.
  - intros s k d. cbn [list_ writers readers]. rewrite holds_insert_all.
    2:{ intros d1 d2 (-> & H1 & ->)%is_edge_out (_ & H2 & E)%is_edge_out. apply HR in H1, H2.
        by destruct (Hinj v d1 v d2 (Hn _ _ H1) (Hn _ _ H2) E). }
    rewrite Hh, is_edge_out. split.
    + intros [(-> & Hd & ->)|[(v' & -> & Hw & Hr) _]].
      * exists v. apply HR in Hd. set_solver.
      * exists v'. set_solver.
    + intros (v' & -> & [Hw|Hw]%elem_of_union & Hr).
      * apply elem_of_singleton in Hw. simplify_eq. left. by rewrite HR.
      * right. split; [eauto|]. intros (d' & (-> & Hd & E)%is_edge_out). apply HR in Hd.
        destruct (Hinj v' d v d' (Hn _ _ Hr) (Hn _ _ Hd) E) as [-> _]. done.
  - by apply closed_insert_all.
  - exact Hn.
Qed.

Lemma InsertIncoming_Inv g t e :
  graph_Inv g t → names (value_ e) (dst_ e) →
  graph_Inv (InsertIncomingEdge g e) (mkTopology (writers t) ({[ (value_ e, dst_ e) ]} ∪ readers t)).
Proof using Hinj.
  intros (HW & HR & Hh & Hc & Hn) Hne. unfold InsertIncomingEdge. case_decide as Hin.
  { apply HR in Hin. replace ({[(value_ e, dst_ e)]} ∪ readers t) with (readers t) by set_solver.
    by destruct t. }
  set (v := value_ e) in *. set (d0 := dst_ e) in *.
  assert (Hni : (v, d0) ∉ readers t) by (by rewrite <- HR).
  split; [|split; [|split; [|split]]].
  - intros v' s. rewrite related_set. cbn [src dst writers readers]. destruct (decide (v' = v)) as [->|];
    cbn [src dst]; by rewrite HW.
  - intros v' d. rewrite related_set. cbn [src dst writers readers]. destruct (decide (v' = v)) as [->|];
    cbn [src dst]; [|rewrite HR; set_solver].
    rewrite elem_of_union, HR, elem_of_singleton. set_solver.
  - intros s k d. cbn [list_ writers readers]. rewrite holds_insert_all.
    2:{ by intros d1 d2 (_ & -> & _)%is_edge_in (_ & -> & _)%is_edge_in. }
    rewrite Hh, is_edge_in. split.
    + intros [(Hs & -> & ->)|[(v' & -> & Hw & Hr) _]].
      * exists v. apply HW in Hs. set_solver.
      * exists v'. set_solver.
    + intros (v' & -> & Hw & [Hr|Hr]%elem_of_union).
      * apply elem_of_singleton in Hr. simplify_eq. left. by rewrite HW.
      * right. split; [eauto|]. intros (d' & (Hs & -> & E)%is_edge_in).
        destruct (Hinj v' d v d0 (Hn _ _ Hr) Hne E) as [-> ->]. done.
  - by apply closed_insert_all.
  - intros v' d. simpl. intros [[= -> ->]%elem_of_singleton|Hr]%elem_of_union; [done|eauto].
Qed.

Lemma DeleteOutgoing_Inv g t e :
  graph_Inv g t →
  graph_Inv (DeleteOutgoingEdge g e) (mkTopology (writers t ∖ {[ (value_ e, src_ e) ]}) (readers t)).
Proof using Hinj.
  intros (HW & HR & Hh & Hc & Hn). unfold DeleteOutgoingEdge. case_decide as Hin.
  2:{ rewrite HW in Hin. replace (writers t ∖ {[(value_ e, src_ e)]}) with (writers t) by set_solver.
      by destruct t. }
  set (v := value_ e) in *. set (s0 := src_ e) in *.
  split; [|split; [|split; [|split]]].
  - intros v' s. rewrite related_set. cbn [src dst writers readers]. destruct (decide (v' = v)) as [->|];
    cbn [src dst]; [|rewrite HW; set_solver].
    rewrite elem_of_difference, HW, elem_of_singleton. set_solver.
  - intros v' d. rewrite related_set. cbn [src dst writers readers]. destruct (decide (v' = v)) as [->|];
    cbn [src dst]; by rewrite HR.
  - intros s k d. cbn [list_ writers readers]. rewrite holds_delete_all, Hh. split.
    + intros [(v' & -> & Hw & Hr) He]. exists v'. split; [done|]. split; [|done].
      apply elem_of_difference. split; [done|]. intros [= -> ->]%elem_of_singleton. apply He. exists d.
      apply is_edge_out. by rewrite HR.
    + intros (v' & -> & [Hw Hne]%elem_of_difference & Hr). split; [eauto|].
      intros (d' & (-> & Hd & E)%is_edge_out). apply HR in Hd.
      destruct (Hinj v' d v d' (Hn _ _ Hr) (Hn _ _ Hd) E) as [-> _]. set_solver.
  - by apply closed_delete_all.
  - exact Hn.
Qed.

Lemma DeleteIncoming_Inv g t e :
  graph_Inv g t → names (value_ e) (dst_ e) →
  graph_Inv (DeleteIncomingEdge g e) (mkTopology (writers t) (readers t ∖ {[ (value_ e, dst_ e) ]})).
Proof using Hinj.
  intros (HW & HR & Hh & Hc & Hn) Hne. unfold DeleteIncomingEdge. case_decide as Hin.
  2:{ rewrite HR in Hin. replace (readers t ∖ {[(value_ e, dst_ e)]}) with (readers t) by set_solver.
      by destruct t. }
  set (v := value_ e) in *. set (d0 := dst_ e) in *.
  split; [|split; [|split; [|split]]].
  - intros v' s. rewrite related_set. cbn [src dst writers readers]. destruct (decide (v' = v)) as [->|];
    cbn [src dst]; by rewrite HW.
  - intros v' d. rewrite related_set. cbn [src dst writers readers]. destruct (decide (v' = v)) as [->|];
    cbn [src dst]; [|rewrite HR; set_solver].
    rewrite elem_of_difference, HR, elem_of_singleton. set_solver.
  - intros s k d. cbn [list_ writers readers]. rewrite holds_delete_all, Hh. split.
    + intros [(v' & -> & Hw & Hr) He]. exists v'. split; [done|]. split; [done|].
      apply elem_of_difference. split; [done|]. intros [= -> ->]%elem_of_singleton. apply He. exists d0.
      apply is_edge_in. by rewrite HW.
    + intros (v' & -> & Hw & [Hr Hnr]%elem_of_difference). split; [eauto|].
      intros (d' & (Hs & -> & E)%is_edge_in).
      destruct (Hinj v' d v d0 (Hn _ _ Hr) Hne E) as [-> ->]. set_solver.
  - by apply closed_delete_all.
  - intros v' d. simpl. intros [Hr _]%elem_of_difference. eauto.
Qed.

(** An edge is inserted or deleted whole. *)
Definition named (o : op) : Prop :=
  IsDummy (dst_ (edge_of o)) = false → names (value_ (edge_of o)) (dst_ (edge_of o)).

Lemma graph_exec_Inv g t o : graph_Inv g t → named o → graph_Inv (graph_exec g o) (spec_exec t o).
Proof using Hinj.
  intros HI Hn. destruct o as [e|e]; unfold named in Hn; simpl in *; unfold Insert, Delete, spec_exec;
    cbn [edge_of]; destruct (IsValid e); cbn [negb]; try done.
  - set (g0 := match edges_ g !! value_ e with Some _ => g | None => _ end).
    assert (H0 : graph_Inv g0 t).
    { unfold g0. destruct (edges_ g !! value_ e) eqn:E; [done|].
      destruct HI as (HW & HR & Hh & Hc & Hnm).
      assert (Hrel : ∀ v, related (mkGraph (<[value_ e := mkRelated ∅ ∅]> (edges_ g)) (list_ g)) v = related g v).
      { intros v. rewrite related_set. case_decide; [subst|done]. unfold related. by rewrite E. }
      split; [|split; [|split; [|split]]]; try done; intros v x; rewrite Hrel; auto. }
    assert (H1 : graph_Inv (if IsDummy (src_ e) then g0 else InsertOutgoingEdge g0 e)
      (mkTopology (join (negb (IsDummy (src_ e))) (value_ e, src_ e) (writers t)) (readers t))).
    { destruct (IsDummy (src_ e)); cbn [negb join]; [by destruct t|by apply InsertOutgoing_Inv]. }
    destruct (IsDummy (dst_ e)); cbn [negb join]; [exact H1|].
    by apply (InsertIncoming_Inv _ (mkTopology _ (readers t))); [exact H1|apply Hn].
  - destruct (edges_ g !! value_ e) eqn:E.
    + assert (H1 : graph_Inv (if IsDummy (src_ e) then g else DeleteOutgoingEdge g e)
        (mkTopology (leave (negb (IsDummy (src_ e))) (value_ e, src_ e) (writers t)) (readers t))).
      { destruct (IsDummy (src_ e)); cbn [negb leave]; [by destruct t|by apply DeleteOutgoing_Inv]. }
      destruct (IsDummy (dst_ e)); cbn [negb leave]; [exact H1|].
      by apply (DeleteIncoming_Inv _ (mkTopology _ (readers t))); [exact H1|apply Hn].
    + assert (Hw : (value_ e, src_ e) ∉ writers t ∧ (value_ e, dst_ e) ∉ readers t).
      { destruct HI as (HW & HR & _). rewrite <- HW, <- HR. unfold related. rewrite E. simpl. set_solver. }
      replace (mkTopology _ _) with t; [done|]. destruct t as [W R]. simpl in *. f_equal.
      * destruct (IsDummy (src_ e)); simpl; [done|]. set_solver.
      * destruct (IsDummy (dst_ e)); simpl; [done|]. set_solver.
Qed.

Lemma graph_run_Inv ops : ∀ g t,
  graph_Inv g t → Forall named ops → graph_Inv (foldl graph_exec g ops) (foldl spec_exec t ops).
Proof using Hinj.
  induction ops as [|o ops IH]; intros g t HI Hn; [done|]. apply Forall_cons in Hn as [H1 H2].
  simpl. apply IH; [|done]. by apply graph_exec_Inv.
Qed.

Lemma graph_new_Inv : graph_Inv Graph_new (mkTopology ∅ ∅).
Proof using Type.
  clear Hinj. split; [|split; [|split; [|split]]].
  - intros v s. unfold related. simpl. rewrite lookup_empty. set_solver.
  - intros v d. unfold related. simpl. rewrite lookup_empty. set_solver.
  - intros s k d. split; [intros (m & Hm & _); simpl in Hm; by rewrite lookup_empty in Hm|set_solver].
  - intros s k d (m & Hm & _). simpl in Hm. by rewrite lookup_empty in Hm.
  - set_solver.
Qed.
End Names.

(** ** The traversal *)

Section Traverse.
Context (l : AdjacencyList) (Hclosed : closed l).

Definition edge (a b : Vertice) : Prop := ∃ k, holds l a k b.

Definition is_visited (visited : gmap string bool) (x : Vertice) : bool := default false (visited !! x).

(** Edges whose source has not been visited. *)
Definition pending_of (visited : gmap string bool) (es : list (string * gmap string Vertice)) : nat :=
  sum_list ((λ e, if is_visited visited e.1 then 0%nat else size e.2) <$> es).

Definition pending (visited : gmap string bool) : nat := pending_of visited (map_to_list l).

Lemma is_visited_insert visited x y :
  is_visited (<[x := true]> visited) y = if decide (y = x) then true else is_visited visited y.
Proof.
  unfold is_visited. destruct (decide (y = x)) as [->|]; [by rewrite lookup_insert_eq|].
  by rewrite lookup_insert_ne.
Qed.

Lemma pending_of_cons visited k m es :
  pending_of visited ((k, m) :: es) =
  ((if is_visited visited k then 0 else size m) + pending_of visited es)%nat.
Proof. reflexivity. Qed.

Lemma pending_of_other visited x es :
  x ∉ es.*1 → pending_of (<[x := true]> visited) es = pending_of visited es.
Proof.
  induction es as [|[k m] es IH]; intros Hni; [done|]. rewrite fmap_cons in Hni.
  apply not_elem_of_cons in Hni as [Hne Hni]. rewrite !pending_of_cons, IH by done.
  rewrite is_visited_insert, decide_False by (simpl in Hne; congruence). done.
Qed.

Lemma pending_of_visit visited x m es :
  NoDup es.*1 → (x, m) ∈ es → is_visited visited x = false →
  (pending_of (<[x := true]> visited) es + size m)%nat = pending_of visited es.
Proof.
  intros Hnd Hin Hv. induction es as [|[k m'] es IH]; [by apply elem_of_nil in Hin|].
  rewrite fmap_cons in Hnd. apply NoDup_cons in Hnd as [Hni Hnd].
  rewrite !pending_of_cons, is_visited_insert. apply elem_of_cons in Hin as [Heq|Hin].
  - injection Heq as -> ->. rewrite Hv, decide_True, pending_of_other by done. lia.
  - rewrite decide_False, <- IH; [lia|done|done|].
    intros ->. apply Hni. by apply (list_elem_of_fmap_2 fst) in Hin.
Qed.

Lemma pending_visit visited x m :
  l !! x = Some m → is_visited visited x = false →
  (pending (<[x := true]> visited) + size m)%nat = pending visited.
Proof using Type.
  intros Hm Hv. apply pending_of_visit; [apply NoDup_fst_map_to_list| |done].
  by apply elem_of_map_to_list.
Qed.

(** The invariant of the loop. *)
Record searching (start stop : Vertice) (visited : gmap string bool) (queue : list Vertice) : Prop := {
  s_known : ∀ x, x ∈ queue → is_Some (l !! x);
  s_reach : ∀ x, is_visited visited x = true ∨ x ∈ queue → rtc edge start x;
  s_stop : is_visited visited stop = false;
  s_start : is_visited visited start = true ∨ start ∈ queue;
  s_next : ∀ x y, is_visited visited x = true → edge x y → is_visited visited y = true ∨ y ∈ queue;
}.

Lemma successors x m y : l !! x = Some m → y ∈ (map_to_list m).*2 ↔ edge x y.
Proof using Type.
  intros Hm. unfold edge, holds. rewrite list_elem_of_fmap. split.
  - intros ([k d] & -> & Hin%elem_of_map_to_list). eauto.
  - intros (k & m' & Hm' & Hd). simplify_eq. exists (k, y). split; [done|]. by apply elem_of_map_to_list.
Qed.

Lemma searching_skip start stop visited x queue :
  searching start stop visited (x :: queue) → is_visited visited x = true →
  searching start stop visited queue.
Proof using Type.
  intros [H1 H2 H3 H4 H5] Hv. split.
  - intros y Hy. apply H1. by right.
  - intros y [Hy|Hy]; apply H2; [by left|right; by right].
  - done.
  - destruct H4 as [?|[->|?]%elem_of_cons]; auto.
  - intros y z Hy Hz. destruct (H5 y z Hy Hz) as [?|[->|?]%elem_of_cons]; auto.
Qed.

Lemma searching_visit start stop visited x m queue :
  searching start stop visited (x :: queue) → l !! x = Some m → x ≠ stop →
  searching start stop (<[x := true]> visited) (queue ++ (map_to_list m).*2).
Proof using Hclosed.
  intros [H1 H2 H3 H4 H5] Hm Hne.
  assert (Hx : rtc edge start x) by (apply H2; right; left).
  split.
  - intros y [Hy|Hy]%elem_of_app; [apply H1; by right|]. apply (successors x m y Hm) in Hy as [k Hk]. eauto.
  - intros y Hy. rewrite is_visited_insert in Hy. destruct Hy as [Hy|[Hy|Hy]%elem_of_app].
    + case_decide; [by subst|]. apply H2. by left.
    + apply H2. right. by right.
    + eapply rtc_r; [exact Hx|]. by apply (successors x m y Hm).
  - rewrite is_visited_insert, decide_False by congruence. done.
  - rewrite is_visited_insert. case_decide; [by left|]. rewrite elem_of_app.
    destruct H4 as [?|[?|?]%elem_of_cons]; [by left|congruence|by right; left].
  - intros y z. rewrite !is_visited_insert, elem_of_app. intros Hy Hz.
    destruct (decide (z = x)) as [_|Ez]; [by left|]. destruct (decide (y = x)) as [Ey|Ey].
    + subst y. right. right. by apply (successors x m z Hm).
    + destruct (H5 y z Hy Hz) as [?|[?|?]%elem_of_cons]; [by left|congruence|by right; left].
Qed.

Lemma searching_done start stop visited :
  searching start stop visited [] → ¬ rtc edge start stop.
Proof using Type.
  intros [_ _ H3 H4 H5] Hr. assert (is_visited visited stop = true); [|congruence].
  assert (Hs : is_visited visited start = true) by (destruct H4 as [?|?%elem_of_nil]; done).
  clear H3 H4. induction Hr as [x|x y z Hxy _ IH]; [done|]. apply IH.
  destruct (H5 x y Hs Hxy) as [?|?%elem_of_nil]; done.
Qed.

(** Enough fuel gives the answer, which is reachability; [list_] is as before. *)
Lemma traverse_spec start stop fuel : ∀ visited queue,
  searching start stop visited queue → (length queue + pending visited < fuel)%nat →
  ∃ visited', traverse fuel l stop visited queue = Some (visited', l) ∧
    (is_visited visited' stop = true ↔ rtc edge start stop).
Proof using Hclosed.
  induction fuel as [|fuel IH]; intros visited queue Hs Hf; [lia|]. simpl.
  destruct queue as [|x queue].
  { exists visited. split; [done|]. rewrite (s_stop _ _ _ _ Hs).
    split; [done|]. intros Hr. by destruct (searching_done _ _ _ Hs). }
  simpl in Hf. fold (is_visited visited x). destruct (is_visited visited x) eqn:Hv.
  { apply IH; [by eapply searching_skip|lia]. }
  destruct (decide (x = stop)) as [->|Hne].
  { eexists. split; [done|]. rewrite is_visited_insert, decide_True by done.
    split; [intros _|done]. apply (s_reach _ _ _ _ Hs). right. by left. }
  destruct (s_known _ _ _ _ Hs x) as [m Hm]; [by left|].
  replace (touch l x) with l by (unfold touch; by rewrite Hm). rewrite Hm. simpl.
  apply IH; [by eapply searching_visit|]. rewrite length_app, length_fmap, length_map_to_list.
  pose proof (pending_visit visited x m Hm Hv). lia.
Qed.

Lemma LevelTraverse_spec start stop :
  is_Some (l !! start) →
  ∃ b, LevelTraverse l start stop = Some (b, l) ∧ (b = true ↔ rtc edge start stop).
Proof using Hclosed.
  intros Hk. unfold LevelTraverse. set (v0 := {[ stop := false ]} : gmap string bool).
  assert (Hv0 : ∀ x, is_visited v0 x = false).
  { intros x. unfold is_visited, v0. destruct (decide (x = stop)) as [->|];
      [by rewrite lookup_singleton_eq|by rewrite lookup_singleton_ne]. }
  destruct (traverse_spec start stop (enough l) v0 [start]) as (v' & Ht & Hb).
  - split.
    + by intros x ->%list_elem_of_singleton.
    + intros x [Hx| ->%list_elem_of_singleton]; [by rewrite Hv0 in Hx|done].
    + apply Hv0.
    + right. by left.
    + intros x y Hx. by rewrite Hv0 in Hx.
  - simpl. unfold enough, pending, pending_of.
    replace ((λ e : string * gmap string Vertice, if is_visited v0 e.1 then 0%nat else size e.2) <$> map_to_list l)
      with ((λ e : string * gmap string Vertice, size e.2) <$> map_to_list l); [lia|].
    apply list_fmap_ext. intros i e _. by rewrite Hv0.
  - rewrite Ht. eexists. split; [done|]. exact Hb.
Qed.
End Traverse.

(** The edges of [list_] are the connections of the topology. *)
Lemma edge_connects names g t a b : graph_Inv names g t → edge (list_ g) a b ↔ connects t a b.
Proof.
  intros (_ & _ & Hh & _). unfold edge, connects. setoid_rewrite Hh. split; [naive_solver|].
  intros (v & Hw & Hr). eauto.
Qed.

Lemma rtc_equiv {A} (R R' : A → A → Prop) x y : (∀ a b, R a b ↔ R' a b) → rtc R x y ↔ rtc R' x y.
Proof. intros H. split; apply rtc_subrel; intros; by apply H. Qed.

(** A vertex without a complete edge so far is reached by itself only. *)
Lemma unknown_reach l a b : closed l → (l !! a = None ∨ l !! b = None) → a ≠ b → ¬ rtc (edge l) a b.
Proof.
  intros Hc Hn Hne Hr. destruct Hn as [Hn|Hn].
  - inversion Hr as [|? y ? (k & m & Hm & _)]; congruence.
  - apply rtc_inv_r in Hr as [?|(y & _ & (k & Hk))]; [done|]. destruct (Hc _ _ _ Hk). congruence.
Qed.

Definition flow (t : topology) (lhs rhs : Vertice) (dir : FlowDirection) : Prop :=
  match dir with
  | UPSTREAM => rtc (connects t) lhs rhs
  | DOWNSTREAM => ¬ rtc (connects t) lhs rhs ∧ rtc (connects t) rhs lhs
  | UNREACHABLE => ¬ rtc (connects t) lhs rhs ∧ ¬ rtc (connects t) rhs lhs
  end.

(** What [GetDirectionOf] says of a graph that represents a topology. *)
Lemma GetDirectionOf_flow (names : string → Vertice → Prop) g t lhs rhs :
  graph_Inv names g t → lhs ≠ rhs → IsDummy lhs = false → IsDummy rhs = false →
  ∃ dir, GetDirectionOf g lhs rhs = Some (dir, g) ∧ flow t lhs rhs dir.
Proof.
  intros HI Hne Hl Hr. pose proof HI as (_ & _ & _ & Hc & _).
  assert (Heq : ∀ a b, rtc (edge (list_ g)) a b ↔ rtc (connects t) a b).
  { intros a b. apply rtc_equiv. intros. by apply (edge_connects names). }
  unfold GetDirectionOf, flow. rewrite Hl, Hr. simpl.
  assert (Hunk : list_ g !! lhs = None ∨ list_ g !! rhs = None →
    ¬ rtc (connects t) lhs rhs ∧ ¬ rtc (connects t) rhs lhs).
  { intros H. rewrite <- !Heq. split; apply unknown_reach; try done; tauto. }
  destruct (list_ g !! lhs) as [m1|] eqn:E1; [|eexists; split; [done|]; simpl; auto].
  destruct (list_ g !! rhs) as [m2|] eqn:E2; [|eexists; split; [done|]; simpl; auto].
  destruct (LevelTraverse_spec (list_ g) Hc lhs rhs) as (b1 & -> & Hb1); [by rewrite E1|].
  rewrite Heq in Hb1. assert (Hg : mkGraph (edges_ g) (list_ g) = g) by (by destruct g).
  destruct b1; [exists UPSTREAM; rewrite Hg; split; [done|tauto]|].
  destruct (LevelTraverse_spec (list_ g) Hc rhs lhs) as (b2 & -> & Hb2); [by rewrite E2|].
  rewrite Heq in Hb2. rewrite Hg.
  assert (¬ rtc (connects t) lhs rhs) by (intros H; apply Hb1 in H; done).
  destruct b2; eexists; (split; [done|]); simpl; split; try done; [tauto|].
  intros H2. apply Hb2 in H2. done.
Qed.

(** Property: after any insertions and deletions of edges whose keys are unambiguous,
    [GetDirectionOf] two different nodes answers (its traversals end within one
    round more than there are edges), leaves the graph as it is, and says
    whether the second node gets data of the first one, through any number of
    channels, or the first one of the second. *)
Theorem graph_direction_is_reachability (names : string → Vertice → Prop) ops lhs rhs :
  (∀ v d v' d', names v d → names v' d' → v +:+ "_" +:+ d = v' +:+ "_" +:+ d' → v = v' ∧ d = d') →
  Forall (named names) ops → lhs ≠ rhs → IsDummy lhs = false → IsDummy rhs = false →
  let g := foldl graph_exec Graph_new ops in
  ∃ dir, GetDirectionOf g lhs rhs = Some (dir, g) ∧
    flow (foldl spec_exec (mkTopology ∅ ∅) ops) lhs rhs dir.
Proof.
  intros Hinj Hn Hne Hl Hr g. apply (GetDirectionOf_flow names); [|done..].
  apply (graph_run_Inv names Hinj ops _ _ (graph_new_Inv names) Hn).
Qed.

(** A writes channel 1, B reads it and writes channel 2, C reads that; then B
    stops writing. *)
Definition graph_example : list op :=
  [OpInsert (mkEdge "A" "" "c1"); OpInsert (mkEdge "" "B" "c1"); OpInsert (mkEdge "B" "" "c2");
   OpInsert (mkEdge "" "C" "c2"); OpInsert (mkEdge "D" "" "c2"); OpDelete (mkEdge "B" "" "c2")].

Definition example_names (v d : string) : Prop :=
  (v, d) = ("c1", "B") ∨ (v, d) = ("c2", "C").

Lemma graph_direction_is_reachability_witness :
  GetDirectionOf (foldl graph_exec Graph_new (take 5 graph_example)) "C" "A" =
    Some (DOWNSTREAM, foldl graph_exec Graph_new (take 5 graph_example)) ∧
  ∃ dir, GetDirectionOf (foldl graph_exec Graph_new graph_example) "C" "A" =
      Some (dir, foldl graph_exec Graph_new graph_example) ∧
    flow (foldl spec_exec (mkTopology ∅ ∅) graph_example) "C" "A" dir.
Proof.
  split; [vm_compute; reflexivity|].
  apply (graph_direction_is_reachability example_names graph_example "C" "A").
  - intros v d v' d' H1 H2 He. unfold example_names in *.
    destruct H1 as [[= -> ->]|[= -> ->]], H2 as [[= -> ->]|[= -> ->]]; try done; discriminate He.
  - unfold graph_example. repeat (apply Forall_cons_2; [intros Hd; try discriminate Hd; solve [by left|by right]|]).
    apply Forall_nil_2.
  - done.
  - done.
  - done.
Defined.

(** Property: edge keys can collide: the edge of channel [a] to node [b_c] and that of
    channel [a_b] to node [c] share the key [a_b_c], so the second replaces the
    first (node [b_c] is not reached any more), and deleting one of them
    loses the other. *)
Theorem edge_keys_collide :
  let g := foldl graph_exec Graph_new
    [OpInsert (mkEdge "s" "" "a"); OpInsert (mkEdge "" "b_c" "a");
     OpInsert (mkEdge "s" "" "a_b"); OpInsert (mkEdge "" "c" "a_b")] in
  let g' := graph_exec g (OpDelete (mkEdge "" "b_c" "a")) in
  fst <$> GetDirectionOf g "s" "b_c" = Some UNREACHABLE ∧
  fst <$> GetDirectionOf g "s" "c" = Some UPSTREAM ∧
  fst <$> GetDirectionOf g' "s" "c" = Some UNREACHABLE.
Proof. vm_compute. done. Qed.
