(* ===== verification/Croutine.v ===== *)
(** * Coroutines that wait for data

    [CRoutine] ([src/code/cyber/croutine/croutine.h], [croutine.cc]): its state
    and its two atomic flags.  A processor polls it ([NextRoutine] of
    [scheduler/policy/classic_context.cc] and [choreography_context.cc]), runs
    it ([Processor::Run]) until it yields; writers put messages where the
    routine looks for them and notify it ([NotifyProcessor]); another thread
    may remove it ([RemoveCRoutine]).  [exec] interleaves all of them, an
    access to a shared field at a time, for the two loops that run inside
    coroutines: the one that [RoutineFactory] makes of a [DataVisitor]
    ([routine_factory.h]) and the one of [TaskManager] ([task_manager.cc]).
    The switch of stacks is the step that suspends the code or goes on with
    it. *)

From S2P Require Import Prelude CacheBuffer DataVisitor.

(** ** Where the messages lie

    What the loops need of it: [put] when something is written, [fetch] of the
    next message, and whether a write is followed by a notification.  A write
    that is not must leave nothing to fetch where nothing was.  [TryFetch] of a
    [DataVisitor] is one such place ([visitor_mailbox]), the queue of the
    [TaskManager] another ([queue_mailbox]). *)
Class Mailbox (W M MB : Type) := {
  put : W → MB → MB;
  fetch : MB → option (M * MB);
  notifies : W → bool;
  put_quiet w b : notifies w = false → fetch b = None → fetch (put w b) = None;
}.

(** A write is [Fill] of the buffer of a channel; [DataNotifier] knows the
    visitor by its first channel. *)
Definition visitor_fetch {T} (null : T) (v : visitor) : option (list T * visitor) :=
  match TryFetch null v with (Some ms, v) => Some (ms, v) | (None, _) => None end.

#[refine] Instance visitor_mailbox {T} (null : T) : Mailbox (nat * T) (list T) (visitor (T := T)) := {
  put w v := Fill_at null v w.1 w.2; fetch := visitor_fetch null; notifies w := (w.1 =? 0)%nat }.
Proof.
  intros [[|pos] m] v; [done|]. intros _. unfold visitor_fetch, TryFetch, Fusion. simpl. destruct (data_fusion_ v) as [fb|]; simpl; [by repeat case_match|].
  destruct (buffer_m v) as [|cb bs]; simpl; [done|]. by repeat case_match.
Defined.

#[refine] Instance queue_mailbox {M} : Mailbox M M (list M) := {
  put m l := l ++ [m]; fetch l := match l with m :: l => Some (m, l) | [] => None end; notifies _ := true }.
Proof. done. Defined.

Inductive RoutineState := READY | FINISHED | SLEEP | IO_WAIT | DATA_WAIT.

#[global] Instance RoutineState_eq_dec : EqDecision RoutineState.
Proof. solve_decision. Defined.

(** [updated_] is the flag as [test_and_set] sees it: clear means that there is
    something new. *)
Record CRoutine := mkCRoutine {
  state_ : RoutineState; wake_time_ : Z; lock_ : bool; updated_ : bool; force_stop_ : bool }.

Definition CRoutine_new (now : Z) : CRoutine := mkCRoutine READY now false true false.

Definition set_state (st : RoutineState) (c : CRoutine) : CRoutine :=
  mkCRoutine st (wake_time_ c) (lock_ c) (updated_ c) (force_stop_ c).

Definition set_updated (b : bool) (c : CRoutine) : CRoutine :=
  mkCRoutine (state_ c) (wake_time_ c) (lock_ c) b (force_stop_ c).

Definition Acquire (c : CRoutine) : bool * CRoutine :=
  (negb (lock_ c), mkCRoutine (state_ c) (wake_time_ c) true (updated_ c) (force_stop_ c)).

Definition Release (c : CRoutine) : CRoutine :=
  mkCRoutine (state_ c) (wake_time_ c) false (updated_ c) (force_stop_ c).

Definition Stop (c : CRoutine) : CRoutine :=
  mkCRoutine (state_ c) (wake_time_ c) (lock_ c) (updated_ c) true.

Definition SetUpdateFlag (c : CRoutine) : CRoutine := set_updated false c.

Definition Sleep (until : Z) (c : CRoutine) : CRoutine :=
  mkCRoutine SLEEP until (lock_ c) (updated_ c) (force_stop_ c).

Definition waits (st : RoutineState) : bool :=
  match st with DATA_WAIT | IO_WAIT => true | _ => false end.

(** [UpdateState] as one step. *)
Definition UpdateState (now : Z) (c : CRoutine) : CRoutine :=
  if bool_decide (state_ c = SLEEP) && (wake_time_ c <? now) then set_state READY c
  else
    let c' := set_updated true c in
    if negb (updated_ c) && waits (state_ c) then set_state READY c' else c'.

Section Routine.
Context {W M MB : Type} `{!Mailbox W M MB}.

(** The loops.  [Callback m] is inside the user function; [Dispatching m] is a
    user function that creates a task and waits for the lock of the queue. *)
Inductive body := DataBody | TaskBody.

Inductive code := Top | Fetch | Callback (m : M) | Dispatching (m : M) | NoData.

(** What the user function does: it returns, sleeps, yields (task.h), or
    creates a task. *)
Inductive choice := CbReturn | CbSleep (until : Z) | CbYield | CbDispatch.

(** A processor in [NextRoutine], its call of [UpdateState], and [Run]. *)
Inductive ppc :=
| PScan | PUpdate1 | PUpdate2 | PUpdate3 (clear : bool) | PDecide
| PResume | PRunning | PRelease.

(** A writer after its message was stored: [NotifyProcessor]. *)
Inductive npc := NRead | NFlag.

(** [RemoveCRoutine] of the scheduler, then of the context. *)
Inductive rpc := RIdle | RWait | RLocked | RSpin | RErase | RRelease | RUnlock | RDone.

#[global] Instance ppc_eq_dec : EqDecision ppc.
Proof. solve_decision. Defined.

#[global] Instance rpc_eq_dec : EqDecision rpc.
Proof. solve_decision. Defined.

Record sys := mkSys {
  r : CRoutine; code_ : code; mailbox : MB;
  queued : bool;                (* in the queue of its context *)
  registered : bool;            (* in [id_cr_] *)
  callback_ : bool;             (* the notifier of the visitor calls [NotifyProcessor] *)
  procs : gmap nat ppc; writers : gmap nat npc; remover : rpc }.

Inductive label :=
| Poll (p : nat) | Step (p : nat) (now : Z) (c : choice)
| Write (n : nat) (w : W) | Notify (n : nat)
| Register
| Remove | RemoveStep.

Inductive event := Handled (m : M) | Removed.

(** Inside [Scheduler::CreateTask], after [DispatchTask] and before
    [RegisterNotifyCallback]; and when it has returned. *)
Definition dispatched (now : Z) (mb : MB) : sys :=
  mkSys (CRoutine_new now) Top mb true true false ∅ ∅ RIdle.

Definition register (s : sys) : sys :=
  mkSys (r s) (code_ s) (mailbox s) (queued s) (registered s) true (procs s) (writers s) (remover s).

Definition init (now : Z) (mb : MB) : sys := register (dispatched now mb).

Definition with_r (s : sys) (c : CRoutine) : sys :=
  mkSys c (code_ s) (mailbox s) (queued s) (registered s) (callback_ s) (procs s) (writers s) (remover s).

Definition at_pc (s : sys) (p : nat) (q : ppc) : sys :=
  mkSys (r s) (code_ s) (mailbox s) (queued s) (registered s) (callback_ s) (<[p := q]> (procs s)) (writers s) (remover s).

Definition leave (s : sys) (p : nat) : sys :=
  mkSys (r s) (code_ s) (mailbox s) (queued s) (registered s) (callback_ s) (delete p (procs s)) (writers s) (remover s).

Definition at_code (s : sys) (k : code) : sys :=
  mkSys (r s) k (mailbox s) (queued s) (registered s) (callback_ s) (procs s) (writers s) (remover s).

(** Processors in [NextRoutine] hold the queue's lock for reading; the remover
    holds it for writing. *)
Definition reads (q : ppc) : bool :=
  match q with PScan | PUpdate1 | PUpdate2 | PUpdate3 _ | PDecide => true | _ => false end.

Definition no_reader (s : sys) : Prop := map_Forall (λ _ q, reads q = false) (procs s).

#[global] Instance no_reader_dec s : Decision (no_reader s).
Proof. unfold no_reader. apply _. Defined.

Definition writer_holds (s : sys) : bool :=
  match remover s with RLocked | RSpin | RErase | RRelease | RUnlock => true | _ => false end.

(** The processor [p] switches back from the routine. *)
Definition suspend (s : sys) (p : nat) (k : code) : sys := at_pc (at_code s k) p PRelease.

(** The code of the routine, run by processor [p]. *)
Definition code_step (b : body) (s : sys) (p : nat) (c : choice) : sys * option event :=
  match code_ s, b with
  | Top, DataBody => (at_code (with_r s (set_state DATA_WAIT (r s))) Fetch, None)
  | Top, TaskBody => (at_code s Fetch, None)
  | Fetch, _ =>
      match fetch (mailbox s) with
      | Some (m, rest) =>
          (mkSys (r s) (Callback m) rest (queued s) (registered s) (callback_ s) (procs s) (writers s) (remover s), None)
      | None => (at_code s NoData, None)
      end
  | NoData, DataBody => (suspend s p Top, None)
  | NoData, TaskBody => (suspend (with_r s (set_state DATA_WAIT (r s))) p Top, None)
  | Callback m, _ =>
      match c with
      | CbReturn =>
          match b with
          | DataBody => (suspend (with_r s (set_state READY (r s))) p Top, Some (Handled m))
          | TaskBody => (at_code s Top, Some (Handled m))
          end
      | CbSleep until => (suspend (with_r s (Sleep until (r s))) p (Callback m), None)
      | CbYield => (suspend s p (Callback m), None)
      | CbDispatch => (at_code s (Dispatching m), None)
      end
  | Dispatching m, _ =>
      if writer_holds s then (s, None)
      else if decide (no_reader s) then (at_code s (Callback m), None) else (s, None)
  end.

(** One step of a processor. *)
Definition proc_step (b : body) (s : sys) (p : nat) (now : Z) (c : choice) (q : ppc) :
    sys * option event :=
  match q with
  | PScan =>
      let '(ok, c') := Acquire (r s) in
      (if ok then at_pc (with_r s c') p PUpdate1 else leave s p, None)
  | PUpdate1 =>
      if bool_decide (state_ (r s) = SLEEP) && (wake_time_ (r s) <? now)
      then (at_pc (with_r s (set_state READY (r s))) p PDecide, None)
      else (at_pc s p PUpdate2, None)
  | PUpdate2 => (at_pc (with_r s (set_updated true (r s))) p (PUpdate3 (negb (updated_ (r s)))), None)
  | PUpdate3 clear =>
      (at_pc (if clear && waits (state_ (r s)) then with_r s (set_state READY (r s)) else s) p PDecide, None)
  | PDecide =>
      if decide (state_ (r s) = READY) then (at_pc s p PResume, None)
      else (leave (with_r s (Release (r s))) p, None)
  | PResume =>
      if force_stop_ (r s) then (at_pc (with_r s (set_state FINISHED (r s))) p PRelease, None)
      else if decide (state_ (r s) = READY) then (at_pc s p PRunning, None)
      else (at_pc s p PRelease, None)
  | PRunning => code_step b s p c
  | PRelease => (leave (with_r s (Release (r s))) p, None)
  end.

(** [NotifyProcessor], after the message was stored. *)
Definition notify_step (s : sys) (n : nat) (q : npc) : sys :=
  let done := mkSys (r s) (code_ s) (mailbox s) (queued s) (registered s) (callback_ s) (procs s)
    (delete n (writers s)) (remover s) in
  match q with
  | NRead =>
      if registered s && waits (state_ (r s))
      then mkSys (r s) (code_ s) (mailbox s) (queued s) (registered s) (callback_ s) (procs s)
             (<[n := NFlag]> (writers s)) (remover s)
      else done
  | NFlag => with_r done (SetUpdateFlag (r s))
  end.

Definition at_remover (s : sys) (q : rpc) : sys :=
  mkSys (r s) (code_ s) (mailbox s) (queued s) (registered s) (callback_ s) (procs s) (writers s) q.

(** [RemoveCRoutine]: out of [id_cr_]; then, under the lock of the queue,
    [Stop], wait for [Acquire], erase. *)
Definition remove_step (s : sys) : option (sys * option event) :=
  match remover s with
  | RIdle =>
      Some (mkSys (Stop (r s)) (code_ s) (mailbox s) (queued s) false (callback_ s) (procs s) (writers s) RWait, None)
  | RWait => if decide (no_reader s) then Some (at_remover s RLocked, None) else None
  | RLocked =>
      if queued s then Some (at_remover (with_r s (Stop (r s))) RSpin, None)
      else Some (at_remover s RUnlock, None)
  | RSpin =>
      let '(ok, c) := Acquire (r s) in
      Some (if ok then at_remover (with_r s c) RErase else s, None)
  | RErase =>
      Some (mkSys (r s) (code_ s) (mailbox s) false (registered s) (callback_ s) (procs s) (writers s) RRelease, None)
  | RRelease => Some (at_remover (with_r s (Release (r s))) RUnlock, None)
  | RUnlock => Some (at_remover s RDone, Some Removed)
  | RDone => None
  end.

Definition exec (b : body) (s : sys) (l : label) : option (sys * option event) :=
  match l with
  | Poll p =>
      match procs s !! p with
      | Some _ => None
      | None =>
          if writer_holds s then None
          else if queued s then Some (at_pc s p PScan, None) else Some (s, None)
      end
  | Step p now c =>
      match procs s !! p with Some q => Some (proc_step b s p now c q) | None => None end
  | Write n w =>
      match writers s !! n with
      | Some _ => None
      | None =>
          Some (mkSys (r s) (code_ s) (put w (mailbox s)) (queued s) (registered s) (callback_ s) (procs s)
                  (if callback_ s && notifies w then <[n := NRead]> (writers s) else writers s) (remover s), None)
      end
  | Notify n =>
      match writers s !! n with Some q => Some (notify_step s n q, None) | None => None end
  | Register => Some (register s, None)
  | Remove => if decide (remover s = RIdle) then remove_step s else None
  | RemoveStep => if decide (remover s = RIdle) then None else remove_step s
  end.
(** ** Who holds the routine *)

Definition holds (q : ppc) : bool := match q with PScan => false | _ => true end.

Definition remover_holds (q : rpc) : bool := match q with RErase | RRelease => true | _ => false end.

Definition no_holder (ps : gmap nat ppc) : Prop := ∀ p q, ps !! p = Some q → holds q = false.

Definition only_holder (ps : gmap nat ppc) (p : nat) : Prop :=
  (∃ q, ps !! p = Some q ∧ holds q = true) ∧ ∀ p' q, p' ≠ p → ps !! p' = Some q → holds q = false.

(** The lock flag says whether somebody holds the routine: one processor, or
    the remover. *)
Definition exclusive (ps : gmap nat ppc) (lock : bool) (rem : bool) : Prop :=
  if lock then (if rem then no_holder ps else ∃ p, only_holder ps p) else rem = false ∧ no_holder ps.

#[local] Arguments exclusive : simpl never.

Lemma holder_owns ps lock rem p q :
  exclusive ps lock rem → ps !! p = Some q → holds q = true →
  lock = true ∧ rem = false ∧ only_holder ps p.
Proof.
  unfold exclusive. intros He Hp Hh. destruct lock; [destruct rem|].
  - apply He in Hp. congruence.
  - destruct He as [x Hx]. destruct (decide (p = x)) as [->|Hne]; [done|].
    destruct Hx as [_ H]. rewrite (H _ _ Hne Hp) in Hh. done.
  - destruct He as [_ He]. apply He in Hp. congruence.
Qed.

Lemma no_holder_insert ps p q : no_holder ps → holds q = false → no_holder (<[p := q]> ps).
Proof. intros H Hq p' q'. rewrite lookup_insert. case_decide; [congruence|apply H]. Qed.

Lemma no_holder_delete ps p : no_holder ps → no_holder (delete p ps).
Proof. intros H p' q' [_ Hp]%lookup_delete_Some. by apply (H p'). Qed.

Lemma only_holder_insert ps p q :
  (∀ p' q, p' ≠ p → ps !! p' = Some q → holds q = false) → holds q = true → only_holder (<[p := q]> ps) p.
Proof.
  intros H Hq. split; [exists q; by rewrite lookup_insert_eq|].
  intros p' q' Hne. rewrite lookup_insert_ne by done. by apply H.
Qed.

(** The moves of the holder: it goes on, it releases; others: they begin, they
    give up, they acquire. *)
Lemma exclusive_keep ps lock rem p q q' :
  exclusive ps lock rem → ps !! p = Some q → holds q = true → holds q' = true →
  exclusive (<[p := q']> ps) lock rem.
Proof.
  intros He Hp Hq Hq'. destruct (holder_owns _ _ _ _ _ He Hp Hq) as (-> & -> & _ & Ho).
  exists p. by apply only_holder_insert.
Qed.

Lemma exclusive_release ps lock rem p q :
  exclusive ps lock rem → ps !! p = Some q → holds q = true → exclusive (delete p ps) false rem.
Proof.
  intros He Hp Hq. destruct (holder_owns _ _ _ _ _ He Hp Hq) as (-> & -> & _ & Ho).
  split; [done|]. intros p' q' [Hne Hp']%lookup_delete_Some. eapply Ho; [|done]. congruence.
Qed.

Lemma exclusive_start ps lock rem p :
  exclusive ps lock rem → ps !! p = None → exclusive (<[p := PScan]> ps) lock rem.
Proof.
  unfold exclusive. intros He Hp. destruct lock; [destruct rem|].
  - by apply no_holder_insert.
  - destruct He as [x [(q & Hx & Hq) Ho]]. assert (x ≠ p) by congruence. exists x. split.
    + exists q. by rewrite lookup_insert_ne.
    + intros p' q' Hne. rewrite lookup_insert. case_decide; [by intros [= <-]|by apply Ho].
  - destruct He. split; [done|]. by apply no_holder_insert.
Qed.

Lemma exclusive_give_up ps lock rem p :
  exclusive ps lock rem → ps !! p = Some PScan → exclusive (delete p ps) lock rem.
Proof.
  unfold exclusive. intros He Hp. destruct lock; [destruct rem|].
  - by apply no_holder_delete.
  - destruct He as [x [(q & Hx & Hq) Ho]]. assert (x ≠ p) by (intros ->; simplify_eq; done). exists x. split.
    + exists q. by rewrite lookup_delete_ne.
    + intros p' q' Hne [_ Hp']%lookup_delete_Some. by eapply Ho.
  - destruct He. split; [done|]. by apply no_holder_delete.
Qed.

Lemma exclusive_acquire ps rem p q' :
  exclusive ps false rem → ps !! p = Some PScan → holds q' = true → exclusive (<[p := q']> ps) true rem.
Proof.
  intros [-> Hn] Hp Hq'. exists p. apply only_holder_insert; [|done]. intros p' q _. apply Hn.
Qed.

Lemma exclusive_remover_acquire ps rem : exclusive ps false rem → exclusive ps true true.
Proof. by intros [_ H]. Qed.

Lemma exclusive_remover_release ps lock : exclusive ps lock true → exclusive ps false false.
Proof. unfold exclusive. destruct lock; [done|]. by intros [? _]. Qed.

(** ** The invariant *)

Definition after_erase (q : rpc) : bool := match q with RRelease | RUnlock | RDone => true | _ => false end.

Record sys_Inv (s : sys) : Prop := {
  i_lock : exclusive (procs s) (lock_ (r s)) (remover_holds (remover s));
  i_read : writer_holds s = true → no_reader s;
  i_code : (∀ p, procs s !! p ≠ Some PRunning) →
    code_ s = Top ∨ ∃ m, code_ s = Callback m;
  i_queued : queued s = false → after_erase (remover s) = true ∧ procs s = ∅;
  i_erased : after_erase (remover s) = true → queued s = false;
}.

Lemma init_sys_Inv now mb : sys_Inv (init now mb).
Proof.
  split; simpl; try done.
  all: try by intros _; left.
Qed.

Lemma no_reader_insert (ps : gmap nat ppc) p q :
  map_Forall (λ _ q, reads q = false) ps → reads q = false →
  map_Forall (λ (_ : nat) q, reads q = false) (<[p := q]> ps).
Proof. intros H Hq p' q'. rewrite lookup_insert. case_decide; [congruence|]. apply H. Qed.

Lemma no_reader_delete (ps : gmap nat ppc) p :
  map_Forall (λ _ q, reads q = false) ps → map_Forall (λ (_ : nat) q, reads q = false) (delete p ps).
Proof. intros H p' q' [_ Hp]%lookup_delete_Some. by apply (H p'). Qed.

(** Nobody runs the code while [p] is elsewhere. *)
Lemma not_running s p q :
  sys_Inv s → procs s !! p = Some q → holds q = true → q ≠ PRunning → ∀ p', procs s !! p' ≠ Some PRunning.
Proof.
  intros HI Hp Hq Hne p' Hp'. destruct (holder_owns _ _ _ _ _ (i_lock s HI) Hp Hq) as (_ & _ & _ & Ho).
  destruct (decide (p' = p)) as [->|Hn]; [congruence|]. by specialize (Ho p' PRunning Hn Hp').
Qed.

(** What is left of the invariant when a step of a processor changes its
    program counter, the flags and the code only. *)
Lemma sys_Inv_pcs s s' p q :
  sys_Inv s → procs s !! p = Some q → remover s' = remover s → queued s' = queued s →
  exclusive (procs s') (lock_ (r s')) (remover_holds (remover s)) →
  ((∃ q', procs s' = <[p := q']> (procs s) ∧ (reads q' = true → reads q = true)) ∨
   procs s' = delete p (procs s)) →
  ((∀ p, procs s' !! p ≠ Some PRunning) → code_ s' = Top ∨ ∃ m, code_ s' = Callback m) →
  sys_Inv s'.
Proof.
  intros [Hl Hr Hc Hq He] Hp Erem Eq Hex Hps Hcode.
  split; rewrite ?Erem, ?Eq; [done| |done| |done].
  - unfold writer_holds, no_reader in *. rewrite Erem. intros Hw. specialize (Hr Hw).
    destruct Hps as [(q' & -> & Hq')| ->]; [|by apply no_reader_delete].
    apply no_reader_insert; [done|]. specialize (Hr p q Hp). simpl in Hr.
    destruct (reads q'); [|done]. rewrite Hq' in Hr; done.
  - intros H. destruct (Hq H) as [_ He0]. rewrite He0, lookup_empty in Hp. done.
Qed.

(** The code stays where it is unless it runs. *)
Lemma code_parked s p q (ps : gmap nat ppc) :
  sys_Inv s → procs s !! p = Some q → q ≠ PRunning →
  (∀ p', p' ≠ p → ps !! p' = procs s !! p') →
  (∀ p', ps !! p' ≠ Some PRunning) → code_ s = Top ∨ ∃ m, code_ s = Callback m.
Proof.
  intros HI Hp Hne Hps Hn. apply (i_code s HI). intros p' Hp'.
  destruct (decide (p' = p)) as [->|Hd]; [congruence|]. apply (Hn p'). by rewrite Hps.
Qed.

Lemma code_step_frame b s p c s' e :
  code_step b s p c = (s', e) →
  remover s' = remover s ∧ queued s' = queued s ∧ registered s' = registered s ∧
  writers s' = writers s ∧ lock_ (r s') = lock_ (r s) ∧ force_stop_ (r s') = force_stop_ (r s) ∧
  (procs s' = procs s ∨
   (procs s' = <[p := PRelease]> (procs s) ∧ (code_ s' = Top ∨ ∃ m, code_ s' = Callback m))).
Proof.
  unfold code_step. intros H.
  repeat case_match; simplify_eq/=; repeat split_and!; try done; auto; right; eauto.
Qed.

Lemma sys_Inv_proc b s p now c q :
  sys_Inv s → procs s !! p = Some q → sys_Inv (proc_step b s p now c q).1.
Proof.
  intros HI Hp. pose proof (i_lock s HI) as Hl.
  assert (Hpark : q ≠ PRunning → ∀ ps : gmap nat ppc, (∀ p', p' ≠ p → ps !! p' = procs s !! p') →
    (∀ p', ps !! p' ≠ Some PRunning) → code_ s = Top ∨ ∃ m, code_ s = Callback m).
  { intros Hne ps. by apply (code_parked s p q). }
  assert (Hins : ∀ q' p', p' ≠ p → <[p := q']> (procs s) !! p' = procs s !! p').
  { intros q' p' Hne. by rewrite lookup_insert_ne. }
  assert (Hdel : ∀ p', p' ≠ p → delete p (procs s) !! p' = procs s !! p').
  { intros p' Hne. by rewrite lookup_delete_ne. }
  destruct q; simpl.
  - destruct (lock_ (r s)) eqn:El; simpl; apply (sys_Inv_pcs s _ p PScan); simpl; rewrite ?El; eauto.
    + by apply exclusive_give_up.
    + by apply exclusive_acquire.
  - case_match; apply (sys_Inv_pcs s _ p PUpdate1); simpl; eauto; by eapply exclusive_keep.
  - apply (sys_Inv_pcs s _ p PUpdate2); simpl; eauto; by eapply exclusive_keep.
  - case_match; apply (sys_Inv_pcs s _ p (PUpdate3 clear)); simpl; eauto; by eapply exclusive_keep.
  - case_decide; apply (sys_Inv_pcs s _ p PDecide); simpl; eauto.
    + by eapply exclusive_keep.
    + by eapply exclusive_release.
  - repeat case_match; apply (sys_Inv_pcs s _ p PResume); simpl; eauto; by eapply exclusive_keep.
  - destruct (code_step b s p c) as [s' e] eqn:E. simpl.
    destruct (code_step_frame _ _ _ _ _ _ E) as (E1 & E2 & _ & _ & E3 & _ & H).
    apply (sys_Inv_pcs s s' p PRunning); try done; rewrite ?E3.
    + destruct H as [-> | [-> _]]; [done|by eapply exclusive_keep].
    + left. destruct H as [-> | [-> _]]; [|by eexists]. exists PRunning. by rewrite insert_id.
    + destruct H as [-> | [_ Hc]]; [|done]. intros H. by destruct (H p).
  - apply (sys_Inv_pcs s _ p PRelease); simpl; eauto. by eapply exclusive_release.
Qed.

(** Nobody is at the queue or has the routine: there is no processor at all. *)
Lemma no_processor (ps : gmap nat ppc) :
  no_holder ps → map_Forall (λ _ q, reads q = false) ps → ps = ∅.
Proof.
  intros Hn Hr. apply map_empty. intros p. destruct (ps !! p) as [q|] eqn:Hp; [|done].
  specialize (Hn p q Hp). specialize (Hr p q Hp). simpl in Hr. by destruct q.
Qed.

Lemma sys_Inv_remove s s' e : sys_Inv s → remove_step s = Some (s', e) → sys_Inv s'.
Proof.
  intros [Hl Hr Hc Hq He] H. unfold remove_step in H. unfold writer_holds in Hr.
  unfold Acquire in H.
  destruct (remover s) eqn:Er; try case_decide; simplify_eq/=.
  1-2: split; simpl; rewrite ?Er; unfold writer_holds; simpl; auto; done.
  - destruct (queued s) eqn:Eq; simplify_eq/=; [|by destruct (Hq eq_refl)].
    split; simpl; rewrite ?Er; unfold writer_holds; simpl; auto; congruence.
  - destruct (lock_ (r s)) eqn:El; simplify_eq/=.
    + split; simpl; rewrite ?Er, ?El; unfold writer_holds; rewrite ?Er; auto.
    + split; simpl; unfold writer_holds; simpl; auto; try done.
      by eapply exclusive_remover_acquire.
  - split; simpl; unfold writer_holds; simpl; auto; try done.
    intros _. split; [done|]. apply no_processor; [|by apply Hr].
    unfold exclusive in Hl. destruct (lock_ (r s)); [done|by destruct Hl].
  - split; simpl; unfold writer_holds; simpl; auto; try done. by eapply exclusive_remover_release.
  - by split.
Qed.

Lemma sys_Inv_exec b s l s' e : sys_Inv s → exec b s l = Some (s', e) → sys_Inv s'.
Proof.
  intros HI H. pose proof HI as [Hl Hr Hc Hq He]. destruct l as [p|p now c|n m|n| | |]; simpl in H.
  - destruct (procs s !! p) eqn:Hp; [done|]. destruct (writer_holds s) eqn:Hw; [done|].
    destruct (queued s) eqn:Eq; simplify_eq/=; [|done].
    split; simpl; unfold writer_holds in *; simpl in *; try done.
    + by apply exclusive_start.
    + by rewrite Hw.
    + intros H. apply Hc. intros p' Hp'. apply (H p'). rewrite lookup_insert_ne; [done|congruence].
    + by rewrite Eq.
    + rewrite Eq. done.
  - destruct (procs s !! p) as [q|] eqn:Hp; [|done]. simplify_eq.
    apply (sys_Inv_proc b s p now c q) in HI; [|done]. by rewrite H in HI.
  - destruct (writers s !! n); simplify_eq. by split.
  - destruct (writers s !! n) as [q|]; simplify_eq. unfold notify_step.
    destruct q; [case_match|]; by split.
  - simplify_eq. by split.
  - case_decide; [|done]. by eapply sys_Inv_remove.
  - case_decide; [done|]. by eapply sys_Inv_remove.
Qed.

(** After the remover is done the code never runs: a processor at the queue
    finds it empty. *)
Lemma removed_sticks b s l s' e :
  sys_Inv s → remover s = RDone → exec b s l = Some (s', e) → remover s' = RDone ∧ e = None.
Proof.
  intros HI Hr H. assert (Hq : queued s = false) by (apply (i_erased s HI); by rewrite Hr).
  destruct (i_queued s HI Hq) as [_ He].
  destruct l; simpl in H; rewrite ?He, ?lookup_empty, ?Hq in H; unfold writer_holds in H; rewrite ?Hr in H.
  all: repeat case_match; try case_decide; simplify_eq/=; try done.
  - unfold notify_step. by repeat case_match.
  - unfold remove_step in *. by rewrite Hr in *.
Qed.

(** ** Wake-ups *)

(** Steps in which the user function does not yield and nobody removes the
    routine. *)
Definition calm (l : label) : Prop :=
  match l with Step _ _ CbYield | Remove => False | _ => True end.

#[global] Instance calm_dec l : Decision (calm l).
Proof. destruct l as [|? ? []| | | | |]; simpl; apply _. Defined.

(** The routine's state fits where its code is. *)
Definition state_fits (s : sys) : Prop :=
  match code_ s with
  | Top => state_ (r s) = READY ∨ state_ (r s) = DATA_WAIT
  | Fetch | NoData => state_ (r s) = DATA_WAIT
  | Callback _ | Dispatching _ => state_ (r s) = READY ∨ state_ (r s) = SLEEP ∨ state_ (r s) = DATA_WAIT
  end.

Definition about_to_wake (s : sys) : Prop :=
  updated_ (r s) = false ∨ (∃ n q, writers s !! n = Some q) ∨ ∃ p, procs s !! p = Some (PUpdate3 true).

Record wake_Inv (s : sys) : Prop := {
  w_base : sys_Inv s;
  w_alive : force_stop_ (r s) = false ∧ registered s = true;
  w_fits : state_fits s;
  w_ready : ∀ p, procs s !! p = Some PResume → state_ (r s) = READY;
  w_top : ∀ p, procs s !! p = Some PRunning → code_ s = Top → state_ (r s) = READY;
  w_parked : (∀ p, procs s !! p ≠ Some PRunning) → ∀ m, code_ s = Callback m → state_ (r s) ≠ DATA_WAIT;
  w_wakes : is_Some (fetch (mailbox s)) → state_ (r s) = DATA_WAIT → code_ s = Top ∨ code_ s = NoData →
    about_to_wake s;
}.
Lemma init_wake_Inv now mb : wake_Inv (init now mb).
Proof. split; simpl; auto using init_sys_Inv; try done. by left. Qed.

(** A processor's move keeps the promise of a wake-up unless it takes it. *)
Lemma about_to_wake_pcs s p q (ps : gmap nat ppc) c :
  about_to_wake s → procs s !! p = Some q → q ≠ PUpdate3 true →
  updated_ c = updated_ (r s) → (∀ p', p' ≠ p → ps !! p' = procs s !! p') →
  updated_ c = false ∨ (∃ n q, writers s !! n = Some q) ∨ ∃ p, ps !! p = Some (PUpdate3 true).
Proof.
  intros [H|[H|[p' H]]] Hp Hq -> Hps; [by left|by right; left|].
  right. right. exists p'. rewrite Hps; [done|]. congruence.
Qed.

Lemma wake_Inv_code s p q c s' e :
  wake_Inv s → procs s !! p = Some q → q = PRunning → c ≠ CbYield → sys_Inv s' →
  code_step DataBody s p c = (s', e) → wake_Inv s'.
Proof.
  intros [Hb Ha Hf Hr Ht Hp Hw] Hpp -> Hc HI H.
  destruct (holder_owns _ _ _ _ _ (i_lock s Hb) Hpp eq_refl) as (_ & _ & _ & Ho).
  assert (Hone : ∀ p', procs s !! p' = Some PResume → False).
  { intros p' Hp'. destruct (decide (p' = p)) as [->|Hne]; [congruence|]. by specialize (Ho p' PResume Hne Hp'). }
  unfold code_step in H. unfold state_fits in Hf.
  destruct (code_ s) eqn:Ec; [| |destruct c| |]; repeat case_match; simplify_eq/=.
  all: split; [done|done| | | | |]; unfold state_fits; simpl; rewrite ?Ec; auto; try done.
  all: try (intros p'; rewrite lookup_insert; case_decide; [done|]; intros Hp'; by destruct (Hone p')).
  all: try (by intros p' ?%Hone).
  all: try (intros Hn; by destruct (Hn p)).
  all: try (intros _ _ [?|?]; done).
  - intros [? ?]. congruence.
  - intros p'. rewrite lookup_insert. case_decide; [done|]. intros Hp'. by specialize (Ho p' PRunning ltac:(done) Hp').
  - intros Hm Hd _. unfold about_to_wake. simpl.
    eapply about_to_wake_pcs; eauto. intros p' Hne. by rewrite lookup_insert_ne.
Qed.

(** The moves of a processor that does not run the code: the state stays or
    becomes READY. *)
Lemma wake_Inv_pcs s p q s' :
  wake_Inv s → procs s !! p = Some q → q ≠ PRunning → sys_Inv s' →
  code_ s' = code_ s → mailbox s' = mailbox s → registered s' = registered s →
  force_stop_ (r s') = force_stop_ (r s) →
  ((∃ q', procs s' = <[p := q']> (procs s) ∧ (q' = PResume ∨ q' = PRunning → state_ (r s') = READY)) ∨
   procs s' = delete p (procs s)) →
  (state_ (r s') = READY ∧ holds q = true) ∨
  (state_ (r s') = state_ (r s) ∧ (state_ (r s) = DATA_WAIT → about_to_wake s → about_to_wake s')) →
  wake_Inv s'.
Proof.
  intros [Hb Ha Hf Hr Ht Hp Hw] Hpp Hq HI Ec Em Eg Ef Hps Hst.
  assert (Hold : ∀ p' q', procs s' !! p' = Some q' → (q' = PResume ∨ q' = PRunning) →
    state_ (r s') = READY ∨ (p' ≠ p ∧ procs s !! p' = Some q')).
  { intros p' q' Hp' Hq'. destruct Hps as [(x & E & Hx)|E]; rewrite E in Hp'.
    - apply lookup_insert_Some in Hp' as [[-> ->]|[Hne Hp']]; auto.
    - apply lookup_delete_Some in Hp' as [Hne Hp']; auto. }
  assert (Hn : (∀ p', procs s' !! p' ≠ Some PRunning) → ∀ p', procs s !! p' ≠ Some PRunning).
  { intros H p' Hp'. assert (p' ≠ p) by congruence. apply (H p').
    destruct Hps as [(x & -> & Hx)| ->]; [by rewrite lookup_insert_ne|by rewrite lookup_delete_ne]. }
  destruct Hst as [[Er Hh]|[Er Hwake]].
  - split; rewrite ?Ef, ?Eg; auto; try congruence; unfold state_fits; rewrite Ec, Er.
    destruct (i_code s Hb) as [-> | [m ->]]; eauto. by apply (not_running s p q).
  - split; rewrite ?Ef, ?Eg, ?Em, ?Er, ?Ec; auto; unfold state_fits in *; rewrite ?Er, ?Ec; auto.
    + intros p' Hp'. destruct (Hold _ _ Hp') as [H|[_ H]]; eauto. congruence.
    + intros p' Hp' Hc. destruct (Hold _ _ Hp') as [H|[_ H]]; eauto. congruence.
    + intros H m Hm. apply (Hp (Hn H) m Hm).
Qed.

Lemma wake_Inv_proc s p q now c s' e :
  wake_Inv s → procs s !! p = Some q → c ≠ CbYield → sys_Inv s' →
  proc_step DataBody s p now c q = (s', e) → wake_Inv s'.
Proof.
  intros HW Hpp Hc HI H. destruct (decide (q = PRunning)) as [->|Hq].
  { by eapply wake_Inv_code. }
  pose proof (w_alive s HW) as [Hf _].
  assert (Hins : ∀ q' p', p' ≠ p → <[p := q']> (procs s) !! p' = procs s !! p').
  { intros q' p' Hne. by rewrite lookup_insert_ne. }
  assert (Hdel : ∀ p', p' ≠ p → delete p (procs s) !! p' = procs s !! p').
  { intros p' Hne. by rewrite lookup_delete_ne. }
  assert (Hin : ∀ q', (q' = PResume ∨ q' = PRunning → state_ (r s') = READY) → procs s' = <[p := q']> (procs s) →
    (∃ q', procs s' = <[p := q']> (procs s) ∧ (q' = PResume ∨ q' = PRunning → state_ (r s') = READY)) ∨
    procs s' = delete p (procs s)) by eauto.
  assert (Hstay : q ≠ PUpdate3 true → state_ (r s') = state_ (r s) →
    updated_ (r s') = updated_ (r s) → (∀ p', p' ≠ p → procs s' !! p' = procs s !! p') →
    writers s' = writers s →
    (state_ (r s') = READY ∧ holds q = true) ∨
    (state_ (r s') = state_ (r s) ∧ (state_ (r s) = DATA_WAIT → about_to_wake s → about_to_wake s'))).
  { intros H1 H2 H3 H4 Ew. right. split; [done|]. intros _ Ha. unfold about_to_wake.
    rewrite Ew. by apply (about_to_wake_pcs s p q). }
  destruct q; simpl in H.
  - unfold Acquire in H. destruct (lock_ (r s)); simplify_eq/=; apply (wake_Inv_pcs s p PScan); simpl; eauto.
    apply (Hin PUpdate1); [by intros [?|?]|done].
  - case_match; simplify_eq/=; apply (wake_Inv_pcs s p PUpdate1); simpl; eauto;
      apply (Hin PUpdate2); [by intros [?|?]|done].
  - simplify_eq/=. apply (wake_Inv_pcs s p PUpdate2); simpl; auto.
    { eapply Hin; [|done]. by intros [?|?]. }
    right. split; [done|]. intros _ [Hu|[?|[p' Hp']]]; right; simpl; [right|by left|right].
    + exists p. by rewrite lookup_insert_eq, Hu.
    + exists p'. rewrite lookup_insert_ne; [done|congruence].
  - destruct (clear && waits (state_ (r s))) eqn:E; simplify_eq/=; apply (wake_Inv_pcs s p (PUpdate3 clear)); simpl; auto.
    1-2: eapply Hin; [|done]; by intros [?|?].
    destruct clear; [|by eauto]. right. split; [done|]. intros Hd. by rewrite Hd in E.
  - case_decide; simplify_eq/=; apply (wake_Inv_pcs s p PDecide); simpl; eauto.
  - rewrite Hf in H. case_decide; simplify_eq/=; apply (wake_Inv_pcs s p PResume); simpl; eauto.
    apply (Hin PRelease); [by intros [?|?]|done].
  - done.
  - simplify_eq/=. apply (wake_Inv_pcs s p PRelease); simpl; eauto.
Qed.

Lemma proc_step_remover b s p now c q s' e :
  proc_step b s p now c q = (s', e) → remover s' = remover s ∧ callback_ s' = callback_ s.
Proof.
  destruct q; simpl; unfold Acquire, code_step; intros H; repeat case_match; by simplify_eq/=.
Qed.

Definition wake_J (s : sys) : Prop := wake_Inv s ∧ remover s = RIdle ∧ callback_ s = true.

Lemma wake_J_exec s l s' e :
  wake_J s → calm l → exec DataBody s l = Some (s', e) → wake_J s'.
Proof.
  intros (HW & Hr & Hcb) Hl H. assert (HI : sys_Inv s') by (eapply sys_Inv_exec; [apply HW|done]).
  destruct l as [p|p now c|n m|n| | |]; simpl in H; try done.
  - destruct (procs s !! p) eqn:Hp; [done|]. destruct (writer_holds s); [done|].
    destruct (queued s) eqn:Eq; simplify_eq/=; [|done]. split; [|done].
    destruct HW as [Hb Ha Hf Hrd Ht Hpk Hw]. split; simpl; auto.
    + intros p'. rewrite lookup_insert. case_decide; [done|]. apply Hrd.
    + intros p'. rewrite lookup_insert. case_decide; [done|]. apply Ht.
    + intros Hn. apply Hpk. intros p' Hp'. apply (Hn p'). rewrite lookup_insert_ne; [done|congruence].
    + intros H1 H2 H3. destruct (Hw H1 H2 H3) as [?|[?|[p' Hp']]]; [by left|by right; left|].
      right; right. exists p'. simpl. rewrite lookup_insert_ne; [done|congruence].
  - destruct (procs s !! p) as [q|] eqn:Hp; [|done]. simplify_eq.
    destruct (proc_step_remover _ _ _ _ _ _ _ _ H) as [Er Ec]. split; [|by rewrite Er, Ec].
    apply (wake_Inv_proc s p q now c s' e); auto. by intros ->.
  - destruct (writers s !! n); simplify_eq/=. split; [|done].
    destruct HW as [Hb Ha Hf Hrd Ht Hpk Hw]. split; simpl; auto.
    rewrite Hcb. destruct (notifies m) eqn:Ew; simpl.
    + intros _ _ _. right; left. exists n, NRead. simpl. apply lookup_insert_eq.
    + intros [x Hx] Hd Hk. apply Hw; [|done|done]. destruct (fetch (mailbox s)) eqn:Ef; [by eexists|]. by rewrite (put_quiet _ _ Ew Ef) in Hx.
  - destruct (writers s !! n) as [q|] eqn:Hn; simplify_eq/=. destruct HW as [Hb Ha Hf Hrd Ht Hpk Hw].
    unfold notify_step in *. destruct q; [case_match|]; split; try done; split; simpl; auto.
    + intros _ _ _. right; left. exists n, NFlag. simpl. apply lookup_insert_eq.
    + intros _ Hd _. destruct Ha as [_ Ha]. rewrite Ha, Hd in *. done.
    + intros _ _ _. by left.
  - simplify_eq. split; [|done]. by destruct HW.
  - by case_decide.
Qed.

Lemma reachable_sys_Inv b now mb ls s es :
  ev_run (exec b) (init now mb) ls = Some (s, es) → sys_Inv s.
Proof.
  apply (ev_run_invariant (exec b) sys_Inv); [apply init_sys_Inv|]. intros. by eapply sys_Inv_exec.
Qed.

Lemma reachable_wake_J now mb ls s es :
  Forall calm ls → ev_run (exec DataBody) (init now mb) ls = Some (s, es) → wake_J s.
Proof.
  intros Hc. apply (ev_run_invariant_on (exec DataBody) wake_J calm); [|apply wake_J_exec|done].
  split; [apply init_wake_Inv|done].
Qed.

(** ** Theorems *)

(** C24: at most one processor has the routine, whatever processors, writers
    and the remover do, for both loops; and once [RemoveCRoutine] has returned
    no processor is at the routine and no message is handled ever again. *)
Theorem routine_exclusive b now mb ls s es :
  ev_run (exec b) (init now mb) ls = Some (s, es) →
  (∀ p p' q q', procs s !! p = Some q → procs s !! p' = Some q' →
     holds q = true → holds q' = true → p = p') ∧
  (remover s = RDone → procs s = ∅ ∧
     ∀ ls' s' es', ev_run (exec b) s ls' = Some (s', es') → procs s' = ∅ ∧ es' = []).
Proof.
  intros HI%reachable_sys_Inv. split.
  - intros p p' q q' Hp Hp' Hq Hq'.
    destruct (holder_owns _ _ _ _ _ (i_lock s HI) Hp Hq) as (_ & _ & _ & Ho).
    destruct (decide (p' = p)) as [->|Hne]; [done|]. specialize (Ho p' q' Hne Hp'). congruence.
  - intros Hr. assert (He : ∀ s, sys_Inv s → remover s = RDone → procs s = ∅).
    { intros s0 H0 Hr0. apply (i_queued s0 H0), (i_erased s0 H0). by rewrite Hr0. }
    split; [by apply He|]. intros ls' s' es' H.
    apply (ev_run_stuck _ (λ s, sys_Inv s ∧ remover s = RDone) (λ _, True)) in H as [[HI' Hr'] ->];
      [by auto|done| |by apply Forall_true].
    intros s0 l s1 e [HI0 Hr0] _ E. destruct (removed_sticks _ _ _ _ _ HI0 Hr0 E). eauto using sys_Inv_exec.
Qed.

Lemma exec_at b s p q now c :
  exec b (at_pc s p q) (Step p now c) = Some (proc_step b (at_pc s p q) p now c q).
Proof. simpl. by rewrite lookup_insert_eq. Qed.

Lemma at_pc_twice s p q q' : at_pc (at_pc s p q) p q' = at_pc s p q'.
Proof. unfold at_pc. simpl. by rewrite insert_insert_eq. Qed.

Lemma with_r_at_pc s p q c : with_r (at_pc s p q) c = at_pc (with_r s c) p q.
Proof. done. Qed.

Lemma poll_starts b s p :
  procs s = ∅ → queued s = true → writer_holds s = false → exec b s (Poll p) = Some (at_pc s p PScan, None).
Proof. intros Hp Hq Hw. simpl. by rewrite Hp, lookup_empty, Hw, Hq. Qed.

Lemma with_r_twice s c c' : with_r (with_r s c) c' = with_r s c'.
Proof. done. Qed.

(** One step of the processor that holds the routine, computed. *)
Ltac poll_step :=
  eapply ev_run_silent;
  [rewrite exec_at; simpl;
   repeat match goal with H : r _ = _ |- _ => rewrite H end; simpl;
   repeat match goal with H : (_ <? _) = true |- _ => rewrite H end; simpl; reflexivity|];
  rewrite ?with_r_at_pc, ?at_pc_twice, ?with_r_twice.

(** A poll of a routine that nobody has, as far as the code. *)
Lemma poll_runs s p now :
  procs s = ∅ → lock_ (r s) = false → queued s = true → writer_holds s = false →
  force_stop_ (r s) = false →
  state_ (r s) = READY ∨ (state_ (r s) = SLEEP ∧ wake_time_ (r s) < now) ∨
    (state_ (r s) = DATA_WAIT ∧ updated_ (r s) = false) →
  ∃ k u, ev_run (exec DataBody) s (Poll p :: replicate k (Step p now CbReturn)) =
    Some (at_pc (with_r s (mkCRoutine READY (wake_time_ (r s)) true u false)) p PRunning, []).
Proof.
  intros Hp Hl Hq Hw Hf Hs.
  assert (Hr : r s = mkCRoutine (state_ (r s)) (wake_time_ (r s)) false (updated_ (r s)) false)
    by (destruct (r s); simpl in *; by subst).
  revert Hr. generalize (wake_time_ (r s)) (updated_ (r s)) Hs. clear Hs.
  intros w u Hs Hr.
  destruct Hs as [Es | [[Es Hlt] | [Es ->]]]; rewrite Es in Hr.
  - exists 6%nat, true. eapply ev_run_silent; [by apply poll_starts|].
    destruct u; do 6 poll_step; done.
  - exists 4%nat, u. eapply ev_run_silent; [by apply poll_starts|].
    apply Z.ltb_lt in Hlt. do 4 poll_step. done.
  - exists 6%nat, true. eapply ev_run_silent; [by apply poll_starts|].
    do 6 poll_step. done.
Qed.

(** A routine that nobody has, in a calm run, can be polled. *)
Lemma calm_pollable s :
  wake_J s → procs s = ∅ →
  lock_ (r s) = false ∧ queued s = true ∧ writer_holds s = false ∧ force_stop_ (r s) = false.
Proof.
  intros (HW & Hr & _) Hp. pose proof (w_base s HW) as HI. split_and!.
  - pose proof (i_lock s HI) as Hl. rewrite Hr in Hl. unfold exclusive in Hl.
    destruct (lock_ (r s)); [|done]. simpl in Hl. destruct Hl as [x [(q & Hx & _) _]].
    by rewrite Hp, lookup_empty in Hx.
  - destruct (queued s) eqn:Eq; [done|]. apply (i_queued s HI) in Eq as [H _]. by rewrite Hr in H.
  - unfold writer_holds. by rewrite Hr.
  - apply (w_alive s HW).
Qed.

Lemma poll_fetches s p now m rest :
  code_ s = Top → fetch (mailbox s) = Some (m, rest) →
  ∃ s', ev_run (exec DataBody) (at_pc s p PRunning) (replicate 2 (Step p now CbReturn)) = Some (s', []) ∧
    code_ s' = Callback m ∧ mailbox s' = rest ∧ procs s' = <[p := PRunning]> (procs s).
Proof.
  destruct s as [c k mb q g ps ws rm]. intros Hc Hm. simpl in Hc, Hm. subst. eexists. split.
  - eapply ev_run_silent; [by rewrite exec_at|].
    eapply ev_run_silent; [simpl; rewrite lookup_insert_eq; unfold proc_step, code_step; simpl; rewrite Hm; reflexivity|]. done.
  - done.
Qed.

(** C26: Data that arrived is handled: in any run of processors and writers
    without removal and without [cyber::Yield] inside the user function
    ([calm]), the callback being registered from the start, when a routine that
    nobody has waits at the top of its loop, [TryFetch] would give it something
    and the writers have finished notifying, one poll by any processor makes
    the routine fetch that and call the user function; a sleeping one goes on
    with its call as soon as its time has passed. What [TryFetch] gives is up
    to the [Mailbox]: for a [DataVisitor] the next tuple, or the latest one at
    the first fetch and after an overflow. *)
Theorem data_arrival_wakes_routine now mb ls s es p now' :
  Forall calm ls → ev_run (exec DataBody) (init now mb) ls = Some (s, es) →
  procs s = ∅ → writers s = ∅ →
  (∀ m rest, code_ s = Top → fetch (mailbox s) = Some (m, rest) → ∃ k s',
     ev_run (exec DataBody) s (Poll p :: replicate k (Step p now' CbReturn)) = Some (s', []) ∧
     code_ s' = Callback m ∧ mailbox s' = rest ∧ procs s' = {[p := PRunning]}) ∧
  (∀ m, code_ s = Callback m → wake_time_ (r s) < now' → ∃ k s',
     ev_run (exec DataBody) s (Poll p :: replicate k (Step p now' CbReturn)) = Some (s', []) ∧
     code_ s' = Callback m ∧ mailbox s' = mailbox s ∧ procs s' = {[p := PRunning]}).
Proof.
  intros Hc HJ%reachable_wake_J Hp Hw; [|done]. destruct (calm_pollable s HJ Hp) as (Hl & Hq & Hh & Hf).
  destruct HJ as ([Hb Ha Hfit Hrd Ht Hpk Hwk] & Hr & _).
  assert (Hn : ∀ p', procs s !! p' ≠ Some PRunning) by (intros p'; by rewrite Hp, lookup_empty).
  assert (Hto : ∀ k ls', Poll p :: replicate (k + ls') (Step p now' CbReturn) =
    (Poll p :: replicate k (Step p now' CbReturn)) ++ replicate ls' (Step p now' CbReturn)).
  { intros k l. simpl. by rewrite replicate_add. }
  unfold state_fits in Hfit. split.
  - intros m rest Ec Em. rewrite Ec in *.
    assert (state_ (r s) = DATA_WAIT → updated_ (r s) = false).
    { intros Hd. destruct (Hwk ltac:(by eexists) Hd) as [?|[(n & q & H)|[p' H]]]; [by left|done| |].
      - by rewrite Hw, lookup_empty in H.
      - by rewrite Hp, lookup_empty in H. }
    destruct (poll_runs s p now') as (k & u & Hk); auto; [naive_solver|].
    destruct (poll_fetches (with_r s (mkCRoutine READY (wake_time_ (r s)) true u false)) p now' m rest)
      as (s' & Hs' & H1 & H2 & H3); [done..|].
    exists (k + 2)%nat, s'. rewrite Hto. rewrite (ev_run_app _ _ _ _ _ _ Hk), Hs'.
    split; [done|]. split; [done|]. split; [done|]. rewrite H3. simpl. by rewrite Hp.
  - intros m Ec Hlt. rewrite Ec in *. specialize (Hpk Hn m eq_refl).
    destruct (poll_runs s p now') as (k & u & Hk); auto; [naive_solver|].
    exists k. eexists. split; [done|]. simpl. by rewrite Hp.
Qed.

(** ** Routines that stay where they are *)

(** Waiting for data, with nobody about to change that. *)
Definition parked (k : code) (mb : MB) (s : sys) : Prop :=
  state_ (r s) = DATA_WAIT ∧ updated_ (r s) = true ∧ force_stop_ (r s) = false ∧
  code_ s = k ∧ mailbox s = mb ∧ writers s = ∅ ∧
  ∀ p q, procs s !! p = Some q → q ≠ PUpdate3 true ∧ q ≠ PResume ∧ q ≠ PRunning.

(** The steps of the processors. *)
Definition polling (l : label) : Prop := match l with Poll _ | Step _ _ _ => True | _ => False end.

Lemma parked_exec b k mb s l s' e :
  parked k mb s → polling l → exec b s l = Some (s', e) → parked k mb s' ∧ e = None.
Proof.
  intros (H1 & H2 & H3 & H4 & H5 & H6 & H7).
  assert (Hins : ∀ p q, q ≠ PUpdate3 true ∧ q ≠ PResume ∧ q ≠ PRunning →
    ∀ p' q', <[p := q]> (procs s) !! p' = Some q' → q' ≠ PUpdate3 true ∧ q' ≠ PResume ∧ q' ≠ PRunning).
  { intros p q Hq p' q'. rewrite lookup_insert. case_decide; [by intros [= <-]|apply H7]. }
  assert (Hdel : ∀ p p' q', delete p (procs s) !! p' = Some q' →
    q' ≠ PUpdate3 true ∧ q' ≠ PResume ∧ q' ≠ PRunning).
  { intros p p' q' [_ H]%lookup_delete_Some. by eapply H7. }
  assert (Hfin : ∀ s', state_ (r s') = DATA_WAIT → updated_ (r s') = true → force_stop_ (r s') = false →
    code_ s' = code_ s → mailbox s' = mailbox s → writers s' = writers s →
    ((∃ p, procs s' = delete p (procs s)) ∨ procs s' = procs s ∨
      ∃ p q, procs s' = <[p := q]> (procs s) ∧ q ≠ PUpdate3 true ∧ q ≠ PResume ∧ q ≠ PRunning) →
    parked k mb s' ∧ @None event = None).
  { intros x X1 X2 X3 X4 X5 X6 X7. split; [|done]. unfold parked. rewrite X4, X5, X6.
    split_and!; auto. intros p q. destruct X7 as [[y ->]|[->|(y & z & -> & Hz)]]; eauto. }
  clear Hins Hdel.
  intros Hl H. destruct l as [p|p now c|n m|n| | |]; simpl in H; try done.
  - repeat case_match; simplify_eq/=; apply Hfin; simpl; auto.
    right; right. by exists p, PScan.
  - destruct (procs s !! p) as [q|] eqn:Hp; [|done]. destruct (H7 p q Hp) as (Q1 & Q2 & Q3).
    injection H as H. destruct q as [| | |clear| | | |]; simpl in H; unfold Acquire in H; rewrite ?H1, ?H2 in H; try done.
    4: destruct clear; [done|].
    1: destruct (lock_ (r s)).
    all: simplify_eq/=; apply Hfin; simpl; eauto.
    all: right; right; by eexists p, _.
Qed.

Lemma parked_forever b k mb s ls s' es :
  parked k mb s → Forall polling ls → ev_run (exec b) s ls = Some (s', es) → parked k mb s' ∧ es = [].
Proof.
  intros Hp. apply ev_run_stuck; [done|]. intros. by eapply parked_exec.
Qed.

(** [k] steps of processor 0. *)
Definition steps (k : nat) (now : Z) (c : choice) : list label := replicate k (Step 0 now c).

End Routine.

Arguments code : clear implicits.
Arguments sys : clear implicits.
Arguments label : clear implicits.
Arguments event : clear implicits.

(** ** What goes wrong *)

Section Wrong.
Context {T : Type} (null : T).
#[local] Instance wrong_mailbox : Mailbox (nat * T) (list T) visitor := visitor_mailbox null.

(** A visitor of one channel; with a message in it; and after [TryFetch]. *)
Definition one_channel : list VisitorConfig := [mkConfig 7 1].
Definition filled (m : T) : visitor := put (0%nat, m) (DataVisitor_new null one_channel).
Definition fetched (m : T) : visitor := default (DataVisitor_new null one_channel) (snd <$> fetch (filled m)).

(** Property: [TaskManager] loses wake-ups: when a task is enqueued and notified
    between the failing [Dequeue] of its routine and the [HangUp] that sets
    DATA_WAIT, the notification is dropped, since the state is still READY; the
    task stays in the queue, whatever the processors do, until something else
    is enqueued. *)
Theorem task_manager_lost_wakeup {M} (m : M) :
  ∃ ls (s : sys M (list M)), ev_run (exec TaskBody) (init 0 []) ls = Some (s, []) ∧ mailbox s = [m] ∧
    procs s = ∅ ∧ writers s = ∅ ∧
    ∀ ls' s' es', Forall polling ls' → ev_run (exec TaskBody) s ls' = Some (s', es') →
      mailbox s' = [m] ∧ es' = [].
Proof.
  exists (Poll 0 :: steps 8 1 CbReturn ++ [Write 0 m; Notify 0] ++ steps 2 1 CbReturn).
  exists (mkSys (mkCRoutine DATA_WAIT 0 false true false) Top [m] true true true ∅ ∅ RIdle).
  split; [done|]. split; [done|]. split; [done|]. split; [done|].
  intros ls' s' es' Hp H. apply (parked_forever _ Top [m]) in H as [(_ & _ & _ & _ & H & _) ->]; [done| |done].
  unfold parked. by split_and!.
Qed.

(** Property: [CreateTask] loses a wake-up: it hands the routine to the processors
    before it registers the callback of the visitor, so a message that arrives
    after the routine has looked for data the first time and before the
    registration is not notified; it waits, whatever the processors do, until
    another message is written. *)
Theorem create_task_loses_message (m : T) :
  ∃ ls (s : sys (list T) (visitor (T := T))), ev_run (exec DataBody) (dispatched 0 (DataVisitor_new null one_channel)) ls = Some (s, []) ∧ fetch (mailbox s) = Some ([m], fetched m) ∧
    callback_ s = true ∧ procs s = ∅ ∧ writers s = ∅ ∧
    ∀ ls' s' es', Forall polling ls' → ev_run (exec DataBody) s ls' = Some (s', es') →
      fetch (mailbox s') = Some ([m], fetched m) ∧ es' = [].
Proof.
  exists (Poll 0 :: steps 10 1 CbReturn ++ [Write 0 (0%nat, m); Register]).
  exists (mkSys (mkCRoutine DATA_WAIT 0 false true false) Top (filled m) true true true ∅ ∅ RIdle).
  split; [done|]. split; [done|]. split; [done|]. split; [done|]. split; [done|].
  intros ls' s' es' Hp H. apply (parked_forever _ Top (filled m)) in H as [(_ & _ & _ & _ & H & _) ->]; [by rewrite H| |done].
  unfold parked. by split_and!.
Qed.

(** Property: [cyber::Yield] inside a user function does not yield but waits for
    data: the loop has set DATA_WAIT before it fetched, and the switch keeps
    it, so the call is not resumed, whatever the processors do, until another
    message is written. *)
Theorem yield_in_callback_waits_for_data (m : T) :
  ∃ ls (s : sys (list T) (visitor (T := T))), ev_run (exec DataBody) (init 0 (DataVisitor_new null one_channel)) ls = Some (s, []) ∧ code_ s = Callback [m] ∧
    procs s = ∅ ∧ writers s = ∅ ∧
    ∀ ls' s' es', Forall polling ls' → ev_run (exec DataBody) s ls' = Some (s', es') →
      code_ s' = Callback [m] ∧ es' = [].
Proof.
  exists ([Write 0 (0%nat, m); Notify 0; Poll 0] ++ steps 10 1 CbYield).
  exists (mkSys (mkCRoutine DATA_WAIT 0 false true false) (Callback [m]) (fetched m) true true true ∅ ∅ RIdle).
  split; [done|]. split; [done|]. split; [done|]. split; [done|].
  intros ls' s' es' Hp H. apply (parked_forever _ (Callback [m]) (fetched m)) in H as [(_ & _ & _ & H & _) ->]; [done| |done].
  unfold parked. by split_and!.
Qed.

(** Property: [RemoveCRoutine] deadlocks with a routine whose user function creates
    a task of the same group and priority: it spins for the routine with the
    queue locked, and the routine waits for the queue. *)
Theorem remove_deadlocks_with_create_task (m : T) :
  ∃ ls (s : sys (list T) (visitor (T := T))), ev_run (exec DataBody) (init 0 (DataVisitor_new null one_channel)) ls = Some (s, []) ∧ remover s = RSpin ∧ code_ s = Dispatching [m] ∧
    ∀ ls' s' es', ev_run (exec DataBody) s ls' = Some (s', es') →
      remover s' = RSpin ∧ code_ s' = Dispatching [m] ∧ es' = [].
Proof.
  exists ([Write 0 (0%nat, m); Notify 0; Poll 0] ++ steps 9 1 CbDispatch ++ [Remove; RemoveStep; RemoveStep]).
  exists (mkSys (mkCRoutine DATA_WAIT 0 true true true) (Dispatching [m]) (fetched m) true false true {[0%nat := PRunning]} ∅ RSpin).
  split; [done|]. split; [done|]. split; [done|].
  set (J (s : sys (list T) (visitor (T := T))) := remover s = RSpin ∧ code_ s = Dispatching [m] ∧ lock_ (r s) = true ∧
    ∀ p q, procs s !! p = Some q → q = PRunning).
  assert (Hstep : ∀ s l s' e, J s → exec DataBody s l = Some (s', e) → J s' ∧ e = None).
  { intros s l s' e (Hr & Hc & Hl & Hp) H. unfold J.
    destruct l as [p|p now c|n x|n| | |]; simpl in H; unfold writer_holds in H; rewrite ?Hr in H.
    - by destruct (procs s !! p).
    - destruct (procs s !! p) as [q|] eqn:E; [|done]. rewrite (Hp p q E) in H. simpl in H.
      unfold code_step, writer_holds in H. rewrite Hc, Hr in H. by simplify_eq.
    - destruct (writers s !! n); by simplify_eq.
    - destruct (writers s !! n) as [q|]; [|done]. simplify_eq/=. unfold notify_step.
      destruct q; [case_match|]; by split_and!.
    - by simplify_eq.
    - by simplify_eq.
    - unfold remove_step, Acquire in H. rewrite Hr, Hl in H. by simplify_eq/=. }
  intros ls' s' es' H. apply (ev_run_stuck _ J (λ _, True)) in H; [|clear H|intros; by eapply Hstep|by apply Forall_true].
  - destruct H as [(H1 & H2 & _) H3]. done.
  - unfold J. split_and!; [done..|]. simpl. intros p q. by intros [_ <-]%lookup_singleton_Some.
Qed.
End Wrong.

(** ** Runs *)

#[local] Instance demo_mailbox : Mailbox (nat * nat) (list nat) visitor := visitor_mailbox 0%nat.

(** A visitor of two channels; the second one has spoken. *)
Definition demo_visitor : visitor := put (1%nat, 3%nat) (DataVisitor_new 0%nat [mkConfig 7 1; mkConfig 8 1]).

Definition demo_run : list (label (nat * nat)) :=
  [Write 0 (0%nat, 7%nat); Poll 0; Step 0 1 CbReturn; Notify 0; Poll 1; Step 1 1 CbReturn; Step 0 1 CbReturn;
   Step 0 1 CbReturn; Step 0 1 CbReturn; Step 0 1 CbReturn; Step 0 1 CbReturn].

(** Two processors race for the routine. *)
Definition demo_race : sys (list nat) (visitor (T := nat)) :=
  mkSys (mkCRoutine READY 0 true true false) Top (put (0%nat, 7%nat) demo_visitor) true true true {[0%nat := PRunning]} ∅ RIdle.

Lemma demo_run_runs : ev_run (exec DataBody) (init 0 demo_visitor) demo_run = Some (demo_race, []).
Proof. vm_compute. reflexivity. Qed.

Lemma routine_exclusive_witness :
  ev_run (exec DataBody) (init 0 demo_visitor) demo_run = Some (demo_race, []) ∧
  ∀ p q, procs demo_race !! p = Some q → holds q = true → p = 0%nat.
Proof.
  split; [apply demo_run_runs|]. intros p q Hp Hq.
  destruct (routine_exclusive DataBody 0 demo_visitor demo_run demo_race [] demo_run_runs) as [H _].
  by apply (H p 0%nat q PRunning).
Defined.

(** Messages arrive while the routine goes to wait: it is woken, once by the
    first channel; the ring of length one has kept the last. *)
Definition demo_park : list (label (nat * nat)) :=
  (Poll 0 :: steps 8 1 CbReturn ++ [Write 0 (0%nat, 7%nat); Write 1 (1%nat, 4%nat); Notify 0; Notify 0; Write 0 (0%nat, 9%nat); Notify 0; Notify 0] ++ steps 2 1 CbReturn).

Definition demo_parked : sys (list nat) (visitor (T := nat)) :=
  mkSys (mkCRoutine DATA_WAIT 0 false false false) Top (put (0%nat, 9%nat) (put (1%nat, 4%nat) (put (0%nat, 7%nat) demo_visitor))) true true true ∅ ∅ RIdle.

Lemma demo_park_runs : ev_run (exec DataBody) (init 0 demo_visitor) demo_park = Some (demo_parked, []).
Proof. vm_compute. reflexivity. Qed.

Lemma data_arrival_wakes_routine_witness :
  ∃ k s', ev_run (exec DataBody) demo_parked (Poll 3 :: replicate k (Step 3 5 CbReturn)) = Some (s', []) ∧
    code_ s' = Callback [9%nat; 4%nat].
Proof.
  destruct (data_arrival_wakes_routine 0 demo_visitor demo_park demo_parked [] 3 5
    ltac:(by repeat constructor) demo_park_runs eq_refl eq_refl) as [H _].
  destruct (fetch (mailbox demo_parked)) as [[m rest]|] eqn:E; [|vm_compute in E; discriminate E].
  destruct (H m rest eq_refl eq_refl) as (k & s' & H1 & H2 & _). exists k, s'. split; [exact H1|]. vm_compute in E. injection E as <- _. exact H2.
Defined.
