(* ===== verification/GlobalData.v ===== *)
(** * Names and their numbers

    The registries of [GlobalData] ([src/code/cyber/common/global_data.h],
    [global_data.cc]): nodes, channels, services and tasks have 64-bit ids, the
    hash of the name or, when that is taken by another name, the next free
    number.  The maps are used through [KVStore]; the hash function is a
    parameter.  [Section Race] interleaves two registrations. *)

From stdpp Require Import base list strings gmap fin_maps.
From S2P Require Import Prelude AtomicHashMap.

Section Registry.
Context {DM : Type} `{!KVStore DM string, !KVStoreLaws DM string}.
Context (Hash : string → Z) (Hash_u64 : ∀ s, in_u 64 (Hash s)).
Implicit Types m : DM.

(** [++id] on [uint64_t]. *)
Definition next_id (id : Z) : Z := u64 (id + 1).

(** The loop of [RegisterNode], [RegisterChannel], [RegisterService] and
    [RegisterTaskName], which are the same function on four maps. *)
Fixpoint probe (fuel : nat) m (name : string) (id : Z) : option Z :=
  match fuel with
  | O => None
  | S fuel =>
      match kv_get id m with
      | None => Some id
      | Some n => if decide (name = n) then Some id else probe fuel m name (next_id id)
      end
  end.

Definition Register (fuel : nat) m (name : string) : option (Z * DM) :=
  match probe fuel m name (Hash name) with
  | Some id => Some (id, kv_set id name m)
  | None => None
  end.

(** [GetNodeById], [GetChannelById], [GetServiceById], [GetTaskNameById]. *)
Definition GetById m (id : Z) : string :=
  match kv_get id m with Some n => n | None => EmptyString end.

(** Names registered one after the other, with their ids. *)
Fixpoint RegisterAll (fuel : nat) m (ns : list string) : option (list Z * DM) :=
  match ns with
  | [] => Some ([], m)
  | n :: ns =>
      match Register fuel m n with
      | Some (id, m1) =>
          match RegisterAll fuel m1 ns with
          | Some (ids, m2) => Some (id :: ids, m2)
          | None => None
          end
      | None => None
      end
  end.

(** The [k]-th number tried for a name. *)
Definition slot (name : string) (k : nat) : Z := u64 (Hash name + Z.of_nat k).

Lemma slot_u64 name k : in_u 64 (slot name k).
Proof using Type. apply wrap_bound. lia. Qed.

Lemma slot_0 name : slot name 0 = Hash name.
Proof using Hash_u64. unfold slot. rewrite Z.add_0_r. by apply wrap_small. Qed.

Lemma slot_S name k : next_id (slot name k) = slot name (S k).
Proof using Type. unfold next_id, slot. autorewrite with cyber. f_equal. lia. Qed.

Lemma slot_inj name j k :
  Z.of_nat j < 2 ^ 64 → Z.of_nat k < 2 ^ 64 → slot name j = slot name k → j = k.
Proof using Type.
  unfold slot, wrap. intros Hj Hk H.
  destruct (decide (j ≤ k)%nat).
  - apply (ring_index_inj (2 ^ 64)) in H; lia.
  - symmetry in H. apply (ring_index_inj (2 ^ 64)) in H; lia.
Qed.

(** [name] is at the [k]-th number tried for it, and others are before it. *)
Definition sits m (name : string) (k : nat) : Prop :=
  kv_get (slot name k) m = Some name ∧
  ∀ j, (j < k)%nat → ∃ n, kv_get (slot name j) m = Some n ∧ n ≠ name.

Record registry_ok m (ns : list string) : Prop := {
  ok_wf : kv_wf m;
  ok_sits : ∀ n, n ∈ ns → ∃ k, (k < length ns)%nat ∧ sits m n k;
  ok_only : ∀ id n, in_u 64 id → kv_get id m = Some n →
    n ∈ ns ∧ ∃ k, (k < length ns)%nat ∧ id = slot n k ∧ sits m n k;
}.

(** A name sits at one place only. *)
Lemma sits_fun m n j k : sits m n j → sits m n k → j = k.
Proof using Type.
  intros [Hj Hj'] [Hk Hk']. destruct (lt_eq_lt_dec j k) as [[H|H]|H]; [|done|].
  - destruct (Hk' j H) as (x & Hx & ?). congruence.
  - destruct (Hj' k H) as (x & Hx & ?). congruence.
Qed.

(** The numbers below the [k]-th are taken by other names. *)
Definition others m (name : string) (k : nat) : Prop :=
  ∀ j, (j < k)%nat → ∃ n, kv_get (slot name j) m = Some n ∧ n ≠ name.

Lemma probe_spec fuel m name j :
  others m name j →
  (∃ k, (j ≤ k < j + fuel)%nat ∧ probe fuel m name (slot name j) = Some (slot name k) ∧ others m name k ∧
    (kv_get (slot name k) m = None ∨ kv_get (slot name k) m = Some name)) ∨
  (probe fuel m name (slot name j) = None ∧ others m name (j + fuel)).
Proof using Type.
  revert j. induction fuel as [|fuel IH]; intros j Ho; simpl.
  { right. by rewrite Nat.add_0_r. }
  destruct (kv_get (slot name j) m) as [n|] eqn:E; [destruct (decide (name = n)) as [<-|Hne]|].
  - left. exists j. split_and!; auto; lia.
  - rewrite slot_S. assert (Ho' : others m name (S j)).
    { intros i Hi. destruct (decide (i = j)) as [->|]; [by exists n|]. apply Ho. lia. }
    destruct (IH (S j) Ho') as [(k & ? & ? & ? & ?)|[? ?]].
    + left. exists k. split_and!; auto; lia.
    + right. split; [done|]. by replace (j + S fuel)%nat with (S j + fuel)%nat by lia.
  - left. exists j. split_and!; auto; lia.
Qed.

(** As many names as numbers: not more than [length ns] can be taken. *)
Lemma others_bound m ns name k :
  registry_ok m ns → Z.of_nat (length ns) < 2 ^ 64 → others m name k → (k ≤ length ns)%nat.
Proof using Type.
  intros Hok Hlen Ho. destruct (decide (k ≤ length ns)%nat) as [|Hgt]; [done|exfalso].
  assert (Hsub : (λ j, GetById m (slot name j)) <$> seq 0 (S (length ns)) ⊆+ ns).
  { apply NoDup_submseteq.
    - apply NoDup_fmap_2_strong; [|apply NoDup_seq].
      intros i j Hi%elem_of_seq Hj%elem_of_seq. unfold GetById.
      destruct (Ho i) as (a & Ea & _); [lia|]. destruct (Ho j) as (b & Eb & _); [lia|].
      rewrite Ea, Eb. intros <-.
      destruct (ok_only m ns Hok _ _ (slot_u64 _ _) Ea) as (_ & x & _ & Ex & Sx).
      destruct (ok_only m ns Hok _ _ (slot_u64 _ _) Eb) as (_ & y & _ & Ey & Sy).
      assert (x = y) as -> by by eapply sits_fun. apply (slot_inj name); [lia..|]. congruence.
    - intros n (j & -> & Hj%elem_of_seq)%list_elem_of_fmap.
      destruct (Ho j) as (a & Ea & _); [lia|]. unfold GetById. rewrite Ea.
      by destruct (ok_only m ns Hok _ _ (slot_u64 _ _) Ea). }
  apply submseteq_length in Hsub. rewrite length_fmap, length_seq in Hsub. lia.
Qed.

(** One registration: it ends, and the name sits at its number. *)
Lemma Register_ok m ns name fuel :
  registry_ok m ns → Z.of_nat (length ns) < 2 ^ 64 → (length ns < fuel)%nat →
  ∃ k m', Register fuel m name = Some (slot name k, m') ∧ registry_ok m' (ns ++ [name]) ∧ sits m' name k ∧
    ∀ n j, sits m n j → sits m' n j.
Proof using Hash_u64 KVStoreLaws0.
  intros Hok Hlen Hfuel. unfold Register. rewrite <- slot_0.
  destruct (probe_spec fuel m name 0) as [(k & _ & -> & Ho & Hat)|[_ Ho]]; [by intros j ?; lia| |].
  2: { apply (others_bound m ns) in Ho; [lia|done..]. }
  pose proof (others_bound m ns name k Hok Hlen Ho) as Hk.
  assert (Hget : ∀ id, in_u 64 id → kv_get id (kv_set (slot name k) name m) =
    if decide (slot name k = id) then Some name else kv_get id m).
  { intros id Hid. apply kv_get_set; [apply slot_u64|done|apply Hok]. }
  assert (Hkeep : ∀ id n, in_u 64 id → kv_get id m = Some n → kv_get id (kv_set (slot name k) name m) = Some n).
  { intros id n Hid Hn. rewrite Hget by done. destruct (decide (slot name k = id)) as [<-|]; [|done].
    destruct Hat; congruence. }
  assert (Hsits : ∀ n j, sits m n j → sits (kv_set (slot name k) name m) n j).
  { intros n j [H1 H2]. split; [by apply Hkeep; [apply slot_u64|]|].
    intros i Hi. destruct (H2 i Hi) as (x & Hx & ?). exists x. split; [|done]. by apply Hkeep; [apply slot_u64|]. }
  assert (Hnew : sits (kv_set (slot name k) name m) name k).
  { split; [rewrite Hget by apply slot_u64; by rewrite decide_True|].
    intros i Hi. destruct (Ho i Hi) as (x & Hx & ?). exists x. split; [|done]. by apply Hkeep; [apply slot_u64|]. }
  exists k, (kv_set (slot name k) name m). split; [done|]. split; [|done].
  split; rewrite ?length_app; simpl.
  - apply kv_wf_set; [apply slot_u64|apply Hok].
  - intros n [Hn| ->%list_elem_of_singleton]%elem_of_app.
    + destruct (ok_sits m ns Hok n Hn) as (j & ? & ?). exists j. split; [lia|auto].
    + exists k. split; [lia|done].
  - intros id n Hid Hn. rewrite Hget in Hn by done.
    destruct (decide (slot name k = id)) as [<-|]; [simplify_eq|].
    + split; [set_solver|]. exists k. split_and!; [lia|done..].
    + destruct (ok_only m ns Hok id n Hid Hn) as (? & j & ? & -> & ?).
      split; [set_solver|]. exists j. split_and!; [lia|done|auto].
Qed.

Lemma registry_ok_empty : registry_ok kv_empty [].
Proof using KVStoreLaws0.
  split; [apply kv_wf_empty|by intros n ?%elem_of_nil|].
  intros id n Hid. by rewrite kv_get_empty.
Qed.

Lemma RegisterAll_ok ns m ms fuel :
  registry_ok m ms → Z.of_nat (length (ms ++ ns)) < 2 ^ 64 → (length (ms ++ ns) < fuel)%nat →
  ∃ ids m', RegisterAll fuel m ns = Some (ids, m') ∧ registry_ok m' (ms ++ ns) ∧
    Forall2 (λ n id, ∃ k, id = slot n k ∧ sits m' n k) ns ids ∧ ∀ n j, sits m n j → sits m' n j.
Proof using Hash_u64 KVStoreLaws0.
  revert m ms. induction ns as [|n ns IH]; intros m ms Hok Hlen Hfuel; simpl.
  { exists [], m. rewrite app_nil_r. auto. }
  rewrite length_app in Hlen, Hfuel. simpl in Hlen, Hfuel.
  destruct (Register_ok m ms n fuel Hok) as (k & m1 & -> & Hok1 & Hs & Hk1); [lia..|].
  destruct (IH m1 (ms ++ [n]) Hok1) as (ids & m2 & -> & Hok2 & Hall & Hk2);
    [rewrite !length_app; simpl; lia..|].
  rewrite <- (assoc_L (++)) in Hok2. exists (slot n k :: ids), m2. split_and!; auto.
  constructor; [|done]. exists k. auto.
Qed.

(** Property: registration of fewer than [2^64] names ends and is faithful: every
    name has one id, different names have different ids even when their hashes
    collide, and the id of a name gives the name back however many names were
    registered since. *)
Theorem register_roundtrip ns fuel :
  Z.of_nat (length ns) < 2 ^ 64 → (length ns < fuel)%nat →
  ∃ ids m, RegisterAll fuel kv_empty ns = Some (ids, m) ∧ length ids = length ns ∧
    ∀ i j n n' a b, ns !! i = Some n → ns !! j = Some n' → ids !! i = Some a → ids !! j = Some b →
      GetById m a = n ∧ (a = b ↔ n = n').
Proof using Hash_u64 KVStoreLaws0.
  intros Hlen Hfuel.
  destruct (RegisterAll_ok ns kv_empty [] fuel registry_ok_empty Hlen Hfuel) as (ids & m & Hr & Hok & Hall & _).
  exists ids, m. split; [done|]. split; [by symmetry; eapply Forall2_length|].
  assert (Hat : ∀ i n a, ns !! i = Some n → ids !! i = Some a → ∃ k, a = slot n k ∧ sits m n k).
  { intros i n a Hn Ha. by apply (Forall2_lookup_lr _ _ _ _ _ _ Hall Hn Ha). }
  assert (Hget : ∀ i n a, ns !! i = Some n → ids !! i = Some a → GetById m a = n).
  { intros i n a Hn Ha. destruct (Hat i n a Hn Ha) as (k & -> & Hk & _). unfold GetById. by rewrite Hk. }
  intros i j n n' a b Hn Hn' Ha Hb. split; [by eapply Hget|]. split.
  - intros <-. rewrite <- (Hget i n a Hn Ha). by eapply Hget.
  - intros <-. destruct (Hat i n a Hn Ha) as (x & -> & Hx). destruct (Hat j n b Hn' Hb) as (y & -> & Hy).
    f_equal. by eapply sits_fun.
Qed.

End Registry.

(** ** Two registrations at once

    Each access to the map is a step.  A thread is before [Has], before [Get],
    or before [Set]. *)
Section Race.
Context (Hash : string → Z).

Inductive reg_pc := RHas (id : Z) | RGet (id : Z) | RSet (id : Z).

Record reg_sys := mkReg { id_map_ : gmap Z string; reg_threads : gmap nat (string * reg_pc) }.

Inductive reg_label := RegStart (t : nat) (name : string) | RegStep (t : nat).

Definition reg_exec (s : reg_sys) (l : reg_label) : option (reg_sys * option (string * Z)) :=
  match l with
  | RegStart t name =>
      match reg_threads s !! t with
      | Some _ => None
      | None => Some (mkReg (id_map_ s) (<[t := (name, RHas (Hash name))]> (reg_threads s)), None)
      end
  | RegStep t =>
      match reg_threads s !! t with
      | None => None
      | Some (name, pc) =>
          let goto pc := Some (mkReg (id_map_ s) (<[t := (name, pc)]> (reg_threads s)), None) in
          match pc with
          | RHas id => match id_map_ s !! id with Some _ => goto (RGet id) | None => goto (RSet id) end
          | RGet id =>
              match id_map_ s !! id with
              | Some n => if decide (name = n) then goto (RSet id) else goto (RHas (next_id id))
              | None => None
              end
          | RSet id => Some (mkReg (<[id := name]> (id_map_ s)) (delete t (reg_threads s)), Some (name, id))
          end
      end
  end.

Lemma reg_has_free s t name id :
  reg_threads s !! t = Some (name, RHas id) → id_map_ s !! id = None →
  reg_exec s (RegStep t) = Some (mkReg (id_map_ s) (<[t := (name, RSet id)]> (reg_threads s)), None).
Proof. simpl. by intros -> ->. Qed.

(** Property: the check and the set of a registration are two steps: two names with
    one hash that are registered at the same time get the same id, and the
    first one's name is lost. *)
Theorem register_race_shares_id n n' :
  Hash n = Hash n' →
  ∃ ls s, ev_run reg_exec (mkReg ∅ ∅) ls = Some (s, [(n, Hash n); (n', Hash n)]) ∧
    id_map_ s !! Hash n = Some n'.
Proof.
  intros He. exists [RegStart 0 n; RegStart 1 n'; RegStep 0; RegStep 1; RegStep 0; RegStep 1].
  exists (mkReg (<[Hash n := n']> (<[Hash n := n]> ∅)) ∅). split; [|by simpl; rewrite lookup_insert_eq].
  eapply ev_run_silent; [done|]. eapply ev_run_silent; [done|].
  eapply ev_run_silent; [by apply reg_has_free|].
  eapply ev_run_silent; [by apply reg_has_free|].
  eapply ev_run_event; [done|]. rewrite <- He. by eapply ev_run_event.
Qed.

End Race.

(** ** Components by the name of their node *)
Section Components.
Context {P : Type}.

Definition component_map := gmap string P.

(** The pointer may be null. *)
Definition RegisterComponent (m : component_map) (node_name : string) (p : option P) : bool * component_map :=
  match p with
  | Some c =>
      if decide (node_name = EmptyString) then (false, m)
      else match m !! node_name with Some _ => (false, m) | None => (true, <[node_name := c]> m) end
  | None => (false, m)
  end.

Definition GetComponentAs (m : component_map) (node_name : string) : option P :=
  if decide (node_name = EmptyString) then None else m !! node_name.

Definition ClearComponent (m : component_map) : component_map := ∅.

(** A component is registered once, under a name that is not empty, and is
    found from then on. *)
Theorem component_registered_once m n p b m' :
  RegisterComponent m n p = (b, m') →
  (b = true ↔ n ≠ EmptyString ∧ is_Some p ∧ GetComponentAs m n = None) ∧
  ∀ n', GetComponentAs m' n' = if decide (b = true ∧ n' = n) then p else GetComponentAs m n'.
Proof.
  unfold RegisterComponent, GetComponentAs. intros H.
  destruct p as [c|]; [destruct (decide (n = EmptyString)) as [->|Hn]; [|destruct (m !! n) eqn:E]|];
    simplify_eq; (split; [naive_solver|intros n']).
  1-2: rewrite (decide_False (P := _ ∧ _)) by naive_solver; done.
  - destruct (decide (true = true ∧ n' = n)) as [[_ ->]|Hne].
    + rewrite decide_False by done. apply lookup_insert_eq.
    + case_decide; [done|]. apply lookup_insert_ne. naive_solver.
  - rewrite (decide_False (P := _ ∧ _)) by naive_solver. done.
Qed.
End Components.

Lemma register_roundtrip_witness :
  Z.of_nat (length ["/a"; "/b"; "/a"]%string) < 2 ^ 64 ∧
  ∃ ids m, RegisterAll (DM := AtomicHashMap string) (λ _, 5) 4 kv_empty ["/a"; "/b"; "/a"]%string = Some (ids, m) ∧
    length ids = 3%nat ∧
    ∀ i j n n' a b, ["/a"; "/b"; "/a"]%string !! i = Some n → ["/a"; "/b"; "/a"]%string !! j = Some n' →
      ids !! i = Some a → ids !! j = Some b → GetById m a = n ∧ (a = b ↔ n = n').
Proof.
  split; [done|]. apply (register_roundtrip (λ _, 5)); [|done|simpl; lia].
  intros _. unfold in_u. lia.
Defined.

Lemma register_race_shares_id_witness :
  ∃ ls s, ev_run (reg_exec (λ _, 5)) (mkReg ∅ ∅) ls = Some (s, [("/a"%string, 5); ("/b"%string, 5)]) ∧
    id_map_ s !! 5 = Some "/b"%string.
Proof. exact (register_race_shares_id (λ _, 5) "/a"%string "/b"%string eq_refl). Defined.
