(* ===== verification/Scheduler.v ===== *)
(** * The scheduler

    Which coroutine a processor runs next: [ClassicContext] and
    [ChoreographyContext] ([src/code/cyber/scheduler/policy]), the two
    schedulers [SchedulerClassic] and [SchedulerChoreography] that put a new
    coroutine into a queue, notify it and remove it, and [Scheduler]
    ([scheduler.cc]) above them.  An operation holds the mutex of its id and the
    locks of the queues, so it is one step here; [Croutine] interleaves the
    accesses inside one.  A removal waits for the coroutine to be released: it
    is the step at which that wait ends.  [CreateTask] and [Shutdown] hold no
    lock over the whole and are several steps ([creating], [closing]). *)

From stdpp Require Import base list strings gmap fin_maps.
From S2P Require Import Prelude AtomicHashMap Croutine GlobalData.

Definition MAX_PRIO : Z := 20.
Definition DEFAULT_GROUP_NAME : string := "default_grp".

(** The fields of [CRoutine] that the scheduler sets; [base_] has the others. *)
Record Routine := mkRoutine {
  id_ : Z; name_ : string; priority_ : Z; group_name_ : string; processor_id_ : Z; base_ : CRoutine }.

Definition with_base (r : Routine) (c : CRoutine) : Routine :=
  mkRoutine (id_ r) (name_ r) (priority_ r) (group_name_ r) (processor_id_ r) c.

Definition set_priority (p : Z) (r : Routine) : Routine :=
  mkRoutine (id_ r) (name_ r) p (group_name_ r) (processor_id_ r) (base_ r).

Definition set_group_name (g : string) (r : Routine) : Routine :=
  mkRoutine (id_ r) (name_ r) (priority_ r) g (processor_id_ r) (base_ r).

Definition set_processor_id (p : Z) (r : Routine) : Routine :=
  mkRoutine (id_ r) (name_ r) (priority_ r) (group_name_ r) p (base_ r).

(** Coroutines by address: the queues and [id_cr_] share them. *)
Abbreviation heap := (gmap nat Routine).

(** ** A queue

    The loop of both [NextRoutine] over one queue. *)
Fixpoint scan (now : Z) (h : heap) (q : list nat) : option nat * heap :=
  match q with
  | [] => (None, h)
  | a :: q =>
      match h !! a with
      | None => scan now h q
      | Some r =>
          let '(ok, c) := Acquire (base_ r) in
          if ok then
            let c := UpdateState now c in
            if decide (state_ c = READY) then (Some a, <[a := with_base r c]> h)
            else scan now (<[a := with_base r (Release c)]> h) q
          else scan now (<[a := with_base r c]> h) q
      end
  end.

(** The first element of a queue with a given id. *)
Fixpoint find_id (h : heap) (q : list nat) (crid : Z) : option nat :=
  match q with
  | [] => None
  | a :: q =>
      match h !! a with
      | Some r => if decide (id_ r = crid) then Some a else find_id h q crid
      | None => find_id h q crid
      end
  end.

(** [erase] of the element found. *)
Definition erase (a : nat) (q : list nat) : list nat := filter (λ x, x ≠ a) q.

(** [std::multimap] with [std::greater]: descending, equal keys in the order of
    insertion. *)
Fixpoint emplace (p : Z) (a : nat) (q : list (Z * nat)) : list (Z * nat) :=
  match q with
  | [] => [(p, a)]
  | (p', a') :: q' => if p' <? p then (p, a) :: q else (p', a') :: emplace p a q'
  end.

(** ** The state *)

Record ChoreographyContext := mkChoreo { cr_queue_ : list (Z * nat); notify_ : Z; choreo_stop : bool }.

(** Twenty queues per group. *)
Definition MULTI_PRIO_QUEUE := list (list nat).

Record sched := mkSched {
  stop_ : bool;
  objects : heap; next_addr : nat;
  id_cr_ : gmap Z nat;
  cr_group_ : gmap string MULTI_PRIO_QUEUE;
  notify_grp_ : gmap string Z;
  choreos : list ChoreographyContext;     (* the first [proc_num_] of [pctxs_] *)
  classic_stop : bool;                    (* [stop_] of the classic contexts *)
  held : gmap nat nat;                    (* what the processors run *)
}.

Inductive policy := Classic | Choreography.

(** The configuration: the groups of the classic policy, what it says about a
    task by name (priority and group; priority and processor), and the number
    of choreography processors. *)
Record conf := mkConf {
  policy_ : policy;
  groups : list string;
  classic_confs : gmap string (Z * string);
  choreo_confs : gmap string (Z * option Z);
  proc_num_ : Z;
}.

Definition with_objects (s : sched) (h : heap) : sched :=
  mkSched (stop_ s) h (next_addr s) (id_cr_ s) (cr_group_ s) (notify_grp_ s) (choreos s) (classic_stop s) (held s).

Definition with_id_cr (s : sched) (m : gmap Z nat) : sched :=
  mkSched (stop_ s) (objects s) (next_addr s) m (cr_group_ s) (notify_grp_ s) (choreos s) (classic_stop s) (held s).

Definition with_groups (s : sched) (m : gmap string MULTI_PRIO_QUEUE) : sched :=
  mkSched (stop_ s) (objects s) (next_addr s) (id_cr_ s) m (notify_grp_ s) (choreos s) (classic_stop s) (held s).

Definition with_notify (s : sched) (m : gmap string Z) : sched :=
  mkSched (stop_ s) (objects s) (next_addr s) (id_cr_ s) (cr_group_ s) m (choreos s) (classic_stop s) (held s).

Definition with_choreos (s : sched) (l : list ChoreographyContext) : sched :=
  mkSched (stop_ s) (objects s) (next_addr s) (id_cr_ s) (cr_group_ s) (notify_grp_ s) l (classic_stop s) (held s).

Definition with_held (s : sched) (m : gmap nat nat) : sched :=
  mkSched (stop_ s) (objects s) (next_addr s) (id_cr_ s) (cr_group_ s) (notify_grp_ s) (choreos s) (classic_stop s) m.

Definition modify_object (a : nat) (f : Routine → Routine) (s : sched) : sched :=
  with_objects s (alter f a (objects s)).

(** ** [ClassicContext] *)

Definition empty_queues : MULTI_PRIO_QUEUE := replicate 20 [].

(** [cr_group_[group]]: the entry is made when it is missing. *)
Definition group_queues (s : sched) (group : string) : MULTI_PRIO_QUEUE :=
  default empty_queues (cr_group_ s !! group).

Definition pool_queue (s : sched) (group : string) (prio : Z) : list nat :=
  default [] (zget (group_queues s group) prio).

Definition set_pool_queue (group : string) (prio : Z) (q : list nat) (s : sched) : sched :=
  with_groups s (<[group := zset (group_queues s group) prio q]> (cr_group_ s)).

Definition InitGroup (group : string) (s : sched) : sched :=
  with_notify (with_groups s (<[group := group_queues s group]> (cr_group_ s))) (<[group := 0]> (notify_grp_ s)).

(** The loop from the highest priority down to 0; [n] priorities are left. *)
Fixpoint next_prio (now : Z) (s : sched) (group : string) (n : nat) : option nat * sched :=
  match n with
  | O => (None, s)
  | S i =>
      match scan now (objects s) (pool_queue s group (Z.of_nat i)) with
      | (Some a, h) => (Some a, with_objects s h)
      | (None, h) => next_prio now (with_objects s h) group i
      end
  end.

Definition ClassicContext_NextRoutine (now : Z) (s : sched) (group : string) : option nat * sched :=
  if classic_stop s then (None, s) else next_prio now s group (Z.to_nat MAX_PRIO).

Definition ClassicContext_Notify (group : string) (s : sched) : sched :=
  with_notify s (<[group := default 0 (notify_grp_ s !! group) + 1]> (notify_grp_ s)).

(** Whether [Wait] may return ([timeout]: a second has passed), and what it
    leaves. *)
Definition ClassicContext_Wait (timeout : bool) (group : string) (s : sched) : option sched :=
  let n := default 0 (notify_grp_ s !! group) in
  if 0 <? n then Some (with_notify s (<[group := n - 1]> (notify_grp_ s)))
  else if timeout then Some s else None.

(** [None]: the loop waits for the coroutine to be released. *)
Definition ClassicContext_RemoveCRoutine (a : nat) (s : sched) : option (bool * sched) :=
  match objects s !! a with
  | None => Some (false, s)
  | Some r =>
      let q := pool_queue s (group_name_ r) (priority_ r) in
      match find_id (objects s) q (id_ r) with
      | None => Some (false, s)
      | Some b =>
          match objects s !! b with
          | None => Some (false, s)
          | Some r' =>
              if lock_ (base_ r') then None
              else Some (true, set_pool_queue (group_name_ r) (priority_ r) (erase b q)
                                 (modify_object b (λ x, with_base x (Stop (base_ x))) s))
          end
      end
  end.

(** ** [ChoreographyContext] *)

Definition ChoreographyContext_NextRoutine (now : Z) (h : heap) (x : ChoreographyContext) : option nat * heap :=
  if choreo_stop x then (None, h) else scan now h (cr_queue_ x).*2.

Definition Enqueue (p : Z) (a : nat) (x : ChoreographyContext) : ChoreographyContext :=
  mkChoreo (emplace p a (cr_queue_ x)) (notify_ x) (choreo_stop x).

Definition ChoreographyContext_Notify (x : ChoreographyContext) : ChoreographyContext :=
  mkChoreo (cr_queue_ x) (notify_ x + 1) (choreo_stop x).

Definition ChoreographyContext_Wait (timeout : bool) (x : ChoreographyContext) : option ChoreographyContext :=
  if 0 <? notify_ x then Some (mkChoreo (cr_queue_ x) (notify_ x - 1) (choreo_stop x))
  else if timeout then Some x else None.

(** [std::numeric_limits<unsigned char>::max()]. *)
Definition ChoreographyContext_Shutdown (x : ChoreographyContext) : ChoreographyContext :=
  mkChoreo (cr_queue_ x) 255 true.

Definition choreo_erase (a : nat) (x : ChoreographyContext) : ChoreographyContext :=
  mkChoreo (filter (λ e, e.2 ≠ a) (cr_queue_ x)) (notify_ x) (choreo_stop x).

Definition ChoreographyContext_RemoveCRoutine (crid : Z) (i : Z) (s : sched) : option (bool * sched) :=
  match zget (choreos s) i with
  | None => None
  | Some x =>
      match find_id (objects s) (cr_queue_ x).*2 crid with
      | None => Some (false, s)
      | Some b =>
          match objects s !! b with
          | None => Some (false, s)
          | Some r' =>
              if lock_ (base_ r') then None
              else Some (true, with_choreos (modify_object b (λ x, with_base x (Stop (base_ x))) s)
                                 (zset (choreos s) i (choreo_erase b x)))
          end
      end
  end.

(** ** Dispatch, notification and removal *)

(** What the configuration and the clamp make of a new coroutine; [None] when
    there is no group 0. *)
Definition classic_assign (cf : conf) (r : Routine) : option Routine :=
  let r :=
    match classic_confs cf !! name_ r with
    | Some (prio, group) => Some (set_group_name group (set_priority prio r))
    | None => match groups cf with g :: _ => Some (set_group_name g r) | [] => None end
    end in
  match r with
  | Some r => Some (if MAX_PRIO <=? priority_ r then set_priority (MAX_PRIO - 1) r else r)
  | None => None
  end.

Definition choreo_assign (cf : conf) (r : Routine) : Routine :=
  match choreo_confs cf !! name_ r with
  | Some (prio, proc) =>
      let r := set_priority prio r in
      match proc with Some p => set_processor_id p r | None => r end
  | None => r
  end.

(** [uint32_t pid = cr->processor_id()]. *)
Definition pid_of (r : Routine) : Z := u32 (processor_id_ r).

Definition pool_assign (r : Routine) : Routine :=
  set_group_name DEFAULT_GROUP_NAME
    (if MAX_PRIO <=? priority_ r then set_priority (MAX_PRIO - 1) r else r).

Definition alloc (r : Routine) (s : sched) : sched :=
  mkSched (stop_ s) (<[next_addr s := r]> (objects s)) (S (next_addr s)) (<[id_ r := next_addr s]> (id_cr_ s))
    (cr_group_ s) (notify_grp_ s) (choreos s) (classic_stop s) (held s).

Definition push (a : nat) (r : Routine) (s : sched) : sched :=
  set_pool_queue (group_name_ r) (priority_ r) (pool_queue s (group_name_ r) (priority_ r) ++ [a]) s.

Definition SchedulerClassic_DispatchTask (cf : conf) (r : Routine) (s : sched) : option (bool * sched) :=
  match id_cr_ s !! id_ r with
  | Some _ => Some (false, s)
  | None =>
      match classic_assign cf r with
      | None => None
      | Some r => Some (true, ClassicContext_Notify (group_name_ r) (push (next_addr s) r (alloc r s)))
      end
  end.

Definition SchedulerChoreography_DispatchTask (cf : conf) (r : Routine) (s : sched) : option (bool * sched) :=
  let r := choreo_assign cf r in
  match id_cr_ s !! id_ r with
  | Some _ => Some (false, s)
  | None =>
      if pid_of r <? proc_num_ cf then
        match zget (choreos s) (pid_of r) with
        | None => None
        | Some x =>
            Some (true, with_choreos (alloc r s)
                          (zset (choreos s) (pid_of r) (Enqueue (priority_ r) (next_addr s) x)))
        end
      else
        let r := pool_assign r in
        Some (true, push (next_addr s) r (alloc r s))
  end.

Definition DispatchTask (cf : conf) : Routine → sched → option (bool * sched) :=
  match policy_ cf with
  | Classic => SchedulerClassic_DispatchTask cf
  | Choreography => SchedulerChoreography_DispatchTask cf
  end.

Definition flag (r : Routine) : Routine :=
  if waits (state_ (base_ r)) then with_base r (SetUpdateFlag (base_ r)) else r.

Definition notify_context (cf : conf) (r : Routine) (s : sched) : sched :=
  match policy_ cf with
  | Classic => ClassicContext_Notify (group_name_ r) s
  | Choreography =>
      if pid_of r <? proc_num_ cf then
        match zget (choreos s) (pid_of r) with
        | Some x => with_choreos s (zset (choreos s) (pid_of r) (ChoreographyContext_Notify x))
        | None => s
        end
      else ClassicContext_Notify (group_name_ r) s
  end.

Definition NotifyProcessor (cf : conf) (crid : Z) (s : sched) : bool * sched :=
  if stop_ s then (true, s)
  else
    match id_cr_ s !! crid with
    | None => (false, s)
    | Some a =>
        match objects s !! a with
        | None => (false, s)
        | Some r => (true, notify_context cf r (modify_object a flag s))
        end
    end.

Definition context_remove (cf : conf) (a : nat) (r : Routine) (s : sched) : option (bool * sched) :=
  match policy_ cf with
  | Classic => ClassicContext_RemoveCRoutine a s
  | Choreography =>
      if pid_of r <? proc_num_ cf then ChoreographyContext_RemoveCRoutine (id_ r) (pid_of r) s
      else ClassicContext_RemoveCRoutine a s
  end.

Definition RemoveCRoutine (cf : conf) (crid : Z) (s : sched) : option (bool * sched) :=
  match id_cr_ s !! crid with
  | None => Some (false, s)
  | Some a =>
      match objects s !! a with
      | None => Some (false, s)
      | Some r =>
          context_remove cf a r
            (with_id_cr (modify_object a (λ x, with_base x (Stop (base_ x))) s) (delete crid (id_cr_ s)))
      end
  end.

(** ** [Scheduler] *)

Definition NewRoutine (task_id : Z) (name : string) (now : Z) : Routine :=
  mkRoutine task_id name 0 EmptyString (-1) (CRoutine_new now).

Definition NotifyTask (cf : conf) (crid : Z) (s : sched) : bool * sched :=
  if stop_ s then (true, s) else NotifyProcessor cf crid s.

Definition RemoveTask (GenerateHashId : string → Z) (cf : conf) (name : string) (s : sched) : option (bool * sched) :=
  if stop_ s then Some (true, s) else RemoveCRoutine cf (GenerateHashId name) s.

(** The groups that classic contexts are bound to. *)
Definition context_groups (cf : conf) : list string :=
  match policy_ cf with Classic => groups cf | Choreography => [DEFAULT_GROUP_NAME] end.

(** [Shutdown] of every context. *)
Definition shutdown_contexts (cf : conf) (s : sched) : sched :=
  mkSched (stop_ s) (objects s) (next_addr s) (id_cr_ s) (cr_group_ s)
    (foldr (λ g, <[g := 255]>) (notify_grp_ s) (context_groups cf))
    (ChoreographyContext_Shutdown <$> choreos s) true (held s).

(** The contexts that the constructors of the two schedulers make. *)
Definition sched_new (cf : conf) : sched :=
  foldr InitGroup
    (mkSched false ∅ 0 ∅ ∅ ∅
       (match policy_ cf with
        | Classic => []
        | Choreography => replicate (Z.to_nat (proc_num_ cf)) (mkChoreo [] 0 false)
        end) false ∅)
    (context_groups cf).

(** ** Processors

    [InPool group] is bound to a classic context, [OnChoreo i] to the [i]-th
    choreography context. *)
Inductive context := InPool (group : string) | OnChoreo (i : Z).

Definition NextRoutine (now : Z) (x : context) (s : sched) : option nat * sched :=
  match x with
  | InPool group => ClassicContext_NextRoutine now s group
  | OnChoreo i =>
      match zget (choreos s) i with
      | None => (None, s)
      | Some c => let '(o, h) := ChoreographyContext_NextRoutine now (objects s) c in (o, with_objects s h)
      end
  end.

(** The body of [Processor::Run] up to the switch to the coroutine: a stopped
    one is finished and released at once. *)
Definition Resume (p a : nat) (s : sched) : sched :=
  match objects s !! a with
  | None => s
  | Some r =>
      if force_stop_ (base_ r)
      then modify_object a (λ x, with_base x (Release (set_state FINISHED (base_ x)))) s
      else with_held s (<[p := a]> (held s))
  end.

(** ** Calls that are under way

    Where [Shutdown] is: not called; [stop_] is set; the contexts are shut down;
    the ids are copied and those left are being removed; done, the processors
    joined. *)
Inductive closing_phase := COpen | CContexts | CCopy | CRemove (ids : list Z) | CDone.

(** [creating]: the threads that are in [CreateTask] and have found [stop_]
    unset, with the id that [RegisterTaskName] gives for the name, the name and
    the clock. *)
Record system := mkSystem { core :> sched; creating : gmap nat (Z * string * Z); closing : closing_phase }.

Definition system_new (cf : conf) : system := mkSystem (sched_new cf) ∅ COpen.

Definition on_core (y : system) (s : sched) : system := mkSystem s (creating y) (closing y).
Definition with_stop (s : sched) : sched :=
  mkSched true (objects s) (next_addr s) (id_cr_ s) (cr_group_ s) (notify_grp_ s) (choreos s) (classic_stop s) (held s).

(** [CreateTask] in thread [t]: the test of [stop_]; if it is set, the call
    returns false. *)
Definition CreateTask (t : nat) (task_id : Z) (name : string) (now : Z) (y : system) : option system :=
  match creating y !! t with
  | Some _ => None
  | None => Some (if stop_ y then y else mkSystem (core y) (<[t := (task_id, name, now)]> (creating y)) (closing y))
  end.

(** The rest of it: the coroutine is made and dispatched. *)
Definition CreateTask_dispatch (cf : conf) (t : nat) (y : system) : option system :=
  match creating y !! t with
  | None => None
  | Some (task_id, name, now) =>
      match DispatchTask cf (NewRoutine task_id name now) y with
      | Some (_, s) => Some (mkSystem s (delete t (creating y)) (closing y))
      | None => None
      end
  end.

(** The next step of [Shutdown].  A removal waits for the coroutine; [Stop] of
    the processors waits until each has switched back from its own. *)
Definition Shutdown (cf : conf) (y : system) : option system :=
  match closing y with
  | COpen => Some (mkSystem (with_stop y) (creating y) CContexts)
  | CContexts => Some (mkSystem (shutdown_contexts cf y) (creating y) CCopy)
  | CCopy => Some (mkSystem y (creating y) (CRemove (map_to_list (id_cr_ y)).*1))
  | CRemove (id :: ids) => match RemoveCRoutine cf id y with Some (_, s) => Some (mkSystem s (creating y) (CRemove ids)) | None => None end
  | CRemove [] => if decide (held y = ∅) then Some (mkSystem y (creating y) CDone) else None
  | CDone => None
  end.

Inductive op :=
| OCreate (t : nat) (task_id : Z) (name : string) (now : Z)
| ODispatch (t : nat)
| ONotify (crid : Z)
| ORemove (crid : Z)
| ONext (p : nat) (x : context) (now : Z)
| OSuspend (p : nat) (st : RoutineState) (until : Z)
| OWait (timeout : bool) (group : string)
| OWaitChoreo (timeout : bool) (i : Z)
| OShutdown.

(** A processor switches back from its coroutine, in state [st]. *)
Definition suspend_routine (st : RoutineState) (until : Z) (r : Routine) : Routine :=
  let c := base_ r in
  with_base r (mkCRoutine st (if decide (st = SLEEP) then until else wake_time_ c) false (updated_ c) (force_stop_ c)).

(** What needs no more than the tables. *)
Definition core_step (cf : conf) (s : sched) (o : op) : option sched :=
  match o with
  | ONotify crid => Some (NotifyTask cf crid s).2
  | ORemove crid => snd <$> RemoveCRoutine cf crid s
  | ONext p x now =>
      match held s !! p with
      | Some _ => None
      | None => match NextRoutine now x s with
                | (Some a, s) => Some (Resume p a s)
                | (None, s) => Some s
                end
      end
  | OSuspend p st until =>
      match held s !! p with
      | Some a => Some (modify_object a (suspend_routine st until) (with_held s (delete p (held s))))
      | None => None
      end
  | OWait timeout group => ClassicContext_Wait timeout group s
  | OWaitChoreo timeout i =>
      match zget (choreos s) i with
      | Some x => (λ x, with_choreos s (zset (choreos s) i x)) <$> ChoreographyContext_Wait timeout x
      | None => None
      end
  | OCreate _ _ _ _ | ODispatch _ | OShutdown => None
  end.

Definition step (cf : conf) (y : system) (o : op) : option system :=
  match o with
  | OCreate t id name now => CreateTask t id name now y
  | ODispatch t => CreateTask_dispatch cf t y
  | OShutdown => Shutdown cf y
  | o => on_core y <$> core_step cf y o
  end.

(** ** What one poll of a queue does *)

(** A coroutine that nobody has and that a poll at [now] finds ready. *)
Definition pollable (now : Z) (r : Routine) : Prop :=
  lock_ (base_ r) = false ∧ state_ (UpdateState now (base_ r)) = READY.

#[global] Instance pollable_dec now r : Decision (pollable now r).
Proof. unfold pollable. apply _. Defined.

(** What the poll leaves of one that is not taken, and of one that is. *)
Definition polled (now : Z) (r : Routine) : Routine :=
  if lock_ (base_ r) then r else with_base r (UpdateState now (base_ r)).

Definition taken (now : Z) (r : Routine) : Routine :=
  with_base r (Acquire (UpdateState now (base_ r))).2.

Lemma UpdateState_lock now c b :
  UpdateState now (mkCRoutine (state_ c) (wake_time_ c) b (updated_ c) (force_stop_ c)) =
  mkCRoutine (state_ (UpdateState now c)) (wake_time_ c) b (updated_ (UpdateState now c)) (force_stop_ c).
Proof. unfold UpdateState, set_state, set_updated. simpl. by repeat (case_match; simpl). Qed.

Lemma UpdateState_eta now c :
  UpdateState now c =
  mkCRoutine (state_ (UpdateState now c)) (wake_time_ c) (lock_ c) (updated_ (UpdateState now c)) (force_stop_ c).
Proof. rewrite <- (UpdateState_lock now c (lock_ c)). by destruct c. Qed.

Lemma UpdateState_acquired now c : UpdateState now (Acquire c).2 = (Acquire (UpdateState now c)).2.
Proof. unfold Acquire. simpl. rewrite UpdateState_lock. by rewrite (UpdateState_eta now c). Qed.

Lemma Release_acquired now c :
  lock_ c = false → Release (Acquire (UpdateState now c)).2 = UpdateState now c.
Proof. intros H. unfold Acquire, Release. simpl. rewrite (UpdateState_eta now c), H. done. Qed.

Lemma with_base_same r : with_base r (base_ r) = r.
Proof. by destruct r. Qed.

Lemma scan_cons now h a q r :
  h !! a = Some r →
  scan now h (a :: q) =
  if decide (pollable now r) then (Some a, <[a := taken now r]> h) else scan now (<[a := polled now r]> h) q.
Proof.
  intros Ha. cbn [scan]. rewrite Ha.
  change (Acquire (base_ r)) with (negb (lock_ (base_ r)), (Acquire (base_ r)).2). cbv beta iota zeta.
  rewrite UpdateState_acquired.
  destruct (lock_ (base_ r)) eqn:El; cbn [negb].
  - rewrite decide_False by (intros [? _]; congruence). f_equal.
    unfold polled. rewrite El. f_equal. transitivity (with_base r (base_ r)); [f_equal|apply with_base_same].
    destruct (base_ r); simpl in *. by subst.
  - rewrite Release_acquired by done. unfold polled. rewrite El.
    destruct (decide (pollable now r)) as [Hp|Hp]; destruct (decide (state_ _ = READY)) as [Hs|Hs]; try done.
    + destruct Hp as [_ Hp]. by destruct Hs.
    + by destruct Hp.
Qed.

(** A poll finds the first one that is ready, and leaves the others polled. *)
Lemma scan_spec now h q :
  NoDup q → (∀ a, a ∈ q → is_Some (h !! a)) →
  match scan now h q with
  | (None, h') =>
      (∀ a r, a ∈ q → h !! a = Some r → ¬ pollable now r) ∧
      ∀ b, h' !! b = if decide (b ∈ q) then polled now <$> h !! b else h !! b
  | (Some a, h') =>
      ∃ q1 q2 r, q = q1 ++ a :: q2 ∧ h !! a = Some r ∧ pollable now r ∧
        (∀ b r, b ∈ q1 → h !! b = Some r → ¬ pollable now r) ∧
        ∀ b, h' !! b = if decide (b = a) then Some (taken now r)
                       else if decide (b ∈ q1) then polled now <$> h !! b else h !! b
  end.
Proof.
  revert h. induction q as [|a q IH]; intros h Hnd Hin.
  { simpl. split; [by intros a r ?%elem_of_nil|]. intros b. by destruct (decide (b ∈ [])) as [?%elem_of_nil|]. }
  apply NoDup_cons in Hnd as [Ha Hnd]. destruct (Hin a) as [r Hr]; [left|].
  rewrite (scan_cons now h a q r Hr). destruct (decide (pollable now r)) as [Hp|Hp].
  { exists [], q, r. split_and!; try done. { by intros b x ?%elem_of_nil. }
    intros b. rewrite lookup_insert. destruct (decide (a = b)) as [->|]; [by rewrite decide_True|].
    rewrite decide_False by congruence. by destruct (decide (b ∈ [])) as [?%elem_of_nil|]. }
  specialize (IH (<[a := polled now r]> h) Hnd).
  assert (Hne : ∀ b, b ∈ q → a ≠ b) by (intros b Hb ->; done).
  destruct (scan now (<[a := polled now r]> h) q) as [[b|] h'].
  - destruct IH as (q1 & q2 & rb & -> & Hb & Hpb & Hq1 & Hh').
    { intros x Hx. rewrite lookup_insert_ne by auto. apply Hin. by right. }
    rewrite lookup_insert_ne in Hb by (apply Hne; set_solver).
    exists (a :: q1), q2, rb. split_and!; try done.
    + intros x rx [->|Hx]%elem_of_cons Hrx; [congruence|]. apply (Hq1 x rx Hx).
      rewrite lookup_insert_ne; [done|]. apply Hne. set_solver.
    + intros x. rewrite Hh'. destruct (decide (x = b)) as [|Hxb]; [done|].
      destruct (decide (a = x)) as [<-|Hax].
      * rewrite lookup_insert_eq, (decide_True (P := a ∈ a :: q1)) by left.
        rewrite decide_False by set_solver. by rewrite Hr.
      * rewrite lookup_insert_ne by done. destruct (decide (x ∈ q1)); destruct (decide (x ∈ a :: q1)); set_solver.
  - destruct IH as [Hq Hh'].
    { intros x Hx. rewrite lookup_insert_ne by auto. apply Hin. by right. }
    split.
    + intros x rx [->|Hx]%elem_of_cons Hrx; [congruence|]. apply (Hq x rx Hx).
      rewrite lookup_insert_ne; auto.
    + intros x. rewrite Hh'. destruct (decide (a = x)) as [<-|Hax].
      * rewrite lookup_insert_eq, (decide_True (P := a ∈ a :: q)) by left. rewrite decide_False by done. by rewrite Hr.
      * rewrite lookup_insert_ne by done. destruct (decide (x ∈ q)); destruct (decide (x ∈ a :: q)); set_solver.
Qed.

Lemma scan_app now h q1 q2 :
  scan now h (q1 ++ q2) =
  match scan now h q1 with (Some a, h') => (Some a, h') | (None, h') => scan now h' q2 end.
Proof.
  revert h. induction q1 as [|a q1 IH]; intros h; [done|]. rewrite <- app_comm_cons.
  destruct (h !! a) as [r|] eqn:Ea; [|cbn [scan]; rewrite Ea; apply IH].
  rewrite !(scan_cons _ _ _ _ _ Ea). destruct (decide (pollable now r)); [done|apply IH].
Qed.

(** The queues of a group from the highest of [n] priorities down. *)
Fixpoint scan_order (s : sched) (group : string) (n : nat) : list nat :=
  match n with O => [] | S i => pool_queue s group (Z.of_nat i) ++ scan_order s group i end.

Lemma scan_order_objects s h group n : scan_order (with_objects s h) group n = scan_order s group n.
Proof. induction n as [|n IH]; simpl; [done|]. by rewrite IH. Qed.

Lemma with_objects_same s : with_objects s (objects s) = s.
Proof. by destruct s. Qed.

Lemma next_prio_scan now s group n :
  next_prio now s group n =
  let '(o, h) := scan now (objects s) (scan_order s group n) in (o, with_objects s h).
Proof.
  revert s. induction n as [|i IH]; intros s; cbn [next_prio scan_order].
  { simpl. by rewrite with_objects_same. }
  rewrite scan_app. destruct (scan now (objects s) (pool_queue s group (Z.of_nat i))) as [[a|] h]; [done|].
  rewrite IH, scan_order_objects. simpl. by destruct (scan now h (scan_order s group i)).
Qed.

Lemma elem_of_scan_order s group n a :
  a ∈ scan_order s group n ↔ ∃ i, (i < n)%nat ∧ a ∈ pool_queue s group (Z.of_nat i).
Proof.
  induction n as [|n IH]; simpl.
  - split; [by intros ?%elem_of_nil|]. intros (i & ? & _). lia.
  - rewrite elem_of_app, IH. split.
    + intros [H|(i & Hi & H)]; [exists n|exists i]; auto with lia.
    + intros (i & Hi & H). destruct (decide (i = n)) as [->|]; [by left|]. right. exists i. auto with lia.
Qed.

(** ** Where coroutines are *)

Inductive place := Pool (group : string) (prio : Z) | Choreo (i : Z).

#[global] Instance place_eq_dec : EqDecision place.
Proof. solve_decision. Defined.

Definition queue_of (s : sched) (pl : place) : list nat :=
  match pl with
  | Pool group prio => pool_queue s group prio
  | Choreo i => match zget (choreos s) i with Some x => (cr_queue_ x).*2 | None => [] end
  end.

(** Where the policy keeps a coroutine. *)
Definition home (cf : conf) (r : Routine) : place :=
  match policy_ cf with
  | Classic => Pool (group_name_ r) (priority_ r)
  | Choreography => if pid_of r <? proc_num_ cf then Choreo (pid_of r) else Pool (group_name_ r) (priority_ r)
  end.

(** The protobuf fields are unsigned. *)
Definition conf_ok (cf : conf) : Prop :=
  0 ≤ proc_num_ cf ∧
  (∀ n p g, classic_confs cf !! n = Some (p, g) → 0 ≤ p) ∧
  (∀ n p o, choreo_confs cf !! n = Some (p, o) → 0 ≤ p).

Definition place_ok (cf : conf) (pl : place) : Prop :=
  match pl with Pool _ p => 0 ≤ p < MAX_PRIO | Choreo i => 0 ≤ i < proc_num_ cf end.

(** What the tables depend on in a coroutine. *)
Definition strip (r : Routine) := (id_ r, name_ r, priority_ r, group_name_ r, processor_id_ r).

Record tables_ok (cf : conf) (s : sched) : Prop := {
  t_home : ∀ id a, id_cr_ s !! id = Some a →
    ∃ r, objects s !! a = Some r ∧ id_ r = id ∧ a ∈ queue_of s (home cf r) ∧ place_ok cf (home cf r);
  t_queued : ∀ pl a, a ∈ queue_of s pl →
    ∃ r, objects s !! a = Some r ∧ home cf r = pl ∧ id_cr_ s !! id_ r = Some a;
  t_nodup : ∀ pl, NoDup (queue_of s pl);
  t_fresh : ∀ a, (next_addr s ≤ a)%nat → objects s !! a = None;
  t_len : ∀ g qs, cr_group_ s !! g = Some qs → zlen qs = MAX_PRIO;
  t_choreos : policy_ cf = Choreography → zlen (choreos s) = proc_num_ cf;
}.

(** The tables do not see the flags and states of coroutines. *)
Lemma strip_home cf r r' : strip r = strip r' → home cf r = home cf r' ∧ id_ r = id_ r'.
Proof.
  unfold strip, home, pid_of. intros [= H1 H2 H3 H4 H5]. by rewrite H1, H3, H4, H5.
Qed.

Definition same_tables (s s' : sched) : Prop :=
  (∀ a, strip <$> objects s !! a = strip <$> objects s' !! a) ∧
  (∀ pl, queue_of s pl = queue_of s' pl) ∧
  id_cr_ s = id_cr_ s' ∧ next_addr s = next_addr s' ∧
  (∀ g qs, cr_group_ s' !! g = Some qs → cr_group_ s !! g = Some qs ∨ zlen qs = MAX_PRIO) ∧
  zlen (choreos s) = zlen (choreos s').

Lemma tables_ok_same cf s s' : tables_ok cf s → same_tables s s' → tables_ok cf s'.
Proof.
  intros [Hh Hq Hn Hf Hl Hc] (Ho & Eq & Ei & En & Eg & Ec).
  assert (Hobj : ∀ a r, objects s !! a = Some r → ∃ r', objects s' !! a = Some r' ∧ strip r = strip r').
  { intros a r Hr. specialize (Ho a). rewrite Hr in Ho. simpl in Ho.
    destruct (objects s' !! a) as [r'|]; [|done]. apply (inj Some) in Ho. by exists r'. }
  split.
  - intros id a. rewrite <- Ei. intros Ha. destruct (Hh id a Ha) as (r & Hr & Hid & Hin & Hp).
    destruct (Hobj a r Hr) as (r' & Hr' & Hs). destruct (strip_home cf r r' Hs) as [Hs1 Hs2].
    exists r'. rewrite <- Hs1, <- Hs2, <- Eq. auto.
  - intros pl a. rewrite <- Eq. intros Ha. destruct (Hq pl a Ha) as (r & Hr & Hp & Hid).
    destruct (Hobj a r Hr) as (r' & Hr' & Hs). destruct (strip_home cf r r' Hs) as [Hs1 Hs2].
    exists r'. rewrite <- Hs1, <- Hs2, <- Ei. auto.
  - intros pl. rewrite <- Eq. apply Hn.
  - intros a. rewrite <- En. intros Ha. specialize (Ho a). rewrite (Hf a Ha) in Ho. by destruct (objects s' !! a).
  - intros g qs Hg. destruct (Eg g qs Hg); eauto.
  - rewrite <- Ec. done.
Qed.

Lemma same_tables_refl s : same_tables s s.
Proof. by repeat split; auto. Qed.

Lemma same_tables_trans s1 s2 s3 : same_tables s1 s2 → same_tables s2 s3 → same_tables s1 s3.
Proof.
  intros (A1 & A2 & A3 & A4 & A5 & A6) (B1 & B2 & B3 & B4 & B5 & B6). split_and!; try congruence.
  intros g qs Hg. destruct (B5 g qs Hg) as [?|?]; auto.
Qed.

(** Changes of coroutines that keep their place. *)
Lemma same_tables_objects s h :
  (∀ a, strip <$> objects s !! a = strip <$> h !! a) → same_tables s (with_objects s h).
Proof. intros H. by repeat split; auto. Qed.

Lemma same_tables_modify s a f :
  (∀ r, strip (f r) = strip r) → same_tables s (modify_object a f s).
Proof.
  intros H. apply same_tables_objects. intros b. rewrite lookup_alter. case_decide as E; [subst|done].
  destruct (objects s !! b); simpl; [by rewrite H|done].
Qed.

Lemma scan_strip now h q a : strip <$> (scan now h q).2 !! a = strip <$> h !! a.
Proof.
  revert h. induction q as [|b q IH]; intros h; [done|].
  destruct (h !! b) as [r|] eqn:Eb; [|cbn [scan]; rewrite Eb; apply IH].
  rewrite (scan_cons _ _ _ _ _ Eb). case_decide; simpl; [|rewrite IH].
  all: rewrite lookup_insert; case_decide; subst; [|done]; rewrite Eb; unfold polled; by case_match || done.
Qed.

Lemma same_tables_next now x s : same_tables s (NextRoutine now x s).2.
Proof.
  destruct x as [g|i]; simpl.
  - unfold ClassicContext_NextRoutine. destruct (classic_stop s); [apply same_tables_refl|].
    rewrite next_prio_scan. destruct (scan now (objects s) _) as [o h] eqn:E. simpl.
    apply same_tables_objects. intros a. rewrite <- (scan_strip now (objects s) (scan_order s g (Z.to_nat MAX_PRIO)) a).
    by rewrite E.
  - destruct (zget (choreos s) i) as [c|]; [|apply same_tables_refl].
    unfold ChoreographyContext_NextRoutine. destruct (choreo_stop c); simpl.
    { rewrite with_objects_same. apply same_tables_refl. }
    destruct (scan now (objects s) _) as [o h] eqn:E. simpl.
    apply same_tables_objects. intros a. rewrite <- (scan_strip now (objects s) (cr_queue_ c).*2 a). by rewrite E.
Qed.

Lemma group_queues_len cf s g : tables_ok cf s → zlen (group_queues s g) = MAX_PRIO.
Proof.
  intros Hok. unfold group_queues. destruct (cr_group_ s !! g) as [qs|] eqn:E; simpl; [by eapply t_len|done].
Qed.

Lemma queue_of_set_pool s g p q pl :
  zlen (group_queues s g) = MAX_PRIO → 0 ≤ p < MAX_PRIO →
  queue_of (set_pool_queue g p q s) pl = if decide (pl = Pool g p) then q else queue_of s pl.
Proof.
  intros Hlen Hp. destruct pl as [g' p'|i]; [|by rewrite decide_False].
  cbn [queue_of]. unfold set_pool_queue, pool_queue, group_queues. simpl.
  rewrite lookup_insert. destruct (decide (g = g')) as [<-|Hne]; simpl.
  - fold (group_queues s g). rewrite zget_zset. destruct (decide (Pool g p' = Pool g p)) as [[= ->]|Hne].
    + by rewrite decide_True by lia.
    + rewrite decide_False; [done|]. intros [-> _]. done.
  - rewrite decide_False by congruence. done.
Qed.

Lemma queue_of_set_choreo s i x pl :
  0 ≤ i < zlen (choreos s) →
  queue_of (with_choreos s (zset (choreos s) i x)) pl = if decide (pl = Choreo i) then (cr_queue_ x).*2 else queue_of s pl.
Proof.
  intros Hi. destruct pl as [g' p'|j]; [by rewrite decide_False|]. simpl. rewrite zget_zset.
  destruct (decide (Choreo j = Choreo i)) as [[= ->]|Hne]; [by rewrite decide_True by lia|].
  rewrite decide_False; [done|]. intros [-> _]. done.
Qed.

Lemma emplace_perm p a q : (emplace p a q).*2 ≡ₚ q.*2 ++ [a].
Proof.
  induction q as [|[p' a'] q IH]; simpl; [done|]. case_match; simpl; [|by rewrite IH].
  apply (Permutation_cons_append (a' :: q.*2) a).
Qed.

(** A new coroutine in its place. *)
Lemma tables_ok_dispatch cf s s' r :
  tables_ok cf s → id_cr_ s !! id_ r = None → place_ok cf (home cf r) →
  objects s' = <[next_addr s := r]> (objects s) → next_addr s' = S (next_addr s) →
  id_cr_ s' = <[id_ r := next_addr s]> (id_cr_ s) →
  (∀ pl, queue_of s' pl ≡ₚ if decide (pl = home cf r) then queue_of s pl ++ [next_addr s] else queue_of s pl) →
  (∀ g qs, cr_group_ s' !! g = Some qs → zlen qs = MAX_PRIO) → zlen (choreos s') = zlen (choreos s) →
  tables_ok cf s'.
Proof.
  intros [Hh Hq Hn Hf Hl Hc] Hid Hp Eo En Ei Eq Hl' Ec.
  assert (Hnew : ∀ pl a, a ∈ queue_of s pl → a ≠ next_addr s).
  { intros pl a Ha ->. destruct (Hq pl _ Ha) as (x & Hx & _). rewrite Hf in Hx; [done|lia]. }
  split.
  - intros id a. rewrite Ei, Eo, lookup_insert. case_decide as E.
    + intros [= <-]. exists r. rewrite lookup_insert_eq. split_and!; try done. rewrite Eq, decide_True by done. set_solver.
    + intros Ha. destruct (Hh id a Ha) as (x & Hx & Hidx & Hin & Hpx). exists x.
      rewrite lookup_insert_ne by (intros <-; by rewrite Hf in Hx). split_and!; try done.
      rewrite Eq. case_decide; set_solver.
  - intros pl a Ha. rewrite Ei, Eo.
    assert (a ∈ queue_of s pl ∨ (a = next_addr s ∧ pl = home cf r)) as [Hin|[-> ->]].
    { rewrite Eq in Ha. case_decide; set_solver. }
    + destruct (Hq pl a Hin) as (x & Hx & Hhx & Hidx). exists x.
      rewrite lookup_insert_ne by (intros <-; by rewrite Hf in Hx). split_and!; try done.
      rewrite lookup_insert_ne; [done|congruence].
    + exists r. rewrite !lookup_insert_eq. done.
  - intros pl. rewrite Eq. case_decide; [|done]. apply NoDup_app. split_and!; [done| |apply NoDup_singleton].
    intros a Ha ->%list_elem_of_singleton. by apply (Hnew pl _ Ha).
  - intros a. rewrite Eo, En. intros Ha. rewrite lookup_insert_ne by lia. apply Hf. lia.
  - done.
  - rewrite Ec. done.
Qed.

(** A coroutine leaves its place. *)
Lemma tables_ok_remove cf s s' id a r :
  tables_ok cf s → id_cr_ s !! id = Some a → objects s !! a = Some r →
  (∀ b, strip <$> objects s' !! b = strip <$> objects s !! b) → next_addr s' = next_addr s →
  id_cr_ s' = delete id (id_cr_ s) →
  (∀ pl, queue_of s' pl = if decide (pl = home cf r) then erase a (queue_of s pl) else queue_of s pl) →
  (∀ g qs, cr_group_ s' !! g = Some qs → zlen qs = MAX_PRIO) → zlen (choreos s') = zlen (choreos s) →
  tables_ok cf s'.
Proof.
  intros [Hh Hq Hn Hf Hl Hc] Ha Hr Eo En Ei Eq Hl' Ec.
  assert (Hobj : ∀ b x, objects s !! b = Some x → ∃ x', objects s' !! b = Some x' ∧ home cf x' = home cf x ∧ id_ x' = id_ x).
  { intros b x Hx. specialize (Eo b). rewrite Hx in Eo. simpl in Eo.
    destruct (objects s' !! b) as [x'|]; [|done]. apply (inj Some), (strip_home cf) in Eo as [? ?]. eauto. }
  destruct (Hh id a Ha) as (r0 & Hr0 & Hid & Hin & Hp). rewrite Hr in Hr0. injection Hr0 as <-.
  split.
  - intros j b. rewrite Ei. intros [Hne Hb]%lookup_delete_Some.
    destruct (Hh j b Hb) as (x & Hx & Hidx & Hinx & Hpx). destruct (Hobj b x Hx) as (x' & Hx' & H1 & H2).
    exists x'. rewrite H1, H2. split_and!; try done. rewrite Eq. case_decide; [|done].
    apply list_elem_of_filter. split; [|done]. intros ->. rewrite Hr in Hx. injection Hx as <-. congruence.
  - intros pl b Hb. assert (Hb' : b ∈ queue_of s pl ∧ b ≠ a).
    { rewrite Eq in Hb. case_decide as E; [by apply list_elem_of_filter in Hb as [? ?]|]. split; [done|].
      intros ->. destruct (Hq pl a Hb) as (x & Hx & Hhx & _). congruence. }
    destruct Hb' as [Hb' Hne]. destruct (Hq pl b Hb') as (x & Hx & Hhx & Hidx).
    destruct (Hobj b x Hx) as (x' & Hx' & H1 & H2). exists x'. rewrite H1, H2. split_and!; try done.
    rewrite Ei, lookup_delete_ne; [done|]. intros E. congruence.
  - intros pl. rewrite Eq. case_decide; [by apply NoDup_filter|done].
  - intros b. rewrite En. intros Hb. specialize (Eo b). rewrite (Hf b Hb) in Eo. by destruct (objects s' !! b).
  - done.
  - rewrite Ec. done.
Qed.

Lemma find_id_spec h q crid :
  match find_id h q crid with
  | Some a => a ∈ q ∧ ∃ r, h !! a = Some r ∧ id_ r = crid
  | None => ∀ a r, a ∈ q → h !! a = Some r → id_ r ≠ crid
  end.
Proof.
  induction q as [|b q IH]; simpl; [by intros a r ?%elem_of_nil|].
  destruct (h !! b) as [r|] eqn:Eb; [destruct (decide (id_ r = crid)) as [E|E]|].
  - split; [left|eauto].
  - destruct (find_id h q crid); [destruct IH as [? ?]; split; [by right|done]|].
    intros a x [->|Ha]%elem_of_cons Hx; [congruence|eauto].
  - destruct (find_id h q crid); [destruct IH as [? ?]; split; [by right|done]|].
    intros a x [->|Ha]%elem_of_cons Hx; [congruence|eauto].
Qed.

(** The coroutine of an id is found in its own queue. *)
Lemma find_registered cf s a r h :
  tables_ok cf s → objects s !! a = Some r → id_cr_ s !! id_ r = Some a →
  (∀ b, strip <$> h !! b = strip <$> objects s !! b) →
  find_id h (queue_of s (home cf r)) (id_ r) = Some a.
Proof.
  intros Hok Hr Hid Hh. pose proof (find_id_spec h (queue_of s (home cf r)) (id_ r)) as Hf.
  destruct (t_home cf s Hok _ _ Hid) as (r0 & Hr0 & _ & Hin & _). rewrite Hr in Hr0. injection Hr0 as <-.
  assert (Hid' : ∀ b x, h !! b = Some x → ∃ y, objects s !! b = Some y ∧ id_ x = id_ y).
  { intros b x Hx. specialize (Hh b). rewrite Hx in Hh. simpl in Hh. destruct (objects s !! b) as [y|]; [|done].
    apply (inj Some), (strip_home cf) in Hh as [_ ?]. eauto. }
  destruct (find_id h (queue_of s (home cf r)) (id_ r)) as [b|].
  - destruct Hf as (Hb & x & Hx & Ex). destruct (Hid' b x Hx) as (y & Hy & Ey).
    destruct (t_queued cf s Hok _ _ Hb) as (z & Hz & _ & Hzid). congruence.
  - specialize (Hh a). rewrite Hr in Hh. destruct (h !! a) as [x|] eqn:Ex; [|done].
    destruct (Hid' a x Ex) as (y & Hy & Ey). destruct (Hf a x Hin Ex). congruence.
Qed.

(** ** The operations keep the tables *)

Lemma same_tables_notify s m : same_tables s (with_notify s m).
Proof. by repeat split; auto. Qed.

Lemma same_tables_held s m : same_tables s (with_held s m).
Proof. by repeat split; auto. Qed.

Lemma same_tables_choreo s i x x' :
  zget (choreos s) i = Some x → cr_queue_ x' = cr_queue_ x →
  same_tables s (with_choreos s (zset (choreos s) i x')).
Proof.
  intros Hi Hq. pose proof (zget_Some_range _ _ _ Hi) as Hr. split_and!; auto; [|by simpl; rewrite zlen_zset].
  intros pl. rewrite queue_of_set_choreo by done. case_decide as E; [|done]. subst. simpl. by rewrite Hi, Hq.
Qed.

Lemma same_tables_notify_context cf r s : same_tables s (notify_context cf r s).
Proof.
  unfold notify_context, ClassicContext_Notify. destruct (policy_ cf); [apply same_tables_notify|].
  case_match; [|apply same_tables_notify]. case_match; [|apply same_tables_refl]. by eapply same_tables_choreo.
Qed.

Lemma same_tables_NotifyProcessor cf crid s : same_tables s (NotifyProcessor cf crid s).2.
Proof.
  unfold NotifyProcessor. repeat (case_match; simpl; try apply same_tables_refl).
  eapply same_tables_trans; [|apply same_tables_notify_context].
  apply same_tables_modify. intros x. unfold flag. by case_match.
Qed.

Lemma same_tables_resume p a s : same_tables s (Resume p a s).
Proof.
  unfold Resume. case_match; [|apply same_tables_refl]. case_match; [|apply same_tables_held].
  by apply same_tables_modify.
Qed.

Lemma set_pool_queue_len cf s g p q g' qs :
  tables_ok cf s → cr_group_ (set_pool_queue g p q s) !! g' = Some qs → zlen qs = MAX_PRIO.
Proof.
  intros Hok. unfold set_pool_queue. simpl. rewrite lookup_insert. case_decide; [|by eapply t_len].
  intros [= <-]. rewrite zlen_zset. by eapply group_queues_len.
Qed.

Lemma tables_ok_notify_group cf g s : tables_ok cf s → tables_ok cf (ClassicContext_Notify g s).
Proof. intros H. eapply tables_ok_same; [done|apply same_tables_notify]. Qed.

(** The queues and lengths are read through the tables. *)
Lemma queue_of_alloc r s pl : queue_of (alloc r s) pl = queue_of s pl.
Proof. by destruct pl. Qed.

Lemma tables_ok_push cf s r :
  tables_ok cf s → id_cr_ s !! id_ r = None → home cf r = Pool (group_name_ r) (priority_ r) →
  0 ≤ priority_ r < MAX_PRIO → tables_ok cf (push (next_addr s) r (alloc r s)).
Proof.
  intros Hok Hid Hh Hp. pose proof (group_queues_len cf s (group_name_ r) Hok) as Hlen.
  eapply (tables_ok_dispatch cf s _ r); [done|done|by rewrite Hh|done|done|done| | |done].
  - intros pl. rewrite Hh. unfold push. rewrite queue_of_set_pool by done.
    destruct (decide (pl = Pool (group_name_ r) (priority_ r))) as [->|]; [done|]. by rewrite queue_of_alloc.
  - intros g qs. unfold push, set_pool_queue. simpl. rewrite lookup_insert. case_decide; [|by eapply t_len].
    intros [= <-]. by rewrite zlen_zset.
Qed.

Lemma classic_assign_ok cf r r' :
  conf_ok cf → priority_ r = 0 → classic_assign cf r = Some r' →
  0 ≤ priority_ r' < MAX_PRIO ∧ id_ r' = id_ r ∧ base_ r' = base_ r.
Proof.
  intros (_ & Hc & _) H0. unfold classic_assign, MAX_PRIO. intros H.
  destruct (classic_confs cf !! name_ r) as [[p g]|] eqn:E.
  - specialize (Hc _ _ _ E). injection H as <-. simpl. destruct (Z.leb_spec 20 p); simpl; split_and!; lia || done.
  - destruct (groups cf); [done|]. injection H as <-. simpl. rewrite H0. simpl. split_and!; lia || done.
Qed.

Lemma choreo_assign_ok cf r :
  conf_ok cf → priority_ r = 0 → 0 ≤ priority_ (choreo_assign cf r) ∧ id_ (choreo_assign cf r) = id_ r.
Proof.
  intros (_ & _ & Hc) H0. unfold choreo_assign. destruct (choreo_confs cf !! name_ r) as [[p o]|] eqn:E; [|lia].
  specialize (Hc _ _ _ E). destruct o; simpl; auto.
Qed.

Lemma tables_ok_DispatchTask cf s r b s' :
  conf_ok cf → tables_ok cf s → priority_ r = 0 → DispatchTask cf r s = Some (b, s') → tables_ok cf s'.
Proof.
  intros Hcf Hok H0. unfold DispatchTask. destruct (policy_ cf) eqn:Ep.
  - unfold SchedulerClassic_DispatchTask. destruct (id_cr_ s !! id_ r) eqn:Eid; [by intros [= <- <-]|].
    destruct (classic_assign cf r) as [r'|] eqn:Ea; [|done]. intros [= <- <-].
    destruct (classic_assign_ok cf r r' Hcf H0 Ea) as (Hp & Hi & _).
    apply tables_ok_notify_group, tables_ok_push; [done|by rewrite Hi| |done]. unfold home. by rewrite Ep.
  - unfold SchedulerChoreography_DispatchTask. destruct (choreo_assign_ok cf r Hcf H0) as [Hp Hi].
    destruct (id_cr_ s !! id_ (choreo_assign cf r)) eqn:Eid; [by intros [= <- <-]|].
    destruct (pid_of (choreo_assign cf r) <? proc_num_ cf) eqn:Epid.
    + destruct (zget (choreos s) (pid_of (choreo_assign cf r))) as [x|] eqn:Ex; [|done]. intros [= <- <-].
      pose proof (zget_Some_range _ _ _ Ex) as Hr. pose proof (t_choreos cf s Hok Ep) as Hlen.
      assert (Hh : home cf (choreo_assign cf r) = Choreo (pid_of (choreo_assign cf r))) by (unfold home; by rewrite Ep, Epid).
      eapply (tables_ok_dispatch cf s _ (choreo_assign cf r)); [done|done| |done|done|done| | |by simpl; rewrite zlen_zset].
      * rewrite Hh. simpl. lia.
      * intros pl. rewrite Hh. change (choreos s) with (choreos (alloc (choreo_assign cf r) s)) at 1.
        rewrite queue_of_set_choreo by done. case_decide; [|by rewrite queue_of_alloc]. subst. simpl. rewrite Ex.
        apply emplace_perm.
      * apply Hok.
    + intros [= <- <-]. apply tables_ok_push; [done|by unfold pool_assign; case_match| |].
      * unfold home. rewrite Ep. replace (pid_of (pool_assign (choreo_assign cf r))) with (pid_of (choreo_assign cf r)).
        { by rewrite Epid. } unfold pool_assign. by case_match.
      * unfold pool_assign, MAX_PRIO in *. simpl. destruct (Z.leb_spec 20 (priority_ (choreo_assign cf r))); simpl; lia.
Qed.

(** The state in which a context is asked to remove [a]. *)
Definition unregistered (crid : Z) (a : nat) (s : sched) : sched :=
  with_id_cr (modify_object a (λ x, with_base x (Stop (base_ x))) s) (delete crid (id_cr_ s)).

Lemma unregistered_strip crid a s b : strip <$> objects (unregistered crid a s) !! b = strip <$> objects s !! b.
Proof.
  simpl. rewrite lookup_alter. case_decide; [subst|done]. by destruct (objects s !! b).
Qed.

Lemma choreo_erase_queue a x : (cr_queue_ (choreo_erase a x)).*2 = erase a (cr_queue_ x).*2.
Proof.
  unfold erase. simpl. induction (cr_queue_ x) as [|[p b] q IH]; [done|]. rewrite filter_cons, fmap_cons, filter_cons.
  simpl. destruct (decide (b ≠ a)); [|done]. rewrite fmap_cons. simpl. by f_equal.
Qed.

(** What a removal that succeeds does. *)
Record removed (cf : conf) (s : sched) (crid : Z) (a : nat) (r : Routine) (s' : sched) : Prop := {
  rm_tables : tables_ok cf s';
  rm_id_cr : id_cr_ s' = delete crid (id_cr_ s);
  rm_held : held s' = held s;
  rm_stop : stop_ s' = stop_ s;
  rm_objects : ∀ b, objects s' !! b = if decide (b = a) then Some (with_base r (Stop (base_ r))) else objects s !! b;
  rm_queues : ∀ pl, queue_of s' pl = if decide (pl = home cf r) then erase a (queue_of s pl) else queue_of s pl;
}.

Section Removal.
Context (cf : conf) (s : sched) (crid : Z) (a : nat) (r : Routine).
Context (Hok : tables_ok cf s) (Ha : id_cr_ s !! crid = Some a) (Hr : objects s !! a = Some r).
Let u := unregistered crid a s.

Lemma unregistered_object : objects u !! a = Some (with_base r (Stop (base_ r))).
Proof using Hr. simpl. by rewrite lookup_alter_eq, Hr. Qed.

Lemma registered_home : id_ r = crid ∧ a ∈ queue_of s (home cf r) ∧ place_ok cf (home cf r).
Proof using Hok Ha Hr. destruct (t_home cf s Hok _ _ Ha) as (r0 & Hr0 & H). rewrite Hr in Hr0. by injection Hr0 as <-. Qed.

Lemma unregistered_find : find_id (objects u) (queue_of s (home cf r)) (id_ r) = Some a.
Proof using Hok Ha Hr.
  apply (find_registered cf); [done|done| |intros b; apply unregistered_strip].
  by destruct registered_home as [-> _].
Qed.

(** The last changes of a removal, wherever the coroutine was. *)
Lemma removed_intro s' :
  objects s' = alter (λ x, with_base x (Stop (base_ x))) a (objects u) →
  next_addr s' = next_addr s → id_cr_ s' = delete crid (id_cr_ s) → held s' = held s → stop_ s' = stop_ s →
  (∀ pl, queue_of s' pl = if decide (pl = home cf r) then erase a (queue_of s pl) else queue_of s pl) →
  (∀ g qs, cr_group_ s' !! g = Some qs → zlen qs = MAX_PRIO) → zlen (choreos s') = zlen (choreos s) →
  removed cf s crid a r s'.
Proof using Hok Ha Hr.
  intros E1 E2 E3 E4 E5 E6 E7 E8.
  assert (Hobj : ∀ b, objects s' !! b = if decide (b = a) then Some (with_base r (Stop (base_ r))) else objects s !! b).
  { intros b. rewrite E1, lookup_alter. destruct (decide (a = b)) as [<-|Hne].
    - by rewrite unregistered_object, decide_True.
    - rewrite decide_False by congruence. simpl. by rewrite lookup_alter_ne. }
  split; try done. eapply (tables_ok_remove cf s s' crid a r); try done.
  intros b. rewrite Hobj. destruct (decide (b = a)) as [->|]; [by rewrite Hr|done].
Qed.

Definition removal (res : option (bool * sched)) : Prop :=
  if lock_ (base_ r) then res = None else ∃ s', res = Some (true, s') ∧ removed cf s crid a r s'.

Lemma pool_removal :
  home cf r = Pool (group_name_ r) (priority_ r) → removal (ClassicContext_RemoveCRoutine a u).
Proof using Hok Ha Hr.
  intros Hh. pose proof unregistered_object as Hu. pose proof unregistered_find as Hfind.
  destruct registered_home as (_ & _ & Hp). rewrite Hh in Hfind, Hp. cbn [queue_of] in Hfind.
  unfold removal, ClassicContext_RemoveCRoutine. rewrite Hu.
  cbn [with_base group_name_ priority_ id_ base_ lock_ Stop]. change (pool_queue u) with (pool_queue s).
  rewrite Hfind, Hu. simpl. destruct (lock_ (base_ r)); [done|]. eexists. split; [done|].
  apply removed_intro; try done; [|intros g qs; by apply (set_pool_queue_len cf s)].
  intros pl. rewrite Hh, queue_of_set_pool; [|by apply (group_queues_len cf s)|done].
  case_decide; [by subst|]. by destruct pl.
Qed.

Lemma choreo_removal :
  home cf r = Choreo (pid_of r) → removal (ChoreographyContext_RemoveCRoutine (id_ r) (pid_of r) u).
Proof using Hok Ha Hr.
  intros Hh. pose proof unregistered_object as Hu. pose proof unregistered_find as Hfind.
  destruct registered_home as (_ & Hin & _). rewrite Hh in Hfind, Hin. cbn [queue_of] in Hfind, Hin.
  unfold removal, ChoreographyContext_RemoveCRoutine. change (choreos u) with (choreos s).
  destruct (zget (choreos s) (pid_of r)) as [x|] eqn:Ex; [|by apply elem_of_nil in Hin].
  rewrite Hfind, Hu. simpl. destruct (lock_ (base_ r)); [done|]. eexists. split; [done|].
  pose proof (zget_Some_range _ _ _ Ex) as Hrange.
  apply removed_intro; try done; [|apply Hok|by simpl; rewrite zlen_zset].
  intros pl. rewrite Hh. change (choreos s) with (choreos (modify_object a (λ x, with_base x (Stop (base_ x))) u)).
  rewrite queue_of_set_choreo by done. case_decide; [|by destruct pl]. subst. simpl. rewrite Ex. apply choreo_erase_queue.
Qed.

(** A registered coroutine: removal waits while it is held, and else takes it
    out of its queue; everything else is as before. *)
Lemma RemoveCRoutine_spec : removal (RemoveCRoutine cf crid s).
Proof using Hok Ha Hr.
  unfold RemoveCRoutine. rewrite Ha, Hr. fold (unregistered crid a s). fold u. unfold context_remove.
  destruct (policy_ cf) eqn:Ep; [apply pool_removal; unfold home; by rewrite Ep|].
  destruct (pid_of r <? proc_num_ cf) eqn:Epid; [apply choreo_removal|apply pool_removal]; unfold home; by rewrite Ep, Epid.
Qed.
End Removal.

Lemma RemoveCRoutine_tables cf crid s b s' :
  tables_ok cf s → RemoveCRoutine cf crid s = Some (b, s') →
  tables_ok cf s' ∧ held s' = held s ∧ stop_ s' = stop_ s ∧ id_cr_ s' = delete crid (id_cr_ s) ∧
  (b = true ↔ is_Some (id_cr_ s !! crid)) ∧
  ∀ c, (λ r, lock_ (base_ r)) <$> objects s' !! c = (λ r, lock_ (base_ r)) <$> objects s !! c.
Proof.
  intros Hok H. destruct (id_cr_ s !! crid) as [a|] eqn:Ea.
  - destruct (t_home cf s Hok _ _ Ea) as (r & Hr & _).
    pose proof (RemoveCRoutine_spec cf s crid a r Hok Ea Hr) as Hs. unfold removal in Hs. rewrite H in Hs.
    destruct (lock_ (base_ r)) eqn:El; [done|]. destruct Hs as (s1 & [= -> <-] & [H1 H2 H3 H4 H5 _]).
    split_and!; auto; [by split|]. intros c. rewrite H5. destruct (decide (c = a)) as [->|]; [by rewrite Hr|done].
  - unfold RemoveCRoutine in H. rewrite Ea in H. injection H as <- <-.
    split_and!; auto; [by rewrite delete_id|]. split; [done|]. by intros [? ?].
Qed.

Lemma InitGroup_tables cf g s : tables_ok cf s → tables_ok cf (InitGroup g s).
Proof.
  intros Hok. eapply tables_ok_same; [done|]. split_and!; try done.
  - intros [g' p|i]; [|done]. cbn [queue_of]. unfold pool_queue, group_queues. simpl.
    rewrite lookup_insert. by case_decide; [subst|].
  - intros g' qs. simpl. rewrite lookup_insert. case_decide; [|by left]. intros [= <-]. right.
    by eapply group_queues_len.
Qed.

Lemma pool_queue_empty s g p : cr_group_ s = ∅ → pool_queue s g p = [].
Proof.
  intros H. unfold pool_queue, group_queues. rewrite H, lookup_empty. simpl. unfold zget, empty_queues.
  case_decide; [|done]. destruct (replicate 20 ([] : list nat) !! Z.to_nat p) as [q|] eqn:E; [|done].
  by apply lookup_replicate in E as [-> _].
Qed.

Lemma sched_new_tables cf : conf_ok cf → tables_ok cf (sched_new cf).
Proof.
  intros (Hn & _). unfold sched_new.
  set (s0 := mkSched _ _ _ _ _ _ _ _ _). assert (H0 : tables_ok cf s0).
  { assert (Hq : ∀ pl, queue_of s0 pl = []).
    { intros [g p|i]; simpl.
      - by apply pool_queue_empty.
      - destruct (zget _ i) as [x|] eqn:E; [|done]. destruct (policy_ cf); [by apply zget_Some_range in E; unfold zlen in E; simpl in E; lia|].
        unfold zget in E. case_decide; [|done]. by apply lookup_replicate in E as [-> _]. }
    split; simpl; try done.
    - intros pl a. rewrite Hq. by intros ?%elem_of_nil.
    - intros pl. rewrite Hq. constructor.
    - intros Hp. unfold s0. simpl. rewrite Hp, zlen_replicate. lia. }
  clearbody s0. revert H0. induction (context_groups cf) as [|g gs IH]; simpl; [done|]. eauto using InitGroup_tables.
Qed.

(** ** Who has a coroutine *)

Definition locked (s : sched) (a : nat) : Prop := (λ r, lock_ (base_ r)) <$> objects s !! a = Some true.

Record locks_ok (s : sched) : Prop := {
  l_held : ∀ p a, held s !! p = Some a → locked s a;
  l_inj : ∀ p p' a, held s !! p = Some a → held s !! p' = Some a → p = p';
  l_locked : ∀ a, locked s a → ∃ p, held s !! p = Some a;
}.

Lemma locks_ok_same s s' :
  locks_ok s → (∀ a, locked s' a ↔ locked s a) → held s' = held s → locks_ok s'.
Proof.
  intros [H1 H2 H3] Hl Hh. split; rewrite ?Hh; auto.
  - intros p a Ha. apply Hl. eauto.
  - intros a. rewrite Hl. apply H3.
Qed.

Lemma scan_locks now h q :
  match scan now h q with
  | (None, h') => ∀ b, (λ r, lock_ (base_ r)) <$> h' !! b = (λ r, lock_ (base_ r)) <$> h !! b
  | (Some a, h') => (λ r, lock_ (base_ r)) <$> h !! a = Some false ∧
      ∀ b, (λ r, lock_ (base_ r)) <$> h' !! b =
        if decide (b = a) then Some true else (λ r, lock_ (base_ r)) <$> h !! b
  end.
Proof.
  revert h. induction q as [|a q IH]; intros h; [done|].
  destruct (h !! a) as [r|] eqn:Ea; [|cbn [scan]; rewrite Ea; apply IH].
  rewrite (scan_cons _ _ _ _ _ Ea). destruct (decide (pollable now r)) as [[Hp _]|Hp].
  - rewrite Ea. simpl. rewrite Hp. split; [done|]. intros b. rewrite lookup_insert.
    destruct (decide (a = b)); [by rewrite decide_True|by rewrite decide_False by congruence].
  - assert (Hsame : ∀ b, (λ r, lock_ (base_ r)) <$> <[a := polled now r]> h !! b = (λ r, lock_ (base_ r)) <$> h !! b).
    { intros b. rewrite lookup_insert. case_decide; [subst|done]. rewrite Ea. simpl. f_equal. unfold polled.
      destruct (lock_ (base_ r)) eqn:El; [done|]. simpl. by rewrite UpdateState_eta. }
    specialize (IH (<[a := polled now r]> h)). destruct (scan now _ q) as [[b|] h'].
    + destruct IH as [H1 H2]. rewrite Hsame in H1. split; [done|]. intros c. rewrite H2. by case_decide.
    + intros c. by rewrite IH.
Qed.

Lemma NextRoutine_locks now x s o s' :
  NextRoutine now x s = (o, s') →
  held s' = held s ∧ stop_ s' = stop_ s ∧ id_cr_ s' = id_cr_ s ∧
  match o with
  | None => ∀ b, locked s' b ↔ locked s b
  | Some a => ¬ locked s a ∧ is_Some (objects s' !! a) ∧ ∀ b, locked s' b ↔ b = a ∨ locked s b
  end.
Proof.
  intros H. assert (Hs : s' = s ∧ o = None ∨ ∃ q h, scan now (objects s) q = (o, h) ∧ s' = with_objects s h).
  { destruct x as [g|i]; simpl in H.
    - unfold ClassicContext_NextRoutine in H. destruct (classic_stop s); [by simplify_eq; left|].
      rewrite next_prio_scan in H. destruct (scan now (objects s) (scan_order _ _ _)) as [o1 h] eqn:E. simplify_eq. right. eauto.
    - destruct (zget (choreos s) i) as [c|]; [|by simplify_eq; left].
      unfold ChoreographyContext_NextRoutine in H. destruct (choreo_stop c).
      { simplify_eq. rewrite with_objects_same. by left. }
      destruct (scan now (objects s) (cr_queue_ c).*2) as [o1 h] eqn:E. simplify_eq. right. eauto. }
  destruct Hs as [[-> ->]|(q & h & E & ->)]; [done|]. split; [done|]. split; [done|]. split; [done|].
  pose proof (scan_locks now (objects s) q) as Hl. rewrite E in Hl. unfold locked. simpl. destruct o as [a|].
  - destruct Hl as [H1 H2]. rewrite H1. split; [done|]. split.
    + specialize (H2 a). rewrite decide_True in H2 by done. destruct (h !! a); [by eexists|done].
    + intros b. rewrite H2. case_decide; [by split; auto|]. by split; [auto|intros [?|?]].
  - intros b. by rewrite Hl.
Qed.

(** [s1] is the state after a poll took [a] for processor [p]. *)
Lemma taken_locks s s1 p a :
  locks_ok s → held s !! p = None → held s1 = held s → ¬ locked s a → is_Some (objects s1 !! a) →
  (∀ b, locked s1 b ↔ b = a ∨ locked s b) → locks_ok (Resume p a s1).
Proof.
  intros [H1 H2 H3] Hp Hh Ha [r Hr] Hl. unfold Resume. rewrite Hr. destruct (force_stop_ (base_ r)).
  - apply (locks_ok_same s); [done| |done]. intros b. unfold locked. simpl. rewrite lookup_alter.
    destruct (decide (a = b)) as [<-|Hne].
    + rewrite Hr. simpl. by split.
    + fold (locked s1 b). rewrite Hl. by split; [intros [?|?]|auto].
  - split; simpl; rewrite ?Hh.
    + intros p' b. rewrite lookup_insert. change (locked (with_held s1 _) b) with (locked s1 b).
      rewrite Hl. case_decide; [by intros [= <-]; left|eauto].
    + intros p1 p2 b. rewrite !lookup_insert. repeat case_decide; subst; try done.
      * intros [= <-] Hb. by destruct Ha; eauto.
      * intros Hb [= <-]. by destruct Ha; eauto.
      * apply H2.
    + intros b. change (locked (with_held s1 _) b) with (locked s1 b). rewrite Hl.
      intros [->|Hb]; [exists p; apply lookup_insert_eq|]. destruct (H3 b Hb) as [p' Hp']. exists p'.
      rewrite lookup_insert_ne; [done|congruence].
Qed.

Lemma suspend_locks s p a st until :
  locks_ok s → held s !! p = Some a →
  locks_ok (modify_object a (suspend_routine st until) (with_held s (delete p (held s)))).
Proof.
  intros [H1 H2 H3] Hp.
  assert (Hl : ∀ b, locked (modify_object a (suspend_routine st until) (with_held s (delete p (held s)))) b ↔
    b ≠ a ∧ locked s b).
  { intros b. unfold locked. simpl. rewrite lookup_alter. destruct (decide (a = b)) as [<-|Hne].
    - destruct (objects s !! a); simpl; naive_solver.
    - naive_solver. }
  split; simpl.
  - intros p' b [Hne Hb]%lookup_delete_Some. rewrite Hl. split; [|eauto]. intros ->. eauto.
  - intros p1 p2 b [_ ?]%lookup_delete_Some [_ ?]%lookup_delete_Some. eauto.
  - intros b. rewrite Hl. intros [Hne Hb]. destruct (H3 b Hb) as [p' Hp']. exists p'.
    rewrite lookup_delete_ne; [done|]. intros ->. congruence.
Qed.

Definition sched_inv (cf : conf) (s : sched) : Prop := tables_ok cf s ∧ locks_ok s.

Lemma DispatchTask_frame cf r s b s' :
  DispatchTask cf r s = Some (b, s') →
  held s' = held s ∧ stop_ s' = stop_ s ∧
  (objects s' = objects s ∨
   ∃ r', objects s' = <[next_addr s := r']> (objects s) ∧ base_ r' = base_ r ∧ id_cr_ s' = <[id_ r := next_addr s]> (id_cr_ s)).
Proof.
  unfold DispatchTask, SchedulerClassic_DispatchTask, SchedulerChoreography_DispatchTask. destruct (policy_ cf).
  - destruct (id_cr_ s !! id_ r); [by intros [= <- <-]; auto|].
    destruct (classic_assign cf r) as [r'|] eqn:E; [|done]. intros [= <- <-]. split; [done|]. split; [done|]. right.
    exists r'. simpl. unfold classic_assign in E. repeat case_match; simplify_eq/=; done.
  - set (r' := choreo_assign cf r). assert (Hr' : base_ r' = base_ r ∧ id_ r' = id_ r) by (unfold r', choreo_assign; by repeat case_match).
    destruct (id_cr_ s !! id_ r'); [by intros [= <- <-]; auto|]. destruct Hr' as [Hb Hi].
    case_match; [case_match|]; intros [= <- <-]; (split; [done|]; split; [done|]; right).
    + exists r'. simpl. by rewrite Hi.
    + exists (pool_assign r'). simpl. unfold pool_assign. case_match; simpl; by rewrite ?Hi, ?Hb.
Qed.

Lemma same_objects_locks s s' : locks_ok s → objects s' = objects s → held s' = held s → locks_ok s'.
Proof. intros H Ho Hh. apply (locks_ok_same s); [done| |done]. intros a. unfold locked. by rewrite Ho. Qed.

Lemma DispatchTask_locks cf r s b s' :
  sched_inv cf s → lock_ (base_ r) = false → DispatchTask cf r s = Some (b, s') → locks_ok s'.
Proof.
  intros [Ht Hl] Hr H. destruct (DispatchTask_frame _ _ _ _ _ H) as (Hh & _ & [Ho|(r' & Ho & Hb & _)]).
  { by apply (same_objects_locks s). }
  apply (locks_ok_same s); [done| |done]. intros a. unfold locked. rewrite Ho, lookup_insert.
  case_decide as E; [subst|done]. simpl. rewrite Hb, Hr, (t_fresh cf s Ht) by lia. by split.
Qed.

Lemma NotifyProcessor_frame cf crid s :
  held (NotifyProcessor cf crid s).2 = held s ∧ stop_ (NotifyProcessor cf crid s).2 = stop_ s ∧
  id_cr_ (NotifyProcessor cf crid s).2 = id_cr_ s ∧
  ∀ a, locked (NotifyProcessor cf crid s).2 a ↔ locked s a.
Proof.
  assert (Hc : ∀ r s, held (notify_context cf r s) = held s ∧ stop_ (notify_context cf r s) = stop_ s ∧
    id_cr_ (notify_context cf r s) = id_cr_ s ∧ objects (notify_context cf r s) = objects s).
  { intros r s0. unfold notify_context. by repeat case_match. }
  unfold NotifyProcessor. repeat (case_match; simpl; try done). destruct (Hc r (modify_object n flag s)) as (-> & -> & -> & Ho).
  split_and!; try done. intros a. unfold locked. rewrite Ho. simpl. rewrite lookup_alter. case_decide; [subst|done].
  destruct (objects s !! a); simpl; [|done]. unfold flag. by case_match.
Qed.

Lemma RemoveCRoutine_inv cf crid s b s' :
  sched_inv cf s → RemoveCRoutine cf crid s = Some (b, s') →
  sched_inv cf s' ∧ held s' = held s ∧ stop_ s' = stop_ s ∧ id_cr_ s' = delete crid (id_cr_ s).
Proof.
  intros [Ht Hl] E. destruct (RemoveCRoutine_tables _ _ _ _ _ Ht E) as (H1 & H2 & H3 & H4 & _ & H6).
  split; [|done]. split; [done|]. apply (locks_ok_same s); [done| |done]. intros a. unfold locked. by rewrite H6.
Qed.

Lemma shutdown_contexts_inv cf s : sched_inv cf s → sched_inv cf (shutdown_contexts cf s).
Proof.
  intros [Ht Hl]. split; [|by apply (same_objects_locks s)]. eapply tables_ok_same; [done|].
  split_and!; auto; [|by simpl; unfold zlen; rewrite length_fmap].
  intros [g p|i]; [done|]. simpl. unfold zget. case_decide; [|done]. rewrite list_lookup_fmap.
  by destruct (choreos s !! Z.to_nat i).
Qed.

Lemma with_stop_inv cf s : sched_inv cf s → sched_inv cf (with_stop s).
Proof.
  intros [Ht Hl]. split; [|by apply (same_objects_locks s)]. eapply tables_ok_same; [done|]. by split_and!; auto.
Qed.

Lemma core_step_inv cf s o s' : sched_inv cf s → core_step cf s o = Some s' → sched_inv cf s'.
Proof.
  intros Hinv H. pose proof Hinv as [Ht Hl]. destruct o as [|t|crid|crid|p x now|p st until|t g|t i|]; simpl in H; try done.
  - unfold NotifyTask in H. simplify_eq. destruct (stop_ s); [done|].
    destruct (NotifyProcessor_frame cf crid s) as (Hh & _ & _ & Hk).
    split; [|by apply (locks_ok_same s)]. eapply tables_ok_same; [done|apply same_tables_NotifyProcessor].
  - destruct (RemoveCRoutine cf crid s) as [[b s1]|] eqn:E; simplify_eq/=. by eapply RemoveCRoutine_inv.
  - destruct (held s !! p) eqn:Hp; [done|].
    pose proof (same_tables_next now x s) as Hs. destruct (NextRoutine now x s) as [o s1] eqn:E. simpl in Hs.
    destruct (NextRoutine_locks _ _ _ _ _ E) as (Hh & _ & _ & Hk). destruct o as [a|]; simplify_eq.
    + destruct Hk as (H1 & H2 & H3). split; [|by eapply taken_locks].
      eapply tables_ok_same; [done|]. eapply same_tables_trans; [done|apply same_tables_resume].
    + split; [by eapply tables_ok_same|by apply (locks_ok_same s)].
  - destruct (held s !! p) as [a|] eqn:Hp; simplify_eq. split; [|by apply suspend_locks].
    eapply tables_ok_same; [done|]. eapply same_tables_trans; [apply same_tables_held|]. by apply same_tables_modify.
  - unfold ClassicContext_Wait in H. repeat case_match; simplify_eq; [|done].
    split; [eapply tables_ok_same; [done|apply same_tables_notify]|by apply (same_objects_locks s)].
  - destruct (zget (choreos s) i) as [x|] eqn:Ex; [|done]. unfold ChoreographyContext_Wait in H.
    repeat case_match; simplify_eq/=; (split; [|by apply (same_objects_locks s)]);
      (eapply tables_ok_same; [done|by eapply same_tables_choreo]).
Qed.

Lemma step_core cf y o y' : step cf y o = Some y' → match o with OCreate _ _ _ _ | ODispatch _ | OShutdown => True | _ => ∃ s, core_step cf y o = Some s ∧ y' = on_core y s end.
Proof. destruct o; cbn [step]; try done; intros (s & H & ->)%fmap_Some; eauto. Qed.

Lemma sched_inv_step cf (y : system) o y' :
  conf_ok cf → sched_inv cf y → step cf y o = Some y' → sched_inv cf y'.
Proof.
  intros Hcf Hinv H. pose proof Hinv as [Ht Hl]. pose proof (step_core _ _ _ _ H) as Hc.
  destruct o as [t id name now|t| | | | | | |]; try (destruct Hc as (s & Hs & ->); by eapply core_step_inv); simpl in H.
  - unfold CreateTask in H. destruct (creating y !! t); [done|]. injection H as <-. by destruct (stop_ y).
  - unfold CreateTask_dispatch in H. destruct (creating y !! t) as [[[id name] now]|]; [|done].
    destruct (DispatchTask cf (NewRoutine id name now) y) as [[b s1]|] eqn:E; simplify_eq/=.
    split; [by apply (tables_ok_DispatchTask cf y (NewRoutine id name now) b)|by apply (DispatchTask_locks cf (NewRoutine id name now) y b)].
  - unfold Shutdown in H. destruct (closing y) as [| | |[|id ids]|]; simplify_eq; simpl.
    + by apply with_stop_inv.
    + by apply shutdown_contexts_inv.
    + done.
    + destruct (decide _); by simplify_eq/=.
    + destruct (RemoveCRoutine cf id y) as [[b s]|] eqn:E; simplify_eq/=. by eapply RemoveCRoutine_inv.
Qed.

Lemma sched_new_held cf : held (sched_new cf) = ∅ ∧ objects (sched_new cf) = ∅.
Proof. unfold sched_new. induction (context_groups cf) as [|g gs IH]; done. Qed.

Lemma reachable_sched_inv cf ops (s : system) :
  conf_ok cf → run (step cf) (system_new cf) ops = Some s → sched_inv cf s.
Proof.
  intros Hcf Hr%run_trace. eapply (trace_invariant _ (λ y : system, sched_inv cf y)); [| |done].
  - cbn [core system_new]. split; [by apply sched_new_tables|]. destruct (sched_new_held cf) as [Hh Ho].
    split; [intros p a|intros p p' a|intros a]; rewrite ?Hh, ?lookup_empty; try done.
    unfold locked. by rewrite Ho, lookup_empty.
  - intros a l b Ha Hs. by eapply sched_inv_step.
Qed.

(** ** Theorems *)

(** C18: after any operations of tasks, processors and timeouts, under both
    policies, the tables agree: a registered coroutine is in exactly one queue,
    the one of its group and priority or of its processor, once, and that queue
    exists (no index out of range); every queued coroutine is registered under
    its id; a coroutine is marked as taken when and only when exactly one
    processor has it. *)
Theorem scheduler_tables_agree cf ops (s : system) :
  conf_ok cf → run (step cf) (system_new cf) ops = Some s →
  (∀ id a, id_cr_ s !! id = Some a → ∃ r, objects s !! a = Some r ∧ id_ r = id ∧ place_ok cf (home cf r) ∧
     ∀ pl, a ∈ queue_of s pl ↔ pl = home cf r) ∧
  (∀ pl a, a ∈ queue_of s pl → ∃ r, objects s !! a = Some r ∧ id_cr_ s !! id_ r = Some a) ∧
  (∀ pl, NoDup (queue_of s pl)) ∧
  (∀ a, locked s a ↔ ∃ p, held s !! p = Some a) ∧
  ∀ p p' a, held s !! p = Some a → held s !! p' = Some a → p = p'.
Proof.
  intros Hcf Hr. destruct (reachable_sched_inv cf ops s Hcf Hr) as [Ht Hl]. split_and!.
  - intros id a Ha. destruct (t_home cf s Ht id a Ha) as (r & Hra & Hid & Hin & Hp). exists r. split_and!; try done.
    intros pl. split; [|by intros ->]. intros Hpl. destruct (t_queued cf s Ht pl a Hpl) as (r' & Hr' & <- & _). congruence.
  - intros pl a Ha. destruct (t_queued cf s Ht pl a Ha) as (r & ? & _ & ?). eauto.
  - apply (t_nodup cf s Ht).
  - intros a. split; [apply (l_locked s Hl)|]. intros [p Hp]. by apply (l_held s Hl p).
  - apply (l_inj s Hl).
Qed.

(** [q] of priority [i] is cut at [a]; everything above was looked at. *)
Lemma scan_order_cut s g n q1 a q2 :
  scan_order s g n = q1 ++ a :: q2 →
  ∃ i u v, (i < n)%nat ∧ pool_queue s g (Z.of_nat i) = u ++ a :: v ∧
    ∀ b, b ∈ u ∨ (∃ j, (i < j < n)%nat ∧ b ∈ pool_queue s g (Z.of_nat j)) → b ∈ q1.
Proof.
  revert q1. induction n as [|n IH]; intros q1 H; simpl in H; [by destruct q1|].
  apply app_eq_inv in H as [(k & H1 & H2)|(k & H1 & H2)].
  - destruct k as [|x k]; simpl in H2.
    + rewrite app_nil_r in H1. destruct (IH [] (eq_sym H2)) as (i & u & v & Hi & Hq & Hb).
      exists i, u, v. split_and!; [lia|done|]. intros b [Hu|(j & Hj & Hin)].
      * exfalso. eapply not_elem_of_nil. apply (Hb b). by left.
      * destruct (decide (j = n)) as [->|]; [by rewrite <- H1|].
        exfalso. eapply not_elem_of_nil. apply (Hb b). right. exists j. split; [lia|done].
    + injection H2 as <- ->. exists n, q1, k. split_and!; [lia|done|]. intros b [?|(j & ? & _)]; [done|lia].
  - destruct (IH k (eq_sym H2)) as (i & u & v & Hi & Hq & Hb) || destruct (IH k H2) as (i & u & v & Hi & Hq & Hb).
    exists i, u, v. split_and!; [lia|done|]. intros b Hbb. rewrite H1, elem_of_app.
    destruct Hbb as [Hu|(j & Hj & Hin)]; [right; apply Hb; by left|].
    destruct (decide (j = n)) as [->|]; [by left|]. right. apply Hb. right. exists j. split; [lia|done].
Qed.

Lemma scan_order_nodup cf s g n : tables_ok cf s → NoDup (scan_order s g n).
Proof.
  intros Ht. induction n as [|n IH]; simpl; [constructor|]. apply NoDup_app. split_and!; [|intros a Ha|done].
  - apply (t_nodup cf s Ht (Pool g (Z.of_nat n))).
  - rewrite elem_of_scan_order. intros (i & Hi & Hin).
    destruct (t_queued cf s Ht (Pool g (Z.of_nat n)) a Ha) as (r & Hr & Hh & _).
    destruct (t_queued cf s Ht (Pool g (Z.of_nat i)) a Hin) as (r' & Hr' & Hh' & _).
    rewrite Hr in Hr'. injection Hr' as <-. rewrite Hh in Hh'. injection Hh' as Hh'. lia.
Qed.

(** Property: a processor of a group gets a coroutine that is ready and free, of the
    highest priority that has one, and the one that was queued first among
    those; it gets none only when none is ready and free.  What it does not get
    keeps its data: only its wait may have ended. *)
Theorem next_routine_takes_highest_priority cf ops (s : system) group now :
  conf_ok cf → run (step cf) (system_new cf) ops = Some s → classic_stop s = false →
  match NextRoutine now (InPool group) s with
  | (None, s') =>
      (∀ i a r, 0 ≤ i < MAX_PRIO → a ∈ pool_queue s group i → objects s !! a = Some r → ¬ pollable now r) ∧
      ∀ b, objects s' !! b = objects s !! b ∨ objects s' !! b = polled now <$> objects s !! b
  | (Some a, s') =>
      ∃ i u v r, 0 ≤ i < MAX_PRIO ∧ pool_queue s group i = u ++ a :: v ∧ objects s !! a = Some r ∧ pollable now r ∧
        objects s' !! a = Some (taken now r) ∧
        (∀ b rb, b ∈ u → objects s !! b = Some rb → ¬ pollable now rb) ∧
        (∀ j b rb, i < j < MAX_PRIO → b ∈ pool_queue s group j → objects s !! b = Some rb → ¬ pollable now rb) ∧
        ∀ b, b ≠ a → objects s' !! b = objects s !! b ∨ objects s' !! b = polled now <$> objects s !! b
  end.
Proof.
  intros Hcf Hr Hstop. destruct (reachable_sched_inv cf ops s Hcf Hr) as [Ht _].
  cbn [NextRoutine]. unfold ClassicContext_NextRoutine. rewrite Hstop, next_prio_scan.
  set (n := Z.to_nat MAX_PRIO). assert (Hn : Z.of_nat n = MAX_PRIO) by done. clearbody n.
  pose proof (scan_spec now (objects s) (scan_order s group n) (scan_order_nodup cf s group n Ht)) as Hs.
  destruct (scan now (objects s) (scan_order s group n)) as [[a|] h].
  - destruct Hs as (q1 & q2 & r & Hq & Ha & Hp & Hq1 & Hh).
    { intros b (i & Hi & Hb)%elem_of_scan_order. destruct (t_queued cf s Ht (Pool group (Z.of_nat i)) b Hb) as (x & Hx & _). eauto. }
    destruct (scan_order_cut _ _ _ _ _ _ Hq) as (i & u & v & Hi & Hqi & Hbefore).
    exists (Z.of_nat i), u, v, r. split_and!; try done; simpl; try lia.
    + rewrite Hh. by rewrite decide_True.
    + intros b rb Hb. apply Hq1, Hbefore. by left.
    + intros j b rb Hj Hb. apply Hq1, Hbefore. right. exists (Z.to_nat j). rewrite Z2Nat.id by lia. split; [lia|done].
    + intros b Hb. rewrite Hh, decide_False by done. case_decide; auto.
  - destruct Hs as [Hnone Hh].
    { intros b (i & Hi & Hb)%elem_of_scan_order. destruct (t_queued cf s Ht (Pool group (Z.of_nat i)) b Hb) as (x & Hx & _). eauto. }
    split.
    + intros i a r Hi Ha. apply Hnone, elem_of_scan_order. exists (Z.to_nat i). rewrite Z2Nat.id by lia. split; [lia|done].
    + intros b. simpl. rewrite Hh. case_decide; auto.
Qed.

(** ** One queue or twenty

    [ChoreographyContext] keeps one multimap where [ClassicContext] has an
    array of queues; as sequences of coroutines to try they are the same. *)
Section OneQueue.
Context (prio : nat → Z).

Inductive qop := QEnqueue (a : nat) | QErase (a : nat).

Definition choreo_qop (q : list (Z * nat)) (o : qop) : list (Z * nat) :=
  match o with
  | QEnqueue a => emplace (prio a) a q
  | QErase a => cr_queue_ (choreo_erase a (mkChoreo q 0 false))
  end.

Definition classic_qop (group : string) (s : sched) (o : qop) : sched :=
  match o with
  | QEnqueue a => set_pool_queue group (prio a) (pool_queue s group (prio a) ++ [a]) s
  | QErase a => set_pool_queue group (prio a) (erase a (pool_queue s group (prio a))) s
  end.

Definition qop_ok (o : qop) : Prop :=
  match o with QEnqueue a | QErase a => 0 ≤ prio a < MAX_PRIO end.

(** The queues of [n] priorities as one, with the keys. *)
Fixpoint flat (s : sched) (group : string) (n : nat) : list (Z * nat) :=
  match n with
  | O => []
  | S i => ((λ a, (Z.of_nat i, a)) <$> pool_queue s group (Z.of_nat i)) ++ flat s group i
  end.

Lemma flat_order s group n : (flat s group n).*2 = scan_order s group n.
Proof using Type.
  induction n as [|i IH]; simpl; [done|]. rewrite fmap_app, IH. f_equal.
  rewrite <- list_fmap_compose. by rewrite (list_fmap_ext _ id) by done; rewrite list_fmap_id.
Qed.

Lemma flat_keys s group n e : e ∈ flat s group n → e.1 < Z.of_nat n.
Proof using Type.
  induction n as [|i IH]; simpl; [by intros ?%elem_of_nil|].
  intros [(a & -> & _)%list_elem_of_fmap|H%IH]%elem_of_app; simpl; lia.
Qed.

(** Behind those of at least its priority, before the others. *)
Lemma emplace_app p a q1 q2 :
  (∀ e, e ∈ q1 → p ≤ e.1) → (∀ e, e ∈ q2 → e.1 < p) → emplace p a (q1 ++ q2) = q1 ++ (p, a) :: q2.
Proof using Type.
  induction q1 as [|[p' a'] q1 IH]; simpl; intros H1 H2.
  - destruct q2 as [|[p' a'] q2]; [done|]. simpl.
    specialize (H2 (p', a') ltac:(left)). simpl in H2. by rewrite (proj2 (Z.ltb_lt _ _)).
  - specialize (H1 (p', a') ltac:(left)) as Hp. simpl in Hp. rewrite (proj2 (Z.ltb_ge _ _)) by done.
    f_equal. apply IH; [|done]. intros e He. apply H1. by right.
Qed.

Lemma pool_queue_set s group p q i :
  zlen (group_queues s group) = MAX_PRIO → 0 ≤ p < MAX_PRIO →
  pool_queue (set_pool_queue group p q s) group i = if decide (i = p) then q else pool_queue s group i.
Proof using Type.
  intros Hl Hp. pose proof (queue_of_set_pool s group p q (Pool group i) Hl Hp) as H. cbn [queue_of] in H.
  rewrite H. destruct (decide (i = p)) as [->|]; [by rewrite decide_True|]. rewrite decide_False by congruence. done.
Qed.

Lemma flat_set_above s group p q n :
  zlen (group_queues s group) = MAX_PRIO → 0 ≤ p < MAX_PRIO → Z.of_nat n ≤ p →
  flat (set_pool_queue group p q s) group n = flat s group n.
Proof using Type.
  intros Hl Hp. induction n as [|i IH]; simpl; intros Hn; [done|].
  rewrite pool_queue_set, decide_False by (done || lia). by rewrite IH by lia.
Qed.

Lemma flat_enqueue s group p a n :
  zlen (group_queues s group) = MAX_PRIO → 0 ≤ p < MAX_PRIO → p < Z.of_nat n →
  flat (set_pool_queue group p (pool_queue s group p ++ [a]) s) group n = emplace p a (flat s group n).
Proof using Type.
  intros Hl Hp. induction n as [|i IH]; intros Hn; [lia|]. cbn [flat]. rewrite pool_queue_set by done.
  destruct (decide (Z.of_nat i = p)) as [E|E].
  - rewrite flat_set_above by (done || lia). rewrite fmap_app, E, <- (assoc_L (++)). simpl. symmetry. apply emplace_app.
    + intros e (b & -> & _)%list_elem_of_fmap. simpl. lia.
    + intros e He%flat_keys. lia.
  - rewrite IH by lia. clear IH. assert (Hi : p < Z.of_nat i) by lia. clear Hn E.
    induction (pool_queue s group (Z.of_nat i)) as [|b q IH]; [done|]. simpl.
    rewrite (proj2 (Z.ltb_ge _ _)) by lia. by f_equal.
Qed.

Lemma flat_erase s group a n :
  zlen (group_queues s group) = MAX_PRIO → 0 ≤ prio a < MAX_PRIO →
  (∀ i b, b ∈ pool_queue s group i → prio b = i) →
  flat (set_pool_queue group (prio a) (erase a (pool_queue s group (prio a))) s) group n =
  filter (λ e, e.2 ≠ a) (flat s group n).
Proof using Type.
  intros Hl Hp Hat. induction n as [|i IH]; cbn [flat]; [done|]. rewrite pool_queue_set by done.
  rewrite filter_app, IH. f_equal. clear IH. unfold erase.
  assert (H : ∀ q : list nat, filter (λ e : Z * nat, e.2 ≠ a) ((λ b, (Z.of_nat i, b)) <$> q) =
    (λ b, (Z.of_nat i, b)) <$> filter (λ x : nat, x ≠ a) q).
  { intros q. induction q as [|b q IH]; [done|]. rewrite fmap_cons, !filter_cons. simpl.
    destruct (decide (b ≠ a)); [rewrite fmap_cons; by f_equal|done]. }
  rewrite H. destruct (decide (Z.of_nat i = prio a)) as [->|E]; [done|]. f_equal.
  symmetry. apply filter_all. intros b Hb ->. apply Hat in Hb. congruence.
Qed.

Record queues_agree (group : string) (q : list (Z * nat)) (s : sched) : Prop := {
  qa_len : zlen (group_queues s group) = MAX_PRIO;
  qa_prio : ∀ i b, b ∈ pool_queue s group i → prio b = i;
  qa_flat : q = flat s group (Z.to_nat MAX_PRIO);
}.

Lemma group_queues_set s group p q : zlen (group_queues (set_pool_queue group p q s) group) = zlen (group_queues s group).
Proof using Type.
  unfold group_queues at 1. unfold set_pool_queue. simpl. rewrite lookup_insert_eq. simpl. apply zlen_zset.
Qed.

Lemma queues_agree_qop group q s o :
  queues_agree group q s → qop_ok o → queues_agree group (choreo_qop q o) (classic_qop group s o).
Proof using Type.
  intros [Hl Hp ->] Ho. destruct o as [a|a]; simpl in Ho |- *.
  - split; [by rewrite group_queues_set| |symmetry; apply flat_enqueue; done || (unfold MAX_PRIO in *; lia)].
    intros i b. rewrite pool_queue_set by done. destruct (decide (i = prio a)) as [->|]; [|apply Hp].
    rewrite elem_of_app. intros [H| ->%list_elem_of_singleton]; [by apply Hp|done].
  - split; [by rewrite group_queues_set| |symmetry; by apply flat_erase].
    intros i b. rewrite pool_queue_set by done. destruct (decide (i = prio a)) as [->|]; [|apply Hp].
    intros [_ H]%list_elem_of_filter. by apply Hp.
Qed.

(** Property: the two kinds of context are equivalent: after the same insertions and
    removals of coroutines with priorities below [MAX_PRIO], whatever the states
    of the coroutines, [NextRoutine] of the multimap and of the array of queues
    take the same coroutine and leave the same. *)
Theorem choreography_equiv_classic group s ops now :
  zlen (group_queues s group) = MAX_PRIO → (∀ i, pool_queue s group i = []) → classic_stop s = false →
  Forall qop_ok ops →
  let q := foldl choreo_qop [] ops in
  let s' := foldl (classic_qop group) s ops in
  ChoreographyContext_NextRoutine now (objects s') (mkChoreo q 0 false) =
  let '(o, t) := ClassicContext_NextRoutine now s' group in (o, objects t).
Proof using Type.
  intros Hl He Hs Hops.
  assert (H0 : queues_agree group [] s).
  { split; [done|intros i b; rewrite He; by intros ?%elem_of_nil|]. unfold MAX_PRIO.
    induction (Z.to_nat 20) as [|n IH]; simpl; [done|]. by rewrite He. }
  assert (H : ∀ q t, queues_agree group q t → classic_stop t = false →
    queues_agree group (foldl choreo_qop q ops) (foldl (classic_qop group) t ops) ∧
    classic_stop (foldl (classic_qop group) t ops) = false).
  { clear Hs H0 He Hl. induction Hops as [|o ops Ho _ IH]; intros q t Hq Ht; [done|]. simpl.
    apply IH; [by apply queues_agree_qop|by destruct o]. }
  destruct (H [] s H0 Hs) as [[_ _ Hq] Hstop]. intros q s'. fold q in Hq. fold s' in Hq, Hstop.
  unfold ChoreographyContext_NextRoutine, ClassicContext_NextRoutine. rewrite Hstop, next_prio_scan. simpl.
  rewrite Hq, flat_order. by destruct (scan now (objects s') _).
Qed.
End OneQueue.

(** ** Shutdown *)

Lemma RemoveCRoutine_total cf id s : sched_inv cf s → held s = ∅ → is_Some (RemoveCRoutine cf id s).
Proof.
  intros [Ht Hl] Hh. destruct (RemoveCRoutine cf id s) as [p|] eqn:E; [by exists p|]. exfalso.
  destruct (id_cr_ s !! id) as [a|] eqn:Ea; [|unfold RemoveCRoutine in E; by rewrite Ea in E].
  destruct (t_home cf s Ht _ _ Ea) as (r & Hr & _).
  pose proof (RemoveCRoutine_spec cf s id a r Ht Ea Hr) as Hs. unfold removal in Hs.
  destruct (lock_ (base_ r)) eqn:El; [|by destruct Hs as (s' & ? & _); congruence].
  destruct (l_locked s Hl a) as [p Hp]; [unfold locked; rewrite Hr; simpl; by rewrite El|].
  by rewrite Hh, lookup_empty in Hp.
Qed.

Lemma scan_order_nil s group n : (∀ i, pool_queue s group i = []) → scan_order s group n = [].
Proof. intros H. induction n as [|n IH]; simpl; [done|]. by rewrite H. Qed.

(** What holds from the beginning of [Shutdown] on, if no [CreateTask] was under
    way then: whatever is registered is going to be removed. *)
Record shut_ok (cf : conf) (y : system) : Prop := {
  sh_inv : sched_inv cf y;
  sh_stop : stop_ y = true;
  sh_none : creating y = ∅;
  sh_ids : match closing y with
           | COpen => False
           | CContexts | CCopy => True
           | CRemove ids => ∀ id, is_Some (id_cr_ y !! id) → id ∈ ids
           | CDone => id_cr_ y = ∅
           end;
}.

(** The tables change in no other way than by removals. *)
Lemma core_step_shrinks cf s o s' : sched_inv cf s → core_step cf s o = Some s' → stop_ s' = stop_ s ∧ id_cr_ s' ⊆ id_cr_ s.
Proof.
  intros Hinv H. destruct o as [|t|crid|crid|p x now|p st until|t g|t i|]; simpl in H; try done.
  - unfold NotifyTask in H. simplify_eq. destruct (stop_ s) eqn:Es; [done|]. destruct (NotifyProcessor_frame cf crid s) as (_ & H2 & H3 & _). by rewrite H2, H3.
  - destruct (RemoveCRoutine cf crid s) as [[b s1]|] eqn:E; simplify_eq/=. destruct (RemoveCRoutine_inv _ _ _ _ _ Hinv E) as (_ & _ & -> & ->). split; [done|]. apply delete_subseteq.
  - destruct (held s !! p) eqn:Hp; [done|]. destruct (NextRoutine now x s) as [o s1] eqn:E. destruct (NextRoutine_locks _ _ _ _ _ E) as (_ & Hst & Hid & _).
    assert (Hr : ∀ a, stop_ (Resume p a s1) = stop_ s1 ∧ id_cr_ (Resume p a s1) = id_cr_ s1) by (intros a; unfold Resume; by repeat case_match).
    destruct o as [a|]; simplify_eq; [destruct (Hr a) as [-> ->]|]; by rewrite Hst, Hid.
  - destruct (held s !! p) as [a|] eqn:Hp; by simplify_eq.
  - unfold ClassicContext_Wait in H. by repeat case_match; simplify_eq.
  - destruct (zget (choreos s) i) as [x|] eqn:Ex; [|done]. unfold ChoreographyContext_Wait in H. by repeat case_match; simplify_eq/=.
Qed.

Lemma shut_step cf y o y' : conf_ok cf → shut_ok cf y → step cf y o = Some y' → shut_ok cf y'.
Proof.
  intros Hcf S H. pose proof S as [H1 H2 H3 H4]. pose proof (sched_inv_step _ _ _ _ Hcf H1 H) as Hinv'. pose proof (step_core _ _ _ _ H) as Hc.
  assert (Hcore : ∀ s, core_step cf y o = Some s → y' = on_core y s → shut_ok cf y').
  { intros s Hs ->. destruct (core_step_shrinks _ _ _ _ H1 Hs) as [E1 E2]. split; simpl; try done; [congruence|].
    destruct (closing y); try done.
    - intros id [a Ha]. apply H4. exists a. by eapply lookup_weaken.
    - apply map_empty. intros id. destruct (id_cr_ s !! id) as [a|] eqn:Ea; [|done]. pose proof (lookup_weaken _ _ _ _ Ea E2) as Hx. by rewrite H4, lookup_empty in Hx. }
  destruct o as [t id name now|t| | | | | | |]; try (destruct Hc as (s & Hs & E); by apply (Hcore s)); simpl in H.
  - unfold CreateTask in H. rewrite H2 in H. destruct (creating y !! t); [done|]. by injection H as <-.
  - unfold CreateTask_dispatch in H. by rewrite H3, lookup_empty in H.
  - unfold Shutdown in H. destruct (closing y) as [| | |[|id ids]|] eqn:Ep; simplify_eq; try done.
    + split; simpl; try done. intros id [a Ha]. apply list_elem_of_fmap. exists (id, a). split; [done|]. by apply elem_of_map_to_list.
    + destruct (decide _); simplify_eq/=. split; try done. apply map_empty. intros id. destruct (id_cr_ y !! id) as [a|] eqn:Ea; [|done].
      by destruct (proj1 (elem_of_nil id) (H4 id (ex_intro _ a Ea))).
    + destruct (RemoveCRoutine cf id y) as [[b s]|] eqn:E; simplify_eq/=. destruct (RemoveCRoutine_inv _ _ _ _ _ H1 E) as (_ & _ & Hs & Hi).
      split; simpl; try done; [congruence|]. intros j Hj. rewrite Hi, lookup_delete in Hj. case_decide as Hne; [by destruct Hj|].
      apply H4 in Hj. apply elem_of_cons in Hj as [->|]; done.
Qed.

(** The steps that [Shutdown] still has to take. *)
Definition steps_left (y : system) : nat :=
  match closing y with
  | COpen => 4 + size (id_cr_ y)
  | CContexts => 3 + size (id_cr_ y)
  | CCopy => 2 + size (id_cr_ y)
  | CRemove ids => 1 + length ids
  | CDone => 0
  end.

Lemma shutdown_goes_on cf (y : system) : sched_inv cf y → held y = ∅ → closing y ≠ CDone →
  ∃ y', Shutdown cf y = Some y' ∧ held y' = ∅ ∧ steps_left y = S (steps_left y').
Proof.
  intros Hinv Hh Hn. unfold Shutdown, steps_left. destruct (closing y) as [| | |[|id ids]|]; try done.
  1, 2: by eexists.
  - eexists. split; [done|]. split; [done|]. simpl. by rewrite length_fmap, length_map_to_list.
  - rewrite decide_True by done. by eexists.
  - destruct (RemoveCRoutine_total cf id y Hinv Hh) as [[b s] E]. rewrite E. destruct (RemoveCRoutine_inv _ _ _ _ _ Hinv E) as (_ & H2 & _ & _).
    eexists. split; [done|]. split; [simpl; congruence|done].
Qed.

Lemma shutdown_ends cf n : ∀ y : system, conf_ok cf → sched_inv cf y → held y = ∅ → steps_left y = n →
  ∃ y', run (step cf) y (replicate n OShutdown) = Some y' ∧ closing y' = CDone.
Proof.
  induction n as [|n IH]; intros y Hcf Hinv Hh Hl.
  - exists y. split; [done|]. unfold steps_left in Hl. by destruct (closing y).
  - destruct (shutdown_goes_on cf y Hinv Hh) as (y1 & E1 & Hh1 & Hl1); [intros E; unfold steps_left in Hl; by rewrite E in Hl|].
    destruct (IH y1) as (y' & E & Hd); try done; [by apply (sched_inv_step cf y OShutdown)|lia|].
    exists y'. split; [|done]. cbn [replicate run]. change (step cf y OShutdown) with (Shutdown cf y). by rewrite E1.
Qed.

Lemma shut_down_leaves_nothing cf (y : system) : shut_ok cf y → closing y = CDone →
  id_cr_ y = ∅ ∧ (∀ pl, queue_of y pl = []) ∧ (∀ now x, (NextRoutine now x y).1 = None) ∧ ∀ t id name now, CreateTask t id name now y = Some y.
Proof.
  intros [[Ht Hl] H2 H3 H4] Hd. rewrite Hd in H4.
  assert (Hq : ∀ pl, queue_of y pl = []).
  { intros pl. destruct (queue_of y pl) as [|a q] eqn:E; [done|]. exfalso.
    destruct (t_queued cf y Ht pl a) as (r & _ & _ & H); [rewrite E; left|]. by rewrite H4, lookup_empty in H. }
  split_and!; try done.
  - intros now [g|i]; simpl.
    + unfold ClassicContext_NextRoutine. destruct (classic_stop y); [done|].
      rewrite next_prio_scan, scan_order_nil; [done|]. intros i. apply (Hq (Pool g i)).
    + destruct (zget (choreos y) i) as [c|] eqn:E; [|done]. specialize (Hq (Choreo i)). simpl in Hq. rewrite E in Hq.
      unfold ChoreographyContext_NextRoutine. rewrite Hq. by destruct (choreo_stop c).
  - intros t id name now. unfold CreateTask. by rewrite H3, lookup_empty, H2.
Qed.


(** ** What the policies do not do *)

(** Property: under the choreography policy a new task wakes no processor: no counter
    that [Wait] tests changes, so processors that wait go on waiting until
    their second has passed; under the classic policy a processor of the
    group may go on at once. *)
Theorem choreography_dispatch_wakes_nobody cf r s s' :
  DispatchTask cf r s = Some (true, s') →
  match policy_ cf with
  | Choreography =>
      (∀ g, ClassicContext_Wait false g s = None → ClassicContext_Wait false g s' = None) ∧
      ∀ i x x', zget (choreos s) i = Some x → zget (choreos s') i = Some x' →
        ChoreographyContext_Wait false x = None → ChoreographyContext_Wait false x' = None
  | Classic =>
      (∀ g n, notify_grp_ s !! g = Some n → 0 ≤ n) →
      ∃ r', classic_assign cf r = Some r' ∧ is_Some (ClassicContext_Wait false (group_name_ r') s')
  end.
Proof.
  unfold DispatchTask, SchedulerClassic_DispatchTask, SchedulerChoreography_DispatchTask. destruct (policy_ cf).
  - destruct (id_cr_ s !! id_ r); [done|]. destruct (classic_assign cf r) as [r'|]; [|done]. intros [= <-] Hn.
    exists r'. split; [done|]. unfold ClassicContext_Wait, ClassicContext_Notify. simpl. rewrite lookup_insert_eq. simpl.
    rewrite (proj2 (Z.ltb_lt _ _)); [by eexists|]. destruct (notify_grp_ s !! group_name_ r') as [n|] eqn:E; simpl; [|lia].
    specialize (Hn _ _ E). lia.
  - destruct (id_cr_ s !! id_ (choreo_assign cf r)); [done|].
    destruct (pid_of (choreo_assign cf r) <? proc_num_ cf).
    + destruct (zget (choreos s) (pid_of (choreo_assign cf r))) as [y|] eqn:Ey; [|done]. intros [= <-].
      split; [intros g; unfold ClassicContext_Wait; simpl; by case_match|]. intros i x x' Hx. simpl. rewrite zget_zset. case_decide as E.
      * destruct E as [<- _]. rewrite Ey in Hx. injection Hx as <-. intros [= <-].
        unfold ChoreographyContext_Wait. simpl. by case_match.
      * rewrite Hx. by intros [= <-].
    + intros [= <-]. split; [intros g; unfold ClassicContext_Wait; simpl; by case_match|].
      simpl. intros i x x' -> [= <-]. done.
Qed.

Definition one_group : conf := mkConf Classic [DEFAULT_GROUP_NAME] ∅ ∅ 0.

(** Property: strict order within a priority: a task that is always ready keeps a
    later one of the same priority from ever running on the only processor. *)
Theorem ready_task_starves_later_one n :
  ∃ s, run (step one_group) (system_new one_group) [OCreate 0 1 "first" 0; ODispatch 0; OCreate 0 2 "second" 0; ODispatch 0] = Some s ∧
    run (step one_group) s (concat (replicate n [ONext 0 (InPool DEFAULT_GROUP_NAME) 1; OSuspend 0 READY 0])) = Some s ∧
    ∀ r, objects s !! 1%nat = Some r → name_ r = "second"%string ∧ pollable 1 r.
Proof.
  eexists. split; [vm_compute; reflexivity|]. split.
  - induction n as [|n IH]; [done|]. change (concat (replicate (S n) ?l)) with (l ++ concat (replicate n l)).
    rewrite run_app. match goal with |- match ?x with _ => _ end = _ => let y := eval vm_compute in x in change x with y end.
    exact IH.
  - vm_compute. intros r [= <-]. done.
Qed.

(** Property: [RemoveTask] computes the id of a task as the hash of its name, where
    [CreateTask] has the id that [RegisterTaskName] gave: when the hashes of
    two names collide, removing the second task removes the first. *)
Theorem remove_task_removes_another :
  ∃ (Hash : string → Z) ids s1 s2,
    fst <$> RegisterAll (DM := AtomicHashMap string) Hash 3 kv_empty ["first"; "second"]%string = Some ids ∧
    run (step one_group) (system_new one_group)
      [OCreate 0 (nth 0 ids 0) "first" 0; ODispatch 0; OCreate 0 (nth 1 ids 0) "second" 0; ODispatch 0] = Some s1 ∧
    RemoveTask Hash one_group "second" s1 = Some (true, s2) ∧
    id_cr_ s2 !! nth 0 ids 0 = None ∧ is_Some (id_cr_ s2 !! nth 1 ids 0).
Proof.
  exists (λ _, 5), [5; 6]. eexists _, _. split; [vm_compute; reflexivity|].
  split; [vm_compute; reflexivity|]. split; [vm_compute; reflexivity|]. split; [vm_compute; reflexivity|].
  vm_compute. by eexists.
Qed.

(** ** Concrete runs *)

Definition demo_conf : conf :=
  mkConf Classic ["a"; DEFAULT_GROUP_NAME]%string (list_to_map [("hi", (30, "a")); ("lo", (3, "a"))]%string) ∅ 0.

Definition demo_choreo : conf :=
  mkConf Choreography [] ∅ (list_to_map [("on0", (7, Some 0)); ("pool", (25, None))]%string) 1.

Lemma list_conf_nonneg {B} (l : list (string * (Z * B))) :
  Forall (λ e, 0 ≤ e.2.1) l → ∀ n p b, (list_to_map l : gmap string (Z * B)) !! n = Some (p, b) → 0 ≤ p.
Proof. intros Hl n p b Hn%elem_of_list_to_map_2. by apply (proj1 (Forall_forall _ _) Hl) in Hn. Qed.

Lemma demo_conf_ok : conf_ok demo_conf ∧ conf_ok demo_choreo.
Proof.
  split; (split; [done|split]); [|apply (list_conf_nonneg [])|apply (list_conf_nonneg [])|]; try done;
    refine (list_conf_nonneg _ _); repeat constructor; simpl; lia.
Qed.

Definition demo_ops : list op :=
  [OCreate 0 1 "lo" 0; ODispatch 0; OCreate 0 2 "other" 0; ODispatch 0; OCreate 0 3 "hi" 0; ODispatch 0; OCreate 0 4 "lo" 0; ODispatch 0; ONext 0 (InPool "a") 1; ONext 1 (InPool "a") 1;
   OSuspend 0 DATA_WAIT 0; OSuspend 1 READY 0; ONotify 3; ORemove 2].

Definition demo_sched : system := default (system_new demo_conf) (run (step demo_conf) (system_new demo_conf) demo_ops).

Lemma demo_runs : run (step demo_conf) (system_new demo_conf) demo_ops = Some demo_sched.
Proof. vm_compute. reflexivity. Qed.

Lemma scheduler_tables_agree_witness :
  run (step demo_conf) (system_new demo_conf) demo_ops = Some demo_sched ∧
  ∀ p p' a, held demo_sched !! p = Some a → held demo_sched !! p' = Some a → p = p'.
Proof.
  split; [apply demo_runs|].
  apply (scheduler_tables_agree demo_conf demo_ops demo_sched (proj1 demo_conf_ok) demo_runs).
Defined.

(** "hi" was clamped to priority 19 and is taken before "lo". *)
Lemma next_routine_takes_highest_priority_witness :
  match NextRoutine 2 (InPool "a") demo_sched with
  | (Some a, _) => ∃ i u v, 0 ≤ i < MAX_PRIO ∧ pool_queue demo_sched "a" i = u ++ a :: v
  | (None, _) => False
  end.
Proof.
  pose proof (next_routine_takes_highest_priority demo_conf demo_ops demo_sched "a" 2
    (proj1 demo_conf_ok) demo_runs ltac:(vm_compute; reflexivity)) as H.
  assert (Hs : is_Some (NextRoutine 2 (InPool "a") demo_sched).1) by (vm_compute; by eexists).
  destruct (NextRoutine 2 (InPool "a") demo_sched) as [[a|] s']; [|by destruct Hs].
  destruct H as (i & u & v & r & H1 & H2 & _). eauto.
Defined.

(** [Shutdown] with a removal, a notification and a [CreateTask] between its
    steps. *)
Definition demo_shutdown : list op := [OCreate 7 9 "late" 0; OShutdown; ONotify 1; ORemove 3; OShutdown; OShutdown].


(** A [CreateTask] that has found [stop_] unset dispatches after [Shutdown] has
    copied the ids: the coroutine stays registered and queued when [Shutdown]
    has returned, and nobody will remove it. *)
Theorem task_created_during_shutdown :
  ∃ s, run (step one_group) (system_new one_group)
    [OCreate 0 1 "late" 0; OShutdown; OShutdown; OShutdown; ODispatch 0; OShutdown] = Some s ∧
    closing s = CDone ∧ id_cr_ s !! 1 = Some 0%nat ∧ pool_queue s DEFAULT_GROUP_NAME 0 = [0%nat].
Proof. eexists. split; [vm_compute; reflexivity|]. by split_and!. Qed.

Lemma choreography_equiv_classic_witness :
  Forall (qop_ok (λ a, Z.of_nat a)) [QEnqueue 3; QEnqueue 5; QErase 3] ∧
  ChoreographyContext_NextRoutine 0 ∅ (mkChoreo [(5, 5%nat)] 0 false) = (None, ∅).
Proof.
  assert (Hops : Forall (qop_ok (λ a, Z.of_nat a)) [QEnqueue 3; QEnqueue 5; QErase 3]) by (repeat constructor; simpl; done).
  split; [done|].
  pose proof (choreography_equiv_classic (λ a, Z.of_nat a) "g" (mkSched false ∅ 0 ∅ ∅ ∅ [] false ∅)
    [QEnqueue 3; QEnqueue 5; QErase 3] 0 eq_refl) as H.
  cbv zeta in H. etransitivity; [apply H|vm_compute; reflexivity]; [|done|done].
  intros i. by apply pool_queue_empty.
Defined.

Lemma choreography_dispatch_wakes_nobody_witness :
  let s := sched_new demo_choreo in
  ∃ s', DispatchTask demo_choreo (NewRoutine 7 "pool" 0) s = Some (true, s') ∧
    (ClassicContext_Wait false DEFAULT_GROUP_NAME s = None → ClassicContext_Wait false DEFAULT_GROUP_NAME s' = None).
Proof.
  intros s. destruct (DispatchTask demo_choreo (NewRoutine 7 "pool" 0) s) as [[[] s']|] eqn:E;
    [|vm_compute in E; discriminate..].
  exists s'. split; [done|]. apply (choreography_dispatch_wakes_nobody demo_choreo _ s s' E).
Defined.
