(* ===== verification/Warehouse.v ===== *)
(** * Roles and warehouses

    [RoleBase], [RoleWriter] and [RoleServer]
    ([src/code/cyber/service_discovery/role/role.h], [role.cc]) and the two
    warehouses that keep them by a key ([container/single_value_warehouse.cc],
    [container/multi_value_warehouse.cc]).  [Warehouse] is what the managers
    rely on: a bag of keyed roles.  The order in which the hash tables are
    traversed is not specified, so the laws are up to permutation. *)

From stdpp Require Import base list strings gmap fin_maps sorting.
From S2P Require Import Prelude.

(** ** Roles

    The optional fields of the protobuf message that the managers use. *)
Record RoleAttributes := mkAttr {
  host_name : option string; process_id : option Z;
  node_name : option string; node_id : option Z;
  channel_name : option string; channel_id : option Z;
  message_type : option string; proto_desc : option string;
  id : option Z;
  service_name : option string; service_id : option Z }.

#[global] Instance RoleAttributes_eq_dec : EqDecision RoleAttributes.
Proof. solve_decision. Defined.

(** The classes derived from [RoleBase]; a reader is a [RoleWriter], a client
    a [RoleServer], a node a [RoleBase]. *)
Inductive role_class := RoleBase | RoleWriter | RoleServer.

#[global] Instance role_class_eq_dec : EqDecision role_class.
Proof. solve_decision. Defined.

Record Role := mkRole { class_ : role_class; attributes : RoleAttributes; timestamp_ns : Z }.

#[global] Instance Role_eq_dec : EqDecision Role.
Proof. solve_decision. Defined.

(** [!(target.has_f() && target.f() != attributes_.f())]; an absent field
    reads as its default. *)
Definition agrees {A} `{EqDecision A} (d : A) (target own : option A) : bool :=
  match target with Some v => bool_decide (v = default d own) | None => true end.

Definition RoleBase_Match (own target : RoleAttributes) : bool :=
  agrees 0 (node_id target) (node_id own) && agrees 0 (process_id target) (process_id own) &&
  agrees EmptyString (host_name target) (host_name own).

Definition RoleWriter_Match (own target : RoleAttributes) : bool :=
  agrees 0 (channel_id target) (channel_id own) && agrees 0 (id target) (id own) && RoleBase_Match own target.

Definition RoleServer_Match (own target : RoleAttributes) : bool :=
  agrees 0 (service_id target) (service_id own) && RoleBase_Match own target.

Definition Match (r : Role) (target : RoleAttributes) : bool :=
  match class_ r with
  | RoleBase => RoleBase_Match (attributes r) target
  | RoleWriter => RoleWriter_Match (attributes r) target
  | RoleServer => RoleServer_Match (attributes r) target
  end.

Definition IsEarlierThan (r other : Role) : bool := timestamp_ns r <? timestamp_ns other.

Lemma agrees_spec {A} `{EqDecision A} (d : A) target own :
  agrees d target own = true ↔ ∀ v, target = Some v → default d own = v.
Proof.
  unfold agrees. destruct target as [v|]; [rewrite bool_decide_eq_true|]; naive_solver.
Qed.

Lemma agrees_self {A} `{EqDecision A} (d : A) (own : option A) : agrees d own own = true.
Proof. apply agrees_spec. by intros v ->. Qed.

(** A role matches its own attributes. *)
Lemma Match_self r : Match r (attributes r) = true.
Proof.
  unfold Match, RoleWriter_Match, RoleServer_Match, RoleBase_Match. case_match; by rewrite !agrees_self.
Qed.

(** ** The interface

    [entries] is the bag; every operation is described by it. *)
Class Warehouse (W : Type) := {
  entries : W → list (Z * Role);
  wh_empty : W;
  Add : Z → Role → bool → W → bool * W;
  Size : W → nat;
  Remove_key : Z → W → W;
  Remove_role : Z → Role → W → W;
  Remove_attr : RoleAttributes → W → W;
  Search_first : Z → W → option Role;
  Search_roles : Z → W → list Role → bool * list Role;
  Search_attr_first : RoleAttributes → W → option Role;
  Search_attr_roles : RoleAttributes → W → list Role → bool * list Role;
  GetAllRoles : W → list Role → list Role;
}.

(** [multi]: whether a key may have several roles. *)
Class WarehouseLaws (W : Type) `{!Warehouse W} (multi : bool) := {
  entries_empty : entries wh_empty = [];
  entries_Add k r ign w :
    let taken := existsb (λ e : Z * Role, e.1 =? k) (entries w) in
    Add k r ign w = (ign || negb taken, (Add k r ign w).2) ∧
    entries (Add k r ign w).2 ≡ₚ
      if ign || negb taken
      then (k, r) :: (if multi then entries w else filter (λ e, e.1 ≠ k) (entries w))
      else entries w;
  entries_single w : multi = false → NoDup (entries w).*1;
  Size_entries w : Size w = length (entries w);
  entries_Remove_key k w : entries (Remove_key k w) ≡ₚ filter (λ e, e.1 ≠ k) (entries w);
  entries_Remove_role k r w :
    entries (Remove_role k r w) ≡ₚ
    filter (λ e, ¬ (e.1 = k ∧ Match e.2 (attributes r) = true)) (entries w);
  entries_Remove_attr t w :
    entries (Remove_attr t w) ≡ₚ filter (λ e, Match e.2 t = false) (entries w);
  Search_first_entries k w :
    match Search_first k w with
    | Some r => (k, r) ∈ entries w
    | None => ∀ r, (k, r) ∉ entries w
    end;
  Search_roles_entries k w acc : ∃ l,
    Search_roles k w acc = (bool_decide (l ≠ []), acc ++ l) ∧
    l ≡ₚ (filter (λ e, e.1 = k) (entries w)).*2;
  Search_attr_first_entries t w :
    match Search_attr_first t w with
    | Some r => Match r t = true ∧ r ∈ (entries w).*2
    | None => ∀ r, r ∈ (entries w).*2 → Match r t = false
    end;
  Search_attr_roles_entries t w acc : ∃ l,
    Search_attr_roles t w acc = (bool_decide (l ≠ []), acc ++ l) ∧
    l ≡ₚ filter (λ r, Match r t = true) (entries w).*2;
  GetAllRoles_entries w acc : ∃ l, GetAllRoles w acc = acc ++ l ∧ l ≡ₚ (entries w).*2;
}.

(** ** [SingleValueWarehouse]: [std::unordered_map] *)
Module Single.

Record SingleValueWarehouse := mkSingle { roles_ : gmap Z Role }.

Definition Add (key : Z) (role : Role) (ignore_if_exist : bool) (w : SingleValueWarehouse) : bool * SingleValueWarehouse :=
  if negb ignore_if_exist && bool_decide (is_Some (roles_ w !! key)) then (false, w)
  else (true, mkSingle (<[key := role]> (roles_ w))).

Definition Clear (w : SingleValueWarehouse) : SingleValueWarehouse := mkSingle ∅.

Definition Size (w : SingleValueWarehouse) : nat := size (roles_ w).

Definition Remove_key (key : Z) (w : SingleValueWarehouse) : SingleValueWarehouse := mkSingle (delete key (roles_ w)).

Definition Remove_role (key : Z) (role : Role) (w : SingleValueWarehouse) : SingleValueWarehouse :=
  match roles_ w !! key with
  | None => w
  | Some r => if Match r (attributes role) then mkSingle (delete key (roles_ w)) else w
  end.

Definition Remove_attr (t : RoleAttributes) (w : SingleValueWarehouse) : SingleValueWarehouse :=
  mkSingle (filter (λ e, Match e.2 t = false) (roles_ w)).

Definition Search_first (key : Z) (w : SingleValueWarehouse) : option Role := roles_ w !! key.

Definition Search_roles (key : Z) (w : SingleValueWarehouse) (acc : list Role) : bool * list Role :=
  match Search_first key w with Some r => (true, acc ++ [r]) | None => (false, acc) end.

(** The first one that matches, in the order of the traversal. *)
Definition first_match (t : RoleAttributes) (l : list Role) : option Role :=
  snd <$> list_find (λ r, Match r t = true) l.

Definition all_matches (t : RoleAttributes) (l acc : list Role) : bool * list Role :=
  foldl (λ p r, if Match r t then (true, p.2 ++ [r]) else p) (false, acc) l.

Definition in_order (w : SingleValueWarehouse) : list Role := (map_to_list (roles_ w)).*2.

Definition Search_attr_first (t : RoleAttributes) (w : SingleValueWarehouse) : option Role := first_match t (in_order w).

Definition Search_attr_roles (t : RoleAttributes) (w : SingleValueWarehouse) (acc : list Role) : bool * list Role :=
  all_matches t (in_order w) acc.

Definition GetAllRoles (w : SingleValueWarehouse) (acc : list Role) : list Role := acc ++ in_order w.

End Single.

(** ** [MultiValueWarehouse]: [std::unordered_multimap] *)
Module Multi.

(** In the order of the traversal, in which the roles of a key are adjacent. *)
Record MultiValueWarehouse := mkMulti { roles_ : list (Z * Role) }.

Definition find (key : Z) (l : list (Z * Role)) : option (Z * Role) := snd <$> list_find (λ e, e.1 = key) l.

(** [insert]: next to the roles of the same key. *)
Fixpoint insert (key : Z) (role : Role) (l : list (Z * Role)) : list (Z * Role) :=
  match l with
  | [] => [(key, role)]
  | e :: l => if decide (e.1 = key) then (key, role) :: e :: l else e :: insert key role l
  end.

Definition Add (key : Z) (role : Role) (ignore_if_exist : bool) (w : MultiValueWarehouse) : bool * MultiValueWarehouse :=
  if negb ignore_if_exist && bool_decide (is_Some (find key (roles_ w))) then (false, w)
  else (true, mkMulti (insert key role (roles_ w))).

Definition Clear (w : MultiValueWarehouse) : MultiValueWarehouse := mkMulti [].

Definition Size (w : MultiValueWarehouse) : nat := length (roles_ w).

Definition Remove_key (key : Z) (w : MultiValueWarehouse) : MultiValueWarehouse :=
  mkMulti (filter (λ e, e.1 ≠ key) (roles_ w)).

(** The loops with [erase] over the range of a key and over everything. *)
Fixpoint erase_if (p : Z * Role → bool) (l : list (Z * Role)) : list (Z * Role) :=
  match l with [] => [] | e :: l => if p e then erase_if p l else e :: erase_if p l end.

Definition Remove_role (key : Z) (role : Role) (w : MultiValueWarehouse) : MultiValueWarehouse :=
  mkMulti (erase_if (λ e, (e.1 =? key) && Match e.2 (attributes role)) (roles_ w)).

Definition Remove_attr (t : RoleAttributes) (w : MultiValueWarehouse) : MultiValueWarehouse :=
  mkMulti (erase_if (λ e, Match e.2 t) (roles_ w)).

Definition Search_first (key : Z) (w : MultiValueWarehouse) : option Role := snd <$> find key (roles_ w).

Definition Search_roles (key : Z) (w : MultiValueWarehouse) (acc : list Role) : bool * list Role :=
  foldl (λ p e, if e.1 =? key then (true, p.2 ++ [e.2]) else p) (false, acc) (roles_ w).

Definition Search_attr_first (t : RoleAttributes) (w : MultiValueWarehouse) : option Role :=
  Single.first_match t (roles_ w).*2.

Definition Search_attr_roles (t : RoleAttributes) (w : MultiValueWarehouse) (acc : list Role) : bool * list Role :=
  Single.all_matches t (roles_ w).*2 acc.

Definition GetAllRoles (w : MultiValueWarehouse) (acc : list Role) : list Role := acc ++ (roles_ w).*2.

End Multi.

#[export] Instance Single_Warehouse : Warehouse Single.SingleValueWarehouse := {
  entries w := map_to_list (Single.roles_ w);
  wh_empty := Single.mkSingle ∅;
  Add := Single.Add; Size := Single.Size;
  Remove_key := Single.Remove_key; Remove_role := Single.Remove_role; Remove_attr := Single.Remove_attr;
  Search_first := Single.Search_first; Search_roles := Single.Search_roles;
  Search_attr_first := Single.Search_attr_first; Search_attr_roles := Single.Search_attr_roles;
  GetAllRoles := Single.GetAllRoles;
}.

#[export] Instance Multi_Warehouse : Warehouse Multi.MultiValueWarehouse := {
  entries w := Multi.roles_ w;
  wh_empty := Multi.mkMulti [];
  Add := Multi.Add; Size := Multi.Size;
  Remove_key := Multi.Remove_key; Remove_role := Multi.Remove_role; Remove_attr := Multi.Remove_attr;
  Search_first := Multi.Search_first; Search_roles := Multi.Search_roles;
  Search_attr_first := Multi.Search_attr_first; Search_attr_roles := Multi.Search_attr_roles;
  GetAllRoles := Multi.GetAllRoles;
}.

(** ** Both keep the laws *)

(** The loops that collect what matches. *)
Lemma collect_spec {A B} (p : A → bool) (f : A → B) l b acc :
  foldl (λ q e, if p e then (true, q.2 ++ [f e]) else q) (b, acc) l =
  (b || bool_decide (filter (λ e, p e = true) l ≠ []), acc ++ (f <$> filter (λ e, p e = true) l)).
Proof.
  revert b acc. induction l as [|e l IH]; intros b acc; simpl; [by rewrite orb_false_r, app_nil_r|].
  rewrite filter_cons. destruct (p e); rewrite IH; simpl.
  - rewrite orb_true_r. by rewrite <- (assoc_L (++)).
  - done.
Qed.

Lemma all_matches_spec t l acc :
  Single.all_matches t l acc =
  (bool_decide (filter (λ r, Match r t = true) l ≠ []), acc ++ filter (λ r, Match r t = true) l).
Proof. unfold Single.all_matches. rewrite (collect_spec (λ r, Match r t) (@Datatypes.id Role)). by rewrite list_fmap_id. Qed.

Lemma first_match_spec t l :
  match Single.first_match t l with
  | Some r => Match r t = true ∧ r ∈ l
  | None => ∀ r, r ∈ l → Match r t = false
  end.
Proof.
  unfold Single.first_match. destruct (list_find (λ r, Match r t = true) l) as [[i r]|] eqn:E; simpl.
  - apply list_find_Some in E as (H1 & H2 & _). split; [done|]. by apply list_elem_of_lookup_2 in H1.
  - apply list_find_None in E. intros r Hr. rewrite Forall_forall in E. specialize (E r Hr). by destruct (Match r t).
Qed.

Lemma erase_if_filter p (l : list (Z * Role)) : Multi.erase_if p l = filter (λ e, p e = false) l.
Proof. induction l as [|e l IH]; simpl; [done|]. rewrite filter_cons, IH. by destruct (p e). Qed.

Lemma insert_perm key role l : Multi.insert key role l ≡ₚ (key, role) :: l.
Proof.
  induction l as [|e l IH]; simpl; [done|]. case_decide; [done|]. rewrite IH. apply Permutation_swap.
Qed.

Lemma existsb_key (k : Z) (l : list (Z * Role)) : existsb (λ e, e.1 =? k) l = bool_decide (k ∈ l.*1).
Proof.
  apply eq_true_iff_eq. rewrite existsb_exists, bool_decide_eq_true, list_elem_of_fmap. split.
  - intros (e & Hin & Hk%Z.eqb_eq). exists e. split; [done|]. by apply list_elem_of_In.
  - intros (e & -> & Hin). exists e. split; [by apply list_elem_of_In|]. apply Z.eqb_refl.
Qed.

Lemma map_to_list_filter_delete (m : gmap Z Role) k :
  map_to_list (delete k m) ≡ₚ filter (λ e, e.1 ≠ k) (map_to_list m).
Proof.
  apply NoDup_Permutation; [apply NoDup_map_to_list|apply NoDup_filter, NoDup_map_to_list|].
  intros [j r]. rewrite elem_of_map_to_list, lookup_delete_Some, list_elem_of_filter, elem_of_map_to_list. simpl.
  naive_solver.
Qed.

Lemma map_to_list_key (m : gmap Z Role) k :
  filter (λ e, e.1 = k) (map_to_list m) ≡ₚ match m !! k with Some r => [(k, r)] | None => [] end.
Proof.
  apply NoDup_Permutation; [apply NoDup_filter, NoDup_map_to_list|destruct (m !! k); [apply NoDup_singleton|constructor]|].
  intros [j r]. rewrite list_elem_of_filter, elem_of_map_to_list. simpl. destruct (m !! k) eqn:E; set_solver.
Qed.

#[export] Instance Single_laws : WarehouseLaws Single.SingleValueWarehouse false.
Proof.
  split; simpl.
  - apply map_to_list_empty.
  - intros k r ign [m]. rewrite existsb_key. simpl. unfold Single.Add. simpl.
    assert (E : bool_decide (k ∈ (map_to_list m).*1) = bool_decide (is_Some (m !! k))).
    { apply bool_decide_ext. rewrite list_elem_of_fmap. split.
      - intros ([j x] & -> & Hx%elem_of_map_to_list). by exists x.
      - intros [x Hx]. exists (k, x). by rewrite elem_of_map_to_list. }
    rewrite E. destruct ign; simpl; [|destruct (bool_decide (is_Some (m !! k))) eqn:Ek; simpl]; (split; [done|]); [|done|].
    all: rewrite <- map_to_list_filter_delete, <- map_to_list_insert by apply lookup_delete_eq; by rewrite insert_delete_eq.
  - intros [m] _. apply NoDup_fst_map_to_list.
  - intros [m]. unfold Single.Size. simpl. by rewrite <- length_map_to_list.
  - intros k [m]. apply map_to_list_filter_delete.
  - intros k r [m]. unfold Single.Remove_role. simpl. destruct (m !! k) as [x|] eqn:E; [destruct (Match x _) eqn:Em|]; simpl.
    + rewrite map_to_list_filter_delete. rewrite (filter_iff_eq _ (λ e, ¬ (e.1 = k ∧ Match e.2 (attributes r) = true))); [done|].
      intros [j y] Hy%elem_of_map_to_list. simpl. split; [naive_solver|]. intros H ->. naive_solver.
    + rewrite filter_all; [done|]. intros [j y] Hy%elem_of_map_to_list [Hj Hm]. simpl in *. congruence.
    + rewrite filter_all; [done|]. intros [j y] Hy%elem_of_map_to_list [Hj Hm]. simpl in *. congruence.
  - intros t [m]. simpl. apply NoDup_Permutation; [apply NoDup_map_to_list|apply NoDup_filter, NoDup_map_to_list|].
    intros [j r]. rewrite elem_of_map_to_list, map_lookup_filter_Some, list_elem_of_filter, elem_of_map_to_list. naive_solver.
  - intros k [m]. unfold Single.Search_first. simpl. destruct (m !! k) as [r|] eqn:E; [by apply elem_of_map_to_list|].
    intros r Hr%elem_of_map_to_list. congruence.
  - intros k [m] acc. unfold Single.Search_roles, Single.Search_first. simpl. destruct (m !! k) as [r|] eqn:E.
    + exists [r]. split; [done|]. by rewrite map_to_list_key, E.
    + exists []. split; [by rewrite app_nil_r|]. by rewrite map_to_list_key, E.
  - intros t [m]. apply first_match_spec.
  - intros t [m] acc. eexists. split; [apply all_matches_spec|done].
  - intros [m] acc. eexists. split; done.
Qed.

#[export] Instance Multi_laws : WarehouseLaws Multi.MultiValueWarehouse true.
Proof.
  split; simpl.
  - done.
  - intros k r ign [l]. rewrite existsb_key. simpl. unfold Multi.Add. simpl.
    assert (E : bool_decide (k ∈ l.*1) = bool_decide (is_Some (Multi.find k l))).
    { apply bool_decide_ext. unfold Multi.find. rewrite list_elem_of_fmap. split.
      - intros (e & -> & Hx). destruct (list_find (λ e', e'.1 = e.1) l) as [[i x]|] eqn:Ef; simpl; [by eexists|].
        apply list_find_None in Ef. rewrite Forall_forall in Ef. by destruct (Ef e Hx).
      - intros [e He]. apply fmap_Some in He as ([i e'] & Ef & ->). apply list_find_Some in Ef as (H1 & H2 & _).
        exists e'. split; [done|]. by apply list_elem_of_lookup_2 in H1. }
    rewrite E. destruct ign; simpl; [split; [done|apply insert_perm]|].
    destruct (bool_decide (is_Some (Multi.find k l))); simpl; (split; [done|]); [done|apply insert_perm].
  - done.
  - done.
  - intros k [l]. done.
  - intros k r [l]. unfold Multi.Remove_role. simpl. rewrite erase_if_filter.
    rewrite (filter_iff_eq _ (λ e, ¬ (e.1 = k ∧ Match e.2 (attributes r) = true))); [done|].
    intros [j y] _. simpl. rewrite andb_false_iff, Z.eqb_neq. destruct (Match y (attributes r)); naive_solver.
  - intros t [l]. unfold Multi.Remove_attr. simpl. by rewrite erase_if_filter.
  - intros k [l]. unfold Multi.Search_first, Multi.find. simpl.
    destruct (list_find (λ e, e.1 = k) l) as [[i [k' r]]|] eqn:E; simpl.
    + apply list_find_Some in E as (H1 & H2 & _). simpl in H2. subst. by apply list_elem_of_lookup_2 in H1.
    + apply list_find_None in E. rewrite Forall_forall in E. intros r Hr. by apply (E (k, r) Hr).
  - intros k [l] acc. unfold Multi.Search_roles. simpl. rewrite (collect_spec (λ e : Z * Role, e.1 =? k) snd).
    assert (E : filter (λ e : Z * Role, (e.1 =? k) = true) l = filter (λ e, e.1 = k) l).
    { apply filter_iff_eq. intros e _. by rewrite Z.eqb_eq. }
    rewrite E. exists ((filter (λ e, e.1 = k) l).*2). split; [|done]. simpl. do 2 f_equal.
    apply bool_decide_ext. split; intros H1 H2; apply H1; [by apply fmap_nil_inv in H2|by rewrite H2].
  - intros t [l]. apply first_match_spec.
  - intros t [l] acc. eexists. split; [apply all_matches_spec|done].
  - intros [l] acc. eexists. split; done.
Qed.
