(* ===== verification/Managers.v ===== *)
(** * Who is in the topology

    The managers of [src/code/cyber/service_discovery/specific_manager]:
    [Manager] ([manager.cc]) and, derived from it, [NodeManager],
    [ChannelManager] and [ServiceManager], over which [Topology] puts
    [TopologyManager].  A join or leave, of this process
    or announced by another one, changes the warehouses and, for channels, the
    graph, and is signalled to the listeners.  The warehouses are used through
    their interface.  The keys of names are what [GlobalData] registered. *)

From stdpp Require Import base list strings gmap fin_maps.
From S2P Require Import Prelude Graph Warehouse.

Inductive OperateType := OPT_JOIN | OPT_LEAVE.
Inductive RoleType := ROLE_NODE | ROLE_WRITER | ROLE_READER | ROLE_SERVER | ROLE_CLIENT | ROLE_PARTICIPANT.
Inductive ChangeType := CHANGE_NODE | CHANGE_CHANNEL | CHANGE_SERVICE | CHANGE_PARTICIPANT.

#[global] Instance OperateType_eq_dec : EqDecision OperateType.
Proof. solve_decision. Defined.

#[global] Instance RoleType_eq_dec : EqDecision RoleType.
Proof. solve_decision. Defined.

Definition RoleType_number (r : RoleType) : Z :=
  match r with
  | ROLE_NODE => 1 | ROLE_WRITER => 2 | ROLE_READER => 3 | ROLE_SERVER => 4 | ROLE_CLIENT => 5 | ROLE_PARTICIPANT => 6
  end.

Record ChangeMsg := mkChange {
  timestamp : Z; change_type : ChangeType; operate_type : OperateType; role_type : RoleType; role_attr : RoleAttributes }.

Definition key_of (k : option Z) : Z := default 0 k.

Definition with_host (h : option string) (p : option Z) (a : RoleAttributes) : RoleAttributes :=
  mkAttr h p (node_name a) (node_id a) (channel_name a) (channel_id a) (message_type a) (proto_desc a) (id a)
    (service_name a) (service_id a).

Definition no_attr : RoleAttributes := mkAttr None None None None None None None None None None None.

(** ** [Manager]

    [S] is the state of the derived class and [DisposeJoin] and the others its
    overrides; they know the host and process of the manager. *)
Record Manager (S : Type) := mkManager {
  is_shutdown_ : bool; is_discovery_started_ : bool; allowed_role_ : Z; change_type_ : ChangeType;
  host_name_ : string; process_id_ : Z;
  impl : S; notified : list ChangeMsg; published : list ChangeMsg }.

Arguments mkManager {S}.
Arguments is_shutdown_ {S}.
Arguments is_discovery_started_ {S}.
Arguments allowed_role_ {S}.
Arguments change_type_ {S}.
Arguments host_name_ {S}.
Arguments process_id_ {S}.
Arguments impl {S}.
Arguments notified {S}.
Arguments published {S}.

Class ManagerOps (S : Type) := {
  CheckAttr : RoleAttributes → bool;
  DisposeJoin : string → Z → ChangeMsg → S → S;
  DisposeLeave : ChangeMsg → S → S;
}.

Section Manager.
Context {S : Type} `{!ManagerOps S}.
Implicit Types m : Manager S.

Definition with_impl m (s : S) : Manager S :=
  mkManager (is_shutdown_ m) (is_discovery_started_ m) (allowed_role_ m) (change_type_ m) (host_name_ m) (process_id_ m)
    s (notified m) (published m).

Definition Notify (msg : ChangeMsg) m : Manager S :=
  mkManager (is_shutdown_ m) (is_discovery_started_ m) (allowed_role_ m) (change_type_ m) (host_name_ m) (process_id_ m)
    (impl m) (notified m ++ [msg]) (published m).

(** [write_ok] is what the publisher answers. *)
Definition Publish (write_ok : bool) (msg : ChangeMsg) m : bool * Manager S :=
  if is_discovery_started_ m
  then (write_ok,
        mkManager (is_shutdown_ m) (is_discovery_started_ m) (allowed_role_ m) (change_type_ m) (host_name_ m)
          (process_id_ m) (impl m) (notified m) (published m ++ [msg]))
  else (false, m).

Definition Convert m (attr : RoleAttributes) (role : RoleType) (opt : OperateType) (now : Z) : ChangeMsg :=
  mkChange now (change_type_ m) opt role
    (with_host (Some (default (host_name_ m) (host_name attr))) (Some (default (process_id_ m) (process_id attr))) attr).

Definition Dispose (msg : ChangeMsg) m : Manager S :=
  Notify msg
    (with_impl m
       (match operate_type msg with
        | OPT_JOIN => DisposeJoin (host_name_ m) (process_id_ m) msg (impl m)
        | OPT_LEAVE => DisposeLeave msg (impl m)
        end)).

Definition allows m (role : RoleType) : bool :=
  negb (Z.land (Z.shiftl 1 (RoleType_number role)) (allowed_role_ m) =? 0).

Definition Join m (attr : RoleAttributes) (role : RoleType) (need_publish : bool) (now : Z) (write_ok : bool) : bool * Manager S :=
  if is_shutdown_ m then (false, m)
  else if negb (allows m role) then (false, m)
  else if negb (CheckAttr attr) then (false, m)
  else
    let msg := Convert m attr role OPT_JOIN now in
    let m := Dispose msg m in
    if need_publish then Publish write_ok msg m else (true, m).

Definition Leave m (attr : RoleAttributes) (role : RoleType) (now : Z) (write_ok : bool) : bool * Manager S :=
  if is_shutdown_ m then (false, m)
  else if negb (allows m role) then (false, m)
  else if negb (CheckAttr attr) then (false, m)
  else
    let msg := Convert m attr role OPT_LEAVE now in
    Publish write_ok msg (Dispose msg m).

Definition IsFromSameProcess m (msg : ChangeMsg) : bool :=
  bool_decide (default 0 (process_id (role_attr msg)) = process_id_ m) &&
  bool_decide (default EmptyString (host_name (role_attr msg)) = host_name_ m).

(** [msg] is what was parsed, when it could be. *)
Definition OnRemoteChange m (msg : option ChangeMsg) : Manager S :=
  if is_shutdown_ m then m
  else
    match msg with
    | None => m
    | Some msg =>
        if IsFromSameProcess m msg then m
        else if negb (CheckAttr (role_attr msg)) then m
        else Dispose msg m
    end.

(** [StartDiscovery], given whether there is a participant and whether publisher
    and subscriber were created; and [Shutdown]. *)
Definition set_started (b : bool) m : Manager S :=
  mkManager (is_shutdown_ m) b (allowed_role_ m) (change_type_ m) (host_name_ m) (process_id_ m)
    (impl m) (notified m) (published m).

Definition StartDiscovery (participant created : bool) m : bool * Manager S :=
  if negb participant then (false, m)
  else if is_discovery_started_ m then (true, m)
  else if created then (true, set_started true m)
  else (false, set_started false m).

Definition Manager_Shutdown m : Manager S :=
  if is_shutdown_ m then m
  else mkManager true false (allowed_role_ m) (change_type_ m) (host_name_ m) (process_id_ m)
         (impl m) (notified m) (published m).

(** [for (auto& role : roles) { Convert(...); Notify(msg); }] *)
Definition notify_leaves (role : RoleType) (now : Z) (rs : list Role) m : Manager S :=
  foldl (λ m r, Notify (Convert m (attributes r) role OPT_LEAVE now) m) m rs.
End Manager.

(** The attributes that stand for all roles of a process. *)
Definition of_process (host : string) (pid : Z) : RoleAttributes := with_host (Some host) (Some pid) no_attr.

(** ** [NodeManager] *)
Section NodeManager.
Context {W : Type} `{!Warehouse W}.

(** [async_shutdown]: this process was told to stop. *)
Record NodeState := mkNodes { nodes_ : W; async_shutdown : bool }.

Definition NodeManager_Check (attr : RoleAttributes) : bool :=
  bool_decide (is_Some (node_name attr)) && bool_decide (is_Some (node_id attr)).

Definition NodeManager_DisposeJoin (host : string) (pid : Z) (msg : ChangeMsg) (s : NodeState) : NodeState :=
  let node := mkRole RoleBase (role_attr msg) (timestamp msg) in
  let key := key_of (node_id (role_attr msg)) in
  let '(added, w) := Add key node false (nodes_ s) in
  if added then mkNodes w (async_shutdown s)
  else
    match Search_first key w with
    | None => mkNodes (Add key node true w).2 (async_shutdown s)
    | Some existing =>
        let '(newer, w) :=
          if IsEarlierThan node existing then (existing, (Add key node true w).2) else (node, w) in
        mkNodes w
          (async_shutdown s ||
           (bool_decide (default 0 (process_id (attributes newer)) = pid) &&
            bool_decide (default EmptyString (host_name (attributes newer)) = host)))
    end.

Definition NodeManager_DisposeLeave (msg : ChangeMsg) (s : NodeState) : NodeState :=
  mkNodes (Remove_key (key_of (node_id (role_attr msg))) (nodes_ s)) (async_shutdown s).

#[global] Instance NodeManagerOps : ManagerOps NodeState := {
  CheckAttr := NodeManager_Check; DisposeJoin := NodeManager_DisposeJoin; DisposeLeave := NodeManager_DisposeLeave }.

Definition NodeManager_OnTopoModuleLeave (host : string) (pid : Z) (now : Z) (m : Manager NodeState) : Manager NodeState :=
  if negb (is_discovery_started_ m) then m
  else
    let nodes := (Search_attr_roles (of_process host pid) (nodes_ (impl m)) []).2 in
    let w := foldl (λ w (r : Role), Remove_key (key_of (node_id (attributes r))) w) (nodes_ (impl m)) nodes in
    notify_leaves ROLE_NODE now nodes (with_impl m (mkNodes w (async_shutdown (impl m)))).

Definition HasNode (key : Z) (s : NodeState) : bool := bool_decide (is_Some (Search_first key (nodes_ s))).

Definition GetNodes (s : NodeState) : list Role := GetAllRoles (nodes_ s) [].

Definition NodeManager_new (host : string) (pid : Z) : Manager NodeState :=
  mkManager false false (Z.shiftl 1 (RoleType_number ROLE_NODE)) CHANGE_NODE host pid (mkNodes wh_empty false) [] [].
End NodeManager.

Arguments NodeState : clear implicits.

(** ** [ChannelManager] *)
Section ChannelManager.
Context {W : Type} `{!Warehouse W}.

Record ChannelState := mkChannels {
  node_graph_ : Graph; node_writers_ : W; node_readers_ : W; channel_writers_ : W; channel_readers_ : W }.

Definition ChannelManager_Check (attr : RoleAttributes) : bool :=
  bool_decide (is_Some (channel_name attr)) && bool_decide (is_Some (channel_id attr)) && bool_decide (is_Some (id attr)).

(** [e.set_value], and [set_src] or [set_dst]. *)
Definition role_edge (msg : ChangeMsg) : Edge :=
  let v := default EmptyString (node_name (role_attr msg)) in
  let c := default EmptyString (channel_name (role_attr msg)) in
  if decide (role_type msg = ROLE_WRITER) then mkEdge v EmptyString c else mkEdge EmptyString v c.

Definition ChannelManager_DisposeJoin (msg : ChangeMsg) (s : ChannelState) : ChannelState :=
  let attr := role_attr msg in
  let role := mkRole RoleWriter attr (timestamp msg) in
  let node := key_of (node_id attr) in
  let channel := key_of (channel_id attr) in
  let g := Insert (node_graph_ s) (role_edge msg) in
  if decide (role_type msg = ROLE_WRITER)
  then mkChannels g (Add node role true (node_writers_ s)).2 (node_readers_ s)
         (Add channel role true (channel_writers_ s)).2 (channel_readers_ s)
  else mkChannels g (node_writers_ s) (Add node role true (node_readers_ s)).2
         (channel_writers_ s) (Add channel role true (channel_readers_ s)).2.

Definition ChannelManager_DisposeLeave (msg : ChangeMsg) (s : ChannelState) : ChannelState :=
  let attr := role_attr msg in
  let role := mkRole RoleWriter attr 0 in
  let node := key_of (node_id attr) in
  let channel := key_of (channel_id attr) in
  let g := Delete (node_graph_ s) (role_edge msg) in
  if decide (role_type msg = ROLE_WRITER)
  then mkChannels g (Remove_role node role (node_writers_ s)) (node_readers_ s)
         (Remove_role channel role (channel_writers_ s)) (channel_readers_ s)
  else mkChannels g (node_writers_ s) (Remove_role node role (node_readers_ s))
         (channel_writers_ s) (Remove_role channel role (channel_readers_ s)).

#[global] Instance ChannelManagerOps : ManagerOps ChannelState := {
  CheckAttr := ChannelManager_Check;
  DisposeJoin := λ _ _, ChannelManager_DisposeJoin;
  DisposeLeave := ChannelManager_DisposeLeave }.

Definition leave_role (role : RoleType) (now : Z) (m : Manager ChannelState) (r : Role) : Manager ChannelState :=
  let msg := Convert m (attributes r) role OPT_LEAVE now in
  Notify msg (with_impl m (ChannelManager_DisposeLeave msg (impl m))).

Definition ChannelManager_OnTopoModuleLeave (host : string) (pid : Z) (now : Z) (m : Manager ChannelState) :
    Manager ChannelState :=
  if negb (is_discovery_started_ m) then m
  else
    let ws := (Search_attr_roles (of_process host pid) (channel_writers_ (impl m)) []).2 in
    let rs := (Search_attr_roles (of_process host pid) (channel_readers_ (impl m)) []).2 in
    foldl (leave_role ROLE_READER now) (foldl (leave_role ROLE_WRITER now) m ws) rs.

Definition HasWriter (key : Z) (s : ChannelState) : bool := bool_decide (is_Some (Search_first key (channel_writers_ s))).
Definition HasReader (key : Z) (s : ChannelState) : bool := bool_decide (is_Some (Search_first key (channel_readers_ s))).
Definition GetWriters (s : ChannelState) : list Role := GetAllRoles (channel_writers_ s) [].
Definition GetReaders (s : ChannelState) : list Role := GetAllRoles (channel_readers_ s) [].
Definition GetWritersOfNode (key : Z) (s : ChannelState) (acc : list Role) : list Role := (Search_roles key (node_writers_ s) acc).2.
Definition GetReadersOfNode (key : Z) (s : ChannelState) (acc : list Role) : list Role := (Search_roles key (node_readers_ s) acc).2.
Definition GetWritersOfChannel (key : Z) (s : ChannelState) (acc : list Role) : list Role := (Search_roles key (channel_writers_ s) acc).2.
Definition GetReadersOfChannel (key : Z) (s : ChannelState) (acc : list Role) : list Role := (Search_roles key (channel_readers_ s) acc).2.

Definition GetChannelNames (s : ChannelState) : gset string :=
  list_to_set ((λ r, default EmptyString (channel_name (attributes r))) <$>
    GetAllRoles (channel_readers_ s) (GetAllRoles (channel_writers_ s) [])).

(** [None] leaves the result argument as it was. *)
Definition GetProtoDesc (key : Z) (s : ChannelState) : option string :=
  match Search_first key (channel_writers_ s) with Some w => proto_desc (attributes w) | None => None end.

Definition GetMsgType (key : Z) (s : ChannelState) : option string :=
  match Search_first key (channel_writers_ s) with Some w => message_type (attributes w) | None => None end.

Definition IsMessageTypeMatching (exempted : gset string) (lhs rhs : string) : bool :=
  bool_decide (lhs = rhs) || bool_decide (lhs ∈ exempted) || bool_decide (rhs ∈ exempted).

(** The [std::unordered_set] of the channels of some roles. *)
Definition channels_of (rs : list Role) : gset string :=
  list_to_set ((λ r, default EmptyString (channel_name (attributes r))) <$> rs).

(** The [std::unordered_map] from a node's name to its attributes. *)
Definition node_attr (r : Role) : RoleAttributes :=
  let a := attributes r in
  mkAttr (Some (default EmptyString (host_name a))) (Some (default 0 (process_id a)))
    (Some (default EmptyString (node_name a))) (Some (default 0 (node_id a))) None None None None None None None.

Definition nodes_of (rs : list Role) : gmap string RoleAttributes :=
  foldl (λ m r, <[default EmptyString (node_name (attributes r)) := node_attr r]> m) ∅ rs.

(** [channel_key] is [RegisterChannel]. *)
Definition GetUpstreamOfNode (channel_key : string → Z) (node : Z) (s : ChannelState) : gmap string RoleAttributes :=
  let readers := GetReadersOfNode node s [] in
  nodes_of (foldl (λ acc c, GetWritersOfChannel (channel_key c) s acc) [] (elements (channels_of readers))).

Definition GetDownstreamOfNode (channel_key : string → Z) (node : Z) (s : ChannelState) : gmap string RoleAttributes :=
  let writers := GetWritersOfNode node s [] in
  nodes_of (foldl (λ acc c, GetReadersOfChannel (channel_key c) s acc) [] (elements (channels_of writers))).

Definition GetFlowDirection (lhs rhs : string) (s : ChannelState) : option FlowDirection :=
  fst <$> GetDirectionOf (node_graph_ s) lhs rhs.

Definition channels_empty : ChannelState := mkChannels Graph_new wh_empty wh_empty wh_empty wh_empty.

Definition ChannelManager_new (host : string) (pid : Z) : Manager ChannelState :=
  mkManager false false
    (Z.lor (Z.shiftl 1 (RoleType_number ROLE_WRITER)) (Z.shiftl 1 (RoleType_number ROLE_READER)))
    CHANGE_CHANNEL host pid channels_empty [] [].
End ChannelManager.

Arguments ChannelState : clear implicits.

(** ** [ServiceManager] *)
Section ServiceManager.
Context {W1 W2 : Type} `{!Warehouse W1, !Warehouse W2}.

Record ServiceState := mkServices { servers_ : W1; clients_ : W2 }.

Definition ServiceManager_Check (attr : RoleAttributes) : bool :=
  bool_decide (is_Some (service_name attr)) && bool_decide (is_Some (service_id attr)).

Definition ServiceManager_DisposeJoin (msg : ChangeMsg) (s : ServiceState) : ServiceState :=
  let role := mkRole RoleServer (role_attr msg) 0 in
  let key := key_of (service_id (role_attr msg)) in
  if decide (role_type msg = ROLE_SERVER)
  then mkServices (Add key role true (servers_ s)).2 (clients_ s)
  else mkServices (servers_ s) (Add key role true (clients_ s)).2.

Definition ServiceManager_DisposeLeave (msg : ChangeMsg) (s : ServiceState) : ServiceState :=
  let role := mkRole RoleServer (role_attr msg) 0 in
  let key := key_of (service_id (role_attr msg)) in
  if decide (role_type msg = ROLE_SERVER)
  then mkServices (Remove_key key (servers_ s)) (clients_ s)
  else mkServices (servers_ s) (Remove_role key role (clients_ s)).

#[global] Instance ServiceManagerOps : ManagerOps ServiceState := {
  CheckAttr := ServiceManager_Check;
  DisposeJoin := λ _ _, ServiceManager_DisposeJoin;
  DisposeLeave := ServiceManager_DisposeLeave }.

Definition ServiceManager_OnTopoModuleLeave (host : string) (pid : Z) (now : Z) (m : Manager ServiceState) :
    Manager ServiceState :=
  if negb (is_discovery_started_ m) then m
  else
    let t := of_process host pid in
    let ss := (Search_attr_roles t (servers_ (impl m)) []).2 in
    let w1 := foldl (λ w (r : Role), Remove_key (key_of (service_id (attributes r))) w) (servers_ (impl m)) ss in
    let cs := (Search_attr_roles t (clients_ (impl m)) []).2 in
    let w2 := foldl (λ w (r : Role), Remove_role (key_of (service_id (attributes r))) r w) (clients_ (impl m)) cs in
    notify_leaves ROLE_CLIENT now cs (notify_leaves ROLE_SERVER now ss (with_impl m (mkServices w1 w2))).

Definition HasService (key : Z) (s : ServiceState) : bool := bool_decide (is_Some (Search_first key (servers_ s))).
Definition GetServers (s : ServiceState) : list Role := GetAllRoles (servers_ s) [].
Definition GetClients (key : Z) (s : ServiceState) (acc : list Role) : list Role := (Search_roles key (clients_ s) acc).2.

Definition ServiceManager_new (host : string) (pid : Z) : Manager ServiceState :=
  mkManager false false
    (Z.lor (Z.shiftl 1 (RoleType_number ROLE_SERVER)) (Z.shiftl 1 (RoleType_number ROLE_CLIENT)))
    CHANGE_SERVICE host pid (mkServices wh_empty wh_empty) [] [].
End ServiceManager.

Arguments ServiceState : clear implicits.
