(* ===== verification/ChannelTracking.v ===== *)
(** * The channel manager follows the topology

    What [ChannelManager] promises ([src/code/cyber/service_discovery/specific_manager/
    channel_manager.cc]), against a specification that only knows the live
    writers and readers: its warehouses, its graph of data flow, and what is
    left of a process that goes away. *)

From stdpp Require Import base list strings gmap fin_maps.
From S2P Require Import Prelude Graph Warehouse Managers.

(** ** The channel manager follows the live writers and readers *)

Section ChannelTracking.
Context {W : Type} `{!Warehouse W, !WarehouseLaws W true}.

(** Live roles: a join adds one, a leave takes those that match. *)
Record live := mkLive { live_writers : list Role; live_readers : list Role }.

Definition join_live (msg : ChangeMsg) (l : live) : live :=
  let r := mkRole RoleWriter (role_attr msg) (timestamp msg) in
  if decide (role_type msg = ROLE_WRITER) then mkLive (r :: live_writers l) (live_readers l)
  else mkLive (live_writers l) (r :: live_readers l).

Definition leave_live (msg : ChangeMsg) (l : live) : live :=
  let keep := filter (λ r, Match r (role_attr msg) = false) in
  if decide (role_type msg = ROLE_WRITER) then mkLive (keep (live_writers l)) (live_readers l)
  else mkLive (live_writers l) (keep (live_readers l)).

Definition live_step (l : live) (msg : ChangeMsg) : live :=
  match operate_type msg with OPT_JOIN => join_live msg l | OPT_LEAVE => leave_live msg l end.

Definition channel_step (s : ChannelState W) (msg : ChangeMsg) : ChannelState W :=
  match operate_type msg with
  | OPT_JOIN => ChannelManager_DisposeJoin msg s
  | OPT_LEAVE => ChannelManager_DisposeLeave msg s
  end.

(** What [Check] asks for, and the id of the node. *)
Definition attr_ok (a : RoleAttributes) : Prop :=
  ChannelManager_Check a = true ∧ is_Some (node_id a).

Definition node_key (r : Role) : Z := key_of (node_id (attributes r)).
Definition channel_key_of (r : Role) : Z := key_of (channel_id (attributes r)).

(** [w] keeps [rs], by [key]. *)
Definition keeps (key : Role → Z) (w : W) (rs : list Role) : Prop :=
  entries w ≡ₚ (λ r, (key r, r)) <$> rs.

Record tracks (s : ChannelState W) (l : live) : Prop := {
  tr_nw : keeps node_key (node_writers_ s) (live_writers l);
  tr_nr : keeps node_key (node_readers_ s) (live_readers l);
  tr_cw : keeps channel_key_of (channel_writers_ s) (live_writers l);
  tr_cr : keeps channel_key_of (channel_readers_ s) (live_readers l);
  tr_class : ∀ r, r ∈ live_writers l ++ live_readers l → class_ r = RoleWriter;
}.

Lemma keeps_add key w rs r :
  keeps key w rs → keeps key (Add (key r) r true w).2 (r :: rs).
Proof using WarehouseLaws0.
  unfold keeps. intros H. destruct (entries_Add (key r) r true w) as [_ He]. simpl in He. by rewrite He, H.
Qed.

Lemma filter_fmap_key (key : Role → Z) (P : Z * Role → Prop) `{!∀ e, Decision (P e)} (Q : Role → Prop)
    `{!∀ r, Decision (Q r)} (rs : list Role) :
  (∀ r, r ∈ rs → P (key r, r) ↔ Q r) →
  filter P ((λ r, (key r, r)) <$> rs) = (λ r, (key r, r)) <$> filter Q rs.
Proof using Type.
  induction rs as [|r rs IH]; intros HPQ; [done|]. rewrite fmap_cons, !filter_cons.
  rewrite IH by (intros; apply HPQ; by right). pose proof (HPQ r ltac:(left)).
  destruct (decide (P (key r, r))), (decide (Q r)); tauto || done.
Qed.

Lemma keeps_remove (key : Role → Z) w rs k r :
  keeps key w rs → (∀ x, x ∈ rs → Match x (attributes r) = true → key x = k) →
  keeps key (Remove_role k r w) (filter (λ x, Match x (attributes r) = false) rs).
Proof using WarehouseLaws0.
  unfold keeps. intros H Hk. rewrite entries_Remove_role, H. apply reflexive_eq.
  apply (filter_fmap_key key). intros x Hx. simpl. destruct (Match x (attributes r)) eqn:E; [|naive_solver].
  specialize (Hk x Hx E). naive_solver.
Qed.

(** A role that matches full attributes has their keys. *)
Lemma Match_keys r a :
  class_ r = RoleWriter → attr_ok a → Match r a = true →
  node_key r = key_of (node_id a) ∧ channel_key_of r = key_of (channel_id a) ∧ key_of (id (attributes r)) = key_of (id a).
Proof using Type.
  intros Hc [Hok [n Hn]] Hm. unfold ChannelManager_Check in Hok.
  rewrite !andb_true_iff, !bool_decide_eq_true in Hok. destruct Hok as [[_ [c Hch]] [i Hi]].
  unfold Match, RoleWriter_Match, RoleBase_Match in Hm. rewrite Hc in Hm.
  rewrite !andb_true_iff, !agrees_spec in Hm. destruct Hm as [[H1 H2] [[H3 _] _]].
  unfold node_key, channel_key_of, key_of. rewrite Hn, Hch, Hi. simpl. auto.
Qed.

Lemma tracks_step s l msg : tracks s l → attr_ok (role_attr msg) → tracks (channel_step s msg) (live_step l msg).
Proof using WarehouseLaws0.
  intros [H1 H2 H3 H4 H5] Hok. unfold channel_step, live_step. destruct (operate_type msg).
  - unfold ChannelManager_DisposeJoin, join_live.
    set (r := mkRole RoleWriter (role_attr msg) (timestamp msg)).
    case_decide; split; simpl; auto; try apply (keeps_add node_key _ _ r); try apply (keeps_add channel_key_of _ _ r); auto.
    + intros x [->|Hx]%elem_of_cons; [done|auto].
    + intros x Hx. apply elem_of_app in Hx as [Hx|[->|Hx]%elem_of_cons]; [|done|]; apply H5, elem_of_app; auto.
  - unfold ChannelManager_DisposeLeave, leave_live. set (r := mkRole RoleWriter (role_attr msg) 0).
    assert (Hk : ∀ x, x ∈ live_writers l ++ live_readers l → Match x (attributes r) = true →
      node_key x = key_of (node_id (role_attr msg)) ∧ channel_key_of x = key_of (channel_id (role_attr msg))).
    { intros x Hx Hm. destruct (Match_keys x (role_attr msg)) as (? & ? & _); auto. }
    case_decide; split; simpl; auto;
      try (apply keeps_remove; [done|]; intros x Hx Hm; destruct (Hk x); auto; apply elem_of_app; auto).
    all: intros x Hx; apply H5; apply elem_of_app in Hx as [Hx|Hx]; apply elem_of_app;
      try apply list_elem_of_filter in Hx as [_ Hx]; auto.
Qed.

Lemma tracks_empty : tracks channels_empty (mkLive [] []).
Proof using WarehouseLaws0.
  split; unfold keeps; simpl; rewrite ?entries_empty; try done. by intros r ?%elem_of_nil.
Qed.

Lemma tracks_run msgs s l :
  tracks s l → Forall (λ m, attr_ok (role_attr m)) msgs → tracks (foldl channel_step s msgs) (foldl live_step l msgs).
Proof using WarehouseLaws0.
  intros Ht H. revert s l Ht. induction H as [|m msgs Hm _ IH]; intros s l Ht; simpl; [done|]. by apply IH, tracks_step.
Qed.
Lemma keeps_search key w rs k acc :
  keeps key w rs → (Search_roles k w acc).2 ≡ₚ acc ++ filter (λ r, key r = k) rs.
Proof using WarehouseLaws0.
  unfold keeps. intros H. destruct (Search_roles_entries k w acc) as (l & -> & Hl). simpl. rewrite Hl, H.
  rewrite (filter_fmap_key key _ (λ r, key r = k)) by done. rewrite <- list_fmap_compose.
  rewrite (list_fmap_ext _ (@Datatypes.id Role)) by done. by rewrite list_fmap_id.
Qed.

Lemma keeps_first key w rs k :
  keeps key w rs → bool_decide (is_Some (Search_first k w)) = true ↔ ∃ r, r ∈ rs ∧ key r = k.
Proof using WarehouseLaws0.
  unfold keeps. intros H. rewrite bool_decide_eq_true. pose proof (Search_first_entries k w) as Hf.
  destruct (Search_first k w) as [r|].
  - rewrite H in Hf. apply list_elem_of_fmap in Hf as (x & [= -> ->] & Hx). split; [eauto|by eexists].
  - split; [by intros [? ?]|]. intros (r & Hr & <-). exfalso. apply (Hf r). rewrite H. apply list_elem_of_fmap. eauto.
Qed.

Lemma keeps_all key w rs acc : keeps key w rs → GetAllRoles w acc ≡ₚ acc ++ rs.
Proof using WarehouseLaws0.
  unfold keeps. intros H. destruct (GetAllRoles_entries w acc) as (l & -> & Hl). rewrite Hl, H.
  rewrite <- list_fmap_compose. rewrite (list_fmap_ext _ (@Datatypes.id Role)) by done. by rewrite list_fmap_id.
Qed.

Lemma nodes_of_spec rs (n : string) : is_Some (nodes_of rs !! n) ↔ ∃ r, r ∈ rs ∧ default EmptyString (node_name (attributes r)) = n.
Proof using Type.
  unfold nodes_of. assert (H : ∀ m : gmap string RoleAttributes,
    is_Some (foldl (λ m r, <[default EmptyString (node_name (attributes r)) := node_attr r]> m) m rs !! n) ↔
    is_Some (m !! n) ∨ ∃ r, r ∈ rs ∧ default EmptyString (node_name (attributes r)) = n).
  { induction rs as [|r rs IH]; intros m; simpl.
    - split; [by left|]. intros [?|(r & ?%elem_of_nil & _)]; done.
    - rewrite IH, lookup_insert_is_Some. split.
      + intros [[E|[_ H]]|(x & Hx & <-)]; [right; exists r; rewrite elem_of_cons; auto|by left|].
        right. exists x. rewrite elem_of_cons. auto.
      + intros [H|(x & [->|Hx]%elem_of_cons & E)]; [|by left; left|right; eauto].
        destruct (decide (default EmptyString (node_name (attributes r)) = n)); [by left; left|by left; right]. }
  rewrite H, lookup_empty. split; [intros [[? ?]|?]; done|auto].
Qed.

Lemma collect_channels (search : Z → list Role → list Role) (rs : list Role) (key : Role → Z) ck cs r acc :
  (∀ k acc, search k acc ≡ₚ acc ++ filter (λ r, key r = k) rs) →
  r ∈ foldl (λ acc c, search (ck c) acc) acc cs ↔ r ∈ acc ∨ (r ∈ rs ∧ ∃ c : string, c ∈ cs ∧ key r = ck c).
Proof using Type.
  intros Hs. revert acc. induction cs as [|c cs IH]; intros acc; simpl.
  - split; [by left|]. intros [?|(_ & c & ?%elem_of_nil & _)]; done.
  - rewrite IH, (Hs (ck c) acc), elem_of_app, list_elem_of_filter. split.
    + intros [[?|[? ?]]|(? & c' & ? & ?)]; [by left|right|right]; (split; [done|]);
        [exists c|exists c']; rewrite elem_of_cons; auto.
    + intros [?|(? & c' & [->|?]%elem_of_cons & ?)]; [by left; left|left; right|right]; eauto.
Qed.

(** C21: the channel manager follows the topology: after any joins and leaves of
    writers and readers, of this process or of others, its four warehouses hold
    exactly the live ones (those that joined and no later leave matched), under
    the keys of their nodes and channels; the upstream nodes of a node are
    those of the live writers of the channels it reads. *)
Theorem channel_manager_tracks_topology msgs :
  Forall (λ m, attr_ok (role_attr m)) msgs →
  let s := foldl channel_step channels_empty msgs in
  let l := foldl live_step (mkLive [] []) msgs in
  (∀ k, HasWriter k s = true ↔ ∃ r, r ∈ live_writers l ∧ channel_key_of r = k) ∧
  (∀ k, HasReader k s = true ↔ ∃ r, r ∈ live_readers l ∧ channel_key_of r = k) ∧
  GetWriters s ≡ₚ live_writers l ∧ GetReaders s ≡ₚ live_readers l ∧
  (∀ k, GetWritersOfNode k s [] ≡ₚ filter (λ r, node_key r = k) (live_writers l)) ∧
  (∀ k, GetReadersOfNode k s [] ≡ₚ filter (λ r, node_key r = k) (live_readers l)) ∧
  (∀ k, GetWritersOfChannel k s [] ≡ₚ filter (λ r, channel_key_of r = k) (live_writers l)) ∧
  (∀ k, GetReadersOfChannel k s [] ≡ₚ filter (λ r, channel_key_of r = k) (live_readers l)) ∧
  ∀ channel_key node (n : string), is_Some (GetUpstreamOfNode channel_key node s !! n) ↔
    ∃ w r, w ∈ live_writers l ∧ r ∈ live_readers l ∧ node_key r = node ∧
      channel_key_of w = channel_key (default EmptyString (channel_name (attributes r))) ∧
      default EmptyString (node_name (attributes w)) = n.
Proof using WarehouseLaws0.
  intros Hok s l. pose proof (tracks_run msgs _ _ tracks_empty Hok) as [H1 H2 H3 H4 _]. fold s in H1, H2, H3, H4.
  fold l in H1, H2, H3, H4. split_and!.
  - intros k. by apply keeps_first.
  - intros k. by apply keeps_first.
  - by apply (keeps_all channel_key_of _ _ []).
  - by apply (keeps_all channel_key_of _ _ []).
  - intros k. by apply (keeps_search node_key _ _ k []).
  - intros k. by apply (keeps_search node_key _ _ k []).
  - intros k. by apply (keeps_search channel_key_of _ _ k []).
  - intros k. by apply (keeps_search channel_key_of _ _ k []).
  - intros ck node n. unfold GetUpstreamOfNode. rewrite nodes_of_spec.
    assert (Hc : ∀ c, c ∈ elements (channels_of (GetReadersOfNode node s [])) ↔
      ∃ r, r ∈ live_readers l ∧ node_key r = node ∧ c = default EmptyString (channel_name (attributes r))).
    { intros c. unfold channels_of. rewrite elem_of_elements, elem_of_list_to_set, list_elem_of_fmap.
      setoid_rewrite (keeps_search node_key _ _ node [] H2). setoid_rewrite list_elem_of_filter. naive_solver. }
    pose proof (λ w, collect_channels (λ k acc, GetWritersOfChannel k s acc) (live_writers l) channel_key_of ck
      (elements (channels_of (GetReadersOfNode node s []))) w []
      (λ k acc, keeps_search channel_key_of _ _ k acc H3)) as Hf.
    split.
    + intros (w & [?%elem_of_nil|(Hw & c & (r & Hr & Hk & ->)%Hc & E)]%Hf & Hn); [done|]. exists w, r. auto.
    + intros (w & r & Hw & Hr & Hk & E & Hn). exists w. split; [|done]. apply Hf. right. split; [done|].
      exists (default EmptyString (channel_name (attributes r))). split; [|done]. apply Hc. eauto.
Qed.

(** ** The direction of data *)

Definition graph_op (msg : ChangeMsg) : Graph.op :=
  match operate_type msg with OPT_JOIN => OpInsert (role_edge msg) | OPT_LEAVE => OpDelete (role_edge msg) end.

Lemma channel_step_graph s msg : node_graph_ (channel_step s msg) = graph_exec (node_graph_ s) (graph_op msg).
Proof using Type.
  unfold channel_step, graph_op. destruct (operate_type msg); simpl;
    unfold ChannelManager_DisposeJoin, ChannelManager_DisposeLeave; by case_decide.
Qed.

(** The channel and node of a role, as the graph has them. *)
Definition seat (a : RoleAttributes) : string * string :=
  (default EmptyString (channel_name a), default EmptyString (node_name a)).

Definition id_of (r : Role) : Z := key_of (id (attributes r)).

Definition seats (rs : list Role) : gset (string * string) := list_to_set ((λ r, seat (attributes r)) <$> rs).

Definition live_topology (l : live) : topology := mkTopology (seats (live_writers l)) (seats (live_readers l)).

Definition side (msg : ChangeMsg) (l : live) : list Role :=
  if decide (role_type msg = ROLE_WRITER) then live_writers l else live_readers l.

(** Names are there; a join brings a new id and a new pair of node and channel;
    a leave is that of a live role. *)
Definition fits (l : live) (msg : ChangeMsg) : Prop :=
  attr_ok (role_attr msg) ∧ (seat (role_attr msg)).1 ≠ EmptyString ∧ (seat (role_attr msg)).2 ≠ EmptyString ∧
  match operate_type msg with
  | OPT_JOIN =>
      (∀ r, r ∈ side msg l → seat (attributes r) ≠ seat (role_attr msg)) ∧
      (∀ r, r ∈ side msg l → id_of r ≠ key_of (id (role_attr msg)))
  | OPT_LEAVE => ∃ r, r ∈ side msg l ∧ attributes r = role_attr msg
  end.

Fixpoint orderly (l : live) (msgs : list ChangeMsg) : Prop :=
  match msgs with [] => True | m :: msgs => fits l m ∧ orderly (live_step l m) msgs end.

Record live_ok (rs : list Role) : Prop := {
  lv_class : ∀ r, r ∈ rs → class_ r = RoleWriter;
  lv_seat : ∀ r r', r ∈ rs → r' ∈ rs → seat (attributes r) = seat (attributes r') → r = r';
  lv_id : ∀ r r', r ∈ rs → r' ∈ rs → id_of r = id_of r' → r = r';
}.

Lemma live_ok_join rs a t :
  live_ok rs → (∀ r, r ∈ rs → seat (attributes r) ≠ seat a) → (∀ r, r ∈ rs → id_of r ≠ key_of (id a)) →
  live_ok (mkRole RoleWriter a t :: rs).
Proof using Type.
  intros [H1 H2 H3] Hs Hi. split.
  - intros r [->|Hr]%elem_of_cons; auto.
  - intros r r' [->|Hr]%elem_of_cons [->|Hr']%elem_of_cons; auto; intros E; exfalso; by eapply Hs.
  - intros r r' [->|Hr]%elem_of_cons [->|Hr']%elem_of_cons; auto; unfold id_of at 1 2; simpl; intros E; exfalso.
    + by apply (Hi r').
    + by apply (Hi r).
Qed.

Lemma live_ok_filter rs (P : Role → Prop) `{!∀ r, Decision (P r)} : live_ok rs → live_ok (filter P rs).
Proof using Type.
  intros [H1 H2 H3]. split.
  - intros r [_ Hr]%list_elem_of_filter. auto.
  - intros r r' [_ Hr]%list_elem_of_filter [_ Hr']%list_elem_of_filter. auto.
  - intros r r' [_ Hr]%list_elem_of_filter [_ Hr']%list_elem_of_filter. auto.
Qed.

(** Only the role that leaves matches. *)
Lemma seats_leave rs r :
  live_ok rs → r ∈ rs → attr_ok (attributes r) →
  seats (filter (λ x, Match x (attributes r) = false) rs) = seats rs ∖ {[ seat (attributes r) ]}.
Proof using Type.
  intros Hl Hr Hok. apply set_eq. intros p. unfold seats.
  rewrite elem_of_difference, !elem_of_list_to_set, !list_elem_of_fmap, elem_of_singleton. split.
  - intros (x & -> & [Hm Hx]%list_elem_of_filter). split; [eauto|]. intros E.
    rewrite (lv_seat rs Hl x r) in Hm by done. by rewrite Match_self in Hm.
  - intros [(x & -> & Hx) Hne]. exists x. split; [done|]. apply list_elem_of_filter. split; [|done].
    destruct (Match x (attributes r)) eqn:Hm; [|done]. destruct Hne.
    destruct (Match_keys x (attributes r)) as (_ & _ & E); [by apply (lv_class rs)|done|done|].
    by rewrite (lv_id rs Hl x r).
Qed.

Lemma live_topology_step l msg :
  live_ok (live_writers l) → live_ok (live_readers l) → fits l msg →
  live_ok (live_writers (live_step l msg)) ∧ live_ok (live_readers (live_step l msg)) ∧
  live_topology (live_step l msg) = spec_exec (live_topology l) (graph_op msg).
Proof using Type.
  intros Hw Hr (Hok & Hc & Hn & Hf). unfold live_step, spec_exec, graph_op, fits, side in *.
  assert (Hv : IsValid (role_edge msg) = true).
  { unfold IsValid, role_edge, IsDummy. case_decide; simpl;
      rewrite (proj2 (String.eqb_neq _ _)) by done; simpl; rewrite (proj2 (String.eqb_neq _ _)) by done; done. }
  assert (Hd : String.eqb (default EmptyString (node_name (role_attr msg))) "" = false) by by apply String.eqb_neq.
  destruct (operate_type msg); simpl; rewrite Hv; cbn [negb].
  - destruct Hf as [Hs Hi]. unfold join_live, role_edge. case_decide; simpl; split_and!; auto using live_ok_join;
      unfold live_topology, seats, IsDummy; simpl; by rewrite Hd.
  - destruct Hf as (r & Hr0 & E). rewrite <- E in *. unfold leave_live, role_edge. rewrite <- E.
    case_decide; simpl; split_and!; auto using live_ok_filter; unfold live_topology, IsDummy; simpl; rewrite Hd; simpl;
      by rewrite seats_leave.
Qed.

Lemma flow_run names msgs s l :
  (∀ v d v' d', names v d → names v' d' → v +:+ "_" +:+ d = v' +:+ "_" +:+ d' → v = v' ∧ d = d') →
  live_ok (live_writers l) → live_ok (live_readers l) → graph_Inv names (node_graph_ s) (live_topology l) →
  Forall (λ m, named names (graph_op m)) msgs → orderly l msgs →
  graph_Inv names (node_graph_ (foldl channel_step s msgs)) (live_topology (foldl live_step l msgs)).
Proof using Type.
  intros Hinj. revert s l. induction msgs as [|m msgs IH]; intros s l Hw Hr HI Hn Ho; [done|].
  simpl. apply Forall_cons in Hn as [Hn1 Hn2]. destruct Ho as [Hf Ho].
  destruct (live_topology_step l m Hw Hr Hf) as (H1 & H2 & H3). apply IH; try done.
  rewrite channel_step_graph, H3. by apply (graph_exec_Inv names Hinj).
Qed.

(** Property: [GetFlowDirection] follows the topology: after any orderly joins and
    leaves (no two live writers, and no two live readers, of one node on one
    channel; only live roles leave), it says whether data flows from the first
    node to the second, or the other way, through the live writers and readers. *)
Theorem flow_direction_follows_live names msgs lhs rhs :
  (∀ v d v' d', names v d → names v' d' → v +:+ "_" +:+ d = v' +:+ "_" +:+ d' → v = v' ∧ d = d') →
  Forall (λ m, named names (graph_op m)) msgs → orderly (mkLive [] []) msgs →
  lhs ≠ rhs → IsDummy lhs = false → IsDummy rhs = false →
  ∃ dir, GetFlowDirection lhs rhs (foldl channel_step channels_empty msgs) = Some dir ∧
    flow (live_topology (foldl live_step (mkLive [] []) msgs)) lhs rhs dir.
Proof using Type.
  intros Hinj Hn Ho Hne Hl Hr.
  assert (HI : graph_Inv names (node_graph_ (foldl channel_step channels_empty msgs))
    (live_topology (foldl live_step (mkLive [] []) msgs))).
  { assert (H0 : live_ok []) by (clear; split; set_solver).
    apply flow_run; try done. apply graph_new_Inv. }
  destruct (GetDirectionOf_flow names _ _ lhs rhs HI Hne Hl Hr) as (dir & H1 & H2).
  exists dir. unfold GetFlowDirection. by rewrite H1.
Qed.
(** ** A process goes away *)

Definition placed (a : RoleAttributes) : Prop := is_Some (host_name a) ∧ is_Some (process_id a).

Lemma Convert_attr (m : Manager (ChannelState W)) a role opt now : placed a → role_attr (Convert m a role opt now) = a.
Proof using Type. intros [[h Hh] [p Hp]]. unfold Convert, with_host. simpl. rewrite Hh, Hp. simpl. destruct a; simpl in *. by subst. Qed.

Lemma leave_role_step (m : Manager (ChannelState W)) role now r l :
  role = ROLE_WRITER ∨ role = ROLE_READER → tracks (impl m) l → attr_ok (attributes r) → placed (attributes r) →
  let msg := Convert m (attributes r) role OPT_LEAVE now in
  tracks (impl (leave_role role now m r)) (leave_live msg l) ∧ role_type msg = role ∧ role_attr msg = attributes r ∧
  notified (leave_role role now m r) = notified m ++ [msg].
Proof using WarehouseLaws0.
  intros Hrole Ht Hok Hp msg. pose proof (Convert_attr m (attributes r) role OPT_LEAVE now Hp) as E. fold msg in E.
  split; [|done]. pose proof (tracks_step (impl m) l msg Ht) as H. rewrite E in H. by apply H.
Qed.

(** The roles of [ws] that no role of [rs] takes with it. *)
Definition without (rs ws : list Role) : list Role :=
  filter (λ x, forallb (λ r : Role, negb (Match x (attributes r))) rs = true) ws.

Lemma without_cons r rs ws :
  without rs (filter (λ x, Match x (attributes r) = false) ws) = without (r :: rs) ws.
Proof using Type.
  unfold without. rewrite list_filter_filter. apply filter_iff_eq. intros x _. simpl.
  rewrite andb_true_iff, negb_true_iff. tauto.
Qed.

Lemma leave_roles_tracks role now rs (m : Manager (ChannelState W)) l :
  role = ROLE_WRITER ∨ role = ROLE_READER → tracks (impl m) l →
  (∀ r, r ∈ rs → attr_ok (attributes r) ∧ placed (attributes r)) →
  let m' := foldl (leave_role role now) m rs in
  tracks (impl m') (if decide (role = ROLE_WRITER) then mkLive (without rs (live_writers l)) (live_readers l)
                    else mkLive (live_writers l) (without rs (live_readers l))) ∧
  ∃ msgs, notified m' = notified m ++ msgs ∧ length msgs = length rs.
Proof using WarehouseLaws0.
  intros Hrole. revert m l. induction rs as [|r rs IH]; intros m l Ht Hrs.
  - simpl. split; [|exists []; by rewrite app_nil_r]. destruct l as [ws rds].
    assert (H : ∀ ws, without [] ws = ws) by (intros; by apply filter_all). case_decide; simpl; by rewrite H.
  - destruct (Hrs r ltac:(left)) as [H1 H2]. destruct (leave_role_step m role now r l Hrole Ht H1 H2) as (T1 & T2 & T3 & T4).
    destruct (IH _ _ T1) as [I1 (msgs & I2 & I3)]; [intros x Hx; apply Hrs; by right|].
    simpl. split.
    + unfold leave_live in I1. rewrite T2, T3 in I1. destruct (decide (role = ROLE_WRITER)); simpl in I1;
        by rewrite without_cons in I1.
    + exists (Convert m (attributes r) role OPT_LEAVE now :: msgs). rewrite I2, T4, <- (assoc_L (++)). simpl. by rewrite I3.
Qed.

Lemma Match_process r host pid :
  Match r (of_process host pid) = true ↔
  default 0 (process_id (attributes r)) = pid ∧ default EmptyString (host_name (attributes r)) = host.
Proof using Type.
  unfold Match, RoleWriter_Match, RoleServer_Match, RoleBase_Match. destruct (class_ r); simpl;
    rewrite andb_true_iff, !bool_decide_eq_true; naive_solver.
Qed.

Lemma without_process host pid rs ws :
  rs ≡ₚ filter (λ r, Match r (of_process host pid) = true) ws →
  (∀ r, r ∈ ws → class_ r = RoleWriter ∧ placed (attributes r)) →
  without rs ws = filter (λ r, Match r (of_process host pid) = false) ws.
Proof using Type.
  intros Hrs Hp. apply filter_iff_eq. intros x Hx. rewrite forallb_forall. split.
  - intros H. destruct (Match x (of_process host pid)) eqn:E; [|done].
    assert (Hin : x ∈ rs) by (rewrite Hrs; by apply list_elem_of_filter).
    apply list_elem_of_In in Hin. specialize (H x Hin). by rewrite Match_self in H.
  - intros H r Hr%list_elem_of_In. rewrite Hrs in Hr. apply list_elem_of_filter in Hr as [Hm Hr].
    apply negb_true_iff. destruct (Match x (attributes r)) eqn:E; [|done]. rewrite <- H. symmetry.
    destruct (Hp x Hx) as [Hcx _], (Hp r Hr) as [Hcr [[h Hh] [p Hpid]]].
    apply Match_process in Hm as [Hm1 Hm2]. apply Match_process.
    unfold Match, RoleWriter_Match, RoleBase_Match in E. rewrite Hcx in E.
    rewrite !andb_true_iff, !agrees_spec in E. destruct E as [_ [[_ E1] E2]].
    rewrite (E1 p Hpid), (E2 h Hh). rewrite Hh in Hm2. rewrite Hpid in Hm1. done.
Qed.

Lemma live_step_member l msg r :
  r ∈ live_writers (live_step l msg) ++ live_readers (live_step l msg) →
  r ∈ live_writers l ++ live_readers l ∨ attributes r = role_attr msg.
Proof using Type.
  rewrite !elem_of_app. unfold live_step, join_live, leave_live.
  destruct (operate_type msg); destruct (decide (role_type msg = ROLE_WRITER)); simpl;
    rewrite ?elem_of_cons, ?list_elem_of_filter; clear; naive_solver.
Qed.

Lemma live_members (P : RoleAttributes → Prop) msgs l :
  Forall (λ x, P (role_attr x)) msgs → (∀ r, r ∈ live_writers l ++ live_readers l → P (attributes r)) →
  ∀ r, r ∈ live_writers (foldl live_step l msgs) ++ live_readers (foldl live_step l msgs) → P (attributes r).
Proof using Type.
  intros Hm. revert l. induction Hm as [|x msgs Hx _ IH]; intros l H0; [done|]. simpl. apply IH. intros r Hr.
  destruct (live_step_member l x r Hr) as [H| ->]; auto.
Qed.

Lemma keeps_roles key w l0 : keeps key w l0 → (entries w).*2 ≡ₚ l0.
Proof using Type.
  intros Hk. unfold keeps in Hk. rewrite Hk, <- list_fmap_compose.
  rewrite (list_fmap_ext _ (@Datatypes.id Role)) by done. by rewrite list_fmap_id.
Qed.

(** The live roles of one process, and the others. *)
Definition gone (host : string) (pid : Z) (rs : list Role) : list Role := filter (λ r, Match r (of_process host pid) = true) rs.
Definition stay (host : string) (pid : Z) (rs : list Role) : list Role := filter (λ r, Match r (of_process host pid) = false) rs.
Definition live_stay (host : string) (pid : Z) (l : live) : live :=
  mkLive (stay host pid (live_writers l)) (stay host pid (live_readers l)).

Definition live_placed (l : live) : Prop :=
  ∀ r, r ∈ live_writers l ++ live_readers l → attr_ok (attributes r) ∧ placed (attributes r).

Lemma channel_leave_tracks (m : Manager (ChannelState W)) l host pid now :
  tracks (impl m) l → live_placed l → is_discovery_started_ m = true →
  let m' := ChannelManager_OnTopoModuleLeave host pid now m in
  tracks (impl m') (live_stay host pid l) ∧
  ∃ ms, notified m' = notified m ++ ms ∧
    length ms = (length (gone host pid (live_writers l)) + length (gone host pid (live_readers l)))%nat.
Proof using WarehouseLaws0.
  intros Ht Hok Hd m'. unfold m', ChannelManager_OnTopoModuleLeave. rewrite Hd. simpl.
  set (t := of_process host pid).
  destruct (Search_attr_roles_entries t (channel_writers_ (impl m)) []) as (ws & -> & Hws).
  destruct (Search_attr_roles_entries t (channel_readers_ (impl m)) []) as (rs & -> & Hrs). simpl.
  rewrite (keeps_roles _ _ _ (tr_cw _ _ Ht)) in Hws. rewrite (keeps_roles _ _ _ (tr_cr _ _ Ht)) in Hrs.
  destruct (leave_roles_tracks ROLE_WRITER now ws m l) as [T1 (ms1 & N1 & L1)]; [by left|done| |].
  { intros r Hr. rewrite Hws in Hr. apply list_elem_of_filter in Hr as [_ Hr]. apply Hok, elem_of_app. by left. }
  destruct (leave_roles_tracks ROLE_READER now rs _ _ (or_intror eq_refl) T1) as [T2 (ms2 & N2 & L2)].
  { intros r Hr. rewrite Hrs in Hr. apply list_elem_of_filter in Hr as [_ Hr]. apply Hok, elem_of_app. by right. }
  split.
  - simpl in T2. rewrite (without_process host pid ws _ Hws), (without_process host pid rs _ Hrs) in T2; [done|..].
    + intros r Hr. split; [apply (tr_class _ _ Ht)|apply Hok]; apply elem_of_app; by right.
    + intros r Hr. split; [apply (tr_class _ _ Ht)|apply Hok]; apply elem_of_app; by left.
  - exists (ms1 ++ ms2). rewrite N2, N1, <- (assoc_L (++)), length_app, L1, L2, Hws, Hrs. done.
Qed.

(** Property: when a process goes away, the channel manager forgets the writers and
    readers of that process on that host, those and no others, and signals one
    leave for each. *)
Theorem module_leave_removes_process msgs (m : Manager (ChannelState W)) host pid now :
  Forall (λ x, attr_ok (role_attr x) ∧ placed (role_attr x)) msgs →
  impl m = foldl channel_step channels_empty msgs → is_discovery_started_ m = true →
  let l := foldl live_step (mkLive [] []) msgs in
  let m' := ChannelManager_OnTopoModuleLeave host pid now m in
  tracks (impl m') (live_stay host pid l) ∧
  ∃ ms, notified m' = notified m ++ ms ∧
    length ms = (length (gone host pid (live_writers l)) + length (gone host pid (live_readers l)))%nat.
Proof using WarehouseLaws0.
  intros Hm Himpl Hd l. apply channel_leave_tracks; [| |done].
  - rewrite Himpl. apply tracks_run; [apply tracks_empty|]. by eapply Forall_impl; [exact Hm|intros x []].
  - intros r. apply (live_members (λ a, attr_ok a ∧ placed a)); [done|]. clear. intros r ?%elem_of_nil. done.
Qed.
End ChannelTracking.

(** ** Instances *)

Definition writer_attrs (node : string) (node_key i : Z) : RoleAttributes :=
  mkAttr (Some "car"%string) (Some 41) (Some node) (Some node_key) (Some "/tf"%string) (Some 6) None None (Some i) None None.

Definition channel_msg (opt : OperateType) (role : RoleType) (a : RoleAttributes) : ChangeMsg :=
  mkChange 1 CHANGE_CHANNEL opt role a.

Definition sample_msgs : list ChangeMsg := [
  channel_msg OPT_JOIN ROLE_WRITER (writer_attrs "loc" 1 10);
  channel_msg OPT_JOIN ROLE_READER (writer_attrs "viz" 2 20);
  channel_msg OPT_JOIN ROLE_WRITER (writer_attrs "map" 3 11);
  channel_msg OPT_LEAVE ROLE_WRITER (writer_attrs "map" 3 11) ].

Definition sample_channels : ChannelState Multi.MultiValueWarehouse := foldl channel_step channels_empty sample_msgs.

Lemma sample_ok : Forall (λ x, attr_ok (role_attr x) ∧ placed (role_attr x)) sample_msgs.
Proof. repeat (constructor; [split; split; by try eexists|]). constructor. Qed.

Lemma channel_manager_tracks_topology_witness :
  HasWriter 6 sample_channels = true ∧
  ∀ n, is_Some (GetUpstreamOfNode (λ _, 6) 2 sample_channels !! n) ↔
    ∃ w r, w ∈ live_writers (foldl live_step (mkLive [] []) sample_msgs) ∧
      r ∈ live_readers (foldl live_step (mkLive [] []) sample_msgs) ∧ node_key r = 2 ∧
      channel_key_of w = 6 ∧ default EmptyString (node_name (attributes w)) = n.
Proof.
  pose proof (channel_manager_tracks_topology (W:=Multi.MultiValueWarehouse) sample_msgs) as H.
  destruct H as (H1 & _ & _ & _ & _ & _ & _ & _ & H2); [eapply Forall_impl; [exact sample_ok|by intros x []]|].
  split; [vm_compute; reflexivity|]. exact (H2 (λ _, 6) 2).
Defined.

Definition sample_names (v d : string) : Prop := (v, d) = ("/tf", "loc")%string ∨ (v, d) = ("/tf", "viz")%string ∨ (v, d) = ("/tf", "map")%string.

Lemma sample_names_inj v d v' d' :
  sample_names v d → sample_names v' d' → v +:+ "_" +:+ d = v' +:+ "_" +:+ d' → v = v' ∧ d = d'.
Proof.
  unfold sample_names. intros [[= -> ->]|[[= -> ->]|[= -> ->]]] [[= -> ->]|[[= -> ->]|[= -> ->]]] He; try done; discriminate He.
Qed.

Lemma sample_named : Forall (λ m, named sample_names (graph_op m)) sample_msgs.
Proof.
  unfold sample_names. repeat (apply Forall_cons_2; [intros Hd; try discriminate Hd; vm_compute; tauto|]). apply Forall_nil_2.
Qed.

Lemma sample_orderly : orderly (mkLive [] []) sample_msgs.
Proof.
  unfold sample_msgs, orderly, fits. split_and!; try done; try (by eexists); simpl; unfold side; simpl;
    try (clear; set_solver).
  all: try (intros r [-> | ?%elem_of_nil]%elem_of_cons; done).
Qed.

Lemma flow_direction_follows_live_witness :
  GetFlowDirection "loc" "viz" sample_channels = Some UPSTREAM ∧
  ∃ dir, GetFlowDirection "loc" "viz" sample_channels = Some dir ∧
    flow (live_topology (foldl live_step (mkLive [] []) sample_msgs)) "loc" "viz" dir.
Proof.
  split; [vm_compute; reflexivity|].
  apply (flow_direction_follows_live (W:=Multi.MultiValueWarehouse) sample_names sample_msgs "loc" "viz").
  - exact sample_names_inj.
  - exact sample_named.
  - exact sample_orderly.
  - done.
  - reflexivity.
  - reflexivity.
Defined.

Definition sample_manager : Manager (ChannelState Multi.MultiValueWarehouse) :=
  set_started true (with_impl (ChannelManager_new "bus" 7) sample_channels).

Lemma module_leave_removes_process_witness :
  tracks (impl (ChannelManager_OnTopoModuleLeave "car" 41 5 sample_manager)) (mkLive [] []).
Proof.
  pose proof (module_leave_removes_process sample_msgs sample_manager "car" 41 5) as H.
  destruct H as [H _]; [exact sample_ok|reflexivity|reflexivity|]. exact H.
Defined.
