(* ===== verification/Duplicates.v ===== *)
(** * Roles under one key

    What the managers do when several roles share a key: two nodes of one name,
    of which the later has to stop ([node_manager.cc]); and the leaves that take
    with them more than the role that left ([node_manager.cc],
    [service_manager.cc], [channel_manager.cc]). *)

From stdpp Require Import base list strings gmap fin_maps.
From S2P Require Import Prelude Graph Warehouse Managers ChannelTracking.

Section Duplicates.
Context {W : Type} `{!Warehouse W, !WarehouseLaws W false}.

Definition join_node (host : string) (pid : Z) (s : NodeState W) (m : ChangeMsg) : NodeState W :=
  NodeManager_DisposeJoin host pid m s.

Definition node_role (m : ChangeMsg) : Role := mkRole RoleBase (role_attr m) (timestamp m).
Definition node_key_of (m : ChangeMsg) : Z := key_of (node_id (role_attr m)).

(** The attributes name this process. *)
Definition is_process (host : string) (pid : Z) (a : RoleAttributes) : bool :=
  bool_decide (default 0 (process_id a) = pid) && bool_decide (default EmptyString (host_name a) = host).

Lemma search_added k r w : Search_first k (Add k r true w).2 = Some r.
Proof using WarehouseLaws0.
  destruct (entries_Add k r true w) as [_ He]. simpl in He.
  pose proof (Search_first_entries k (Add k r true w).2) as Hs.
  destruct (Search_first k (Add k r true w).2) as [x|].
  - rewrite He in Hs. apply elem_of_cons in Hs as [[= ->]|[Hne _]%list_elem_of_filter]; [done|]. by destruct Hne.
  - exfalso. apply (Hs r). rewrite He. left.
Qed.

Lemma single_role (k : Z) r r' (w : W) : (k, r) ∈ entries w → (k, r') ∈ entries w → r = r'.
Proof using WarehouseLaws0.
  intros [i Hi]%list_elem_of_lookup [j Hj]%list_elem_of_lookup. pose proof (entries_single w eq_refl) as Hnd.
  assert (i = j) as ->; [|congruence].
  eapply NoDup_lookup; [exact Hnd| |]; rewrite list_lookup_fmap, ?Hi, ?Hj; done.
Qed.

Lemma add_taken k r x w :
  Search_first k w = Some x → (Add k r false w).1 = false ∧ Search_first k (Add k r false w).2 = Some x.
Proof using WarehouseLaws0.
  intros Hx. destruct (entries_Add k r false w) as [H1 He]. simpl in H1, He.
  pose proof (Search_first_entries k w) as Hs. rewrite Hx in Hs.
  assert (Ht : existsb (λ e : Z * Role, e.1 =? k) (entries w) = true).
  { rewrite existsb_exists. exists (k, x). split; [by apply list_elem_of_In|]. apply Z.eqb_refl. }
  rewrite Ht in H1, He. simpl in H1, He. split; [by rewrite H1|].
  pose proof (Search_first_entries k (Add k r false w).2) as Hs2.
  destruct (Search_first k (Add k r false w).2) as [y|].
  - rewrite He in Hs2. f_equal. by eapply single_role.
  - exfalso. apply (Hs2 x). by rewrite He.
Qed.

Lemma add_free k r w :
  Search_first k w = None → (Add k r false w).1 = true ∧ Search_first k (Add k r false w).2 = Some r.
Proof using WarehouseLaws0.
  intros Hx. destruct (entries_Add k r false w) as [H1 He]. simpl in H1, He.
  pose proof (Search_first_entries k w) as Hs. rewrite Hx in Hs.
  assert (Ht : existsb (λ e : Z * Role, e.1 =? k) (entries w) = false).
  { apply not_true_is_false. rewrite existsb_exists. intros ([k' x] & Hin%list_elem_of_In & E). apply Z.eqb_eq in E. simpl in E. subst. by apply (Hs x). }
  rewrite Ht in H1, He. simpl in H1, He. split; [by rewrite H1|].
  pose proof (Search_first_entries k (Add k r false w).2) as Hs2.
  destruct (Search_first k (Add k r false w).2) as [y|].
  - f_equal. eapply single_role; [exact Hs2|]. rewrite He. left.
  - exfalso. apply (Hs2 r). rewrite He. left.
Qed.

Lemma removed_key k w : Search_first k (Remove_key k w) = None.
Proof using WarehouseLaws0.
  pose proof (Search_first_entries k (Remove_key k w)) as Hs. destruct (Search_first k (Remove_key k w)) as [r|]; [|done].
  rewrite entries_Remove_key in Hs. apply list_elem_of_filter in Hs as [Hne _]. by destruct Hne.
Qed.

Lemma join_first host pid s m :
  Search_first (node_key_of m) (nodes_ s) = None →
  Search_first (node_key_of m) (nodes_ (join_node host pid s m)) = Some (node_role m) ∧
  async_shutdown (join_node host pid s m) = async_shutdown s.
Proof using WarehouseLaws0.
  intros H. unfold join_node, NodeManager_DisposeJoin.
  destruct (add_free (node_key_of m) (node_role m) _ H) as [H1 H2]. unfold node_key_of, node_role in *.
  destruct (Add _ _ false (nodes_ s)) as [added w]. simpl in *. by subst.
Qed.

Lemma join_second host pid s m x :
  Search_first (node_key_of m) (nodes_ s) = Some x →
  let earlier := IsEarlierThan (node_role m) x in
  Search_first (node_key_of m) (nodes_ (join_node host pid s m)) = Some (if earlier then node_role m else x) ∧
  async_shutdown (join_node host pid s m) =
    async_shutdown s || is_process host pid (attributes (if earlier then x else node_role m)).
Proof using WarehouseLaws0.
  intros H. unfold join_node, NodeManager_DisposeJoin.
  destruct (add_taken (node_key_of m) (node_role m) _ _ H) as [H1 H2]. unfold node_key_of, node_role in *.
  destruct (Add _ _ false (nodes_ s)) as [added w]. simpl in *. subst. rewrite H2.
  destruct (IsEarlierThan _ x); simpl; [|done]. by rewrite search_added.
Qed.

(** Property: of two nodes of one name the later one stops: whichever join is heard
    first, the warehouse keeps the node that started earlier, and a process is
    told to stop exactly when the later one is its own. *)
Theorem duplicate_nodes_resolved host pid s m1 m2 ms :
  ms = [m1; m2] ∨ ms = [m2; m1] → node_key_of m1 = node_key_of m2 → timestamp m1 < timestamp m2 →
  HasNode (node_key_of m1) s = false → async_shutdown s = false →
  let s' := foldl (join_node host pid) s ms in
  Search_first (node_key_of m1) (nodes_ s') = Some (node_role m1) ∧
  async_shutdown s' = is_process host pid (role_attr m2).
Proof using WarehouseLaws0.
  intros Hms Hk Ht Hn Ha. unfold HasNode in Hn. apply bool_decide_eq_false, eq_None_not_Some in Hn.
  assert (E12 : IsEarlierThan (node_role m2) (node_role m1) = false) by (unfold IsEarlierThan; simpl; lia).
  assert (E21 : IsEarlierThan (node_role m1) (node_role m2) = true) by (unfold IsEarlierThan; simpl; lia).
  destruct Hms as [-> | ->]; simpl.
  - destruct (join_first host pid s m1 Hn) as [J1 J2]. rewrite Hk in J1.
    destruct (join_second host pid _ m2 _ J1) as [K1 K2]. rewrite E12 in K1, K2. rewrite Hk, K1, K2, J2, Ha. done.
  - rewrite Hk in Hn. destruct (join_first host pid s m2 Hn) as [J1 J2]. rewrite <- Hk in J1.
    destruct (join_second host pid _ m1 _ J1) as [K1 K2]. rewrite E21 in K1, K2. rewrite K1, K2, J2, Ha. done.
Qed.

(** Property: two nodes of one name that started at the same nanosecond both stay:
    each process hears its own join first and takes the other's node for the
    newer one, and the two registries keep different nodes. *)
Theorem simultaneous_duplicates_both_stay h1 p1 h2 p2 s m1 m2 :
  node_key_of m1 = node_key_of m2 → timestamp m1 = timestamp m2 →
  HasNode (node_key_of m1) s = false → async_shutdown s = false →
  is_process h1 p1 (role_attr m2) = false → is_process h2 p2 (role_attr m1) = false →
  let s1 := foldl (join_node h1 p1) s [m1; m2] in
  let s2 := foldl (join_node h2 p2) s [m2; m1] in
  async_shutdown s1 = false ∧ async_shutdown s2 = false ∧
  Search_first (node_key_of m1) (nodes_ s1) = Some (node_role m1) ∧
  Search_first (node_key_of m1) (nodes_ s2) = Some (node_role m2).
Proof using WarehouseLaws0.
  intros Hk Ht Hn Ha P1 P2. unfold HasNode in Hn. apply bool_decide_eq_false, eq_None_not_Some in Hn. simpl.
  assert (E12 : IsEarlierThan (node_role m2) (node_role m1) = false) by (unfold IsEarlierThan; simpl; lia).
  assert (E21 : IsEarlierThan (node_role m1) (node_role m2) = false) by (unfold IsEarlierThan; simpl; lia).
  destruct (join_first h1 p1 s m1 Hn) as [J1 J2]. rewrite Hk in J1.
  destruct (join_second h1 p1 _ m2 _ J1) as [K1 K2]. rewrite E12 in K1, K2.
  rewrite Hk in Hn. destruct (join_first h2 p2 s m2 Hn) as [I1 I2]. rewrite <- Hk in I1.
  destruct (join_second h2 p2 _ m1 _ I1) as [L1 L2]. rewrite E21 in L1, L2.
  rewrite K2, L2, J2, I2, Ha, L1. rewrite Hk, K1. done.
Qed.

(** Property: the leave of the duplicate unregisters the survivor: [DisposeLeave] of
    a node removes whatever has its id, so that after the later of two nodes
    with one name stopped, the topology no longer has the earlier one. *)
Theorem duplicate_leave_forgets_survivor host pid s m1 m2 :
  node_key_of m1 = node_key_of m2 → timestamp m1 < timestamp m2 → HasNode (node_key_of m1) s = false →
  let s1 := foldl (join_node host pid) s [m1; m2] in
  Search_first (node_key_of m1) (nodes_ s1) = Some (node_role m1) ∧
  HasNode (node_key_of m1) (NodeManager_DisposeLeave m2 s1) = false.
Proof using WarehouseLaws0.
  intros Hk Ht Hn. unfold HasNode in Hn. apply bool_decide_eq_false, eq_None_not_Some in Hn. simpl.
  assert (E12 : IsEarlierThan (node_role m2) (node_role m1) = false) by (unfold IsEarlierThan; simpl; lia).
  destruct (join_first host pid s m1 Hn) as [J1 J2]. rewrite Hk in J1.
  destruct (join_second host pid _ m2 _ J1) as [K1 K2]. rewrite E12 in K1. rewrite Hk. split; [done|].
  apply bool_decide_eq_false, eq_None_not_Some. apply removed_key.
Qed.
End Duplicates.

Section Services.
Context {W1 W2 : Type} `{!Warehouse W1, !Warehouse W2, !WarehouseLaws W1 false, !WarehouseLaws W2 true}.

Definition service_step (s : ServiceState W1 W2) (msg : ChangeMsg) : ServiceState W1 W2 :=
  match operate_type msg with
  | OPT_JOIN => ServiceManager_DisposeJoin msg s
  | OPT_LEAVE => ServiceManager_DisposeLeave msg s
  end.

Definition server_msg (opt : OperateType) (now : Z) (a : RoleAttributes) : ChangeMsg :=
  mkChange now CHANGE_SERVICE opt ROLE_SERVER a.

(** Property: a server that leaves takes another one with it: [DisposeLeave] removes
    whatever server has the id of the service, so that after a first server left
    the second, which joined after it and did not leave, is unknown. *)
Theorem server_leave_forgets_other s a1 a2 t1 t2 t3 :
  service_id a1 = service_id a2 →
  let s2 := foldl service_step s [server_msg OPT_JOIN t1 a1; server_msg OPT_JOIN t2 a2] in
  Search_first (key_of (service_id a2)) (servers_ s2) = Some (mkRole RoleServer a2 0) ∧
  HasService (key_of (service_id a2)) (service_step s2 (server_msg OPT_LEAVE t3 a1)) = false.
Proof using WarehouseLaws0.
  intros Hk. simpl. unfold HasService, service_step, ServiceManager_DisposeLeave. simpl. rewrite Hk.
  split; [apply search_added|]. apply bool_decide_eq_false, eq_None_not_Some. apply removed_key.
Qed.
End Services.

(** ** Instances *)

Definition node_attrs (host : string) (pid node : Z) : RoleAttributes :=
  mkAttr (Some host) (Some pid) (Some "planning"%string) (Some node) None None None None None None None.

Definition node_msg (now : Z) (a : RoleAttributes) : ChangeMsg := mkChange now CHANGE_NODE OPT_JOIN ROLE_NODE a.

Definition no_nodes : NodeState Single.SingleValueWarehouse := mkNodes wh_empty false.

Lemma duplicate_nodes_resolved_witness :
  let s' := foldl (join_node "car" 42) no_nodes [node_msg 9 (node_attrs "car" 42 5); node_msg 7 (node_attrs "car" 41 5)] in
  Search_first 5 (nodes_ s') = Some (node_role (node_msg 7 (node_attrs "car" 41 5))) ∧ async_shutdown s' = true.
Proof.
  apply (duplicate_nodes_resolved "car" 42 no_nodes (node_msg 7 (node_attrs "car" 41 5)) (node_msg 9 (node_attrs "car" 42 5)));
    [by right|reflexivity|reflexivity|vm_compute; reflexivity|reflexivity].
Defined.

Lemma simultaneous_duplicates_both_stay_witness :
  let m1 := node_msg 7 (node_attrs "car" 41 5) in
  let m2 := node_msg 7 (node_attrs "car" 42 5) in
  async_shutdown (foldl (join_node "car" 41) no_nodes [m1; m2]) = false ∧
  async_shutdown (foldl (join_node "car" 42) no_nodes [m2; m1]) = false.
Proof.
  intros m1 m2. pose proof (simultaneous_duplicates_both_stay "car" 41 "car" 42 no_nodes m1 m2) as H.
  destruct H as (H1 & H2 & _); [reflexivity|reflexivity|vm_compute; reflexivity|reflexivity|vm_compute; reflexivity|
    vm_compute; reflexivity|]. exact (conj H1 H2).
Defined.

Lemma duplicate_leave_forgets_survivor_witness :
  let m1 := node_msg 7 (node_attrs "car" 41 5) in
  let m2 := node_msg 9 (node_attrs "car" 42 5) in
  HasNode 5 (NodeManager_DisposeLeave m2 (foldl (join_node "car" 41) no_nodes [m1; m2])) = false.
Proof.
  intros m1 m2. pose proof (duplicate_leave_forgets_survivor "car" 41 no_nodes m1 m2) as H.
  destruct H as [_ H]; [reflexivity|reflexivity|vm_compute; reflexivity|]. exact H.
Defined.

Definition server_attrs (host : string) (pid : Z) : RoleAttributes :=
  mkAttr (Some host) (Some pid) (Some "map"%string) (Some 3) None None None None None (Some "routing"%string) (Some 8).

Lemma server_leave_forgets_other_witness :
  let s2 := foldl service_step (mkServices (Single.mkSingle ∅) (Multi.mkMulti []))
    [server_msg OPT_JOIN 1 (server_attrs "car" 41); server_msg OPT_JOIN 2 (server_attrs "car" 42)] in
  HasService 8 (service_step s2 (server_msg OPT_LEAVE 3 (server_attrs "car" 41))) = false.
Proof.
  apply (server_leave_forgets_other (mkServices (Single.mkSingle ∅) (Multi.mkMulti [])) (server_attrs "car" 41) (server_attrs "car" 42) 1 2 3).
  reflexivity.
Defined.

(** ** The edge of two writers *)

(** Two writers of one node on one channel, a reader in another node; one of
    the two writers leaves. *)
Definition two_writers : list ChangeMsg := [
  channel_msg OPT_JOIN ROLE_WRITER (writer_attrs "loc" 1 10);
  channel_msg OPT_JOIN ROLE_READER (writer_attrs "viz" 2 20);
  channel_msg OPT_JOIN ROLE_WRITER (writer_attrs "loc" 1 11);
  channel_msg OPT_LEAVE ROLE_WRITER (writer_attrs "loc" 1 11) ].

Definition after_two_writers : ChannelState Multi.MultiValueWarehouse := foldl channel_step channels_empty two_writers.

(** Property: the flow of data is lost with one of two writers: the graph has one edge
    for a node and a channel, so that when one of two writers of a node on a
    channel leaves, the other is still registered and its node upstream of the
    reader's, but [GetFlowDirection] calls the two nodes unreachable. *)
Theorem second_writer_leave_drops_flow :
  HasWriter 6 after_two_writers = true ∧
  is_Some (GetUpstreamOfNode (λ _, 6) 2 after_two_writers !! "loc"%string) ∧
  GetFlowDirection "loc" "viz" (foldl channel_step channels_empty (take 3 two_writers) : ChannelState Multi.MultiValueWarehouse) = Some UPSTREAM ∧
  GetFlowDirection "loc" "viz" after_two_writers = Some UNREACHABLE.
Proof.
  split_and!; [vm_compute; reflexivity|eexists; vm_compute; reflexivity|vm_compute; reflexivity|vm_compute; reflexivity].
Qed.
