(* ===== verification/Topology.v ===== *)
(** * The topology manager

    [TopologyManager] ([src/code/cyber/service_discovery/topology_manager.cc])
    over the three managers: the names of the other participants, the discovery
    of a participant that comes or goes, and what the managers then forget.
    The managers keep their promises whatever the warehouses are; single-valued
    ones hold nodes and servers, multi-valued ones channels and clients. *)

From stdpp Require Import base list strings gmap fin_maps.
From Stdlib Require Import Ascii.
From S2P Require Import Prelude Graph Warehouse Managers ChannelTracking.

(** ** Participant names *)

Definition digit (d : Z) : ascii := ascii_of_N (Z.to_N (48 + d)).
Definition ascii_code (c : ascii) : Z := Z.of_N (N_of_ascii c).
Definition is_digit (c : ascii) : bool := (48 <=? ascii_code c) && (ascii_code c <=? 57).

(** [std::to_string(int)]; an [int] has at most ten digits. *)
Fixpoint put_digits (fuel : nat) (n : Z) (s : string) : string :=
  match fuel with
  | O => s
  | S f =>
      let s := String (digit (n mod 10)) s in
      if n <? 10 then s else put_digits f (n / 10) s
  end.

Definition to_string (n : Z) : string :=
  if n <? 0 then String "-" (put_digits 10 (- n) EmptyString) else put_digits 10 n EmptyString.

(** [std::stoi]: white space, a sign, digits; what follows them is ignored, and
    [None] stands for the exceptions. *)
Fixpoint get_digits (s : string) (acc : Z) (any : bool) : option Z :=
  match s with
  | String c s' =>
      if is_digit c then get_digits s' (acc * 10 + (ascii_code c - 48)) true
      else if any then Some acc else None
  | EmptyString => if any then Some acc else None
  end.

Definition is_space (c : ascii) : bool :=
  (ascii_code c =? 32) || ((9 <=? ascii_code c) && (ascii_code c <=? 13)).

Fixpoint skip_spaces (s : string) : string :=
  match s with
  | String c s' => if is_space c then skip_spaces s' else s
  | EmptyString => s
  end.

Definition int_range (n : Z) : bool := (- 2 ^ 31 <=? n) && (n <? 2 ^ 31).

Definition stoi (s : string) : option Z :=
  let v :=
    match skip_spaces s with
    | String "-" s' => Z.opp <$> get_digits s' 0 false
    | String "+" s' => get_digits s' 0 false
    | s' => get_digits s' 0 false
    end in
  match v with Some n => if int_range n then Some n else None | None => None end.

(** [find('+')] and the two [substr]. *)
Fixpoint split_plus (s : string) : option (string * string) :=
  match s with
  | EmptyString => None
  | String c s' =>
      if Ascii.eqb c "+" then Some (EmptyString, s')
      else match split_plus s' with Some (h, r) => Some (String c h, r) | None => None end
  end.

Definition ParseParticipantName (participant_name : string) : option (string * Z) :=
  match split_plus participant_name with
  | None => None
  | Some (host, pid_str) => match stoi pid_str with Some pid => Some (host, pid) | None => None end
  end.

(** The name [CreateParticipant] gives. *)
Definition participant_name_of (host : string) (pid : Z) : string := host +:+ "+" +:+ to_string pid.

(** ** [TopologyManager] *)

Inductive DISCOVERY_STATUS :=
  | DISCOVERED_PARTICIPANT | CHANGED_QOS_PARTICIPANT | REMOVED_PARTICIPANT | DROPPED_PARTICIPANT.

Record PartInfo := mkInfo { guid : Z; m_participantName : string; status : DISCOVERY_STATUS }.

Section TopologyManager.
Context {W1 W2 : Type} `{!Warehouse W1, !Warehouse W2}.

Record TopologyManager := mkTM {
  init_ : bool;
  node_manager_ : Manager (NodeState W1);
  channel_manager_ : Manager (ChannelState W2);
  service_manager_ : Manager (ServiceState W1 W2);
  participant_names_ : gmap Z string;
  signalled : list ChangeMsg }.

Definition with_names (names : gmap Z string) (t : TopologyManager) : TopologyManager :=
  mkTM (init_ t) (node_manager_ t) (channel_manager_ t) (service_manager_ t) names (signalled t).

Definition participant_msg (opt : OperateType) (host : string) (pid now : Z) : ChangeMsg :=
  mkChange now CHANGE_PARTICIPANT opt ROLE_PARTICIPANT (with_host (Some host) (Some pid) no_attr).

(** [Convert]; the names change even when the name cannot be parsed. *)
Definition Convert_participant (info : PartInfo) (now : Z) (t : TopologyManager) : option ChangeMsg * TopologyManager :=
  let '(participant_name, opt_type, names) :=
    match status info with
    | DISCOVERED_PARTICIPANT =>
        (m_participantName info, OPT_JOIN, <[guid info := m_participantName info]> (participant_names_ t))
    | REMOVED_PARTICIPANT | DROPPED_PARTICIPANT =>
        match participant_names_ t !! guid info with
        | Some n => (n, OPT_LEAVE, delete (guid info) (participant_names_ t))
        | None => (EmptyString, OPT_LEAVE, participant_names_ t)
        end
    | CHANGED_QOS_PARTICIPANT => (EmptyString, OPT_JOIN, participant_names_ t)
    end in
  (match ParseParticipantName participant_name with
   | None => None
   | Some (host, pid) => Some (participant_msg opt_type host pid now)
   end, with_names names t).

Definition OnParticipantChange (info : PartInfo) (now : Z) (t : TopologyManager) : TopologyManager :=
  match Convert_participant info now t with
  | (None, t) => t
  | (Some msg, t) =>
      if negb (init_ t) then t
      else
        let host := default EmptyString (host_name (role_attr msg)) in
        let pid := default 0 (process_id (role_attr msg)) in
        let t :=
          match operate_type msg with
          | OPT_JOIN => t
          | OPT_LEAVE =>
              mkTM (init_ t) (NodeManager_OnTopoModuleLeave host pid now (node_manager_ t))
                (ChannelManager_OnTopoModuleLeave host pid now (channel_manager_ t))
                (ServiceManager_OnTopoModuleLeave host pid now (service_manager_ t))
                (participant_names_ t) (signalled t)
          end in
        mkTM (init_ t) (node_manager_ t) (channel_manager_ t) (service_manager_ t) (participant_names_ t)
          (signalled t ++ [msg])
  end.

(** [Init], given whether the participant exists and which managers can create
    their publisher and subscriber; [&&] stops at the first that cannot.  [None] is [false], with the managers
    gone. *)
Definition Init (participant created_node created_channel created_service : bool) (host : string) (pid : Z) : option TopologyManager :=
  let '(ok1, nm) := StartDiscovery participant created_node (NodeManager_new host pid) in
  let '(ok2, cm) := if ok1 then StartDiscovery participant created_channel (ChannelManager_new host pid)
                    else (false, ChannelManager_new host pid) in
  let '(ok3, sm) := if ok1 && ok2 then StartDiscovery participant created_service (ServiceManager_new host pid)
                    else (false, ServiceManager_new host pid) in
  if ok1 && ok2 && ok3 then Some (mkTM true nm cm sm ∅ []) else None.

Definition TopologyManager_Shutdown (t : TopologyManager) : TopologyManager :=
  if negb (init_ t) then t
  else mkTM false (Manager_Shutdown (node_manager_ t)) (Manager_Shutdown (channel_manager_ t))
         (Manager_Shutdown (service_manager_ t)) (participant_names_ t) (signalled t).

(** What happens to it: participants come and go, and roles join and leave each
    manager, here or elsewhere. *)
Inductive manager_op :=
  | OpJoin (attr : RoleAttributes) (role : RoleType) (need_publish : bool) (now : Z) (write_ok : bool)
  | OpLeave (attr : RoleAttributes) (role : RoleType) (now : Z) (write_ok : bool)
  | OpRemote (msg : option ChangeMsg).

Definition manager_exec {S} `{!ManagerOps S} (o : manager_op) (m : Manager S) : Manager S :=
  match o with
  | OpJoin a role pub now ok => (Join m a role pub now ok).2
  | OpLeave a role now ok => (Leave m a role now ok).2
  | OpRemote msg => OnRemoteChange m msg
  end.

Inductive topology_event :=
  | EvParticipant (info : PartInfo) (now : Z)
  | EvNode (o : manager_op) | EvChannel (o : manager_op) | EvService (o : manager_op).

Definition topology_step (t : TopologyManager) (e : topology_event) : TopologyManager :=
  match e with
  | EvParticipant info now => OnParticipantChange info now t
  | EvNode o => mkTM (init_ t) (manager_exec o (node_manager_ t)) (channel_manager_ t) (service_manager_ t) (participant_names_ t) (signalled t)
  | EvChannel o => mkTM (init_ t) (node_manager_ t) (manager_exec o (channel_manager_ t)) (service_manager_ t) (participant_names_ t) (signalled t)
  | EvService o => mkTM (init_ t) (node_manager_ t) (channel_manager_ t) (manager_exec o (service_manager_ t)) (participant_names_ t) (signalled t)
  end.
End TopologyManager.

Arguments TopologyManager : clear implicits.

(** ** Names are read back *)

Lemma digit_code d : 0 ≤ d < 10 → ascii_code (digit d) = 48 + d.
Proof. intros H. unfold ascii_code, digit. rewrite N_ascii_embedding by lia. lia. Qed.

Lemma digit_is_digit d : 0 ≤ d < 10 → is_digit (digit d) = true.
Proof. intros H. unfold is_digit. rewrite digit_code by done. lia. Qed.

Lemma get_put fuel n s any :
  0 ≤ n < 10 ^ Z.of_nat fuel → get_digits (put_digits fuel n s) 0 any = (if decide (fuel = O) then get_digits s 0 any else get_digits s n true).
Proof.
  revert n s any. induction fuel as [|f IH]; intros n s any Hn; [done|].
  rewrite decide_False by done. cbn [put_digits].
  pose proof (Z.mod_pos_bound n 10 ltac:(lia)) as Hm. destruct (n <? 10) eqn:E.
  - apply Z.ltb_lt in E. cbn [get_digits]. rewrite digit_is_digit, digit_code by done.
    f_equal. rewrite Z.mod_small by lia. lia.
  - apply Z.ltb_ge in E. destruct f as [|f]; [simpl in Hn; lia|].
    rewrite IH, decide_False by (done || (rewrite Nat2Z.inj_succ, Z.pow_succ_r in Hn by lia;
      split; [apply Z.div_pos; lia|apply Z.div_lt_upper_bound; lia])).
    cbn [get_digits]. rewrite digit_is_digit, digit_code by done. f_equal.
    pose proof (Z.div_mod n 10 ltac:(lia)). lia.
Qed.

Lemma put_digits_head f n s : ∃ c s', put_digits (S f) n s = String c s' ∧ is_digit c = true.
Proof.
  revert n s. induction f as [|f IH]; intros n s;
    pose proof (digit_is_digit (n mod 10) (Z.mod_pos_bound n 10 ltac:(lia))) as Hd.
  - simpl. destruct (n <? 10); eauto.
  - cbn [put_digits]. destruct (n <? 10); [eauto|]. apply IH.
Qed.

Lemma stoi_digits s c n :
  is_digit c = true → get_digits (String c s) 0 false = Some n → int_range n = true → stoi (String c s) = Some n.
Proof.
  intros Hc Hg Hr. unfold stoi. cbn [skip_spaces].
  assert (Hsp : is_space c = false) by (unfold is_space, is_digit in *; lia). rewrite Hsp.
  assert (Hm : (match String c s with
    | String "-" s' => Z.opp <$> get_digits s' 0 false
    | String "+" s' => get_digits s' 0 false
    | s' => get_digits s' 0 false end) = get_digits (String c s) 0 false).
  { clear -Hc. destruct c as [[] [] [] [] [] [] [] []]; try reflexivity; discriminate Hc. }
  by rewrite Hm, Hg, Hr.
Qed.

Lemma stoi_to_string n : int_range n = true → stoi (to_string n) = Some n.
Proof.
  intros Hr. assert (Hb : - 2 ^ 31 <= n < 2 ^ 31) by (unfold int_range in Hr; lia).
  unfold to_string. destruct (n <? 0) eqn:E.
  - apply Z.ltb_lt in E. unfold stoi. cbn [skip_spaces]. change (is_space "-") with false. cbv iota.
    rewrite get_put by (simpl Z.of_nat; lia). rewrite decide_False by done. simpl get_digits.
    cbn. rewrite Z.opp_involutive. by rewrite Hr.
  - apply Z.ltb_ge in E. destruct (put_digits_head 9 n EmptyString) as (c & s & Hp & Hc).
    rewrite Hp. apply stoi_digits; [done| |done]. rewrite <- Hp.
    rewrite get_put by (simpl Z.of_nat; lia). by rewrite decide_False.
Qed.

(** No ['+'] in the name of a host. *)
Fixpoint no_plus (s : string) : bool :=
  match s with EmptyString => true | String c s' => negb (Ascii.eqb c "+") && no_plus s' end.

Lemma split_plus_host host r : no_plus host = true → split_plus (host +:+ "+" +:+ r) = Some (host, r).
Proof.
  induction host as [|c host IH]; intros H; [done|]. simpl in H. apply andb_true_iff in H as [H1 H2].
  apply negb_true_iff in H1. change (split_plus (String c (host +:+ "+" +:+ r)) = Some (String c host, r)).
  cbn [split_plus]. by rewrite H1, IH.
Qed.

Lemma parse_participant_name host pid :
  no_plus host = true → int_range pid = true → ParseParticipantName (participant_name_of host pid) = Some (host, pid).
Proof.
  intros H1 H2. unfold ParseParticipantName, participant_name_of. by rewrite split_plus_host, stoi_to_string.
Qed.

(** Property: a participant's name is read back: for a host name without ['+'] and
    any [int] process id, [ParseParticipantName] of the name [CreateParticipant]
    gives is the host and the process. *)
Theorem participant_name_roundtrip host pid :
  no_plus host = true → - 2 ^ 31 <= pid < 2 ^ 31 → ParseParticipantName (participant_name_of host pid) = Some (host, pid).
Proof. intros H1 H2. apply parse_participant_name; [done|]. unfold int_range. lia. Qed.

Lemma participant_name_roundtrip_witness :
  ParseParticipantName (participant_name_of "host" (-2147483648)) = Some ("host", -2147483648)%string.
Proof. apply (participant_name_roundtrip "host" (-2147483648)); [reflexivity|lia]. Defined.

(** ** What the managers forget *)

Section Keyed.
Context {W : Type} `{!Warehouse W}.
Variable multi : bool.
Context `{!WarehouseLaws W multi}.
Variable key : RoleAttributes → Z.

(** Every role is under its key. *)
Definition keyed (w : W) : Prop := ∀ k r, (k, r) ∈ entries w → k = key (attributes r).

Definition shrinks (w w' : W) : Prop := ∀ e, e ∈ entries w' → e ∈ entries w.

Lemma keyed_shrinks w w' : keyed w → shrinks w w' → keyed w'.
Proof using Type. intros H Hs k r Hr. by apply H, Hs. Qed.

Lemma keyed_empty : keyed wh_empty.
Proof using WarehouseLaws0. intros k r. rewrite entries_empty. by intros ?%elem_of_nil. Qed.

Lemma keyed_Add r ign w : keyed w → keyed (Add (key (attributes r)) r ign w).2.
Proof using WarehouseLaws0.
  intros H k x. destruct (entries_Add (key (attributes r)) r ign w) as [_ He]. simpl in He. rewrite He.
  destruct (ign || _); [|by apply H]. rewrite elem_of_cons. intros [[= -> ->]|Hx]; [done|].
  destruct multi; [by apply H|]. apply list_elem_of_filter in Hx as [_ Hx]. by apply H.
Qed.

Lemma shrinks_key k w : shrinks w (Remove_key k w).
Proof using WarehouseLaws0. intros e. rewrite entries_Remove_key. by intros [_ ?]%list_elem_of_filter. Qed.

Lemma shrinks_role k r w : shrinks w (Remove_role k r w).
Proof using WarehouseLaws0. intros e. rewrite entries_Remove_role. by intros [_ ?]%list_elem_of_filter. Qed.

(** What is left in [w'] of [w] when a process goes away: the others' roles. *)
Definition process_left (host : string) (pid : Z) (w w' : W) : Prop :=
  entries w' ≡ₚ filter (λ e, Match e.2 (of_process host pid) = false) (entries w).

Lemma remove_keys_entries (rs : list Role) w :
  entries (foldl (λ w (r : Role), Remove_key (key (attributes r)) w) w rs) ≡ₚ
  filter (λ e, e.1 ∉ (λ r : Role, key (attributes r)) <$> rs) (entries w).
Proof using WarehouseLaws0.
  revert w. induction rs as [|r rs IH]; intros w; simpl.
  - rewrite filter_all; [done|]. intros e _. apply not_elem_of_nil.
  - rewrite IH, entries_Remove_key, list_filter_filter. apply reflexive_eq, filter_iff_eq.
    intros e _. rewrite not_elem_of_cons. tauto.
Qed.

Lemma remove_roles_entries (rs : list Role) w :
  entries (foldl (λ w (r : Role), Remove_role (key (attributes r)) r w) w rs) ≡ₚ
  filter (λ e, Forall (λ r : Role, ¬ (e.1 = key (attributes r) ∧ Match e.2 (attributes r) = true)) rs) (entries w).
Proof using WarehouseLaws0.
  revert w. induction rs as [|r rs IH]; intros w; simpl.
  - rewrite filter_all; [done|]. intros e _. constructor.
  - rewrite IH, entries_Remove_role, list_filter_filter. apply reflexive_eq, filter_iff_eq.
    intros e _. rewrite Forall_cons. tauto.
Qed.

Lemma keyed_removes (rs : list Role) w :
  keyed w →
  keyed (foldl (λ w (r : Role), Remove_key (key (attributes r)) w) w rs) ∧
  keyed (foldl (λ w (r : Role), Remove_role (key (attributes r)) r w) w rs).
Proof using WarehouseLaws0.
  intros H. split; apply (keyed_shrinks w); try done; intros e.
  - rewrite remove_keys_entries. by intros [_ ?]%list_elem_of_filter.
  - rewrite remove_roles_entries. by intros [_ ?]%list_elem_of_filter.
Qed.

(** The roles of the process that the manager found. *)
Lemma found_in host pid w rs e :
  rs ≡ₚ filter (λ r, Match r (of_process host pid) = true) (entries w).*2 →
  e ∈ entries w → Match e.2 (of_process host pid) = true → e.2 ∈ rs.
Proof using Type.
  intros Hrs He Hm. rewrite Hrs. apply list_elem_of_filter. split; [done|]. apply list_elem_of_fmap. eauto.
Qed.

Lemma process_left_keys host pid w rs :
  multi = false → keyed w → rs ≡ₚ filter (λ r, Match r (of_process host pid) = true) (entries w).*2 →
  process_left host pid w (foldl (λ w (r : Role), Remove_key (key (attributes r)) w) w rs).
Proof using WarehouseLaws0.
  intros Hs Hk Hrs. unfold process_left. rewrite remove_keys_entries. apply reflexive_eq, filter_iff_eq.
  intros e He. rewrite list_elem_of_fmap. split.
  - intros Hn. destruct (Match e.2 _) eqn:E; [|done]. destruct Hn. exists e.2. split.
    + destruct e as [k r]. by apply Hk.
    + by eapply found_in.
  - intros E (r & Hkr & Hr). rewrite Hrs in Hr. apply list_elem_of_filter in Hr as [Hm Hr].
    apply list_elem_of_fmap in Hr as (e' & -> & He').
    assert (e = e') as ->; [|congruence].
    assert (Hfst : e.1 = e'.1) by (rewrite Hkr; symmetry; destruct e'; by apply Hk).
    pose proof (entries_single w Hs) as Hnd.
    apply list_elem_of_lookup in He as [i Hi]. apply list_elem_of_lookup in He' as [j Hj].
    assert (i = j) as ->; [|congruence].
    eapply NoDup_lookup; [exact Hnd| |]; rewrite list_lookup_fmap, ?Hi, ?Hj; simpl; by rewrite ?Hfst.
Qed.

(** A process has a host and an id. *)
Lemma Match_placed x r host pid :
  host ≠ EmptyString → pid ≠ 0 → Match r (of_process host pid) = true → Match x (attributes r) = true →
  Match x (of_process host pid) = true.
Proof using Type.
  intros Hh Hp [Hr1 Hr2]%Match_process Hx. apply Match_process.
  assert (H : agrees 0 (process_id (attributes r)) (process_id (attributes x)) = true ∧
    agrees EmptyString (host_name (attributes r)) (host_name (attributes x)) = true).
  { unfold Match, RoleWriter_Match, RoleServer_Match, RoleBase_Match in Hx.
    destruct (class_ x); rewrite !andb_true_iff in Hx; tauto. }
  rewrite !agrees_spec in H. destruct H as [H1 H2].
  destruct (process_id (attributes r)) as [p|]; [|done]. destruct (host_name (attributes r)) as [h|]; [|done].
  simpl in *. subst. auto.
Qed.

Lemma process_left_roles host pid w rs :
  host ≠ EmptyString → pid ≠ 0 → keyed w → rs ≡ₚ filter (λ r, Match r (of_process host pid) = true) (entries w).*2 →
  process_left host pid w (foldl (λ w (r : Role), Remove_role (key (attributes r)) r w) w rs).
Proof using WarehouseLaws0.
  intros Hh Hp Hk Hrs. unfold process_left. rewrite remove_roles_entries. apply reflexive_eq, filter_iff_eq.
  intros e He. rewrite Forall_forall. split.
  - intros Hn. destruct (Match e.2 _) eqn:E; [|done]. destruct (Hn e.2).
    + by eapply found_in.
    + split; [destruct e; by apply Hk|apply Match_self].
  - intros E r Hr [_ Hm]. rewrite Hrs in Hr. apply list_elem_of_filter in Hr as [Hmr _].
    pose proof (Match_placed e.2 r host pid Hh Hp Hmr Hm). congruence.
Qed.
End Keyed.

(** ** Reachable topologies *)

(** The operations of a manager keep what its joins and leaves keep. *)
Section ManagerExec.
Context {S : Type} `{!ManagerOps S}.
Variable P : S → Prop.
Variable Q : RoleAttributes → Prop.
Hypothesis P_join : ∀ host pid msg s, Q (role_attr msg) → P s → P (DisposeJoin host pid msg s).
Hypothesis P_leave : ∀ msg s, Q (role_attr msg) → P s → P (DisposeLeave msg s).

(** The messages it disposes of. *)
Definition op_ok (o : manager_op) : Prop :=
  match o with
  | OpJoin a _ _ _ _ | OpLeave a _ _ _ => CheckAttr a = true → ∀ h p, Q (with_host (Some (default h (host_name a))) (Some (default p (process_id a))) a)
  | OpRemote (Some msg) => CheckAttr (role_attr msg) = true → Q (role_attr msg)
  | OpRemote None => True
  end.

Lemma Publish_keeps ok msg (m : Manager S) :
  impl (Publish ok msg m).2 = impl m ∧ is_discovery_started_ (Publish ok msg m).2 = is_discovery_started_ m.
Proof using Type. unfold Publish. by destruct (is_discovery_started_ m) eqn:E. Qed.

Lemma manager_exec_inv o (m : Manager S) :
  op_ok o → P (impl m) →
  P (impl (manager_exec o m)) ∧ is_discovery_started_ (manager_exec o m) = is_discovery_started_ m.
Proof using P_join P_leave.
  intros Hok HP.
  assert (HD : ∀ msg, Q (role_attr msg) → P (impl (Dispose msg m)) ∧ is_discovery_started_ (Dispose msg m) = is_discovery_started_ m).
  { intros msg HQ. unfold Dispose. simpl. split; [|done]. destruct (operate_type msg); auto. }
  destruct o as [a role pub now ok|a role now ok|[msg|]]; simpl in *; unfold Join, Leave, OnRemoteChange.
  - destruct (is_shutdown_ m); [done|]. destruct (allows m role); [|done]. destruct (CheckAttr a) eqn:E; [|done].
    specialize (HD (Convert m a role OPT_JOIN now) (Hok eq_refl _ _)). simpl.
    destruct pub; [|done]. by rewrite (proj1 (Publish_keeps _ _ _)), (proj2 (Publish_keeps _ _ _)).
  - destruct (is_shutdown_ m); [done|]. destruct (allows m role); [|done]. destruct (CheckAttr a) eqn:E; [|done].
    specialize (HD (Convert m a role OPT_LEAVE now) (Hok eq_refl _ _)). simpl.
    by rewrite (proj1 (Publish_keeps _ _ _)), (proj2 (Publish_keeps _ _ _)).
  - destruct (is_shutdown_ m); [done|]. destruct (IsFromSameProcess m msg); [done|].
    destruct (CheckAttr (role_attr msg)) eqn:E; [|done]. simpl. by apply HD, Hok.
  - by destruct (is_shutdown_ m).
Qed.
End ManagerExec.

Section TopologyInv.
Context {W1 W2 : Type} `{!Warehouse W1, !Warehouse W2, !WarehouseLaws W1 false, !WarehouseLaws W2 true}.
Implicit Types t : TopologyManager W1 W2.

Definition attr_node_key (a : RoleAttributes) : Z := key_of (node_id a).
Definition attr_service_key (a : RoleAttributes) : Z := key_of (service_id a).

Definition node_ok (s : NodeState W1) : Prop := keyed attr_node_key (nodes_ s).
Definition service_ok (s : ServiceState W1 W2) : Prop := keyed attr_service_key (servers_ s) ∧ keyed attr_service_key (clients_ s).
Definition channel_ok (s : ChannelState W2) : Prop := ∃ l, tracks s l ∧ live_placed l.

Record topology_Inv t : Prop := {
  ti_init : init_ t = true;
  ti_started : is_discovery_started_ (node_manager_ t) = true ∧ is_discovery_started_ (channel_manager_ t) = true ∧
    is_discovery_started_ (service_manager_ t) = true;
  ti_node : node_ok (impl (node_manager_ t));
  ti_channel : channel_ok (impl (channel_manager_ t));
  ti_service : service_ok (impl (service_manager_ t));
}.

(** A channel's writer or reader has the id of its node; so has what other
    processes announce, with their host and process. *)
Definition event_ok (e : topology_event) : Prop :=
  match e with
  | EvChannel (OpJoin a _ _ _ _) | EvChannel (OpLeave a _ _ _) => is_Some (node_id a)
  | EvChannel (OpRemote (Some msg)) => is_Some (node_id (role_attr msg)) ∧ placed (role_attr msg)
  | _ => True
  end.

Lemma node_exec_ok o m : node_ok (impl m) →
  node_ok (impl (manager_exec o m)) ∧ is_discovery_started_ (manager_exec o m) = is_discovery_started_ m.
Proof using WarehouseLaws0.
  apply (manager_exec_inv node_ok (λ _, True)).
  - intros host pid msg s _ H. unfold node_ok. simpl. unfold NodeManager_DisposeJoin.
    pose proof (keyed_Add false attr_node_key (mkRole RoleBase (role_attr msg) (timestamp msg)) false _ H) as H1.
    unfold attr_node_key in H1 at 2. simpl in H1. destruct (Add _ _ false _) as [[] w]; simpl in H1; [done|].
    pose proof (keyed_Add false attr_node_key (mkRole RoleBase (role_attr msg) (timestamp msg)) true _ H1) as H2.
    destruct (Search_first _ w) as [x|]; [|done]. destruct (IsEarlierThan _ x); simpl; done.
  - intros msg s _ H. eapply keyed_shrinks; [exact H|]. apply (shrinks_key false).
  - destruct o as [| |[]]; simpl; auto.
Qed.

Lemma service_exec_ok o m : service_ok (impl m) →
  service_ok (impl (manager_exec o m)) ∧ is_discovery_started_ (manager_exec o m) = is_discovery_started_ m.
Proof using WarehouseLaws0 WarehouseLaws1.
  apply (manager_exec_inv service_ok (λ _, True)).
  - intros host pid msg s _ [H1 H2]. simpl. unfold ServiceManager_DisposeJoin.
    pose proof (keyed_Add false attr_service_key (mkRole RoleServer (role_attr msg) 0) true _ H1).
    pose proof (keyed_Add true attr_service_key (mkRole RoleServer (role_attr msg) 0) true _ H2).
    by case_decide; split.
  - intros msg s _ [H1 H2]. simpl. unfold ServiceManager_DisposeLeave. case_decide; split; try done;
      (eapply keyed_shrinks; [eassumption|]); [apply (shrinks_key false)|apply (shrinks_role true)].
  - destruct o as [| |[]]; simpl; auto.
Qed.

Lemma channel_exec_ok o m : event_ok (EvChannel o) → channel_ok (impl m) →
  channel_ok (impl (manager_exec o m)) ∧ is_discovery_started_ (manager_exec o m) = is_discovery_started_ m.
Proof using WarehouseLaws1.
  intros He. apply (manager_exec_inv channel_ok (λ a, attr_ok a ∧ placed a)).
  - intros host pid msg s [H1 H2] (l & Ht & Hl). exists (join_live msg l). split.
    + pose proof (tracks_step s l (mkChange (timestamp msg) (change_type msg) OPT_JOIN (role_type msg) (role_attr msg)) Ht H1) as H. exact H.
    + intros r Hr. destruct (live_step_member l (mkChange (timestamp msg) (change_type msg) OPT_JOIN (role_type msg) (role_attr msg)) r Hr) as [H| ->]; auto.
  - intros msg s [H1 H2] (l & Ht & Hl). exists (leave_live msg l). split.
    + pose proof (tracks_step s l (mkChange (timestamp msg) (change_type msg) OPT_LEAVE (role_type msg) (role_attr msg)) Ht H1) as H. exact H.
    + intros r Hr. destruct (live_step_member l (mkChange (timestamp msg) (change_type msg) OPT_LEAVE (role_type msg) (role_attr msg)) r Hr) as [H| ->]; auto.
  - destruct o as [a ? ? ? ?|a ? ? ?|[msg|]]; simpl in *; try done; try (intros Hc h p; split; split; by try eexists).
    intros Hc. destruct He. by split; [split|].
Qed.

Lemma live_placed_stay host pid l : live_placed l → live_placed (live_stay host pid l).
Proof using Type.
  intros H r. unfold live_stay, stay. simpl. rewrite elem_of_app, !list_elem_of_filter. intros Hr. apply H, elem_of_app. tauto.
Qed.

Lemma notify_leaves_impl {S} `{!ManagerOps S} role now rs (m : Manager S) :
  impl (notify_leaves role now rs m) = impl m ∧
  is_discovery_started_ (notify_leaves role now rs m) = is_discovery_started_ m.
Proof using Type. unfold notify_leaves. revert m. induction rs as [|r rs IH]; intros m; simpl; [done|]. by rewrite !(proj1 (IH _)), !(proj2 (IH _)). Qed.

Lemma leave_roles_started role now rs (m : Manager (ChannelState W2)) :
  is_discovery_started_ (foldl (leave_role role now) m rs) = is_discovery_started_ m.
Proof using Type. revert m. induction rs as [|r rs IH]; intros m; simpl; [done|]. by rewrite IH. Qed.

(** [process_left] for each warehouse of the three managers. *)
Record topology_left (host : string) (pid : Z) (t t' : TopologyManager W1 W2) : Prop := {
  tl_nodes : process_left host pid (nodes_ (impl (node_manager_ t))) (nodes_ (impl (node_manager_ t')));
  tl_nw : process_left host pid (node_writers_ (impl (channel_manager_ t))) (node_writers_ (impl (channel_manager_ t')));
  tl_nr : process_left host pid (node_readers_ (impl (channel_manager_ t))) (node_readers_ (impl (channel_manager_ t')));
  tl_cw : process_left host pid (channel_writers_ (impl (channel_manager_ t))) (channel_writers_ (impl (channel_manager_ t')));
  tl_cr : process_left host pid (channel_readers_ (impl (channel_manager_ t))) (channel_readers_ (impl (channel_manager_ t')));
  tl_servers : process_left host pid (servers_ (impl (service_manager_ t))) (servers_ (impl (service_manager_ t')));
  tl_clients : process_left host pid (clients_ (impl (service_manager_ t))) (clients_ (impl (service_manager_ t')));
}.

Lemma keeps_process_left key host pid (w w' : W2) rs :
  keeps key w rs → keeps key w' (stay host pid rs) → process_left host pid w w'.
Proof using Type.
  unfold keeps, process_left. intros H H'. rewrite H', H. unfold stay.
  rewrite (filter_fmap_key key _ (λ r, Match r (of_process host pid) = false)); done.
Qed.

Lemma node_leave host pid now (m : Manager (NodeState W1)) :
  is_discovery_started_ m = true → node_ok (impl m) →
  let m' := NodeManager_OnTopoModuleLeave host pid now m in
  is_discovery_started_ m' = true ∧ node_ok (impl m') ∧ process_left host pid (nodes_ (impl m)) (nodes_ (impl m')).
Proof using WarehouseLaws0.
  intros Hs Hk. unfold NodeManager_OnTopoModuleLeave. rewrite Hs. simpl.
  destruct (Search_attr_roles_entries (of_process host pid) (nodes_ (impl m)) []) as (rs & -> & Hrs). simpl.
  rewrite (proj1 (notify_leaves_impl _ _ _ _)), (proj2 (notify_leaves_impl _ _ _ _)). simpl. split_and!; [done| |].
  - apply (keyed_removes false attr_node_key rs _ Hk).
  - by apply (process_left_keys false attr_node_key).
Qed.

Lemma service_leave host pid now (m : Manager (ServiceState W1 W2)) :
  is_discovery_started_ m = true → service_ok (impl m) →
  let m' := ServiceManager_OnTopoModuleLeave host pid now m in
  is_discovery_started_ m' = true ∧ service_ok (impl m') ∧
  process_left host pid (servers_ (impl m)) (servers_ (impl m')) ∧
  (host ≠ EmptyString → pid ≠ 0 → process_left host pid (clients_ (impl m)) (clients_ (impl m'))).
Proof using WarehouseLaws0 WarehouseLaws1.
  intros Hs [Hk1 Hk2]. unfold ServiceManager_OnTopoModuleLeave. rewrite Hs. simpl.
  destruct (Search_attr_roles_entries (of_process host pid) (servers_ (impl m)) []) as (ss & -> & Hss).
  destruct (Search_attr_roles_entries (of_process host pid) (clients_ (impl m)) []) as (cs & -> & Hcs). simpl.
  rewrite !(proj1 (notify_leaves_impl _ _ _ _)), !(proj2 (notify_leaves_impl _ _ _ _)). simpl. split_and!; [done|split| |].
  - apply (keyed_removes false attr_service_key ss _ Hk1).
  - apply (keyed_removes true attr_service_key cs _ Hk2).
  - by apply (process_left_keys false attr_service_key).
  - intros Hh Hp. by apply (process_left_roles true attr_service_key).
Qed.

Lemma channel_leave host pid now (m : Manager (ChannelState W2)) :
  is_discovery_started_ m = true → channel_ok (impl m) →
  let m' := ChannelManager_OnTopoModuleLeave host pid now m in
  is_discovery_started_ m' = true ∧ channel_ok (impl m') ∧
  process_left host pid (node_writers_ (impl m)) (node_writers_ (impl m')) ∧
  process_left host pid (node_readers_ (impl m)) (node_readers_ (impl m')) ∧
  process_left host pid (channel_writers_ (impl m)) (channel_writers_ (impl m')) ∧
  process_left host pid (channel_readers_ (impl m)) (channel_readers_ (impl m')).
Proof using WarehouseLaws1.
  intros Hs (l & Ht & Hl) m'. destruct (channel_leave_tracks m l host pid now Ht Hl Hs) as [Ht' _]. fold m' in Ht'.
  split_and!.
  - unfold m', ChannelManager_OnTopoModuleLeave. rewrite Hs. simpl. by rewrite !leave_roles_started.
  - exists (live_stay host pid l). split; [done|]. by apply live_placed_stay.
  - by eapply keeps_process_left; [apply (tr_nw _ _ Ht)|apply (tr_nw _ _ Ht')].
  - by eapply keeps_process_left; [apply (tr_nr _ _ Ht)|apply (tr_nr _ _ Ht')].
  - by eapply keeps_process_left; [apply (tr_cw _ _ Ht)|apply (tr_cw _ _ Ht')].
  - by eapply keeps_process_left; [apply (tr_cr _ _ Ht)|apply (tr_cr _ _ Ht')].
Qed.

Lemma Convert_cases info now t : ∃ names,
  Convert_participant info now t = (None, with_names names t) ∨
  ∃ opt host pid, Convert_participant info now t = (Some (participant_msg opt host pid now), with_names names t).
Proof using Type.
  unfold Convert_participant.
  destruct (status info); [| |destruct (participant_names_ t !! guid info)|destruct (participant_names_ t !! guid info)];
    eexists; (destruct (ParseParticipantName _) as [[host pid]|]; [right; by do 3 eexists|by left]).
Qed.

Lemma participant_Inv info now t : topology_Inv t → topology_Inv (OnParticipantChange info now t).
Proof using WarehouseLaws0 WarehouseLaws1.
  intros [H1 (H2 & H3 & H4) H5 H6 H7]. unfold OnParticipantChange.
  destruct (Convert_cases info now t) as (names & [-> | (opt & host & pid & ->)]); [by split|]. simpl. rewrite H1. simpl.
  destruct opt; simpl; [by split|].
  destruct (node_leave host pid now _ H2 H5) as (N1 & N2 & _).
  destruct (channel_leave host pid now _ H3 H6) as (C1 & C2 & _).
  destruct (service_leave host pid now _ H4 H7) as (S1 & S2 & _). by split.
Qed.

Lemma topology_step_Inv t e : topology_Inv t → event_ok e → topology_Inv (topology_step t e).
Proof using WarehouseLaws0 WarehouseLaws1.
  intros H He. destruct e as [info now|o|o|o]; [by apply participant_Inv|..]; destruct H as [H1 (H2 & H3 & H4) H5 H6 H7]; simpl.
  - destruct (node_exec_ok o _ H5) as [N1 N2]. split; simpl; rewrite ?N2; done.
  - destruct (channel_exec_ok o _ He H6) as [N1 N2]. split; simpl; rewrite ?N2; done.
  - destruct (service_exec_ok o _ H7) as [N1 N2]. split; simpl; rewrite ?N2; done.
Qed.

Lemma topology_run_Inv es t : topology_Inv t → Forall event_ok es → topology_Inv (foldl topology_step t es).
Proof using WarehouseLaws0 WarehouseLaws1.
  intros H Hes. revert t H. induction Hes as [|e es He _ IH]; intros t H; simpl; [done|]. by apply IH, topology_step_Inv.
Qed.

Lemma Init_Inv b0 b1 b2 b3 host pid t : Init b0 b1 b2 b3 host pid = Some t → topology_Inv t.
Proof using WarehouseLaws0 WarehouseLaws1.
  unfold Init, StartDiscovery. simpl. destruct b0, b1, b2, b3; simpl; intros [= <-]. split; simpl; try done.
  - apply (keyed_empty false).
  - exists (mkLive [] []). split; [apply tracks_empty|]. clear. intros r ?%elem_of_nil. done.
  - split; [apply (keyed_empty false)|apply (keyed_empty true)].
Qed.

(** An event of another participant. *)
Definition not_of (g : Z) (e : topology_event) : Prop :=
  match e with EvParticipant info _ => guid info ≠ g | _ => True end.

Lemma names_step g e t : not_of g e → participant_names_ (topology_step t e) !! g = participant_names_ t !! g.
Proof using Type.
  destruct e as [info now|o|o|o]; simpl; intros Hg; try done.
  assert (H : participant_names_ (OnParticipantChange info now t) = participant_names_ (Convert_participant info now t).2).
  { unfold OnParticipantChange. destruct (Convert_participant info now t) as [[msg|] t']; [|done].
    destruct (init_ t'); [|done]. by destruct (operate_type msg). }
  rewrite H. unfold Convert_participant. destruct (status info); simpl; try done.
  - by rewrite lookup_insert_ne.
  - destruct (participant_names_ t !! guid info); simpl; [|done]. by rewrite lookup_delete_ne.
  - destruct (participant_names_ t !! guid info); simpl; [|done]. by rewrite lookup_delete_ne.
Qed.

Lemma names_run g es t :
  Forall (not_of g) es → participant_names_ (foldl topology_step t es) !! g = participant_names_ t !! g.
Proof using Type.
  intros Hes. revert t. induction Hes as [|e es He _ IH]; intros t; simpl; [done|]. by rewrite IH, names_step.
Qed.

Lemma names_discovered g name now t :
  participant_names_ (topology_step t (EvParticipant (mkInfo g name DISCOVERED_PARTICIPANT) now)) !! g = Some name.
Proof using Type.
  simpl. unfold OnParticipantChange, Convert_participant. simpl.
  destruct (ParseParticipantName name) as [[h p]|]; simpl; [destruct (init_ t); simpl|]; apply lookup_insert_eq.
Qed.

(** Property: the topology forgets a process that goes away: when a participant whose
    name another process of the same program gave was discovered, and whatever
    came between, its removal (or loss) leaves in each warehouse of the three
    managers exactly the roles of the other processes, signals one leave with
    its host and process, and forgets its name. *)
Theorem participant_leave_forgets_process b0 b1 b2 b3 here me t0 before g now1 between host pid st name now2 :
  Init b0 b1 b2 b3 here me = Some t0 →
  Forall event_ok before → Forall event_ok between → Forall (not_of g) between →
  no_plus host = true → host ≠ EmptyString → int_range pid = true → pid ≠ 0 →
  st = REMOVED_PARTICIPANT ∨ st = DROPPED_PARTICIPANT →
  let t := foldl topology_step t0
    (before ++ EvParticipant (mkInfo g (participant_name_of host pid) DISCOVERED_PARTICIPANT) now1 :: between) in
  let t' := topology_step t (EvParticipant (mkInfo g name st) now2) in
  topology_left host pid t t' ∧ signalled t' = signalled t ++ [participant_msg OPT_LEAVE host pid now2] ∧
  participant_names_ t' !! g = None.
Proof using WarehouseLaws0 WarehouseLaws1.
  intros HI Hb Hm Hg Hp Hh Hr Hpid Hst t t'.
  assert (Ht : topology_Inv t).
  { apply topology_run_Inv; [by eapply Init_Inv|]. apply Forall_app. split; [done|]. by constructor. }
  assert (Hn : participant_names_ t !! g = Some (participant_name_of host pid)).
  { unfold t. rewrite foldl_app. cbn [foldl]. rewrite names_run by done. apply names_discovered. }
  assert (E : Convert_participant (mkInfo g name st) now2 t =
    (Some (participant_msg OPT_LEAVE host pid now2), with_names (delete g (participant_names_ t)) t)).
  { unfold Convert_participant. simpl. destruct Hst as [-> | ->]; rewrite Hn, parse_participant_name by done; done. }
  clearbody t. destruct Ht as [H1 (H2 & H3 & H4) H5 H6 H7].
  unfold t'. cbn [topology_step]. unfold OnParticipantChange. rewrite E. simpl. rewrite H1. simpl.
  destruct (node_leave host pid now2 _ H2 H5) as (_ & _ & N).
  destruct (channel_leave host pid now2 _ H3 H6) as (_ & _ & ? & ? & ? & ?).
  destruct (service_leave host pid now2 _ H4 H7) as (_ & _ & ? & ?).
  split_and!; [split; simpl; auto|done|apply lookup_delete_eq].
Qed.
End TopologyInv.

Abbreviation cyber_topology := (TopologyManager Single.SingleValueWarehouse Multi.MultiValueWarehouse).

(** A reader of another process joins, and the process dies. *)
Definition sample_before : list topology_event := [
  EvParticipant (mkInfo 1 (participant_name_of "car" 40) DISCOVERED_PARTICIPANT) 1 ].
Definition sample_between : list topology_event := [
  EvChannel (OpRemote (Some (channel_msg OPT_JOIN ROLE_READER (writer_attrs "viz" 2 20))));
  EvParticipant (mkInfo 1 EmptyString DROPPED_PARTICIPANT) 3 ].

Definition sample_topology : cyber_topology :=
  default (mkTM false (NodeManager_new "bus" 7) (ChannelManager_new "bus" 7) (ServiceManager_new "bus" 7) ∅ [])
    (Init true true true true "bus" 7).

Lemma participant_leave_forgets_process_witness :
  let t : cyber_topology := foldl topology_step sample_topology
    (sample_before ++ EvParticipant (mkInfo 2 (participant_name_of "car" 41) DISCOVERED_PARTICIPANT) 2 :: sample_between) in
  let t' := topology_step t (EvParticipant (mkInfo 2 EmptyString REMOVED_PARTICIPANT) 4) in
  HasReader 6 (impl (channel_manager_ t)) = true ∧ HasReader 6 (impl (channel_manager_ t')) = false ∧
  topology_left "car" 41 t t'.
Proof.
  intros t t'. split; [vm_compute; reflexivity|]. split; [vm_compute; reflexivity|].
  pose proof (participant_leave_forgets_process true true true true "bus" 7 sample_topology sample_before 2 2 sample_between
    "car" 41 REMOVED_PARTICIPANT EmptyString 4) as H.
  destruct H as [H _]; try reflexivity.
  - repeat constructor.
  - constructor; [|repeat constructor]. simpl. split; [by eexists|split; by eexists].
  - repeat constructor; discriminate.
  - discriminate.
  - discriminate.
  - by left.
  - exact H.
Defined.
