(* ===== verification/Notifier.v ===== *)
(** * The notifier of the shared memory

    [ConditionNotifier] ([src/code/cyber/transport/shm/condition_notifier.h],
    [.cc]): a ring of announcements in a memory that the processes of a host
    share.  A writer announces a block it has written; every process listens on
    its own, with a position of its own.  [exec] interleaves the accesses of the
    writers of all processes and of one listener (listeners only read what is
    shared); the copy of an announcement is one step.  The life of the memory
    itself ([Init], [Reset]) is calls of the system. *)

From stdpp Require Import base list gmap.
From S2P Require Import Prelude Message.

Definition kBufLength : Z := 4096.

(** Where a writer is in [Notify], and the listener in [Listen]: before the
    loop's test, before it loads [next_seq], before it reads [seqs], before it
    copies the announcement. *)
Inductive wpc := WFetch (info : ReadableInfo) | WStoreInfo (seq : Z) (info : ReadableInfo) | WStoreSeq (seq : Z).
Inductive lpc := LTest | LLoad | LRead | LCopy (idx : Z).

Record state := mkState {
  next_seq : Z; infos : gmap Z ReadableInfo; seqs : gmap Z Z;
  writers : gmap nat wpc;
  next_seq_ : Z; listening : lpc; is_shutdown_ : bool }.

(** A default-constructed [ReadableInfo], and what is in a slot. *)
Definition no_info : ReadableInfo := mkReadable 0 0 0.
Definition info_at (s : state) (idx : Z) : ReadableInfo := default no_info (infos s !! idx).
Definition seq_at (s : state) (idx : Z) : Z := default 0 (seqs s !! idx).

Inductive label := Notify (w : nat) (info : ReadableInfo) | Write (w : nat) | Listen | Shutdown.

(** An announcement has its place; the listener has heard one. *)
Inductive event := Announced (info : ReadableInfo) | Heard (info : ReadableInfo).

Definition set_writers (ws : gmap nat wpc) (s : state) : state :=
  mkState (next_seq s) (infos s) (seqs s) ws (next_seq_ s) (listening s) (is_shutdown_ s).

Definition set_listener (n : Z) (p : lpc) (s : state) : state :=
  mkState (next_seq s) (infos s) (seqs s) (writers s) n p (is_shutdown_ s).

Definition exec_write (s : state) (w : nat) (p : wpc) : state * option event :=
  match p with
  | WFetch info =>
      (mkState (u64 (next_seq s + 1)) (infos s) (seqs s) (<[w := WStoreInfo (next_seq s) info]> (writers s))
         (next_seq_ s) (listening s) (is_shutdown_ s), Some (Announced info))
  | WStoreInfo seq info =>
      (mkState (next_seq s) (<[seq mod kBufLength := info]> (infos s)) (seqs s) (<[w := WStoreSeq seq]> (writers s))
         (next_seq_ s) (listening s) (is_shutdown_ s), None)
  | WStoreSeq seq =>
      (mkState (next_seq s) (infos s) (<[seq mod kBufLength := seq]> (seqs s)) (delete w (writers s))
         (next_seq_ s) (listening s) (is_shutdown_ s), None)
  end.

(** After a miss the listener sleeps, or gives up and is called again: the next
    step is the test of the loop. *)
Definition exec_listen (s : state) : state * option event :=
  match listening s with
  | LTest => (set_listener (next_seq_ s) (if is_shutdown_ s then LTest else LLoad) s, None)
  | LLoad => (set_listener (next_seq_ s) (if next_seq s =? next_seq_ s then LTest else LRead) s, None)
  | LRead =>
      let idx := next_seq_ s mod kBufLength in
      let actual_seq := seq_at s idx in
      if next_seq_ s <=? actual_seq then (set_listener actual_seq (LCopy idx) s, None)
      else (set_listener (next_seq_ s) LTest s, None)
  | LCopy idx => (set_listener (u64 (next_seq_ s + 1)) LTest s, Some (Heard (info_at s idx)))
  end.

Definition exec (s : state) (l : label) : option (state * option event) :=
  match l with
  | Notify w info =>
      match writers s !! w with
      | Some _ => None
      | None =>
          if is_shutdown_ s then Some (s, None) else Some (set_writers (<[w := WFetch info]> (writers s)) s, None)
      end
  | Write w => match writers s !! w with Some p => Some (exec_write s w p) | None => None end
  | Listen => Some (exec_listen s)
  | Shutdown =>
      Some (mkState (next_seq s) (infos s) (seqs s) (writers s) (next_seq_ s) (listening s) true, None)
  end.

(** A new memory, and a listener that opens it. *)
Definition init : state := mkState 0 ∅ ∅ ∅ 0 LTest false.

Definition open_listener (s : state) : state := set_listener (next_seq s) LTest s.

(** ** A queue, while the listener keeps up *)

(** At most a ring of announcements is ahead of the listener, and the counter
    is not at its end. *)
Definition keeps_up (s : state) : bool :=
  (next_seq s - next_seq_ s <=? kBufLength) && (next_seq s <? 2 ^ 64 - 1).

Inductive queue : list ReadableInfo → event → list ReadableInfo → Prop :=
| queue_announced q i : queue q (Announced i) (q ++ [i])
| queue_heard q i : queue (i :: q) (Heard i) q.

(** The sequence number a writer holds. *)
Definition holds (p : wpc) : option Z :=
  match p with WFetch _ => None | WStoreInfo k _ | WStoreSeq k => Some k end.

Definition pending (s : state) (k : Z) (i : ReadableInfo) : Prop :=
  seq_at s (k mod kBufLength) < k ∧
  ∃ w, writers s !! w = Some (WStoreInfo k i) ∨
       (writers s !! w = Some (WStoreSeq k) ∧ info_at s (k mod kBufLength) = i).

Definition sealed (s : state) (k : Z) (i : ReadableInfo) : Prop :=
  seq_at s (k mod kBufLength) = k ∧ info_at s (k mod kBufLength) = i ∧
  ∀ w p, writers s !! w = Some p → holds p ≠ Some k.

Definition listener_ok (s : state) : Prop :=
  match listening s with
  | LTest | LLoad => True
  | LRead => next_seq_ s < next_seq s
  | LCopy idx => next_seq_ s < next_seq s ∧ idx = next_seq_ s mod kBufLength ∧ seq_at s idx = next_seq_ s
  end.

Record Inv (s : state) (q : list ReadableInfo) : Prop := {
  inv_pos : 0 ≤ next_seq_ s;
  inv_len : zlen q = next_seq s - next_seq_ s;
  inv_slots : ∀ k i, zget q (k - next_seq_ s) = Some i → pending s k i ∨ sealed s k i;
  inv_writers : ∀ w p k, writers s !! w = Some p → holds p = Some k → next_seq_ s ≤ k < next_seq s;
  inv_unique : ∀ w w' p p' k, writers s !! w = Some p → writers s !! w' = Some p' →
    holds p = Some k → holds p' = Some k → w = w';
  inv_old : ∀ idx, seq_at s idx < next_seq s;
  inv_listener : listener_ok s;
}.

Lemma queue_range s q k i : Inv s q → zget q (k - next_seq_ s) = Some i → next_seq_ s ≤ k < next_seq s.
Proof. intros HI H%zget_Some_range. pose proof (inv_len _ _ HI). lia. Qed.

Lemma queue_get s q k : Inv s q → next_seq_ s ≤ k < next_seq s → ∃ i, zget q (k - next_seq_ s) = Some i.
Proof. intros HI Hk. pose proof (inv_len _ _ HI). destruct (zget_is_Some q (k - next_seq_ s)) as [i Hi]; [lia|eauto]. Qed.

(** A writer with a number is pending there. *)
Lemma holder_pending s q w p k :
  Inv s q → writers s !! w = Some p → holds p = Some k → ∃ i, zget q (k - next_seq_ s) = Some i ∧ pending s k i.
Proof.
  intros HI Hw Hp. destruct (queue_get s q k HI) as [i Hi]; [by eapply inv_writers|]. exists i. split; [done|].
  destruct (inv_slots _ _ HI _ _ Hi) as [H|(_ & _ & H)]; [done|]. by destruct (H w p Hw).
Qed.

(** The next announcement is there exactly when its slot has its number. *)
Lemma next_sealed s q :
  Inv s q → next_seq_ s < next_seq s → next_seq_ s ≤ seq_at s (next_seq_ s mod kBufLength) →
  ∃ i q', q = i :: q' ∧ sealed s (next_seq_ s) i.
Proof.
  intros HI Hlt Hs. destruct (queue_get s q (next_seq_ s) HI) as [i Hi]; [lia|].
  destruct (inv_slots _ _ HI _ _ Hi) as [[H _]|H]; [lia|].
  rewrite Z.sub_diag in Hi. destruct q as [|x q]; [done|]. injection Hi as ->. eauto.
Qed.

(** *** The steps of a writer *)

Lemma fetch_Inv s q w info :
  keeps_up s = true → Inv s q → writers s !! w = Some (WFetch info) →
  Inv (exec_write s w (WFetch info)).1 (q ++ [info]).
Proof.
  intros Hk [H1 H2 H3 H4 H5 H6 H7] Hw. unfold keeps_up in Hk. simpl.
  pose proof (zlen_nonneg q) as Hq.
  assert (Hn : u64 (next_seq s + 1) = next_seq s + 1) by (apply wrap_small; wordlia).
  assert (Hold : ∀ w' p, <[w:=WStoreInfo (next_seq s) info]> (writers s) !! w' = Some p →
    (w' = w ∧ p = WStoreInfo (next_seq s) info) ∨ (w' ≠ w ∧ writers s !! w' = Some p)).
  { intros w' p. rewrite lookup_insert. case_decide; [intros [= <-]; by left|by right]. }
  split; simpl; rewrite ?Hn; try done.
  - rewrite zlen_snoc. lia.
  - intros k i. rewrite zget_snoc_Some. intros [Hi|[Hi ->]].
    + destruct (H3 k i Hi) as [(P1 & w' & P2)|(P1 & P2 & P3)].
      * left. split; [done|]. exists w'. simpl. rewrite lookup_insert_ne; [done|]. intros <-. rewrite Hw in P2. by destruct P2 as [|[]].
      * right. split; [done|]. split; [done|]. simpl. intros w' p [[-> ->]|[_ Hp]]%Hold; [|by eapply P3].
        simpl. apply zget_Some_range in Hi. intros [= E]. lia.
    + left. assert (k = next_seq s) as -> by lia. split; [apply H6|]. exists w. left. simpl. apply lookup_insert_eq.
  - intros w' p k [[-> ->]|[_ Hp]]%Hold; simpl; [intros [= <-]; lia|]. intros Hh. pose proof (H4 _ _ _ Hp Hh). lia.
  - intros w1 w2 p1 p2 k [[-> ->]|[? Hp1]]%Hold [[-> ->]|[? Hp2]]%Hold; simpl; intros E1 E2; try done.
    + injection E1 as <-. pose proof (H4 _ _ _ Hp2 E2). lia.
    + injection E2 as <-. pose proof (H4 _ _ _ Hp1 E1). lia.
    + by eapply H5.
  - intros idx. specialize (H6 idx). change (seq_at s idx < next_seq s + 1). lia.
  - unfold listener_ok in *. simpl. destruct (listening s); try done; [lia|]. destruct H7 as (? & ? & ?). split; [lia|done].
Qed.

Lemma store_info_Inv s q w k info :
  keeps_up s = true → Inv s q → writers s !! w = Some (WStoreInfo k info) →
  Inv (exec_write s w (WStoreInfo k info)).1 q.
Proof.
  intros Hk HI Hw. destruct (holder_pending s q w _ k HI Hw eq_refl) as (i0 & Hi0 & Hp0 & w0 & Hw0).
  assert (w0 = w) as ->.
  { destruct Hw0 as [E|[E _]]; by apply (inv_unique _ _ HI _ _ _ _ k E Hw). }
  assert (i0 = info) as -> by (destruct Hw0 as [E|[E _]]; congruence). clear Hw0.
  pose proof (inv_writers _ _ HI _ _ _ Hw eq_refl) as Hkr.
  destruct HI as [H1 H2 H3 H4 H5 H6 H7]. unfold keeps_up in Hk. simpl.
  assert (Hold : ∀ w' p k', <[w:=WStoreSeq k]> (writers s) !! w' = Some p → holds p = Some k' →
    ∃ p', writers s !! w' = Some p' ∧ holds p' = Some k').
  { intros w' p k'. rewrite lookup_insert. case_decide; [intros [= <-]; simpl; intros [= ->]; subst; eauto|eauto]. }
  assert (Hinfo : ∀ j, info_at (exec_write s w (WStoreInfo k info)).1 j = if decide (k mod kBufLength = j) then info else info_at s j).
  { intros j. unfold info_at. simpl. rewrite lookup_insert. by case_decide. }
  split; simpl; try done.
  - intros k' i Hi. pose proof (zget_Some_range _ _ _ Hi) as Hr. destruct (decide (k' = k)) as [->|Hne].
    + left. split; [done|]. exists w. right. rewrite Hinfo, decide_True by done. simpl. rewrite lookup_insert_eq. split; [done|congruence].
    + assert (Hslot : k mod kBufLength ≠ k' mod kBufLength).
      { intros E. apply Hne. symmetry. apply (ring_window_inj kBufLength (next_seq_ s) (next_seq s)); lia || done. }
      destruct (H3 k' i Hi) as [(P1 & w' & P2)|(P1 & P2 & P3)].
      * left. split; [done|]. exists w'. rewrite Hinfo, decide_False by done. simpl. rewrite lookup_insert_ne; [done|].
        intros <-. rewrite Hw in P2. destruct P2 as [[= ? _]|[? _]]; [by subst|done].
      * right. split; [done|]. rewrite Hinfo, decide_False by done. split; [done|]. simpl. intros w' p Hp Hh.
        destruct (Hold _ _ _ Hp Hh) as (p' & ? & ?). by apply (P3 w' p').
  - intros w' p k' Hp Hh. destruct (Hold _ _ _ Hp Hh) as (p' & ? & ?). eauto.
  - intros w1 w2 p1 p2 k' Hp1 Hp2 Hh1 Hh2. destruct (Hold _ _ _ Hp1 Hh1) as (p1' & ? & ?), (Hold _ _ _ Hp2 Hh2) as (p2' & ? & ?). eauto.
Qed.

Lemma store_seq_Inv s q w k :
  keeps_up s = true → Inv s q → writers s !! w = Some (WStoreSeq k) →
  Inv (exec_write s w (WStoreSeq k)).1 q.
Proof.
  intros Hk HI Hw. destruct (holder_pending s q w _ k HI Hw eq_refl) as (i0 & Hi0 & Hp0 & w0 & Hw0).
  assert (w0 = w) as -> by (destruct Hw0 as [E|[E _]]; by apply (inv_unique _ _ HI _ _ _ _ k E Hw)).
  assert (Hi : info_at s (k mod kBufLength) = i0) by (destruct Hw0 as [E|[_ E]]; [congruence|done]). clear Hw0.
  pose proof (inv_writers _ _ HI _ _ _ Hw eq_refl) as Hkr.
  destruct HI as [H1 H2 H3 H4 H5 H6 H7]. unfold keeps_up in Hk. simpl.
  assert (Hseq : ∀ j, seq_at (exec_write s w (WStoreSeq k)).1 j = if decide (k mod kBufLength = j) then k else seq_at s j).
  { intros j. unfold seq_at. simpl. rewrite lookup_insert. by case_decide. }
  split; simpl; try done.
  - intros k' i Hi'. pose proof (zget_Some_range _ _ _ Hi') as Hr. destruct (decide (k' = k)) as [->|Hne].
    + right. split; [by rewrite Hseq, decide_True|]. split; [unfold info_at in *; simpl; congruence|]. simpl.
      intros w' p [Hne Hp]%lookup_delete_Some Hh. apply Hne. by apply (H5 w w' (WStoreSeq k) p k).
    + assert (Hslot : k mod kBufLength ≠ k' mod kBufLength).
      { intros E. apply Hne. symmetry. apply (ring_window_inj kBufLength (next_seq_ s) (next_seq s)); lia || done. }
      destruct (H3 k' i Hi') as [(P1 & w' & P2)|(P1 & P2 & P3)].
      * left. split; [by rewrite Hseq, decide_False|]. exists w'. simpl. rewrite lookup_delete_ne; [done|].
        intros <-. rewrite Hw in P2. destruct P2 as [?|[[= ?] _]]; [done|by subst].
      * right. split; [by rewrite Hseq, decide_False|]. split; [done|]. simpl.
        intros w' p [_ Hp]%lookup_delete_Some. by apply (P3 w' p).
  - intros w' p k' [_ Hp]%lookup_delete_Some. by apply (H4 w' p).
  - intros w1 w2 p1 p2 k' [_ Hp1]%lookup_delete_Some [_ Hp2]%lookup_delete_Some. by apply (H5 w1 w2 p1 p2).
  - intros idx. rewrite Hseq. case_decide; [lia|done].
  - unfold listener_ok in *. cbn [exec_write fst listening next_seq_ next_seq]. destruct (listening s) as [| | |idx]; try done.
    destruct H7 as (L1 & -> & L3). split; [done|]. split; [done|].
    unfold seq_at in *. simpl in *. rewrite Hseq. case_decide as E; [|done].
    apply (ring_window_inj kBufLength (next_seq_ s) (next_seq s)); lia || done.
Qed.

(** *** The steps of the listener *)

Lemma listen_Inv s q :
  keeps_up s = true → Inv s q →
  match (exec_listen s).2 with
  | None => Inv (exec_listen s).1 q
  | Some x => ∃ q', queue q x q' ∧ Inv (exec_listen s).1 q'
  end.
Proof.
  intros Hk HI. pose proof HI as [H1 H2 H3 H4 H5 H6 H7]. unfold keeps_up in Hk.
  pose proof (zlen_nonneg q) as Hq.
  assert (Hpos : ∀ p, listener_ok (set_listener (next_seq_ s) p s) → Inv (set_listener (next_seq_ s) p s) q) by (by split).
  unfold exec_listen. unfold listener_ok in H7. destruct (listening s) as [| | |idx] eqn:El; cbn [fst snd].
  - apply Hpos. unfold listener_ok. simpl. by destruct (is_shutdown_ s).
  - apply Hpos. unfold listener_ok. simpl. destruct (Z.eqb_spec (next_seq s) (next_seq_ s)); [done|lia].
  - destruct (Z.leb_spec (next_seq_ s) (seq_at s (next_seq_ s mod kBufLength))) as [Hs|Hs]; cbn [fst snd]; [|by apply Hpos].
    destruct (next_sealed s q HI H7 Hs) as (i & q' & -> & S1 & S2 & S3). rewrite S1. apply Hpos. done.
  - destruct H7 as (Hlt & -> & Hseq). destruct (next_sealed s q HI Hlt) as (i & q' & -> & S1 & S2 & S3); [lia|].
    assert (Hn : u64 (next_seq_ s + 1) = next_seq_ s + 1) by (apply wrap_small; wordlia).
    exists q'. split; [rewrite S2; constructor|]. unfold zlen in *. simpl in H2.
    split; simpl; rewrite ?Hn; try done; try lia.
    + unfold zlen. lia.
    + intros k j Hj. apply H3. pose proof (zget_Some_range _ _ _ Hj) as Hr. unfold zlen in Hr.
      unfold zget in *. rewrite decide_True in Hj by lia. rewrite decide_True by lia.
      replace (Z.to_nat (k - next_seq_ s)) with (S (Z.to_nat (k - (next_seq_ s + 1)))) by lia. done.
    + intros w p k Hp Hh. pose proof (H4 w p k Hp Hh). assert (k ≠ next_seq_ s); [|lia]. intros ->. by apply (S3 w p).
Qed.

Lemma notifier_exec_Inv s l s' e q :
  keeps_up s = true → keeps_up s' = true → Inv s q → exec s l = Some (s', e) →
  match e with None => Inv s' q | Some x => ∃ q', queue q x q' ∧ Inv s' q' end.
Proof.
  intros Hk Hk' HI He. destruct l as [w info|w| |]; simpl in He.
  - destruct (writers s !! w) eqn:Hw; [done|]. destruct (is_shutdown_ s); simplify_eq; [done|].
    destruct HI as [H1 H2 H3 H4 H5 H6 H7].
    assert (Hold : ∀ w' p k, <[w:=WFetch info]> (writers s) !! w' = Some p → holds p = Some k → writers s !! w' = Some p).
    { intros w' p k. rewrite lookup_insert. by case_decide; [intros [= <-]|]. }
    split; simpl; try done; eauto.
    intros k i Hi. destruct (H3 k i Hi) as [(P1 & w' & P2)|(P1 & P2 & P3)].
    + left. split; [done|]. exists w'. simpl. rewrite lookup_insert_ne; [done|]. intros <-. rewrite Hw in P2. by destruct P2 as [|[]].
    + right. split; [done|]. split; [done|]. simpl. intros w' p Hp Hh. by apply (P3 w' p); [eapply Hold|].
  - destruct (writers s !! w) as [p|] eqn:Hw; [|done]. injection He as He. destruct p as [info|k info|k]; simpl in He; injection He as <- <-.
    + exists (q ++ [info]). split; [constructor|]. by apply (fetch_Inv s q w info).
    + by apply (store_info_Inv s q w k info).
    + by apply (store_seq_Inv s q w k).
  - injection He as He. pose proof (listen_Inv s q Hk HI) as H. by rewrite He in H.
  - simplify_eq. destruct HI. by split.
Qed.

(** Nothing is half-announced, and some announcement was made: the sequence
    number of an untouched slot, 0, is not ahead. *)
Definition quiet (s : state) : Prop := writers s = ∅ ∧ 0 < next_seq s ∧ ∀ idx, seq_at s idx < next_seq s.

Lemma open_Inv s : quiet s → Inv (open_listener s) [].
Proof.
  intros (Hw & Hn & Ho). split; simpl; rewrite ?Hw; try done.
  - lia.
  - unfold zlen. simpl. lia.
  - intros k i. unfold zget. by case_decide.
Qed.

Lemma listener_run s ls s' es :
  quiet s → always exec keeps_up (open_listener s) ls = true → ev_run exec (open_listener s) ls = Some (s', es) →
  ∃ q, trace queue [] es q ∧ Inv s' q.
Proof.
  intros Hq. apply (ev_simulation_while exec keeps_up (λ _, True) queue Inv); [|by apply open_Inv|by apply Forall_true].
  intros s0 l s1 e q H H' _. by apply notifier_exec_Inv.
Qed.

(** C17: while it keeps up a listener hears every announcement once, in order:
    from when it opens the memory with no announcement under way and at least
    one made, announcements of any number of writers in any interleaving are a
    queue that it takes from, as long as no more than the length of the ring is
    ahead of it. *)
Theorem notifier_is_a_queue s ls s' es :
  quiet s → always exec keeps_up (open_listener s) ls = true →
  ev_run exec (open_listener s) ls = Some (s', es) → ∃ q, trace queue [] es q ∧ zlen q = next_seq s' - next_seq_ s'.
Proof.
  intros Hq Hk Hr. destruct (listener_run s ls s' es Hq Hk Hr) as (q & Ht & HI).
  exists q. split; [done|]. apply (inv_len _ _ HI).
Qed.

(** *** A writer that stops *)

Lemma waiting_step w p s l s' e q :
  keeps_up s = true → keeps_up s' = true → l ≠ Write w →
  Inv s q ∧ writers s !! w = Some p ∧ holds p = Some (next_seq_ s) → exec s l = Some (s', e) →
  match e with
  | None => Inv s' q ∧ writers s' !! w = Some p ∧ holds p = Some (next_seq_ s')
  | Some x => ∃ q', (∃ i, x = Announced i ∧ q' = q ++ [i]) ∧
      Inv s' q' ∧ writers s' !! w = Some p ∧ holds p = Some (next_seq_ s')
  end.
Proof.
  intros Hk Hk' Hl (HI & Hw & Hp) He. pose proof (notifier_exec_Inv s l s' e q Hk Hk' HI He) as HI'.
  destruct (holder_pending s q w p _ HI Hw Hp) as (_ & _ & Hlt & _).
  destruct l as [v info|v| |]; simpl in He.
  - destruct (writers s !! v) eqn:Hv; [done|]. destruct (is_shutdown_ s); simplify_eq; [done|].
    split; [done|]. simpl. rewrite lookup_insert_ne; [done|]. intros ->. congruence.
  - assert (v ≠ w) by congruence. destruct (writers s !! v) as [pv|] eqn:Hv; [|done]. injection He as He.
    destruct pv; simpl in He; injection He as <- <-; simpl in *.
    + destruct HI' as (q' & Hq & HI'). inversion Hq; subst. exists (q ++ [info]). split; [eauto|]. by rewrite lookup_insert_ne.
    + by rewrite lookup_insert_ne.
    + by rewrite lookup_delete_ne.
  - injection He as He. pose proof (inv_listener _ _ HI) as Hlis. unfold exec_listen, listener_ok in *.
    destruct (listening s) as [| | |idx]; simplify_eq; [done|done| |destruct Hlis as (_ & -> & ?); lia].
    destruct (Z.leb_spec (next_seq_ s) (seq_at s (next_seq_ s mod kBufLength))); [lia|]. by simplify_eq.
  - by simplify_eq.
Qed.

(** Property: a writer that stops in [Notify] silences its listeners: from the moment
    it has taken the number that a listener is to hear next, the listener hears
    nothing, whatever the other writers announce, until the writer goes on (or
    the ring has gone round). *)
Theorem dead_writer_silences_listeners s0 ls0 s1 es0 w p ls s' es :
  quiet s0 → ev_run exec (open_listener s0) ls0 = Some (s1, es0) → always exec keeps_up (open_listener s0) ls0 = true →
  writers s1 !! w = Some p → holds p = Some (next_seq_ s1) →
  Forall (λ l, l ≠ Write w) ls → always exec keeps_up s1 ls = true → ev_run exec s1 ls = Some (s', es) →
  ∃ announced, es = Announced <$> announced.
Proof.
  intros Hq Hr0 Hk0 Hw Hp Hls Hk Hr.
  destruct (listener_run s0 ls0 s1 es0 Hq Hk0 Hr0) as (q & _ & HI).
  destruct (ev_simulation_while exec keeps_up (λ l, l ≠ Write w) (λ q x q', ∃ i, x = Announced i ∧ q' = q ++ [i])
    (λ s q, Inv s q ∧ writers s !! w = Some p ∧ holds p = Some (next_seq_ s)) (waiting_step w p)
    s1 ls s' es q (conj HI (conj Hw Hp)) Hls Hk Hr) as (q' & Ht & _).
  clear -Ht. induction Ht as [|q es q' x q'' _ [heard ->] (i & -> & ->)]; [by exists []|].
  exists (heard ++ [i]). by rewrite fmap_app.
Qed.

(** *** A listener that does not keep up *)

Definition announce (i : ReadableInfo) : list label := [Notify 0 i; Write 0; Write 0; Write 0].

(** The ring after complete announcements: the last of them are in their slots. *)
Record ring (s : state) (log : list ReadableInfo) : Prop := {
  ring_writers : writers s = ∅;
  ring_idle : listening s = LTest ∧ is_shutdown_ s = false;
  ring_next : next_seq s = zlen log;
  ring_slots : ∀ k i, zget log k = Some i → zlen log - kBufLength ≤ k →
    seq_at s (k mod kBufLength) = k ∧ info_at s (k mod kBufLength) = i;
}.

Lemma announce_ring s log i :
  ring s log → zlen log < 2 ^ 64 - 1 →
  ∃ s', ev_run exec s (announce i) = Some (s', [Announced i]) ∧ ring s' (log ++ [i]) ∧ next_seq_ s' = next_seq_ s.
Proof.
  intros [H1 [H2 H2'] H3 H4] Hn. pose proof (zlen_nonneg log) as Hl. destruct s as [n ri sq ws m lp sh].
  simpl in H1, H2, H2', H3, H4. subst. eexists. split.
  { unfold announce. eapply ev_run_silent; [simpl; rewrite lookup_empty; reflexivity|].
    eapply ev_run_event; [simpl; rewrite lookup_insert_eq; reflexivity|].
    do 2 (eapply ev_run_silent; [simpl; rewrite lookup_insert_eq; reflexivity|]). reflexivity. }
  split; [|done].
  assert (Hw : u64 (zlen log + 1) = zlen log + 1) by (apply wrap_small; wordlia).
  assert (Hz : zlen (log ++ [i]) = zlen log + 1) by apply zlen_snoc.
  split; simpl.
  - apply map_eq. intros j. rewrite lookup_empty, lookup_delete. case_decide; [done|]. by rewrite !lookup_insert_ne.
  - done.
  - by rewrite Hw, Hz.
  - intros k j. rewrite zget_snoc_Some, Hz. unfold seq_at, info_at in *. simpl in *. intros [Hj|[-> ->]] Hk.
    + pose proof (zget_Some_range _ _ _ Hj). rewrite !lookup_insert_ne; [apply H4; [done|lia]|..];
        intros E; assert (k = zlen log); try lia; apply (ring_window_inj kBufLength k (zlen log + 1)); lia || done.
    + by rewrite !lookup_insert_eq.
Qed.

Lemma announces_ring log : ∀ s log0,
  ring s log0 → zlen (log0 ++ log) < 2 ^ 64 →
  ∃ s', ev_run exec s (concat (announce <$> log)) = Some (s', Announced <$> log) ∧ ring s' (log0 ++ log) ∧ next_seq_ s' = next_seq_ s.
Proof.
  induction log as [|i log IH]; intros s log0 Hr Hn.
  - exists s. by rewrite app_nil_r.
  - assert (Hz : zlen (log0 ++ i :: log) = zlen log0 + 1 + zlen log) by (unfold zlen; rewrite length_app; simpl; lia).
    pose proof (zlen_nonneg log).
    destruct (announce_ring s log0 i Hr) as (s1 & E1 & R1 & N1); [lia|].
    destruct (IH s1 (log0 ++ [i]) R1) as (s2 & E2 & R2 & N2); [by rewrite <- (assoc_L (++))|].
    exists s2. rewrite <- (assoc_L (++)) in R2. split; [|split; [done|congruence]].
    rewrite !fmap_cons. cbn [concat]. rewrite (ev_run_app _ _ _ _ _ _ E1), E2. done.
Qed.

Lemma init_ring : ring init [].
Proof. split; try done. intros k i. unfold zget. by case_decide. Qed.

Lemma listen_hears s :
  listening s = LTest → is_shutdown_ s = false → next_seq s ≠ next_seq_ s →
  next_seq_ s ≤ seq_at s (next_seq_ s mod kBufLength) →
  ev_run exec s [Listen; Listen; Listen; Listen] =
    Some (set_listener (u64 (seq_at s (next_seq_ s mod kBufLength) + 1)) LTest s, [Heard (info_at s (next_seq_ s mod kBufLength))]).
Proof.
  intros H1 H2 H3 H4. destruct s as [n ri sq ws m lp sh]. simpl in H1, H2, H3, H4. subst.
  eapply ev_run_silent; [reflexivity|].
  eapply ev_run_silent; [unfold exec, exec_listen; simpl; rewrite (proj2 (Z.eqb_neq _ _)) by done; reflexivity|].
  eapply ev_run_silent.
  { unfold exec, exec_listen, seq_at in *. simpl in *. rewrite (proj2 (Z.leb_le _ _)) by done. reflexivity. }
  reflexivity.
Qed.

(** Property: a listener that is overrun goes on with the announcement that took the
    place of the one it was to hear: whatever its position, it hears the
    announcement in the same slot among the last of the ring, the next one when
    it keeps up; one announcement more than the ring holds, and it skips a whole
    ring, although all but one of what it skips is still there. *)
Theorem overrun_listener_skips log m :
  0 ≤ m < zlen log → zlen log < 2 ^ 64 - 1 →
  ∃ s s' k i,
    ev_run exec init (concat (announce <$> log)) = Some (s, Announced <$> log) ∧
    ev_run exec (set_listener m LTest s) [Listen; Listen; Listen; Listen] = Some (s', [Heard i]) ∧
    zget log k = Some i ∧ next_seq_ s' = k + 1 ∧
    m ≤ k ∧ zlen log - kBufLength ≤ k ∧ k mod kBufLength = m mod kBufLength ∧
    (zlen log ≤ m + kBufLength → k = m) ∧ (zlen log = m + kBufLength + 1 → k = m + kBufLength).
Proof.
  intros Hm Hn. destruct (announces_ring log init [] init_ring) as (s & E & [H1 [H2 H2'] H3 H4] & _); [simpl; lia|].
  simpl in H3, H4.
  set (k := zlen log - 1 - (zlen log - 1 - m) mod kBufLength).
  pose proof (Z.mod_pos_bound (zlen log - 1 - m) kBufLength ltac:(done)) as Hb.
  assert (Hk : ∃ d, k = m + d * kBufLength ∧ 0 ≤ d).
  { exists ((zlen log - 1 - m) / kBufLength). pose proof (Z.div_mod (zlen log - 1 - m) kBufLength ltac:(done)).
    split; [unfold k; lia|]. apply Z.div_pos; [lia|done]. }
  destruct Hk as (d & Hd & Hd0).
  assert (Hmod : k mod kBufLength = m mod kBufLength) by (rewrite Hd; apply Z.mod_add; done).
  assert (HL : kBufLength = 4096) by done.
  destruct (zget_is_Some log k) as [i Hi]; [unfold k; nia|].
  destruct (H4 k i Hi) as [Hs Hinfo]; [unfold k; lia|]. rewrite Hmod in Hs, Hinfo.
  exists s. eexists. exists k, i. split; [exact E|]. split; [|split; [exact Hi|]].
  - rewrite listen_hears; simpl; try done; [|lia|].
    + change (seq_at (set_listener m LTest s)) with (seq_at s). change (info_at (set_listener m LTest s)) with (info_at s).
      rewrite Hs, Hinfo. reflexivity.
    + change (seq_at (set_listener m LTest s)) with (seq_at s). lia.
  - simpl. rewrite wrap_small by wordlia. split_and!; [done|lia|unfold k; lia|done| |].
    + intros Hle. unfold k. rewrite Z.mod_small; lia.
    + intros Heq. unfold k. replace (zlen log - 1 - m) with kBufLength by lia. rewrite Z.mod_same by done. lia.
Qed.

(** *** Runs *)

Definition block (k : Z) : ReadableInfo := mkReadable 7 k 9.

(** Property: the first announcement in a new memory can be lost: its number is 0, and
    so is what the slot holds before it is announced, so that a listener that
    comes between the two hears the empty slot, and never the announcement. *)
Theorem first_announcement_is_lost :
  ∃ s, ev_run exec (open_listener init)
    ([Notify 0 (block 5); Write 0] ++ [Listen; Listen; Listen; Listen] ++ [Write 0; Write 0] ++
     [Listen; Listen; Listen; Listen]) = Some (s, [Announced (block 5); Heard no_info]) ∧
    next_seq_ s = next_seq s ∧ writers s = ∅.
Proof. eexists. split; [vm_compute; reflexivity|]. split; reflexivity. Qed.

(** A ring of announcements ahead of a listener that has read the first's
    number when the next writer takes the slot. *)
Definition overtaken : list label :=
  concat (announce <$> (block <$> seqZ 0 4097)) ++ [Listen; Listen; Listen] ++ [Notify 1 (block 4097); Write 1; Write 1] ++ [Listen].

(** Property: a listener a whole ring behind can hear an announcement in the place of
    another: between its test of the number and its copy a writer overwrites the
    slot; it hears the newest announcement for the oldest, and will hear it
    again when it gets there. *)
Theorem overtaken_listener_hears_wrong_block :
  match ev_run exec (set_listener 1 LTest init) overtaken with
  | Some (s, es) => drop 4097 es = [Announced (block 4097); Heard (block 4097)] ∧ next_seq_ s = 2
  | None => False
  end.
Proof. vm_compute. split; reflexivity. Qed.

(** After one announcement. *)
Definition after_one : state := mkState 1 {[0 := block 5]} {[0 := 0]} ∅ 0 LTest false.

Lemma after_one_run : ev_run exec init (announce (block 5)) = Some (after_one, [Announced (block 5)]).
Proof. vm_compute. reflexivity. Qed.

Lemma after_one_quiet : quiet after_one.
Proof.
  split; [reflexivity|]. split; [reflexivity|]. intros idx. unfold seq_at, after_one. simpl.
  destruct (decide (idx = 0)) as [->|]; [by rewrite lookup_singleton_eq|by rewrite lookup_singleton_ne].
Qed.

(** Two writers, the later one faster, and the listener. *)
Definition two_announce : list label :=
  [Notify 1 (block 6); Notify 2 (block 7); Write 1; Write 2; Write 2; Write 2] ++ [Listen; Listen; Listen] ++
  [Write 1; Write 1] ++ [Listen; Listen; Listen; Listen] ++ [Listen; Listen; Listen; Listen].

Lemma notifier_is_a_queue_witness :
  ∃ s', ev_run exec (open_listener after_one) two_announce =
      Some (s', [Announced (block 6); Announced (block 7); Heard (block 6); Heard (block 7)]) ∧
    ∃ q, trace queue [] [Announced (block 6); Announced (block 7); Heard (block 6); Heard (block 7)] q ∧
      zlen q = next_seq s' - next_seq_ s'.
Proof.
  destruct (ev_run exec (open_listener after_one) two_announce) as [[s' es]|] eqn:E; [|vm_compute in E; discriminate E].
  assert (Hes : es = [Announced (block 6); Announced (block 7); Heard (block 6); Heard (block 7)]).
  { vm_compute in E. injection E as _ <-. reflexivity. }
  exists s'. subst es. split; [reflexivity|].
  apply (notifier_is_a_queue after_one two_announce); [exact after_one_quiet|vm_compute; reflexivity|exact E].
Defined.

Lemma overrun_listener_skips_witness :
  ∃ s s' k i,
    ev_run exec init (concat (announce <$> [block 5; block 6])) = Some (s, [Announced (block 5); Announced (block 6)]) ∧
    ev_run exec (set_listener 1 LTest s) [Listen; Listen; Listen; Listen] = Some (s', [Heard i]) ∧ k = 1 ∧ zget [block 5; block 6] k = Some i.
Proof.
  destruct (overrun_listener_skips [block 5; block 6] 1) as (s & s' & k & i & H1 & H2 & H3 & _ & _ & _ & _ & H4 & _);
    [split; [lia|reflexivity]|reflexivity|].
  exists s, s', k, i. split; [exact H1|]. split; [exact H2|]. split; [apply H4; vm_compute; discriminate|exact H3].
Defined.

Definition two_taken : list label := [Notify 1 (block 6); Write 1; Notify 2 (block 7); Write 2; Write 2; Write 2].

Definition two_others : list label :=
  [Listen; Listen; Listen; Notify 2 (block 8); Write 2; Write 2; Write 2; Listen; Listen; Listen].

(** The states after them. *)
Definition end_of (r : option (state * list event)) : state := match r with Some (s, _) => s | None => init end.
Definition taken : state := end_of (ev_run exec (open_listener after_one) two_taken).
Definition silent : state := end_of (ev_run exec taken two_others).

Lemma taken_run : ev_run exec (open_listener after_one) two_taken = Some (taken, [Announced (block 6); Announced (block 7)]).
Proof. vm_compute. reflexivity. Qed.

Lemma silent_run : ev_run exec taken two_others = Some (silent, [Announced (block 8)]).
Proof. vm_compute. reflexivity. Qed.

Lemma dead_writer_silences_listeners_witness :
  next_seq_ silent = next_seq silent - 3 ∧ ∃ announced, [Announced (block 8)] = Announced <$> announced.
Proof.
  split; [vm_compute; reflexivity|].
  apply (dead_writer_silences_listeners after_one two_taken taken _ 1 (WStoreInfo 1 (block 6)) two_others silent _
    after_one_quiet taken_run); [vm_compute; reflexivity|vm_compute; reflexivity|vm_compute; reflexivity| |vm_compute; reflexivity|exact silent_run].
  unfold two_others. repeat constructor; discriminate.
Defined.
