(* ===== verification/ShmTransport.v ===== *)
(** * Messages through the shared memory

    [ShmTransmitter] ([src/code/cyber/transport/transmitter/shm_transmitter.h])
    and [ShmDispatcher] ([transport/dispatcher/shm_dispatcher.h], [.cc]) over
    [Segment], [MessageInfo] and the handlers of [Dispatcher]: a message is
    serialised into a block of the channel's segment with its info behind it and
    announced; the dispatcher of each process reads the announced block and
    hands it to the listeners.  The contents of the buffers and the sizes in the
    blocks are added to the [World] of [Segment].  An operation runs without
    others in between ([Notifier], [Segment] and [ShmBlock] interleave). *)

From stdpp Require Import base list gmap.
From S2P Require Import Prelude AtomicHashMap RWLock Signal Listener Message ShmBlock Segment.

(** Memory objects, the bytes of every buffer (by its address), and
    [msg_size_] and [msg_info_size_] of every block. *)
Record Memory := mkMemory { shm : World; bufs : gmap (nat * Z) (list Z); sizes : gmap (nat * Z) (Z * Z) }.

Definition buf_at (m : Memory) (a : nat * Z) : list Z := default [] (bufs m !! a).
Definition sizes_at (m : Memory) (b : nat * Z) : Z * Z := default (0, 0) (sizes m !! b).

(** Undefined behaviour: a fault in [Segment], a null pointer, a write behind
    the end of the buffer. *)
Inductive crash := SegmentFault (f : fault) | NullPointer | Overflow.

Inductive result (A : Type) := Return (a : A) (m : Memory) | Crashed (c : crash) | Looping.
Arguments Return {A}. Arguments Crashed {A}. Arguments Looping {A}.

(** An operation of a segment, and what follows it. *)
Definition in_segment {A B} (op : M A) (g : Seg) (m : Memory) (k : A → Seg → Memory → result B) : result B :=
  match op g (shm m) with
  | Ok a g' w' => k a g' (mkMemory w' (bufs m) (sizes m))
  | Fault f => Crashed (SegmentFault f)
  | Spinning _ _ => Looping
  end.

(** [memcpy] to offset [off] of a buffer. *)
Definition overwrite (off : nat) (bytes old : list Z) : list Z :=
  resize off 0 old ++ bytes ++ drop (off + length bytes) old.

Definition write_buf (a : nat * Z) (off : nat) (bytes : list Z) (m : Memory) : Memory :=
  mkMemory (shm m) (<[a := overwrite off bytes (buf_at m a)]> (bufs m)) (sizes m).

Definition set_msg_size (b : nat * Z) (n : Z) (m : Memory) : Memory :=
  mkMemory (shm m) (bufs m) (<[b := (n, (sizes_at m b).2)]> (sizes m)).

Definition set_msg_info_size (b : nat * Z) (n : Z) (m : Memory) : Memory :=
  mkMemory (shm m) (bufs m) (<[b := ((sizes_at m b).1, n)]> (sizes m)).

Section ShmTransport.
Context (sizeof_State sizeof_Block : Z) (big_endian : bool) (hash : list Z → Z).
Context {Msg L DM : Type}.
Context `{!KVStore DM (nat * ListenerHandler L), !KVStoreLaws DM (nat * ListenerHandler L)}.

(** The traits of the message type (the protobuf library), and its tag. *)
Context (ByteSize : Msg → Z) (SerializeToArray : Msg → option (list Z)) (ParseFromArray : list Z → option Msg).
Context (readable_block : nat).

(** ** [ShmTransmitter] *)

(** [notifier_] is the one notifier of the process while enabled. *)
Record ShmTransmitter := mkTransmitter {
  enabled_ : bool; segment_ : option Seg; channel_id : Z; host_id : Z; seq_num : Z; msg_info_ : MessageInfo }.

Definition with_segment (s : option Seg) (t : ShmTransmitter) : ShmTransmitter :=
  mkTransmitter (enabled_ t) s (channel_id t) (host_id t) (seq_num t) (msg_info_ t).

Definition Enable (t : ShmTransmitter) : ShmTransmitter :=
  if enabled_ t then t
  else mkTransmitter true (Some Segment_new) (channel_id t) (host_id t) (seq_num t) (msg_info_ t).

(** [segment_ = nullptr] destroys the segment. *)
Definition Disable (e : os) (t : ShmTransmitter) (m : Memory) : result ShmTransmitter :=
  if enabled_ t then
    match segment_ t with
    | Some g =>
        in_segment (Destroy e) g m
          (λ _ _ m, Return (mkTransmitter false None (channel_id t) (host_id t) (seq_num t) (msg_info_ t)) m)
    | None => Return (mkTransmitter false None (channel_id t) (host_id t) (seq_num t) (msg_info_ t)) m
    end
  else Return t m.

(** [notify_ok] is the answer of [Notify]; the announcement is returned. *)
Definition Transmit (e1 e2 e3 : os) (tries : list bool) (notify_ok : bool) (msg : Msg) (msg_info : MessageInfo)
    (t : ShmTransmitter) (m : Memory) : result (bool * option ReadableInfo * ShmTransmitter) :=
  if negb (enabled_ t) then Return (false, None, t) m
  else
    match segment_ t with
    | None => Crashed NullPointer
    | Some g =>
        let msg_size := ByteSize msg in
        in_segment (AcquireBlockToWrite sizeof_State sizeof_Block e1 e2 e3 msg_size tries) g m (λ wb g m,
          match wb with
          | None => Return (false, None, with_segment (Some g) t) m
          | Some (index, buf) =>
              match buf, blocks_ g with
              | Some a, Some id =>
                  match SerializeToArray msg with
                  | None =>
                      in_segment (ReleaseWrittenBlock index) g m
                        (λ _ g m, Return (false, None, with_segment (Some g) t) m)
                  | Some bytes =>
                      if block_buf_size_ (conf_ g) <? zlen bytes then Crashed Overflow
                      else
                        let m := set_msg_size (id, index) msg_size (write_buf a 0 bytes m) in
                        if block_buf_size_ (conf_ g) <? msg_size + Z.of_nat MessageInfo_kSize then Crashed Overflow
                        else
                          let m := write_buf a (Z.to_nat msg_size) (MessageInfo_SerializeTo big_endian msg_info) m in
                          let m := set_msg_info_size (id, index) (Z.of_nat MessageInfo_kSize) m in
                          in_segment (ReleaseWrittenBlock index) g m (λ _ g m,
                            Return (notify_ok, Some (mkReadable (host_id t) index (channel_id t)),
                                    with_segment (Some g) t) m)
                  end
              | _, _ => Crashed NullPointer
              end
          end)
    end.

(** [Transmitter::Transmit]: the next sequence number. *)
Definition Transmit_next (e1 e2 e3 : os) (tries : list bool) (notify_ok : bool) (msg : Msg)
    (t : ShmTransmitter) (m : Memory) : result (bool * option ReadableInfo * ShmTransmitter) :=
  let n := u64 (seq_num t + 1) in
  let info := mkInfo (sender_id_ (msg_info_ t)) (channel_id_ (msg_info_ t)) n (spare_id_ (msg_info_ t)) in
  Transmit e1 e2 e3 tries notify_ok msg info
    (mkTransmitter (enabled_ t) (segment_ t) (channel_id t) (host_id t) n info) m.

(** ** [ShmDispatcher] *)

(** [previous_indexes_] is only logged. *)
Record ShmDispatcher := mkShmDispatcher { handlers : Dispatcher (DM := DM); segments_ : gmap Z Seg; host_id_of : Z }.

Definition AddSegment (ch : Z) (d : ShmDispatcher) : ShmDispatcher :=
  match segments_ d !! ch with
  | Some _ => d
  | None => mkShmDispatcher (handlers d) (<[ch := Segment_new]> (segments_ d)) (host_id_of d)
  end.

Definition Shm_AddListener (ch self : Z) (oppo : option Z) (l : L) (d : ShmDispatcher) : ShmDispatcher :=
  AddSegment ch (mkShmDispatcher (AddListener (handlers d) readable_block ch self oppo l) (segments_ d) (host_id_of d)).

(** A default-constructed [MessageInfo]. *)
Definition fresh_info : MessageInfo := mkInfo (mkIdentity (zeros 8) 0) 0 0 (mkIdentity (zeros 8) 0).

(** The adapter of [AddListener] parses the message for each listener. *)
Definition call_listeners (ls : list L) (bytes : list Z) (info : MessageInfo) : list (L * Msg * MessageInfo) :=
  omap (λ l, match ParseFromArray bytes with Some msg => Some (l, msg, info) | None => None end) ls.

Definition ReadMessage (e1 e2 : os) (refused : bool) (ch index : Z) (d : ShmDispatcher) (m : Memory) :
    result (list (L * Msg * MessageInfo) * ShmDispatcher) :=
  match segments_ d !! ch with
  | None => Crashed NullPointer
  | Some g =>
      in_segment (AcquireBlockToRead sizeof_State sizeof_Block e1 e2 index refused) g m (λ rb g m,
        let d := mkShmDispatcher (handlers d) (<[ch := g]> (segments_ d)) (host_id_of d) in
        match rb with
        | None => Return ([], d) m
        | Some buf =>
            match buf, blocks_ g with
            | Some a, Some id =>
                let '(msg_size, msg_info_size) := sizes_at m (id, index) in
                let bytes := take (Z.to_nat msg_size) (buf_at m a) in
                let info_bytes := take (Z.to_nat msg_info_size) (drop (Z.to_nat msg_size) (buf_at m a)) in
                let '(calls, hs) :=
                  match MessageInfo_DeserializeFrom big_endian hash fresh_info (Some info_bytes) with
                  | (true, info) =>
                      let '(ls, hs) := OnMessage (handlers d) readable_block ch (hash_value_ (sender_id_ info)) in
                      (call_listeners ls bytes info, hs)
                  | (false, _) => ([], handlers d)
                  end in
                in_segment (ReleaseReadBlock index) g m (λ _ g m,
                  Return (calls, mkShmDispatcher hs (<[ch := g]> (segments_ d)) (host_id_of d)) m)
            | _, _ => Crashed NullPointer
            end
        end)
  end.

(** One round of [ThreadFunc] that has heard an announcement. *)
Definition on_announcement (e1 e2 : os) (refused : bool) (info : ReadableInfo) (d : ShmDispatcher) (m : Memory) :
    result (list (L * Msg * MessageInfo) * ShmDispatcher) :=
  if negb (host_id_ info =? host_id_of d) then Return ([], d) m
  else
    match segments_ d !! r_channel_id_ info with
    | None => Return ([], d) m
    | Some _ => ReadMessage e1 e2 refused (r_channel_id_ info) (block_index_ info) d m
    end.

Definition Shm_Shutdown (d : ShmDispatcher) : ShmDispatcher :=
  if is_shutdown_ (handlers d) then d else mkShmDispatcher (Shutdown (handlers d)) ∅ (host_id_of d).
End ShmTransport.

(** ** A block that can be read *)

Section Reading.
Context (sizeof_State sizeof_Block : Z).
Context (Hst : 0 ≤ sizeof_State ≤ STATE_SIZE) (Hbl : 0 ≤ sizeof_Block ≤ BLOCK_SIZE).

Abbreviation OpenOnly := (OpenOnly sizeof_State sizeof_Block).
Abbreviation Remap := (Remap sizeof_State sizeof_Block).
Abbreviation wf := (wf sizeof_State sizeof_Block).
Abbreviation buf_offset := (buf_offset sizeof_State sizeof_Block).
Abbreviation AcquireBlockToRead := (AcquireBlockToRead sizeof_State sizeof_Block).

Lemma live_size o : live o → 0 < st_size o.
Proof using Type.
  intros (_ & -> & _). unfold conf_at.
  apply (conf_cases (λ c, 0 < managed_shm_size_ c)). repeat constructor.
Qed.

Lemma OpenOnly_good g w id o :
  wf g w → Segment.init_ g = false → name w = Some id → objs w !! id = Some o → live o →
  ∃ g' w', OpenOnly os_good g w = Ok true g' w' ∧ opened sizeof_State sizeof_Block true g w g' w' ∧ name w' = Some id.
Proof using Type.
  intros Hwf Hi Hn Ho Hl. pose proof (OpenOnly_opened sizeof_State sizeof_Block os_good g w Hwf Hi) as H. unfold post in H.
  assert (E : ∃ g' w', OpenOnly os_good g w = Ok true g' w').
  { unfold Segment.OpenOnly, get, Segment.world, mbind, M_bind. rewrite Hi, Hn. simpl. rewrite Ho.
    rewrite (proj2 (Z.ltb_lt _ _) (live_size o Hl)). simpl. rewrite (attach_eq _ _ _ _ _ _ _ Ho). eauto. }
  destruct E as (g' & w' & E). rewrite E in H. exists g', w'. split; [done|]. destruct H as [H1 H2].
  split; [exact H1|congruence].
Qed.

(** What a segment that has opened the object [id], which was [o], is like. *)
Definition attached (g : Seg) (w : World) (id : nat) (o : Shm) : Prop :=
  wf g w ∧ state_ g = Some id ∧
  ∃ o', objs w !! id = Some o' ∧ shm_ceiling o' = shm_ceiling o ∧ lock_nums o' = lock_nums o.

Lemma opened_attached_to g w g' w' id o :
  opened sizeof_State sizeof_Block true g w g' w' → name w' = Some id → objs w !! id = Some o → live o → attached g' w' id o.
Proof using Type.
  intros (Hwf & He & Hi & id' & o' & Hn' & Hs & Ho' & _) Hn Ho Hl. rewrite Hn in Hn'. injection Hn' as <-.
  split; [done|]. split; [done|]. destruct (He id o Ho) as (o1 & Ho1 & Hk). rewrite Ho' in Ho1. injection Ho1 as <-.
  destruct (Hk Hl) as (Hsh & _ & Hlk). exists o'. split; [done|]. unfold shape in Hsh. injection Hsh as _ Hc _. auto.
Qed.

Lemma attached_conf g w id o : attached g w id o → conf_ g = conf_at o ∧ blocks_ g = Some id.
Proof using Type.
  intros (Hwf & Hs & o' & Ho' & Hc & _). destruct (wf_attached _ _ _ _ _ Hwf Hs) as (o1 & Ho1 & _ & Hcf & Hb & _).
  assert (o1 = o') as -> by congruence. split; [|done]. rewrite Hcf. unfold conf_at. by rewrite Hc.
Qed.

(** The lock of block [i] of object [id] is changed, and no other. *)
Definition block_locked (w w' : World) (id : nat) (i n : Z) : Prop :=
  ∃ o o', objs w !! id = Some o ∧ objs w' !! id = Some o' ∧ lock_nums o' = zset (lock_nums o) i n ∧ shm_ceiling o' = shm_ceiling o.

Lemma read_tail_good g w id o i n :
  attached g w id o → 0 ≤ i < block_num_ (conf_at o) → zget (lock_nums o) i = Some n → 0 ≤ n →
  ∃ w', (locked ← on_block i (try_read false);
         if negb locked then mret None
         else buf ← block_buf_addr i; mret (Some buf)) g w = Ok (Some (Some (id, buf_offset (conf_at o) i))) g w' ∧
    wf g w' ∧ ∃ o', objs w' !! id = Some o' ∧ lock_nums o' = zset (lock_nums o) i (i32 (n + 1)) ∧ shm_ceiling o' = shm_ceiling o.
Proof using Hst Hbl.
  intros Ha Hi Hz Hpos. pose proof (attached_conf _ _ _ _ Ha) as [Hcf Hb]. destruct Ha as (Hwf & Hs & o1 & Ho1 & Hc & Hlk).
  destruct (wf_attached _ _ _ _ _ Hwf Hs) as (o2 & Ho2 & Hl & _ & _ & _). assert (o2 = o1) as -> by congruence.
  unfold mbind, M_bind, on_block. rewrite Hb, Ho1, Hlk, Hz. unfold try_read, Block.kRWLockFree. rewrite (proj2 (Z.ltb_ge _ _) Hpos). simpl.
  set (o' := mkShm _ _ _ _ _ _). assert (Hk : keeps false o1 o').
  { split; [|by split]. unfold shape, o'. simpl. by rewrite zlen_zset, Hlk. }
  destruct (wf_insert sizeof_State sizeof_Block false g w id o1 o' Hwf Ho1 Hl Hk) as [Hwf' _].
  destruct (block_buf_addr_eq sizeof_State sizeof_Block g (update w id o') id o' i Hst Hbl Hwf' Hs
    (update_lookup _ _ _ _ Ho1)) as (buf & Hbuf & _ & -> & _); [by rewrite Hcf|].
  unfold update in Hbuf. rewrite Hbuf, Hcf. unfold mret, M_ret. eexists. split; [reflexivity|]. split; [exact Hwf'|].
  exists o'. split; [by apply (update_lookup w id o1)|]. by split.
Qed.

(** The channel's name stands for [id], and a segment that is open is attached
    to it. *)
Definition sees (g : Seg) (w : World) (id : nat) : Prop :=
  name w = Some id ∧ (Segment.init_ g = true → state_ g = Some id).

Lemma read_open g w id o i n :
  attached g w id o → Segment.init_ g = true → name w = Some id → live o → 0 ≤ i < block_num_ (conf_at o) → zget (lock_nums o) i = Some n → 0 ≤ n →
  ∃ g' w', AcquireBlockToRead os_good os_good i false g w = Ok (Some (Some (id, buf_offset (conf_at o) i))) g' w' ∧
    attached g' w' id (mkShm (st_size o) (need_remap_ o) (seq_ o) (refs o) (shm_ceiling o) (zset (lock_nums o) i (i32 (n + 1)))).
Proof using Hst Hbl.
  intros Ha Hin Hn Hl Hi Hz Hpos. pose proof (attached_conf _ _ _ _ Ha) as [Hcf Hb]. pose proof Ha as (Hwf & Hs & o1 & Ho1 & Hc & Hlk).
  unfold Segment.AcquireBlockToRead. rewrite open_guard, Hin. unfold mbind at 1, M_bind at 1, get at 1.
  rewrite Hcf. rewrite (proj2 (Z.leb_gt _ _)) by lia.
  unfold mbind at 1, M_bind at 1, need_remap, on_state. rewrite Hs, Ho1, list_insert_id by done.
  replace (mkWorld (name w) (objs w)) with w by (by destruct w). unfold mbind at 1, M_bind at 1.
  assert (Hfin : ∀ g1 w1, attached g1 w1 id o → ∃ g' w',
    (locked ← on_block i (try_read false);
     if negb locked then mret None else buf ← block_buf_addr i; mret (Some buf)) g1 w1 =
      Ok (Some (Some (id, buf_offset (conf_at o) i))) g' w' ∧
    attached g' w' id (mkShm (st_size o) (need_remap_ o) (seq_ o) (refs o) (shm_ceiling o) (zset (lock_nums o) i (i32 (n + 1))))).
  { intros g1 w1 Ha1. destruct (read_tail_good g1 w1 id o i n Ha1 Hi Hz Hpos) as (w' & E & Hwf' & o' & Ho' & Hl' & Hc').
    exists g1, w'. split; [exact E|]. destruct Ha1 as (_ & Hs1 & _). split; [done|]. split; [done|]. by exists o'. }
  destruct (need_remap_ o1).
  - set (g0 := mkSeg false (conf_ g) None None Unmapped ∅).
    change (Remap os_good g w) with (OpenOnly os_good g0 w).
    destruct (OpenOnly_good g0 w id o1) as (g1 & w1 & E & Hop & Hn1); try done; [by apply Reset_wf|..].
    { destruct (wf_attached _ _ _ _ _ Hwf Hs) as (o2 & Ho2 & Hl2 & _). by assert (o2 = o1) as <- by congruence. }
    rewrite E. cbn [negb]. apply Hfin.
    destruct (opened_attached_to g0 w g1 w1 id o1 Hop Hn1 Ho1) as (A1 & A3 & o2 & Ho2 & Hc2 & Hl2).
    { destruct (wf_attached _ _ _ _ _ Hwf Hs) as (o3 & Ho3 & Hl3 & _). by assert (o3 = o1) as <- by congruence. }
    split; [done|]. split; [done|]. exists o2. split; [done|]. split; congruence.
  - unfold mret at 1, M_ret at 1. cbn [negb]. by apply Hfin.
Qed.

(** A block that nobody writes is read by every segment that sees the object. *)
Lemma read_good g w id o i n :
  wf g w → sees g w id → objs w !! id = Some o → live o → 0 ≤ i < block_num_ (conf_at o) → zget (lock_nums o) i = Some n → 0 ≤ n →
  ∃ g' w', AcquireBlockToRead os_good os_good i false g w = Ok (Some (Some (id, buf_offset (conf_at o) i))) g' w' ∧
    attached g' w' id (mkShm (st_size o) (need_remap_ o) (seq_ o) (refs o) (shm_ceiling o) (zset (lock_nums o) i (i32 (n + 1)))).
Proof using Hst Hbl.
  intros Hwf [Hn Hsee] Ho Hl Hi Hz Hpos. destruct (Segment.init_ g) eqn:Hin.
  - apply read_open; try done. split; [done|]. split; [by apply Hsee|]. by exists o.
  - destruct (OpenOnly_good g w id o Hwf Hin Hn Ho Hl) as (g1 & w1 & E & Hop & Hn1).
    pose proof (opened_attached_to _ _ _ _ _ _ Hop Hn1 Ho Hl) as Ha.
    unfold Segment.AcquireBlockToRead. rewrite (open_guard_again _ _ _ _ _ _ Hin E (proj1 (proj2 (proj2 Hop)))).
    apply (read_open g1 w1 id o i n); try done. apply Hop.
Qed.

(** Releasing a block. *)
Lemma release_block (f : Z → Z) g w id o i :
  attached g w id o → 0 ≤ i < block_num_ (conf_at o) →
  ∃ n w', zget (lock_nums o) i = Some n ∧
    (g0 ← get; if block_num_ (conf_ g0) <=? i then mret () else on_block i (λ n, ((), f n))) g w = Ok () g w' ∧
    name w' = name w ∧
    attached g w' id (mkShm (st_size o) (need_remap_ o) (seq_ o) (refs o) (shm_ceiling o) (zset (lock_nums o) i (f n))).
Proof using Type.
  intros Ha Hi. pose proof (attached_conf _ _ _ _ Ha) as [Hcf Hb]. destruct Ha as (Hwf & Hs & o1 & Ho1 & Hc & Hlk).
  destruct (wf_attached _ _ _ _ _ Hwf Hs) as (o2 & Ho2 & Hl & _ & _ & Hlen). assert (o2 = o1) as -> by congruence.
  destruct (zget_is_Some (lock_nums o) i) as [n Hn]; [rewrite <- Hlk, Hlen, Hcf; done|].
  unfold mbind, M_bind, get, on_block. rewrite Hcf, (proj2 (Z.leb_gt _ _)) by lia. rewrite Hb, Ho1, Hlk, Hn.
  set (o' := mkShm _ _ _ _ _ _). assert (Hk : keeps false o1 o').
  { split; [|by split]. unfold shape, o'. simpl. by rewrite zlen_zset, Hlk. }
  destruct (wf_insert sizeof_State sizeof_Block false g w id o1 o' Hwf Ho1 Hl Hk) as [Hwf' _].
  exists n. eexists. split; [done|]. split; [reflexivity|]. split; [done|].
  split; [exact Hwf'|]. split; [done|]. exists o'. split; [by apply (update_lookup w id o1)|]. by split.
Qed.
End Reading.

(** ** From the transmitter to the listeners *)

Section Delivery.
Context (sizeof_State sizeof_Block : Z) (big_endian : bool) (hash : list Z → Z).
Context (Hst : 0 ≤ sizeof_State ≤ STATE_SIZE) (Hbl : 0 ≤ sizeof_Block ≤ BLOCK_SIZE).
Context {Msg L DM : Type}.
Context `{!KVStore DM (nat * ListenerHandler L), !KVStoreLaws DM (nat * ListenerHandler L)}.
Context (ByteSize : Msg → Z) (SerializeToArray : Msg → option (list Z)) (ParseFromArray : list Z → option Msg).
Context (readable_block : nat).

(** The message library: the size is that of the bytes, which parse back. *)
Context (message_library : ∀ msg bytes, SerializeToArray msg = Some bytes →
  zlen bytes = ByteSize msg ∧ ParseFromArray bytes = Some msg).

Abbreviation Transmit := (Transmit sizeof_State sizeof_Block big_endian ByteSize SerializeToArray).
Abbreviation on_announcement := (on_announcement sizeof_State sizeof_Block big_endian hash ParseFromArray readable_block).

Lemma overwrite_two (n k : nat) (bytes info old : list Z) :
  length bytes = n → length info = k →
  take n (overwrite n info (overwrite 0 bytes old)) = bytes ∧
  take k (drop n (overwrite n info (overwrite 0 bytes old))) = info.
Proof using Type.
  intros <- <-. unfold overwrite at 1 3. rewrite take_app_length' by (by rewrite length_resize).
  rewrite drop_app_length' by (by rewrite length_resize). rewrite take_app_length. split; [|done].
  unfold overwrite. rewrite resize_0. simpl. rewrite resize_le by (rewrite length_app; lia). apply take_app_length.
Qed.

(** What a successful [Transmit] leaves: a free block with the message and its
    info, in the object the transmitter is attached to. *)
Record written (msg : Msg) (info : MessageInfo) (ann : ReadableInfo) (g : Seg) (m : Memory) (id : nat) (o : Shm) : Prop := {
  wr_attached : attached sizeof_State sizeof_Block g (shm m) id o;
  wr_object : objs (shm m) !! id = Some o ∧ live o;
  wr_block : 0 ≤ block_index_ ann < block_num_ (conf_at o) ∧ zget (lock_nums o) (block_index_ ann) = Some 0;
  wr_sizes : sizes_at m (id, block_index_ ann) = (ByteSize msg, Z.of_nat MessageInfo_kSize);
  wr_bytes : ∃ bytes, SerializeToArray msg = Some bytes ∧
    take (Z.to_nat (ByteSize msg)) (buf_at m (id, buf_offset sizeof_State sizeof_Block (conf_at o) (block_index_ ann))) = bytes;
  wr_info : take MessageInfo_kSize (drop (Z.to_nat (ByteSize msg))
    (buf_at m (id, buf_offset sizeof_State sizeof_Block (conf_at o) (block_index_ ann)))) = MessageInfo_SerializeTo big_endian info;
}.

Lemma Transmit_written e1 e2 e3 tries ok msg info t g m ann t1 m1 :
  segment_ t = Some g → wf sizeof_State sizeof_Block g (shm m) → info_ok info →
  Transmit e1 e2 e3 tries ok msg info t m = Return (true, Some ann, t1) m1 →
  host_id_ ann = host_id t ∧ r_channel_id_ ann = channel_id t ∧
  ∃ g1 id o, segment_ t1 = Some g1 ∧ state_ g1 = Some id ∧ written msg info ann g1 m1 id o.
Proof using Hst Hbl message_library.
  intros Hg Hwf Hinfo. unfold ShmTransport.Transmit. destruct (enabled_ t); simpl; [|done]. rewrite Hg. unfold in_segment at 1.
  pose proof (acquire_block_to_write_spec sizeof_State sizeof_Block e1 e2 e3 (ByteSize msg) tries g (shm m) Hst Hbl Hwf) as Hs.
  destruct (AcquireBlockToWrite sizeof_State sizeof_Block e1 e2 e3 (ByteSize msg) tries g (shm m)) as [[[i buf]|] g1 w1| |]; try done.
  destruct Hs as (Hwf1 & _ & _ & id & o & Hid & Ho & (Hi & -> & _) & Hlock & _).
  destruct (wf_attached _ _ _ _ _ Hwf1 Hid) as (o' & Ho' & Hl & Hcf & Hb & Hlen). assert (o' = o) as -> by congruence.
  rewrite Hb. destruct (SerializeToArray msg) as [bytes|] eqn:Eb; [|unfold in_segment; by destruct (ReleaseWrittenBlock _ _ _)].
  destruct (message_library msg bytes Eb) as [Hsize _].
  destruct (block_buf_size_ (conf_ g1) <? zlen bytes); [done|].
  destruct (block_buf_size_ (conf_ g1) <? _); [done|].
  unfold in_segment. simpl shm.
  assert (Ha : attached sizeof_State sizeof_Block g1 w1 id o) by (split; [done|]; split; [done|]; by exists o).
  rewrite Hcf in Hi. destruct (release_block sizeof_State sizeof_Block (λ n, i32 (n + 1)) g1 w1 id o i Ha Hi) as (n & w2 & Hn & E & _ & Ha2).
  unfold ReleaseWrittenBlock. rewrite E. intros [= -> <- <- <-]. simpl. split; [done|]. split; [done|].
  set (o2 := mkShm _ _ _ _ _ _) in Ha2. exists g1, id. destruct Ha2 as (Hwf2 & _ & o3 & Ho3 & Hc3 & Hl3). unfold o2 in Hc3, Hl3. simpl in Hc3, Hl3.
  destruct (wf_attached _ _ _ _ _ Hwf2 Hid) as (o4 & Ho4 & Hlive & _). assert (o4 = o3) as -> by congruence.
  assert (Hco : conf_at o3 = conf_at o) by (unfold conf_at; by rewrite Hc3).
  exists o3. split; [done|]. split; [done|].
  assert (Hbytes : length bytes = Z.to_nat (ByteSize msg)) by (unfold zlen in Hsize; lia).
  destruct (overwrite_two (Z.to_nat (ByteSize msg)) MessageInfo_kSize bytes (MessageInfo_SerializeTo big_endian info)
    (buf_at m (id, buf_offset sizeof_State sizeof_Block (conf_ g1) i))) as [W1 W2]; [done|by apply SerializeTo_length|].
  split; cbn [block_index_ shm].
  - split; [done|]. split; [done|]. by exists o3.
  - by split.
  - rewrite Hco. split; [done|]. rewrite Hl3. rewrite Hlock in Hn. injection Hn as <-. apply zget_zset_eq.
    rewrite Hlen, Hcf. done.
  - unfold sizes_at at 1. simpl. rewrite lookup_insert_eq. simpl. unfold sizes_at. simpl. by rewrite lookup_insert_eq.
  - exists bytes. split; [done|]. rewrite Hco, <- Hcf. unfold buf_at in *. simpl. by rewrite !lookup_insert_eq.
  - rewrite Hco, <- Hcf. unfold buf_at in *. simpl. by rewrite !lookup_insert_eq.
Qed.

Lemma call_listeners_all (ls : list L) bytes msg info :
  ParseFromArray bytes = Some msg → call_listeners ParseFromArray ls bytes info = (λ l, (l, msg, info)) <$> ls.
Proof using Type.
  intros Hp. unfold call_listeners. induction ls as [|l ls IH]; [done|]. simpl in *. rewrite Hp. by f_equal.
Qed.

(** The info as the other side reads it: without the channel id. *)
Definition received (info : MessageInfo) : MessageInfo :=
  mkInfo (mkIdentity (data_ (sender_id_ info)) (hash (data_ (sender_id_ info)))) 0 (seq_num_ info)
    (mkIdentity (data_ (spare_id_ info)) (hash (data_ (spare_id_ info)))).

(** What has happened between two moments has left block [i] of object [id]: the
    object is there, with the class that it had; the block is being written by
    nobody; its sizes and its buffer are those it had. *)
Record block_kept (id : nat) (i : Z) (m m' : Memory) : Prop := {
  bk_object : ∃ o o' n, objs (shm m) !! id = Some o ∧ objs (shm m') !! id = Some o' ∧ live o' ∧ shm_ceiling o' = shm_ceiling o ∧
    zget (lock_nums o') i = Some n ∧ 0 ≤ n < 2 ^ 31 - 1;
  bk_sizes : sizes_at m' (id, i) = sizes_at m (id, i);
  bk_buf : ∀ o, objs (shm m) !! id = Some o → let a := (id, buf_offset sizeof_State sizeof_Block (conf_at o) i) in buf_at m' a = buf_at m a;
}.


(** Property: a message too large for the largest block overflows it: when its bytes
    and the info do not fit in the buffer of the 32 MB class, [Transmit] never
    succeeds, and writes behind the buffer's end once it has a block and the
    message was serialised. *)
Theorem oversized_message_overflows e1 e2 e3 tries ok msg info t g m :
  enabled_ t = true → segment_ t = Some g → wf sizeof_State sizeof_Block g (shm m) →
  MESSAGE_SIZE_MORE + MESSAGE_INFO_SIZE < ByteSize msg + Z.of_nat MessageInfo_kSize →
  match Transmit e1 e2 e3 tries ok msg info t m with
  | Return (sent, ann, _) _ => sent = false ∧ ann = None
  | _ => True
  end ∧
  ∀ bytes i buf g1 w1, SerializeToArray msg = Some bytes →
    AcquireBlockToWrite sizeof_State sizeof_Block e1 e2 e3 (ByteSize msg) tries g (shm m) = Ok (Some (i, buf)) g1 w1 →
    Transmit e1 e2 e3 tries ok msg info t m = Crashed Overflow.
Proof using Hst Hbl message_library.
  intros He Hg Hwf Hbig. unfold ShmTransport.Transmit. rewrite He, Hg. simpl. unfold in_segment.
  pose proof (acquire_block_to_write_spec sizeof_State sizeof_Block e1 e2 e3 (ByteSize msg) tries g (shm m) Hst Hbl Hwf) as Hs.
  destruct (AcquireBlockToWrite sizeof_State sizeof_Block e1 e2 e3 (ByteSize msg) tries g (shm m)) as [[[i buf]|] g1 w1| |];
    [|by split|by split|by split].
  destruct Hs as (Hwf1 & _ & _ & id & o & Hid & Ho & (Hi & -> & _) & Hlock & _).
  destruct (wf_attached _ _ _ _ _ Hwf1 Hid) as (o' & Ho' & Hl & Hcf & Hb & Hlen). rewrite Hb.
  assert (Hsz : block_buf_size_ (conf_ g1) ≤ MESSAGE_SIZE_MORE + MESSAGE_INFO_SIZE).
  { rewrite Hcf. unfold conf_at. apply (conf_cases (λ c, block_buf_size_ c ≤ MESSAGE_SIZE_MORE + MESSAGE_INFO_SIZE)).
    repeat constructor; vm_compute; discriminate. }
  rewrite (proj2 (Z.ltb_lt _ _) (Z.le_lt_trans _ _ _ Hsz Hbig)). split.
  - destruct (SerializeToArray msg) as [bytes|]; [by destruct (_ <? zlen bytes)|].
    by destruct (ReleaseWrittenBlock _ _ _).
  - intros bytes j buf g2 w2 -> [= <- <- <- <-].
    by destruct (block_buf_size_ (conf_ g1) <? zlen bytes).
Qed.
End Delivery.

(** ** Runs *)

(** Messages that are their bytes; listeners that are numbers. *)
Definition bytes_message (bs : list Z) : option (list Z) := Some bs.

Lemma bytes_library msg bytes : bytes_message msg = Some bytes → zlen bytes = zlen msg ∧ bytes_message bytes = Some msg.
Proof. unfold bytes_message. by intros [= ->]. Qed.

Definition new_transmitter (ch host : Z) : ShmTransmitter :=
  Enable (mkTransmitter false None ch host 0 sample_info).

Definition new_memory : Memory := mkMemory world_empty ∅ ∅.

Abbreviation transmit := (Transmit 32 32 false zlen bytes_message os_good os_good os_good [false] true).

Definition new_dispatcher : ShmDispatcher (DM := AtomicHashMap (nat * ListenerHandler nat)) :=
  Shm_AddListener 0 9 1 None 11%nat (Shm_AddListener 0 9 2 None 22%nat (mkShmDispatcher Dispatcher_new ∅ 7)).

(** What a transmission ends in. *)
Definition sent (r : result (bool * option ReadableInfo * ShmTransmitter)) : option ReadableInfo * ShmTransmitter * Memory :=
  match r with Return (_, ann, t) m => (ann, t, m) | _ => (None, new_transmitter 0 0, new_memory) end.

Definition sent_hello := sent (transmit [104; 105] sample_info (new_transmitter 9 7) new_memory).

Lemma transmit_hello :
  transmit [104; 105] sample_info (new_transmitter 9 7) new_memory =
  Return (true, Some (mkReadable 7 0 9), sent_hello.1.2) sent_hello.2.
Proof. vm_compute. reflexivity. Qed.

(** Another message after it, in the next block. *)
Definition sent_more := sent (transmit [33] sample_info sent_hello.1.2 sent_hello.2).

Lemma transmit_more :
  transmit [33] sample_info sent_hello.1.2 sent_hello.2 = Return (true, Some (mkReadable 7 1 9), sent_more.1.2) sent_more.2.
Proof. vm_compute. reflexivity. Qed.

Lemma sent_wf msg t g m ann t1 m1 : segment_ t = Some g → wf 32 32 g (shm m) →
  transmit msg sample_info t m = Return (true, Some ann, t1) m1 → ∃ g1, segment_ t1 = Some g1 ∧ wf 32 32 g1 (shm m1).
Proof.
  intros Hg Hwf E. destruct (Transmit_written 32 32 false ltac:(vm_compute; split; discriminate) ltac:(vm_compute; split; discriminate)
    zlen bytes_message bytes_message bytes_library os_good os_good os_good [false] true msg sample_info t g m ann t1 m1 Hg Hwf ltac:(vm_compute; done) E)
    as (_ & _ & g1 & id & o & H1 & _ & W).
  exists g1. split; [done|]. apply (wr_attached _ _ _ _ _ _ _ _ _ _ _ _ W).
Qed.

Lemma more_world_wf : wf_world (shm sent_more.2).
Proof.
  destruct (sent_wf _ (new_transmitter 9 7) Segment_new new_memory _ _ _ eq_refl (segment_new_wf 32 32) transmit_hello) as (g1 & Hg1 & Hwf1).
  destruct (sent_wf _ _ _ _ _ _ _ Hg1 Hwf1 transmit_more) as (g2 & _ & Hwf2). apply Hwf2.
Qed.

Lemma hello_kept : block_kept 32 32 0 0 sent_hello.2 sent_more.2.
Proof.
  split.
  - do 3 eexists. split; [vm_compute; reflexivity|]. split; [vm_compute; reflexivity|]. split; [|split; [reflexivity|split; [vm_compute; reflexivity|lia]]].
    destruct more_world_wf with (id := 0%nat) as (o & Ho & Hl); [vm_compute; reflexivity|]. vm_compute in Ho. by injection Ho as <-.
  - vm_compute. reflexivity.
  - intros o Ho. vm_compute in Ho. injection Ho as <-. vm_compute. reflexivity.
Qed.


(** Messages that are their length. *)
Definition zeros_message (n : N) : option (list Z) := Some (replicate (N.to_nat n) 0).
Definition length_message (bs : list Z) : option N := Some (N.of_nat (length bs)).

Lemma zeros_library msg bytes : zeros_message msg = Some bytes → zlen bytes = Z.of_N msg ∧ length_message bytes = Some msg.
Proof.
  unfold zeros_message, length_message. intros [= <-]. unfold zlen. rewrite length_replicate. split; [lia|]. f_equal. lia.
Qed.

Definition acquired := AcquireBlockToWrite 32 32 os_good os_good os_good (Z.of_N 33555440) [false] Segment_new world_empty.

Lemma oversized_message_overflows_witness :
  Transmit 32 32 false Z.of_N zeros_message os_good os_good os_good [false] true 33555440%N sample_info (new_transmitter 9 7) new_memory =
  Crashed Overflow.
Proof.
  pose proof (oversized_message_overflows 32 32 false ltac:(vm_compute; split; discriminate) ltac:(vm_compute; split; discriminate)
    Z.of_N zeros_message length_message zeros_library os_good os_good os_good [false] true 33555440%N sample_info
    (new_transmitter 9 7) Segment_new new_memory eq_refl eq_refl (segment_new_wf 32 32) ltac:(vm_compute; reflexivity)) as [_ H].
  assert (E : ∃ i buf g w, acquired = Ok (Some (i, buf)) g w) by (do 4 eexists; vm_compute; reflexivity).
  destruct E as (i & buf & g & w & E). exact (H _ i buf g w eq_refl E).
Defined.

(** [n] further messages [k], [k + 1], ... *)
Fixpoint transmit_many (n : nat) (k : Z) (t : ShmTransmitter) (m : Memory) : ShmTransmitter * Memory :=
  match n with
  | O => (t, m)
  | S n =>
      match transmit [k] sample_info t m with
      | Return (_, _, t) m => transmit_many n (k + 1) t m
      | _ => (t, m)
      end
  end.

Definition after_round : ShmTransmitter * Memory := transmit_many 512 0 sent_hello.1.2 sent_hello.2.

(** Property: a dispatcher a whole round of blocks behind delivers the wrong message:
    an announcement names a block and no message, so that, when the block has
    been written again before the dispatcher comes to it, the listeners get the
    newer message for the older one (and again for its own announcement). *)
Theorem late_dispatcher_delivers_newer_message :
  match on_announcement 32 32 false (λ _, 5) bytes_message 0 os_good os_good false (mkReadable 7 0 9) new_dispatcher after_round.2 with
  | Return (calls, _) _ => calls.*1 = [(22%nat, [511]); (11%nat, [511])]
  | _ => False
  end.
Proof. vm_compute. reflexivity. Qed.
