(* ===== verification/Services.v ===== *)
(** * Services and their clients

    [Client] ([src/code/cyber/service/client.h]) and [Service]
    ([src/code/cyber/service/service.h]): a client sends a request with its own
    identity and a sequence number and keeps a promise under that number; a
    service queues requests, answers them in its own thread, and sends the
    answer back with the identity and number of the request.  Several clients
    and services may share the channels of a name.  The network (RTPS) may lose,
    repeat and reorder messages: it delivers any message that was ever sent.
    What the service callbacks work on is one store. *)

From stdpp Require Import base list gmap.
From S2P Require Import Prelude Message.

Section Services.
Context {Req Resp Store : Type}.

(** [service_callback_] of the services of a name. *)
Context (service_callback : nat → Store → Req → Store * Resp).

(** ** [Client] *)

(** [futures] are the shared states of the promises in the order of the calls,
    [callbacks] the futures whose callback was called.  [asked] remembers the
    requests (it is not part of the class). *)
Record Client := mkClient {
  client_name : nat; client_init : bool; writer_id_ : Identity; sequence_number_ : Z;
  pending_requests_ : gmap Z nat; futures : list (option Resp); callbacks : list nat; asked : list Req }.

(** [None] is an invalid future. *)
Definition AsyncSendRequest (request : Req) (c : Client) : option (nat * (Req * MessageInfo)) * Client :=
  if client_init c then
    let n := u64 (sequence_number_ c + 1) in
    let info := mkInfo (writer_id_ c) 0 n (writer_id_ c) in
    (Some (length (futures c), (request, info)),
     mkClient (client_name c) true (writer_id_ c) n (<[n := length (futures c)]> (pending_requests_ c))
       (futures c ++ [None]) (callbacks c) (asked c ++ [request]))
  else (None, c).

(** What [SendRequest] returns when its wait ends. *)
Definition SendRequest_result (future : option nat) (c : Client) : option Resp :=
  match future with Some i => match futures c !! i with Some (Some r) => Some r | _ => None end | None => None end.

Definition HandleResponse (response : Resp) (request_header : MessageInfo) (c : Client) : Client :=
  if negb (Identity_eqb (spare_id_ request_header) (writer_id_ c)) then c
  else
    match pending_requests_ c !! seq_num_ request_header with
    | None => c
    | Some i =>
        mkClient (client_name c) (client_init c) (writer_id_ c) (sequence_number_ c)
          (delete (seq_num_ request_header) (pending_requests_ c))
          (<[i := Some response]> (futures c)) (callbacks c ++ [i]) (asked c)
    end.

(** ** [Service] *)

Record Service := mkService {
  service_name_ : nat; service_init : bool; inited_ : bool; response_id : Identity; tasks_ : list (Req * MessageInfo) }.

Definition with_tasks (ts : list (Req * MessageInfo)) (s : Service) : Service :=
  mkService (service_name_ s) (service_init s) (inited_ s) (response_id s) ts.

Definition Enqueue (task : Req * MessageInfo) (s : Service) : Service := with_tasks (tasks_ s ++ [task]) s.

Definition HandleRequest (task : Req * MessageInfo) (s : Service) (st : Store) : Store * option (Resp * MessageInfo) :=
  if negb (service_init s) then (st, None)
  else
    let '(st, response) := service_callback (service_name_ s) st task.1 in
    (st, Some (response, mkInfo (response_id s) (channel_id_ task.2) (seq_num_ task.2) (spare_id_ task.2))).

Definition destroy (s : Service) : Service :=
  mkService (service_name_ s) (service_init s) false (response_id s) [].

(** ** The system *)

(** [handled] remembers what the callbacks answered. *)
Record system := mkSystem {
  clients : gmap nat Client; services : gmap nat Service; store : Store;
  requests : list (nat * Req * MessageInfo); responses : list (nat * Resp * MessageInfo);
  handled : list (nat * Req * Resp) }.

Inductive label :=
  | Send (c : nat) (request : Req)     (** a client calls *)
  | RecvRequest (s : nat) (i : nat)    (** the network delivers the [i]-th request to a service *)
  | Work (s : nat)                     (** one round of [Process] *)
  | RecvResponse (c : nat) (i : nat)   (** the network delivers the [i]-th response to a client *)
  | Destroy (s : nat).

Definition set_client (i : nat) (c : Client) (y : system) : system :=
  mkSystem (<[i := c]> (clients y)) (services y) (store y) (requests y) (responses y) (handled y).

Definition set_service (i : nat) (s : Service) (y : system) : system :=
  mkSystem (clients y) (<[i := s]> (services y)) (store y) (requests y) (responses y) (handled y).

Definition exec (y : system) (l : label) : option system :=
  match l with
  | Send i request =>
      match clients y !! i with
      | None => None
      | Some c =>
          let '(r, c) := AsyncSendRequest request c in
          let y := set_client i c y in
          match r with
          | None => Some y
          | Some (_, (req, info)) =>
              Some (mkSystem (clients y) (services y) (store y) (requests y ++ [(client_name c, req, info)]) (responses y) (handled y))
          end
      end
  | RecvRequest i j =>
      match services y !! i, requests y !! j with
      | Some s, Some (n, req, info) =>
          if decide (n = service_name_ s ∧ service_init s = true) then Some (set_service i (Enqueue (req, info) s) y) else None
      | _, _ => None
      end
  | Work i =>
      match services y !! i with
      | None => None
      | Some s =>
          match inited_ s, tasks_ s with
          | true, task :: ts =>
              let '(st, r) := HandleRequest task s (store y) in
              let y := set_service i (with_tasks ts s) y in
              match r with
              | None => Some (mkSystem (clients y) (services y) st (requests y) (responses y) (handled y))
              | Some (resp, info) =>
                  Some (mkSystem (clients y) (services y) st (requests y) (responses y ++ [(service_name_ s, resp, info)])
                          (handled y ++ [(service_name_ s, task.1, resp)]))
              end
          | _, _ => None
          end
      end
  | RecvResponse i j =>
      match clients y !! i, responses y !! j with
      | Some c, Some (n, resp, info) =>
          if decide (n = client_name c) then Some (set_client i (HandleResponse resp info c) y) else None
      | _, _ => None
      end
  | Destroy i => match services y !! i with Some s => Some (set_service i (destroy s) y) | None => None end
  end.

(** ** Answers come to the calls they answer *)

(** A client that has not called yet; the identities of writers are unique. *)
Definition fresh (c : Client) : Prop :=
  sequence_number_ c = 0 ∧ pending_requests_ c = ∅ ∧ futures c = [] ∧ asked c = [].

Record start (y : system) : Prop := {
  start_clients : ∀ i c, clients y !! i = Some c → fresh c;
  start_unique : ∀ i j c d, clients y !! i = Some c → clients y !! j = Some d →
    Identity_eqb (writer_id_ c) (writer_id_ d) = true → i = j;
  start_services : ∀ i s, services y !! i = Some s → tasks_ s = [];
  start_network : requests y = [] ∧ responses y = [] ∧ handled y = [];
}.

(** [info] is that of call [k] (from 0) of a client, which asked [req]. *)
Definition of_call (y : system) (n : nat) (req : Req) (info : MessageInfo) : Prop :=
  ∃ i c k, clients y !! i = Some c ∧ client_name c = n ∧ spare_id_ info = writer_id_ c ∧
    seq_num_ info = Z.of_nat k + 1 ∧ asked c !! k = Some req.

Record client_Inv (y : system) (c : Client) : Prop := {
  ci_count : sequence_number_ c = zlen (asked c) ∧ length (futures c) = length (asked c);
  ci_pending : ∀ n i, pending_requests_ c !! n = Some i → n = Z.of_nat i + 1 ∧ futures c !! i = Some None;
  ci_waiting : ∀ i, futures c !! i = Some None → pending_requests_ c !! (Z.of_nat i + 1) = Some i;
  ci_resolved : ∀ i r, futures c !! i = Some (Some r) →
    ∃ req, asked c !! i = Some req ∧ (client_name c, req, r) ∈ handled y;
}.

Record Inv (y : system) : Prop := {
  inv_clients : ∀ i c, clients y !! i = Some c → client_Inv y c;
  inv_unique : ∀ i j c d, clients y !! i = Some c → clients y !! j = Some d →
    Identity_eqb (writer_id_ c) (writer_id_ d) = true → i = j;
  inv_requests : ∀ n req info, (n, req, info) ∈ requests y → of_call y n req info;
  inv_tasks : ∀ i s req info, services y !! i = Some s → (req, info) ∈ tasks_ s → of_call y (service_name_ s) req info;
  inv_responses : ∀ n r info, (n, r, info) ∈ responses y →
    ∃ req, of_call y n req info ∧ (n, req, r) ∈ handled y;
}.

(** The calls so far; the numbers have not wrapped. *)
Definition in_range (y : system) : Prop := ∀ i c, clients y !! i = Some c → sequence_number_ c < 2 ^ 64 - 1.

Lemma start_Inv y : start y → Inv y.
Proof using Type.
  intros [H1 H2 H3 (H4 & H5 & H6)]. split; try done; rewrite ?H4, ?H5; try (intros; by match goal with H : _ ∈ [] |- _ => apply elem_of_nil in H end).
  - intros i c Hc. destruct (H1 i c Hc) as (E1 & E2 & E3 & E4). split; rewrite ?E1, ?E2, ?E3, ?E4; try done.
  - intros i s req info Hs. rewrite (H3 i s Hs). by intros ?%elem_of_nil.
Qed.

(** Steps add calls and answers, and change no call. *)
Definition grows (y y' : system) : Prop :=
  (∀ x, x ∈ handled y → x ∈ handled y') ∧
  ∀ i c, clients y !! i = Some c → ∃ c', clients y' !! i = Some c' ∧ client_name c' = client_name c ∧
    writer_id_ c' = writer_id_ c ∧ ∀ k req, asked c !! k = Some req → asked c' !! k = Some req.

Lemma of_call_grows y y' n req info : grows y y' → of_call y n req info → of_call y' n req info.
Proof using Type.
  intros [_ Hg] (i & c & k & H1 & H2 & H3 & H4 & H5). destruct (Hg i c H1) as (c' & E1 & E2 & E3 & E4).
  exists i, c', k. rewrite E2, E3. split_and!; auto.
Qed.

Lemma client_Inv_grows y y' c : (∀ x, x ∈ handled y → x ∈ handled y') → client_Inv y c → client_Inv y' c.
Proof using Type.
  intros Hg [H1 H2 H2' H3]. split; [done|done|done|]. intros i r Hr. destruct (H3 i r Hr) as (req & ? & ?). eauto.
Qed.

Lemma grows_client y i c c' :
  clients y !! i = Some c → client_name c' = client_name c → writer_id_ c' = writer_id_ c →
  (∀ k req, asked c !! k = Some req → asked c' !! k = Some req) →
  ∀ rs, grows y (mkSystem (<[i := c']> (clients y)) (services y) (store y) rs (responses y) (handled y)).
Proof using Type.
  intros Hc H1 H2 H3 rs. split; [done|]. simpl. intros j d Hd. rewrite lookup_insert. case_decide as E; [subst|eauto 10].
  assert (d = c) as -> by congruence. eauto 10.
Qed.

(** *** Each step *)

Lemma send_Inv y i c request :
  in_range y → Inv y → clients y !! i = Some c → client_init c = true →
  Inv (mkSystem (<[i := (AsyncSendRequest request c).2]> (clients y)) (services y) (store y)
        (requests y ++ [(client_name c, request, mkInfo (writer_id_ c) 0 (u64 (sequence_number_ c + 1)) (writer_id_ c))])
        (responses y) (handled y)).
Proof using Type.
  intros Hr [H1 H2 H3 H4 H5] Hc Hin. destruct (H1 i c Hc) as [[C1 C1'] C2 C2' C3].
  pose proof (Hr i c Hc) as Hrng. pose proof (zlen_nonneg (asked c)) as Hz.
  assert (Hn : u64 (sequence_number_ c + 1) = sequence_number_ c + 1) by (apply wrap_small; wordlia).
  unfold AsyncSendRequest. rewrite Hin, Hn. simpl. set (c' := mkClient _ _ _ _ _ _ _ _).
  assert (Hasked : ∀ k req, asked c !! k = Some req → asked c' !! k = Some req).
  { intros k req Hk. simpl. by apply lookup_app_l_Some. }
  match goal with |- Inv ?z => set (y' := z) end.
  assert (Hg : grows y y') by (by apply (grows_client y i c c')).
  assert (Hcall : of_call y' (client_name c) request (mkInfo (writer_id_ c) 0 (sequence_number_ c + 1) (writer_id_ c))).
  { exists i, c', (length (asked c)). simpl. rewrite lookup_insert_eq. split_and!; try done.
    - rewrite C1. unfold zlen. lia.
    - by apply list_lookup_middle. }
  assert (Hci : client_Inv y' c').
  { split; simpl.
    - rewrite C1, zlen_snoc, !length_app. simpl. lia.
    - intros n j. rewrite lookup_insert. case_decide as E.
      + intros [= <-]. split; [rewrite <- E, C1, C1'; done|by apply list_lookup_middle].
      + intros Hp. destruct (C2 n j Hp) as [? ?]. split; [done|]. by apply lookup_app_l_Some.
    - intros j. rewrite lookup_snoc_Some. intros [[Hlt Hj]|[Ej _]].
      + rewrite lookup_insert_ne; [by apply C2'|]. rewrite C1. unfold zlen. lia.
      + subst j. rewrite C1. unfold zlen. rewrite C1'. apply lookup_insert_eq.
    - intros j r. rewrite lookup_snoc_Some. intros [[_ Hj]|[_ ?]]; [|done].
      destruct (C3 j r Hj) as (req & ? & ?). exists req. split; [by apply lookup_app_l_Some|done]. }
  split.
  - intros j d. unfold y'. simpl. rewrite lookup_insert. case_decide; [by intros [= <-]|].
    intros Hd. eapply client_Inv_grows; [apply Hg|by eapply H1].
  - intros j k d e. unfold y'. simpl. rewrite !lookup_insert. repeat case_decide; subst; try done.
    + intros [= <-] He. by apply (H2 j k c e).
    + intros Hd [= <-]. by apply (H2 j k d c).
    + apply H2.
  - intros n req info. unfold y' at 1. simpl. rewrite elem_of_app, list_elem_of_singleton. intros [Hq|[= -> -> ->]]; [|done].
    by apply (of_call_grows y y'), H3.
  - intros j s req info Hs Ht. by apply (of_call_grows y y'), (H4 j s).
  - intros n r info Hq. destruct (H5 n r info Hq) as (req & ? & ?). exists req. split; [by apply (of_call_grows y y')|done].
Qed.

Lemma handle_response_Inv y i c resp info :
  Inv y → clients y !! i = Some c → (client_name c, resp, info) ∈ responses y →
  Inv (set_client i (HandleResponse resp info c) y) ∧
  asked (HandleResponse resp info c) = asked c ∧ writer_id_ (HandleResponse resp info c) = writer_id_ c.
Proof using Type.
  intros [H1 H2 H3 H4 H5] Hc Hm. destruct (H1 i c Hc) as [[C1 C1'] C2 C2' C3].
  assert (Hsame : asked (HandleResponse resp info c) = asked c ∧ writer_id_ (HandleResponse resp info c) = writer_id_ c ∧
    client_name (HandleResponse resp info c) = client_name c).
  { unfold HandleResponse. destruct (Identity_eqb _ _); [|done]. simpl. by destruct (pending_requests_ c !! _). }
  destruct Hsame as (E1 & E2 & E3). split; [|done]. set (y' := set_client i _ y).
  assert (Hg : grows y y') by (apply (grows_client y i c); rewrite ?E1; done).
  assert (Hci : client_Inv y' (HandleResponse resp info c)).
  { unfold HandleResponse. destruct (Identity_eqb (spare_id_ info) (writer_id_ c)) eqn:Eid; simpl; [|by split].
    destruct (pending_requests_ c !! seq_num_ info) as [k|] eqn:Ep; [|by split].
    destruct (C2 _ _ Ep) as [Hseq Hk]. split; simpl.
    - by rewrite length_insert.
    - intros n j [Hne Hp]%lookup_delete_Some. destruct (C2 n j Hp) as [-> ?]. split; [done|].
      rewrite list_lookup_insert_ne; [done|]. intros ->. lia.
    - intros j Hj. destruct (decide (k = j)) as [<-|Hne]; [by rewrite list_lookup_insert_eq in Hj by (by eapply lookup_lt_Some)|].
      rewrite list_lookup_insert_ne in Hj by done. rewrite lookup_delete_ne by lia. by apply C2'.
    - intros j r. rewrite list_lookup_insert. case_decide as Ej; [|by apply C3]. destruct Ej as [<- Hlt]. intros [= <-].
      destruct (H5 _ _ _ Hm) as (req & (i' & d & k' & D1 & D2 & D3 & D4 & D5) & Hh).
      assert (i' = i) as ->. { apply (H2 i' i d c D1 Hc). by rewrite <- D3. }
      assert (d = c) as -> by congruence. assert (k' = k) as -> by lia. eauto. }
  split.
  - intros j d. unfold y'. simpl. rewrite lookup_insert. case_decide; [by intros [= <-]|]. intros Hd.
    eapply client_Inv_grows; [apply Hg|by eapply H1].
  - intros j k d e. unfold y'. simpl. rewrite !lookup_insert. repeat case_decide; subst; try done.
    + intros [= <-] He. rewrite E2. by apply (H2 j k c e).
    + intros Hd [= <-]. rewrite E2. by apply (H2 j k d c).
    + apply H2.
  - intros n req inf Hq. by apply (of_call_grows y y'), H3.
  - intros j s req inf Hs Ht. by apply (of_call_grows y y'), (H4 j s).
  - intros n r inf Hq. destruct (H5 n r inf Hq) as (req & ? & ?). exists req. split; [by apply (of_call_grows y y')|done].
Qed.

(** Only the tasks of one service change. *)
Lemma set_service_Inv y i s s' :
  Inv y → services y !! i = Some s → service_name_ s' = service_name_ s →
  (∀ req info, (req, info) ∈ tasks_ s' → of_call y (service_name_ s) req info) → Inv (set_service i s' y).
Proof using Type.
  intros [H1 H2 H3 H4 H5] Hs Hn Ht. split; try done.
  { intros j c Hc. apply (client_Inv_grows y); [done|by eapply H1]. }
  intros j d req info. simpl. rewrite lookup_insert. case_decide; [|apply H4]. intros [= <-]. rewrite Hn. apply Ht.
Qed.

Lemma service_exec_Inv y l y' : in_range y → Inv y → exec y l = Some y' → Inv y'.
Proof using Type.
  intros Hr HI He. destruct l as [i request|i j|i|i j|i]; simpl in He.
  - destruct (clients y !! i) as [c|] eqn:Hc; [|done]. destruct (client_init c) eqn:Hin.
    + pose proof (send_Inv y i c request Hr HI Hc Hin) as H. unfold AsyncSendRequest in *. rewrite Hin in He, H. simpl in He, H. by simplify_eq.
    + unfold AsyncSendRequest in He. rewrite Hin in He. simplify_eq. unfold set_client. rewrite insert_id by done. by destruct y.
  - destruct (services y !! i) as [s|] eqn:Hs; [|done]. destruct (requests y !! j) as [[[n req] info]|] eqn:Hq; [|done].
    case_decide as Hd; [|done]. destruct Hd as [-> _]. simplify_eq. apply (set_service_Inv y i s); try done.
    intros req' info'. simpl. rewrite elem_of_app, list_elem_of_singleton. intros [Ht|[= -> ->]].
    + by apply (inv_tasks _ HI i s).
    + apply (inv_requests _ HI). by apply list_elem_of_lookup_2 in Hq.
  - destruct (services y !! i) as [s|] eqn:Hs; [|done]. destruct (inited_ s); [|done]. destruct (tasks_ s) as [|task ts] eqn:Ht; [done|].
    assert (HI' : Inv (set_service i (with_tasks ts s) y)).
    { apply (set_service_Inv y i s); try done. simpl. intros req info Hin. apply (inv_tasks _ HI i s); [done|]. rewrite Ht. by right. }
    assert (Hcall : of_call y (service_name_ s) task.1 task.2).
    { apply (inv_tasks _ HI i s); [done|]. rewrite Ht. destruct task. left. }
    unfold HandleRequest in He. destruct (service_init s); simpl in He.
    + destruct (service_callback (service_name_ s) (store y) task.1) as [st resp]. simpl in He. simplify_eq.
      destruct HI' as [H1 H2 H3 H4 H5]. split; try done; simpl in *.
      * intros k c Hk. apply (client_Inv_grows y); [|by apply (inv_clients _ HI k)]. intros x Hx. simpl. by apply elem_of_app; left.
      * intros n r info. rewrite elem_of_app, list_elem_of_singleton. intros [Hin|[= -> -> ->]].
        -- destruct (H5 n r info Hin) as (req & ? & ?). exists req. split; [done|]. by apply elem_of_app; left.
        -- exists task.1. split; [|apply elem_of_app; right; by apply list_elem_of_singleton].
           destruct Hcall as (a & c & k & ? & ? & ? & ? & ?). by exists a, c, k.
    + simplify_eq. destruct HI' as [H1 H2 H3 H4 H5]. by split.
  - destruct (clients y !! i) as [c|] eqn:Hc; [|done]. destruct (responses y !! j) as [[[n resp] info]|] eqn:Hq; [|done].
    case_decide; [|done]. simplify_eq. apply handle_response_Inv; try done. by apply list_elem_of_lookup_2 in Hq.
  - destruct (services y !! i) as [s|] eqn:Hs; [|done]. simplify_eq. apply (set_service_Inv y i s); try done.
    simpl. by intros ? ? ?%elem_of_nil.
Qed.

(** Futures once resolved stay so. *)
Lemma resolved_step y l y' i c k r :
  Inv y → exec y l = Some y' → clients y !! i = Some c → futures c !! k = Some (Some r) →
  ∃ c', clients y' !! i = Some c' ∧ futures c' !! k = Some (Some r).
Proof using Type.
  intros HI He Hc Hk. destruct l as [j request|j m|j|j m|j]; simpl in He.
  - destruct (clients y !! j) as [d|] eqn:Hd; [|done]. unfold AsyncSendRequest in He.
    destruct (client_init d) eqn:Hin; simpl in He; simplify_eq; simpl; rewrite lookup_insert; case_decide; subst; eauto;
      assert (d = c) as -> by congruence; eexists; split; try done; simpl. by apply lookup_app_l_Some.
  - destruct (services y !! j) as [s|]; [|done]. destruct (requests y !! m) as [[[n req] info]|]; [|done].
    case_decide; [|done]. simplify_eq. eauto.
  - destruct (services y !! j) as [s|]; [|done]. destruct (inited_ s), (tasks_ s) as [|task ts]; try done.
    destruct (HandleRequest task s (store y)) as [st [[resp info]|]]; simplify_eq; eauto.
  - destruct (clients y !! j) as [d|] eqn:Hd; [|done]. destruct (responses y !! m) as [[[n resp] info]|]; [|done].
    case_decide; [|done]. simplify_eq. simpl. rewrite lookup_insert. case_decide; subst; [|eauto].
    assert (d = c) as -> by congruence. eexists. split; [done|]. unfold HandleResponse.
    destruct (Identity_eqb _ _); [|done]. simpl. destruct (pending_requests_ c !! seq_num_ info) as [a|] eqn:Ep; [|done].
    simpl. destruct (ci_pending _ _ (inv_clients _ HI i c Hc) _ _ Ep) as [_ Ha].
    rewrite list_lookup_insert_ne; [done|]. intros ->. congruence.
  - destruct (services y !! j) as [s|]; [|done]. simplify_eq. eauto.
Qed.

(** [in_range] along a run. *)
Definition counts_ok (y : system) : bool := bool_decide (map_Forall (λ _ c, sequence_number_ c < 2 ^ 64 - 1) (clients y)).

Lemma counts_ok_range y : counts_ok y = true → in_range y.
Proof using Type. intros H%bool_decide_eq_true i c Hc. by apply (H i c). Qed.

Fixpoint run_ok (y : system) (ls : list label) : bool :=
  counts_ok y && match ls with [] => true | l :: ls => match exec y l with Some y' => run_ok y' ls | None => true end end.

Lemma service_run_Inv ls : ∀ y y', Inv y → run_ok y ls = true → run exec y ls = Some y' → Inv y'.
Proof using Type.
  induction ls as [|l ls IH]; simpl; intros y y' HI Hok Hr; [by simplify_eq|].
  apply andb_true_iff in Hok as [Hc%counts_ok_range Hok]. destruct (exec y l) as [y1|] eqn:E; [|done].
  by apply (IH y1 y'); [by eapply service_exec_Inv|..].
Qed.

Lemma resolved_run ls : ∀ y y' i c k r,
  Inv y → run_ok y ls = true → run exec y ls = Some y' → clients y !! i = Some c → futures c !! k = Some (Some r) →
  ∃ c', clients y' !! i = Some c' ∧ futures c' !! k = Some (Some r).
Proof using Type.
  induction ls as [|l ls IH]; simpl; intros y y' i c k r HI Hok Hr Hc Hk; [simplify_eq; eauto|].
  apply andb_true_iff in Hok as [Hcn%counts_ok_range Hok]. destruct (exec y l) as [y1|] eqn:E; [|done].
  destruct (resolved_step y l y1 i c k r HI E Hc Hk) as (c1 & Hc1 & Hk1).
  by apply (IH y1 y' i c1); [by eapply service_exec_Inv|..].
Qed.

(** [h] is what the callbacks answer one after the other. *)
Inductive replay : Store → list (nat * Req * Resp) → Store → Prop :=
| replay_nil st : replay st [] st
| replay_snoc st h st1 n req st2 r :
    replay st h st1 → service_callback n st1 req = (st2, r) → replay st (h ++ [(n, req, r)]) st2.

Lemma exec_replay y l y' st : exec y l = Some y' → replay st (handled y) (store y) → replay st (handled y') (store y').
Proof using Type.
  intros He Hr. destruct l as [j request|j m|j|j m|j]; simpl in He.
  - destruct (clients y !! j) as [d|]; [|done]. unfold AsyncSendRequest in He. destruct (client_init d); simpl in He; by simplify_eq.
  - destruct (services y !! j) as [s|]; [|done]. destruct (requests y !! m) as [[[n req] info]|]; [|done].
    case_decide; [|done]. by simplify_eq.
  - destruct (services y !! j) as [s|]; [|done]. destruct (inited_ s), (tasks_ s) as [|task ts]; try done.
    unfold HandleRequest in He. destruct (service_init s); simpl in He; [|by simplify_eq].
    destruct (service_callback (service_name_ s) (store y) task.1) as [st' r] eqn:E. simpl in He. simplify_eq. by econstructor.
  - destruct (clients y !! j) as [d|]; [|done]. destruct (responses y !! m) as [[[n resp] info]|]; [|done].
    case_decide; [|done]. by simplify_eq.
  - destruct (services y !! j) as [s|]; [|done]. by simplify_eq.
Qed.

Lemma run_replay ls : ∀ y y' st, run exec y ls = Some y' → replay st (handled y) (store y) → replay st (handled y') (store y').
Proof using Type.
  induction ls as [|l ls IH]; simpl; intros y y' st Hr Hp; [by simplify_eq|].
  destruct (exec y l) as [y1|] eqn:E; [|done]. apply (IH y1); [done|]. by eapply exec_replay.
Qed.

Lemma start_replay y ls y' : start y → run exec y ls = Some y' → replay (store y) (handled y') (store y').
Proof using Type.
  intros Hs Hr. apply (run_replay ls y); [done|]. destruct (start_network y Hs) as (_ & _ & ->). constructor.
Qed.

(** C19: a future gets the answer to its own request: whatever the network loses,
    repeats or reorders, with any number of clients and services on the same
    channels, the value of a client's [k]-th future is what a service's callback
    answered to the request of the client's [k]-th call, and once there it never
    changes; and all answers together are those of one sequence of callbacks on
    the store. *)
Theorem future_gets_own_answer y ls ls' y1 y2 i c k r :
  start y → run_ok y ls = true → run_ok y1 ls' = true →
  run exec y ls = Some y1 → run exec y1 ls' = Some y2 →
  clients y1 !! i = Some c → futures c !! k = Some (Some r) →
  (∃ req, asked c !! k = Some req ∧ (client_name c, req, r) ∈ handled y1) ∧
  replay (store y) (handled y1) (store y1) ∧
  ∃ c', clients y2 !! i = Some c' ∧ futures c' !! k = Some (Some r).
Proof using Type.
  intros Hs Hok1 Hok2 H1 H2 Hc Hk. pose proof (service_run_Inv ls y y1 (start_Inv y Hs) Hok1 H1) as HI. split.
  - by apply (ci_resolved _ _ (inv_clients _ HI i c Hc)).
  - split; [by eapply start_replay|]. by eapply resolved_run.
Qed.

(** *** A call is answered *)

Definition answer (s : Service) (task : Req * MessageInfo) (x : nat * Resp * MessageInfo) : Prop :=
  ∃ r, x = (service_name_ s, r, mkInfo (response_id s) (channel_id_ task.2) (seq_num_ task.2) (spare_id_ task.2)).

Lemma work_drain i ts : ∀ y s,
  services y !! i = Some s → tasks_ s = ts → inited_ s = true → service_init s = true →
  ∃ y' rs, run exec y (replicate (length ts) (Work i)) = Some y' ∧ clients y' = clients y ∧
    responses y' = responses y ++ rs ∧ Forall2 (answer s) ts rs.
Proof using Type.
  induction ts as [|task ts IH]; intros y s Hs Ht Hi Hin.
  - exists y, []. by rewrite app_nil_r.
  - simpl. rewrite Hs, Hi, Ht. unfold HandleRequest. rewrite Hin. simpl.
    destruct (service_callback (service_name_ s) (store y) task.1) as [st r]. simpl.
    match goal with |- context [run exec ?z _] => set (y1 := z) end.
    destruct (IH y1 (with_tasks ts s)) as (y' & rs & H1 & H2 & H3 & H4); try done; [apply lookup_insert_eq|].
    exists y'. eexists. split; [exact H1|]. split; [by rewrite H2|]. split.
    + rewrite H3. simpl. rewrite <- (assoc_L (++)). reflexivity.
    + constructor; [by eexists|]. eapply Forall2_impl; [exact H4|done].
Qed.

Lemma HandleResponse_resolves y c k resp info :
  client_Inv y c → futures c !! k = Some None → spare_id_ info = writer_id_ c → seq_num_ info = Z.of_nat k + 1 →
  futures (HandleResponse resp info c) !! k = Some (Some resp) ∧
  callbacks (HandleResponse resp info c) = callbacks c ++ [k].
Proof using Type.
  intros HI Hk Hs Hn. unfold HandleResponse. rewrite Hs, Hn. unfold Identity_eqb. rewrite bool_decide_eq_true_2 by done. simpl.
  rewrite (ci_waiting _ _ HI k Hk). simpl. split; [|done]. apply list_lookup_insert_eq. by eapply lookup_lt_Some.
Qed.

(** C34: a call is answered when the network delivers: from any state reached,
    when the request a client sends is delivered to a service of its name, the
    service's thread works off its queue, and the response is delivered, the
    call's future has the value and its callback was called once more. *)
Theorem call_is_answered y0 ls y i c s sv request :
  start y0 → run_ok y0 ls = true → run exec y0 ls = Some y → in_range y →
  clients y !! i = Some c → client_init c = true →
  services y !! s = Some sv → service_name_ sv = client_name c → service_init sv = true → inited_ sv = true →
  ∃ y' c' r,
    run exec y ([Send i request; RecvRequest s (length (requests y))] ++
      replicate (S (length (tasks_ sv))) (Work s) ++ [RecvResponse i (length (responses y) + length (tasks_ sv))]) = Some y' ∧
    clients y' !! i = Some c' ∧ futures c' !! length (futures c) = Some (Some r) ∧
    callbacks c' = callbacks c ++ [length (futures c)].
Proof using Type.
  intros Hs Hok Hr Hrng Hc Hin Hsv Hname Hsi Hi. pose proof (service_run_Inv ls y0 y (start_Inv y0 Hs) Hok Hr) as HI.
  pose proof (send_Inv y i c request Hrng HI Hc Hin) as HI1.
  set (c1 := (AsyncSendRequest request c).2) in HI1. set (info := mkInfo _ _ _ _) in HI1.
  set (y1 := mkSystem _ _ _ _ _ _) in HI1.
  assert (E1 : exec y (Send i request) = Some y1).
  { simpl. rewrite Hc. unfold y1, c1, AsyncSendRequest. by rewrite Hin. }
  set (sv2 := Enqueue (request, info) sv). set (y2 := set_service s sv2 y1).
  assert (E2 : exec y1 (RecvRequest s (length (requests y))) = Some y2).
  { simpl. rewrite Hsv, list_lookup_middle by done. rewrite decide_True by done. done. }
  assert (Ht : tasks_ sv2 = tasks_ sv ++ [(request, info)]) by done.
  destruct (work_drain s (tasks_ sv2) y2 sv2) as (y3 & rs & R3 & C3 & P3 & F3); [apply lookup_insert_eq|done|done|done|].
  assert (HI3 : client_Inv y1 c1) by (apply (inv_clients _ HI1 i); apply lookup_insert_eq).
  rewrite Ht in F3. apply Forall2_app_inv_l in F3 as (rs1 & rs2 & F1 & F2 & ->).
  apply Forall2_cons_inv_l in F2 as (x & rs3 & (r & ->) & F2 & ->). apply Forall2_nil_inv_l in F2 as ->.
  assert (Hc1 : futures c1 !! length (futures c) = Some None ∧ writer_id_ c1 = writer_id_ c ∧ client_name c1 = client_name c ∧ callbacks c1 = callbacks c).
  { unfold c1, AsyncSendRequest. rewrite Hin. simpl. split; [by apply list_lookup_middle|done]. }
  destruct Hc1 as (D1 & D2 & D3 & D4).
  set (rinfo := mkInfo (response_id sv2) (channel_id_ info) (seq_num_ info) (spare_id_ info)).
  destruct (HandleResponse_resolves y1 c1 (length (futures c)) r rinfo HI3 D1) as [G1 G2]; [done| |].
  { destruct (inv_clients _ HI i c Hc) as [[N1 N1'] _ _ _]. simpl. rewrite N1, N1'.
    apply wrap_small. pose proof (Hrng i c Hc). pose proof (zlen_nonneg (asked c)). unfold zlen in *. wordlia. }
  exists (set_client i (HandleResponse r rinfo c1) y3), (HandleResponse r rinfo c1), r. split_and!.
  - cbn [app run]. rewrite E1, E2. rewrite run_app.
    assert (Hlen : S (length (tasks_ sv)) = length (tasks_ sv2)) by (rewrite Ht, length_app; simpl; lia).
    rewrite Hlen, R3. cbn [run exec]. rewrite C3. simpl. rewrite lookup_insert_eq, P3. simpl.
    rewrite (Forall2_length _ _ _ F1), (assoc_L (++)). rewrite list_lookup_middle by (by rewrite length_app).
    rewrite decide_True by (by rewrite Hname). done.
  - simpl. apply lookup_insert_eq.
  - done.
  - by rewrite G2, D4.
Qed.
(** ** Requests of a kind, and calls made later *)

(** What holds of every request sent holds of every request handled. *)
Definition all_requests (Q : Req → Prop) (y : system) : Prop :=
  (∀ i c, clients y !! i = Some c → Forall Q (asked c)) ∧ Forall (λ x, Q x.1.2) (handled y).

Definition sends (Q : Req → Prop) (l : label) : Prop := match l with Send _ request => Q request | _ => True end.

Lemma of_call_request Q y n req info : all_requests Q y → of_call y n req info → Q req.
Proof using Type.
  intros [H _] (i & c & k & Hc & _ & _ & _ & Hk). pose proof (H i c Hc) as Hf. rewrite Forall_lookup in Hf. by eapply Hf.
Qed.

Lemma HandleResponse_asked resp info c : asked (HandleResponse resp info c) = asked c.
Proof using Type. unfold HandleResponse. destruct (negb _); [done|]. by destruct (pending_requests_ c !! _). Qed.

Lemma exec_all_requests Q y l y' : Inv y → exec y l = Some y' → sends Q l → all_requests Q y → all_requests Q y'.
Proof using Type.
  intros HI He Hl HQ. pose proof HQ as [H1 H2]. destruct l as [j request|j m|j|j m|j]; simpl in He, Hl.
  - destruct (clients y !! j) as [d|] eqn:Hd; [|done]. unfold AsyncSendRequest in He.
    destruct (client_init d); simpl in He; simplify_eq; (split; [|done]); intros i c; simpl; rewrite lookup_insert;
      case_decide; try apply H1; intros [= <-]; [|by apply (H1 j)].
    simpl. apply Forall_app. split; [by apply (H1 j)|by constructor].
  - destruct (services y !! j) as [s|]; [|done]. destruct (requests y !! m) as [[[n req] info]|]; [|done].
    case_decide; [|done]. by simplify_eq.
  - destruct (services y !! j) as [s|] eqn:Hs; [|done]. destruct (inited_ s); [|done]. destruct (tasks_ s) as [|[req info] ts] eqn:Ht; [done|].
    unfold HandleRequest in He. destruct (service_init s); simpl in He; [|by simplify_eq].
    destruct (service_callback (service_name_ s) (store y) req) as [st r] eqn:E. simpl in He. simplify_eq. split; [done|].
    simpl. apply Forall_app. split; [done|]. constructor; [|done]. simpl.
    apply (of_call_request Q y (service_name_ s) req info); [done|]. apply (inv_tasks _ HI j s); [done|]. rewrite Ht. left.
  - destruct (clients y !! j) as [d|] eqn:Hd; [|done]. destruct (responses y !! m) as [[[n resp] info]|]; [|done].
    case_decide; [|done]. simplify_eq. split; [|done]. intros i c. simpl. rewrite lookup_insert.
    case_decide; [|apply H1]. intros [= <-]. rewrite HandleResponse_asked. by apply (H1 j).
  - destruct (services y !! j) as [s|]; [|done]. by simplify_eq.
Qed.

Lemma run_all_requests Q ls : ∀ y y', Inv y → run_ok y ls = true → run exec y ls = Some y' →
  Forall (sends Q) ls → all_requests Q y → all_requests Q y'.
Proof using Type.
  induction ls as [|l ls IH]; simpl; intros y y' HI Hok Hr Hl HQ; [by simplify_eq|].
  apply andb_true_iff in Hok as [Hc%counts_ok_range Hok]. apply Forall_cons in Hl as [Hl Hls].
  destruct (exec y l) as [y1|] eqn:E; [|done]. by apply (IH y1 y'); [by eapply service_exec_Inv|..|by eapply exec_all_requests].
Qed.

Lemma start_all_requests Q y : start y → all_requests Q y.
Proof using Type.
  intros [H1 _ _ (_ & _ & H)]. split; [|by rewrite H]. intros i c Hc. by destruct (H1 i c Hc) as (_ & _ & _ & ->).
Qed.

(** [y] is reached from [y1]: [h] was handled meanwhile, and the calls made
    meanwhile have their answers from [h]. *)
Record since (y1 y : system) (h : list (nat * Req * Resp)) : Prop := {
  sc_handled : handled y = handled y1 ++ h;
  sc_responses : ∀ n r info, (n, r, info) ∈ responses y →
    (n, r, info) ∈ responses y1 ∨ ∃ req, of_call y n req info ∧ (n, req, r) ∈ h;
  sc_clients : ∀ i c, clients y !! i = Some c → ∃ c1, clients y1 !! i = Some c1 ∧
    client_name c1 = client_name c ∧ writer_id_ c1 = writer_id_ c;
  sc_resolved : ∀ i c c1 k r, clients y1 !! i = Some c1 → clients y !! i = Some c →
    futures c !! k = Some (Some r) → (length (asked c1) ≤ k)%nat →
    ∃ req, asked c !! k = Some req ∧ (client_name c, req, r) ∈ h;
}.

Lemma since_refl y : Inv y → since y y [].
Proof using Type.
  intros HI. split; [by rewrite app_nil_r|auto|eauto|]. intros i c c1 k r H1 H2 Hk Hle. exfalso.
  destruct (ci_resolved _ _ (inv_clients _ HI i c H2) k r Hk) as (req & Hreq & _).
  apply lookup_lt_Some in Hreq. assert (c1 = c) as -> by congruence. lia.
Qed.
Lemma exec_grows y l y' : exec y l = Some y' → grows y y'.
Proof using Type.
  intros He. destruct l as [j request|j m|j|j m|j]; simpl in He.
  - destruct (clients y !! j) as [d|] eqn:Hd; [|done]. unfold AsyncSendRequest in He.
    destruct (client_init d); simpl in He; simplify_eq; apply (grows_client y j d); try done.
    intros k req Hk. simpl. by apply lookup_app_l_Some.
  - destruct (services y !! j) as [s|]; [|done]. destruct (requests y !! m) as [[[n req] info]|]; [|done].
    case_decide; [|done]. simplify_eq. split; [done|]. simpl. eauto 10.
  - destruct (services y !! j) as [s|]; [|done]. destruct (inited_ s), (tasks_ s) as [|task ts]; try done.
    destruct (HandleRequest task s (store y)) as [st [[resp info]|]]; simplify_eq; (split; [|simpl; eauto 10]);
      [intros x Hx; by apply elem_of_app; left|done].
  - destruct (clients y !! j) as [d|] eqn:Hd; [|done]. destruct (responses y !! m) as [[[n resp] info]|]; [|done].
    case_decide; [|done]. simplify_eq. apply (grows_client y j d); try done; rewrite ?HandleResponse_asked; try done;
      unfold HandleResponse; destruct (negb _); try done; by destruct (pending_requests_ d !! _).
  - destruct (services y !! j) as [s|]; [|done]. simplify_eq. split; [done|]. simpl. eauto 10.
Qed.

(** A response to a call made before [y1] resolves no later one. *)
Lemma since_response y1 y h i c resp info k :
  Inv y1 → Inv y → since y1 y h → clients y !! i = Some c → (client_name c, resp, info) ∈ responses y →
  Identity_eqb (spare_id_ info) (writer_id_ c) = true → seq_num_ info = Z.of_nat k + 1 →
  (∀ c1, clients y1 !! i = Some c1 → (length (asked c1) ≤ k)%nat) →
  ∃ req, asked c !! k = Some req ∧ (client_name c, req, resp) ∈ h.
Proof using Type.
  intros HI1 HI [_ Hr Hcl _] Hc Hin Hid Hseq Hlate. destruct (Hcl i c Hc) as (c1 & Hc1 & Hn1 & Hw1).
  specialize (Hlate c1 Hc1).
  assert (Hsame : ∀ z j d, Inv z → clients z !! i = Some d → writer_id_ d = writer_id_ c → ∀ e, clients z !! j = Some e →
    spare_id_ info = writer_id_ e → j = i).
  { intros z j d Hz Hd Hwd e He Hwe. apply (inv_unique _ Hz j i e d); [done..|].
    by rewrite Hwd, <- Hwe, Hid. }
  destruct (Hr _ _ _ Hin) as [Hold|(req & (j & e & k' & H1 & H2 & H3 & H4 & H5) & Hh)].
  - exfalso. destruct (inv_responses _ HI1 _ _ _ Hold) as (req & (j & e & k' & H1 & H2 & H3 & H4 & H5) & _).
    rewrite (Hsame y1 j c1 HI1 Hc1 Hw1 e H1 H3) in H1. assert (e = c1) as -> by congruence.
    apply lookup_lt_Some in H5. lia.
  - rewrite (Hsame y j c HI Hc eq_refl e H1 H3) in H1. assert (e = c) as -> by congruence.
    assert (k' = k) as -> by lia. eauto.
Qed.

Lemma exec_since y1 y l y' h :
  Inv y1 → Inv y → since y1 y h → exec y l = Some y' → ∃ h', since y1 y' (h ++ h').
Proof using Type.
  intros HI1 HI Hsc He. pose proof (exec_grows y l y' He) as Hg. destruct Hsc as [H1 H2 H3 H4].
  assert (Hkeep : ∀ h' n r info, (n, r, info) ∈ responses y →
    (n, r, info) ∈ responses y1 ∨ ∃ req, of_call y' n req info ∧ (n, req, r) ∈ h ++ h').
  { intros h' n r info Hin. destruct (H2 n r info Hin) as [?|(req & Hcall & Hh)]; [by left|right]. exists req.
    split; [by eapply of_call_grows|]. apply elem_of_app. by left. }
  destruct l as [j request|j m|j|j m|j]; simpl in He.
  - exists []. rewrite app_nil_r. destruct (clients y !! j) as [d|] eqn:Hd; [|done]. unfold AsyncSendRequest in He.
    destruct (client_init d) eqn:Hin; simpl in He; simplify_eq; split; simpl; try done;
      try (intros n r info; specialize (Hkeep [] n r info); rewrite app_nil_r in Hkeep; exact Hkeep).
    + intros i c. rewrite lookup_insert. case_decide; [|apply H3]. intros [= <-]. subst. by destruct (H3 i d Hd) as (c1 & ? & ? & ?); eauto.
    + intros i c c1 k r Hc1. rewrite lookup_insert. case_decide; [|by apply (H4 i)]. intros [= <-]. subst. simpl.
      rewrite lookup_snoc_Some. intros [[_ Hk]|[_ ?]] Hle; [|done]. destruct (H4 i d c1 k r Hc1 Hd Hk Hle) as (req & ? & ?).
      exists req. split; [by apply lookup_app_l_Some|done].
    + intros i c. rewrite lookup_insert. case_decide; [|apply H3]. intros [= <-]. subst. by apply H3.
    + intros i c c1 k r Hc1. rewrite lookup_insert. case_decide; [|by apply (H4 i)]. intros [= <-]. subst. by apply (H4 i).
  - exists []. rewrite app_nil_r. destruct (services y !! j) as [s|]; [|done]. destruct (requests y !! m) as [[[n req] info]|]; [|done].
    case_decide; [|done]. by simplify_eq.
  - destruct (services y !! j) as [s|] eqn:Hs; [|done]. destruct (inited_ s); [|done]. destruct (tasks_ s) as [|[req info] ts] eqn:Ht; [done|].
    unfold HandleRequest in He. destruct (service_init s); simpl in He; [|exists []; rewrite app_nil_r; by simplify_eq].
    destruct (service_callback (service_name_ s) (store y) req) as [st resp] eqn:E. simpl in He. simplify_eq.
    exists [(service_name_ s, req, resp)]. split; simpl; try done.
    + by rewrite H1, <- (assoc_L (++)).
    + intros n r info'. rewrite elem_of_app, list_elem_of_singleton. intros [Hin|[= -> -> ->]]; [by apply Hkeep|]. right.
      exists req. split; [|apply elem_of_app; right; by apply list_elem_of_singleton].
      destruct (inv_tasks _ HI j s req info Hs) as (a & c & k & ? & ? & ? & ? & ?); [rewrite Ht; left|]. by exists a, c, k.
    + intros i c c1 k r Hc1 Hc Hk Hle. destruct (H4 i c c1 k r Hc1 Hc Hk Hle) as (req' & ? & ?). exists req'.
      split; [done|]. apply elem_of_app. by left.
  - exists []. rewrite app_nil_r. destruct (clients y !! j) as [d|] eqn:Hd; [|done]. destruct (responses y !! m) as [[[n resp] info]|] eqn:Hm; [|done].
    case_decide as Hn; [|done]. simplify_eq. apply list_elem_of_lookup_2 in Hm.
    destruct (handle_response_Inv y j d resp info HI Hd Hm) as (_ & E1 & E2).
    assert (E3 : client_name (HandleResponse resp info d) = client_name d).
    { unfold HandleResponse. destruct (negb _); [done|]. by destruct (pending_requests_ d !! _). }
    split; simpl; try done.
    + intros n r info' Hin. specialize (Hkeep [] n r info' Hin). by rewrite app_nil_r in Hkeep.
    + intros i c. rewrite lookup_insert. case_decide; [|apply H3]. intros [= <-]. subst. rewrite E2, E3. by apply H3.
    + intros i c c1 k r Hc1. rewrite lookup_insert. case_decide; [|by apply (H4 i)]. intros [= <-]. subst. rewrite E1, E3.
      intros Hk Hle. pose proof (since_response y1 y h i d resp info k HI1 HI) as Hlate.
      unfold HandleResponse in Hk. destruct (Identity_eqb (spare_id_ info) (writer_id_ d)) eqn:Eid; simpl in Hk; [|by apply (H4 i d c1)].
      destruct (pending_requests_ d !! seq_num_ info) as [a|] eqn:Ep; [|by apply (H4 i d c1)]. simpl in Hk.
      destruct (ci_pending _ _ (inv_clients _ HI i d Hd) _ _ Ep) as [Hseq Ha].
      destruct (decide (a = k)) as [->|Hne]; [|rewrite list_lookup_insert_ne in Hk by done; by apply (H4 i d c1)].
      rewrite list_lookup_insert_eq in Hk by (by eapply lookup_lt_Some). injection Hk as <-.
      apply Hlate; try done. intros c2 Hc2. assert (c2 = c1) as -> by congruence. lia.
  - exists []. rewrite app_nil_r. destruct (services y !! j) as [s|]; [|done]. by simplify_eq.
Qed.

Lemma run_since ls y1 : ∀ y y' h, Inv y1 → Inv y → run_ok y ls = true → run exec y ls = Some y' → since y1 y h →
  ∃ h', since y1 y' h'.
Proof using Type.
  induction ls as [|l ls IH]; simpl; intros y y' h HI1 HI Hok Hr Hs; [simplify_eq; eauto|].
  apply andb_true_iff in Hok as [Hc%counts_ok_range Hok]. destruct (exec y l) as [y2|] eqn:E; [|done].
  destruct (exec_since y1 y l y2 h HI1 HI Hs E) as [h' Hs']. by apply (IH y2 y' (h ++ h') HI1); [by eapply service_exec_Inv|..].
Qed.

(** A call made after [y1] is answered after it. *)
Lemma answered_later ls y1 y2 i c1 c2 k r :
  Inv y1 → run_ok y1 ls = true → run exec y1 ls = Some y2 →
  clients y1 !! i = Some c1 → clients y2 !! i = Some c2 → futures c2 !! k = Some (Some r) → (length (asked c1) ≤ k)%nat →
  ∃ h req, handled y2 = handled y1 ++ h ∧ asked c2 !! k = Some req ∧ (client_name c2, req, r) ∈ h.
Proof using Type.
  intros HI Hok Hr Hc1 Hc2 Hk Hle. destruct (run_since ls y1 y1 y2 [] HI HI Hok Hr (since_refl y1 HI)) as [h [Hs _ _ Hd]].
  destruct (Hd i c2 c1 k r Hc1 Hc2 Hk Hle) as (req & ? & ?). eauto.
Qed.
End Services.

(** ** A concrete system *)

(** A service that adds to a total and answers with it. *)
Definition add_up (service : nat) (total request : Z) : Z * Z := (total + request, total + request).

Definition an_id (n : Z) : Identity := mkIdentity [n] 0.

Definition new_client (name : nat) (n : Z) : @Client Z Z := mkClient name true (an_id n) 0 ∅ [] [] [].

Definition two_clients : system :=
  mkSystem {[0%nat := new_client 0 1; 1%nat := new_client 0 2]} {[0%nat := mkService 0 true true (an_id 3) []]} 0 [] [] [].

(** Two calls of one client and one of the other; the answers come in another
    order, twice, and to the wrong client. *)
Definition calls : list (@label Z) :=
  [Send 0 5; Send 1 7; Send 0 11; RecvRequest 0 2; RecvRequest 0 0; RecvRequest 0 1; Work 0; Work 0; Work 0;
   RecvResponse 1 0; RecvResponse 0 1].

Definition more_calls : list (@label Z) := [RecvResponse 0 0; RecvResponse 0 1; RecvResponse 1 2; Send 1 1].

Definition after_run (y : @system Z Z Z) (ls : list label) : system := default y (run (exec add_up) y ls).

Lemma two_clients_start : start two_clients.
Proof.
  split; try done.
  - intros i c. unfold two_clients. simpl. rewrite !lookup_insert, lookup_singleton. repeat case_decide; intros [= <-]; by split.
  - intros i j c d. unfold two_clients. simpl. rewrite !lookup_insert, !lookup_singleton. repeat case_decide; intros; simplify_eq; done.
  - intros i s. unfold two_clients. simpl. rewrite lookup_singleton. by case_decide; intros [= <-].
Qed.

Lemma calls_run :
  run (exec add_up) two_clients calls = Some (after_run two_clients calls) ∧ run_ok add_up two_clients calls = true ∧
  run (exec add_up) (after_run two_clients calls) more_calls = Some (after_run (after_run two_clients calls) more_calls) ∧
  run_ok add_up (after_run two_clients calls) more_calls = true.
Proof. vm_compute. by split_and!. Qed.

Definition client_of (y : @system Z Z Z) (i : nat) : @Client Z Z := default (new_client 0 0) (clients y !! i).

Lemma calls_clients :
  clients (after_run two_clients calls) !! 0%nat = Some (client_of (after_run two_clients calls) 0) ∧
  client_init (client_of (after_run two_clients calls) 0) = true ∧
  futures (client_of (after_run two_clients calls) 0) = [Some 16; None] ∧
  services (after_run two_clients calls) !! 0%nat = Some (mkService 0 true true (an_id 3) []).
Proof. vm_compute. by split_and!. Qed.

Lemma future_gets_own_answer_witness :
  ∃ y1 c, run (exec add_up) two_clients calls = Some y1 ∧ clients y1 !! 0%nat = Some c ∧
  ∃ req, asked c !! 0%nat = Some req ∧ (client_name c, req, 16) ∈ handled y1.
Proof.
  destruct calls_run as (R1 & O1 & R2 & O2). destruct calls_clients as (C & _ & F & _).
  exists (after_run two_clients calls), (client_of (after_run two_clients calls) 0). split; [exact R1|]. split; [exact C|].
  apply (future_gets_own_answer add_up two_clients calls more_calls _ _ 0 _ 0 16 two_clients_start O1 O2 R1 R2 C).
  by rewrite F.
Defined.

Lemma call_is_answered_witness :
  ∃ y' c' r, clients y' !! 0%nat = Some c' ∧ futures c' !! 2%nat = Some (Some r) ∧
    run (exec add_up) (after_run two_clients calls) [Send 0 1; RecvRequest 0 3; Work 0; RecvResponse 0 3] = Some y'.
Proof.
  destruct calls_run as (R1 & O1 & R2 & O2). destruct calls_clients as (C & I & F & S).
  assert (Hr : in_range (after_run two_clients calls)) by (apply counts_ok_range; vm_compute; reflexivity).
  destruct (call_is_answered add_up two_clients calls _ 0 _ 0 _ 1 two_clients_start O1 R1 Hr C I S) as (y' & c' & r & H1 & H2 & H3 & _);
    [vm_compute; reflexivity|reflexivity|reflexivity|].
  rewrite F in H3. exists y', c', r. by split_and!.
Defined.
