(* ===== verification/Parameters.v ===== *)
(** * Parameters

    [Parameter] ([src/code/cyber/parameter/parameter.h], [.cc]), the typed
    values; [ParameterServer] ([parameter_server.cc]), which keeps them by name
    for three services, and [ParameterClient] ([parameter_client.cc]), which
    calls these.  Doubles and messages are opaque. *)

From stdpp Require Import base list strings gmap fin_maps.
From S2P Require Import Prelude Message Services.

Inductive ParamType := NOT_SET | BOOL | INT | DOUBLE | STRING | PROTOBUF.

#[global] Instance ParamType_eq_dec : EqDecision ParamType.
Proof. solve_decision. Defined.

Section Parameters.
Context {Double : Type} (zero : Double).

(** [oneof_value]. *)
Inductive oneof_value :=
  | no_value | bool_value (b : bool) | int_value (n : Z) | double_value (d : Double) | string_value (s : string).

(** [Param]: absent fields read as their defaults. *)
Record Param := mkParam {
  name : option string; type : option ParamType; type_name : option string; value_ : oneof_value; proto_desc : option string }.

(** ** [Parameter] *)

Definition Parameter_named (n : string) : Param := mkParam (Some n) (Some NOT_SET) None no_value None.
Definition Parameter_default : Param := Parameter_named EmptyString.
Definition Parameter_bool (n : string) (b : bool) : Param := mkParam (Some n) (Some BOOL) (Some "BOOL"%string) (bool_value b) None.
Definition Parameter_int (n : string) (v : Z) : Param := mkParam (Some n) (Some INT) (Some "INT"%string) (int_value v) None.
Definition Parameter_double (n : string) (v : Double) : Param := mkParam (Some n) (Some DOUBLE) (Some "DOUBLE"%string) (double_value v) None.
Definition Parameter_string (n v : string) : Param := mkParam (Some n) (Some STRING) (Some "STRING"%string) (string_value v) None.
Definition Parameter_protobuf (n msg_str full_name desc : string) : Param :=
  mkParam (Some n) (Some PROTOBUF) (Some full_name) (string_value msg_str) (Some desc).

(** [CopyFrom] both ways. *)
Definition FromProtoParam (p : Param) : Param := p.
Definition ToProtoParam (p : Param) : Param := p.

Definition Type_ (p : Param) : ParamType := default NOT_SET (type p).
Definition TypeName (p : Param) : string := default EmptyString (type_name p).
Definition Name (p : Param) : string := default EmptyString (name p).
Definition Descriptor (p : Param) : string := default EmptyString (proto_desc p).

(** The accessors; a wrong type is only logged, and reads a default. *)
Definition AsBool (p : Param) : bool := match value_ p with bool_value b => b | _ => false end.
Definition AsInt64 (p : Param) : Z := match value_ p with int_value n => n | _ => 0 end.
Definition AsDouble (p : Param) : Double := match value_ p with double_value d => d | _ => zero end.
Definition AsString (p : Param) : string := match value_ p with string_value s => s | _ => EmptyString end.

(** [value<ValueType>] for a signed integer type of [w] bits. *)
Definition value_int (w : Z) (p : Param) : Z := swrap w (AsInt64 p).

(** ** [ParameterServer] *)

Abbreviation param_map := (gmap string Param).

Definition SetParameter (p : Param) (m : param_map) : param_map := <[Name p := ToProtoParam p]> m.
Definition GetParameter (n : string) (m : param_map) : option Param := FromProtoParam <$> m !! n.
Definition ListParameters (m : param_map) : list Param := FromProtoParam <$> (map_to_list m).*2.

Inductive Request := GetReq (n : string) | SetReq (p : Param) | ListReq (node : string).
Inductive Response := GetResp (p : Param) | SetResp (b : bool) | ListResp (ps : list Param).

(** A response object of the default constructor. *)
Definition no_param : Param := mkParam None None None no_value None.

(** The callbacks of the three services (a request has the type of its
    service). *)
Definition get_service (n : string) (m : param_map) : Param := match m !! n with Some p => p | None => no_param end.

Definition param_callback (service : nat) (m : param_map) (request : Request) : param_map * Response :=
  match request with
  | GetReq n => (m, GetResp (get_service n m))
  | SetReq p => (<[Name p := p]> m, SetResp true)
  | ListReq _ => (m, ListResp (map_to_list m).*2)
  end.

(** ** [ParameterClient]

    What it makes of the answers; [None] is no response. *)
Definition Client_GetParameter (response : option Response) : option Param :=
  match response with
  | Some (GetResp p) => if decide (Type_ p = NOT_SET) then None else Some (FromProtoParam p)
  | _ => None
  end.

Definition Client_SetParameter (response : option Response) : bool :=
  match response with Some (SetResp b) => b | _ => false end.

Definition Client_ListParameters (response : option Response) : option (list Param) :=
  match response with Some (ListResp ps) => Some (FromProtoParam <$> ps) | _ => None end.

(** ** Types *)

(** The type says which value is there. *)
Definition well_typed (p : Param) : Prop :=
  match Type_ p, value_ p with
  | NOT_SET, no_value | BOOL, bool_value _ | DOUBLE, double_value _ | STRING, string_value _ | PROTOBUF, string_value _ => True
  | INT, int_value n => in_s 64 n
  | _, _ => False
  end.

(** What the constructors make. *)
Inductive constructed : Param → Prop :=
| constructed_named n : constructed (Parameter_named n)
| constructed_bool n b : constructed (Parameter_bool n b)
| constructed_int n v : in_s 64 v → constructed (Parameter_int n v)
| constructed_double n v : constructed (Parameter_double n v)
| constructed_string n v : constructed (Parameter_string n v)
| constructed_protobuf n msg_str full_name desc : constructed (Parameter_protobuf n msg_str full_name desc).

Lemma constructed_well_typed p : constructed p → well_typed p.
Proof using Type. by destruct 1. Qed.

Definition store_ok (m : param_map) : Prop := ∀ n p, m !! n = Some p → Name p = n ∧ well_typed p.

(** A set in a history, and the last one of a name. *)
Definition set_of (n : string) (x : nat * Request * Response) : option Param :=
  match x.1.2 with SetReq p => if decide (Name p = n) then Some p else None | _ => None end.

Definition last_set (n : string) (h : list (nat * Request * Response)) : option Param := last (omap (set_of n) h).

Lemma last_set_snoc n h x :
  last_set n (h ++ [x]) = match set_of n x with Some p => Some p | None => last_set n h end.
Proof using Type.
  unfold last_set. rewrite omap_app. simpl. destruct (set_of n x); simpl; [by rewrite last_snoc|by rewrite app_nil_r].
Qed.

(** A set, and what comes after it. *)
Lemma last_set_after s p b h1 h2 :
  last_set (Name p) (h1 ++ (s, SetReq p, b) :: h2) = Some (default p (last (omap (set_of (Name p)) h2))).
Proof using Type.
  induction h2 as [|x h2 IH] using rev_ind.
  - rewrite last_set_snoc. unfold set_of. simpl. by rewrite decide_True.
  - rewrite app_comm_cons, (assoc_L (++)), last_set_snoc, omap_app. simpl.
    destruct (set_of (Name p) x) as [z|]; [by rewrite last_snoc|by rewrite app_nil_r].
Qed.

Lemma replay_map h m : replay param_callback ∅ h m → ∀ n, m !! n = last_set n h.
Proof using Type.
  intros H. remember ∅ as m0 eqn:E0. revert E0.
  induction H as [m|m0 h m1 s req m2 r Hr IH E]; intros -> n; [by rewrite lookup_empty|].
  rewrite last_set_snoc. destruct req as [k|p|k]; simpl in E; injection E as <- <-; unfold set_of; simpl.
  - by apply IH.
  - rewrite lookup_insert. case_decide; [done|]. by apply IH.
  - by apply IH.
Qed.

(** ** What the answers are *)

(** [r] is a possible answer to a request. *)
Definition answer_ok (request : Request) (r : Response) : Prop :=
  match request, r with
  | GetReq n, GetResp p => p = no_param ∨ (Name p = n ∧ well_typed p)
  | SetReq _, SetResp b => b = true
  | ListReq _, ListResp ps => NoDup (Name <$> ps) ∧ Forall well_typed ps
  | _, _ => False
  end.

Definition request_ok (request : Request) : Prop := match request with SetReq p => constructed p | _ => True end.

Lemma list_ok m : store_ok m → NoDup (Name <$> (map_to_list m).*2) ∧ Forall well_typed (map_to_list m).*2.
Proof using Type.
  intros Hm. assert (H : ∀ l : list (string * Param), (∀ n p, (n, p) ∈ l → m !! n = Some p) → Name <$> l.*2 = l.*1 ∧ Forall well_typed l.*2).
  { induction l as [|[n p] l IH]; intros Hl; [done|]. simpl. destruct (Hm n p) as [<- Hp]; [apply Hl; left|].
    destruct IH as [E ?]; [intros; apply Hl; by right|]. split; [by f_equal|by constructor]. }
  destruct (H (map_to_list m)) as [-> ?]; [intros n p; apply elem_of_map_to_list|]. split; [apply NoDup_fst_map_to_list|done].
Qed.

Lemma param_callback_ok s m request m' r :
  store_ok m → request_ok request → param_callback s m request = (m', r) → store_ok m' ∧ answer_ok request r.
Proof using Type.
  intros Hm Hq E. destruct request as [n|p|n]; simpl in E, Hq; injection E as <- <-; simpl; split; try done.
  - unfold get_service. destruct (m !! n) as [p|] eqn:En; [right; by apply Hm|by left].
  - intros n q. rewrite lookup_insert. case_decide; [|apply Hm]. intros [= <-]. split; [done|by apply constructed_well_typed].
  - by apply list_ok.
Qed.

Lemma replay_ok h m : replay param_callback ∅ h m → Forall (λ x, request_ok x.1.2) h →
  store_ok m ∧ Forall (λ x, answer_ok x.1.2 x.2) h.
Proof using Type.
  intros H. remember ∅ as m0 eqn:E0. revert E0. induction H as [m|m0 h m1 s req m2 r Hr IH E]; intros -> Hq; [done|].
  apply Forall_app in Hq as [Hq1 Hq2]. destruct (IH eq_refl Hq1) as [Hm Ha]. apply Forall_cons in Hq2 as [Hq2 _].
  destruct (param_callback_ok s m1 req m2 r Hm Hq2 E) as [? ?]. split; [done|]. apply Forall_app. by split; [|constructor].
Qed.

(** An answer is that of the store after what was handled before it. *)
Lemma replay_split h1 h2 x m : replay param_callback ∅ (h1 ++ x :: h2) m →
  ∃ m1 m2, replay param_callback ∅ h1 m1 ∧ param_callback x.1.1 m1 x.1.2 = (m2, x.2).
Proof using Type.
  revert m. induction h2 as [|z h2 IH] using rev_ind; intros m Hr.
  - inversion Hr as [|st h st1 n req st2 r Hr1 E Hst Heq]; subst; [by destruct h1|].
    apply app_inj_tail in Heq as [-> <-]. eauto.
  - rewrite app_comm_cons, (assoc_L (++)) in Hr. inversion Hr as [|st h st1 n req st2 r Hr1 E Hst Heq]; subst; [by destruct h1|].
    apply app_inj_tail in Heq as [-> <-]. by eapply IH.
Qed.

(** ** Programs that use parameters *)

Abbreviation param_system := (@system Request Response param_map).

(** The server's map is empty and nobody has called yet. *)
Definition param_start (y : param_system) : Prop := start y ∧ store y = ∅.

(** C30: parameters stay well typed: as long as every parameter set was made by
    one of the constructors of [Parameter], every future of every client has an
    answer of its request's service, a parameter that a get or a list returns
    has the requested name, a type and the value of that type, a list has every
    name once, and so has the server's map. *)
Theorem parameters_stay_well_typed y ls y' i c k r :
  param_start y → run_ok param_callback y ls = true → Forall (sends request_ok) ls →
  run (exec param_callback) y ls = Some y' →
  clients y' !! i = Some c → futures c !! k = Some (Some r) →
  store_ok (store y') ∧ ∃ request, asked c !! k = Some request ∧ answer_ok request r.
Proof using Type.
  intros [Hs H0] Hok Hq Hr Hc Hk. pose proof (service_run_Inv _ ls y y' (start_Inv y Hs) Hok Hr) as HI.
  pose proof (start_replay _ y ls y' Hs Hr) as Hp. rewrite H0 in Hp.
  destruct (run_all_requests _ request_ok ls y y' (start_Inv y Hs) Hok Hr Hq (start_all_requests request_ok y Hs)) as [_ Hall].
  destruct (replay_ok _ _ Hp Hall) as [Hm Ha]. split; [done|].
  destruct (ci_resolved _ _ (inv_clients _ HI i c Hc) k r Hk) as (req & Hreq & Hin).
  exists req. split; [done|]. rewrite Forall_forall in Ha. by apply (Ha _ Hin).
Qed.

(** Property: a get returns the last set, never one that is older than a set that was
    already answered: when the answer to a client's set of [p] has come, and
    later any client asks for the parameter of that name and gets [q], then [q]
    is the last set of the name before the get was handled, and the set of [p]
    is among those before. *)
Theorem get_returns_last_set y ls ls' y1 y2 i j c d d1 k l p r q :
  param_start y → run_ok param_callback y ls = true → run_ok param_callback y1 ls' = true →
  run (exec param_callback) y ls = Some y1 → run (exec param_callback) y1 ls' = Some y2 →
  clients y1 !! i = Some c → asked c !! k = Some (SetReq p) → futures c !! k = Some (Some r) →
  clients y1 !! j = Some d1 → clients y2 !! j = Some d → (length (asked d1) ≤ l)%nat →
  asked d !! l = Some (GetReq (Name p)) → futures d !! l = Some (Some q) →
  ∃ h1 h2 h3 v, handled y2 = h1 ++ (client_name c, SetReq p, SetResp true) :: h2 ++
      (client_name d, GetReq (Name p), GetResp v) :: h3 ∧
    r = SetResp true ∧ q = GetResp v ∧
    v = default p (last (omap (set_of (Name p)) h2)).
Proof using Type.
  intros [Hs H0] Hok1 Hok2 H1 H2 Hc Hck Hcr Hd1 Hd Hle Hdl Hdr.
  pose proof (service_run_Inv _ ls y y1 (start_Inv y Hs) Hok1 H1) as HI1.
  destruct (ci_resolved _ _ (inv_clients _ HI1 i c Hc) k r Hcr) as (req & Hreq & Hin). simplify_eq.
  destruct (answered_later _ ls' y1 y2 j d1 d l q HI1 Hok2 H2 Hd1 Hd Hdr Hle) as (h & req & Hh & Hreq & Hq). simplify_eq.
  pose proof (start_replay _ y ls y1 Hs H1) as Hp. rewrite H0 in Hp.
  assert (Hp2 : replay param_callback ∅ (handled y2) (store y2)) by (rewrite <- H0 in Hp |- *; by eapply run_replay).
  apply list_elem_of_split in Hin as (a1 & a2 & Ha). apply list_elem_of_split in Hq as (b1 & b2 & Hb).
  destruct (replay_split a1 a2 _ _ ltac:(by rewrite <- Ha)) as (m1 & m2 & _ & Er). simpl in Er. injection Er as _ <-.
  assert (Hall : handled y2 = (a1 ++ (client_name c, SetReq p, SetResp true) :: a2 ++ b1) ++ (client_name d, GetReq (Name p), q) :: b2).
  { rewrite Hh, Ha, Hb, <- !(assoc_L (++)). simpl. by rewrite <- (assoc_L (++)). }
  rewrite Hall in Hp2. destruct (replay_split _ _ _ _ Hp2) as (m3 & m4 & Hm3 & Eq). simpl in Eq. injection Eq as _ <-.
  exists a1, (a2 ++ b1), b2, (get_service (Name p) m3). split_and!; [|done|done|].
  - rewrite Hall, <- (assoc_L (++)). simpl. by rewrite <- (assoc_L (++)).
  - unfold get_service. by rewrite (replay_map _ _ Hm3), last_set_after.
Qed.
(** Property: a parameter that is set comes back: the accessor of its type returns
    what its constructor was given (an integer read in a narrower type keeps its
    low bits), and a client that gets it has it, unless it has no type. *)
Theorem parameter_roundtrip n b v d msg full_name desc w :
  in_s 64 v → 0 < w <= 64 →
  AsBool (Parameter_bool n b) = b ∧ value_int 64 (Parameter_int n v) = v ∧
  wrap w (value_int w (Parameter_int n v)) = wrap w v ∧
  AsDouble (Parameter_double n d) = d ∧ AsString (Parameter_string n msg) = msg ∧
  AsString (Parameter_protobuf n msg full_name desc) = msg ∧ TypeName (Parameter_protobuf n msg full_name desc) = full_name ∧
  Descriptor (Parameter_protobuf n msg full_name desc) = desc ∧
  ∀ p s s' m m' r, constructed p → param_callback s m (SetReq p) = (m', r) →
    Client_GetParameter (Some (param_callback s' m' (GetReq (Name p))).2) =
      (if decide (Type_ p = NOT_SET) then None else GetParameter (Name p) m') ∧
    GetParameter (Name p) m' = Some p ∧ GetParameter (Name p) (SetParameter p m) = Some p.
Proof using Type.
  intros Hv Hw. split_and!; try done.
  - unfold value_int. simpl. apply swrap_small; [lia|done].
  - unfold value_int. simpl. apply wrap_swrap; lia.
  - intros p s s' m m' r Hp E. simpl in E. injection E as <- <-. simpl. unfold GetParameter, SetParameter, ToProtoParam, FromProtoParam, get_service.
    rewrite !lookup_insert_eq. by split_and!.
Qed.
End Parameters.

(** ** Concrete systems *)

Definition an_id (n : Z) : Identity := mkIdentity [n] 0.

Definition client0 (name : nat) (n : Z) : @Client (@Request Z) (@Response Z) := mkClient name true (an_id n) 0 ∅ [] [] [].

Abbreviation Z_system := (@system (@Request Z) (@Response Z) (gmap string (@Param Z))).

(** Clients 0 and 1 on the channels 0 (get) and 1 (set), client 2 on 0. *)
Definition system0 : Z_system :=
  mkSystem {[0%nat := client0 0 1; 1%nat := client0 1 2; 2%nat := client0 0 3]}
    {[0%nat := mkService 0 true true (an_id 4) []; 1%nat := mkService 1 true true (an_id 5) []]} ∅ [] [] [].

Definition gear (v : Z) : @Param Z := Parameter_int "gear" v.

(** Client 1 sets twice, the first request is also repeated by the network. *)
Definition set_run : list (@label (@Request Z)) :=
  [Send 1 (SetReq (gear 1)); RecvRequest 1 0; Work 1; RecvResponse 1 0; Send 1 (SetReq (gear 2)); RecvRequest 1 1; RecvRequest 1 0; Work 1; RecvResponse 1 1].

(** Clients 0 and 2 get; their answers come in the other order, the second also to the other client. *)
Definition get_run : list (@label (@Request Z)) :=
  [Send 0 (GetReq "gear"); Send 2 (GetReq "gear"); RecvRequest 0 2; RecvRequest 0 3; Work 0; Work 1; Work 0;
   RecvResponse 0 4; RecvResponse 2 4; RecvResponse 0 2; RecvResponse 0 2].

Definition after (y : Z_system) (ls : list label) : Z_system := default y (run (exec param_callback) y ls).

Lemma system0_start : param_start system0.
Proof.
  split; [split|done]; try done.
  - intros i c. unfold system0. simpl. rewrite !lookup_insert, lookup_singleton. repeat case_decide; intros [= <-]; by split.
  - intros i j c d. unfold system0. simpl. rewrite !lookup_insert, !lookup_singleton. repeat case_decide; intros; simplify_eq; done.
  - intros i s. unfold system0. simpl. rewrite !lookup_insert, lookup_singleton. by repeat case_decide; intros [= <-].
Qed.

Lemma set_run_runs : run (exec param_callback) system0 set_run = Some (after system0 set_run) ∧ run_ok param_callback system0 set_run = true.
Proof. vm_compute. by split. Qed.

Lemma get_run_runs :
  run (exec param_callback) (after system0 set_run) get_run = Some (after (after system0 set_run) get_run) ∧
  run_ok param_callback (after system0 set_run) get_run = true ∧
  run (exec param_callback) system0 (set_run ++ get_run) = Some (after (after system0 set_run) get_run) ∧
  run_ok param_callback system0 (set_run ++ get_run) = true.
Proof. vm_compute. by split_and!. Qed.

Definition client_of (y : Z_system) (i : nat) : @Client Request Response := default (client0 0 0) (clients y !! i).

(** Client 2 gets what the repetition of the first set left. *)
Lemma get_run_clients :
  clients (after system0 set_run) !! 1%nat = Some (client_of (after system0 set_run) 1) ∧
  clients (after system0 set_run) !! 2%nat = Some (client0 0 3) ∧
  clients (after (after system0 set_run) get_run) !! 2%nat = Some (client_of (after (after system0 set_run) get_run) 2) ∧
  asked (client_of (after system0 set_run) 1) = [SetReq (gear 1); SetReq (gear 2)] ∧
  futures (client_of (after system0 set_run) 1) = [Some (SetResp true); Some (SetResp true)] ∧
  asked (client_of (after (after system0 set_run) get_run) 2) = [GetReq (Name (gear 2))] ∧
  futures (client_of (after (after system0 set_run) get_run) 2) = [Some (GetResp (gear 1))].
Proof. vm_compute. by split_and!. Qed.

Lemma gear_constructed v : in_s 64 v → constructed (gear v).
Proof. apply constructed_int. Qed.

Lemma runs_send_ok : Forall (sends request_ok) (set_run ++ get_run).
Proof. repeat constructor; simpl; unfold in_s; lia. Qed.

Lemma parameters_stay_well_typed_witness :
  ∃ request, asked (client_of (after (after system0 set_run) get_run) 2) !! 0%nat = Some request ∧ answer_ok request (GetResp (gear 1)).
Proof.
  destruct get_run_runs as (_ & _ & R & O). destruct get_run_clients as (_ & _ & C & _ & _ & _ & F).
  apply (parameters_stay_well_typed system0 (set_run ++ get_run) _ 2 _ 0 _ system0_start O runs_send_ok R C). by rewrite F.
Defined.

Lemma get_returns_last_set_witness :
  ∃ h1 h2 h3 v, handled (after (after system0 set_run) get_run) =
    h1 ++ (client_name (client_of (after system0 set_run) 1), SetReq (gear 2), SetResp true) :: h2 ++
      (client_name (client_of (after (after system0 set_run) get_run) 2), GetReq (Name (gear 2)), GetResp v) :: h3.
Proof.
  destruct set_run_runs as [R1 O1]. destruct get_run_runs as (R2 & O2 & _). destruct get_run_clients as (C1 & D1 & D & A1 & F1 & A2 & F2).
  destruct (get_returns_last_set system0 set_run get_run _ _ 1 2 _ _ _ 1 0 (gear 2) _ _ system0_start O1 O2 R1 R2 C1
    ltac:(by rewrite A1) ltac:(by rewrite F1) D1 D (le_n 0) ltac:(by rewrite A2) ltac:(by rewrite F2)) as (h1 & h2 & h3 & v & H & _).
  by exists h1, h2, h3, v.
Defined.

Lemma parameter_roundtrip_witness :
  wrap 8 (value_int 8 (Parameter_int (Double := Z) "gear" 300)) = 44 ∧
  ∀ s s' m m' r, param_callback s m (SetReq (gear 3)) = (m', r) →
    Client_GetParameter (Some (param_callback s' m' (GetReq "gear")).2) = Some (gear 3).
Proof.
  assert (H8 : 0 < 8 <= 64) by lia. assert (Hin : in_s 64 300) by (unfold in_s; lia). assert (H3 : in_s 64 3) by (unfold in_s; lia).
  destruct (parameter_roundtrip 0 "gear" true 300 0 "" "" "" 8 Hin H8) as (_ & _ & H & _ & _ & _ & _ & _ & Hc).
  split; [rewrite H; reflexivity|]. intros s s' m m' r E. destruct (Hc (gear 3) s s' m m' r (gear_constructed 3 H3) E) as (E1 & E2 & _).
  change "gear"%string with (Name (gear 3)). rewrite E1, decide_False by done. exact E2.
Defined.
