(* ===== verification/RecordFile.v ===== *)
(** * Record files

    [RecordFileBase], [RecordFileWriter] and [RecordFileReader]
    ([src/code/cyber/record/file/record_file_base.cc], [record_file_writer.h],
    [.cc], [record_file_reader.h], [.cc]): a file of sections, each a [Section]
    (type and size) and a message of [proto/record.proto].  A file is its bytes
    and a position; the disk may be full.  How messages are serialised is the
    protobuf library's, used through [Proto].  This file has the operations one
    by one; [RecordFlush] has the threads of the writer. *)

From stdpp Require Import base list strings gmap.
From S2P Require Import Prelude Message.

(** ** The messages of a record file *)

Record Header := mkHeader {
  major_version : Z; minor_version : Z; compress : Z; chunk_interval : Z; segment_interval : Z; index_position : Z;
  chunk_number : Z; channel_number : Z; begin_time : Z; end_time : Z; message_number : Z; size : Z; is_complete : bool;
  chunk_raw_size : Z; segment_raw_size : Z }.

Record Channel := mkChannel { name : string; message_type : string; proto_desc : string }.

Record SingleMessage := mkMessage { channel_name : string; time : Z; content : list Z }.

Record ChunkHeader := mkChunkHeader { ch_begin_time : Z; ch_end_time : Z; ch_message_number : Z; ch_raw_size : Z }.

Definition ChunkBody := list SingleMessage.

Record ChannelCache := mkChannelCache { cc_message_number : Z; cc_name : string; cc_message_type : string; cc_proto_desc : string }.

(** [oneof cache]; the caches of chunks repeat their headers. *)
Inductive cache :=
  | no_cache | channel_cache (c : ChannelCache) | chunk_header_cache (h : ChunkHeader) | chunk_body_cache (message_number : Z).

Record SingleIndex := mkIndex { si_type : Z; si_position : Z; si_cache : cache }.

Definition Index := list SingleIndex.

(** [SectionType]. *)
Definition SECTION_HEADER : Z := 0.
Definition SECTION_CHUNK_HEADER : Z := 1.
Definition SECTION_CHUNK_BODY : Z := 2.
Definition SECTION_INDEX : Z := 3.
Definition SECTION_CHANNEL : Z := 4.

(** The fields that are written in a header after it is made. *)
Definition set_size (v : Z) (h : Header) : Header :=
  mkHeader (major_version h) (minor_version h) (compress h) (chunk_interval h) (segment_interval h) (index_position h)
    (chunk_number h) (channel_number h) (begin_time h) (end_time h) (message_number h) v (is_complete h) (chunk_raw_size h) (segment_raw_size h).

Definition set_index_position (v : Z) (h : Header) : Header :=
  mkHeader (major_version h) (minor_version h) (compress h) (chunk_interval h) (segment_interval h) v
    (chunk_number h) (channel_number h) (begin_time h) (end_time h) (message_number h) (size h) (is_complete h) (chunk_raw_size h) (segment_raw_size h).

Definition set_is_complete (v : bool) (h : Header) : Header :=
  mkHeader (major_version h) (minor_version h) (compress h) (chunk_interval h) (segment_interval h) (index_position h)
    (chunk_number h) (channel_number h) (begin_time h) (end_time h) (message_number h) (size h) v (chunk_raw_size h) (segment_raw_size h).

Definition set_counts (chunks channels begin end_ messages : Z) (h : Header) : Header :=
  mkHeader (major_version h) (minor_version h) (compress h) (chunk_interval h) (segment_interval h) (index_position h)
    chunks channels begin end_ messages (size h) (is_complete h) (chunk_raw_size h) (segment_raw_size h).

(** ** Protobuf

    [parse] is [ParseFromCodedStream] on a stream that ends after the bytes,
    followed by [ConsumedEntireMessage]: it parses, stops early, or fails (at
    the end of the stream or before); in any case the message is overwritten.
    [default_block] is how many bytes a [FileInputStream] takes from the file at
    once when it is given no size. *)
Inductive parsed (M : Type) := Parsed (m : M) | Unconsumed (m : M) | Failed (m : M) (at_end : bool).
Arguments Parsed {M} m.
Arguments Unconsumed {M} m.
Arguments Failed {M} m at_end.

Class Proto (M : Type) := { serialize : M → list Z; parse : list Z → parsed M; default_block : Z }.

(** What parsing promises. *)
Class ProtoLaws (M : Type) `{!Proto M} := {
  parse_serialize : ∀ m, parse (serialize m) = Parsed m;
}.

Section RecordFile.
Context (big_endian : bool).
Context `{!Proto Header, !Proto Channel, !Proto ChunkHeader, !Proto ChunkBody, !Proto Index}.

(** ** Files

    [limit] is the size at which the disk is full, if it is in reach. *)
Record File := mkFile { bytes : list Z; pos : Z; limit : option Z }.

Definition CurrentPosition (f : File) : Z := pos f.

Definition SetPosition (position : Z) (f : File) : File * bool :=
  if position <? 0 then (f, false) else (mkFile (bytes f) position (limit f), true).

(** [bs] over [l] at [p]; a gap reads as zeros. *)
Definition splice (p : nat) (bs l : list Z) : list Z :=
  take p l ++ replicate (p - length l) 0 ++ bs ++ drop (p + length bs) l.

Definition put (bs : list Z) (f : File) : File :=
  mkFile (splice (Z.to_nat (pos f)) bs (bytes f)) (pos f + zlen bs) (limit f).

(** How many of [n] bytes the disk takes. *)
Definition room (n : Z) (f : File) : Z :=
  match limit f with None => n | Some l => Z.max 0 (Z.min n (l - pos f)) end.

(** The system call [write]: the number of bytes written or -1. *)
Definition write (bs : list Z) (f : File) : File * Z :=
  let n := room (zlen bs) f in
  if (n =? 0) && (0 <? zlen bs) then (f, -1) else (put (take (Z.to_nat n) bs) f, n).

(** A [FileOutputStream] writes in several calls; nobody asks it for errors. *)
Definition write_stream (bs : list Z) (f : File) : File := put (take (Z.to_nat (room (zlen bs) f)) bs) f.

(** The system call [read]. *)
Definition read (n : Z) (f : File) : File * list Z :=
  let bs := take (Z.to_nat n) (drop (Z.to_nat (pos f)) (bytes f)) in
  (mkFile (bytes f) (pos f + zlen bs) (limit f), bs).

(** ** [Section] *)

Definition sizeof_Section : Z := 16.
Definition HEADER_LENGTH : Z := 2048.

Record Section := mkSection { sec_type : Z; sec_size : Z }.

(** The struct in memory, four bytes of padding after the type. *)
Definition Section_bytes (s : Section) : list Z :=
  host_bytes big_endian 4 (u32 (sec_type s)) ++ zeros 4 ++ host_bytes big_endian 8 (u64 (sec_size s)).

Definition Section_of (bs : list Z) : Section :=
  mkSection (i32 (host_value big_endian (take 4 bs))) (i64 (host_value big_endian (drop 8 bs))).

(** ** [Chunk] *)

Record Chunk := mkChunk { ck_header : ChunkHeader; ck_body : ChunkBody }.

Definition Chunk_clear : Chunk := mkChunk (mkChunkHeader 0 0 0 0) [].

Definition Chunk_add (message : SingleMessage) (c : Chunk) : Chunk :=
  let h := ck_header c in
  let b := if ch_begin_time h =? 0 then time message else ch_begin_time h in
  let b := if time message <? b then time message else b in
  let e := if ch_end_time h <? time message then time message else ch_end_time h in
  mkChunk (mkChunkHeader b e (u64 (ch_message_number h + 1)) (u64 (ch_raw_size h + zlen (content message))))
    (ck_body c ++ [message]).

Definition Chunk_empty (c : Chunk) : bool := ch_message_number (ck_header c) =? 0.

(** ** [RecordFileWriter] *)

Record RecordFileWriter := mkWriter {
  w_file : File; header_ : Header; index_ : Index; is_writing_ : bool;
  chunk_active_ : Chunk; chunk_flush_ : Chunk; channel_message_number_map_ : gmap string Z }.

Definition with_file (f : File) (w : RecordFileWriter) : RecordFileWriter :=
  mkWriter f (header_ w) (index_ w) (is_writing_ w) (chunk_active_ w) (chunk_flush_ w) (channel_message_number_map_ w).
Definition with_header (h : Header) (w : RecordFileWriter) : RecordFileWriter :=
  mkWriter (w_file w) h (index_ w) (is_writing_ w) (chunk_active_ w) (chunk_flush_ w) (channel_message_number_map_ w).
Definition with_index (i : Index) (w : RecordFileWriter) : RecordFileWriter :=
  mkWriter (w_file w) (header_ w) i (is_writing_ w) (chunk_active_ w) (chunk_flush_ w) (channel_message_number_map_ w).
Definition with_writing (b : bool) (w : RecordFileWriter) : RecordFileWriter :=
  mkWriter (w_file w) (header_ w) (index_ w) b (chunk_active_ w) (chunk_flush_ w) (channel_message_number_map_ w).
Definition with_chunks (a f : Chunk) (w : RecordFileWriter) : RecordFileWriter :=
  mkWriter (w_file w) (header_ w) (index_ w) (is_writing_ w) a f (channel_message_number_map_ w).

(** [Open]: an existing file is not truncated; the header is that of the
    default constructor. *)
Definition default_header : Header := mkHeader 0 0 0 0 0 0 0 0 0 0 0 0 false 0 0.

Definition Writer_Open (old : list Z) (disk : option Z) : RecordFileWriter :=
  mkWriter (mkFile old 0 disk) default_header [] true Chunk_clear Chunk_clear ∅.

(** [static char blank[HEADER_LENGTH] = {'0'}]. *)
Definition blank : list Z := 48 :: replicate 2047 0.

Definition WriteSection (type : Z) (message : list Z) (w : RecordFileWriter) : RecordFileWriter * bool :=
  let '(f, ok) := if type =? SECTION_HEADER then SetPosition 0 (w_file w) else (w_file w, true) in
  if negb ok then (w, false)
  else
    let '(f, count) := write (Section_bytes (mkSection type (zlen message))) f in
    if negb (count =? sizeof_Section) then (with_file f w, false)
    else
      let f := write_stream message f in
      let rest := HEADER_LENGTH - zlen message in
      let '(f, ok) :=
        if type =? SECTION_HEADER
        then let '(f, count) := write (take (Z.to_nat rest) blank) f in (f, count =? rest)
        else (f, true) in
      if negb ok then (with_file f w, false)
      else (with_header (set_size (u64 (CurrentPosition f)) (header_ w)) (with_file f w), true).

Definition WriteHeader (header : Header) (w : RecordFileWriter) : RecordFileWriter * bool :=
  WriteSection SECTION_HEADER (serialize header) (with_header header w).

(** The numbers of messages are filled in at the end. *)
Definition fill_number (numbers : gmap string Z) (i : SingleIndex) : SingleIndex :=
  if si_type i =? SECTION_CHANNEL then
    match si_cache i with
    | channel_cache c =>
        match numbers !! cc_name c with
        | Some n => mkIndex (si_type i) (si_position i) (channel_cache (mkChannelCache n (cc_name c) (cc_message_type c) (cc_proto_desc c)))
        | None => i
        end
    | _ => i
    end
  else i.

Definition WriteIndex (w : RecordFileWriter) : RecordFileWriter * bool :=
  let w := with_index (fill_number (channel_message_number_map_ w) <$> index_ w) w in
  let w := with_header (set_index_position (u64 (CurrentPosition (w_file w))) (header_ w)) w in
  WriteSection SECTION_INDEX (serialize (index_ w)) w.

Definition add_index (i : SingleIndex) (w : RecordFileWriter) : RecordFileWriter := with_index (index_ w ++ [i]) w.

Definition WriteChannel (channel : Channel) (w : RecordFileWriter) : RecordFileWriter * bool :=
  let p := u64 (CurrentPosition (w_file w)) in
  let '(w, ok) := WriteSection SECTION_CHANNEL (serialize channel) w in
  if negb ok then (w, false)
  else
    let h := header_ w in
    let w := with_header (set_counts (chunk_number h) (u64 (channel_number h + 1)) (begin_time h) (end_time h) (message_number h) h) w in
    (add_index (mkIndex SECTION_CHANNEL p
       (channel_cache (mkChannelCache 0 (name channel) (message_type channel) (proto_desc channel)))) w, true).

Definition WriteChunk (chunk_header : ChunkHeader) (chunk_body : ChunkBody) (w : RecordFileWriter) : RecordFileWriter * bool :=
  let p := u64 (CurrentPosition (w_file w)) in
  let '(w, ok) := WriteSection SECTION_CHUNK_HEADER (serialize chunk_header) w in
  if negb ok then (w, false)
  else
    let w := add_index (mkIndex SECTION_CHUNK_HEADER p (chunk_header_cache chunk_header)) w in
    let p := u64 (CurrentPosition (w_file w)) in
    let '(w, ok) := WriteSection SECTION_CHUNK_BODY (serialize chunk_body) w in
    if negb ok then (w, false)
    else
      let h := header_ w in
      let h := set_counts (u64 (chunk_number h + 1)) (channel_number h)
                 (if begin_time h =? 0 then ch_begin_time chunk_header else begin_time h)
                 (ch_end_time chunk_header) (u64 (message_number h + ch_message_number chunk_header)) h in
      (add_index (mkIndex SECTION_CHUNK_BODY p (chunk_body_cache (zlen chunk_body))) (with_header h w), true).

(** The part of [WriteMessage] before the chunks are swapped, and whether they
    will be. *)
Definition add_message (message : SingleMessage) (w : RecordFileWriter) : RecordFileWriter :=
  let numbers := channel_message_number_map_ w in
  let n := match numbers !! channel_name message with Some n => u64 (n + 1) | None => 1 end in
  mkWriter (w_file w) (header_ w) (index_ w) (is_writing_ w) (Chunk_add message (chunk_active_ w)) (chunk_flush_ w)
    (<[channel_name message := n]> numbers).

Definition need_flush (message : SingleMessage) (w : RecordFileWriter) : bool :=
  let c := ck_header (chunk_active_ w) in
  ((0 <? chunk_interval (header_ w)) && (chunk_interval (header_ w) <? u64 (time message - ch_begin_time c))) ||
  ((0 <? chunk_raw_size (header_ w)) && (chunk_raw_size (header_ w) <? ch_raw_size c)).

Definition swap_chunks (w : RecordFileWriter) : RecordFileWriter := with_chunks (chunk_flush_ w) (chunk_active_ w) w.

(** What [Flush] does with a chunk. *)
Definition flush_chunk (w : RecordFileWriter) : RecordFileWriter :=
  let '(w, _) := WriteChunk (ck_header (chunk_flush_ w)) (ck_body (chunk_flush_ w)) w in
  with_chunks (chunk_active_ w) Chunk_clear w.

(** The end of [Close], when the thread is gone. *)
Definition write_trailer (w : RecordFileWriter) : RecordFileWriter :=
  let '(w, _) := WriteIndex w in
  let '(w, _) := WriteHeader (set_is_complete true (header_ w)) (with_header (set_is_complete true (header_ w)) w) in w.

Definition GetMessageNumber (channel : string) (w : RecordFileWriter) : Z :=
  default 0 (channel_message_number_map_ w !! channel).
(** ** [RecordFileReader] *)

Record RecordFileReader := mkReader { r_file : File; r_header : Header; r_index : Index; end_of_file_ : bool }.

Definition on_file (f : File) (r : RecordFileReader) : RecordFileReader := mkReader f (r_header r) (r_index r) (end_of_file_ r).
Definition on_end (b : bool) (r : RecordFileReader) : RecordFileReader := mkReader (r_file r) (r_header r) (r_index r) b.

(** The [ReadSection] that reads a [Section]. *)
Definition ReadSection (r : RecordFileReader) : RecordFileReader * option Section :=
  let '(f, bs) := read sizeof_Section (r_file r) in
  let r := on_file f r in
  if zlen bs =? 0 then (on_end true r, None)
  else if negb (zlen bs =? sizeof_Section) then (r, None)
  else (r, Some (Section_of bs)).

(** [ReadSection<T>] into [message]: the new message, and whether it is good.
    A [FileInputStream] takes as many bytes at once as [size], or [default_block]
    if that is not positive; the limit on what is parsed is [size].  A negative
    limit is none, but then the last test fails: where the position is after
    that is left open. *)
Definition ReadMessageSection {M} `{!Proto M} (size : Z) (message : M) (r : RecordFileReader) : RecordFileReader * M * bool :=
  if (size <? - 2 ^ 31) || (2 ^ 31 - 1 <? size) then (r, message, false)
  else
    let '(f, bs) := read (if 0 <? size then size else default_block) (r_file r) in
    let r := on_file f r in
    match parse (take (Z.to_nat size) bs) with
    | Failed m at_end => (on_end at_end r, m, false)
    | Unconsumed m => (r, m, false)
    | Parsed m => (r, m, zlen (serialize m) =? size)
    end.

Definition Reset (r : RecordFileReader) : RecordFileReader :=
  on_end false (on_file (SetPosition (sizeof_Section + HEADER_LENGTH) (r_file r)).1 r).

Definition SkipSection (size : Z) (r : RecordFileReader) : RecordFileReader * bool :=
  let p := CurrentPosition (r_file r) in
  if 2 ^ 63 - 1 - p <? size then (r, false)
  else let '(f, ok) := SetPosition (p + size) (r_file r) in (on_file f r, ok).

Definition ReadHeader (r : RecordFileReader) : RecordFileReader * bool :=
  match ReadSection r with
  | (r, None) => (r, false)
  | (r, Some section) =>
      if negb (sec_type section =? SECTION_HEADER) then (r, false)
      else
        let '(r, h, ok) := ReadMessageSection (sec_size section) (r_header r) r in
        let r := mkReader (r_file r) h (r_index r) (end_of_file_ r) in
        if negb ok then (r, false)
        else let '(f, ok) := SetPosition (sizeof_Section + HEADER_LENGTH) (r_file r) in (on_file f r, ok)
  end.

(** [path]: the bytes of the file, if there is one. *)
Definition Reader_Open (path : option (list Z)) : RecordFileReader * bool :=
  match path with
  | None => (mkReader (mkFile [] (-1) None) default_header [] false, false)
  | Some bs => ReadHeader (mkReader (mkFile bs 0 None) default_header [] false)
  end.

Definition ReadIndex (r : RecordFileReader) : RecordFileReader * bool :=
  if negb (is_complete (r_header r)) then (r, false)
  else
    let '(f, ok) := SetPosition (i64 (index_position (r_header r))) (r_file r) in
    let r := on_file f r in
    if negb ok then (r, false)
    else
      match ReadSection r with
      | (r, None) => (r, false)
      | (r, Some section) =>
          if negb (sec_type section =? SECTION_INDEX) then (r, false)
          else
            let '(r, i, ok) := ReadMessageSection (sec_size section) (r_index r) r in
            let r := mkReader (r_file r) (r_header r) i (end_of_file_ r) in
            if negb ok then (r, false) else (Reset r, true)
      end.

(** ** Sections in a file *)

(** The bytes of a section. *)
Definition encode (s : Z * list Z) : list Z := Section_bytes (mkSection s.1 (zlen s.2)) ++ s.2.

Definition section_ok (s : Z * list Z) : Prop := 0 ≤ s.1 < 5 ∧ zlen s.2 < 2 ^ 31.

Lemma length_Section_bytes s : length (Section_bytes s) = 16%nat.
Proof using Type. unfold Section_bytes. rewrite !length_app, !length_host_bytes. done. Qed.

Lemma zlen_Section_bytes s : zlen (Section_bytes s) = 16.
Proof using Type. unfold zlen. by rewrite length_Section_bytes. Qed.

Lemma Section_roundtrip ty n : in_s 32 ty → in_s 64 n → Section_of (Section_bytes (mkSection ty n)) = mkSection ty n.
Proof using Type.
  intros Ht Hn. unfold Section_of, Section_bytes. simpl sec_type. simpl sec_size.
  rewrite take_app_length' by (by rewrite length_host_bytes).
  rewrite (assoc_L (++)), drop_app_length' by (rewrite length_app, length_host_bytes; done).
  assert (H32 : 0 ≤ u32 ty < 256 ^ Z.of_nat 4) by (change (256 ^ Z.of_nat 4) with (2 ^ 32); apply wrap_bound; lia).
  assert (H64 : 0 ≤ u64 n < 256 ^ Z.of_nat 8) by (change (256 ^ Z.of_nat 8) with (2 ^ 64); apply wrap_bound; lia).
  rewrite !host_value_bytes by done. by rewrite !swrap_wrap, !swrap_small by (done || lia).
Qed.

(** *** Writing in place *)

Lemma splice_at p bs l : (p ≤ length l)%nat → splice p bs l = take p l ++ bs ++ drop (p + length bs) l.
Proof using Type. intros Hp. unfold splice. by replace (p - length l)%nat with 0%nat by lia. Qed.

Lemma length_splice p bs l : (p ≤ length l)%nat → length (splice p bs l) = Nat.max (length l) (p + length bs).
Proof using Type. intros Hp. rewrite splice_at by done. rewrite !length_app, length_take, length_drop. lia. Qed.

(** Bytes before the position stay. *)
Lemma take_splice q p bs l : (q ≤ p ≤ length l)%nat → take q (splice p bs l) = take q l.
Proof using Type.
  intros [Hq Hp]. rewrite splice_at by done. rewrite take_app_le by (rewrite length_take; lia).
  rewrite take_take. f_equal. lia.
Qed.

Lemma take_splice_end p bs l : (p ≤ length l)%nat → take (p + length bs) (splice p bs l) = take p l ++ bs.
Proof using Type.
  intros Hp. rewrite splice_at by done. rewrite (assoc_L (++)), take_app_length'; [done|].
  rewrite length_app, length_take. lia.
Qed.

(** [f] is written up to its position [p], where a prefix [bs] was written last
    from [q] on. *)
Record at_end (q : nat) (bs : list Z) (f : File) : Prop := {
  ae_pos : pos f = Z.of_nat (q + length bs);
  ae_len : (q + length bs ≤ length (bytes f))%nat;
  ae_bytes : take (q + length bs) (bytes f) = take q (bytes f) ++ bs;
}.

Lemma at_end_put q bs x f : at_end q bs f → at_end q (bs ++ x) (put x f) ∧ take q (bytes (put x f)) = take q (bytes f).
Proof using Type.
  intros [Hp Hl Hb]. assert (Hn : Z.to_nat (pos f) = (q + length bs)%nat) by lia. unfold put. rewrite Hn. split.
  - split; simpl.
    + rewrite length_app. unfold zlen. lia.
    + rewrite length_splice by lia. rewrite length_app. lia.
    + rewrite length_app, Nat.add_assoc, take_splice_end by lia. rewrite take_splice by lia. by rewrite Hb, <- (assoc_L (++)).
  - simpl. by apply take_splice; lia.
Qed.

(** A disk with room takes everything. *)
Lemma room_unlimited n f : limit f = None → room n f = n.
Proof using Type. intros H. unfold room. by rewrite H. Qed.

Lemma write_all x f : limit f = None → write x f = (put x f, zlen x).
Proof using Type.
  intros H. unfold write. rewrite room_unlimited by done. unfold zlen. rewrite Nat2Z.id, firstn_all.
  destruct x; [by destruct f|done].
Qed.

Lemma write_stream_all x f : limit f = None → write_stream x f = put x f.
Proof using Type. intros H. unfold write_stream. rewrite room_unlimited by done. unfold zlen. by rewrite Nat2Z.id, firstn_all. Qed.

(** *** Reading what was written *)

(** From [p] on, [l] is [x] and something. *)
Definition reads_at (p : Z) (x l : list Z) : Prop := ∃ a b, l = a ++ x ++ b ∧ p = zlen a.

Lemma read_at n x f : reads_at (pos f) x (bytes f) → n = zlen x → read n f = (mkFile (bytes f) (pos f + n) (limit f), x).
Proof using Type.
  intros (a & b & Hl & Hp) ->. unfold read. rewrite Hl, Hp. unfold zlen. rewrite !Nat2Z.id.
  rewrite drop_app_length, take_app_length. done.
Qed.

Lemma reads_at_prefix p x y l : reads_at p (x ++ y) l → reads_at p x l.
Proof using Type. intros (a & b & -> & ->). exists a, (y ++ b). by rewrite <- (assoc_L (++)). Qed.

Lemma reads_at_next p x y l : reads_at p (x ++ y) l → reads_at (p + zlen x) y l.
Proof using Type.
  intros (a & b & -> & ->). exists (a ++ x), b. rewrite <- !(assoc_L (++)). split; [done|]. unfold zlen. rewrite length_app. lia.
Qed.

Lemma ReadSection_struct r ty n y :
  in_s 32 ty → in_s 64 n → reads_at (pos (r_file r)) (Section_bytes (mkSection ty n) ++ y) (bytes (r_file r)) →
  ReadSection r = (on_file (mkFile (bytes (r_file r)) (pos (r_file r) + 16) (limit (r_file r))) r, Some (mkSection ty n)).
Proof using Type.
  intros Ht Hn Hr%reads_at_prefix.
  unfold ReadSection. rewrite (read_at sizeof_Section _ _ Hr) by (by rewrite zlen_Section_bytes).
  rewrite !zlen_Section_bytes. simpl. by rewrite Section_roundtrip.
Qed.

Lemma ReadSection_reads r s y :
  section_ok s → reads_at (pos (r_file r)) (encode s ++ y) (bytes (r_file r)) →
  ReadSection r = (on_file (mkFile (bytes (r_file r)) (pos (r_file r) + 16) (limit (r_file r))) r, Some (mkSection s.1 (zlen s.2))).
Proof using Type.
  intros [Ht Hs] Hr. unfold encode in Hr. rewrite <- (assoc_L (++)) in Hr. pose proof (zlen_nonneg s.2).
  eapply ReadSection_struct; [unfold in_s; lia..|exact Hr].
Qed.

(** Past a message that is not empty the position is that after it; past an
    empty one it is a block ahead. *)
Lemma ReadMessageSection_parses {M} `{!Proto M, !ProtoLaws M} r (m m0 : M) y :
  zlen (serialize m) < 2 ^ 31 → reads_at (pos (r_file r)) (serialize m ++ y) (bytes (r_file r)) →
  ∃ p, ReadMessageSection (zlen (serialize m)) m0 r = (on_file (mkFile (bytes (r_file r)) p (limit (r_file r))) r, m, true) ∧
    (0 < zlen (serialize m) → p = pos (r_file r) + zlen (serialize m)).
Proof using Type.
  intros Hs Hr. apply reads_at_prefix in Hr. unfold ReadMessageSection. pose proof (zlen_nonneg (serialize m)).
  rewrite !(proj2 (Z.ltb_ge _ _)) by lia. cbn [orb]. destruct (Z.ltb_spec 0 (zlen (serialize m))) as [Hp|Hp].
  - rewrite (read_at _ _ _ Hr eq_refl). rewrite (firstn_all2 (serialize m)) by (unfold zlen; lia). rewrite parse_serialize, Z.eqb_refl.
    by eexists.
  - assert (E : zlen (serialize m) = 0) by lia. rewrite E. unfold read. change (take (Z.to_nat 0) ?l) with (@nil Z).
    assert (Hnil : parse [] = Parsed m) by (rewrite <- (parse_serialize m); f_equal; symmetry; apply nil_length_inv; unfold zlen in E; lia).
    rewrite Hnil, E. eexists. split; [reflexivity|lia].
Qed.

Lemma ReadMessageSection_reads {M} `{!Proto M, !ProtoLaws M} r (m m0 : M) y :
  0 < zlen (serialize m) < 2 ^ 31 → reads_at (pos (r_file r)) (serialize m ++ y) (bytes (r_file r)) →
  ReadMessageSection (zlen (serialize m)) m0 r =
    (on_file (mkFile (bytes (r_file r)) (pos (r_file r) + zlen (serialize m)) (limit (r_file r))) r, m, true).
Proof using Type.
  intros [H0 Hs] Hr. destruct (ReadMessageSection_parses r m m0 y Hs Hr) as (p & -> & Hp). by rewrite (Hp H0).
Qed.

(** ** The layout of a file

    What was written after the header, in order. *)
Inductive item := IChannel (c : Channel) | IChunk (h : ChunkHeader) (b : ChunkBody).

Definition sections_of (i : item) : list (Z * list Z) :=
  match i with
  | IChannel c => [(SECTION_CHANNEL, serialize c)]
  | IChunk h b => [(SECTION_CHUNK_HEADER, serialize h); (SECTION_CHUNK_BODY, serialize b)]
  end.

Definition encode_all (ss : list (Z * list Z)) : list Z := mjoin (encode <$> ss).

Definition items_bytes (its : list item) : list Z := encode_all (its ≫= sections_of).

(** What an item adds to the index, when it is written at [p], and to the header. *)
Definition index_item (p : Z) (i : item) : Index :=
  match i with
  | IChannel c => [mkIndex SECTION_CHANNEL (u64 p) (channel_cache (mkChannelCache 0 (name c) (message_type c) (proto_desc c)))]
  | IChunk h b =>
      [mkIndex SECTION_CHUNK_HEADER (u64 p) (chunk_header_cache h);
       mkIndex SECTION_CHUNK_BODY (u64 (p + zlen (encode (SECTION_CHUNK_HEADER, serialize h)))) (chunk_body_cache (zlen b))]
  end.

Fixpoint index_of (p : Z) (its : list item) : Index :=
  match its with [] => [] | i :: its => index_item p i ++ index_of (p + zlen (items_bytes [i])) its end.

Definition count_item (h : Header) (i : item) : Header :=
  match i with
  | IChannel _ => set_counts (chunk_number h) (u64 (channel_number h + 1)) (begin_time h) (end_time h) (message_number h) h
  | IChunk c _ =>
      set_counts (u64 (chunk_number h + 1)) (channel_number h) (if begin_time h =? 0 then ch_begin_time c else begin_time h)
        (ch_end_time c) (u64 (message_number h + ch_message_number c)) h
  end.

Definition header_of (h : Header) (its : list item) : Header := foldl count_item h its.

(** Where the first section after the header is. *)
Definition start : nat := 2064.

(** The writer has written the items [its] after a header made from [h]. *)
Record holds (h : Header) (its : list item) (w : RecordFileWriter) : Prop := {
  holds_disk : limit (w_file w) = None;
  holds_bytes : at_end start (items_bytes its) (w_file w);
  holds_header : ∃ s, header_ w = set_size s (header_of h its);
  holds_index : index_ w = index_of (Z.of_nat start) its;
}.

Lemma encode_all_app a b : encode_all (a ++ b) = encode_all a ++ encode_all b.
Proof using Type. unfold encode_all. by rewrite fmap_app, join_app. Qed.

Lemma items_bytes_app a b : items_bytes (a ++ b) = items_bytes a ++ items_bytes b.
Proof using Type. unfold items_bytes. by rewrite bind_app, encode_all_app. Qed.

Lemma index_of_snoc p its i : index_of p (its ++ [i]) = index_of p its ++ index_item (p + zlen (items_bytes its)) i.
Proof using Type.
  revert p. induction its as [|j its IH]; intros p; simpl.
  - rewrite app_nil_r. f_equal. change (zlen (items_bytes [])) with 0. lia.
  - rewrite IH, <- (assoc_L (++)). do 2 f_equal. change (j :: its) with ([j] ++ its). rewrite items_bytes_app.
    unfold zlen. rewrite length_app. f_equal. lia.
Qed.

Lemma zlen_encode s : zlen (encode s) = 16 + zlen s.2.
Proof using Type. unfold encode, zlen. rewrite length_app, length_Section_bytes. lia. Qed.

Lemma limit_put x f : limit (put x f) = limit f.
Proof using Type. done. Qed.

Lemma put_app x y f : pos f ≤ zlen (bytes f) → 0 ≤ pos f → put y (put x f) = put (x ++ y) f.
Proof using Type.
  intros Hp H0. unfold put. simpl. f_equal; [|unfold zlen; rewrite length_app; lia].
  assert (Hn : (Z.to_nat (pos f) ≤ length (bytes f))%nat) by (unfold zlen in Hp; lia).
  assert (Hnx : Z.to_nat (pos f + zlen x) = (Z.to_nat (pos f) + length x)%nat) by (unfold zlen; lia). rewrite Hnx.
  rewrite splice_at by (rewrite length_splice by done; lia). rewrite take_splice_end by done.
  rewrite !splice_at by done. rewrite <- !(assoc_L (++)). do 2 f_equal. f_equal.
  rewrite (assoc_L (++)), drop_app_ge by (rewrite length_app, length_take; lia).
  rewrite drop_drop. f_equal. rewrite !length_app, length_take. lia.
Qed.

(** A section other than the header goes to the end. *)
Lemma WriteSection_appends q bs ty m w :
  ty ≠ SECTION_HEADER → limit (w_file w) = None → at_end q bs (w_file w) →
  ∃ f, WriteSection ty m w = (with_header (set_size (u64 (pos f)) (header_ w)) (with_file f w), true) ∧
    limit f = None ∧ at_end q (bs ++ encode (ty, m)) f ∧ take q (bytes f) = take q (bytes (w_file w)).
Proof using Type.
  intros Hty Hl Hat. unfold WriteSection. rewrite (proj2 (Z.eqb_neq _ _) Hty). cbn [negb].
  rewrite write_all by done. rewrite zlen_Section_bytes. simpl (negb _).
  rewrite write_stream_all by done. cbn [negb].
  destruct (at_end_put q bs (Section_bytes (mkSection ty (zlen m))) (w_file w) Hat) as [H1 T1].
  destruct (at_end_put _ _ m _ H1) as [H2 T2].
  eexists. split; [reflexivity|]. split; [done|]. split; [|by rewrite T2].
  by rewrite <- (assoc_L (++)) in H2.
Qed.

(** Property: a full disk is not reported: when the disk takes the head of a section
    but not all of its message, [WriteSection] returns true and the section in
    the file is cut, while its head promises the whole message. *)
Theorem full_disk_goes_unnoticed q bs ty m w l :
  ty ≠ SECTION_HEADER → limit (w_file w) = Some l → at_end q bs (w_file w) →
  pos (w_file w) + 16 ≤ l < pos (w_file w) + 16 + zlen m →
  ∃ w', WriteSection ty m w = (w', true) ∧ pos (w_file w') = l ∧
    at_end q (bs ++ Section_bytes (mkSection ty (zlen m)) ++ take (Z.to_nat (l - pos (w_file w) - 16)) m) (w_file w').
Proof using Type.
  intros Hty Hl Hat Hroom. unfold WriteSection. rewrite (proj2 (Z.eqb_neq _ _) Hty). cbn [negb].
  set (s := mkSection ty (zlen m)).
  assert (Hw : write (Section_bytes s) (w_file w) = (put (Section_bytes s) (w_file w), 16)).
  { unfold write, room. rewrite Hl, zlen_Section_bytes. replace (Z.max 0 (Z.min 16 (l - pos (w_file w)))) with 16 by lia. simpl.
    do 2 f_equal. apply take_ge. rewrite length_Section_bytes. lia. }
  rewrite Hw. simpl (negb _).
  destruct (at_end_put q bs (Section_bytes s) (w_file w) Hat) as [H1 _].
  assert (Hs : write_stream m (put (Section_bytes s) (w_file w)) = put (take (Z.to_nat (l - pos (w_file w) - 16)) m) (put (Section_bytes s) (w_file w))).
  { unfold write_stream, room. simpl limit. rewrite Hl. simpl pos. rewrite zlen_Section_bytes. do 3 f_equal. lia. }
  rewrite Hs. cbn [negb]. eexists. split; [reflexivity|].
  destruct (at_end_put _ _ (take (Z.to_nat (l - pos (w_file w) - 16)) m) _ H1) as [H2 _]. rewrite <- (assoc_L (++)) in H2.
  split; [|exact H2]. simpl. rewrite zlen_Section_bytes. unfold zlen in *. rewrite length_take. lia.
Qed.

Lemma WriteChannel_holds h its c w :
  holds h its w → ∃ w', WriteChannel c w = (w', true) ∧ holds h (its ++ [IChannel c]) w' ∧
    is_writing_ w' = is_writing_ w ∧ chunk_active_ w' = chunk_active_ w ∧ chunk_flush_ w' = chunk_flush_ w ∧
    channel_message_number_map_ w' = channel_message_number_map_ w.
Proof using Type.
  intros [Hl Hat [s Hh] Hi]. unfold WriteChannel.
  destruct (WriteSection_appends start (items_bytes its) SECTION_CHANNEL (serialize c) w) as (f & -> & Hl' & Hat' & _); [done..|].
  cbn [negb]. eexists. split; [reflexivity|]. split; [|done]. split; simpl; [done| | |].
  - rewrite items_bytes_app. unfold items_bytes at 2, encode_all. simpl. by rewrite app_nil_r.
  - rewrite Hh. eexists. unfold header_of. by rewrite foldl_app.
  - rewrite Hi, index_of_snoc. simpl. unfold CurrentPosition. rewrite (ae_pos _ _ _ Hat), Nat2Z.inj_add. done.
Qed.

Lemma WriteChunk_holds h its c b w :
  holds h its w → ∃ w', WriteChunk c b w = (w', true) ∧ holds h (its ++ [IChunk c b]) w' ∧
    is_writing_ w' = is_writing_ w ∧ chunk_active_ w' = chunk_active_ w ∧ chunk_flush_ w' = chunk_flush_ w ∧
    channel_message_number_map_ w' = channel_message_number_map_ w.
Proof using Type.
  intros [Hl Hat [s Hh] Hi]. unfold WriteChunk.
  destruct (WriteSection_appends start (items_bytes its) SECTION_CHUNK_HEADER (serialize c) w) as (f & -> & Hl' & Hat' & _); [done..|].
  cbn [negb]. match goal with |- context [WriteSection SECTION_CHUNK_BODY _ ?z] => set (w1 := z) end.
  destruct (WriteSection_appends start _ SECTION_CHUNK_BODY (serialize b) w1 ltac:(done) Hl' Hat') as (f2 & -> & Hl2 & Hat2 & _).
  cbn [negb]. eexists. split; [reflexivity|]. split; [|done]. split; simpl; [done| | |].
  - rewrite items_bytes_app. unfold items_bytes at 2, encode_all. simpl. rewrite app_nil_r. by rewrite (assoc_L (++)).
  - rewrite Hh. eexists. unfold header_of. by rewrite foldl_app.
  - rewrite Hi, index_of_snoc, <- (assoc_L (++)). simpl. unfold CurrentPosition.
    rewrite (ae_pos _ _ _ Hat), (ae_pos _ _ _ Hat'), length_app.
    rewrite !Nat2Z.inj_add. unfold zlen. by rewrite Z.add_assoc.
Qed.

(** *** The header and the index *)

(** What [WriteHeader] writes. *)
Definition head_block (h : Header) : list Z :=
  encode (SECTION_HEADER, serialize h) ++ take (Z.to_nat (HEADER_LENGTH - zlen (serialize h))) blank.

Definition header_fits (h : Header) : Prop := zlen (serialize h) ≤ HEADER_LENGTH.

Lemma length_head_block h : header_fits h → length (head_block h) = start.
Proof using Type.
  unfold header_fits, head_block, HEADER_LENGTH, zlen, encode. intros Hf. rewrite !length_app, length_take, length_Section_bytes. simpl snd.
  change (length blank) with 2048%nat. unfold start. lia.
Qed.

Lemma WriteHeader_puts h w : header_fits h → limit (w_file w) = None →
  WriteHeader h w =
    (with_header (set_size (Z.of_nat start) h) (with_file (put (head_block h) (mkFile (bytes (w_file w)) 0 None)) w), true).
Proof using Type.
  intros Hf Hl. unfold WriteHeader, WriteSection. rewrite Z.eqb_refl. unfold SetPosition. simpl w_file. rewrite Hl.
  change (0 <? 0) with false. cbv iota beta. cbn [negb]. rewrite write_all by done. rewrite zlen_Section_bytes. simpl (negb _).
  rewrite write_stream_all, write_all by done.
  assert (Hb : zlen (take (Z.to_nat (HEADER_LENGTH - zlen (serialize h))) blank) = HEADER_LENGTH - zlen (serialize h)).
  { unfold header_fits, HEADER_LENGTH in *. unfold zlen at 1. rewrite length_take. change (length blank) with 2048%nat.
    pose proof (zlen_nonneg (serialize h)). lia. }
  rewrite Hb, Z.eqb_refl. cbn [negb].
  assert (Hput : put (take (Z.to_nat (HEADER_LENGTH - zlen (serialize h))) blank)
      (put (serialize h) (put (Section_bytes (mkSection SECTION_HEADER (zlen (serialize h)))) (mkFile (bytes (w_file w)) 0 None))) =
    put (head_block h) (mkFile (bytes (w_file w)) 0 None)).
  { rewrite (put_app (Section_bytes _)) by (simpl; pose proof (zlen_nonneg (bytes (w_file w))); lia).
    rewrite put_app by (simpl; pose proof (zlen_nonneg (bytes (w_file w))); lia). done. }
  rewrite Hput. assert (u64 (CurrentPosition (put (head_block h) (mkFile (bytes (w_file w)) 0 None))) = Z.of_nat start) as ->; [|done].
  unfold CurrentPosition. simpl pos. unfold zlen. by rewrite length_head_block.
Qed.

(** The numbers of a header, each of at most 64 bits; such a header is far
    shorter than the room it has. *)
Definition header_numbers (h : Header) : list Z :=
  [major_version h; minor_version h; compress h; chunk_interval h; segment_interval h; index_position h; chunk_number h; channel_number h;
   begin_time h; end_time h; message_number h; size h; chunk_raw_size h; segment_raw_size h].

Definition header_wf (h : Header) : Prop := Forall (in_u 64) (header_numbers h).

Definition item_wf (i : item) : Prop :=
  match i with IChannel _ => True | IChunk c _ => in_u 64 (ch_begin_time c) ∧ in_u 64 (ch_end_time c) end.

Lemma header_of_wf h its : header_wf h → Forall item_wf its → header_wf (header_of h its).
Proof using Type.
  intros Hh Hi. unfold header_of. revert h Hh. induction Hi as [|i its Hi _ IH]; intros h Hh; [done|]. simpl. apply IH.
  unfold header_wf, header_numbers in *. rewrite !Forall_cons in *. destruct_and!.
  assert (Hu : ∀ z, in_u 64 (u64 z)) by (intros; by apply wrap_bound). destruct i as [c|c b]; simpl; split_and!; auto.
  - case_match; [apply Hi|done].
  - apply Hi.
Qed.

(** A new file, whatever was there before. *)
Lemma opened_holds old h : header_fits h → holds h [] (WriteHeader h (Writer_Open old None)).1.
Proof using Type.
  intros Hf. rewrite WriteHeader_puts by done. split; simpl; [done| |by eexists|done].
  split; simpl.
  - unfold zlen. rewrite length_head_block by done. unfold start. simpl length. lia.
  - rewrite length_splice by lia. rewrite length_head_block by done. unfold start. simpl. lia.
  - change (items_bytes []) with (@nil Z). by rewrite app_nil_r.
Qed.

(** A file as [Close] leaves it. *)
Definition laid_out (h : Header) (its : list item) (idx : Index) (l : list Z) : Prop :=
  is_complete h = true ∧ index_position h = u64 (Z.of_nat start + zlen (items_bytes its)) ∧ header_fits h ∧
  ∃ rest, l = head_block h ++ items_bytes its ++ encode (SECTION_INDEX, serialize idx) ++ rest.

Definition final_header (s p : Z) (h : Header) : Header := set_is_complete true (set_size s (set_index_position p h)).

Lemma final_header_wf s p h : in_u 64 s → in_u 64 p → header_wf h → header_wf (final_header s p h).
Proof using Type. unfold header_wf, header_numbers. rewrite !Forall_cons. simpl. intros ?? Hh. destruct_and!. by split_and!. Qed.

Lemma write_trailer_laid_out h its w :
  (∀ s p, in_u 64 s → in_u 64 p → header_fits (final_header s p (header_of h its))) → holds h its w →
  ∃ s, in_u 64 s ∧ laid_out (final_header s (u64 (Z.of_nat start + zlen (items_bytes its))) (header_of h its)) its
    (fill_number (channel_message_number_map_ w) <$> index_of (Z.of_nat start) its) (bytes (w_file (write_trailer w))).
Proof using Type.
  intros Hf [Hl Hat [s Hh] Hi]. unfold write_trailer, WriteIndex. cbv zeta.
  match goal with |- context [WriteSection SECTION_INDEX _ ?z] => set (w1 := z) end.
  destruct (WriteSection_appends start (items_bytes its) SECTION_INDEX (serialize (index_ w1)) w1) as (f & -> & Hl' & Hat' & _); [done..|].
  assert (Hcp : CurrentPosition (w_file w) = Z.of_nat start + zlen (items_bytes its)).
  { unfold CurrentPosition. by rewrite (ae_pos _ _ _ Hat), Nat2Z.inj_add. }
  simpl header_. rewrite Hcp, Hh.
  change (set_is_complete true (set_size (u64 (pos f)) (set_index_position ?p (set_size s ?x)))) with (final_header (u64 (pos f)) p x).
  assert (Hfit : header_fits (final_header (u64 (pos f)) (u64 (Z.of_nat start + zlen (items_bytes its))) (header_of h its)))
    by (apply Hf; by apply wrap_bound).
  rewrite WriteHeader_puts by done. exists (u64 (pos f)). split; [by apply wrap_bound|].
  split; [done|]. split; [done|]. split; [done|].
  destruct Hat' as [Hp Hlen Hb]. exists (drop (start + length (items_bytes its ++ encode (SECTION_INDEX, serialize (index_ w1)))) (bytes f)).
  simpl w_file. unfold put. simpl bytes. rewrite splice_at by lia. simpl take. rewrite app_nil_l. rewrite length_head_block by done.
  do 2 f_equal.
  rewrite <- (take_drop (start + length (items_bytes its ++ encode (SECTION_INDEX, serialize (index_ w1)))) (bytes f)) at 1.
  rewrite Hb, <- (assoc_L (++)), drop_app_length' by (rewrite length_take; lia).
  rewrite <- (assoc_L (++)). unfold w1. simpl index_. by rewrite Hi.
Qed.

Lemma WriteSection_numbers ty m w : channel_message_number_map_ (WriteSection ty m w).1 = channel_message_number_map_ w.
Proof using Type. unfold WriteSection. by repeat case_match. Qed.

Lemma WriteSection_writing ty m w : is_writing_ (WriteSection ty m w).1 = is_writing_ w.
Proof using Type. unfold WriteSection. by repeat case_match. Qed.

Lemma flush_chunk_writing w : is_writing_ (flush_chunk w) = is_writing_ w ∧ chunk_flush_ (flush_chunk w) = Chunk_clear.
Proof using Type.
  unfold flush_chunk. match goal with |- context [WriteChunk ?a ?b ?c] => destruct (WriteChunk a b c) as [w' ok] eqn:E end. simpl. split; [|done].
  unfold WriteChunk in E. cbv zeta in E.
  match type of E with context [WriteSection SECTION_CHUNK_HEADER ?m ?z] => pose proof (WriteSection_writing SECTION_CHUNK_HEADER m z) as E1; destruct (WriteSection SECTION_CHUNK_HEADER m z) as [w1 b1] end.
  simpl in E1. destruct b1; simpl in E; [|by injection E as <- <-].
  match type of E with context [WriteSection SECTION_CHUNK_BODY ?m ?z] => pose proof (WriteSection_writing SECTION_CHUNK_BODY m z) as E2; destruct (WriteSection SECTION_CHUNK_BODY m z) as [w2 b2] end.
  simpl in E2. destruct b2; simpl in E; injection E as <- <-; simpl; congruence.
Qed.

Lemma write_trailer_numbers w : channel_message_number_map_ (write_trailer w) = channel_message_number_map_ w.
Proof using Type.
  unfold write_trailer, WriteIndex, WriteHeader. cbv zeta.
  match goal with |- context [WriteSection SECTION_INDEX ?m ?z] => pose proof (WriteSection_numbers SECTION_INDEX m z) as E1; destruct (WriteSection SECTION_INDEX m z) as [w1 b1] end.
  match goal with |- context [WriteSection SECTION_HEADER ?m ?z] => pose proof (WriteSection_numbers SECTION_HEADER m z) as E2; destruct (WriteSection SECTION_HEADER m z) as [w2 b2] end.
  simpl in *. congruence.
Qed.

Context `{!ProtoLaws Header, !ProtoLaws Index}.

(** Opening a file, finished or not. *)
Lemma Open_header h tail :
  header_fits h → Reader_Open (Some (head_block h ++ tail)) = (mkReader (mkFile (head_block h ++ tail) (Z.of_nat start) None) h [] false, true).
Proof using ProtoLaws0.
  intros Hf. unfold Reader_Open, ReadHeader.
  assert (Hs : section_ok (SECTION_HEADER, serialize h)).
  { unfold header_fits, HEADER_LENGTH in Hf. split; simpl; [done|]. lia. }
  assert (Hr : reads_at 0 (encode (SECTION_HEADER, serialize h) ++ take (Z.to_nat (HEADER_LENGTH - zlen (serialize h))) blank ++ tail) (head_block h ++ tail)).
  { exists [], []. split; [|done]. unfold head_block. rewrite app_nil_r, <- !(assoc_L (++)). done. }
  rewrite (ReadSection_reads (mkReader (mkFile (head_block h ++ tail) 0 None) default_header [] false) (SECTION_HEADER, serialize h) _ Hs Hr).
  simpl sec_type. rewrite Z.eqb_refl. cbn [negb].
  simpl sec_size. simpl snd. unfold encode in Hr. rewrite <- (assoc_L (++)) in Hr. apply reads_at_next in Hr. rewrite zlen_Section_bytes in Hr.
  match goal with |- context [ReadMessageSection _ ?m ?r] => destruct (ReadMessageSection_parses r h m _ (proj2 Hs) Hr) as (p & -> & _) end.
  done.
Qed.

Lemma ReadIndex_index h its idx l :
  laid_out h its idx l → Z.of_nat start + zlen (items_bytes its) < 2 ^ 63 → zlen (serialize idx) < 2 ^ 31 →
  ReadIndex (mkReader (mkFile l (Z.of_nat start) None) h [] false) = (mkReader (mkFile l (Z.of_nat start) None) h idx false, true).
Proof using ProtoLaws1.
  intros (Hc & Hp & Hf & rest & Hl) H63 H31. unfold ReadIndex. simpl r_header. rewrite Hc. cbn [negb].
  pose proof (zlen_nonneg (items_bytes its)) as Hz. rewrite Hp.
  assert (Hi : i64 (u64 (Z.of_nat start + zlen (items_bytes its))) = Z.of_nat start + zlen (items_bytes its)).
  { rewrite swrap_wrap by lia. apply swrap_small; [lia|]. unfold in_s. lia. }
  rewrite Hi. unfold SetPosition. rewrite (proj2 (Z.ltb_ge _ _)) by lia. cbn [negb].
  assert (Hr : reads_at (Z.of_nat start + zlen (items_bytes its)) (encode (SECTION_INDEX, serialize idx) ++ []) l).
  { exists (head_block h ++ items_bytes its), rest. rewrite app_nil_r, <- (assoc_L (++)), Hl. split; [done|].
    unfold zlen. rewrite length_app, (length_head_block h Hf). lia. }
  assert (Hs : section_ok (SECTION_INDEX, serialize idx)) by done.
  unfold on_file at 1. simpl r_file. cbn [r_header r_index end_of_file_].
  erewrite (ReadSection_reads _ (SECTION_INDEX, serialize idx)); [|done|exact Hr].
  simpl sec_type. rewrite Z.eqb_refl. cbn [negb]. simpl sec_size. simpl snd.
  unfold encode in Hr. rewrite <- (assoc_L (++)) in Hr. apply reads_at_next in Hr. rewrite zlen_Section_bytes in Hr.
  match goal with |- context [ReadMessageSection _ ?m ?r] => destruct (ReadMessageSection_parses r idx m _ H31 Hr) as (p & -> & _) end.
  done.
Qed.
End RecordFile.

(** ** A concrete serialisation

    Every message as one number: a protobuf for examples. *)

#[global] Instance Header_eq_dec : EqDecision Header.
Proof. solve_decision. Defined.
#[global] Instance Channel_eq_dec : EqDecision Channel.
Proof. solve_decision. Defined.
#[global] Instance SingleMessage_eq_dec : EqDecision SingleMessage.
Proof. solve_decision. Defined.
#[global] Instance ChunkHeader_eq_dec : EqDecision ChunkHeader.
Proof. solve_decision. Defined.
#[global] Instance ChannelCache_eq_dec : EqDecision ChannelCache.
Proof. solve_decision. Defined.
#[global] Instance cache_eq_dec : EqDecision cache.
Proof. solve_decision. Defined.
#[global] Instance SingleIndex_eq_dec : EqDecision SingleIndex.
Proof. solve_decision. Defined.

#[global] Instance Header_countable : Countable Header.
Proof.
  apply (inj_countable' (λ h, (header_numbers h, is_complete h))
    (λ x, match x with
          | ([a; b; c; d; e; f; g; i; j; k; l; m; n; o], p) => mkHeader a b c d e f g i j k l m p n o
          | _ => default_header end)).
  by intros [].
Defined.
#[global] Instance Channel_countable : Countable Channel.
Proof.
  apply (inj_countable' (λ c, (name c, message_type c, proto_desc c)) (λ '(a, b, c), mkChannel a b c)). by intros [].
Defined.
#[global] Instance SingleMessage_countable : Countable SingleMessage.
Proof.
  apply (inj_countable' (λ m, (channel_name m, time m, content m)) (λ '(a, b, c), mkMessage a b c)). by intros [].
Defined.
#[global] Instance ChunkHeader_countable : Countable ChunkHeader.
Proof.
  apply (inj_countable' (λ h, (ch_begin_time h, ch_end_time h, ch_message_number h, ch_raw_size h)) (λ '(a, b, c, d), mkChunkHeader a b c d)).
  by intros [].
Defined.
#[global] Instance ChunkBody_countable : Countable ChunkBody := list_countable.
#[global] Instance ChannelCache_countable : Countable ChannelCache.
Proof.
  apply (inj_countable' (λ c, (cc_message_number c, cc_name c, cc_message_type c, cc_proto_desc c)) (λ '(a, b, c, d), mkChannelCache a b c d)).
  by intros [].
Defined.
#[global] Instance cache_countable : Countable cache.
Proof.
  apply (inj_countable'
    (λ c, match c with no_cache => inl (inl ()) | channel_cache c => inl (inr c) | chunk_header_cache h => inr (inl h) | chunk_body_cache n => inr (inr n) end)
    (λ x, match x with inl (inl _) => no_cache | inl (inr c) => channel_cache c | inr (inl h) => chunk_header_cache h | inr (inr n) => chunk_body_cache n end)).
  by intros [].
Defined.
#[global] Instance SingleIndex_countable : Countable SingleIndex.
Proof. apply (inj_countable' (λ i, (si_type i, si_position i, si_cache i)) (λ '(a, b, c), mkIndex a b c)). by intros []. Defined.
#[global] Instance Index_countable : Countable Index := list_countable.

Definition packed {M} `{Countable M} (d : M) : Proto M := {|
  serialize m := [Zpos (countable.encode m)];
  parse bs := match bs with
    | [Zpos p] => match countable.decode p with Some m => Parsed m | None => Failed d false end
    | _ => Failed d true
    end;
  default_block := 8192;
|}.

Lemma packed_laws {M} `{Countable M} (d : M) : @ProtoLaws M (packed d).
Proof. split. intros m. simpl. by rewrite countable.decode_encode. Qed.

Definition packed_header : Proto Header := packed default_header.
Definition packed_channel : Proto Channel := packed (mkChannel EmptyString EmptyString EmptyString).
Definition packed_chunk_header : Proto ChunkHeader := packed (mkChunkHeader 0 0 0 0).
Definition packed_chunk_body : Proto ChunkBody := packed [].
Definition packed_index : Proto Index := packed [].

Lemma packed_header_size h : @header_fits packed_header h.
Proof. unfold header_fits. simpl. unfold HEADER_LENGTH, zlen. simpl. lia. Qed.

(** The header that [HeaderBuilder] makes with other limits for chunks. *)
Definition example_header (chunk_interval_ chunk_raw_size_ : Z) : Header :=
  mkHeader 1 0 0 chunk_interval_ 0 0 0 0 0 0 0 0 false chunk_raw_size_ 0.

(** A disk with 24 bytes to go. *)
Definition nearly_full : RecordFileWriter := mkWriter (mkFile [] 0 (Some 24)) default_header [] true Chunk_clear Chunk_clear ∅.

Lemma full_disk_goes_unnoticed_witness :
  ∃ w', WriteSection false SECTION_CHANNEL (replicate 30 1) nearly_full = (w', true) ∧ pos (w_file w') = 24.
Proof.
  destruct (full_disk_goes_unnoticed false 0 [] SECTION_CHANNEL (replicate 30 1) nearly_full 24) as (w' & H1 & H2 & _);
    [discriminate|reflexivity|split; reflexivity || simpl; lia|split; simpl; unfold zlen; simpl; lia|by exists w'].
Defined.
