(* ===== verification/RecordFlush.v ===== *)
(** * Writing a record file: the writer and its flush thread

    [RecordFileWriter] ([src/code/cyber/record/file/record_file_writer.cc])
    collects messages in [chunk_active_]; when the chunk is large or long enough
    it is swapped with [chunk_flush_], which a thread writes to the file.
    [flush_mutex_] protects the swap and the work of the thread, [flush_cv_]
    wakes it.  This file has the two threads as interleaved steps, down to the
    steps of the wait on the condition variable; a critical section is one step. *)

From stdpp Require Import base list strings gmap.
From S2P Require Import Prelude Message RecordFile.

(** Where the thread is in [Flush]: before its test of [is_writing_], before it
    locks and evaluates the predicate of the wait, holding the lock with a false
    predicate, asleep, gone. *)
Inductive flusher := FTop | FTest | FHolding | FSleep | FExit.

(** Where the caller is: outside, in [WriteMessage] before the swap, and in
    [Close]: waiting, before the swap, waiting, before [is_writing_] is reset,
    before [notify_all], in [join], before the trailer, done. *)
Inductive producer := PIdle | PFlush | PWait1 | PSwap | PWait2 | PStop | PNotify | PJoin | PTrailer | PDone.

#[global] Instance flusher_eq_dec : EqDecision flusher.
Proof. solve_decision. Defined.
#[global] Instance producer_eq_dec : EqDecision producer.
Proof. solve_decision. Defined.

Section RecordFlush.
Context (big_endian : bool).
Context `{!Proto Header, !Proto Channel, !Proto ChunkHeader, !Proto ChunkBody, !Proto Index}.
Context (header_size : ∀ h, header_wf h → header_fits h).

(** [items], [written] and [raced] are not part of the program: what went into
    the file, what was given to [WriteMessage], and whether a chunk was swapped
    away before the thread wrote it. *)
Record fsys := mkSys { writer : RecordFileWriter; fpc : flusher; ppc : producer; items : list item; written : list SingleMessage; raced : bool }.

Inductive label :=
  | CallChannel (c : Channel)
  | CallMessage (m : SingleMessage)
  | CallClose
  | Producer         (** the next step of the call *)
  | Flusher          (** the next step of the thread *)
  | Wake.            (** a spurious wake-up *)

Definition notify (f : flusher) : flusher := match f with FSleep => FTest | _ => f end.

Definition locked (y : fsys) : bool := bool_decide (fpc y = FHolding).

Definition with_ppc (p : producer) (y : fsys) : fsys := mkSys (writer y) (fpc y) p (items y) (written y) (raced y).
Definition with_fpc (f : flusher) (y : fsys) : fsys := mkSys (writer y) f (ppc y) (items y) (written y) (raced y).

(** The swap and its notification. *)
Definition swap (p : producer) (y : fsys) : fsys :=
  mkSys (swap_chunks (writer y)) (notify (fpc y)) p (items y) (written y) (raced y || negb (Chunk_empty (chunk_flush_ (writer y)))).

Definition producer_step (y : fsys) : option fsys :=
  match ppc y with
  | PIdle | PDone => None
  | PFlush => if locked y then None else Some (swap PIdle y)
  | PWait1 => if locked y then None else Some (with_ppc (if Chunk_empty (chunk_flush_ (writer y)) then PSwap else PWait1) y)
  | PSwap => if locked y then None else Some (swap PWait2 y)
  | PWait2 => if locked y then None else Some (with_ppc (if Chunk_empty (chunk_flush_ (writer y)) then PStop else PWait2) y)
  | PStop => Some (mkSys (with_writing false (writer y)) (fpc y) PNotify (items y) (written y) (raced y))
  | PNotify => Some (with_ppc PJoin (with_fpc (notify (fpc y)) y))
  | PJoin => if decide (fpc y = FExit) then Some (with_ppc PTrailer y) else None
  | PTrailer => Some (mkSys (write_trailer big_endian (writer y)) (fpc y) PDone (items y) (written y) (raced y))
  end.

(** The write of a chunk is one step: the thread holds [flush_mutex_] and, in
    [WriteChunk], [mutex_], so that neither a swap nor [WriteChannel] can be in
    between, and a [WriteMessage] that comes meanwhile only touches the active
    chunk and the numbers, which the thread does not use.  What is in the file
    when the process dies inside of this step is the matter of RecordTools. *)
Definition flusher_step (y : fsys) : option fsys :=
  match fpc y with
  | FTop => Some (with_fpc (if is_writing_ (writer y) then FTest else FExit) y)
  | FTest =>
      let w := writer y in
      if negb (negb (Chunk_empty (chunk_flush_ w)) || negb (is_writing_ w)) then Some (with_fpc FHolding y)
      else if negb (is_writing_ w) then Some (with_fpc FExit y)
      else
        Some (mkSys (flush_chunk big_endian w) FTop (ppc y)
          (items y ++ [IChunk (ck_header (chunk_flush_ w)) (ck_body (chunk_flush_ w))]) (written y) (raced y))
  | FHolding => Some (with_fpc FSleep y)
  | FSleep | FExit => None
  end.

Definition exec (y : fsys) (l : label) : option fsys :=
  match l with
  | CallChannel c =>
      if decide (ppc y = PIdle) then
        Some (mkSys (WriteChannel big_endian c (writer y)).1 (fpc y) PIdle (items y ++ [IChannel c]) (written y) (raced y))
      else None
  | CallMessage m =>
      if decide (ppc y = PIdle) then
        let w := add_message m (writer y) in
        Some (mkSys w (fpc y) (if need_flush m w then PFlush else PIdle) (items y) (written y ++ [m]) (raced y))
      else None
  | CallClose =>
      if decide (ppc y = PIdle) then Some (with_ppc (if is_writing_ (writer y) then PWait1 else PIdle) y) else None
  | Producer => producer_step y
  | Flusher => flusher_step y
  | Wake => match fpc y with FSleep => Some (with_fpc FTest y) | _ => None end
  end.

(** [Open] and [WriteHeader]. *)
Definition opened (old : list Z) (disk : option Z) (h : Header) : fsys :=
  mkSys (WriteHeader big_endian h (Writer_Open old disk)).1 FTop PIdle [] [] false.

(** ** Chunks *)

(** The header of a chunk is that of its messages. *)
Definition chunk_of (b : ChunkBody) : Chunk := foldl (λ c m, Chunk_add m c) Chunk_clear b.

Definition item_ok (i : item) : Prop := match i with IChunk h b => mkChunk h b = chunk_of b ∧ b ≠ [] | IChannel _ => True end.

Definition body_of (i : item) : list SingleMessage := match i with IChunk _ b => b | IChannel _ => [] end.

(** The messages in the order of the file. *)
Definition messages_of (its : list item) : list SingleMessage := its ≫= body_of.

Lemma chunk_of_snoc b m : chunk_of (b ++ [m]) = Chunk_add m (chunk_of b).
Proof using Type. unfold chunk_of. by rewrite foldl_app. Qed.

Lemma chunk_of_body b : ck_body (chunk_of b) = b ∧ ch_message_number (ck_header (chunk_of b)) = u64 (zlen b).
Proof using Type.
  induction b as [|m b [IH1 IH2]] using rev_ind; [done|]. rewrite chunk_of_snoc. simpl. rewrite IH1, IH2. split; [done|].
  rewrite zlen_snoc. autorewrite with cyber. done.
Qed.

Lemma chunk_of_empty b : zlen b < 2 ^ 64 → Chunk_empty (chunk_of b) = bool_decide (b = []).
Proof using Type.
  intros Hb. unfold Chunk_empty. rewrite (proj2 (chunk_of_body b)), wrap_small by (pose proof (zlen_nonneg b); unfold in_u; lia).
  destruct b; [done|]. rewrite bool_decide_eq_false_2 by done. apply Z.eqb_neq. unfold zlen. simpl. lia.
Qed.

(** ** What the steps keep *)

Definition past_stop (p : producer) : bool := match p with PNotify | PJoin | PTrailer => true | _ => false end.

(** The chunks hold what is not in the file. *)
Record flush_Inv (h : Header) (y : fsys) : Prop := {
  fi_holds : holds big_endian h (items y) (writer y);
  fi_items : Forall item_ok (items y);
  fi_chunks : ∃ a f, chunk_active_ (writer y) = chunk_of a ∧ chunk_flush_ (writer y) = chunk_of f ∧
    messages_of (items y) ++ f ++ a ≡ₚ written y ∧ (raced y = false → messages_of (items y) ++ f ++ a = written y) ∧
    (ppc y = PStop ∨ past_stop (ppc y) = true → a = [] ∧ f = []) ∧ (ppc y = PSwap → f = []) ∧ (ppc y = PWait2 → a = []);
  fi_numbers : ∀ c, default 0 (channel_message_number_map_ (writer y) !! c) = zlen (filter (λ m, channel_name m = c) (written y));
  fi_writing : is_writing_ (writer y) = negb (past_stop (ppc y));
  fi_exit : ppc y = PTrailer → fpc y = FExit;
}.

(** The index with its numbers. *)
Definition final_index (y : fsys) : Index :=
  fill_number (channel_message_number_map_ (writer y)) <$> index_of big_endian (Z.of_nat start) (items y).

(** After [Close]. *)
Definition closed_ok (h : Header) (y : fsys) : Prop :=
  fpc y = FExit ∧ Forall item_ok (items y) ∧ messages_of (items y) ≡ₚ written y ∧ (raced y = false → messages_of (items y) = written y) ∧
  (∀ c, default 0 (channel_message_number_map_ (writer y) !! c) = zlen (filter (λ m, channel_name m = c) (written y))) ∧
  ∃ s, in_u 64 s ∧
    laid_out big_endian (final_header s (u64 (Z.of_nat start + zlen (items_bytes big_endian (items y)))) (header_of h (items y))) (items y)
      (final_index y) (bytes (w_file (writer y))).

Definition sys_ok (h : Header) (y : fsys) : Prop := if decide (ppc y = PDone) then closed_ok h y else flush_Inv h y.

Definition bounded (y : fsys) : Prop := zlen (written y) < 2 ^ 64 ∧ Forall (λ m, in_u 64 (time m)) (written y).

(** Close to the definitions: what the chunks of an invariant state are. *)
Lemma holds_chunks h its w a f : holds big_endian h its w → holds big_endian h its (with_chunks a f w).
Proof using Type. by intros [H1 H2 H3 H4]. Qed.

Lemma flush_empty y a f : bounded y → messages_of (items y) ++ f ++ a ≡ₚ written y → Chunk_empty (chunk_of f) = bool_decide (f = []).
Proof using Type.
  intros Hb Hp. apply chunk_of_empty. destruct Hb as [Hb _]. apply Permutation_length in Hp.
  rewrite !length_app in Hp. unfold zlen in *. lia.
Qed.

Lemma messages_of_snoc its i : messages_of (its ++ [i]) = messages_of its ++ body_of i.
Proof using Type. unfold messages_of. rewrite bind_app. simpl. by rewrite app_nil_r. Qed.

Lemma swap_Inv h y p :
  bounded y → flush_Inv h y → (p = PIdle ∧ ppc y = PFlush) ∨ (p = PWait2 ∧ ppc y = PSwap) → flush_Inv h (swap p y).
Proof using Type.
  intros Hb [H1 H2 (a & f & Ha & Hf & Hp & He & _ & Hsw & _) H4 H5 H6] Hpc.
  assert (Hw : past_stop p = past_stop (ppc y)) by (destruct Hpc as [[-> ->]|[-> ->]]; done).
  split; simpl; try done.
  - by apply holds_chunks.
  - exists f, a. split; [done|]. split; [done|]. rewrite Hf, (flush_empty y a f) by done. split_and!.
    + by rewrite (Permutation_app_comm a f).
    + intros [Hr Hn]%orb_false_iff. apply negb_false_iff, bool_decide_eq_true in Hn. subst f.
      rewrite app_nil_r. by apply He.
    + destruct Hpc as [[-> _]|[-> _]]; by intros [|].
    + by destruct Hpc as [[-> _]|[-> _]].
    + destruct Hpc as [[-> _]|[-> ?]]; [done|auto].
  - by rewrite Hw.
  - by destruct Hpc as [[-> _]|[-> _]].
Qed.

(** A step of the caller that only moves on. *)
Lemma move_Inv h y p f :
  flush_Inv h y → past_stop p = past_stop (ppc y) → (p = PTrailer → f = FExit) →
  (∀ a fl, chunk_active_ (writer y) = chunk_of a → chunk_flush_ (writer y) = chunk_of fl →
     messages_of (items y) ++ fl ++ a ≡ₚ written y →
     (ppc y = PStop ∨ past_stop (ppc y) = true → a = [] ∧ fl = []) → (ppc y = PSwap → fl = []) → (ppc y = PWait2 → a = []) →
     (p = PStop ∨ past_stop p = true → a = [] ∧ fl = []) ∧ (p = PSwap → fl = []) ∧ (p = PWait2 → a = [])) →
  flush_Inv h (with_ppc p (with_fpc f y)).
Proof using Type.
  intros [H1 H2 (a & fl & Ha & Hf & Hp & He & Hr) H4 H5 H6] Hs Hx Hc. split; simpl; try done.
  - exists a, fl. do 4 (split; [done|]). destruct Hr as (R1 & R2 & R3). by apply Hc.
  - by rewrite Hs.
Qed.

Lemma add_message_Inv h y m :
  ppc y = PIdle → bounded (mkSys (writer y) (fpc y) PIdle (items y) (written y ++ [m]) (raced y)) → flush_Inv h y →
  flush_Inv h (mkSys (add_message m (writer y)) (fpc y) (if need_flush m (add_message m (writer y)) then PFlush else PIdle)
    (items y) (written y ++ [m]) (raced y)).
Proof using Type.
  intros Hpc Hb [H1 H2 (a & f & Ha & Hf & Hp & He & _) H4 H5 H6]. rewrite Hpc in *.
  set (p := if need_flush _ _ then _ else _). assert (Hpp : p = PFlush ∨ p = PIdle) by (unfold p; destruct (need_flush _ _); auto).
  split; simpl.
  - by destruct H1.
  - done.
  - exists (a ++ [m]), f. rewrite chunk_of_snoc, Ha. split; [done|]. split; [done|]. split_and!.
    + rewrite !(assoc_L (++)). f_equiv. by rewrite <- (assoc_L (++)).
    + intros Hr. rewrite !(assoc_L (++)). f_equal. rewrite <- (assoc_L (++)). by apply He.
    + destruct Hpp as [-> | ->]; by intros [|].
    + by destruct Hpp as [-> | ->].
    + by destruct Hpp as [-> | ->].
  - intros c. rewrite lookup_insert. rewrite filter_app. unfold zlen. rewrite length_app, Nat2Z.inj_add. fold (@zlen SingleMessage).
    specialize (H4 c). case_decide as E; simpl.
    + subst c. rewrite filter_cons_True by done. simpl.
      assert (Hlen : zlen (filter (λ x, channel_name x = channel_name m) (written y)) + 1 < 2 ^ 64).
      { destruct Hb as [Hb _]. simpl in Hb. rewrite zlen_snoc in Hb.
        pose proof (length_filter (λ x, channel_name x = channel_name m) (written y)). unfold zlen in *. lia. }
      destruct (channel_message_number_map_ (writer y) !! channel_name m) as [n|]; simpl in H4 |- *; rewrite <- H4 in *.
      * unfold zlen in *. rewrite wrap_small; [lia|]. unfold in_u. lia.
      * unfold zlen in *. lia.
    + rewrite filter_cons_False by done. simpl. rewrite H4. unfold zlen. lia.
  - rewrite H5. by destruct Hpp as [-> | ->].
  - by destruct Hpp as [-> | ->].
Qed.

Lemma flush_chunk_Inv h y :
  bounded y → flush_Inv h y → Chunk_empty (chunk_flush_ (writer y)) = false → is_writing_ (writer y) = true →
  flush_Inv h (mkSys (flush_chunk big_endian (writer y)) FTop (ppc y)
    (items y ++ [IChunk (ck_header (chunk_flush_ (writer y))) (ck_body (chunk_flush_ (writer y)))]) (written y) (raced y)).
Proof using Type.
  intros Hb [H1 H2 (a & f & Ha & Hf & Hp & He & Hs & Hsw & Hw) H4 H5 H6] Hne Hwr.
  assert (Hfn : f ≠ []). { intros ->. rewrite Hf in Hne. done. }
  assert (Hpc : past_stop (ppc y) = false) by (rewrite H5 in Hwr; by apply negb_true_iff in Hwr).
  unfold flush_chunk. destruct (WriteChunk_holds big_endian h (items y) (ck_header (chunk_flush_ (writer y))) (ck_body (chunk_flush_ (writer y))) (writer y) H1)
    as (w & -> & Hh & E1 & E2 & E3 & E4).
  assert (Hbody : ck_body (chunk_flush_ (writer y)) = f) by (rewrite Hf; apply chunk_of_body).
  split; simpl.
  - by apply holds_chunks.
  - apply Forall_app. split; [done|]. constructor; [|done]. simpl. rewrite Hbody. split; [|done]. rewrite <- Hf, <- Hbody at 1. by destruct (chunk_flush_ (writer y)).
  - exists a, []. rewrite E2, Ha. split; [done|]. split; [done|]. rewrite messages_of_snoc. simpl body_of. rewrite Hbody, <- !(assoc_L (++)).
    split_and!; try done. intros Hst. by destruct (Hs Hst) as [-> ->].
  - by rewrite E4.
  - by rewrite E1, H5.
  - intros Ht. by rewrite Ht in Hpc.
Qed.

Lemma flush_Inv_fpc h y f : flush_Inv h y → ppc y ≠ PTrailer → flush_Inv h (with_fpc f y).
Proof using Type. intros [H1 H2 H3 H4 H5 H6] Hp. by split. Qed.

(** The times in a chunk header are those of messages. *)
Lemma chunk_of_times b : Forall (λ m, in_u 64 (time m)) b →
  in_u 64 (ch_begin_time (ck_header (chunk_of b))) ∧ in_u 64 (ch_end_time (ck_header (chunk_of b))).
Proof using Type.
  induction b as [|m b IH] using rev_ind; intros Hb; [done|]. apply Forall_app in Hb as [Hb Hm]. apply Forall_cons in Hm as [Hm _].
  rewrite chunk_of_snoc. destruct (IH Hb) as [H1 H2]. simpl. split; repeat case_match; done.
Qed.

Lemma items_wf its : Forall item_ok its → Forall (λ m, in_u 64 (time m)) (messages_of its) → Forall item_wf its.
Proof using Type.
  induction 1 as [|i its Hi _ IH]; [done|]. unfold messages_of. simpl. intros [Hb Hr]%Forall_app. constructor; [|by apply IH].
  destruct i as [c|c b]; [done|]. simpl in *. pose proof (chunk_of_times b Hb) as H. destruct Hi as [Hi _]. by rewrite <- Hi in H.
Qed.

Lemma trailer_closed h y :
  header_wf h → bounded y → flush_Inv h y → ppc y = PTrailer →
  closed_ok h (mkSys (write_trailer big_endian (writer y)) (fpc y) PDone (items y) (written y) (raced y)).
Proof using header_size.
  intros Hwf [_ Hb] [H1 H2 (a & f & Ha & Hf & Hp & He & Hs & _) H4 H5 H6] Hpc.
  destruct Hs as [-> ->]; [right; by rewrite Hpc|]. rewrite app_nil_r in Hp, He. simpl in Hp, He.
  destruct (write_trailer_laid_out big_endian h (items y) (writer y)) as (s & Hs0 & Hl); [|done|].
  { intros s p Hs' Hp'. apply header_size, final_header_wf, header_of_wf; [done..|]. apply items_wf; [done|].
    by rewrite Hp. }
  unfold closed_ok. simpl. split; [auto|]. split; [done|]. split; [done|]. split; [done|]. 
  assert (E : channel_message_number_map_ (write_trailer big_endian (writer y)) = channel_message_number_map_ (writer y)) by apply write_trailer_numbers.
  rewrite E. split; [done|]. exists s. split; [done|]. unfold final_index. simpl. by rewrite E.
Qed.

Lemma flush_exec_ok h y l y' :
  header_wf h → bounded y' → sys_ok h y → exec y l = Some y' → sys_ok h y'.
Proof using header_size.
  intros Hfit Hb Hok He. unfold sys_ok in Hok. destruct (decide (ppc y = PDone)) as [Hd|Hd].
  { exfalso. destruct Hok as [Hx _]. destruct l; simpl in He; rewrite ?Hd in He; try done.
    - unfold producer_step in He. by rewrite Hd in He.
    - unfold flusher_step in He. by rewrite Hx in He.
    - by rewrite Hx in He. }
  assert (Hgo : ppc y' ≠ PDone → flush_Inv h y' → sys_ok h y') by (intros ? ?; unfold sys_ok; by rewrite decide_False).
  destruct l as [c|m| | | |]; simpl in He.
  - case_decide as Hp; [|done]. injection He as <-. apply Hgo; [done|]. destruct Hok as [H1 H2 H3 H4 H5 H6].
    destruct (WriteChannel_holds big_endian h (items y) c (writer y) H1) as (w & -> & Hh & E1 & E2 & E3 & E4). simpl.
    destruct H3 as (a & f & Ha & Hf & Hm & Hrest). rewrite Hp in *. split; simpl; rewrite ?E1, ?E4; try done.
    + apply Forall_app. by split; [|constructor].
    + exists a, f. rewrite E2, E3, messages_of_snoc, app_nil_r. done.
  - case_decide as Hp; [|done]. injection He as <-. apply Hgo; [by simpl; destruct (need_flush _ _)|].
    by apply add_message_Inv.
  - case_decide as Hp; [|done]. injection He as <-. apply Hgo; [by simpl; destruct (is_writing_ _)|].
    apply (move_Inv h y _ (fpc y)); [done| | |]; rewrite ?Hp; destruct (is_writing_ (writer y)); try done; intros; split_and!; try done; by intros [|].
  - unfold producer_step in He. destruct (ppc y) eqn:Hp; try done; try (destruct (locked y); [done|]; injection He as <-).
    + apply Hgo; [done|]. apply swap_Inv; auto.
    + apply Hgo; [by simpl; destruct (Chunk_empty _)|]. apply (move_Inv h y _ (fpc y)); [done| | |]; rewrite ?Hp; try (by destruct (Chunk_empty _)).
      intros a f Ha Hf Hm _ _ _. rewrite Hf, (flush_empty y a f) by done. case_bool_decide; split_and!; try done; by intros [|].
    + apply Hgo; [done|]. apply swap_Inv; auto.
    + apply Hgo; [by simpl; destruct (Chunk_empty _)|]. apply (move_Inv h y _ (fpc y)); [done| | |]; rewrite ?Hp; try (by destruct (Chunk_empty _)).
      intros a f Ha Hf Hm _ _ Hw. specialize (Hw eq_refl). subst a. rewrite Hf, (flush_empty y [] f) by done.
      case_bool_decide; split_and!; try done; by intros [|].
    + injection He as <-. apply Hgo; [done|]. destruct Hok as [H1 H2 (a & f & Ha & Hf & Hm & Heq & Hs & _) H4 H5 H6].
      destruct (Hs (or_introl Hp)) as [-> ->]. split; simpl; try done; [by destruct H1|]. exists [], []. by split_and!.
    + injection He as <-. apply Hgo; [done|]. apply (move_Inv h y PJoin (notify (fpc y))); rewrite ?Hp; try done.
      intros a f _ _ _ Hs _ _. split_and!; try done. intros _. by apply Hs; right.
    + case_decide as Hf; [|done]. injection He as <-. apply Hgo; [done|]. apply (move_Inv h y PTrailer (fpc y)); rewrite ?Hp; try done.
      intros a f _ _ _ Hs _ _. split_and!; try done. intros _. by apply Hs; right.
    + injection He as <-. unfold sys_ok. simpl. by apply trailer_closed.
  - assert (Hnt : ppc y = PTrailer → fpc y = FExit) by apply Hok. unfold flusher_step in He.
    assert (Hn : fpc y ≠ FExit → ppc y ≠ PTrailer) by auto. destruct (fpc y) eqn:Hf; try done.
    + injection He as <-. apply Hgo; [done|]. apply flush_Inv_fpc; [done|by apply Hn].
    + destruct (Chunk_empty (chunk_flush_ (writer y))) eqn:Hne, (is_writing_ (writer y)) eqn:Hw; simpl in He; injection He as <-;
        (apply Hgo; [done|]); try (apply flush_Inv_fpc; [done|by apply Hn]). by apply flush_chunk_Inv.
    + injection He as <-. apply Hgo; [done|]. apply flush_Inv_fpc; [done|by apply Hn].
  - assert (Hnt : ppc y = PTrailer → fpc y = FExit) by apply Hok. destruct (fpc y) eqn:Hf; try done. injection He as <-.
    apply Hgo; [done|]. apply flush_Inv_fpc; [done|]. intros Hp. by specialize (Hnt Hp).
Qed.

Lemma exec_written y l y' : exec y l = Some y' → written y `prefix_of` written y'.
Proof using Type.
  intros He. destruct l; simpl in He; unfold producer_step, flusher_step in He; done_cases; by eexists.
Qed.

Lemma run_written ls : ∀ y y', run exec y ls = Some y' → written y `prefix_of` written y'.
Proof using Type.
  induction ls as [|l ls IH]; simpl; intros y y' Hr; [by simplify_eq|]. destruct (exec y l) as [y1|] eqn:E; [|done].
  etrans; [by eapply exec_written|by apply IH].
Qed.

Lemma run_ok h ls : header_wf h →
  ∀ y y', bounded y' → sys_ok h y → run exec y ls = Some y' → sys_ok h y'.
Proof using header_size.
  intros Hfit. induction ls as [|l ls IH]; simpl; intros y y' Hb Hok Hr; [by simplify_eq|].
  destruct (exec y l) as [y1|] eqn:E; [|done]. apply (IH y1); [done| |done].
  apply (flush_exec_ok h y l); try done. pose proof (run_written _ _ _ Hr) as [z Hz]. destruct Hb as [Hb Ht].
  rewrite Hz in Hb, Ht. apply Forall_app in Ht as [Ht _]. split; [|done]. unfold zlen in *. rewrite length_app in Hb. lia.
Qed.

Lemma opened_ok old h : header_wf h → sys_ok h (opened old None h).
Proof using header_size.
  intros Hf%header_size. unfold sys_ok. simpl. split; simpl; try done.
  - by apply opened_holds.
  - rewrite WriteHeader_puts by done. exists [], []. simpl. split_and!; try done; by intros [|].
  - rewrite WriteHeader_puts by done. done.
  - rewrite WriteHeader_puts by done. done.
Qed.
(** ** [Close] can hang *)

(** Nobody but a spurious wake-up can go on. *)
Definition stuck (y : fsys) : Prop := ∀ l y', exec y l = Some y' → l = Wake.

Lemma hang_tail y :
  ppc y = PStop → fpc y = FTest → is_writing_ (writer y) = true → Chunk_empty (chunk_flush_ (writer y)) = true →
  ∃ y', run exec y [Flusher; Producer; Producer; Flusher] = Some y' ∧ ppc y' = PJoin ∧ fpc y' = FSleep ∧ items y' = items y ∧ stuck y'.
Proof using Type.
  destruct y as [w f p its ms r]. simpl. intros -> -> Hw He. cbn [run exec flusher_step fpc writer]. rewrite He, Hw.
  eexists. split; [reflexivity|]. split_and!; try done. intros l y'. by destruct l.
Qed.

(** Property: a wake-up of the flush thread can be lost: whenever the thread is asleep
    and nothing waits for it, there is a schedule of [Close] in which
    [is_writing_] is reset and [notify_all] called, both without the mutex,
    after the thread evaluated its predicate and before it is asleep again; then
    [Close] waits in [join] for ever and index and final header are never
    written. *)
Theorem close_can_hang y :
  ppc y = PIdle → fpc y = FSleep → is_writing_ (writer y) = true → Chunk_empty (chunk_flush_ (writer y)) = true →
  ∃ ls y', run exec y (CallClose :: ls) = Some y' ∧ ppc y' = PJoin ∧ fpc y' = FSleep ∧ stuck y' ∧
    items y' = items y ++ (if Chunk_empty (chunk_active_ (writer y)) then [] else
      [IChunk (ck_header (chunk_active_ (writer y))) (ck_body (chunk_active_ (writer y)))]).
Proof using Type.
  destruct y as [w f p its ms r]. cbn [ppc fpc writer items]. intros -> -> Hw He.
  destruct (Chunk_empty (chunk_active_ w)) eqn:Ha.
  - match goal with |- context [run exec ?y0 _] => set (y := y0) end.
    assert (H1 : ∃ y1, run exec y [CallClose; Producer; Producer; Producer] = Some y1 ∧ ppc y1 = PStop ∧ fpc y1 = FTest ∧
      is_writing_ (writer y1) = true ∧ Chunk_empty (chunk_flush_ (writer y1)) = true ∧ items y1 = its).
    { unfold y. simpl. rewrite Hw. simpl. rewrite He. simpl. rewrite Ha. simpl. eexists. split; [reflexivity|]. by split_and!. }
    destruct H1 as (y1 & R1 & P1 & F1 & W1 & E1 & I1). destruct (hang_tail y1 P1 F1 W1 E1) as (y2 & R2 & P2 & F2 & I2 & S2).
    exists ([Producer; Producer; Producer] ++ [Flusher; Producer; Producer; Flusher]), y2.
    change (CallClose :: _) with ([CallClose; Producer; Producer; Producer] ++ [Flusher; Producer; Producer; Flusher]).
    rewrite run_app, R1. split_and!; try done. rewrite app_nil_r. congruence.
  - match goal with |- context [run exec ?y0 _] => set (y := y0) end.
    destruct (flush_chunk_writing big_endian (swap_chunks w)) as [Hfw Hfc].
    assert (H1 : ∃ y1, run exec y [CallClose; Producer; Producer; Flusher; Flusher; Producer] = Some y1 ∧ ppc y1 = PStop ∧ fpc y1 = FTest ∧
      is_writing_ (writer y1) = true ∧ Chunk_empty (chunk_flush_ (writer y1)) = true ∧
      items y1 = its ++ [IChunk (ck_header (chunk_active_ w)) (ck_body (chunk_active_ w))]).
    { unfold y. simpl. rewrite Hw. simpl. rewrite He. simpl. unfold flusher_step at 1. simpl. rewrite Ha, Hw. simpl.
      rewrite Hfw. simpl. rewrite Hw. simpl. rewrite Hfc. simpl. eexists. split; [reflexivity|]. simpl. rewrite Hfw, Hfc. by split_and!. }
    destruct H1 as (y1 & R1 & P1 & F1 & W1 & E1 & I1). destruct (hang_tail y1 P1 F1 W1 E1) as (y2 & R2 & P2 & F2 & I2 & S2).
    exists ([Producer; Producer; Flusher; Flusher; Producer] ++ [Flusher; Producer; Producer; Flusher]), y2.
    change (CallClose :: _) with ([CallClose; Producer; Producer; Flusher; Flusher; Producer] ++ [Flusher; Producer; Producer; Flusher]).
    rewrite run_app, R1. split_and!; try done. congruence.
Qed.
End RecordFlush.

(** ** Concrete runs *)

#[local] Existing Instances packed_header packed_channel packed_chunk_header packed_chunk_body packed_index.

Definition after (y : fsys) (ls : list label) : fsys := default y (run (exec false) y ls).

(** A recording of two channels in which the thread writes each chunk before the
    next swap, and one in which it does not. *)
Definition message (c : string) (t : Z) : SingleMessage := mkMessage c t (replicate 6 1).

Definition example_start : fsys := opened false [7; 7; 7] None (example_header 0 10).

Definition example_calls : list label :=
  [CallChannel (mkChannel "pose" "Pose" "d1"); Flusher; CallMessage (message "pose" 5); CallChannel (mkChannel "scan" "Scan" "d2");
   CallMessage (message "scan" 7); Producer; Flusher; CallMessage (message "pose" 8); Flusher].

Definition example_close : list label :=
  [CallClose; Producer; Producer; Flusher; Flusher; Producer; Producer; Producer; Flusher; Producer; Producer].

Lemma example_asleep :
  let y := after example_start (example_calls ++ [Flusher; Flusher]) in
  run (exec false) example_start (example_calls ++ [Flusher; Flusher]) = Some y ∧
  ppc y = PIdle ∧ fpc y = FSleep ∧ is_writing_ (writer y) = true ∧ Chunk_empty (chunk_flush_ (writer y)) = true.
Proof. vm_compute. done. Qed.

Lemma close_can_hang_witness :
  ∃ y ls y', run (exec false) example_start (example_calls ++ [Flusher; Flusher]) = Some y ∧ run (exec false) y (CallClose :: ls) = Some y' ∧ stuck false y'.
Proof.
  pose proof example_asleep as H. cbv zeta in H. revert H. generalize (after example_start (example_calls ++ [Flusher; Flusher])) as y.
  intros y (R0 & P & F & W & E). destruct (close_can_hang false y P F W E) as (ls & y' & R & _ & _ & S & _). exists y, ls, y'.
  split; [exact R0|]. split; [exact R|exact S].
Defined.

Lemma example_closed :
  run (exec false) example_start (example_calls ++ example_close) = Some (after example_start (example_calls ++ example_close)) ∧
  ppc (after example_start (example_calls ++ example_close)) = PDone.
Proof. vm_compute. done. Qed.

(** Two chunks that are swapped before the thread runs at all, and what follows
    after the thread wrote the second. *)
Definition race_calls : list label :=
  [CallChannel (mkChannel "pose" "Pose" "d1"); CallMessage (message "pose" 1); CallMessage (message "pose" 2); Producer;
   CallMessage (message "pose" 3000000000); CallMessage (message "pose" 4000000000); Producer; Flusher; Flusher; Flusher; Flusher; Flusher].
