(* ===== verification/RecordReader.v ===== *)
(** * Reading a record file

    [RecordReader] ([src/code/cyber/record/record_reader.h], [.cc]): the
    messages of a file between two times, one after the other, the channels
    from the index.  A file that is laid out as [RecordFile] writes it is read
    like the list of its messages. *)

From stdpp Require Import base list strings gmap.
From S2P Require Import Prelude Message RecordFile RecordFlush.

Section RecordReader.
Context (big_endian : bool).
Context `{!Proto Header, !Proto Channel, !Proto ChunkHeader, !Proto ChunkBody, !Proto Index}.

(** A message that is read has the fields of one that is written. *)
Definition RecordMessage := SingleMessage.

Record RecordReader := mkRecordReader {
  file_reader_ : RecordFileReader; is_valid_ : bool; reach_end_ : bool; chunk_ : ChunkBody; message_index_ : nat;
  reader_header : Header; index_ : Index; channel_info_ : gmap string ChannelCache }.

Definition with_reader (fr : RecordFileReader) (r : RecordReader) : RecordReader :=
  mkRecordReader fr (is_valid_ r) (reach_end_ r) (chunk_ r) (message_index_ r) (reader_header r) (index_ r) (channel_info_ r).
Definition with_end (b : bool) (r : RecordReader) : RecordReader :=
  mkRecordReader (file_reader_ r) (is_valid_ r) b (chunk_ r) (message_index_ r) (reader_header r) (index_ r) (channel_info_ r).
Definition with_chunk (c : ChunkBody) (r : RecordReader) : RecordReader :=
  mkRecordReader (file_reader_ r) (is_valid_ r) (reach_end_ r) c (message_index_ r) (reader_header r) (index_ r) (channel_info_ r).
Definition with_message_index (i : nat) (r : RecordReader) : RecordReader :=
  mkRecordReader (file_reader_ r) (is_valid_ r) (reach_end_ r) (chunk_ r) i (reader_header r) (index_ r) (channel_info_ r).

(** [insert] keeps an entry that is there. *)
Definition insert_channel (m : gmap string ChannelCache) (i : SingleIndex) : gmap string ChannelCache :=
  if negb (si_type i =? SECTION_CHANNEL) then m
  else match si_cache i with
       | channel_cache c => match m !! cc_name c with Some _ => m | None => <[cc_name c := c]> m end
       | _ => m
       end.

(** The constructor; a file that cannot be opened leaves the reader invalid. *)
Definition RecordReader_new (path : option (list Z)) : RecordReader :=
  let '(fr, ok) := Reader_Open big_endian path in
  if negb ok then mkRecordReader fr false false [] 0 default_header [] ∅
  else
    let h := r_header fr in
    let '(fr, ok) := ReadIndex big_endian fr in
    let idx := if ok then r_index fr else [] in
    mkRecordReader (RecordFile.Reset fr) true false [] 0 h idx (foldl insert_channel ∅ idx).

Definition Reset (r : RecordReader) : RecordReader :=
  mkRecordReader (RecordFile.Reset (file_reader_ r)) (is_valid_ r) false [] 0 (reader_header r) (index_ r) (channel_info_ r).

Definition GetChannelList (r : RecordReader) : gset string := dom (channel_info_ r).

Definition GetMessageNumber (channel : string) (r : RecordReader) : Z :=
  match channel_info_ r !! channel with Some c => cc_message_number c | None => 0 end.
Definition GetMessageType (channel : string) (r : RecordReader) : string :=
  match channel_info_ r !! channel with Some c => cc_message_type c | None => EmptyString end.
Definition GetProtoDesc (channel : string) (r : RecordReader) : string :=
  match channel_info_ r !! channel with Some c => cc_proto_desc c | None => EmptyString end.

(** The loop of [ReadNextChunk]; [skip] is [skip_next_chunk_body].  [None]: the
    fuel is used up. *)
Fixpoint next_chunk (fuel : nat) (skip : bool) (begin_time end_time : Z) (r : RecordReader) : option (RecordReader * bool) :=
  match fuel with
  | O => None
  | S fuel =>
      if reach_end_ r then Some (r, false)
      else
        match ReadSection big_endian (file_reader_ r) with
        | (fr, None) => Some (with_reader fr r, false)
        | (fr, Some section) =>
            let type := sec_type section in
            let size := sec_size section in
            if type =? SECTION_INDEX then
              next_chunk fuel skip begin_time end_time (with_end true (with_reader (SkipSection size fr).1 r))
            else if type =? SECTION_CHANNEL then
              let '(fr, _, ok) := ReadMessageSection size (mkChannel EmptyString EmptyString EmptyString) fr in
              if negb ok then Some (with_reader fr r, false) else next_chunk fuel skip begin_time end_time (with_reader fr r)
            else if type =? SECTION_CHUNK_HEADER then
              let '(fr, header, ok) := ReadMessageSection size (mkChunkHeader 0 0 0 0) fr in
              if negb ok then Some (with_reader fr r, false)
              else
                let skip := if ch_end_time header <? begin_time then true else skip in
                if end_time <? ch_begin_time header then Some (with_reader fr r, false)
                else next_chunk fuel skip begin_time end_time (with_reader fr r)
            else if type =? SECTION_CHUNK_BODY then
              if skip then next_chunk fuel false begin_time end_time (with_reader (SkipSection size fr).1 r)
              else
                let '(fr, body, ok) := ReadMessageSection size ([] : ChunkBody) fr in
                Some (with_chunk body (with_reader fr r), ok)
            else Some (with_reader fr r, false)
        end
  end.

Definition ReadNextChunk (fuel : nat) (begin_time end_time : Z) (r : RecordReader) : option (RecordReader * bool) :=
  next_chunk fuel false begin_time end_time r.

(** The loop over the rest of a chunk: how far it goes, and whether it returns,
    and what. *)
Fixpoint scan (begin_time end_time : Z) (ms : list SingleMessage) (i : nat) : nat * option (option RecordMessage) :=
  match ms with
  | [] => (i, None)
  | m :: ms =>
      if end_time <? time m then (i, Some None)
      else if time m <? begin_time then scan begin_time end_time ms (S i)
      else (S i, Some (Some m))
  end.

(** [ReadMessage], with the fuel for its recursion and for each search. *)
Fixpoint ReadMessage (fuel : nat) (begin_time_ end_time_ : Z) (r : RecordReader) : option (RecordReader * option RecordMessage) :=
  match fuel with
  | O => None
  | S fuel' =>
      if negb (is_valid_ r) then Some (r, None)
      else if (end_time (reader_header r) <? begin_time_) || (end_time_ <? begin_time (reader_header r)) then Some (r, None)
      else
        match scan begin_time_ end_time_ (drop (message_index_ r) (chunk_ r)) (message_index_ r) with
        | (i, Some o) => Some (with_message_index i r, o)
        | (i, None) =>
            match ReadNextChunk fuel begin_time_ end_time_ (with_message_index i r) with
            | None => None
            | Some (r, true) => ReadMessage fuel' begin_time_ end_time_ (with_message_index 0 r)
            | Some (r, false) => Some (r, None)
            end
        end
  end.

(** All messages that a loop of [ReadMessage] gets. *)
Fixpoint read_all (fuel n : nat) (begin_time end_time : Z) (r : RecordReader) : option (RecordReader * list RecordMessage) :=
  match n with
  | O => None
  | S n =>
      match ReadMessage fuel begin_time end_time r with
      | None => None
      | Some (r, None) => Some (r, [])
      | Some (r, Some m) => match read_all fuel n begin_time end_time r with Some (r, ms) => Some (r, m :: ms) | None => None end
      end
  end.

(** ** A list that is read between two times *)

Definition drop_before (begin_time : Z) (ms : list SingleMessage) : list SingleMessage :=
  (fix go ms := match ms with [] => [] | m :: ms' => if time m <? begin_time then go ms' else ms end) ms.

Definition spec_read (begin_time end_time : Z) (ms : list SingleMessage) : list SingleMessage * option SingleMessage :=
  match drop_before begin_time ms with
  | [] => ([], None)
  | m :: ms => if time m <=? end_time then (ms, Some m) else (m :: ms, None)
  end.

Lemma drop_before_app b ms ms' : Forall (λ m, time m < b) ms → drop_before b (ms ++ ms') = drop_before b ms'.
Proof using Type.
  induction 1 as [|m ms Hm _ IH]; [done|]. simpl. by rewrite (proj2 (Z.ltb_lt _ _) Hm).
Qed.

Lemma drop_before_twice b b' ms : b ≤ b' → drop_before b' (drop_before b ms) = drop_before b' ms.
Proof using Type.
  intros Hb. induction ms as [|m ms IH]; [done|]. simpl. destruct (time m <? b) eqn:E; [|done].
  rewrite IH. apply Z.ltb_lt in E. by rewrite (proj2 (Z.ltb_lt _ _)) by lia.
Qed.

(** The loop over a chunk. *)
Lemma chunk_scan_spec b e ms i :
  b ≤ e →
  match scan b e ms i with
  | (j, None) => j = (i + length ms)%nat ∧ Forall (λ m, time m < b) ms
  | (j, Some o) => ∃ k, j = (i + k)%nat ∧ (k ≤ length ms)%nat ∧ (drop k ms ≠ [] ∨ o ≠ None) ∧ ∀ ms', spec_read b e (ms ++ ms') = (drop k ms ++ ms', o)
  end.
Proof using Type.
  intros Hbe. revert i. induction ms as [|m ms IH]; intros i; simpl; [split; [lia|done]|].
  destruct (e <? time m) eqn:E1; [|destruct (time m <? b) eqn:E2].
  - exists 0%nat. split_and!; [lia|lia|by left|]. intros ms'. apply Z.ltb_lt in E1. unfold spec_read. simpl.
    rewrite (proj2 (Z.ltb_ge _ _)) by lia. by rewrite (proj2 (Z.leb_gt _ _)) by lia.
  - specialize (IH (S i)). destruct (scan b e ms (S i)) as [j [o|]].
    + destruct IH as (k & -> & Hk & Hne & Hs). exists (S k). split_and!; [lia|simpl; lia|done|]. intros ms'. unfold spec_read. simpl. rewrite E2. apply Hs.
    + destruct IH as [-> Hf]. split; [lia|]. constructor; [by apply Z.ltb_lt|done].
  - exists 1%nat. split_and!; [lia|simpl; lia|by right|]. intros ms'. unfold spec_read. simpl. rewrite E2. apply Z.ltb_ge in E1.
    rewrite (proj2 (Z.leb_le _ _)) by lia. rewrite drop_0. done.
Qed.

(** ** Where a reader is in a file *)

(** The header of a chunk bounds the times of its messages. *)
Definition honest (i : item) : Prop :=
  match i with
  | IChannel _ => True
  | IChunk c b => b ≠ [] ∧ Forall (λ m, ch_begin_time c ≤ time m ≤ ch_end_time c) b
  end.

(** No section is empty, or too large. *)
Definition small (i : item) : Prop := Forall (λ s, section_ok s ∧ 0 < zlen s.2) (sections_of i).

Context `{!ProtoLaws Channel, !ProtoLaws ChunkHeader, !ProtoLaws ChunkBody}.

Definition pending_bytes (p : option ChunkBody) : list Z := match p with Some b => encode big_endian (SECTION_CHUNK_BODY, serialize b) | None => [] end.

(** The chunk body [p], if its header was read, the items [its] and the index
    [idx] are still to come. *)
Record positioned (idx : Index) (p : option ChunkBody) (its : list item) (r : RecordReader) : Prop := {
  pn_small : Forall small its ∧ zlen (serialize idx) < 2 ^ 31 ∧ (∀ b, p = Some b → 0 < zlen (serialize b) < 2 ^ 31);
  pn_honest : Forall honest its;
  pn_length : zlen (bytes (r_file (file_reader_ r))) < 2 ^ 63;
  pn_place :
    if reach_end_ r then p = None ∧ its = []
    else reads_at (pos (r_file (file_reader_ r)))
      (pending_bytes p ++ items_bytes big_endian its ++ encode big_endian (SECTION_INDEX, serialize idx))
      (bytes (r_file (file_reader_ r)));
}.

(** The messages to come after the chunk that was read. *)
Definition to_come (p : option ChunkBody) (its : list item) : list SingleMessage := default [] p ++ messages_of its.

Definition cost (p : option ChunkBody) (its : list item) (r : RecordReader) : nat :=
  (2 * length its + (if p then 1 else 0) + (if reach_end_ r then 0 else 1))%nat.

Lemma reads_at_range p x l : reads_at p x l → 0 ≤ p ∧ p + zlen x ≤ zlen l.
Proof using Type. intros (a & b & -> & ->). unfold zlen. rewrite !length_app. lia. Qed.

(** A reader moves over bytes it has read. *)
Lemma move_reads r x y n lim e :
  n = zlen x → reads_at (pos (r_file (file_reader_ r))) (x ++ y) (bytes (r_file (file_reader_ r))) →
  let r' := with_reader (mkReader (mkFile (bytes (r_file (file_reader_ r))) (pos (r_file (file_reader_ r)) + n) lim)
              (r_header (file_reader_ r)) (r_index (file_reader_ r)) e) r in
  reads_at (pos (r_file (file_reader_ r'))) y (bytes (r_file (file_reader_ r'))).
Proof using Type. intros -> H. simpl. by apply reads_at_next. Qed.

Lemma SkipSection_moves n fr x y :
  reads_at (pos (r_file fr)) (x ++ y) (bytes (r_file fr)) → zlen (bytes (r_file fr)) < 2 ^ 63 → n = zlen x →
  (SkipSection n fr).1 = on_file (mkFile (bytes (r_file fr)) (pos (r_file fr) + n) (limit (r_file fr))) fr.
Proof using Type.
  intros H Hl ->. pose proof (reads_at_range _ _ _ H) as [H0 H1]. pose proof (zlen_nonneg x). pose proof (zlen_nonneg y).
  unfold zlen in H1 at 1. rewrite length_app in H1. unfold SkipSection, CurrentPosition. unfold zlen in *.
  rewrite (proj2 (Z.ltb_ge _ _)) by lia. unfold SetPosition. rewrite (proj2 (Z.ltb_ge _ _)) by lia. done.
Qed.

(** Reading the next section, and its message. *)
Lemma section_here r s y :
  section_ok s → reads_at (pos (r_file (file_reader_ r))) (encode big_endian s ++ y) (bytes (r_file (file_reader_ r))) →
  let fr := on_file (mkFile (bytes (r_file (file_reader_ r))) (pos (r_file (file_reader_ r)) + 16) (limit (r_file (file_reader_ r)))) (file_reader_ r) in
  ReadSection big_endian (file_reader_ r) = (fr, Some (mkSection s.1 (zlen s.2))) ∧
  reads_at (pos (r_file fr)) (s.2 ++ y) (bytes (r_file fr)).
Proof using Type.
  intros Hs Hr fr. split; [by apply (ReadSection_reads big_endian _ s y)|]. unfold encode in Hr. rewrite <- (assoc_L (++)) in Hr.
  apply reads_at_next in Hr. rewrite zlen_Section_bytes in Hr. exact Hr.
Qed.

(** What [next_chunk] comes to: the next chunk that is not over before [b], or,
    if that starts after [e] or there is none, nothing. *)
Lemma next_chunk_spec idx fuel : ∀ skip b e r p its,
  b ≤ e → positioned idx p its r → (cost p its r < fuel)%nat →
  (skip = true → ∃ body, p = Some body ∧ Forall (λ m, time m < b) body) →
  ∃ r' found p' its', next_chunk fuel skip b e r = Some (r', found) ∧ positioned idx p' its' r' ∧
    is_valid_ r' = is_valid_ r ∧ reader_header r' = reader_header r ∧ message_index_ r' = message_index_ r ∧
    (cost p' its' r' + (if found then 1 else 0) ≤ cost p its r)%nat ∧
    ∃ pre, Forall (λ m, time m < b) pre ∧
    (if found then p' = None ∧ to_come p its = pre ++ chunk_ r' ++ to_come p' its'
     else chunk_ r' = chunk_ r ∧ to_come p its = pre ++ to_come p' its' ∧
       spec_read b e (to_come p' its') = (to_come p' its', None)).
Proof using ProtoLaws0 ProtoLaws1 ProtoLaws2.
  induction fuel as [|fuel IH]; intros skip b e r p its Hbe [Hsm Hh Hlen Hpl] Hc Hskip; [lia|].
  cbn [next_chunk]. destruct (reach_end_ r) eqn:Hend.
  { destruct Hpl as [-> ->]. exists r, false, None, []. split_and!; try done; [|lia|by exists []]. split; try done. by rewrite Hend. }
  destruct Hsm as (Hs1 & Hs2 & Hs3).
  destruct p as [body|].
  - (* the body of a chunk *)
    assert (Hok : section_ok (SECTION_CHUNK_BODY, serialize body)) by (split; [done|]; simpl; destruct (Hs3 body eq_refl); lia).
    simpl in Hpl. rewrite <- ?(assoc_L (++)) in Hpl. destruct (section_here r _ _ Hok Hpl) as [-> Hr]. simpl.
    destruct skip.
    + destruct (Hskip eq_refl) as (body' & [= <-] & Hb).
      rewrite (SkipSection_moves (zlen (serialize body)) _ _ _ Hr) by done. simpl.
      match goal with |- context [next_chunk fuel false b e ?z] => destruct (IH false b e z None its) as (r' & found & p' & its' & E & H1 & H2 & H3 & H4 & H5 & pre & Hpre & H6) end; try done.
      * split; simpl; try done. rewrite Hend. apply reads_at_next in Hr. simpl in Hr. exact Hr.
      * unfold cost in *. simpl. rewrite Hend in *. lia.
      * exists r', found, p', its'. split_and!; try done; [unfold cost in *; simpl in *; rewrite ?Hend in *; lia|].
        exists (body ++ pre). split; [by apply Forall_app|].
        change (to_come (Some body) its) with (body ++ to_come None its). destruct found.
        -- destruct H6 as [? ->]. by rewrite <- ?(assoc_L (++)).
        -- destruct H6 as (? & -> & ?). by rewrite <- ?(assoc_L (++)).
    + erewrite ReadMessageSection_reads; [|by apply Hs3|exact Hr]. simpl.
      eexists _, true, None, its. split; [reflexivity|]. split; [|split_and!; try done].
      * split; simpl; try done. rewrite Hend. apply reads_at_next in Hr. exact Hr.
      * unfold cost. simpl. rewrite Hend. lia.
      * by exists [].
  - destruct skip; [by destruct (Hskip eq_refl) as (? & ? & _)|].
    simpl in Hpl. destruct its as [|[c|c body] its].
    + (* the index *)
      assert (Hok : section_ok (SECTION_INDEX, serialize idx)) by done.
      change (items_bytes big_endian []) with (@nil Z) in Hpl. rewrite app_nil_l in Hpl. rewrite <- (app_nil_r (encode _ _)) in Hpl.
      destruct (section_here r _ _ Hok Hpl) as [-> Hr]. simpl.
      rewrite (SkipSection_moves (zlen (serialize idx)) _ _ _ Hr) by done. simpl.
      match goal with |- context [next_chunk fuel false b e ?z] => destruct (IH false b e z None []) as (r' & found & p' & its' & E & H1 & H2 & H3 & H4 & H5 & pre & Hpre & H6) end; try done.
      * unfold cost in *. simpl in *. rewrite Hend in *. lia.
      * exists r', found, p', its'. split_and!; try done; [|by exists pre]. unfold cost in *. simpl in *. rewrite ?Hend in *. lia.
    + (* a channel *)
      apply Forall_cons in Hs1 as [Hc1 Hs1]. apply Forall_cons in Hh as [_ Hh]. unfold small in Hc1. simpl in Hc1. apply Forall_cons in Hc1 as [[Hok Hpos0] _].
      change (IChannel c :: its) with ([IChannel c] ++ its) in Hpl. rewrite items_bytes_app, <- (assoc_L (++)) in Hpl.
      unfold items_bytes at 1, encode_all in Hpl. simpl in Hpl. rewrite app_nil_r in Hpl.
      destruct (section_here r _ _ Hok Hpl) as [-> Hr]. simpl.
      erewrite ReadMessageSection_reads; [|by destruct Hok|exact Hr]. simpl.
      match goal with |- context [next_chunk fuel false b e ?z] => destruct (IH false b e z None its) as (r' & found & p' & its' & E & H1 & H2 & H3 & H4 & H5 & pre & Hpre & H6) end; try done.
      * split; simpl; try done. rewrite Hend. by apply reads_at_next in Hr.
      * unfold cost in *. simpl in *. rewrite Hend in *. lia.
      * exists r', found, p', its'. split_and!; try done; [|by exists pre]. unfold cost in *. simpl in *. rewrite ?Hend in *. lia.
    + (* the header of a chunk *)
      apply Forall_cons in Hs1 as [Hc1 Hs1]. apply Forall_cons in Hh as [[Hne Hh1] Hh]. unfold small in Hc1. simpl in Hc1.
      apply Forall_cons in Hc1 as [[Hok Hpos1] Hok2]. apply Forall_cons in Hok2 as [[Hok2 Hpos2] _].
      change (IChunk c body :: its) with ([IChunk c body] ++ its) in Hpl. rewrite items_bytes_app, <- (assoc_L (++)) in Hpl.
      unfold items_bytes at 1, encode_all in Hpl. simpl in Hpl. rewrite app_nil_r, <- (assoc_L (++)) in Hpl.
      destruct (section_here r _ _ Hok Hpl) as [-> Hr]. simpl.
      erewrite ReadMessageSection_reads; [|by destruct Hok|exact Hr]. simpl.
      match goal with |- context [with_reader ?f r] => set (fr := f) end.
      assert (Hpos : positioned idx (Some body) its (with_reader fr r)).
      { split; simpl; try done; [|rewrite Hend; by apply reads_at_next in Hr]. split; [done|]. split; [done|]. intros b' [= <-]. split; [done|]. by destruct Hok2. }
      assert (Hcost : (cost (Some body) its (with_reader fr r) < fuel)%nat) by (unfold cost in *; simpl in *; rewrite Hend in *; lia).
      destruct (e <? ch_begin_time c) eqn:Ebe.
      * apply Z.ltb_lt in Ebe. exists (with_reader fr r), false, (Some body), its. split_and!; try done.
        -- unfold cost in *. simpl in *. rewrite Hend in *. lia.
        -- exists []. split_and!; try done. destruct body as [|m body]; [done|]. apply Forall_cons in Hh1 as [Hm _]. unfold to_come, spec_read. simpl.
           rewrite (proj2 (Z.ltb_ge _ _)) by lia. by rewrite (proj2 (Z.leb_gt _ _)) by lia.
      * destruct (IH (if ch_end_time c <? b then true else false) b e (with_reader fr r) (Some body) its Hbe Hpos Hcost) as (r' & found & p' & its' & E & H1 & H2 & H3 & H4 & H5 & pre & Hpre & H6).
        { destruct (ch_end_time c <? b) eqn:Eeb; [|done]. intros _. exists body. split; [done|]. apply Z.ltb_lt in Eeb.
          eapply Forall_impl; [exact Hh1|]. simpl. lia. }
        exists r', found, p', its'. split_and!; try done; [|by exists pre]. unfold cost in *. simpl in *. rewrite ?Hend in *. lia.
Qed.

(** ** Reading messages *)

(** All that is still to be read. *)
Definition rest (p : option ChunkBody) (its : list item) (r : RecordReader) : list SingleMessage :=
  drop (message_index_ r) (chunk_ r) ++ to_come p its.

(** A valid reader between the items of a file. *)
Record at_items (idx : Index) (p : option ChunkBody) (its : list item) (r : RecordReader) : Prop := {
  ai_valid : is_valid_ r = true;
  ai_place : positioned idx p its r;
}.

(** The header of the file bounds the times, or the window meets its bounds. *)
Definition in_window (b e : Z) (p : option ChunkBody) (its : list item) (r : RecordReader) : Prop :=
  (b ≤ end_time (reader_header r) ∧ begin_time (reader_header r) ≤ e) ∨
  Forall (λ m, begin_time (reader_header r) ≤ time m ≤ end_time (reader_header r)) (rest p its r).

Lemma drop_before_all b ms : Forall (λ m, time m < b) ms → drop_before b ms = [].
Proof using Type. intros H. rewrite <- (app_nil_r ms). by rewrite drop_before_app. Qed.

Lemma drop_before_none b ms : Forall (λ m, b ≤ time m) ms → drop_before b ms = ms.
Proof using Type. intros [|m l Hm _]; [done|]. simpl. by rewrite (proj2 (Z.ltb_ge _ _)). Qed.

Lemma spec_read_before b e ms ms' : drop_before b ms = drop_before b ms' → spec_read b e ms = spec_read b e ms'.
Proof using Type. unfold spec_read. by intros ->. Qed.

Lemma positioned_chunk idx p its r r' :
  file_reader_ r' = file_reader_ r → reach_end_ r' = reach_end_ r → positioned idx p its r → positioned idx p its r'.
Proof using Type. intros E1 E2 [H1 H2 H3 H4]. split; rewrite ?E1, ?E2; done. Qed.

(** What remains after a read is what the specification leaves, up to messages
    before the window. *)
Lemma ReadMessage_spec idx fuel : ∀ b e r p its,
  b ≤ e → at_items idx p its r → in_window b e p its r → (cost p its r < fuel)%nat →
  ∃ r' o p' its' pre, ReadMessage fuel b e r = Some (r', o) ∧ at_items idx p' its' r' ∧ (cost p' its' r' ≤ cost p its r)%nat ∧
    reader_header r' = reader_header r ∧ Forall (λ m, time m < b) pre ∧
    rest p its r = pre ++ (match o with Some m => [m] | None => [] end) ++ rest p' its' r' ∧
    o = (spec_read b e (rest p its r)).2 ∧
    drop_before b (rest p' its' r') = drop_before b (spec_read b e (rest p its r)).1.
Proof using ProtoLaws0 ProtoLaws1 ProtoLaws2.
  induction fuel as [|fuel IH]; intros b e r p its Hbe [Hv Hpl] Hin Hc; [lia|]. cbn [ReadMessage]. rewrite Hv. cbn [negb].
  destruct ((end_time (reader_header r) <? b) || (e <? begin_time (reader_header r))) eqn:Hout.
  { exists r, None, p, its, []. split; [done|]. split; [done|]. split; [done|]. split; [done|]. split; [done|]. split; [done|].
    apply orb_true_iff in Hout. assert (Ht : Forall (λ m, begin_time (reader_header r) ≤ time m ≤ end_time (reader_header r)) (rest p its r)).
    { destruct Hin as [[]|]; [|done]. destruct Hout as [Ho%Z.ltb_lt|Ho%Z.ltb_lt]; lia. }
    destruct Hout as [H%Z.ltb_lt|H%Z.ltb_lt].
    - assert (Hall : Forall (λ m, time m < b) (rest p its r)) by (eapply Forall_impl; [exact Ht|]; simpl; lia).
      unfold spec_read. rewrite (drop_before_all b _ Hall). done.
    - destruct (rest p its r) as [|m ms] eqn:Er; [done|]. apply Forall_cons in Ht as [Hm _]. unfold spec_read. simpl.
      rewrite (proj2 (Z.ltb_ge (time m) b)) by lia. rewrite (proj2 (Z.leb_gt _ _)) by lia. simpl.
      by rewrite (proj2 (Z.ltb_ge (time m) b)) by lia. }
  apply orb_false_iff in Hout as [Ho1%Z.ltb_ge Ho2%Z.ltb_ge].
  pose proof (chunk_scan_spec b e (drop (message_index_ r) (chunk_ r)) (message_index_ r) Hbe) as Hscan.
  destruct (scan b e _ _) as [j [o|]].
  - destruct Hscan as (k & -> & Hk & _ & Hs). specialize (Hs (to_come p its)).
    set (ms := drop (message_index_ r) (chunk_ r)) in *.
    assert (Hrest : rest p its (with_message_index (message_index_ r + k) r) = drop k ms ++ to_come p its).
    { unfold rest, ms. simpl. by rewrite drop_drop. }
    fold (rest p its r) in Hs. change (ms ++ to_come p its) with (rest p its r) in Hs. rewrite Hs. simpl.
    (* what is skipped lies before the window *)
    assert (Hpre : ∃ pre, Forall (λ m, time m < b) pre ∧ rest p its r = pre ++ match o with Some m => [m] | None => [] end ++ drop k ms ++ to_come p its).
    { clear -Hs. unfold spec_read in Hs. revert Hs. generalize (rest p its r) as l, (drop k ms ++ to_come p its) as l'. intros l l'.
      assert (Hd : ∃ pre, Forall (λ m, time m < b) pre ∧ l = pre ++ drop_before b l).
      { induction l as [|m l (pre & H1 & H2)]; [by exists []|]. simpl. destruct (time m <? b) eqn:E; [|by exists []].
        exists (m :: pre). split; [by constructor; [apply Z.ltb_lt|]|]. by rewrite H2 at 1. }
      destruct Hd as (pre & H1 & H2). intros Hs. exists pre. split; [done|]. rewrite H2 at 1. f_equal.
      destruct (drop_before b l) as [|m l0]; [by injection Hs as <- <-|]. destruct (time m <=? e); by injection Hs as <- <-. }
    destruct Hpre as (pre & Hpre & Hrest').
    exists (with_message_index (message_index_ r + k) r), o, p, its, pre. rewrite Hrest. split_and!; try done.
    split; [done|by apply (positioned_chunk _ _ _ r)].
  - destruct Hscan as [-> Hms]. set (ms := drop (message_index_ r) (chunk_ r)) in *.
    set (r0 := with_message_index _ r).
    assert (Hr0 : drop (message_index_ r0) (chunk_ r0) = []).
    { unfold r0, ms. simpl. rewrite length_drop. apply drop_ge. lia. }
    assert (Hpl0 : positioned idx p its r0) by (by apply (positioned_chunk _ _ _ r)).
    destruct (next_chunk_spec idx (S fuel) false b e r0 p its Hbe Hpl0 Hc ltac:(done))
      as (r' & found & p' & its' & E & H1 & H2 & H3 & H4 & H5 & pre & Hpre & H6).
    unfold ReadNextChunk. rewrite E. assert (Hb : drop_before b (rest p its r) = drop_before b (to_come p its)) by (by unfold rest; rewrite drop_before_app).
    destruct found.
    + destruct H6 as [-> H6]. set (r1 := with_message_index 0 r').
      assert (Hr1 : rest None its' r1 = chunk_ r' ++ to_come None its') by done.
      assert (Hai : at_items idx None its' r1).
      { split; [by simpl; rewrite H2|by apply (positioned_chunk _ _ _ r')]. }
      assert (Hin1 : in_window b e None its' r1) by (left; simpl; by rewrite H3).
      assert (Hc1 : (cost None its' r1 < fuel)%nat) by (unfold cost in *; simpl in *; lia).
      destruct (IH b e r1 None its' Hbe Hai Hin1 Hc1) as (r2 & o & p2 & its2 & pre2 & F1 & F2 & F3 & F4 & F5 & F6 & F7 & F8).
      exists r2, o, p2, its2, (ms ++ pre ++ pre2). split; [done|]. split; [done|]. split; [unfold cost in *; simpl in *; lia|].
      split; [by rewrite F4|]. split; [by rewrite !Forall_app|].
      assert (Hsp : spec_read b e (rest p its r) = spec_read b e (rest None its' r1)).
      { apply spec_read_before. rewrite Hb, H6, Hr1. by apply drop_before_app. }
      rewrite Hsp. split_and!; [|done|done]. unfold rest at 1. rewrite H6, <- Hr1, F6, <- !(assoc_L (++)). done.
    + destruct H6 as (H6 & H7 & H8). exists r', None, p', its', (ms ++ pre).
      assert (Hr' : rest p' its' r' = to_come p' its') by (unfold rest; by rewrite H4, H6, Hr0).
      split; [done|]. split; [|split; [unfold cost in *; simpl in *; lia|]].
      { split; [by rewrite H2|done]. }
      split; [by rewrite H3|]. split; [by apply Forall_app|].
      assert (Hsp : spec_read b e (rest p its r) = spec_read b e (to_come p' its')).
      { apply spec_read_before. rewrite Hb, H7. by apply drop_before_app. }
      rewrite Hsp, H8, Hr'. split_and!; [|done|done]. unfold rest at 1. by rewrite H7, <- !(assoc_L (++)).
Qed.

Lemma in_window_suffix b b' e e' p its r p' its' r' pre :
  b ≤ b' → e ≤ e' → reader_header r' = reader_header r → rest p its r = pre ++ rest p' its' r' →
  Forall (λ m, begin_time (reader_header r) ≤ time m ≤ end_time (reader_header r)) (rest p its r) → in_window b' e' p' its' r'.
Proof using Type. intros _ _ Hh Hr Ht. right. rewrite Hh. rewrite Hr in Ht. by apply Forall_app in Ht as [_ ?]. Qed.

(** Reading a window that has everything. *)
Lemma read_all_everything idx fuel n : ∀ b e r p its,
  at_items idx p its r → b ≤ e → b ≤ end_time (reader_header r) → begin_time (reader_header r) ≤ e →
  Forall (λ m, b ≤ time m ≤ e) (rest p its r) → (cost p its r < fuel)%nat → (length (rest p its r) < n)%nat →
  ∃ r', read_all fuel n b e r = Some (r', rest p its r).
Proof using ProtoLaws0 ProtoLaws1 ProtoLaws2.
  induction n as [|n IH]; intros b e r p its Hai Hbe H1 H2 Ht Hc Hn; [lia|]. cbn [read_all].
  destruct (ReadMessage_spec idx fuel b e r p its Hbe Hai ltac:(by left) Hc) as (r' & o & p' & its' & pre & -> & A1 & A2 & A3 & A4 & A5 & A6 & A7).
  assert (Hpre : pre = []).
  { destruct pre as [|m pre]; [done|]. apply Forall_cons in A4 as [Hm _]. rewrite A5 in Ht. apply Forall_cons in Ht as [Ht _]. lia. }
  subst pre. simpl in A5. unfold spec_read in A6.
  rewrite drop_before_none in A6 by (eapply Forall_impl; [exact Ht|]; simpl; lia).
  destruct o as [m|].
  - rewrite A5 in Ht, Hn. simpl in Ht, Hn. apply Forall_cons in Ht as [_ Ht].
    destruct (IH b e r' p' its') as [r2 ->]; rewrite ?A3; try done; [lia|lia|]. exists r2. by rewrite A5.
  - destruct (rest p its r) as [|m l] eqn:Er; [by eexists|]. exfalso. apply Forall_cons in Ht as [Ht _].
    rewrite (proj2 (Z.leb_le _ _)) in A6 by lia. done.
Qed.

(** ** The reader of a finished file *)

Context `{!ProtoLaws Header, !ProtoLaws Index}.

Lemma RecordReader_opens h its idx l :
  laid_out big_endian h its idx l → zlen l < 2 ^ 63 → zlen (serialize idx) < 2 ^ 31 →
  RecordReader_new (Some l) = mkRecordReader (mkReader (mkFile l (Z.of_nat start) None) h idx false) true false [] 0 h idx (foldl insert_channel ∅ idx).
Proof using ProtoLaws3 ProtoLaws4.
  intros Hl Hlen Hidx. pose proof Hl as (Hc & Hp & Hf & tail & El).
  assert (Hsz : Z.of_nat start + zlen (items_bytes big_endian its) < 2 ^ 63).
  { rewrite El in Hlen. unfold zlen in *. rewrite !length_app, (length_head_block _ _ Hf) in Hlen. lia. }
  unfold RecordReader_new. rewrite El at 1. rewrite (Open_header big_endian h _ Hf), <- El. simpl negb. cbv iota.
  simpl r_header. rewrite (ReadIndex_index big_endian h its idx l Hl Hsz Hidx). done.
Qed.

Lemma opened_at_items h its idx l :
  laid_out big_endian h its idx l → zlen l < 2 ^ 63 → zlen (serialize idx) < 2 ^ 31 → Forall small its → Forall honest its →
  at_items idx None its (RecordReader_new (Some l)) ∧ rest None its (RecordReader_new (Some l)) = messages_of its.
Proof using ProtoLaws3 ProtoLaws4.
  intros Hl Hlen Hidx Hs Hh. rewrite (RecordReader_opens _ _ _ _ Hl Hlen Hidx). split; [|done]. split; [done|].
  split; simpl; try done. destruct Hl as (_ & _ & Hf & tail & ->). exists (head_block big_endian h), tail.
  rewrite <- !(assoc_L (++)). split; [done|]. unfold zlen. by rewrite (length_head_block _ _ Hf).
Qed.

(** The chunks of [RecordFileWriter] are honest when no time is 0. *)
Lemma chunk_of_honest b : Forall (λ m, 0 < time m) b →
  Forall (λ m, ch_begin_time (ck_header (chunk_of b)) ≤ time m ≤ ch_end_time (ck_header (chunk_of b))) b ∧
  (b ≠ [] → 0 < ch_begin_time (ck_header (chunk_of b))).
Proof using Type.
  induction b as [|m b IH] using rev_ind; intros Hb; [done|]. apply Forall_app in Hb as [Hb Hm]. apply Forall_cons in Hm as [Hm _].
  destruct (IH Hb) as [H1 H2]. rewrite chunk_of_snoc. simpl.
  set (c := ck_header (chunk_of b)) in *.
  assert (Hc0 : b = [] ∨ 0 < ch_begin_time c) by (destruct b; [by left|right; by apply H2]).
  assert (Hbeg : ∀ x, x = (if (time m <? (if ch_begin_time c =? 0 then time m else ch_begin_time c)) then time m else if ch_begin_time c =? 0 then time m else ch_begin_time c) →
    0 < x ∧ x ≤ time m ∧ (b = [] ∨ x ≤ ch_begin_time c)).
  { intros x ->. destruct (Z.eqb_spec (ch_begin_time c) 0) as [E|E].
    - rewrite Z.ltb_irrefl. destruct Hc0; [|lia]. split_and!; [lia|lia|by left].
    - destruct (Z.ltb_spec (time m) (ch_begin_time c)); destruct Hc0 as [->|Hc0]; split_and!; try lia; try (by left); try (right; lia); by destruct E. }
  destruct (Hbeg _ eq_refl) as (X1 & X2 & X3). split; [|done].
  assert (He : time m ≤ (if ch_end_time c <? time m then time m else ch_end_time c) ∧ ch_end_time c ≤ (if ch_end_time c <? time m then time m else ch_end_time c))
    by (destruct (Z.ltb_spec (ch_end_time c) (time m)); lia).
  apply Forall_app. split; [|constructor; [lia|done]].
  destruct X3 as [->|X3]; [done|]. eapply Forall_impl; [exact H1|]. simpl. intros. lia.
Qed.

Lemma items_honest its : Forall item_ok its → Forall (λ m, 0 < time m) (messages_of its) → Forall honest its.
Proof using Type.
  induction 1 as [|i its Hi _ IH]; [done|]. unfold messages_of. simpl. intros [Hb Hr]%Forall_app. constructor; [|by apply IH].
  destruct i as [c|c b]; [done|]. simpl in *. destruct Hi as [Hi Hne]. split; [done|].
  pose proof (chunk_of_honest b Hb) as [H _]. by rewrite <- Hi in H.
Qed.

(** ** Channels *)

Definition first_channel (n : string) (its : list item) : option Channel :=
  head (omap (λ i, match i with IChannel c => if decide (name c = n) then Some c else None | IChunk _ _ => None end) its).

Lemma channel_info_of numbers its n : ∀ p m,
  foldl insert_channel m (fill_number numbers <$> index_of big_endian p its) !! n =
  match m !! n with
  | Some c => Some c
  | None => (λ c, mkChannelCache (default 0 (numbers !! n)) n (message_type c) (proto_desc c)) <$> first_channel n its
  end.
Proof using Type.
  unfold first_channel. induction its as [|[c|c b] its IH]; intros p m; simpl.
  - by destruct (m !! n).
  - rewrite IH. unfold insert_channel, fill_number. simpl.
    assert (Hcc : cc_name (mkChannelCache (default 0 (numbers !! name c)) (name c) (message_type c) (proto_desc c)) = name c) by done.
    destruct (numbers !! name c) as [k|] eqn:Ek; simpl; destruct (m !! name c) as [d|] eqn:Em; case_decide as E; simplify_eq/=;
      rewrite ?Em, ?lookup_insert_eq, ?Ek; try done; by rewrite lookup_insert_ne.
  - rewrite IH. done.
Qed.

(** Property: a damaged file can hang its reader: where the body of a chunk that is
    skipped has the size that leads back to the header of the chunk, the search
    for the next chunk does not end, whatever the fuel. *)
Theorem damaged_section_loops_for_ever c b e r fuel :
  reach_end_ r = false → 0 < zlen (serialize c) < 2 ^ 31 → zlen (bytes (r_file (file_reader_ r))) < 2 ^ 63 →
  ch_end_time c < b → ch_begin_time c ≤ e →
  reads_at (pos (r_file (file_reader_ r)))
    (encode big_endian (SECTION_CHUNK_HEADER, serialize c) ++ Section_bytes big_endian (mkSection SECTION_CHUNK_BODY (- (32 + zlen (serialize c)))))
    (bytes (r_file (file_reader_ r))) →
  ReadNextChunk fuel b e r = None.
Proof using ProtoLaws1.
  unfold ReadNextChunk. revert r. induction (lt_wf fuel) as [fuel _ IH]. intros r Hend Hs Hlen He Hb Hr.
  destruct fuel as [|fuel]; [done|]. cbn [next_chunk]. rewrite Hend.
  assert (Hok : section_ok (SECTION_CHUNK_HEADER, serialize c)) by (split; [done|apply Hs]).
  destruct (section_here r _ _ Hok Hr) as [-> Hr1]. simpl.
  erewrite ReadMessageSection_reads; [|done|exact Hr1]. simpl. rewrite (proj2 (Z.ltb_lt _ _) He), (proj2 (Z.ltb_ge _ _) Hb).
  destruct fuel as [|fuel]; [done|]. cbn [next_chunk]. simpl reach_end_. rewrite Hend.
  apply reads_at_next in Hr1. simpl in Hr1. pose proof (zlen_nonneg (serialize c)) as Hz.
  rewrite <- (app_nil_r (Section_bytes _ _)) in Hr1.
  pose proof (zlen_nonneg (bytes (r_file (file_reader_ r)))).
  rewrite (ReadSection_struct big_endian _ SECTION_CHUNK_BODY (- (32 + zlen (serialize c))) []);
    [|unfold in_s, SECTION_CHUNK_BODY; lia|unfold in_s; lia|exact Hr1]. simpl.
  unfold SkipSection, CurrentPosition, SetPosition. simpl.
  pose proof (reads_at_range _ _ _ Hr) as [Hr0 Hrl].
  match type of Hrl with _ + zlen ?x ≤ _ => pose proof (zlen_nonneg x) end.
  rewrite (proj2 (Z.ltb_ge _ _)) by lia. rewrite (proj2 (Z.ltb_ge _ 0)) by lia. simpl.
  apply IH; try done; [lia|]. simpl.
  replace (pos (r_file (file_reader_ r)) + 16 + zlen (serialize c) + 16 + - (32 + zlen (serialize c))) with (pos (r_file (file_reader_ r))) by lia.
  exact Hr.
Qed.

(** ** Recording and playing back *)

Context (header_size : ∀ h, header_wf h → header_fits h).

(** No section of a finished file is beyond what a reader takes. *)
Definition readable (y : fsys) : Prop :=
  Forall small (items y) ∧ zlen (bytes (w_file (writer y))) < 2 ^ 63 ∧ zlen (serialize (final_index big_endian y)) < 2 ^ 31.

(** C14: what is recorded is read back: whatever the file was before, and however
    the flush thread is scheduled, when [Close] returns the file opens, a loop
    of [ReadMessage] returns exactly the messages given to [WriteMessage], each
    once, and in their order unless a chunk was swapped away before the thread
    wrote it; and every channel that was written has its type, its descriptor
    and the number of its messages. *)
Theorem record_roundtrip old h ls y fuel n :
  header_wf h → run (exec big_endian) (opened big_endian old None h) ls = Some y → ppc y = PDone →
  zlen (written y) < 2 ^ 64 → Forall (λ m, 0 < time m < 2 ^ 64) (written y) → readable y →
  (2 * length (items y) + 1 < fuel)%nat → (length (written y) < n)%nat →
  let r := RecordReader_new (Some (bytes (w_file (writer y)))) in
  is_valid_ r = true ∧
  (∃ r', read_all fuel n 0 (2 ^ 64 - 1) r = Some (r', messages_of (items y))) ∧
  messages_of (items y) ≡ₚ written y ∧ (raced y = false → messages_of (items y) = written y) ∧
  ∀ c, match first_channel c (items y) with
       | Some ch => GetMessageNumber c r = zlen (filter (λ m, channel_name m = c) (written y)) ∧
                    GetMessageType c r = message_type ch ∧ GetProtoDesc c r = proto_desc ch
       | None => c ∉ GetChannelList r
       end.
Proof using header_size ProtoLaws0 ProtoLaws1 ProtoLaws2 ProtoLaws3 ProtoLaws4.
  intros Hwf Hr Hd Hn Ht (Hs & Hl & Hi) Hfuel Hnn r.
  assert (Hb : bounded y) by (split; [done|eapply Forall_impl; [exact Ht|]; simpl; unfold in_u; lia]).
  pose proof (run_ok big_endian header_size h ls Hwf _ y Hb (opened_ok big_endian header_size old h Hwf) Hr) as Hok.
  unfold sys_ok in Hok. rewrite decide_True in Hok by done. destruct Hok as (_ & Hit & Hp & Ho & Hnum & s & Hs0 & Hlay).
  assert (Hh : Forall honest (items y)). { apply items_honest; [done|]. rewrite Hp. eapply Forall_impl; [exact Ht|]. simpl. lia. }
  destruct (opened_at_items _ _ _ _ Hlay Hl Hi Hs Hh) as [Hai Hrest]. fold r in Hai, Hrest.
  assert (Er : r = mkRecordReader (mkReader (mkFile (bytes (w_file (writer y))) (Z.of_nat start) None) _ (final_index big_endian y) false) true false [] 0 _ _ _)
    by apply (RecordReader_opens _ _ _ _ Hlay Hl Hi).
  assert (Hwf' : header_wf (reader_header r)).
  { rewrite Er. simpl. apply final_header_wf; [done|by apply wrap_bound|]. apply header_of_wf; [done|]. apply items_wf; [done|]. rewrite Hp. apply Hb. }
  unfold header_wf, header_numbers in Hwf'. rewrite !Forall_cons in Hwf'. destruct_and!. unfold in_u in *.
  split; [apply Hai|]. split.
  - rewrite <- Hrest. eapply (read_all_everything _ fuel n); [exact Hai|lia|lia|lia| | |]; rewrite ?Hrest.
    + rewrite Hp. eapply Forall_impl; [exact Ht|]. simpl. lia.
    + unfold cost. rewrite Er. simpl. lia.
    + apply Permutation_length in Hp. lia.
  - split; [done|]. split; [done|]. intros c. unfold GetMessageNumber, GetMessageType, GetProtoDesc, GetChannelList. rewrite Er.
    assert (Hc : foldl insert_channel ∅ (final_index big_endian y) !! c = _) by apply channel_info_of.
    rewrite lookup_empty in Hc. simpl. destruct (first_channel c (items y)) as [ch|]; simpl in Hc.
    + rewrite Hc. simpl. by rewrite Hnum.
    + by apply not_elem_of_dom.
Qed.
End RecordReader.

(** ** Concrete files *)

#[local] Existing Instances packed_header packed_channel packed_chunk_header packed_chunk_body packed_index.
#[local] Existing Instance packed_laws.

Lemma packed_small i : small i.
Proof.
  assert (H : ∀ t x, 0 ≤ t < 5 → section_ok (t, [x]) ∧ 0 < zlen [x]) by (intros; split; [split; [done|]|]; unfold zlen; simpl; lia).
  unfold small. destruct i; cbn [sections_of]; repeat (apply Forall_cons; split; [apply H; unfold SECTION_CHANNEL, SECTION_CHUNK_HEADER, SECTION_CHUNK_BODY; lia|]); constructor.
Qed.

Lemma packed_readable y : zlen (bytes (w_file (writer y))) < 2 ^ 63 → readable false y.
Proof.
  intros H. split; [apply Forall_true; apply packed_small|]. split; [done|].
  change (zlen (serialize (final_index false y))) with 1. lia.
Qed.

Definition example_end : fsys := after example_start (example_calls ++ example_close).

Lemma example_end_facts :
  ppc example_end = PDone ∧ raced example_end = false ∧
  written example_end = [message "pose" 5; message "scan" 7; message "pose" 8] ∧ length (items example_end) = 4%nat ∧
  zlen (bytes (w_file (writer example_end))) = 2183.
Proof. vm_compute. done. Qed.

Lemma example_end_run : run (exec false) (opened false [7; 7; 7] None (example_header 0 10)) (example_calls ++ example_close) = Some example_end.
Proof. exact (proj1 example_closed). Qed.

Lemma example_header_wf a b : in_u 64 a → in_u 64 b → header_wf (example_header a b).
Proof. intros Ha Hb. unfold header_wf, header_numbers. simpl. by repeat (constructor; [first [done | unfold in_u; lia]|]). Qed.

Lemma record_roundtrip_witness :
  let r := RecordReader_new false (Some (bytes (w_file (writer example_end)))) in
  (∃ r', read_all false 10 4 0 (2 ^ 64 - 1) r = Some (r', messages_of (items example_end))) ∧
  messages_of (items example_end) = [message "pose" 5; message "scan" 7; message "pose" 8].
Proof.
  destruct example_end_facts as (D & Ra & W & L & B).
  destruct (record_roundtrip false (λ h _, packed_header_size h) [7; 7; 7] (example_header 0 10) (example_calls ++ example_close) example_end 10 4)
    as (_ & H2 & _ & H4 & _).
  - apply example_header_wf; unfold in_u; lia.
  - exact example_end_run.
  - exact D.
  - rewrite W. unfold zlen. simpl. lia.
  - rewrite W. repeat constructor; simpl; lia.
  - apply packed_readable. rewrite B. lia.
  - rewrite L. lia.
  - rewrite W. simpl. lia.
  - split; [exact H2|]. rewrite (H4 Ra). exact W.
Defined.

(** The header of a chunk, and the head of a body that leads back. *)
Definition damaged_file : list Z :=
  encode false (SECTION_CHUNK_HEADER, serialize (mkChunkHeader 1 2 1 6)) ++ Section_bytes false (mkSection SECTION_CHUNK_BODY (-33)).

Definition damaged_reader : RecordReader :=
  mkRecordReader (mkReader (mkFile damaged_file 0 None) default_header [] false) true false [] 0 default_header [] ∅.

Lemma damaged_section_loops_for_ever_witness fuel : ReadNextChunk false fuel 5 9 damaged_reader = None.
Proof.
  apply (damaged_section_loops_for_ever false (mkChunkHeader 1 2 1 6)); [reflexivity|split; reflexivity|vm_compute; reflexivity|simpl; lia|simpl; lia|].
  exists [], []. rewrite app_nil_r. split; reflexivity.
Defined.
