(* ===== verification/RecordViewer.v ===== *)
(** * Playing back several record files

    [RecordViewer] ([src/code/cyber/record/record_viewer.h], [.cc]) goes through
    the messages of several [RecordReader]s between two times, on some channels,
    in the order of their times: it reads windows of one second from every
    reader into a buffer that is sorted by time.  The readers are used through
    an interface, which [RecordPlayback] shows [RecordReader] to implement. *)

From stdpp Require Import base list strings gmap sorting.
From S2P Require Import Prelude RecordFile RecordReader.

(** ** What a viewer needs of a reader *)

Abbreviation in_order := (StronglySorted (λ m m' : SingleMessage, time m ≤ time m')).

Class Source (R : Type) := {
  src_begin : R → Z;
  src_end : R → Z;
  src_valid : R → bool;
  src_channels : R → gset string;
  src_reset : R → R;
  src_read : Z → Z → R → option (R * option SingleMessage);
}.

(** [src_of all r]: the file of [r] has the messages [all], its header bounds
    their times; [src_at r l]: [r] has still to read [l]. *)
Class SourceLaws (R : Type) `{!Source R} := {
  src_of : list SingleMessage → R → Prop;
  src_at : R → list SingleMessage → Prop;
  src_of_bounds all r : src_of all r → src_valid r = true ∧ 0 ≤ src_begin r ∧ src_end r < 2 ^ 64 ∧ Forall (λ m, src_begin r ≤ time m ≤ src_end r) all;
  src_reset_at all r : src_of all r → src_of all (src_reset r) ∧ src_at (src_reset r) all ∧
    src_begin (src_reset r) = src_begin r ∧ src_end (src_reset r) = src_end r;
  src_read_spec all r l b e : src_of all r → src_at r l → b ≤ e →
    ∃ r' o l', src_read b e r = Some (r', o) ∧ src_of all r' ∧ src_at r' l' ∧ src_begin r' = src_begin r ∧ src_end r' = src_end r ∧
      o = (spec_read b e l).2 ∧ drop_before b l' = drop_before b (spec_read b e l).1;
}.

Section RecordViewer.
Context {R : Type} `{!Source R}.

Record RecordViewer := mkViewer {
  begin_time_ : Z; end_time_ : Z; channels_ : gset string; channel_list_ : gset string;
  readers_ : list R; readers_finished_ : list bool; curr_begin_time_ : Z; msg_buffer_ : list SingleMessage }.

Definition kStepTimeNanoSec : Z := 1000000000.
Definition kBufferMinSize : nat := 128.

(** *** [Init] and [UpdateTime] *)

Definition reader_lt (a b : R) : bool :=
  if src_begin a =? src_begin b then src_end a <? src_end b else src_begin a <? src_begin b.

(** [std::sort] leaves the order of equal readers open; here it is stable. *)
Fixpoint insert_reader (r : R) (rs : list R) : list R :=
  match rs with [] => [r] | x :: rs => if reader_lt r x then r :: x :: rs else x :: insert_reader r rs end.
Definition sort_readers (rs : list R) : list R := foldl (λ l r, insert_reader r l) [] rs.

Definition min_begin (rs : list R) : Z :=
  foldl (λ x r, if src_valid r && (src_begin r <? x) then src_begin r else x) (2 ^ 64 - 1) rs.
Definition max_end (rs : list R) : Z := foldl (λ x r, if src_valid r && (x <? src_end r) then src_end r else x) 0 rs.

Definition RecordViewer_new (rs : list R) (begin_time end_time : Z) (channels : gset string) : RecordViewer :=
  let list := foldl (λ s r, s ∪ (src_channels r ∩ channels)) ∅ rs in
  let rs := sort_readers rs in
  let b := if begin_time <? min_begin rs then min_begin rs else begin_time in
  let e := if max_end rs <? end_time then max_end rs else end_time in
  mkViewer b e channels list rs (replicate (length rs) false) b [].

Definition IsValid (v : RecordViewer) : bool := negb (end_time_ v <? begin_time_ v).

Definition Reset (v : RecordViewer) : RecordViewer :=
  mkViewer (begin_time_ v) (end_time_ v) (channels_ v) (channel_list_ v) (src_reset <$> readers_ v)
    (replicate (length (readers_finished_ v)) false) (begin_time_ v) [].

(** *** [FillBuffer] *)

(** [multimap::emplace]: behind the messages of the same time. *)
Fixpoint emplace (m : SingleMessage) (buf : list SingleMessage) : list SingleMessage :=
  match buf with
  | [] => [m]
  | x :: buf => if time m <? time x then m :: x :: buf else x :: emplace m buf
  end.

(** The inner loop over one reader. *)
Fixpoint read_window (n : nat) (b e : Z) (r : R) (buf : list SingleMessage) : option (R * list SingleMessage) :=
  match n with
  | O => None
  | S n =>
      match src_read b e r with
      | None => None
      | Some (r, None) => Some (r, buf)
      | Some (r, Some m) => read_window n b e r (emplace m buf)
      end
  end.

(** Readers that are over are reset and not read any more. *)
Definition finish (b : Z) (x : R * bool) : R * bool :=
  let '(r, finished) := x in
  if negb finished && (src_end r <? b) then (src_reset r, true) else (r, finished).

Fixpoint read_windows (n : nat) (b e : Z) (rs : list (R * bool)) (buf : list SingleMessage) : option (list (R * bool) * list SingleMessage) :=
  match rs with
  | [] => Some ([], buf)
  | (r, true) :: rs => match read_windows n b e rs buf with Some (rs, buf) => Some ((r, true) :: rs, buf) | None => None end
  | (r, false) :: rs =>
      match read_window n b e r buf with
      | None => None
      | Some (r, buf) => match read_windows n b e rs buf with Some (rs, buf) => Some ((r, false) :: rs, buf) | None => None end
      end
  end.

Fixpoint FillBuffer (windows reads : nat) (v : RecordViewer) : option (RecordViewer * bool) :=
  match windows with
  | O => None
  | S windows =>
      if (curr_begin_time_ v <=? end_time_ v) && bool_decide (length (msg_buffer_ v) < kBufferMinSize)%nat then
        let this_begin_time := curr_begin_time_ v in
        let this_end_time := u64 (this_begin_time + kStepTimeNanoSec) in
        let this_end_time := if end_time_ v <? this_end_time then end_time_ v else this_end_time in
        let rs := finish this_begin_time <$> zip (readers_ v) (readers_finished_ v) in
        match read_windows reads this_begin_time this_end_time rs (msg_buffer_ v) with
        | None => None
        | Some (rs, buf) =>
            FillBuffer windows reads (mkViewer (begin_time_ v) (end_time_ v) (channels_ v) (channel_list_ v) rs.*1 rs.*2
              (u64 (this_end_time + 1)) buf)
        end
      else Some (v, negb (bool_decide (msg_buffer_ v = [])))
  end.

(** *** [Update] and iteration *)

Definition with_buffer (buf : list SingleMessage) (v : RecordViewer) : RecordViewer :=
  mkViewer (begin_time_ v) (end_time_ v) (channels_ v) (channel_list_ v) (readers_ v) (readers_finished_ v) (curr_begin_time_ v) buf.

Definition selected (v : RecordViewer) (m : SingleMessage) : bool :=
  bool_decide (channels_ v = ∅) || bool_decide (channel_name m ∈ channels_ v).

Fixpoint Update (n windows reads : nat) (v : RecordViewer) : option (RecordViewer * option SingleMessage) :=
  match n with
  | O => None
  | S n =>
      match (if bool_decide (msg_buffer_ v = []) then FillBuffer windows reads v else Some (v, true)) with
      | None => None
      | Some (v, false) => Some (v, None)
      | Some (v, true) =>
          match msg_buffer_ v with
          | [] => None
          | m :: buf => if selected v m then Some (with_buffer buf v, Some m) else Update n windows reads (with_buffer buf v)
          end
      end
  end.

Fixpoint updates (n windows reads : nat) (v : RecordViewer) : option (list SingleMessage) :=
  match n with
  | O => None
  | S n' =>
      match Update n windows reads v with
      | None => None
      | Some (_, None) => Some []
      | Some (v, Some m) => (m ::.) <$> updates n' windows reads v
      end
  end.

(** A loop from [begin()] to [end()]. *)
Definition iterate (n windows reads : nat) (v : RecordViewer) : option (list SingleMessage) :=
  let v := Reset v in if negb (IsValid v) then Some [] else updates n windows reads v.

(** ** The buffer *)

(** The messages of time [t], in their order: a list is sorted stably into
    another when it is in order and agrees with it in these. *)
Definition at_time (t : Z) (ms : list SingleMessage) : list SingleMessage := filter (λ m, time m = t) ms.

Lemma emplaced_perm m buf : emplace m buf ≡ₚ m :: buf.
Proof using Type.
  induction buf as [|y buf IH]; simpl; [done|]. destruct (time m <? time y); [done|]. rewrite IH. apply Permutation_swap.
Qed.

Lemma emplace_elem m x buf : x ∈ emplace m buf ↔ x = m ∨ x ∈ buf.
Proof using Type. by rewrite emplaced_perm, elem_of_cons. Qed.

Lemma emplace_in_order m buf : in_order buf → in_order (emplace m buf).
Proof using Type.
  induction buf as [|y buf IH]; simpl; intros Hs; [by repeat constructor|]. apply StronglySorted_cons in Hs as [Hy Hs].
  destruct (Z.ltb_spec (time m) (time y)).
  - apply StronglySorted_cons. split; [|by apply StronglySorted_cons]. constructor; [lia|]. eapply Forall_impl; [exact Hy|]. simpl. lia.
  - apply StronglySorted_cons. split; [|by apply IH]. apply Forall_forall. intros x [->|Hx]%emplace_elem; [lia|].
    rewrite Forall_forall in Hy. by apply Hy.
Qed.

Lemma emplace_at_time t m buf : in_order buf → at_time t (emplace m buf) = at_time t buf ++ at_time t [m].
Proof using Type.
  unfold at_time. induction buf as [|y buf IH]; simpl; intros Hs; [done|]. apply StronglySorted_cons in Hs as [Hy Hs].
  destruct (Z.ltb_spec (time m) (time y)).
  - destruct (decide (time m = t)) as [E|E].
    + assert (Hn : filter (λ m, time m = t) (y :: buf) = []).
      { apply filter_none. intros x Hx. apply elem_of_cons in Hx as [->|Hx]; [lia|]. rewrite Forall_forall in Hy. specialize (Hy x Hx). lia. }
      rewrite filter_cons_True by done. rewrite Hn. by rewrite filter_cons_True.
    + rewrite filter_cons_False by done. rewrite (filter_cons_False _ m) by done. by rewrite app_nil_r.
  - rewrite !filter_cons, (IH Hs). case_decide; done.
Qed.

(** A list put into a buffer, message by message. *)
Definition emplace_all (ms buf : list SingleMessage) : list SingleMessage := foldl (λ b m, emplace m b) buf ms.

Lemma emplace_all_perm ms : ∀ buf, emplace_all ms buf ≡ₚ buf ++ ms.
Proof using Type.
  induction ms as [|m ms IH]; intros buf; simpl; [by rewrite app_nil_r|]. rewrite IH, emplaced_perm. apply Permutation_middle.
Qed.

Lemma emplace_all_spec ms : ∀ buf, in_order buf →
  in_order (emplace_all ms buf) ∧ (∀ t, at_time t (emplace_all ms buf) = at_time t (buf ++ ms)).
Proof using Type.
  induction ms as [|m ms IH]; intros buf Hb; simpl; [split; [done|intros t; by rewrite app_nil_r]|].
  destruct (IH (emplace m buf) (emplace_in_order m buf Hb)) as (H1 & H2). split; [done|].
  intros t. rewrite H2. unfold at_time. rewrite filter_app. pose proof (emplace_at_time t m buf Hb) as He. unfold at_time in He.
  by rewrite He, <- !filter_app, <- (assoc_L (++)).
Qed.

Lemma emplace_all_app ms ms' buf : emplace_all (ms ++ ms') buf = emplace_all ms' (emplace_all ms buf).
Proof using Type. unfold emplace_all. by rewrite foldl_app. Qed.

(** ** Windows *)

Definition from (c : Z) (ms : list SingleMessage) : list SingleMessage := filter (λ m, c ≤ time m) ms.
Definition window (b e : Z) (ms : list SingleMessage) : list SingleMessage := filter (λ m, b ≤ time m ≤ e) ms.

Lemma in_order_filter P `{!∀ x, Decision (P x)} ms : in_order ms → in_order (filter P ms).
Proof using Type.
  induction 1 as [|m ms _ IH Hm]; [constructor|]. rewrite filter_cons. case_decide; [|done]. constructor; [done|].
  apply Forall_forall. intros x [_ Hx]%list_elem_of_filter. rewrite Forall_forall in Hm. by apply Hm.
Qed.

Lemma drop_before_in_order c ms : in_order ms → drop_before c ms = from c ms.
Proof using Type.
  unfold from. induction 1 as [|m ms Hs IH Hm]; [done|]. simpl. rewrite filter_cons. destruct (Z.ltb_spec (time m) c).
  - rewrite decide_False by lia. done.
  - rewrite decide_True by lia. f_equal. symmetry. apply filter_all. rewrite Forall_forall in Hm. intros x Hx. specialize (Hm x Hx). lia.
Qed.

Lemma from_split b e ms : in_order ms → b ≤ e + 1 → from b ms = window b e ms ++ from (e + 1) ms.
Proof using Type.
  unfold from, window. intros Hs Hbe. induction Hs as [|m ms Hs IH Hm]; [done|]. rewrite !filter_cons.
  destruct (decide (time m ≤ e)) as [He|He].
  - rewrite (decide_False (P := e + 1 ≤ time m)) by lia. destruct (decide (b ≤ time m)).
    + rewrite decide_True by lia. simpl. by rewrite IH.
    + rewrite decide_False by lia. done.
  - rewrite (decide_True (P := b ≤ time m)) by lia. rewrite (decide_True (P := e + 1 ≤ time m)) by lia.
    rewrite (decide_False (P := b ≤ time m ≤ e)) by lia. rewrite IH.
    assert (Hn : filter (λ m, b ≤ time m ≤ e) ms = []); [|by rewrite Hn].
    apply filter_none. intros x Hx. rewrite Forall_forall in Hm. specialize (Hm x Hx). lia.
Qed.

Lemma window_app b e ms ms' : window b e (ms ++ ms') = window b e ms ++ window b e ms'.
Proof using Type. apply filter_app. Qed.

Lemma window_join b e alls : window b e (mjoin alls) = mjoin (window b e <$> alls).
Proof using Type. induction alls as [|all alls IH]; [done|]. simpl. by rewrite window_app, IH. Qed.

(** Neighbouring windows hold what the window over both holds. *)
Lemma window_next_perm b c e ms : b ≤ c ≤ e + 1 → window b (c - 1) ms ++ window c e ms ≡ₚ window b e ms.
Proof using Type.
  unfold window. intros H. induction ms as [|m ms IH]; [done|]. rewrite !filter_cons.
  repeat case_decide; try lia; simpl; rewrite <- IH; try done. symmetry. apply Permutation_middle.
Qed.

Lemma at_time_window t b e ms : at_time t (window b e ms) = if decide (b ≤ t ≤ e) then at_time t ms else [].
Proof using Type.
  unfold at_time, window. induction ms as [|m ms IH]; [by case_decide|]. rewrite (filter_cons _ m ms).
  destruct (decide (b ≤ time m ≤ e)) as [Hm|Hm]; rewrite !filter_cons, ?IH.
  - destruct (decide (time m = t)) as [<-|Ht]; [|done]. by rewrite !(decide_True (P := b ≤ time m ≤ e)).
  - destruct (decide (time m = t)) as [<-|Ht]; [|done]. by rewrite !(decide_False (P := b ≤ time m ≤ e)).
Qed.

Lemma window_next t b c e ms : b ≤ c ≤ e + 1 → at_time t (window b (c - 1) ms ++ window c e ms) = at_time t (window b e ms).
Proof using Type.
  intros H. unfold at_time at 1. rewrite filter_app. fold (at_time t (window b (c - 1) ms)) (at_time t (window c e ms)).
  rewrite !at_time_window. repeat case_decide; try lia; by rewrite ?app_nil_r.
Qed.

Context `{!SourceLaws R}.

(** One reader and one window. *)
Lemma read_window_spec n : ∀ b e r buf all l w d,
  b ≤ e → src_of all r → src_at r l → drop_before b l = w ++ d → in_order (w ++ d) →
  Forall (λ m, b ≤ time m ≤ e) w → Forall (λ m, e + 1 ≤ time m) d → (length w < n)%nat →
  ∃ r' l', read_window n b e r buf = Some (r', emplace_all w buf) ∧ src_of all r' ∧ src_at r' l' ∧
    src_begin r' = src_begin r ∧ src_end r' = src_end r ∧ drop_before (e + 1) l' = d.
Proof using Type*.
  induction n as [|n IH]; intros b e r buf all l w d Hbe Hof Hat Hd Hs Hw Hd' Hn; [lia|]. cbn [read_window].
  destruct (src_read_spec all r l b e Hof Hat Hbe) as (r' & o & l' & -> & Hof' & Hat' & E1 & E2 & Ho & Hl').
  assert (Hfrom : Forall (λ m, b ≤ time m) (w ++ d)).
  { apply Forall_app. split; (eapply Forall_impl; [eassumption|]); simpl; lia. }
  unfold spec_read in Ho, Hl'. rewrite Hd in Ho, Hl'. destruct w as [|m w]; simpl in Ho, Hl', Hfrom, Hs.
  - assert (Hdone : o = None ∧ drop_before b l' = d).
    { destruct d as [|m d]; [done|]. apply Forall_cons in Hd' as [Hm Hd']. rewrite (proj2 (Z.leb_gt _ _)) in Ho, Hl' by lia.
      split; [done|]. rewrite Hl'. by apply drop_before_none. }
    destruct Hdone as [-> Hl2]. exists r', l'. split_and!; try done. rewrite <- (drop_before_twice b) by lia. rewrite Hl2.
    by apply drop_before_none.
  - apply Forall_cons in Hw as [Hm Hw]. rewrite (proj2 (Z.leb_le _ _)) in Ho, Hl' by lia. simpl in Ho, Hl'. subst o.
    apply Forall_cons in Hfrom as [_ Hfrom]. rewrite (drop_before_none b (w ++ d) Hfrom) in Hl'. apply StronglySorted_cons in Hs as [_ Hs].
    simpl in Hn. destruct (IH b e r' (emplace m buf) all l' w d Hbe Hof' Hat' Hl' Hs Hw Hd') as (r2 & l2 & -> & ? & ? & ? & ? & ?); [lia|].
    exists r2, l2. split_and!; try done; congruence.
Qed.

(** A reader when everything before [c] is read. *)
Definition ready (c : Z) (all : list SingleMessage) (x : R * bool) : Prop :=
  in_order all ∧ src_of all x.1 ∧
  (if x.2 then Forall (λ m, time m < c) all else ∃ l, src_at x.1 l ∧ drop_before c l = from c all).

Lemma from_none c ms : Forall (λ m, time m < c) ms → from c ms = [].
Proof using Type. intros H. apply filter_none. intros x Hx. rewrite Forall_forall in H. specialize (H x Hx). lia. Qed.

Lemma finish_ready c all x : ready c all x → ready c all (finish c x).
Proof using Type*.
  destruct x as [r f]. intros (Hs & Hof & H). unfold finish. destruct (negb f && (src_end r <? c)) eqn:E; [|done].
  apply andb_true_iff in E as [_ E%Z.ltb_lt]. destruct (src_reset_at all r Hof) as (Ho & _ & _). split; [done|]. split; [done|].
  simpl. destruct (src_of_bounds all r Hof) as (_ & _ & _ & Hb). eapply Forall_impl; [exact Hb|]. simpl. lia.
Qed.

Lemma read_windows_spec n b e rs : ∀ alls buf,
  b ≤ e → Forall2 (ready b) alls rs → (length (mjoin alls) < n)%nat →
  ∃ rs', read_windows n b e rs buf = Some (rs', emplace_all (mjoin (window b e <$> alls)) buf) ∧ Forall2 (ready (e + 1)) alls rs'.
Proof using Type*.
  induction rs as [|[r f] rs IH]; intros alls buf Hbe Hr Hn.
  - apply Forall2_nil_inv_r in Hr as ->. exists []. done.
  - apply Forall2_cons_inv_r in Hr as (all & alls' & Hx & Hr & ->). simpl in Hn. rewrite length_app in Hn.
    destruct Hx as (Hs & Hof & Hf). cbn [read_windows fmap list_fmap mjoin list_join]. rewrite emplace_all_app. destruct f.
    + simpl in Hf. assert (Hw : window b e all = []).
      { apply filter_none. intros x Hx. rewrite Forall_forall in Hf. specialize (Hf x Hx). lia. }
      rewrite Hw. simpl. destruct (IH alls' buf Hbe Hr) as (rs' & E & Hr'); [lia|]. rewrite E. eexists. split; [reflexivity|].
      constructor; [|done]. split; [done|]. split; [done|]. simpl. eapply Forall_impl; [exact Hf|]. simpl. lia.
    + destruct Hf as (l & Hat & Hl). simpl in Hat, Hof.
      destruct (read_window_spec n b e r buf all l (window b e all) (from (e + 1) all)) as (r' & l' & -> & Hof' & Hat' & _ & _ & Hl'); try done.
      * rewrite Hl. apply from_split; [done|lia].
      * rewrite <- from_split by (done || lia). by apply in_order_filter.
      * apply Forall_forall. by intros x [? _]%list_elem_of_filter.
      * apply Forall_forall. by intros x [? _]%list_elem_of_filter.
      * unfold window. pose proof (length_filter (λ m, b ≤ time m ≤ e) all). lia.
      * destruct (IH alls' (emplace_all (window b e all) buf) Hbe Hr) as (rs' & E & Hr'); [lia|]. rewrite E. eexists. split; [reflexivity|].
        constructor; [|done]. split; [done|]. split; [done|]. simpl. by exists l'.
Qed.
(** ** A viewer that plays *)

(** The messages [past] were taken out of the buffer; with those in it they are
    the messages from [begin_time_] up to [curr_begin_time_], in order. *)
Record playing (alls : list (list SingleMessage)) (past : list SingleMessage) (v : RecordViewer) : Prop := {
  pl_readers : length (readers_ v) = length (readers_finished_ v) ∧
    Forall2 (ready (curr_begin_time_ v)) alls (zip (readers_ v) (readers_finished_ v));
  pl_order : in_order (past ++ msg_buffer_ v);
  pl_perm : past ++ msg_buffer_ v ≡ₚ window (begin_time_ v) (curr_begin_time_ v - 1) (mjoin alls);
  pl_stable t : at_time t (past ++ msg_buffer_ v) = at_time t (window (begin_time_ v) (curr_begin_time_ v - 1) (mjoin alls));
  pl_times : 0 ≤ begin_time_ v ≤ curr_begin_time_ v ∧ curr_begin_time_ v ≤ end_time_ v + 1 ∧ end_time_ v + kStepTimeNanoSec < 2 ^ 64;
}.

Lemma in_order_app l l' : in_order l → in_order l' → (∀ x y, x ∈ l → y ∈ l' → time x ≤ time y) → in_order (l ++ l').
Proof using Type.
  intros Hl Hl' H. apply StronglySorted_app. split; [|done]. exact H.
Qed.

(** One turn of the loop of [FillBuffer]. *)
Lemma playing_window alls past v e rs :
  playing alls past v → curr_begin_time_ v ≤ e ≤ end_time_ v →
  Forall2 (ready (e + 1)) alls rs →
  playing alls past (mkViewer (begin_time_ v) (end_time_ v) (channels_ v) (channel_list_ v) rs.*1 rs.*2 (u64 (e + 1))
    (emplace_all (window (curr_begin_time_ v) e (mjoin alls)) (msg_buffer_ v))).
Proof using Type*.
  intros [Hr Ho Hp Hs Ht] He Hrs. assert (Hu : u64 (e + 1) = e + 1) by (unfold u64; apply Z.mod_small; unfold kStepTimeNanoSec in Ht; lia).
  apply StronglySorted_app in Ho as Ho'. destruct Ho' as (Hx & Hop & Hob).
  destruct (emplace_all_spec (window (curr_begin_time_ v) e (mjoin alls)) (msg_buffer_ v) Hob) as [H1 H2].
  rewrite Hu. split; simpl; [| | | |lia].
  - rewrite !length_fmap. split; [done|]. by rewrite zip_fst_snd.
  - apply in_order_app; [done|done|]. intros x y Hxp Hy. rewrite emplace_all_perm in Hy. apply elem_of_app in Hy as [Hy|Hy]; [by apply Hx|].
    apply list_elem_of_filter in Hy as [Hy _].
    assert (Hxw : x ∈ window (begin_time_ v) (curr_begin_time_ v - 1) (mjoin alls)) by (rewrite <- Hp; apply elem_of_app; by left).
    apply list_elem_of_filter in Hxw as [Hxw _]. lia.
  - rewrite emplace_all_perm, (assoc_L (++)), Hp. replace (e + 1 - 1) with e by lia. apply window_next_perm. lia.
  - intros t. unfold at_time in H2, Hs |- *. rewrite filter_app, H2, <- filter_app, (assoc_L (++)), filter_app, Hs, <- filter_app.
    replace (e + 1 - 1) with e by lia. apply window_next. lia.
Qed.

Lemma FillBuffer_spec windows reads : ∀ alls past v,
  playing alls past v → (length (mjoin alls) < reads)%nat →
  (0 < windows)%nat → end_time_ v + 1 - curr_begin_time_ v ≤ (Z.of_nat windows - 1) * (kStepTimeNanoSec + 1) →
  ∃ v', FillBuffer windows reads v = Some (v', negb (bool_decide (msg_buffer_ v' = []))) ∧ playing alls past v' ∧
    begin_time_ v' = begin_time_ v ∧ end_time_ v' = end_time_ v ∧ channels_ v' = channels_ v ∧ curr_begin_time_ v ≤ curr_begin_time_ v' ∧
    (msg_buffer_ v' = [] → end_time_ v < curr_begin_time_ v').
Proof using Type*.
  induction windows as [|w IH]; intros alls past v Hv Hn Hw0 Hw; [lia|]. cbn [FillBuffer].
  destruct (Z.leb_spec (curr_begin_time_ v) (end_time_ v)) as [Hc|Hc]; simpl andb.
  2:{ exists v. split_and!; done || lia. }
  case_bool_decide as Hb.
  2:{ exists v. split_and!; try done. intros E. rewrite E in Hb. unfold kBufferMinSize in Hb. simpl in Hb. lia. }
  pose proof Hv as [Hr _ _ _ Ht].
  assert (Hu : u64 (curr_begin_time_ v + kStepTimeNanoSec) = curr_begin_time_ v + kStepTimeNanoSec)
    by (unfold u64, kStepTimeNanoSec in *; apply Z.mod_small; lia). rewrite Hu.
  set (e := if end_time_ v <? curr_begin_time_ v + kStepTimeNanoSec then end_time_ v else curr_begin_time_ v + kStepTimeNanoSec).
  assert (He : curr_begin_time_ v ≤ e ≤ end_time_ v ∧ (e = end_time_ v ∨ e = curr_begin_time_ v + kStepTimeNanoSec)).
  { unfold e. unfold kStepTimeNanoSec in *. destruct (Z.ltb_spec (end_time_ v) (curr_begin_time_ v + 1000000000)); lia. }
  assert (Hr2 : Forall2 (ready (curr_begin_time_ v)) alls (finish (curr_begin_time_ v) <$> zip (readers_ v) (readers_finished_ v))).
  { apply Forall2_fmap_r. eapply Forall2_impl; [apply Hr|]. intros all x. apply finish_ready. }
  destruct (read_windows_spec reads (curr_begin_time_ v) e _ alls (msg_buffer_ v) ltac:(lia) Hr2 Hn) as (rs' & -> & Hrs).
  rewrite <- window_join.
  pose proof (playing_window alls past v e rs' Hv ltac:(lia) Hrs) as Hv2.
  assert (Hu2 : u64 (e + 1) = e + 1) by (unfold u64, kStepTimeNanoSec in *; apply Z.mod_small; lia).
  destruct (IH alls past _ Hv2 Hn) as (v' & H1 & H2 & H3 & H4 & H5 & H6 & H7).
  - unfold kStepTimeNanoSec in *. lia.
  - simpl. rewrite Hu2. unfold kStepTimeNanoSec in *. lia.
  - exists v'. simpl in *. rewrite Hu2 in H6. split_and!; try done. lia.
Qed.

(** Taking the first message out of the buffer. *)
Lemma playing_take alls past m buf v :
  playing alls past v → msg_buffer_ v = m :: buf → playing alls (past ++ [m]) (with_buffer buf v).
Proof using Type.
  intros [Hr Ho Hp Hs Ht] E. assert (Ea : (past ++ [m]) ++ buf = past ++ msg_buffer_ v) by (by rewrite E, <- (assoc_L (++))).
  split; try done; intros; simpl; by rewrite Ea.
Qed.

Lemma playing_length alls past v : playing alls past v → (length past + length (msg_buffer_ v) ≤ length (mjoin alls))%nat.
Proof using Type.
  intros Hv. rewrite <- length_app, (pl_perm _ _ _ Hv). apply length_filter.
Qed.

(** The windows that are left fit the fuel. *)
Definition enough (windows : nat) (v : RecordViewer) : Prop :=
  (0 < windows)%nat ∧ end_time_ v + 1 - curr_begin_time_ v ≤ (Z.of_nat windows - 1) * (kStepTimeNanoSec + 1).

Definition same_bounds (v v' : RecordViewer) : Prop :=
  begin_time_ v' = begin_time_ v ∧ end_time_ v' = end_time_ v ∧ channels_ v' = channels_ v.

Lemma Update_spec n windows reads : ∀ alls past v,
  playing alls past v → (length (mjoin alls) < reads)%nat → enough windows v → (length (mjoin alls) < n + length past)%nat →
  ∃ v' o pre, Update n windows reads v = Some (v', o) ∧ same_bounds v v' ∧ enough windows v' ∧
    Forall (λ m, selected v m = false) pre ∧
    match o with
    | Some m => playing alls (past ++ pre ++ [m]) v' ∧ selected v m = true
    | None => playing alls (past ++ pre) v' ∧ msg_buffer_ v' = [] ∧ end_time_ v < curr_begin_time_ v'
    end.
Proof using Type*.
  induction n as [|n IH]; intros alls past v Hv Hn Hw Hk.
  { pose proof (playing_length _ _ _ Hv). lia. }
  cbn [Update].
  assert (Hfill : ∃ v1, (if bool_decide (msg_buffer_ v = []) then FillBuffer windows reads v else Some (v, true)) =
      Some (v1, negb (bool_decide (msg_buffer_ v1 = []))) ∧ playing alls past v1 ∧ same_bounds v v1 ∧ enough windows v1 ∧
      (msg_buffer_ v1 = [] → end_time_ v < curr_begin_time_ v1)).
  { case_bool_decide as Hb.
    - destruct Hw as [Hw0 Hw]. destruct (FillBuffer_spec windows reads alls past v Hv Hn Hw0 Hw) as (v1 & E & H1 & H2 & H3 & H4 & H5 & H6).
      exists v1. split_and!; try done. split; [done|]. rewrite H3. lia.
    - exists v. rewrite bool_decide_false by done. split_and!; done. }
  destruct Hfill as (v1 & -> & Hv1 & Hsb & Hw1 & Hend). destruct (msg_buffer_ v1) as [|m buf] eqn:Eb; simpl negb; cbv iota.
  - exists v1, None, []. rewrite app_nil_r. split_and!; try done. by apply Hend.
  - pose proof (playing_take _ _ _ _ _ Hv1 Eb) as Hv2.
    assert (Hsel : selected v1 m = selected v m) by (unfold selected; by destruct Hsb as (_ & _ & ->)). rewrite Hsel.
    destruct (selected v m) eqn:Es.
    + exists (with_buffer buf v1), (Some m), []. split_and!; done.
    + destruct (IH alls (past ++ [m]) (with_buffer buf v1)) as (v' & o & pre & E & H1 & H2 & H3 & H4); try done.
      { rewrite length_app. simpl. lia. }
      exists v', o, (m :: pre). rewrite E. destruct Hsb as (S1 & S2 & S3). destruct H1 as (T1 & T2 & T3). simpl in T1, T2, T3.
      assert (Hse : ∀ x, selected (with_buffer buf v1) x = selected v x) by (intros x; unfold selected; simpl; by rewrite S3).
      split_and!; try done; [split_and!; congruence| |].
      * constructor; [done|]. eapply Forall_impl; [exact H3|]. intros x. cbv beta. by rewrite Hse.
      * destruct o as [m'|]; simpl in H4; rewrite <- (assoc_L (++)) in H4; simpl in H4; [by rewrite <- Hse|]. by rewrite S2 in H4.
Qed.

Lemma updates_spec n windows reads : ∀ alls past v,
  playing alls past v → (length (mjoin alls) < reads)%nat → enough windows v → (length (mjoin alls) < n + length past)%nat →
  ∃ ms more v', updates n windows reads v = Some ms ∧ ms = filter (λ m, selected v m = true) more ∧
    same_bounds v v' ∧ playing alls (past ++ more) v' ∧ msg_buffer_ v' = [] ∧ end_time_ v < curr_begin_time_ v'.
Proof using Type*.
  induction n as [|n IH]; intros alls past v Hv Hn Hw Hk.
  { pose proof (playing_length _ _ _ Hv). lia. }
  cbn [updates]. destruct (Update_spec (S n) windows reads alls past v Hv Hn Hw Hk) as (v1 & o & pre & -> & Hsb & Hw1 & Hpre & Ho).
  assert (Hf : filter (λ m, selected v m = true) pre = []).
  { apply filter_none. intros x Hx. rewrite Forall_forall in Hpre. rewrite (Hpre x Hx). done. }
  destruct o as [m|].
  - destruct Ho as [Hv1 Hm]. destruct (IH alls (past ++ pre ++ [m]) v1 Hv1 Hn Hw1) as (ms & more & v' & -> & Hms & Hsb' & Hv' & Hb & He).
    { rewrite !length_app. simpl. lia. }
    exists (m :: ms), (pre ++ m :: more), v'. split; [done|]. destruct Hsb as (S1 & S2 & S3), Hsb' as (T1 & T2 & T3). split_and!; try done.
    + rewrite filter_app, Hf, filter_cons_True by done. simpl. f_equal. rewrite Hms. apply list_filter_iff. intros x. unfold selected. by rewrite S3.
    + split_and!; congruence.
    + by rewrite <- !(assoc_L (++)) in Hv'.
    + by rewrite <- S2.
  - exists [], pre, v1. destruct Ho as (H1 & H2 & H3). by rewrite Hf.
Qed.

(** ** Times and readers of a new viewer *)

Lemma insert_reader_perm r rs : insert_reader r rs ≡ₚ r :: rs.
Proof using Type.
  induction rs as [|x rs IH]; simpl; [done|]. destruct (reader_lt r x); [done|]. rewrite IH. apply Permutation_swap.
Qed.

Lemma sort_readers_perm rs : sort_readers rs ≡ₚ rs.
Proof using Type.
  unfold sort_readers. cut (∀ l, foldl (λ l r, insert_reader r l) l rs ≡ₚ l ++ rs); [intros H; apply (H [])|].
  induction rs as [|r rs IH]; intros l; simpl; [by rewrite app_nil_r|]. rewrite IH, insert_reader_perm. apply Permutation_middle.
Qed.

Lemma min_begin_le rs r : r ∈ rs → src_valid r = true → min_begin rs ≤ src_begin r.
Proof using Type.
  unfold min_begin. generalize (2 ^ 64 - 1). induction rs as [|x rs IH]; intros z Hr Hv; [by apply not_elem_of_nil in Hr|]. simpl.
  assert (Hm : ∀ y, foldl (λ x r, if src_valid r && (src_begin r <? x) then src_begin r else x) y rs ≤ y).
  { clear. induction rs as [|x rs IH]; intros y; simpl; [lia|]. etrans; [apply IH|]. destruct (src_valid x); simpl; [|lia].
    destruct (Z.ltb_spec (src_begin x) y); lia. }
  apply elem_of_cons in Hr as [->|Hr]; [|by apply IH]. etrans; [apply Hm|]. rewrite Hv. simpl. destruct (Z.ltb_spec (src_begin x) z); lia.
Qed.

Lemma max_end_ge rs r : r ∈ rs → src_valid r = true → src_end r ≤ max_end rs.
Proof using Type.
  unfold max_end. generalize 0. induction rs as [|x rs IH]; intros z Hr Hv; [by apply not_elem_of_nil in Hr|]. simpl.
  assert (Hm : ∀ y, y ≤ foldl (λ x r, if src_valid r && (x <? src_end r) then src_end r else x) y rs).
  { clear. induction rs as [|x rs IH]; intros y; simpl; [lia|]. etrans; [|apply IH]. destruct (src_valid x); simpl; [|lia].
    destruct (Z.ltb_spec y (src_end x)); lia. }
  apply elem_of_cons in Hr as [->|Hr]; [|by apply IH]. etrans; [|apply Hm]. rewrite Hv. simpl. destruct (Z.ltb_spec z (src_end x)); lia.
Qed.

Lemma filter_iff_in (P Q : SingleMessage → Prop) `{!∀ x, Decision (P x), !∀ x, Decision (Q x)} (l : list SingleMessage) :
  (∀ x, x ∈ l → P x ↔ Q x) → filter P l = filter Q l.
Proof using Type.
  induction l as [|x l IH]; intros Hx; [done|]. rewrite !filter_cons, IH by (intros; apply Hx; by right).
  pose proof (Hx x (list_elem_of_here _ _)). repeat case_decide; tauto.
Qed.

Lemma at_time_filter t P `{!∀ x, Decision (P x)} ms : at_time t (filter P ms) = filter P (at_time t ms).
Proof using Type. unfold at_time. rewrite !list_filter_filter. apply list_filter_iff. tauto. Qed.

(** The bounds of a new viewer leave out no message of its readers. *)
Lemma new_window alls rs b e channels :
  let v := RecordViewer_new rs b e channels in
  Forall2 src_of alls (readers_ v) → window (begin_time_ v) (end_time_ v) (mjoin alls) = window b e (mjoin alls).
Proof using Type*.
  intros v Hof. apply filter_iff_in. intros m Hm. apply list_elem_of_join in Hm as (all & Hm & Hall).
  apply list_elem_of_lookup in Hall as [i Hi]. destruct (Forall2_lookup_l _ _ _ _ _ Hof Hi) as (r & Hr & Hsrc).
  apply list_elem_of_lookup_2 in Hr. destruct (src_of_bounds _ _ Hsrc) as (Hval & _ & _ & Hb). rewrite Forall_forall in Hb. specialize (Hb m Hm).
  pose proof (min_begin_le _ _ Hr Hval). pose proof (max_end_ge _ _ Hr Hval). subst v. simpl in *.
  destruct (Z.ltb_spec b (min_begin (sort_readers rs))), (Z.ltb_spec (max_end (sort_readers rs)) e); lia.
Qed.

Lemma new_begin_nonneg alls rs b e channels : Forall2 src_of alls rs → 0 ≤ b → 0 ≤ begin_time_ (RecordViewer_new rs b e channels).
Proof using Type*.
  intros Hof Hb. simpl. destruct (Z.ltb_spec b (min_begin (sort_readers rs))); lia.
Qed.

(** The messages of the readers in the order the viewer has them. *)
Lemma sorted_readers alls rs b e channels :
  Forall2 src_of alls rs →
  ∃ alls', zip alls' (readers_ (RecordViewer_new rs b e channels)) ≡ₚ zip alls rs ∧
    length alls' = length (readers_ (RecordViewer_new rs b e channels)) ∧ alls' ≡ₚ alls ∧
    Forall2 src_of alls' (readers_ (RecordViewer_new rs b e channels)).
Proof using Type*.
  intros Hof. simpl. pose proof (Forall2_length _ _ _ Hof) as Hl.
  assert (Hp : sort_readers rs ≡ₚ map snd (zip alls rs)).
  { rewrite sort_readers_perm. change (map snd (zip alls rs)) with ((zip alls rs).*2). rewrite snd_zip; [done|lia]. }
  apply Permutation_map_inv in Hp as (l & E & Hp). change (map snd l) with (l.*2) in E. rewrite E. exists l.*1.
  rewrite zip_fst_snd, !length_fmap. split; [done|]. split; [done|]. split.
  - rewrite <- Hp, fst_zip; [done|lia].
  - assert (Hz : Forall (uncurry src_of) (zip alls rs)) by (clear -Hof; induction Hof; simpl; by constructor).
    rewrite Hp in Hz. clear -Hz. induction Hz as [|[all r] l Hx _ IH]; simpl; by constructor.
Qed.

(** The iterator starts from the begin, whatever was read before. *)
Lemma Reset_playing alls v :
  length (readers_ v) = length (readers_finished_ v) → Forall2 src_of alls (readers_ v) → Forall in_order alls →
  0 ≤ begin_time_ v ≤ end_time_ v → end_time_ v + kStepTimeNanoSec < 2 ^ 64 → playing alls [] (Reset v).
Proof using Type*.
  intros Hl Hof Hs Ht He.
  assert (Hw : window (begin_time_ v) (begin_time_ v - 1) (mjoin alls) = []).
  { apply filter_none. intros x _. lia. }
  split; simpl; rewrite ?Hw; try done; [|constructor|lia]. rewrite length_fmap, length_replicate. split; [done|].
  rewrite <- Hl. clear Hl Hw. induction Hof as [|all r alls rs Ha _ IH]; simpl; [constructor|]. apply Forall_cons in Hs as [Hsa Hs].
  destruct (src_reset_at all r Ha) as (R1 & R2 & _). constructor; [|by apply IH]. split; [done|]. split; [done|]. simpl.
  exists all. split; [done|]. by apply drop_before_in_order.
Qed.

Definition chosen (b e : Z) (channels : gset string) (ms : list SingleMessage) : list SingleMessage :=
  filter (λ m, b ≤ time m ≤ e ∧ (channels = ∅ ∨ channel_name m ∈ channels)) ms.

(** What a loop over a viewer gets: the messages of all readers between the
    two times on the channels asked for, ordered by time, each once; messages
    of the same time come in the order of the readers, and within a reader in
    the order of its file. *)
Lemma iterate_plays alls rs b e channels n windows reads :
  let v := RecordViewer_new rs b e channels in
  Forall2 src_of alls rs → Forall in_order alls → 0 ≤ b → end_time_ v + kStepTimeNanoSec < 2 ^ 64 →
  enough windows v → (length (mjoin alls) < reads)%nat → (length (mjoin alls) < n)%nat →
  ∃ ms alls', iterate n windows reads v = Some ms ∧ zip alls' (readers_ v) ≡ₚ zip alls rs ∧ length alls' = length (readers_ v) ∧
    in_order ms ∧ ms ≡ₚ chosen b e channels (mjoin alls) ∧
    ∀ t, at_time t ms = at_time t (chosen b e channels (mjoin alls')).
Proof using Type*.
  intros v Hof Hs Hb He Hw Hr Hn.
  destruct (sorted_readers alls rs b e channels Hof) as (alls' & Hz & Hl & Hp & Hof').
  assert (Hs' : Forall in_order alls') by (by rewrite Hp). assert (Hlen : length (mjoin alls') = length (mjoin alls)) by (by rewrite Hp).
  assert (Hch : ∀ ms, filter (λ m, selected v m = true) (window b e ms) = chosen b e channels ms).
  { intros ms. unfold window, chosen. rewrite list_filter_filter. apply list_filter_iff. intros m. unfold selected. simpl.
    rewrite orb_true_iff, !bool_decide_eq_true. tauto. }
  assert (Hwin := new_window alls' rs b e channels Hof'). fold v in Hwin, Hof', Hz, Hl. rewrite <- Hlen in Hr, Hn.
  unfold iterate. cbv zeta. change (IsValid (Reset v)) with (IsValid v). unfold IsValid. rewrite negb_involutive.
  destruct (Z.ltb_spec (end_time_ v) (begin_time_ v)) as [Hlt|Hle].
  - assert (Hno : chosen b e channels (mjoin alls') = []).
    { rewrite <- Hch, <- Hwin. unfold window.
      assert (Hn0 : window (begin_time_ v) (end_time_ v) (mjoin alls') = []) by (apply filter_none; intros x _; lia).
      unfold window in Hn0. by rewrite Hn0. }
    exists [], alls'. rewrite Hno. split_and!; try done; [constructor|]. unfold chosen. rewrite <- Hp. by fold (chosen b e channels (mjoin alls')); rewrite Hno.
  - assert (Hbv : 0 ≤ begin_time_ v ≤ end_time_ v) by (split; [|lia]; apply new_begin_nonneg with alls; [exact Hof|lia]).
    assert (Hfin : length (readers_ v) = length (readers_finished_ v)) by (simpl; by rewrite length_replicate).
    destruct (updates_spec n windows reads alls' [] (Reset v)) as (ms & more & v' & E & Hms & (B1 & B2 & B3) & [_ Ho Hpm Hst Ht] & Hb' & He');
      [by apply Reset_playing|lia|exact Hw|simpl; lia|].
    change (begin_time_ v' = begin_time_ v) in B1. change (end_time_ v' = end_time_ v) in B2. change (end_time_ v < curr_begin_time_ v') in He'.
    simpl in Ho, Hpm, Hst. rewrite Hb', app_nil_r in Ho, Hpm. setoid_rewrite Hb' in Hst. setoid_rewrite app_nil_r in Hst.
    assert (Ec : curr_begin_time_ v' - 1 = end_time_ v) by lia. rewrite Ec, B1, Hwin in Hpm. setoid_rewrite Ec in Hst.
    setoid_rewrite B1 in Hst. setoid_rewrite Hwin in Hst.
    exists ms, alls'. split_and!; try done; subst ms.
    + by apply in_order_filter.
    + change (filter (λ m, selected v m = true) more ≡ₚ chosen b e channels (mjoin alls)). rewrite Hpm, Hch. unfold chosen. by rewrite Hp.
    + intros t. rewrite at_time_filter, Hst, <- at_time_filter, <- Hch. done.
Qed.
End RecordViewer.
