(* ===== verification/RecordPlayback.v ===== *)
(** * Record files played back

    [RecordReader] is a reader of [RecordViewer]: what several [RecordFileWriter]s
    recorded is played back merged by time.  And what is lost of a file whose
    chunks were swapped before the flush thread wrote them. *)

From stdpp Require Import base list strings gmap sorting.
From S2P Require Import Prelude Message RecordFile RecordFlush RecordReader RecordViewer.

Section RecordPlayback.
Context (big_endian : bool).
Context `{!Proto Header, !Proto Channel, !Proto ChunkHeader, !Proto ChunkBody, !Proto Index}.
Context (fuel : nat).

(** [fuel] is that of [ReadMessage]. *)
#[export] Instance reader_source : Source RecordReader := {|
  src_begin r := begin_time (reader_header r);
  src_end r := end_time (reader_header r);
  src_valid := is_valid_;
  src_channels := GetChannelList;
  src_reset := RecordReader.Reset;
  src_read b e r := ReadMessage big_endian fuel b e r;
|}.

(** ** Reading does not change the file *)

Definition same_file (r r' : RecordReader) : Prop :=
  bytes (r_file (file_reader_ r')) = bytes (r_file (file_reader_ r)) ∧ is_valid_ r' = is_valid_ r ∧ reader_header r' = reader_header r.

Lemma ReadSection_bytes fr : bytes (r_file (ReadSection big_endian fr).1) = bytes (r_file fr).
Proof using Type. unfold ReadSection, read. repeat (case_match; simpl); simplify_eq/=; done. Qed.

Lemma ReadMessageSection_bytes {M} `{!Proto M} n (m : M) fr : bytes (r_file (ReadMessageSection n m fr).1.1) = bytes (r_file fr).
Proof using Type. unfold ReadMessageSection, read. repeat (case_match; simpl); simplify_eq/=; done. Qed.

Lemma SkipSection_bytes n fr : bytes (r_file (SkipSection n fr).1) = bytes (r_file fr).
Proof using Type. unfold SkipSection, SetPosition. repeat (case_match; simpl); simplify_eq/=; done. Qed.

Lemma same_file_trans r1 r2 r3 : same_file r1 r2 → same_file r2 r3 → same_file r1 r3.
Proof using Type. intros (H1 & H2 & H3) (G1 & G2 & G3). split_and!; congruence. Qed.

Lemma with_reader_same fr r : bytes (r_file fr) = bytes (r_file (file_reader_ r)) → same_file r (with_reader fr r).
Proof using Type. by split. Qed.

Lemma next_chunk_same n : ∀ skip b e r r' ok, next_chunk big_endian n skip b e r = Some (r', ok) → same_file r r'.
Proof using Type.
  induction n as [|n IH]; intros skip b e r r' ok; [done|]. cbn [next_chunk].
  assert (Hgo : ∀ skip' r1, same_file r r1 → next_chunk big_endian n skip' b e r1 = Some (r', ok) → same_file r r').
  { intros skip' r1 H1 G1%IH. by apply (same_file_trans _ r1). }
  destruct (reach_end_ r); [by intros [= <- _]|].
  pose proof (ReadSection_bytes (file_reader_ r)) as Hs. destruct (ReadSection big_endian (file_reader_ r)) as [fr [s|]]; simpl in Hs;
    [|intros [= <- _]; by apply with_reader_same].
  assert (Hm : ∀ M (PM : Proto M) (m : M), bytes (r_file (ReadMessageSection (sec_size s) m fr).1.1) = bytes (r_file (file_reader_ r))).
  { intros. by rewrite ReadMessageSection_bytes. }
  assert (Hk : bytes (r_file (SkipSection (sec_size s) fr).1) = bytes (r_file (file_reader_ r))) by (by rewrite SkipSection_bytes).
  destruct (sec_type s =? SECTION_INDEX); [by apply Hgo; split|].
  destruct (sec_type s =? SECTION_CHANNEL).
  { specialize (Hm _ _ (mkChannel EmptyString EmptyString EmptyString)).
    destruct (ReadMessageSection _ _ fr) as [[fr' c] [|]]; simpl in *; [by apply Hgo|intros [= <- _]; by apply with_reader_same]. }
  destruct (sec_type s =? SECTION_CHUNK_HEADER).
  { specialize (Hm _ _ (mkChunkHeader 0 0 0 0)).
    destruct (ReadMessageSection _ _ fr) as [[fr' c] [|]]; simpl in *; [|intros [= <- _]; by apply with_reader_same].
    destruct (e <? ch_begin_time c); [intros [= <- _]; by apply with_reader_same|by apply Hgo]. }
  destruct (sec_type s =? SECTION_CHUNK_BODY); [|intros [= <- _]; by apply with_reader_same].
  destruct skip; [by apply Hgo|]. specialize (Hm _ _ ([] : ChunkBody)).
  destruct (ReadMessageSection _ _ fr) as [[fr' c] ok']; simpl in *. intros [= <- _]. by split.
Qed.

Lemma ReadMessage_same n : ∀ b e r r' o, ReadMessage big_endian n b e r = Some (r', o) → same_file r r'.
Proof using Type.
  induction n as [|n IH]; intros b e r r' o; [done|]. cbn [ReadMessage].
  destruct (negb (is_valid_ r)); [by intros [= <- _]|]. destruct (_ || _); [by intros [= <- _]|].
  destruct (scan _ _ _ _) as [i [o'|]]; [intros [= <- _]; by split|].
  destruct (ReadNextChunk _ _ _ _ _) as [[r1 [|]]|] eqn:E; [|intros [= <- _]|done]; apply next_chunk_same in E.
  - intros G%IH. eapply same_file_trans; [exact E|exact G].
  - exact E.
Qed.

(** ** [RecordReader] as a reader of a viewer *)

Context `{!ProtoLaws Header, !ProtoLaws Channel, !ProtoLaws ChunkHeader, !ProtoLaws ChunkBody, !ProtoLaws Index}.

Definition within (r : RecordReader) (ms : list SingleMessage) : Prop :=
  Forall (λ m, begin_time (reader_header r) ≤ time m ≤ end_time (reader_header r)) ms.

(** The file of [r] holds the messages [all], in sections a reader takes. *)
Record reader_of (all : list SingleMessage) (r : RecordReader) : Prop := {
  ro_valid : is_valid_ r = true;
  ro_times : 0 ≤ begin_time (reader_header r) ∧ end_time (reader_header r) < 2 ^ 64 ∧ within r all;
  ro_file : ∃ h its idx, laid_out big_endian h its idx (bytes (r_file (file_reader_ r))) ∧ messages_of its = all ∧
    zlen (bytes (r_file (file_reader_ r))) < 2 ^ 63 ∧ zlen (serialize idx) < 2 ^ 31 ∧ Forall small its ∧ Forall honest its ∧
    (2 * length its + 1 < fuel)%nat;
}.

Definition reader_at (r : RecordReader) (l : list SingleMessage) : Prop :=
  ∃ idx p its, at_items big_endian idx p its r ∧ rest p its r = l ∧ (cost p its r < fuel)%nat ∧ within r l.

Lemma reader_of_same all r r' : same_file r r' → reader_of all r → reader_of all r'.
Proof using Type. intros (E1 & E2 & E3) [H1 H2 H3]. split; unfold within in *; rewrite ?E1, ?E2, ?E3; done. Qed.

Lemma reader_reset all r : reader_of all r → reader_of all (RecordReader.Reset r) ∧ reader_at (RecordReader.Reset r) all.
Proof using Type.
  intros H. split; [by apply (reader_of_same _ r)|]. destruct H as [H1 H2 (h & its & idx & Hl & Hm & Hz & Hi & Hs & Hh & Hf)].
  exists idx, None, its. split; [|split; [exact Hm|split; [unfold cost; simpl; lia|apply H2]]]. split; [done|].
  split; simpl; try done. destruct Hl as (_ & _ & Hfit & tail & E). rewrite E. exists (head_block big_endian h), tail.
  rewrite <- !(assoc_L (++)). split; [done|]. unfold zlen. by rewrite (length_head_block _ _ Hfit).
Qed.

Lemma reader_read all r l b e :
  reader_of all r → reader_at r l → b ≤ e →
  ∃ r' o l', ReadMessage big_endian fuel b e r = Some (r', o) ∧ reader_of all r' ∧ reader_at r' l' ∧ reader_header r' = reader_header r ∧
    o = (spec_read b e l).2 ∧ drop_before b l' = drop_before b (spec_read b e l).1.
Proof using ProtoLaws1 ProtoLaws2 ProtoLaws3.
  intros Hof (idx & p & its & Hai & <- & Hc & Ht) Hbe.
  destruct (ReadMessage_spec big_endian idx fuel b e r p its Hbe Hai ltac:(by right) Hc)
    as (r' & o & p' & its' & pre & E & A1 & A2 & A3 & A4 & A5 & A6 & A7).
  exists r', o, (rest p' its' r'). split; [done|]. split; [by apply (reader_of_same _ r); [apply (ReadMessage_same fuel b e r r' o)|]|].
  split; [|done]. exists idx, p', its'. split; [done|]. split; [done|]. split; [lia|].
  unfold within in *. rewrite A3. rewrite A5, !Forall_app in Ht. apply Ht.
Qed.

#[export] Program Instance reader_laws : SourceLaws RecordReader := {| src_of := reader_of; src_at := reader_at |}.
Next Obligation. by intros all r [H1 (H2 & H3 & H4) _]. Qed.
Next Obligation. intros all r H. destruct (reader_reset all r H) as [H1 H2]. done. Qed.
Next Obligation.
  intros all r l b e H1 H2 H3. destruct (reader_read all r l b e H1 H2 H3) as (r' & o & l' & E & F1 & F2 & F3 & F4 & F5).
  exists r', o, l'. simpl. by rewrite F3.
Qed.

(** ** What was recorded in order is played back in order *)

(** The header of a file bounds the times of its messages when they are in
    order: its begin is that of its first chunk, its end that of the last. *)
Lemma header_bounds h its :
  begin_time h = 0 → Forall item_ok its → Forall (λ m, 0 < time m) (messages_of its) → in_order (messages_of its) →
  Forall (λ m, begin_time (header_of h its) ≤ time m ≤ end_time (header_of h its)) (messages_of its) ∧
  (if decide (messages_of its = []) then begin_time (header_of h its) = 0 else 0 < begin_time (header_of h its)).
Proof using Type.
  intros H0. induction its as [|i its IH] using rev_ind; [done|]. rewrite messages_of_snoc. unfold header_of. rewrite foldl_app.
  fold (header_of h its). simpl. intros [Hh Hi]%Forall_app [Ht Hti]%Forall_app (Hx & Ho & Hoi)%StronglySorted_app.
  destruct (IH Hh Ht Ho) as [Hb Hn]. apply Forall_cons in Hi as [Hi _]. destruct i as [c|c b]; simpl in *; [by rewrite app_nil_r|].
  destruct Hi as [Hc Hne]. destruct (chunk_of_honest b Hti) as [Hi Hp]. rewrite <- Hc in Hi, Hp. simpl in Hi, Hp. specialize (Hp Hne).
  rewrite decide_False by (by intros [_ ?]%app_nil).
  assert (Hmb : ∃ m, m ∈ b) by (destruct b as [|m b]; [done|]; exists m; by left). destruct Hmb as [m Hm].
  rewrite Forall_forall in Hb, Hi. pose proof (Hi m Hm) as Hmc. simpl in Hmc.
  case_decide as Hnil.
  - rewrite Hn, Hnil. simpl. split; [|done]. apply Forall_forall. intros x Hx'. by apply Hi.
  - destruct (Z.eqb_spec (begin_time (header_of h its)) 0); [lia|]. split; [|done].
    apply Forall_forall. intros x [Hxm|Hxb]%elem_of_app.
    + specialize (Hx x m Hxm Hm). specialize (Hb x Hxm). simpl in *. lia.
    + specialize (Hi x Hxb). simpl in Hi. split; [|lia]. destruct (messages_of its) as [|y l] eqn:E; [done|].
      specialize (Hb y (list_elem_of_here _ _)). specialize (Hx y x (list_elem_of_here _ _) Hxb). simpl in *. lia.
Qed.

Context (header_size : ∀ h, header_wf h → header_fits h).

(** A recording that is closed, of messages in the order of their times, none
    of whose chunks was swapped away before the thread wrote it. *)
Record recording (y : fsys) : Prop := {
  rc_run : ∃ old h ls, header_wf h ∧ begin_time h = 0 ∧ run (exec big_endian) (opened big_endian old None h) ls = Some y;
  rc_done : ppc y = PDone ∧ raced y = false;
  rc_messages : in_order (written y) ∧ zlen (written y) < 2 ^ 64 ∧ Forall (λ m, 0 < time m < 2 ^ 64) (written y);
  rc_readable : readable big_endian y;
  rc_fuel : (2 * length (items y) + 1 < fuel)%nat;
}.

Definition reader_on (y : fsys) : RecordReader := RecordReader_new big_endian (Some (bytes (w_file (writer y)))).

Lemma recording_reader y : recording y → reader_of (written y) (reader_on y).
Proof using header_size ProtoLaws0 ProtoLaws4.
  intros [(old & h & ls & Hwf & H0 & Hr) [Hd Hra] (Ho & Hn & Ht) (Hs & Hl & Hi) Hf].
  assert (Hb : bounded y) by (split; [done|eapply Forall_impl; [exact Ht|]; simpl; unfold in_u; lia]).
  pose proof (run_ok big_endian header_size h ls Hwf _ y Hb (opened_ok big_endian header_size old h Hwf) Hr) as Hok.
  unfold sys_ok in Hok. rewrite decide_True in Hok by done. destruct Hok as (_ & Hit & Hp & Hpo & _ & s & Hs0 & Hlay).
  specialize (Hpo Hra). assert (Ht0 : Forall (λ m, 0 < time m) (written y)) by (eapply Forall_impl; [exact Ht|]; simpl; lia).
  unfold reader_on. pose proof (RecordReader_opens big_endian _ _ _ _ Hlay Hl Hi) as Er.
  rewrite <- Hpo in Ho, Ht0 |- *. destruct (header_bounds h (items y) H0 Hit Ht0 Ho) as [Hbd _].
  assert (Hwf' : header_wf (header_of h (items y))).
  { apply header_of_wf; [done|]. apply items_wf; [done|]. rewrite Hpo. apply Hb. }
  unfold header_wf, header_numbers in Hwf'. rewrite !Forall_cons in Hwf'. destruct_and!. unfold in_u in *.
  rewrite Er. split; simpl; [done|split_and!; [lia|lia|exact Hbd]|].
  eexists _, _, _. split; [exact Hlay|]. split_and!; try done. by apply items_honest.
Qed.

Lemma recording_readers ys : Forall recording ys → Forall2 src_of (written <$> ys) (reader_on <$> ys).
Proof using header_size ProtoLaws0 ProtoLaws1 ProtoLaws2 ProtoLaws3 ProtoLaws4.
  induction 1 as [|y ys Hy _ IH]; simpl; constructor; [by apply recording_reader|done].
Qed.

(** C7: recording and playing back: several recordings, each of messages in the
    order of their times, are played back by one viewer as the messages of all
    of them between two times on the channels asked for, ordered by time, each
    message once, those of the same time in the order of the readers and then
    of the recording: however the threads of the writers were scheduled, as
    long as each chunk was written before the next was swapped. *)
Theorem recorded_and_played ys b e channels n windows reads :
  let v := RecordViewer_new (reader_on <$> ys) b e channels in
  Forall recording ys → 0 ≤ b → end_time_ v + kStepTimeNanoSec < 2 ^ 64 → enough windows v →
  (length (ys ≫= written) < reads)%nat → (length (ys ≫= written) < n)%nat →
  ∃ ms ys', iterate n windows reads v = Some ms ∧ ys' ≡ₚ ys ∧ readers_ v = reader_on <$> ys' ∧
    in_order ms ∧ ms ≡ₚ chosen b e channels (ys ≫= written) ∧
    ∀ t, at_time t ms = at_time t (chosen b e channels (ys' ≫= written)).
Proof using header_size ProtoLaws0 ProtoLaws1 ProtoLaws2 ProtoLaws3 ProtoLaws4.
  intros v Hy Hb He Hw Hr Hn.
  pose proof (recording_readers ys Hy) as Hof.
  assert (Hso : Forall in_order (written <$> ys)) by (apply Forall_fmap; eapply Forall_impl; [exact Hy|]; intros y Hyr; apply (rc_messages y Hyr)).
  assert (Hj : ∀ l, mjoin (written <$> l) = l ≫= written) by (clear; intros l; induction l as [|y l IH]; [done|];
    change (written y ++ mjoin (written <$> l) = written y ++ (l ≫= written)); by rewrite IH).
  rewrite <- Hj in Hr, Hn |- *.
  destruct (iterate_plays _ _ b e channels n windows reads Hof Hso Hb He Hw Hr Hn) as (ms & alls & E & Hz & Hl & Ho & Hp & Ht).
  assert (Hmap : zip (written <$> ys) (reader_on <$> ys) = map (λ y, (written y, reader_on y)) ys)
    by (clear; induction ys as [|y ys IH]; [done|]; cbn; f_equal; exact IH).
  rewrite Hmap in Hz. apply Permutation_map_inv in Hz as (ys' & Hz & Hys).
  exists ms, ys'. fold v in E, Hl, Hz. split; [done|]. split; [done|]. split.
  - rewrite <- (snd_zip alls (readers_ v)) by lia. rewrite Hz. clear. induction ys' as [|y l IH]; [done|]. cbn. f_equal. exact IH.
  - split; [done|]. split; [done|]. intros t. rewrite Ht. rewrite <- Hj. do 3 f_equal.
    rewrite <- (fst_zip alls (readers_ v)) by lia. rewrite Hz. clear. induction ys' as [|y l IH]; [done|]. cbn. f_equal. exact IH.
Qed.
End RecordPlayback.

(** ** Concrete recordings *)

#[local] Existing Instances packed_header packed_channel packed_chunk_header packed_chunk_body packed_index.
#[local] Existing Instance packed_laws.

(** A second recording, one message of which has the time of one of the first,
    and one is seconds later. *)
Definition second_calls : list label :=
  [CallChannel (mkChannel "pose" "Pose" "d1"); Flusher; CallMessage (message "pose" 6); CallMessage (message "pose" 7); Producer; Flusher;
   CallMessage (message "scan" 4000000000); Flusher].
Definition second_end : fsys := after example_start (second_calls ++ example_close).

Lemma second_end_run :
  run (exec false) example_start (second_calls ++ example_close) = Some second_end ∧ ppc second_end = PDone ∧ raced second_end = false.
Proof. vm_compute. done. Qed.

Lemma second_end_facts :
  written second_end = [message "pose" 6; message "pose" 7; message "scan" 4000000000] ∧ length (items second_end) = 3%nat ∧
  zlen (bytes (w_file (writer second_end))) = 2166.
Proof. vm_compute. done. Qed.

Lemma example_recording : recording false 12 example_end.
Proof.
  destruct example_end_facts as (D & Ra & W & L & B). split.
  - exists [7; 7; 7], (example_header 0 10), (example_calls ++ example_close).
    split; [apply example_header_wf; unfold in_u; lia|]. split; [reflexivity|exact example_end_run].
  - split; [exact D|exact Ra].
  - rewrite W. split; [repeat constructor; simpl; lia|]. split; [unfold zlen; simpl; lia|repeat constructor; simpl; lia].
  - apply packed_readable. rewrite B. lia.
  - rewrite L. lia.
Qed.

Lemma second_recording : recording false 12 second_end.
Proof.
  destruct second_end_run as (Hr & D & Ra). destruct second_end_facts as (W & L & B). split.
  - exists [7; 7; 7], (example_header 0 10), (second_calls ++ example_close).
    split; [apply example_header_wf; unfold in_u; lia|]. split; [reflexivity|exact Hr].
  - split; [exact D|exact Ra].
  - rewrite W. split; [repeat constructor; simpl; lia|]. split; [unfold zlen; simpl; lia|repeat constructor; simpl; lia].
  - apply packed_readable. rewrite B. lia.
  - rewrite L. lia.
Qed.

Definition both : list fsys := [second_end; example_end].
Definition both_viewer : RecordViewer :=
  @RecordViewer_new _ (reader_source false 12) (reader_on false <$> both) 0 (2 ^ 64 - 1) {["pose"]}.

Lemma both_facts :
  curr_begin_time_ both_viewer = 5 ∧ end_time_ both_viewer = 4000000000 ∧
  both ≫= written = [message "pose" 6; message "pose" 7; message "scan" 4000000000; message "pose" 5; message "scan" 7; message "pose" 8].
Proof. vm_compute. done. Qed.

Lemma recorded_and_played_witness :
  ∃ ms ys', @iterate _ (reader_source false 12) 8 8 8 both_viewer = Some ms ∧ ys' ≡ₚ both ∧ in_order ms ∧
    ms ≡ₚ chosen 0 (2 ^ 64 - 1) {["pose"]} (both ≫= written).
Proof.
  destruct both_facts as (B & E & W).
  destruct (recorded_and_played false 12 (λ h _, packed_header_size h) both 0 (2 ^ 64 - 1) {["pose"]} 8 8 8) as (ms & ys' & H1 & H2 & _ & H3 & H4 & _).
  - apply Forall_cons_2; [exact second_recording|]. apply Forall_cons_2; [exact example_recording|apply Forall_nil_2].
  - lia.
  - fold both_viewer. rewrite E. unfold kStepTimeNanoSec. lia.
  - fold both_viewer. unfold enough. rewrite B, E. unfold kStepTimeNanoSec. lia.
  - rewrite W. simpl. lia.
  - rewrite W. simpl. lia.
  - exists ms, ys'. split; [exact H1|]. split; [exact H2|]. split; [exact H3|exact H4].
Defined.

(** ** Chunks that are swapped too early *)

Definition raced_end : fsys := after example_start (race_calls ++ example_close).

(** Property: a recording that cannot be played back: when [WriteMessage] swaps a
    second chunk before the flush thread wrote the first, the second goes to
    the file before the first.  The header of the file then begins with the
    times of the second and ends with those of the first: its end is before
    its begin, and a viewer finds no message in it, although [WriteMessage] and
    [Close] succeeded and the file holds all messages. *)
Theorem swapped_chunks_play_nothing :
  ∃ y, run (exec false) example_start (race_calls ++ example_close) = Some y ∧ ppc y = PDone ∧
    in_order (written y) ∧ length (written y) = 4%nat ∧ messages_of (items y) ≡ₚ written y ∧
    ∀ n windows reads, @iterate _ (reader_source false 12) n windows reads
      (@RecordViewer_new _ (reader_source false 12) [reader_on false y] 0 (2 ^ 64 - 1) ∅) = Some [].
Proof.
  exists raced_end.
  assert (Hr : run (exec false) example_start (race_calls ++ example_close) = Some raced_end ∧ ppc raced_end = PDone ∧
    written raced_end = [message "pose" 1; message "pose" 2; message "pose" 3000000000; message "pose" 4000000000] ∧
    messages_of (items raced_end) = [message "pose" 3000000000; message "pose" 4000000000; message "pose" 1; message "pose" 2] ∧
    IsValid (@RecordViewer_new _ (reader_source false 12) [reader_on false raced_end] 0 (2 ^ 64 - 1) ∅) = false) by (vm_compute; done).
  destruct Hr as (H1 & H2 & W & M & V). split; [exact H1|]. split; [exact H2|]. rewrite W, M.
  split; [repeat constructor; simpl; lia|]. split; [done|]. split; [apply (Permutation_app_comm [_; _] [_; _])|].
  intros n windows reads. revert V. generalize (@RecordViewer_new _ (reader_source false 12) [reader_on false raced_end] 0 (2 ^ 64 - 1) ∅) as v.
  intros v V. unfold iterate. change (IsValid (Reset v)) with (IsValid v). cbv zeta. by rewrite V.
Qed.
