(* ===== verification/RecordWriter.v ===== *)
(** * Recording into segments

    [RecordWriter] ([src/code/cyber/record/record_writer.h], [.cc]): messages on
    announced channels go to a file; when the file spans too long a time or has
    too many bytes the next one is begun, which has the channels again.  And the
    headers of [HeaderBuilder] ([src/code/cyber/record/header_builder.h], [.cc]).
    The file writers are used through an interface, what they are asked is their
    log. *)

From stdpp Require Import base list strings gmap.
From S2P Require Import Prelude Topology Message RecordFile.

(** ** [HeaderBuilder] *)

Definition MAJOR_VERSION_ : Z := 1.
Definition MINOR_VERSION_ : Z := 0.
Definition COMPRESS_TYPE_ : Z := 0.
Definition CHUNK_INTERVAL_ : Z := 20 * 1000 * 1000 * 1000.
Definition SEGMENT_INTERVAL_ : Z := 60 * 1000 * 1000 * 1000.
Definition CHUNK_RAW_SIZE_ : Z := 200 * 1024 * 1024.
Definition SEGMENT_RAW_SIZE_ : Z := 2048 * 1024 * 1024.

Definition GetHeaderWith (chunk_interval chunk_raw_size segment_interval segment_raw_size : Z) : Header :=
  mkHeader MAJOR_VERSION_ MINOR_VERSION_ COMPRESS_TYPE_ chunk_interval segment_interval 0 0 0 0 0 0 0 false chunk_raw_size segment_raw_size.

Definition GetHeader : Header := GetHeaderWith CHUNK_INTERVAL_ CHUNK_RAW_SIZE_ SEGMENT_INTERVAL_ SEGMENT_RAW_SIZE_.
Definition GetHeaderWithSegmentParams (segment_interval segment_raw_size : Z) : Header :=
  GetHeaderWith CHUNK_INTERVAL_ CHUNK_RAW_SIZE_ segment_interval segment_raw_size.
Definition GetHeaderWithChunkParams (chunk_interval chunk_raw_size : Z) : Header :=
  GetHeaderWith chunk_interval chunk_raw_size SEGMENT_INTERVAL_ SEGMENT_RAW_SIZE_.

(** ** The file writers *)

Class FileWriter (F : Type) := {
  fw_new : F;
  fw_open : string → F → F * bool;
  fw_header : Header → F → F * bool;
  fw_channel : Channel → F → F * bool;
  fw_message : SingleMessage → F → F * bool;
  fw_close : F → F;
}.

Inductive call := COpen (path : string) | CHeader (h : Header) | CChannel (c : Channel) | CMessage (m : SingleMessage) | CClose.

(** What was done in a file. *)
Class FileWriterLaws (F : Type) `{!FileWriter F} := {
  fw_log : F → list call;
  log_new : fw_log fw_new = [];
  log_open p f f' : fw_open p f = (f', true) → fw_log f' = fw_log f ++ [COpen p];
  log_header h f f' : fw_header h f = (f', true) → fw_log f' = fw_log f ++ [CHeader h];
  log_channel c f f' : fw_channel c f = (f', true) → fw_log f' = fw_log f ++ [CChannel c];
  log_message m f f' : fw_message m f = (f', true) → fw_log f' = fw_log f ++ [CMessage m];
  log_close f : fw_log (fw_close f) = fw_log f ++ [CClose];
}.

Section RecordWriter.
Context {F : Type} `{!FileWriter F}.

(** The order in which the hash map of the channels is gone through. *)
Context (keys : gmap string Z → list string).

(** ** State

    [destroyed] is not part of the program: the file writers that are gone,
    oldest first. *)
Record RecordWriter := mkRecordWriter {
  file_ : string; path_ : string; w_header : Header; is_opened_ : bool;
  segment_raw_size_ : Z; segment_begin_time_ : Z; file_index_ : Z;
  numbers_ : gmap string Z; types_ : gmap string string; descs_ : gmap string string;
  file_writer_ : option F; file_writer_backup_ : option F; destroyed : list F }.

Definition RecordWriter_new (header : Header) : RecordWriter :=
  mkRecordWriter EmptyString EmptyString header false 0 0 0 ∅ ∅ ∅ None None [].

Definition with_file_writer (f : F) (w : RecordWriter) : RecordWriter :=
  mkRecordWriter (file_ w) (path_ w) (w_header w) (is_opened_ w) (segment_raw_size_ w) (segment_begin_time_ w) (file_index_ w)
    (numbers_ w) (types_ w) (descs_ w) (Some f) (file_writer_backup_ w) (destroyed w).
Definition with_opened (b : bool) (w : RecordWriter) : RecordWriter :=
  mkRecordWriter (file_ w) (path_ w) (w_header w) b (segment_raw_size_ w) (segment_begin_time_ w) (file_index_ w)
    (numbers_ w) (types_ w) (descs_ w) (file_writer_ w) (file_writer_backup_ w) (destroyed w).
Definition set_header (h : Header) (w : RecordWriter) : RecordWriter :=
  mkRecordWriter (file_ w) (path_ w) h (is_opened_ w) (segment_raw_size_ w) (segment_begin_time_ w) (file_index_ w)
    (numbers_ w) (types_ w) (descs_ w) (file_writer_ w) (file_writer_backup_ w) (destroyed w).
Definition with_numbers (n : gmap string Z) (w : RecordWriter) : RecordWriter :=
  mkRecordWriter (file_ w) (path_ w) (w_header w) (is_opened_ w) (segment_raw_size_ w) (segment_begin_time_ w) (file_index_ w)
    n (types_ w) (descs_ w) (file_writer_ w) (file_writer_backup_ w) (destroyed w).
Definition with_segment (raw_size begin_time : Z) (w : RecordWriter) : RecordWriter :=
  mkRecordWriter (file_ w) (path_ w) (w_header w) (is_opened_ w) raw_size begin_time (file_index_ w)
    (numbers_ w) (types_ w) (descs_ w) (file_writer_ w) (file_writer_backup_ w) (destroyed w).

(** [file_writer_.reset(new RecordFileWriter())]; a writer that is destroyed is
    closed. *)
Definition reset_writer (w : RecordWriter) : RecordWriter :=
  mkRecordWriter (file_ w) (path_ w) (w_header w) (is_opened_ w) (segment_raw_size_ w) (segment_begin_time_ w) (file_index_ w)
    (numbers_ w) (types_ w) (descs_ w) (Some fw_new) (file_writer_backup_ w)
    (destroyed w ++ (fw_close <$> option_list (file_writer_ w))).

(** ** Opening and closing *)

(** [std::setw(5)] with [std::setfill('0')]. *)
Definition setw5 (s : string) : string := String.concat EmptyString (replicate (5 - String.length s) "0"%string) +:+ s.

Definition segment_path (file : string) (index : Z) : string := file +:+ "."%string +:+ setw5 (to_string index).

Definition Open (file : string) (w : RecordWriter) : RecordWriter * bool :=
  let path := if (0 <? segment_interval (w_header w)) || (0 <? segment_raw_size (w_header w)) then segment_path file 0 else file in
  let w := reset_writer (mkRecordWriter file path (w_header w) (is_opened_ w) (segment_raw_size_ w) (segment_begin_time_ w) 1
             (numbers_ w) (types_ w) (descs_ w) (file_writer_ w) (file_writer_backup_ w) (destroyed w)) in
  let '(f, ok) := fw_open path fw_new in
  if negb ok then (with_file_writer f w, false)
  else
    let '(f, ok) := fw_header (w_header w) f in
    if negb ok then (with_file_writer (fw_close f) w, false)
    else (with_opened true (with_file_writer f w), true).

(** [None] where a null pointer is used. *)
Definition Close (w : RecordWriter) : option RecordWriter :=
  if is_opened_ w then
    match file_writer_ w with
    | None => None
    | Some f => Some (with_opened false (with_file_writer (fw_close f) w))
    end
  else Some w.

(** The channels of a new segment. *)
Fixpoint write_channels (ks : list string) (w : RecordWriter) (f : F) : F * bool :=
  match ks with
  | [] => (f, true)
  | k :: ks =>
      let '(f, ok) := fw_channel (mkChannel k (default EmptyString (types_ w !! k)) (default EmptyString (descs_ w !! k))) f in
      if negb ok then (f, false) else write_channels ks w f
  end.

Definition SplitOutfile (w : RecordWriter) : RecordWriter * bool :=
  let index := if 99999 <? file_index_ w then 0 else file_index_ w in
  let path := segment_path (file_ w) index in
  let w := reset_writer w in
  let w := mkRecordWriter (file_ w) path (w_header w) (is_opened_ w) 0 0 (u32 (index + 1))
             (numbers_ w) (types_ w) (descs_ w) (file_writer_ w) (file_writer_backup_ w) (destroyed w) in
  let '(f, ok) := fw_open path fw_new in
  if negb ok then (with_file_writer f w, false)
  else
    let '(f, ok) := fw_header (w_header w) f in
    if negb ok then (with_file_writer f w, false)
    else let '(f, ok) := write_channels (keys (numbers_ w)) w f in (with_file_writer f w, ok).

(** ** Channels and messages *)

Definition IsNewChannel (channel : string) (w : RecordWriter) : bool := bool_decide (numbers_ w !! channel = None).

Definition OnNewChannel (channel type desc : string) (w : RecordWriter) : RecordWriter :=
  mkRecordWriter (file_ w) (path_ w) (w_header w) (is_opened_ w) (segment_raw_size_ w) (segment_begin_time_ w) (file_index_ w)
    (<[channel := 0]> (numbers_ w)) (<[channel := type]> (types_ w)) (<[channel := desc]> (descs_ w))
    (file_writer_ w) (file_writer_backup_ w) (destroyed w).

Definition OnNewMessage (channel : string) (w : RecordWriter) : RecordWriter :=
  match numbers_ w !! channel with Some n => with_numbers (<[channel := u64 (n + 1)]> (numbers_ w)) w | None => w end.

Definition WriteChannel (channel type desc : string) (w : RecordWriter) : option (RecordWriter * bool) :=
  if IsNewChannel channel w then
    let w := OnNewChannel channel type desc w in
    match file_writer_ w with
    | None => None
    | Some f => let '(f, ok) := fw_channel (mkChannel channel type desc) f in Some (with_file_writer f w, ok)
    end
  else Some (w, true).

(** The swap of the two writers. *)
Definition swap_writers (w : RecordWriter) : RecordWriter :=
  mkRecordWriter (file_ w) (path_ w) (w_header w) (is_opened_ w) (segment_raw_size_ w) (segment_begin_time_ w) (file_index_ w)
    (numbers_ w) (types_ w) (descs_ w) (file_writer_backup_ w) (fw_close <$> file_writer_ w) (destroyed w).

Definition WriteMessage (message : SingleMessage) (w : RecordWriter) : option (RecordWriter * bool) :=
  let w := OnNewMessage (channel_name message) w in
  match file_writer_ w with
  | None => None
  | Some f =>
      let '(f, ok) := fw_message message f in
      let w := with_file_writer f w in
      if negb ok then Some (w, false)
      else
        let b := if segment_begin_time_ w =? 0 then time message else segment_begin_time_ w in
        let b := if time message <? b then time message else b in
        let w := with_segment (u64 (segment_raw_size_ w + zlen (content message))) b w in
        if ((0 <? segment_interval (w_header w)) && (segment_interval (w_header w) <? u64 (time message - segment_begin_time_ w))) ||
           ((0 <? segment_raw_size (w_header w)) && (segment_raw_size (w_header w) <? segment_raw_size_ w))
        then Some (SplitOutfile (swap_writers w))
        else Some (w, true)
  end.

Definition GetMessageType (channel : string) (w : RecordWriter) : string := default EmptyString (types_ w !! channel).
Definition GetProtoDesc (channel : string) (w : RecordWriter) : string := default EmptyString (descs_ w !! channel).
Definition GetMessageNumber (channel : string) (w : RecordWriter) : Z := default 0 (numbers_ w !! channel).
Definition GetChannelList (w : RecordWriter) : gset string := dom (numbers_ w).

(** [WriteMessage<MessageT>]: [type_name] and [full_name] are those of the type,
    [content] what [SerializeToString] makes of the message. *)
Definition WriteMessage_of (type_name full_name channel : string) (content : option (list Z)) (time_nanosec : Z) (desc : string)
    (w : RecordWriter) : option (RecordWriter * bool) :=
  let go w := match content with None => Some (w, false) | Some c => WriteMessage (mkMessage channel time_nanosec c) w end in
  if bool_decide (GetMessageType channel w = EmptyString) then
    match WriteChannel channel type_name desc w with
    | None => None
    | Some (w, false) => Some (w, false)
    | Some (w, true) => go w
    end
  else if negb (bool_decide (full_name = GetMessageType channel w)) then Some (w, false)
  else go w.

(** [WriteMessage<std::shared_ptr<RawMessage>>]. *)
Definition WriteMessage_raw (channel : string) (message : option (list Z)) (time_nanosec : Z) (w : RecordWriter) : option (RecordWriter * bool) :=
  match message with None => Some (w, false) | Some c => WriteMessage (mkMessage channel time_nanosec c) w end.

Definition SetSizeOfFileSegmentation (size_kilobytes : Z) (w : RecordWriter) : RecordWriter * bool :=
  if is_opened_ w then (w, false)
  else
    let h := w_header w in
    (set_header (mkHeader (major_version h) (minor_version h) (compress h) (chunk_interval h) (segment_interval h) (index_position h)
      (chunk_number h) (channel_number h) (begin_time h) (end_time h) (message_number h) (size h) (is_complete h) (chunk_raw_size h)
      (u64 (size_kilobytes * 1024))) w, true).

Definition SetIntervalOfFileSegmentation (time_sec : Z) (w : RecordWriter) : RecordWriter * bool :=
  if is_opened_ w then (w, false)
  else
    let h := w_header w in
    (set_header (mkHeader (major_version h) (minor_version h) (compress h) (chunk_interval h) (u64 (time_sec * 1000000000)) (index_position h)
      (chunk_number h) (channel_number h) (begin_time h) (end_time h) (message_number h) (size h) (is_complete h) (chunk_raw_size h)
      (segment_raw_size h)) w, true).

(** ** What a recording is *)

Inductive request := ReqChannel (channel type desc : string) | ReqMessage (m : SingleMessage).

(** A call that returned true. *)
Definition exec (w : RecordWriter) (r : request) : option RecordWriter :=
  match (match r with ReqChannel c t d => WriteChannel c t d w | ReqMessage m => WriteMessage m w end) with
  | Some (w, true) => Some w
  | _ => None
  end.

Definition requested (rs : list request) : list SingleMessage :=
  omap (λ r, match r with ReqMessage m => Some m | ReqChannel _ _ _ => None end) rs.

(** The first registration of a channel counts. *)
Definition register (r : request) (m : gmap string (string * string)) : gmap string (string * string) :=
  match r with
  | ReqChannel c t d => match m !! c with Some _ => m | None => <[c := (t, d)]> m end
  | ReqMessage _ => m
  end.
Definition registered (rs : list request) : gmap string (string * string) := foldl (λ m r, register r m) ∅ rs.

(** The files of a recording, oldest first. *)
Definition segments (w : RecordWriter) : list F := destroyed w ++ option_list (file_writer_backup_ w) ++ option_list (file_writer_ w).

(** ** The segments as they should be *)

Definition total_size (ms : list SingleMessage) : Z := foldr (λ m n, zlen (content m) + n) 0 ms.
Definition min_time (ms : list SingleMessage) : Z := foldr (λ m n, if n =? 0 then time m else Z.min (time m) n) 0 ms.

(** A segment that ends with [m] is over its bounds. *)
Definition exceeds (h : Header) (ms : list SingleMessage) (m : SingleMessage) : bool :=
  ((0 <? segment_interval h) && (segment_interval h <? time m - min_time (ms ++ [m]))) ||
  ((0 <? segment_raw_size h) && (segment_raw_size h <? total_size (ms ++ [m]))).

(** Each segment is ended by the first message that brings it over a bound. *)
Definition greedy_step (h : Header) (x : list (list SingleMessage) * list SingleMessage) (m : SingleMessage) :=
  if exceeds h x.2 m then (x.1 ++ [x.2 ++ [m]], []) else (x.1, x.2 ++ [m]).
Definition greedy (h : Header) (ms : list SingleMessage) : list (list SingleMessage) * list SingleMessage :=
  foldl (greedy_step h) ([], []) ms.

Lemma greedy_snoc h ms m : greedy h (ms ++ [m]) = greedy_step h (greedy h ms) m.
Proof using Type. unfold greedy. by rewrite foldl_app. Qed.

(** No message is lost or moved. *)
Lemma greedy_join h ms : mjoin (greedy h ms).1 ++ (greedy h ms).2 = ms.
Proof using Type.
  induction ms as [|m ms IH] using rev_ind; [done|]. rewrite greedy_snoc. unfold greedy_step.
  destruct (exceeds _ _ _); simpl; [rewrite join_app; simpl|]; by rewrite ?app_nil_r, (assoc_L (++)), IH.
Qed.

Lemma total_size_app a b : total_size (a ++ b) = total_size a + total_size b.
Proof using Type. induction a as [|m a IH]; simpl; [done|]. rewrite IH. lia. Qed.

Lemma total_size_nonneg ms : 0 ≤ total_size ms.
Proof using Type. induction ms as [|m ms IH]; simpl; [done|]. pose proof (zlen_nonneg (content m)). lia. Qed.

Lemma min_time_snoc ms m :
  Forall (λ m, 0 < time m) ms → 0 < time m →
  min_time (ms ++ [m]) = (if min_time ms =? 0 then time m else Z.min (min_time ms) (time m)) ∧ 0 < min_time (ms ++ [m]) ≤ time m.
Proof using Type.
  intros Hms Hm. induction Hms as [|x ms Hx _ IH]; simpl; [lia|]. destruct IH as [E IH]. rewrite E in *.
  destruct (Z.eqb_spec (min_time ms) 0); repeat case_match; lia.
Qed.

(** ** The log of a segment *)

Definition log_messages (l : list call) : list SingleMessage := omap (λ c, match c with CMessage m => Some m | _ => None end) l.

(** Every message comes after its channel, which has the type it was registered
    with. *)
Definition self_contained (reg : gmap string (string * string)) (l : list call) : Prop :=
  ∀ a m b, l = a ++ CMessage m :: b →
    ∃ t d, reg !! channel_name m = Some (t, d) ∧ CChannel (mkChannel (channel_name m) t d) ∈ a.

Definition starts (file : string) (h : Header) (i : nat) (l : list call) : Prop :=
  ∃ tl, l = COpen (segment_path file (Z.of_nat i mod 100000)) :: CHeader h :: tl.

Definition closed (l : list call) : Prop := ∃ a, l = a ++ [CClose].

Lemma self_contained_snoc reg l c :
  self_contained reg l →
  match c with CMessage m => ∃ t d, reg !! channel_name m = Some (t, d) ∧ CChannel (mkChannel (channel_name m) t d) ∈ l | _ => True end →
  self_contained reg (l ++ [c]).
Proof using Type.
  intros Hl Hc a m b E. destruct b as [|x b _] using rev_ind.
  - apply app_inj_tail in E as [<- ->]. exact Hc.
  - rewrite app_comm_cons, (assoc_L (++)) in E. apply app_inj_tail in E as [E _]. by apply (Hl a m b).
Qed.

Lemma self_contained_mono reg reg' l : reg ⊆ reg' → self_contained reg l → self_contained reg' l.
Proof using Type. intros Hs Hl a m b E. destruct (Hl a m b E) as (t & d & H1 & H2). exists t, d. split; [by eapply lookup_weaken|done]. Qed.

Lemma starts_app file h i l l' : starts file h i l → starts file h i (l ++ l').
Proof using Type. intros (tl & ->). by exists (tl ++ l'). Qed.

Lemma log_messages_app a b : log_messages (a ++ b) = log_messages a ++ log_messages b.
Proof using Type. apply omap_app. Qed.

Lemma registered_snoc rs r : registered (rs ++ [r]) = register r (registered rs).
Proof using Type. unfold registered. by rewrite foldl_app. Qed.

Lemma register_mono r m : m ⊆ register r m.
Proof using Type. destruct r as [c t d|]; simpl; [|done]. destruct (m !! c) eqn:E; [done|]. by apply insert_subseteq. Qed.

Context `{!FileWriterLaws F}.
Context (keys_spec : ∀ m, keys m ≡ₚ (map_to_list m).*1).

(** ** What a writer has written

    [done]: the messages of the segments before the current one, which has
    [cur]; [reg]: the channels, [cnt]: their numbers of messages. *)
Definition past_segments (w : RecordWriter) : list F := destroyed w ++ option_list (file_writer_backup_ w).

Record past_ok (file : string) (h : Header) (reg : gmap string (string * string)) (done : list (list SingleMessage)) (ls : list (list call)) : Prop := {
  po_closed : Forall closed ls;
  po_contained : Forall (self_contained reg) ls;
  po_messages : log_messages <$> ls = done;
  po_starts i l : ls !! i = Some l → starts file h i l;
}.

Record writing (file : string) (h : Header) (reg : gmap string (string * string)) (cnt : string → Z)
    (done : list (list SingleMessage)) (cur : list SingleMessage) (w : RecordWriter) : Prop := {
  wr_static : file_ w = file ∧ w_header w = h;
  wr_past : past_ok file h reg done (fw_log <$> past_segments w);
  wr_current : ∃ f, file_writer_ w = Some f ∧ starts file h (length done) (fw_log f) ∧ self_contained reg (fw_log f) ∧
    log_messages (fw_log f) = cur ∧ ∀ c t d, reg !! c = Some (t, d) → CChannel (mkChannel c t d) ∈ fw_log f;
  wr_maps c : types_ w !! c = fst <$> reg !! c ∧ descs_ w !! c = snd <$> reg !! c ∧ numbers_ w !! c = (λ _, cnt c) <$> reg !! c;
  wr_sizes : segment_raw_size_ w = total_size cur ∧ segment_begin_time_ w = min_time cur;
  wr_index : file_index_ w = Z.of_nat (length done) mod 100000 + 1;
}.

Lemma past_mono file h reg reg' dn ls : reg ⊆ reg' → past_ok file h reg dn ls → past_ok file h reg' dn ls.
Proof using Type. intros Hr [H1 H2 H3 H4]. split; try done. eapply Forall_impl; [exact H2|]. intros l. by apply self_contained_mono. Qed.

Lemma log_closed reg l : self_contained reg l → self_contained reg (l ++ [CClose]) ∧ log_messages (l ++ [CClose]) = log_messages l.
Proof using Type. intros H. split; [by apply self_contained_snoc|]. rewrite log_messages_app. simpl. by rewrite app_nil_r. Qed.

(** The last segment may be closed once more. *)
Lemma past_close file h reg dn ls l : past_ok file h reg dn (ls ++ [l]) → past_ok file h reg dn (ls ++ [l ++ [CClose]]).
Proof using Type.
  intros [H1 H2 H3 H4]. apply Forall_app in H1 as [H1 _]. apply Forall_app in H2 as [H2 Hl]. apply Forall_cons in Hl as [Hl _].
  destruct (log_closed reg l Hl) as [L1 L2]. split.
  - apply Forall_app. split; [done|]. constructor; [by exists l|done].
  - apply Forall_app. split; [done|]. by constructor.
  - rewrite <- H3, !fmap_app. simpl. by rewrite L2.
  - intros i l'. rewrite lookup_snoc_Some. intros [[Hi Hl']|[-> <-]]; [|apply starts_app]; apply H4; apply lookup_snoc_Some; auto.
Qed.

Lemma past_snoc file h reg dn ls l :
  past_ok file h reg dn ls → starts file h (length dn) l → self_contained reg l →
  past_ok file h reg (dn ++ [log_messages l]) (ls ++ [l ++ [CClose]]).
Proof using Type.
  intros [H1 H2 H3 H4] Hs Hl. destruct (log_closed reg l Hl) as [L1 L2]. split.
  - apply Forall_app. split; [done|]. constructor; [by exists l|done].
  - apply Forall_app. split; [done|]. by constructor.
  - rewrite fmap_app, H3. simpl. by rewrite L2.
  - intros i l'. rewrite lookup_snoc_Some. intros [[Hi Hl']|[-> <-]]; [by apply H4|]. apply starts_app.
    rewrite <- H3 in Hs. by rewrite length_fmap in Hs.
Qed.

Lemma write_channels_log ks w : ∀ f f', write_channels ks w f = (f', true) →
  fw_log f' = fw_log f ++ ((λ k, CChannel (mkChannel k (default EmptyString (types_ w !! k)) (default EmptyString (descs_ w !! k)))) <$> ks).
Proof using Type.
  induction ks as [|k ks IH]; intros f f'; cbn [write_channels]; [intros [= <-]; by rewrite app_nil_r|].
  destruct (fw_channel _ f) as [f1 [|]] eqn:E; [|done]. intros H%IH. rewrite H, (log_channel _ _ _ E), <- (assoc_L (++)). done.
Qed.

(** A log without messages. *)
Lemma head_contained reg p h (cs : list Channel) :
  self_contained reg (COpen p :: CHeader h :: (CChannel <$> cs)) ∧ log_messages (COpen p :: CHeader h :: (CChannel <$> cs)) = [].
Proof using Type.
  assert (Hn : ∀ m, CMessage m ∉ COpen p :: CHeader h :: (CChannel <$> cs)).
  { intros m [?|[?|(c & ? & _)%list_elem_of_fmap]%elem_of_cons]%elem_of_cons; done. }
  split.
  - intros a m b E. destruct (Hn m). rewrite E. apply elem_of_app. right. by left.
  - simpl. clear Hn. by induction cs.
Qed.

(** The number of the next segment. *)
Lemma next_index n : let i := Z.of_nat n mod 100000 + 1 in
  (if 99999 <? i then 0 else i) = Z.of_nat (S n) mod 100000.
Proof using Type.
  simpl. pose proof (Z.mod_pos_bound (Z.of_nat n) 100000 ltac:(lia)). rewrite Nat2Z.inj_succ, <- Z.add_1_r, <- Zplus_mod_idemp_l.
  destruct (Z.ltb_spec 99999 (Z.of_nat n mod 100000 + 1)).
  - replace (Z.of_nat n mod 100000) with 99999 by lia. done.
  - rewrite (Z.mod_small (_ + _)); lia.
Qed.

(** A new segment. *)
Lemma split_writing file h reg cnt dn cur w w' :
  writing file h reg cnt dn cur w → SplitOutfile (swap_writers w) = (w', true) → writing file h reg cnt (dn ++ [cur]) [] w'.
Proof using keys_spec.
  intros [[Ef Eh] Hp (f & Efw & C1 & C2 & <- & C4) Hm _ Hi]. unfold SplitOutfile. simpl. rewrite Efw, Hi, next_index. simpl.
  set (i := Z.of_nat (S (length dn)) mod 100000).
  assert (Ei : i = Z.of_nat (length (dn ++ [log_messages (fw_log f)])) mod 100000) by (rewrite length_app, Nat.add_1_r; done).
  destruct (fw_open _ _) as [f1 [|]] eqn:E1; simpl; [|done]. destruct (fw_header _ _) as [f2 [|]] eqn:E2; simpl; [|done].
  destruct (write_channels _ _ _) as [f3 ok] eqn:E3. intros [= <- ->].
  pose proof (write_channels_log _ _ _ _ E3) as L. rewrite (log_header _ _ _ E2), (log_open _ _ _ E1), log_new in L. simpl in L.
  set (ch := λ k, mkChannel k (default EmptyString (types_ w !! k)) (default EmptyString (descs_ w !! k))) in *.
  assert (L2 : fw_log f3 = COpen (segment_path (file_ w) i) :: CHeader (w_header w) :: (CChannel <$> (ch <$> keys (numbers_ w))))
    by (rewrite L, <- list_fmap_compose; done).
  destruct (head_contained reg (segment_path (file_ w) i) (w_header w) (ch <$> keys (numbers_ w))) as [K1 K2].
  split; simpl; try done.
  - unfold past_segments in *. simpl. rewrite !fmap_app, <- (assoc_L (++)). simpl.
    assert (Hp2 : past_ok file h reg dn ((fw_log <$> destroyed w) ++ (fw_log <$> (fw_close <$> option_list (file_writer_backup_ w))))).
    { rewrite fmap_app in Hp. destruct (file_writer_backup_ w); simpl in *; [|done]. rewrite log_close. by apply past_close. }
    rewrite log_close, (assoc_L (++)). by apply past_snoc.
  - exists f3. split; [done|]. rewrite L2. split; [exists (CChannel <$> (ch <$> keys (numbers_ w))); rewrite <- Ei, Ef, Eh; done|].
    split; [done|]. split; [done|]. intros c t d Hc. do 2 right. apply list_elem_of_fmap. exists (mkChannel c t d). split; [done|].
    destruct (Hm c) as (M1 & M2 & M3). rewrite Hc in M1, M2, M3. simpl in M1, M2, M3. apply list_elem_of_fmap. exists c. split.
    + unfold ch. by rewrite M1, M2.
    + rewrite keys_spec. apply list_elem_of_fmap. exists (c, cnt c). split; [done|]. by apply elem_of_map_to_list.
  - rewrite Ei. pose proof (Z.mod_pos_bound (Z.of_nat (length (dn ++ [log_messages (fw_log f)]))) 100000 ltac:(lia)).
    apply Z.mod_small. lia.
Qed.

(** ** The calls *)

Lemma channel_writing file h reg cnt dn cur w c t d w' :
  writing file h reg cnt dn cur w → (reg !! c = None → cnt c = 0) → exec w (ReqChannel c t d) = Some w' →
  writing file h (register (ReqChannel c t d) reg) cnt dn cur w'.
Proof using Type.
  intros [Hst Hp (f & Efw & C1 & C2 & C3 & C4) Hm Hsz Hi] Hc. unfold exec, WriteChannel, IsNewChannel. simpl.
  destruct (Hm c) as (_ & _ & Hn). destruct (reg !! c) as [[t0 d0]|] eqn:Er; simpl in Hn; rewrite Hn.
  - rewrite bool_decide_false by done. intros [= <-]. split; try done. by exists f.
  - rewrite bool_decide_true by done. rewrite Efw. destruct (fw_channel _ f) as [f' [|]] eqn:E; [|done]. intros [= <-].
    assert (Hs : reg ⊆ <[c:=(t, d)]> reg) by (by apply insert_subseteq).
    pose proof (log_channel _ _ _ E) as L. split; simpl; try done.
    + by apply (past_mono _ _ reg).
    + exists f'. split; [done|]. rewrite L. split; [by apply starts_app|]. split; [by apply self_contained_snoc; [apply (self_contained_mono reg)|]|].
      split; [rewrite log_messages_app; simpl; by rewrite app_nil_r|]. intros c' t' d'. rewrite lookup_insert_Some.
      intros [[<- [= <- <-]]|[_ H]]; apply elem_of_app; [right; by left|left; by apply C4].
    + intros c'. destruct (decide (c = c')) as [<-|Hne]; [|rewrite !lookup_insert_ne by done; apply Hm].
      rewrite !lookup_insert_eq. simpl. by rewrite Hc.
Qed.

Lemma message_writing file h reg cnt dn cur w m w' :
  writing file h reg cnt dn cur w → is_Some (reg !! channel_name m) →
  Forall (λ m, 0 < time m) cur → 0 < time m < 2 ^ 64 → total_size (cur ++ [m]) < 2 ^ 64 →
  0 ≤ cnt (channel_name m) < 2 ^ 64 - 1 → exec w (ReqMessage m) = Some w' →
  writing file h reg (λ c, if decide (c = channel_name m) then cnt c + 1 else cnt c)
    (greedy_step h (dn, cur) m).1 (greedy_step h (dn, cur) m).2 w'.
Proof using keys_spec.
  intros [[Hf Hh] Hp (f & Efw & C1 & C2 & C3 & C4) Hm Hsz Hi] [[t d] Hr] Hcur Ht Hts Hcnt. unfold exec, WriteMessage, OnNewMessage.
  destruct (Hm (channel_name m)) as (_ & _ & Hn). rewrite Hr in Hn. simpl in Hn. rewrite Hn. cbn [file_writer_ with_numbers]. rewrite Efw.
  destruct (fw_message m f) as [f' [|]] eqn:E; cbn [negb]; [|done].
  destruct Hsz as [Hs1 Hs2]. destruct (min_time_snoc cur m Hcur ltac:(lia)) as [Emin Hmin].
  match goal with |- context [segment_raw_size_ (with_segment ?s ?b ?w)] => set (w1 := with_segment s b w); set (b0 := b); set (s0 := s) end.
  assert (Eb : b0 = min_time (cur ++ [m])).
  { unfold b0. simpl. rewrite Hs2, Emin. destruct (Z.eqb_spec (min_time cur) 0); [by rewrite Z.ltb_irrefl|].
    destruct (Z.ltb_spec (time m) (min_time cur)); lia. }
  assert (Es : s0 = total_size (cur ++ [m])).
  { unfold s0. simpl. rewrite Hs1. pose proof (total_size_nonneg (cur ++ [m])). rewrite total_size_app in *. simpl in *. rewrite Z.add_0_r in *.
    apply wrap_small. unfold in_u. lia. }
  assert (Hw1 : writing file h reg (λ c, if decide (c = channel_name m) then cnt c + 1 else cnt c) dn (cur ++ [m]) w1).
  { split; try done.
    - exists f'. split; [done|]. rewrite (log_message _ _ _ E). split; [by apply starts_app|].
      split; [apply self_contained_snoc; [done|]; exists t, d; split; [done|by apply C4]|].
      split; [rewrite log_messages_app, C3; done|]. intros c t' d' H. apply elem_of_app. left. by apply C4.
    - intros c. simpl. destruct (Hm c) as (M1 & M2 & M3). split; [done|]. split; [done|]. case_decide as Hc.
      + subst c. rewrite lookup_insert_eq, Hr. simpl. f_equal. apply wrap_small. unfold in_u. lia.
      + by rewrite lookup_insert_ne. }
  assert (Hex : ((0 <? segment_interval (w_header w1)) && (segment_interval (w_header w1) <? u64 (time m - segment_begin_time_ w1))) ||
      ((0 <? segment_raw_size (w_header w1)) && (segment_raw_size (w_header w1) <? segment_raw_size_ w1)) = exceeds h cur m).
  { destruct Hw1 as [[_ H1] _ _ _ [H2 H3] _]. unfold exceeds. rewrite H1, H2, H3. do 3 f_equal. apply wrap_small. unfold in_u. lia. }
  rewrite Hex. unfold greedy_step. cbn [fst snd]. destruct (exceeds h cur m); cbn [fst snd].
  - destruct (SplitOutfile _) as [w2 ok] eqn:E2. destruct ok; intros [= <-]. by apply (split_writing _ _ _ _ _ _ w1).
  - by intros [= <-].
Qed.

(** ** A recording *)

(** A channel is registered before its first message. *)
Definition announced (rs : list request) : Prop :=
  ∀ a m b, rs = a ++ ReqMessage m :: b → is_Some (registered a !! channel_name m).

Lemma announced_init rs r : announced (rs ++ [r]) → announced rs.
Proof using Type. intros H a m b ->. apply (H a m (b ++ [r])). by rewrite <- (assoc_L (++)). Qed.

Definition count_on (c : string) (ms : list SingleMessage) : Z := zlen (filter (λ m, channel_name m = c) ms).

Lemma requested_snoc rs r : requested (rs ++ [r]) = requested rs ++ match r with ReqMessage m => [m] | ReqChannel _ _ _ => [] end.
Proof using Type. unfold requested. rewrite omap_app. by destruct r. Qed.

Lemma announced_registered rs m : announced rs → m ∈ requested rs → is_Some (registered rs !! channel_name m).
Proof using Type.
  induction rs as [|r rs IH] using rev_ind; intros Ha; [by intros ?%elem_of_nil|]. rewrite requested_snoc, elem_of_app, registered_snoc.
  assert (Hm : ∀ x, is_Some (registered rs !! x) → is_Some (register r (registered rs) !! x)).
  { intros x [y Hy]. exists y. eapply lookup_weaken; [exact Hy|apply register_mono]. }
  intros [Hr|Hr]; [apply Hm, IH; [by apply (announced_init _ r)|done]|]. destruct r as [|m']; [by apply elem_of_nil in Hr|].
  apply list_elem_of_singleton in Hr as ->. apply Hm. by apply (Ha rs m' []).
Qed.

Lemma count_on_none c rs : announced rs → registered rs !! c = None → count_on c (requested rs) = 0.
Proof using Type.
  intros Ha Hc. unfold count_on. rewrite filter_none; [done|]. intros m Hm <-. destruct (announced_registered rs m Ha Hm) as [? E]. congruence.
Qed.

Lemma greedy_current h ms m : m ∈ (greedy h ms).2 → m ∈ ms.
Proof using Type. rewrite <- (greedy_join h ms) at 2. rewrite elem_of_app. by right. Qed.

Lemma total_size_suffix h ms : total_size (greedy h ms).2 ≤ total_size ms.
Proof using Type.
  rewrite <- (greedy_join h ms) at 2. rewrite total_size_app. pose proof (total_size_nonneg (mjoin (greedy h ms).1)). lia.
Qed.

Lemma opened_writing file h w0 :
  (0 <? segment_interval h) || (0 <? segment_raw_size h) = true → Open file (RecordWriter_new h) = (w0, true) →
  writing file h ∅ (λ _, 0) [] [] w0.
Proof using Type.
  unfold Open. intros Hs. simpl. rewrite Hs. destruct (fw_open _ _) as [f1 [|]] eqn:E1; simpl; [|done].
  destruct (fw_header _ _) as [f2 [|]] eqn:E2; simpl; [|done]. intros [= <-].
  pose proof (log_header _ _ _ E2) as L. rewrite (log_open _ _ _ E1), log_new in L. simpl in L.
  split; simpl; [done|by split| |by intros c; rewrite !lookup_empty|done|done]. exists f2. split; [done|]. rewrite L.
  destruct (head_contained ∅ (segment_path file 0) h []) as [K1 K2]. split; [by exists []|]. split; [done|]. split; [done|].
  intros c t d. by rewrite lookup_empty.
Qed.

Lemma run_writing file h w0 rs : ∀ w,
  (0 <? segment_interval h) || (0 <? segment_raw_size h) = true → Open file (RecordWriter_new h) = (w0, true) →
  run exec w0 rs = Some w → announced rs → Forall (λ m, 0 < time m < 2 ^ 64) (requested rs) → total_size (requested rs) < 2 ^ 64 →
  zlen (requested rs) < 2 ^ 64 →
  writing file h (registered rs) (λ c, count_on c (requested rs)) (greedy h (requested rs)).1 (greedy h (requested rs)).2 w.
Proof using keys_spec.
  induction rs as [|r rs IH] using rev_ind; intros w Hs Ho Hr Ha Ht Hts Hn.
  { injection Hr as <-. by apply opened_writing. }
  rewrite run_app in Hr. destruct (run exec w0 rs) as [w1|] eqn:E1; [|done]. cbn [run] in Hr.
  destruct (exec w1 r) as [w2|] eqn:E2; [|done]. injection Hr as ->.
  rewrite requested_snoc in *. apply Forall_app in Ht as [Ht Htr]. rewrite total_size_app in Hts. unfold zlen in Hn. rewrite length_app in Hn.
  pose proof (total_size_nonneg (match r with ReqMessage m => [m] | ReqChannel _ _ _ => [] end)).
  specialize (IH w1 Hs Ho eq_refl (announced_init _ _ Ha) Ht ltac:(lia) ltac:(unfold zlen; lia)). rewrite registered_snoc.
  destruct r as [c t d|m].
  - rewrite app_nil_r. apply (channel_writing _ _ _ _ _ _ w1); [done| |done]. apply count_on_none. by apply (announced_init _ (ReqChannel c t d)).
  - apply Forall_cons in Htr as [Htm _]. rewrite greedy_snoc. pose proof (total_size_suffix h (requested rs)) as Hsuf.
    assert (Hcur : Forall (λ m, 0 < time m) (greedy h (requested rs)).2).
    { apply Forall_forall. intros x Hx%greedy_current. rewrite Forall_forall in Ht. by apply Ht. }
    pose proof (length_filter (λ x, channel_name x = channel_name m) (requested rs)) as Hlf. simpl in Hn, Hts.
    pose proof (message_writing _ _ _ _ _ _ w1 m w IH (Ha rs m [] eq_refl) Hcur Htm) as Hgo.
    rewrite total_size_app in Hgo. simpl in Hgo. specialize (Hgo ltac:(lia)). specialize (Hgo ltac:(unfold count_on, zlen; lia) E2). rewrite <- surjective_pairing in Hgo.
    destruct Hgo as [G1 G2 G3 G4 G5 G6]. split; try done. intros c. destruct (G4 c) as (M1 & M2 & M3). split; [done|]. split; [done|].
    rewrite M3. unfold count_on, zlen. cbn [register]. destruct (registered rs !! c); [|done]. simpl. f_equal. rewrite filter_app, length_app. simpl.
    rewrite filter_cons, filter_nil. repeat case_decide; simpl; lia || congruence.
Qed.

(** C23: what is recorded into segments: the messages of the files, one file after
    the other, are exactly those given to [WriteMessage] in their order; each
    file but the last is ended by the first message that brings it over the
    interval or the size that was asked for, and closed; the [i]-th file has the
    number [i], begins with the header, and has every channel, with the type and
    descriptor it was first registered with, before the first message on it;
    and [GetMessageNumber] is the number of messages over all files. *)
Theorem segments_of_recording file h w0 rs w :
  (0 <? segment_interval h) || (0 <? segment_raw_size h) = true → Open file (RecordWriter_new h) = (w0, true) →
  run exec w0 rs = Some w → announced rs → Forall (λ m, 0 < time m < 2 ^ 64) (requested rs) → total_size (requested rs) < 2 ^ 64 →
  zlen (requested rs) < 2 ^ 64 →
  let logs := fw_log <$> segments w in
  log_messages <$> logs = (greedy h (requested rs)).1 ++ [(greedy h (requested rs)).2] ∧
  mjoin (log_messages <$> logs) = requested rs ∧
  (∀ i l, logs !! i = Some l → starts file h i l ∧ self_contained (registered rs) l ∧ (S i < length logs → closed l)%nat) ∧
  ∀ c, GetMessageNumber c w = count_on c (requested rs).
Proof using keys_spec.
  intros Hs Ho Hr Ha Ht Hts Hn logs. pose proof (run_writing file h w0 rs w Hs Ho Hr Ha Ht Hts Hn) as [_ [P1 P2 P3 P4] (f & Ef & C1 & C2 & C3 & _) Hm _ _].
  assert (El : logs = (fw_log <$> past_segments w) ++ [fw_log f]).
  { unfold logs, segments, past_segments. rewrite Ef, !fmap_app, <- (assoc_L (++)). done. }
  assert (Hl : length (fw_log <$> past_segments w) = length (greedy h (requested rs)).1) by (by rewrite <- P3, (length_fmap log_messages)).
  rewrite El. split_and!.
  - rewrite fmap_app, P3. simpl. by rewrite C3.
  - rewrite fmap_app, join_app, P3. simpl. by rewrite C3, app_nil_r, greedy_join.
  - intros i l. rewrite lookup_snoc_Some, length_app. simpl. intros [[Hi Hlk]|[-> <-]].
    + rewrite Forall_lookup in P1, P2. split; [by apply P4|]. split; [by eapply P2|]. intros _. by eapply P1.
    + rewrite Hl. split; [done|]. split; [done|]. lia.
  - intros c. unfold GetMessageNumber. destruct (Hm c) as (_ & _ & ->). destruct (registered rs !! c) as [y|] eqn:E; [done|]. simpl.
    symmetry. by apply count_on_none.
Qed.

(** Property: a writer that is opened a second time remembers the channels of the
    first file: [WriteChannel] takes them for duplicates, and the messages of
    the second file stand in it without their channel. *)
Theorem reopened_file_has_no_channels file h w0 c t d w1 w2 f2 w3 :
  segment_interval h = 0 → segment_raw_size h = 0 →
  Open file (RecordWriter_new h) = (w0, true) → WriteChannel c t d w0 = Some (w1, true) → Close w1 = Some w2 →
  Open f2 w2 = (w3, true) →
  ∃ f, file_writer_ w3 = Some f ∧ fw_log f = [COpen f2; CHeader h] ∧
    WriteChannel c t d w3 = Some (w3, true) ∧
    ∀ m w4, channel_name m = c → WriteMessage m w3 = Some (w4, true) →
      ∃ f', file_writer_ w4 = Some f' ∧ fw_log f' = [COpen f2; CHeader h; CMessage m].
Proof using FileWriterLaws0.
  intros H1 H2. unfold Open at 1. simpl. rewrite H1, H2. simpl. destruct (fw_open file _) as [fa [|]]; simpl; [|done].
  destruct (fw_header h fa) as [fb [|]]; simpl; [|done]. intros [= <-]. unfold WriteChannel, IsNewChannel. simpl.
  rewrite lookup_empty, bool_decide_true by done. destruct (fw_channel _ fb) as [fc [|]]; [|done]. intros [= <-]. unfold Close. simpl. intros [= <-].
  unfold Open. simpl. rewrite H1, H2. simpl. destruct (fw_open f2 _) as [fd [|]] eqn:E1; simpl; [|done].
  destruct (fw_header h fd) as [fe [|]] eqn:E2; simpl; [|done]. intros [= <-].
  pose proof (log_header _ _ _ E2) as L. rewrite (log_open _ _ _ E1), log_new in L. simpl in L.
  exists fe. split; [done|]. split; [done|]. simpl. rewrite lookup_insert_eq, bool_decide_false by done. split; [done|].
  intros m w4 <-. unfold WriteMessage, OnNewMessage. simpl. rewrite lookup_insert_eq. simpl. rewrite H1, H2. simpl.
  destruct (fw_message m fe) as [ff [|]] eqn:E3; simpl; [|done]. intros [= <-]. exists ff. split; [done|]. by rewrite (log_message _ _ _ E3), L.
Qed.
End RecordWriter.

(** ** File writers that only keep their log *)

#[local] Instance trace_writer : FileWriter (list call) := {|
  fw_new := [];
  fw_open p l := (l ++ [COpen p], true);
  fw_header h l := (l ++ [CHeader h], true);
  fw_channel c l := (l ++ [CChannel c], true);
  fw_message m l := (l ++ [CMessage m], true);
  fw_close l := l ++ [CClose];
|}.

#[local] Program Instance trace_laws : FileWriterLaws (list call) := {| fw_log l := l |}.
Solve Obligations with by intros; simplify_eq/=.

Definition in_map_order (m : gmap string Z) : list string := (map_to_list m).*1.

(** Segments of at most 10 ns. *)
Definition short_segments : Header := GetHeaderWithSegmentParams 10 0.

Definition example_requests : list request :=
  [ReqChannel "pose" "Pose" "d1"; ReqMessage (mkMessage "pose" 5 [1]); ReqMessage (mkMessage "pose" 16 [2]);
   ReqChannel "scan" "Scan" "d2"; ReqChannel "pose" "Other" "d3"; ReqMessage (mkMessage "scan" 17 [3]); ReqMessage (mkMessage "pose" 20 [4])].

Definition example_writer : RecordWriter := (Open "log" (RecordWriter_new short_segments)).1.

Lemma example_segments :
  ∃ w, run (exec in_map_order) example_writer example_requests = Some w ∧
    segments w =
      [[COpen "log.00000"; CHeader short_segments; CChannel (mkChannel "pose" "Pose" "d1");
        CMessage (mkMessage "pose" 5 [1]); CMessage (mkMessage "pose" 16 [2]); CClose];
       [COpen "log.00001"; CHeader short_segments; CChannel (mkChannel "pose" "Pose" "d1"); CChannel (mkChannel "scan" "Scan" "d2");
        CMessage (mkMessage "scan" 17 [3]); CMessage (mkMessage "pose" 20 [4])]].
Proof. eexists. split; vm_compute; reflexivity. Qed.

Lemma example_announced : announced example_requests.
Proof.
  intros a m b E. unfold example_requests in E.
  repeat (destruct a as [|? a]; simpl in E; [first [discriminate E | injection E as <- <-; vm_compute; eauto]|injection E as <- E]).
  by destruct a.
Qed.

Lemma segments_of_recording_witness :
  ∃ w, run (exec in_map_order) example_writer example_requests = Some w ∧ mjoin (log_messages <$> (fw_log <$> segments w)) = requested example_requests ∧
    GetMessageNumber "pose" w = 3.
Proof.
  destruct example_segments as (w & Hr & _). exists w. split; [exact Hr|].
  destruct (segments_of_recording in_map_order (λ m, reflexivity _) "log" short_segments example_writer example_requests w) as (_ & H2 & _ & H4).
  - reflexivity.
  - reflexivity.
  - exact Hr.
  - exact example_announced.
  - repeat constructor; simpl; lia.
  - reflexivity.
  - reflexivity.
  - split; [exact H2|]. rewrite (H4 "pose"%string). reflexivity.
Defined.

Definition once : RecordWriter := match WriteChannel "pose" "Pose" "d1" (Open "a" (RecordWriter_new (GetHeaderWithSegmentParams 0 0))).1 with Some (w, _) => w | None => RecordWriter_new GetHeader end.

Lemma reopened_file_has_no_channels_witness :
  ∃ w2 w3 f, Close once = Some w2 ∧ Open "b" w2 = (w3, true) ∧ file_writer_ w3 = Some f ∧
    fw_log f = [COpen "b"; CHeader (GetHeaderWithSegmentParams 0 0)] ∧ WriteChannel "pose" "Pose" "d1" w3 = Some (w3, true).
Proof.
  destruct (reopened_file_has_no_channels in_map_order "a" (GetHeaderWithSegmentParams 0 0) (Open "a" (RecordWriter_new (GetHeaderWithSegmentParams 0 0))).1
    "pose" "Pose" "d1" once (default once (Close once)) "b" (Open "b" (default once (Close once))).1) as (f & H1 & H2 & H3 & _);
    [reflexivity..|].
  exists (default once (Close once)), (Open "b" (default once (Close once))).1, f.
  split; [reflexivity|]. split; [reflexivity|]. split; [exact H1|]. split; [exact H2|exact H3].
Defined.
