(* ===== verification/Hybrid.v ===== *)
(** * Which way a message goes

    [HybridTransmitter] and [HybridReceiver]
    ([src/code/cyber/transport/transmitter/hybrid_transmitter.h],
    [transport/receiver/hybrid_receiver.h]): the way of a message depends on
    where the other side is, in the process, on the host or elsewhere.  A
    hybrid transmitter has a transmitter for each way and enables it while a
    reader needs it; a hybrid receiver listens to each writer on one way.  The
    transmitters and receivers of one way are their flags and the calls they
    make of their dispatchers ([IntraDispatcher], [Listener] and [ShmTransport]
    have those). *)

From stdpp Require Import base list strings gmap fin_maps.
From S2P Require Import Prelude Topology Message.

(** ** Ways and roles *)

Inductive OptionalMode := HYBRID | INTRA | SHM | RTPS.
Inductive Relation := NO_RELATION | DIFF_HOST | DIFF_PROC | SAME_PROC.

#[global] Instance OptionalMode_eq_dec : EqDecision OptionalMode.
Proof. solve_decision. Defined.
#[global] Instance Relation_eq_dec : EqDecision Relation.
Proof. solve_decision. Defined.
#[global] Instance OptionalMode_countable : Countable OptionalMode.
Proof.
  apply (inj_countable' (λ m, match m with HYBRID => 0%nat | INTRA => 1%nat | SHM => 2%nat | RTPS => 3%nat end)
    (λ n, match n with 0%nat => HYBRID | 1%nat => INTRA | 2%nat => SHM | _ => RTPS end)).
  by intros [].
Defined.

Record CommunicationMode := mkMode { same_proc : OptionalMode; diff_proc : OptionalMode; diff_host : OptionalMode }.

Definition default_mode : CommunicationMode := mkMode INTRA SHM RTPS.

(** The fields of [RoleAttributes] that are used here; [transient] is the
    durability [DURABILITY_TRANSIENT_LOCAL]. *)
Record Attr := mkAttr { channel_name : string; host_ip : string; process_id : Z; id : Z; history : HistoryAttributes; transient : bool }.

Definition GetRelation (own opposite : Attr) : Relation :=
  if negb (bool_decide (channel_name opposite = channel_name own)) then NO_RELATION
  else if negb (bool_decide (host_ip opposite = host_ip own)) then DIFF_HOST
  else if negb (process_id opposite =? process_id own) then DIFF_PROC
  else SAME_PROC.

(** [mapping_table_]; [operator[]] makes a value of 0 for a key that is not
    there. *)
Definition mapping (mode : CommunicationMode) (r : Relation) : OptionalMode :=
  match r with SAME_PROC => same_proc mode | DIFF_PROC => diff_proc mode | DIFF_HOST => diff_host mode | NO_RELATION => HYBRID end.

(** The modes of the configuration, each once, and what is made for each. *)
Definition modes (mode : CommunicationMode) : gset OptionalMode := {[same_proc mode]} ∪ {[diff_proc mode]} ∪ {[diff_host mode]}.

(** The configuration of the process, where it has one. *)
Definition ObtainConfig (conf : option CommunicationMode) : CommunicationMode := default default_mode conf.

Section Hybrid.
Context {M : Type}.

Definition InitHistory (limit : option Z) (attr : Attr) : @History M :=
  let h := History_new limit (history attr) in if transient attr then Enable h else h.

(** ** [HybridTransmitter] *)

Record HybridTransmitter := mkHybridTransmitter {
  t_attr : Attr; t_mode : CommunicationMode; history_ : @History M;
  transmitters_ : gmap OptionalMode bool;          (** [enabled_] of each *)
  receivers_ : gmap OptionalMode (gset Z);
  seq_num : Z }.

Definition HybridTransmitter_new (conf : option CommunicationMode) (limit : option Z) (attr : Attr) : HybridTransmitter :=
  let mode := ObtainConfig conf in
  mkHybridTransmitter attr mode (InitHistory limit attr) (gset_to_gmap false (modes mode)) (gset_to_gmap ∅ (modes mode)) 0.

Definition Transmitter_Enable (t : HybridTransmitter) : HybridTransmitter :=
  mkHybridTransmitter (t_attr t) (t_mode t) (history_ t) ((λ _, true) <$> transmitters_ t) (receivers_ t) (seq_num t).
Definition Transmitter_Disable (t : HybridTransmitter) : HybridTransmitter :=
  mkHybridTransmitter (t_attr t) (t_mode t) (history_ t) ((λ _, false) <$> transmitters_ t) (receivers_ t) (seq_num t).

Definition with_reach (ts : gmap OptionalMode bool) (rs : gmap OptionalMode (gset Z)) (t : HybridTransmitter) : HybridTransmitter :=
  mkHybridTransmitter (t_attr t) (t_mode t) (history_ t) ts rs (seq_num t).

(** The messages that [TransmitHistoryMsg] hands to a task, on a channel of its
    own; an empty list is no task. *)
Definition TransmitHistoryMsg (t : HybridTransmitter) : list (M * MessageInfo) :=
  if transient (t_attr t) then msgs_ (history_ t) else [].

Definition Transmitter_EnableFor (opposite : Attr) (t : HybridTransmitter) : HybridTransmitter * list (M * MessageInfo) :=
  let relation := GetRelation (t_attr t) opposite in
  if decide (relation = NO_RELATION) then (t, [])
  else
    let m := mapping (t_mode t) relation in
    let t := with_reach (<[m := true]> (transmitters_ t)) (<[m := {[id opposite]} ∪ default ∅ (receivers_ t !! m)]> (receivers_ t)) t in
    (t, TransmitHistoryMsg t).

Definition Transmitter_DisableFor (opposite : Attr) (t : HybridTransmitter) : HybridTransmitter :=
  let relation := GetRelation (t_attr t) opposite in
  if decide (relation = NO_RELATION) then t
  else
    let m := mapping (t_mode t) relation in
    let left := default ∅ (receivers_ t !! m) ∖ {[id opposite]} in
    with_reach (if bool_decide (left = ∅) then <[m := false]> (transmitters_ t) else transmitters_ t) (<[m := left]> (receivers_ t)) t.

(** [Transmit(msg, msg_info)]: the ways it goes; the result is always true. *)
Definition enabled_modes (t : HybridTransmitter) : list OptionalMode := (filter (λ x, x.2 = true) (map_to_list (transmitters_ t))).*1.

Definition Transmit (msg : M) (msg_info : MessageInfo) (t : HybridTransmitter) : HybridTransmitter * list OptionalMode :=
  (mkHybridTransmitter (t_attr t) (t_mode t) (Add (history_ t) msg msg_info) (transmitters_ t) (receivers_ t) (seq_num t), enabled_modes t).

(** [Transmitter::Transmit(msg)]; [info] is [msg_info_], in which the sender
    is set. *)
Definition Transmit_next (info : MessageInfo) (msg : M) (t : HybridTransmitter) : HybridTransmitter * list OptionalMode * MessageInfo :=
  let n := u64 (seq_num t + 1) in
  let t := mkHybridTransmitter (t_attr t) (t_mode t) (history_ t) (transmitters_ t) (receivers_ t) n in
  let info := mkInfo (sender_id_ info) (channel_id_ info) n (spare_id_ info) in
  (Transmit msg info t, info).

(** ** [HybridReceiver]

    What is called of the dispatcher of a way: listening to one writer, or to
    the whole channel. *)
Inductive listen_call := AddListener (m : OptionalMode) (opposite : option Z) | RemoveListener (m : OptionalMode) (opposite : option Z).

Record HybridReceiver := mkHybridReceiver {
  r_attr : Attr; r_mode : CommunicationMode; r_history : @History M;
  r_receivers : gmap OptionalMode bool;
  r_transmitters : gmap OptionalMode (gmap Z Attr) }.

Definition HybridReceiver_new (conf : option CommunicationMode) (limit : option Z) (attr : Attr) : HybridReceiver :=
  let mode := ObtainConfig conf in
  mkHybridReceiver attr mode (InitHistory limit attr) (gset_to_gmap false (modes mode)) (gset_to_gmap ∅ (modes mode)).

Definition with_writers (ts : gmap OptionalMode (gmap Z Attr)) (r : HybridReceiver) : HybridReceiver :=
  mkHybridReceiver (r_attr r) (r_mode r) (r_history r) (r_receivers r) ts.

(** All receivers start to listen, those that do not yet. *)
Definition Receiver_Enable (r : HybridReceiver) : HybridReceiver * list listen_call :=
  (mkHybridReceiver (r_attr r) (r_mode r) (r_history r) ((λ _, true) <$> r_receivers r) (r_transmitters r),
   (λ x, AddListener x.1 None) <$> filter (λ x, x.2 = false) (map_to_list (r_receivers r))).
Definition Receiver_Disable (r : HybridReceiver) : HybridReceiver * list listen_call :=
  (mkHybridReceiver (r_attr r) (r_mode r) (r_history r) ((λ _, false) <$> r_receivers r) (r_transmitters r),
   (λ x, RemoveListener x.1 None) <$> filter (λ x, x.2 = true) (map_to_list (r_receivers r))).

(** Whether [ReceiveHistoryMsg] starts a task is the last result. *)
Definition Receiver_EnableFor (opposite : Attr) (r : HybridReceiver) : HybridReceiver * list listen_call * bool :=
  let relation := GetRelation (r_attr r) opposite in
  if decide (relation = NO_RELATION) then (r, [], false)
  else
    let m := mapping (r_mode r) relation in
    let ws := default ∅ (r_transmitters r !! m) in
    match ws !! id opposite with
    | Some _ => (r, [], false)
    | None => (with_writers (<[m := <[id opposite := opposite]> ws]> (r_transmitters r)) r, [AddListener m (Some (id opposite))], transient opposite)
    end.

Definition Receiver_DisableFor (opposite : Attr) (r : HybridReceiver) : HybridReceiver * list listen_call :=
  let relation := GetRelation (r_attr r) opposite in
  if decide (relation = NO_RELATION) then (r, [])
  else
    let m := mapping (r_mode r) relation in
    let ws := default ∅ (r_transmitters r !! m) in
    match ws !! id opposite with
    | Some _ => (with_writers (<[m := delete (id opposite) ws]> (r_transmitters r)) r, [RemoveListener m (Some (id opposite))])
    | None => (r, [])
    end.

(** The destructor. *)
Definition ClearTransmitters (r : HybridReceiver) : HybridReceiver * list listen_call :=
  (with_writers ∅ r,
   map_to_list (r_transmitters r) ≫= (λ x, (λ y, RemoveListener x.1 (Some y.1)) <$> map_to_list x.2)).

(** The channel on which a late reader gets the history of a writer. *)
Definition history_channel (writer_id reader_id : Z) : string := put_digits 20 writer_id EmptyString +:+ put_digits 20 reader_id EmptyString.

(** ** What a transmitter reaches *)

Definition way (own opposite : Attr) (mode : CommunicationMode) (m : OptionalMode) : Prop :=
  GetRelation own opposite ≠ NO_RELATION ∧ mapping mode (GetRelation own opposite) = m.

(** Its receivers are the roles it was enabled for, each on its way, and a way is
    enabled while it has a receiver. *)
Record reach_ok (known : list Attr) (t : HybridTransmitter) : Prop := {
  ro_receivers m x : x ∈ default ∅ (receivers_ t !! m) ↔ ∃ r, r ∈ known ∧ id r = x ∧ way (t_attr t) r (t_mode t) m;
  ro_enabled m : transmitters_ t !! m = Some true ↔ default ∅ (receivers_ t !! m) ≠ ∅;
}.

Lemma reach_new limit attr conf : reach_ok [] (HybridTransmitter_new conf limit attr).
Proof using Type.
  split.
  - intros m x. simpl. rewrite lookup_gset_to_gmap. split; [|by intros (r & ?%elem_of_nil & _)].
    destruct (guard (m ∈ modes (ObtainConfig conf))); simpl; set_solver.
  - intros m. simpl. rewrite !lookup_gset_to_gmap. destruct (guard (m ∈ modes (ObtainConfig conf))); simpl; set_solver.
Qed.

Lemma enable_same a t : t_attr (Transmitter_EnableFor a t).1 = t_attr t ∧ t_mode (Transmitter_EnableFor a t).1 = t_mode t.
Proof using Type. unfold Transmitter_EnableFor. by case_decide. Qed.

Lemma disable_same a t : t_attr (Transmitter_DisableFor a t) = t_attr t ∧ t_mode (Transmitter_DisableFor a t) = t_mode t.
Proof using Type. unfold Transmitter_DisableFor. by case_decide. Qed.

Lemma reach_enable known a t : reach_ok known t → reach_ok (known ++ [a]) (Transmitter_EnableFor a t).1.
Proof using Type.
  intros [H1 H2]. unfold Transmitter_EnableFor. case_decide as Hr.
  - split; [|exact H2]. intros m x. simpl. rewrite H1. split.
    + intros (r & Hk & ? & ?). exists r. split; [set_solver|done].
    + intros (r & [Hk| ->%list_elem_of_singleton]%elem_of_app & ? & Hw); [by exists r|]. by destruct Hw.
  - set (m0 := mapping (t_mode t) (GetRelation (t_attr t) a)). split; simpl; intros m.
    + intros x. destruct (decide (m = m0)) as [->|Hm].
      * rewrite lookup_insert_eq. simpl. rewrite elem_of_union, elem_of_singleton, H1. split.
        -- intros [->|(r & Hk & ? & ?)]; [exists a; split; [set_solver|done]|exists r; split; [set_solver|done]].
        -- intros (r & [Hk| ->%list_elem_of_singleton]%elem_of_app & ? & Hw); [right; by exists r|by left].
      * rewrite lookup_insert_ne by done. rewrite H1. split.
        -- intros (r & Hk & ? & ?). exists r. split; [set_solver|done].
        -- intros (r & [Hk| ->%list_elem_of_singleton]%elem_of_app & ? & Hw); [by exists r|]. destruct Hw as [_ Hw]. by destruct Hm.
    + destruct (decide (m = m0)) as [->|Hm]; [rewrite !lookup_insert_eq; simpl; set_solver|]. by rewrite !lookup_insert_ne.
Qed.

(** A role that is left out stands for all with its id. *)
Lemma reach_disable known known' a t :
  reach_ok known t → (∀ r, r ∈ known' ↔ r ∈ known ∧ id r ≠ id a) →
  (∀ r, r ∈ known → id r = id a → GetRelation (t_attr t) r = GetRelation (t_attr t) a) →
  reach_ok known' (Transmitter_DisableFor a t).
Proof using Type.
  intros [H1 H2] Hk' Hu. unfold Transmitter_DisableFor. case_decide as Hr.
  - split; [|exact H2]. intros m x. rewrite H1. split; intros (r & Hk & Hi & Hw).
    + exists r. split; [|done]. apply Hk'. split; [done|]. intros E. destruct Hw as [Hw _]. by rewrite (Hu r Hk E) in Hw.
    + apply Hk' in Hk as [Hk _]. by exists r.
  - set (m0 := mapping (t_mode t) (GetRelation (t_attr t) a)).
    assert (Hgone : ∀ m x, m ≠ m0 → x ∈ default ∅ (receivers_ t !! m) → x ≠ id a).
    { intros m x Hm (r & Hk & Hi & Hw)%H1 ->. destruct Hw as [_ Hw]. by rewrite (Hu r Hk Hi) in Hw. }
    split; simpl; intros m.
    + intros x. destruct (decide (m = m0)) as [->|Hm].
      * rewrite lookup_insert_eq. simpl. rewrite elem_of_difference, elem_of_singleton, H1. split.
        -- intros [(r & Hk & Hi & Hw) Hx]. exists r. split; [apply Hk'; split; [done|congruence]|done].
        -- intros (r & [Hk Hne]%Hk' & Hi & Hw). split; [by exists r|congruence].
      * rewrite lookup_insert_ne by done. split.
        -- intros Hx. pose proof (Hgone m x Hm Hx) as Hne. apply H1 in Hx as (r & Hk & Hi & Hw). exists r. split; [apply Hk'; split; [done|congruence]|done].
        -- intros (r & [Hk Hne]%Hk' & Hi & Hw). apply H1. by exists r.
    + destruct (decide (m = m0)) as [->|Hm].
      * rewrite lookup_insert_eq. simpl. case_bool_decide as He; [rewrite lookup_insert_eq, He; naive_solver|].
        rewrite H2. split; [done|]. intros _. set_solver.
      * rewrite lookup_insert_ne by done. case_bool_decide; [rewrite lookup_insert_ne by done|]; apply H2.
Qed.

(** What is sent. *)
Lemma enabled_modes_spec t m : m ∈ enabled_modes t ↔ transmitters_ t !! m = Some true.
Proof using Type.
  unfold enabled_modes. rewrite list_elem_of_fmap. split.
  - intros ([m' b] & -> & [Hb Hm]%list_elem_of_filter). simpl in *. subst b. by apply elem_of_map_to_list.
  - intros H. exists (m, true). split; [done|]. apply list_elem_of_filter. split; [done|]. by apply elem_of_map_to_list.
Qed.

Lemma enabled_modes_NoDup t : NoDup (enabled_modes t).
Proof using Type.
  unfold enabled_modes. apply NoDup_fmap_fst; [|apply NoDup_filter, NoDup_map_to_list].
  intros x y y' [_ H]%list_elem_of_filter [_ H']%list_elem_of_filter. apply elem_of_map_to_list in H, H'. congruence.
Qed.

(** ** What a receiver listens to *)

Lemma GetRelation_sym a b : GetRelation a b = GetRelation b a.
Proof using Type.
  unfold GetRelation. rewrite (bool_decide_ext (channel_name b = channel_name a) (channel_name a = channel_name b)) by done.
  rewrite (bool_decide_ext (host_ip b = host_ip a) (host_ip a = host_ip b)) by done. by rewrite (Z.eqb_sym (process_id b)).
Qed.

Lemma GetRelation_none a b : GetRelation a b = NO_RELATION ↔ channel_name b ≠ channel_name a.
Proof using Type. unfold GetRelation. repeat case_bool_decide; simpl; repeat case_match; naive_solver. Qed.

(** The writer [x], with its attributes, among those of a receiver on the way
    [m]. *)
Definition hears (r : HybridReceiver) (m : OptionalMode) (x : Z) : option Attr := default ∅ (r_transmitters r !! m) !! x.

Definition entries_ok (r : HybridReceiver) : Prop := ∀ m x a, hears r m x = Some a → id a = x ∧ way (r_attr r) a (r_mode r) m.

Lemma receiver_enable_spec a r : entries_ok r →
  let '(r', xs, _) := Receiver_EnableFor a r in
  r_attr r' = r_attr r ∧ r_mode r' = r_mode r ∧ entries_ok r' ∧
  (∀ m x, hears r' m x = hears r m x ∨ (x = id a ∧ way (r_attr r) a (r_mode r) m ∧ hears r m x = None ∧ hears r' m x = Some a ∧ xs = [AddListener m (Some x)])) ∧
  (∀ m, way (r_attr r) a (r_mode r) m → is_Some (hears r' m (id a))) ∧
  (xs = [] ∨ ∃ m, way (r_attr r) a (r_mode r) m ∧ xs = [AddListener m (Some (id a))]).
Proof using Type.
  intros Hok. unfold Receiver_EnableFor. case_decide as Hr.
  { split_and!; try done; [by left|intros m [Hw _]; done|by left]. }
  set (m0 := mapping (r_mode r) (GetRelation (r_attr r) a)).
  change (default ∅ (r_transmitters r !! m0) !! id a) with (hears r m0 (id a)). destruct (hears r m0 (id a)) as [b|] eqn:E.
  { split_and!; try done; [by left| |by left]. intros m [_ <-]. by exists b. }
  assert (Hh : ∀ m x, hears (with_writers (<[m0 := <[id a := a]> (default ∅ (r_transmitters r !! m0))]> (r_transmitters r)) r) m x =
    if decide (m = m0 ∧ x = id a) then Some a else hears r m x).
  { intros m x. unfold hears at 1. simpl. destruct (decide (m = m0)) as [->|Hm].
    - rewrite lookup_insert_eq. simpl. destruct (decide (x = id a)) as [->|Hx].
      + rewrite lookup_insert_eq, decide_True by done. done.
      + rewrite lookup_insert_ne, decide_False by naive_solver. done.
    - rewrite lookup_insert_ne, decide_False by naive_solver. done. }
  split_and!; try done.
  - intros m x b. rewrite Hh. case_decide as Hd; [|apply Hok]. destruct Hd as [-> ->]. by intros [= <-].
  - intros m x. rewrite Hh. case_decide as Hd; [|by left]. destruct Hd as [-> ->]. right. done.
  - intros m [_ <-]. rewrite Hh, decide_True by done. done.
  - right. by exists m0.
Qed.

Lemma receiver_disable_spec a r : entries_ok r →
  let '(r', xs) := Receiver_DisableFor a r in
  r_attr r' = r_attr r ∧ r_mode r' = r_mode r ∧ entries_ok r' ∧
  (∀ m x, hears r' m x = if decide (x = id a ∧ way (r_attr r) a (r_mode r) m) then None else hears r m x) ∧
  (∀ m x, hears r m x = hears r' m x ∨ (x = id a ∧ way (r_attr r) a (r_mode r) m ∧ is_Some (hears r m x) ∧ xs = [RemoveListener m (Some x)])) ∧
  (xs = [] ∨ ∃ m, way (r_attr r) a (r_mode r) m ∧ xs = [RemoveListener m (Some (id a))]).
Proof using Type.
  intros Hok. unfold Receiver_DisableFor. case_decide as Hr.
  { split_and!; try done; [|by left|by left]. intros m x. rewrite decide_False; [done|]. intros [_ [Hw _]]. done. }
  set (m0 := mapping (r_mode r) (GetRelation (r_attr r) a)).
  change (default ∅ (r_transmitters r !! m0) !! id a) with (hears r m0 (id a)). destruct (hears r m0 (id a)) as [b|] eqn:E.
  2:{ split_and!; try done; [|by left|by left]. intros m x. case_decide as Hd; [|done]. destruct Hd as (-> & _ & <-). done. }
  assert (Hh : ∀ m x, hears (with_writers (<[m0 := delete (id a) (default ∅ (r_transmitters r !! m0))]> (r_transmitters r)) r) m x =
    if decide (x = id a ∧ way (r_attr r) a (r_mode r) m) then None else hears r m x).
  { intros m x. unfold hears at 1. simpl. destruct (decide (m = m0)) as [->|Hm].
    - rewrite lookup_insert_eq. simpl. destruct (decide (x = id a)) as [->|Hx].
      + rewrite lookup_delete_eq, decide_True by done. done.
      + rewrite lookup_delete_ne, decide_False by naive_solver. done.
    - rewrite lookup_insert_ne by done. rewrite decide_False; [done|]. intros (_ & _ & <-). done. }
  split_and!; try done.
  - intros m x c. rewrite Hh. destruct (decide (x = id a ∧ way (r_attr r) a (r_mode r) m)); [done|]. exact (Hok m x c).
  - intros m x. rewrite Hh. destruct (decide (x = id a ∧ way (r_attr r) a (r_mode r) m)) as [Hd|]; [|by left]. destruct Hd as (-> & Hw). right. split_and!; try done; destruct Hw as [_ <-]; [by exists b|done].
  - right. by exists m0.
Qed.
End Hybrid.

(** Two writers with two readers whose histories go over one channel. *)
Lemma history_channels_collide : history_channel 1 23 = history_channel 12 3.
Proof. vm_compute. reflexivity. Qed.
