(* ===== verification/Channels.v ===== *)
(** * Writers and readers of channels

    [Writer] ([src/code/cyber/node/writer.h]), [Reader] ([node/reader.h]) and
    [ReceiverManager] ([node/reader_base.h]) of several processes.  A writer
    enables its transmitter for the readers that the channel manager knows and
    hears of the others when they come; a reader does the same with the
    receiver of the channel, which all readers of the channel in the process
    share.  Here the channel managers are the lists of roles they know
    ([ChannelTracking] shows that they are) and announcements arrive in the
    order in which a process sent them, one process later than another.  What a
    receiver gets goes to [DataDispatcher]. *)

From stdpp Require Import base list strings gmap fin_maps.
From S2P Require Import Prelude Message Hybrid.

(** ** Roles, media, processes *)

(** The host of a role is its name and its address in one. *)
Record Role := mkRole { attr : Attr; node_name : string; node_id : Z }.

Definition Match (own target : Role) : bool :=
  bool_decide (channel_name (attr own) = channel_name (attr target)) && (id (attr own) =? id (attr target)) &&
  (node_id own =? node_id target) && (process_id (attr own) =? process_id (attr target)) &&
  bool_decide (host_ip (attr own) = host_ip (attr target)).

(** What the receivers of a mode listen to: the dispatcher in the process, that
    of the shared memory, or RTPS. *)
Inductive Medium := Intra | Shm | Rtps.
#[global] Instance Medium_eq_dec : EqDecision Medium.
Proof. solve_decision. Defined.
#[global] Instance Medium_countable : Countable Medium.
Proof.
  apply (inj_countable' (λ m, match m with Intra => 0%nat | Shm => 1%nat | Rtps => 2%nat end)
    (λ n, match n with 0%nat => Intra | 1%nat => Shm | _ => Rtps end)).
  by intros [].
Defined.

Definition medium (m : OptionalMode) : Medium := match m with INTRA => Intra | SHM => Shm | _ => Rtps end.

Record change := mkChange { joins : bool; is_writer : bool; role : Role }.

Section Channels.
Context {M : Type}.
Context (conf : option CommunicationMode) (limit : option Z).

Record Writer := mkWriter { w_role : Role; transmitter_ : @HybridTransmitter M; msg_info_ : MessageInfo }.

(** [listening]: the listeners of the dispatchers, by medium, channel, the
    receiver that listens, and the writer it listens to.  [readers] by a handle.
    [tasks]: the names of the tasks of the scheduler.  [log]: what the process announced. *)
Record Process := mkProcess {
  p_host : string; p_pid : Z;
  writers : gmap Z Writer; readers : gmap nat Role; tasks : gset string;
  receiver_map_ : gmap string (@HybridReceiver M);
  listening : gset (Medium * string * Z * option Z);
  known_writers : list Role; known_readers : list Role;
  log : list change }.

Definition new_process (x : string * Z) : Process := mkProcess x.1 x.2 ∅ ∅ ∅ ∅ ∅ [] [] [].

Definition with_writers (ws : gmap Z Writer) (p : Process) : Process :=
  mkProcess (p_host p) (p_pid p) ws (readers p) (tasks p) (receiver_map_ p) (listening p) (known_writers p) (known_readers p) (log p).
Definition with_readers (rs : gmap nat Role) (ts : gset string) (p : Process) : Process :=
  mkProcess (p_host p) (p_pid p) (writers p) rs ts (receiver_map_ p) (listening p) (known_writers p) (known_readers p) (log p).
Definition with_receiver (c : string) (r : @HybridReceiver M) (l : gset (Medium * string * Z * option Z)) (p : Process) : Process :=
  mkProcess (p_host p) (p_pid p) (writers p) (readers p) (tasks p) (<[c := r]> (receiver_map_ p)) l (known_writers p) (known_readers p) (log p).
Definition with_known (ws rs : list Role) (p : Process) : Process :=
  mkProcess (p_host p) (p_pid p) (writers p) (readers p) (tasks p) (receiver_map_ p) (listening p) ws rs (log p).
Definition with_log (l : list change) (p : Process) : Process :=
  mkProcess (p_host p) (p_pid p) (writers p) (readers p) (tasks p) (receiver_map_ p) (listening p) (known_writers p) (known_readers p) l.

(** ** Calls of the dispatchers *)

Definition do_call (a : Attr) (l : gset (Medium * string * Z * option Z)) (x : listen_call) : gset (Medium * string * Z * option Z) :=
  match x with
  | AddListener m o => {[(medium m, channel_name a, id a, o)]} ∪ l
  | RemoveListener m o => l ∖ {[(medium m, channel_name a, id a, o)]}
  end.
Definition do_calls (a : Attr) (xs : list listen_call) (l : gset (Medium * string * Z * option Z)) : gset (Medium * string * Z * option Z) :=
  foldl (do_call a) l xs.

(** [receiver_->Enable(writer)], [receiver_->Disable(writer)]. *)
Definition receiver_enable (c : string) (p : Process) (w : Role) : Process :=
  match receiver_map_ p !! c with
  | None => p
  | Some r => let '(r', xs, _) := Receiver_EnableFor (attr w) r in with_receiver c r' (do_calls (r_attr r) xs (listening p)) p
  end.
Definition receiver_disable (c : string) (p : Process) (w : Role) : Process :=
  match receiver_map_ p !! c with
  | None => p
  | Some r => let '(r', xs) := Receiver_DisableFor (attr w) r in with_receiver c r' (do_calls (r_attr r) xs (listening p)) p
  end.

(** ** [OnChannelChange] *)

Definition Reader_OnChannelChange (x : change) (p : Process) (rd : Role) : Process :=
  if negb (is_writer x) then p
  else if negb (bool_decide (channel_name (attr (role x)) = channel_name (attr rd))) then p
  else if joins x then receiver_enable (channel_name (attr rd)) p (role x) else receiver_disable (channel_name (attr rd)) p (role x).

Definition Writer_OnChannelChange (x : change) (w : Writer) : Writer :=
  if is_writer x then w
  else if negb (bool_decide (channel_name (attr (role x)) = channel_name (attr (w_role w)))) then w
  else mkWriter (w_role w)
         (if joins x then (Transmitter_EnableFor (attr (role x)) (transmitter_ w)).1 else Transmitter_DisableFor (attr (role x)) (transmitter_ w))
         (msg_info_ w).

(** A change reaches the channel manager of a process: what it knows, and its
    change listeners. *)
Definition known_after (x : change) (rs : list Role) : list Role :=
  if joins x then rs ++ [role x] else filter (λ r, Match r (role x) = false) rs.

Definition notify (x : change) (p : Process) : Process :=
  let p := foldl (Reader_OnChannelChange x) p (map_to_list (readers p)).*2 in
  with_writers (Writer_OnChannelChange x <$> writers p) p.

Definition dispose (x : change) (p : Process) : Process :=
  notify x
    (if is_writer x then with_known (known_after x (known_writers p)) (known_readers p) p
     else with_known (known_writers p) (known_after x (known_readers p)) p).

(** [ChannelManager::Join], [Leave]: the change takes effect here and is
    announced. *)
Definition announce (x : change) (p : Process) : Process := let p := dispose x p in with_log (log p ++ [x]) p.

Definition of_channel (c : string) (rs : list Role) : list Role := filter (λ r, channel_name (attr r) = c) rs.

(** ** [Init] and [Shutdown] *)

Definition role_of (p : Process) (c : string) (i : Z) (h : HistoryAttributes) (t : bool) (node : string * Z) : Role :=
  mkRole (mkAttr c (p_host p) (p_pid p) i h t) node.1 node.2.

(** [i]: the hash of the uuid of the transmitter. *)
Definition Writer_Init (c : string) (i : Z) (node : string * Z) (h : HistoryAttributes) (t : bool) (info : MessageInfo) (p : Process) : Process :=
  let rl := role_of p c i h t node in
  let tr := foldl (λ tr r, (Transmitter_EnableFor (attr r) tr).1) (HybridTransmitter_new conf limit (attr rl)) (of_channel c (known_readers p)) in
  announce (mkChange true true rl) (with_writers (<[i := mkWriter rl tr info]> (writers p)) p).

Definition Writer_Shutdown (i : Z) (w : Writer) (p : Process) : Process :=
  announce (mkChange false true (w_role w)) (with_writers (delete i (writers p)) p).

(** [ReceiverManager::GetReceiver]; [i] is the id of a receiver that is new. *)
Definition GetReceiver (a : Attr) (p : Process) : Process * @HybridReceiver M :=
  match receiver_map_ p !! channel_name a with
  | Some r => (p, r)
  | None => let r := HybridReceiver_new conf limit a in (with_receiver (channel_name a) r (listening p) p, r)
  end.

(** [croutine_name_]: the task that calls the reader. *)
Definition croutine_name (rl : Role) : string := node_name rl +:+ "_" +:+ channel_name (attr rl).

(** There is no second task of a name; [DispatchTask] of [Scheduler] has that. *)
Definition Reader_Init (k : nat) (c : string) (i : Z) (node : string * Z) (h : HistoryAttributes) (t : bool) (p : Process) : Process * bool :=
  let name := croutine_name (role_of p c i h t node) in
  if decide (name ∈ tasks p) then (p, false)
  else
    let '(p, r) := GetReceiver (attr (role_of p c i h t node)) p in
    let rl := role_of p c (id (r_attr r)) h t node in
    let p := with_readers (<[k := rl]> (readers p)) ({[name]} ∪ tasks p) p in
    let p := foldl (receiver_enable c) p (of_channel c (known_writers p)) in
    (announce (mkChange true false rl) p, true).

Definition Reader_Shutdown (k : nat) (rl : Role) (p : Process) : Process :=
  let p := with_readers (delete k (readers p)) (tasks p) p in
  let p := announce (mkChange false false rl) p in
  with_readers (readers p) (tasks p ∖ {[croutine_name rl]}) p.

(** What the manager is asked. *)
Definition GetReaders (c : string) (p : Process) : list Role := of_channel c (known_readers p).
Definition GetWriters (c : string) (p : Process) : list Role := of_channel c (known_writers p).
Definition HasReader (c : string) (p : Process) : bool := negb (bool_decide (GetReaders c p = [])).
Definition HasWriter (c : string) (p : Process) : bool := negb (bool_decide (GetWriters c p = [])).

(** ** [Write]

    The writer with its next message, and the modes in which it is sent. *)
Definition Write (i : Z) (w : Writer) (msg : M) (p : Process) : Process * list OptionalMode :=
  let '(t, ms, info) := Transmit_next (msg_info_ w) msg (transmitter_ w) in
  (with_writers (<[i := mkWriter (w_role w) t info]> (writers p)) p, ms).

(** What a medium carries from one process to another. *)
Definition reaches (m : Medium) (p q : Process) : bool :=
  match m with
  | Intra => bool_decide (p_host p = p_host q) && (p_pid p =? p_pid q)
  | Shm => bool_decide (p_host p = p_host q)
  | Rtps => true
  end.

(** The receivers of [q] that are called for a message that writer [i] of [p]
    sends in the modes [ms]. *)
Definition heard (c : string) (i : Z) (ms : list OptionalMode) (p q : Process) : list Z :=
  ms ≫= (λ m, if reaches (medium m) p q
              then (λ x, x.1.2) <$> elements (filter (λ x, x.1.1 = (medium m, c) ∧ (x.2 = None ∨ x.2 = Some i)) (listening q))
              else []).

(** ** Several processes

    [seen (q, p)]: how many announcements of [p] have reached [q]. *)
Record sys := mkSys { procs : list Process; seen : gmap (nat * nat) nat; used : gset Z }.

Inductive label :=
  | NewWriter (q : nat) (c : string) (i : Z) (node : string * Z) (h : HistoryAttributes) (t : bool) (info : MessageInfo)
  | CloseWriter (q : nat) (i : Z)
  | NewReader (q k : nat) (c : string) (i : Z) (node : string * Z) (h : HistoryAttributes) (t : bool)
  | CloseReader (q k : nat)
  | Publish (q : nat) (i : Z) (msg : M)
  | Announce (p q : nat).

(** Ids are hashes of uuids: two of them are never the same. *)
Definition exec (s : sys) (l : label) : option sys :=
  match l with
  | NewWriter q c i node h t info =>
      match procs s !! q with
      | Some p => if decide (i ∈ used s) then None
                  else Some (mkSys (<[q := Writer_Init c i node h t info p]> (procs s)) (seen s) ({[i]} ∪ used s))
      | None => None
      end
  | CloseWriter q i =>
      match procs s !! q with
      | Some p => match writers p !! i with Some w => Some (mkSys (<[q := Writer_Shutdown i w p]> (procs s)) (seen s) (used s)) | None => None end
      | None => None
      end
  | NewReader q k c i node h t =>
      match procs s !! q with
      | Some p => if decide (i ∈ used s ∨ is_Some (readers p !! k)) then None
                  else Some (mkSys (<[q := (Reader_Init k c i node h t p).1]> (procs s)) (seen s) ({[i]} ∪ used s))
      | None => None
      end
  | CloseReader q k =>
      match procs s !! q with
      | Some p => match readers p !! k with Some rl => Some (mkSys (<[q := Reader_Shutdown k rl p]> (procs s)) (seen s) (used s)) | None => None end
      | None => None
      end
  | Publish q i msg =>
      match procs s !! q with
      | Some p => match writers p !! i with Some w => Some (mkSys (<[q := (Write i w msg p).1]> (procs s)) (seen s) (used s)) | None => None end
      | None => None
      end
  | Announce p q =>
      match procs s !! p, procs s !! q with
      | Some a, Some b =>
          let n := default 0%nat (seen s !! (q, p)) in
          match log a !! n with
          | Some x => if decide (p = q) then None else Some (mkSys (<[q := dispose x b]> (procs s)) (<[(q, p) := S n]> (seen s)) (used s))
          | None => None
          end
      | _, _ => None
      end
  end.

Definition start (ps : list (string * Z)) : sys := mkSys (new_process <$> ps) ∅ ∅.

(** ** What holds in a process

    [G]: the roles that writers ever had. *)
Context (G : Role → Prop) (G_ids : ∀ a b, G a → G b → id (attr a) = id (attr b) → a = b).

Abbreviation mode := (ObtainConfig conf).

Record rcv_ok (p : Process) : Prop := {
  rv_receiver c r : receiver_map_ p !! c = Some r →
    channel_name (r_attr r) = c ∧ host_ip (r_attr r) = p_host p ∧ process_id (r_attr r) = p_pid p ∧ r_mode r = mode ∧ entries_ok r ∧
    ∀ m x a, hears r m x = Some a → ∃ rl, G rl ∧ attr rl = a;
  rv_listening med c i o : (med, c, i, o) ∈ listening p ↔
    ∃ r m x, receiver_map_ p !! c = Some r ∧ i = id (r_attr r) ∧ o = Some x ∧ med = medium m ∧ is_Some (hears r m x);
}.

Definition same_but_receivers (p p' : Process) : Prop :=
  p_host p' = p_host p ∧ p_pid p' = p_pid p ∧ writers p' = writers p ∧ readers p' = readers p ∧
  known_writers p' = known_writers p ∧ known_readers p' = known_readers p ∧ log p' = log p ∧
  (∀ c, receiver_map_ p !! c = None → receiver_map_ p' !! c = None).

(** A receiver hears a writer on one way only. *)
Lemma hears_one p c r m m' x : rcv_ok p → receiver_map_ p !! c = Some r → is_Some (hears r m x) → is_Some (hears r m' x) → m = m'.
Proof using G_ids.
  intros Hp Hr [a Ha] [b Hb]. destruct (rv_receiver _ Hp _ _ Hr) as (_ & _ & _ & _ & He & Hg).
  destruct (Hg _ _ _ Ha) as (ra & Gra & <-). destruct (Hg _ _ _ Hb) as (rb & Grb & <-).
  destruct (He _ _ _ Ha) as [Ia [_ <-]]. destruct (He _ _ _ Hb) as [Ib [_ <-]]. by rewrite (G_ids ra rb Gra Grb) by congruence.
Qed.

(** Replacing the receiver of a channel, with the calls it made. *)
Lemma with_receiver_ok p c r r' xs :
  rcv_ok p → receiver_map_ p !! c = Some r → r_attr r' = r_attr r → r_mode r' = r_mode r → entries_ok r' →
  (∀ m x a, hears r' m x = Some a → ∃ rl, G rl ∧ attr rl = a) →
  (∀ med i o, (med, c, i, o) ∈ do_calls (r_attr r) xs (listening p) ↔
     ∃ m x, i = id (r_attr r) ∧ o = Some x ∧ med = medium m ∧ is_Some (hears r' m x)) →
  (∀ med c' i o, c' ≠ c → (med, c', i, o) ∈ do_calls (r_attr r) xs (listening p) ↔ (med, c', i, o) ∈ listening p) →
  rcv_ok (with_receiver c r' (do_calls (r_attr r) xs (listening p)) p).
Proof using Type.
  intros [H1 H2] Hr Ha Hm He Hg Hl Hl'. split.
  - intros c' r''. simpl. rewrite lookup_insert_Some. intros [[<- <-]|[_ H]]; [|by apply H1].
    destruct (H1 _ _ Hr) as (? & ? & ? & ? & _ & _). rewrite Ha, Hm. done.
  - intros med c' i o. simpl. destruct (decide (c' = c)) as [->|Hc].
    + rewrite Hl. split.
      * intros (m & x & -> & -> & -> & Hx). exists r', m, x. rewrite lookup_insert_eq, Ha. done.
      * intros (r'' & m & x & E & -> & -> & -> & Hx). rewrite lookup_insert_eq in E. injection E as <-. exists m, x. by rewrite Ha.
    + rewrite Hl' by done. rewrite H2. split; intros (r'' & m & x & E & Hx); exists r'', m, x; [rewrite lookup_insert_ne by done|rewrite lookup_insert_ne in E by done]; done.
Qed.

Lemma with_receiver_same c r l p : is_Some (receiver_map_ p !! c) → same_but_receivers p (with_receiver c r l p).
Proof using Type.
  intros [x Hx]. split_and!; try done. intros c' H. simpl. rewrite lookup_insert_ne; [done|]. intros ->. congruence.
Qed.

Lemma receiver_enable_ok c p w : rcv_ok p → G w →
  let p' := receiver_enable c p w in
  rcv_ok p' ∧ same_but_receivers p p' ∧
  ∀ c' r, receiver_map_ p !! c' = Some r → ∃ r', receiver_map_ p' !! c' = Some r' ∧ r_attr r' = r_attr r ∧
    (∀ m x, is_Some (hears r m x) → is_Some (hears r' m x)) ∧
    (c' = c → ∀ m, way (r_attr r) (attr w) mode m → is_Some (hears r' m (id (attr w)))).
Proof using G_ids.
  intros Hp Gw. unfold receiver_enable. destruct (receiver_map_ p !! c) as [r|] eqn:Er; simpl.
  2:{ split; [done|]. split; [by split_and!|]. intros c' r Hr. exists r. split_and!; try done. intros ->. congruence. }
  destruct (rv_receiver _ Hp _ _ Er) as (Rc & Rh & Rp & Rm & Re & Rg).
  pose proof (receiver_enable_spec (attr w) r Re) as Hs. destruct (Receiver_EnableFor (attr w) r) as [[r' xs] t].
  destruct Hs as (A1 & A2 & A3 & A4 & A5 & A6).
  assert (Hmono : ∀ m x, is_Some (hears r m x) → is_Some (hears r' m x)).
  { intros m x Hx. destruct (A4 m x) as [->|(_ & _ & E & _)]; [done|]. rewrite E in Hx. by destruct Hx. }
  split.
  { apply (with_receiver_ok p c r r' xs); try done.
    - intros m x a Hx. destruct (A4 m x) as [E|(_ & _ & _ & E & _)]; rewrite E in Hx; [by eapply Rg|]. injection Hx as <-. by exists w.
    - intros med i o. split.
      + destruct A6 as [->|(m0 & Hw & ->)]; simpl.
        * intros (r2 & m & x & E & -> & -> & -> & Hx)%(rv_listening _ Hp). rewrite Er in E. injection E as <-. exists m, x. auto.
        * rewrite elem_of_union, elem_of_singleton. intros [[= -> -> ->]|(r2 & m & x & E & -> & -> & -> & Hx)%(rv_listening _ Hp)].
          -- exists m0, (id (attr w)). split_and!; try done. by apply A5.
          -- rewrite Er in E. injection E as <-. exists m, x. auto.
      + intros (m & x & -> & -> & -> & Hx). destruct (A4 m x) as [E|(-> & Hw & _ & _ & ->)].
        * rewrite E in Hx. assert (Hin : (medium m, c, id (r_attr r), Some x) ∈ listening p) by (apply (rv_listening _ Hp); by exists r, m, x).
          destruct A6 as [->|(m0 & _ & ->)]; simpl; [done|]. apply elem_of_union. by right.
        * simpl. rewrite Rc. set_solver.
    - intros med c' i o Hc. destruct A6 as [->|(m0 & _ & ->)]; simpl; [done|]. rewrite elem_of_union, elem_of_singleton. split; [|by right].
      intros [[= -> -> _ _]|?]; [|done]. done. }
  split; [by apply with_receiver_same; exists r|]. intros c' r2 Hr2. simpl. destruct (decide (c' = c)) as [->|Hc].
  - rewrite Er in Hr2. injection Hr2 as <-. exists r'. rewrite lookup_insert_eq. split_and!; try done. intros _ m Hw. rewrite <- Rm in Hw. by apply A5.
  - exists r2. rewrite lookup_insert_ne by done. split_and!; done.
Qed.

Lemma receiver_disable_ok c p w : rcv_ok p → G w →
  let p' := receiver_disable c p w in
  rcv_ok p' ∧ same_but_receivers p p' ∧
  ∀ c' r, receiver_map_ p !! c' = Some r → ∃ r', receiver_map_ p' !! c' = Some r' ∧ r_attr r' = r_attr r ∧
    (∀ m x, is_Some (hears r m x) → x ≠ id (attr w) → is_Some (hears r' m x)).
Proof using G_ids.
  intros Hp Gw. unfold receiver_disable. destruct (receiver_map_ p !! c) as [r|] eqn:Er; simpl.
  2:{ split; [done|]. split; [by split_and!|]. intros c' r Hr. exists r. by split_and!. }
  destruct (rv_receiver _ Hp _ _ Er) as (Rc & Rh & Rp & Rm & Re & Rg).
  pose proof (receiver_disable_spec (attr w) r Re) as Hs. destruct (Receiver_DisableFor (attr w) r) as [r' xs].
  destruct Hs as (A1 & A2 & A3 & A4 & A5 & A6).
  assert (Hanti : ∀ m x a, hears r' m x = Some a → hears r m x = Some a).
  { intros m x a. rewrite A4. by destruct (decide (x = id (attr w) ∧ way (r_attr r) (attr w) (r_mode r) m)). }
  split.
  { apply (with_receiver_ok p c r r' xs); try done.
    - intros m x a Hx%Hanti. by eapply Rg.
    - intros med i o. split.
      + intros Hin. assert (Hin0 : (med, c, i, o) ∈ listening p ∧ ∀ m, xs = [RemoveListener m (Some (id (attr w)))] → (med, c, i, o) ≠ (medium m, c, id (r_attr r), Some (id (attr w)))).
        { destruct A6 as [->|(m0 & _ & ->)]; simpl in Hin; [by split|]. rewrite elem_of_difference, elem_of_singleton, Rc in Hin.
          destruct Hin as [? Hne]. split; [done|]. intros m [= <-]. done. }
        destruct Hin0 as [(r2 & m & x & E & -> & -> & -> & Hx)%(rv_listening _ Hp) Hne]. rewrite Er in E. injection E as <-.
        exists m, x. split_and!; try done. destruct (A5 m x) as [<-|(-> & _ & _ & Exs)]; [done|]. by destruct (Hne m Exs).
      + intros (m & x & -> & -> & -> & [a Ha]). pose proof (Hanti _ _ _ Ha) as Ha0.
        assert (Hin : (medium m, c, id (r_attr r), Some x) ∈ listening p) by (apply (rv_listening _ Hp); exists r, m, x; split_and!; try done; by exists a).
        destruct A6 as [->|(m0 & Hw & ->)]; simpl; [done|]. rewrite elem_of_difference, elem_of_singleton, Rc. split; [done|].
        intros [= Em ->]. destruct (Re _ _ _ Ha0) as [Ia Wa]. destruct (Rg _ _ _ Ha0) as (ra & Gra & <-).
        assert (ra = w) as -> by (by apply G_ids). rewrite A4 in Ha. rewrite decide_True in Ha by done. done.
    - intros med c' i o Hc. destruct A6 as [->|(m0 & _ & ->)]; simpl; [done|]. rewrite elem_of_difference, elem_of_singleton, Rc. split; [by intros [? _]|].
      intros H. split; [done|]. by intros [= _ ? _ _]. }
  split; [by apply with_receiver_same; exists r|]. intros c' r2 Hr2. simpl. destruct (decide (c' = c)) as [->|Hc].
  - rewrite Er in Hr2. injection Hr2 as <-. exists r'. rewrite lookup_insert_eq. split_and!; try done. intros m x Hx Hne. rewrite A4.
    destruct (decide (x = id (attr w) ∧ way (r_attr r) (attr w) (r_mode r) m)) as [[? _]|]; done.
  - exists r2. rewrite lookup_insert_ne by done. split_and!; done.
Qed.

Lemma same_refl p : same_but_receivers p p.
Proof using Type. by split_and!. Qed.

Lemma same_trans p1 p2 p3 : same_but_receivers p1 p2 → same_but_receivers p2 p3 → same_but_receivers p1 p3.
Proof using Type.
  intros (A1 & A2 & A3 & A4 & A5 & A6 & A7 & A8) (B1 & B2 & B3 & B4 & B5 & B6 & B7 & B8). split_and!; try congruence. auto.
Qed.

Lemma reader_hears x p rd : is_writer x = true → Reader_OnChannelChange x p rd =
  if bool_decide (channel_name (attr (role x)) = channel_name (attr rd)) then
    if joins x then receiver_enable (channel_name (attr rd)) p (role x) else receiver_disable (channel_name (attr rd)) p (role x)
  else p.
Proof using Type. intros Hw. unfold Reader_OnChannelChange. rewrite Hw. by case_bool_decide. Qed.

(** All readers of a process hear of a writer. *)
Lemma readers_hear_join x rds : is_writer x = true → joins x = true → G (role x) → ∀ p, rcv_ok p →
  let p' := foldl (Reader_OnChannelChange x) p rds in
  rcv_ok p' ∧ same_but_receivers p p' ∧
  ∀ c r, receiver_map_ p !! c = Some r → ∃ r', receiver_map_ p' !! c = Some r' ∧ r_attr r' = r_attr r ∧
    (∀ m y, is_Some (hears r m y) → is_Some (hears r' m y)) ∧
    ∀ rd m, rd ∈ rds → channel_name (attr rd) = c → way (r_attr r) (attr (role x)) mode m → is_Some (hears r' m (id (attr (role x)))).
Proof using G_ids.
  intros Hw Hj Gx. induction rds as [|rd rds IH]; intros p Hp; simpl.
  { split; [done|]. split; [apply same_refl|]. intros c r Hr. exists r. split_and!; try done. by intros rd m ?%elem_of_nil. }
  rewrite (reader_hears x p rd Hw), Hj.
  destruct (bool_decide (channel_name (attr (role x)) = channel_name (attr rd))) eqn:Ec.
  - destruct (receiver_enable_ok (channel_name (attr rd)) p (role x) Hp Gx) as (Hp1 & S1 & R1).
    destruct (IH _ Hp1) as (Hp2 & S2 & R2). split; [done|]. split; [exact (same_trans _ _ _ S1 S2)|].
    intros c r Hr. destruct (R1 c r Hr) as (r1 & Hr1 & E1 & M1 & N1). destruct (R2 c r1 Hr1) as (r2 & Hr2 & E2 & M2 & N2).
    exists r2. rewrite E2. split_and!; auto. intros rd' m [->|Hin]%elem_of_cons Hc Hm; [by apply M2, N1|]. apply (N2 rd' m Hin Hc). by rewrite E1.
  - apply bool_decide_eq_false in Ec. destruct (IH _ Hp) as (Hp2 & S2 & R2). split; [done|]. split; [done|].
    intros c r Hr. destruct (R2 c r Hr) as (r2 & Hr2 & E2 & M2 & N2). exists r2. split_and!; try done.
    intros rd' m [->|Hin]%elem_of_cons Hc Hm; [|by apply (N2 rd')]. destruct Hm as [Hm _]. destruct Hm. apply GetRelation_none.
    destruct (rv_receiver _ Hp _ _ Hr) as (-> & _). by rewrite <- Hc.
Qed.

Lemma readers_hear_leave x rds : is_writer x = true → joins x = false → G (role x) → ∀ p, rcv_ok p →
  let p' := foldl (Reader_OnChannelChange x) p rds in
  rcv_ok p' ∧ same_but_receivers p p' ∧
  ∀ c r, receiver_map_ p !! c = Some r → ∃ r', receiver_map_ p' !! c = Some r' ∧ r_attr r' = r_attr r ∧
    ∀ m y, is_Some (hears r m y) → y ≠ id (attr (role x)) → is_Some (hears r' m y).
Proof using G_ids.
  intros Hw Hj Gx. induction rds as [|rd rds IH]; intros p Hp; simpl.
  { split; [done|]. split; [apply same_refl|]. intros c r Hr. by exists r. }
  rewrite (reader_hears x p rd Hw), Hj.
  destruct (bool_decide (channel_name (attr (role x)) = channel_name (attr rd))); [|by apply IH].
  destruct (receiver_disable_ok (channel_name (attr rd)) p (role x) Hp Gx) as (Hp1 & S1 & R1).
  destruct (IH _ Hp1) as (Hp2 & S2 & R2). split; [done|]. split; [exact (same_trans _ _ _ S1 S2)|].
  intros c r Hr. destruct (R1 c r Hr) as (r1 & Hr1 & E1 & M1). destruct (R2 c r1 Hr1) as (r2 & Hr2 & E2 & M2).
  exists r2. rewrite E2. split_and!; auto.
Qed.

Lemma readers_hear_nothing x rds p : is_writer x = false → foldl (Reader_OnChannelChange x) p rds = p.
Proof using Type.
  intros Hw. revert p. induction rds as [|rd rds IH]; intros p; [done|]. simpl. unfold Reader_OnChannelChange at 2. rewrite Hw. apply IH.
Qed.

(** ** A process that is up to date with what it knows *)

Record writer_ok (p : Process) (i : Z) (w : Writer) : Prop := {
  wo_id : id (attr (w_role w)) = i;
  wo_transmitter : t_attr (transmitter_ w) = attr (w_role w) ∧ t_mode (transmitter_ w) = mode;
  wo_reach : reach_ok (attr <$> known_readers p) (transmitter_ w);
}.

Record reader_ok (p : Process) (rd : Role) : Prop := {
  do_place : host_ip (attr rd) = p_host p ∧ process_id (attr rd) = p_pid p;
  do_receiver : ∃ r, receiver_map_ p !! channel_name (attr rd) = Some r ∧ id (attr rd) = id (r_attr r) ∧
    ∀ w m, w ∈ known_writers p → way (r_attr r) (attr w) mode m → is_Some (hears r m (id (attr w)));
}.

Record proc_ok (p : Process) : Prop := {
  po_writers i w : writers p !! i = Some w → writer_ok p i w;
  po_readers k rd : readers p !! k = Some rd → reader_ok p rd;
  po_rcv : rcv_ok p;
  po_known w : w ∈ known_writers p → G w;
}.

Lemma Match_refl r : Match r r = true.
Proof using Type. unfold Match. rewrite !bool_decide_eq_true_2, !Z.eqb_refl by done. done. Qed.

Lemma Match_fields a b : Match a b = true →
  channel_name (attr a) = channel_name (attr b) ∧ id (attr a) = id (attr b) ∧ process_id (attr a) = process_id (attr b) ∧ host_ip (attr a) = host_ip (attr b).
Proof using Type. unfold Match. rewrite !andb_true_iff, !bool_decide_eq_true, !Z.eqb_eq. tauto. Qed.

Lemma Match_place a b : Match a b = true → process_id (attr a) = process_id (attr b) ∧ host_ip (attr a) = host_ip (attr b).
Proof using Type. intros H%Match_fields. tauto. Qed.

(** A writer hears of a reader, of its channel or not. *)
Lemma Writer_OnChannelChange_reader x w :
  is_writer x = false → t_attr (transmitter_ w) = attr (w_role w) →
  w_role (Writer_OnChannelChange x w) = w_role w ∧ msg_info_ (Writer_OnChannelChange x w) = msg_info_ w ∧
  transmitter_ (Writer_OnChannelChange x w) =
    if joins x then (Transmitter_EnableFor (attr (role x)) (transmitter_ w)).1 else Transmitter_DisableFor (attr (role x)) (transmitter_ w).
Proof using Type.
  intros Hx Ht. unfold Writer_OnChannelChange. rewrite Hx. case_bool_decide as Hc; cbn [negb]; [done|]. split_and!; try done.
  unfold Transmitter_EnableFor, Transmitter_DisableFor. rewrite Ht. rewrite (proj2 (GetRelation_none _ _) Hc). by destruct (joins x).
Qed.

Lemma dispose_fields x p :
  p_host (dispose x p) = p_host p ∧ p_pid (dispose x p) = p_pid p ∧ readers (dispose x p) = readers p ∧ log (dispose x p) = log p ∧
  known_writers (dispose x p) = (if is_writer x then known_after x (known_writers p) else known_writers p) ∧
  known_readers (dispose x p) = (if is_writer x then known_readers p else known_after x (known_readers p)).
Proof using Type.
  unfold dispose, notify.
  assert (Hf : ∀ rds q, let q' := foldl (Reader_OnChannelChange x) q rds in p_host q' = p_host q ∧ p_pid q' = p_pid q ∧ readers q' = readers q ∧ log q' = log q ∧
    known_writers q' = known_writers q ∧ known_readers q' = known_readers q).
  { intros rds. induction rds as [|rd rds IH]; intros q; [done|]. simpl. destruct (IH (Reader_OnChannelChange x q rd)) as (-> & -> & -> & -> & -> & ->).
    unfold Reader_OnChannelChange, receiver_enable, receiver_disable. repeat case_match; done. }
  destruct (is_writer x); simpl;
    match goal with |- context [foldl _ ?q ?l] => destruct (Hf l q) as (-> & -> & -> & -> & -> & ->) end; done.
Qed.

Lemma dispose_writer_ok x p : proc_ok p → is_writer x = true → G (role x) → proc_ok (dispose x p).
Proof using G_ids.
  intros [Pw Pr Pc Pk] Hx Gx. destruct (dispose_fields x p) as (F1 & F2 & F3 & F4 & F5 & F6). rewrite Hx in F5, F6.
  assert (Hwr : writers (dispose x p) = writers p ∧ rcv_ok (dispose x p) ∧
    ∀ k rd r, readers p !! k = Some rd → receiver_map_ p !! channel_name (attr rd) = Some r →
      ∃ r', receiver_map_ (dispose x p) !! channel_name (attr rd) = Some r' ∧ r_attr r' = r_attr r ∧
        (∀ m y, is_Some (hears r m y) → joins x = true ∨ y ≠ id (attr (role x)) → is_Some (hears r' m y)) ∧
        (joins x = true → ∀ m, way (r_attr r) (attr (role x)) mode m → is_Some (hears r' m (id (attr (role x)))))).
  { unfold dispose, notify. rewrite Hx. simpl. set (p1 := with_known _ _ p).
    assert (Hp1 : rcv_ok p1) by (destruct Pc; by split).
    assert (Hwmap : ∀ q : Process, writers q = writers p → (Writer_OnChannelChange x <$> writers q) = writers p).
    { intros q ->. rewrite <- (map_fmap_id (writers p)) at 2. apply map_fmap_ext. intros i w _. unfold Writer_OnChannelChange. by rewrite Hx. }
    assert (Hrc : ∀ q ws, rcv_ok q → rcv_ok (with_writers ws q)) by (intros q ws []; by split).
    destruct (joins x) eqn:Hj.
    - destruct (readers_hear_join x (map_to_list (readers p)).*2 Hx Hj Gx p1 Hp1) as (H1 & H2 & H3).
      split; [by apply Hwmap, H2|]. split; [by apply Hrc|]. intros k rd r Hk Hr. destruct (H3 _ _ Hr) as (r' & E1 & E2 & E3 & E4).
      exists r'. split_and!; try done; [by intros m y Hy _; apply E3|]. intros _ m Hm. apply (E4 rd m); try done.
      apply list_elem_of_fmap. exists (k, rd). split; [done|]. by apply elem_of_map_to_list.
    - destruct (readers_hear_leave x (map_to_list (readers p)).*2 Hx Hj Gx p1 Hp1) as (H1 & H2 & H3).
      split; [by apply Hwmap, H2|]. split; [by apply Hrc|]. intros k rd r Hk Hr. destruct (H3 _ _ Hr) as (r' & E1 & E2 & E3).
      exists r'. split_and!; try done. intros m y Hy [?|Hne]; [done|]. by apply E3. }
  destruct Hwr as (W1 & W2 & W3). split.
  - intros i w. rewrite W1. intros [A1 A2 A3]%Pw. split; try done. by rewrite F6.
  - intros k rd. rewrite F3. intros Hk. destruct (Pr _ _ Hk) as [A1 (r & Hr & A2 & A3)]. split; [by rewrite F1, F2|].
    destruct (W3 _ _ _ Hk Hr) as (r' & E1 & E2 & E3 & E4). exists r'. rewrite E2. split_and!; try done. intros w m. rewrite F5. unfold known_after.
    destruct (joins x) eqn:Hj.
    + intros [Hw| ->%list_elem_of_singleton]%elem_of_app Hm; [apply E3; [by apply A3|by left]|by apply E4].
    + intros [Hne Hw]%list_elem_of_filter Hm. apply E3; [by apply A3|]. right. intros E. rewrite (G_ids w (role x) (Pk w Hw) Gx E), Match_refl in Hne. done.
  - done.
  - intros w. rewrite F5. unfold known_after. destruct (joins x).
    + intros [Hw| ->%list_elem_of_singleton]%elem_of_app; [by apply Pk|done].
    + intros [_ Hw]%list_elem_of_filter. by apply Pk.
Qed.

(** A reader leaves with all roles of its id. *)
Definition alone (x : change) (rs : list Role) : Prop := joins x = false → ∀ r, r ∈ rs → id (attr r) = id (attr (role x)) → r = role x.

Lemma dispose_reader_ok x p : proc_ok p → is_writer x = false → alone x (known_readers p) → proc_ok (dispose x p).
Proof using Type.
  intros [Pw Pr Pc Pk] Hx Hal. destruct (dispose_fields x p) as (F1 & F2 & F3 & F4 & F5 & F6). rewrite Hx in F5, F6.
  assert (Hd : dispose x p = with_writers (Writer_OnChannelChange x <$> writers p) (with_known (known_writers p) (known_after x (known_readers p)) p)).
  { unfold dispose, notify. rewrite Hx. simpl. by rewrite (readers_hear_nothing x _ _ Hx). }
  split.
  - intros i w. rewrite Hd at 1. simpl. rewrite lookup_fmap_Some. intros (w0 & <- & Hw0). destruct (Pw _ _ Hw0) as [A1 [A2 A2'] A3].
    destruct (Writer_OnChannelChange_reader x w0 Hx A2) as (E1 & E2 & E3).
    split; [by rewrite E1| |].
    + rewrite E1, E3. destruct (joins x); [destruct (enable_same (attr (role x)) (transmitter_ w0))|destruct (disable_same (attr (role x)) (transmitter_ w0))]; split; congruence.
    + rewrite E3, F6. unfold known_after. destruct (joins x) eqn:Hj.
      * rewrite fmap_app. by apply reach_enable.
      * apply (reach_disable (attr <$> known_readers p)); [done| |].
        -- intros a. rewrite !list_elem_of_fmap. split.
           ++ intros (r & -> & [Hm Hr]%list_elem_of_filter). split; [by exists r|]. intros E. rewrite (Hal Hj r Hr E), Match_refl in Hm. done.
           ++ intros [(r & -> & Hr) Hne]. exists r. split; [done|]. apply list_elem_of_filter. split; [|done].
              destruct (Match r (role x)) eqn:Em; [|done]. apply Match_fields in Em as (_ & Em & _). done.
        -- intros a (r & -> & Hr)%list_elem_of_fmap E. by rewrite (Hal Hj r Hr E).
  - intros k rd. rewrite F3. intros [A1 A2]%Pr. split; [by rewrite F1, F2|]. rewrite F5. by rewrite Hd.
  - rewrite Hd. destruct Pc. by split.
  - intros w. rewrite F5. apply Pk.
Qed.

(** ** [Init], [Shutdown] and [Write] keep a process up to date *)

Lemma with_log_ok l p : proc_ok p → proc_ok (with_log l p).
Proof using Type. intros [A1 A2 A3 A4]. split; [intros i w [? ? ?]%A1; by split|intros k rd [? ?]%A2; by split|destruct A3; by split|done]. Qed.

Lemma reach_ok_channel known (t : @HybridTransmitter M) : reach_ok (attr <$> of_channel (channel_name (t_attr t)) known) t → reach_ok (attr <$> known) t.
Proof using Type.
  intros [H1 H2]. split; [|done]. intros m x. rewrite H1. split.
  - intros (a & (r & -> & [_ Hr]%list_elem_of_filter)%list_elem_of_fmap & Ha). exists (attr r). split; [|done]. apply list_elem_of_fmap. by exists r.
  - intros (a & (r & -> & Hr)%list_elem_of_fmap & Hi & Hw). exists (attr r). split; [|done]. apply list_elem_of_fmap. exists r. split; [done|].
    apply list_elem_of_filter. split; [|done]. destruct Hw as [Hw _]. rewrite GetRelation_none in Hw. by destruct (decide (channel_name (attr r) = channel_name (t_attr t))).
Qed.

Lemma enable_all rs : ∀ known (t : @HybridTransmitter M), reach_ok known t →
  let t' := foldl (λ t r, (Transmitter_EnableFor (attr r) t).1) t rs in
  reach_ok (known ++ (attr <$> rs)) t' ∧ t_attr t' = t_attr t ∧ t_mode t' = t_mode t.
Proof using Type.
  induction rs as [|r rs IH]; intros known t Ht; simpl; [by rewrite app_nil_r|].
  destruct (IH _ _ (reach_enable known (attr r) t Ht)) as (H1 & H2 & H3). destruct (enable_same (attr r) t) as [E1 E2].
  rewrite <- app_assoc in H1. split; [done|]. by rewrite H2, H3.
Qed.

Lemma Writer_Init_ok c i node h t info p : proc_ok p → G (role_of p c i h t node) → proc_ok (Writer_Init c i node h t info p).
Proof using G_ids.
  intros Hp Hg. apply with_log_ok, dispose_writer_ok; [|done|done]. destruct Hp as [A1 A2 A3 A4]. split; [|intros k rd [? ?]%A2; by split|destruct A3; by split|done].
  intros j w. simpl. rewrite lookup_insert_Some. intros [[<- <-]|[_ Hw]]; [|destruct (A1 _ _ Hw); by split].
  set (a := mkAttr c (p_host p) (p_pid p) i h t).
  destruct (enable_all (of_channel c (known_readers p)) [] (HybridTransmitter_new conf limit a) (reach_new _ _ _)) as (H1 & H2 & H3).
  split; [done| |]; simpl; [by split|]. apply reach_ok_channel. simpl. by rewrite H2.
Qed.

Lemma Writer_Shutdown_ok i w p : proc_ok p → G (w_role w) → proc_ok (Writer_Shutdown i w p).
Proof using G_ids.
  intros Hp Hg. apply with_log_ok, dispose_writer_ok; [|done|done]. destruct Hp as [A1 A2 A3 A4]. split; [|intros k rd [? ?]%A2; by split|destruct A3; by split|done].
  intros j w'. simpl. intros [_ Hw]%lookup_delete_Some. destruct (A1 _ _ Hw); by split.
Qed.

Lemma with_readers_ok rs ts p : (∀ k rd, rs !! k = Some rd → readers p !! k = Some rd) → proc_ok p → proc_ok (with_readers rs ts p).
Proof using Type.
  intros Hrs [A1 A2 A3 A4]. split; [intros i w [? ? ?]%A1; by split| |destruct A3; by split|done]. intros k rd Hk%Hrs. destruct (A2 _ _ Hk). by split.
Qed.

Lemma Reader_Shutdown_ok k rl p : proc_ok p → alone (mkChange false false rl) (known_readers p) → proc_ok (Reader_Shutdown k rl p).
Proof using Type.
  intros Hp Hg. apply with_readers_ok; [done|]. apply with_log_ok, dispose_reader_ok; [|done|done]. apply with_readers_ok; [|done].
  by intros j rd [_ Hrd]%lookup_delete_Some.
Qed.

Lemma Write_ok i w msg p : proc_ok p → writers p !! i = Some w → proc_ok (Write i w msg p).1.
Proof using Type.
  intros [A1 A2 A3 A4] Hw. split; [|intros k rd [? ?]%A2; by split|destruct A3; by split|done].
  intros j w'. simpl. rewrite lookup_insert_Some. intros [[<- <-]|[_ Hw']]; [|destruct (A1 _ _ Hw'); by split].
  destruct (A1 _ _ Hw) as [? [? ?] [? ?]]. split; [done|done|by split].
Qed.

(** What happens to the receivers that does not matter to the readers. *)
Definition receivers_grow (p p' : Process) : Prop :=
  ∀ c r, receiver_map_ p !! c = Some r → ∃ r', receiver_map_ p' !! c = Some r' ∧ r_attr r' = r_attr r ∧ ∀ m x, is_Some (hears r m x) → is_Some (hears r' m x).

Lemma reader_ok_grow p p' rd : receivers_grow p p' → p_host p' = p_host p → p_pid p' = p_pid p → known_writers p' = known_writers p →
  reader_ok p rd → reader_ok p' rd.
Proof using Type.
  intros Hg E1 E2 E3 [A1 (r & Hr & A2 & A3)]. split; [by rewrite E1, E2|]. destruct (Hg _ _ Hr) as (r' & Hr' & Ea & Hh).
  exists r'. rewrite Ea, E3. split_and!; auto.
Qed.

Lemma receivers_enable_ok c ws : Forall G ws → ∀ p, rcv_ok p →
  let p' := foldl (receiver_enable c) p ws in
  rcv_ok p' ∧ same_but_receivers p p' ∧ receivers_grow p p' ∧
  ∀ r w m, receiver_map_ p !! c = Some r → w ∈ ws → way (r_attr r) (attr w) mode m →
    ∃ r', receiver_map_ p' !! c = Some r' ∧ r_attr r' = r_attr r ∧ is_Some (hears r' m (id (attr w))).
Proof using G_ids.
  induction 1 as [|w ws Gw Gws IH]; intros p Hp; simpl.
  { split_and!; try done; [intros c' r Hr; by exists r|by intros r w m _ ?%elem_of_nil]. }
  destruct (receiver_enable_ok c p w Hp Gw) as (B1 & B2 & B3). destruct (IH _ B1) as (C1 & C2 & C3 & C4).
  split; [done|]. split; [exact (same_trans _ _ _ B2 C2)|]. split.
  - intros c' r Hr. destruct (B3 _ _ Hr) as (r1 & Hr1 & E1 & M1 & _). destruct (C3 _ _ Hr1) as (r2 & Hr2 & E2 & M2). exists r2. split_and!; [done|congruence|auto].
  - intros r w' m Hr. destruct (B3 _ _ Hr) as (r1 & Hr1 & E1 & M1 & N1). intros [->|Hin]%elem_of_cons Hm.
    + destruct (C3 _ _ Hr1) as (r2 & Hr2 & E2 & M2). exists r2. split_and!; [done|congruence|auto].
    + destruct (C4 r1 w' m Hr1 Hin) as (r2 & Hr2 & E2 & M2); [by rewrite E1|]. exists r2. split_and!; [done|congruence|done].
Qed.

Lemma hears_new a m x : hears (@HybridReceiver_new M conf limit a) m x = None.
Proof using Type. unfold hears. simpl. rewrite lookup_gset_to_gmap. by destruct (guard (m ∈ modes mode)). Qed.

Lemma GetReceiver_ok a p : proc_ok p → host_ip a = p_host p → process_id a = p_pid p →
  let '(p', r) := GetReceiver a p in
  proc_ok p' ∧ receiver_map_ p' !! channel_name a = Some r ∧ p_host p' = p_host p ∧ p_pid p' = p_pid p ∧ readers p' = readers p ∧
  known_writers p' = known_writers p ∧ known_readers p' = known_readers p ∧ log p' = log p ∧ writers p' = writers p ∧ receivers_grow p p'.
Proof using Type.
  intros Hp Hh Hi. unfold GetReceiver. destruct (receiver_map_ p !! channel_name a) as [r|] eqn:Er.
  { split_and!; try done. intros c r' Hr'. by exists r'. }
  assert (Hg : receivers_grow p (with_receiver (channel_name a) (HybridReceiver_new conf limit a) (listening p) p)).
  { intros c r Hr. exists r. simpl. rewrite lookup_insert_ne; [done|]. intros <-. congruence. }
  simpl. rewrite lookup_insert_eq. split_and!; try done. destruct Hp as [A1 A2 A3 A4].
  split; [intros i w [? ? ?]%A1; by split|intros k rd Hrd%A2; by eapply reader_ok_grow| |done]. destruct A3 as [B1 B2]. split.
  - intros c r. simpl. rewrite lookup_insert_Some. intros [[<- <-]|[_ Hr]]; [|by apply B1].
    split_and!; try done; [intros m x b; by rewrite hears_new|intros m x b; by rewrite hears_new].
  - intros med c i o. simpl. rewrite B2. split; intros (r & m & x & E & H).
    + exists r, m, x. rewrite lookup_insert_ne; [done|]. intros <-. congruence.
    + rewrite lookup_insert_Some in E. destruct E as [[<- <-]|[_ E]]; [|by exists r, m, x]. destruct H as (_ & _ & _ & H). rewrite hears_new in H. by destruct H.
Qed.

Lemma Reader_Init_ok k c i node h t p : proc_ok p → proc_ok (Reader_Init k c i node h t p).1.
Proof using G_ids.
  intros Hp. unfold Reader_Init. destruct (decide _); [done|]. pose proof (GetReceiver_ok (attr (role_of p c i h t node)) p Hp eq_refl eq_refl) as Hr.
  destruct (GetReceiver _ p) as [p1 r]. destruct Hr as (H1 & H2 & E1 & E2 & _ & _ & _ & _ & _ & _). cbn [attr channel_name role_of] in H2.
  set (rl := role_of p1 c (id (r_attr r)) h t node). set (ts := {[croutine_name (role_of p c i h t node)]} ∪ tasks p1). set (p2 := with_readers (<[k:=rl]> (readers p1)) ts p1).
  change (proc_ok (announce (mkChange true false rl) (foldl (receiver_enable c) p2 (of_channel c (known_writers p2))))).
  destruct H1 as [A1 A2 A3 A4].
  assert (Hp2 : rcv_ok p2) by (destruct A3; by split).
  assert (Hws : Forall G (of_channel c (known_writers p2))).
  { apply Forall_forall. intros w [_ Hw]%list_elem_of_filter. by apply A4. }
  destruct (receivers_enable_ok c _ Hws p2 Hp2) as (C1 & (S1 & S2 & S3 & S4 & S5 & S6 & S7 & _) & C3 & C4).
  set (p3 := foldl (receiver_enable c) p2 (of_channel c (known_writers p2))) in *. clearbody p3.
  apply with_log_ok, dispose_reader_ok; [|done|intros [=]]. split.
  - intros j w. rewrite S3. intros [B1 B2 B3]%A1. split; try done. by rewrite S6.
  - intros j rd. rewrite S4. simpl. rewrite lookup_insert_Some. intros [[<- <-]|[_ Hrd]].
    + split; [by rewrite S1, S2|]. destruct (C3 c r H2) as (r' & Hr' & Ea & Hh). exists r'. cbn [attr channel_name role_of rl]. rewrite Ea. split_and!; try done.
      intros w m. rewrite S5. intros Hw Hm. destruct (rv_receiver _ A3 _ _ H2) as (Ec & _).
      destruct (C4 r w m H2) as (r2 & Hr2 & E2' & Hy); [|done|congruence].
      apply list_elem_of_filter. split; [|done]. destruct Hm as [Hm _]. rewrite GetRelation_none, Ec in Hm. by destruct (decide (channel_name (attr w) = c)).
    + apply A2 in Hrd. by apply (reader_ok_grow p1).
  - done.
  - intros w. rewrite S5. apply A4.
Qed.
End Channels.
