(* ===== verification/Delivery.v ===== *)
(** * What is published is heard

    Processes with writers and readers ([Channels]) that hear of each other one
    announcement at a time: what holds of them in every state, and that a message
    gets to each reader once when the announcements have arrived. *)

From stdpp Require Import base list strings gmap fin_maps.
From S2P Require Import Prelude Message Hybrid Channels.

Section Delivery.
Context {M : Type} (conf : option CommunicationMode) (limit : option Z).
Implicit Types (s : @sys M) (a b : @Process M).

(** A reader is closed when no other of the process reads the channel. *)
Definition polite s (l : @label M) : Prop :=
  match l with
  | CloseReader q k => ∀ p rl k' rl', procs s !! q = Some p → readers p !! k = Some rl → readers p !! k' = Some rl' →
      channel_name (attr rl') = channel_name (attr rl) → k' = k
  | _ => True
  end.

Inductive reachable (ps : list (string * Z)) : @sys M → Prop :=
  | at_start : reachable ps (start ps)
  | after_step s l s' : reachable ps s → polite s l → exec conf limit s l = Some s' → reachable ps s'.

(** What is known from a log. *)
Definition replay (wr : bool) (l : list change) : list Role := foldl (λ rs x, if Bool.eqb (is_writer x) wr then known_after x rs else rs) [] l.

Definition receiver_attr a (c : string) : option Attr := r_attr <$> receiver_map_ a !! c.
Definition writer_role a (i : Z) : option Role := w_role <$> writers a !! i.
Definition known (wr : bool) a : list Role := if wr then known_writers a else known_readers a.
Definition placed (r : Role) a : Prop := host_ip (attr r) = p_host a ∧ process_id (attr r) = p_pid a.

Definition announced s (r : Role) : Prop := ∃ p a, procs s !! p = Some a ∧ mkChange true true r ∈ log a.

(** How much of the log of [p] has reached [q], and what [q] knows from it. *)
Definition seen_of s (q p : nat) a : nat := if decide (p = q) then length (log a) else default 0%nat (seen s !! (q, p)).
Definition view s (wr : bool) (q p : nat) : list Role :=
  match procs s !! p with Some a => replay wr (take (seen_of s q p a) (log a)) | None => [] end.

(** A process and its log. *)
Record log_ok a : Prop := {
  lo_place x : x ∈ log a → placed (role x) a;
  lo_joined x : x ∈ log a → is_writer x = true → mkChange true true (role x) ∈ log a;
  lo_receiver x : x ∈ log a → is_writer x = false → ∃ r, receiver_attr a (channel_name (attr (role x))) = Some r ∧ id (attr (role x)) = id r;
  lo_writers i r : writer_role a i = Some r → r ∈ replay true (log a);
  lo_readers r : r ∈ replay false (log a) ↔ ∃ k, readers a !! k = Some r;
  lo_polite n x : log a !! n = Some x → is_writer x = false → joins x = false →
    ∀ r, r ∈ replay false (take n (log a)) → id (attr r) = id (attr (role x)) → r = role x;
}.

Record inv s : Prop := {
  iv_places p q a b : procs s !! p = Some a → procs s !! q = Some b → p_host a = p_host b → p_pid a = p_pid b → p = q;
  iv_log p a : procs s !! p = Some a → log_ok a;
  iv_used p a x : procs s !! p = Some a → x ∈ log a → id (attr (role x)) ∈ used s;
  iv_receivers p a c r : procs s !! p = Some a → receiver_attr a c = Some r → id r ∈ used s ∧
    ∀ p' a' c' r', procs s !! p' = Some a' → receiver_attr a' c' = Some r' → id r' = id r → p' = p ∧ c' = c;
  iv_ids r r' : announced s r → announced s r' → id (attr r) = id (attr r') → r = r';
  iv_seen q p n : seen s !! (q, p) = Some n → ∃ a, procs s !! p = Some a ∧ (n ≤ length (log a))%nat;
  iv_known q b wr r : procs s !! q = Some b → r ∈ known wr b ↔ ∃ p, r ∈ view s wr q p;
  iv_procs q b : procs s !! q = Some b → proc_ok conf (announced s) b;
}.

(** ** Logs *)

Lemma elem_known_after x rs r : r ∈ known_after x rs ↔ if joins x then r ∈ rs ∨ r = role x else r ∈ rs ∧ Match r (role x) = false.
Proof using Type.
  unfold known_after. destruct (joins x); [by rewrite elem_of_app, list_elem_of_singleton|]. rewrite list_elem_of_filter. tauto.
Qed.

Lemma replay_snoc wr l x : replay wr (l ++ [x]) = if Bool.eqb (is_writer x) wr then known_after x (replay wr l) else replay wr l.
Proof using Type. unfold replay. by rewrite foldl_app. Qed.

Lemma replay_in wr l r : r ∈ replay wr l → mkChange true wr r ∈ l.
Proof using Type.
  induction l as [|x l IH] using rev_ind; [by intros ?%elem_of_nil|]. rewrite replay_snoc, elem_of_app, list_elem_of_singleton.
  destruct (Bool.eqb_spec (is_writer x) wr) as [<-|]; [|auto]. rewrite elem_known_after. destruct x as [[] w r']; simpl; [|by intros [? _]; auto].
  intros [?| ->]; auto.
Qed.

Lemma replay_place wr n a r : log_ok a → r ∈ replay wr (take n (log a)) → placed r a.
Proof using Type. intros Ha H%replay_in%elem_of_take. destruct H as (i & Hi & _). apply (lo_place _ Ha (mkChange true wr r)). by eapply list_elem_of_lookup_2. Qed.

Lemma matched_place r r' a b : placed r a → placed r' b → Match r r' = true → p_host a = p_host b ∧ p_pid a = p_pid b.
Proof using Type. intros [<- <-] [<- <-] [? ?]%Match_place. done. Qed.

(** A process that hears of a change from one log knows what the logs say. *)
Lemma known_step (wr : bool) x (rs : list Role) (f f' : nat → list Role) p :
  (∀ r, r ∈ rs ↔ ∃ p', r ∈ f p') → (∀ p' r, p' ≠ p → r ∈ f p' → Match r (role x) = false) →
  f' p = (if Bool.eqb (is_writer x) wr then known_after x (f p) else f p) → (∀ p', p' ≠ p → f' p' = f p') →
  ∀ r, r ∈ (if Bool.eqb (is_writer x) wr then known_after x rs else rs) ↔ ∃ p', r ∈ f' p'.
Proof using Type.
  intros Hrs Hm Hp Hne r. destruct (Bool.eqb (is_writer x) wr).
  - rewrite elem_known_after. split.
    + destruct (joins x) eqn:Hj.
      * intros [[p' H]%Hrs| ->]; [|exists p; rewrite Hp, elem_known_after, Hj; by right].
        exists p'. destruct (decide (p' = p)) as [->|]; [rewrite Hp, elem_known_after, Hj; by left|by rewrite Hne].
      * intros [[p' H]%Hrs Hr]. exists p'. destruct (decide (p' = p)) as [->|]; [by rewrite Hp, elem_known_after, Hj|by rewrite Hne].
    + intros [p' H]. destruct (decide (p' = p)) as [->|Hd].
      * rewrite Hp, elem_known_after in H. destruct (joins x); [destruct H as [H|H]; [left; apply Hrs; by exists p|by right]|].
        destruct H as [H ?]. split; [apply Hrs; by exists p|done].
      * rewrite Hne in H by done. pose proof (Hm _ _ Hd H). assert (r ∈ rs) by (apply Hrs; by exists p'). destruct (joins x); [by left|done].
  - rewrite Hrs. split; intros [p' H]; exists p'; destruct (decide (p' = p)) as [->|]; [by rewrite Hp|by rewrite Hne|by rewrite <- Hp|by rewrite <- Hne].
Qed.

(** ** What stays when a process hears of a change *)

Lemma receiver_attr_enable c a w c' : receiver_attr (receiver_enable c a w) c' = receiver_attr a c'.
Proof using Type.
  unfold receiver_attr, receiver_enable. destruct (receiver_map_ a !! c) as [r|] eqn:E; [|done].
  assert (He : r_attr (Receiver_EnableFor (attr w) r).1.1 = r_attr r) by (unfold Receiver_EnableFor; repeat case_match; done).
  destruct (Receiver_EnableFor (attr w) r) as [[r' xs] t]. simpl in *. destruct (decide (c' = c)) as [->|]; [by rewrite lookup_insert_eq, E; simpl; rewrite He|by rewrite lookup_insert_ne].
Qed.

Lemma receiver_attr_disable c a w c' : receiver_attr (receiver_disable c a w) c' = receiver_attr a c'.
Proof using Type.
  unfold receiver_attr, receiver_disable. destruct (receiver_map_ a !! c) as [r|] eqn:E; [|done].
  assert (He : r_attr (Receiver_DisableFor (attr w) r).1 = r_attr r) by (unfold Receiver_DisableFor; repeat case_match; done).
  destruct (Receiver_DisableFor (attr w) r) as [r' xs]. simpl in *. destruct (decide (c' = c)) as [->|]; [by rewrite lookup_insert_eq, E; simpl; rewrite He|by rewrite lookup_insert_ne].
Qed.

Lemma dispose_same x a : (∀ c, receiver_attr (dispose x a) c = receiver_attr a c) ∧ (∀ i, writer_role (dispose x a) i = writer_role a i).
Proof using Type.
  assert (Hf : ∀ rds (p : @Process M), (∀ c, receiver_attr (foldl (Reader_OnChannelChange x) p rds) c = receiver_attr p c) ∧
    writers (foldl (Reader_OnChannelChange x) p rds) = writers p).
  { intros rds. induction rds as [|rd rds IH]; intros p; [done|]. simpl. destruct (IH (Reader_OnChannelChange x p rd)) as [H1 ->]. split.
    - intros c. rewrite H1. unfold Reader_OnChannelChange. repeat case_match; try done; [apply receiver_attr_enable|apply receiver_attr_disable].
    - unfold Reader_OnChannelChange, receiver_enable, receiver_disable. repeat case_match; done. }
  unfold dispose, notify. split.
  - intros c. unfold receiver_attr at 1. simpl. destruct (is_writer x); exact (proj1 (Hf _ _) c).
  - intros i. unfold writer_role. simpl. rewrite (proj2 (Hf _ _)). rewrite lookup_fmap.
    destruct (is_writer x) eqn:Hx; simpl; destruct (writers a !! i) as [w|]; try done; simpl; unfold Writer_OnChannelChange; repeat case_match; done.
Qed.

Lemma proc_ok_mono (G G' : Role → Prop) b : (∀ r, G r → G' r) → proc_ok conf G b → proc_ok conf G' b.
Proof using Type.
  intros H [A1 A2 [B1 B2] A4]. split; [by intros i w [? ? ?]%A1|by intros k rd [? ?]%A2| |auto].
  split; [|done]. intros c r (C1 & C2 & C3 & C4 & C5 & C6)%B1. split_and!; try done. intros m x c' (rl & ? & ?)%C6. exists rl. auto.
Qed.

(** ** One process at a time *)

Definition same_place a b : Prop := p_host b = p_host a ∧ p_pid b = p_pid a.

Lemma log_ok_same b b' : log_ok b → same_place b b' → log b' = log b → readers b' = readers b →
  (∀ c, receiver_attr b' c = receiver_attr b c) → (∀ i, writer_role b' i = writer_role b i) → log_ok b'.
Proof using Type.
  intros [L1 L2 L3 L4 L5 L6] [E1 E2] El Er Hr Hw. split; rewrite ?El; try done.
  - intros x. unfold placed. rewrite E1, E2. apply L1.
  - intros x. rewrite Hr. apply L3.
  - intros i r. rewrite Hw. apply L4.
  - intros r. rewrite Er. apply L5.
Qed.

Lemma lookup_one q b b' (ps : list (@Process M)) p a : ps !! q = Some b → <[q := b']> ps !! p = Some a → (p = q ∧ a = b') ∨ (p ≠ q ∧ ps !! p = Some a).
Proof using Type.
  intros Hq. destruct (decide (p = q)) as [->|Hp].
  - rewrite list_lookup_insert_eq by (by eapply lookup_lt_Some). intros [= <-]. by left.
  - rewrite list_lookup_insert_ne by done. by right.
Qed.

(** A receiver that a process has is one that it had, or is new. *)
Definition receivers_from s (u : gset Z) b b' : Prop :=
  ∀ c r, receiver_attr b' c = Some r → receiver_attr b c = Some r ∨
    (id r ∉ used s ∧ id r ∈ u ∧ ∀ c' r', receiver_attr b' c' = Some r' → id r' = id r → c' = c).

Lemma inv_update s q b b' ext sn u :
  let s' := mkSys (<[q := b']> (procs s)) sn u in
  inv s → procs s !! q = Some b → same_place b b' → log b' = log b ++ ext → receivers_from s u b b' → used s ⊆ u →
  (∀ x, x ∈ ext → id (attr (role x)) ∈ u) →
  (∀ r, mkChange true true r ∈ ext → id (attr r) ∉ used s ∧ ext = [mkChange true true r]) →
  log_ok b' →
  (∀ q' p n, sn !! (q', p) = Some n → seen s !! (q', p) = Some n ∨ (p ≠ q ∧ ∃ a, procs s !! p = Some a ∧ (n ≤ length (log a))%nat)) →
  (∀ q' p, q' ≠ q → sn !! (q', p) = seen s !! (q', p)) →
  (∀ wr r, r ∈ known wr b' ↔ ∃ p, r ∈ view s' wr q p) →
  ((∀ r r', announced s' r → announced s' r' → id (attr r) = id (attr r') → r = r') → (∀ r, announced s r → announced s' r) → proc_ok conf (announced s') b') →
  inv s'.
Proof using Type.
  intros s' Hinv Hb [Eh Ep] El Hr Hu Hxu Hnew Hlog Hsn Hsq Hkn Hproc.
  assert (Hlook : ∀ p a, procs s' !! p = Some a → (p = q ∧ a = b') ∨ (p ≠ q ∧ procs s !! p = Some a)) by (intros p a; by apply (lookup_one q b)).
  assert (Hq : procs s' !! q = Some b') by (apply list_lookup_insert_eq; by eapply lookup_lt_Some).
  assert (Hne : ∀ p, p ≠ q → procs s' !! p = procs s !! p) by (intros p ?; by apply list_lookup_insert_ne).
  assert (Hann : ∀ r, announced s' r → announced s r ∨ (id (attr r) ∉ used s ∧ ext = [mkChange true true r])).
  { intros r (p & a & [[-> ->]|[_ Ha]]%Hlook & Hin); [|left; by exists p, a]. rewrite El in Hin. apply elem_of_app in Hin as [Hin|Hin]; [left; by exists q, b|right; by apply Hnew]. }
  assert (Hmono : ∀ r, announced s r → announced s' r).
  { intros r (p & a & Ha & Hin). destruct (decide (p = q)) as [->|Hp]; [exists q, b'|exists p, a; by rewrite Hne]. split; [done|]. assert (a = b) as -> by congruence. rewrite El. set_solver. }
  assert (Hused : ∀ r, announced s r → id (attr r) ∈ used s) by (intros r (p & a & Ha & Hin); by apply (iv_used _ Hinv p a (mkChange true true r))).
  assert (Hids : ∀ r r', announced s' r → announced s' r' → id (attr r) = id (attr r') → r = r').
  { intros r r' [H1|[H1 E1]]%Hann [H2|[H2 E2]]%Hann E; [by apply (iv_ids _ Hinv)|by apply Hused in H1; rewrite E in H1|by apply Hused in H2; rewrite <- E in H2|congruence]. }
  split.
  - intros p p' a a' [[-> ->]|[N1 H1]]%Hlook [[-> ->]|[N2 H2]]%Hlook; rewrite ?Eh, ?Ep; try done; intros; by eapply (iv_places _ Hinv).
  - intros p a [[-> ->]|[_ Ha]]%Hlook; [done|by apply (iv_log _ Hinv p)].
  - intros p a x [[-> ->]|[_ Ha]]%Hlook Hx; [|apply Hu; by apply (iv_used _ Hinv p a)]. rewrite El in Hx. apply elem_of_app in Hx as [Hx|Hx]; [apply Hu; by apply (iv_used _ Hinv q b)|by apply Hxu].
  - assert (Hold : ∀ p a c r, procs s' !! p = Some a → receiver_attr a c = Some r →
        (∃ a0, procs s !! p = Some a0 ∧ receiver_attr a0 c = Some r) ∨
        (id r ∉ used s ∧ id r ∈ u ∧ p = q ∧ a = b' ∧ ∀ c' r', receiver_attr b' c' = Some r' → id r' = id r → c' = c)).
    { intros p a c r [[-> ->]|[_ Ha]]%Hlook Hc; [|left; by exists a]. destruct (Hr c r Hc) as [?|(? & ? & ?)]; [left; by exists b|by right]. }
    intros p a c r Ha Hc. destruct (Hold p a c r Ha Hc) as [(a0 & Ha0 & Hc0)|(N1 & N2 & -> & -> & N3)].
    + destruct (iv_receivers _ Hinv p a0 c r Ha0 Hc0) as [U1 U2]. split; [by apply Hu|]. intros p' a' c' r' Ha' Hc' E.
      destruct (Hold p' a' c' r' Ha' Hc') as [(a1 & Ha1 & Hc1)|(N1 & _)]; [by eapply U2|]. by rewrite E in N1.
    + split; [done|]. intros p' a' c' r' Ha' Hc' E. destruct (Hold p' a' c' r' Ha' Hc') as [(a1 & Ha1 & Hc1)|(_ & _ & -> & -> & _)]; [|split; [done|by eapply N3]].
      destruct (iv_receivers _ Hinv p' a1 c' r' Ha1 Hc1) as [U1 _]. by rewrite E in U1.
  - done.
  - intros q' p n [Hn|(Hp & a & Ha & Hl)]%Hsn; [|exists a; by rewrite Hne]. destruct (iv_seen _ Hinv q' p n Hn) as (a & Ha & Hl).
    destruct (decide (p = q)) as [->|Hp]; [|exists a; by rewrite Hne]. exists b'. split; [done|]. assert (a = b) as -> by congruence. rewrite El, length_app. lia.
  - intros q' b0 wr r [[-> ->]|[Hq' Hb0]]%Hlook; [by apply Hkn|]. rewrite (iv_known _ Hinv q' b0 wr r Hb0).
    assert (Hv : ∀ p, view s' wr q' p = view s wr q' p); [|by setoid_rewrite Hv]. intros p. unfold view, seen_of.
    destruct (decide (p = q)) as [->|Hp].
    + rewrite Hq, Hb, decide_False by done. rewrite decide_False by done. simpl. rewrite Hsq by done. rewrite El, take_app_le; [done|].
      destruct (seen s !! (q', q)) as [n|] eqn:En; simpl; [|lia]. destruct (iv_seen _ Hinv _ _ _ En) as (a & Ha & Hl). assert (a = b) as -> by congruence. done.
    + rewrite Hne by done. destruct (procs s !! p); [|done]. simpl. by rewrite Hsq.
  - intros q' b0 [[-> ->]|[Hq' Hb0]]%Hlook; [by apply Hproc|]. eapply proc_ok_mono; [exact Hmono|]. by eapply (iv_procs _ Hinv).
Qed.

Lemma view_unmatched s wr q p p' r a x : inv s → procs s !! p = Some a → placed (role x) a → p' ≠ p → r ∈ view s wr q p' → Match r (role x) = false.
Proof using Type.
  intros Hinv Ha Hx Hp. unfold view. destruct (procs s !! p') as [a'|] eqn:Ha'; [|by intros ?%elem_of_nil]. intros Hr%replay_place; [|by apply (iv_log _ Hinv p')].
  apply not_true_iff_false. intros Hm. destruct (matched_place _ _ _ _ Hr Hx Hm) as [? ?]. apply Hp. by eapply (iv_places _ Hinv).
Qed.

Lemma inv_announce s q b b' x u :
  let s' := mkSys (<[q := b']> (procs s)) (seen s) u in
  inv s → procs s !! q = Some b → same_place b b' → log b' = log b ++ [x] → receivers_from s u b b' → used s ⊆ u → id (attr (role x)) ∈ u →
  (is_writer x = true → joins x = true → id (attr (role x)) ∉ used s) →
  (∀ wr, known wr b' = if Bool.eqb (is_writer x) wr then known_after x (known wr b) else known wr b) → log_ok b' →
  ((∀ r r', announced s' r → announced s' r' → id (attr r) = id (attr r') → r = r') → (∀ r, announced s r → announced s' r) → proc_ok conf (announced s') b') →
  inv s'.
Proof using Type.
  intros s' Hinv Hb Hpl El Hr Hu Hxu Hnew Hkn Hlog Hproc. apply (inv_update s q b b' [x]); try done.
  - by intros y ->%list_elem_of_singleton.
  - intros r Hr'%list_elem_of_singleton. subst x. split; [by apply Hnew|done].
  - by left.
  - intros wr r. rewrite Hkn. apply (known_step wr x _ (view s wr q) _ q).
    + intros r'. by apply (iv_known _ Hinv).
    + intros p' r' Hp'. apply (view_unmatched s wr q q p' r' b); [done|done| |done].
      destruct (lo_place _ Hlog x) as [E1 E2]; [rewrite El; set_solver|]. destruct Hpl as [P1 P2]. split; congruence.
    + unfold view, seen_of. simpl. rewrite list_lookup_insert_eq by (by eapply lookup_lt_Some). rewrite Hb, !decide_True by done.
      rewrite !firstn_all, El. apply replay_snoc.
    + intros p' Hp'. unfold view, seen_of. simpl. rewrite list_lookup_insert_ne by done. done.
Qed.

(** ** Steps *)

Lemma known_dispose wr x a : known wr (dispose x a) = if Bool.eqb (is_writer x) wr then known_after x (known wr a) else known wr a.
Proof using Type. destruct (dispose_fields x a) as (_ & _ & _ & _ & E1 & E2). unfold known. by destruct wr, (is_writer x). Qed.

Lemma known_announce wr x a : known wr (announce x a) = if Bool.eqb (is_writer x) wr then known_after x (known wr a) else known wr a.
Proof using Type. rewrite <- known_dispose. by destruct wr. Qed.

(** A change that a process makes; [b1] is the process that announces it. *)
Lemma inv_makes s q b b1 x u :
  let b' := announce x b1 in
  let s' := mkSys (<[q := b']> (procs s)) (seen s) u in
  inv s → procs s !! q = Some b → same_place b b1 → log b1 = log b → (∀ wr, known wr b1 = known wr b) →
  receivers_from s u b b1 → (∀ c r, receiver_attr b c = Some r → receiver_attr b1 c = Some r) →
  used s ⊆ u → id (attr (role x)) ∈ u → (is_writer x = true → joins x = true → id (attr (role x)) ∉ used s) →
  placed (role x) b → (is_writer x = true → joins x = false → mkChange true true (role x) ∈ log b) →
  (is_writer x = false → ∃ r, receiver_attr b1 (channel_name (attr (role x))) = Some r ∧ id (attr (role x)) = id r) →
  (∀ i r, writer_role b1 i = Some r → r ∈ replay true (log b ++ [x])) →
  (∀ r, r ∈ replay false (log b ++ [x]) ↔ ∃ k, readers b1 !! k = Some r) →
  (is_writer x = false → joins x = false → ∀ r, r ∈ replay false (log b) → id (attr r) = id (attr (role x)) → r = role x) →
  ((∀ r r', announced s' r → announced s' r' → id (attr r) = id (attr r') → r = r') → (∀ r, announced s r → announced s' r) → proc_ok conf (announced s') b') →
  inv s'.
Proof using Type.
  intros b' s' Hinv Hb [Eh Ep] El Ek Hr Hr' Hu Hxu Hnew Hx Hleave Hrx Hw Hrd Hpol Hproc.
  destruct (dispose_same x b1) as [D1 D2]. destruct (dispose_fields x b1) as (F1 & F2 & F3 & F4 & _). pose proof (iv_log _ Hinv q b Hb) as Hlog.
  assert (Elog : log b' = log b ++ [x]) by (change (log (dispose x b1) ++ [x] = log b ++ [x]); by rewrite F4, El).
  assert (Hpl : same_place b b') by (split; [rewrite <- Eh; exact F1|rewrite <- Ep; exact F2]).
  apply (inv_announce s q b b' x u); try done.
  - intros c r Hc. change (receiver_attr (dispose x b1) c = Some r) in Hc. rewrite D1 in Hc. destruct (Hr c r Hc) as [?|(? & ? & N)]; [by left|right].
    split_and!; try done. intros c' r' Hc'. change (receiver_attr (dispose x b1) c' = Some r') in Hc'. rewrite D1 in Hc'. by apply N.
  - intros wr. unfold b'. rewrite known_announce. by rewrite Ek.
  - split.
    + intros y. rewrite Elog, elem_of_app, list_elem_of_singleton. unfold placed. destruct Hpl as [-> ->]. intros [Hy| ->]; [by apply (lo_place _ Hlog)|done].
    + intros y. rewrite Elog, !elem_of_app, list_elem_of_singleton. intros [Hy| ->] Hyw; [left; by apply (lo_joined _ Hlog)|].
      destruct x as [[] w r]; simpl in *; [right; subst w; by left|left; by apply Hleave].
    + intros y. rewrite Elog, elem_of_app, list_elem_of_singleton. intros Hy Hyw. change (receiver_attr b') with (receiver_attr (dispose x b1)). rewrite D1.
      destruct Hy as [Hy| ->]; [|by apply Hrx]. destruct (lo_receiver _ Hlog y Hy Hyw) as (r & Hc & E). exists r. split; [by apply Hr'|done].
    + intros i r. change (writer_role b' i) with (writer_role (dispose x b1) i). rewrite D2, Elog. apply Hw.
    + intros r. rewrite Elog, Hrd. change (readers b') with (readers (dispose x b1)). by rewrite F3.
    + intros n y. rewrite Elog. intros [Hy|[Hn Hy]]%lookup_app_Some Hyw Hyj r.
      * rewrite take_app_le by (apply lookup_lt_Some in Hy; lia). by apply (lo_polite _ Hlog).
      * assert (n = length (log b)) as -> by (apply list_lookup_singleton_Some in Hy as [? _]; lia).
        rewrite Nat.sub_diag in Hy. injection Hy as <-. rewrite take_app_length. by apply Hpol.
Qed.

Lemma announced_role s q b b' sn u x : procs s !! q = Some b → x ∈ log b' → joins x = true → is_writer x = true →
  announced (mkSys (<[q := b']> (procs s)) sn u) (role x).
Proof using Type.
  intros Hb Hx Hj Hw. exists q, b'. split; [apply list_lookup_insert_eq; by eapply lookup_lt_Some|]. destruct x as [j w r]. simpl in *. by subst.
Qed.

Lemma announce_last x b : x ∈ log (announce x b).
Proof using Type. simpl. set_solver. Qed.

Lemma step_NewWriter s q b c i node h t info : inv s → procs s !! q = Some b → i ∉ used s →
  inv (mkSys (<[q := Writer_Init conf limit c i node h t info b]> (procs s)) (seen s) ({[i]} ∪ used s)).
Proof using Type.
  intros Hinv Hb Hi. set (rl := role_of b c i h t node).
  set (tr := foldl (λ (tr : @HybridTransmitter M) r, (Transmitter_EnableFor (attr r) tr).1) (HybridTransmitter_new conf limit (attr rl)) (of_channel c (known_readers b))).
  pose proof (iv_log _ Hinv q b Hb) as Hlog.
  apply (inv_makes s q b (with_writers (<[i := mkWriter rl tr info]> (writers b)) b) (mkChange true true rl)); simpl; try done.
  - intros c' r Hc'. by left.
  - set_solver.
  - set_solver.
  - intros j r. unfold writer_role. simpl. rewrite replay_snoc; cbn [Bool.eqb is_writer]; rewrite elem_known_after; cbn [joins role]. rewrite fmap_Some. intros (w & Hw & ->).
    apply lookup_insert_Some in Hw as [[<- <-]|[_ Hw]]; [by right|left]. apply (lo_writers _ Hlog j). unfold writer_role. by rewrite Hw.
  - intros r. rewrite replay_snoc. simpl. by apply lo_readers.
  - intros Hids Hmono. apply (Writer_Init_ok conf limit _ Hids c i node h t info b).
    + eapply proc_ok_mono; [exact Hmono|]. by apply (iv_procs _ Hinv q).
    + apply (announced_role s q b _ _ _ (mkChange true true rl)); try done. apply announce_last.
Qed.

Lemma step_CloseWriter s q b i w : inv s → procs s !! q = Some b → writers b !! i = Some w →
  inv (mkSys (<[q := Writer_Shutdown i w b]> (procs s)) (seen s) (used s)).
Proof using Type.
  intros Hinv Hb Hi. pose proof (iv_log _ Hinv q b Hb) as Hlog. pose proof (iv_procs _ Hinv q b Hb) as Hok.
  assert (Hin : w_role w ∈ replay true (log b)) by (apply (lo_writers _ Hlog i); unfold writer_role; by rewrite Hi).
  apply replay_in in Hin as Hin'.
  apply (inv_makes s q b (with_writers (delete i (writers b)) b) (mkChange false true (w_role w))); simpl; try done.
  - intros c' r Hc'. by left.
  - by apply (iv_used _ Hinv q b (mkChange true true (w_role w))).
  - by apply (lo_place _ Hlog (mkChange true true (w_role w))).
  - intros j r. unfold writer_role. simpl. rewrite replay_snoc; cbn [Bool.eqb is_writer]; rewrite elem_known_after; cbn [joins role]. rewrite fmap_Some. intros (w' & [Hne Hw]%lookup_delete_Some & ->).
    split; [apply (lo_writers _ Hlog j); unfold writer_role; by rewrite Hw|]. apply not_true_iff_false. intros (_ & E & _)%Match_fields.
    rewrite (wo_id _ _ _ _ (po_writers _ _ _ Hok _ _ Hw)), (wo_id _ _ _ _ (po_writers _ _ _ Hok _ _ Hi)) in E. done.
  - intros r. rewrite replay_snoc. simpl. by apply lo_readers.
  - intros Hids Hmono. apply (Writer_Shutdown_ok conf _ Hids i w b); [by eapply proc_ok_mono|]. apply Hmono. by exists q, b.
Qed.

(** A step that is not seen from outside. *)
Lemma inv_same s q b b' u : inv s → procs s !! q = Some b → same_place b b' → log b' = log b → readers b' = readers b →
  (∀ c, receiver_attr b' c = receiver_attr b c) → (∀ i, writer_role b' i = writer_role b i) → (∀ wr, known wr b' = known wr b) → used s ⊆ u →
  (∀ G, proc_ok conf G b → proc_ok conf G b') →
  inv (mkSys (<[q := b']> (procs s)) (seen s) u).
Proof using Type.
  intros Hinv Hb Hpl El Er Hr Hw Hk Hu Hok. apply (inv_update s q b b' []); try done.
  - by rewrite app_nil_r.
  - intros c r. rewrite Hr. by left.
  - by intros x ?%elem_of_nil.
  - by intros x ?%elem_of_nil.
  - apply (log_ok_same b); try done. by apply (iv_log _ Hinv q).
  - by left.
  - intros wr r. rewrite Hk. trans (∃ p, r ∈ view s wr q p); [exact (iv_known _ Hinv q b wr r Hb)|].
    assert (Hv : ∀ p, view (mkSys (<[q := b']> (procs s)) (seen s) u) wr q p = view s wr q p); [|by setoid_rewrite Hv].
    intros p. unfold view, seen_of. simpl. destruct (decide (p = q)) as [->|]; [|by rewrite list_lookup_insert_ne].
    rewrite list_lookup_insert_eq by (by eapply lookup_lt_Some). by rewrite Hb, El.
  - intros _ Hmono. apply Hok. eapply proc_ok_mono; [exact Hmono|]. by apply (iv_procs _ Hinv q).
Qed.

Lemma step_Publish s q b i w msg : inv s → procs s !! q = Some b → writers b !! i = Some w →
  inv (mkSys (<[q := (Write i w msg b).1]> (procs s)) (seen s) (used s)).
Proof using Type.
  intros Hinv Hb Hi. apply (inv_same s q b); try done; [|intros G; intros Hok; by apply Write_ok].
  intros j. unfold writer_role. simpl. destruct (decide (j = i)) as [->|]; [by rewrite lookup_insert_eq, Hi|by rewrite lookup_insert_ne].
Qed.

Lemma receivers_enable_same c ws : ∀ a, let a' := foldl (receiver_enable c) a ws in
  p_host a' = p_host a ∧ p_pid a' = p_pid a ∧ writers a' = writers a ∧ readers a' = readers a ∧
  known_writers a' = known_writers a ∧ known_readers a' = known_readers a ∧ log a' = log a ∧ ∀ c', receiver_attr a' c' = receiver_attr a c'.
Proof using Type.
  induction ws as [|w ws IH]; intros a; [done|]. simpl. destruct (IH (receiver_enable c a w)) as (-> & -> & -> & -> & -> & -> & -> & H).
  split_and!; try (unfold receiver_enable; repeat case_match; done). intros c'. by rewrite H, receiver_attr_enable.
Qed.

Lemma Reader_Init_facts k c i node h t b : croutine_name (role_of b c i h t node) ∉ tasks b → ∃ b1 rl,
  (Reader_Init conf limit k c i node h t b).1 = announce (mkChange true false rl) b1 ∧ same_place b b1 ∧ log b1 = log b ∧
  known_writers b1 = known_writers b ∧ known_readers b1 = known_readers b ∧ writers b1 = writers b ∧ readers b1 = <[k := rl]> (readers b) ∧
  placed rl b ∧ channel_name (attr rl) = c ∧
  (∃ a : Attr, receiver_attr b1 c = Some a ∧ id (attr rl) = id a ∧ (receiver_attr b c = Some a ∨ (receiver_attr b c = None ∧ id a = i))) ∧
  (∀ c', c' ≠ c → receiver_attr b1 c' = receiver_attr b c').
Proof using Type.
  intros Hn. unfold Reader_Init, GetReceiver. rewrite decide_False by done. cbn [attr channel_name role_of].
  set (ts := λ p : @Process M, {[croutine_name (role_of b c i h t node)]} ∪ tasks p). set (a := mkAttr c (p_host b) (p_pid b) i h t).
  destruct (receiver_map_ b !! c) as [r|] eqn:Er.
  - set (rl := role_of b c (id (r_attr r)) h t node). set (b0 := with_readers (<[k := rl]> (readers b)) (ts b) b).
    destruct (receivers_enable_same c (of_channel c (known_writers b0)) b0) as (E1 & E2 & E3 & E4 & E5 & E6 & E7 & E8).
    eexists _, rl. split; [done|]. split_and!; try done.
    exists (r_attr r). rewrite E8. assert (receiver_attr b c = Some (r_attr r)) by (unfold receiver_attr; by rewrite Er). split_and!; [done|done|by left].
  - set (p1 := with_receiver c (HybridReceiver_new conf limit a) (listening b) b).
    set (rl := role_of p1 c i h t node). set (b0 := with_readers (<[k := rl]> (readers p1)) (ts p1) p1).
    destruct (receivers_enable_same c (of_channel c (known_writers b0)) b0) as (E1 & E2 & E3 & E4 & E5 & E6 & E7 & E8).
    eexists _, rl. split; [done|]. split_and!; try done.
    + exists a. rewrite E8. unfold receiver_attr. simpl. rewrite lookup_insert_eq, Er. split_and!; [done|done|by right].
    + intros c' Hc. rewrite E8. unfold receiver_attr. simpl. by rewrite lookup_insert_ne.
Qed.

(** A reader that finds its task there: nothing changes. *)
Lemma step_no_reader s q b k c i node h t : inv s → procs s !! q = Some b → croutine_name (role_of b c i h t node) ∈ tasks b →
  inv (mkSys (<[q := (Reader_Init conf limit k c i node h t b).1]> (procs s)) (seen s) ({[i]} ∪ used s)).
Proof using Type.
  intros Hinv Hb Ht. unfold Reader_Init. rewrite decide_True by done. simpl. apply (inv_same s q b b); try done. set_solver.
Qed.

Lemma step_NewReader s q b k c i node h t : inv s → procs s !! q = Some b → i ∉ used s → readers b !! k = None →
  inv (mkSys (<[q := (Reader_Init conf limit k c i node h t b).1]> (procs s)) (seen s) ({[i]} ∪ used s)).
Proof using Type.
  intros Hinv Hb Hi Hk. destruct (decide (croutine_name (role_of b c i h t node) ∈ tasks b)) as [Ht|Ht].
  { by apply step_no_reader. }
  destruct (Reader_Init_facts k c i node h t b Ht) as (b1 & rl & E & Hpl & El & Ew & Er & Ewr & Erd & Hrl & Hc & (a & Ha & Hai & Hfrom) & Hne).
  pose proof (iv_log _ Hinv q b Hb) as Hlog. assert (Hmono : ∀ c' r, receiver_attr b c' = Some r → receiver_attr b1 c' = Some r).
  { intros c' r Hc'. destruct (decide (c' = c)) as [->|]; [|by rewrite Hne]. destruct Hfrom as [Hf|[Hf _]]; congruence. }
  assert (Hfr : receivers_from s ({[i]} ∪ used s) b b1).
  { intros c' r Hr. destruct (decide (c' = c)) as [->|]; [|left; by rewrite <- Hne]. rewrite Ha in Hr. injection Hr as <-.
    destruct Hfrom as [Hf|[Hf Hi']]; [by left|right]. rewrite Hi'. split_and!; [done|set_solver|]. intros c' r' Hr' Hid.
    destruct (decide (c' = c)) as [->|Hd]; [done|]. rewrite Hne in Hr' by done. destruct (iv_receivers _ Hinv q b c' r' Hb Hr') as [Hu _]. by rewrite Hid in Hu. }
  assert (Hu : id (attr rl) ∈ {[i]} ∪ used s).
  { rewrite Hai. destruct Hfrom as [Hf|[_ ->]]; [|set_solver]. destruct (iv_receivers _ Hinv q b c a Hb Hf). set_solver. }
  rewrite E. apply (inv_makes s q b b1 (mkChange true false rl)); try done.
  - intros []; simpl; congruence.
  - set_solver.
  - intros _. exists a. cbn [role]. by rewrite Hc.
  - intros j r. rewrite replay_snoc. simpl. intros H. apply (lo_writers _ Hlog j). unfold writer_role in *. by rewrite <- Ewr.
  - intros r. rewrite replay_snoc. cbn [Bool.eqb is_writer]. rewrite elem_known_after. cbn [joins role]. rewrite (lo_readers _ Hlog), Erd. split.
    + intros [[k' Hk']| ->]; [|exists k; by rewrite lookup_insert_eq]. exists k'. rewrite lookup_insert_ne; [done|]. intros <-. congruence.
    + intros [k' [[_ ->]|[_ Hk']]%lookup_insert_Some]; [by right|left; by exists k'].
  - intros Hids Hann. rewrite <- E in Hids, Hann |- *. apply (Reader_Init_ok conf limit _ Hids). eapply proc_ok_mono; [exact Hann|]. by apply (iv_procs _ Hinv q).
Qed.

(** A reader and the receiver of its channel. *)
Lemma reader_receiver s q b k rd : inv s → procs s !! q = Some b → readers b !! k = Some rd →
  ∃ r, receiver_attr b (channel_name (attr rd)) = Some r ∧ id (attr rd) = id r.
Proof using Type.
  intros Hinv Hb Hk. destruct (po_readers _ _ _ (iv_procs _ Hinv q b Hb) k rd Hk) as [_ (r & Hr & Hid & _)]. exists (r_attr r). unfold receiver_attr. by rewrite Hr.
Qed.

(** Readers with one id are of one process and channel. *)
Lemma reader_id_channel s q q' b b' k k' rd rd' : inv s → procs s !! q = Some b → procs s !! q' = Some b' →
  readers b !! k = Some rd → readers b' !! k' = Some rd' → id (attr rd) = id (attr rd') → q = q' ∧ channel_name (attr rd) = channel_name (attr rd').
Proof using Type.
  intros Hinv Hb Hb' Hk Hk' E. destruct (reader_receiver s q b k rd Hinv Hb Hk) as (r & Hr & Ei). destruct (reader_receiver s q' b' k' rd' Hinv Hb' Hk') as (r' & Hr' & Ei').
  destruct (iv_receivers _ Hinv q' b' _ r' Hb' Hr') as [_ H]. eapply H; [done|done|congruence].
Qed.

(** A known reader with the id of a receiver comes from the log of its process. *)
Lemma view_reader s q p p' a c y r : inv s → procs s !! p = Some a → receiver_attr a c = Some y → r ∈ view s false q p' → id (attr r) = id y →
  p' = p ∧ r ∈ replay false (take (seen_of s q p a) (log a)).
Proof using Type.
  intros Hinv Ha Hy Hr Hid. unfold view in Hr. destruct (procs s !! p') as [a'|] eqn:Ha'; [|by apply elem_of_nil in Hr].
  apply replay_in in Hr as Hr'. apply elem_of_take in Hr' as (n & Hn & _). apply list_elem_of_lookup_2 in Hn.
  destruct (lo_receiver _ (iv_log _ Hinv p' a' Ha') _ Hn eq_refl) as (x & Hx & Ex). cbn [role] in Hx, Ex.
  destruct (iv_receivers _ Hinv p a _ y Ha Hy) as [_ H]. destruct (H p' a' _ x Ha' Hx) as [-> _]; [congruence|].
  assert (a' = a) as -> by congruence. done.
Qed.

Lemma Reader_Shutdown_announces k rl b :
  Reader_Shutdown k rl b = announce (mkChange false false rl) (with_readers (delete k (readers b)) (tasks b ∖ {[croutine_name rl]}) b).
Proof using Type. unfold Reader_Shutdown, announce, dispose, notify. cbn [is_writer]. by rewrite !readers_hear_nothing. Qed.

Lemma step_CloseReader s q b k rl : inv s → procs s !! q = Some b → readers b !! k = Some rl → polite s (CloseReader q k) →
  inv (mkSys (<[q := Reader_Shutdown k rl b]> (procs s)) (seen s) (used s)).
Proof using Type.
  intros Hinv Hb Hk Hpol. pose proof (iv_log _ Hinv q b Hb) as Hlog.
  assert (Hin : rl ∈ replay false (log b)) by (apply (lo_readers _ Hlog); by exists k). apply replay_in in Hin as Hin'.
  assert (Halone : ∀ r, r ∈ replay false (log b) → id (attr r) = id (attr rl) → r = rl).
  { intros r [k' Hk']%(lo_readers _ Hlog) Hid. destruct (reader_id_channel s q q b b k' k r rl) as [_ Hc]; try done.
    rewrite (Hpol b rl k' r Hb Hk Hk' Hc) in Hk'. congruence. }
  rewrite Reader_Shutdown_announces. apply (inv_makes s q b (with_readers (delete k (readers b)) (tasks b ∖ {[croutine_name rl]}) b) (mkChange false false rl)); try done.
  - intros c' r Hc'. by left.
  - by apply (iv_used _ Hinv q b (mkChange true false rl)).
  - by apply (lo_place _ Hlog (mkChange true false rl)).
  - intros _. by apply (reader_receiver s q b k).
  - intros j r. rewrite replay_snoc. simpl. apply (lo_writers _ Hlog j).
  - intros r. rewrite replay_snoc. cbn [Bool.eqb is_writer]. rewrite elem_known_after. cbn [joins role readers with_readers]. rewrite (lo_readers _ Hlog). split.
    + intros [[k' Hk'] Hm]. exists k'. rewrite lookup_delete_ne; [done|]. intros <-. rewrite Hk in Hk'. injection Hk' as ->. by rewrite Match_refl in Hm.
    + intros [k' [Hne Hk']%lookup_delete_Some]. split; [by exists k'|]. apply not_true_iff_false. intros (Hc & _)%Match_fields. by rewrite (Hpol b rl k' r Hb Hk Hk' Hc) in Hne.
  - intros Hids Hann. rewrite <- Reader_Shutdown_announces in Hids, Hann |- *. apply Reader_Shutdown_ok; [eapply proc_ok_mono; [exact Hann|]; by apply (iv_procs _ Hinv q)|].
    intros _ r [p Hr]%(iv_known _ Hinv q b false r Hb) Hid. destruct (reader_receiver s q b k rl Hinv Hb Hk) as (y & Hy & Ey).
    destruct (view_reader s q q p b _ y r Hinv Hb Hy Hr) as [_ Hr']; [by rewrite Hid|].
    apply Halone; [|done]. unfold seen_of in Hr'. rewrite decide_True in Hr' by done. by rewrite firstn_all in Hr'.
Qed.

Lemma step_Announce s p q a b x :
  let n := default 0%nat (seen s !! (q, p)) in
  inv s → procs s !! p = Some a → procs s !! q = Some b → log a !! n = Some x → p ≠ q →
  inv (mkSys (<[q := dispose x b]> (procs s)) (<[(q, p) := S n]> (seen s)) (used s)).
Proof using Type.
  intros n Hinv Ha Hb Hx Hpq. pose proof (iv_log _ Hinv p a Ha) as Hlog. apply list_elem_of_lookup_2 in Hx as Hin.
  destruct (dispose_same x b) as [D1 D2]. destruct (dispose_fields x b) as (F1 & F2 & F3 & F4 & _).
  apply (inv_update s q b (dispose x b) []); try done.
  - by rewrite app_nil_r.
  - intros c r. rewrite D1. by left.
  - by intros y ?%elem_of_nil.
  - by intros r ?%elem_of_nil.
  - apply (log_ok_same b); try done. by apply (iv_log _ Hinv q).
  - intros q' p' m [[[= <- <-] <-]|[_ Hm]]%lookup_insert_Some; [right|by left]. split; [done|]. exists a. split; [done|]. by apply lookup_lt_Some in Hx.
  - intros q' p' Hq. rewrite lookup_insert_ne; [done|congruence].
  - intros wr r. rewrite known_dispose. apply (known_step wr x _ (view s wr q) _ p).
    + intros r'. by apply (iv_known _ Hinv).
    + intros p' r' Hp'. apply (view_unmatched s wr q p p' r' a); try done. by apply (lo_place _ Hlog).
    + unfold view, seen_of. simpl. rewrite list_lookup_insert_ne by done. rewrite Ha, !decide_False by done. rewrite lookup_insert_eq. simpl.
      rewrite (take_S_r _ _ _ Hx). apply replay_snoc.
    + intros p' Hp'. unfold view, seen_of. simpl. destruct (decide (p' = q)) as [->|Hq].
      * rewrite list_lookup_insert_eq by (by eapply lookup_lt_Some). by rewrite Hb, F4.
      * rewrite list_lookup_insert_ne by done. rewrite lookup_insert_ne by congruence. done.
  - intros Hids Hmono. assert (Hok := proc_ok_mono _ _ b Hmono (iv_procs _ Hinv q b Hb)). destruct (is_writer x) eqn:Hw.
    + apply (dispose_writer_ok conf _ Hids); [done|done|]. apply Hmono. exists p, a. split; [done|]. by apply (lo_joined _ Hlog).
    + apply dispose_reader_ok; [done|done|]. intros Hj r [p' Hr]%(iv_known _ Hinv q b false r Hb) Hid.
      destruct (lo_receiver _ Hlog x Hin Hw) as (y & Hy & Ey). destruct (view_reader s q p p' a _ y r Hinv Ha Hy Hr) as [_ Hr']; [by rewrite Hid|].
      unfold seen_of in Hr'. rewrite decide_False in Hr' by done. by apply (lo_polite _ Hlog n x).
Qed.

Lemma inv_exec s l s' : inv s → polite s l → exec conf limit s l = Some s' → inv s'.
Proof using Type.
  intros Hinv Hpol. destruct l as [q c i node h t info|q i|q k c i node h t|q k|q i msg|p q]; simpl.
  - destruct (procs s !! q) as [b|] eqn:Hb; [|done]. case_decide; [done|]. intros [= <-]. by apply step_NewWriter.
  - destruct (procs s !! q) as [b|] eqn:Hb; [|done]. destruct (writers b !! i) as [w|] eqn:Hw; [|done]. intros [= <-]. by apply step_CloseWriter.
  - destruct (procs s !! q) as [b|] eqn:Hb; [|done]. case_decide as Hd; [done|]. intros [= <-]. apply step_NewReader; try done; [naive_solver|].
    apply eq_None_not_Some. naive_solver.
  - destruct (procs s !! q) as [b|] eqn:Hb; [|done]. destruct (readers b !! k) as [rl|] eqn:Hk; [|done]. intros [= <-]. by apply step_CloseReader.
  - destruct (procs s !! q) as [b|] eqn:Hb; [|done]. destruct (writers b !! i) as [w|] eqn:Hw; [|done]. intros [= <-]. by apply step_Publish.
  - destruct (procs s !! p) as [a|] eqn:Ha; [|done]. destruct (procs s !! q) as [b|] eqn:Hb; [|done].
    destruct (log a !! _) as [x|] eqn:Hx; [|done]. case_decide; [done|]. intros [= <-]. by apply (step_Announce s p q a b x).
Qed.

Lemma inv_start ps : NoDup ps → inv (start ps).
Proof using Type.
  intros Hnd. assert (Hp : ∀ p (a : @Process M), procs (start ps) !! p = Some a → ∃ x, ps !! p = Some x ∧ a = new_process x).
  { intros p a. simpl. rewrite list_lookup_fmap. destruct (ps !! p); [|done]. intros [= <-]. by eexists. }
  split.
  - intros p q a b ([h1 i1] & H1 & ->)%Hp ([h2 i2] & H2 & ->)%Hp. simpl. intros -> ->. by eapply NoDup_lookup.
  - intros p a (x & _ & ->)%Hp. split; simpl; try (by intros ? ?%elem_of_nil).
    + intros i r. unfold writer_role. simpl. by rewrite lookup_empty.
    + intros r. split; [by intros ?%elem_of_nil|intros [k Hk]; by rewrite lookup_empty in Hk].
    + intros n y. by rewrite lookup_nil.
  - intros p a x (y & _ & ->)%Hp. by intros ?%elem_of_nil.
  - intros p a c r (x & _ & ->)%Hp. unfold receiver_attr. simpl. by rewrite lookup_empty.
  - intros r r' (p & a & (x & _ & ->)%Hp & Hx). by apply elem_of_nil in Hx.
  - intros q p n. simpl. by rewrite lookup_empty.
  - intros q b wr r (x & _ & ->)%Hp. unfold known. simpl. split; [destruct wr; by intros ?%elem_of_nil|]. intros [p H]. unfold view in H.
    destruct (procs (start ps) !! p) as [a|] eqn:Ha; [|by apply elem_of_nil in H]. apply Hp in Ha as (y & _ & ->). simpl in H. rewrite firstn_nil in H. by apply elem_of_nil in H.
  - intros q b (x & _ & ->)%Hp. split; simpl.
    + intros i w. by rewrite lookup_empty.
    + intros i w. by rewrite lookup_empty.
    + split; simpl; [intros c r; by rewrite lookup_empty|]. intros med c i o. split; [set_solver|]. intros (r & m & x' & H & _). simpl in H. by rewrite lookup_empty in H.
    + by intros w ?%elem_of_nil.
Qed.

Lemma inv_reachable ps s : NoDup ps → reachable ps s → inv s.
Proof using Type. intros Hnd. induction 1 as [|s l s' _ IH Hp He]; [by apply inv_start|by eapply inv_exec]. Qed.

(** ** What a message reaches *)

(** A configuration in which each way gets to where it is used, and no two ways
    share their medium. *)
Definition sane (mode : CommunicationMode) : Prop :=
  same_proc mode ≠ HYBRID ∧ (diff_proc mode = SHM ∨ diff_proc mode = RTPS) ∧ diff_host mode = RTPS.

Definition quiescent s : Prop := ∀ q p a, procs s !! p = Some a → is_Some (procs s !! q) → q ≠ p → default 0%nat (seen s !! (q, p)) = length (log a).

Lemma bind_at_most_one {A B} (f : A → list B) (xs : list A) : NoDup xs → (∀ x, x ∈ xs → (length (f x) ≤ 1)%nat) →
  (∀ x y, x ∈ xs → y ∈ xs → f x ≠ [] → f y ≠ [] → x = y) → (length (xs ≫= f) ≤ 1)%nat.
Proof using Type.
  induction 1 as [|x xs Hx Hnd IH]; intros H1 H2; [simpl; lia|]. rewrite bind_cons, length_app. destruct (f x) as [|y ys] eqn:E.
  - apply IH; [intros z Hz; apply H1; by right|intros z z' Hz Hz'; apply H2; by right].
  - assert (Hr : xs ≫= f = []); [|rewrite Hr, <- E; pose proof (H1 x (list_elem_of_here _ _)); simpl; lia].
    assert (Hn : ∀ z, z ∈ xs → f z = []).
    { intros z Hz. destruct (f z) eqn:Ez; [done|]. destruct Hx. rewrite (H2 x z); [done|left|by right|by rewrite E|by rewrite Ez]. }
    clear -Hn. induction xs as [|z xs IH]; [done|]. rewrite bind_cons, (Hn z), IH by set_solver. done.
Qed.

Lemma only_one {A} (xs : list A) x : (length xs ≤ 1)%nat → x ∈ xs → xs = [x].
Proof using Type. destruct xs as [|y [|z xs]]; simpl; [by intros _ ?%elem_of_nil|by intros _ ->%list_elem_of_singleton|lia]. Qed.

Lemma medium_way mode own opposite m : sane mode → way own opposite mode m → m ≠ HYBRID.
Proof using Type. intros (H1 & H2 & H3) [Hr <-]. unfold mapping. destruct (GetRelation own opposite); try done; destruct H2; congruence. Qed.

(** The receiver that is called, where one is. *)
Lemma elem_listened s q b c i m x : inv s → procs s !! q = Some b →
  x ∈ elements (filter (λ x, x.1.1 = (medium m, c) ∧ (x.2 = None ∨ x.2 = Some i)) (listening b)) ↔
  ∃ r m', receiver_map_ b !! c = Some r ∧ is_Some (hears r m' i) ∧ medium m' = medium m ∧ x = (medium m, c, id (r_attr r), Some i).
Proof using Type.
  intros Hinv Hb. rewrite elem_of_elements, elem_of_filter. destruct x as [[[med c'] y] o]. simpl.
  rewrite (rv_listening _ _ _ (po_rcv _ _ _ (iv_procs _ Hinv q b Hb))). split.
  - intros [[[= -> ->] Ho] (r & m' & z & Hr & -> & -> & Em & Hh)]. exists r, m'. assert (z = i) as -> by naive_solver. done.
  - intros (r & m' & Hr & Hh & Em & [= -> -> -> ->]). split; [naive_solver|]. exists r, m', i. done.
Qed.

Lemma heard_once s q a b c i ms : inv s → procs s !! q = Some b → NoDup ms → (∀ m, m ∈ ms → m ≠ HYBRID) → (length (heard c i ms a b) ≤ 1)%nat.
Proof using Type.
  intros Hinv Hb Hnd Hms. pose proof (po_rcv _ _ _ (iv_procs _ Hinv q b Hb)) as Hrcv. unfold heard.
  apply bind_at_most_one; [done| |].
  - intros m _. destruct (reaches (medium m) a b); [|simpl; lia]. rewrite length_fmap.
    destruct (elements (filter (λ x, x.1.1 = (medium m, c) ∧ (x.2 = None ∨ x.2 = Some i)) (listening b))) as [|x [|y ys]] eqn:E; simpl; [lia|lia|].
    exfalso. pose proof (NoDup_elements (filter (λ x, x.1.1 = (medium m, c) ∧ (x.2 = None ∨ x.2 = Some i)) (listening b))) as Hne.
    pose proof (λ z, elem_listened s q b c i m z Hinv Hb) as Hel. rewrite E in Hne, Hel.
    destruct (proj1 (Hel x)) as (r & _ & Hr & _ & _ & ->); [left|]. destruct (proj1 (Hel y)) as (r' & _ & Hr' & _ & _ & ->); [right; left|].
    assert (r' = r) as -> by congruence. apply NoDup_cons in Hne as [Hne _]. apply Hne. left.
  - assert (Hin : ∀ m, (if reaches (medium m) a b then (λ x : Medium * string * Z * option Z, x.1.2) <$> elements (filter (λ x, x.1.1 = (medium m, c) ∧ (x.2 = None ∨ x.2 = Some i)) (listening b)) else []) ≠ [] →
      ∃ r m', receiver_map_ b !! c = Some r ∧ is_Some (hears r m' i) ∧ medium m' = medium m).
    { intros m. destruct (reaches (medium m) a b); [|done].
      destruct (elements (filter (λ x, x.1.1 = (medium m, c) ∧ (x.2 = None ∨ x.2 = Some i)) (listening b))) as [|x xs] eqn:E; [done|]. intros _.
      destruct (proj1 (elem_listened s q b c i m x Hinv Hb)) as (r & m' & H1 & H2 & H3 & _); [rewrite E; left|]. by exists r, m'. }
    intros m1 m2 Hm1 Hm2 (r1 & n1 & R1 & S1 & M1)%Hin (r2 & n2 & R2 & S2 & M2)%Hin. assert (r2 = r1) as -> by congruence.
    assert (n1 = n2) as -> by exact (hears_one conf _ (iv_ids _ Hinv) b c r1 n1 n2 i Hrcv R1 S1 S2).
    pose proof (Hms _ Hm1). pose proof (Hms _ Hm2). rewrite M1 in M2. by destruct m1, m2.
Qed.

(** A receiver that hears a writer on a way that the writer uses. *)
Lemma heard_by s q a b c i ms r m : inv s → procs s !! q = Some b → receiver_map_ b !! c = Some r → is_Some (hears r m i) → m ∈ ms → reaches (medium m) a b = true →
  id (r_attr r) ∈ heard c i ms a b.
Proof using Type.
  intros Hinv Hb Hr Hh Hm Hre. unfold heard. apply list_elem_of_bind. exists m. split; [|done]. rewrite Hre. apply list_elem_of_fmap.
  exists (medium m, c, id (r_attr r), Some i). split; [done|]. apply (elem_listened s q b c i m _ Hinv Hb). by exists r, m.
Qed.

(** When the announcements have arrived, all know the open readers and writers. *)
Lemma known_all wr s q b r : inv s → quiescent s → procs s !! q = Some b →
  r ∈ known wr b ↔ ∃ p a, procs s !! p = Some a ∧ r ∈ replay wr (log a).
Proof using Type.
  intros Hinv Hq Hb. rewrite (iv_known _ Hinv q b wr r Hb). unfold view.
  assert (Hs : ∀ p a, procs s !! p = Some a → take (seen_of s q p a) (log a) = log a).
  { intros p a Ha. unfold seen_of. case_decide as Hd; [by rewrite firstn_all|]. rewrite (Hq q p a Ha); [by rewrite firstn_all|by exists b|congruence]. }
  split.
  - intros [p H]. destruct (procs s !! p) as [a|] eqn:Ha; [|by apply elem_of_nil in H]. rewrite Hs in H by done. by exists p, a.
  - intros (p & a & Ha & H). exists p. by rewrite Ha, Hs.
Qed.

Lemma reaches_way mode a b c1 c2 m : sane mode → placed c1 a → placed c2 b → way (attr c1) (attr c2) mode m → reaches (medium m) a b = true.
Proof using Type.
  intros (H1 & H2 & H3) [P1 P2] [P3 P4] [Hr <-]. revert Hr. unfold GetRelation. rewrite P1, P2, P3, P4. case_bool_decide; [|done]. simpl.
  case_bool_decide as Hh; simpl; [|intros _; by rewrite H3]. destruct (Z.eqb_spec (p_pid b) (p_pid a)) as [Hp|Hp]; simpl; intros _.
  - unfold reaches. destruct (medium (same_proc mode)); [|by case_bool_decide|done]. rewrite bool_decide_eq_true_2 by done. by rewrite Hp, Z.eqb_refl.
  - destruct H2 as [-> | ->]; simpl; [by rewrite bool_decide_eq_true_2|done].
Qed.

(** The ways that are used are those to readers that are known. *)
Lemma modes_in_use s p a i w msg m : inv s → procs s !! p = Some a → writers a !! i = Some w →
  m ∈ (Write i w msg a).2 ↔ ∃ r, r ∈ known_readers a ∧ way (attr (w_role w)) (attr r) (ObtainConfig conf) m.
Proof using Type.
  intros Hinv Ha Hw. destruct (po_writers _ _ _ (iv_procs _ Hinv p a Ha) i w Hw) as [_ [E1 E2] [Hr He]]. rewrite E1, E2 in Hr.
  change (m ∈ enabled_modes (transmitter_ w) ↔ ∃ r, r ∈ known_readers a ∧ way (attr (w_role w)) (attr r) (ObtainConfig conf) m).
  rewrite enabled_modes_spec, He. split.
  - intros [x (y & (r & -> & Hk)%list_elem_of_fmap & _ & Hway)%Hr]%set_choose_L. by exists r.
  - intros (r & Hk & Hway) Hemp. assert (Hx : id (attr r) ∈ default ∅ (receivers_ (transmitter_ w) !! m)); [|rewrite Hemp in Hx; set_solver].
    apply Hr. exists (attr r). split; [apply list_elem_of_fmap; by exists r|done].
Qed.

(** ** Announcements arrive *)

Definition arrives s s' : Prop := ∃ p q, exec conf limit s (Announce p q) = Some s'.

(** The processes have the same open writers and readers. *)
Definition same_open s s' : Prop :=
  length (procs s') = length (procs s) ∧
  ∀ p a, procs s !! p = Some a → ∃ a', procs s' !! p = Some a' ∧ log a' = log a ∧ readers a' = readers a ∧ (∀ i, writer_role a' i = writer_role a i).

Lemma same_open_trans s1 s2 s3 : same_open s1 s2 → same_open s2 s3 → same_open s1 s3.
Proof using Type.
  intros [L1 H1] [L2 H2]. split; [congruence|]. intros p a Ha. destruct (H1 _ _ Ha) as (a2 & Ha2 & El & Er & Ew).
  destruct (H2 _ _ Ha2) as (a3 & Ha3 & El' & Er' & Ew'). exists a3. split_and!; congruence.
Qed.

Lemma same_open_refl s : same_open s s.
Proof using Type. split; [done|]. intros p a Ha. by exists a. Qed.

Lemma arrive_step s p q a x : p ≠ q → (q < length (procs s))%nat → procs s !! p = Some a → log a !! default 0%nat (seen s !! (q, p)) = Some x →
  ∃ s', arrives s s' ∧ same_open s s' ∧ seen s' = <[(q, p) := S (default 0%nat (seen s !! (q, p)))]> (seen s).
Proof using Type.
  intros Hpq [b Hb]%lookup_lt_is_Some_2 Ha Hx. eexists. split; [exists p, q; simpl; by rewrite Ha, Hb, Hx, decide_False by done|]. split; [|done].
  split; simpl; [by rewrite length_insert|]. intros p' a' Ha'. destruct (decide (p' = q)) as [->|Hp].
  - rewrite list_lookup_insert_eq by (by eapply lookup_lt_Some). exists (dispose x b). assert (a' = b) as -> by congruence.
    destruct (dispose_fields x b) as (_ & _ & F3 & F4 & _). destruct (dispose_same x b) as [_ D2]. split_and!; try done.
  - rewrite list_lookup_insert_ne by done. by exists a'.
Qed.

(** All that one process has announced gets to another. *)
Lemma arrive_pair s p q a : p ≠ q → (q < length (procs s))%nat → procs s !! p = Some a → (default 0%nat (seen s !! (q, p)) ≤ length (log a))%nat →
  ∃ s', rtc arrives s s' ∧ same_open s s' ∧ default 0%nat (seen s' !! (q, p)) = length (log a) ∧ (∀ x, x ≠ (q, p) → seen s' !! x = seen s !! x).
Proof using Type.
  intros Hpq. remember (length (log a) - default 0%nat (seen s !! (q, p)))%nat as n eqn:En. revert s a En. induction n as [|n IH]; intros s a En Hq Ha Hle.
  - exists s. split; [done|]. split; [apply same_open_refl|]. split; [lia|done].
  - destruct (lookup_lt_is_Some_2 (log a) (default 0%nat (seen s !! (q, p)))) as [x Hx]; [lia|].
    destruct (arrive_step s p q a x Hpq Hq Ha Hx) as (s1 & H1 & [O1 O2] & E1). destruct (O2 _ _ Ha) as (a1 & Ha1 & El & _).
    destruct (IH s1 a1) as (s2 & R2 & S2 & E2 & N2); rewrite ?E1, ?lookup_insert_eq, ?El, ?O1; simpl; try lia; try done.
    exists s2. split; [by eapply rtc_l|]. split; [by eapply same_open_trans|]. split; [by rewrite E2, El|].
    intros y Hy. by rewrite N2, E1, lookup_insert_ne.
Qed.

Lemma arrive_pairs (xs : list (nat * nat)) : ∀ s, inv s → NoDup xs → Forall (λ x, (x.1 < length (procs s))%nat ∧ (x.2 < length (procs s))%nat ∧ x.2 ≠ x.1) xs →
  ∃ s', rtc arrives s s' ∧ same_open s s' ∧
    (∀ x a, x ∈ xs → procs s !! x.2 = Some a → default 0%nat (seen s' !! x) = length (log a)) ∧ (∀ x, x ∉ xs → seen s' !! x = seen s !! x).
Proof using Type.
  induction xs as [|[q p] xs IH]; intros s Hinv Hnd Hall.
  { exists s. split; [done|]. split; [apply same_open_refl|]. split; [by intros x a ?%elem_of_nil|done]. }
  apply Forall_cons in Hall as [(Hq & Hp & Hpq) Hall]. apply NoDup_cons in Hnd as [Hx Hnd]. simpl in *.
  destruct (IH s Hinv Hnd Hall) as (s1 & R1 & S1 & E1 & N1). destruct (lookup_lt_is_Some_2 _ _ Hp) as [a Ha]. pose proof S1 as [L1 O1].
  destruct (O1 _ _ Ha) as (a1 & Ha1 & El & _).
  destruct (arrive_pair s1 p q a1 Hpq) as (s2 & R2 & S2 & E2 & N2); [by rewrite L1|done| |].
  { rewrite N1, El by done. destruct (seen s !! (q, p)) as [n|] eqn:En; simpl; [|lia]. destruct (iv_seen _ Hinv _ _ _ En) as (a' & Ha' & ?). by assert (a' = a) as -> by congruence. }
  exists s2. split; [by etrans|]. split; [by eapply same_open_trans|]. split.
  - intros x a' [->|Hin]%elem_of_cons Hx'; [simpl in Hx'; rewrite E2, El; congruence|]. rewrite N2 by congruence. by apply E1.
  - intros x Hne. rewrite N2, N1 by set_solver. done.
Qed.

Lemma arrive_all s : inv s → ∃ s', rtc arrives s s' ∧ same_open s s' ∧ quiescent s'.
Proof using Type.
  intros Hinv. set (ns := List.seq 0 (length (procs s))). set (xs := elements (list_to_set (C := gset (nat * nat)) (filter (λ x, x.2 ≠ x.1) (ns ≫= λ q, pair q <$> ns)))).
  assert (Hxs : ∀ x, x ∈ xs ↔ (x.1 < length (procs s))%nat ∧ (x.2 < length (procs s))%nat ∧ x.2 ≠ x.1).
  { intros [q p]. unfold xs, ns. rewrite elem_of_elements, elem_of_list_to_set, list_elem_of_filter, list_elem_of_bind. simpl. setoid_rewrite list_elem_of_fmap. setoid_rewrite elem_of_seq. split.
    - intros (? & q' & (p' & [= -> ->] & ?) & ?). lia.
    - intros (Hq & Hp & Hne). split; [done|]. exists q. split; [exists p; split; [done|lia]|lia]. }
  destruct (arrive_pairs xs s Hinv) as (s' & R & S & E & _); [apply NoDup_elements|apply Forall_forall; intros x; by rewrite Hxs|].
  exists s'. split; [done|]. split; [done|]. destruct S as [L O]. intros q p a' Ha' Hq Hne. apply lookup_lt_Some in Ha' as Hp. rewrite L in Hp.
  destruct (lookup_lt_is_Some_2 _ _ Hp) as [a Ha]. destruct (O _ _ Ha) as (a2 & Ha2 & El & _). assert (a2 = a') as -> by congruence. rewrite El.
  apply (E (q, p)); [|done]. apply Hxs. simpl. apply lookup_lt_is_Some_1 in Hq. rewrite L in Hq. done.
Qed.

Lemma arrives_reachable ps s s' : reachable ps s → rtc arrives s s' → reachable ps s'.
Proof using Type. intros Hs. induction 1 as [|s1 s2 s3 (p & q & H) _ IH]; [done|]. apply IH. by eapply (after_step ps s1 (Announce p q)). Qed.

(** ** The guarantees *)

(** A writer that is open in one process and a reader in another, which knows it. *)
Lemma open_heard s p q a b i w k rd msg : inv s → sane (ObtainConfig conf) → quiescent s → procs s !! p = Some a → procs s !! q = Some b →
  writers a !! i = Some w → readers b !! k = Some rd → channel_name (attr rd) = channel_name (attr (w_role w)) →
  id (attr rd) ∈ heard (channel_name (attr (w_role w))) i (Write i w msg a).2 a b.
Proof using Type.
  intros Hinv Hsane Hq Ha Hb Hw Hk Hc.
  pose proof (iv_procs _ Hinv q b Hb) as Hok. destruct (po_readers _ _ _ Hok k rd Hk) as [Hpl (r & Hr & Hid & Hall)].
  destruct (rv_receiver _ _ _ (po_rcv _ _ _ Hok) _ _ Hr) as (R1 & R2 & R3 & _).
  assert (Hrel : GetRelation (r_attr r) (attr (w_role w)) = GetRelation (attr (w_role w)) (attr rd)).
  { rewrite GetRelation_sym. unfold GetRelation. rewrite R1, R2, R3. destruct Hpl as [-> ->]. done. }
  assert (Hne : GetRelation (attr (w_role w)) (attr rd) ≠ NO_RELATION) by (rewrite GetRelation_none; naive_solver).
  set (m := mapping (ObtainConfig conf) (GetRelation (attr (w_role w)) (attr rd))).
  assert (Hway : way (attr (w_role w)) (attr rd) (ObtainConfig conf) m) by done.
  pose proof (po_writers _ _ _ (iv_procs _ Hinv p a Ha) i w Hw) as [Hi _ _].
  assert (Hwr : w_role w ∈ replay true (log a)) by (apply (lo_writers _ (iv_log _ Hinv p a Ha) i); unfold writer_role; by rewrite Hw).
  rewrite Hid. apply (heard_by s q a b _ i _ r m); try done.
  - by rewrite <- Hc.
  - rewrite <- Hi. apply Hall; [|unfold way; by rewrite Hrel]. apply (known_all true s q b); try done. by exists p, a.
  - apply (modes_in_use s p a i w msg m); try done. exists rd. split; [|done]. apply (known_all false s p a); try done. exists q, b. split; [done|].
    apply (lo_readers _ (iv_log _ Hinv q b Hb)). by exists k.
  - apply (reaches_way (ObtainConfig conf) a b (w_role w) rd m); try done. apply (lo_place _ (iv_log _ Hinv p a Ha) (mkChange true true (w_role w))). by apply replay_in.
Qed.

Lemma heard_at_most_once s p q a b i w msg : inv s → sane (ObtainConfig conf) → procs s !! p = Some a → procs s !! q = Some b → writers a !! i = Some w →
  (length (heard (channel_name (attr (w_role w))) i (Write i w msg a).2 a b) ≤ 1)%nat.
Proof using Type.
  intros Hinv Hsane Ha Hb Hw. apply (heard_once s q); try done.
  - apply (enabled_modes_NoDup (transmitter_ w)).
  - intros m (r & _ & Hm)%(modes_in_use s p a i w msg m); try done. by eapply medium_way.
Qed.

(** C4: In any number of distinct processes, under a configuration in which
    each mode gets to where it is used ([sane]), whatever writers and readers
    were opened and closed, and whatever part of their announcements has
    arrived where, a published message calls the receiver of its channel in a
    process at most once, so that a reader gets it at most once; and when all
    announcements have arrived it calls it exactly once in each process that
    has an open reader. A reader is closed only when it is the only one of its
    channel in the process ([polite]): closing one of two silences the other
    ([reader_shutdown_silences_sibling]). *)
Theorem each_reader_hears_once ps s p q a b i w msg :
  NoDup ps → sane (ObtainConfig conf) → reachable ps s → procs s !! p = Some a → procs s !! q = Some b → writers a !! i = Some w →
  let c := channel_name (attr (w_role w)) in
  let xs := heard c i (Write i w msg a).2 a b in
  (length xs ≤ 1)%nat ∧
  (quiescent s → ∀ k rd, readers b !! k = Some rd → channel_name (attr rd) = c → xs = [id (attr rd)]).
Proof using Type.
  intros Hnd Hsane Hs Ha Hb Hw. apply inv_reachable in Hs as Hinv; [|done]. intros c xs.
  pose proof (heard_at_most_once s p q a b i w msg Hinv Hsane Ha Hb Hw) as Hlen. split; [done|].
  intros Hq k rd Hk Hc. pose proof (open_heard s p q a b i w k rd msg Hinv Hsane Hq Ha Hb Hw Hk Hc) as Hin.
  by apply only_one.
Qed.

(** C25: From every state that is reached under a [sane] configuration, readers
    being closed only as the only ones of their channel in the process
    ([polite]), the announcements can all arrive, with nothing else happening,
    and then what an open writer publishes is heard by every open reader of its
    channel. *)
Theorem readers_hear_in_the_end ps s :
  NoDup ps → sane (ObtainConfig conf) → reachable ps s →
  ∃ s', rtc arrives s s' ∧ same_open s s' ∧
    ∀ p q a b i w k rd msg, procs s' !! p = Some a → procs s' !! q = Some b → writers a !! i = Some w → readers b !! k = Some rd →
      channel_name (attr rd) = channel_name (attr (w_role w)) → id (attr rd) ∈ heard (channel_name (attr (w_role w))) i (Write i w msg a).2 a b.
Proof using Type.
  intros Hnd Hsane Hs. destruct (arrive_all s (inv_reachable ps s Hnd Hs)) as (s' & R & S & Hq). exists s'. split; [done|]. split; [done|].
  intros p q a b i w k rd msg Ha Hb Hw Hk Hc. apply (open_heard s' p q a b i w k rd); try done. by apply (inv_reachable ps), (arrives_reachable ps s).
Qed.

(** Property: When all announcements have arrived, a writer sends on the ways to the
    open readers of its channel and on no other, and a process is told that a
    channel has a reader when there is one. *)
Theorem no_way_for_nobody ps s p a :
  NoDup ps → reachable ps s → quiescent s → procs s !! p = Some a →
  (∀ i w msg m, writers a !! i = Some w →
     m ∈ (Write i w msg a).2 ↔
     ∃ q b k rd, procs s !! q = Some b ∧ readers b !! k = Some rd ∧ way (attr (w_role w)) (attr rd) (ObtainConfig conf) m) ∧
  (∀ c, HasReader c a = true ↔ ∃ q b k rd, procs s !! q = Some b ∧ readers b !! k = Some rd ∧ channel_name (attr rd) = c).
Proof using Type.
  intros Hnd Hs Hq Ha. apply inv_reachable in Hs as Hinv; [|done].
  assert (Hk : ∀ r, r ∈ known_readers a ↔ ∃ q b k, procs s !! q = Some b ∧ readers b !! k = Some r).
  { intros r. rewrite (known_all false s p a r Hinv Hq Ha). split.
    - intros (q & b & Hb & Hr). apply (lo_readers _ (iv_log _ Hinv q b Hb)) in Hr as [k Hk]. by exists q, b, k.
    - intros (q & b & k & Hb & Hk). exists q, b. split; [done|]. apply (lo_readers _ (iv_log _ Hinv q b Hb)). by exists k. }
  split.
  - intros i w msg m Hw. rewrite (modes_in_use s p a i w msg m Hinv Ha Hw). setoid_rewrite Hk. naive_solver.
  - intros c. unfold HasReader. rewrite negb_true_iff, bool_decide_eq_false. split.
    + intros Hne. destruct (GetReaders c a) as [|r rs] eqn:E; [done|]. assert (Hr : r ∈ GetReaders c a) by (rewrite E; left).
      apply list_elem_of_filter in Hr as [Hc (q & b & k & Hb & Hr)%Hk]. by exists q, b, k, r.
    + intros (q & b & k & rd & Hb & Hr & Hc) E. assert (Hin : rd ∈ GetReaders c a); [|rewrite E in Hin; by apply elem_of_nil in Hin].
      apply list_elem_of_filter. split; [done|]. apply Hk. by exists q, b, k.
Qed.
End Delivery.

(** ** Runs *)

Section Runs.
Context {M : Type} (conf : option CommunicationMode) (limit : option Z).

Definition run (s : @sys M) (ls : list label) : option sys := foldl (λ o l, o ≫= λ s, exec conf limit s l) (Some s) ls.

Definition closes_reader (l : @label M) : Prop := match l with CloseReader _ _ => True | _ => False end.

Lemma reachable_run ps ls : Forall (λ l, ¬ closes_reader l) ls → ∀ s, run (start ps) ls = Some s → reachable conf limit ps s.
Proof using Type.
  induction ls as [|l ls IH] using rev_ind; [intros _ s [= <-]; apply at_start|]. intros [Hls Hl]%Forall_app s. rewrite Forall_singleton in Hl.
  unfold run. rewrite foldl_app. simpl. fold (run (start ps) ls). destruct (run (start ps) ls) as [s'|] eqn:E; [|done]. intros He.
  eapply after_step; [by apply IH| |exact He]. destruct l; try exact I. exfalso. apply Hl. exact I.
Qed.
End Runs.

(** Two processes of a host; a writer in the first, and in the second two nodes
    that read its channel. *)
Definition no_history : HistoryAttributes := mkAttributes false 1.
Definition first_info : MessageInfo := mkInfo (mkIdentity [] 10) 0 0 (mkIdentity [] 0).
Definition two_nodes : list (@label Z) :=
  [NewWriter 0 "c" 10 ("w", 1) no_history false first_info; NewReader 1 0 "c" 20 ("r", 2) no_history false;
   NewReader 1 1 "c" 21 ("s", 3) no_history false;
   Announce 0 1; Announce 1 0; Announce 1 0].
Definition one_closed : list (@label Z) := two_nodes ++ [CloseReader 1 0; Announce 1 0].

Definition one_host : list (string * Z) := [("h", 1); ("h", 2)].

(** What a message of writer 10 of the first process calls in the second. *)
Definition calls (s : @sys Z) (msg : Z) : option (list Z) :=
  a ← procs s !! 0%nat; b ← procs s !! 1%nat; w ← writers a !! 10; Some (heard "c" 10 (Write 10 w msg a).2 a b).

Lemma two_nodes_run : ∃ s a b w rd,
  run None None (start one_host) two_nodes = Some s ∧ procs s !! 0%nat = Some a ∧ procs s !! 1%nat = Some b ∧ writers a !! 10 = Some w ∧
  readers b !! 0%nat = Some rd ∧ channel_name (attr rd) = channel_name (attr (w_role w)) ∧ channel_name (attr (w_role w)) = "c" ∧ id (attr rd) = 20 ∧
  length (procs s) = 2%nat ∧ default 0%nat (seen s !! (1, 0)%nat) = length (log a) ∧ default 0%nat (seen s !! (0, 1)%nat) = length (log b).
Proof. do 5 eexists. split_and!; vm_compute; reflexivity. Qed.

Lemma two_places (s : @sys Z) a b : procs s = [a; b] → default 0%nat (seen s !! (1, 0)%nat) = length (log a) → default 0%nat (seen s !! (0, 1)%nat) = length (log b) → quiescent s.
Proof.
  intros Hp H1 H2 q p x Hx [y Hy] Hne. rewrite Hp in Hx, Hy. apply lookup_lt_Some in Hx as Lp. apply lookup_lt_Some in Hy as Lq. simpl in Lp, Lq.
  destruct q as [|[|q]], p as [|[|p]]; try lia; simplify_eq/=; done.
Qed.

Lemma two_nodes_state : ∃ (s : @sys Z) a b w rd,
  reachable None None one_host s ∧ quiescent s ∧ procs s !! 0%nat = Some a ∧ procs s !! 1%nat = Some b ∧ writers a !! 10 = Some w ∧
  readers b !! 0%nat = Some rd ∧ channel_name (attr rd) = channel_name (attr (w_role w)) ∧ channel_name (attr (w_role w)) = "c" ∧ id (attr rd) = 20.
Proof.
  destruct two_nodes_run as (s & a & b & w & rd & Hrun & Ha & Hb & Hw & Hk & Hc & Hc' & Hi & Hl & H1 & H2). exists s, a, b, w, rd. split_and!; try done.
  - apply (reachable_run None None one_host two_nodes); [|done]. unfold two_nodes. rewrite !Forall_cons, Forall_nil. split_and!; first [exact I|by intros []].
  - apply (two_places s a b); try done. destruct (procs s) as [|x [|y [|]]]; simplify_eq/=. done.
Qed.

Lemma one_host_distinct : NoDup one_host.
Proof. apply (bool_decide_unpack _). vm_compute. exact I. Qed.

Lemma default_sane : sane (ObtainConfig None).
Proof. split_and!; [done|by left|done]. Qed.

Lemma each_reader_hears_once_witness : ∃ (s : @sys Z) a b w, procs s !! 0%nat = Some a ∧ procs s !! 1%nat = Some b ∧ writers a !! 10 = Some w ∧
  heard "c" 10 (Write 10 w 5 a).2 a b = [20].
Proof.
  destruct two_nodes_state as (s & a & b & w & rd & Hs & Hq & Ha & Hb & Hw & Hk & Hc & Hc' & Hi).
  destruct (each_reader_hears_once None None one_host s 0 1 a b 10 w 5 one_host_distinct default_sane Hs Ha Hb Hw) as [_ H].
  exists s, a, b, w. split_and!; try done. rewrite <- Hi, <- Hc'. exact (H Hq 0%nat rd Hk Hc).
Defined.

(** Before any announcement has arrived nobody hears the writer; in the end the
    reader does. *)
Definition silent_nodes : list (@label Z) := take 3 two_nodes.

Lemma silent_nodes_run : ∃ s a b w rd,
  run None None (start one_host) silent_nodes = Some s ∧ procs s !! 0%nat = Some a ∧ procs s !! 1%nat = Some b ∧ writers a !! 10 = Some w ∧
  readers b !! 0%nat = Some rd ∧ channel_name (attr rd) = channel_name (attr (w_role w)) ∧ channel_name (attr (w_role w)) = "c" ∧ id (attr rd) = 20 ∧ calls s 5 = Some [].
Proof. do 5 eexists. split_and!; vm_compute; reflexivity. Qed.

Lemma readers_hear_in_the_end_witness : ∃ (s s' : @sys Z) xs,
  reachable None None one_host s ∧ calls s 5 = Some [] ∧ rtc (arrives None None) s s' ∧ calls s' 5 = Some xs ∧ 20 ∈ xs.
Proof.
  destruct silent_nodes_run as (s & a & b & w & rd & Hrun & Ha & Hb & Hw & Hk & Hc & Hc' & Hi & Hn).
  assert (Hs : reachable None None one_host s).
  { apply (reachable_run None None one_host silent_nodes); [|done]. unfold silent_nodes. simpl. rewrite !Forall_cons, Forall_nil. split_and!; first [exact I|by intros []]. }
  destruct (readers_hear_in_the_end None None one_host s one_host_distinct default_sane Hs) as (s' & R & [_ S] & H).
  destruct (S _ _ Ha) as (a' & Ha' & _ & _ & Ew). destruct (S _ _ Hb) as (b' & Hb' & _ & Er & _).
  specialize (Ew 10). unfold writer_role in Ew. rewrite Hw in Ew. destruct (writers a' !! 10) as [w'|] eqn:Hw'; [|done]. injection Ew as Ew.
  pose proof (H 0%nat 1%nat a' b' 10 w' 0%nat rd 5 Ha' Hb' Hw' ltac:(by rewrite Er) ltac:(congruence)) as Hin. rewrite Ew, Hc', Hi in Hin.
  exists s, s', (heard "c" 10 (Write 10 w' 5 a').2 a' b'). split; [exact Hs|]. split; [exact Hn|]. split; [exact R|]. split; [|exact Hin].
  unfold calls. rewrite Ha'. cbn. rewrite Hb'. cbn. by rewrite Hw'.
Defined.

Lemma no_way_for_nobody_witness : ∃ (s : @sys Z) a w, procs s !! 0%nat = Some a ∧ writers a !! 10 = Some w ∧ HasReader "c" a = true.
Proof.
  destruct two_nodes_state as (s & a & b & w & rd & Hs & Hq & Ha & Hb & Hw & Hk & Hc & Hc' & Hi).
  destruct (no_way_for_nobody None None one_host s 0 a one_host_distinct Hs Hq Ha) as [_ H].
  exists s, a, w. split_and!; try done. apply H. exists 1%nat, b, 0%nat, rd. split_and!; [done|done|congruence].
Defined.

(** Property: The readers of a channel in a process share a receiver, and with it the
    id that the writers know.  When one of them is closed, the writers stop
    sending to that id, and the other, which is open and has heard of all, gets
    no message any more. *)
Theorem reader_shutdown_silences_sibling : ∃ (s s' : @sys Z) a b w rd,
  run None None (start one_host) two_nodes = Some s ∧ (∀ msg, calls s msg = Some [20]) ∧
  run None None s [CloseReader 1 0; Announce 1 0] = Some s' ∧ quiescent s' ∧
  procs s' !! 0%nat = Some a ∧ procs s' !! 1%nat = Some b ∧ writers a !! 10 = Some w ∧ readers b !! 1%nat = Some rd ∧
  channel_name (attr rd) = "c" ∧ channel_name (attr (w_role w)) = "c" ∧ HasReader "c" a = true ∧ (∀ msg, calls s' msg = Some []).
Proof.
  do 6 eexists. split; [vm_compute; reflexivity|]. split; [intros msg; vm_compute; reflexivity|]. split; [vm_compute; reflexivity|].
  split; [eapply two_places; vm_compute; reflexivity|]. split_and!; [vm_compute; reflexivity..|]. intros msg; vm_compute; reflexivity.
Qed.
