(* ===== verification/Component.v ===== *)
(** * Components

    [Component] ([src/code/cyber/component/component.h], [component_base.h]),
    which calls [Proc] with a message of its first channel and the latest ones
    of the others, and [TimerComponent] ([timer_component.cc]).  A component
    gets its readers from its node ([node/node.h], [node_channel_impl.h]).  In
    reality it fetches from a [DataVisitor]; in simulation the reader of the
    first channel looks into the [Blocker]s of the others.  The four
    specialisations of [Component] differ in the number of channels, here [k]. *)

From stdpp Require Import base list strings gmap fin_maps.
From S2P Require Import Prelude AtomicHashMap CacheBuffer DataVisitor Blocker TimingWheel Timer.

Lemma head_take_rev {T} (xs : list T) n : (1 ≤ n)%nat → head (take n (rev xs)) = last xs.
Proof.
  intros Hn. destruct xs as [|x xs] using rev_ind; [by destruct n|]. rewrite rev_app_distr, last_snoc. by destruct n; [lia|].
Qed.

(** A callback that is there once is called once. *)
Lemma called_once {T} (node : string) (xs : list (list T)) (l : list (string * nat)) : NoDup l.*1 →
  (∀ n, (n, 0%nat) ∈ l → n = node) →
  (l.*2 ≫= λ i, if decide (i = 0%nat) then xs else []) = if decide ((node, 0%nat) ∈ l) then xs else [].
Proof.
  induction l as [|[n i] l IH]; intros Hnd Hu; [by rewrite decide_False by set_solver|]. apply NoDup_cons in Hnd as [Hn Hnd].
  rewrite fmap_cons, bind_cons. cbn [snd fst]. rewrite IH by (done || set_solver). destruct (decide (i = 0%nat)) as [->|Hi].
  - assert (n = node) as -> by (apply Hu; left). rewrite (decide_True _ _ (list_elem_of_here _ _)).
    rewrite decide_False; [by rewrite app_nil_r|]. intros H. apply Hn, list_elem_of_fmap. by exists (node, 0%nat).
  - apply decide_ext. rewrite elem_of_cons. naive_solver.
Qed.

(** A message of the first channel is not among the latest of the others. *)
Lemma fused_after {T} k (hist : list (nat * T)) msg : fused k (hist ++ [(0%nat, msg)]) (0%nat, msg) = fused k hist (0%nat, msg).
Proof.
  assert (H : ∀ n a, (1 ≤ a)%nat → mapM (λ c, last (channel_hist c (hist ++ [(0%nat, msg)]))) (seq a n) = mapM (λ c, last (channel_hist c hist)) (seq a n));
    [|unfold fused; f_equal; by apply H].
  intros n. induction n as [|n IH]; intros a Ha; [done|]. simpl. rewrite channel_hist_snoc. simpl. rewrite decide_False by lia. rewrite app_nil_r. by rewrite IH by lia.
Qed.

Section Component.
Context {T : Type} (null : T) (RegisterChannel : string → Z).

(** ** Nodes *)

Record ReaderOption := mkOption { channel : string; depth : Z; pending_queue_size : Z }.
Record ComponentConfig := mkComponentConfig { name : string; config_readers : list ReaderOption }.

(** The parts of the process that a node uses: the mode, the names of the tasks
    of the scheduler, the blockers. *)
Record Sys := mkSys { is_reality_mode : bool; tasks : gset string; sys_blockers : gmap string (@typed_blocker T) }.

(** A reader: the type of its messages, and the number of its callback. *)
Record NodeReader := mkNodeReader { r_option : ReaderOption; r_type : nat; r_id : nat }.
Record Node := mkNode { node_name_ : string; readers_ : gmap string NodeReader }.

Definition croutine_name (n : Node) (c : string) : string := node_name_ n +:+ "_" +:+ c.

(** [Reader::Init] and [IntraReader::Init]; a reader that fails is destroyed,
    and the destructor of an [IntraReader] unsubscribes. *)
Definition NodeReader_Init (r : NodeReader) (n : Node) (s : Sys) : bool * Sys :=
  let c := channel (r_option r) in
  if is_reality_mode s then
    if decide (croutine_name n c ∈ tasks s) then (false, s)
    else (true, mkSys (is_reality_mode s) ({[croutine_name n c]} ∪ tasks s) (sys_blockers s))
  else
    let '(ok, m) := Manager_Subscribe (r_type r) c (depth (r_option r)) (node_name_ n) (r_id r) (sys_blockers s) in
    (ok, mkSys (is_reality_mode s) (tasks s) (if ok then m else (Manager_Unsubscribe (r_type r) c (node_name_ n) m).2)).

Definition NodeReader_Shutdown (r : NodeReader) (n : Node) (s : Sys) : Sys :=
  let c := channel (r_option r) in
  if is_reality_mode s then mkSys (is_reality_mode s) (tasks s ∖ {[croutine_name n c]}) (sys_blockers s)
  else mkSys (is_reality_mode s) (tasks s) (Manager_Unsubscribe (r_type r) c (node_name_ n) (sys_blockers s)).2.

(** [NodeChannelImpl::CreateReader]. *)
Definition NodeChannelImpl_CreateReader (r : NodeReader) (n : Node) (s : Sys) : bool * Sys :=
  if bool_decide (channel (r_option r) = EmptyString) then (false, s) else NodeReader_Init r n s.

(** [Node::CreateReader]. *)
Definition CreateReader (r : NodeReader) (x : Node * Sys) : bool * (Node * Sys) :=
  let '(n, s) := x in
  let c := channel (r_option r) in
  match readers_ n !! c with
  | Some _ => (false, (n, s))
  | None =>
      let '(ok, s) := NodeChannelImpl_CreateReader r n s in
      (ok, (if ok then mkNode (node_name_ n) (<[c := r]> (readers_ n)) else n, s))
  end.

(** ** [Component]

    [c_visitor]: that of the task of the component. *)
Record Component := mkComponent {
  is_shutdown_ : bool; node_ : Node; c_readers : list NodeReader; c_visitor : option (visitor (T := T)) }.

(** The reader of position [i] has messages of type [ty i]. *)
Definition reader_at (ty : nat → nat) (i : nat) (o : ReaderOption) : NodeReader := mkNodeReader o (ty i) i.

(** All readers are created, also when one of them fails. *)
Fixpoint create_all (rs : list NodeReader) (x : Node * Sys) : bool * (Node * Sys) :=
  match rs with
  | [] => (true, x)
  | r :: rs => let '(ok, x) := CreateReader r x in let '(oks, x) := create_all rs x in (ok && oks, x)
  end.

Definition visitor_config (r : NodeReader) : VisitorConfig := mkConfig (RegisterChannel (channel (r_option r))) (pending_queue_size (r_option r)).

(** [init_ok]: what [Init] of the component returns.  The reader of the first
    channel is created last. *)
Definition Initialize (k : nat) (ty : nat → nat) (init_ok : bool) (config : ComponentConfig) (s : Sys) : bool * Component * Sys :=
  let n := mkNode (name config) ∅ in
  let none := mkComponent false n [] None in
  if bool_decide (length (config_readers config) < k)%nat then (false, none, s)
  else if negb init_ok then (false, none, s)
  else
    match imap (reader_at ty) (take k (config_readers config)) with
    | [] => (true, none, s)
    | r0 :: rs =>
        let '(ok, (n, s)) := create_all (rs ++ [r0]) (n, s) in
        if negb ok then (false, mkComponent false n [] None, s)
        else if negb (is_reality_mode s) then (true, mkComponent false n (r0 :: rs) None, s)
        else
          let dv := DataVisitor_new null (visitor_config <$> (r0 :: rs)) in
          if decide (name config ∈ tasks s) then (false, mkComponent false n (r0 :: rs) None, s)
          else (true, mkComponent false n (r0 :: rs) (Some dv), mkSys (is_reality_mode s) ({[name config]} ∪ tasks s) (sys_blockers s))
    end.

(** [Process]: what [Proc] is called with. *)
Definition Process (c : Component) (ms : list T) : list (list T) := if is_shutdown_ c then [] else [ms].

(** [ComponentBase::Shutdown]; [Clear] does nothing in a [Component]. *)
Definition Shutdown (c : Component) (s : Sys) : Component * Sys :=
  if is_shutdown_ c then (c, s)
  else
    let s := foldl (λ s r, NodeReader_Shutdown r (node_ c) s) s (c_readers c) in
    (mkComponent true (node_ c) (c_readers c) None, mkSys (is_reality_mode s) (tasks s ∖ {[node_name_ (node_ c)]}) (sys_blockers s)).

(** ** Messages

    In reality: a message comes into the buffer of its channel and the task of
    the component runs, once. *)
Definition message_arrives (pos : nat) (m : T) (c : Component) : Component :=
  mkComponent (is_shutdown_ c) (node_ c) (c_readers c) ((λ v, Fill_at null v pos m) <$> c_visitor c).

Definition task_runs (c : Component) : Component * list (list T) :=
  match c_visitor c with
  | None => (c, [])
  | Some v => let '(ms, v) := TryFetch null v in
              (mkComponent (is_shutdown_ c) (node_ c) (c_readers c) (Some v), match ms with Some ms => Process c ms | None => [] end)
  end.

(** In simulation: the callback of the reader of the first channel. *)
Definition on_message (c : Component) (m : gmap string (@typed_blocker T)) (msg0 : T) : list (list T) :=
  match mapM (λ r, GetBlocker (r_type r) (channel (r_option r)) m ≫= λ b, if IsPublishedEmpty b then None else GetLatestPublishedPtr b) (tail (c_readers c)) with
  | Some ms => Process c (msg0 :: ms)
  | None => []
  end.

(** A writer publishes on the channel of reader [pos]. *)
Definition publish (c : Component) (pos : nat) (msg : T) (s : Sys) : Sys * list (list T) :=
  match c_readers c !! pos with
  | None => (s, [])
  | Some r =>
      let '(_, m, called) := Manager_Publish (r_type r) (channel (r_option r)) msg (sys_blockers s) in
      (mkSys (is_reality_mode s) (tasks s) m, called ≫= λ i, if decide (i = 0%nat) then on_message c m msg else [])
  end.

(** ** Both modes run *)

Fixpoint reality_run (c : Component) (es : list (nat * T)) : list (list T) :=
  match es with
  | [] => []
  | (pos, m) :: es => let '(c, calls) := task_runs (message_arrives pos m c) in calls ++ reality_run c es
  end.

Fixpoint simulation_run (c : Component) (s : Sys) (es : list (nat * T)) : list (list T) :=
  match es with
  | [] => []
  | (pos, m) :: es => let '(s, calls) := publish c pos m s in calls ++ simulation_run c s es
  end.

(** ** A component in simulation *)

Definition channel_of (r : NodeReader) : string := channel (r_option r).

(** The blockers before any message: the callback number 0 is that of the reader
    of channel [c0] of the node. *)
Definition no_message (node c0 : string) (m : gmap string (@typed_blocker T)) : Prop :=
  ∀ c tb, m !! c = Some tb → published_msg_queue_ (blocker tb) = [] ∧ 1 ≤ capacity (attr_ (blocker tb)) ∧
    ∀ n, published_callbacks_ (blocker tb) !! n = Some 0%nat → n = node ∧ c = c0.

(** The reader listens to the blocker of its channel. *)
Definition subscribed (node : string) (r : NodeReader) (m : gmap string (@typed_blocker T)) : Prop :=
  ∃ b, m !! channel_of r = Some (mkTyped (r_type r) b) ∧ published_callbacks_ b !! node = Some (r_id r).

Lemma subscribe_ok node c0 ty c d i m m' : no_message node c0 m → 1 ≤ d → (i = 0%nat → c = c0) →
  Manager_Subscribe ty c d node i m = (true, m') →
  no_message node c0 m' ∧ (∃ b, m' !! c = Some (mkTyped ty b) ∧ published_callbacks_ b !! node = Some i) ∧ ∀ c', c' ≠ c → m' !! c' = m !! c'.
Proof using Type.
  intros Hm Hd Hi. unfold Manager_Subscribe, GetOrCreateBlocker. cbn [Blocker.channel_name].
  assert (Hsub : ∀ b m1, m1 !! c = Some (mkTyped ty b) → (∀ c', c' ≠ c → m1 !! c' = m !! c') →
    published_msg_queue_ b = [] → 1 ≤ capacity (attr_ b) → (∀ n, published_callbacks_ b !! n = Some 0%nat → n = node ∧ c = c0) →
    ∀ r b', Subscribe b node i = (r, b') → r = true → m' = put c b' m1 →
    no_message node c0 m' ∧ (∃ b, m' !! c = Some (mkTyped ty b) ∧ published_callbacks_ b !! node = Some i) ∧ ∀ c', c' ≠ c → m' !! c' = m !! c').
  { intros b m1 H1 Hne Hp Hc Hcb r b'. unfold Subscribe. destruct (published_callbacks_ b !! node) eqn:En; [by intros [= <- <-]|]. intros [= <- <-] _ ->.
    assert (Hne' : ∀ c', c' ≠ c → put c (set_callbacks b (<[node:=i]> (published_callbacks_ b))) m1 !! c' = m !! c').
    { intros c' Hc'. unfold put. by rewrite lookup_alter_ne, Hne. }
    assert (Heq : put c (set_callbacks b (<[node:=i]> (published_callbacks_ b))) m1 !! c = Some (mkTyped ty (set_callbacks b (<[node:=i]> (published_callbacks_ b))))).
    { unfold put. by rewrite lookup_alter_eq, H1. }
    split; [|split; [|done]].
    - intros c' tb Htb. destruct (decide (c' = c)) as [->|Hc']; [|rewrite Hne' in Htb by done; by apply Hm]. rewrite Heq in Htb. injection Htb as <-. simpl.
      split_and!; try done. intros n. rewrite lookup_insert_Some. intros [[<- ->]|[_ Hn]]; [split; [done|by apply Hi]|by apply Hcb].
    - eexists. split; [exact Heq|]. simpl. by rewrite lookup_insert_eq. }
  destruct (m !! c) as [tb|] eqn:Ec.
  - destruct (decide (type_ tb = ty)) as [Et|]; [|done]. destruct (Subscribe (blocker tb) node i) as [r b'] eqn:Es. intros [= -> <-].
    destruct (Hm c tb Ec) as (H1 & H2 & H3). apply (Hsub (blocker tb) m) with (r := true) (b' := b'); try done. destruct tb; simpl in *. by subst.
  - destruct (Subscribe _ node i) as [r b'] eqn:Es. intros [= -> <-]. refine (Hsub _ _ _ _ _ _ _ _ _ Es eq_refl eq_refl); simpl; try done.
    + by rewrite lookup_insert_eq.
    + intros c' Hc'. by rewrite lookup_insert_ne.
Qed.

Lemma create_simulated node c0 rs : ∀ n s n' s', node_name_ n = node → is_reality_mode s = false → no_message node c0 (sys_blockers s) →
  Forall (λ r, 1 ≤ depth (r_option r) ∧ (r_id r = 0%nat → channel_of r = c0)) rs → create_all rs (n, s) = (true, (n', s')) →
  node_name_ n' = node ∧ is_reality_mode s' = false ∧ no_message node c0 (sys_blockers s') ∧ NoDup (channel_of <$> rs) ∧ Forall (λ r, subscribed node r (sys_blockers s')) rs ∧
  (∀ r, r ∈ rs → readers_ n !! channel_of r = None) ∧ (∀ c, c ∉ channel_of <$> rs → sys_blockers s' !! c = sys_blockers s !! c).
Proof using Type.
  induction rs as [|r rs IH]; intros n s n' s' Hn Hs Hm Hall; simpl.
  { intros [= <- <-]. split_and!; try done; [by apply NoDup_nil|by intros r ?%elem_of_nil]. }
  apply Forall_cons in Hall as [[Hd H0] Hall]. fold (channel_of r). destruct (readers_ n !! channel_of r) eqn:Er; [by destruct (create_all rs (n, s))|].
  unfold NodeChannelImpl_CreateReader, NodeReader_Init. fold (channel_of r). rewrite Hs, Hn. case_bool_decide; [by destruct (create_all rs (n, s))|].
  destruct (Manager_Subscribe _ _ _ _ _ _) as [ok m] eqn:Esub. destruct ok; [|by destruct (create_all rs _)].
  destruct (subscribe_ok node c0 _ _ _ _ _ _ Hm Hd H0 Esub) as (Hm' & (b & Hb & Hcb) & Hne).
  set (n1 := mkNode node _). set (s1 := mkSys false _ _). destruct (create_all rs (n1, s1)) as [oks [n2 s2]] eqn:Ecr. simpl. intros [= -> -> ->].
  destruct (IH n1 s1 n' s') as (I1 & I2 & I3 & I4 & I5 & I6 & I7); try done.
  assert (Hnot : channel_of r ∉ channel_of <$> rs).
  { intros (r' & Ec & Hr')%list_elem_of_fmap. pose proof (I6 r' Hr') as Hx. simpl in Hx. rewrite <- Ec, lookup_insert_eq in Hx. done. }
  split_and!; try done.
  - apply NoDup_cons. done.
  - apply Forall_cons. split; [|done]. exists b. by rewrite I7.
  - intros r' [->|Hr']%elem_of_cons; [done|]. pose proof (I6 r' Hr') as Hx. simpl in Hx. by apply lookup_insert_None in Hx as [? _].
  - intros c [Hc Hc']%not_elem_of_cons. rewrite I7 by done. simpl. by apply Hne.
Qed.

(** The blockers of the component after the messages [hist]. *)
Definition blockers_hold (node : string) (rs : list NodeReader) (hist : list (nat * T)) (m : gmap string (@typed_blocker T)) : Prop :=
  ∀ i r, rs !! i = Some r → ∃ b, m !! channel_of r = Some (mkTyped (r_type r) b) ∧ 1 ≤ capacity (attr_ b) ∧
    published_msg_queue_ b = take (Z.to_nat (capacity (attr_ b))) (rev (channel_hist i hist)) ∧
    (i = 0%nat → published_callbacks_ b !! node = Some 0%nat) ∧ ∀ n, published_callbacks_ b !! n = Some 0%nat → n = node ∧ i = 0%nat.

(** The messages that the callback finds are those that are fused. *)
Lemma on_message_fused c node rs r0 hist m msg : c_readers c = r0 :: rs → is_shutdown_ c = false → blockers_hold node (r0 :: rs) hist m →
  on_message c m msg = option_list (fused (S (length rs)) hist (0%nat, msg)).
Proof using Type.
  intros Hc Hs Hb. unfold on_message, fused. rewrite Hc. cbn [tail].
  assert (H : ∀ n rs', (∀ i r, rs' !! i = Some r → (r0 :: rs) !! (n + i)%nat = Some r) →
    mapM (λ r, GetBlocker (r_type r) (channel (r_option r)) m ≫= λ b, if IsPublishedEmpty b then None else GetLatestPublishedPtr b) rs' =
    mapM (λ c, last (channel_hist c hist)) (seq n (length rs'))).
  { intros n rs'. revert n. induction rs' as [|r rs' IH]; intros n Hrs; [done|]. cbn [mapM length seq].
    destruct (Hb n r) as (b & E & Hcap & Hp & _); [rewrite <- (Nat.add_0_r n); by apply Hrs|].
    assert (Hg : (GetBlocker (r_type r) (channel (r_option r)) m ≫= λ b, if IsPublishedEmpty b then None else GetLatestPublishedPtr b) = last (channel_hist n hist)).
    { unfold GetBlocker. change (channel (r_option r)) with (channel_of r). rewrite E. cbn [type_]. rewrite decide_True by done. simpl.
      unfold IsPublishedEmpty, GetLatestPublishedPtr. rewrite <- (head_take_rev (channel_hist n hist) (Z.to_nat (capacity (attr_ b)))) by lia. rewrite <- Hp.
      by destruct (published_msg_queue_ b). }
    rewrite Hg. rewrite (IH (S n)); [done|]. intros i r' Hi. rewrite Nat.add_succ_comm. by apply (Hrs (S i)). }
  rewrite (H 1%nat rs) by done. rewrite Nat.sub_succ, Nat.sub_0_r. destruct (mapM _ (seq 1 (length rs))); [|done]. simpl. unfold Process. by rewrite Hs.
Qed.

Lemma publish_simulated c node rs r0 hist s pos msg : c_readers c = r0 :: rs → is_shutdown_ c = false → NoDup (channel_of <$> r0 :: rs) →
  (pos < S (length rs))%nat → blockers_hold node (r0 :: rs) hist (sys_blockers s) →
  let '(s', calls) := publish c pos msg s in
  blockers_hold node (r0 :: rs) (hist ++ [(pos, msg)]) (sys_blockers s') ∧ calls = option_list (fused (S (length rs)) hist (pos, msg)).
Proof using Type.
  intros Hc Hs Hnd Hpos Hb. unfold publish. rewrite Hc. destruct (lookup_lt_is_Some_2 (r0 :: rs) pos Hpos) as [r Hr]. rewrite Hr.
  destruct (Hb pos r Hr) as (b & E & Hcap & Hp & Hcb & Hu). unfold Manager_Publish, GetOrCreateBlocker. cbn [Blocker.channel_name BlockerAttr_default].
  change (channel (r_option r)) with (channel_of r). rewrite E. cbn [type_]. rewrite decide_True by done. cbn [blocker]. unfold Publish.
  assert (Hlen : (length (published_msg_queue_ b) ≤ Z.to_nat (capacity (attr_ b)))%nat) by (rewrite Hp, length_take; lia).
  destruct (Enqueue_published b msg ltac:(lia) Hlen) as (P1 & P2 & P3 & P4). cbn [sys_blockers].
  set (m' := put (channel_of r) (Enqueue b msg) (sys_blockers s)).
  assert (Hb' : blockers_hold node (r0 :: rs) (hist ++ [(pos, msg)]) m').
  { intros i r' Hi. rewrite channel_hist_snoc. cbn [fst snd]. destruct (decide (pos = i)) as [<-|Hne].
    - assert (r' = r) as -> by congruence. exists (Enqueue b msg). unfold m', put. rewrite lookup_alter_eq, E. rewrite P2, P4. split_and!; try done.
      + rewrite P1, Hp, rev_app_distr. simpl. destruct (Z.to_nat (capacity (attr_ b))) as [|cap]; [done|]. simpl. rewrite take_take. f_equal. f_equal. lia.
    - rewrite app_nil_r. destruct (Hb i r' Hi) as (b' & E' & Hrest). exists b'. split; [|done]. unfold m', put. rewrite lookup_alter_ne; [done|]. intros Ec.
      apply Hne. eapply NoDup_lookup; [exact Hnd| |]; rewrite list_lookup_fmap; [by rewrite Hr|by rewrite Hi, Ec]. }
  split; [done|]. unfold Notify. rewrite P4. rewrite (called_once node).
  - case_decide as Hin; rewrite elem_of_map_to_list in Hin.
    + destruct (Hu node Hin) as [_ ->]. rewrite (on_message_fused c node rs r0 _ _ _ Hc Hs Hb'). by rewrite fused_after.
    + destruct pos as [|pos]; [by destruct Hin; apply Hcb|done].
  - apply NoDup_fst_map_to_list.
  - intros n Hn%elem_of_map_to_list. by apply Hu in Hn as [-> _].
Qed.

Lemma simulation_calls c node rs r0 : c_readers c = r0 :: rs → is_shutdown_ c = false → NoDup (channel_of <$> r0 :: rs) → ∀ es hist s,
  Forall (λ e, (e.1 < S (length rs))%nat) es → blockers_hold node (r0 :: rs) hist (sys_blockers s) →
  simulation_run c s es = stream_from (S (length rs)) hist es.
Proof using Type.
  intros Hc Hs Hnd es. induction es as [|[pos m] es IH]; intros hist s Hall Hb; [done|]. apply Forall_cons in Hall as [Hpos Hall]. simpl in Hpos.
  pose proof (publish_simulated c node rs r0 hist s pos m Hc Hs Hnd Hpos Hb) as H. simpl. destruct (publish c pos m s) as [s' calls]. destruct H as [Hb' ->].
  f_equal. by apply IH.
Qed.

(** ** A component in reality *)

(** The task has read all there is. *)
Definition drained (configs : list VisitorConfig) (hist : list (nat * T)) (v : visitor (T := T)) : Prop :=
  vinv configs hist v ∧ next_msg_index_ v = if decide (stream (length configs) hist = []) then 0 else zlen (stream (length configs) hist) + 1.

Lemma arrival_fetched c0 cs hist v pos m : Forall config_ok (c0 :: cs) → drained (c0 :: cs) hist v → (pos < length (c0 :: cs))%nat → zlen hist + 2 < 2 ^ 64 →
  let '(ms, v') := TryFetch null (Fill_at null v pos m) in
  drained (c0 :: cs) (hist ++ [(pos, m)]) v' ∧ option_list ms = option_list (fused (length (c0 :: cs)) hist (pos, m)).
Proof using Type.
  intros Hok [Hv Hi] Hpos Hn. destruct (Fill_at_vinv null _ _ _ pos m Hok Hv Hpos ltac:(lia)) as [Hv' Hi']. set (v1 := Fill_at null v pos m) in *.
  pose proof (stream_length (length (c0 :: cs)) hist) as Hlen. pose proof (zlen_nonneg (stream (length (c0 :: cs)) hist)) as H0.
  assert (Hsn := stream_snoc (length (c0 :: cs)) hist (pos, m)). set (str := stream (length (c0 :: cs)) hist) in *.
  assert (Hq : 0 ≤ queue_size c0) by (inversion Hok as [|? ? [_ ?] _]; wordlia).
  assert (Hix : 0 ≤ next_msg_index_ v ≤ zlen str + 1) by (rewrite Hi; case_decide; lia).
  pose proof (TryFetch_vinv null _ _ v1 c0 cs eq_refl Hok Hv') as HT. cbv zeta in HT. rewrite Hi', Hsn in HT. rewrite zlen_snoc in HT.
  destruct (fused (length (c0 :: cs)) hist (pos, m)) as [ms|] eqn:Ef.
  - change (option_list (Some ms)) with [ms] in *. rewrite zlen_snoc in HT. assert (Hfp : fetch_position (queue_size c0) (zlen str + 1) (next_msg_index_ v) = Some (zlen str + 1)).
    { unfold fetch_position. destruct (Z.eqb_spec (zlen str + 1) 0); [lia|]. rewrite Hi. case_decide as Hd; [done|].
      destruct (Z.eqb_spec (zlen str + 1) 0); [lia|]. simpl. destruct (Z.ltb_spec (zlen str + 1) (zlen str + 1 - queue_size c0 + 1)); [done|].
      destruct (Z.eqb_spec (zlen str + 1) (zlen str + 1 + 1)); [lia|done]. }
    rewrite Hfp in HT. destruct HT as (_ & _ & ms' & Hg & HT); [lia|lia|]. rewrite HT. replace (zlen str + 1 - 1) with (zlen str) in Hg by lia.
    rewrite zget_snoc, decide_True in Hg by (done || lia). injection Hg as <-. split; [|done]. split; [by destruct Hv'|]. cbn [next_msg_index_]. rewrite Hsn, decide_False by (by destruct str). rewrite zlen_snoc. lia.
  - change (option_list (@None (list T))) with (@nil (list T)) in *. rewrite app_nil_r in HT, Hsn. assert (Hfp : fetch_position (queue_size c0) (zlen str) (next_msg_index_ v) = None).
    { unfold fetch_position. destruct (Z.eqb_spec (zlen str) 0); [done|]. rewrite Hi. case_decide as Hd; [by rewrite Hd in *|].
      destruct (Z.eqb_spec (zlen str + 1) 0); [lia|]. simpl. destruct (Z.ltb_spec (zlen str + 1) (zlen str - queue_size c0 + 1)); [lia|].
      destruct (Z.eqb_spec (zlen str + 1) (zlen str + 1)); [done|lia]. }
    rewrite Hfp in HT. rewrite HT by lia. split; [|done]. split; [done|]. by rewrite Hi', Hsn.
Qed.

Lemma reality_calls node rs c0 cs : Forall config_ok (c0 :: cs) → ∀ es hist v,
  Forall (λ e, (e.1 < length (c0 :: cs))%nat) es → zlen hist + zlen es + 2 < 2 ^ 64 → drained (c0 :: cs) hist v →
  reality_run (mkComponent false node rs (Some v)) es = stream_from (length (c0 :: cs)) hist es.
Proof using Type.
  intros Hok es. induction es as [|[pos m] es IH]; intros hist v Hall Hlen Hv; [done|]. apply Forall_cons in Hall as [Hpos Hall].
  assert (El : zlen ((pos, m) :: es) = zlen es + 1) by (unfold zlen; simpl; lia). pose proof (zlen_nonneg es). pose proof (arrival_fetched c0 cs hist v pos m Hok Hv Hpos ltac:(lia)) as H0.
  cbn [reality_run]. unfold task_runs, message_arrives. cbn [c_visitor is_shutdown_ node_ c_readers fmap option_fmap option_map].
  destruct (TryFetch null (Fill_at null v pos m)) as [ms v']. destruct H0 as [Hv' Hms]. cbn [stream_from]. rewrite <- Hms.
  rewrite (IH (hist ++ [(pos, m)]) v' Hall); [by destruct ms|rewrite zlen_snoc; lia|done].
Qed.

(** ** Both *)

Lemma reader_list_lookup ty (os : list ReaderOption) i : imap (reader_at ty) os !! i = reader_at ty i <$> os !! i.
Proof using Type. apply list_lookup_imap. Qed.

Lemma reader_list_channels ty (os : list ReaderOption) : channel_of <$> imap (reader_at ty) os = channel <$> os.
Proof using Type. apply list_eq. intros i. rewrite !list_lookup_fmap, reader_list_lookup. by destruct (os !! i). Qed.

(** The blockers that others have made, before any message. *)
Definition unused (m : gmap string (@typed_blocker T)) : Prop :=
  ∀ c tb, m !! c = Some tb → published_msg_queue_ (blocker tb) = [] ∧ 1 ≤ capacity (attr_ (blocker tb)) ∧ ∀ n, published_callbacks_ (blocker tb) !! n ≠ Some 0%nat.

Lemma create_all_mode rs : ∀ n s oks n' s', create_all rs (n, s) = (oks, (n', s')) → node_name_ n' = node_name_ n ∧ is_reality_mode s' = is_reality_mode s.
Proof using Type.
  induction rs as [|r rs IH]; intros n s oks n' s'; simpl; [by intros [= <- <- <-]|]. destruct (readers_ n !! _).
  { destruct (create_all rs (n, s)) as [o [n1 s1]] eqn:E. intros [= <- <- <-]. by eapply IH. }
  destruct (NodeChannelImpl_CreateReader r n s) as [ok s1] eqn:Ei.
  assert (Hs1 : is_reality_mode s1 = is_reality_mode s).
  { revert Ei. unfold NodeChannelImpl_CreateReader, NodeReader_Init. repeat case_match; by intros [= <- <-]. }
  destruct (create_all rs _) as [o [n2 s2]] eqn:E. intros [= <- <- <-]. destruct (IH _ _ _ _ _ E) as [-> ->]. split; [by destruct ok|done].
Qed.

Lemma Initialize_simulated k ty config s c s' o0 os : take k (config_readers config) = o0 :: os → is_reality_mode s = false → unused (sys_blockers s) →
  Forall (λ o, 1 ≤ depth o) (config_readers config) → Initialize k ty true config s = (true, c, s') →
  c_readers c = imap (reader_at ty) (o0 :: os) ∧ is_shutdown_ c = false ∧ NoDup (channel <$> o0 :: os) ∧
  blockers_hold (name config) (c_readers c) [] (sys_blockers s').
Proof using Type.
  intros Hk Hs Hun Hd. unfold Initialize. case_bool_decide; [done|]. cbn [negb]. rewrite Hk. cbn [imap].
  set (r0 := reader_at ty 0 o0). set (rs := imap _ os). destruct (create_all (rs ++ [r0]) _) as [ok [n1 s1]] eqn:E. destruct ok; [|done]. cbn [negb].
  destruct (create_all_mode _ _ _ _ _ _ E) as [_ Hm]. rewrite Hm, Hs. cbn [negb]. intros [= <- <-]. cbn [c_readers is_shutdown_].
  assert (Hd' : Forall (λ o, 1 ≤ depth o) (o0 :: os)) by (rewrite <- Hk; by apply Forall_take).
  assert (Hlk : ∀ i r, (r0 :: rs) !! i = Some r → ∃ o, (o0 :: os) !! i = Some o ∧ r = reader_at ty i o).
  { intros i r. change (r0 :: rs) with (imap (reader_at ty) (o0 :: os)). rewrite reader_list_lookup, fmap_Some. done. }
  destruct (create_simulated (name config) (channel o0) (rs ++ [r0]) (mkNode (name config) ∅) s n1 s1) as (I1 & I2 & I3 & I4 & I5 & _); try done.
  { intros c tb Hc. destruct (Hun c tb Hc) as (? & ? & Hn). split_and!; try done. intros n Hx. by destruct (Hn n). }
  { apply Forall_forall. intros r Hr. assert (Hr' : r ∈ r0 :: rs) by set_solver. apply list_elem_of_lookup in Hr' as [i Hi].
    destruct (Hlk i r Hi) as (o & Ho & ->). split; [by eapply Forall_lookup_1 in Hd'|]. simpl. intros ->. by injection Ho as ->. }
  split_and!; try done.
  - rewrite <- (reader_list_channels ty). rewrite fmap_app in I4. change (imap (reader_at ty) (o0 :: os)) with (r0 :: rs). rewrite fmap_cons. simpl in I4.
    rewrite (Permutation_app_comm _ [channel_of r0]) in I4. done.
  - intros i r Hi. rewrite Forall_forall in I5. assert (Hin : r ∈ rs ++ [r0]) by (apply list_elem_of_lookup_2 in Hi; set_solver).
    destruct (I5 r Hin) as (b & Hb & Hcb). exists b. destruct (I3 _ _ Hb) as (J1 & J2 & J3). simpl in J1, J2, J3. destruct (Hlk i r Hi) as (o & Ho & ->). split_and!; try done.
    + rewrite J1. symmetry. apply take_nil.
    + intros ->. done.
    + intros n Hn. destruct (J3 n Hn) as [-> Hc]. split; [done|]. rewrite Hn in Hcb. injection Hcb as Ei. done.
Qed.

Lemma Initialize_real k ty config s c s' o0 os : take k (config_readers config) = o0 :: os → is_reality_mode s = true →
  Initialize k ty true config s = (true, c, s') →
  c = mkComponent false (node_ c) (imap (reader_at ty) (o0 :: os)) (Some (DataVisitor_new null (visitor_config <$> imap (reader_at ty) (o0 :: os)))).
Proof using Type.
  intros Hk Hs. unfold Initialize. case_bool_decide; [done|]. cbn [negb]. rewrite Hk. cbn [imap].
  set (r0 := reader_at ty 0 o0). set (rs := imap _ os). destruct (create_all (rs ++ [r0]) _) as [ok [n1 s1]] eqn:E. destruct ok; [|done]. cbn [negb].
  destruct (create_all_mode _ _ _ _ _ _ E) as [_ Hm]. rewrite Hm, Hs. cbn [negb]. case_decide; [done|]. by intros [= <- <-].
Qed.


(** ** What [Initialize] needs *)

Lemma append_longer (s : string) x t : s ≠ s +:+ String x t.
Proof using Type. induction s as [|y s IH]; simpl; [done|]. intros [= H]. by apply IH. Qed.

Lemma append_cancel (s t u : string) : s +:+ t = s +:+ u → t = u.
Proof using Type. induction s as [|y s IH]; simpl; [done|]. intros [= H]. by apply IH. Qed.

Lemma croutine_name_inj n c c' : croutine_name n c = croutine_name n c' ↔ c = c'.
Proof using Type. split; [|by intros ->]. unfold croutine_name. intros H%append_cancel. by injection H. Qed.

Definition can_read (n : Node) (s : Sys) (r : NodeReader) : Prop :=
  channel_of r ≠ EmptyString ∧ readers_ n !! channel_of r = None ∧ croutine_name n (channel_of r) ∉ tasks s.

Lemma create_real rs : ∀ n s, is_reality_mode s = true →
  let '(ok, (_, s')) := create_all rs (n, s) in
  (ok = true ↔ Forall (can_read n s) rs ∧ NoDup (channel_of <$> rs)) ∧
  (ok = true → s' = mkSys true (list_to_set (croutine_name n <$> (channel_of <$> rs)) ∪ tasks s) (sys_blockers s)).
Proof using Type.
  induction rs as [|r rs IH]; intros n s Hs; simpl.
  { split; [split; [intros _; split; [done|apply NoDup_nil_2]|done]|]. intros _. rewrite (left_id_L ∅ (∪)). destruct s; simpl in *. by subst. }
  fold (channel_of r).
  assert (Hbad : ∀ x : Node * Sys, ¬ can_read n s r → let '(ok, (_, s')) := (let '(oks, x) := create_all rs x in (false && oks, x)) in
     (ok = true ↔ Forall (can_read n s) (r :: rs) ∧ NoDup (channel_of <$> r :: rs)) ∧
     (ok = true → s' = mkSys true (list_to_set (croutine_name n <$> (channel_of <$> r :: rs)) ∪ tasks s) (sys_blockers s))).
  { intros x Hn. destruct (create_all rs x) as [? [? ?]]. simpl. rewrite Forall_cons. naive_solver. }
  destruct (readers_ n !! channel_of r) eqn:Er; [apply Hbad; unfold can_read; naive_solver|].
  unfold NodeChannelImpl_CreateReader, NodeReader_Init. fold (channel_of r). case_bool_decide as He; [apply Hbad; unfold can_read; naive_solver|].
  rewrite Hs. case_decide as Ht; [apply Hbad; unfold can_read; naive_solver|]. clear Hbad.
  set (n1 := mkNode _ _). set (s1 := mkSys _ _ _). specialize (IH n1 s1 eq_refl). destruct (create_all rs (n1, s1)) as [oks [n2 s2]].
  destruct IH as [I1 I2]. cbn [andb]. change (list_fmap NodeReader string channel_of rs) with (channel_of <$> rs). rewrite I1, Forall_cons, NoDup_cons. split.
  - assert (Hcan : ∀ r', can_read n1 s1 r' ↔ can_read n s r' ∧ channel_of r' ≠ channel_of r).
    { intros r'. unfold can_read. simpl. change (croutine_name n1) with (croutine_name n). rewrite lookup_insert_None, not_elem_of_union, not_elem_of_singleton, croutine_name_inj. naive_solver. }
    rewrite !Forall_forall, list_elem_of_fmap. split.
    + intros [H Hnd]. split; [split; [done|]; intros x Hx; by apply (Hcan x), H|]. split; [|done]. intros (x & Ec & Hx). by destruct (proj1 (Hcan x) (H x Hx)) as [_ Hne].
    + intros [[_ H] [Hno Hnd]]. split; [|done]. intros x Hx. apply Hcan. split; [by apply H|]. intros Ec. apply Hno. by exists x.
  - intros Hok. rewrite (I2 (proj2 I1 Hok)). cbn [is_reality_mode tasks sys_blockers s1]. f_equal. rewrite (assoc_L (∪)). f_equal. by rewrite (comm_L (∪)).
Qed.

Lemma shutdown_real n rs : ∀ s, is_reality_mode s = true →
  foldl (λ s r, NodeReader_Shutdown r n s) s rs = mkSys true (tasks s ∖ list_to_set (croutine_name n <$> (channel_of <$> rs))) (sys_blockers s).
Proof using Type.
  induction rs as [|r rs IH]; intros s Hs; simpl.
  - rewrite difference_empty_L. destruct s; simpl in *. by subst.
  - assert (E : NodeReader_Shutdown r n s = mkSys true (tasks s ∖ {[croutine_name n (channel_of r)]}) (sys_blockers s)).
    { unfold NodeReader_Shutdown, channel_of. by rewrite Hs. }
    rewrite E, IH by done. simpl. f_equal. by rewrite difference_difference_l_L.
Qed.

(** C27: In reality a component of [k] channels initialises exactly when its
    [Init] does, its configuration has [k] readers on distinct channels with
    names, and the scheduler has no task of the name of the component or of its
    readers; and when it is shut down the scheduler is as before. *)
Theorem component_initialises_when k ty init_ok config s : is_reality_mode s = true → (1 ≤ k)%nat →
  let cs := channel <$> take k (config_readers config) in
  let n := mkNode (name config) ∅ in
  let '(ok, c, s') := Initialize k ty init_ok config s in
  (ok = true ↔ init_ok = true ∧ (k ≤ length (config_readers config))%nat ∧ Forall (λ c, c ≠ EmptyString ∧ croutine_name n c ∉ tasks s) cs ∧ NoDup cs ∧
     name config ∉ tasks s) ∧
  (ok = true → (Shutdown c s').2 = s).
Proof using Type.
  intros Hs Hk. unfold Initialize. case_bool_decide as Hl; [split; [|done]; split; [done|lia]|]. destruct init_ok; [|split; [naive_solver|done]]. cbn [negb].
  assert (Hlk : (k ≤ length (config_readers config))%nat) by lia.
  destruct (take k (config_readers config)) as [|o0 os] eqn:Ek; [apply (f_equal length) in Ek; rewrite length_take in Ek; simpl in Ek; lia|].
  cbn [imap]. set (r0 := reader_at ty 0 o0). set (rs := imap _ os). set (n := mkNode (name config) ∅).
  assert (Ech : channel_of <$> r0 :: rs = channel <$> o0 :: os) by exact (reader_list_channels ty (o0 :: os)).
  pose proof (create_real (rs ++ [r0]) n s Hs) as H. destruct (create_all (rs ++ [r0]) (n, s)) as [ok [n1 s1]] eqn:Ecr.
  destruct (create_all_mode _ _ _ _ _ _ Ecr) as [En _]. destruct H as [H1 H2].
  assert (Hperm : rs ++ [r0] ≡ₚ r0 :: rs) by (by rewrite (Permutation_app_comm rs)).
  rewrite Hperm in H1, H2. rewrite Ech in H1, H2.
  assert (Hcan : Forall (can_read n s) (r0 :: rs) ↔ Forall (λ c, c ≠ EmptyString ∧ croutine_name n c ∉ tasks s) (channel <$> o0 :: os)).
  { rewrite <- Ech, Forall_fmap. apply Forall_iff. intros r. unfold can_read. simpl. rewrite lookup_empty. naive_solver. }
  rewrite Hcan in H1. destruct ok; cbn [negb].
  2:{ split; [|done]. split; [done|]. intros (_ & _ & Hc & Hnd & _). by apply H1. }
  destruct (proj1 H1 eq_refl) as [Hc Hnd]. rewrite (H2 eq_refl). cbn [is_reality_mode tasks sys_blockers negb].
  assert (Hown : name config ∉ (list_to_set (croutine_name n <$> (channel <$> o0 :: os)) : gset string)).
  { rewrite elem_of_list_to_set. intros (x & Ex & _)%list_elem_of_fmap. by apply append_longer in Ex. }
  case_decide as Ht.
  { split; [|done]. split; [done|]. intros (_ & _ & _ & _ & Hn). apply elem_of_union in Ht as [?|?]; done. }
  split; [split; [intros _; split_and!; try done; by intros ?; apply Ht, elem_of_union; right|done]|]. intros _.
  unfold Shutdown. cbn [is_shutdown_ node_ c_readers snd]. rewrite shutdown_real by done. cbn [tasks sys_blockers is_reality_mode]. rewrite En, Ech.
  change (croutine_name n1) with (λ c, node_name_ n1 +:+ "_" +:+ c). rewrite En. destruct s as [mode ts bs]. cbn [is_reality_mode tasks sys_blockers node_name_ n] in *. subst mode. f_equal.
  apply set_eq. intros x. rewrite !elem_of_difference, !elem_of_union, elem_of_singleton. split.
  - intros [[[->|[?|?]] ?] ?]; done.
  - intros Hx. split; [split; [by right; right|]|].
    + rewrite elem_of_list_to_set. intros (y & -> & Hy)%list_elem_of_fmap. rewrite Forall_forall in Hc. by destruct (Hc y Hy).
    + intros ->. apply Ht, elem_of_union. by right.
Qed.
End Component.

(** A component of two channels, in both modes. *)
Definition two_channels : ComponentConfig := mkComponentConfig "fusion" [mkOption "a" 1 1; mkOption "b" 1 1].
Definition in_mode (reality : bool) : @Sys Z := mkSys reality ∅ ∅.
Definition some_id (c : string) : Z := u64 (Z.of_nat (String.length c)).
Definition some_messages : list (nat * Z) := [(0%nat, 1); (1%nat, 2); (0%nat, 3); (0%nat, 4); (1%nat, 5); (0%nat, 6)].

Lemma both_initialise : ∃ cR sR cS sS,
  Initialize 0 some_id 2 (λ i, i) true two_channels (in_mode true) = (true, cR, sR) ∧
  Initialize 0 some_id 2 (λ i, i) true two_channels (in_mode false) = (true, cS, sS).
Proof. do 4 eexists. split; vm_compute; reflexivity. Qed.


Lemma component_initialises_when_witness : ∃ (c : @Component Z) s, Initialize 0 some_id 2 (λ i, i) true two_channels (in_mode true) = (true, c, s) ∧ (Shutdown c s).2 = in_mode true.
Proof.
  destruct both_initialise as (cR & sR & _ & _ & HR & _). exists cR, sR. split; [done|].
  pose proof (component_initialises_when 0 some_id 2 (λ i, i) true two_channels (in_mode true) eq_refl ltac:(lia)) as H. cbv zeta in H. rewrite HR in H.
  by apply H.
Defined.

(** ** [TimerComponent] *)

Record TimerComponentConfig := mkTimerConfig { timer_name : option string; interval : option Z }.
Record TimerComponent := mkTimerComponent { t_is_shutdown_ : bool; interval_ : Z; timer_ : option Timer }.

(** The task that the timer gives to the wheel, if any, is the last result. *)
Definition TimerComponent_Initialize (reality init_ok : bool) (config : TimerComponentConfig) : bool * TimerComponent * option TimerTask :=
  match timer_name config, interval config with
  | Some _, Some i =>
      if negb init_ok then (false, mkTimerComponent false 0 None, None)
      else let '(t, task) := Start reality (Timer_new (Timer.mkOption i false)) in (true, mkTimerComponent false 0 (Some t), task)
  | _, _ => (false, mkTimerComponent false 0 None, None)
  end.

Definition GetInterval (c : TimerComponent) : Z := interval_ c.
Definition TimerComponent_Clear (c : TimerComponent) : TimerComponent := mkTimerComponent (t_is_shutdown_ c) (interval_ c) None.
Definition TimerComponent_Shutdown (c : TimerComponent) : TimerComponent :=
  if t_is_shutdown_ c then c else TimerComponent_Clear (mkTimerComponent true (interval_ c) (timer_ c)).

(** How often [Proc] runs: in [Process], and in the callback of the timer. *)
Definition TimerComponent_Process (c : TimerComponent) : nat := if t_is_shutdown_ c then 0%nat else 1%nat.
Definition timer_func (c : TimerComponent) : nat := 1%nat.

(** A callback that was taken before the component was shut down runs [Proc]
    after it: it does not go through [Process]. *)
Lemma proc_after_shutdown c : TimerComponent_Process (TimerComponent_Shutdown c) = 0%nat ∧ timer_func (TimerComponent_Shutdown c) = 1%nat.
Proof. split; [|done]. unfold TimerComponent_Shutdown, TimerComponent_Process. by destruct (t_is_shutdown_ c) eqn:E; rewrite ?E. Qed.

(** The interval that a component tells is 0, whatever is configured. *)
Lemma interval_is_not_kept reality init_ok config : GetInterval (TimerComponent_Initialize reality init_ok config).1.2 = 0.
Proof. unfold TimerComponent_Initialize. repeat case_match; done. Qed.

(** A component with an interval that no timer takes initialises, and never runs. *)
Lemma bad_interval_goes_unnoticed reality i n : i = 0 ∨ TIMER_MAX_INTERVAL_MS ≤ i →
  let '(ok, _, task) := TimerComponent_Initialize reality true (mkTimerConfig (Some n) (Some i)) in ok = true ∧ task = None.
Proof.
  intros Hi. unfold TimerComponent_Initialize, Start. cbn [timer_name interval negb timer_opt_ Timer_new started_]. destruct reality; cbn [negb]; [|done].
  assert (E : InitTimerTask (Timer.mkOption i false) = None).
  { unfold InitTimerTask. cbn [period]. destruct (Z.eqb_spec i 0); [done|]. destruct Hi as [?|Hi]; [done|]. case_match eqn:E; [done|]. lia. }
  by rewrite E.
Qed.
