(* ===== verification/ClassLoader.v ===== *)
(** * Class loaders

    [ClassLoader] and the registry of class factories
    ([src/code/cyber/class_loader/class_loader.h], [class_loader.cc],
    [utility/class_factory.h], [utility/class_loader_utility.h], their .cc,
    [shared_library/shared_library.cc]): libraries are opened and closed by
    several loaders, whose factories make objects of their classes.  What a
    library registers when it is opened is a parameter.  A loader is named by a
    number, for its address. *)

From stdpp Require Import base list strings gmap fin_maps.
From S2P Require Import Prelude.

(** ** Factories *)

Record AbstractClassFactoryBase := mkFactory {
  relative_class_loaders_ : list nat; relative_library_path_ : string; base_class_name_ : string; class_name_ : string }.

Definition with_owners (ls : list nat) (f : AbstractClassFactoryBase) : AbstractClassFactoryBase :=
  mkFactory ls (relative_library_path_ f) (base_class_name_ f) (class_name_ f).

Definition AddOwnedClassLoader (loader : nat) (f : AbstractClassFactoryBase) : AbstractClassFactoryBase :=
  if decide (loader ∈ relative_class_loaders_ f) then f else with_owners (relative_class_loaders_ f ++ [loader]) f.

(** [erase] of the first place that [find] gives. *)
Fixpoint erase_first (x : nat) (l : list nat) : list nat :=
  match l with [] => [] | y :: l => if decide (y = x) then l else y :: erase_first x l end.

Definition RemoveOwnedClassLoader (loader : nat) (f : AbstractClassFactoryBase) : AbstractClassFactoryBase :=
  with_owners (erase_first loader (relative_class_loaders_ f)) f.

Definition IsOwnedBy (loader : nat) (f : AbstractClassFactoryBase) : bool := bool_decide (loader ∈ relative_class_loaders_ f).
Definition IsOwnedByAnybody (f : AbstractClassFactoryBase) : bool := negb (bool_decide (relative_class_loaders_ f = [])).

(** ** The state of the process

    [factories]: the map of maps, by base class and class.  [opened_libraries]:
    in the order of their opening.  [objects]: the objects that are alive, the
    loader that made each, and the library with its code. *)

Record ClassLoader := mkLoader { library_path_ : string; loadlib_ref_count_ : Z; classobj_ref_count_ : Z }.

Record st := mkSt {
  factories : gmap (string * string) AbstractClassFactoryBase;
  opened_libraries : list string;
  loaders : gmap nat ClassLoader;
  objects : gmap nat (nat * string) }.

Definition with_factories (fs : gmap (string * string) AbstractClassFactoryBase) (s : st) : st := mkSt fs (opened_libraries s) (loaders s) (objects s).
Definition with_libraries (ls : list string) (s : st) : st := mkSt (factories s) ls (loaders s) (objects s).
Definition with_loaders (ls : gmap nat ClassLoader) (s : st) : st := mkSt (factories s) (opened_libraries s) ls (objects s).
Definition with_objects (os : gmap nat (nat * string)) (s : st) : st := mkSt (factories s) (opened_libraries s) (loaders s) os.

Fixpoint erase_path (x : string) (l : list string) : list string :=
  match l with [] => [] | y :: l => if decide (y = x) then l else y :: erase_path x l end.

Lemma erase_first_elem x y l : NoDup l → y ∈ erase_first x l ↔ y ∈ l ∧ y ≠ x.
Proof.
  induction 1 as [|z l Hz Hnd IH]; simpl; [set_solver|]. case_decide as Hd; [subst; set_solver|]. rewrite !elem_of_cons, IH. naive_solver.
Qed.

Lemma erase_first_NoDup x l : NoDup l → NoDup (erase_first x l).
Proof.
  induction 1 as [|z l Hz Hnd IH]; simpl; [apply NoDup_nil_2|]. case_decide; [done|]. apply NoDup_cons. split; [|done]. rewrite erase_first_elem by done. naive_solver.
Qed.

Lemma erase_path_elem x y l : NoDup l → y ∈ erase_path x l ↔ y ∈ l ∧ y ≠ x.
Proof.
  induction 1 as [|z l Hz Hnd IH]; simpl; [set_solver|]. case_decide as Hd; [subst; set_solver|]. rewrite !elem_of_cons, IH. naive_solver.
Qed.

Lemma erase_path_NoDup x l : NoDup l → NoDup (erase_path x l).
Proof.
  induction 1 as [|z l Hz Hnd IH]; simpl; [apply NoDup_nil_2|]. case_decide; [done|]. apply NoDup_cons. split; [|done]. rewrite erase_path_elem by done. naive_solver.
Qed.

Section ClassLoader.
(** What a library registers, base class and class; none when it cannot be
    opened. *)
Context (exports : string → option (list (string * string))).

(** ** The registry ([namespace utility]) *)

Definition RegisterClass (path : string) (loader : nat) (k : string * string) (s : st) : st :=
  with_factories (<[k := mkFactory [loader] path k.1 k.2]> (factories s)) s.

Definition GetAllClassFactoryObjectsOfLibrary (path : string) (s : st) : gmap (string * string) AbstractClassFactoryBase :=
  filter (λ x, relative_library_path_ x.2 = path) (factories s).

Definition destroy_factory (path : string) (loader : nat) (f : AbstractClassFactoryBase) : option AbstractClassFactoryBase :=
  if bool_decide (relative_library_path_ f = path) && IsOwnedBy loader f then
    let f := RemoveOwnedClassLoader loader f in if IsOwnedByAnybody f then Some f else None
  else Some f.

Definition DestroyClassFactoryObjectsOfLibrary (path : string) (loader : nat) (s : st) : st :=
  with_factories (omap (destroy_factory path loader) (factories s)) s.

Definition IsLibraryLoadedByAnybody (path : string) (s : st) : bool := bool_decide (path ∈ opened_libraries s).

Definition util_IsLibraryLoaded (path : string) (loader : nat) (s : st) : bool :=
  let by_anyone := IsLibraryLoadedByAnybody path s in
  let objs := GetAllClassFactoryObjectsOfLibrary path s in
  if by_anyone && bool_decide (size objs = 0)%nat then true
  else by_anyone && bool_decide (size (filter (λ x, IsOwnedBy loader x.2 = true) objs) ≤ size objs)%nat.

Definition attach (path : string) (loader : nat) (f : AbstractClassFactoryBase) : AbstractClassFactoryBase :=
  if decide (relative_library_path_ f = path) then AddOwnedClassLoader loader f else f.

Definition util_LoadLibrary (path : string) (loader : nat) (s : st) : bool * st :=
  if IsLibraryLoadedByAnybody path s then (true, with_factories (attach path loader <$> factories s) s)
  else
    match exports path with
    | None => (false, s)
    | Some ks => let s := foldl (λ s k, RegisterClass path loader k s) s ks in (true, with_libraries (opened_libraries s ++ [path]) s)
    end.

Definition util_UnloadLibrary (path : string) (loader : nat) (s : st) : st :=
  if bool_decide (path ∈ opened_libraries s) then
    let s := DestroyClassFactoryObjectsOfLibrary path loader s in
    if bool_decide (size (GetAllClassFactoryObjectsOfLibrary path s) = 0)%nat then with_libraries (erase_path path (opened_libraries s)) s else s
  else s.

(** The factory that makes the object. *)
Definition util_CreateClassObj (k : string * string) (loader : nat) (s : st) : option AbstractClassFactoryBase :=
  match factories s !! k with Some f => if IsOwnedBy loader f then Some f else None | None => None end.

(** ** [ClassLoader]

    None is a use of a loader that is not there. *)

Definition LoadLibrary (l : nat) (s : st) : option (bool * st) :=
  match loaders s !! l with
  | None => None
  | Some c => Some (util_LoadLibrary (library_path_ c) l (with_loaders (<[l := mkLoader (library_path_ c) (loadlib_ref_count_ c + 1) (classobj_ref_count_ c)]> (loaders s)) s))
  end.

Definition ClassLoader_new (l : nat) (path : string) (s : st) : option (bool * st) :=
  LoadLibrary l (with_loaders (<[l := mkLoader path 0 0]> (loaders s)) s).

Definition UnloadLibrary (l : nat) (s : st) : option (Z * st) :=
  match loaders s !! l with
  | None => None
  | Some c =>
      if 0 <? classobj_ref_count_ c then Some (loadlib_ref_count_ c, s)
      else
        let n := loadlib_ref_count_ c - 1 in
        let n' := if n <? 0 then 0 else n in
        let s := with_loaders (<[l := mkLoader (library_path_ c) n' (classobj_ref_count_ c)]> (loaders s)) s in
        Some (n', if n =? 0 then util_UnloadLibrary (library_path_ c) l s else s)
  end.

Definition ClassLoader_delete (l : nat) (s : st) : option st :=
  match UnloadLibrary l s with None => None | Some (_, s) => Some (with_loaders (delete l (loaders s)) s) end.

(** [CreateClassObj] with the number of the object; the result is whether there
    is one. *)
Definition CreateClassObj (l : nat) (k : string * string) (o : nat) (s : st) : option (bool * st) :=
  match loaders s !! l with
  | None => None
  | Some c =>
      let s := if util_IsLibraryLoaded (library_path_ c) l s then Some s else snd <$> LoadLibrary l s in
      match s with
      | None => None
      | Some s =>
          match util_CreateClassObj k l s, loaders s !! l with
          | Some f, Some c => Some (true, with_objects (<[o := (l, relative_library_path_ f)]> (objects s))
                                (with_loaders (<[l := mkLoader (library_path_ c) (loadlib_ref_count_ c) (classobj_ref_count_ c + 1)]> (loaders s)) s))
          | _, _ => Some (false, s)
          end
      end
  end.

Definition OnClassObjDeleter (o : nat) (s : st) : option st :=
  match objects s !! o with
  | None => None
  | Some (l, _) =>
      match loaders s !! l with
      | None => None
      | Some c => Some (with_objects (delete o (objects s)) (with_loaders (<[l := mkLoader (library_path_ c) (loadlib_ref_count_ c) (classobj_ref_count_ c - 1)]> (loaders s)) s))
      end
  end.

Definition GetValidClassNames (base : string) (l : nat) (s : st) : gset string :=
  set_map snd (dom (filter (λ x, x.1.1 = base ∧ IsOwnedBy l x.2 = true) (factories s))).
Definition IsClassValid (base name : string) (l : nat) (s : st) : bool := bool_decide (name ∈ GetValidClassNames base l s).

(** ** Sequences of operations *)

Inductive op :=
  | New (l : nat) (path : string)
  | Load (l : nat)
  | Unload (l : nat)
  | Delete (l : nat)
  | Create (l : nat) (k : string * string) (o : nat)
  | Drop (o : nat).

(** Loaders and objects are new; a loader is deleted when no object of it is
    alive and it has loaded its library at most once. *)
Definition exec (s : st) (x : op) : option st :=
  match x with
  | New l path => if decide (is_Some (loaders s !! l)) then None else snd <$> ClassLoader_new l path s
  | Load l => snd <$> LoadLibrary l s
  | Unload l => snd <$> UnloadLibrary l s
  | Delete l => match loaders s !! l with
                | Some c => if decide (loadlib_ref_count_ c ≤ 1 ∧ classobj_ref_count_ c = 0) then ClassLoader_delete l s else None
                | None => None
                end
  | Create l k o => if decide (is_Some (objects s !! o)) then None else snd <$> CreateClassObj l k o s
  | Drop o => OnClassObjDeleter o s
  end.

Definition init : st := mkSt ∅ [] ∅ ∅.

(** ** What holds after every sequence of operations *)

(** A loader that has loaded its library and not unloaded it as often. *)
Definition held (s : st) (l : nat) (p : string) : Prop := ∃ c, loaders s !! l = Some c ∧ library_path_ c = p ∧ 0 < loadlib_ref_count_ c.
Definition object_count (l : nat) (os : gmap nat (nat * string)) : Z := Z.of_nat (size (filter (λ x, x.2.1 = l) os)).

Record inv (s : st) : Prop := {
  iv_open : NoDup (opened_libraries s);
  iv_factory k f : factories s !! k = Some f →
    relative_library_path_ f ∈ opened_libraries s ∧ (∃ ks, exports (relative_library_path_ f) = Some ks ∧ k ∈ ks) ∧
    NoDup (relative_class_loaders_ f) ∧ ∀ l, l ∈ relative_class_loaders_ f ↔ held s l (relative_library_path_ f);
  iv_registered p ks k : p ∈ opened_libraries s → exports p = Some ks → k ∈ ks → ∃ f, factories s !! k = Some f ∧ relative_library_path_ f = p;
  iv_loader l c : loaders s !! l = Some c → 0 ≤ loadlib_ref_count_ c ∧ classobj_ref_count_ c = object_count l (objects s);
  iv_object o l p : objects s !! o = Some (l, p) → held s l p ∧ ∃ ks k, exports p = Some ks ∧ k ∈ ks;
  iv_held p : p ∈ opened_libraries s → ∃ l, held s l p;
  iv_closed p l ks k : exports p = Some ks → k ∈ ks → held s l p → p ∈ opened_libraries s;
}.

Lemma object_count_insert l l' o p os : os !! o = None → object_count l (<[o := (l', p)]> os) = object_count l os + if decide (l' = l) then 1 else 0.
Proof using Type.
  intros Ho. unfold object_count. case_decide as Hd.
  - rewrite map_filter_insert_True by done. rewrite map_size_insert_None; [lia|]. apply map_lookup_filter_None. by left.
  - rewrite map_filter_insert_False by done. rewrite delete_id by done. lia.
Qed.

Lemma object_count_delete l l' o p os : os !! o = Some (l', p) → object_count l (delete o os) = object_count l os - if decide (l' = l) then 1 else 0.
Proof using Type.
  intros Ho. rewrite <- (insert_delete_id os o (l', p) Ho) at 2. rewrite object_count_insert by apply lookup_delete_eq. case_decide; lia.
Qed.

Lemma object_count_zero l os o p : object_count l os = 0 → os !! o ≠ Some (l, p).
Proof using Type.
  intros H0 Ho. unfold object_count in H0. assert (Hs : size (filter (λ x : nat * (nat * string), x.2.1 = l) os) = 0%nat) by lia.
  apply map_size_empty_inv in Hs. assert (Hx : filter (λ x : nat * (nat * string), x.2.1 = l) os !! o = Some (l, p)) by (by apply map_lookup_filter_Some).
  by rewrite Hs, lookup_empty in Hx.
Qed.

Lemma registered_lookup p l ks : ∀ s k, factories (foldl (λ s k, RegisterClass p l k s) s ks) !! k = if decide (k ∈ ks) then Some (mkFactory [l] p k.1 k.2) else factories s !! k.
Proof using Type.
  clear exports. induction ks as [|k' ks IH] using rev_ind; intros s k; [by rewrite decide_False by set_solver|]. rewrite foldl_app. cbn [foldl RegisterClass factories with_factories].
  destruct (decide (k = k')) as [->|Hk]; [rewrite lookup_insert_eq, decide_True by set_solver; done|]. rewrite lookup_insert_ne, IH by done. apply decide_ext. set_solver.
Qed.

Lemma registered_same p l ks : ∀ s, let s' := foldl (λ s k, RegisterClass p l k s) s ks in
  opened_libraries s' = opened_libraries s ∧ loaders s' = loaders s ∧ objects s' = objects s.
Proof using Type. induction ks as [|k ks IH]; intros s; [done|]. simpl. by destruct (IH (RegisterClass p l k s)) as (-> & -> & ->). Qed.

(** The classes of two libraries are distinct. *)
Context (distinct : ∀ p p' ks ks' k, exports p = Some ks → exports p' = Some ks' → k ∈ ks → k ∈ ks' → p = p').

Lemma held_same s s' l p : loaders s' = loaders s → held s' l p ↔ held s l p.
Proof using Type. unfold held. by intros ->. Qed.

Lemma held_update s l c c' l' p : loaders s !! l = Some c → library_path_ c' = library_path_ c →
  held (with_loaders (<[l := c']> (loaders s)) s) l' p ↔ if decide (l' = l) then library_path_ c = p ∧ 0 < loadlib_ref_count_ c' else held s l' p.
Proof using Type.
  intros Hc Hp. unfold held. simpl. case_decide as Hd; [subst l'; rewrite lookup_insert_eq; naive_solver|]. by rewrite lookup_insert_ne.
Qed.

Lemma inv_LoadLibrary s l c : inv s → loaders s !! l = Some c → ∃ b s', LoadLibrary l s = Some (b, s') ∧ inv s' ∧ objects s' = objects s ∧ is_Some (loaders s' !! l).
Proof using distinct.
  intros [I1 I2 I3 I4 I5 I6 I7] Hc. unfold LoadLibrary. rewrite Hc. set (c' := mkLoader _ _ _). set (p := library_path_ c).
  set (s1 := with_loaders _ s). assert (Hc0 : 0 < loadlib_ref_count_ c') by (destruct (I4 l c Hc) as [? _]; simpl; lia).
  assert (Hh : ∀ l' q, held s1 l' q ↔ held s l' q ∨ (l' = l ∧ q = p)).
  { intros l' q. unfold s1. rewrite (held_update s l c c') by done. case_decide as Hd; [|naive_solver]. subst l'. split; [naive_solver|].
    intros [(c0 & E & Ep & _)|[_ ->]]; [|done]. assert (c0 = c) as -> by congruence. done. }
  assert (Hl : ∀ l' c0, loaders s1 !! l' = Some c0 → 0 ≤ loadlib_ref_count_ c0 ∧ classobj_ref_count_ c0 = object_count l' (objects s)).
  { intros l' c0. simpl. rewrite lookup_insert_Some. intros [[<- <-]|[_ H]]; [|by apply I4]. destruct (I4 l c Hc). split; [simpl; lia|done]. }
  assert (Hls : is_Some (loaders s1 !! l)) by (simpl; by rewrite lookup_insert_eq).
  unfold util_LoadLibrary, IsLibraryLoadedByAnybody. case_bool_decide as Ho; change (opened_libraries s1) with (opened_libraries s) in Ho.
  - eexists _, _. split; [done|]. split; [|done]. split; cbn [factories opened_libraries loaders objects with_factories]; try done.
    + intros k f. rewrite lookup_fmap_Some. intros (f0 & <- & Hf0). destruct (I2 k f0 Hf0) as (J1 & J2 & J3 & J4). unfold attach. case_decide as Hd.
      * unfold AddOwnedClassLoader. case_decide as Hin.
        -- split_and!; try done. intros l'. rewrite (held_same s1) by done. rewrite Hh, <- J4, Hd. naive_solver.
        -- cbn [with_owners relative_library_path_ relative_class_loaders_]. split_and!; try done.
           ++ apply NoDup_app. split; [done|]. split; [set_solver|apply NoDup_singleton].
           ++ intros l'. rewrite (held_same s1) by done. rewrite Hh, elem_of_app, list_elem_of_singleton, <- J4, Hd. naive_solver.
      * split_and!; try done. intros l'. rewrite (held_same s1) by done. rewrite Hh, <- J4. naive_solver.
    + intros q ks k Hq Hks Hk. destruct (I3 q ks k Hq Hks Hk) as (f & Hf & Hp). exists (attach p l f). change (factories s1) with (factories s). rewrite lookup_fmap, Hf. split; [done|].
      unfold attach, AddOwnedClassLoader. repeat case_decide; done.
    + intros o l' q Hq. destruct (I5 o l' q Hq) as [? ?]. split; [apply Hh; by left|done].
    + intros q Hq. destruct (I6 q Hq) as [l' ?]. exists l'. apply Hh. by left.
    + intros q l' ks k Hks Hk [Hq|[_ ->]]%Hh; [by eapply I7|done].
  - destruct (exports p) as [ks|] eqn:Ep.
    + destruct (registered_same p l ks s1) as (R1 & R2 & R3). eexists _, _. split; [done|].
      assert (Hnot : ∀ k, k ∈ ks → ∀ l', ¬ held s l' p) by (intros k Hk l' Hl'; apply Ho; by eapply I7).
      split; [|split; [by simpl; rewrite R3|simpl; by rewrite R2]]. split; cbn [factories opened_libraries loaders objects with_libraries]; rewrite ?R1, ?R2, ?R3.
      * apply NoDup_app. split; [done|]. split; [set_solver|apply NoDup_singleton].
      * intros k f. rewrite registered_lookup. case_decide as Hk.
        -- intros [= <-]. cbn [relative_library_path_ relative_class_loaders_]. split; [set_solver|]. split; [by exists ks|]. split; [apply NoDup_singleton|].
           intros l'. rewrite list_elem_of_singleton, (held_same s1) by (simpl; by rewrite R2). rewrite Hh. split; [naive_solver|]. intros [H|[? _]]; [by destruct (Hnot k Hk l')|done].
        -- intros Hf. destruct (I2 k f Hf) as (J1 & J2 & J3 & J4). split; [set_solver|]. split; [done|]. split; [done|]. intros l'.
           rewrite (held_same s1) by (simpl; by rewrite R2). rewrite Hh, J4. split; [by left|]. intros [?|[_ E]]; [done|]. by rewrite E in J1.
      * intros q ks' k Hq Hks' Hk. setoid_rewrite registered_lookup. apply elem_of_app in Hq as [Hq| ->%list_elem_of_singleton].
        -- destruct (I3 q ks' k Hq Hks' Hk) as (f & Hf & Hfp). rewrite decide_False; [by exists f|]. intros Hk'. apply Ho. by rewrite (distinct p q ks ks' k Ep Hks' Hk' Hk).
        -- assert (ks' = ks) as -> by congruence. rewrite decide_True by done. by eexists.
      * done.
      * intros o l' q Hq. destruct (I5 o l' q Hq) as [? ?]. split; [|done]. apply (held_same s1); [simpl; by rewrite R2|]. apply Hh. by left.
      * intros q [Hq| ->%list_elem_of_singleton]%elem_of_app.
        -- destruct (I6 q Hq) as [l' ?]. exists l'. apply (held_same s1); [simpl; by rewrite R2|]. apply Hh. by left.
        -- exists l. apply (held_same s1); [simpl; by rewrite R2|]. apply Hh. by right.
      * intros q l' ks' k Hks' Hk Hl'. apply (held_same s1) in Hl'; [|simpl; by rewrite R2]. apply Hh in Hl' as [Hl'|[_ ->]]; [|set_solver].
        apply elem_of_app. left. by eapply I7.
    + eexists _, _. split; [done|]. split; [|done]. split; try done.
      * intros k f Hf. destruct (I2 k f Hf) as (J1 & J2 & J3 & J4). split_and!; try done. intros l'. rewrite Hh, J4. split; [by left|]. intros [?|[_ E]]; [done|]. by rewrite E in J1.
      * intros o l' q Hq. destruct (I5 o l' q Hq) as [? ?]. split; [apply Hh; by left|done].
      * intros q Hq. destruct (I6 q Hq) as [l' ?]. exists l'. apply Hh. by left.
      * intros q l' ks k Hks Hk [Hq|[_ ->]]%Hh; [by eapply I7|congruence].
Qed.

Lemma destroyed_lookup (p : string) (l : nat) (fs : gmap (string * string) AbstractClassFactoryBase) (k : string * string) : omap (destroy_factory p l) fs !! k = fs !! k ≫= destroy_factory p l.
Proof using Type. apply lookup_omap. Qed.

(** What is left of a factory. *)
Lemma destroy_factory_Some p l f f' : destroy_factory p l f = Some f' →
  (relative_library_path_ f ≠ p ∧ f' = f) ∨
  (relative_library_path_ f = p ∧ relative_library_path_ f' = p ∧
   relative_class_loaders_ f' = (if decide (l ∈ relative_class_loaders_ f) then erase_first l (relative_class_loaders_ f) else relative_class_loaders_ f) ∧
   (l ∈ relative_class_loaders_ f → relative_class_loaders_ f' ≠ [])).
Proof using Type.
  unfold destroy_factory, IsOwnedBy. case_bool_decide as Hp; simpl; [|intros [= <-]; by left]. case_bool_decide as Hl.
  - unfold IsOwnedByAnybody. case_bool_decide as He; [done|]. intros [= <-]. right. simpl. by rewrite decide_True.
  - intros [= <-]. right. by rewrite decide_False.
Qed.

Lemma destroy_factory_None p l f : destroy_factory p l f = None → erase_first l (relative_class_loaders_ f) = [].
Proof using Type.
  unfold destroy_factory, IsOwnedByAnybody. case_match; [|done]. case_match eqn:E; [done|]. intros _. simpl in E. by apply negb_false_iff, bool_decide_eq_true in E.
Qed.

Lemma destroy_factory_kept p l l' f : NoDup (relative_class_loaders_ f) → l' ∈ relative_class_loaders_ f → l' ≠ l →
  ∃ f', destroy_factory p l f = Some f' ∧ relative_library_path_ f' = relative_library_path_ f.
Proof using Type.
  intros Hnd Hl' Hne. destruct (destroy_factory p l f) as [f'|] eqn:E.
  - exists f'. split; [done|]. destruct (destroy_factory_Some _ _ _ _ E) as [[_ ->]|(-> & -> & _ & _)]; done.
  - apply destroy_factory_None in E. assert (Hin : l' ∈ erase_first l (relative_class_loaders_ f)) by (by apply erase_first_elem). rewrite E in Hin. by apply elem_of_nil in Hin.
Qed.

Lemma no_factory_left p s : (size (GetAllClassFactoryObjectsOfLibrary p s) = 0)%nat ↔ ∀ k f, factories s !! k = Some f → relative_library_path_ f ≠ p.
Proof using Type.
  unfold GetAllClassFactoryObjectsOfLibrary. rewrite map_size_empty_iff, map_empty. setoid_rewrite map_lookup_filter_None. split.
  - intros H k f Hf Hp. destruct (H k) as [Hn|Hn]; [congruence|]. by apply (Hn f).
  - intros H k. destruct (factories s !! k) as [f|] eqn:E; [right|by left]. intros f' [= <-]. by apply (H k).
Qed.

(** A loader without objects lets go of its library. *)
Lemma inv_release s l c c' : inv s → loaders s !! l = Some c → classobj_ref_count_ c = 0 → c' = mkLoader (library_path_ c) 0 0 →
  let s1 := with_loaders (<[l := c']> (loaders s)) s in
  inv (util_UnloadLibrary (library_path_ c) l s1) ∧ objects (util_UnloadLibrary (library_path_ c) l s1) = objects s ∧
  loaders (util_UnloadLibrary (library_path_ c) l s1) = loaders s1.
Proof using distinct.
  intros [I1 I2 I3 I4 I5 I6 I7] Hc H0 -> s1. set (p := library_path_ c).
  assert (Hh : ∀ l' q, held s1 l' q ↔ held s l' q ∧ l' ≠ l).
  { intros l' q. unfold s1. rewrite (held_update s l c) by done. case_decide as Hd; [|naive_solver]. simpl. naive_solver lia. }
  assert (Hob : ∀ o l' q, objects s !! o = Some (l', q) → l' ≠ l).
  { intros o l' q Ho ->. destruct (I4 l c Hc) as [_ E]. rewrite H0 in E. by eapply object_count_zero. }
  assert (Hl : ∀ l' c0, loaders s1 !! l' = Some c0 → 0 ≤ loadlib_ref_count_ c0 ∧ classobj_ref_count_ c0 = object_count l' (objects s)).
  { intros l' c0. simpl. rewrite lookup_insert_Some. intros [[<- <-]|[_ H]]; [|by apply I4]. destruct (I4 l c Hc). split; [done|simpl; congruence]. }
  assert (Hhp : ∀ l' q, held s l' q → q ≠ p → l' ≠ l).
  { intros l' q (c0 & E & Eq & _) Hq ->. apply Hq. rewrite Hc in E. injection E as <-. done. }
  unfold util_UnloadLibrary. case_bool_decide as Ho; change (opened_libraries s1) with (opened_libraries s) in Ho.
  2:{ split; [|done]. assert (Hqp : ∀ q, q ∈ opened_libraries s → q ≠ p) by (intros q Hq ->; done). split; try done.
    - intros k f Hf. destruct (I2 k f Hf) as (J1 & J2 & J3 & J4). split_and!; try done. intros l'. rewrite Hh, J4. split; [|by intros [? _]].
      intros H. split; [done|]. eapply Hhp; [exact H|]. by apply Hqp.
    - intros o l' q Hq. destruct (I5 o l' q Hq) as [? ?]. split; [|done]. apply Hh. split; [done|by eapply Hob].
    - intros q Hq. destruct (I6 q Hq) as [l' H]. exists l'. apply Hh. split; [done|]. eapply Hhp; [exact H|]. by apply Hqp.
    - intros q l' ks k Hks Hk [H _]%Hh. by eapply I7. }
  set (s2 := DestroyClassFactoryObjectsOfLibrary p l s1).
  (** A library that another loader holds keeps its factories. *)
  assert (Hkeep : ∀ k f l', factories s !! k = Some f → held s l' (relative_library_path_ f) → l' ≠ l →
    ∃ f', factories s2 !! k = Some f' ∧ relative_library_path_ f' = relative_library_path_ f).
  { intros k f l' Hf Hl' Hne. destruct (I2 k f Hf) as (J1 & J2 & J3 & J4). destruct (destroy_factory_kept p l l' f J3) as (f' & Hf' & Hp'); [by apply J4|done|].
    exists f'. split; [|done]. simpl. by rewrite destroyed_lookup, Hf. }
  assert (Hother : ∀ k f, factories s !! k = Some f → relative_library_path_ f ≠ p → factories s2 !! k = Some f).
  { intros k f Hf Hp. simpl. rewrite destroyed_lookup, Hf. simpl. unfold destroy_factory. by rewrite bool_decide_eq_false_2. }
  assert (Hfac : ∀ k f', factories s2 !! k = Some f' → relative_library_path_ f' ∈ opened_libraries s ∧ (∃ ks, exports (relative_library_path_ f') = Some ks ∧ k ∈ ks) ∧
    NoDup (relative_class_loaders_ f') ∧ ∀ l, l ∈ relative_class_loaders_ f' ↔ held s1 l (relative_library_path_ f')).
  { intros k f'. simpl. rewrite destroyed_lookup. destruct (factories s !! k) as [f|] eqn:Hf; [|done]. simpl. destruct (I2 k f Hf) as (J1 & J2 & J3 & J4).
    intros [[Hp ->]|(Hp & Hp' & Ho' & _)]%destroy_factory_Some.
    - split_and!; try done. intros l'. rewrite Hh, J4. split; [|by intros [? _]]. intros H. split; [done|]. by eapply Hhp.
    - rewrite Hp', <- Hp, Ho'. case_decide as Hin; split_and!; try done.
      + by apply erase_first_NoDup.
      + intros l'. rewrite erase_first_elem, J4, Hh by done. done.
      + intros l'. rewrite J4, Hh. split; [|by intros [? _]]. intros H. split; [done|]. intros ->. by apply Hin, J4. }
  (** Another loader that holds the library and a class of it. *)
  assert (Hrem : ∀ l' ks k, exports p = Some ks → k ∈ ks → held s l' p → l' ≠ l → ∃ f', factories s2 !! k = Some f' ∧ relative_library_path_ f' = p).
  { intros l' ks k Hks Hk Hl' Hne. destruct (I3 p ks k Ho Hks Hk) as (f & Hf & Hfp). rewrite <- Hfp in Hl'. destruct (Hkeep k f l' Hf Hl' Hne) as (f' & Hf' & Hp').
    exists f'. split; [done|congruence]. }
  case_bool_decide as Hsz.
  - rewrite no_factory_left in Hsz. assert (Hgone : ∀ q, q ∈ erase_path p (opened_libraries s) ↔ q ∈ opened_libraries s ∧ q ≠ p) by (intros q; by apply erase_path_elem).
    assert (Hp0 : ∀ l' ks k, exports p = Some ks → k ∈ ks → held s l' p → l' = l).
    { intros l' ks k Hks Hk Hl'. destruct (decide (l' = l)); [done|]. destruct (Hrem l' ks k) as (f' & Hf' & Hp'); try done. by apply Hsz in Hf'. }
    split; [|done]. split; cbn [factories opened_libraries loaders objects with_libraries].
    + by apply erase_path_NoDup.
    + intros k f Hf. destruct (Hfac k f Hf) as (J1 & J2 & J3 & J4). split_and!; try done. apply Hgone. split; [done|]. by apply (Hsz k).
    + intros q ks k [Hq Hqp]%Hgone Hks Hk. destruct (I3 q ks k Hq Hks Hk) as (f & Hf & Hfp). exists f. split; [|done]. apply Hother; [done|congruence].
    + done.
    + intros o l' q Hq. destruct (I5 o l' q Hq) as [? ?]. split; [|done]. apply (held_same s1); [done|]. apply Hh. split; [done|by eapply Hob].
    + intros q [Hq Hqp]%Hgone. destruct (I6 q Hq) as [l' H]. exists l'. apply (held_same s1); [done|]. apply Hh. split; [done|by eapply Hhp].
    + intros q l' ks k Hks Hk H. apply (held_same s1) in H; [|done]. apply Hh in H as [H Hne]. apply Hgone. split; [by eapply I7|]. intros ->. by apply Hne, (Hp0 l' ks k).
  - split; [|done]. assert (Hex : ∃ l', held s1 l' p).
    { destruct (map_choose (GetAllClassFactoryObjectsOfLibrary p s2)) as (k & f' & [Hf' Hfp]%map_lookup_filter_Some); [intros E; apply Hsz; by rewrite E|].
      destruct (Hfac k f' Hf') as (_ & _ & _ & J4). simpl in Hfp. rewrite Hfp in J4. revert Hf'. simpl. rewrite destroyed_lookup.
      destruct (factories s !! k) as [f|] eqn:Hf; [|done]. simpl. intros [[Hp Ef]|(Hp & Hp' & Ho' & Hn)]%destroy_factory_Some.
      - by rewrite <- Ef in Hp.
      - assert (Hne : relative_class_loaders_ f' ≠ []).
        { destruct (decide (l ∈ relative_class_loaders_ f)) as [Hin|Hin]; [by apply Hn|]. rewrite Ho'. destruct (I6 p Ho) as [l' Hl'].
          intros E. destruct (I2 k f Hf) as (_ & _ & _ & J). rewrite Hp in J. apply J in Hl'. rewrite E in Hl'. by apply elem_of_nil in Hl'. }
        destruct (relative_class_loaders_ f') as [|l' ls]; [done|]. exists l'. apply J4. left. }
    split; cbn [factories opened_libraries loaders objects s2 DestroyClassFactoryObjectsOfLibrary with_factories]; try done.
    + intros q ks k Hq Hks Hk. destruct (I3 q ks k Hq Hks Hk) as (f & Hf & Hfp). destruct (decide (q = p)) as [->|Hqp].
      * destruct Hex as [l' [Hl' Hne]%Hh]. by apply (Hrem l' ks k).
      * exists f. split; [|done]. apply (Hother k f Hf). congruence.
    + intros o l' q Hq. destruct (I5 o l' q Hq) as [? ?]. split; [|done]. apply (held_same s1); [done|]. apply Hh. split; [done|by eapply Hob].
    + intros q Hq. destruct (decide (q = p)) as [->|Hqp]; [done|]. destruct (I6 q Hq) as [l' H]. exists l'. apply (held_same s1); [done|]. apply Hh. split; [done|by eapply Hhp].
    + intros q l' ks k Hks Hk H. apply (held_same s1) in H; [|done]. apply Hh in H as [H Hne]. by eapply I7.
Qed.

(** Changing the counts of a loader that stays as held as it was. *)
Lemma inv_recount s l c c' : inv s → loaders s !! l = Some c → library_path_ c' = library_path_ c → classobj_ref_count_ c' = classobj_ref_count_ c →
  0 ≤ loadlib_ref_count_ c' → (0 < loadlib_ref_count_ c' ↔ 0 < loadlib_ref_count_ c) → inv (with_loaders (<[l := c']> (loaders s)) s).
Proof using Type.
  intros [I1 I2 I3 I4 I5 I6 I7] Hc Hp Ho H0 Hi. assert (Hh : ∀ l' q, held (with_loaders (<[l := c']> (loaders s)) s) l' q ↔ held s l' q).
  { intros l' q. rewrite (held_update s l c) by done. case_decide as Hd; [|done]. subst l'. unfold held. rewrite Hc. naive_solver. }
  split; try done; cbn [factories opened_libraries loaders objects with_loaders].
  - intros k f Hf. destruct (I2 k f Hf) as (J1 & J2 & J3 & J4). split_and!; try done. intros l'. by rewrite Hh.
  - intros l' c0. rewrite lookup_insert_Some. intros [[<- <-]|[_ H]]; [|by apply I4]. split; [done|]. rewrite Ho. by apply I4.
  - intros o l' q. rewrite Hh. apply I5.
  - intros q Hq. destruct (I6 q Hq) as [l' H]. exists l'. by apply Hh.
  - intros q l' ks k. rewrite Hh. apply I7.
Qed.

Lemma inv_UnloadLibrary s l c : inv s → loaders s !! l = Some c → ∃ n s', UnloadLibrary l s = Some (n, s') ∧ inv s' ∧ objects s' = objects s ∧
  ∃ c', loaders s' !! l = Some c' ∧ loadlib_ref_count_ c' = n ∧ classobj_ref_count_ c' = classobj_ref_count_ c ∧
    (classobj_ref_count_ c = 0 → n = Z.max 0 (loadlib_ref_count_ c - 1)) ∧ (0 < classobj_ref_count_ c → s' = s).
Proof using distinct.
  intros Hinv Hc. destruct (iv_loader _ Hinv l c Hc) as [H0 Hn]. unfold UnloadLibrary. rewrite Hc.
  assert (Hpos : 0 ≤ classobj_ref_count_ c) by (rewrite Hn; unfold object_count; lia).
  destruct (Z.ltb_spec 0 (classobj_ref_count_ c)) as [Ho|Ho]; [eexists _, _; split; [done|]; split; [done|]; split; [done|]; exists c; split_and!; [done|done|done|lia|done]|].
  destruct (Z.ltb_spec (loadlib_ref_count_ c - 1) 0) as [Hz|Hz]; destruct (Z.eqb_spec (loadlib_ref_count_ c - 1) 0) as [Hq|Hq]; try lia; eexists _, _; (split; [done|]).
  - split; [apply (inv_recount s l c); simpl; try done; lia|]. split; [done|]. eexists. simpl. rewrite lookup_insert_eq. split_and!; [done|done|done|lia|lia].
  - assert (E0 : loadlib_ref_count_ c - 1 = 0) by lia. assert (Eo : classobj_ref_count_ c = 0) by lia. rewrite E0, Eo.
    destruct (inv_release s l c (mkLoader (library_path_ c) 0 0) Hinv Hc Eo eq_refl) as (J1 & J2 & J3). split; [done|]. split; [done|].
    eexists. rewrite J3. simpl. rewrite lookup_insert_eq. split_and!; [done|done|done|lia|lia].
  - split; [apply (inv_recount s l c); simpl; try done; lia|]. split; [done|]. eexists. simpl. rewrite lookup_insert_eq. split_and!; [done|done|done|lia|lia].
Qed.

Lemma inv_ClassLoader_new s l path : inv s → loaders s !! l = None → ∃ b s', ClassLoader_new l path s = Some (b, s') ∧ inv s' ∧ objects s' = objects s.
Proof using distinct.
  intros Hinv Hl. destruct Hinv as [I1 I2 I3 I4 I5 I6 I7]. set (s1 := with_loaders (<[l := mkLoader path 0 0]> (loaders s)) s).
  assert (Hh : ∀ l' q, held s1 l' q ↔ held s l' q).
  { intros l' q. unfold held. simpl. destruct (decide (l' = l)) as [->|Hne]; [rewrite lookup_insert_eq, Hl|by rewrite lookup_insert_ne]. split; [|naive_solver].
    intros (c & [= <-] & _ & H). simpl in H. lia. }
  assert (Hs1 : inv s1).
  { split; try done.
    - intros k f Hf. destruct (I2 k f Hf) as (J1 & J2 & J3 & J4). split_and!; try done. intros l'. by rewrite Hh.
    - intros l' c. simpl. rewrite lookup_insert_Some. intros [[<- <-]|[_ H]]; [|by apply I4]. split; [done|]. simpl. unfold object_count.
      assert (E : filter (λ x : nat * (nat * string), x.2.1 = l) (objects s) = ∅); [|by rewrite E, map_size_empty].
      apply map_empty. intros o. apply map_lookup_filter_None. destruct (objects s !! o) as [[l' p]|] eqn:E; [right|by left]. intros ? [= <-]. simpl. intros ->.
      destruct (I5 o l p E) as [(c & Hc & _) _]. by rewrite Hl in Hc.
    - intros o l' q. rewrite Hh. apply I5.
    - intros q Hq. destruct (I6 q Hq) as [l' H]. exists l'. by apply Hh.
    - intros q l' ks k. rewrite Hh. apply I7. }
  destruct (inv_LoadLibrary s1 l (mkLoader path 0 0) Hs1) as (b & s' & E & Hs' & Ho & _); [simpl; by rewrite lookup_insert_eq|]. by exists b, s'.
Qed.

Lemma inv_ClassLoader_delete s l c : inv s → loaders s !! l = Some c → loadlib_ref_count_ c ≤ 1 → classobj_ref_count_ c = 0 →
  ∃ s', ClassLoader_delete l s = Some s' ∧ inv s' ∧ objects s' = objects s.
Proof using distinct.
  intros Hinv Hc H1 H0. destruct (inv_UnloadLibrary s l c Hinv Hc) as (n & s1 & E & [I1 I2 I3 I4 I5 I6 I7] & Ho & c' & Hc' & En & Eo & Hn & _).
  unfold ClassLoader_delete. rewrite E. eexists. split; [done|]. specialize (Hn H0).
  assert (Hh : ∀ l' q, held (with_loaders (delete l (loaders s1)) s1) l' q ↔ held s1 l' q).
  { intros l' q. unfold held. simpl. destruct (decide (l' = l)) as [->|Hne]; [rewrite lookup_delete_eq, Hc'|by rewrite lookup_delete_ne]. split; [naive_solver|].
    intros (c0 & [= <-] & _ & H). lia. }
  split; [|done]. split; try done; cbn [factories opened_libraries loaders objects with_loaders].
  - intros k f Hf. destruct (I2 k f Hf) as (J1 & J2 & J3 & J4). split_and!; try done. intros l'. by rewrite Hh.
  - intros l' c0 [_ H]%lookup_delete_Some. by apply I4.
  - intros o l' q. rewrite Hh. apply I5.
  - intros q Hq. destruct (I6 q Hq) as [l' H]. exists l'. by apply Hh.
  - intros q l' ks k. rewrite Hh. apply I7.
Qed.

Lemma inv_objects s l c c' os : inv s → loaders s !! l = Some c → library_path_ c' = library_path_ c → loadlib_ref_count_ c' = loadlib_ref_count_ c →
  classobj_ref_count_ c' = object_count l os → (∀ l', l' ≠ l → object_count l' os = object_count l' (objects s)) →
  (∀ o l' p, os !! o = Some (l', p) → objects s !! o = Some (l', p) ∨ (held s l' p ∧ ∃ ks k, exports p = Some ks ∧ k ∈ ks)) →
  inv (with_objects os (with_loaders (<[l := c']> (loaders s)) s)).
Proof using Type.
  intros [I1 I2 I3 I4 I5 I6 I7] Hc Hp Hn Ho Ho' Hin. assert (Hh : ∀ l' q, held (with_loaders (<[l := c']> (loaders s)) s) l' q ↔ held s l' q).
  { intros l' q. rewrite (held_update s l c) by done. case_decide as Hd; [|done]. subst l'. unfold held. rewrite Hc, Hn. naive_solver. }
  split; try done; cbn [factories opened_libraries loaders objects with_loaders with_objects].
  - intros k f Hf. destruct (I2 k f Hf) as (J1 & J2 & J3 & J4). split_and!; try done. intros l'. rewrite J4, <- Hh. done.
  - intros l' c0. rewrite lookup_insert_Some. intros [[<- <-]|[Hne H]]; [|rewrite Ho' by done; by apply I4]. rewrite Hn. split; [by apply (I4 l c)|done].
  - intros o' l' q H. apply Hin in H as [H|[H1 H2]]; [destruct (I5 o' l' q H) as [H1 H2]|]; (split; [by apply Hh|done]).
  - intros q Hq. destruct (I6 q Hq) as [l' H]. exists l'. by apply Hh.
  - intros q l' ks k Hks Hk H. apply (I7 q l' ks k); try done. by apply Hh.
Qed.

Lemma inv_CreateClassObj s l c k o : inv s → loaders s !! l = Some c → objects s !! o = None → ∃ b s', CreateClassObj l k o s = Some (b, s') ∧ inv s'.
Proof using distinct.
  intros Hinv Hc Ho. unfold CreateClassObj. rewrite Hc.
  assert (Hs1 : ∃ s1, (if util_IsLibraryLoaded (library_path_ c) l s then Some s else snd <$> LoadLibrary l s) = Some s1 ∧ inv s1 ∧ objects s1 = objects s ∧ is_Some (loaders s1 !! l)).
  { destruct (util_IsLibraryLoaded _ _ _); [by exists s|]. destruct (inv_LoadLibrary s l c Hinv Hc) as (b & s1 & -> & H). by exists s1. }
  destruct Hs1 as (s1 & -> & Hs1 & Ho1 & c1 & Hc1). destruct (util_CreateClassObj k l s1) as [f|] eqn:Hf; [|by eauto].
  rewrite Hc1. eexists _, _. split; [done|]. unfold util_CreateClassObj in Hf. destruct (factories s1 !! k) as [f'|] eqn:Hk; [|done].
  destruct (IsOwnedBy l f') eqn:Hown; [|done]. injection Hf as ->. apply bool_decide_eq_true in Hown.
  destruct (iv_factory _ Hs1 k f Hk) as (_ & Hex & _ & Hheld). apply Hheld in Hown. destruct Hex as (ks & Hks & Hk'). rewrite <- Ho1 in Ho.
  apply (inv_objects s1 l c1); try done.
  - simpl. rewrite object_count_insert, decide_True by done. destruct (iv_loader _ Hs1 l c1 Hc1) as [_ ->]. done.
  - intros l' Hne. rewrite object_count_insert, decide_False by done. lia.
  - intros o' l' p. rewrite lookup_insert_Some. intros [[<- [= <- <-]]|[_ H]]; [right; eauto|by left].
Qed.

Lemma inv_OnClassObjDeleter s o : inv s → is_Some (objects s !! o) → ∃ s', OnClassObjDeleter o s = Some s' ∧ inv s'.
Proof using distinct.
  intros Hinv [[l p] Ho]. unfold OnClassObjDeleter. rewrite Ho. destruct (iv_object _ Hinv o l p Ho) as [(c & Hc & _) _]. rewrite Hc. eexists. split; [done|].
  apply (inv_objects s l c); try done.
  - simpl. rewrite (object_count_delete l l o p), decide_True by done. destruct (iv_loader _ Hinv l c Hc) as [_ ->]. done.
  - intros l' Hne. rewrite (object_count_delete l' l o p), decide_False by done. lia.
  - intros o' l' q [_ H]%lookup_delete_Some. by left.
Qed.

Lemma inv_init : inv init.
Proof using Type.
  clear distinct.
  split; try (intros; set_solver); try (intros *; cbn; by rewrite lookup_empty). - apply NoDup_nil_2. - intros p l ks k _ _ (c & H & _). by apply (lookup_empty_Some l c) in H.
Qed.

Lemma inv_operation s x s' : inv s → exec s x = Some s' → inv s'.
Proof using distinct.
  intros Hinv. destruct x as [l path|l|l|l|l k o|o]; simpl.
  - case_decide as Hl; [done|]. apply eq_None_not_Some in Hl. destruct (inv_ClassLoader_new s l path Hinv Hl) as (b & s1 & -> & H & _). by intros [= <-].
  - destruct (loaders s !! l) as [c|] eqn:Hc; [|unfold LoadLibrary; by rewrite Hc]. destruct (inv_LoadLibrary s l c Hinv Hc) as (b & s1 & -> & H & _). by intros [= <-].
  - destruct (loaders s !! l) as [c|] eqn:Hc; [|unfold UnloadLibrary; by rewrite Hc]. destruct (inv_UnloadLibrary s l c Hinv Hc) as (n & s1 & -> & H & _). by intros [= <-].
  - destruct (loaders s !! l) as [c|] eqn:Hc; [|done]. case_decide as Hd; [|done]. destruct (inv_ClassLoader_delete s l c Hinv Hc) as (s1 & -> & H & _); [tauto|tauto|]. by intros [= <-].
  - case_decide as Ho; [done|]. apply eq_None_not_Some in Ho. destruct (loaders s !! l) as [c|] eqn:Hc; [|unfold CreateClassObj; by rewrite Hc].
    destruct (inv_CreateClassObj s l c k o Hinv Hc Ho) as (b & s1 & -> & H). by intros [= <-].
  - intros H. destruct (objects s !! o) as [lp|] eqn:Ho; [|unfold OnClassObjDeleter in H; by rewrite Ho in H].
    destruct (inv_OnClassObjDeleter s o Hinv) as (s1 & E & Hs1); [by eauto|]. rewrite H in E. by injection E as ->.
Qed.

Definition run (s : st) (xs : list op) : option st := foldl (λ s x, s ← s; exec s x) (Some s) xs.

Lemma loader_run_app s xs ys : run s (xs ++ ys) = s ← run s xs; run s ys.
Proof using Type.
  unfold run. rewrite foldl_app. destruct (foldl _ (Some s) xs) as [s1|]; [done|]. simpl. by induction ys.
Qed.

Lemma inv_run s xs s' : inv s → run s xs = Some s' → inv s'.
Proof using distinct.
  intros Hinv. revert s'. induction xs as [|x xs IH] using rev_ind; intros s'; [by intros [= <-]|]. rewrite loader_run_app. destruct (run s xs) as [s1|]; [|done].
  simpl. unfold run. simpl. apply inv_operation. by apply IH.
Qed.

(** ** What the operations leave alone *)

Lemma library_loaded p l s : p ∈ opened_libraries s → util_IsLibraryLoaded p l s = true.
Proof using Type.
  clear distinct exports.
  intros Hp. unfold util_IsLibraryLoaded, IsLibraryLoadedByAnybody. rewrite bool_decide_eq_true_2 by done. simpl.
  destruct (bool_decide (size _ = 0)%nat); [done|]. apply bool_decide_eq_true. apply map_size_filter.
Qed.

Lemma LoadLibrary_frame s l c b s' : loaders s !! l = Some c → LoadLibrary l s = Some (b, s') →
  loaders s' = <[l := mkLoader (library_path_ c) (loadlib_ref_count_ c + 1) (classobj_ref_count_ c)]> (loaders s) ∧ objects s' = objects s ∧
  (∀ p, p ∈ opened_libraries s → p ∈ opened_libraries s') ∧ (∀ p, p ∈ opened_libraries s' → p ∈ opened_libraries s ∨ is_Some (exports p)).
Proof using Type.
  clear distinct.
  intros Hc. unfold LoadLibrary, util_LoadLibrary. rewrite Hc. destruct (IsLibraryLoadedByAnybody _ _); [intros [= <- <-]; simpl; auto|].
  set (s1 := with_loaders _ s). destruct (exports (library_path_ c)) as [ks|] eqn:E; intros [= <- <-]; [|simpl; auto].
  destruct (registered_same (library_path_ c) l ks s1) as (H1 & H2 & H3). cbn [with_libraries opened_libraries loaders objects]. rewrite H1, H2, H3.
  split_and!; [done|done|set_solver|]. intros p. rewrite elem_of_app, list_elem_of_singleton. intros [H| ->]; [by left|right; by eexists].
Qed.

Lemma UnloadLibrary_frame s l c n s' : loaders s !! l = Some c → UnloadLibrary l s = Some (n, s') →
  (∃ c', loaders s' = <[l := c']> (loaders s) ∧ library_path_ c' = library_path_ c) ∧ objects s' = objects s ∧ (∀ p, p ∈ opened_libraries s' → p ∈ opened_libraries s).
Proof using Type.
  clear distinct exports.
  intros Hc. unfold UnloadLibrary. rewrite Hc. destruct (0 <? classobj_ref_count_ c); [intros [= <- <-]; split; [by exists c; rewrite insert_id|done]|].
  set (s1 := with_loaders _ s). destruct (_ =? 0); intros [= <- <-]; [|split; [by eexists|done]]. unfold util_UnloadLibrary.
  case_bool_decide; [|split; [by eexists|done]]. case_bool_decide; (split; [by eexists|]); (split; [done|]); [|done].
  cbn [opened_libraries with_libraries DestroyClassFactoryObjectsOfLibrary with_factories s1 with_loaders]. intros p.
  generalize (opened_libraries s). intros ps. induction ps as [|q ps IH]; simpl; [done|]. case_decide; rewrite ?elem_of_cons; naive_solver.
Qed.

Lemma CreateClassObj_frame s l c k o b s' : loaders s !! l = Some c → CreateClassObj l k o s = Some (b, s') →
  (∃ c', loaders s' = <[l := c']> (loaders s) ∧ library_path_ c' = library_path_ c ∧ loadlib_ref_count_ c ≤ loadlib_ref_count_ c' ∧
    (library_path_ c ∈ opened_libraries s → loadlib_ref_count_ c' = loadlib_ref_count_ c)) ∧
  (if b then ∃ p, objects s' = <[o := (l, p)]> (objects s) else objects s' = objects s) ∧
  (∀ p, p ∈ opened_libraries s → p ∈ opened_libraries s') ∧ (∀ p, p ∈ opened_libraries s' → p ∈ opened_libraries s ∨ is_Some (exports p)).
Proof using Type.
  clear distinct.
  intros Hc. unfold CreateClassObj. rewrite Hc.
  assert (Hs1 : ∀ s1, (if util_IsLibraryLoaded (library_path_ c) l s then Some s else snd <$> LoadLibrary l s) = Some s1 →
    (∃ c', loaders s1 = <[l := c']> (loaders s) ∧ library_path_ c' = library_path_ c ∧ loadlib_ref_count_ c ≤ loadlib_ref_count_ c' ∧
      (library_path_ c ∈ opened_libraries s → loadlib_ref_count_ c' = loadlib_ref_count_ c)) ∧
    objects s1 = objects s ∧ (∀ p, p ∈ opened_libraries s → p ∈ opened_libraries s1) ∧ (∀ p, p ∈ opened_libraries s1 → p ∈ opened_libraries s ∨ is_Some (exports p))).
  { intros s1. destruct (util_IsLibraryLoaded (library_path_ c) l s) eqn:E; [intros [= <-]; split; [exists c; by rewrite insert_id|auto]|].
    destruct (LoadLibrary l s) as [[b' s2]|] eqn:El; [|done]. intros [= <-]. destruct (LoadLibrary_frame s l c b' s2 Hc El) as (H1 & H2 & H3 & H4).
    split; [|done]. eexists. split; [exact H1|]. simpl. split_and!; [done|lia|]. intros Hp. by rewrite library_loaded in E. }
  destruct (if util_IsLibraryLoaded _ _ _ then _ else _) as [s1|]; [|done]. destruct (Hs1 s1 eq_refl) as ((c1 & H1 & H1p & H1n & H1o) & H2 & H3 & H4).
  rewrite H1, lookup_insert_eq. destruct (util_CreateClassObj k l s1); intros [= <- <-]; [|split_and!; try done; by exists c1].
  split_and!; cbn [loaders objects opened_libraries with_objects with_loaders]; try done.
  - eexists. rewrite insert_insert_eq. split; [done|]. done.
  - eexists. by rewrite H2.
Qed.

(** ** What follows *)

(** C11: An object never outlives its code: when the classes of different
    libraries have different names ([distinct];
    [colliding_classes_close_a_library] otherwise), then after any sequence of
    making loaders that nothing keeps from sharing libraries, loading,
    unloading, creating objects, dropping them and deleting loaders (which have
    no live object and have loaded at most once, see [exec]), the library of
    every object that is alive is open, and a loader holds it. *)
Theorem no_object_outlives_its_library xs s o l p :
  run init xs = Some s → objects s !! o = Some (l, p) →
  p ∈ opened_libraries s ∧ ∃ c, loaders s !! l = Some c ∧ library_path_ c = p ∧ 0 < loadlib_ref_count_ c.
Proof using distinct.
  intros Hr Ho. assert (Hs : inv s) by (by eapply inv_run, Hr; apply inv_init).
  destruct (iv_object _ Hs o l p Ho) as [Hh (ks & k & Hks & Hk)]. split; [by eapply (iv_closed _ Hs)|done].
Qed.

(** Property: when every loader has unloaded its library as often as it loaded it, no
    library is open and no factory is left. *)
Theorem unloading_leaves_nothing xs s :
  run init xs = Some s → (∀ l c, loaders s !! l = Some c → loadlib_ref_count_ c = 0) →
  opened_libraries s = [] ∧ factories s = ∅ ∧ objects s = ∅.
Proof using distinct.
  intros Hr H0. assert (Hs : inv s) by (by eapply inv_run, Hr; apply inv_init).
  assert (Hh : ∀ l p, ¬ held s l p) by (intros l p (c & Hc & _ & H); rewrite (H0 l c Hc) in H; lia).
  assert (E : opened_libraries s = []).
  { destruct (opened_libraries s) as [|p ps] eqn:E; [done|]. destruct (iv_held _ Hs p) as [l Hl]; [rewrite E; left|]. by apply Hh in Hl. }
  split; [done|]. split; apply map_empty; intros k; apply eq_None_not_Some; intros [x Hx].
  - destruct (iv_factory _ Hs k x Hx) as [H _]. rewrite E in H. by apply elem_of_nil in H.
  - destruct x as [l p]. destruct (iv_object _ Hs k l p Hx) as [H _]. by apply Hh in H.
Qed.

(** When a library that can be opened is held, it is open; its classes are
    valid for the loader, and it makes their objects. *)
Lemma held_makes_objects s l p ks k o : inv s → held s l p → exports p = Some ks → k ∈ ks → objects s !! o = None →
  IsClassValid k.1 k.2 l s = true ∧ ∃ s', CreateClassObj l k o s = Some (true, s') ∧ objects s' = <[o := (l, p)]> (objects s).
Proof using distinct.
  intros Hinv Hl Hks Hk Ho. assert (Hp : p ∈ opened_libraries s) by (by eapply (iv_closed _ Hinv)).
  destruct (iv_registered _ Hinv p ks k Hp Hks Hk) as (f & Hf & Hfp). destruct (iv_factory _ Hinv k f Hf) as (_ & _ & _ & Hown).
  rewrite Hfp in Hown. apply Hown in Hl as Hin. destruct Hl as (c & Hc & Hcp & Hc0). split.
  - apply bool_decide_eq_true. unfold GetValidClassNames. apply elem_of_map. exists k. split; [done|]. apply elem_of_dom. exists f.
    apply map_lookup_filter_Some. split; [done|]. split; [done|]. by apply bool_decide_eq_true.
  - unfold CreateClassObj. rewrite Hc. rewrite library_loaded by (by rewrite Hcp).
    unfold util_CreateClassObj. rewrite Hf. unfold IsOwnedBy. rewrite bool_decide_eq_true_2 by done. rewrite Hc, Hfp. by eexists.
Qed.
End ClassLoader.

(** ** Runs *)

(** Two libraries, with one class and two. *)
Definition two_libraries (p : string) : option (list (string * string)) :=
  if decide (p = "libA")%string then Some [("Base", "A")]%string
  else if decide (p = "libB")%string then Some [("Base", "B"); ("Base", "B'")]%string else None.

Lemma two_libraries_distinct p p' ks ks' k : two_libraries p = Some ks → two_libraries p' = Some ks' → k ∈ ks → k ∈ ks' → p = p'.
Proof. unfold two_libraries. intros. repeat case_decide; simplify_eq; set_solver. Qed.

Lemma no_object_outlives_its_library_witness : ∃ s,
  run two_libraries init [New 0 "libA"; New 1 "libA"; Create 0 ("Base", "A") 7; Unload 1; Unload 0]%string = Some s ∧ objects s !! 7%nat = Some (0%nat, "libA"%string) ∧
  "libA"%string ∈ opened_libraries s.
Proof.
  eexists. split; [vm_compute; reflexivity|]. split; [vm_compute; reflexivity|].
  eapply (no_object_outlives_its_library two_libraries two_libraries_distinct
    [New 0 "libA"; New 1 "libA"; Create 0 ("Base", "A") 7; Unload 1; Unload 0]%string _ 7%nat 0%nat); vm_compute; reflexivity.
Defined.

Lemma unloading_leaves_nothing_witness : ∃ s,
  run two_libraries init [New 0 "libA"; New 1 "libA"; Create 0 ("Base", "A") 7; Unload 1; Unload 0; Drop 7; Unload 0]%string = Some s ∧ opened_libraries s = [].
Proof.
  eexists. split; [vm_compute; reflexivity|].
  eapply (unloading_leaves_nothing two_libraries two_libraries_distinct
    [New 0 "libA"; New 1 "libA"; Create 0 ("Base", "A") 7; Unload 1; Unload 0; Drop 7; Unload 0]%string); [vm_compute; reflexivity|].
  intros l c H. refine (map_Forall_lookup_1 (λ _ c, loadlib_ref_count_ c = 0) _ l c _ H). refine (bool_decide_eq_true_1 _ _). vm_compute. reflexivity.
Defined.

(** When two libraries have a class of the same name the second replaces the
    factory of the first, and unloading a library that still has a loader and
    an object closes it: the hypothesis [distinct] is needed. *)
Theorem colliding_classes_close_a_library :
  let e p := if decide (p = "libA" ∨ p = "libB")%string then Some [("Base", "A")]%string else None in
  ∃ s, run e init [New 0 "libA"; New 1 "libA"; Create 0 ("Base", "A") 7; New 2 "libB"; Unload 1]%string = Some s ∧
    objects s !! 7%nat = Some (0%nat, "libA"%string) ∧ "libA"%string ∉ opened_libraries s.
Proof. eexists. split; [vm_compute; reflexivity|]. split; [vm_compute; reflexivity|]. by intros [[=]|[]%elem_of_nil]%elem_of_cons. Qed.

(** [IsLibraryLoaded] looks whether anybody has loaded the library: a loader that
    unloaded it does not load it again when it is asked for an object. *)
Theorem unloaded_loader_makes_nothing :
  ∃ s, run two_libraries init [New 0 "libA"; New 1 "libA"; Unload 1]%string = Some s ∧
    util_IsLibraryLoaded "libA" 1 s = true ∧ CreateClassObj two_libraries 1 ("Base", "A")%string 7 s = Some (false, s).
Proof. eexists. split; [vm_compute; reflexivity|]. split; vm_compute; reflexivity. Qed.

(** With nobody else it does. *)
Theorem unloaded_loader_loads_again :
  ∃ s s', run two_libraries init [New 0 "libA"; Unload 0]%string = Some s ∧
    CreateClassObj two_libraries 0 ("Base", "A")%string 7 s = Some (true, s').
Proof. eexists _, _. split; [vm_compute; reflexivity|]. vm_compute; reflexivity. Qed.
