(* ===== verification/Mainboard.v ===== *)
(** * The class loader manager and the module controller

    [ClassLoaderManager] ([src/code/cyber/class_loader/class_loader_manager.h],
    [class_loader_manager.cc]) keeps a loader for every library; the
    [ModuleController] of the main program ([mainboard/module_controller.h],
    [module_controller.cc]) reads the configuration, loads the libraries, makes
    and initialises the components, and takes them down.  File names are put
    together by [common/file.cc] and [common/environment.h].  The file system,
    the parser and what the classes do are parameters. *)

From stdpp Require Import base list strings sorting gmap fin_maps.
From Stdlib Require Import Ascii.
From S2P Require Import Prelude GlobalData ClassLoader.

(** ** File names ([common/file.cc]) *)

Definition slash : ascii := "/"%char.
Definition front (s : string) : option ascii := String.get 0 s.
Definition back (s : string) : option ascii := String.get (String.length s - 1) s.

Definition GetAbsolutePath (prefix relative_path : string) : string :=
  if decide (relative_path = ""%string) then prefix
  else if decide (prefix = ""%string ∨ front relative_path = Some slash) then relative_path
  else if decide (back prefix = Some slash) then (prefix +:+ relative_path)%string
  else (prefix +:+ "/" +:+ relative_path)%string.

(** [rfind]: the last place of a character. *)
Fixpoint rfind (c : ascii) (s : string) : option nat :=
  match s with
  | EmptyString => None
  | String d s => match rfind c s with Some i => Some (S i) | None => if decide (d = c) then Some O else None end
  end.

Definition substr (s : string) (start : nat) (len : option nat) : string :=
  String.substring start (default (String.length s) len) s.

Definition GetFileName (path : string) (remove_extension : bool) : string :=
  let start := match rfind slash path with None => 0%nat | Some i => S i end in
  let end_ := if remove_extension
              then match rfind "."%char path with Some e => if decide (e < start)%nat then None else Some e | None => None end
              else None in
  substr path start ((λ e, e - start)%nat <$> end_).

(** [WorkRoot] of the value of CYBER_PATH ([common/environment.h]). *)
Definition WorkRoot (var : option string) : string :=
  let work_root := default ""%string var in if decide (work_root = ""%string) then "/apollo/cyber"%string else work_root.

(** ** [ClassLoaderManager]

    [next_loader] is the address that the next [new ClassLoader] gives;
    [process] is what all loaders share.  The result None is a call on a null
    pointer. *)

Record ClassLoaderManager := mkManager { libpath_loader_map_ : gmap string (option nat); next_loader : nat; process : st }.

Definition with_map (lm : gmap string (option nat)) (m : ClassLoaderManager) : ClassLoaderManager := mkManager lm (next_loader m) (process m).
Definition with_process (s : st) (m : ClassLoaderManager) : ClassLoaderManager := mkManager (libpath_loader_map_ m) (next_loader m) s.

Section Manager.
Context (exports : string → option (list (string * string))).

(** The map is ordered by path. *)
Definition sorted_paths (m : ClassLoaderManager) : list string := merge_sort String.le (elements (dom (libpath_loader_map_ m))).
Definition loader_of (m : ClassLoaderManager) (p : string) : option nat := default None (libpath_loader_map_ m !! p).

(** [operator[]] puts a null pointer where there is nothing. *)
Definition GetClassLoaderByLibPath (p : string) (m : ClassLoaderManager) : option nat * ClassLoaderManager :=
  (loader_of m p, with_map (<[p := loader_of m p]> (libpath_loader_map_ m)) m).

Definition GetAllValidClassLoaders (m : ClassLoaderManager) : list (option nat) := loader_of m <$> sorted_paths m.
Definition GetAllValidLibPath (m : ClassLoaderManager) : list string := filter (λ p, loader_of m p ≠ None) (sorted_paths m).
Definition IsLibraryValid (p : string) (m : ClassLoaderManager) : bool := bool_decide (p ∈ GetAllValidLibPath m).

Definition manager_LoadLibrary (p : string) (m : ClassLoaderManager) : option (bool * ClassLoaderManager) :=
  if IsLibraryValid p m then Some (IsLibraryValid p m, m)
  else
    '(_, s) ← ClassLoader_new exports (next_loader m) p (process m);
    let m := mkManager (<[p := Some (next_loader m)]> (libpath_loader_map_ m)) (S (next_loader m)) s in
    Some (IsLibraryValid p m, m).

Definition manager_UnloadLibrary (p : string) (m : ClassLoaderManager) : option (Z * ClassLoaderManager) :=
  if IsLibraryValid p m then
    let '(c, m) := GetClassLoaderByLibPath p m in
    c ← c;
    '(num_remain_unload, s) ← UnloadLibrary c (process m);
    if num_remain_unload =? 0 then
      let m := with_map (<[p := None]> (libpath_loader_map_ m)) m in
      s ← ClassLoader_delete c s; Some (num_remain_unload, with_process s m)
    else Some (num_remain_unload, with_process s m)
  else Some (0, m).

Definition UnloadAllLibrary (m : ClassLoaderManager) : option ClassLoaderManager :=
  foldl (λ m p, m ← m; snd <$> manager_UnloadLibrary p m) (Some m) (GetAllValidLibPath m).

(** The loop of [CreateClassObj]: the first loader with the class. *)
Fixpoint find_loader (k : string * string) (s : st) (ls : list (option nat)) : option (option nat) :=
  match ls with
  | [] => Some None
  | None :: _ => None
  | Some l :: ls => if IsClassValid k.1 k.2 l s then Some (Some l) else find_loader k s ls
  end.

Definition manager_CreateClassObj (k : string * string) (o : nat) (m : ClassLoaderManager) : option (bool * ClassLoaderManager) :=
  l ← find_loader k (process m) (GetAllValidClassLoaders m);
  match l with
  | Some l => '(b, s) ← CreateClassObj exports l k o (process m); Some (b, with_process s m)
  | None => Some (false, m)
  end.

Definition manager_CreateClassObj_in (k : string * string) (p : string) (o : nat) (m : ClassLoaderManager) : option (bool * ClassLoaderManager) :=
  let '(c, m) := GetClassLoaderByLibPath p m in
  match c with
  | Some l => '(b, s) ← CreateClassObj exports l k o (process m); Some (b, with_process s m)
  | None => Some (false, m)
  end.

Definition manager_GetValidClassNames (base : string) (m : ClassLoaderManager) : option (list string) :=
  foldl (λ r l, r ← r; l ← l; Some (r ++ elements (GetValidClassNames base l (process m)))) (Some []) (GetAllValidClassLoaders m).
Definition manager_IsClassValid (base name : string) (m : ClassLoaderManager) : option bool :=
  (λ ns, bool_decide (name ∈ ns)) <$> manager_GetValidClassNames base m.

Definition manager_init : ClassLoaderManager := mkManager ∅ 0 init.

(** ** What holds of a manager alone in its process *)

Context (distinct : ∀ p p' ks ks' k, exports p = Some ks → exports p' = Some ks' → k ∈ ks → k ∈ ks' → p = p').
Context (exports_some : ∀ p ks, exports p = Some ks → ks ≠ []).

Notation held := ClassLoader.held.

Record minv (m : ClassLoaderManager) : Prop := {
  mi_inv : inv exports (process m);
  mi_map p l : libpath_loader_map_ m !! p = Some (Some l) → ∃ c, loaders (process m) !! l = Some c ∧ library_path_ c = p ∧ 0 < loadlib_ref_count_ c ∧
    (is_Some (exports p) → loadlib_ref_count_ c = 1);
  mi_loader l c : loaders (process m) !! l = Some c → libpath_loader_map_ m !! library_path_ c = Some (Some l);
  mi_next l : is_Some (loaders (process m) !! l) → (l < next_loader m)%nat;
  mi_open p : p ∈ opened_libraries (process m) → is_Some (exports p);
}.

Lemma valid_path p m : p ∈ GetAllValidLibPath m ↔ ∃ l, libpath_loader_map_ m !! p = Some (Some l).
Proof using Type.
  clear distinct exports_some exports. unfold GetAllValidLibPath, sorted_paths, loader_of. rewrite list_elem_of_filter, merge_sort_Permutation, elem_of_elements, elem_of_dom.
  destruct (libpath_loader_map_ m !! p) as [[l|]|]; simpl; naive_solver.
Qed.

Lemma minv_init : minv manager_init.
Proof using Type.
  clear distinct exports_some. split; simpl; [apply inv_init|done|done|by intros l [c H]|by intros p ?%elem_of_nil].
Qed.

Lemma minv_held m p l : minv m → libpath_loader_map_ m !! p = Some (Some l) ↔ held (process m) l p.
Proof using Type.
  clear distinct exports_some. intros Hm. split.
  - intros H. destruct (mi_map _ Hm p l H) as (c & Hc & Hp & H0 & _). by exists c.
  - intros (c & Hc & <- & _). by apply (mi_loader _ Hm).
Qed.

Lemma minv_opened m p l ks : minv m → libpath_loader_map_ m !! p = Some (Some l) → exports p = Some ks → p ∈ opened_libraries (process m).
Proof using exports_some.
  clear distinct. intros Hm Hp Hks. apply (minv_held m p l Hm) in Hp. destruct ks as [|k ks]; [by destruct (exports_some p [])|].
  eapply (iv_closed _ _ (mi_inv _ Hm) p l); [done|left|done].
Qed.

Lemma minv_LoadLibrary m p : minv m → ∃ m', manager_LoadLibrary p m = Some (true, m') ∧ minv m' ∧ objects (process m') = objects (process m) ∧
  (∃ l, libpath_loader_map_ m' !! p = Some (Some l)) ∧ (∀ q, q ≠ p → libpath_loader_map_ m' !! q = libpath_loader_map_ m !! q).
Proof using distinct.
  clear exports_some. intros Hm. unfold manager_LoadLibrary, IsLibraryValid. case_bool_decide as Hv; [exists m; split; [done|]; split; [done|]; split; [done|]; split; [by apply valid_path|done]|].
  rewrite valid_path in Hv. set (l := next_loader m).
  assert (Hl : loaders (process m) !! l = None) by (apply eq_None_not_Some; intros H; apply (mi_next _ Hm) in H; lia).
  destruct (inv_ClassLoader_new exports distinct (process m) l p (mi_inv _ Hm) Hl) as (b & s & E & Hs & Ho). rewrite E. simpl.
  destruct (LoadLibrary_frame exports _ l (mkLoader p 0 0) b s (lookup_insert_eq _ _ _) E) as (H1 & _ & _ & H4). simpl in H1. rewrite insert_insert_eq in H1.
  set (m' := mkManager _ _ s). rewrite bool_decide_eq_true_2 by (apply valid_path; exists l; simpl; by rewrite lookup_insert_eq). eexists. split; [done|]. split; [|split; [done|split]].
  - split; simpl.
    + done.
    + intros q l'. destruct (decide (q = p)) as [->|Hq].
      * rewrite lookup_insert_eq. intros [= <-]. rewrite H1, lookup_insert_eq. eexists. split; [done|]. simpl. split_and!; [done|lia|done].
      * rewrite lookup_insert_ne by done. intros H. destruct (mi_map _ Hm q l' H) as (c & Hc & H2). exists c. split; [|done]. rewrite H1, lookup_insert_ne; [done|]. intros <-. by rewrite Hl in Hc.
    + intros l' c. rewrite H1, lookup_insert_Some. intros [[<- <-]|[Hne H]]; simpl; [by rewrite lookup_insert_eq|]. apply (mi_loader _ Hm) in H as H'.
      rewrite lookup_insert_ne; [done|]. intros Ep. apply Hv. exists l'. by rewrite Ep.
    + intros l'. rewrite H1, lookup_insert_is_Some. intros [<-|[_ H%(mi_next _ Hm)]]; subst l; lia.
    + intros q Hq%H4. destruct Hq as [Hq|Hq]; [by apply (mi_open _ Hm)|done].
  - exists l. simpl. by rewrite lookup_insert_eq.
  - intros q Hq. simpl. by rewrite lookup_insert_ne.
Qed.

(** A library that stays loaded has an object, or could not be opened. *)
Definition settled (p : string) (m : ClassLoaderManager) : Prop :=
  ∀ l, libpath_loader_map_ m !! p = Some (Some l) → exports p = None ∨ ∃ o, objects (process m) !! o = Some (l, p).

Lemma minv_UnloadLibrary m p : minv m → ∃ n m', manager_UnloadLibrary p m = Some (n, m') ∧ minv m' ∧ objects (process m') = objects (process m) ∧
  (∀ q, q ≠ p → libpath_loader_map_ m' !! q = libpath_loader_map_ m !! q) ∧ settled p m'.
Proof using distinct.
  clear exports_some. intros Hm. unfold manager_UnloadLibrary, IsLibraryValid. case_bool_decide as Hv; rewrite valid_path in Hv.
  2:{ eexists _, m. split; [done|]. split; [done|]. split; [done|]. split; [done|]. intros l H. destruct Hv. by exists l. }
  destruct Hv as [l Hl]. unfold GetClassLoaderByLibPath, loader_of. rewrite Hl. cbn [default from_option id mbind option_bind process with_map libpath_loader_map_]. rewrite (insert_id _ _ _ Hl).
  destruct (mi_map _ Hm p l Hl) as (c & Hc & Hp & H0 & H1).
  destruct (inv_UnloadLibrary exports distinct _ l c (mi_inv _ Hm) Hc) as (n & s & E & Hs & Ho & c' & Hc' & Hn & Hob & Hn0 & Hpos).
  destruct (UnloadLibrary_frame _ l c n s Hc E) as ((c2 & Hl2 & Hp2) & _ & Hopen). assert (c2 = c') as -> by (rewrite Hl2, lookup_insert_eq in Hc'; congruence).
  rewrite E. cbn [mbind option_bind]. destruct (Z.eqb_spec n 0) as [Hz|Hz].
  - (* the loader is deleted *)
    assert (Hc0 : classobj_ref_count_ c = 0).
    { destruct (iv_loader _ _ (mi_inv _ Hm) l c Hc) as [_ Hcnt]. unfold object_count in Hcnt. destruct (decide (0 < classobj_ref_count_ c)) as [H|]; [|lia].
      specialize (Hpos H). rewrite Hpos in Hc'. rewrite Hc in Hc'. injection Hc' as <-. lia. }
    destruct (inv_ClassLoader_delete exports distinct s l c' Hs Hc') as (s' & E' & Hs' & Ho'); [lia|lia|]. unfold with_map. cbn [process]. rewrite E'. eexists _, _. split; [done|].
    unfold ClassLoader_delete in E'. destruct (UnloadLibrary l s) as [[n' s1]|] eqn:E1; [|done]. injection E' as <-.
    destruct (UnloadLibrary_frame _ l c' n' s1 Hc' E1) as ((c3 & Hl3 & _) & _ & Hopen'). cbn [with_process libpath_loader_map_ next_loader process objects with_loaders].
    assert (Hld : delete l (loaders s1) = delete l (loaders (process m))) by (rewrite Hl3, Hl2, insert_insert_eq; apply delete_insert_eq).
    split; [|split; [simpl in Ho'; by rewrite Ho'|split; [intros q Hq; simpl; by rewrite lookup_insert_ne|intros l'; simpl; by rewrite lookup_insert_eq]]].
    split; cbn [with_process libpath_loader_map_ next_loader process loaders opened_libraries with_loaders]; rewrite ?Hld.
    + by rewrite <- Hld.
    + intros q l'. rewrite lookup_insert_Some. intros [[_ [=]]|[Hq H]]. destruct (mi_map _ Hm q l' H) as (c4 & Hc4 & H4 & H5). exists c4. split; [|done].
      rewrite lookup_delete_ne; [done|]. intros ->. congruence.
    + intros l' c4 [Hne H]%lookup_delete_Some. apply (mi_loader _ Hm) in H. rewrite lookup_insert_ne; [done|]. intros E4. rewrite <- E4 in H. congruence.
    + intros l' [_ H]%lookup_delete_is_Some. by apply (mi_next _ Hm).
    + intros q Hq. by apply (mi_open _ Hm), Hopen, Hopen'.
  - (* it stays *)
    eexists _, _. split; [done|]. split; [|split; [done|split; [done|]]].
    + split; cbn [with_process libpath_loader_map_ next_loader process].
      * done.
      * intros q l' H. destruct (mi_map _ Hm q l' H) as (c4 & Hc4 & H4 & H5 & H6). rewrite Hl2. destruct (decide (l' = l)) as [->|Hne].
        -- rewrite Hc in Hc4. injection Hc4 as <-. exists c'. rewrite lookup_insert_eq. split_and!; [done|congruence| |].
           ++ destruct (iv_loader _ _ Hs l c' Hc') as [? _]. lia.
           ++ intros Hx. specialize (H6 Hx). destruct (decide (0 < classobj_ref_count_ c)) as [Hlive|]; [specialize (Hpos Hlive); rewrite Hpos in Hc'; congruence|].
              destruct (iv_loader _ _ (mi_inv _ Hm) l c Hc) as [_ Hcnt]. unfold object_count in Hcnt. assert (classobj_ref_count_ c = 0) as H7 by lia. specialize (Hn0 H7). lia.
        -- exists c4. by rewrite lookup_insert_ne.
      * intros l' c4. rewrite Hl2, lookup_insert_Some. intros [[<- <-]|[_ H]]; [by rewrite Hp2; apply (mi_loader _ Hm)|by apply (mi_loader _ Hm)].
      * intros l'. rewrite Hl2, lookup_insert_is_Some. intros [<-|[_ H]]; apply (mi_next _ Hm); [by exists c|done].
      * intros q Hq. by apply (mi_open _ Hm), Hopen.
    + intros l' H. cbn [with_process with_map libpath_loader_map_ process] in *. assert (l' = l) as -> by congruence. destruct (exports p) eqn:Ex; [right|by left].
      destruct (iv_loader _ _ (mi_inv _ Hm) l c Hc) as [_ Hcnt].
      assert (Hx : classobj_ref_count_ c ≠ 0) by (intros H7; specialize (Hn0 H7); rewrite H1 in Hn0 by (by eexists); lia).
      rewrite Hcnt in Hx. unfold object_count in Hx. destruct (map_choose (filter (λ x : nat * (nat * string), x.2.1 = l) (objects (process m)))) as (o & [l' q] & [Hoq Hl']%map_lookup_filter_Some);
        [intros E0; rewrite E0, map_size_empty in Hx; lia|]. simpl in Hl'. subst l'. exists o. rewrite Ho, Hoq. destruct (iv_object _ _ (mi_inv _ Hm) o l q Hoq) as [(c4 & Hc4 & <- & _) _]. congruence.
Qed.

Lemma unload_each ps : ∀ m, minv m → ∃ m', foldl (λ m p, m ← m; snd <$> manager_UnloadLibrary p m) (Some m) ps = Some m' ∧ minv m' ∧
  objects (process m') = objects (process m) ∧ (∀ p, p ∉ ps → libpath_loader_map_ m' !! p = libpath_loader_map_ m !! p) ∧ ∀ p, p ∈ ps → settled p m'.
Proof using distinct.
  clear exports_some. induction ps as [|p ps IH] using rev_ind; intros m Hm; [exists m; split_and!; try done; by intros p ?%elem_of_nil|].
  destruct (IH m Hm) as (m1 & E1 & Hm1 & Ho1 & Hsame & Hset). rewrite foldl_app, E1. simpl. destruct (minv_UnloadLibrary m1 p Hm1) as (n & m2 & E2 & Hm2 & Ho2 & Hsame2 & Hset2).
  rewrite E2. exists m2. split; [done|]. split; [done|]. split; [congruence|]. split.
  - intros q Hq. rewrite Hsame2 by set_solver. apply Hsame. set_solver.
  - intros q Hq. destruct (decide (q = p)) as [->|Hne]; [done|]. intros l. rewrite Hsame2, Ho2 by done. apply Hset. set_solver.
Qed.

Lemma unload_all_objects m : minv m → ∃ m', UnloadAllLibrary m = Some m' ∧ minv m' ∧ objects (process m') = objects (process m) ∧
  ∀ p, p ∈ opened_libraries (process m') ↔ ∃ o l, objects (process m) !! o = Some (l, p).
Proof using distinct.
  clear exports_some. intros Hm. destruct (unload_each (GetAllValidLibPath m) m Hm) as (m' & E & Hm' & Ho & Hsame & Hset). exists m'. split_and!; try done.
  intros p. rewrite <- Ho. split.
  - intros Hp. destruct (iv_held _ _ (mi_inv _ Hm') p Hp) as [l Hl]. apply (minv_held m' p l Hm') in Hl.
    assert (Hs : settled p m').
    { destruct (decide (p ∈ GetAllValidLibPath m)) as [Hv|Hv]; [by apply Hset|]. rewrite valid_path in Hv. rewrite Hsame in Hl by (by rewrite valid_path). destruct Hv. by exists l. }
    destruct (Hs l Hl) as [Hx|[o Hx]]; [|by exists o, l]. destruct (mi_open _ Hm' p Hp) as [ks Hks]. congruence.
  - intros (o & l & Hol). destruct (iv_object _ _ (mi_inv _ Hm') o l p Hol) as [Hh (ks & k & Hks & Hk)]. by eapply (iv_closed _ _ (mi_inv _ Hm') p l).
Qed.

Definition no_null (m : ClassLoaderManager) : Prop := ∀ p, libpath_loader_map_ m !! p ≠ Some None.

(** The library of a loader that has a class. *)
Lemma valid_class m k l : minv m → is_Some (loaders (process m) !! l) →
  IsClassValid k.1 k.2 l (process m) = true → ∃ p ks, libpath_loader_map_ m !! p = Some (Some l) ∧ exports p = Some ks ∧ k ∈ ks.
Proof using Type.
  clear distinct exports_some. intros Hm _. unfold IsClassValid, GetValidClassNames. rewrite bool_decide_eq_true, elem_of_map. intros (k' & Hk2 & Hk').
  apply elem_of_dom in Hk' as [f [Hf [Hk1 Hown]]%map_lookup_filter_Some]. simpl in Hk1. assert (k' = k) as -> by (destruct k, k'; simpl in *; congruence).
  apply bool_decide_eq_true in Hown. destruct (iv_factory _ _ (mi_inv _ Hm) k f Hf) as (_ & (ks & Hks & Hk) & _ & Hheld). apply Hheld in Hown.
  exists (relative_library_path_ f), ks. by rewrite (minv_held m _ l Hm).
Qed.

Lemma find_loader_valid k s ls l : find_loader k s ls = Some (Some l) → Some l ∈ ls ∧ IsClassValid k.1 k.2 l s = true.
Proof using Type. induction ls as [|[l'|] ls IH]; simpl; [done| |done]. destruct (IsClassValid _ _ l' s) eqn:E; [intros [= ->]; split; [left|done]|]. intros [? ?]%IH. split; [by right|done]. Qed.

Lemma find_loader_total k s ls : None ∉ ls → ∃ r, find_loader k s ls = Some r ∧ (r = None → ∀ l, Some l ∈ ls → IsClassValid k.1 k.2 l s = false).
Proof using Type.
  clear distinct exports_some exports. induction ls as [|[l'|] ls IH]; intros Hn; [exists None; split; [done|by intros _ l ?%elem_of_nil]| |set_solver]. simpl.
  destruct (IsClassValid _ _ l' s) eqn:E; [by exists (Some l')|]. destruct IH as (r & -> & Hr); [set_solver|]. exists r. split; [done|].
  intros Hr0 l [[= ->]|Hl]%elem_of_cons; [done|by apply Hr].
Qed.

Lemma valid_loaders m l : no_null m → Some l ∈ GetAllValidClassLoaders m ↔ ∃ p, libpath_loader_map_ m !! p = Some (Some l).
Proof using Type.
  clear distinct exports_some exports. intros Hn. unfold GetAllValidClassLoaders, sorted_paths, loader_of. rewrite list_elem_of_fmap. split.
  - intros (p & Hp & _). exists p. destruct (libpath_loader_map_ m !! p) as [[l'|]|]; simpl in Hp; congruence.
  - intros [p Hp]. exists p. rewrite Hp, merge_sort_Permutation, elem_of_elements, elem_of_dom. split; [done|by eexists].
Qed.

Lemma valid_loaders_some m : no_null m → None ∉ GetAllValidClassLoaders m.
Proof using Type.
  clear distinct exports_some exports. intros Hn. unfold GetAllValidClassLoaders, sorted_paths, loader_of. rewrite list_elem_of_fmap. intros (p & Hp & Hin).
  rewrite merge_sort_Permutation, elem_of_elements, elem_of_dom in Hin. destruct Hin as [[l|] Hx]; [by rewrite Hx in Hp|by apply Hn in Hx].
Qed.

Definition provided (m : ClassLoaderManager) (k : string * string) : Prop := ∃ p l ks, libpath_loader_map_ m !! p = Some (Some l) ∧ exports p = Some ks ∧ k ∈ ks.

(** A class is made exactly when a library that is loaded has it. *)
Lemma minv_CreateClassObj m k o : minv m → no_null m → objects (process m) !! o = None → ∃ b m', manager_CreateClassObj k o m = Some (b, m') ∧ minv m' ∧
  libpath_loader_map_ m' = libpath_loader_map_ m ∧ (b = true ↔ provided m k) ∧
  if b then ∃ x, objects (process m') = <[o := x]> (objects (process m)) else m' = m.
Proof using distinct exports_some.
  intros Hm Hn Ho. unfold manager_CreateClassObj. destruct (find_loader_total k (process m) (GetAllValidClassLoaders m)) as (r & E & Hr); [by apply valid_loaders_some|].
  rewrite E. simpl. destruct r as [l|].
  - apply find_loader_valid in E as [(p0 & Hp0)%valid_loaders Hv]; [|done]. destruct (mi_map _ Hm p0 l Hp0) as (c & Hc & Hpc & Hc0 & Hc1).
    destruct (valid_class m k l Hm) as (p & ks & Hp & Hks & Hk); [by exists c|done|]. assert (p0 = p) as ->.
    { destruct (mi_map _ Hm p l Hp) as (c2 & Hc2 & <- & _). congruence. }
    destruct (held_makes_objects exports distinct (process m) l p ks k o (mi_inv _ Hm)) as [_ (s & Ec & Hos)]; [by apply (minv_held m)|done|done|done|].
    rewrite Ec. simpl. eexists true, _. split; [done|]. split; [|split; [done|split; [split; [intros _; by exists p, l, ks|done]|by eexists]]].
    destruct (CreateClassObj_frame exports _ l c k o true s Hc Ec) as ((c' & Hl' & Hpc' & Hle & Hsame) & _ & _ & Hopen).
    assert (Hpo : library_path_ c ∈ opened_libraries (process m)) by (rewrite Hpc; by eapply minv_opened). specialize (Hsame Hpo).
    destruct (inv_CreateClassObj exports distinct (process m) l c k o (mi_inv _ Hm) Hc Ho) as (b' & s' & Ec' & Hs'). rewrite Ec in Ec'. injection Ec' as <- <-.
    split; cbn [with_process process libpath_loader_map_ next_loader]; try done.
    + intros q l' H. rewrite Hl'. destruct (decide (l' = l)) as [->|Hne].
      * rewrite lookup_insert_eq. exists c'. destruct (mi_map _ Hm q l H) as (c2 & Hc2 & H2 & H3 & H4). rewrite Hc in Hc2. injection Hc2 as <-. split_and!; [done|congruence|lia|]. intros Hx. rewrite Hsame. by apply H4.
      * rewrite lookup_insert_ne by done. by apply (mi_map _ Hm).
    + intros l' c2. rewrite Hl', lookup_insert_Some. intros [[<- <-]|[_ H]]; [by rewrite Hpc', Hpc|by apply (mi_loader _ Hm)].
    + intros l'. rewrite Hl', lookup_insert_is_Some. intros [<-|[_ H]]; apply (mi_next _ Hm); [by exists c|done].
    + intros q [Hq|Hq]%Hopen; [by apply (mi_open _ Hm)|done].
  - exists false, m. split; [done|]. split; [done|]. split; [done|]. split; [|done]. split; [done|]. intros (p & l & ks & Hp & Hks & Hk).
    destruct (held_makes_objects exports distinct (process m) l p ks k o (mi_inv _ Hm)) as [Hv _]; [by apply (minv_held m)|done|done|done|].
    rewrite (Hr eq_refl l) in Hv; [done|]. apply valid_loaders; [done|]. by exists p.
Qed.

Lemma minv_Drop m o : minv m → is_Some (objects (process m) !! o) → ∃ s, OnClassObjDeleter o (process m) = Some s ∧ minv (with_process s m) ∧
  objects s = delete o (objects (process m)).
Proof using distinct.
  clear exports_some. intros Hm Ho. destruct (inv_OnClassObjDeleter exports distinct (process m) o (mi_inv _ Hm) Ho) as (s & E & Hs). exists s. split; [done|].
  unfold OnClassObjDeleter in E. destruct (objects (process m) !! o) as [[l p]|]; [|done]. destruct (loaders (process m) !! l) as [c|] eqn:Hc; [|done]. injection E as <-.
  split; [|done]. split; cbn [with_process process libpath_loader_map_ next_loader loaders opened_libraries with_objects with_loaders].
  - done.
  - intros q l' H. destruct (mi_map _ Hm q l' H) as (c2 & Hc2 & H2). destruct (decide (l' = l)) as [->|Hne]; [|by rewrite lookup_insert_ne; eauto].
    rewrite lookup_insert_eq. rewrite Hc in Hc2. injection Hc2 as <-. by eexists.
  - intros l' c2. rewrite lookup_insert_Some. intros [[<- <-]|[_ H]]; [by apply (mi_loader _ Hm l c)|by apply (mi_loader _ Hm)].
  - intros l'. rewrite lookup_insert_is_Some. intros [<-|[_ H]]; apply (mi_next _ Hm); [by exists c|done].
  - apply (mi_open _ Hm).
Qed.
End Manager.

(** ** [ModuleController] *)

Record ComponentInfo := mkInfo { class_name : string; config_name : string; init_ok : bool }.
Record ModuleConfig := mkModule { module_library : string; components : list ComponentInfo; timer_components : list ComponentInfo }.
Definition DagConfig := list ModuleConfig.

(** [shut_down]: the components in the order of their [Shutdown]. *)
Record ModuleController := mkController {
  total_component_nums : Z; has_timer_component : bool; class_loader_manager_ : ClassLoaderManager; component_list_ : list nat;
  node_component_map_ : gmap string nat; component_nums_ : Z; next_object : nat; shut_down : list nat }.

Definition with_manager (m : ClassLoaderManager) (c : ModuleController) : ModuleController :=
  mkController (total_component_nums c) (has_timer_component c) m (component_list_ c) (node_component_map_ c) (component_nums_ c) (next_object c) (shut_down c).

Lemma registered_component (nm nm' : component_map (P := nat)) n p b : RegisterComponent nm n p = (b, nm') →
  ∀ n' o, nm' !! n' = Some o → nm !! n' = Some o ∨ p = Some o.
Proof.
  unfold RegisterComponent. intros H n' o Hn'. destruct p as [c|]; [|injection H as _ <-; by left].
  destruct (decide (n = EmptyString)); [injection H as _ <-; by left|]. destruct (nm !! n); injection H as _ <-; [by left|].
  unfold component_map in *. apply (lookup_insert_Some (M := gmap string)) in Hn' as [[_ ->]|[_ Hn']]; [by right|by left].
Qed.

Section Controller.
Context (exports : string → option (list (string * string))) (TaskPoolSize : Z).
(** The file system: the variable CYBER_PATH, the current directory, which paths
    are there, and what a file of configuration says.  [init_ok] is what
    [Initialize] of the component returns with its configuration. *)
Context (CYBER_PATH : option string) (GetCurrentPath : string) (PathExists : string → bool) (GetProtoFromFile : string → option DagConfig).

Definition work_root : string := WorkRoot CYBER_PATH.

(** The body of the two loops of [LoadModule].  [Initialize] is the code of the
    component: whether it succeeds is taken to depend on its entry of the
    configuration alone, not on what was loaded before. *)
Definition LoadComponent (i : ComponentInfo) (c : ModuleController) : option (bool * ModuleController) :=
  let base := next_object c in
  '(made, m) ← manager_CreateClassObj exports ("ComponentBase"%string, class_name i) base (class_loader_manager_ c);
  if (made : bool) then
    if init_ok i then
      let '(_, nm) := RegisterComponent (node_component_map_ c) (config_name i) (Some base) in
      Some (true, mkController (total_component_nums c) (has_timer_component c) m (component_list_ c ++ [base]) nm (component_nums_ c) (S base) (shut_down c))
    else s ← OnClassObjDeleter base (process m); Some (false, with_manager (with_process s m) c)
  else Some (false, with_manager m c).

Fixpoint LoadComponents (infos : list ComponentInfo) (c : ModuleController) : option (bool * ModuleController) :=
  match infos with
  | [] => Some (true, c)
  | i :: infos => '(b, c) ← LoadComponent i c; if (b : bool) then LoadComponents infos c else Some (false, c)
  end.

Definition load_path (mc : ModuleConfig) : string :=
  if decide (front (module_library mc) = Some slash) then module_library mc else GetAbsolutePath work_root (module_library mc).

Fixpoint LoadModule (dag_config : DagConfig) (c : ModuleController) : option (bool * ModuleController) :=
  match dag_config with
  | [] => Some (true, c)
  | mc :: dag_config =>
      if PathExists (load_path mc) then
        '(_, m) ← manager_LoadLibrary exports (load_path mc) (class_loader_manager_ c);
        '(b, c) ← LoadComponents (components mc) (with_manager m c);
        if (b : bool) then
          '(b, c) ← LoadComponents (timer_components mc) c;
          if (b : bool) then LoadModule dag_config c else Some (false, c)
        else Some (false, c)
      else Some (false, c)
  end.

Definition LoadModule_file (path : string) (c : ModuleController) : option (bool * ModuleController) :=
  match GetProtoFromFile path with None => Some (false, c) | Some d => LoadModule d c end.

Definition GetComponentNum (path : string) (c : ModuleController) : Z * ModuleController :=
  match GetProtoFromFile path with
  | None => (0, c)
  | Some d =>
      (foldr Z.add 0 ((λ mc, Z.of_nat (length (components mc))) <$> d),
       mkController (total_component_nums c) (has_timer_component c || existsb (λ mc, (0 <? length (timer_components mc))%nat) d) (class_loader_manager_ c)
         (component_list_ c) (node_component_map_ c) (component_nums_ c) (next_object c) (shut_down c))
  end.

Definition module_path (dag_conf : string) : string :=
  if decide (dag_conf = GetFileName dag_conf false) then GetAbsolutePath (GetAbsolutePath work_root "dag") dag_conf
  else if decide (front dag_conf = Some slash) then dag_conf
  else let p := GetAbsolutePath GetCurrentPath dag_conf in if PathExists p then p else GetAbsolutePath work_root dag_conf.

(** The first loop of [LoadAll]. *)
Definition count_components (paths : list string) (c : ModuleController) : ModuleController :=
  foldl (λ c p, let '(n, c) := GetComponentNum p c in
    mkController (total_component_nums c + n) (has_timer_component c) (class_loader_manager_ c) (component_list_ c) (node_component_map_ c) (component_nums_ c) (next_object c) (shut_down c)) c paths.

Fixpoint load_files (paths : list string) (c : ModuleController) : option (bool * ModuleController) :=
  match paths with
  | [] => Some (true, c)
  | p :: paths => '(b, c) ← LoadModule_file p c; if (b : bool) then load_files paths c else Some (false, c)
  end.

Definition LoadAll (args : list string) (c : ModuleController) : option (bool * ModuleController) :=
  let paths := module_path <$> args in
  let c := count_components paths c in
  let total := total_component_nums c + (if has_timer_component c then TaskPoolSize else 0) in
  load_files paths (mkController total (has_timer_component c) (class_loader_manager_ c) (component_list_ c) (node_component_map_ c) total (next_object c) (shut_down c)).

(** [clear] of the list: an object goes when no other pointer is left. *)
Definition release (kept : gmap string nat) (m : option ClassLoaderManager) (o : nat) : option ClassLoaderManager :=
  m ← m; if decide (o ∈ (map_to_list kept).*2) then Some m else s ← OnClassObjDeleter o (process m); Some (with_process s m).

Definition Clear (c : ModuleController) : option ModuleController :=
  m ← foldl (release (node_component_map_ c)) (Some (class_loader_manager_ c)) (component_list_ c);
  m ← UnloadAllLibrary m;
  Some (mkController (total_component_nums c) (has_timer_component c) m [] (node_component_map_ c) (component_nums_ c) (next_object c) (shut_down c ++ component_list_ c)).

Definition controller_init : ModuleController := mkController 0 false manager_init [] ∅ 0 0 [].

(** ** What the controller does *)

Context (distinct : ∀ p p' ks ks' k, exports p = Some ks → exports p' = Some ks' → k ∈ ks → k ∈ ks' → p = p').
Context (exports_some : ∀ p ks, exports p = Some ks → ks ≠ []).

Record cinv (c : ModuleController) : Prop := {
  ci_manager : minv exports (class_loader_manager_ c);
  ci_null : no_null (class_loader_manager_ c);
  ci_objects o : is_Some (objects (process (class_loader_manager_ c)) !! o) ↔ o ∈ component_list_ c;
  ci_nodup : NoDup (component_list_ c);
  ci_named n o : node_component_map_ c !! n = Some o → o ∈ component_list_ c;
  ci_next o : o ∈ component_list_ c → (o < next_object c)%nat;
}.

Lemma cinv_init : cinv controller_init.
Proof using Type.
  clear GetCurrentPath PathExists GetProtoFromFile TaskPoolSize CYBER_PATH.
  clear distinct exports_some. split; simpl; [apply minv_init|done| |apply NoDup_nil_2|done|by intros o ?%elem_of_nil].
  intros o. split; [by intros [x H]|by intros ?%elem_of_nil].
Qed.

Lemma LoadComponent_spec i c : cinv c → ∃ b c', LoadComponent i c = Some (b, c') ∧ cinv c' ∧
  libpath_loader_map_ (class_loader_manager_ c') = libpath_loader_map_ (class_loader_manager_ c) ∧
  (b = true ↔ provided exports (class_loader_manager_ c) ("ComponentBase"%string, class_name i) ∧ init_ok i = true) ∧
  length (component_list_ c') = (length (component_list_ c) + if b then 1 else 0)%nat.
Proof using distinct exports_some.
  clear GetCurrentPath PathExists GetProtoFromFile TaskPoolSize CYBER_PATH.
  intros [J1 J2 J3 J4 J5 J6]. unfold LoadComponent. set (o := next_object c). set (k := (_, class_name i)).
  assert (Hol : o ∉ component_list_ c) by (intros H%J6; unfold o in H; lia). assert (Ho : objects (process (class_loader_manager_ c)) !! o = None) by (apply eq_None_not_Some; by rewrite J3).
  destruct (minv_CreateClassObj exports distinct exports_some _ k o J1 J2 Ho) as (b & m & E & Hm & Hmap & Hb & Hos). rewrite E. cbn [mbind option_bind].
  assert (Hnull : no_null m) by (intros q; rewrite Hmap; apply J2).
  destruct b; [|subst m; eexists false, _; split; [done|]; split; [by split|]; split; [done|]; split; [split; [done|by intros [?%Hb _]]|simpl; lia]].
  destruct Hos as [x Hos]. destruct (init_ok i) eqn:Ei.
  - destruct (RegisterComponent (node_component_map_ c) (config_name i) (Some o)) as [r nm] eqn:Er. eexists true, _. split; [done|]. cbn [class_loader_manager_ component_list_ node_component_map_ next_object].
    split; [|split; [done|split; [tauto|by rewrite length_app]]]. split; cbn [class_loader_manager_ component_list_ node_component_map_ next_object]; try done.
    + intros o'. rewrite Hos, lookup_insert_is_Some, J3, elem_of_app, list_elem_of_singleton. destruct (decide (o = o')); naive_solver.
    + apply NoDup_app. split; [done|]. split; [intros o' Ho' ->%list_elem_of_singleton; done|apply NoDup_singleton].
    + intros n o' Hx. rewrite elem_of_app, list_elem_of_singleton. destruct (registered_component _ _ _ _ _ Er n o' Hx) as [Hy|[= ->]]; [left; by apply (J5 n)|by right].
    + intros o'. rewrite elem_of_app, list_elem_of_singleton. intros [H%J6| ->]; unfold o in *; lia.
  - destruct (minv_Drop exports distinct m o Hm) as (s & Es & Hs & Hs2); [rewrite Hos, lookup_insert_eq; by eexists|]. rewrite Es. simpl.
    eexists false, _. split; [done|]. split; [|split; [done|split; [split; [done|by intros [_ ?]]|simpl; lia]]].
    split; cbn [with_manager class_loader_manager_ component_list_ node_component_map_ next_object with_process process]; try done.
    intros o'. rewrite Hs2, Hos, delete_insert_id by done. apply J3.
Qed.

(** The libraries that are loaded. *)
Definition loaded (libs : list string) (c : ModuleController) : Prop := ∀ p, p ∈ libs ↔ ∃ l, libpath_loader_map_ (class_loader_manager_ c) !! p = Some (Some l).
Definition provides (libs : list string) (k : string * string) : bool :=
  existsb (λ p, match exports p with Some ks => bool_decide (k ∈ ks) | None => false end) libs.

Lemma provided_loaded libs c k : loaded libs c → provided exports (class_loader_manager_ c) k ↔ provides libs k = true.
Proof using Type.
  clear GetCurrentPath PathExists GetProtoFromFile TaskPoolSize CYBER_PATH.
  clear distinct exports_some. intros Hl. unfold provides. rewrite existsb_exists. split.
  - intros (p & l & ks & Hp & Hks & Hk). exists p. rewrite Hks. split; [apply list_elem_of_In, Hl; by exists l|by apply bool_decide_eq_true].
  - intros (p & Hp%list_elem_of_In%Hl & Hk). destruct Hp as [l Hp]. destruct (exports p) as [ks|] eqn:E; [|done]. apply bool_decide_eq_true in Hk. by exists p, l, ks.
Qed.

(** ** What a configuration asks for

    The components that a configuration makes, when everything it names is
    there: None where something is missing. *)
Definition component_ok (libs : list string) (i : ComponentInfo) : bool := provides libs ("ComponentBase"%string, class_name i) && init_ok i.

Fixpoint modules_ok (libs : list string) (d : DagConfig) : option (list string) :=
  match d with
  | [] => Some libs
  | mc :: d =>
      let libs := load_path mc :: libs in
      if PathExists (load_path mc) && forallb (component_ok libs) (components mc) && forallb (component_ok libs) (timer_components mc) then modules_ok libs d else None
  end.

Fixpoint files_ok (libs : list string) (paths : list string) : option (list string) :=
  match paths with [] => Some libs | p :: paths => d ← GetProtoFromFile p; libs ← modules_ok libs d; files_ok libs paths end.

Definition component_count (d : DagConfig) : nat := foldr (λ mc n, length (components mc) + length (timer_components mc) + n)%nat 0%nat d.
Definition file_count (paths : list string) : nat := foldr (λ p n, default 0%nat (component_count <$> GetProtoFromFile p) + n)%nat 0%nat paths.

Lemma LoadComponents_spec libs infos : ∀ c, cinv c → loaded libs c → ∃ c', LoadComponents infos c = Some (forallb (component_ok libs) infos, c') ∧ cinv c' ∧ loaded libs c' ∧
  (forallb (component_ok libs) infos = true → length (component_list_ c') = (length (component_list_ c) + length infos)%nat).
Proof using distinct exports_some.
  clear GetCurrentPath PathExists GetProtoFromFile TaskPoolSize CYBER_PATH.
  induction infos as [|i infos IH]; intros c Hc Hl; [exists c; split_and!; try done; simpl; lia|]. simpl.
  destruct (LoadComponent_spec i c Hc) as (b & c1 & E & Hc1 & Hmap & Hb & Hlen). rewrite E. cbn [mbind option_bind]. rewrite (provided_loaded libs c) in Hb by done.
  assert (Hl1 : loaded libs c1) by (intros p; rewrite Hmap; apply Hl). assert (Eb : component_ok libs i = b).
  { unfold component_ok. apply eq_true_iff_eq. rewrite andb_true_iff. by rewrite Hb. }
  rewrite Eb. destruct b; [|by exists c1]. destruct (IH c1 Hc1 Hl1) as (c2 & E2 & Hc2 & Hl2 & Hlen2). exists c2. split; [done|]. split; [done|]. split; [done|].
  intros H. rewrite Hlen2 by done. lia.
Qed.

Lemma LoadModule_spec d : ∀ libs c, cinv c → loaded libs c → ∃ b c', LoadModule d c = Some (b, c') ∧ cinv c' ∧
  match modules_ok libs d with
  | Some libs' => b = true ∧ loaded libs' c' ∧ length (component_list_ c') = (length (component_list_ c) + component_count d)%nat
  | None => b = false
  end.
Proof using distinct exports_some.
  clear GetCurrentPath GetProtoFromFile TaskPoolSize.
  induction d as [|mc d IH]; intros libs c Hc Hl; [exists true, c; split_and!; try done; simpl; lia|]. simpl. destruct (PathExists (load_path mc)); [|by exists false, c].
  destruct (minv_LoadLibrary exports distinct (class_loader_manager_ c) (load_path mc) (ci_manager _ Hc)) as (m & E & Hm & Ho & [l Hp] & Hq). rewrite E. cbn [mbind option_bind].
  assert (Hc1 : cinv (with_manager m c)).
  { split; cbn [with_manager class_loader_manager_ component_list_ node_component_map_ next_object]; try apply Hc; try done.
    - intros q. destruct (decide (q = load_path mc)) as [->|Hne]; [by rewrite Hp|]. rewrite Hq by done. apply Hc.
    - intros o. rewrite Ho. apply Hc. }
  assert (Hl1 : loaded (load_path mc :: libs) (with_manager m c)).
  { intros q. rewrite elem_of_cons, (Hl q). simpl. destruct (decide (q = load_path mc)) as [->|Hne]; [split; [intros _; by exists l|by left]|]. rewrite Hq by done. naive_solver. }
  destruct (LoadComponents_spec _ (components mc) _ Hc1 Hl1) as (c2 & E2 & Hc2 & Hl2 & Hlen2). rewrite E2. cbn [mbind option_bind]. destruct (forallb _ (components mc)); [|by exists false, c2].
  destruct (LoadComponents_spec _ (timer_components mc) _ Hc2 Hl2) as (c3 & E3 & Hc3 & Hl3 & Hlen3). rewrite E3. cbn [mbind option_bind]. destruct (forallb _ (timer_components mc)); [|by exists false, c3].
  destruct (IH _ c3 Hc3 Hl3) as (b & c4 & E4 & Hc4 & Hr). exists b, c4. split; [done|]. split; [done|]. simpl. destruct (modules_ok _ d); [|done].
  destruct Hr as (? & ? & Hlen4). split; [done|]. split; [done|]. rewrite Hlen4, Hlen3, Hlen2 by done. simpl. lia.
Qed.

Lemma load_files_spec paths : ∀ libs c, cinv c → loaded libs c → ∃ b c', load_files paths c = Some (b, c') ∧ cinv c' ∧
  match files_ok libs paths with
  | Some libs' => b = true ∧ loaded libs' c' ∧ length (component_list_ c') = (length (component_list_ c) + file_count paths)%nat
  | None => b = false
  end.
Proof using distinct exports_some.
  clear GetCurrentPath TaskPoolSize.
  induction paths as [|p paths IH]; intros libs c Hc Hl; [exists true, c; split_and!; try done; simpl; lia|]. simpl. unfold LoadModule_file.
  destruct (GetProtoFromFile p) as [d|]; [|by exists false, c]. simpl. destruct (LoadModule_spec d libs c Hc Hl) as (b & c1 & E & Hc1 & Hr). rewrite E. cbn [mbind option_bind].
  destruct (modules_ok libs d) as [libs'|]; [|subst b; by exists false, c1]. destruct Hr as (-> & Hl1 & Hlen). simpl. destruct (IH libs' c1 Hc1 Hl1) as (b & c2 & E2 & Hc2 & Hr).
  exists b, c2. split; [done|]. split; [done|]. destruct (files_ok libs' paths); [|done]. destruct Hr as (? & ? & Hlen2). split; [done|]. split; [done|]. rewrite Hlen2. lia.
Qed.

Lemma count_components_same paths : ∀ c, let c' := count_components paths c in class_loader_manager_ c' = class_loader_manager_ c ∧ component_list_ c' = component_list_ c ∧
  node_component_map_ c' = node_component_map_ c ∧ next_object c' = next_object c ∧ shut_down c' = shut_down c.
Proof using Type.
  clear distinct exports_some. induction paths as [|p paths IH]; intros c; [done|]. simpl.
  unfold GetComponentNum. destruct (GetProtoFromFile p); simpl; match goal with |- context [count_components paths ?x] => destruct (IH x) as (H1 & H2 & H3 & H4 & H5) end;
    by rewrite H1, H2, H3, H4, H5.
Qed.

Lemma LoadAll_spec args : let paths := module_path <$> args in ∃ b c, LoadAll args controller_init = Some (b, c) ∧ cinv c ∧
  b = bool_decide (is_Some (files_ok [] paths)) ∧ (b = true → length (component_list_ c) = file_count paths).
Proof using distinct exports_some.
  intros paths. unfold LoadAll. fold paths. destruct (count_components_same paths controller_init) as (E1 & E2 & E3 & E4 & E5).
  rewrite E1, E2, E3, E4, E5. set (c0 := mkController _ _ _ _ _ _ _ _). assert (Hc0 : cinv c0) by (destruct cinv_init; by split).
  assert (Hl0 : loaded [] c0) by (intros p; rewrite elem_of_nil; split; [done|by intros [l H]]).
  destruct (load_files_spec paths [] c0 Hc0 Hl0) as (b & c & E & Hc & Hr). exists b, c. split; [done|]. split; [done|]. destruct (files_ok [] paths).
  - destruct Hr as (-> & _ & Hlen). rewrite bool_decide_eq_true_2 by done. by split.
  - subst b. rewrite bool_decide_eq_false_2 by (by intros [? ?]). by split.
Qed.

Lemma released kept os : ∀ m, minv exports m → NoDup os → (∀ o, o ∈ os → is_Some (objects (process m) !! o)) →
  ∃ m', foldl (release kept) (Some m) os = Some m' ∧ minv exports m' ∧
    ∀ o, objects (process m') !! o = if decide (o ∈ os ∧ o ∉ (map_to_list kept).*2) then None else objects (process m) !! o.
Proof using distinct.
  clear exports_some GetCurrentPath PathExists GetProtoFromFile TaskPoolSize CYBER_PATH.
  induction os as [|o os IH]; intros m Hm Hnd Hos; [exists m; split; [done|]; split; [done|]; intros o; by rewrite decide_False by (by intros [?%elem_of_nil _])|].
  apply NoDup_cons in Hnd as [Hno Hnd]. cbn [foldl release mbind option_bind]. destruct (decide (o ∈ (map_to_list kept).*2)) as [Hk|Hk].
  - destruct (IH m Hm Hnd) as (m' & E & Hm' & Ho'); [intros o' H; apply Hos; by right|]. exists m'. split; [done|]. split; [done|]. intros o'. rewrite Ho'. apply decide_ext.
    rewrite elem_of_cons. split; [naive_solver|]. intros [[->|?] ?]; done.
  - destruct (minv_Drop exports distinct m o Hm) as (s & -> & Hs & Hso); [apply Hos; left|]. cbn [mbind option_bind].
    destruct (IH _ Hs Hnd) as (m' & E & Hm' & Ho').
    { intros o' H. cbn [with_process process]. rewrite Hso, lookup_delete_ne by (intros ->; done). apply Hos. by right. }
    exists m'. split; [done|]. split; [done|]. intros o'. rewrite Ho'. cbn [with_process process]. rewrite Hso. destruct (decide (o' = o)) as [->|Hne].
    + rewrite lookup_delete_eq, (decide_True (P := o ∈ o :: os ∧ _)) by (split; [left|done]). by destruct (decide _).
    + rewrite lookup_delete_ne by done. apply decide_ext. rewrite elem_of_cons. naive_solver.
Qed.

(** C16: [LoadAll] never uses a null pointer, and succeeds exactly when every file
    can be read, every library is there, every class is in a library named so
    far and every component initialises; then it holds as many components as
    the files name. *)
Theorem load_all_succeeds_when args :
  ∃ b c, LoadAll args controller_init = Some (b, c) ∧ b = bool_decide (is_Some (files_ok [] (module_path <$> args))) ∧
    (b = true → length (component_list_ c) = file_count (module_path <$> args)).
Proof using distinct exports_some. destruct (LoadAll_spec args) as (b & c & E & _ & H). by exists b, c. Qed.

(** Property: whatever was configured and however far loading came, [Clear] shuts every
    component down and drops it; the libraries that stay open are those of the
    components that the process has registered under a name. *)
Theorem clear_keeps_the_registered args :
  ∃ b c c', LoadAll args controller_init = Some (b, c) ∧ Clear c = Some c' ∧ component_list_ c' = [] ∧ shut_down c' = shut_down c ++ component_list_ c ∧
    ∀ p, p ∈ opened_libraries (process (class_loader_manager_ c')) ↔
      ∃ n o l, node_component_map_ c !! n = Some o ∧ objects (process (class_loader_manager_ c)) !! o = Some (l, p).
Proof using distinct exports_some.
  destruct (LoadAll_spec args) as (b & c & E & [J1 J2 J3 J4 J5 J6] & _). exists b, c. unfold Clear.
  destruct (released (node_component_map_ c) (component_list_ c) _ J1 J4) as (m & -> & Hm & Ho); [intros o; by apply J3|]. cbn [mbind option_bind].
  assert (Hall : ∀ p, (∃ o l, objects (process m) !! o = Some (l, p)) ↔ ∃ n o l, node_component_map_ c !! n = Some o ∧ objects (process (class_loader_manager_ c)) !! o = Some (l, p)).
  { intros p. assert (Hkept : ∀ o, o ∈ (map_to_list (node_component_map_ c)).*2 ↔ ∃ n, node_component_map_ c !! n = Some o).
    { intros o. rewrite list_elem_of_fmap. split; [intros ([n o'] & -> & H%elem_of_map_to_list); by exists n|intros [n H]; exists (n, o); by rewrite elem_of_map_to_list]. }
    split.
    - intros (o & l & H). rewrite Ho in H. case_decide as Hd; [done|]. assert (Hin : o ∈ component_list_ c) by (apply J3; by eexists).
      destruct (decide (o ∈ (map_to_list (node_component_map_ c)).*2)) as [[n Hn]%Hkept|]; [by exists n, o, l|by destruct Hd].
    - intros (n & o & l & Hn & H). exists o, l. rewrite Ho, decide_False; [done|]. intros [_ Hx]. apply Hx, Hkept. by exists n. }
  destruct (unload_all_objects exports distinct m Hm) as (m2 & -> & _ & _ & Hopen). cbn [mbind option_bind].
  eexists. split; [done|]. split; [done|]. split; [done|]. split; [done|]. intros p. simpl. rewrite <- Hall. apply Hopen.
Qed.
End Controller.

(** ** Runs *)

Local Open Scope string_scope.

Definition plugins (p : string) : option (list (string * string)) :=
  if decide (p = "/apollo/cyber/libA.so") then Some [("ComponentBase", "A"); ("ComponentBase", "TimerA")]
  else if decide (p = "/opt/libB.so") then Some [("ComponentBase", "B")] else None.

Lemma plugins_distinct p p' ks ks' k : plugins p = Some ks → plugins p' = Some ks' → k ∈ ks → k ∈ ks' → p = p'.
Proof. unfold plugins. intros. repeat case_decide; simplify_eq; set_solver. Qed.

Lemma plugins_some p ks : plugins p = Some ks → ks ≠ [].
Proof. unfold plugins. intros. repeat case_decide; by simplify_eq. Qed.

Definition dag (p : string) : option DagConfig :=
  if decide (p = "/apollo/cyber/dag/a.dag") then Some [mkModule "libA.so" [mkInfo "A" "a" true; mkInfo "A" "a2" true] [mkInfo "TimerA" "" true]]
  else if decide (p = "/home/b.dag") then Some [mkModule "/opt/libB.so" [mkInfo "A" "a3" true; mkInfo "B" "a" true] []]
  else if decide (p = "/home/c.dag") then Some [mkModule "/opt/libB.so" [mkInfo "Z" "z" true] []] else None.

Local Notation here := (LoadAll plugins 7 None "/home" (λ p, negb (bool_decide (p = "/home/a.dag")))  dag).

Lemma load_all_succeeds_when_witness :
  ∃ c, here ["a.dag"; "/home/b.dag"] controller_init = Some (true, c) ∧ length (component_list_ c) = 5%nat.
Proof.
  destruct (load_all_succeeds_when plugins 7 None "/home" (λ p, negb (bool_decide (p = "/home/a.dag"))) dag plugins_distinct plugins_some ["a.dag"; "/home/b.dag"]) as (b & c & E & Hb & Hl).
  exists c. assert (Eb : b = true) by (rewrite Hb; vm_compute; reflexivity). rewrite Eb in E. split; [exact E|]. rewrite Hl by exact Eb. vm_compute. reflexivity.
Defined.

Lemma clear_keeps_the_registered_witness :
  ∃ c c', here ["a.dag"; "/home/b.dag"; "/home/c.dag"] controller_init = Some (false, c) ∧ Clear c = Some c' ∧ opened_libraries (process (class_loader_manager_ c')) ≠ [].
Proof.
  destruct (clear_keeps_the_registered plugins 7 None "/home" (λ p, negb (bool_decide (p = "/home/a.dag"))) dag plugins_distinct plugins_some ["a.dag"; "/home/b.dag"; "/home/c.dag"])
    as (b & c & c' & E & Ec & _ & _ & Ho).
  exists c, c'. assert (Eb : b = false) by (vm_compute in E; injection E as <- <-; reflexivity). rewrite Eb in E. split; [exact E|]. split; [exact Ec|].
  intros E0. apply (elem_of_nil "/apollo/cyber/libA.so"). rewrite <- E0. apply Ho. exists "a", 0%nat, 0%nat. clear Ho E0 Ec. vm_compute in E. injection E as <-. split; vm_compute; reflexivity.
Defined.

(** After a clean start and [Clear] the first library is still open and three of
    the five components are alive: the process keeps a pointer to each that it
    registered, and nobody calls [ClearComponent].  Only the component without
    a name and the one whose name was taken are gone. *)
Theorem clear_leaves_libraries_open :
  ∃ c c', here ["a.dag"; "/home/b.dag"] controller_init = Some (true, c) ∧ Clear c = Some c' ∧ component_list_ c' = [] ∧
    opened_libraries (process (class_loader_manager_ c')) = ["/apollo/cyber/libA.so"] ∧ size (objects (process (class_loader_manager_ c'))) = 3%nat.
Proof. eexists _, _. split; [vm_compute; reflexivity|]. split; [vm_compute; reflexivity|]. split; [reflexivity|]. split; vm_compute; reflexivity. Qed.

(** Asking for an object of a library that was never loaded leaves a null
    pointer in the map, which the next look for a class uses. *)
Theorem unknown_library_leaves_null :
  ∃ m m', manager_LoadLibrary plugins "/opt/libB.so" manager_init = Some (true, m) ∧
    manager_CreateClassObj_in plugins ("ComponentBase", "A") "/lib0.so" 0 m = Some (false, m') ∧
    manager_CreateClassObj plugins ("ComponentBase", "B") 0 m' = None ∧ manager_IsClassValid "ComponentBase" "B" m' = None.
Proof. eexists _, _. split; [vm_compute; reflexivity|]. split; [vm_compute; reflexivity|]. split; vm_compute; reflexivity. Qed.

(** [LoadLibrary] of a file that is not there returns true. *)
Theorem missing_library_is_loaded :
  ∃ m, manager_LoadLibrary plugins "/none.so" manager_init = Some (true, m) ∧ opened_libraries (process m) = [] ∧ IsLibraryValid "/none.so" m = true.
Proof. eexists. split; [vm_compute; reflexivity|]. split; vm_compute; reflexivity. Qed.
