(* ===== verification/RecordTools.v ===== *)
(** * Splitting and recovering recordings

    [Spliter] ([src/code/cyber/tools/cyber_recorder/spliter.h], [spliter.cc])
    copies the messages of a record file that lie in a time window and on
    chosen channels; [Recoverer] ([recoverer.h], [recoverer.cc]) copies what can
    be read of a file that was not finished.  They read bytes with the
    [RecordFileReader] and write through the interface of file writers. *)

From stdpp Require Import base list strings gmap.
From S2P Require Import Prelude RecordFile RecordFlush RecordReader RecordWriter.

Section RecordTools.
Context (big_endian : bool).
Context `{!Proto Header, !Proto Channel, !Proto ChunkHeader, !Proto ChunkBody, !Proto Index}.
Context {F : Type} `{!FileWriter F}.

Definition no_channel : Channel := mkChannel EmptyString EmptyString EmptyString.
Definition no_chunk_header : ChunkHeader := mkChunkHeader 0 0 0 0.

(** ** [Spliter] *)

Record Spliter := mkSpliter { white_channels_ : list string; black_channels_ : list string; s_begin_time_ : Z; s_end_time_ : Z }.

Definition passes (s : Spliter) (channel : string) : bool :=
  (bool_decide (white_channels_ s = []) || bool_decide (channel ∈ white_channels_ s)) && negb (bool_decide (channel ∈ black_channels_ s)).

(** The loop over the messages of a chunk. *)
Fixpoint write_selected (s : Spliter) (ms : list SingleMessage) (f : F) : F * bool :=
  match ms with
  | [] => (f, true)
  | m :: ms =>
      if negb (bool_decide (white_channels_ s = [])) && negb (bool_decide (channel_name m ∈ white_channels_ s)) then write_selected s ms f
      else if bool_decide (channel_name m ∈ black_channels_ s) then write_selected s ms f
      else if (time m <? s_begin_time_ s) || (s_end_time_ s <? time m) then write_selected s ms f
      else match fw_message m f with (f, true) => write_selected s ms f | (f, false) => (f, false) end
  end.

(** The loop over the sections; None: the fuel is used up. *)
Fixpoint split_loop (fuel : nat) (s : Spliter) (skip_next_chunk_body : bool) (r : RecordFileReader) (f : F) : option (F * bool) :=
  match fuel with
  | O => None
  | S fuel =>
      if end_of_file_ r then Some (f, true)
      else
        match ReadSection big_endian r with
        | (_, None) => Some (f, false)
        | (r, Some section) =>
            if sec_type section =? SECTION_INDEX then Some (f, true)
            else if sec_type section =? SECTION_CHANNEL then
              let '(r, chan, ok) := ReadMessageSection (sec_size section) no_channel r in
              if negb ok then Some (f, false)
              else split_loop fuel s skip_next_chunk_body r (if passes s (name chan) then (fw_channel chan f).1 else f)
            else if sec_type section =? SECTION_CHUNK_HEADER then
              let '(r, chdr, ok) := ReadMessageSection (sec_size section) no_chunk_header r in
              if negb ok then Some (f, false)
              else
                let skip := if (ch_end_time chdr <? s_begin_time_ s) || (s_end_time_ s <? ch_begin_time chdr) then true else skip_next_chunk_body in
                split_loop fuel s skip r f
            else if sec_type section =? SECTION_CHUNK_BODY then
              if skip_next_chunk_body then split_loop fuel s false (SkipSection (sec_size section) r).1 f
              else
                let '(r, cbd, ok) := ReadMessageSection (sec_size section) ([] : ChunkBody) r in
                if negb ok then Some (f, false)
                else match write_selected s cbd f with (f, true) => split_loop fuel s false r f | (f, false) => Some (f, false) end
            else split_loop fuel s skip_next_chunk_body r f
        end
  end.

(** [Proc] on the bytes of the input file, if it is there. *)
Definition Spliter_Proc (fuel : nat) (s : Spliter) (input_file : option (list Z)) (output_file : string) : option (F * bool) :=
  if s_end_time_ s <=? s_begin_time_ s then Some (fw_new, false)
  else if existsb (λ c, bool_decide (c ∈ black_channels_ s)) (white_channels_ s) then Some (fw_new, false)
  else
    match Reader_Open big_endian input_file with
    | (_, false) => Some (fw_new, false)
    | (r, true) =>
        if (end_time (r_header r) <? s_begin_time_ s) || (s_end_time_ s <? begin_time (r_header r)) then Some (fw_new, false)
        else
          match fw_open output_file fw_new with
          | (f, false) => Some (f, false)
          | (f, true) =>
              match fw_header GetHeader f with
              | (f, false) => Some (f, false)
              | (f, true) => split_loop fuel s false (RecordFile.Reset r) f
              end
          end
    end.

(** ** [Recoverer] *)

Fixpoint write_all_messages (ms : list SingleMessage) (f : F) : F * bool :=
  match ms with
  | [] => (f, true)
  | m :: ms => match fw_message m f with (f, true) => write_all_messages ms f | (f, false) => (f, false) end
  end.

(** A channel that is not in [channel_vec_] yet. *)
Definition note_channel (chan : Channel) (x : list string * F) : list string * F :=
  if bool_decide (name chan ∈ x.1) then x else (x.1 ++ [name chan], (fw_channel chan x.2).1).

Definition channel_of_index (i : SingleIndex) : option Channel :=
  if si_type i =? SECTION_CHANNEL then
    Some (match si_cache i with channel_cache c => mkChannel (cc_name c) (cc_message_type c) (cc_proto_desc c) | _ => no_channel end)
  else None.

Fixpoint recover_loop (fuel : nat) (channel_vec_ : list string) (r : RecordFileReader) (f : F) : option (F * bool) :=
  match fuel with
  | O => None
  | S fuel =>
      if end_of_file_ r then Some (f, true)
      else
        match ReadSection big_endian r with
        | (r, None) => recover_loop fuel channel_vec_ r f
        | (r, Some section) =>
            if sec_type section =? SECTION_INDEX then Some (f, true)
            else if sec_type section =? SECTION_CHANNEL then
              let '(r, chan, ok) := ReadMessageSection (sec_size section) no_channel r in
              if negb ok then recover_loop fuel channel_vec_ r f
              else let '(channel_vec_, f) := note_channel chan (channel_vec_, f) in recover_loop fuel channel_vec_ r f
            else if sec_type section =? SECTION_CHUNK_HEADER then
              let '(r, _, _) := ReadMessageSection (sec_size section) no_chunk_header r in recover_loop fuel channel_vec_ r f
            else if sec_type section =? SECTION_CHUNK_BODY then
              let '(r, cbd, ok) := ReadMessageSection (sec_size section) ([] : ChunkBody) r in
              if negb ok then recover_loop fuel channel_vec_ r f
              else match write_all_messages cbd f with (f, true) => recover_loop fuel channel_vec_ r f | (f, false) => Some (f, false) end
            else Some (f, false)
        end
  end.

Definition Recoverer_Proc (fuel : nat) (input_file : option (list Z)) (output_file : string) : option (F * bool) :=
  match Reader_Open big_endian input_file with
  | (_, false) => Some (fw_new, false)
  | (r, true) =>
      match fw_open output_file fw_new with
      | (f, false) => Some (f, false)
      | (f, true) =>
          match fw_header GetHeader f with
          | (f, false) => Some (f, false)
          | (f, true) =>
              let '(r, ok) := ReadIndex big_endian r in
              let '(vec, f) := if ok then foldl (λ x c, note_channel c x) ([], f) (omap channel_of_index (r_index r)) else ([], f) in
              recover_loop fuel vec (RecordFile.Reset r) f
          end
      end
  end.

(** ** Reading over sections *)

Context `{!ProtoLaws Header, !ProtoLaws Channel, !ProtoLaws ChunkHeader, !ProtoLaws ChunkBody, !ProtoLaws Index}.

Definition advance (n : Z) (r : RecordFileReader) : RecordFileReader :=
  on_file (mkFile (bytes (r_file r)) (pos (r_file r) + n) (limit (r_file r))) r.

(** What is left of the file. *)
Definition remaining (x : list Z) (r : RecordFileReader) : Prop :=
  end_of_file_ r = false ∧ zlen (bytes (r_file r)) < 2 ^ 63 ∧ ∃ a, bytes (r_file r) = a ++ x ∧ pos (r_file r) = zlen a.

Lemma remaining_reads x r : remaining x r → reads_at (pos (r_file r)) x (bytes (r_file r)).
Proof using Type. intros (_ & _ & a & -> & ->). exists a, []. by rewrite app_nil_r. Qed.

Lemma remaining_advance n x y r : remaining (x ++ y) r → n = zlen x → remaining y (advance n r).
Proof using Type.
  intros (H1 & H2 & a & Eb & Ep) ->. split; [done|]. split; [done|]. exists (a ++ x). simpl. rewrite Eb, Ep, <- (assoc_L (++)). split; [done|].
  unfold zlen. rewrite length_app. lia.
Qed.

Lemma next_section ty {M} `{!Proto M, !ProtoLaws M} (m m0 : M) y r :
  0 ≤ ty < 5 → 0 < zlen (serialize m) < 2 ^ 31 → remaining (encode big_endian (ty, serialize m) ++ y) r →
  ReadSection big_endian r = (advance 16 r, Some (mkSection ty (zlen (serialize m)))) ∧
  ReadMessageSection (zlen (serialize m)) m0 (advance 16 r) = (advance (16 + zlen (serialize m)) r, m, true) ∧
  (SkipSection (zlen (serialize m)) (advance 16 r)).1 = advance (16 + zlen (serialize m)) r ∧
  remaining y (advance (16 + zlen (serialize m)) r).
Proof using Type.
  intros Hty Hm Hl. assert (Hok : section_ok (ty, serialize m)) by (split; simpl; lia).
  pose proof (ReadSection_reads big_endian r (ty, serialize m) y Hok (remaining_reads _ _ Hl)) as E1. split; [exact E1|].
  unfold encode in Hl. rewrite <- (assoc_L (++)) in Hl. pose proof (remaining_advance 16 _ _ r Hl ltac:(by rewrite zlen_Section_bytes)) as Hl1.
  assert (Eadv : advance (16 + zlen (serialize m)) r = advance (zlen (serialize m)) (advance 16 r)) by (unfold advance; simpl; by rewrite Z.add_assoc).
  rewrite Eadv. pose proof (remaining_advance (zlen (serialize m)) _ _ _ Hl1 eq_refl) as Hl2. split; [by apply (ReadMessageSection_reads (advance 16 r) m m0 y Hm), remaining_reads|].
  split; [|done]. destruct Hl1 as (_ & Hlen & a & Eb & Ep). apply (f_equal zlen) in Eb as Eb'. unfold zlen in Eb'. rewrite !length_app in Eb'. unfold zlen in *.
  unfold SkipSection, CurrentPosition. rewrite Ep. cbn [snd] in Eb'. rewrite (proj2 (Z.ltb_ge _ _)) by lia. unfold SetPosition. rewrite (proj2 (Z.ltb_ge _ _)) by lia. rewrite <- Ep. done.
Qed.

(** A writer on a disk with room. *)
Context `{!FileWriterLaws F}.
Context (open_ok : ∀ p f, (fw_open p f).2 = true) (header_ok : ∀ h f, (fw_header h f).2 = true)
  (channel_ok : ∀ c f, (fw_channel c f).2 = true) (message_ok : ∀ m f, (fw_message m f).2 = true).

Lemma opened_log p f : ∃ f', fw_open p f = (f', true) ∧ fw_log f' = fw_log f ++ [COpen p].
Proof using open_ok. pose proof (open_ok p f). destruct (fw_open p f) as [f' b] eqn:E. simpl in *. subst b. exists f'. split; [done|by apply log_open]. Qed.
Lemma header_log h f : ∃ f', fw_header h f = (f', true) ∧ fw_log f' = fw_log f ++ [CHeader h].
Proof using header_ok. pose proof (header_ok h f). destruct (fw_header h f) as [f' b] eqn:E. simpl in *. subst b. exists f'. split; [done|by apply log_header]. Qed.
Lemma channel_log c f : fw_log (fw_channel c f).1 = fw_log f ++ [CChannel c].
Proof using channel_ok. pose proof (channel_ok c f). destruct (fw_channel c f) as [f' b] eqn:E. simpl in *. subst b. by apply log_channel. Qed.
Lemma message_log m f : ∃ f', fw_message m f = (f', true) ∧ fw_log f' = fw_log f ++ [CMessage m].
Proof using message_ok. pose proof (message_ok m f). destruct (fw_message m f) as [f' b] eqn:E. simpl in *. subst b. exists f'. split; [done|by apply log_message]. Qed.

(** ** What a split file has *)

Definition split_message (s : Spliter) (m : SingleMessage) : bool := passes s (channel_name m) && (s_begin_time_ s <=? time m) && (time m <=? s_end_time_ s).

Definition split_calls (s : Spliter) (i : item) : list call :=
  match i with
  | IChannel c => if passes s (name c) then [CChannel c] else []
  | IChunk _ b => CMessage <$> filter (λ m, split_message s m = true) b
  end.

Lemma write_selected_step s m ms f : write_selected s (m :: ms) f =
  if split_message s m then match fw_message m f with (f, true) => write_selected s ms f | (f, false) => (f, false) end else write_selected s ms f.
Proof using Type.
  simpl. unfold split_message, passes. destruct (bool_decide (white_channels_ s = [])), (bool_decide (channel_name m ∈ white_channels_ s)), (bool_decide (channel_name m ∈ black_channels_ s)); simpl; try done.
  all: destruct (Z.ltb_spec (time m) (s_begin_time_ s)), (Z.leb_spec (s_begin_time_ s) (time m)); try lia; simpl; try done.
  all: destruct (Z.ltb_spec (s_end_time_ s) (time m)), (Z.leb_spec (time m) (s_end_time_ s)); try lia; done.
Qed.

Lemma write_selected_log s ms : ∀ f, ∃ f', write_selected s ms f = (f', true) ∧ fw_log f' = fw_log f ++ (CMessage <$> filter (λ m, split_message s m = true) ms).
Proof using message_ok.
  induction ms as [|m ms IH]; intros f; [exists f; by rewrite app_nil_r|]. rewrite write_selected_step, filter_cons.
  destruct (split_message s m) eqn:E; [rewrite decide_True by done|rewrite decide_False by done; apply IH].
  destruct (message_log m f) as (f1 & -> & E1). destruct (IH f1) as (f' & E' & E2). exists f'. split; [done|]. by rewrite E2, E1, <- (assoc_L (++)).
Qed.

(** Messages of a chunk beyond the window are not selected. *)
Lemma nothing_selected s c (b : ChunkBody) : Forall (λ m, ch_begin_time c ≤ time m ≤ ch_end_time c) b → (ch_end_time c <? s_begin_time_ s) || (s_end_time_ s <? ch_begin_time c) = true →
  filter (λ m, split_message s m = true) b = [].
Proof using Type.
  intros Hb Hw. apply filter_none. intros m Hm. rewrite Forall_forall in Hb. apply Hb in Hm. unfold split_message. rewrite !andb_true_iff, !Z.leb_le.
  rewrite orb_true_iff, !Z.ltb_lt in Hw. lia.
Qed.

Lemma split_loop_items s idx tail its : ∀ fuel r f, Forall small its → Forall honest its → 0 < zlen (serialize idx) < 2 ^ 31 →
  remaining (items_bytes big_endian its ++ encode big_endian (SECTION_INDEX, serialize idx) ++ tail) r → (2 * length its < fuel)%nat →
  ∃ f', split_loop fuel s false r f = Some (f', true) ∧ fw_log f' = fw_log f ++ (its ≫= split_calls s).
Proof using ProtoLaws0 ProtoLaws1 ProtoLaws2 ProtoLaws3 ProtoLaws4 message_ok channel_ok.
  induction its as [|i its IH]; intros fuel r f Hs Hh Hi Hl Hf; (destruct fuel as [|fuel]; [lia|]); cbn [split_loop]; rewrite (proj1 Hl).
  - change (items_bytes big_endian []) with (@nil Z) in Hl. rewrite app_nil_l in Hl. destruct (next_section SECTION_INDEX idx idx tail r) as (-> & _); [done|done|done|].
    simpl. exists f. by rewrite app_nil_r.
  - apply Forall_cons in Hs as [Hi1 Hs]. apply Forall_cons in Hh as [Hh1 Hh]. change (i :: its) with ([i] ++ its) in Hl. rewrite items_bytes_app, <- (assoc_L (++)) in Hl.
    unfold items_bytes at 1, encode_all in Hl. rewrite bind_cons. destruct i as [c|c b]; unfold small in Hi1; simpl in Hi1, Hl; rewrite app_nil_r in Hl.
    + apply Forall_cons in Hi1 as [[[_ Hc2] Hc1] _]. destruct (next_section SECTION_CHANNEL c no_channel _ r ltac:(done) ltac:(done) Hl) as (-> & E2 & _ & Hl2). cbn [sec_type sec_size]. simpl.
      rewrite E2. simpl. destruct (IH fuel _ (if passes s (name c) then (fw_channel c f).1 else f) Hs Hh Hi Hl2) as (f' & -> & E); [simpl in Hf; lia|]. exists f'. split; [done|]. rewrite E.
      destruct (passes s (name c)); [|done]. rewrite channel_log, <- (assoc_L (++)). done.
    + apply Forall_cons in Hi1 as [[[_ Hc2] Hc1] Hi1]. apply Forall_cons in Hi1 as [[[_ Hb2] Hb1] _]. rewrite <- (assoc_L (++)) in Hl.
      destruct (next_section SECTION_CHUNK_HEADER c no_chunk_header _ r ltac:(done) ltac:(done) Hl) as (-> & E2 & _ & Hl2). cbn [sec_type sec_size]. simpl. rewrite E2. simpl.
      set (r2 := advance (16 + zlen (serialize c)) r) in *. destruct fuel as [|fuel]; [simpl in Hf; lia|]. cbn [split_loop]. rewrite (proj1 Hl2).
      destruct (next_section SECTION_CHUNK_BODY b ([] : ChunkBody) _ r2 ltac:(done) ltac:(done) Hl2) as (-> & E3 & E4 & Hl3). cbn [sec_type sec_size]. simpl.
      destruct Hh1 as [_ Hh1]. destruct (_ || _) eqn:Ew.
      * rewrite E4. destruct (IH fuel _ f Hs Hh Hi Hl3) as (f' & -> & E); [simpl in Hf; lia|]. exists f'. split; [done|]. by rewrite E, (nothing_selected s c b Hh1 Ew).
      * rewrite E3. simpl. destruct (write_selected_log s b f) as (f1 & -> & E1). destruct (IH fuel _ f1 Hs Hh Hi Hl3) as (f' & -> & E); [simpl in Hf; lia|]. exists f'. split; [done|].
        rewrite E, E1, <- (assoc_L (++)). done.
Qed.

Lemma log_of_messages l : log_messages (CMessage <$> l) = l.
Proof using Type. unfold log_messages. induction l as [|m l IH]; [done|]. exact (f_equal (cons m) IH). Qed.

Lemma log_of_items s its : log_messages (its ≫= split_calls s) = filter (λ m, split_message s m = true) (messages_of its).
Proof using Type.
  unfold log_messages, messages_of. induction its as [|[c|c b] its IH]; [done| |]; rewrite !bind_cons, omap_app, IH; simpl.
  - by destruct (passes s (name c)).
  - rewrite filter_app. f_equal. apply log_of_messages.
Qed.

Lemma Reset_remaining h tail : header_fits h → zlen (head_block big_endian h ++ tail) < 2 ^ 63 →
  remaining tail (RecordFile.Reset (mkReader (mkFile (head_block big_endian h ++ tail) (Z.of_nat start) None) h [] false)).
Proof using Type.
  intros Hf Hl. split; [done|]. split; [done|]. exists (head_block big_endian h). split; [done|]. unfold zlen. by rewrite (length_head_block big_endian h Hf).
Qed.

(** Property: a split file has, in their order, exactly the messages of the input file
    that lie in the window and on a channel that passes the lists, and the
    channels that pass, whatever chunks the messages are in; what it is asked
    must make sense and meet the times of the file. *)
Theorem split_selects s h its idx input output fuel :
  s_begin_time_ s < s_end_time_ s → (∀ c, c ∈ white_channels_ s → c ∉ black_channels_ s) →
  s_begin_time_ s ≤ end_time h → begin_time h ≤ s_end_time_ s →
  laid_out big_endian h its idx input → zlen input < 2 ^ 63 → Forall small its → Forall honest its → 0 < zlen (serialize idx) < 2 ^ 31 →
  (2 * length its < fuel)%nat →
  ∃ f, Spliter_Proc fuel s (Some input) output = Some (f, true) ∧
    fw_log f = [COpen output; CHeader GetHeader] ++ (its ≫= split_calls s) ∧
    log_messages (fw_log f) = filter (λ m, split_message s m = true) (messages_of its).
Proof using ProtoLaws0 ProtoLaws1 ProtoLaws2 ProtoLaws3 ProtoLaws4 open_ok header_ok message_ok channel_ok.
  intros Hbe Hwb Hb He (Hc & Hp & Hf & tail & ->) Hlen Hs Hh Hi Hfuel. unfold Spliter_Proc. rewrite (proj2 (Z.leb_gt _ _)) by lia.
  assert (existsb (λ c, bool_decide (c ∈ black_channels_ s)) (white_channels_ s) = false) as ->.
  { apply not_true_is_false. rewrite existsb_exists. intros (c & Hc1%list_elem_of_In & Hc2%bool_decide_eq_true). by apply (Hwb c). }
  rewrite Open_header by done. cbn [r_header]. rewrite (proj2 (Z.ltb_ge _ _)), (proj2 (Z.ltb_ge _ _)) by lia. cbn [orb].
  destruct (opened_log output fw_new) as (f1 & -> & E1). destruct (header_log GetHeader f1) as (f2 & -> & E2).
  destruct (split_loop_items s idx tail its fuel _ f2 Hs Hh Hi (Reset_remaining h _ Hf Hlen) Hfuel) as (f & -> & E). exists f. split; [done|].
  assert (El : fw_log f = [COpen output; CHeader GetHeader] ++ (its ≫= split_calls s)) by (rewrite E, E2, E1, log_new; done).
  split; [done|]. rewrite El, <- log_of_items. done.
Qed.

(** ** What a recovered file has *)

Fixpoint recover_calls (vec : list string) (its : list item) : list call :=
  match its with
  | [] => []
  | IChannel c :: its => if bool_decide (name c ∈ vec) then recover_calls vec its else CChannel c :: recover_calls (vec ++ [name c]) its
  | IChunk _ b :: its => (CMessage <$> b) ++ recover_calls vec its
  end.

Lemma write_all_log ms : ∀ f, ∃ f', write_all_messages ms f = (f', true) ∧ fw_log f' = fw_log f ++ (CMessage <$> ms).
Proof using message_ok.
  induction ms as [|m ms IH]; intros f; [exists f; by rewrite app_nil_r|]. simpl.
  destruct (message_log m f) as (f1 & -> & E1). destruct (IH f1) as (f' & E' & E2). exists f'. split; [done|]. by rewrite E2, E1, <- (assoc_L (++)).
Qed.

(** What a parser makes of fewer bytes is not longer than they are. *)
Context (channel_short : ∀ bs (c : Channel), parse bs = Parsed c → zlen (serialize c) ≤ zlen bs)
  (chunk_header_short : ∀ bs (c : ChunkHeader), parse bs = Parsed c → zlen (serialize c) ≤ zlen bs)
  (chunk_body_short : ∀ bs (b : ChunkBody), parse bs = Parsed b → zlen (serialize b) ≤ zlen bs).

(** Where a process that died stopped writing: inside of the head of a section,
    or of its message. *)
Definition torn (tail : list Z) : Prop :=
  zlen tail < 16 ∨ ∃ ty n part, tail = Section_bytes big_endian (mkSection ty n) ++ part ∧
    (ty = SECTION_CHANNEL ∨ ty = SECTION_CHUNK_HEADER ∨ ty = SECTION_CHUNK_BODY) ∧ zlen part < n < 2 ^ 31.

Definition over (r : RecordFileReader) : Prop := end_of_file_ r = true ∨ remaining [] r.

Lemma read_rest n part r : remaining part r → zlen part ≤ n → read n (r_file r) = (mkFile (bytes (r_file r)) (pos (r_file r) + zlen part) (limit (r_file r)), part).
Proof using Type.
  intros (_ & _ & a & Eb & Ep) Hn. unfold read. rewrite Ep, Eb. unfold zlen in *. rewrite Nat2Z.id, drop_app_length, firstn_all2 by lia. done.
Qed.

Lemma remaining_over part r r' : remaining part r → r' = on_file (mkFile (bytes (r_file r)) (pos (r_file r) + zlen part) (limit (r_file r))) r → remaining [] r'.
Proof using Type.
  intros H ->. rewrite <- (app_nil_r part) in H. exact (remaining_advance (zlen part) part [] r H eq_refl).
Qed.

Lemma torn_message {M} `{!Proto M} (m0 : M) n part r : (∀ bs (m : M), parse bs = Parsed m → zlen (serialize m) ≤ zlen bs) →
  remaining part r → zlen part < n < 2 ^ 31 → ∃ r' m, ReadMessageSection n m0 r = (r', m, false) ∧ over r'.
Proof using Type.
  intros Hshort Hr Hn. pose proof (zlen_nonneg part). unfold ReadMessageSection. rewrite !(proj2 (Z.ltb_ge _ _)), (proj2 (Z.ltb_lt 0 _)) by lia. cbn [orb].
  rewrite (read_rest n part r Hr) by lia. rewrite firstn_all2 by (unfold zlen in *; lia). pose proof (remaining_over part r _ Hr eq_refl) as Hover.
  destruct (parse part) as [m|m|m at_end] eqn:E.
  - eexists _, m. rewrite (proj2 (Z.eqb_neq _ _)) by (apply Hshort in E; lia). split; [done|by right].
  - eexists _, m. split; [done|by right].
  - eexists _, m. split; [done|]. destruct at_end; [by left|right]. destruct Hover as (_ & H2 & H3). by split.
Qed.

Lemma recover_loop_over fuel vec r f : over r → (1 < fuel)%nat → recover_loop fuel vec r f = Some (f, true).
Proof using Type.
  intros Ho Hf. destruct fuel as [|[|fuel]]; [lia..|]. destruct Ho as [He|Hr]; cbn [recover_loop]; [by rewrite He|]. rewrite (proj1 Hr).
  unfold ReadSection. rewrite (read_rest _ [] r Hr) by done. done.
Qed.

Lemma recover_loop_torn tail fuel vec r f : torn tail → remaining tail r → (4 < fuel)%nat → recover_loop fuel vec r f = Some (f, true).
Proof using channel_short chunk_header_short chunk_body_short.
  intros [Ht|(ty & n & part & -> & Hty & Hn)] Hr Hf; (destruct fuel as [|fuel]; [lia|]); cbn [recover_loop]; rewrite (proj1 Hr).
  - unfold ReadSection. rewrite (read_rest _ tail r Hr) by (unfold sizeof_Section; lia). cbv zeta. destruct (Z.eqb_spec (zlen tail) 0) as [E|E]; cycle 1.
    + rewrite (proj2 (Z.eqb_neq (zlen tail) _)) by (unfold sizeof_Section; lia). simpl. apply recover_loop_over; [|lia]. right. by eapply remaining_over.
    + apply recover_loop_over; [by left|lia].
  - pose proof (zlen_nonneg part). rewrite (ReadSection_struct big_endian r ty n part); [|destruct Hty as [->|[->| ->]]; done|unfold in_s; lia|by apply remaining_reads].
    fold (advance 16 r). pose proof (remaining_advance 16 _ _ r Hr ltac:(by rewrite zlen_Section_bytes)) as Hr1. cbn [sec_type sec_size].
    destruct Hty as [->|[->| ->]]; simpl.
    + destruct (torn_message no_channel n part _ channel_short Hr1 Hn) as (r' & m & -> & Ho). simpl. apply recover_loop_over; [done|lia].
    + destruct (torn_message no_chunk_header n part _ chunk_header_short Hr1 Hn) as (r' & m & -> & Ho). apply recover_loop_over; [done|lia].
    + destruct (torn_message ([] : ChunkBody) n part _ chunk_body_short Hr1 Hn) as (r' & m & -> & Ho). simpl. apply recover_loop_over; [done|lia].
Qed.

(** How the file ends: torn, torn after the header of a chunk, or in or after
    its index. *)
Definition ending (tail : list Z) : Prop :=
  torn tail ∨
  (∃ (c : ChunkHeader) part, tail = encode big_endian (SECTION_CHUNK_HEADER, serialize c) ++ part ∧ 0 < zlen (serialize c) < 2 ^ 31 ∧ torn part) ∨
  ∃ n rest, tail = Section_bytes big_endian (mkSection SECTION_INDEX n) ++ rest ∧ in_s 64 n.

Lemma recover_loop_ending tail fuel vec r f : ending tail → remaining tail r → (5 < fuel)%nat → recover_loop fuel vec r f = Some (f, true).
Proof using ProtoLaws0 ProtoLaws1 ProtoLaws2 ProtoLaws3 ProtoLaws4 channel_short chunk_header_short chunk_body_short.
  intros [Ht|[(c & part & -> & Hc & Ht)|(n & rest & -> & Hn)]] Hr Hf.
  - apply (recover_loop_torn tail); [done|done|lia].
  - destruct fuel as [|fuel]; [lia|]. cbn [recover_loop]. rewrite (proj1 Hr).
    destruct (next_section SECTION_CHUNK_HEADER c no_chunk_header part r ltac:(done) Hc Hr) as (-> & E2 & _ & Hr2). cbn [sec_type sec_size]. simpl. rewrite E2.
    apply (recover_loop_torn part); [done|done|lia].
  - destruct fuel as [|fuel]; [lia|]. cbn [recover_loop]. rewrite (proj1 Hr). by rewrite (ReadSection_struct big_endian r SECTION_INDEX n rest) by (done || by apply remaining_reads).
Qed.

Lemma recover_loop_items tail its : ending tail → ∀ fuel vec r f, Forall small its → remaining (items_bytes big_endian its ++ tail) r → (2 * length its + 5 < fuel)%nat →
  ∃ f', recover_loop fuel vec r f = Some (f', true) ∧ fw_log f' = fw_log f ++ recover_calls vec its.
Proof using ProtoLaws0 ProtoLaws1 ProtoLaws2 ProtoLaws3 ProtoLaws4 message_ok channel_ok channel_short chunk_header_short chunk_body_short.
  intros He. induction its as [|i its IH]; intros fuel vec r f Hs Hl Hf.
  - change (items_bytes big_endian []) with (@nil Z) in Hl. rewrite app_nil_l in Hl. exists f. rewrite app_nil_r. split; [|done].
    apply (recover_loop_ending tail); [done|done|simpl in Hf; lia].
  - destruct fuel as [|fuel]; [lia|]. cbn [recover_loop]. rewrite (proj1 Hl).
    apply Forall_cons in Hs as [Hi1 Hs]. change (i :: its) with ([i] ++ its) in Hl. rewrite items_bytes_app, <- (assoc_L (++)) in Hl.
    unfold items_bytes at 1, encode_all in Hl. destruct i as [c|c b]; unfold small in Hi1; simpl in Hi1, Hl; rewrite app_nil_r in Hl.
    + apply Forall_cons in Hi1 as [[[_ Hc2] Hc1] _]. destruct (next_section SECTION_CHANNEL c no_channel _ r ltac:(done) ltac:(done) Hl) as (-> & E2 & _ & Hl2). cbn [sec_type sec_size]. simpl.
      rewrite E2. simpl. unfold note_channel. cbn [fst snd]. case_bool_decide as Hv.
      * apply IH; [done|done|simpl in Hf; lia].
      * destruct (IH fuel (vec ++ [name c]) _ (fw_channel c f).1 Hs Hl2) as (f' & -> & E); [simpl in Hf; lia|]. exists f'. split; [done|]. by rewrite E, channel_log, <- (assoc_L (++)).
    + apply Forall_cons in Hi1 as [[[_ Hc2] Hc1] Hi1]. apply Forall_cons in Hi1 as [[[_ Hb2] Hb1] _]. rewrite <- (assoc_L (++)) in Hl.
      destruct (next_section SECTION_CHUNK_HEADER c no_chunk_header _ r ltac:(done) ltac:(done) Hl) as (-> & E2 & _ & Hl2). cbn [sec_type sec_size]. simpl. rewrite E2. simpl.
      set (r2 := advance (16 + zlen (serialize c)) r) in *. destruct fuel as [|fuel]; [simpl in Hf; lia|]. cbn [recover_loop]. rewrite (proj1 Hl2).
      destruct (next_section SECTION_CHUNK_BODY b ([] : ChunkBody) _ r2 ltac:(done) ltac:(done) Hl2) as (-> & E3 & _ & Hl3). cbn [sec_type sec_size]. simpl. rewrite E3. simpl.
      destruct (write_all_log b f) as (f1 & -> & E1). destruct (IH fuel vec _ f1 Hs Hl3) as (f' & -> & E); [simpl in Hf; lia|]. exists f'. split; [done|].
      by rewrite E, E1, <- (assoc_L (++)).
Qed.

Lemma recovered_messages vec its : log_messages (recover_calls vec its) = messages_of its.
Proof using Type.
  unfold log_messages, messages_of. revert vec. induction its as [|[c|c b] its IH]; intros vec; [done| |]; simpl.
  - case_bool_decide; simpl; apply IH.
  - rewrite omap_app, IH. f_equal. apply log_of_messages.
Qed.

Definition log_channels (l : list call) : list string := omap (λ c, match c with CChannel c => Some (name c) | _ => None end) l.

Lemma recovered_channels vec its :
  (∀ c, c ∈ log_channels (recover_calls vec its) ↔ c ∉ vec ∧ is_Some (first_channel c its)) ∧ NoDup (log_channels (recover_calls vec its)).
Proof using Type.
  revert vec. unfold log_channels. induction its as [|[c|c b] its IH]; intros vec; simpl.
  - split; [|apply NoDup_nil_2]. intros c. unfold first_channel. simpl. rewrite elem_of_nil. split; [done|by intros [_ [? ?]]].
  - assert (Hfc : ∀ c', is_Some (first_channel c' (IChannel c :: its)) ↔ c' = name c ∨ is_Some (first_channel c' its)).
    { intros c'. unfold first_channel. simpl. case_decide as Hd; simpl; [|naive_solver]. split; [by left|by eexists]. }
    case_bool_decide as Hv.
    + destruct (IH vec) as [H1 H2]. split; [|done]. intros c'. rewrite H1, Hfc. naive_solver.
    + destruct (IH (vec ++ [name c])) as [H1 H2]. simpl. split.
      * intros c'. rewrite elem_of_cons, H1, Hfc, not_elem_of_app, list_elem_of_singleton. destruct (decide (c' = name c)); naive_solver.
      * apply NoDup_cons. split; [|done]. rewrite H1, not_elem_of_app, list_elem_of_singleton. naive_solver.
  - rewrite omap_app. assert (omap (λ c0, match c0 with CChannel c1 => Some (name c1) | _ => None end) (CMessage <$> b) = []) as ->; [|apply IH].
    by induction b.
Qed.

Lemma recover_spec h its tail output fuel :
  header_fits h → is_complete h = false → Forall small its → ending tail →
  zlen (head_block big_endian h ++ items_bytes big_endian its ++ tail) < 2 ^ 63 → (2 * length its + 5 < fuel)%nat →
  ∃ f, Recoverer_Proc fuel (Some (head_block big_endian h ++ items_bytes big_endian its ++ tail)) output = Some (f, true) ∧
    fw_log f = [COpen output; CHeader GetHeader] ++ recover_calls [] its ∧
    log_messages (fw_log f) = messages_of its ∧ NoDup (log_channels (fw_log f)) ∧
    ∀ c, c ∈ log_channels (fw_log f) ↔ is_Some (first_channel c its).
Proof using ProtoLaws0 ProtoLaws1 ProtoLaws2 ProtoLaws3 ProtoLaws4 open_ok header_ok message_ok channel_ok channel_short chunk_header_short chunk_body_short.
  intros Hf Hc Hs He Hlen Hfuel. unfold Recoverer_Proc. rewrite Open_header by done.
  destruct (opened_log output fw_new) as (f1 & -> & E1). destruct (header_log GetHeader f1) as (f2 & -> & E2).
  unfold ReadIndex. cbn [r_header]. rewrite Hc. cbn [negb].
  destruct (recover_loop_items tail its He fuel [] _ f2 Hs (Reset_remaining h _ Hf Hlen) Hfuel) as (f & -> & E). exists f. split; [done|].
  assert (El : fw_log f = [COpen output; CHeader GetHeader] ++ recover_calls [] its) by (rewrite E, E2, E1, log_new; done).
  split; [done|]. rewrite El. split; [apply recovered_messages|]. destruct (recovered_channels [] its) as [H1 H2]. split; [exact H2|]. intros c. etransitivity; [apply H1|]. split; [by intros [_ ?]|intros ?; split; [by intros ?%elem_of_nil|done]].
Qed.

(** A finished file. *)
Lemma recover_finished h its idx input output fuel :
  laid_out big_endian h its idx input → zlen input < 2 ^ 63 → Forall small its → 0 < zlen (serialize idx) < 2 ^ 31 →
  (2 * length its + 5 < fuel)%nat →
  ∃ f, Recoverer_Proc fuel (Some input) output = Some (f, true) ∧ log_messages (fw_log f) = messages_of its.
Proof using ProtoLaws0 ProtoLaws1 ProtoLaws2 ProtoLaws3 ProtoLaws4 open_ok header_ok message_ok channel_ok channel_short chunk_header_short chunk_body_short.
  intros Hl Hlen Hs Hi Hfuel. pose proof Hl as (_ & _ & Hf & tail & El). unfold Recoverer_Proc.
  assert (Reader_Open big_endian (Some input) = (mkReader (mkFile input (Z.of_nat start) None) h [] false, true)) as -> by (rewrite El; by apply Open_header).
  destruct (opened_log output fw_new) as (f1 & -> & E1). destruct (header_log GetHeader f1) as (f2 & -> & E2).
  assert (Hsz : Z.of_nat start + zlen (items_bytes big_endian its) < 2 ^ 63).
  { rewrite El in Hlen. unfold zlen in *. rewrite !length_app, (length_head_block _ _ Hf) in Hlen. lia. }
  rewrite (ReadIndex_index big_endian h its idx input Hl Hsz (proj2 Hi)). cbn [r_index].
  assert (Hnote : ∀ cs vec f0, log_messages (fw_log (foldl (λ x c, note_channel c x) (vec, f0) cs).2) = log_messages (fw_log f0)).
  { induction cs as [|c cs IHc]; intros vec f0; [done|]. simpl. unfold note_channel at 2. cbn [fst snd]. case_bool_decide; rewrite IHc; [done|].
    rewrite channel_log. unfold log_messages. rewrite omap_app. simpl. by rewrite app_nil_r. }
  specialize (Hnote (omap channel_of_index idx) [] f2). destruct (foldl _ _ _) as [vec f3]. cbn [snd] in Hnote.
  assert (He : ending (encode big_endian (SECTION_INDEX, serialize idx) ++ tail)) by (right; right; exists (zlen (serialize idx)), (serialize idx ++ tail); unfold encode; rewrite <- (assoc_L (++)); split; [done|unfold in_s; lia]).
  destruct (recover_loop_items _ its He fuel vec (RecordFile.Reset (mkReader (mkFile input (Z.of_nat start) None) h idx false)) f3 Hs) as (f & -> & E); [|done|].
  { split; [done|]. split; [done|]. exists (head_block big_endian h). split; [exact El|]. unfold zlen. by rewrite (length_head_block big_endian h Hf). }
  exists f. split; [done|]. rewrite E. unfold log_messages in *. rewrite omap_app. fold (log_messages (recover_calls vec its)). rewrite recovered_messages.
  unfold log_messages in Hnote. rewrite Hnote, E2, E1, log_new. done.
Qed.

(** ** A recorder that dies *)

(** All that is on disk was written by this process. *)
Definition exact_file (h : Header) (f : File) : Prop := limit f = None ∧ pos f = zlen (bytes f) ∧ take start (bytes f) = head_block big_endian h ∧ (start ≤ length (bytes f))%nat.

Lemma put_new x : put x (mkFile [] 0 None) = mkFile x (zlen x) None.
Proof using Type. unfold put. cbn [bytes pos limit]. rewrite splice_at by (simpl; lia). simpl. by rewrite drop_nil, app_nil_r. Qed.

Lemma put_exact h x f : exact_file h f → exact_file h (put x f).
Proof using Type.
  intros (Hl & Hp & Ht & Hn). split; [done|]. assert (Hpos : Z.to_nat (pos f) = length (bytes f)) by (unfold zlen in Hp; lia). simpl. rewrite Hpos.
  rewrite splice_at by done. rewrite take_ge, drop_ge, app_nil_r by lia. split; [unfold zlen in *; rewrite length_app; lia|].
  rewrite take_app_le by done. split; [done|]. rewrite length_app. lia.
Qed.

Lemma WriteSection_exact h ty m w : ty ≠ SECTION_HEADER → exact_file h (w_file w) → exact_file h (w_file (WriteSection big_endian ty m w).1).
Proof using Type.
  intros Hty He. unfold WriteSection. rewrite (proj2 (Z.eqb_neq _ _) Hty). cbn [negb]. rewrite write_all by apply He. rewrite zlen_Section_bytes. simpl (negb _).
  rewrite write_stream_all by apply He. cbn [negb fst]. apply (put_exact h m), put_exact, He.
Qed.

Lemma WriteChannel_exact h c w : exact_file h (w_file w) → exact_file h (w_file (RecordFile.WriteChannel big_endian c w).1).
Proof using Type.
  intros He. unfold RecordFile.WriteChannel. pose proof (WriteSection_exact h SECTION_CHANNEL (serialize c) w ltac:(done) He) as H1.
  destruct (WriteSection _ _ _ _) as [w1 [|]]; done.
Qed.

Lemma WriteChunk_exact h c b w : exact_file h (w_file w) → exact_file h (w_file (WriteChunk big_endian c b w).1).
Proof using Type.
  intros He. unfold WriteChunk. pose proof (WriteSection_exact h SECTION_CHUNK_HEADER (serialize c) w ltac:(done) He) as H1.
  destruct (WriteSection _ SECTION_CHUNK_HEADER _ _) as [w1 [|]]; [|done]. cbn [negb fst] in *.
  match goal with |- context [WriteSection big_endian SECTION_CHUNK_BODY ?m ?z] => pose proof (WriteSection_exact h SECTION_CHUNK_BODY m z ltac:(done) H1) as H2 end.
  destruct (WriteSection _ SECTION_CHUNK_BODY _ _) as [w2 [|]]; done.
Qed.

Lemma exec_exact h y l y' : exact_file h (w_file (writer y)) → RecordFlush.exec big_endian y l = Some y' → ppc y' ≠ PDone → exact_file h (w_file (writer y')).
Proof using Type.
  intros He Hx Hd. destruct l as [c|m| | | |]; simpl in Hx.
  - case_decide; [|done]. injection Hx as <-. simpl. by apply WriteChannel_exact.
  - case_decide; [|done]. by injection Hx as <-.
  - case_decide; [|done]. by injection Hx as <-.
  - unfold producer_step in Hx. destruct (ppc y); repeat case_match; simplify_eq; done.
  - unfold flusher_step in Hx. destruct (fpc y); [by injection Hx as <-| |by injection Hx as <-|done|done]. repeat case_match; simplify_eq; try done.
    cbn [writer]. unfold flush_chunk. pose proof (WriteChunk_exact h (ck_header (chunk_flush_ (writer y))) (ck_body (chunk_flush_ (writer y))) (writer y) He) as H1.
    destruct (WriteChunk _ _ _ _) as [w1 b1]. done.
  - destruct (fpc y); try done. by injection Hx as <-.
Qed.

Lemma done_stays y l y' : RecordFlush.exec big_endian y l = Some y' → ppc y = PDone → ppc y' = PDone.
Proof using Type.
  intros Hx Hd. destruct l; simpl in Hx; rewrite ?Hd in Hx; try (by rewrite decide_False in Hx by done).
  - unfold producer_step in Hx. by rewrite Hd in Hx.
  - unfold flusher_step in Hx. repeat case_match; by simplify_eq.
  - case_match; by simplify_eq.
Qed.

Lemma run_exact h ls : ∀ y y', exact_file h (w_file (writer y)) → run (RecordFlush.exec big_endian) y ls = Some y' → ppc y' ≠ PDone → exact_file h (w_file (writer y')).
Proof using Type.
  assert (Hst : ∀ ls y y', run (RecordFlush.exec big_endian) y ls = Some y' → ppc y = PDone → ppc y' = PDone).
  { clear ls. induction ls as [|l ls IH]; intros y y' Hr Hd; simpl in Hr; [by simplify_eq|]. destruct (RecordFlush.exec big_endian y l) as [y1|] eqn:E; [|done]. eapply IH; [done|]. by eapply done_stays. }
  induction ls as [|l ls IH]; intros y y' He Hr Hd; simpl in Hr; [by simplify_eq|]. destruct (RecordFlush.exec big_endian y l) as [y1|] eqn:E; [|done].
  eapply IH; [|done|done]. eapply exec_exact; [done..|]. intros H1. by apply Hd, (Hst ls y1).
Qed.

Context (header_size : ∀ h, header_wf h → header_fits h).

(** *** At any byte *)

Lemma prefix_app_cases {A} (t a b : list A) : t `prefix_of` a ++ b → (t `prefix_of` a ∧ t ≠ a) ∨ ∃ u, t = a ++ u ∧ u `prefix_of` b.
Proof using Type.
  intros [k E]. destruct (decide (length a ≤ length t)%nat) as [Hl|Hl].
  - right. exists (drop (length a) t). assert (Et : t = a ++ drop (length a) t).
    { rewrite <- (firstn_skipn (length a) t) at 1. f_equal. apply (f_equal (take (length a))) in E. rewrite take_app_length, take_app_le in E by done. done. }
    split; [done|]. exists k. rewrite Et, <- (assoc_L (++)) in E. by apply app_inv_head in E.
  - left. split; [|by intros ->; lia]. exists (drop (length t) a). apply (f_equal (take (length a))) in E. rewrite take_app_length in E. rewrite take_app_ge in E by lia.
    remember (take _ k) as z. subst a. by rewrite drop_app_length.
Qed.

Lemma torn_section ty m tail : tail `prefix_of` encode big_endian (ty, m) → tail ≠ encode big_endian (ty, m) →
  ty = SECTION_CHANNEL ∨ ty = SECTION_CHUNK_HEADER ∨ ty = SECTION_CHUNK_BODY → zlen m < 2 ^ 31 → torn tail.
Proof using Type.
  intros Hp Hne Hty Hm. unfold encode in *. destruct (prefix_app_cases _ _ _ Hp) as [[[k E] Hn]|(u & -> & [k E])].
  - left. apply (f_equal zlen) in E as E'. rewrite zlen_Section_bytes in E'. unfold zlen in *. rewrite length_app in E'. destruct k; [by rewrite app_nil_r in E; congruence|]. simpl in E'. lia.
  - right. exists ty, (zlen m), u. split; [done|]. split; [done|]. cbn [snd] in *. rewrite E. unfold zlen. rewrite length_app. destruct k; [|simpl; rewrite E in Hm; unfold zlen in Hm; rewrite length_app in Hm; simpl in Hm; lia].
    rewrite app_nil_r in E. congruence.
Qed.

(** A part of an item. *)
Lemma torn_item i tail : small i → tail `prefix_of` items_bytes big_endian [i] → tail ≠ items_bytes big_endian [i] → ending tail.
Proof using Type.
  unfold items_bytes, encode_all. destruct i as [c|c b]; unfold small; simpl; rewrite !app_nil_r.
  - intros [[[_ H] _] _]%Forall_cons Hp Hne. left. by apply (torn_section SECTION_CHANNEL (serialize c)); [| |left|].
  - intros [[[_ H1] H2] [[[_ H3] H4] _]%Forall_cons]%Forall_cons Hp Hne. destruct (prefix_app_cases _ _ _ Hp) as [[Hp1 Hne1]|(u & -> & Hu)].
    + left. by apply (torn_section SECTION_CHUNK_HEADER (serialize c)); [| |right; left|].
    + right. left. exists c, u. split; [done|]. split; [done|]. apply (torn_section SECTION_CHUNK_BODY (serialize b)); [done| |by right; right|done]. intros ->. by apply Hne.
Qed.

(** What is on the disk when the process dies in the state [y]: all that was
    written so far; or in the middle of the next step, that is of [WriteChannel]
    or [WriteChunk], a part of what it adds, at any byte; or, in [Close], any
    part of the index. *)
Definition crashed (y : fsys) (bs : list Z) : Prop :=
  bs = bytes (w_file (writer y)) ∨
  (∃ l y', RecordFlush.exec big_endian y l = Some y' ∧ ppc y ≠ PTrailer ∧ Forall small (items y') ∧
    bytes (w_file (writer y)) `prefix_of` bs ∧ bs `prefix_of` bytes (w_file (writer y')) ∧ bs ≠ bytes (w_file (writer y'))) ∨
  (ppc y = PTrailer ∧ bytes (w_file (writer y)) `prefix_of` bs ∧ bs `prefix_of` bytes (w_file (WriteIndex big_endian (writer y)).1) ∧
    zlen (bytes (w_file (WriteIndex big_endian (writer y)).1)) < 2 ^ 63).

(** A step that is not the last of [Close] writes nothing or one item. *)
Lemma exec_items y l y' : RecordFlush.exec big_endian y l = Some y' → ppc y ≠ PTrailer →
  (items y' = items y ∧ w_file (writer y') = w_file (writer y)) ∨ (written y' = written y ∧ ppc y' = ppc y ∧ ∃ i, items y' = items y ++ [i]).
Proof using Type.
  intros Hx Ht. destruct l as [c|m| | | |]; simpl in Hx.
  - case_decide as Hp; [|done]. injection Hx as <-. right. simpl. split; [done|]. split; [done|]. by eexists.
  - case_decide; [|done]. injection Hx as <-. by left.
  - case_decide; [|done]. injection Hx as <-. by left.
  - unfold producer_step in Hx. destruct (ppc y); repeat case_match; simplify_eq; by left.
  - unfold flusher_step in Hx. destruct (fpc y); try done; [injection Hx as <-; by left| |injection Hx as <-; by left]. repeat case_match; simplify_eq; [by left..|].
    right. split; [done|]. split; [done|]. by eexists.
  - destruct (fpc y); try done. injection Hx as <-. by left.
Qed.

Lemma exact_bytes h bs f : exact_file h f → at_end start bs f → bytes f = head_block big_endian h ++ bs.
Proof using Type. intros (_ & Hp2 & Ht2 & _) [Hp Hl Hbs]. rewrite <- Ht2, <- Hbs. symmetry. apply firstn_all2. unfold zlen in Hp2. rewrite Hp in Hp2. lia. Qed.

(** The bytes of the file of a run. *)
Lemma run_bytes h ls y : header_wf h → run (RecordFlush.exec big_endian) (opened big_endian [] None h) ls = Some y → ppc y ≠ PDone → bounded y →
  bytes (w_file (writer y)) = head_block big_endian h ++ items_bytes big_endian (items y) ∧ holds big_endian h (items y) (writer y) ∧
  exact_file h (w_file (writer y)) ∧
  ∃ a f, chunk_active_ (writer y) = chunk_of a ∧ chunk_flush_ (writer y) = chunk_of f ∧ messages_of (items y) ++ f ++ a ≡ₚ written y.
Proof using header_size.
  intros Hwf Hr Hd Hb. pose proof (run_ok big_endian header_size h ls Hwf _ y Hb (opened_ok big_endian header_size [] h Hwf) Hr) as Hok.
  unfold sys_ok in Hok. rewrite decide_False in Hok by done. destruct Hok as [Hh _ (a & f0 & Ea & Ef & Hperm & _) _ _ _].
  pose proof Hh as [_ [Hp Hl Hbs] _ _].
  assert (He : exact_file h (w_file (writer y))).
  { eapply run_exact; [|done|done]. unfold opened. cbn [writer]. rewrite WriteHeader_puts by (by auto || done). unfold Writer_Open. cbn [fst with_header with_file w_file bytes].
    rewrite put_new. assert (Hz : length (head_block big_endian h) = start) by (apply length_head_block; auto). split; [done|]. split; [done|]. cbn [bytes]. rewrite <- Hz, firstn_all. done. }
  split; [|split; [done|split; [done|by exists a, f0]]]. by eapply exact_bytes.
Qed.

(** The index is added at the end. *)
Lemma WriteIndex_bytes h its w : exact_file h (w_file w) → holds big_endian h its w →
  ∃ m, bytes (w_file (WriteIndex big_endian w).1) = head_block big_endian h ++ items_bytes big_endian its ++ encode big_endian (SECTION_INDEX, m).
Proof using Type.
  intros He [Hl Hat _ _]. unfold WriteIndex. match goal with |- context [WriteSection big_endian SECTION_INDEX ?m ?z] => set (w1 := z); set (bs := m); exists bs end.
  pose proof (WriteSection_exact h SECTION_INDEX bs w1 ltac:(done) He) as Hx.
  destruct (WriteSection_appends big_endian start (items_bytes big_endian its) SECTION_INDEX bs w1 ltac:(done) Hl Hat) as (f & E & _ & Hat' & _).
  change (serialize (RecordFile.index_ w1)) with bs. rewrite E in Hx |- *. by apply exact_bytes.
Qed.

(** What the process leaves are its items and an ending. *)
Lemma crashed_ending h ls y bs : header_wf h → run (RecordFlush.exec big_endian) (opened big_endian [] None h) ls = Some y → ppc y ≠ PDone → bounded y → crashed y bs →
  ∃ tail, bs = head_block big_endian h ++ items_bytes big_endian (items y) ++ tail ∧ ending tail.
Proof using header_size.
  intros Hwf Hr Hd Hb Hc. destruct (run_bytes h ls y Hwf Hr Hd Hb) as (Eb & Hh & He & _).
  destruct Hc as [->|[(l & y' & Hx & Hp & Hs & [t1 ->] & Hbs & Hne)|(Hp & [t1 ->] & Hbs & Hlen)]].
  - exists []. rewrite Eb, app_nil_r. split; [done|]. left. by left.
  - exists t1. rewrite Eb, <- (assoc_L (++)). split; [done|]. destruct (exec_items y l y' Hx Hp) as [[_ Ew]|(Ew & Ep & i & Ei)].
    + exfalso. apply Hne. rewrite Ew in Hbs |- *. destruct Hbs as [t2 E]. rewrite <- (assoc_L (++)) in E. apply (f_equal length) in E. rewrite !length_app in E. destruct t1; [by rewrite app_nil_r|simpl in E; lia].
    + assert (Hr' : run (RecordFlush.exec big_endian) (opened big_endian [] None h) (ls ++ [l]) = Some y') by (rewrite run_app, Hr; cbn [run]; by rewrite Hx).
      destruct (run_bytes h _ y' Hwf Hr') as (Eb' & _); [by rewrite Ep|unfold bounded in *; by rewrite Ew|].
      rewrite Ei, items_bytes_app in Eb'. rewrite Ei in Hs. apply Forall_app in Hs as [_ [Hi _]%Forall_cons]. rewrite (assoc_L (++)), <- Eb in Eb'. rewrite Eb' in Hbs, Hne.
      apply prefix_app_inv in Hbs. apply (torn_item i); [done|done|]. intros ->. by apply Hne.
  - exists t1. rewrite Eb, <- (assoc_L (++)). split; [done|]. destruct (WriteIndex_bytes h (items y) (writer y) He Hh) as [m Em].
    rewrite (assoc_L (++)), <- Eb in Em. rewrite Em in Hbs, Hlen. apply prefix_app_inv in Hbs. destruct (prefix_app_cases _ _ _ Hbs) as [[[k E] Hn]|(u & -> & _)].
    + left. left. apply (f_equal zlen) in E as E'. rewrite zlen_Section_bytes in E'. unfold zlen in *. rewrite length_app in E'. destruct k; [by rewrite app_nil_r in E; congruence|simpl in E'; lia].
    + right. right. exists (zlen m), u. split; [done|]. unfold encode, zlen in *. rewrite !length_app in Hlen. cbn [snd] in Hlen. unfold in_s. lia.
Qed.

(** C5: a recorder that dies loses only what it had in memory: once the header
    of the file is written, and until [Close] writes it again, the process may
    stop at any time, wherever the flush thread is, and at any byte of what it
    writes: in the head of a section or in its message, between the header of a
    chunk and its body, in the index.  The recoverer gets back every message that
    was given to [WriteMessage] except those of the two chunks in memory, and
    every channel that was written, once. *)
Theorem crash_loses_only_the_buffers h ls y bs output fuel :
  header_wf h → is_complete h = false → run (RecordFlush.exec big_endian) (opened big_endian [] None h) ls = Some y → ppc y ≠ PDone →
  zlen (written y) < 2 ^ 64 → Forall (λ m, in_u 64 (time m)) (written y) → Forall small (items y) → crashed y bs →
  zlen bs < 2 ^ 63 → (2 * length (items y) + 5 < fuel)%nat →
  ∃ f, Recoverer_Proc fuel (Some bs) output = Some (f, true) ∧
    log_messages (fw_log f) ++ ck_body (chunk_flush_ (writer y)) ++ ck_body (chunk_active_ (writer y)) ≡ₚ written y ∧
    NoDup (log_channels (fw_log f)) ∧ ∀ c, c ∈ log_channels (fw_log f) ↔ is_Some (first_channel c (items y)).
Proof using ProtoLaws0 ProtoLaws1 ProtoLaws2 ProtoLaws3 ProtoLaws4 open_ok header_ok message_ok channel_ok channel_short chunk_header_short chunk_body_short header_size.
  intros Hwf Hc Hr Hd Hn Ht Hs Hbs Hlen Hfuel. destruct (run_bytes h ls y Hwf Hr Hd (conj Hn Ht)) as (_ & _ & _ & a & f0 & Ea & Ef & Hperm).
  destruct (crashed_ending h ls y bs Hwf Hr Hd (conj Hn Ht) Hbs) as (tail & -> & Htail).
  destruct (recover_spec h (items y) tail output fuel) as (f & E & _ & Hm & Hnd & Hch); try done; [by auto|].
  exists f. split; [exact E|]. split; [|done]. rewrite Hm, Ea, Ef, !(proj1 (chunk_of_body _)). done.
Qed.
End RecordTools.

(** ** Concrete files *)

#[local] Existing Instances packed_header packed_channel packed_chunk_header packed_chunk_body packed_index.
#[local] Existing Instance packed_laws.

(** File writers that keep their log. *)
#[local] Instance log_writer : FileWriter (list call) := {|
  fw_new := [];
  fw_open p l := (l ++ [COpen p], true);
  fw_header h l := (l ++ [CHeader h], true);
  fw_channel c l := (l ++ [CChannel c], true);
  fw_message m l := (l ++ [CMessage m], true);
  fw_close l := l ++ [CClose];
|}.

#[local] Program Instance log_laws : FileWriterLaws (list call) := {| fw_log l := l |}.
Solve Obligations with by intros; simplify_eq/=.

Lemma log_open_ok p (f : list call) : (fw_open p f).2 = true. Proof. done. Qed.
Lemma log_header_ok h (f : list call) : (fw_header h f).2 = true. Proof. done. Qed.
Lemma log_channel_ok c (f : list call) : (fw_channel c f).2 = true. Proof. done. Qed.
Lemma log_message_ok m (f : list call) : (fw_message m f).2 = true. Proof. done. Qed.

Lemma packed_short {M} `{Countable M} (d m : M) bs : parse (Proto := packed d) bs = Parsed m → zlen (serialize (Proto := packed d) m) ≤ zlen bs.
Proof. simpl. destruct bs as [|[|p|p] [|? ?]]; try done. Qed.

Definition example_input : list Z := bytes (w_file (writer example_end)).
Definition example_split : Spliter := mkSpliter ["pose"]%string [] 6 100.

Lemma example_laid_out : ∃ h idx, laid_out false h (items example_end) idx example_input ∧ begin_time h ≤ 100 ∧ 6 ≤ end_time h.
Proof.
  exists (r_header (Reader_Open false (Some example_input)).1), (r_index (ReadIndex false (Reader_Open false (Some example_input)).1).1).
  split; [|vm_compute; split; discriminate]. split; [vm_compute; reflexivity|]. split; [vm_compute; reflexivity|]. split; [apply packed_header_size|].
  exists (drop 2183 example_input). vm_compute. reflexivity.
Qed.

Lemma split_selects_witness :
  ∃ f, Spliter_Proc false 9 example_split (Some example_input) "out" = Some (f, true) ∧ log_messages (fw_log f) = [message "pose" 8].
Proof.
  destruct example_laid_out as (h & idx & Hl & Hb & He). destruct example_end_facts as (_ & _ & _ & L & B).
  destruct (split_selects (F := list call) false log_open_ok log_header_ok log_channel_ok log_message_ok example_split h (items example_end) idx example_input "out" 9)
    as (f & E & _ & Hm).
  - simpl. lia.
  - intros c _ H. by apply elem_of_nil in H.
  - exact He.
  - exact Hb.
  - exact Hl.
  - unfold example_input. rewrite B. lia.
  - apply Forall_true. apply packed_small.
  - vm_compute. repeat constructor; discriminate.
  - change (zlen (serialize idx)) with 1. lia.
  - rewrite L. lia.
  - exists f. split; [exact E|]. rewrite Hm. vm_compute. reflexivity.
Defined.

(** A recorder that dies while its thread writes a chunk: the header of the chunk
    is in the file and the head of its body, but nothing of the body. *)
Definition dying : fsys := default (opened false [] None (example_header 0 10)) (run (RecordFlush.exec false) (opened false [] None (example_header 0 10)) (example_calls ++ [CallMessage (message "scan" 9); Producer; CallMessage (message "pose" 12)])).
Definition after_dying : fsys := default dying (flusher_step false dying).
Definition dying_bytes : list Z := take (length (bytes (w_file (writer dying))) + 33) (bytes (w_file (writer after_dying))).

Lemma dying_facts :
  run (RecordFlush.exec false) (opened false [] None (example_header 0 10)) (example_calls ++ [CallMessage (message "scan" 9); Producer; CallMessage (message "pose" 12)]) = Some dying ∧
  bool_decide (ppc dying = PDone) = false ∧ bool_decide (ppc dying = PTrailer) = false ∧ flusher_step false dying = Some after_dying ∧
  written dying = [message "pose" 5; message "scan" 7; message "pose" 8; message "scan" 9; message "pose" 12] ∧ length (items dying) = 3%nat ∧
  zlen dying_bytes = 2165 ∧ zlen (bytes (w_file (writer after_dying))) = 2166 ∧
  ck_body (chunk_flush_ (writer dying)) ++ ck_body (chunk_active_ (writer dying)) = [message "pose" 8; message "scan" 9; message "pose" 12].
Proof. vm_compute. done. Qed.

Lemma dying_crashed : crashed false dying dying_bytes.
Proof.
  destruct dying_facts as (_ & _ & Hp & Hx & _ & _ & L & L' & _). right. left. exists Flusher, after_dying. split; [exact Hx|]. split; [by apply bool_decide_eq_false_1 in Hp|].
  split; [apply Forall_true, packed_small|]. split_and!.
  - exists (drop (length (bytes (w_file (writer dying)))) dying_bytes). vm_compute. reflexivity.
  - exists (drop (length dying_bytes) (bytes (w_file (writer after_dying)))). vm_compute. reflexivity.
  - intros E. rewrite E in L. lia.
Qed.

Lemma crash_loses_only_the_buffers_witness :
  ∃ f, Recoverer_Proc false 12 (Some dying_bytes) "out" = Some (f, true) ∧ NoDup (log_channels (fw_log f)) ∧
    log_messages (fw_log f) ++ [message "pose" 8; message "scan" 9; message "pose" 12] ≡ₚ [message "pose" 5; message "scan" 7; message "pose" 8; message "scan" 9; message "pose" 12].
Proof.
  destruct dying_facts as (Hr & Hd & _ & _ & W & L & B & _ & M).
  destruct (crash_loses_only_the_buffers (F := list call) false log_open_ok log_header_ok log_channel_ok log_message_ok
    (λ bs c, packed_short no_channel c bs) (λ bs c, packed_short no_chunk_header c bs) (λ bs b, packed_short ([] : ChunkBody) b bs) (λ h _, packed_header_size h)
    (example_header 0 10) (example_calls ++ [CallMessage (message "scan" 9); Producer; CallMessage (message "pose" 12)]) dying dying_bytes "out" 12) as (f & E & Hm & Hnd & _).
  - apply example_header_wf; unfold in_u; lia.
  - reflexivity.
  - exact Hr.
  - by apply bool_decide_eq_false_1 in Hd.
  - rewrite W. unfold zlen. simpl. lia.
  - rewrite W. repeat constructor; unfold in_u; simpl; lia.
  - apply Forall_true. apply packed_small.
  - exact dying_crashed.
  - rewrite B. lia.
  - rewrite L. lia.
  - exists f. split; [exact E|]. split; [exact Hnd|]. rewrite W, M in Hm. exact Hm.
Defined.

(** A section of a type that is not known ends the recovery: what follows is
    lost, although it is intact. *)
Definition unknown_then (its : list item) : list Z :=
  head_block false (example_header 0 10) ++ Section_bytes false (mkSection 7 0) ++ items_bytes false its.

Theorem unknown_section_ends_recovery :
  Recoverer_Proc false 20 (Some (unknown_then (items example_end))) "out" = Some ([COpen "out"; CHeader GetHeader], false).
Proof. vm_compute. reflexivity. Qed.

(** Splitting a file that was not finished copies everything and fails: the end
    of the file is only seen by a section that cannot be read. *)
Theorem unfinished_split_fails :
  ∃ f, Spliter_Proc false 20 (mkSpliter [] [] 0 100) (Some (head_block false (example_header 0 10) ++ items_bytes false (items example_end))) "out" = Some (f, false) ∧
    log_messages (fw_log f) = [message "pose" 5; message "scan" 7; message "pose" 8].
Proof. eexists. split; [vm_compute; reflexivity|]. vm_compute. reflexivity. Qed.
