(* ===== verification/Player.v ===== *)
(** * Playing recordings

    The player of [cyber_recorder]
    ([src/code/cyber/tools/cyber_recorder/player/]): one thread
    ([PlayTaskProducer]) goes through the messages of a [RecordViewer] and puts
    tasks into a [PlayTaskBuffer], another ([PlayTaskConsumer]) takes them out
    and writes each message when its time has come; the main thread waits until
    all is played.  The threads are interleaved step by step; time passes in
    steps of its own. *)

From stdpp Require Import base list strings gmap sorting.
From S2P Require Import Prelude RecordFile RecordViewer.

(** ** [PlayTask], [PlayTaskBuffer] *)

Record PlayTask := mkTask { msg_ : SingleMessage; msg_real_time_ns_ : Z; msg_play_time_ns_ : Z }.

(** A multimap: a task goes behind those of its time. *)
Fixpoint Push (t : PlayTask) (tasks : list PlayTask) : list PlayTask :=
  match tasks with
  | [] => [t]
  | u :: us => if msg_play_time_ns_ t <? msg_play_time_ns_ u then t :: u :: us else u :: Push t us
  end.

Definition Front (tasks : list PlayTask) : option PlayTask := head tasks.
Definition PopFront (tasks : list PlayTask) : list PlayTask := tail tasks.

Lemma Push_last t tasks : Forall (λ u, msg_play_time_ns_ u ≤ msg_play_time_ns_ t) tasks → Push t tasks = tasks ++ [t].
Proof.
  induction 1 as [|u us Hu _ IH]; [done|]. simpl. rewrite (proj2 (Z.ltb_ge _ _)) by done. by rewrite IH.
Qed.

(** ** [PlayParam], and what a file says of itself *)

Record PlayParam := mkParam {
  is_play_all_channels : bool; is_loop_playback : bool; begin_time_ns : Z; end_time_ns : Z; start_time_s : Z; preload_time_s : Z;
  channels_to_play : gset string; black_channels : gset string }.

Record FileInfo := mkInfo {
  info_valid : bool; info_complete : bool; info_begin_time : Z; info_end_time : Z; info_message_number : Z;
  info_channels : list (string * (string * Z)) }.

Definition kPreloadTimeSec : Z := 3.
Definition kMinTaskBufferSize : Z := 500.

(** *** [PlayTaskProducer] before it starts *)

Record RecordInfo := mkRecordInfo {
  earliest_begin_time_ : Z; latest_end_time_ : Z; total_msg_num_ : Z; msg_types_ : gmap string string; record_readers_ : list FileInfo }.

Definition no_info : RecordInfo := mkRecordInfo (2 ^ 64 - 1) 0 0 ∅ [].

(** The loop over the channels of a file. *)
Definition read_channel (p : PlayParam) (i : RecordInfo) (c : string * (string * Z)) : RecordInfo :=
  let '(channel_name, (type, number)) := c in
  if decide (channel_name ∈ black_channels p) then
    mkRecordInfo (earliest_begin_time_ i) (latest_end_time_ i) (u64 (total_msg_num_ i - number)) (msg_types_ i) (record_readers_ i)
  else
    mkRecordInfo (earliest_begin_time_ i) (latest_end_time_ i)
      (if negb (is_play_all_channels p) && bool_decide (channel_name ∈ channels_to_play p) then u64 (total_msg_num_ i + number) else total_msg_num_ i)
      (<[channel_name := type]> (msg_types_ i)) (record_readers_ i).

Definition read_file (p : PlayParam) (i : RecordInfo) (f : FileInfo) : RecordInfo :=
  if negb (info_valid f) then i
  else if negb (info_complete f) then i
  else
    let i := mkRecordInfo (earliest_begin_time_ i) (latest_end_time_ i) (total_msg_num_ i) (msg_types_ i) (record_readers_ i ++ [f]) in
    let i := foldl (read_channel p) i (info_channels f) in
    mkRecordInfo (if info_begin_time f <? earliest_begin_time_ i then info_begin_time f else earliest_begin_time_ i)
      (if latest_end_time_ i <? info_end_time f then info_end_time f else latest_end_time_ i)
      (if is_play_all_channels p then u64 (total_msg_num_ i + info_message_number f) else total_msg_num_ i) (msg_types_ i) (record_readers_ i).

Definition ReadRecordInfo (p : PlayParam) (files : list FileInfo) : option RecordInfo :=
  match files with [] => None | _ => Some (foldl (read_file p) no_info files) end.

(** [start_time_s * 1e9] is exact as long as it is below [2 ^ 53]. *)
Definition UpdatePlayParam (i : RecordInfo) (p : PlayParam) : PlayParam * bool :=
  let b := if begin_time_ns p <? earliest_begin_time_ i then earliest_begin_time_ i else begin_time_ns p in
  let b := if 0 <? start_time_s p then u64 (b + start_time_s p * 1000000000) else b in
  let e := if latest_end_time_ i <? end_time_ns p then latest_end_time_ i else end_time_ns p in
  let ok := b <? e in
  (mkParam (is_play_all_channels p) (is_loop_playback p) b e (start_time_s p)
     (if ok && (preload_time_s p =? 0) then kPreloadTimeSec else preload_time_s p) (channels_to_play p) (black_channels p), ok).

(** The channels that get a writer. *)
Definition CreateWriters (i : RecordInfo) (p : PlayParam) : gset string :=
  filter (λ c, (is_play_all_channels p = true ∨ c ∈ channels_to_play p) ∧ c ∉ black_channels p) (dom (msg_types_ i)).

Definition Producer_Init (p : PlayParam) (files : list FileInfo) : option (PlayParam * gset string * RecordInfo) :=
  match ReadRecordInfo p files with
  | None => None
  | Some i => match UpdatePlayParam i p with (p, true) => Some (p, CreateWriters i p, i) | (_, false) => None end
  end.

Section Player.
(** What the viewer gives between [begin()] and [end()], the channels with a
    writer, and how many tasks may wait; [scale] divides a time by the rate. *)
Context (view : list SingleMessage) (writers_ : gset string) (preload_size : Z) (scale : Z → Z).
Context (begin_time end_time : Z) (is_loop : bool).

Definition loop_time_ns : Z := u64 (end_time - begin_time).

(** ** The threads *)

Inductive producer := PTop | PIter (itr : list SingleMessage) | PWait (itr : list SingleMessage) | PFor (itr : list SingleMessage) | PNext | PExit.

Inductive consumer :=
  | CTop | CHave (t : PlayTask) | CBase (t : PlayTask) (sleep_ns : Z) | CBaseSleep (t : PlayTask) (sleep_ns until : Z) | CBaseLast (t : PlayTask) (until : Z) | CDue (t : PlayTask) | CSleep (t : PlayTask) (until : Z) | CPlay (t : PlayTask)
  | CPause (t : PlayTask) | CPauseSleep (t : PlayTask) (until : Z) | CPop (t : PlayTask) | CExit.

(** [pushed] and [played] are not part of the program: what was pushed, and what
    was played when. *)
Record sys := mkSys {
  tasks_ : list PlayTask;
  p_pc : producer; p_stopped : bool; loop_num : Z;
  c_pc : consumer; c_stopped : bool; is_paused_ : bool; is_playonce_ : bool;
  base_msg_play_time_ns_ : Z; base_real_time_ns : Z; accumulated_pause_time_ns : Z;
  now : Z; finished : bool;
  pushed : list PlayTask; played : list (PlayTask * Z) }.

Definition kPauseSleepNanoSec : Z := 100000000.
Definition MIN_SLEEP_DURATION_NS : Z := 200000000.

Definition with_producer (p : producer) (y : sys) : sys :=
  mkSys (tasks_ y) p (p_stopped y) (loop_num y) (c_pc y) (c_stopped y) (is_paused_ y) (is_playonce_ y) (base_msg_play_time_ns_ y) (base_real_time_ns y)
    (accumulated_pause_time_ns y) (now y) (finished y) (pushed y) (played y).
Definition with_consumer (c : consumer) (y : sys) : sys :=
  mkSys (tasks_ y) (p_pc y) (p_stopped y) (loop_num y) c (c_stopped y) (is_paused_ y) (is_playonce_ y) (base_msg_play_time_ns_ y) (base_real_time_ns y)
    (accumulated_pause_time_ns y) (now y) (finished y) (pushed y) (played y).
Definition push_task (t : PlayTask) (y : sys) : sys :=
  mkSys (Push t (tasks_ y)) (p_pc y) (p_stopped y) (loop_num y) (c_pc y) (c_stopped y) (is_paused_ y) (is_playonce_ y) (base_msg_play_time_ns_ y) (base_real_time_ns y)
    (accumulated_pause_time_ns y) (now y) (finished y) (pushed y ++ [t]) (played y).
Definition pop_task (y : sys) : sys :=
  mkSys (PopFront (tasks_ y)) (p_pc y) (p_stopped y) (loop_num y) (c_pc y) (c_stopped y) (is_paused_ y) (is_playonce_ y) (base_msg_play_time_ns_ y) (base_real_time_ns y)
    (accumulated_pause_time_ns y) (now y) (finished y) (pushed y) (played y).
Definition play_task (t : PlayTask) (y : sys) : sys :=
  mkSys (tasks_ y) (p_pc y) (p_stopped y) (loop_num y) (c_pc y) (c_stopped y) (is_paused_ y) false (base_msg_play_time_ns_ y) (base_real_time_ns y)
    (accumulated_pause_time_ns y) (now y) (finished y) (pushed y) (played y ++ [(t, now y)]).
Definition with_base (play real : Z) (y : sys) : sys :=
  mkSys (tasks_ y) (p_pc y) (p_stopped y) (loop_num y) (c_pc y) (c_stopped y) (is_paused_ y) (is_playonce_ y) play real
    (accumulated_pause_time_ns y) (now y) (finished y) (pushed y) (played y).
Definition with_pause (n : Z) (y : sys) : sys :=
  mkSys (tasks_ y) (p_pc y) (p_stopped y) (loop_num y) (c_pc y) (c_stopped y) (is_paused_ y) (is_playonce_ y) (base_msg_play_time_ns_ y) (base_real_time_ns y)
    n (now y) (finished y) (pushed y) (played y).
Definition with_loop (stopped : bool) (n : Z) (y : sys) : sys :=
  mkSys (tasks_ y) (p_pc y) stopped n (c_pc y) (c_stopped y) (is_paused_ y) (is_playonce_ y) (base_msg_play_time_ns_ y) (base_real_time_ns y)
    (accumulated_pause_time_ns y) (now y) (finished y) (pushed y) (played y).
Definition with_control (cstop paused once : bool) (y : sys) : sys :=
  mkSys (tasks_ y) (p_pc y) (p_stopped y) (loop_num y) (c_pc y) cstop paused once (base_msg_play_time_ns_ y) (base_real_time_ns y)
    (accumulated_pause_time_ns y) (now y) (finished y) (pushed y) (played y).
Definition with_clock (t : Z) (fin : bool) (y : sys) : sys :=
  mkSys (tasks_ y) (p_pc y) (p_stopped y) (loop_num y) (c_pc y) (c_stopped y) (is_paused_ y) (is_playonce_ y) (base_msg_play_time_ns_ y) (base_real_time_ns y)
    (accumulated_pause_time_ns y) t fin (pushed y) (played y).

Definition plus_time_ns (k : Z) : Z := u64 (k * loop_time_ns).
Definition task_of (k : Z) (m : SingleMessage) : PlayTask := mkTask m (time m) (u64 (time m + plus_time_ns k)).

Definition full (y : sys) : bool := preload_size <? zlen (tasks_ y).

(** [PlayTaskProducer::ThreadFunc], one test or access of the buffer at a time. *)
Definition producer_step (y : sys) : option sys :=
  match p_pc y with
  | PTop => Some (with_producer (if p_stopped y then PExit else PIter view) y)
  | PIter itr => Some (with_producer (if bool_decide (itr = []) || p_stopped y then PNext else PWait itr) y)
  | PWait itr => Some (with_producer (if negb (p_stopped y) && full y then PWait itr else PFor itr) y)
  | PFor itr =>
      match itr with
      | [] => Some (with_producer (PIter []) y)
      | m :: itr' =>
          if p_stopped y || full y then Some (with_producer (PIter itr) y)
          else if bool_decide (channel_name m ∈ writers_) then Some (push_task (task_of (loop_num y) m) (with_producer (PFor itr') y))
          else Some (with_producer (PFor itr') y)
      end
  | PNext => if negb is_loop then Some (with_loop true (loop_num y) (with_producer PExit y)) else Some (with_loop (p_stopped y) (u32 (loop_num y + 1)) (with_producer PTop y))
  | PExit => None
  end.

(** [PlayTaskConsumer::ThreadFunc]; a sleep ends when its time is over, but may
    last longer. *)
Definition consumer_step (y : sys) : option sys :=
  match c_pc y with
  | CTop => Some (with_consumer (if c_stopped y then CExit else match Front (tasks_ y) with None => CTop | Some t => CHave t end) y)
  | CHave t =>
      if base_msg_play_time_ns_ y =? 0 then
        if begin_time <? msg_play_time_ns_ t then
          Some (with_base (msg_play_time_ns_ t) (base_real_time_ns y) (with_consumer (CBase t (scale (msg_play_time_ns_ t - begin_time))) y))
        else Some (with_base (msg_play_time_ns_ t) (now y) (with_consumer (CDue t) y))
      else Some (with_consumer (CDue t) y)
  | CBase t sleep_ns =>
      if (MIN_SLEEP_DURATION_NS <? sleep_ns) && negb (c_stopped y)
      then Some (with_consumer (CBaseSleep t (sleep_ns - MIN_SLEEP_DURATION_NS) (now y + MIN_SLEEP_DURATION_NS)) y)
      else if c_stopped y then Some (with_consumer CExit y)
      else Some (with_consumer (CBaseLast t (now y + sleep_ns)) y)
  | CBaseSleep t sleep_ns until => if until <=? now y then Some (with_consumer (CBase t sleep_ns) y) else None
  | CBaseLast t until => if until <=? now y then Some (with_base (base_msg_play_time_ns_ y) (now y) (with_consumer (CDue t) y)) else None
  | CDue t =>
      let task_interval_ns := scale (u64 (msg_play_time_ns_ t - base_msg_play_time_ns_ y)) in
      let real_time_interval_ns := u64 (now y - base_real_time_ns y - accumulated_pause_time_ns y) in
      Some (with_consumer (if real_time_interval_ns <? task_interval_ns then CSleep t (now y + (task_interval_ns - real_time_interval_ns)) else CPlay t) y)
  | CSleep t until => if until <=? now y then Some (with_consumer (CPlay t) y) else None
  | CPlay t => Some (play_task t (with_consumer (CPause t) y))
  | CPause t =>
      if is_paused_ y && negb (c_stopped y) && negb (is_playonce_ y) then Some (with_consumer (CPauseSleep t (now y + kPauseSleepNanoSec)) y)
      else Some (with_consumer (CPop t) y)
  | CPauseSleep t until =>
      if until <=? now y then Some (with_pause (u64 (accumulated_pause_time_ns y + kPauseSleepNanoSec)) (with_consumer (CPause t) y)) else None
  | CPop t => Some (pop_task (with_consumer CTop y))
  | CExit => None
  end.

Inductive label :=
  | Producer
  | Consumer
  | Tick (dt : Z)        (** time passes *)
  | Key (paused once : bool)  (** the main thread hands on the keys *)
  | Main                 (** the main thread looks whether all is played *)
  | UserStop             (** [Player::Stop]: it stops the producer *)
  | StopConsumer.        (** and then the consumer *)

(** The main thread reads the flag of the producer and then the buffer, in one
    step here: once the producer has stopped itself nothing is pushed.  The
    threads go on between the two halves of [Player::Stop], as the [Stop] of a
    running producer does not wait for its thread. *)
Definition exec (y : sys) (l : label) : option sys :=
  match l with
  | Producer => producer_step y
  | Consumer => consumer_step y
  | Tick dt => if 0 <? dt then Some (with_clock (now y + dt) (finished y) y) else None
  | Key paused once => Some (with_control (c_stopped y) paused (is_playonce_ y || once) y)
  | Main => if p_stopped y && bool_decide (tasks_ y = []) then Some (with_clock (now y) true (with_control true (is_paused_ y) (is_playonce_ y) y)) else None
  | UserStop => Some (with_loop true (loop_num y) y)
  | StopConsumer => if p_stopped y then Some (with_control true (is_paused_ y) (is_playonce_ y) y) else None
  end.

(** Both threads have been started. *)
Definition started (t0 : Z) : sys := mkSys [] PTop false 0 CTop false false false 0 0 0 t0 false [] [].

(** ** What the threads keep *)

Definition selected_view : list SingleMessage := filter (λ m, channel_name m ∈ writers_) view.

(** The tasks of the first [k] rounds. *)
Definition rounds (k : nat) : list PlayTask := seq 0 k ≫= λ i, task_of (Z.of_nat i) <$> selected_view.

Lemma rounds_S k : rounds (S k) = rounds k ++ (task_of (Z.of_nat k) <$> selected_view).
Proof using Type. unfold rounds. rewrite seq_S, bind_app. f_equal. simpl. by rewrite app_nil_r. Qed.

Lemma rounds_prefix j k : (j ≤ k)%nat → rounds j `prefix_of` rounds k.
Proof using Type.
  intros H. induction H as [|k _ IH]; [done|]. rewrite rounds_S. by apply prefix_app_r.
Qed.

Context (window : 0 < begin_time < end_time) (room : 0 ≤ preload_size).
Context (view_in_order : in_order view) (view_in_window : Forall (λ m, begin_time ≤ time m ≤ end_time) view).

(** The times of the rounds up to [k] are below [2 ^ 64]. *)
Definition fits (k : Z) : Prop := 0 ≤ k < 2 ^ 32 ∧ k * (end_time - begin_time) + end_time < 2 ^ 64.

Lemma task_time k m : fits k → begin_time ≤ time m ≤ end_time → msg_play_time_ns_ (task_of k m) = time m + k * (end_time - begin_time).
Proof using window.
  intros [Hk Hf] Hm. unfold task_of, plus_time_ns, loop_time_ns. simpl. assert (0 ≤ k * (end_time - begin_time)) by nia.
  rewrite (wrap_small 64 (end_time - begin_time)) by (unfold in_u; nia). rewrite (wrap_small 64 (k * _)) by (unfold in_u; lia). apply wrap_small. unfold in_u. lia.
Qed.

Definition later (t u : PlayTask) : Prop := msg_play_time_ns_ t ≤ msg_play_time_ns_ u.

(** Where the producer is. *)
Definition producer_ok (y : sys) : Prop :=
  match p_pc y with
  | PTop => if p_stopped y then pushed y `prefix_of` rounds (Z.to_nat (loop_num y)) else pushed y = rounds (Z.to_nat (loop_num y))
  | PIter itr | PWait itr | PFor itr => ∃ pre, view = pre ++ itr ∧ pushed y = rounds (Z.to_nat (loop_num y)) ++ (task_of (loop_num y) <$> filter (λ m, channel_name m ∈ writers_) pre)
  | PNext => if p_stopped y then pushed y `prefix_of` rounds (S (Z.to_nat (loop_num y))) else pushed y = rounds (S (Z.to_nat (loop_num y)))
  | PExit => pushed y `prefix_of` rounds (S (Z.to_nat (loop_num y)))
  end.

(** The task in the hand of the consumer, and whether it was played. *)
Definition in_hand (c : consumer) : option (PlayTask * bool) :=
  match c with
  | CTop | CExit => None
  | CHave t | CBase t _ | CBaseSleep t _ _ | CBaseLast t _ | CDue t | CSleep t _ | CPlay t => Some (t, false)
  | CPause t | CPauseSleep t _ | CPop t => Some (t, true)
  end.

Definition due (y : sys) (t : PlayTask) (at_ : Z) : Prop := base_real_time_ns y + scale (msg_play_time_ns_ t - base_msg_play_time_ns_ y) ≤ at_.

Definition consumer_ok (y : sys) : Prop :=
  ∃ gone, pushed y = gone ++ tasks_ y ∧
    (played y).*1 = gone ++ match in_hand (c_pc y) with Some (t, true) => [t] | _ => [] end ∧
    match in_hand (c_pc y) with Some (t, _) => head (tasks_ y) = Some t | None => True end.

Definition hand_on_time (y : sys) : Prop :=
  match c_pc y with
  | CTop | CExit | CHave _ => True
  | CBase _ _ | CBaseSleep _ _ _ | CBaseLast _ _ => played y = [] ∧ base_msg_play_time_ns_ y ≠ 0 ∧ accumulated_pause_time_ns y = 0 ∧ base_real_time_ns y = 0
  | CDue _ | CPause _ | CPop _ => base_msg_play_time_ns_ y ≠ 0
  | CSleep t until => base_msg_play_time_ns_ y ≠ 0 ∧ due y t until
  | CPlay t => base_msg_play_time_ns_ y ≠ 0 ∧ due y t (now y)
  | CPauseSleep _ until => base_msg_play_time_ns_ y ≠ 0 ∧ base_real_time_ns y + accumulated_pause_time_ns y + kPauseSleepNanoSec ≤ until
  end.

Record clock_ok (y : sys) : Prop := {
  ck_now : now y < 2 ^ 64;
  ck_pause : 0 ≤ accumulated_pause_time_ns y;
  ck_real : 0 ≤ base_real_time_ns y;
  ck_passed : base_real_time_ns y + accumulated_pause_time_ns y ≤ now y;
  ck_first : base_msg_play_time_ns_ y = 0 → played y = [] ∧ accumulated_pause_time_ns y = 0 ∧ base_real_time_ns y = 0;
  ck_base : base_msg_play_time_ns_ y ≠ 0 → ∃ t, head (pushed y) = Some t ∧ base_msg_play_time_ns_ y = msg_play_time_ns_ t;
  ck_played : ∀ t a, (t, a) ∈ played y → due y t a ∧ a ≤ now y;
  ck_hand : hand_on_time y;
}.

(** No more rounds than steps. *)
Definition at_most (n : nat) : Z := if is_loop then Z.of_nat n else 0.

Record player_inv (n : nat) (y : sys) : Prop := {
  pi_producer : producer_ok y;
  pi_consumer : consumer_ok y;
  pi_clock : clock_ok y;
  pi_order : StronglySorted later (pushed y);
  pi_times : Forall (λ t, 0 < msg_play_time_ns_ t < 2 ^ 64) (pushed y);
  pi_room : zlen (tasks_ y) ≤ preload_size + 1;
  pi_loop : 0 ≤ loop_num y ≤ at_most n;
}.

Lemma rounds_elem u k : u ∈ rounds k ↔ ∃ i m, (i < k)%nat ∧ m ∈ selected_view ∧ u = task_of (Z.of_nat i) m.
Proof using Type.
  unfold rounds. rewrite list_elem_of_bind. setoid_rewrite list_elem_of_fmap. setoid_rewrite elem_of_seq. split; [intros (i & (m & -> & Hm) & Hi); exists i, m; split_and!; [lia|done|done]|].
  intros (i & m & Hi & Hm & ->). exists i. split; [by exists m|lia].
Qed.

Lemma view_times m : m ∈ view → begin_time ≤ time m ≤ end_time.
Proof using view_in_window. by rewrite Forall_forall in view_in_window; apply view_in_window. Qed.

(** A task that is pushed comes after all that were. *)
Lemma pushed_before k pre m itr : fits k → view = pre ++ m :: itr →
  Forall (λ u, later u (task_of k m)) (rounds (Z.to_nat k) ++ (task_of k <$> filter (λ m, channel_name m ∈ writers_) pre)).
Proof using window view_in_order view_in_window.
  clear preload_size scale room. intros Hf Ev. assert (Hm : begin_time ≤ time m ≤ end_time) by (apply view_times; rewrite Ev; set_solver).
  apply Forall_app. split; apply Forall_forall; unfold later.
  - intros u (i & m' & Hi & [_ Hm']%list_elem_of_filter & ->)%rounds_elem. apply view_times in Hm'. destruct Hf as [Hk Hf].
    assert (Z.of_nat i < k) by lia. assert (fits (Z.of_nat i)) by (split; [lia|nia]). rewrite !task_time by (done || by split). nia.
  - intros u (m' & -> & [_ Hm']%list_elem_of_filter)%list_elem_of_fmap. assert (m' ∈ view) by (rewrite Ev; set_solver).
    assert (Ho : in_order (pre ++ m :: itr)) by (by rewrite <- Ev). apply StronglySorted_app in Ho as (Ho & _).
    rewrite !task_time by (done || by apply view_times). specialize (Ho m' m Hm'). assert (m ∈ m :: itr) as Hin by left. specialize (Ho Hin). simpl in Ho. lia.
Qed.

Lemma fits_below j k : fits k → 0 ≤ j ≤ k → fits j.
Proof using window. intros [Hk Hf] Hj. split; [lia|nia]. Qed.

Lemma due_now y t : clock_ok y → t ∈ pushed y → StronglySorted later (pushed y) → Forall (λ t, 0 < msg_play_time_ns_ t < 2 ^ 64) (pushed y) →
  base_msg_play_time_ns_ y ≠ 0 →
  let i := scale (u64 (msg_play_time_ns_ t - base_msg_play_time_ns_ y)) in
  let r := u64 (now y - base_real_time_ns y - accumulated_pause_time_ns y) in
  due y t (if r <? i then now y + (i - r) else now y).
Proof using Type.
  intros C Ht Ho Hp Hb. cbv zeta. destruct (ck_base y C Hb) as (h & Hh & Eb).
  assert (Hht : msg_play_time_ns_ h ≤ msg_play_time_ns_ t).
  { destruct (pushed y) as [|h' l]; [done|]. injection Hh as ->. apply elem_of_cons in Ht as [->|Ht]; [done|].
    inversion Ho as [|? ? _ HF]; subst. rewrite Forall_forall in HF. by apply HF. }
  rewrite Forall_forall in Hp. assert (Hh' : h ∈ pushed y) by (destruct (pushed y); [done|injection Hh as ->; left]).
  pose proof (Hp t Ht). pose proof (Hp h Hh'). destruct C as [C1 C2 C3 C4 _ _ _ _].
  unfold due. rewrite Eb. rewrite !wrap_small by (unfold in_u; lia). destruct (Z.ltb_spec (now y - base_real_time_ns y - accumulated_pause_time_ns y) (scale (msg_play_time_ns_ t - msg_play_time_ns_ h))); lia.
Qed.

Lemma front_pushed y t : consumer_ok y → head (tasks_ y) = Some t → t ∈ pushed y.
Proof using Type. intros (gone & -> & _) H. destruct (tasks_ y); [done|]. injection H as ->. apply elem_of_app. right. left. Qed.

(** *** The producer *)

Lemma clock_frame y y' : clock_ok y → now y' = now y → accumulated_pause_time_ns y' = accumulated_pause_time_ns y → base_real_time_ns y' = base_real_time_ns y →
  base_msg_play_time_ns_ y' = base_msg_play_time_ns_ y → played y' = played y → c_pc y' = c_pc y → (∃ l, pushed y' = pushed y ++ l) → clock_ok y'.
Proof using Type.
  intros [H1 H2 H3 H4 H5 H6 H7 H8] En Ea Er Eb Ep Ec [l El].
  split; unfold hand_on_time in *; unfold due in *; rewrite ?En, ?Ea, ?Er, ?Eb, ?Ep, ?Ec; try done. intros Hb. destruct (H6 Hb) as (h & Hh & E). exists h. split; [|done]. rewrite El. by destruct (pushed y).
Qed.

Lemma producer_moves n y p stopped k : player_inv n y → 0 ≤ k ≤ at_most (S n) → producer_ok (with_loop stopped k (with_producer p y)) →
  player_inv (S n) (with_loop stopped k (with_producer p y)).
Proof using Type.
  intros [P C K O T R L] Hk HP. split; try done. eapply clock_frame; eauto. exists []. by rewrite app_nil_r.
Qed.

Lemma producer_pushes n y m pre itr : player_inv n y → fits (loop_num y) → loop_num y ≤ at_most (S n) → view = pre ++ m :: itr → full y = false →
  pushed y = rounds (Z.to_nat (loop_num y)) ++ (task_of (loop_num y) <$> filter (λ m, channel_name m ∈ writers_) pre) →
  let y' := push_task (task_of (loop_num y) m) (with_producer (PFor itr) y) in
  producer_ok y' → player_inv (S n) y'.
Proof using window view_in_order view_in_window.
  intros [P C K O T R L] F Hk Ev Hfull Ep y' HP.
  pose proof (pushed_before _ _ _ _ F Ev) as Hb. rewrite <- Ep in Hb.
  assert (Hm : begin_time ≤ time m ≤ end_time) by (apply view_times; rewrite Ev; apply elem_of_app; right; left).
  assert (Ht : 0 < msg_play_time_ns_ (task_of (loop_num y) m) < 2 ^ 64) by (rewrite task_time by done; destruct F; nia).
  assert (Etasks : tasks_ y' = tasks_ y ++ [task_of (loop_num y) m]).
  { apply Push_last, Forall_forall. intros u Hu. rewrite Forall_forall in Hb. apply Hb. destruct C as (gone & -> & _). apply elem_of_app. by right. }
  split; [done| | | | | |simpl; lia].
  - destruct C as (gone & E1 & E2 & E3). exists gone. rewrite Etasks. split; [|split; [done|]].
    + simpl. by rewrite E1, <- app_assoc.
    + simpl. destruct (in_hand (c_pc y)) as [[t b]|]; [|done]. by destruct (tasks_ y).
  - eapply clock_frame; eauto.
  - simpl. apply StronglySorted_app. split; [|split; [done|repeat constructor]]. intros u v Hu ->%list_elem_of_singleton. rewrite Forall_forall in Hb. by apply Hb.
  - simpl. apply Forall_app. split; [done|]. by constructor.
  - rewrite Etasks. unfold full in Hfull. apply Z.ltb_ge in Hfull. unfold zlen in *. rewrite length_app. simpl. lia.
Qed.

Lemma selected_step pre m : filter (λ m, channel_name m ∈ writers_) (pre ++ [m]) =
  filter (λ m, channel_name m ∈ writers_) pre ++ if bool_decide (channel_name m ∈ writers_) then [m] else [].
Proof using Type. rewrite filter_app. f_equal. rewrite filter_cons, filter_nil. case_bool_decide; by rewrite ?decide_True, ?decide_False by done. Qed.

Lemma pushed_round k pre itr : view = pre ++ itr →
  rounds k ++ (task_of (Z.of_nat k) <$> filter (λ m, channel_name m ∈ writers_) pre) `prefix_of` rounds (S k).
Proof using Type.
  intros Ev. rewrite rounds_S. apply prefix_app. unfold selected_view. rewrite Ev, filter_app, fmap_app. by apply prefix_app_r.
Qed.

Lemma with_loop_same y p : with_producer p y = with_loop (p_stopped y) (loop_num y) (with_producer p y).
Proof using Type. by destruct y. Qed.

Lemma producer_keeps n y y' : player_inv n y → producer_step y = Some y' → fits (at_most (S n)) → player_inv (S n) y'.
Proof using window view_in_order view_in_window.
  intros I E F. pose proof I as [P _ _ _ _ _ L].
  assert (Hmono : at_most n ≤ at_most (S n)) by (unfold at_most; destruct is_loop; lia).
  assert (F0 : fits (loop_num y)) by (eapply fits_below; [exact F|lia]).
  assert (Ek : Z.of_nat (Z.to_nat (loop_num y)) = loop_num y) by lia.
  assert (Hsame : ∀ p, producer_ok (with_producer p y) → player_inv (S n) (with_producer p y)).
  { intros p Hp. rewrite with_loop_same in *. apply producer_moves; [done|lia|done]. }
  unfold producer_step in E. destruct (p_pc y) as [|itr|itr|itr| |] eqn:Epc; unfold producer_ok in P; rewrite Epc in P.
  - injection E as <-. apply Hsame. unfold producer_ok. simpl. destruct (p_stopped y) eqn:Es; simpl.
    + etrans; [done|]. apply rounds_prefix. lia.
    + exists []. split; [done|]. by rewrite filter_nil, fmap_nil, app_nil_r.
  - injection E as <-. apply Hsame. destruct P as (pre & Ev & Ep). case_bool_decide as Hi; simpl; [|destruct (p_stopped y) eqn:Es; [|by exists pre]].
    + unfold producer_ok. simpl. subst itr. rewrite app_nil_r in Ev. assert (pushed y = rounds (S (Z.to_nat (loop_num y)))) as -> by (rewrite rounds_S, Ek, Ep; unfold selected_view; by rewrite Ev).
      by destruct (p_stopped y).
    + unfold producer_ok. simpl. rewrite Es, Ep. rewrite <- Ek at 2. by apply pushed_round with itr.
  - injection E as <-. apply Hsame. unfold producer_ok. simpl. by destruct (negb (p_stopped y) && full y).
  - destruct P as (pre & Ev & Ep). destruct itr as [|m itr]; [injection E as <-; apply Hsame; by exists pre|].
    destruct (p_stopped y || full y) eqn:Ef; [injection E as <-; apply Hsame; by exists pre|]. apply orb_false_iff in Ef as [_ Ef].
    assert (Ev' : view = (pre ++ [m]) ++ itr) by by rewrite <- app_assoc.
    destruct (bool_decide (channel_name m ∈ writers_)) eqn:Ew; injection E as <-.
    + eapply producer_pushes; eauto; [lia|]. exists (pre ++ [m]). split; [done|]. simpl. by rewrite Ep, selected_step, Ew, fmap_app, app_assoc.
    + apply Hsame. exists (pre ++ [m]). split; [done|]. simpl. by rewrite Ep, selected_step, Ew, app_nil_r.
  - destruct is_loop eqn:El; simpl in E; injection E as <-.
    + assert (loop_num y + 1 ≤ at_most (S n)) by (unfold at_most in *; rewrite El in *; lia).
      rewrite wrap_small by (unfold in_u; destruct F as [? _]; lia). apply producer_moves; [done|lia|]. unfold producer_ok. simpl.
      by replace (Z.to_nat (loop_num y + 1)) with (S (Z.to_nat (loop_num y))) by lia.
    + apply producer_moves; [done|lia|]. unfold producer_ok. simpl. by destruct (p_stopped y); [|rewrite P].
  - done.
Qed.

(** *** The consumer *)

(** What the consumer and the main thread leave alone. *)
Definition same_producer (y y' : sys) : Prop :=
  p_pc y' = p_pc y ∧ p_stopped y' = p_stopped y ∧ loop_num y' = loop_num y ∧ pushed y' = pushed y.

Lemma at_most_S n : at_most n ≤ at_most (S n).
Proof using Type. unfold at_most. destruct is_loop; lia. Qed.

Lemma inv_frame n y y' : player_inv n y → same_producer y y' → consumer_ok y' → clock_ok y' → zlen (tasks_ y') ≤ zlen (tasks_ y) → player_inv (S n) y'.
Proof using Type.
  intros [P C K O T R L] (E1 & E2 & E3 & E4) C' K' R'. pose proof (at_most_S n). split; rewrite ?E3, ?E4; try done; [|lia|lia].
  unfold producer_ok in *. by rewrite E1, E2, E3, E4.
Qed.

Lemma consumer_ok_step y y' : consumer_ok y →
  in_hand (c_pc y') = in_hand (c_pc y) ∨ (in_hand (c_pc y') = None ∧ (∀ t, in_hand (c_pc y) ≠ Some (t, true))) →
  tasks_ y' = tasks_ y → pushed y' = pushed y → played y' = played y → consumer_ok y'.
Proof using Type.
  intros (gone & E1 & E2 & E3) Hc Et Ep Ey. exists gone. rewrite Et, Ep, Ey. destruct Hc as [->|[-> Hn]]; [done|].
  split; [done|]. split; [|done]. rewrite E2. f_equal. destruct (in_hand (c_pc y)) as [[t [|]]|]; [|done..]. by destruct (Hn t).
Qed.

Lemma consumer_takes y t : consumer_ok y → c_pc y = CTop → head (tasks_ y) = Some t → consumer_ok (with_consumer (CHave t) y).
Proof using Type. intros (gone & E1 & E2 & E3) Ec Ht. rewrite Ec in E2. by exists gone. Qed.

Lemma consumer_plays y t : consumer_ok y → c_pc y = CPlay t → consumer_ok (play_task t (with_consumer (CPause t) y)).
Proof using Type.
  intros (gone & E1 & E2 & E3) Ec. rewrite Ec in E2, E3. exists gone. split; [done|]. split; [|done]. simpl in *. by rewrite fmap_app, E2, app_nil_r.
Qed.

Lemma consumer_pops y t : consumer_ok y → c_pc y = CPop t → consumer_ok (pop_task (with_consumer CTop y)).
Proof using Type.
  intros (gone & E1 & E2 & E3) Ec. rewrite Ec in E2, E3. simpl in *. destruct (tasks_ y) as [|u us] eqn:Et; [done|]. injection E3 as ->.
  exists (gone ++ [t]). simpl. rewrite Et. split; [by rewrite <- app_assoc|]. split; [by rewrite app_nil_r|done].
Qed.

(** Only the place of the consumer changes. *)
Lemma clock_moves y c : clock_ok y → hand_on_time (with_consumer c y) → clock_ok (with_consumer c y).
Proof using Type. intros [H1 H2 H3 H4 H5 H6 H7 H8] H. by split. Qed.

Lemma consumer_moves n y c : player_inv n y → (in_hand c = in_hand (c_pc y) ∨ (in_hand c = None ∧ (∀ t, in_hand (c_pc y) ≠ Some (t, true)))) →
  hand_on_time (with_consumer c y) → player_inv (S n) (with_consumer c y).
Proof using Type.
  intros I Hc Hh. eapply inv_frame; [exact I|done| |apply clock_moves; [apply I|done]|done]. eapply consumer_ok_step; [apply I|done..].
Qed.

Lemma consumer_keeps n y y' : player_inv n y → consumer_step y = Some y' → player_inv (S n) y'.
Proof using Type.
  intros I E. pose proof I as [_ C K O T _ _]. pose proof K as [K1 K2 K3 K4 K5 K6 K7 K8]. pose proof C as (gone & C1 & C2 & C3).
  unfold consumer_step in E. unfold hand_on_time in K8. destruct (c_pc y) as [|t|t s|t s u|t u|t|t u|t|t|t u|t|] eqn:Ec; simpl in C2, C3.
  - injection E as <-. destruct (c_stopped y); [by apply consumer_moves; [|rewrite Ec; left|]|]. unfold Front. destruct (head (tasks_ y)) as [t|] eqn:Eh.
    + eapply inv_frame; [exact I|done|by apply consumer_takes|by apply clock_moves|done].
    + by apply consumer_moves; [|rewrite Ec; left|].
  - assert (Ht : t ∈ pushed y) by by apply front_pushed. assert (Hpos : 0 < msg_play_time_ns_ t) by (rewrite Forall_forall in T; by apply T).
    destruct (Z.eqb_spec (base_msg_play_time_ns_ y) 0) as [Eb|Eb]; [|injection E as <-; apply consumer_moves; [done|rewrite Ec; by left|done]].
    destruct (K5 Eb) as (Ep & Ea & Er). rewrite Ep in C2. simpl in C2. destruct gone; [|done]. simpl in C1.
    assert (Hb : ∀ r, 0 ≤ r ≤ now y → ∀ c, (c = CDue t ∨ (∃ s, c = CBase t s) ∧ r = 0) → clock_ok (with_base (msg_play_time_ns_ t) r (with_consumer c y))).
    { intros r Hr c Hc. split; simpl; try (done || lia).
      - intros _. exists t. split; [by rewrite C1|done].
      - rewrite Ep. intros ?? []%not_elem_of_nil.
      - unfold hand_on_time. simpl. destruct Hc as [->|[[s ->] ->]]; [lia|]. split_and!; (done || lia). }
    destruct (begin_time <? msg_play_time_ns_ t); injection E as <-.
    + eapply inv_frame; [exact I|done| |rewrite Er; apply Hb; [lia|right; by eauto]|done]. eapply consumer_ok_step; [done|rewrite Ec; by left|done..].
    + eapply inv_frame; [exact I|done| |apply Hb; [lia|by left]|done]. eapply consumer_ok_step; [done|rewrite Ec; by left|done..].
  - destruct ((MIN_SLEEP_DURATION_NS <? s) && negb (c_stopped y)); [injection E as <-; by apply consumer_moves; [|rewrite Ec; left|]|].
    destruct (c_stopped y); injection E as <-; [apply consumer_moves; [done|rewrite Ec; by right|done]|by apply consumer_moves; [|rewrite Ec; left|]].
  - destruct (u <=? now y); [injection E as <-; by apply consumer_moves; [|rewrite Ec; left|]|done].
  - destruct (u <=? now y); [injection E as <-|done]. destruct K8 as (Ep & Eb & Ea & Er). eapply inv_frame; [exact I|done| | |done].
    + eapply consumer_ok_step; [done|rewrite Ec; by left|done..].
    + split; simpl; try (done || lia). rewrite Ep. intros ?? []%not_elem_of_nil.
  - assert (Ht : t ∈ pushed y) by by apply front_pushed. pose proof (due_now y t K Ht O T K8) as Hd. cbv zeta in Hd. injection E as <-.
    apply consumer_moves; [done| |]; unfold hand_on_time; simpl; rewrite ?Ec; destruct (_ <? _) eqn:?; first [by left|by split].
  - destruct (u <=? now y) eqn:Eu; [injection E as <-|done]. apply consumer_moves; [done|rewrite Ec; by left|]. apply Z.leb_le in Eu.
    destruct K8 as [? K8]. split; [done|]. unfold due in *. simpl. lia.
  - injection E as <-. eapply inv_frame; [exact I|done|by apply consumer_plays| |done]. destruct K8 as [Eb Hd]. split; simpl; try done.
    intros u a [?|[= -> ->]%list_elem_of_singleton]%elem_of_app; [by apply K7|]. split; [done|lia].
  - destruct (is_paused_ y && negb (c_stopped y) && negb (is_playonce_ y)); injection E as <-; (apply consumer_moves; [done|rewrite Ec; by left|]).
    + split; [done|]. simpl. lia.
    + done.
  - destruct (u <=? now y) eqn:Eu; [injection E as <-|done]. apply Z.leb_le in Eu. destruct K8 as [Eb Hu]. unfold kPauseSleepNanoSec in *.
    eapply inv_frame; [exact I|done| | |done]; [eapply consumer_ok_step; [done|rewrite Ec; by left|done..]|].
    rewrite wrap_small by (unfold in_u; lia). split; simpl; try (done || lia).
  - injection E as <-. eapply inv_frame; [exact I|done|by eapply consumer_pops| |].
    + by split.
    + simpl. unfold zlen. destruct (tasks_ y); simpl; lia.
  - done.
Qed.

(** *** Both, the clock and the keys *)

Lemma clock_ticks y t fin : clock_ok y → now y ≤ t < 2 ^ 64 → clock_ok (with_clock t fin y).
Proof using Type.
  intros [H1 H2 H3 H4 H5 H6 H7 H8] Ht. split; simpl; try (done || lia).
  - intros u a Hu. destruct (H7 u a Hu). split; [done|lia].
  - unfold hand_on_time in *. simpl in *. destruct (c_pc y); try done. destruct H8 as [? H8]. split; [done|]. unfold due in *. simpl. lia.
Qed.

Lemma clock_control y s p o : clock_ok y → clock_ok (with_control s p o y).
Proof using Type. intros [H1 H2 H3 H4 H5 H6 H7 H8]. by split. Qed.

Lemma now_grows y l y' : exec y l = Some y' → now y ≤ now y'.
Proof using Type.
  clear. destruct l; simpl.
  - unfold producer_step. intros E. repeat (case_match; simplify_eq/=); lia.
  - unfold consumer_step. intros E. repeat (case_match; simplify_eq/=); lia.
  - case_match; [|done]. intros [= <-]. simpl. apply Z.ltb_lt in H. lia.
  - intros [= <-]. simpl. lia.
  - case_match; [|done]. intros [= <-]. simpl. lia.
  - intros [= <-]. simpl. lia.
  - case_match; [|done]. intros [= <-]. simpl. lia.
Qed.

Lemma exec_keeps n y l y' : player_inv n y → exec y l = Some y' → fits (at_most (S n)) → now y' < 2 ^ 64 → player_inv (S n) y'.
Proof using window view_in_order view_in_window.
  intros I E F Hn. pose proof (now_grows _ _ _ E) as Hg. destruct l; simpl in E.
  - by eapply producer_keeps.
  - by eapply consumer_keeps.
  - case_match; [|done]. injection E as <-. eapply inv_frame; [exact I|done| |apply clock_ticks; [apply I|done]|done].
    eapply consumer_ok_step; [apply I|by left|done..].
  - injection E as <-. eapply inv_frame; [exact I|done| |apply clock_control, I|done]. eapply consumer_ok_step; [apply I|by left|done..].
  - case_match; [|done]. injection E as <-. eapply inv_frame; [exact I|done| |apply clock_ticks; [apply clock_control, I|done]|done].
    eapply consumer_ok_step; [apply I|by left|done..].
  - injection E as <-. pose proof I as [P C K O T R L]. pose proof (at_most_S n). split; try done; simpl; [|by apply clock_frame with (y := y); try done; exists []; rewrite app_nil_r|lia].
    unfold producer_ok in *. simpl. destruct (p_pc y); try done; destruct (p_stopped y); try done; by rewrite P.
  - case_match; [|done]. injection E as <-. eapply inv_frame; [exact I|done| |apply clock_control, I|done]. eapply consumer_ok_step; [apply I|by left|done..].
Qed.

Lemma now_grows_run ls : ∀ y y', run exec y ls = Some y' → now y ≤ now y'.
Proof using Type.
  induction ls as [|l ls IH]; simpl; intros y y' E; [by simplify_eq|]. destruct (exec y l) as [y1|] eqn:E1; [|done].
  apply now_grows in E1. apply IH in E. lia.
Qed.

Lemma at_most_le m n : (m ≤ n)%nat → 0 ≤ at_most m ≤ at_most n.
Proof using Type. unfold at_most. destruct is_loop; lia. Qed.

Lemma run_keeps ls : ∀ n y y', player_inv n y → run exec y ls = Some y' → fits (at_most (length ls + n)) → now y' < 2 ^ 64 → player_inv (length ls + n) y'.
Proof using window view_in_order view_in_window.
  induction ls as [|l ls IH]; simpl; intros n y y' I E F Hn; [by simplify_eq|]. destruct (exec y l) as [y1|] eqn:E1; [|done].
  replace (S (length ls + n)) with (length ls + S n)%nat in * by lia. apply IH with y1; [|done..]. apply exec_keeps with y l; [done|done| |].
  - apply fits_below with (at_most (length ls + S n)); [done|]. apply at_most_le. lia.
  - apply now_grows_run in E. lia.
Qed.

Lemma started_inv t0 : 0 ≤ t0 < 2 ^ 64 → player_inv 0 (started t0).
Proof using room.
  intros Ht. split; simpl; try done.
  - by exists [].
  - split; simpl; try (done || lia). intros ?? []%not_elem_of_nil.
  - constructor.
  - unfold zlen. simpl. lia.
  - unfold at_most. destruct is_loop; lia.
Qed.

(** *** A run that nobody stops *)

Definition unstopped (y : sys) : Prop :=
  (if p_stopped y then p_pc y = PExit ∧ pushed y = rounds (S (Z.to_nat (loop_num y))) else p_pc y ≠ PExit) ∧
  (finished y = true → p_stopped y = true ∧ tasks_ y = []).

Lemma unstopped_step n y l y' : player_inv n y → unstopped y → exec y l = Some y' → l ≠ UserStop → unstopped y'.
Proof using Type.
  clear. intros I [U1 U2] E Hl. destruct l; simpl in E; [| | | | |done|].
  - pose proof (pi_producer _ _ I) as P. unfold producer_ok in P. unfold producer_step in E. unfold unstopped in *.
    destruct (p_stopped y) eqn:Es; [destruct U1 as [U1 _]; by rewrite U1 in E|].
    assert (Hf : finished y ≠ true) by (intros H; by destruct (U2 H)). 
    assert (Hrun : ∀ q, p_stopped q = false → p_pc q ≠ PExit → finished q = finished y → y' = q → unstopped y').
    { intros q E1 E2 E3 ->. unfold unstopped. by rewrite E1, E3. }
    assert (Ep : ∀ q, p_pc y = q → q ≠ PExit) by by intros q <-.
    destruct (p_pc y) as [|itr|itr|[|m itr]| |] eqn:Epc; simpl in E; [| | | | |destruct is_loop; simpl in E|done].
    + injection E as <-. by eapply Hrun; [| | |done].
    + injection E as <-. eapply Hrun; [| | |done]; try done. simpl. by destruct (_ || _).
    + injection E as <-. eapply Hrun; [| | |done]; try done. simpl. by destruct (full y).
    + injection E as <-. by eapply Hrun; [| | |done].
    + destruct (full y); [|case_bool_decide]; injection E as <-; by eapply Hrun; [| | |done].
    + injection E as <-. by eapply Hrun; [| | |done].
    + injection E as <-. unfold unstopped. simpl. by split.
  - unfold unstopped in *. assert (p_stopped y' = p_stopped y ∧ p_pc y' = p_pc y ∧ pushed y' = pushed y ∧ loop_num y' = loop_num y ∧ finished y' = finished y ∧ (tasks_ y = [] → tasks_ y' = [])) as (-> & -> & -> & -> & -> & Ht).
    { clear - E. unfold consumer_step in E. repeat (case_match; simplify_eq/=); split_and!; try done. by intros ->. }
    split; [done|]. intros H. destruct (U2 H). by split; [|apply Ht].
  - case_match; [|done]. by injection E as <-.
  - by injection E as <-.
  - destruct (p_stopped y) eqn:Es; [|done]. destruct (bool_decide_reflect (tasks_ y = [])) as [Ht|]; [|done]. injection E as <-. unfold unstopped in *. simpl. by rewrite Es in *.
  - destruct (p_stopped y) eqn:Es; [|done]. injection E as <-. unfold unstopped in *. simpl. by rewrite Es in *.
Qed.

Lemma unstopped_run ls : ∀ n y y', player_inv n y → unstopped y → run exec y ls = Some y' → UserStop ∉ ls → fits (at_most (length ls + n)) → now y' < 2 ^ 64 → unstopped y'.
Proof using window view_in_order view_in_window.
  induction ls as [|l ls IH]; simpl; intros n y y' I U E Hl F Hn; [by simplify_eq|]. destruct (exec y l) as [y1|] eqn:E1; [|done].
  apply not_elem_of_cons in Hl as [Hl Hls]. replace (S (length ls + n)) with (length ls + S n)%nat in * by lia.
  apply (IH (S n) y1); try done; [|by eapply unstopped_step].
  apply exec_keeps with y l; [done|done| |].
  - apply fits_below with (at_most (length ls + S n)); [done|]. apply at_most_le. lia.
  - apply now_grows_run in E. lia.
Qed.

(** *** What is played *)

Lemma pushed_rounds n y : player_inv n y → pushed y `prefix_of` rounds (S (Z.to_nat (loop_num y))).
Proof using Type.
  intros [P _ _ _ _ _ L]. unfold producer_ok in P. assert (Ek : Z.of_nat (Z.to_nat (loop_num y)) = loop_num y) by lia.
  destruct (p_pc y); [| | | | |done].
  - etrans; [|apply rounds_prefix with (j := Z.to_nat (loop_num y)); lia]. destruct (p_stopped y); [done|by rewrite P].
  - destruct P as (pre & Ev & ->). rewrite <- Ek at 2. by apply pushed_round with itr.
  - destruct P as (pre & Ev & ->). rewrite <- Ek at 2. by apply pushed_round with itr.
  - destruct P as (pre & Ev & ->). rewrite <- Ek at 2. by apply pushed_round with itr.
  - destruct (p_stopped y); [done|by rewrite P].
Qed.

Lemma played_pushed y : consumer_ok y → (played y).*1 `prefix_of` pushed y.
Proof using Type.
  intros (gone & -> & -> & Hh). apply prefix_app. destruct (in_hand (c_pc y)) as [[t [|]]|]; [|apply prefix_nil..].
  destruct (tasks_ y); [done|]. injection Hh as ->. by exists l.
Qed.

(** C9: whatever the order of the steps of the producer, of the consumer and of
    the main thread, the player plays the messages of its window on the
    channels that have a writer, in the order of the recording and round after
    round, none twice and none left out on the way; the buffer never holds more
    than one task above its bound; no message is played before its time, that
    is, before the time of the first one plus the distance of the two divided
    by the rate; and when the main thread sees that all is played (nobody
    having stopped the player, without looping), every message has been
    played, once. *)
Theorem player_plays_the_recording t0 ls y : 0 ≤ t0 → run exec (started t0) ls = Some y → fits (at_most (length ls)) → now y < 2 ^ 64 →
  (played y).*1 `prefix_of` rounds (S (Z.to_nat (loop_num y))) ∧ zlen (tasks_ y) ≤ preload_size + 1 ∧
  (∀ t1 a1 l, played y = (t1, a1) :: l → ∀ t a, (t, a) ∈ played y → base_real_time_ns y + scale (msg_play_time_ns_ t - msg_play_time_ns_ t1) ≤ a) ∧
  (UserStop ∉ ls → is_loop = false → finished y = true → (played y).*1 = task_of 0 <$> selected_view).
Proof using window room view_in_order view_in_window.
  intros Ht E F Hn. assert (F' : fits (at_most (length ls + 0))) by by rewrite Nat.add_0_r.
  assert (I0 : player_inv 0 (started t0)) by (apply started_inv; pose proof (now_grows_run _ _ _ E) as H; simpl in H; lia).
  assert (I : player_inv (length ls + 0) y) by by eapply run_keeps.
  split_and!.
  - etrans; [by apply played_pushed, I|by eapply pushed_rounds].
  - apply I.
  - intros t1 a1 l El t a Ha. destruct (pi_clock _ _ I) as [_ _ _ _ K5 K6 K7 _]. destruct (K7 _ _ Ha) as [Hd _].
    assert (Eb : base_msg_play_time_ns_ y ≠ 0) by (intros H; destruct (K5 H) as [H' _]; by rewrite H' in El). destruct (K6 Eb) as (h & Hh & E').
    destruct (played_pushed y (pi_consumer _ _ I)) as [r Er]. rewrite El in Er. rewrite Er in Hh. injection Hh as ->. unfold due in Hd. by rewrite E' in Hd.
  - intros Hu Hl Hf. assert (U : unstopped y) by by by eapply unstopped_run with (n := 0%nat).
    destruct U as [U1 U2]. destruct (U2 Hf) as [Es Et]. rewrite Es in U1. destruct U1 as [_ Ep].
    destruct (pi_consumer _ _ I) as (gone & E1 & E2 & E3). rewrite Et, app_nil_r in E1. destruct (pi_loop _ _ I) as [L0 L1]. unfold at_most in L1. rewrite Hl in L1.
    assert (loop_num y = 0) as E0 by lia. rewrite E0 in Ep. rewrite E2, <- E1, Ep. unfold rounds. simpl.
    destruct (in_hand (c_pc y)) as [[t [|]]|]; [by rewrite Et in E3|by rewrite !app_nil_r..].
Qed.
End Player.

(** ** Runs *)

Definition demo_view : list SingleMessage := [mkMessage "a" 100 [1]; mkMessage "b" 110 [2]; mkMessage "c" 120 [3]].
Definition demo_writers : gset string := {["a"; "c"]}.
Definition demo_player := exec demo_view demo_writers 500 (λ d, d) 100 200 false.
(** The producer runs first, then the consumer plays two messages, the second
    one after a sleep; a third message has no writer. *)
Definition demo_labels : list label :=
  replicate 9 Producer ++ replicate 9 Consumer ++ [Tick 20] ++ replicate 4 Consumer ++ [Main].

Example demo_plays : (λ y, (finished y, (λ p, (content (msg_ p.1), p.2)) <$> played y)) <$> run demo_player (started 1000) demo_labels = Some (true, [([1], 1000); ([3], 1020)]).
Proof. vm_compute. reflexivity. Qed.

Lemma demo_view_sorted : in_order demo_view.
Proof. repeat constructor; vm_compute; discriminate. Qed.

Lemma demo_view_within : Forall (λ m, 100 ≤ time m ≤ 200) demo_view.
Proof. repeat constructor; vm_compute; discriminate. Qed.

Lemma player_plays_the_recording_witness :
  ∃ y, run demo_player (started 1000) demo_labels = Some y ∧ (played y).*1 = task_of 100 200 0 <$> selected_view demo_view demo_writers.
Proof.
  eexists. split; [vm_compute; reflexivity|].
  apply (player_plays_the_recording demo_view demo_writers 500 (λ d, d) 100 200 false ltac:(lia) ltac:(lia) demo_view_sorted demo_view_within 1000 demo_labels).
  - lia.
  - vm_compute. reflexivity.
  - vm_compute. repeat split; discriminate.
  - vm_compute. reflexivity.
  - vm_compute. intros H. repeat (apply elem_of_cons in H as [H|H]; [discriminate H|]). by apply not_elem_of_nil in H.
  - reflexivity.
  - vm_compute. reflexivity.
Defined.

(** When only some channels are played, the messages of the black channels are
    taken off the total although they were never counted: it wraps around. *)
Theorem black_channels_underflow :
  let p := mkParam false false 0 1000 0 3 {["a"]} {["b"]} in
  let f := mkInfo true true 100 200 12 [("a", ("T", 5)); ("b", ("T", 7))] in
  option_map total_msg_num_ (ReadRecordInfo p [f]) = Some (2 ^ 64 - 2).
Proof. vm_compute. reflexivity. Qed.
