(* ===== verification/UnboundedQueue.v ===== *)
(** * The unbounded queue

    [UnboundedQueue] ([src/code/cyber/base/unbounded_queue.h]): a linked list
    with a dummy node in front, into which threads enqueue and from which they
    dequeue without locks.  Every node counts two owners, the one who links its
    successor and the one who takes the head over it; the last one deletes it.
    Threads are interleaved at each access of an atomic or of a node; a node
    that was deleted is not in the heap, and no address is given out twice. *)

From stdpp Require Import base list gmap functions.
From S2P Require Import Prelude.

Section UnboundedQueue.
Context {T : Type} (no_data : T).

Record Node := mkNode { data : T; ref_count : Z; next : option nat }.

(** [Node()]. *)
Definition new_node (d : T) : Node := mkNode d 2 None.

(** What a thread does next.  The numbers [i] are not part of the program: the
    place of the node in the order in which nodes became the tail. *)
Inductive pc :=
  | Idle
  | ECas (element : T) (node old_tail : nat)
  | ELink (i node old_tail : nat)
  | EDec (i old_tail : nat)
  | EDelete (i old_tail : nat)
  | ESize
  | DNext (old_head : nat)
  | DCas (old_head head_next : nat)
  | DData (i old_head head_next : nat)
  | DSize (i old_head : nat)
  | DDec (i old_head : nat)
  | DDelete (i old_head : nat).

(** [order], [taken] and [got] are not part of the program: the nodes in the
    order in which they became the tail (the dummy first), how many times the
    head moved, and what was dequeued by the moves. *)
Record queue := mkQueue {
  heap : gmap nat Node; fresh : nat; head_ : nat; tail_ : nat; size_ : Z; pcs : nat → pc;
  order : list (nat * T); taken : nat; got : list (nat * T) }.

Definition set_pc (t : nat) (p : pc) (q : queue) : queue :=
  mkQueue (heap q) (fresh q) (head_ q) (tail_ q) (size_ q) (<[t := p]> (pcs q)) (order q) (taken q) (got q).
Definition set_heap (h : gmap nat Node) (q : queue) : queue :=
  mkQueue h (fresh q) (head_ q) (tail_ q) (size_ q) (pcs q) (order q) (taken q) (got q).
Definition set_size (n : Z) (q : queue) : queue :=
  mkQueue (heap q) (fresh q) (head_ q) (tail_ q) n (pcs q) (order q) (taken q) (got q).

(** [Reset] *)
Definition Reset (q : queue) : queue :=
  mkQueue (<[fresh q := new_node no_data]> (heap q)) (S (fresh q)) (fresh q) (fresh q) 0 (λ _, Idle) [(fresh q, no_data)] 0 [].

(** [UnboundedQueue()] *)
Definition empty_queue : queue := Reset (mkQueue ∅ 0 0 0 0 (λ _, Idle) [] 0 []).

(** [Node::release], in two accesses. *)
Definition release_dec (a : nat) (q : queue) : option queue :=
  match heap q !! a with Some n => Some (set_heap (<[a := mkNode (data n) (u32 (ref_count n - 1)) (next n)]> (heap q)) q) | None => None end.
Definition release_delete (a : nat) (q : queue) : option queue :=
  match heap q !! a with Some n => Some (if ref_count n =? 0 then set_heap (delete a (heap q)) q else q) | None => None end.

Inductive call := Enqueue (element : T) | Dequeue | Go.

(** One access by thread [t]; None: the thread is not there, or the node is
    deleted. *)
Definition exec (q : queue) (l : nat * call) : option queue :=
  let t := l.1 in
  match l.2, pcs q t with
  | Enqueue element, Idle =>
      let node := fresh q in
      Some (mkQueue (<[node := new_node element]> (heap q)) (S (fresh q)) (head_ q) (tail_ q) (size_ q) (<[t := ECas element node (tail_ q)]> (pcs q)) (order q) (taken q) (got q))
  | Dequeue, Idle => Some (set_pc t (DNext (head_ q)) q)
  | Go, ECas element node old_tail =>
      if bool_decide (tail_ q = old_tail) then
        Some (mkQueue (heap q) (fresh q) (head_ q) node (size_ q) (<[t := ELink (pred (length (order q))) node old_tail]> (pcs q)) (order q ++ [(node, element)]) (taken q) (got q))
      else Some (set_pc t (ECas element node (tail_ q)) q)
  | Go, ELink i node old_tail =>
      match heap q !! old_tail with
      | Some n => Some (set_pc t (EDec i old_tail) (set_heap (<[old_tail := mkNode (data n) (ref_count n) (Some node)]> (heap q)) q))
      | None => None
      end
  | Go, EDec i old_tail => q' ← release_dec old_tail q; Some (set_pc t (EDelete i old_tail) q')
  | Go, EDelete i old_tail => q' ← release_delete old_tail q; Some (set_pc t ESize q')
  | Go, ESize => Some (set_pc t Idle (set_size (u64 (size_ q + 1)) q))
  | Go, DNext old_head =>
      match heap q !! old_head with
      | Some n => Some (set_pc t (match next n with None => Idle | Some head_next => DCas old_head head_next end) q)
      | None => None
      end
  | Go, DCas old_head head_next =>
      if bool_decide (head_ q = old_head) then
        Some (mkQueue (heap q) (fresh q) head_next (tail_ q) (size_ q) (<[t := DData (taken q) old_head head_next]> (pcs q)) (order q) (S (taken q)) (got q))
      else Some (set_pc t (DNext (head_ q)) q)
  | Go, DData i old_head head_next =>
      match heap q !! head_next with
      | Some n => Some (mkQueue (heap q) (fresh q) (head_ q) (tail_ q) (size_ q) (<[t := DSize i old_head]> (pcs q)) (order q) (taken q) (got q ++ [(i, data n)]))
      | None => None
      end
  | Go, DSize i old_head => Some (set_pc t (DDec i old_head) (set_size (u64 (size_ q - 1)) q))
  | Go, DDec i old_head => q' ← release_dec old_head q; Some (set_pc t (DDelete i old_head) q')
  | Go, DDelete i old_head => q' ← release_delete old_head q; Some (set_pc t Idle q')
  | _, _ => None
  end.

(** What was enqueued, in order. *)
Definition enqueued (q : queue) : list T := tail (order q).*2.

(** The node that a thread is about to use. *)
Definition uses (p : pc) : option nat :=
  match p with
  | ELink _ _ a | EDec _ a | EDelete _ a | DNext a | DDec _ a | DDelete _ a => Some a
  | DData _ _ b => Some b
  | _ => None
  end.

Definition bad_access (q : queue) (t : nat) : Prop := ∃ a, uses (pcs q t) = Some a ∧ heap q !! a = None.

(** ** The chain *)

Definition node_at (q : queue) (i a : nat) : Prop := (order q).*1 !! i = Some a.

Definition pc_ok (q : queue) (p : pc) : Prop :=
  match p with
  | Idle | ESize => True
  | ECas x a _ => heap q !! a = Some (new_node x) ∧ a ∉ (order q).*1
  | ELink i a b => node_at q i b ∧ node_at q (S i) a
  | EDec i a | EDelete i a => node_at q i a
  | DSize i a | DDec i a | DDelete i a => node_at q i a ∧ (i < taken q)%nat ∧ i ∈ (got q).*1
  | DNext a => ∃ i, node_at q i a
  | DCas a b => ∃ i, node_at q i a ∧ node_at q (S i) b
  | DData i a b => node_at q i a ∧ node_at q (S i) b ∧ (i < taken q)%nat ∧ i ∉ (got q).*1
  end.

(** Two threads are not busy with the same new node or the same element. *)
Definition apart (p p' : pc) : Prop :=
  match p, p' with
  | ECas _ a _, ECas _ b _ => a ≠ b
  | DData i _ _, DData j _ _ => i ≠ j
  | _, _ => True
  end.

Record chain_ok (q : queue) : Prop := {
  co_nodup : NoDup (order q).*1;
  co_tail : last (order q).*1 = Some (tail_ q);
  co_head : node_at q (taken q) (head_ q);
  co_nodes : ∀ i a x n, order q !! i = Some (a, x) → heap q !! a = Some n → data n = x ∧ ∀ b, next n = Some b → node_at q (S i) b;
  co_fresh : ∀ a, a ∈ (order q).*1 ∨ is_Some (heap q !! a) → (a < fresh q)%nat;
  co_pcs : ∀ t, pc_ok q (pcs q t);
  co_apart : ∀ t t', t ≠ t' → apart (pcs q t) (pcs q t');
  co_got : ∀ i x, (i, x) ∈ got q → (i < taken q)%nat ∧ (order q).*2 !! S i = Some x;
  co_once : NoDup (got q).*1;
}.

Lemma node_at_order q i a : node_at q i a → ∃ x, order q !! i = Some (a, x).
Proof using Type.
  unfold node_at. rewrite list_lookup_fmap. destruct (order q !! i) as [[b x]|]; [|done]. intros [= ->]. by exists x.
Qed.

Lemma node_at_in q i a : node_at q i a → a ∈ (order q).*1.
Proof using Type. apply list_elem_of_lookup_2. Qed.

Lemma node_at_unique q i j a : chain_ok q → node_at q i a → node_at q j a → i = j.
Proof using Type. intros C Hi Hj. eapply NoDup_lookup; [apply C|done|done]. Qed.

Lemma chain_empty : chain_ok empty_queue.
Proof using Type.
  split; try done.
  - apply NoDup_singleton.
  - intros [|i] a x n H1 H2; [|done]. injection H1 as <- <-. injection H2 as <-. done.
  - intros a [->%list_elem_of_singleton|[n Hn]]; [simpl; lia|]. simpl in *. destruct (decide (a = 0%nat)) as [->|]; [lia|]. by rewrite lookup_insert_ne in Hn.
  - intros i x []%not_elem_of_nil.
  - constructor.
Qed.

(** A step that changes a node of the chain at most. *)
Lemma chain_local q h n t p : chain_ok q → (∀ a, a ∉ (order q).*1 → h !! a = heap q !! a) →
  (∀ i a x nd, order q !! i = Some (a, x) → h !! a = Some nd → data nd = x ∧ ∀ b, next nd = Some b → node_at q (S i) b) →
  pc_ok q p → (match p with ECas _ _ _ | DData _ _ _ => False | _ => True end) → chain_ok (set_pc t p (set_size n (set_heap h q))).
Proof using Type.
  intros [H1 H2 H3 H4 H5 H6 H7 H8 H9] Hout Hin Hp Hnew. split; try done; simpl.
  - intros a [Ha|Ha]; [apply H5; by left|]. destruct (decide (a ∈ (order q).*1)); [apply H5; by left|]. apply H5. right. by rewrite <- Hout.
  - intros t'. destruct (decide (t' = t)) as [->|].
    + rewrite fn_lookup_insert. by destruct p.
    + rewrite fn_lookup_insert_ne by done. specialize (H6 t'). destruct (pcs q t'); try done. destruct H6 as [H6 H6']. split; [|done]. simpl. by rewrite Hout.
  - intros t1 t2 Hne. destruct (decide (t1 = t)) as [->|]; destruct (decide (t2 = t)) as [->|]; rewrite ?fn_lookup_insert, ?fn_lookup_insert_ne by done; [done| | |by apply H7].
    + by destruct p.
    + destruct (pcs q t1); by destruct p.
Qed.

(** A step that changes nothing but the place of the thread and the size. *)
Lemma chain_move q n t p : chain_ok q → pc_ok q p → (match p with ECas _ _ _ | DData _ _ _ => False | _ => True end) → chain_ok (set_pc t p (set_size n q)).
Proof using Type. intros C Hp Hn. apply (chain_local q (heap q)); try done. intros i a x nd. by apply C. Qed.

(** Only the counter of a node changes, or the node goes. *)
Lemma chain_dec q q' a i t p : chain_ok q → release_dec a q = Some q' → node_at q i a → pc_ok q p → (match p with ECas _ _ _ | DData _ _ _ => False | _ => True end) → chain_ok (set_pc t p q').
Proof using Type.
  intros C E Ha Hp Hn. unfold release_dec in E. destruct (heap q !! a) as [nd|] eqn:En; [|done]. injection E as <-.
  apply (chain_local q (<[a := mkNode (data nd) (u32 (ref_count nd - 1)) (next nd)]> (heap q)) (size_ q)); try done.
  - intros b Hb. rewrite lookup_insert_ne; [done|]. intros ->. by apply Hb, (node_at_in q i).
  - intros j b x nd' Hj. destruct (decide (a = b)) as [->|]; [rewrite lookup_insert_eq|rewrite lookup_insert_ne by done; by apply C].
    intros [= <-]. by apply (co_nodes q C j b x nd).
Qed.

Lemma chain_delete q q' a i t p : chain_ok q → release_delete a q = Some q' → node_at q i a → pc_ok q p → (match p with ECas _ _ _ | DData _ _ _ => False | _ => True end) → chain_ok (set_pc t p q').
Proof using Type.
  intros C E Ha Hp Hn. unfold release_delete in E. destruct (heap q !! a) as [nd|] eqn:En; [|done]. injection E as <-.
  destruct (ref_count nd =? 0); [|by apply (chain_move q (size_ q))]. apply (chain_local q (delete a (heap q)) (size_ q)); try done.
  - intros b Hb. rewrite lookup_delete_ne; [done|]. intros ->. by apply Hb, (node_at_in q i).
  - intros j b x nd' Hj. destruct (decide (a = b)) as [->|]; [by rewrite lookup_delete_eq|rewrite lookup_delete_ne by done; by apply C].
Qed.

Lemma chain_enqueue q t x q' : chain_ok q → exec q (t, Enqueue x) = Some q' → chain_ok q'.
Proof using Type.
  intros [H1 H2 H3 H4 H5 H6 H7 H8 H9] E. unfold exec in E. simpl in E. destruct (pcs q t); try done. injection E as <-.
  assert (Hn : ∀ a, a ∈ (order q).*1 → a ≠ fresh q) by (intros a Ha ->; specialize (H5 (fresh q) (or_introl Ha)); lia).
  assert (Hf : heap q !! fresh q = None) by (destruct (heap q !! fresh q) as [nd|] eqn:E; [|done]; specialize (H5 (fresh q) (or_intror (mk_is_Some _ _ E))); lia).
  split; try done; simpl.
  - intros i a y nd Ha. rewrite lookup_insert_ne; [by apply H4|]. intros <-. apply (Hn (fresh q)); [|done].
    apply list_elem_of_lookup. exists i. by rewrite list_lookup_fmap, Ha.
  - intros a [Ha|Ha]; [specialize (H5 a (or_introl Ha)); lia|]. destruct (decide (a = fresh q)) as [->|Hne]; [lia|].
    rewrite lookup_insert_ne in Ha by done. specialize (H5 a (or_intror Ha)). lia.
  - intros t'. destruct (decide (t' = t)) as [->|]; [rewrite fn_lookup_insert|rewrite fn_lookup_insert_ne by done].
    + split; simpl; [by rewrite lookup_insert_eq|]. intros Ha. by apply Hn in Ha.
    + specialize (H6 t'). destruct (pcs q t'); try done. destruct H6 as [H6 H6']. split; [|done]. simpl. rewrite lookup_insert_ne; [done|]. intros <-. by rewrite Hf in H6.
  - intros t1 t2 Hne. destruct (decide (t1 = t)) as [->|]; destruct (decide (t2 = t)) as [->|]; rewrite ?fn_lookup_insert, ?fn_lookup_insert_ne by done; [done| | |by apply H7].
    + specialize (H6 t2). destruct (pcs q t2); try done. simpl. intros <-. destruct H6 as [H6 _]. by rewrite Hf in H6.
    + specialize (H6 t1). destruct (pcs q t1); try done. simpl. intros ->. destruct H6 as [H6 _]. by rewrite Hf in H6.
Qed.

Lemma order_snoc q a x : node_at (mkQueue (heap q) (fresh q) (head_ q) a (size_ q) (pcs q) (order q ++ [(a, x)]) (taken q) (got q)) (length (order q)) a.
Proof using Type. unfold node_at. simpl. rewrite fmap_app, lookup_app_r; rewrite length_fmap; [|lia]. by rewrite Nat.sub_diag. Qed.

(** What held of the order still holds when a node is put behind it. *)
Lemma pc_ok_snoc q q' p a x : pc_ok q p → order q' = order q ++ [(a, x)] → taken q' = taken q → got q' = got q → heap q' = heap q →
  (∀ y b c, p = ECas y b c → b ≠ a) → pc_ok q' p.
Proof using Type.
  intros H Eo Et Eg Eh Hne. assert (Hat : ∀ i b, node_at q i b → node_at q' i b).
  { intros i b Hb. unfold node_at in *. rewrite Eo, fmap_app. by apply lookup_app_l_Some. }
  destruct p; simpl in *; rewrite ?Et, ?Eg, ?Eh; try done.
  - destruct H as [H H']. split; [done|]. rewrite Eo, fmap_app. intros [?|?%list_elem_of_singleton]%elem_of_app; [done|]. by eapply Hne.
  - destruct H. split; by apply Hat.
  - by apply Hat.
  - by apply Hat.
  - destruct H as [i H]. exists i. by apply Hat.
  - destruct H as (i & H & H'). exists i. split; by apply Hat.
  - destruct H as (Ha & Hb & H). split; [|split]; [by apply Hat..|done].
  - destruct H as (Ha & H). split; [by apply Hat|done].
  - destruct H as (Ha & H). split; [by apply Hat|done].
  - destruct H as (Ha & H). split; [by apply Hat|done].
Qed.

Lemma chain_cas_tail q t x a b : chain_ok q → pcs q t = ECas x a b → tail_ q = b →
  chain_ok (mkQueue (heap q) (fresh q) (head_ q) a (size_ q) (<[t := ELink (pred (length (order q))) a b]> (pcs q)) (order q ++ [(a, x)]) (taken q) (got q)).
Proof using Type.
  intros C Ep Et. pose proof C as [H1 H2 H3 H4 H5 H6 H7 H8 H9]. pose proof (H6 t) as Ht. rewrite Ep in Ht. destruct Ht as [Ha Hna].
  assert (Hlen : (0 < length (order q))%nat) by (destruct (order q); [done|simpl; lia]).
  split; simpl.
  - rewrite fmap_app. apply NoDup_app. split; [done|]. split; [by intros c Hc ->%list_elem_of_singleton|apply NoDup_singleton].
  - rewrite fmap_app. apply last_snoc.
  - unfold node_at in *. simpl. rewrite fmap_app. by apply lookup_app_l_Some.
  - intros i c y nd Hi Hc. unfold node_at. simpl. apply lookup_app_Some in Hi as [Hi|[Hi Hl]].
    + destruct (H4 i c y nd Hi Hc) as [? Hn]. split; [done|]. intros d Hd. rewrite fmap_app. by apply lookup_app_l_Some, Hn.
    + apply list_lookup_singleton_Some in Hl as [_ [= -> ->]]. rewrite Ha in Hc. injection Hc as <-. done.
  - intros c [Hc|Hc]; [|by apply H5; right]. rewrite fmap_app in Hc. apply elem_of_app in Hc as [Hc| ->%list_elem_of_singleton]; [by apply H5; left|]. apply H5. right. simpl. by rewrite Ha.
  - intros t'. destruct (decide (t' = t)) as [->|]; [rewrite fn_lookup_insert|rewrite fn_lookup_insert_ne by done].
    + split; unfold node_at; simpl; rewrite fmap_app.
      * apply lookup_app_l_Some. rewrite <- Et, <- H2. rewrite last_lookup. by rewrite length_fmap.
      * rewrite lookup_app_r by (rewrite length_fmap; lia). rewrite length_fmap. by replace (S (pred (length (order q))) - length (order q))%nat with 0%nat by lia.
    + eapply pc_ok_snoc; [apply H6|done..|]. intros y d e E ->. specialize (H7 t t' ltac:(done)). rewrite Ep, E in H7. done.
  - intros t1 t2 Hne. destruct (decide (t1 = t)) as [->|]; destruct (decide (t2 = t)) as [->|]; rewrite ?fn_lookup_insert, ?fn_lookup_insert_ne by done; [done|done| |by apply H7].
    by destruct (pcs q t1).
  - intros i y Hi. destruct (H8 i y Hi) as [? Hl]. split; [done|]. rewrite fmap_app. by apply lookup_app_l_Some.
  - done.
Qed.

Lemma chain_cas_head q t a b i : chain_ok q → node_at q i a → node_at q (S i) b → head_ q = a →
  chain_ok (mkQueue (heap q) (fresh q) b (tail_ q) (size_ q) (<[t := DData (taken q) a b]> (pcs q)) (order q) (S (taken q)) (got q)).
Proof using Type.
  intros C Ha Hb Eh. pose proof C as [H1 H2 H3 H4 H5 H6 H7 H8 H9]. rewrite Eh in H3. assert (i = taken q) as -> by by eapply node_at_unique.
  assert (Hnew : ∀ x, (taken q, x) ∉ got q) by (intros x Hx; apply H8 in Hx as [Hx _]; lia).
  split; try done; simpl.
  - intros t'. destruct (decide (t' = t)) as [->|]; [rewrite fn_lookup_insert|rewrite fn_lookup_insert_ne by done].
    + split; [done|]. split; [done|]. split; [simpl; lia|]. simpl. intros ([j x] & E & Hx)%list_elem_of_fmap. simpl in E. subst j. by eapply Hnew.
    + specialize (H6 t'). destruct (pcs q t'); try done; simpl in *; [destruct H6 as (? & ? & ? & ?)|destruct H6 as (? & ? & ?)..]; by (split_and!; try done; lia).
  - intros t1 t2 Hne. destruct (decide (t1 = t)) as [->|]; destruct (decide (t2 = t)) as [->|]; rewrite ?fn_lookup_insert, ?fn_lookup_insert_ne by done; [done| | |by apply H7].
    + pose proof (H6 t2) as H. destruct (pcs q t2); try done. simpl in *. lia.
    + pose proof (H6 t1) as H. destruct (pcs q t1); try done. simpl in *. lia.
  - intros j x Hj. destruct (H8 j x Hj). split; [lia|done].
Qed.

Lemma chain_data q t i a b nd : chain_ok q → pcs q t = DData i a b → heap q !! b = Some nd →
  chain_ok (mkQueue (heap q) (fresh q) (head_ q) (tail_ q) (size_ q) (<[t := DSize i a]> (pcs q)) (order q) (taken q) (got q ++ [(i, data nd)])).
Proof using Type.
  intros C Ep Eb. pose proof C as [H1 H2 H3 H4 H5 H6 H7 H8 H9]. pose proof (H6 t) as Ht. rewrite Ep in Ht. destruct Ht as (Ha & Hb & Hi & Hg).
  split; try done; simpl.
  - intros t'. destruct (decide (t' = t)) as [->|]; [rewrite fn_lookup_insert|rewrite fn_lookup_insert_ne by done].
    + split; [done|]. split; [done|]. simpl. rewrite fmap_app. apply elem_of_app. right. by apply list_elem_of_singleton.
    + pose proof (H6 t') as H. pose proof (H7 t t' ltac:(done)) as Hap. rewrite Ep in Hap. destruct (pcs q t'); try done; simpl in *.
      * destruct H as (? & ? & ? & ?). split_and!; try done. rewrite fmap_app. intros [?|?%list_elem_of_singleton]%elem_of_app; [done|]. by simpl in *.
      * destruct H as (? & ? & ?). split_and!; try done. rewrite fmap_app. apply elem_of_app. by left.
      * destruct H as (? & ? & ?). split_and!; try done. rewrite fmap_app. apply elem_of_app. by left.
      * destruct H as (? & ? & ?). split_and!; try done. rewrite fmap_app. apply elem_of_app. by left.
  - intros t1 t2 Hne. destruct (decide (t1 = t)) as [->|]; destruct (decide (t2 = t)) as [->|]; rewrite ?fn_lookup_insert, ?fn_lookup_insert_ne by done; [done|done| |by apply H7].
    by destruct (pcs q t1).
  - intros j x [Hj|[= -> ->]%list_elem_of_singleton]%elem_of_app; [by apply H8|]. split; [done|].
    apply node_at_order in Hb as [x Hb]. rewrite list_lookup_fmap, Hb. simpl. f_equal. by destruct (H4 _ _ _ _ Hb Eb).
  - rewrite fmap_app. apply NoDup_app. split; [done|]. split; [|apply NoDup_singleton]. intros j Hj ->%list_elem_of_singleton. done.
Qed.

Lemma chain_link q t i a b nd : chain_ok q → node_at q i b → node_at q (S i) a → heap q !! b = Some nd →
  chain_ok (set_pc t (EDec i b) (set_heap (<[b := mkNode (data nd) (ref_count nd) (Some a)]> (heap q)) q)).
Proof using Type.
  intros C Hb Ha En. apply (chain_local q (<[b := mkNode (data nd) (ref_count nd) (Some a)]> (heap q)) (size_ q)); try done.
  - intros c Hc. rewrite lookup_insert_ne; [done|]. intros ->. by apply Hc, (node_at_in q i).
  - intros j c x nd' Hj. destruct (decide (b = c)) as [->|]; [rewrite lookup_insert_eq|rewrite lookup_insert_ne by done; by apply C].
    intros [= <-]. split; [by apply (co_nodes q C j c x nd)|]. intros d [= <-]. assert (j = i) as ->; [|done].
    eapply node_at_unique; [done| |done]. unfold node_at. by rewrite list_lookup_fmap, Hj.
Qed.

Lemma exec_chain q l q' : chain_ok q → exec q l = Some q' → chain_ok q'.
Proof using Type.
  destruct l as [t [x| |]]; intros C E; [by eapply chain_enqueue| |].
  - unfold exec in E. simpl in E. destruct (pcs q t); try done. injection E as <-. apply (chain_move q (size_ q)); [done| |done]. exists (taken q). apply C.
  - pose proof (co_pcs q C t) as P. unfold exec in E. simpl in E. destruct (pcs q t) as [|x a b|i a b|i b|i b| |a|a b|i a b|i a|i a|i a] eqn:Ep; simpl in P; [done|..].
    + case_bool_decide as Et; injection E as <-; [by apply chain_cas_tail|]. destruct P as [P1 P2]. pose proof C as [H1 H2 H3 H4 H5 H6 H7 H8 H9].
      split; try done; simpl; [intros t'|intros t1 t2 Hne].
      * destruct (decide (t' = t)) as [->|]; [by rewrite fn_lookup_insert|]. rewrite fn_lookup_insert_ne by done. apply H6.
      * pose proof (H7 t1 t2 Hne) as Hap. destruct (decide (t1 = t)) as [->|]; destruct (decide (t2 = t)) as [->|]; rewrite ?fn_lookup_insert, ?fn_lookup_insert_ne by done; [done| | |done]; by rewrite Ep in Hap.
    + destruct (heap q !! b) as [nd|] eqn:En; [|done]. injection E as <-. destruct P. by apply chain_link.
    + destruct (release_dec b q) as [q1|] eqn:E1; [|done]. injection E as <-. by eapply chain_dec.
    + destruct (release_delete b q) as [q1|] eqn:E1; [|done]. injection E as <-. by eapply chain_delete.
    + injection E as <-. by apply chain_move.
    + destruct (heap q !! a) as [nd|] eqn:En; [|done]. injection E as <-. destruct P as [i P]. destruct (next nd) as [b|] eqn:Eb.
      * apply (chain_move q (size_ q)); [done| |done]. exists i. split; [done|]. destruct (node_at_order _ _ _ P) as [x Hx]. by apply (co_nodes q C i a x nd).
      * by apply (chain_move q (size_ q)).
    + destruct P as (i & P1 & P2). case_bool_decide as Eh; injection E as <-; [by eapply chain_cas_head|]. apply (chain_move q (size_ q)); [done| |done]. exists (taken q). apply C.
    + destruct (heap q !! b) as [nd|] eqn:En; [|done]. injection E as <-. by eapply chain_data.
    + injection E as <-. by apply chain_move.
    + destruct (release_dec a q) as [q1|] eqn:E1; [|done]. injection E as <-. by eapply chain_dec; [| |apply P| |].
    + destruct (release_delete a q) as [q1|] eqn:E1; [|done]. injection E as <-. by eapply chain_delete; [| |apply P| |].
Qed.

Lemma run_chain ls : ∀ q q', chain_ok q → run exec q ls = Some q' → chain_ok q'.
Proof using Type.
  induction ls as [|l ls IH]; simpl; intros q q' C E; [by simplify_eq|]. destruct (exec q l) as [q1|] eqn:E1; [|done].
  eapply IH; [|done]. by eapply exec_chain.
Qed.

Lemma enqueued_at q i x : (order q).*2 !! S i = Some x → enqueued q !! i = Some x.
Proof using Type. unfold enqueued. by destruct (order q).*2. Qed.

(** Property: the queue is a queue, as long as no deleted node is used: with any
    number of threads that enqueue and dequeue, whatever is dequeued was
    enqueued, nothing is dequeued twice, and the elements are handed out in the
    order in which they were put behind the tail, each move of the head giving
    the next one. *)
Theorem unbounded_queue_fifo ls q : run exec empty_queue ls = Some q →
  NoDup (got q).*1 ∧ (taken q ≤ length (enqueued q))%nat ∧ ∀ i x, (i, x) ∈ got q → enqueued q !! i = Some x ∧ (i < taken q)%nat.
Proof using Type.
  intros E. pose proof (run_chain ls _ _ chain_empty E) as C. split_and!; [apply C| |].
  - pose proof (co_head q C) as H. unfold node_at in H. apply lookup_lt_Some in H. rewrite length_fmap in H. unfold enqueued. destruct (order q); simpl in *; rewrite ?length_fmap; lia.
  - intros i x Hi. destruct (co_got q C i x Hi). split; [by apply enqueued_at|done].
Qed.

(** ** One consumer *)

Inductive stage := Open | Owned (t : nat) | Done.

#[local] Instance stage_dec : EqDecision stage.
Proof using Type. solve_decision. Defined.

(** The nodes up to here have been released by the consumer. *)
Definition released (q : queue) (p : pc) : nat := match p with DData i _ _ | DSize i _ | DDec i _ => i | _ => taken q end.

Definition dequeuing (p : pc) : bool := match p with DNext _ | DCas _ _ | DData _ _ _ | DSize _ _ | DDec _ _ | DDelete _ _ => true | _ => false end.

Definition owner_ok (stg : nat → stage) (t : nat) (p : pc) : Prop := match p with ELink i _ _ | EDec i _ => stg i = Owned t | _ => True end.

Definition consumer_ok (q : queue) (p : pc) : Prop :=
  (match p with
   | DNext a | DCas a _ => a = head_ q
   | DData i _ _ | DSize i _ | DDec i _ => S i = taken q
   | _ => True
   end) ∧ (got q).*1 = seq 0 (match p with DData i _ _ => i | _ => taken q end).

Definition count_ok (stg : nat → stage) (r : nat) (i : nat) (n : option Node) : Prop :=
  let linker := match stg i with Done => 0 | _ => 1 end in
  let taker := if (r <=? i)%nat then 1 else 0 in
  match n with Some n => ref_count n = linker + taker | None => linker + taker = 0 end.

Record one_consumer (stg : nat → stage) (q : queue) : Prop := {
  oc_others : ∀ t, t ≠ 0%nat → dequeuing (pcs q t) = false;
  oc_consumer : consumer_ok q (pcs q 0%nat);
  oc_last : stg (pred (length (order q))) = Open;
  oc_owners : ∀ t, owner_ok stg t (pcs q t);
  oc_counts : ∀ i a, node_at q i a → count_ok stg (released q (pcs q 0%nat)) i (heap q !! a);
}.

Lemma one_consumer_empty : one_consumer (λ _, Open) empty_queue.
Proof using Type.
  split; try done. intros [|i] a H; [|done]. injection H as <-. done.
Qed.

(** A step that keeps the order, the head and the counts. *)
Lemma one_consumer_move stg q q' t p : one_consumer stg q → order q' = order q → pcs q' = <[t := p]> (pcs q) →
  (∀ i a, node_at q i a → heap q' !! a = heap q !! a ∨ ∃ n n', heap q !! a = Some n ∧ heap q' !! a = Some n' ∧ ref_count n' = ref_count n) →
  owner_ok stg t p →
  (t = 0%nat → consumer_ok q' p ∧ released q' p = released q (pcs q 0%nat)) →
  (t ≠ 0%nat → dequeuing p = false ∧ taken q' = taken q ∧ got q' = got q ∧ head_ q' = head_ q) → one_consumer stg q'.
Proof using Type.
  intros [H1 H2 H3 H4 H5] Eo Ep Eh Hp H0 Hn. split; rewrite ?Eo, ?Ep.
  - intros t' Ht'. destruct (decide (t' = t)) as [->|]; [rewrite fn_lookup_insert; by apply Hn|rewrite fn_lookup_insert_ne by done; by apply H1].
  - destruct (decide (t = 0%nat)) as [->|Hne]; [rewrite fn_lookup_insert; by apply H0|rewrite fn_lookup_insert_ne by done].
    destruct (Hn Hne) as (_ & E1 & E2 & E3). unfold consumer_ok in *. by rewrite E1, E2, E3.
  - done.
  - intros t'. destruct (decide (t' = t)) as [->|]; [by rewrite fn_lookup_insert|rewrite fn_lookup_insert_ne by done; apply H4].
  - intros i a Ha. assert (Ha' : node_at q i a) by (unfold node_at in *; by rewrite <- Eo).
    assert (released q' (<[t:=p]> (pcs q) 0%nat) = released q (pcs q 0%nat)) as ->.
    { destruct (decide (t = 0%nat)) as [->|Hne]; [rewrite fn_lookup_insert; by apply H0|rewrite fn_lookup_insert_ne by done].
      destruct (Hn Hne) as (_ & E1 & _). unfold released. by rewrite E1. }
    specialize (H5 i a Ha'). destruct (Eh i a Ha') as [->|(n & n' & E1 & E2 & E3)]; [done|]. rewrite E1 in H5. rewrite E2. unfold count_ok in *. by rewrite E3.
Qed.

(** One of the two owners of a node lets go. *)
Lemma count_dec stg stg' r r' i n : count_ok stg r i (Some n) →
  (if decide (stg i = Done) then 0 else 1) + (if (r <=? i)%nat then 1 else 0) = (if decide (stg' i = Done) then 0 else 1) + (if (r' <=? i)%nat then 1 else 0) + 1 →
  count_ok stg' r' i (Some (mkNode (data n) (u32 (ref_count n - 1)) (next n))).
Proof using Type.
  unfold count_ok. simpl. intros -> H.
  assert (Ed : ∀ s : stage, (if decide (s = Done) then 0 else 1) = match s with Done => 0 | _ => 1 end) by by intros [].
  rewrite !Ed in H. destruct (stg i), (stg' i), (r <=? i)%nat, (r' <=? i)%nat; try lia; reflexivity.
Qed.

Lemma one_consumer_release stg q q1 t i a p p' : chain_ok q → one_consumer stg q → release_dec a q = Some q1 → node_at q i a → pcs q t = p →
  (p = EDec i a ∧ p' = EDelete i a ∨ p = DDec i a ∧ p' = DDelete i a) → ∃ stg', one_consumer stg' (set_pc t p' q1).
Proof using Type.
  intros C [H1 H2 H3 H4 H5] E Ha Ep Hp. unfold release_dec in E. destruct (heap q !! a) as [nd|] eqn:En; [|done]. injection E as <-.
  pose proof (H5 i a Ha) as Hi. rewrite En in Hi.
  assert (Hne : ∀ j b, node_at q j b → b ≠ a → j ≠ i) by (intros j b Hj Hb ->; unfold node_at in *; congruence).
  assert (Heq : ∀ j b, node_at q j b → b = a → j = i) by (intros j b Hj ->; by eapply node_at_unique).
  destruct Hp as [[-> ->]|[-> ->]].
  - pose proof (H4 t) as Ho. rewrite Ep in Ho. simpl in Ho. exists (<[i := Done]> stg).
    assert (Ht0 : ∀ q' q2, taken q' = taken q → q2 = <[t:=EDelete i a]> (pcs q) → released q' (q2 0%nat) = released q (pcs q 0%nat)).
    { intros q' q2 Hq ->. destruct (decide (t = 0%nat)) as [->|]; [by rewrite fn_lookup_insert, Ep|]. rewrite fn_lookup_insert_ne by done. unfold released. by rewrite Hq. }
    split; simpl.
    + intros t' Ht'. destruct (decide (t' = t)) as [->|]; [by rewrite fn_lookup_insert|]. rewrite fn_lookup_insert_ne by done. by apply H1.
    + destruct (decide (t = 0%nat)) as [->|]; [rewrite fn_lookup_insert|rewrite fn_lookup_insert_ne by done; exact H2]. rewrite Ep in H2. exact H2.
    + rewrite fn_lookup_insert_ne; [done|]. intros ->. by rewrite Ho in H3.
    + intros t'. destruct (decide (t' = t)) as [->|]; [by rewrite fn_lookup_insert|]. rewrite fn_lookup_insert_ne by done. specialize (H4 t').
      destruct (pcs q t'); try done; simpl in *; rewrite fn_lookup_insert_ne; try done; intros <-; congruence.
    + intros j b Hj. change (node_at q j b) in Hj. rewrite (Ht0 _ (<[t:=EDelete i a]> (pcs q))) by done. destruct (decide (b = a)) as [->|Hb].
      * rewrite (Heq j a Hj eq_refl). rewrite lookup_insert_eq. eapply count_dec; [exact Hi|]. rewrite fn_lookup_insert, Ho. destruct (_ <=? _)%nat; reflexivity.
      * rewrite lookup_insert_ne by done. specialize (H5 j b Hj). unfold count_ok in *. rewrite fn_lookup_insert_ne; [done|]. intros E. by apply (Hne j b Hj Hb).
  - destruct (decide (t = 0%nat)) as [->|Hn]; [|specialize (H1 t Hn); by rewrite Ep in H1]. exists stg. rewrite Ep in *. destruct H2 as [H2 H2']. split; simpl.
    + intros t' Ht'. rewrite fn_lookup_insert_ne by done. by apply H1.
    + rewrite fn_lookup_insert. by split.
    + done.
    + intros t'. destruct (decide (t' = 0%nat)) as [->|]; [by rewrite fn_lookup_insert|]. rewrite fn_lookup_insert_ne by done. apply H4.
    + intros j b Hj. change (node_at q j b) in Hj. destruct (decide (b = a)) as [->|Hb].
      * rewrite (Heq j a Hj eq_refl). rewrite lookup_insert_eq. eapply count_dec; [exact Hi|]. cbn [released]. rewrite <- H2, (proj2 (Nat.leb_le i i)) by lia.
        rewrite (proj2 (Nat.leb_gt (S i) i)) by lia. lia.
      * rewrite lookup_insert_ne by done. specialize (H5 j b Hj). simpl in H5. pose proof (Hne j b Hj Hb). unfold count_ok in *. rewrite <- H2.
        replace (S i <=? j)%nat with (i <=? j)%nat; [done|]. destruct (Nat.leb_spec i j), (Nat.leb_spec (S i) j); lia.
Qed.

Lemma one_consumer_delete stg q q1 t i a p p' : chain_ok q → one_consumer stg q → release_delete a q = Some q1 → node_at q i a → pcs q t = p →
  (p = EDelete i a ∧ p' = ESize ∨ p = DDelete i a ∧ p' = Idle) → one_consumer stg (set_pc t p' q1).
Proof using Type.
  intros C O E Ha Ep Hp. pose proof O as [H1 H2 H3 H4 H5]. unfold release_delete in E. destruct (heap q !! a) as [nd|] eqn:En; [|done]. injection E as <-.
  assert (Hd : dequeuing p' = false ∧ (∀ r, released r p' = taken r) ∧ owner_ok stg t p' ∧ released q p = taken q) by by destruct Hp as [[-> ->]|[-> ->]].
  destruct Hd as (Hd & Hr & Ho & Hp').
  assert (Hc : t = 0%nat → ∀ q', head_ q' = head_ q → taken q' = taken q → got q' = got q → consumer_ok q' p').
  { intros -> q' E1 E2 E3. rewrite Ep in H2. unfold consumer_ok in *. rewrite E2, E3. by destruct Hp as [[-> ->]|[-> ->]]. }
  destruct (ref_count nd =? 0) eqn:Ez.
  - apply Z.eqb_eq in Ez. pose proof (H5 i a Ha) as Hi. rewrite En in Hi. unfold count_ok in Hi. rewrite Ez in Hi.
    split; simpl; [intros t' Ht'| |done|intros t'|intros j b Hj].
    + destruct (decide (t' = t)) as [->|]; [by rewrite fn_lookup_insert|]. rewrite fn_lookup_insert_ne by done. by apply H1.
    + destruct (decide (t = 0%nat)) as [->|]; [rewrite fn_lookup_insert; by apply Hc|rewrite fn_lookup_insert_ne by done; exact H2].
    + destruct (decide (t' = t)) as [->|]; [by rewrite fn_lookup_insert|]. rewrite fn_lookup_insert_ne by done. apply H4.
    + change (node_at q j b) in Hj. assert (released q (<[t:=p']> (pcs q) 0%nat) = released q (pcs q 0%nat)) as Er.
      { destruct (decide (t = 0%nat)) as [->|]; [by rewrite fn_lookup_insert, Ep, Hr, Hp'|by rewrite fn_lookup_insert_ne]. }
      change (count_ok stg (released q (<[t:=p']> (pcs q) 0%nat)) j (delete a (heap q) !! b)). rewrite Er. destruct (decide (b = a)) as [->|Hb].
      * rewrite lookup_delete_eq. by rewrite (node_at_unique q j i a C Hj Ha).
      * rewrite lookup_delete_ne by done. by apply H5.
  - eapply one_consumer_move; try done; [intros; by left|].
    intros E. split; [by apply Hc|]. subst t. by rewrite Ep, Hr, Hp'.
Qed.

Lemma one_consumer_cas_tail stg q t x a b : chain_ok q → one_consumer stg q → pcs q t = ECas x a b → tail_ q = b →
  one_consumer (<[length (order q) := Open]> (<[pred (length (order q)) := Owned t]> stg))
    (mkQueue (heap q) (fresh q) (head_ q) a (size_ q) (<[t := ELink (pred (length (order q))) a b]> (pcs q)) (order q ++ [(a, x)]) (taken q) (got q)).
Proof using Type.
  intros C [H1 H2 H3 H4 H5] Ep Et. pose proof (co_pcs q C t) as Ht. rewrite Ep in Ht. destruct Ht as [Ha Hna].
  pose proof (co_head q C) as Hh. unfold node_at in Hh. apply lookup_lt_Some in Hh. rewrite length_fmap in Hh.
  assert (Hlen : pred (length (order q)) ≠ length (order q)) by lia.
  split; simpl.
  - intros t' Ht'. destruct (decide (t' = t)) as [->|]; [by rewrite fn_lookup_insert|]. rewrite fn_lookup_insert_ne by done. by apply H1.
  - destruct (decide (t = 0%nat)) as [->|]; [rewrite fn_lookup_insert|rewrite fn_lookup_insert_ne by done; exact H2]. rewrite Ep in H2. exact H2.
  - rewrite length_app. simpl. replace (pred (length (order q) + 1)) with (length (order q)) by lia. apply fn_lookup_insert.
  - intros t'. destruct (decide (t' = t)) as [->|].
    + rewrite fn_lookup_insert. simpl. rewrite fn_lookup_insert_ne by done. apply fn_lookup_insert.
    + rewrite fn_lookup_insert_ne by done. specialize (H4 t'). pose proof (co_pcs q C t') as P.
      assert (Hat : ∀ i c, node_at q i c → (i < length (order q))%nat) by (intros i c Hi; apply lookup_lt_Some in Hi; by rewrite length_fmap in Hi).
      destruct (pcs q t'); try done; simpl in *; [destruct P as [P _]|]; apply Hat in P; rewrite !fn_lookup_insert_ne; try done; try lia; intros <-; by rewrite H3 in H4.
  - intros i c Hi. assert (Er : released q (<[t:=ELink (pred (length (order q))) a b]> (pcs q) 0%nat) = released q (pcs q 0%nat)).
    { destruct (decide (t = 0%nat)) as [->|]; [by rewrite fn_lookup_insert, Ep|by rewrite fn_lookup_insert_ne]. }
    change (count_ok (<[length (order q):=Open]> (<[pred (length (order q)):=Owned t]> stg)) (released q (<[t:=ELink (pred (length (order q))) a b]> (pcs q) 0%nat)) i (heap q !! c)). rewrite Er. unfold node_at in Hi. simpl in Hi. rewrite fmap_app in Hi.
    apply lookup_app_Some in Hi as [Hi|[Hl Hi]].
    + specialize (H5 i c Hi). apply lookup_lt_Some in Hi. rewrite length_fmap in Hi. unfold count_ok in *. rewrite fn_lookup_insert_ne by lia.
      destruct (decide (i = pred (length (order q)))) as [->|]; [rewrite fn_lookup_insert; by rewrite H3 in H5|by rewrite fn_lookup_insert_ne].
    + rewrite length_fmap in Hl, Hi. apply list_lookup_singleton_Some in Hi as [Hi <-]. assert (i = length (order q)) as -> by lia. simpl. rewrite Ha. unfold count_ok. rewrite fn_lookup_insert.
      simpl. destruct H2 as [H2 _]. assert (released q (pcs q 0%nat) ≤ taken q)%nat by (destruct (pcs q 0%nat); simpl; try lia). by rewrite (proj2 (Nat.leb_le _ _)) by lia.
Qed.

Lemma one_consumer_exec stg q l q' : chain_ok q → one_consumer stg q → exec q l = Some q' → (l.2 = Dequeue → l.1 = 0%nat) → ∃ stg', one_consumer stg' q'.
Proof using Type.
  destruct l as [t c]. intros C O E Hl. pose proof O as [H1 H2 H3 H4 H5]. unfold exec in E. simpl in E, Hl.
  pose proof (H1 t) as Ht1. pose proof (H4 t) as Ht4. pose proof (co_pcs q C t) as P.
  assert (Hz : t = 0%nat → consumer_ok q (pcs q t)) by by intros ->.
  destruct c as [x| |].
  - destruct (pcs q t) eqn:Ep; try done. injection E as <-. exists stg. eapply one_consumer_move; try done; simpl.
    + intros i a Ha. left. rewrite lookup_insert_ne; [done|]. intros <-. apply node_at_in in Ha. specialize (co_fresh q C _ (or_introl Ha)). lia.
    + intros ->. rewrite Ep. by split; [apply Hz|].
  - destruct (pcs q t) eqn:Ep; try done. injection E as <-. exists stg. rewrite Hl in * by done. eapply one_consumer_move; try done; [intros; by left|].
    intros _. rewrite Ep. split; [|done]. split; [done|]. by apply Hz.
  - destruct (pcs q t) as [|x a b|i a b|i b|i b| |a|a b|i a b|i a|i a|i a] eqn:Ep; [done|..].
    + case_bool_decide as Eb; injection E as <-; [eexists; by apply one_consumer_cas_tail|]. exists stg. eapply one_consumer_move; try done; [intros; by left|].
      intros ->. rewrite Ep. by split; [apply Hz|].
    + destruct (heap q !! b) as [nd|] eqn:En; [|done]. injection E as <-. exists stg. eapply one_consumer_move; try done.
      * intros j c Hj. simpl. destruct (decide (c = b)) as [->|]; [right|left; by rewrite lookup_insert_ne]. rewrite lookup_insert_eq. by eexists _, _.
      * intros ->. rewrite Ep. by split; [apply Hz|].
    + destruct (release_dec b q) as [q1|] eqn:E1; [|done]. injection E as <-. eapply one_consumer_release; eauto.
    + destruct (release_delete b q) as [q1|] eqn:E1; [|done]. injection E as <-. exists stg. eapply one_consumer_delete; eauto.
    + injection E as <-. exists stg. eapply one_consumer_move; try done; [intros; by left|]. intros ->. rewrite Ep. by split; [apply Hz|].
    + destruct (heap q !! a) as [nd|] eqn:En; [|done]. injection E as <-. exists stg. destruct (decide (t = 0%nat)) as [->|Hn]; [|by specialize (Ht1 Hn)]. destruct (Hz eq_refl) as [Hz1 Hz2].
      destruct (next nd); (eapply one_consumer_move; try done; [intros; by left|]; intros _; rewrite Ep; by split).
    + destruct (decide (t = 0%nat)) as [->|Hn]; [|by specialize (Ht1 Hn)]. destruct (Hz eq_refl) as [Hz1 Hz2].
      rewrite bool_decide_true in E by done. injection E as <-. exists stg. eapply one_consumer_move; try done; [intros; by left|]. intros _. by rewrite Ep.
    + destruct (decide (t = 0%nat)) as [->|Hn]; [|by specialize (Ht1 Hn)]. destruct (Hz eq_refl) as [Hz1 Hz2].
      destruct (heap q !! b) as [nd|] eqn:En; [|done]. injection E as <-. exists stg. eapply one_consumer_move; try done; [intros; by left|]. intros _. rewrite Ep. split; [|done].
      split; [done|]. simpl. rewrite fmap_app, Hz2, <- Hz1. by rewrite seq_S.
    + destruct (decide (t = 0%nat)) as [->|Hn]; [|by specialize (Ht1 Hn)]. injection E as <-. exists stg. eapply one_consumer_move; try done; [intros; by left|]. intros _. rewrite Ep. by split; [apply Hz|].
    + destruct (release_dec a q) as [q1|] eqn:E1; [|done]. injection E as <-. eapply one_consumer_release; eauto. apply P.
    + destruct (release_delete a q) as [q1|] eqn:E1; [|done]. injection E as <-. exists stg. eapply one_consumer_delete; eauto. apply P.
Qed.

Lemma run_one_consumer ls : ∀ stg q q', chain_ok q → one_consumer stg q → run exec q ls = Some q' → (∀ t, (t, Dequeue) ∈ ls → t = 0%nat) → chain_ok q' ∧ ∃ stg', one_consumer stg' q'.
Proof using Type.
  induction ls as [|[t c] ls IH]; simpl; intros stg q q' C O E Hl; [simplify_eq; by eauto|]. destruct (exec q (t, c)) as [q1|] eqn:E1; [|done].
  destruct (one_consumer_exec _ _ _ _ C O E1) as [stg1 O1]; [simpl; intros ->; apply Hl; by left|].
  eapply IH; [by eapply exec_chain|done|done|]. intros t' Ht. apply Hl. by right.
Qed.

(** C12: with one thread that dequeues and any number that enqueue, what was
    dequeued is a beginning of what was enqueued, and no thread uses a deleted
    node before the last line of [release], where it looks at its own count
    once more. *)
Theorem one_consumer_bad_access_only_in_release ls q : run exec empty_queue ls = Some q → (∀ t, (t, Dequeue) ∈ ls → t = 0%nat) →
  (got q).*2 `prefix_of` enqueued q ∧ ∀ t, bad_access q t → ∃ i a, pcs q t = EDelete i a ∨ pcs q t = DDelete i a.
Proof using Type.
  intros E Hl. destruct (run_one_consumer ls _ _ _ chain_empty one_consumer_empty E Hl) as [C [stg [H1 H2 H3 H4 H5]]].
  split.
  - destruct H2 as [_ H2]. exists (drop (length (got q)) (enqueued q)). rewrite <- (take_drop (length (got q)) (enqueued q)) at 1. f_equal.
    apply list_eq. intros i. rewrite list_lookup_fmap. destruct (decide (i < length (got q))%nat) as [Hi|Hi].
    + rewrite lookup_take_lt by done. apply lookup_lt_is_Some in Hi as [[j x] Hj]. rewrite Hj. simpl. assert (j = i) as ->.
      { assert (Hs : (got q).*1 !! i = Some j) by by rewrite list_lookup_fmap, Hj. rewrite H2 in Hs. by apply lookup_seq in Hs as [-> _]. }
      apply enqueued_at. apply list_elem_of_lookup_2 in Hj. by apply (co_got q C) in Hj as [_ ?].
    + rewrite (lookup_ge_None_2 (got q)) by lia. apply lookup_take_ge. lia.
  - intros t (a & Hu & Ha). pose proof (H1 t) as Ht1. pose proof (H4 t) as Ht4. pose proof (co_pcs q C t) as P.
    assert (Hc : ∀ i, node_at q i a → stg i ≠ Done ∨ (released q (pcs q 0%nat) ≤ i)%nat → False).
    { intros i Hi Hn. specialize (H5 i a Hi). rewrite Ha in H5. unfold count_ok in H5. destruct Hn as [Hn|Hn%Nat.leb_le]; [destruct (stg i), (_ <=? _)%nat; try lia; done|rewrite Hn in H5; destruct (stg i); lia]. }
    destruct (pcs q t) as [|x b c|i b c|i c|i c| |c|c b|i c b|i c|i c|i c] eqn:Ep; simpl in Hu; simplify_eq; simpl in Ht4, P; try (by eauto).
    + exfalso. apply (Hc i); [apply P|]. left. by rewrite Ht4.
    + exfalso. apply (Hc i); [done|]. left. by rewrite Ht4.
    + exfalso. destruct (decide (t = 0%nat)) as [->|Hn]; [|by specialize (Ht1 Hn)]. rewrite Ep in H2, Hc. destruct H2 as [-> _]. apply (Hc (taken q)); [apply C|by right].
    + exfalso. destruct (decide (t = 0%nat)) as [->|Hn]; [|by specialize (Ht1 Hn)]. rewrite Ep in Hc. apply (Hc (S i)); [apply P|right; simpl; lia].
    + exfalso. destruct (decide (t = 0%nat)) as [->|Hn]; [|by specialize (Ht1 Hn)]. rewrite Ep in Hc. apply (Hc i); [apply P|by right].
Qed.

(** ** [Destroy], [Clear] *)

(** The loop from the head; None: a node is missing, or the fuel is used up. *)
Fixpoint destroy (fuel : nat) (ite : option nat) (h : gmap nat Node) : option (gmap nat Node) :=
  match ite, fuel with
  | None, _ => Some h
  | Some _, O => None
  | Some a, S fuel => match h !! a with Some n => destroy fuel (next n) (delete a h) | None => None end
  end.

Definition Destroy (fuel : nat) (q : queue) : option queue := h ← destroy fuel (Some (head_ q)) (heap q); Some (set_heap h q).
Definition Clear (fuel : nat) (q : queue) : option queue := q ← Destroy fuel q; Some (Reset q).
End UnboundedQueue.

(** ** Runs *)

Definition go (t : nat) (n : nat) : list (nat * @call nat) := replicate n (t, Go).
Definition start : @queue nat := empty_queue 0%nat.

(** Two threads enqueue, the second one first; thread 0 dequeues. *)
Definition demo_calls : list (nat * @call nat) :=
  [(1, Enqueue 7); (2, Enqueue 8)]%nat ++ go 2 1 ++ go 1 2 ++ go 2 4 ++ go 1 4 ++ [(0, Dequeue)]%nat ++ go 0 6.

Lemma unbounded_queue_fifo_witness : ∃ q, run exec start demo_calls = Some q ∧ NoDup (got q).*1 ∧ got q = [(0, 8)]%nat ∧ enqueued q = [8; 7]%nat.
Proof.
  eexists. split; [vm_compute; reflexivity|]. split; [|split; vm_compute; reflexivity].
  by apply (unbounded_queue_fifo 0%nat demo_calls); vm_compute.
Defined.

(** One thread enqueues, one dequeues: both let go of the dummy node before
    either looks at the count, which is 0 for both.  The one deletes the node,
    the other reads it. *)
Definition release_twice : list (nat * @call nat) := [(1, Enqueue 7)]%nat ++ go 1 2 ++ [(0, Dequeue)]%nat ++ go 0 4 ++ go 1 1 ++ go 0 1 ++ go 1 1.

Theorem node_released_twice : ∃ q, run exec start release_twice = Some q ∧ pcs q 0 = DDelete 0 0 ∧ bad_access q 0.
Proof. eexists. split; [vm_compute; reflexivity|]. split; [vm_compute; reflexivity|]. exists 0%nat. split; vm_compute; reflexivity. Qed.

Lemma one_consumer_bad_access_only_in_release_witness :
  ∃ q, run exec start release_twice = Some q ∧ ∃ i a, pcs q 0 = EDelete i a ∨ pcs q 0 = DDelete i a.
Proof.
  eexists. split; [vm_compute; reflexivity|].
  apply (one_consumer_bad_access_only_in_release 0%nat release_twice).
  - vm_compute. reflexivity.
  - intros t Ht. vm_compute in Ht. repeat (apply elem_of_cons in Ht as [Ht|Ht]; [by simplify_eq|]). by apply not_elem_of_nil in Ht.
  - exists 0%nat. split; vm_compute; reflexivity.
Defined.

(** Two threads dequeue: one has loaded the head, the other takes it and
    deletes it, and the first follows its [next]. *)
Theorem second_consumer_reads_deleted_node :
  ∃ q, run exec start ([(1, Enqueue 7)] ++ go 1 5 ++ [(0, Dequeue); (2, Dequeue)] ++ go 2 6)%nat = Some q ∧ (∃ a, pcs q 0 = DNext a) ∧ bad_access q 0.
Proof. eexists. split; [vm_compute; reflexivity|]. split; [by eexists|]. exists 0%nat. split; vm_compute; reflexivity. Qed.

(** An enqueue that has returned is not seen while one before it is not linked:
    [Size] is 1, and [Dequeue] returns false. *)
Theorem dequeue_misses_an_element :
  ∃ q q', run exec start ([(1, Enqueue 7)] ++ go 1 1 ++ [(2, Enqueue 8)] ++ go 2 5)%nat = Some q ∧ pcs q 2 = Idle ∧ size_ q = 1 ∧
    run exec q [(0, Dequeue); (0, Go)]%nat = Some q' ∧ pcs q' 0 = Idle ∧ got q' = [].
Proof. eexists _, _. do 3 (split; [vm_compute; reflexivity|]). split; [vm_compute; reflexivity|]. split; vm_compute; reflexivity. Qed.
