(* ===== verification/ThreadSafeQueue.v ===== *)
(** * The queue with a mutex

    [ThreadSafeQueue] ([src/code/cyber/base/thread_safe_queue.h]): a queue behind
    a mutex and a condition variable.  Threads are interleaved at the mutex, at
    the condition variable and at [break_all_wait_], which is written without
    the mutex. *)

From stdpp Require Import base list.
From S2P Require Import Prelude.

Section ThreadSafeQueue.
Context {T : Type}.

(** What a thread does next; from [EPush], [ENotify], [DTake], [WTest], [WTake]
    and [WBlock] on it holds the mutex. *)
Inductive pc :=
  | Idle
  | EWant (element : T) | EPush (element : T) | ENotify
  | DWant | DTake
  | WWant | WTest | WTake | WBlock | WSleep | WWoken
  | BSet | BNotify.

(** [enqueued] and [dequeued] are not part of the program. *)
Record tsqueue := mkTs {
  queue_ : list T; mutex_ : option nat; break_all_wait_ : bool; threads : list pc; enqueued : list T; dequeued : list T }.

Definition new_queue (n : nat) : tsqueue := mkTs [] None false (replicate n Idle) [] [].

Definition goto (t : nat) (p : pc) (q : tsqueue) : tsqueue :=
  mkTs (queue_ q) (mutex_ q) (break_all_wait_ q) (<[t := p]> (threads q)) (enqueued q) (dequeued q).
Definition with_mutex (m : option nat) (q : tsqueue) : tsqueue :=
  mkTs (queue_ q) m (break_all_wait_ q) (threads q) (enqueued q) (dequeued q).
Definition push (x : T) (q : tsqueue) : tsqueue :=
  mkTs (queue_ q ++ [x]) (mutex_ q) (break_all_wait_ q) (threads q) (enqueued q ++ [x]) (dequeued q).
Definition pop (q : tsqueue) : tsqueue :=
  match queue_ q with
  | [] => q
  | x :: l => mkTs l (mutex_ q) (break_all_wait_ q) (threads q) (enqueued q) (dequeued q ++ [x])
  end.

Inductive call :=
  | Enqueue (element : T) | Dequeue | WaitDequeue | BreakAllWait
  | Go                        (** the next step *)
  | Notify (w : option nat)   (** [notify_one]; who wakes up, if somebody sleeps *)
  | Spurious.                 (** [wait] returns for no reason *)

Definition sleeps (p : pc) : bool := match p with WSleep => true | _ => false end.
Definition wake (p : pc) : pc := if sleeps p then WWoken else p.

Definition acquire (t : nat) (p : pc) (q : tsqueue) : option tsqueue :=
  match mutex_ q with None => Some (with_mutex (Some t) (goto t p q)) | Some _ => None end.
Definition return_ (t : nat) (q : tsqueue) : tsqueue := with_mutex None (goto t Idle q).

Definition exec (q : tsqueue) (l : nat * call) : option tsqueue :=
  let t := l.1 in
  p ← threads q !! t;
  match l.2, p with
  | Enqueue x, Idle => Some (goto t (EWant x) q)
  | Dequeue, Idle => Some (goto t DWant q)
  | WaitDequeue, Idle => Some (goto t WWant q)
  | BreakAllWait, Idle => Some (goto t BSet q)
  | Go, EWant x => acquire t (EPush x) q
  | Go, EPush x => Some (goto t ENotify (push x q))
  | Notify None, ENotify => if existsb sleeps (threads q) then None else Some (return_ t q)
  | Notify (Some w), ENotify => match threads q !! w with Some WSleep => Some (return_ t (goto w WWoken q)) | _ => None end
  | Go, DWant => acquire t DTake q
  | Go, DTake => Some (return_ t (pop q))
  | Go, WWant => acquire t WTest q
  | Go, WTest => Some (goto t (if break_all_wait_ q || negb (bool_decide (queue_ q = [])) then WTake else WBlock) q)
  | Go, WTake => Some (return_ t (if break_all_wait_ q then q else pop q))
  | Go, WBlock => Some (with_mutex None (goto t WSleep q))
  | Go, WWoken => acquire t WTest q
  | Go, BSet => Some (goto t BNotify (mkTs (queue_ q) (mutex_ q) true (threads q) (enqueued q) (dequeued q)))
  | Go, BNotify => Some (goto t Idle (mkTs (queue_ q) (mutex_ q) (break_all_wait_ q) (wake <$> threads q) (enqueued q) (dequeued q)))
  | Spurious, WSleep => Some (goto t WWoken q)
  | _, _ => None
  end.

(** [Size], [Empty]. *)
Definition Size (q : tsqueue) : nat := length (queue_ q).
Definition Empty (q : tsqueue) : bool := bool_decide (queue_ q = []).

(** ** Counting threads *)

Definition count (f : pc → bool) (l : list pc) : nat := length (filter (λ p, f p = true) l).

Lemma count_cons f p l : count f (p :: l) = ((if f p then 1 else 0) + count f l)%nat.
Proof using Type. unfold count. rewrite filter_cons. destruct (f p) eqn:E; by rewrite ?decide_True, ?decide_False by (done || by rewrite E). Qed.

Lemma count_insert f l : ∀ t p p', l !! t = Some p → (count f (<[t := p']> l) + (if f p then 1 else 0) = count f l + if f p' then 1 else 0)%nat.
Proof using Type.
  induction l as [|q l IH]; intros [|t] p p' E; try done; simpl in *; rewrite !count_cons; [injection E as ->; lia|]. specialize (IH t p p' E). lia.
Qed.

(** A thread that is awake in [WaitDequeue] and will look at the queue, or that
    is about to notify. *)
Definition looks (p : pc) : bool := match p with WWoken | WTest | WTake | ENotify => true | _ => false end.

Definition holds (p : pc) : bool := match p with EPush _ | ENotify | DTake | WTest | WTake | WBlock => true | _ => false end.

Record queue_ok (q : tsqueue) : Prop := {
  qo_fifo : enqueued q = dequeued q ++ queue_ q;
  qo_mutex : ∀ t p, threads q !! t = Some p → holds p = true → mutex_ q = Some t;
  qo_take : WTake ∈ threads q → break_all_wait_ q = true ∨ queue_ q ≠ [];
  qo_block : WBlock ∈ threads q → break_all_wait_ q = true ∨ queue_ q = [];
  qo_wake : break_all_wait_ q = false → (0 < count sleeps (threads q))%nat → (length (queue_ q) ≤ count looks (threads q))%nat;
}.

Lemma new_queue_ok n : queue_ok (new_queue n).
Proof using Type.
  split; try done; simpl.
  - intros t p [-> _]%lookup_replicate. done.
  - by intros [? _]%elem_of_replicate.
  - by intros [? _]%elem_of_replicate.
  - intros _ H. lia.
Qed.

Lemma elem_of_goto (l : list pc) t p p' : p ∈ <[t := p']> l → p = p' ∨ p ∈ l.
Proof using Type. intros (i & H)%list_elem_of_lookup. apply list_lookup_insert_Some in H as [(_ & -> & _)|[_ H]]; [by left|right]. by eapply list_elem_of_lookup_2. Qed.

(** Thread [t] goes from [p] to [p'] while nothing changes but the mutex. *)
Lemma goto_ok q t p p' m : queue_ok q → threads q !! t = Some p →
  (if holds p' then m = Some t ∧ (mutex_ q = None ∨ mutex_ q = Some t) else if holds p then m = None else m = mutex_ q) →
  (p' = WTake → break_all_wait_ q = true ∨ queue_ q ≠ []) → (p' = WBlock → queue_ q = []) →
  (break_all_wait_ q = false → queue_ q = [] ∨ ((sleeps p' = true → sleeps p = true) ∧ (looks p = true → looks p' = true))) →
  queue_ok (with_mutex m (goto t p' q)).
Proof using Type.
  intros [H1 H2 H3 H4 H5] Et Hm Ht Hb Hw. split; simpl; try done.
  - intros t' p1 Hp Hh. apply list_lookup_insert_Some in Hp as [(<- & <- & _)|[Hne Hp]]; [rewrite Hh in Hm; by destruct Hm|].
    specialize (H2 _ _ Hp Hh) as Hq. destruct (holds p'); [destruct Hm as [_ [?|?]]; congruence|]. destruct (holds p) eqn:Ehp; [|by rewrite Hm].
    specialize (H2 _ _ Et Ehp). congruence.
  - intros [E|?]%elem_of_goto; [by apply Ht|by apply H3].
  - intros [E|?]%elem_of_goto; [right; by apply Hb|by apply H4].
  - intros Hbr Hs. destruct (Hw Hbr) as [->|[Hw1 Hw2]]; [simpl; lia|]. pose proof (count_insert sleeps _ _ _ p' Et) as C1. pose proof (count_insert looks _ _ _ p' Et) as C2.
    specialize (H5 Hbr). destruct (sleeps p), (sleeps p'), (looks p), (looks p'); naive_solver lia.
Qed.

(** The thread that holds the mutex is alone. *)
Lemma holder_alone q t p t' p' : queue_ok q → threads q !! t = Some p → holds p = true → threads q !! t' = Some p' → holds p' = true → t' = t.
Proof using Type. intros Q E H E' H'. pose proof (qo_mutex _ Q _ _ E H). pose proof (qo_mutex _ Q _ _ E' H'). congruence. Qed.

Lemma not_there q t p p' x : queue_ok q → threads q !! t = Some p → holds p = true → holds x = true → holds p' = false → x ∉ <[t := p']> (threads q).
Proof using Type.
  intros Q E H Hx Hp' (t' & Ht)%list_elem_of_lookup. apply list_lookup_insert_Some in Ht as [(_ & <- & _)|[Hne Ht]]; [congruence|].
  by apply Hne, (eq_sym (holder_alone q t p t' x Q E H Ht Hx)).
Qed.

Lemma push_ok q t x : queue_ok q → threads q !! t = Some (EPush x) → queue_ok (goto t ENotify (push x q)).
Proof using Type.
  intros Q E. pose proof Q as [H1 H2 H3 H4 H5]. split; simpl.
  - by rewrite H1, (assoc_L (++)).
  - intros t' p Hp Hh. apply list_lookup_insert_Some in Hp as [(<- & <- & _)|[_ Hp]]; [by eapply H2|by eapply H2].
  - intros [?|?]%elem_of_goto; [done|]. right. by destruct (queue_ q).
  - intros [?|(t' & Ht)%list_elem_of_lookup]%elem_of_goto; [done|]. exfalso. pose proof (holder_alone q t (EPush x) t' WBlock Q E eq_refl Ht eq_refl). congruence.
  - intros Hb. pose proof (count_insert sleeps _ _ _ ENotify E) as C1. pose proof (count_insert looks _ _ _ ENotify E) as C2. simpl in *. specialize (H5 Hb). rewrite length_app. simpl. lia.
Qed.

(** An element goes, and the mutex with it. *)
Lemma take_ok q t p x l : queue_ok q → threads q !! t = Some p → (p = DTake ∨ p = WTake) → queue_ q = x :: l → queue_ok (return_ t (pop q)).
Proof using Type.
  intros Q E Hp El. pose proof Q as [H1 H2 H3 H4 H5]. assert (Hh : holds p = true) by by destruct Hp as [->| ->].
  unfold return_, pop. rewrite El. split; simpl.
  - by rewrite H1, El, <- (assoc_L (++)).
  - intros t' p' Ht Hh'. apply list_lookup_insert_Some in Ht as [(_ & <- & _)|[Hne Ht]]; [done|]. by destruct (Hne (eq_sym (holder_alone q t p t' p' Q E Hh Ht Hh'))).
  - intros Hw. by destruct (not_there q t p Idle WTake Q E Hh eq_refl eq_refl).
  - intros Hw. by destruct (not_there q t p Idle WBlock Q E Hh eq_refl eq_refl).
  - intros Hb. pose proof (count_insert sleeps _ _ _ Idle E) as C1. pose proof (count_insert looks _ _ _ Idle E) as C2. specialize (H5 Hb). rewrite El in H5. simpl in *. destruct Hp as [->| ->]; simpl in *; lia.
Qed.

Lemma notify_one_ok q t w : queue_ok q → threads q !! t = Some ENotify → threads q !! w = Some WSleep → queue_ok (return_ t (goto w WWoken q)).
Proof using Type.
  intros Q E Ew. pose proof Q as [H1 H2 H3 H4 H5]. assert (Hne : w ≠ t) by (intros ->; congruence).
  assert (E' : <[w := WWoken]> (threads q) !! t = Some ENotify) by by rewrite list_lookup_insert_ne.
  split; simpl; try done.
  - intros t' p' Ht Hh'. apply list_lookup_insert_Some in Ht as [(_ & <- & _)|[Ht' Ht]]; [done|]. apply list_lookup_insert_Some in Ht as [(_ & <- & _)|[_ Ht]]; [done|].
    by destruct (Ht' (eq_sym (holder_alone q t ENotify t' p' Q E eq_refl Ht Hh'))).
  - by intros [?|[?|?]%elem_of_goto]%elem_of_goto; [..|apply H3].
  - by intros [?|[?|?]%elem_of_goto]%elem_of_goto; [..|apply H4].
  - intros Hb. pose proof (count_insert sleeps _ _ _ Idle E') as C1. pose proof (count_insert looks _ _ _ Idle E') as C2.
    pose proof (count_insert sleeps _ _ _ WWoken Ew) as C3. pose proof (count_insert looks _ _ _ WWoken Ew) as C4. specialize (H5 Hb). simpl in *. lia.
Qed.

Lemma count_none f l : (∀ p, p ∈ l → f p = false) → count f l = 0%nat.
Proof using Type. induction l as [|p l IH]; intros H; [done|]. rewrite count_cons, H by left. apply IH. intros q Hq. apply H. by right. Qed.

Lemma notify_nobody_ok q t : queue_ok q → threads q !! t = Some ENotify → existsb sleeps (threads q) = false → queue_ok (return_ t q).
Proof using Type.
  intros Q E Hn. assert (Hs : count sleeps (threads q) = 0%nat).
  { apply count_none. intros p Hp. destruct (sleeps p) eqn:Es; [|done]. rewrite <- Hn. symmetry. apply existsb_exists. exists p. split; [|done]. by apply list_elem_of_In. }
  pose proof Q as [H1 H2 H3 H4 H5]. split; simpl; try done.
  - intros t' p' Ht Hh'. apply list_lookup_insert_Some in Ht as [(_ & <- & _)|[Ht' Ht]]; [done|]. by destruct (Ht' (eq_sym (holder_alone q t ENotify t' p' Q E eq_refl Ht Hh'))).
  - by intros [?|?]%elem_of_goto; [|apply H3].
  - by intros [?|?]%elem_of_goto; [|apply H4].
  - intros _ Hs'. pose proof (count_insert sleeps _ _ _ Idle E) as C1. simpl in *. lia.
Qed.

Lemma break_ok q t : queue_ok q → threads q !! t = Some BSet → queue_ok (goto t BNotify (mkTs (queue_ q) (mutex_ q) true (threads q) (enqueued q) (dequeued q))).
Proof using Type.
  intros [H1 H2 H3 H4 H5] E. split; simpl; try done; [|by left..].
  intros t' p' Ht Hh'. apply list_lookup_insert_Some in Ht as [(_ & <- & _)|[_ Ht]]; [done|by eapply H2].
Qed.

Lemma break_all_ok q t : queue_ok q → threads q !! t = Some BNotify →
  queue_ok (goto t Idle (mkTs (queue_ q) (mutex_ q) (break_all_wait_ q) (wake <$> threads q) (enqueued q) (dequeued q))).
Proof using Type.
  intros [H1 H2 H3 H4 H5] E. assert (Hw : ∀ x, x ∈ wake <$> threads q → x = WWoken ∨ x ∈ threads q).
  { intros x (p & -> & Hp)%list_elem_of_fmap. unfold wake. destruct (sleeps p); [by left|by right]. }
  split; simpl; try done.
  - intros t' p' Ht Hh'. apply list_lookup_insert_Some in Ht as [(_ & <- & _)|[_ Ht]]; [done|]. rewrite list_lookup_fmap in Ht. destruct (threads q !! t') as [p|] eqn:Ep; [|done].
    injection Ht as <-. unfold wake in Hh'. destruct (sleeps p) eqn:Es; [done|by eapply H2].
  - by intros [?|[?|?]%Hw]%elem_of_goto; [..|apply H3].
  - by intros [?|[?|?]%Hw]%elem_of_goto; [..|apply H4].
  - intros _ Hs. rewrite count_none in Hs; [lia|]. intros p [->|Hp]%elem_of_goto; [done|]. apply list_elem_of_fmap in Hp as (p0 & -> & _). unfold wake. destruct (sleeps p0) eqn:Es; [done|by rewrite Es].
Qed.

Lemma ts_exec_ok q l q' : queue_ok q → exec q l = Some q' → queue_ok q'.
Proof using Type.
  destruct l as [t c]. intros Q E. unfold exec in E. simpl in E. destruct (threads q !! t) as [p|] eqn:Ep; [|done]. simpl in E.
  assert (Hgo : ∀ p', holds p = holds p' → (p' = WTake → break_all_wait_ q = true ∨ queue_ q ≠ []) → (p' = WBlock → queue_ q = []) →
    (break_all_wait_ q = false → queue_ q = [] ∨ ((sleeps p' = true → sleeps p = true) ∧ (looks p = true → looks p' = true))) → queue_ok (goto t p' q)).
  { intros p' Hh H1 H2 H3. pose proof (goto_ok q t p p' (mutex_ q) Q Ep) as H. destruct q. apply H; try done. rewrite <- Hh. destruct (holds p) eqn:Ehp; [|done]. split; [|right]; by eapply (qo_mutex _ Q). }
  assert (Hacq : ∀ p', holds p = false → holds p' = true → p' ≠ WTake → p' ≠ WBlock → (looks p = true → looks p' = true) → sleeps p' = false → acquire t p' q = Some q' → queue_ok q').
  { intros p' Hh Hh' H1 H2 H3 H4 Ha. unfold acquire in Ha. destruct (mutex_ q) eqn:Em; [done|]. injection Ha as <-. eapply goto_ok; try done; [rewrite Hh'; by auto|]. intros _. right. by rewrite H4. }
  destruct c as [x| | | | |[w|]|], p; simpl in E; try done.
  all: try (injection E as <-; apply Hgo; try done; intros _; right; done).
  all: try (eapply Hacq; [..|exact E]; done).
  - injection E as <-. by apply push_ok.
  - injection E as <-. unfold pop. destruct (queue_ q) as [|y l] eqn:El; [|pose proof (take_ok q t _ y l Q Ep (or_introl eq_refl) El) as H; unfold pop in H; by rewrite El in H].
    eapply goto_ok; try done. intros _. by left.
  - injection E as <-. destruct (break_all_wait_ q) eqn:Eb; simpl; [apply Hgo; try done; by left|]. case_bool_decide; simpl; apply Hgo; try done; try (intros _; by left); intros _; by right.
  - injection E as <-. destruct (break_all_wait_ q) eqn:Eb; [eapply goto_ok; try done; congruence|]. destruct (queue_ q) as [|y l] eqn:El.
    + assert (Hw : WTake ∈ threads q) by by eapply list_elem_of_lookup_2. apply (qo_take _ Q) in Hw as [?|?]; congruence.
    + by eapply take_ok; [| |right|].
  - injection E as <-. eapply goto_ok; try done. intros Hb. left. assert (Hw : WBlock ∈ threads q) by by eapply list_elem_of_lookup_2. apply (qo_block _ Q) in Hw as [?|?]; congruence.
  - injection E as <-. by apply break_ok.
  - injection E as <-. by apply break_all_ok.
  - destruct (threads q !! w) as [[]|] eqn:Ew; try done. injection E as <-. by apply notify_one_ok.
  - destruct (existsb sleeps (threads q)) eqn:Es; [done|]. injection E as <-. by apply notify_nobody_ok.
Qed.

(** Property: the queue with a mutex loses no element and no wake-up: what was
    enqueued is what was dequeued, in order, and what is there; nobody takes
    from an empty queue; and as long as the waiting has not been broken off, if
    somebody sleeps then for every element that is there another thread is
    awake that will look at the queue (or about to wake one).  So when all
    other calls have returned, the queue is empty. *)
Theorem nobody_sleeps_beside_an_element n ls q : run exec (new_queue n) ls = Some q →
  enqueued q = dequeued q ++ queue_ q ∧ (WTake ∈ threads q → break_all_wait_ q = true ∨ queue_ q ≠ []) ∧
  (break_all_wait_ q = false → WSleep ∈ threads q → (length (queue_ q) ≤ count looks (threads q))%nat).
Proof using Type.
  intros E. assert (Q : queue_ok q).
  { apply run_trace in E. eapply (trace_invariant _ queue_ok); [| |exact E]; [apply new_queue_ok|]. intros a l b Ha Hab. by eapply ts_exec_ok. }
  split_and!; [apply Q|apply Q|]. intros Hb Hs. apply (qo_wake _ Q Hb). apply list_elem_of_split in Hs as (l1 & l2 & ->).
  induction l1 as [|p l1 IH]; simpl; rewrite count_cons; simpl; lia.
Qed.
End ThreadSafeQueue.

(** ** Runs *)

(** Thread 0 waits; thread 1 enqueues and wakes it. *)
Definition demo_calls : list (nat * @call nat) :=
  [(0, WaitDequeue); (0, Go); (0, Go); (0, Go); (1, Enqueue 7); (1, Go); (1, Go); (1, Notify (Some 0)); (2, Enqueue 8); (2, Go); (2, Go)]%nat.

Lemma nobody_sleeps_beside_an_element_witness :
  ∃ q, run exec (new_queue 3) demo_calls = Some q ∧ enqueued q = dequeued q ++ queue_ q ∧ queue_ q = [7; 8]%nat ∧ count looks (threads q) = 2%nat.
Proof.
  eexists. split; [vm_compute; reflexivity|]. split; [|split; vm_compute; reflexivity].
  by apply (nobody_sleeps_beside_an_element 3 demo_calls); vm_compute.
Defined.

(** [BreakAllWait] does not take the mutex: between the test and the sleep of a
    waiting thread it is missed, and the thread sleeps on although nobody is
    left to wake it. *)
Theorem break_can_be_missed :
  ∃ q, run exec (new_queue 2) ([(0, WaitDequeue); (0, Go); (0, Go); (1, BreakAllWait); (1, Go); (1, Go); (0, Go)]%nat : list (nat * @call nat)) = Some q ∧
    threads q = [WSleep; Idle] ∧ break_all_wait_ q = true.
Proof. eexists. split; [vm_compute; reflexivity|]. split; vm_compute; reflexivity. Qed.
