(* ===== verification/ThreadPool.v ===== *)
(** * Wait strategies and the thread pool

    [WaitStrategy] ([src/code/cyber/base/wait_strategy.h]) says how a thread
    waits for a bounded queue; [ThreadPool] ([src/code/cyber/base/thread_pool.h])
    puts tasks into such a queue, and its workers wait for them.  Workers,
    clients and the destructor are interleaved at the accesses of the flags, of
    the queue (whose operations refine atomic ones, see [BoundedQueue]) and of
    the condition variable. *)

From stdpp Require Import base list.
From S2P Require Import Prelude BoundedQueue.

(** ** [WaitStrategy] *)

Inductive WaitStrategy :=
  | BlockWaitStrategy
  | SleepWaitStrategy (sleep_time_us_ : Z)
  | YieldWaitStrategy
  | BusySpinWaitStrategy
  | TimeoutBlockWaitStrategy (time_out_ : Z).

(** What a call of [EmptyWait] does: it returns after a while by itself, or it
    sleeps on the condition variable, perhaps not for ever. *)
Inductive waiting := Returns (result : bool) | Sleeps (timeout : option Z).

Definition EmptyWait (s : WaitStrategy) : waiting :=
  match s with
  | BlockWaitStrategy => Sleeps None
  | SleepWaitStrategy _ | YieldWaitStrategy | BusySpinWaitStrategy => Returns true
  | TimeoutBlockWaitStrategy ms => Sleeps (Some ms)
  end.

(** [NotifyOne] and [BreakAllWait] reach a condition variable. *)
Definition notifies (s : WaitStrategy) : bool := match s with BlockWaitStrategy | TimeoutBlockWaitStrategy _ => true | _ => false end.

(** ** [ThreadPool] *)

Section ThreadPool.
Context {T : Type} (dflt : T).
(** The pool takes a [BlockWaitStrategy]. *)
Context (strategy : WaitStrategy).

Inductive worker :=
  | WTop                (** [while (!stop_)] *)
  | WBreak              (** [WaitDequeue]: [while (!break_all_wait_)] *)
  | WTry                (** [Dequeue] *)
  | WEnter              (** [EmptyWait] *)
  | WSleep              (** [cv_.wait] *)
  | WGot (task : T)     (** out of [WaitDequeue], before [task()] *)
  | WRun (task : T)     (** in [task()] *)
  | WExit.

Inductive client := CIdle | CQueue (task : T) | CNotify.

Inductive destructor := DNone | DBreak | DNotifyAll | DJoin (i : nat) | DDone.

(** The last five are not part of the program: the tasks for which a client got
    a valid future, those that came into the queue, those that were taken out of
    it, those that were begun and those that have ended. *)
Record pool := mkPool {
  task_queue_ : BoundedQueue T; stop_ : bool; workers_ : list worker; clients : list client; dtor : destructor;
  promised : list T; queued : list T; taken : list T; begun : list T; ended : list T }.

(** [ThreadPool(threads, max_task_num)], with [n] clients. *)
Definition new_pool (threads : nat) (max_task_num : Z) (n : nat) : pool :=
  mkPool (Init dflt max_task_num) false (replicate threads WTop) (replicate n CIdle) DNone [] [] [] [] [].

Definition with_queue (q : BoundedQueue T) (y : pool) : pool := mkPool q (stop_ y) (workers_ y) (clients y) (dtor y) (promised y) (queued y) (taken y) (begun y) (ended y).
Definition set_worker (i : nat) (w : worker) (y : pool) : pool :=
  mkPool (task_queue_ y) (stop_ y) (<[i := w]> (workers_ y)) (clients y) (dtor y) (promised y) (queued y) (taken y) (begun y) (ended y).
Definition set_client (c : nat) (p : client) (y : pool) : pool :=
  mkPool (task_queue_ y) (stop_ y) (workers_ y) (<[c := p]> (clients y)) (dtor y) (promised y) (queued y) (taken y) (begun y) (ended y).
Definition set_dtor (d : destructor) (y : pool) : pool := mkPool (task_queue_ y) (stop_ y) (workers_ y) (clients y) d (promised y) (queued y) (taken y) (begun y) (ended y).
Definition begin_task (x : T) (y : pool) : pool := mkPool (task_queue_ y) (stop_ y) (workers_ y) (clients y) (dtor y) (promised y) (queued y) (taken y) (begun y ++ [x]) (ended y).
Definition take_task (x : T) (y : pool) : pool := mkPool (task_queue_ y) (stop_ y) (workers_ y) (clients y) (dtor y) (promised y) (queued y) (taken y ++ [x]) (begun y) (ended y).
Definition end_task (x : T) (y : pool) : pool := mkPool (task_queue_ y) (stop_ y) (workers_ y) (clients y) (dtor y) (promised y) (queued y) (taken y) (begun y) (ended y ++ [x]).
Definition promise (x : T) (inside : bool) (y : pool) : pool :=
  mkPool (task_queue_ y) (stop_ y) (workers_ y) (clients y) (dtor y) (promised y ++ [x]) (if inside then queued y ++ [x] else queued y) (taken y) (begun y) (ended y).

(** One step of a worker: the lambda of the constructor, with [WaitDequeue] and
    [EmptyWait]. *)
Definition worker_step (i : nat) (y : pool) : option pool :=
  match workers_ y !! i with
  | Some WTop => Some (set_worker i (if stop_ y then WExit else WBreak) y)
  | Some WBreak => Some (set_worker i (if break_all_wait_ (task_queue_ y) then WTop else WTry) y)
  | Some WTry =>
      match Dequeue (task_queue_ y) with
      | (Some x, q) => Some (take_task x (set_worker i (WGot x) (with_queue q y)))
      | (None, q) => Some (set_worker i WEnter (with_queue q y))
      end
  | Some WEnter => Some (set_worker i (match EmptyWait strategy with Returns true => WBreak | Returns false => WTop | Sleeps _ => WSleep end) y)
  | Some (WGot x) => Some (begin_task x (set_worker i (WRun x) y))
  | Some (WRun x) => Some (end_task x (set_worker i WTop y))
  | _ => None
  end.

Definition asleep (w : worker) : bool := match w with WSleep => true | _ => false end.
Definition wake (w : worker) : worker := if asleep w then WBreak else w.

(** [notify_one]: who wakes up, if somebody sleeps. *)
Definition notify_one (w : option nat) (y : pool) : option pool :=
  if negb (notifies strategy) then match w with None => Some y | Some _ => None end
  else
    match w with
    | None => if existsb asleep (workers_ y) then None else Some y
    | Some i => match workers_ y !! i with Some WSleep => Some (set_worker i WBreak y) | _ => None end
    end.

Inductive label :=
  | Worker (i : nat)
  | Wake (i : nat)               (** [wait] returns for no reason *)
  | Timeout (i : nat)            (** [wait_for] returns with [timeout] *)
  | Call (c : nat) (task : T)    (** [Enqueue]: the test of [stop_] *)
  | Queue (c : nat)              (** [task_queue_.Enqueue], the result ignored *)
  | Notify (c : nat) (w : option nat)
  | Destroy.                     (** the next step of [~ThreadPool] *)

Definition exec (y : pool) (l : label) : option pool :=
  match l with
  | Worker i => worker_step i y
  | Wake i => match workers_ y !! i with Some WSleep => Some (set_worker i WBreak y) | _ => None end
  | Timeout i => match EmptyWait strategy, workers_ y !! i with Sleeps (Some _), Some WSleep => Some (set_worker i WTop y) | _, _ => None end
  | Call c x => match clients y !! c with Some CIdle => Some (if stop_ y then y else set_client c (CQueue x) y) | _ => None end
  | Queue c =>
      match clients y !! c with
      | Some (CQueue x) =>
          match Enqueue (task_queue_ y) x with
          | (true, q) => Some (promise x true (set_client c CNotify (with_queue q y)))
          | (false, q) => Some (promise x false (set_client c CIdle (with_queue q y)))
          end
      | _ => None
      end
  | Notify c w => match clients y !! c with Some CNotify => notify_one w (set_client c CIdle y) | _ => None end
  | Destroy =>
      match dtor y with
      | DNone => Some (set_dtor DBreak (mkPool (task_queue_ y) true (workers_ y) (clients y) (dtor y) (promised y) (queued y) (taken y) (begun y) (ended y)))
      | DBreak => Some (set_dtor DNotifyAll (with_queue (BreakAllWait (task_queue_ y)) y))
      | DNotifyAll =>
          Some (set_dtor (DJoin 0)
            (if notifies strategy then mkPool (task_queue_ y) (stop_ y) (wake <$> workers_ y) (clients y) (dtor y) (promised y) (queued y) (taken y) (begun y) (ended y) else y))
      | DJoin i => match workers_ y !! i with None => Some (set_dtor DDone y) | Some WExit => Some (set_dtor (DJoin (S i)) y) | Some _ => None end
      | DDone => None
      end
  end.

(** ** Every task at most once *)

(** The tasks that workers have taken and not begun, and those that they run. *)
Definition got (w : worker) : option T := match w with WGot x => Some x | _ => None end.
Definition runs (w : worker) : option T := match w with WRun x => Some x | _ => None end.
Definition held (f : worker → option T) (ws : list worker) : list T := omap f ws.

Lemma held_insert f ws i w w' : ws !! i = Some w → ∃ r, held f ws ≡ₚ option_list (f w) ++ r ∧ held f (<[i := w']> ws) ≡ₚ option_list (f w') ++ r.
Proof using Type.
  intros H. exists (held f (take i ws ++ drop (S i) ws)). pose proof (lookup_lt_Some _ _ _ H) as Hi.
  assert (E : ∀ v, held f (take i ws ++ v :: drop (S i) ws) ≡ₚ option_list (f v) ++ held f (take i ws ++ drop (S i) ws)).
  { intros v. unfold held. rewrite !omap_app. simpl. destruct (f v); simpl; [|done]. by rewrite Permutation_middle. }
  split; [rewrite <- (take_drop_middle ws i w H) at 1; apply E|]. rewrite insert_take_drop by done. apply E.
Qed.

Lemma held_kept f ws i w w' : ws !! i = Some w → f w = f w' → held f (<[i := w']> ws) = held f ws.
Proof using Type.
  intros H E. rewrite <- (take_drop_middle ws i w H) at 2. rewrite insert_take_drop by by eapply lookup_lt_Some.
  unfold held. rewrite !omap_app. simpl. by rewrite E.
Qed.

Lemma held_one f ws i w w' : ws !! i = Some w → (length ws ≤ 1)%nat → held f ws = option_list (f w) ∧ held f (<[i := w']> ws) = option_list (f w').
Proof using Type. destruct ws as [|v [|]], i; simpl; intros; try done; try lia. simplify_eq. unfold held. simpl. by destruct (f w), (f w'). Qed.

Record pool_ok (size : Z) (n : nat) (y : pool) (l : list T) : Prop := {
  po_queue : quiescent (task_queue_ y) l;
  po_size : pool_size_ (task_queue_ y) = size + 2;
  po_tail : tail_ (task_queue_ y) = 1 + zlen (queued y);
  po_few : (length (queued y) ≤ n)%nat;
  po_order : queued y = taken y ++ l;
  po_promised : queued y `sublist_of` promised y;
  po_taken : taken y ≡ₚ begun y ++ held got (workers_ y);
  po_ended : begun y ≡ₚ ended y ++ held runs (workers_ y);
  po_one : (length (workers_ y) ≤ 1)%nat → taken y = begun y ++ held got (workers_ y);
  po_exit : WExit ∈ workers_ y → stop_ y = true;
}.

Lemma new_pool_ok threads size n : 0 ≤ size < 2 ^ 64 - 2 → pool_ok size 0 (new_pool threads size n) [].
Proof using Type.
  intros H. assert (E : ∀ f, f WTop = None → held f (replicate threads WTop) = []).
  { intros f Hf. unfold held. induction threads as [|k IH]; [done|]. simpl. by rewrite Hf. }
  split; simpl; rewrite ?E by done; try done.
  - by apply Init_quiescent.
  - apply wrap_small. unfold in_u. lia.
  - by intros [? _]%elem_of_replicate.
Qed.

Lemma exit_insert (ws : list worker) i w : w ≠ WExit → WExit ∈ <[i := w]> ws → WExit ∈ ws.
Proof using Type.
  intros Hn (j & Hj)%list_elem_of_lookup. apply list_lookup_insert_Some in Hj as [(_ & E & _)|[_ Hj]]; [done|]. by eapply list_elem_of_lookup_2.
Qed.

(** Nothing but the place of a worker changes. *)
Lemma move_worker size n y l i w w' : pool_ok size n y l → workers_ y !! i = Some w → got w = got w' ∧ runs w = runs w' → (w' = WExit → stop_ y = true) → pool_ok size (S n) (set_worker i w' y) l.
Proof using Type.
  intros [] Hw [Hg Hr] He. split; simpl; rewrite ?length_insert, ?(held_kept _ _ _ _ _ Hw Hg), ?(held_kept _ _ _ _ _ Hw Hr); try done; [lia|].
  intros (j & Hj)%list_elem_of_lookup. apply list_lookup_insert_Some in Hj as [(_ & E & _)|[_ Hj]]; [by apply He|]. apply po_exit0. by eapply list_elem_of_lookup_2.
Qed.

Lemma later_ok size n y l : pool_ok size n y l → pool_ok size (S n) y l.
Proof using Type. intros []. split; try done. lia. Qed.

Lemma set_client_ok size n y l c p : pool_ok size n y l → pool_ok size (S n) (set_client c p y) l.
Proof using Type. intros []. split; try done. simpl. lia. Qed.

Lemma dequeue_ok size n y l i : pool_ok size n y l → workers_ y !! i = Some WTry →
  ∃ y', worker_step i y = Some y' ∧ match l with
    | [] => y' = set_worker i WEnter y ∧ pool_ok size (S n) y' []
    | x :: l' => workers_ y' = <[i := WGot x]> (workers_ y) ∧ stop_ y' = stop_ y ∧ begun y' = begun y ∧ queued y' = queued y ∧
        break_all_wait_ (task_queue_ y') = break_all_wait_ (task_queue_ y) ∧ pool_ok size (S n) y' l'
    end.
Proof using Type.
  intros P Hw. pose proof P as []. unfold worker_step. rewrite Hw. pose proof (Dequeue_quiescent _ _ po_queue0) as Hd. destruct l as [|x l].
  - rewrite Hd. eexists. split; [done|]. assert (with_queue (task_queue_ y) y = y) as -> by by destruct y. split; [done|]. by eapply move_worker.
  - assert (Hq : pool_size_ (Dequeue (task_queue_ y)).2 = pool_size_ (task_queue_ y) ∧ tail_ (Dequeue (task_queue_ y)).2 = tail_ (task_queue_ y) ∧ break_all_wait_ (Dequeue (task_queue_ y)).2 = break_all_wait_ (task_queue_ y)) by (unfold Dequeue; by case_match).
    destruct (Dequeue (task_queue_ y)) as [o q]. simpl in Hd, Hq. destruct Hd as [-> Hd]. destruct Hq as (Hq1 & Hq2 & Hq3). eexists. split; [done|]. simpl. do 5 (split; [done|]).
    split; simpl; rewrite ?length_insert, ?(held_kept runs _ _ _ (WGot x) Hw eq_refl); try done; try congruence; [lia|by rewrite po_order0, <- (assoc_L (++))|..].
    + destruct (held_insert got _ _ _ (WGot x) Hw) as (r & E1 & E2). rewrite E2, po_taken0, E1. simpl. by rewrite <- (assoc (++)), <- Permutation_cons_append.
    + intros H. destruct (held_one got _ _ _ (WGot x) Hw H) as [E1 E2]. rewrite po_one0, E1, E2 by done. simpl. by rewrite app_nil_r.
    + intros Hx. apply po_exit0. by eapply exit_insert, Hx.
Qed.

Lemma begin_ok size n y l i x : pool_ok size n y l → workers_ y !! i = Some (WGot x) → pool_ok size (S n) (begin_task x (set_worker i (WRun x) y)) l.
Proof using Type.
  intros [] Hw. split; simpl; rewrite ?length_insert; try done; [lia|..].
  - destruct (held_insert got _ _ _ (WRun x) Hw) as (r & E1 & E2). rewrite E2, po_taken0, E1. simpl. by rewrite <- (assoc (++)).
  - destruct (held_insert runs _ _ _ (WRun x) Hw) as (r & E1 & E2). rewrite E2, po_ended0, E1. simpl. by rewrite <- (assoc (++)), <- Permutation_cons_append.
  - intros H. destruct (held_one got _ _ _ (WRun x) Hw H) as [E1 E2]. rewrite po_one0, E1, E2 by done. simpl. by rewrite app_nil_r.
  - intros Hx. apply po_exit0. by eapply exit_insert, Hx.
Qed.

Lemma finish_ok size n y l i x : pool_ok size n y l → workers_ y !! i = Some (WRun x) → pool_ok size (S n) (end_task x (set_worker i WTop y)) l.
Proof using Type.
  intros [] Hw. split; simpl; rewrite ?length_insert, ?(held_kept got _ _ _ WTop Hw eq_refl); try done; [lia|..].
  - destruct (held_insert runs _ _ _ WTop Hw) as (r & E1 & E2). rewrite E2, po_ended0, E1. simpl. by rewrite <- (assoc (++)).
  - intros Hx. apply po_exit0. by eapply exit_insert, Hx.
Qed.

Lemma enqueue_ok size n y l c x y' : pool_ok size n y l → clients y !! c = Some (CQueue x) → exec y (Queue c) = Some y' → Z.of_nat n < 2 ^ 64 - 4 → ∃ l', pool_ok size (S n) y' l'.
Proof using Type.
  intros [H1 H2 H3 H4 H5 H6 H7 H8 H9 H10] Hc E Hn. simpl in E. rewrite Hc in E. pose proof (Enqueue_quiescent _ _ x H1 ltac:(unfold zlen in *; lia)) as He.
  case_decide as Hd.
  - assert (Hq : (Enqueue (task_queue_ y) x).1 = true → pool_size_ (Enqueue (task_queue_ y) x).2 = pool_size_ (task_queue_ y) ∧ tail_ (Enqueue (task_queue_ y) x).2 = u64 (tail_ (task_queue_ y) + 1)) by (unfold Enqueue; cbv zeta; destruct (_ =? _); [done|intros _; by split]).
    destruct (Enqueue (task_queue_ y) x) as [b q]. destruct He as [Hb He]. simpl in Hb, He, Hq. subst b. destruct (Hq eq_refl) as [Hq1 Hq2]. injection E as <-. exists (l ++ [x]).
    split; simpl; try done; try congruence.
    + rewrite Hq2, H3, wrap_small by (unfold in_u, zlen in *; lia). unfold zlen. rewrite length_app. simpl. lia.
    + rewrite length_app. simpl. lia.
    + by rewrite H5, (assoc_L (++)).
    + by apply sublist_app.
  - rewrite He in E. injection E as <-. exists l. split; simpl; try done. + lia. + by apply sublist_inserts_r.
Qed.

Lemma wake_ok (ws : list worker) : (∀ f, (∀ w, f (wake w) = f w) → held f (wake <$> ws) = held f ws) ∧ (WExit ∈ wake <$> ws → WExit ∈ ws).
Proof using Type.
  split.
  - intros f Hf. unfold held. induction ws as [|w ws IH]; [done|]. rewrite fmap_cons. simpl. rewrite Hf. change (list_omap worker T f) with (omap f : list worker → list T). by rewrite IH.
  - intros (w & E & Hw)%list_elem_of_fmap. by destruct w.
Qed.

Lemma pool_exec_ok size n y l lb y' : pool_ok size n y l → exec y lb = Some y' → Z.of_nat n < 2 ^ 64 - 4 → ∃ l', pool_ok size (S n) y' l'.
Proof using Type.
  intros P E Hn. destruct lb as [i|i|i|c x|c|c w|]; simpl in E.
  - destruct (workers_ y !! i) as [w|] eqn:Hw; [|unfold worker_step in E; by rewrite Hw in E]. destruct w.
    3: { destruct (dequeue_ok _ _ _ _ _ P Hw) as (y1 & E1 & H1). rewrite E1 in E. injection E as <-. destruct l; eexists; apply H1. }
    all: unfold worker_step in E; rewrite Hw in E; try done; injection E as <-; exists l.
    + eapply move_worker; try done; by destruct (stop_ y).
    + eapply move_worker; try done; by destruct (break_all_wait_ _).
    + eapply move_worker; try done; by destruct (EmptyWait strategy) as [[]|].
    + by eapply begin_ok.
    + by eapply finish_ok.
  - destruct (workers_ y !! i) as [[]|] eqn:Hw; try done. injection E as <-. exists l. by eapply move_worker.
  - destruct (EmptyWait strategy) as [|[]]; try done. destruct (workers_ y !! i) as [[]|] eqn:Hw; try done. injection E as <-. exists l. by eapply move_worker.
  - destruct (clients y !! c) as [[]|]; try done. exists l. destruct (stop_ y); injection E as <-; [by apply later_ok|by apply set_client_ok].
  - destruct (clients y !! c) as [[|x|]|] eqn:Hc; try done. eapply enqueue_ok; try done. simpl. by rewrite Hc.
  - destruct (clients y !! c) as [[]|]; try done. exists l. unfold notify_one in E. destruct (notifies strategy), w as [i|]; simpl in E; try done.
    + destruct (workers_ y !! i) as [[]|] eqn:Hw; try done. injection E as <-. change (pool_ok size (S n) (set_client c CIdle (set_worker i WBreak y)) l).
      pose proof (move_worker _ _ _ _ i _ WBreak P Hw ltac:(done) ltac:(done)) as []. by split.
    + destruct (existsb asleep (workers_ y)); [done|]. injection E as <-. by apply set_client_ok.
    + injection E as <-. by apply set_client_ok.
  - pose proof P as []. exists l. destruct (dtor y).
    + injection E as <-. split; try done. simpl. lia.
    + injection E as <-. split; try done. simpl. lia.
    + injection E as <-. destruct (wake_ok (workers_ y)) as [W1 W2]. assert (Hg : ∀ w, got (wake w) = got w) by by intros []. assert (Hr : ∀ w, runs (wake w) = runs w) by by intros [].
      destruct (notifies strategy); split; simpl; rewrite ?length_fmap, ?(W1 got Hg), ?(W1 runs Hr); try done; try lia. by intros ?%W2%po_exit0.
    + destruct (workers_ y !! i) as [[]|]; try done; injection E as <-; split; try done; simpl; lia.
    + done.
Qed.

Lemma pool_run_ok size ls : ∀ n y y' l, pool_ok size n y l → run exec y ls = Some y' → Z.of_nat (length ls + n) < 2 ^ 64 - 4 → ∃ l', pool_ok size (length ls + n) y' l'.
Proof using Type.
  induction ls as [|lb ls IH]; simpl; intros n y y' l P E Hn; [simplify_eq; by exists l|]. destruct (exec y lb) as [y1|] eqn:E1; [|done].
  destruct (pool_exec_ok _ _ _ _ _ _ P E1) as [l1 P1]; [lia|]. replace (S (length ls + n)) with (length ls + S n)%nat in * by lia. eapply IH; try done. 
Qed.

(** Threads are made by the constructor only. *)
Lemma exec_threads y l y' : exec y l = Some y' → length (workers_ y') = length (workers_ y).
Proof using Type. destruct l; simpl; unfold worker_step, notify_one; intros E; repeat case_match; simplify_eq; simpl; by rewrite ?length_insert, ?length_fmap. Qed.

Lemma run_threads ls y y' : run exec y ls = Some y' → length (workers_ y') = length (workers_ y).
Proof using Type.
  revert y. induction ls as [|l ls IH]; simpl; intros y E; [by simplify_eq|]. destruct (exec y l) as [y1|] eqn:E1; [|done]. etrans; [by apply IH|]. by eapply exec_threads.
Qed.

(** C20: whatever the order of the steps of workers, clients and destructor, the
    tasks that came into the queue are taken out in the order in which they
    came; what was taken out is in the hands of one worker, which is before
    [task()], or was begun once; what was begun runs in one worker or has
    ended; no more than [max_task_num] tasks wait, and no worker leaves before
    the pool is being destroyed.  They are begun in that order too when there is
    only one thread; with more they need not be ([tasks_begin_out_of_order]). *)
Theorem pool_begins_each_task_once threads size n ls y : 0 ≤ size < 2 ^ 64 - 2 → Z.of_nat (length ls) < 2 ^ 64 - 4 → run exec (new_pool threads size n) ls = Some y →
  ∃ l, quiescent (task_queue_ y) l ∧ zlen l ≤ size ∧ queued y = taken y ++ l ∧
    taken y ≡ₚ begun y ++ held got (workers_ y) ∧ begun y ≡ₚ ended y ++ held runs (workers_ y) ∧
    queued y `sublist_of` promised y ∧ (WExit ∈ workers_ y → stop_ y = true) ∧
    ((threads ≤ 1)%nat → taken y = begun y ++ held got (workers_ y)).
Proof using Type.
  intros Hs Hn E. destruct (pool_run_ok size ls 0 _ _ _ (new_pool_ok threads size n Hs) E) as [l P]; [rewrite Nat.add_0_r; lia|]. exists l.
  pose proof P as []. split_and!; try done. { destruct po_queue0 as ((_ & _ & _ & Hc & Hd & _) & _ & [Hl _]). lia. }
  intros Ht. apply po_one0. rewrite (run_threads _ _ _ E). simpl. by rewrite length_replicate.
Qed.

(** ** A worker that is awake *)

Definition steady (i : nat) (y : pool) (w : worker) : Prop := workers_ y !! i = Some w ∧ stop_ y = false ∧ break_all_wait_ (task_queue_ y) = false.

Lemma steady_move size n y l i w w' : pool_ok size n y l → steady i y w → got w = got w' ∧ runs w = runs w' → w' ≠ WExit → worker_step i y = Some (set_worker i w' y) →
  ∃ y', worker_step i y = Some y' ∧ steady i y' w' ∧ pool_ok size (S n) y' l ∧ begun y' = begun y.
Proof using Type.
  intros P (Hw & Hs & Hb) Ht He E. exists (set_worker i w' y). split; [done|]. split; [|split; [by eapply move_worker|done]].
  split; [|done]. simpl. apply list_lookup_insert_eq. by eapply lookup_lt_Some.
Qed.

Lemma run_step i k y y1 y' : worker_step i y = Some y1 → run exec y1 (replicate k (Worker i)) = Some y' → run exec y (replicate (S k) (Worker i)) = Some y'.
Proof using Type. intros E1 E. cbn [replicate run exec]. by rewrite E1. Qed.

(** From the top of the loop, or from the test of the flag, to [Dequeue]. *)
Lemma loop_to_try i size n y l w : pool_ok size n y l → steady i y w → w = WTop ∨ w = WBreak →
  ∃ k y', (k ≤ 2)%nat ∧ run exec y (replicate k (Worker i)) = Some y' ∧ pool_ok size (k + n) y' l ∧ steady i y' WTry ∧ begun y' = begun y.
Proof using Type.
  assert (Hbreak : ∀ n y, pool_ok size n y l → steady i y WBreak → ∃ y', worker_step i y = Some y' ∧ steady i y' WTry ∧ pool_ok size (S n) y' l ∧ begun y' = begun y).
  { intros n0 y0 P S. eapply steady_move; try done. unfold worker_step. rewrite (proj1 S). by rewrite (proj2 (proj2 S)). }
  intros P S [-> | ->].
  - destruct (steady_move _ _ _ _ _ _ WBreak P S) as (y1 & E1 & S1 & P1 & B1); [done..|unfold worker_step; rewrite (proj1 S); by rewrite (proj1 (proj2 S))|].
    destruct (Hbreak _ _ P1 S1) as (y2 & E2 & S2 & P2 & B2). exists 2%nat, y2. split; [lia|]. split; [|split_and!; [done..|congruence]]. by do 2 (eapply run_step; [done|]).
  - destruct (Hbreak _ _ P S) as (y2 & E2 & S2 & P2 & B2). exists 1%nat, y2. split; [lia|]. split; [|by split_and!]. by eapply run_step.
Qed.

(** A worker that runs its task comes to [Dequeue] in three steps, one that has
    a task in hand in four, having begun it. *)
Lemma run_to_try i size n y l w : pool_ok size n y l → steady i y w → match w with WGot _ | WRun _ => True | _ => False end →
  ∃ k y', (k ≤ 4)%nat ∧ run exec y (replicate k (Worker i)) = Some y' ∧ pool_ok size (k + n) y' l ∧ steady i y' WTry ∧ begun y' = begun y ++ option_list (got w).
Proof using Type.
  assert (Hrun : ∀ n y x, pool_ok size n y l → steady i y (WRun x) → ∃ k y', (k ≤ 3)%nat ∧ run exec y (replicate k (Worker i)) = Some y' ∧ pool_ok size (k + n) y' l ∧ steady i y' WTry ∧ begun y' = begun y).
  { intros n0 y0 x P0 (Hw & Hs & Hb). pose proof (finish_ok _ _ _ _ _ _ P0 Hw) as P1.
    destruct (loop_to_try i _ _ _ _ WTop P1) as (k & y' & Hk & E & P' & S' & B'); [split; [simpl; apply list_lookup_insert_eq; by eapply lookup_lt_Some|done]|by left|].
    exists (S k), y'. split; [lia|]. split; [eapply run_step; [unfold worker_step; by rewrite Hw|done]|]. by replace (S k + n0)%nat with (k + S n0)%nat by lia. }
  intros P S Hw. destruct w as [| | | | |x|x|]; try done; simpl.
  - destruct S as (Hx & Hs & Hb). pose proof (begin_ok _ _ _ _ _ _ P Hx) as P1.
    destruct (Hrun _ _ x P1) as (k & y' & Hk & E & P' & S' & B'); [split; [simpl; apply list_lookup_insert_eq; by eapply lookup_lt_Some|done]|].
    exists (Datatypes.S k), y'. split; [lia|]. split; [eapply run_step; [unfold worker_step; by rewrite Hx|done]|]. by replace (Datatypes.S k + n)%nat with (k + Datatypes.S n)%nat by lia.
  - destruct (Hrun _ _ x P S) as (k & y' & Hk & H). exists k, y'. rewrite app_nil_r. split; [lia|done].
Qed.

Lemma drain_try i size l : ∀ n y, pool_ok size n y l → steady i y WTry →
  ∃ k y', (k ≤ 5 * length l)%nat ∧ run exec y (replicate k (Worker i)) = Some y' ∧ pool_ok size (k + n) y' [] ∧ steady i y' WTry ∧ begun y' = begun y ++ l.
Proof using Type.
  induction l as [|x l IH]; intros n y P S; [exists 0%nat, y; rewrite app_nil_r; split_and!; try done; apply S|]. destruct S as (Hw & Hs & Hb). pose proof (lookup_lt_Some _ _ _ Hw) as Hi.
  destruct (dequeue_ok _ _ _ _ _ P Hw) as (y1 & E1 & W1 & S1 & B1 & _ & K1 & P1).
  destruct (run_to_try i _ _ _ _ (WGot x) P1) as (k & y2 & Hk & E2 & P2 & S2 & B2); [split; [rewrite W1; by apply list_lookup_insert_eq|split; congruence]|done|].
  destruct (IH _ _ P2 S2) as (k' & y' & Hk' & E & P' & S' & B'). exists (Datatypes.S (k + k')), y'. split; [simpl; lia|].
  split; [eapply run_step; [done|]; by rewrite replicate_add, run_app, E2|]. replace (Datatypes.S (k + k') + n)%nat with (k' + (k + Datatypes.S n))%nat by lia. split; [done|]. split; [done|].
  rewrite B', B2, B1. simpl. by rewrite <- (assoc_L (++)).
Qed.

(** Awake: not in [EmptyWait], not gone. *)
Definition awake (w : worker) : bool := match w with WEnter | WSleep | WExit => false | _ => true end.

Lemma reach_try i size l n y w : pool_ok size n y l → steady i y w → awake w = true →
  ∃ k y', (k ≤ 4)%nat ∧ run exec y (replicate k (Worker i)) = Some y' ∧ pool_ok size (k + n) y' l ∧ steady i y' WTry ∧ begun y' = begun y ++ option_list (got w).
Proof using Type.
  intros P S Ha. destruct w; try done; try by eapply run_to_try.
  1, 2: (edestruct loop_to_try as (k & y' & Hk & H); [done|done|tauto|]; exists k, y'; simpl; rewrite app_nil_r; split; [lia|done]).
  exists 0%nat, y. simpl. rewrite app_nil_r. split; [lia|]. by split_and!.
Qed.

(** Property: one worker that is awake is enough: from any state of a pool that is
    not being destroyed, the steps of this worker alone, no more than five for
    each waiting task and four, begin the task that it has in hand, if any, and
    then every task that is in the queue, in order, and the worker is back at
    the queue, which is empty. *)
Theorem awake_worker_drains threads size n ls y i w : 0 ≤ size < 2 ^ 64 - 2 → Z.of_nat (length ls) < 2 ^ 64 - 4 → run exec (new_pool threads size n) ls = Some y →
  workers_ y !! i = Some w → awake w = true → stop_ y = false → break_all_wait_ (task_queue_ y) = false →
  ∃ k y' l, quiescent (task_queue_ y) l ∧ queued y = taken y ++ l ∧ (k ≤ 5 * length l + 4)%nat ∧ run exec y (replicate k (Worker i)) = Some y' ∧
    begun y' = begun y ++ option_list (got w) ++ l ∧ quiescent (task_queue_ y') [] ∧ workers_ y' !! i = Some WTry.
Proof using Type.
  intros Hs Hn E Hw Ha Hst Hb. destruct (pool_run_ok size ls 0 _ _ _ (new_pool_ok threads size n Hs) E) as [l P]; [rewrite Nat.add_0_r; lia|].
  destruct (reach_try i _ _ _ _ w P) as (k1 & y1 & Hk & E1 & P1 & S1 & B1); [done..|]. destruct (drain_try i _ _ _ _ P1 S1) as (k2 & y2 & Hk2 & E2 & P2 & S2 & B2).
  exists (k1 + k2)%nat, y2, l. split; [apply P|]. split; [apply P|]. split; [lia|]. rewrite replicate_add, run_app, E1. split; [done|].
  split; [by rewrite B2, B1, <- (assoc_L (++))|split; [apply P2|apply S2]].
Qed.
End ThreadPool.

(** ** Runs *)

Definition demo (size : Z) (ls : list (@label Z)) : option (@pool Z) := run (exec BlockWaitStrategy) (new_pool 0 1 size 1) ls.

(** A task is queued while the worker sleeps; it is woken and runs it. *)
Definition demo_calls : list (@label Z) := [Worker 0; Worker 0; Worker 0; Worker 0; Call 0 5; Queue 0; Notify 0 (Some 0%nat)].

Lemma pool_begins_each_task_once_witness :
  ∃ y, demo 2 (demo_calls ++ replicate 4 (Worker 0)) = Some y ∧ begun y = [5] ∧ ended y = [5] ∧ ∃ l, quiescent (task_queue_ y) l ∧ zlen l ≤ 2 ∧ queued y = taken y ++ l ∧ taken y = begun y ++ held got (workers_ y).
Proof.
  eexists. split; [vm_compute; reflexivity|]. split; [vm_compute; reflexivity|]. split; [vm_compute; reflexivity|].
  destruct (pool_begins_each_task_once 0 BlockWaitStrategy 1 2 1 (demo_calls ++ replicate 4 (Worker 0)) _ ltac:(lia) ltac:(vm_compute; reflexivity) ltac:(vm_compute; reflexivity))
    as (l & H1 & H2 & H3 & _ & _ & _ & _ & H4). exists l. split; [exact H1|]. split; [exact H2|]. split; [exact H3|]. apply H4. lia.
Defined.

Lemma awake_worker_drains_witness :
  ∃ y, demo 2 (demo_calls ++ [Call 0 6; Queue 0]) = Some y ∧ ∃ k y', run (exec BlockWaitStrategy) y (replicate k (Worker 0)) = Some y' ∧ begun y' = [5; 6].
Proof.
  eexists. split; [vm_compute; reflexivity|].
  destruct (awake_worker_drains 0 BlockWaitStrategy 1 2 1 (demo_calls ++ [Call 0 6; Queue 0]) _ 0 WBreak ltac:(lia) ltac:(vm_compute; reflexivity) ltac:(vm_compute; reflexivity)
    ltac:(vm_compute; reflexivity) ltac:(reflexivity) ltac:(vm_compute; reflexivity) ltac:(vm_compute; reflexivity)) as (k & y' & l & _ & Q & _ & E & B & _).
  exists k, y'. split; [exact E|]. simpl in Q. by rewrite B, <- Q.
Defined.

(** [EmptyWait] waits without a condition: a task that comes between the failed
    [Dequeue] and the wait wakes nobody, and the worker sleeps beside it. *)
Theorem wake_up_lost :
  ∃ y, demo 2 [Worker 0; Worker 0; Worker 0; Call 0 5; Queue 0; Notify 0 None; Worker 0] = Some y ∧
    workers_ y = [WSleep] ∧ clients y = [CIdle] ∧ queued y = [5] ∧ begun y = [].
Proof. eexists. split; [vm_compute; reflexivity|]. split_and!; vm_compute; reflexivity. Qed.

(** The same window for [BreakAllWait]: the destructor waits for ever. *)
Theorem destructor_hangs :
  ∃ y, demo 2 ([Worker 0; Worker 0; Worker 0] ++ replicate 3 Destroy ++ [Worker 0]) = Some y ∧
    workers_ y = [WSleep] ∧ dtor y = DJoin 0 ∧ exec BlockWaitStrategy y Destroy = None ∧ exec BlockWaitStrategy y (Worker 0) = None.
Proof. eexists. split; [vm_compute; reflexivity|]. split_and!; vm_compute; reflexivity. Qed.

(** A task that waits when the pool is destroyed is never run, although its
    future is valid. *)
Theorem waiting_tasks_are_dropped :
  ∃ y, demo 2 ([Call 0 5; Queue 0; Notify 0 None; Destroy; Worker 0] ++ replicate 4 Destroy) = Some y ∧ dtor y = DDone ∧ promised y = [5] ∧ begun y = [].
Proof. eexists. split; [vm_compute; reflexivity|]. split_and!; vm_compute; reflexivity. Qed.

(** When the queue is full the task is lost, and the future is valid all the
    same. *)
Theorem full_queue_drops_the_task :
  ∃ y, demo 1 [Call 0 5; Queue 0; Notify 0 None; Call 0 6; Queue 0] = Some y ∧ promised y = [5; 6] ∧ queued y = [5] ∧ clients y = [CIdle].
Proof. eexists. split; [vm_compute; reflexivity|]. split_and!; vm_compute; reflexivity. Qed.

(** Two workers: the one that took the first task is overtaken between
    [WaitDequeue] and [task()]. *)
Theorem tasks_begin_out_of_order :
  ∃ y, run (exec BlockWaitStrategy) (new_pool (0 : Z) 2 2 1)
    [Call 0 5; Queue 0; Notify 0 None; Call 0 6; Queue 0; Notify 0 None; Worker 0; Worker 0; Worker 0; Worker 1; Worker 1; Worker 1; Worker 1; Worker 0] = Some y ∧
    queued y = [5; 6] ∧ taken y = [5; 6] ∧ begun y = [6; 5].
Proof. eexists. split; [vm_compute; reflexivity|]. split_and!; vm_compute; reflexivity. Qed.
