(* ===== verification/Logging.v ===== *)
(** * Logging

    The loggers behind glog ([src/code/cyber/logger/]): [LogFileObject]
    ([log_file_object.cc]) writes the messages of one module into files of
    bounded size; [Logger] ([logger.cc]) gives each message to the object of its
    module, and [AsyncLogger] ([async_logger.cc]) does the same in a thread of
    its own that takes the messages out of a double buffer.  Messages are lists
    of bytes. *)

From stdpp Require Import base list gmap.
From S2P Require Import Prelude.

(** ** [FindModuleName] *)

Definition LEFT_BRACKET : Z := 91.
Definition RIGHT_BRACKET : Z := 93.

(** [string::find] of a character. *)
Fixpoint find_char (c : Z) (s : list Z) : option nat :=
  match s with [] => None | x :: s => if x =? c then Some 0%nat else S <$> find_char c s end.

Definition FindModuleName (ProcessGroup : list Z) (log_message module_name : list Z) : list Z * list Z :=
  let r :=
    match find_char LEFT_BRACKET log_message with
    | Some lpos =>
        match find_char RIGHT_BRACKET (drop lpos log_message) with
        | Some n => (take lpos log_message ++ drop (lpos + n + 1) log_message, take (n - 1) (drop (lpos + 1) log_message))
        | None => (log_message, module_name)
        end
    | None => (log_message, module_name)
    end in
  (r.1, if bool_decide (r.2 = []) then ProcessGroup else r.2).

(** ** [LogFileObject] *)

(** What a call of [Write] finds: the clock, whether a file can be made, whether
    the disk is full, whether this is another process, and the header of a new
    file. *)
Record environment := mkEnv { now : Z; can_create : bool; disk_full : bool; PidHasChanged : bool; file_header : list Z }.

(** [log_files] is what is in the files that were made, the open one last. *)
Record LogFileObject := mkLog {
  base_filename_selected_ : bool; base_filename_ : list Z; filename_extension_ : list Z; symlink_basename_ : list Z; file_ : bool;
  bytes_since_flush_ : Z; file_length_ : Z; rollover_attempt_ : Z; next_flush_time_ : Z; log_files : list (list (list Z)) }.

Definition kRolloverAttemptFrequency : Z := 32.
Definition UNKNOWN : list Z := [85; 78; 75; 78; 79; 87; 78].

Definition LogFileObject_new (base_filename : option (list Z)) : LogFileObject :=
  let name := default [] base_filename in
  mkLog (if base_filename then true else false) (if bool_decide (name = []) then UNKNOWN else name) [] UNKNOWN false 0 0 (kRolloverAttemptFrequency - 1) 0 [].

Definition with_file (open : bool) (attempt : Z) (f : LogFileObject) : LogFileObject :=
  mkLog (base_filename_selected_ f) (base_filename_ f) (filename_extension_ f) (symlink_basename_ f) open (bytes_since_flush_ f) (file_length_ f) attempt (next_flush_time_ f) (log_files f).
Definition with_lengths (since len : Z) (f : LogFileObject) : LogFileObject :=
  mkLog (base_filename_selected_ f) (base_filename_ f) (filename_extension_ f) (symlink_basename_ f) (file_ f) since len (rollover_attempt_ f) (next_flush_time_ f) (log_files f).
Definition with_flush_time (t : Z) (f : LogFileObject) : LogFileObject :=
  mkLog (base_filename_selected_ f) (base_filename_ f) (filename_extension_ f) (symlink_basename_ f) (file_ f) (bytes_since_flush_ f) (file_length_ f) (rollover_attempt_ f) t (log_files f).
Definition with_files (l : list (list (list Z))) (f : LogFileObject) : LogFileObject :=
  mkLog (base_filename_selected_ f) (base_filename_ f) (filename_extension_ f) (symlink_basename_ f) (file_ f) (bytes_since_flush_ f) (file_length_ f) (rollover_attempt_ f) (next_flush_time_ f) l.

(** [fwrite] to the open file. *)
Definition put (x : list Z) (l : list (list (list Z))) : list (list (list Z)) :=
  match last l with Some file => removelast l ++ [file ++ [x]] | None => l end.

Definition SetBasename (basename : list Z) (f : LogFileObject) : LogFileObject :=
  let same := bool_decide (base_filename_ f = basename) in
  mkLog true basename (filename_extension_ f) (symlink_basename_ f) (if same then file_ f else false) (bytes_since_flush_ f) (file_length_ f)
    (if negb same && file_ f then kRolloverAttemptFrequency - 1 else rollover_attempt_ f) (next_flush_time_ f) (log_files f).

Definition SetExtension (ext : list Z) (f : LogFileObject) : LogFileObject :=
  let same := bool_decide (filename_extension_ f = ext) in
  mkLog (base_filename_selected_ f) (base_filename_ f) ext (symlink_basename_ f) (if same then file_ f else false) (bytes_since_flush_ f) (file_length_ f)
    (if negb same && file_ f then kRolloverAttemptFrequency - 1 else rollover_attempt_ f) (next_flush_time_ f) (log_files f).

Definition SetSymlinkBasename (name : list Z) (f : LogFileObject) : LogFileObject :=
  mkLog (base_filename_selected_ f) (base_filename_ f) (filename_extension_ f) name (file_ f) (bytes_since_flush_ f) (file_length_ f) (rollover_attempt_ f) (next_flush_time_ f) (log_files f).

Section LogFile.
(** The flags of glog. *)
Context (FLAGS_max_log_size FLAGS_logbufsecs : Z) (FLAGS_stop_logging_if_full_disk : bool).

Definition MaxLogSize : Z := if 0 <? FLAGS_max_log_size then FLAGS_max_log_size else 1.

Definition FlushUnlocked (e : environment) (f : LogFileObject) : LogFileObject :=
  with_flush_time (now e + FLAGS_logbufsecs * 1000000) (if file_ f then with_lengths 0 (file_length_ f) f else f).

(** Too long, or of another process: the file is closed. *)
Definition roll_over (e : environment) (f : LogFileObject) : LogFileObject :=
  if (MaxLogSize <=? Z.shiftr (file_length_ f) 20) || PidHasChanged e then with_lengths 0 0 (with_file false (kRolloverAttemptFrequency - 1) f) else f.

(** A file is there; false: the message is dropped. *)
Definition ensure_file (e : environment) (f : LogFileObject) : LogFileObject * bool :=
  if file_ f then (f, true)
  else
    let attempt := u32 (rollover_attempt_ f + 1) in
    if negb (attempt =? kRolloverAttemptFrequency) then (with_file false attempt f, false)
    else if base_filename_selected_ f && negb (can_create e) then (with_file false 0 f, false)
    else if negb (base_filename_selected_ f) then (with_file false 0 f, false)
    else
      let f := with_files (log_files f ++ [[file_header e]]) (with_file true 0 f) in
      (with_lengths (u32 (bytes_since_flush_ f + zlen (file_header e))) (u32 (file_length_ f + zlen (file_header e))) f, true).

(** [Write]; [stop_writing] is a variable of the whole program. *)
Definition LogFileObject_Write (e : environment) (force_flush : bool) (message : list Z) (x : LogFileObject * bool) : LogFileObject * bool :=
  let '(f, stop_writing) := x in
  if base_filename_selected_ f && bool_decide (base_filename_ f = []) then (f, stop_writing)
  else
    match ensure_file e (roll_over e f) with
    | (f, false) => (f, stop_writing)
    | (f, true) =>
        if stop_writing then (f, if next_flush_time_ f <=? now e then false else stop_writing)
        else
          let f := if disk_full e then f else with_files (put message (log_files f)) f in
          if FLAGS_stop_logging_if_full_disk && disk_full e then (f, true)
          else
            let f := with_lengths (u32 (bytes_since_flush_ f + zlen message)) (u32 (file_length_ f + zlen message)) f in
            (if force_flush || (1000000 <=? bytes_since_flush_ f) || (next_flush_time_ f <=? now e) then FlushUnlocked e f else f, false)
    end.

(** *** Nothing is lost, and files are bounded *)

Definition size_of (file : list (list Z)) : Z := zlen (concat file).

(** The messages of the files, without the headers. *)
Definition messages_in (l : list (list (list Z))) : list (list Z) := l ≫= tail.

(** The longest message or header. *)
Context (longest : Z) (long : 0 ≤ longest).
Context (room : 0 < FLAGS_max_log_size ∧ FLAGS_max_log_size * 2 ^ 20 + 2 * longest < 2 ^ 32).

Definition max_bytes : Z := FLAGS_max_log_size * 2 ^ 20.

(** Files can be made, the disk has room, and the process is the same. *)
Definition fine (e : environment) : Prop := can_create e = true ∧ disk_full e = false ∧ PidHasChanged e = false ∧ zlen (file_header e) ≤ longest.

Record log_ok (f : LogFileObject) : Prop := {
  lo_selected : base_filename_selected_ f = true ∧ base_filename_ f ≠ [];
  lo_closed : file_ f = false → rollover_attempt_ f = kRolloverAttemptFrequency - 1 ∧ file_length_ f = 0 ∧ Forall (λ x, max_bytes ≤ size_of x) (log_files f);
  lo_open : file_ f = true → ∃ l x, log_files f = l ++ [x] ∧ x ≠ [] ∧ file_length_ f = size_of x ∧ Forall (λ x, max_bytes ≤ size_of x) l;
  lo_small : Forall (λ x, size_of x < max_bytes + 2 * longest) (log_files f);
}.

Lemma log_new name : name ≠ [] → log_ok (LogFileObject_new (Some name)).
Proof using Type. intros H. split; try done. simpl. split; [done|]. by rewrite bool_decide_false. Qed.

Lemma size_snoc x m : size_of (x ++ [m]) = size_of x + zlen m.
Proof using Type. unfold size_of, zlen. rewrite concat_app, length_app. simpl. rewrite app_nil_r. lia. Qed.

Lemma size_nonneg x : 0 ≤ size_of x.
Proof using Type. unfold size_of, zlen. lia. Qed.

(** After rolling over there is room in the open file, or there is none. *)
Lemma roll_over_ok e f : log_ok f → fine e → log_ok (roll_over e f) ∧ log_files (roll_over e f) = log_files f ∧ (file_ (roll_over e f) = true → file_length_ (roll_over e f) < max_bytes).
Proof using long room.
  intros L (_ & _ & He & _). pose proof L as [H1 H2 H3 H4]. unfold roll_over, MaxLogSize. rewrite He, orb_false_r, (proj2 (Z.ltb_lt 0 _)) by lia.
  destruct (Z.leb_spec FLAGS_max_log_size (Z.shiftr (file_length_ f) 20)) as [Hl|Hl]; rewrite Z.shiftr_div_pow2 in Hl by lia.
  - split; [|done]. assert (Hlen : max_bytes ≤ file_length_ f) by (unfold max_bytes; pose proof (Z.mul_div_le (file_length_ f) (2 ^ 20)); lia).
    split; try done. intros _. split; [done|]. split; [done|]. simpl. destruct (file_ f) eqn:Ef; [|by apply H2].
    destruct (H3 eq_refl) as (l & x & -> & _ & El & Hf). apply Forall_app. split; [done|]. constructor; [lia|done].
  - split; [done|]. split; [done|]. intros _. unfold max_bytes. pose proof (Z.mul_succ_div_gt (file_length_ f) (2 ^ 20)). lia.
Qed.

Lemma messages_snoc l x m : x ≠ [] → messages_in (l ++ [x ++ [m]]) = messages_in (l ++ [x]) ++ [m].
Proof using Type. intros H. unfold messages_in. rewrite !bind_app. simpl. rewrite !app_nil_r, <- (assoc_L (++)). f_equal. by destruct x. Qed.

Lemma ensure_file_ok e f : log_ok f → fine e → (file_ f = true → file_length_ f < max_bytes) →
  ∃ f', ensure_file e f = (f', true) ∧ log_ok f' ∧ file_ f' = true ∧ messages_in (log_files f') = messages_in (log_files f) ∧ file_length_ f' < max_bytes + longest.
Proof using long room.
  intros L (Hc & _ & _ & Hh) Hl. pose proof L as [H1 H2 H3 H4]. unfold ensure_file. destruct (file_ f) eqn:Ef; [exists f; split_and!; try done; specialize (Hl eq_refl); lia|].
  destruct (H2 eq_refl) as (Hr & Hz & Hfull). rewrite Hr. change (u32 (kRolloverAttemptFrequency - 1 + 1) =? kRolloverAttemptFrequency) with true. rewrite (proj1 H1), Hc. cbn [negb andb].
  eexists. split; [reflexivity|]. assert (Hw : u32 (file_length_ f + zlen (file_header e)) = size_of [file_header e]).
  { rewrite Hz. unfold size_of. simpl. rewrite app_nil_r. apply wrap_small. unfold in_u, zlen in *. lia. }
  assert (Hs : size_of [file_header e] ≤ longest) by (unfold size_of; simpl; by rewrite app_nil_r).
  split; [|split; [done|split]].
  - split; simpl; try done.
    + intros _. exists (log_files f), [file_header e]. by rewrite Hw.
    + apply Forall_app. split; [done|]. constructor; [unfold max_bytes; lia|done].
  - simpl. unfold messages_in. rewrite bind_app. simpl. by rewrite app_nil_r.
  - simpl. rewrite Hw. unfold max_bytes. lia.
Qed.

Lemma flush_ok e f : log_ok f → log_ok (FlushUnlocked e f) ∧ log_files (FlushUnlocked e f) = log_files f.
Proof using Type. intros [H1 H2 H3 H4]. unfold FlushUnlocked. destruct (file_ f) eqn:E; (split; [|done]); split; try done; simpl; by rewrite ?E. Qed.

Lemma write_ok e force m f : log_ok f → fine e → zlen m ≤ longest →
  ∃ f', LogFileObject_Write e force m (f, false) = (f', false) ∧ log_ok f' ∧ messages_in (log_files f') = messages_in (log_files f) ++ [m].
Proof using long room.
  intros L He Hm. pose proof (lo_selected f L) as [Hs1 Hs2]. unfold LogFileObject_Write. rewrite Hs1, (bool_decide_false _ Hs2). cbn [andb].
  destruct (roll_over_ok e f L He) as (L1 & E1 & Hr). destruct (ensure_file_ok e _ L1 He Hr) as (f2 & -> & L2 & Ho & E2 & Hl2). rewrite E1 in E2.
  pose proof He as (_ & Hd & _ & _). rewrite Hd, andb_false_r. cbn [andb].
  destruct (lo_open f2 L2 Ho) as (l & x & El & Hx & Ez & Hfull). set (f3 := with_lengths _ _ _).
  assert (Hput : put m (log_files f2) = l ++ [x ++ [m]]) by (unfold put; rewrite El, last_snoc, removelast_last; done).
  assert (L3 : log_ok f3 ∧ messages_in (log_files f3) = messages_in (log_files f) ++ [m]).
  { unfold f3. split; [|simpl; by rewrite Hput, messages_snoc, <- El, E2]. pose proof L2 as [G1 G2 G3 G4]. split; simpl; try done.
    - by rewrite Ho.
    - intros _. exists l, (x ++ [m]). split; [done|]. split; [by destruct x|]. split; [|done]. rewrite Ez, <- size_snoc. apply wrap_small. rewrite size_snoc. pose proof (size_nonneg x). unfold in_u, zlen, max_bytes in *. lia.
    - rewrite Hput. rewrite El in G4. apply Forall_app in G4 as [G4 _]. apply Forall_app. split; [done|]. constructor; [|done]. rewrite size_snoc. lia. }
  destruct (force || _ || _); eexists; (split; [reflexivity|]); [|done]. destruct L3 as [L3 E3]. destruct (flush_ok e f3 L3) as [L4 E4]. split; [done|]. by rewrite E4.
Qed.

Record entry := mkEntry { en_env : environment; en_force : bool; en_message : list Z }.

(** Property: as long as files can be made and the disk has room, a log loses
    nothing and its files are bounded: the messages of the files, one after the
    other, are the messages that were written, in order; no file is longer than
    the limit and two messages; and a new file is begun only when the one
    before has reached the limit. *)
Theorem log_files_keep_everything name es : name ≠ [] → Forall (λ x, fine (en_env x) ∧ zlen (en_message x) ≤ longest) es →
  ∃ f, foldl (λ x n, LogFileObject_Write (en_env n) (en_force n) (en_message n) x) (LogFileObject_new (Some name), false) es = (f, false) ∧
    messages_in (log_files f) = en_message <$> es ∧ Forall (λ x, size_of x < max_bytes + 2 * longest) (log_files f) ∧
    Forall (λ x, max_bytes ≤ size_of x) (removelast (log_files f)).
Proof using long room.
  intros Hn Hes. assert (H : ∀ es f, log_ok f → Forall (λ x, fine (en_env x) ∧ zlen (en_message x) ≤ longest) es →
    ∃ f', foldl (λ x n, LogFileObject_Write (en_env n) (en_force n) (en_message n) x) (f, false) es = (f', false) ∧ log_ok f' ∧ messages_in (log_files f') = messages_in (log_files f) ++ (en_message <$> es)).
  { clear es Hes. induction es as [|n es IH]; intros f L Hes; [exists f; by rewrite app_nil_r|]. apply Forall_cons in Hes as [[He Hm] Hes].
    destruct (write_ok _ (en_force n) _ f L He Hm) as (f1 & E1 & L1 & M1). destruct (IH f1 L1 Hes) as (f' & E & L' & M). exists f'. cbn [foldl]. rewrite E1. split; [done|]. split; [done|]. by rewrite M, M1, <- (assoc_L (++)). }
  destruct (H es _ (log_new name Hn) Hes) as (f & E & L & M). exists f. split; [done|]. split; [done|]. split; [apply L|].
  destruct (file_ f) eqn:Ef.
  - destruct (lo_open f L Ef) as (l & x & -> & _ & _ & Hl). by rewrite removelast_last.
  - destruct (lo_closed f L Ef) as (_ & _ & Hl). destruct (log_files f) as [|y l _] using rev_ind; [done|]. rewrite removelast_last. by apply Forall_app in Hl as [Hl _].
Qed.
End LogFile.

(** [SetBasename] and [SetExtension] close the file without resetting its
    length: the file under the new name starts with the length of the old one
    and is rolled over too early. *)
Theorem renamed_log_keeps_length e f name : file_ f = true → base_filename_ f ≠ name → can_create e = true →
  ∃ f', ensure_file e (SetBasename name f) = (f', true) ∧ log_files f' = log_files f ++ [[file_header e]] ∧ file_length_ f' = u32 (file_length_ f + zlen (file_header e)).
Proof.
  intros Hf Hn Hc. unfold ensure_file, SetBasename. rewrite (bool_decide_false _ Hn). simpl. rewrite Hf, Hc. simpl. by eexists.
Qed.

(** ** [Logger] *)

(** The calls that the object of a module gets: [Write] with its flag, time and
    text, and [Flush]. *)
Inductive call := Write (force_flush : bool) (ts : Z) (text : list Z) | Flush.

(** The calls that the objects of the modules have got. *)
Definition loggers : Type := gmap (list Z) (list call).

Definition give (module_name : list Z) (x : call) (m : loggers) : loggers := <[module_name := default [] (m !! module_name) ++ [x]]> m.

(** [AsyncLogger::Flush]: every object is flushed. *)
Definition Flush_all (m : loggers) : loggers := (λ l, l ++ [Flush]) <$> m.

Record Msg := mkMsg { ts : Z; message : list Z; level : Z }.

Section Loggers.
Context (ProcessGroup : list Z).

(** [Write] gives the flag of the caller on. *)
Definition Logger_Write (force_flush : bool) (m : Msg) (l : loggers) : loggers :=
  let '(log_message, module_name) := FindModuleName ProcessGroup (message m) [] in give module_name (Write force_flush (ts m) log_message) l.

(** ** [AsyncLogger] *)

(** One turn of the loop of [FlushBuffer]; [module_name] is a variable outside
    of the loop, and the flag is that of the level. *)
Definition flush_one (module_name : list Z) (m : Msg) (l : loggers) : list Z * loggers :=
  let '(log_message, module_name) := FindModuleName ProcessGroup (message m) module_name in (module_name, give module_name (Write (0 <? level m) (ts m) log_message) l).

Inductive State := INITTED | RUNNING | STOPPED.

(** [log_level_map.at]; None: it throws. *)
Definition log_level (c : Z) : option Z :=
  if c =? 70 then Some 3 else if c =? 69 then Some 2 else if c =? 87 then Some 1 else if c =? 73 then Some 0 else None.

(** A thread that calls [Write], the logger thread, and the one that calls
    [Start] and [Stop].  An empty message of time 0 that is to be flushed calls
    [Stop]. *)
Inductive writer := WIdle | WLock (force : bool) (ts : Z) (message : list Z) | WAppend (force : bool) (ts : Z) (message : list Z) | WCallStop | WInStop | WThrown.
Inductive log_thread := LNone | LTop | LLock | LSwap | LFlush (module_name : list Z) | LExit.
Inductive stopper := SIdle | SJoin | SFlush (module_name : list Z) | SCheck | SDone.

(** [accepted] and [delivered] are not part of the program: the messages that
    came into a buffer, with the flag of the caller, and those that went out of
    one, in order.  [LNone] is a thread that is not joinable. *)
Record async := mkAsync {
  state_ : State; flag_ : bool; active_buf_ : list Msg; flushing_buf_ : list Msg; module_logger_map_ : loggers;
  writers : list writer; log_thread_ : log_thread; stopper_ : stopper; accepted : list (bool * Msg); delivered : list Msg }.

Definition AsyncLogger_new (n : nat) : async := mkAsync INITTED false [] [] ∅ (replicate n WIdle) LNone SIdle [] [].

Definition set_writer (t : nat) (w : writer) (y : async) : async :=
  mkAsync (state_ y) (flag_ y) (active_buf_ y) (flushing_buf_ y) (module_logger_map_ y) (<[t := w]> (writers y)) (log_thread_ y) (stopper_ y) (accepted y) (delivered y).
Definition set_flag (b : bool) (y : async) : async :=
  mkAsync (state_ y) b (active_buf_ y) (flushing_buf_ y) (module_logger_map_ y) (writers y) (log_thread_ y) (stopper_ y) (accepted y) (delivered y).
Definition set_thread (l : log_thread) (y : async) : async :=
  mkAsync (state_ y) (flag_ y) (active_buf_ y) (flushing_buf_ y) (module_logger_map_ y) (writers y) l (stopper_ y) (accepted y) (delivered y).
Definition set_stopper (s : State) (p : stopper) (y : async) : async :=
  mkAsync s (flag_ y) (active_buf_ y) (flushing_buf_ y) (module_logger_map_ y) (writers y) (log_thread_ y) p (accepted y) (delivered y).
Definition set_buffers (a f : list Msg) (m : loggers) (d : list Msg) (y : async) : async :=
  mkAsync (state_ y) (flag_ y) a f m (writers y) (log_thread_ y) (stopper_ y) (accepted y) d.
Definition append (force : bool) (m : Msg) (y : async) : async :=
  mkAsync (state_ y) (flag_ y) (active_buf_ y ++ [m]) (flushing_buf_ y) (module_logger_map_ y) (writers y) (log_thread_ y) (stopper_ y) (accepted y ++ [(force, m)]) (delivered y).

Inductive label :=
  | Start
  | CallWrite (t : nat) (force_flush : bool) (ts : Z) (message : list Z)  (** the test of [state_] *)
  | Writer (t : nat)
  | LogThread
  | Stop.                                            (** the next step of [Stop] *)

Definition is_running (s : State) : bool := match s with RUNNING => true | _ => false end.

(** The logger thread. *)
Definition RunThread (y : async) : option async :=
  match log_thread_ y with
  | LTop => Some (set_thread (if is_running (state_ y) then LLock else LExit) y)
  | LLock => if flag_ y then None else Some (set_thread LSwap (set_flag true y))
  | LSwap => Some (set_thread (LFlush []) (set_flag false (set_buffers (flushing_buf_ y) (active_buf_ y) (module_logger_map_ y) (delivered y) y)))
  | LFlush name =>
      match flushing_buf_ y with
      | [] => Some (set_thread LTop (set_buffers (active_buf_ y) [] (Flush_all (module_logger_map_ y)) (delivered y) y))
      | m :: ms => let '(name, l) := flush_one name m (module_logger_map_ y) in Some (set_thread (LFlush name) (set_buffers (active_buf_ y) ms l (delivered y ++ [m]) y))
      end
  | LNone | LExit => None
  end.

Definition joinable (l : log_thread) : bool := match l with LNone => false | _ => true end.

(** [Stop] begins; it may be called again, as the destructor does. *)
Definition begin_Stop (y : async) : option async :=
  match stopper_ y with
  | SIdle | SDone => Some (set_stopper STOPPED (if joinable (log_thread_ y) then SJoin else SFlush []) y)
  | _ => None
  end.

Definition exec (y : async) (lb : label) : option async :=
  match lb with
  | Start => match state_ y with INITTED => Some (set_thread LTop (set_stopper RUNNING (stopper_ y) y)) | _ => None end
  | CallWrite t force ts message =>
      match writers y !! t with
      | Some WIdle =>
          Some (if negb (is_running (state_ y)) then y
                else if negb (bool_decide (message = [])) then set_writer t (WLock force ts message) y
                else if force && (ts =? 0) then set_writer t WCallStop y else y)
      | _ => None
      end
  | Writer t =>
      match writers y !! t with
      | Some (WLock force ts message) => if flag_ y then None else Some (set_writer t (WAppend force ts message) (set_flag true y))
      | Some (WAppend force ts message) =>
          match message with
          | c :: _ => match log_level c with
                      | Some level => Some (set_writer t WIdle (set_flag false (append force (mkMsg ts message level) y)))
                      | None => Some (set_writer t WThrown y)
                      end
          | [] => None
          end
      | Some WCallStop => set_writer t WInStop <$> begin_Stop y
      | Some WInStop => match stopper_ y with SDone => Some (set_writer t WIdle y) | _ => None end
      | _ => None
      end
  | LogThread => RunThread y
  | Stop =>
      match stopper_ y with
      | SIdle | SDone => begin_Stop y
      | SJoin => match log_thread_ y with LExit => Some (set_thread LNone (set_stopper (state_ y) (SFlush []) y)) | _ => None end
      | SFlush name =>
          match active_buf_ y with
          | [] => Some (set_stopper (state_ y) SCheck (set_buffers [] (flushing_buf_ y) (Flush_all (module_logger_map_ y)) (delivered y) y))
          | m :: ms => let '(name, l) := flush_one name m (module_logger_map_ y) in Some (set_stopper (state_ y) (SFlush name) (set_buffers ms (flushing_buf_ y) l (delivered y ++ [m]) y))
          end
      | SCheck => if bool_decide (active_buf_ y = []) && bool_decide (flushing_buf_ y = []) then Some (set_stopper (state_ y) SDone y) else None
      end
  end.

(** ** Both loggers log the same *)

Lemma find_char_app c pre s : c ∉ pre → find_char c (pre ++ c :: s) = Some (length pre).
Proof using Type.
  induction pre as [|x pre IH]; intros H; simpl; [by rewrite Z.eqb_refl|]. apply not_elem_of_cons in H as [Hx H].
  rewrite (proj2 (Z.eqb_neq _ _)) by done. by rewrite IH.
Qed.

(** What the macros of [log.h] make: the module in brackets in front of the text. *)
Definition bracketed (s : list Z) : Prop :=
  ∃ pre name rest, s = pre ++ LEFT_BRACKET :: name ++ RIGHT_BRACKET :: rest ∧ LEFT_BRACKET ∉ pre ∧ RIGHT_BRACKET ∉ name ∧ name ≠ [].

(** Putting the module into a message and finding it. *)
Lemma FindModuleName_bracketed pre name rest old : LEFT_BRACKET ∉ pre → RIGHT_BRACKET ∉ name → name ≠ [] →
  FindModuleName ProcessGroup (pre ++ LEFT_BRACKET :: name ++ RIGHT_BRACKET :: rest) old = (pre ++ rest, name).
Proof using Type.
  intros Hp Hn Hne. unfold FindModuleName. rewrite find_char_app by done. rewrite drop_app_length.
  assert (E : find_char RIGHT_BRACKET (LEFT_BRACKET :: name ++ RIGHT_BRACKET :: rest) = Some (S (length name))).
  { change (LEFT_BRACKET :: name ++ RIGHT_BRACKET :: rest) with ((LEFT_BRACKET :: name) ++ RIGHT_BRACKET :: rest). rewrite find_char_app; [done|]. by apply not_elem_of_cons. }
  rewrite E. simpl. rewrite take_app_length.
  assert (E1 : drop (length pre + S (length name) + 1) (pre ++ LEFT_BRACKET :: name ++ RIGHT_BRACKET :: rest) = rest).
  { replace (pre ++ LEFT_BRACKET :: name ++ RIGHT_BRACKET :: rest) with ((pre ++ LEFT_BRACKET :: name ++ [RIGHT_BRACKET]) ++ rest) by (by rewrite <- !(assoc_L (++)); simpl; rewrite <- (assoc_L (++))).
    apply drop_app_length'. rewrite !length_app. simpl. rewrite length_app. simpl. lia. }
  assert (E2 : take (length name - 0) (drop (length pre + 1) (pre ++ LEFT_BRACKET :: name ++ RIGHT_BRACKET :: rest)) = name).
  { rewrite Nat.sub_0_r, <- drop_drop, drop_app_length. simpl. by rewrite drop_0, take_app_length. }
  rewrite E1, E2. by rewrite bool_decide_false.
Qed.

Lemma flush_one_bracketed name m l : bracketed (message m) → (flush_one name m l).2 = Logger_Write (0 <? level m) m l.
Proof using Type.
  intros (pre & n & rest & E & H1 & H2 & H3). unfold flush_one, Logger_Write. rewrite E. by rewrite !FindModuleName_bracketed.
Qed.

(** What comes out of the calls: the messages, with the flag and without. *)
Definition write_of (c : call) : option (bool * Z * list Z) := match c with Write f t x => Some (f, t, x) | Flush => None end.
Definition text_of (c : call) : option (Z * list Z) := match c with Write _ t x => Some (t, x) | Flush => None end.
Definition select {A} (f : call → option A) (l : loggers) : gmap (list Z) (list A) := (λ x : list call, omap f x) <$> l.
Definition writes (l : loggers) : gmap (list Z) (list (bool * Z * list Z)) := select write_of l.
Definition texts (l : loggers) : gmap (list Z) (list (Z * list Z)) := select text_of l.

(** The synchronous logger, called with these flags and messages. *)
Definition sync (ms : list (bool * Msg)) : loggers := foldl (λ l m, Logger_Write m.1 m.2 l) ∅ ms.

(** The flag that the asynchronous logger gives on. *)
Definition by_level (m : Msg) : bool * Msg := (0 <? level m, m).

Lemma sync_snoc ms m : sync (ms ++ [m]) = Logger_Write m.1 m.2 (sync ms).
Proof using Type. unfold sync. by rewrite foldl_app. Qed.

Lemma select_give {A} (f : call → option A) name c (l : loggers) :
  select f (give name c l) = <[name := default [] (select f l !! name) ++ option_list (f c)]> (select f l).
Proof using Type.
  unfold select, give, loggers in *. rewrite fmap_insert, lookup_fmap. f_equal. destruct (l !! name) as [x|]; simpl; rewrite ?omap_app; simpl; by destruct (f c).
Qed.

Lemma select_Logger_Write {A} (f : call → option A) b1 b2 m (l1 l2 : loggers) : (∀ t x, f (Write b1 t x) = f (Write b2 t x)) →
  select f l1 = select f l2 → select f (Logger_Write b1 m l1) = select f (Logger_Write b2 m l2).
Proof using Type. intros Hf E. unfold Logger_Write. destruct (FindModuleName _ _ _) as [x name]. by rewrite !select_give, E, Hf. Qed.

(** The flags change no text. *)
Lemma sync_flags (ms1 ms2 : list (bool * Msg)) : ms1.*2 = ms2.*2 → texts (sync ms1) = texts (sync ms2).
Proof using Type.
  revert ms2. induction ms1 as [|m1 ms1 IH] using rev_ind; intros ms2 E.
  - by destruct ms2.
  - rewrite fmap_app in E. destruct ms2 as [|m2 ms2 _] using rev_ind; [by destruct (ms1.*2)|]. rewrite fmap_app in E. apply app_inj_tail in E as [E1 E2].
    rewrite !sync_snoc, E2. apply select_Logger_Write; [done|]. by apply IH.
Qed.

Lemma select_Flush_all {A} (f : call → option A) (l : loggers) : f Flush = None → select f (Flush_all l) = select f l.
Proof using Type. intros Hf. unfold select, Flush_all, loggers in *. rewrite <- map_fmap_compose. apply map_fmap_ext. intros i x _. simpl. rewrite omap_app. simpl. by rewrite Hf, app_nil_r. Qed.

Lemma texts_of_writes l1 l2 : writes l1 = writes l2 → texts l1 = texts l2.
Proof using Type.
  intros E. assert (H : ∀ l, texts l = (λ y : list (bool * Z * list Z), (λ x, (x.1.2, x.2)) <$> y) <$> writes l).
  { intros l. unfold texts, writes, select, loggers in *. rewrite <- map_fmap_compose. apply map_fmap_ext. intros i x _. simpl. induction x as [|[b t c|] x IH]; simpl; [done| |done]. by f_equal. }
  by rewrite !H, E.
Qed.

Record async_ok (y : async) : Prop := {
  ao_order : (accepted y).*2 = delivered y ++ flushing_buf_ y ++ active_buf_ y;
  ao_flushing : match log_thread_ y with LFlush _ => True | _ => flushing_buf_ y = [] end;
  ao_stopped : stopper_ y ≠ SIdle → state_ y = STOPPED;
  ao_joined : match stopper_ y with SIdle | SJoin => True | _ => log_thread_ y = LNone end;
  ao_init : state_ y = INITTED → log_thread_ y = LNone;
  ao_same : Forall (λ m, bracketed (message m)) (delivered y) → writes (module_logger_map_ y) = writes (sync (by_level <$> delivered y));
}.

Lemma async_new_ok n : async_ok (AsyncLogger_new n).
Proof using Type. by split. Qed.

(** A message goes from the front of a buffer to its module. *)
Lemma delivered_same name m y n' l : async_ok y → flush_one name m (module_logger_map_ y) = (n', l) →
  Forall (λ m, bracketed (message m)) (delivered y ++ [m]) → writes l = writes (sync (by_level <$> (delivered y ++ [m]))).
Proof using Type.
  intros A E [H1 H2]%Forall_app. rewrite fmap_app. cbn [fmap list_fmap]. rewrite sync_snoc. assert (El : l = Logger_Write (0 <? level m) m (module_logger_map_ y)).
  { rewrite <- (flush_one_bracketed name); [by rewrite E|]. by inversion H2. }
  rewrite El. apply select_Logger_Write; [done|]. by apply (ao_same y A).
Qed.

Lemma begin_Stop_ok y y' : async_ok y → begin_Stop y = Some y' → async_ok y'.
Proof using Type.
  intros [H1 H2 H3 H4 H6 H5] E. unfold begin_Stop in E. destruct (stopper_ y) eqn:Ep; try done; injection E as <-; (split; [done|done|done| |done|done]); simpl.
  - by destruct (log_thread_ y).
  - by rewrite H4.
Qed.

Lemma set_writer_ok t w y : async_ok y → async_ok (set_writer t w y).
Proof using Type. intros []. by split. Qed.

Lemma stop_step_ok y y' : async_ok y → exec y Stop = Some y' → async_ok y'.
Proof using Type.
  intros A E. pose proof A as [H1 H2 H3 H4 H6 H5]. simpl in E. destruct (stopper_ y) as [| |name| |] eqn:Ep; try by eapply begin_Stop_ok.
  all: assert (Hst : state_ y = STOPPED) by by apply H3.
  - destruct (log_thread_ y) eqn:El; try done. injection E as <-. by split.
  - rewrite H4 in H2. destruct (active_buf_ y) as [|m ms] eqn:Ea.
    + injection E as <-. split; simpl; rewrite ?Hst, ?H4; try done. intros Hb. unfold writes. rewrite select_Flush_all by done. by apply H5.
    + destruct (flush_one name m (module_logger_map_ y)) as [n' l] eqn:Eo. injection E as <-. split; simpl; rewrite ?Hst, ?H4; try done.
      * by rewrite H1, H2, <- (assoc_L (++)).
      * by eapply delivered_same.
  - destruct (_ && _); [|done]. injection E as <-. split; simpl; rewrite ?Hst; done.
Qed.

Lemma RunThread_ok y y' : async_ok y → RunThread y = Some y' → async_ok y'.
Proof using Type.
  intros A E. pose proof A as [H1 H2 H3 H4 H6 H5]. unfold RunThread in E. destruct (log_thread_ y) as [| | | |name|] eqn:El; try done; assert (Hi : state_ y ≠ INITTED) by (intros Hi; by specialize (H6 Hi)).
  all: assert (Hp : stopper_ y = SIdle ∨ stopper_ y = SJoin) by (destruct (stopper_ y); try done; tauto).
  - injection E as <-. split; try done; simpl; [by destruct (is_running _)|]. by destruct Hp as [-> | ->].
  - destruct (flag_ y); [done|]. injection E as <-. split; try done. simpl. by destruct Hp as [-> | ->].
  - injection E as <-. split; try done; simpl. { by rewrite H1, H2, app_nil_r. } by destruct Hp as [-> | ->].
  - destruct (flushing_buf_ y) as [|m ms] eqn:Ef.
    + injection E as <-. split; simpl; rewrite ?Ef; try done; [by destruct Hp as [-> | ->]|]. intros Hb. unfold writes. rewrite select_Flush_all by done. by apply H5.
    + destruct (flush_one name m (module_logger_map_ y)) as [n' l] eqn:Eo. injection E as <-. split; try done; simpl.
      * by rewrite H1, <- (assoc_L (++)).
      * by destruct Hp as [-> | ->].
      * by eapply delivered_same.
Qed.

Lemma async_exec_ok y lb y' : async_ok y → exec y lb = Some y' → async_ok y'.
Proof using Type.
  intros A E. destruct lb as [|t force ts0 s|t| |]; [| | |by eapply RunThread_ok|by eapply stop_step_ok]; simpl in E.
  - pose proof A as [H1 H2 H3 H4 H6 H5]. destruct (state_ y) eqn:Es; try done. injection E as <-. split; try done; simpl.
    + rewrite (H6 eq_refl) in H2. exact H2.
    + intros Hp. by specialize (H3 Hp).
    + destruct (stopper_ y); try done; by specialize (H3 ltac:(done)).
  - destruct (writers y !! t) as [[]|]; try done. injection E as <-. repeat case_match; try done; by apply set_writer_ok.
  - destruct (writers y !! t) as [[|force ts0 s|force ts0 s| | |]|]; try done.
    + destruct (flag_ y); [done|]. injection E as <-. destruct A. by split.
    + destruct s as [|c s]; [done|]. destruct (log_level c) as [lv|]; injection E as <-; [|by apply set_writer_ok]. pose proof A as [H1 H2 H3 H4 H6 H5]. split; try done. simpl. by rewrite fmap_app, H1, <- !(assoc_L (++)).
    + destruct (begin_Stop y) as [y1|] eqn:E1; [|done]. injection E as <-. apply set_writer_ok. by eapply begin_Stop_ok.
    + destruct (stopper_ y); try done. injection E as <-. by apply set_writer_ok.
Qed.

(** C15: the asynchronous logger logs what the synchronous one would, as far as
    each message names its module ([bracketed]; see
    [unbracketed_message_goes_astray]): in every interleaving of the writing
    threads, the logger thread and [Stop], the messages that came into the
    buffer leave it in order, none lost and none twice; the log of every module
    has got exactly the texts that [Logger] gives it for the messages that have
    left, whatever the flags of the callers; when [Stop] has returned and
    nothing came after its last look, that is all.  The flag that goes on
    is not the caller's: [Logger] gives on [force_flush], the asynchronous
    logger asks for a flush exactly of the messages above INFO (and flushes
    every log after each buffer). *)
Theorem async_logs_what_sync_logs n ls y : run exec (AsyncLogger_new n) ls = Some y → Forall (λ m, bracketed (message m.2)) (accepted y) →
  (accepted y).*2 = delivered y ++ flushing_buf_ y ++ active_buf_ y ∧
  texts (module_logger_map_ y) = texts (sync (take (length (delivered y)) (accepted y))) ∧
  writes (module_logger_map_ y) = writes (sync (by_level <$> delivered y)) ∧
  (stopper_ y = SDone → active_buf_ y = [] → texts (module_logger_map_ y) = texts (sync (accepted y))).
Proof using Type.
  intros E Hb. assert (A : async_ok y).
  { apply run_trace in E. eapply (trace_invariant _ async_ok); [| |exact E]; [apply async_new_ok|]. intros a l b Ha Hab. by eapply async_exec_ok. }
  pose proof A as [H1 H2 H3 H4 H6 H5]. assert (Hs : writes (module_logger_map_ y) = writes (sync (by_level <$> delivered y))).
  { apply H5. assert (Hf : Forall (λ m, bracketed (message m)) (accepted y).*2) by by apply Forall_fmap. rewrite H1 in Hf. by apply Forall_app in Hf as [Hf _]. }
  assert (Ht : texts (module_logger_map_ y) = texts (sync (take (length (delivered y)) (accepted y)))).
  { rewrite (texts_of_writes _ _ Hs). apply sync_flags. rewrite fmap_take, H1, take_app_length, <- list_fmap_compose. by rewrite list_fmap_id. }
  split_and!; try done. intros Hd Ha. rewrite Hd in H4. rewrite H4 in H2. rewrite Ht, take_ge; [done|]. rewrite <- (length_fmap snd), H1, H2, Ha, !app_nil_r. done.
Qed.
End Loggers.

(** ** Runs *)

(** [I\[a\]x]: level, module [a], text [x]. *)
Definition log_line (module_name : Z) (text : Z) : list Z := [73; LEFT_BRACKET; module_name; RIGHT_BRACKET; text].
Definition process_group : list Z := [112].
Definition demo (ls : list label) : option async := run (exec process_group) (AsyncLogger_new 2) ls.

Definition demo_run : list label :=
  [Start; CallWrite 0 false 5 (log_line 97 1); CallWrite 1 true 6 (log_line 98 2); Writer 1; Writer 1; LogThread; LogThread; LogThread; LogThread;
   Writer 0; Writer 0; LogThread; Stop; LogThread; Stop; Stop; Stop; Stop].

Lemma async_logs_what_sync_logs_witness :
  ∃ y, demo demo_run = Some y ∧ stopper_ y = SDone ∧ length (accepted y) = 2%nat ∧ texts (module_logger_map_ y) = texts (sync process_group (accepted y)) ∧
    module_logger_map_ y !! [98] = Some [Write false 6 [73; 2]; Flush; Flush] ∧ sync process_group (accepted y) !! [98] = Some [Write true 6 [73; 2]].
Proof.
  eexists. split; [vm_compute; reflexivity|]. split; [vm_compute; reflexivity|]. split; [vm_compute; reflexivity|].
  split; [|split; vm_compute; reflexivity].
  apply (async_logs_what_sync_logs process_group 2 demo_run).
  - vm_compute. reflexivity.
  - repeat constructor; [exists [73], [98], [2]|exists [73], [97], [1]]; (split; [reflexivity|]); split_and!; try done; by intros [?|?%elem_of_nil]%elem_of_cons.
  - vm_compute. reflexivity.
  - vm_compute. reflexivity.
Defined.

(** A message without brackets goes to the module of the message before it; the
    synchronous logger gives it to the process group. *)
Theorem unbracketed_message_goes_astray :
  let m1 := mkMsg 5 (log_line 97 1) 0 in let m2 := mkMsg 6 [73; 2] 0 in
  ∃ y, demo [Start; CallWrite 0 false 5 (log_line 97 1); Writer 0; Writer 0; CallWrite 0 false 6 [73; 2]; Writer 0; Writer 0; Stop; LogThread; Stop; Stop; Stop; Stop; Stop] = Some y ∧
    stopper_ y = SDone ∧ accepted y = [(false, m1); (false, m2)] ∧ texts (module_logger_map_ y) !! [97] = Some [(5, [73; 1]); (6, [73; 2])] ∧
    texts (sync process_group (accepted y)) !! process_group = Some [(6, [73; 2])].
Proof. eexists. split; [vm_compute; reflexivity|]. split_and!; vm_compute; reflexivity. Qed.

(** A thread that has seen the logger running can put its message into the
    buffer after the last look of [Stop]: it stays there. *)
Theorem late_message_stays :
  ∃ y, demo [Start; CallWrite 0 false 5 (log_line 97 1); Stop; LogThread; Stop; Stop; Stop; Writer 0; Writer 0] = Some y ∧
    stopper_ y = SDone ∧ length (accepted y) = 1%nat ∧ delivered y = [] ∧ writers y = [WIdle; WIdle].
Proof. eexists. split; [vm_compute; reflexivity|]. split_and!; vm_compute; reflexivity. Qed.

(** [log_level_map.at] throws for a message that does not begin with a level,
    while the flag is set: every other thread spins for ever. *)
Theorem unknown_level_wedges_the_logger :
  ∃ y, demo [Start; CallWrite 0 false 5 [120]; CallWrite 1 true 6 (log_line 97 1); LogThread; Writer 0; Writer 0] = Some y ∧
    writers y !! 0%nat = Some WThrown ∧ flag_ y = true ∧ exec process_group y (Writer 1) = None ∧ exec process_group y LogThread = None.
Proof. eexists. split; [vm_compute; reflexivity|]. split_and!; vm_compute; reflexivity. Qed.

(** One megabyte at most, and two messages. *)
Definition quiet (t : Z) : environment := mkEnv t true false false [72].
Definition demo_entries : list entry := [mkEntry (quiet 1) false [1; 2]; mkEntry (quiet 2) true [3]].

Lemma log_files_keep_everything_witness :
  ∃ f, foldl (λ x n, LogFileObject_Write 1 30 true (en_env n) (en_force n) (en_message n) x) (LogFileObject_new (Some [97]), false) demo_entries = (f, false) ∧
    messages_in (log_files f) = [[1; 2]; [3]].
Proof.
  destruct (log_files_keep_everything 1 30 true 2 ltac:(lia) ltac:(lia) [97] demo_entries) as (f & E & M & _).
  - done.
  - repeat constructor; unfold zlen; simpl; lia.
  - exists f. split; [exact E|exact M].
Defined.
