(* ===== verification/Recorder.v ===== *)
(** * The recorder

    [Recorder] ([src/code/cyber/tools/cyber_recorder/recorder.h], [recorder.cc])
    asks the topology for the writers that are there, listens for those that
    come, makes a reader for each channel that is to be recorded, and writes what
    the readers hear with a [RecordWriter].  The steps of [Start] and [Stop] are
    interleaved with the callbacks of the topology and of the readers.

    The readers' callbacks take no lock and run on different processors for
    different channels, one at a time for each channel: their tests, each read
    and each write of the plain fields [message_time_] and [message_count_] and
    the call of [WriteMessage], which holds the mutex of the writer, are steps of
    their own.  One step are: a [TopologyCallback], since the writers of other
    processes are announced by one thread; [WriteChannel], under the same mutex;
    and [Close].  [is_started_] and [is_stopping_] are plain too: that another
    thread sees them as they are is assumed. *)

From stdpp Require Import base list strings gmap.
From S2P Require Import Prelude Topology Warehouse Message RecordFile RecordWriter.

Section Recorder.
Context {F : Type} `{!FileWriter F} (keys : gmap string Z → list string).
(** What the recorder was made with, and for which channels [CreateReader]
    gives a reader. *)
Context (output_ : string) (all_channels_ : bool) (white_channels_ black_channels_ : list string) (header_ : Header).
Context (CreateReader : string → string → bool).

(** Where [Start] and [Stop] are. *)
Inductive main :=
  | MNew | MFailed
  | MGet                                 (** [GetWriters] *)
  | MFind (roles : list RoleAttributes)  (** the loop over them *)
  | MListen                              (** [AddChangeListener] *)
  | MReady                               (** [is_started_ = true] *)
  | MRun
  | MRemove                              (** [RemoveChangeListener] *)
  | MClose                               (** the [Close] of the writer *)
  | MClosed                              (** [is_started_ = false] *)
  | MCleared                             (** [is_stopping_ = false] *)
  | MDone.

(** Where a [ReaderCallback] is.  The callbacks of different channels run on
    different processors and take no lock before they are in the writer: each
    read and each write of [message_time_] and [message_count_] is a step. *)
Inductive stage :=
  | CStarted (message : option (list Z))  (** [is_started_] was true *)
  | CStamp (content : list Z)             (** [message_time_ = Now()] *)
  | CLoad (content : list Z)              (** [message_time_] is read again for the call *)
  | CWrite (content : list Z) (t : Z)     (** [WriteMessage], under the mutex of the writer *)
  | CCount                                (** [message_count_++]: the read *)
  | CStore (n : Z).                       (** and the write *)

(** From [asked] on the fields are not part of the program: what the writer was
    asked, whether it ever returned false, the messages that reached it, the
    writers that came while nobody looked, those of which the recorder knows,
    the callbacks under way, the messages that callbacks took, each with the
    time that this callback read, and whether ever two callbacks were under way
    at once or one reached the writer after it was closed. *)
Record recorder := mkRecorder {
  is_started_ : bool; is_stopping_ : bool; writer_ : RecordWriter (F := F); channel_reader_map_ : gmap string string;
  message_count_ : Z; message_time_ : Z; connected : bool; pc : main; topology : list RoleAttributes;
  asked : list request; failed : bool; written : list SingleMessage; missed : list RoleAttributes; seen : list RoleAttributes;
  inflight : gmap string stage; heard : list SingleMessage; overlapped : bool; late : bool }.

Definition new_recorder : recorder :=
  mkRecorder false false (RecordWriter_new header_) ∅ 0 0 false MNew [] [] false [] [] [] ∅ [] false false.

Definition goto (p : main) (y : recorder) : recorder :=
  mkRecorder (is_started_ y) (is_stopping_ y) (writer_ y) (channel_reader_map_ y) (message_count_ y) (message_time_ y) (connected y) p (topology y)
    (asked y) (failed y) (written y) (missed y) (seen y) (inflight y) (heard y) (overlapped y) (late y).
Definition set_flags (started stopping conn : bool) (y : recorder) : recorder :=
  mkRecorder started stopping (writer_ y) (channel_reader_map_ y) (message_count_ y) (message_time_ y) conn (pc y) (topology y)
    (asked y) (failed y) (written y) (missed y) (seen y) (inflight y) (heard y) (overlapped y) (late y).
Definition set_counts (n t : Z) (y : recorder) : recorder :=
  mkRecorder (is_started_ y) (is_stopping_ y) (writer_ y) (channel_reader_map_ y) n t (connected y) (pc y) (topology y)
    (asked y) (failed y) (written y) (missed y) (seen y) (inflight y) (heard y) (overlapped y) (late y).
Definition set_writer (w : RecordWriter) (y : recorder) : recorder :=
  mkRecorder (is_started_ y) (is_stopping_ y) w (channel_reader_map_ y) (message_count_ y) (message_time_ y) (connected y) (pc y) (topology y)
    (asked y) (failed y) (written y) (missed y) (seen y) (inflight y) (heard y) (overlapped y) (late y).
Definition ask (r : request) (w : RecordWriter) (ok : bool) (y : recorder) : recorder :=
  mkRecorder (is_started_ y) (is_stopping_ y) w (channel_reader_map_ y) (message_count_ y) (message_time_ y) (connected y) (pc y) (topology y)
    (asked y ++ [r]) (failed y || negb ok) (written y) (missed y) (seen y) (inflight y) (heard y) (overlapped y) (late y).
Definition add_reader (c t : string) (y : recorder) : recorder :=
  mkRecorder (is_started_ y) (is_stopping_ y) (writer_ y) (<[c := t]> (channel_reader_map_ y)) (message_count_ y) (message_time_ y) (connected y) (pc y) (topology y)
    (asked y) (failed y) (written y) (missed y) (seen y) (inflight y) (heard y) (overlapped y) (late y).
Definition set_written (ms : list SingleMessage) (l : bool) (y : recorder) : recorder :=
  mkRecorder (is_started_ y) (is_stopping_ y) (writer_ y) (channel_reader_map_ y) (message_count_ y) (message_time_ y) (connected y) (pc y) (topology y)
    (asked y) (failed y) ms (missed y) (seen y) (inflight y) (heard y) (overlapped y) l.
Definition set_heard (ms : list SingleMessage) (y : recorder) : recorder :=
  mkRecorder (is_started_ y) (is_stopping_ y) (writer_ y) (channel_reader_map_ y) (message_count_ y) (message_time_ y) (connected y) (pc y) (topology y)
    (asked y) (failed y) (written y) (missed y) (seen y) (inflight y) ms (overlapped y) (late y).
Definition set_inflight (i : gmap string stage) (o : bool) (y : recorder) : recorder :=
  mkRecorder (is_started_ y) (is_stopping_ y) (writer_ y) (channel_reader_map_ y) (message_count_ y) (message_time_ y) (connected y) (pc y) (topology y)
    (asked y) (failed y) (written y) (missed y) (seen y) i (heard y) o (late y).
Definition note (known unseen s : list RoleAttributes) (y : recorder) : recorder :=
  mkRecorder (is_started_ y) (is_stopping_ y) (writer_ y) (channel_reader_map_ y) (message_count_ y) (message_time_ y) (connected y) (pc y) known
    (asked y) (failed y) (written y) unseen s (inflight y) (heard y) (overlapped y) (late y).

(** ** Channels *)

(** The tests of [FindNewChannel]: the channel, its type and its description. *)
Definition recordable (role_attr : RoleAttributes) : option (string * (string * string)) :=
  match Warehouse.channel_name role_attr, Warehouse.message_type role_attr, Warehouse.proto_desc role_attr with
  | Some c, Some t, Some d =>
      if bool_decide (c = EmptyString) || bool_decide (t = EmptyString) || bool_decide (d = EmptyString) then None
      else if negb all_channels_ && negb (bool_decide (c ∈ white_channels_)) then None
      else if bool_decide (c ∈ black_channels_) then None
      else Some (c, (t, d))
  | _, _, _ => None
  end.

(** [None] where the writer uses a null pointer. *)
Definition FindNewChannel (role_attr : RoleAttributes) (y : recorder) : option recorder :=
  match recordable role_attr with
  | None => Some y
  | Some (c, (t, d)) =>
      match channel_reader_map_ y !! c with
      | Some _ => Some y
      | None =>
          match WriteChannel c t d (writer_ y) with
          | None => None
          | Some (w, ok) => let y := ask (ReqChannel c t d) w ok y in Some (if CreateReader c t then add_reader c t y else y)
          end
      end
  end.

Definition TopologyCallback (is_writer : bool) (role_attr : RoleAttributes) (y : recorder) : option recorder :=
  if negb is_writer then Some y else FindNewChannel role_attr y.

(** ** Messages *)

(** The writer is open. *)
Definition writing_ (p : main) : bool := match p with MNew | MFailed | MClosed | MCleared | MDone => false | _ => true end.

(** One step of the callback of a channel, and where it is then; [now] is what
    the clock reads.  [None] where the writer uses a null pointer. *)
Definition ReaderCallback (channel_name : string) (now : Z) (p : stage) (y : recorder) : option (recorder * option stage) :=
  match p with
  | CStarted message => Some (y, if is_stopping_ y then None else match message with None => None | Some c => Some (CStamp c) end)
  | CStamp c => Some (set_heard (heard y ++ [mkMessage channel_name now c]) (set_counts (message_count_ y) now y), Some (CLoad c))
  | CLoad c => Some (y, Some (CWrite c (message_time_ y)))
  | CWrite c t =>
      let m := mkMessage channel_name t c in
      match WriteMessage keys m (writer_ y) with
      | None => None
      | Some (w, ok) => Some (set_written (written y ++ [m]) (late y || negb (writing_ (pc y))) (ask (ReqMessage m) w ok y), if ok then Some CCount else None)
      end
  | CCount => Some (y, Some (CStore (message_count_ y)))
  | CStore n => Some (set_counts (u64 (n + 1)) (message_time_ y) y, None)
  end.

(** ** [Start], [Stop] and what happens meanwhile *)

Inductive label :=
  | Go                                                                 (** the next step of [Start] or [Stop] *)
  | CallStop
  | Change (is_writer joins : bool) (role_attr : RoleAttributes)       (** the topology changes *)
  | Hear (channel : string) (message : option (list Z))                (** a message comes on a channel: the callback begins *)
  | Turn (channel : string) (now : Z).                                 (** the callback of the channel goes on *)

(** A callback that goes on, or ends. *)
Definition put (c : string) (q : option stage) (i : gmap string stage) : gmap string stage := match q with Some p => <[c := p]> i | None => delete c i end.

Definition go (y : recorder) : option recorder :=
  match pc y with
  | MNew =>
      if existsb (λ c, bool_decide (c ∈ black_channels_)) white_channels_ then Some (goto MFailed y)
      else match Open output_ (writer_ y) with (w, true) => Some (goto MGet (set_writer w y)) | (w, false) => Some (goto MFailed (set_writer w y)) end
  | MGet => Some (note (topology y) (missed y) (topology y) (goto (MFind (topology y)) y))
  | MFind [] => Some (goto MListen y)
  | MFind (r :: rs) => FindNewChannel r (goto (MFind rs) y)
  | MListen => Some (goto MReady (set_flags (is_started_ y) (is_stopping_ y) true y))
  | MReady => Some (goto MRun (set_flags true (is_stopping_ y) (connected y) (set_counts 0 0 y)))
  | MRemove => Some (goto MClose (set_flags (is_started_ y) (is_stopping_ y) false y))
  | MClose => w ← Close (writer_ y); Some (goto MClosed (set_writer w y))
  | MClosed => Some (goto MCleared (set_flags false (is_stopping_ y) (connected y) y))
  | MCleared => Some (goto MDone (set_flags (is_started_ y) false (connected y) y))
  | MFailed | MRun | MDone => None
  end.

Definition step (y : recorder) (l : label) : option recorder :=
  match l with
  | Go => go y
  | CallStop =>
      match pc y with
      | MRun => if negb (is_started_ y) || is_stopping_ y then Some y else Some (goto MRemove (set_flags (is_started_ y) true (connected y) y))
      | _ => None
      end
  | Change is_writer joins r =>
      let known := if is_writer && joins then topology y ++ [r] else topology y in
      if connected y then TopologyCallback is_writer r (note known (missed y) (if is_writer && joins then seen y ++ [r] else seen y) y)
      else Some (note known (if is_writer && joins && negb (match pc y with MNew | MGet | MFailed => true | _ => false end) then missed y ++ [r] else missed y) (seen y) y)
  | Hear c m =>
      match channel_reader_map_ y !! c, inflight y !! c with
      | None, _ => Some y
      | Some _, Some _ => None (* the routine of a channel runs one callback at a time *)
      | Some _, None =>
          if negb (is_started_ y) then Some y
          else Some (set_inflight (<[c := CStarted m]> (inflight y)) (overlapped y || negb (bool_decide (inflight y = ∅))) y)
      end
  | Turn c now =>
      match inflight y !! c with
      | None => None
      | Some p => match ReaderCallback c now p y with None => None | Some (y', q) => Some (set_inflight (put c q (inflight y)) (overlapped y) y') end
      end
  end.

(** ** The callbacks under way *)

Definition on_channel (c : string) (ms : list SingleMessage) : list (list Z) := content <$> filter (λ m, RecordFile.channel_name m = c) ms.

(** The message that a callback has taken and not given to the writer. *)
Definition pending (p : option stage) : list (list Z) := match p with Some (CLoad x) | Some (CWrite x _) => [x] | _ => [] end.

(** The callbacks whose message is written and not counted. *)
Definition counting (p : option stage) : nat := match p with Some CCount | Some (CStore _) => 1 | _ => 0 end.
Definition uncounted (i : gmap string stage) : nat := base.size (filter (λ kp, counting (Some kp.2) = 1%nat) i).

(** Without a second callback there is none under way or one, and nothing was
    written between its steps. *)
Definition alone (ms hs : list SingleMessage) (i : gmap string stage) (n t : Z) : Prop :=
  (i = ∅ ∧ hs = ms ∧ n = u64 (zlen ms)) ∨
  ∃ c p, i = {[c := p]} ∧
    match p with
    | CStarted _ | CStamp _ => hs = ms ∧ n = u64 (zlen ms)
    | CLoad x => hs = ms ++ [mkMessage c t x] ∧ n = u64 (zlen ms)
    | CWrite x t' => hs = ms ++ [mkMessage c t' x] ∧ n = u64 (zlen ms)
    | CCount => hs = ms ∧ u64 (n + 1) = u64 (zlen ms)
    | CStore n' => hs = ms ∧ n' = n ∧ u64 (n + 1) = u64 (zlen ms)
    end.

Record calls_inv (ms hs : list SingleMessage) (i : gmap string stage) (n t : Z) (o : bool) : Prop := {
  co_contents : ∀ c, on_channel c hs = on_channel c ms ++ pending (i !! c);
  co_times : Forall (λ m, time m ∈ time <$> hs) ms ∧ (∀ c x t', i !! c = Some (CWrite x t') → t' ∈ time <$> hs) ∧ (hs = [] ∨ t ∈ time <$> hs);
  co_count : 0 ≤ n ≤ zlen ms - Z.of_nat (uncounted i) ∧ ∀ c n', i !! c = Some (CStore n') → 0 ≤ n' ≤ zlen ms - Z.of_nat (uncounted i);
  co_alone : o = false → alone ms hs i n t;
}.

Lemma on_channel_app c a b : on_channel c (a ++ b) = on_channel c a ++ on_channel c b.
Proof using Type. unfold on_channel. by rewrite filter_app, fmap_app. Qed.
Lemma on_channel_same c t x : on_channel c [mkMessage c t x] = [x].
Proof using Type. unfold on_channel. rewrite filter_cons. simpl. by rewrite decide_True. Qed.
Lemma on_channel_other c c' t x : c' ≠ c → on_channel c' [mkMessage c t x] = [].
Proof using Type. intros H. unfold on_channel. rewrite filter_cons. simpl. by rewrite decide_False. Qed.

Lemma uncounted_put c q i : (uncounted (put c q i) + counting (i !! c) = uncounted i + counting q)%nat.
Proof using Type.
  unfold uncounted. set (P := λ kp : string * stage, counting (Some kp.2) = 1%nat).
  assert (Hd : (base.size (filter P (delete c i)) + counting (i !! c) = base.size (filter P i))%nat).
  { rewrite map_filter_delete, map_size_delete. destruct (filter P i !! c) as [p|] eqn:E.
    - apply map_lookup_filter_Some in E as E'. destruct E' as [-> Hp]. unfold P in Hp. cbn [snd] in Hp. rewrite Hp.
      assert (base.size (filter P i) ≠ 0)%nat; [|lia]. apply map_size_ne_0_lookup. by exists c, p.
    - destruct (i !! c) as [p|] eqn:Ei; [|simpl; lia]. rewrite map_lookup_filter_None in E. destruct E as [E|E]; [congruence|]. specialize (E p Ei). unfold P in E. cbn [snd] in E.
      destruct p; simpl in *; lia. }
  destruct q as [q|]; cbn [put]; [|change (counting None) with 0%nat; lia]. rewrite <- insert_delete_eq, map_filter_insert.
  assert (Hn : delete c i !! c = None) by apply lookup_delete_eq.
  case_decide as Hq; unfold P in Hq; cbn [snd] in Hq.
  - rewrite map_size_insert_None; [rewrite Hq; lia|]. apply map_lookup_filter_None. by left.
  - rewrite delete_delete_eq. destruct q; simpl in *; lia.
Qed.

Lemma put_same c q i : put c q i !! c = q.
Proof using Type. destruct q; simpl; [apply lookup_insert_eq|apply lookup_delete_eq]. Qed.
Lemma put_other c q i c' : c' ≠ c → put c q i !! c' = i !! c'.
Proof using Type. intros H. destruct q; simpl; [by rewrite lookup_insert_ne|by rewrite lookup_delete_ne]. Qed.

Lemma put_singleton c q p : put c q {[c := p]} = match q with Some q => {[c := q]} | None => ∅ end.
Proof using Type. destruct q; simpl; [apply insert_singleton_eq|apply delete_singleton_eq]. Qed.

(** A callback goes on: the others find what they had. *)
Lemma put_inv ms hs i n t o c q ms' hs' n' t' o' : calls_inv ms hs i n t o →
  (∀ c', on_channel c' hs' = on_channel c' ms' ++ pending (put c q i !! c')) →
  hs `prefix_of` hs' → Forall (λ m, time m ∈ time <$> hs') ms' → (∀ x s, q = Some (CWrite x s) → s ∈ time <$> hs') → (hs' = [] ∨ t' ∈ time <$> hs') →
  zlen ms - Z.of_nat (uncounted i) ≤ zlen ms' - Z.of_nat (uncounted (put c q i)) → 0 ≤ n' ≤ zlen ms' - Z.of_nat (uncounted (put c q i)) →
  (∀ s, q = Some (CStore s) → 0 ≤ s ≤ zlen ms' - Z.of_nat (uncounted (put c q i))) →
  (o' = false → alone ms' hs' (put c q i) n' t') → calls_inv ms' hs' (put c q i) n' t' o'.
Proof using Type.
  intros [_ (_ & H2 & _) [_ H4] _] K1 [k ->] K2 K3 K4 K5 K6 K7 K8. split; [done| |split; [done|]|done].
  - split_and!; [done| |done]. intros c' x s Hc. destruct (decide (c' = c)) as [->|Hne]; [rewrite put_same in Hc; by eapply K3|].
    rewrite put_other in Hc by done. rewrite fmap_app. apply elem_of_app. left. by eapply H2.
  - intros c' s Hc. destruct (decide (c' = c)) as [->|Hne]; [rewrite put_same in Hc; by apply K7|]. rewrite put_other in Hc by done. apply H4 in Hc. lia.
Qed.

Lemma alone_at ms hs i n t c p : alone ms hs i n t → i !! c = Some p →
  i = {[c := p]} ∧
    match p with
    | CStarted _ | CStamp _ => hs = ms ∧ n = u64 (zlen ms)
    | CLoad x => hs = ms ++ [mkMessage c t x] ∧ n = u64 (zlen ms)
    | CWrite x t' => hs = ms ++ [mkMessage c t' x] ∧ n = u64 (zlen ms)
    | CCount => hs = ms ∧ u64 (n + 1) = u64 (zlen ms)
    | CStore n' => hs = ms ∧ n' = n ∧ u64 (n + 1) = u64 (zlen ms)
    end.
Proof using Type. intros [(-> & _)|(c' & p' & -> & H)] Hc; [by rewrite lookup_empty in Hc|]. apply lookup_singleton_Some in Hc as [-> ->]. done. Qed.

Lemma contents_put ms hs i n t o c q : calls_inv ms hs i n t o → pending q = pending (i !! c) → ∀ c', on_channel c' hs = on_channel c' ms ++ pending (put c q i !! c').
Proof using Type. intros [H _ _ _] Hq c'. destruct (decide (c' = c)) as [->|Hne]; [by rewrite put_same, Hq|by rewrite put_other]. Qed.

(** A callback begins. *)
Lemma begin_inv ms hs i n t o c m : calls_inv ms hs i n t o → i !! c = None →
  calls_inv ms hs (<[c := CStarted m]> i) n t (o || negb (bool_decide (i = ∅))).
Proof using Type.
  intros C Hc. pose proof C as [H1 (H2 & H3 & H4) [H5 H6] H7]. pose proof (uncounted_put c (Some (CStarted m)) i) as Hu. rewrite Hc in Hu. simpl in Hu.
  apply (put_inv ms hs i n t o c (Some (CStarted m))); try done; simpl; try lia.
  - apply (contents_put _ _ _ _ _ _ _ (Some (CStarted m)) C). by rewrite Hc.
  - intros [Ho Hi%negb_false_iff%bool_decide_eq_true]%orb_false_iff. subst i. right. exists c, (CStarted m). rewrite insert_empty. split; [done|].
    destruct (H7 Ho) as [(_ & -> & ->)|(c' & p & E & _)]; [done|]. by apply (f_equal (.!! c')) in E; rewrite lookup_empty, lookup_singleton_eq in E.
Qed.

(** A callback goes on. *)
Lemma turn_inv ms hs i n t o c p q : calls_inv ms hs i n t o → i !! c = Some p → pending (Some p) = pending q → counting (Some p) = counting q →
  (∀ x s, q = Some (CWrite x s) → s = t) → (∀ s, q = Some (CStore s) → s = n) →
  (alone ms hs {[c := p]} n t → alone ms hs (put c q {[c := p]}) n t) → calls_inv ms hs (put c q i) n t o.
Proof using Type.
  intros C Hc Hp Hq Hw Hs Ha. pose proof C as [H1 (H2 & H3 & H4) [H5 H6] H7]. pose proof (uncounted_put c q i) as Hu. rewrite Hc in Hu.
  apply (put_inv ms hs i n t o c q); try done; try lia.
  - apply (contents_put _ _ _ _ _ _ _ q C). by rewrite Hc.
  - intros x s ->. rewrite (Hw x s eq_refl). destruct H4 as [->|?]; [|done]. specialize (H1 c). rewrite Hc, Hp in H1. by destruct (on_channel c ms).
  - intros s Hs'. rewrite (Hs s Hs'). lia.
  - intros Ho. specialize (H7 Ho). destruct (alone_at _ _ _ _ _ _ _ H7 Hc) as [E _]. rewrite E in H7 |- *. by apply Ha.
Qed.

Definition calls_ok (y : recorder) : Prop := calls_inv (written y) (heard y) (inflight y) (message_count_ y) (message_time_ y) (overlapped y || failed y).

Lemma stamp_inv ms hs i n t o c x now : calls_inv ms hs i n t o → i !! c = Some (CStamp x) →
  calls_inv ms (hs ++ [mkMessage c now x]) (<[c := CLoad x]> i) n now o.
Proof using Type.
  intros C Hc. pose proof C as [H1 (H2 & H3 & H4) [H5 H6] H7]. pose proof (uncounted_put c (Some (CLoad x)) i) as Hu. rewrite Hc in Hu. simpl in Hu.
  apply (put_inv ms hs i n t o c (Some (CLoad x))); try done; simpl; try lia.
  - intros c'. rewrite on_channel_app, H1. destruct (decide (c' = c)) as [->|Hne]; [by rewrite on_channel_same, Hc, lookup_insert_eq, app_nil_r|].
    rewrite on_channel_other, app_nil_r, lookup_insert_ne by done. done.
  - by eexists.
  - eapply Forall_impl; [exact H2|]. intros m Hm. rewrite fmap_app. apply elem_of_app. by left.
  - right. rewrite fmap_app. apply elem_of_app. right. by apply list_elem_of_singleton.
  - intros Ho. destruct (alone_at _ _ _ _ _ _ _ (H7 Ho) Hc) as [-> [-> ->]]. right. exists c, (CLoad x). by rewrite insert_singleton_eq.
Qed.

Lemma write_inv ms hs i n t o c x t' (ok : bool) : calls_inv ms hs i n t o → i !! c = Some (CWrite x t') →
  calls_inv (ms ++ [mkMessage c t' x]) hs (put c (if ok then Some CCount else None) i) n t (o || negb ok).
Proof using Type.
  intros C Hc. pose proof C as [H1 (H2 & H3 & H4) [H5 H6] H7]. pose proof (uncounted_put c (if ok then Some CCount else None) i) as Hu. rewrite Hc in Hu.
  assert (Hz : zlen (ms ++ [mkMessage c t' x]) = zlen ms + 1) by (unfold zlen; rewrite length_app; simpl; lia).
  apply (put_inv ms hs i n t o c); rewrite ?Hz; try done.
  - intros c'. rewrite H1, on_channel_app. destruct (decide (c' = c)) as [->|Hne]; [rewrite on_channel_same, put_same, Hc; by destruct ok; rewrite app_nil_r|].
    rewrite on_channel_other, app_nil_r, put_other by done. done.
  - apply Forall_app. split; [done|]. apply Forall_singleton. simpl. by eapply H3.
  - by destruct ok.
  - destruct ok; cbn [counting] in Hu |- *; lia.
  - destruct ok; cbn [counting] in Hu |- *; lia.
  - by destruct ok.
  - intros [Ho Hok%negb_false_iff]%orb_false_iff. subst ok. destruct (alone_at _ _ _ _ _ _ _ (H7 Ho) Hc) as [-> [-> ->]]. right. exists c, CCount. rewrite put_singleton. split; [done|].
    split; [done|]. rewrite Hz. apply wrap_add_l.
Qed.

Lemma store_inv ms hs i n t o c n' : calls_inv ms hs i n t o → i !! c = Some (CStore n') → calls_inv ms hs (delete c i) (u64 (n' + 1)) t o.
Proof using Type.
  intros C Hc. pose proof C as [H1 (H2 & H3 & H4) [H5 H6] H7]. pose proof (uncounted_put c None i) as Hu. rewrite Hc in Hu. simpl in Hu. pose proof (H6 c n' Hc).
  apply (put_inv ms hs i n t o c None); try done; simpl; try lia.
  - apply (contents_put _ _ _ _ _ _ _ None C). by rewrite Hc.
  - pose proof (Z.mod_pos_bound (n' + 1) (2 ^ 64) ltac:(lia)). pose proof (Z.mod_le (n' + 1) (2 ^ 64) ltac:(lia) ltac:(lia)). unfold wrap. lia.
  - intros Ho. destruct (alone_at _ _ _ _ _ _ _ (H7 Ho) Hc) as [-> (-> & -> & E)]. left. by rewrite delete_singleton_eq.
Qed.

(** ** What the recorder keeps *)

Context (readers_made : ∀ c t, CreateReader c t = true).

Definition opened : RecordWriter := (Open output_ (RecordWriter_new header_)).1.

(** The channels that the writer was asked for, in order. *)
Definition channels_asked (rs : list request) : list string := omap (λ r, match r with ReqChannel c _ _ => Some c | ReqMessage _ => None end) rs.

(** Before [is_started_] is set. *)
Definition starting (p : main) : bool := match p with MNew | MFailed | MGet | MFind _ | MListen | MReady => true | _ => false end.

Definition writer_ok (y : recorder) : Prop :=
  match pc y with
  | MNew | MFailed => asked y = [] ∧ (pc y = MNew → writer_ y = RecordWriter_new header_)
  | MClosed | MCleared | MDone => ∃ w, run (exec keys) opened (asked y) = Some w ∧ (Open output_ (RecordWriter_new header_)).2 = true ∧ Close w = Some (writer_ y)
  | _ => run (exec keys) opened (asked y) = Some (writer_ y) ∧ (Open output_ (RecordWriter_new header_)).2 = true
  end.

Record recorder_ok (y : recorder) : Prop := {
  ro_writer : failed y = false → late y = false → writer_ok y;
  ro_written : requested (asked y) = written y;
  ro_announced : announced (asked y);
  ro_readers : dom (channel_reader_map_ y) = dom (registered (asked y));
  ro_once : NoDup (channels_asked (asked y));
  ro_asked : ∀ c, c ∈ channels_asked (asked y) ↔ is_Some (registered (asked y) !! c);
  ro_start : starting (pc y) = true → is_started_ y = false ∧ written y = [] ∧ heard y = [] ∧ inflight y = ∅;
  ro_conn : connected y = true → match pc y with MReady | MRun | MRemove => True | _ => False end;
  ro_calls : dom (inflight y) ⊆ dom (channel_reader_map_ y) ∧ calls_ok y;
}.

(** The writers of which the recorder knows have readers, or will have. *)
Definition seen_ok (y : recorder) : Prop :=
  (∀ r c x, r ∈ seen y → recordable r = Some (c, x) → c ∈ dom (channel_reader_map_ y) ∨ match pc y with MFind rs => r ∈ rs | _ => False end) ∧
  match pc y with MNew | MGet | MFailed => seen y = [] | _ => ∀ r, r ∈ topology y → r ∈ seen y ∨ r ∈ missed y end.

Lemma calls_new o : calls_inv [] [] ∅ 0 0 o.
Proof using Type.
  split; try done.
  - split_and!; [by apply Forall_nil|by intros c x t'|by left].
  - intros _. by left.
Qed.

(** A failed call of the writer ends the claim that the callbacks were alone. *)
Lemma calls_weaken ms hs i n t o o' : calls_inv ms hs i n t o → (o' = false → o = false) → calls_inv ms hs i n t o'.
Proof using Type. intros [H1 H2 H3 H4] Ho. split; auto. Qed.

Lemma new_recorder_ok : recorder_ok new_recorder ∧ seen_ok new_recorder.
Proof using Type.
  split; [|split; [by intros r c x ?%elem_of_nil|done]]. split; try done.
  - intros a m b E. by destruct a.
  - constructor.
  - intros c. simpl. unfold registered. simpl. rewrite lookup_empty. split; [by intros ?%elem_of_nil|by intros [? ?]].
  - split; [done|apply calls_new].
Qed.

Lemma channels_asked_snoc rs r : channels_asked (rs ++ [r]) = channels_asked rs ++ match r with ReqChannel c _ _ => [c] | ReqMessage _ => [] end.
Proof using Type. unfold channels_asked. rewrite omap_app. by destruct r. Qed.

Lemma announced_snoc rs r : announced rs → (∀ m, r = ReqMessage m → is_Some (registered rs !! RecordFile.channel_name m)) → announced (rs ++ [r]).
Proof using Type.
  intros H Hr a m b E. destruct (decide (b = [])) as [->|Hb].
  - apply app_inj_tail in E as [-> ->]. by apply Hr.
  - destruct b as [|x b _] using rev_ind; [done|]. rewrite app_comm_cons, (assoc_L (++)) in E. apply app_inj_tail in E as [-> _]. by eapply H.
Qed.

Lemma find_ok r y y' : recorder_ok y → writing_ (pc y) = true → FindNewChannel r y = Some y' →
  recorder_ok y' ∧ pc y' = pc y ∧ seen y' = seen y ∧ topology y' = topology y ∧ missed y' = missed y ∧ connected y' = connected y ∧
  dom (channel_reader_map_ y) ⊆ dom (channel_reader_map_ y') ∧ ∀ c x, recordable r = Some (c, x) → c ∈ dom (channel_reader_map_ y').
Proof using readers_made.
  intros R Hp E. unfold FindNewChannel in E. destruct (recordable r) as [[c [t d]]|]; [|injection E as <-; split_and!; done].
  destruct (channel_reader_map_ y !! c) as [t'|] eqn:Em.
  { injection E as <-. split_and!; try done. intros c' x [= <- _]. apply elem_of_dom. by exists t'. }
  destruct (WriteChannel c t d (writer_ y)) as [[w ok]|] eqn:Ew; [|done]. rewrite readers_made in E. injection E as <-.
  destruct R as [H1 H2 H3 H4 H5 H6 H7 H8 [H9 H10]].
  assert (Hnew : registered (asked y) !! c = None) by (apply not_elem_of_dom; rewrite <- H4; by apply not_elem_of_dom).
  assert (Hreg : registered (asked y ++ [ReqChannel c t d]) = <[c := (t, d)]> (registered (asked y))) by (rewrite registered_snoc; simpl; by rewrite Hnew).
  split_and!; try done.
  - split; simpl; try done.
    + intros [Hf Hok%negb_false_iff]%orb_false_iff Hl. subst ok. specialize (H1 Hf Hl). unfold writer_ok in *. simpl.
      assert (Hrun : ∀ w0, run (exec keys) w0 (asked y) = Some (writer_ y) → run (exec keys) w0 (asked y ++ [ReqChannel c t d]) = Some w) by (intros w0 Hr; rewrite run_app, Hr; cbn [run]; unfold exec; by rewrite Ew).
      destruct (pc y); try done; destruct H1 as [H1 H1']; (split; [by apply Hrun|done]).
    + rewrite requested_snoc. simpl. by rewrite app_nil_r.
    + by apply announced_snoc.
    + rewrite Hreg, !dom_insert_L. by rewrite H4.
    + rewrite channels_asked_snoc. apply NoDup_app. split; [done|]. split; [|apply NoDup_singleton]. intros c' Hc ->%list_elem_of_singleton. apply H6 in Hc. rewrite Hnew in Hc. by destruct Hc.
    + intros c'. rewrite channels_asked_snoc, elem_of_app, list_elem_of_singleton, Hreg, H6. destruct (decide (c = c')) as [<-|Hne]; [rewrite lookup_insert_eq; split; [done|by right]|]. rewrite lookup_insert_ne by done. naive_solver.
    + split; [rewrite dom_insert_L; set_solver|]. eapply calls_weaken; [exact H10|]. simpl. by intros [-> [-> _]%orb_false_iff]%orb_false_iff.
  - simpl. rewrite dom_insert_L. set_solver.
  - intros c' x [= <- _]. simpl. rewrite dom_insert_L. set_solver.
Qed.

(** A step of a callback, wherever [Start] and [Stop] are. *)
Lemma callback_ok c now p y y' q : recorder_ok y → inflight y !! c = Some p → ReaderCallback c now p y = Some (y', q) →
  let y' := set_inflight (put c q (inflight y)) (overlapped y) y' in
  recorder_ok y' ∧ pc y' = pc y ∧ seen y' = seen y ∧ topology y' = topology y ∧ missed y' = missed y ∧ channel_reader_map_ y' = channel_reader_map_ y.
Proof using readers_made.
  intros R Hc E y1. pose proof R as [H1 H2 H3 H4 H5 H6 H7 H8 [H9 H10]].
  assert (Hs : starting (pc y) = false) by (destruct (starting (pc y)); [|done]; destruct (H7 eq_refl) as (_ & _ & _ & E0); by rewrite E0, lookup_empty in Hc).
  assert (Hdom : c ∈ dom (channel_reader_map_ y)) by (apply H9; apply elem_of_dom; by eexists).
  assert (Hd : ∀ q, dom (put c q (inflight y)) ⊆ dom (channel_reader_map_ y)) by (intros [q'|]; simpl; rewrite ?dom_insert_L, ?dom_delete_L; set_solver).
  assert (Hst : ∀ (P : Prop), starting (pc y) = true → P) by by rewrite Hs.
  destruct p as [m|x|x|x t| |n]; simpl in E.
  - injection E as <- <-. subst y1. split; [|done]. split; simpl; auto; [by apply Hst|]. split; [apply Hd|]. unfold calls_ok. simpl.
    apply (turn_inv _ _ _ _ _ _ c (CStarted m)); try done; (destruct (is_stopping_ y), m; try done); simpl.
    all: intros A; rewrite ?insert_singleton_eq, ?delete_singleton_eq; destruct (alone_at _ _ _ _ _ c _ A (lookup_singleton_eq _ _)) as [_ [-> ->]]; try (left; done); right; exists c; eexists; done.
  - injection E as <- <-. subst y1. split; [|done]. split; simpl; auto; [by apply Hst|]. split; [apply (Hd (Some _))|]. by apply (stamp_inv _ _ _ _ _ _ _ x now H10).
  - injection E as <- <-. subst y1. split; [|done]. split; simpl; auto; [by apply Hst|]. split; [apply (Hd (Some _))|]. unfold calls_ok. simpl.
    apply (turn_inv _ _ _ _ _ _ c (CLoad x) (Some (CWrite x (message_time_ y)))); try done; [by intros ? ? [= _ <-]|].
    intros A. simpl. rewrite insert_singleton_eq. destruct (alone_at _ _ _ _ _ c _ A (lookup_singleton_eq _ _)) as [_ B]. right. exists c. eexists. split; [done|exact B].
  - destruct (WriteMessage keys _ (writer_ y)) as [[w ok]|] eqn:Ew; [|done]. injection E as <- <-. subst y1. split; [|done]. set (r := ReqMessage (mkMessage c t x)) in *.
    assert (Hreg : registered (asked y ++ [r]) = registered (asked y)) by by rewrite registered_snoc.
    split; simpl; auto; try by apply Hst.
    + intros [Hf Hok%negb_false_iff]%orb_false_iff [Hl Hpc%negb_false_iff]%orb_false_iff. subst ok. specialize (H1 Hf Hl). unfold writer_ok in *. simpl.
      assert (Hrun : ∀ w0, run (exec keys) w0 (asked y) = Some (writer_ y) → run (exec keys) w0 (asked y ++ [r]) = Some w) by (intros w0 Hr; rewrite run_app, Hr; cbn [run]; unfold exec, r; by rewrite Ew).
      destruct (pc y); try done; destruct H1 as [H1 H1']; (split; [by apply Hrun|done]).
    + rewrite requested_snoc. simpl. by rewrite H2.
    + apply announced_snoc; [done|]. intros m' [= <-]. simpl. apply elem_of_dom. by rewrite <- H4.
    + by rewrite Hreg.
    + rewrite channels_asked_snoc. simpl. by rewrite app_nil_r.
    + intros c'. rewrite channels_asked_snoc. simpl. rewrite app_nil_r, Hreg. apply H6.
    + split; [apply Hd|]. unfold calls_ok. simpl. rewrite orb_assoc. by apply (write_inv _ _ _ _ _ _ _ _ _ ok H10).
  - injection E as <- <-. subst y1. split; [|done]. split; simpl; auto; [by apply Hst|]. split; [apply (Hd (Some _))|]. unfold calls_ok. simpl.
    apply (turn_inv _ _ _ _ _ _ c CCount (Some (CStore (message_count_ y)))); try done; [by intros ? [= <-]|].
    intros A. simpl. rewrite insert_singleton_eq. destruct (alone_at _ _ _ _ _ c _ A (lookup_singleton_eq _ _)) as [_ [-> B]]. right. exists c. eexists. split; [done|]. by split_and!.
  - injection E as <- <-. subst y1. split; [|done]. split; simpl; auto; [by apply Hst|]. split; [apply (Hd None)|]. by apply (store_inv _ _ _ _ _ _ _ n H10).
Qed.

Lemma open_closed w : (Open output_ (RecordWriter_new header_)) = (w, true) → opened = w.
Proof using Type. unfold opened. by intros ->. Qed.

(** Steps of [Start] and [Stop] that leave the callbacks and the requests alone. *)
Lemma main_ok (y y' : recorder) : recorder_ok y → asked y' = asked y → channel_reader_map_ y' = channel_reader_map_ y → written y' = written y → heard y' = heard y →
  inflight y' = inflight y → message_count_ y' = message_count_ y → message_time_ y' = message_time_ y → overlapped y' = overlapped y → failed y' = failed y → late y' = late y →
  (writer_ok y → writer_ok y') → (starting (pc y') = true → starting (pc y) = true ∧ is_started_ y' = is_started_ y) →
  (connected y' = true → match pc y' with MReady | MRun | MRemove => True | _ => False end) → recorder_ok y'.
Proof using Type.
  intros [H1 H2 H3 H4 H5 H6 H7 H8 [H9 H10]] E1 E2 E3 E4 E5 E6 E7 E8 E9 E10 K1 K2 K3. split; rewrite ?E1, ?E2, ?E3, ?E4, ?E5, ?E9, ?E10; auto.
  - intros Hs. destruct (K2 Hs) as [Hs' ->]. by apply H7.
  - split; [done|]. unfold calls_ok. rewrite E3, E4, E5, E6, E7, E8, E9. exact H10.
Qed.

Lemma go_ok y y' : recorder_ok y ∧ seen_ok y → go y = Some y' → recorder_ok y' ∧ seen_ok y'.
Proof using readers_made.
  intros [R S] E. pose proof R as [H1 H2 H3 H4 H5 H6 H7 H8 H9]. pose proof S as [S1 S2].
  unfold go in E. destruct (pc y) as [| | |[|r rs]| | | | | | | |] eqn:Ep; try done.
  - assert (Hw : writer_ok y → writer_ y = RecordWriter_new header_ ∧ asked y = []) by (unfold writer_ok; rewrite Ep; naive_solver).
    destruct (existsb _ _); [injection E as <-; split; [|done]; apply (main_ok y); simpl; try done; [intros [_ Ha]%Hw; split; [done|by intros ?]|intros _; by rewrite Ep]|].
    assert (Hm : ∀ w b p, Open output_ (writer_ y) = (w, b) → (b = true ∧ p = MGet ∨ p = MFailed) → recorder_ok (goto p (set_writer w y))).
    { intros w b p Eo Hp. apply (main_ok y); simpl; try done; [|intros _; by rewrite Ep].
      intros [Hw1 Ha]%Hw. rewrite Hw1 in Eo. unfold writer_ok. simpl. destruct Hp as [[-> ->]| ->]; simpl; rewrite Ha; [|done]. rewrite Eo. simpl. by rewrite (open_closed w Eo). }
    destruct (Open output_ (writer_ y)) as [w [|]] eqn:Eo; injection E as <-; (split; [|done]); apply (Hm w _ _ eq_refl); naive_solver.
  - injection E as <-. split; [|split; simpl; [by right|by left]]. apply (main_ok y); simpl; try done; [unfold writer_ok; by rewrite Ep|intros _; by rewrite Ep].
  - injection E as <-. split; [|split; simpl; [|done]]; [apply (main_ok y); simpl; try done; [unfold writer_ok; by rewrite Ep|intros _; by rewrite Ep]|].
    intros r c x Hr Hc. destruct (S1 r c x Hr Hc) as [?|[]%elem_of_nil]; by left.
  - assert (R0 : recorder_ok (goto (MFind rs) y)) by (apply (main_ok y); simpl; try done; [unfold writer_ok; by rewrite Ep|intros _; by rewrite Ep]).
    destruct (find_ok r _ _ R0 eq_refl E) as (R1 & E1 & E2 & E3 & E4 & E5 & E6 & E7). split; [done|]. split; rewrite ?E1, ?E2, ?E3, ?E4; simpl; [|done].
    intros r' c x Hr Hc. destruct (S1 r' c x Hr Hc) as [?|[->|?]%elem_of_cons]; [left; by apply E6|left; by eapply E7|by right].
  - injection E as <-. split; [|done]. apply (main_ok y); simpl; try done; [unfold writer_ok; by rewrite Ep|intros _; by rewrite Ep].
  - injection E as <-. split; [|done]. destruct (H7 eq_refl) as (_ & Ew & Eh & Ei). split; simpl; try done.
    + intros Hf Hl. specialize (H1 Hf Hl). unfold writer_ok in *. by rewrite Ep in H1.
    + split; [apply H9|]. unfold calls_ok. simpl. rewrite Ew, Eh, Ei. apply calls_new.
  - injection E as <-. split; [|done]. apply (main_ok y); simpl; try done. unfold writer_ok. by rewrite Ep.
  - destruct (Close (writer_ y)) as [w|] eqn:Ec; [|done]. injection E as <-. split; [|done]. apply (main_ok y); simpl; try done.
    unfold writer_ok. rewrite Ep. simpl. intros []. by exists (writer_ y).
  - injection E as <-. split; [|done]. apply (main_ok y); simpl; try done. unfold writer_ok. by rewrite Ep.
  - injection E as <-. split; [|done]. apply (main_ok y); simpl; try done. unfold writer_ok. by rewrite Ep.
Qed.

Lemma step_ok y l y' : recorder_ok y ∧ seen_ok y → step y l = Some y' → recorder_ok y' ∧ seen_ok y'.
Proof using readers_made.
  intros [R S] E. pose proof R as [H1 H2 H3 H4 H5 H6 H7 H8 H9]. pose proof S as [S1 S2]. destruct l as [| |w j r|c m|c now]; simpl in E.
  - by apply (go_ok y).
  - destruct (pc y) eqn:Ep; try done. destruct (negb (is_started_ y) || is_stopping_ y); [by injection E as <-|]. injection E as <-. split; [|done]. apply (main_ok y); simpl; try done. unfold writer_ok. by rewrite Ep.
  - destruct (connected y) eqn:Econ.
    + specialize (H8 eq_refl). unfold TopologyCallback in E. set (y0 := note _ _ _ y) in E.
      assert (R0 : recorder_ok y0) by by split.
      assert (Hw : writing_ (pc y0) = true) by (simpl; by destruct (pc y)).
      destruct w; simpl in E; [|injection E as <-; split; [done|]; split; simpl; [apply S1|by destruct (pc y)]].
      destruct (find_ok r _ _ R0 Hw E) as (R1 & E1 & E2 & E3 & E4 & E5 & E6 & E7). split; [done|]. split; rewrite ?E1, ?E2, ?E3, ?E4; simpl.
      * intros r' c x Hr Hc. left. assert (Hr' : r' = r ∨ r' ∈ seen y) by (destruct j; [apply elem_of_app in Hr as [Hr|Hr%list_elem_of_singleton]; [by right|by left]|by right]).
        destruct Hr' as [->|Hr']; [by eapply E7|]. apply E6. destruct (S1 r' c x Hr' Hc) as [?|?]; [done|]. by destruct (pc y).
      * destruct (pc y); try done; (destruct j; [intros r' [Hr|Hr]%elem_of_app; [destruct (S2 r' Hr); [left; apply elem_of_app; by left|by right]|left; apply elem_of_app; by right]|done]).
    + injection E as <-. split; [split; try done; simpl; by rewrite Econ|]. split; simpl; [done|]. destruct (w && j); simpl; [|done]. destruct (pc y); try done; simpl; (intros r' [Hr|Hr]%elem_of_app; [destruct (S2 r' Hr); [by left|right; apply elem_of_app; by left]|right; apply elem_of_app; by right]).
  - destruct (channel_reader_map_ y !! c) as [t'|] eqn:Ec; [|injection E as <-; by split]. destruct (inflight y !! c) as [p|] eqn:Ei; [done|].
    destruct (is_started_ y) eqn:Est; injection E as <-; [|by split]. split; [|done]. split; simpl; try done.
    + intros Hs. destruct (H7 Hs). congruence.
    + destruct H9 as [H9 H10]. split; [rewrite dom_insert_L; apply union_subseteq; split; [|done]; apply singleton_subseteq_l, elem_of_dom; by eexists|].
      eapply calls_weaken; [exact (begin_inv _ _ _ _ _ _ c m H10 Ei)|]. simpl. rewrite !orb_false_iff. naive_solver.
  - destruct (inflight y !! c) as [p|] eqn:Ei; [|done]. destruct (ReaderCallback c now p y) as [[y1 q]|] eqn:Er; [|done]. injection E as <-.
    destruct (callback_ok c now p y y1 q R Ei Er) as (R1 & E1 & E2 & E3 & E4 & E5). split; [done|]. unfold seen_ok. by rewrite E1, E2, E3, E4, E5.
Qed.

Lemma run_recorder ls y : run step new_recorder ls = Some y → recorder_ok y ∧ seen_ok y.
Proof using readers_made.
  intros E. apply run_trace in E. eapply (trace_invariant _ (λ y, recorder_ok y ∧ seen_ok y)); [| |exact E]; [apply new_recorder_ok|]. intros a l b Ha Hab. by eapply step_ok.
Qed.

(** ** What is in the files *)

Context (keys_spec : ∀ m, keys m ≡ₚ (map_to_list m).*1).
Context `{!FileWriterLaws F}.

Lemma closed_segments w w' : Close w = Some w' → log_messages <$> (fw_log <$> segments w') = log_messages <$> (fw_log <$> segments w).
Proof using Type.
  unfold Close. destruct (is_opened_ w); [|by intros [= <-]]. destruct (file_writer_ w) as [f|] eqn:Ef; [|done]. intros [= <-]. unfold segments. rewrite Ef.
  cbn [destroyed file_writer_backup_ file_writer_ with_opened with_file_writer]. rewrite !fmap_app. do 2 f_equal. simpl. rewrite log_close, log_messages_app. simpl. by rewrite app_nil_r.
Qed.

(** C10: what was recorded is what was heard, with the callbacks of different
    channels interleaved in any way and with [Start] and [Stop]: when a recorder
    for which every reader could be made has been stopped, the writer never
    failed and no callback was still under way or came to the writer after it
    was closed, then the messages of its files, segment after segment, are those
    that reached the writer, in that order; for each channel their contents are
    those that the callbacks of the channel took, in order; every time in the
    files is one that a callback read, not always its own; at most as many were
    counted as were written; and if two callbacks were never under way at once,
    the files have exactly what the callbacks took, with their own times, and
    the count is right.  Every channel was written once, and every writer of a
    channel to be recorded that the recorder could see, because it was there
    when it asked or came while it listened, has its channel in the files. *)
Theorem recorder_keeps_what_it_hears ls y : run step new_recorder ls = Some y → pc y = MDone → failed y = false → late y = false → inflight y = ∅ →
  (0 <? segment_interval header_) || (0 <? segment_raw_size header_) = true →
  Forall (λ m, 0 < time m < 2 ^ 64) (heard y) → total_size (written y) < 2 ^ 64 → zlen (written y) < 2 ^ 64 →
  mjoin (log_messages <$> (fw_log <$> segments (writer_ y))) = written y ∧ (∀ c, on_channel c (written y) = on_channel c (heard y)) ∧
  (∀ m, m ∈ written y → time m ∈ time <$> heard y) ∧ 0 ≤ message_count_ y ≤ zlen (written y) ∧
  (overlapped y = false → written y = heard y ∧ message_count_ y = zlen (heard y)) ∧ NoDup (channels_asked (asked y)) ∧
  ∀ r c x, r ∈ topology y → recordable r = Some (c, x) → r ∈ missed y ∨ c ∈ channels_asked (asked y).
Proof using readers_made keys_spec.
  intros E Hp Hf Hl Hi Hseg Ht Hsz Hn. destruct (run_recorder ls y E) as [[H1 H2 H3 H4 H5 H6 _ _ [_ C]] [S1 S2]]. specialize (H1 Hf Hl). unfold writer_ok in H1. rewrite Hp in H1, S1, S2. destruct H1 as (w & Hr & Ho & Hc).
  destruct C as [C1 (C2 & _) [C3 _] C4]. rewrite Hi in C1, C3. rewrite Hf, orb_false_r in C4.
  assert (Eo : Open output_ (RecordWriter_new header_) = (opened, true)) by (unfold opened; by rewrite <- Ho, <- surjective_pairing).
  assert (Htw : Forall (λ m, 0 < time m < 2 ^ 64) (written y)).
  { eapply Forall_impl; [exact C2|]. intros m (m' & -> & Hm')%list_elem_of_fmap. rewrite Forall_forall in Ht. by apply Ht. }
  rewrite <- H2 in Htw, Hsz, Hn. destruct (segments_of_recording keys keys_spec output_ header_ opened (asked y) w Hseg Eo Hr H3 Htw Hsz Hn) as (_ & Hj & _).
  split_and!; [by rewrite (closed_segments _ _ Hc), Hj| | |lia|lia| |done|].
  - intros c. rewrite (C1 c). simpl. by rewrite lookup_empty, app_nil_r.
  - rewrite Forall_forall in C2. intros m. apply C2.
  - intros Hov. destruct (C4 Hov) as [(_ & -> & ->)|(c & p & Ec & _)].
    + split; [done|]. apply wrap_small. rewrite <- H2. unfold in_u, zlen in *. lia.
    + rewrite Hi in Ec. apply (f_equal (.!! c)) in Ec. by rewrite lookup_empty, lookup_singleton_eq in Ec.
  - intros r c x Hr' Hx. destruct (S2 r Hr') as [Hs|?]; [right|by left]. destruct (S1 r c x Hs Hx) as [Hd|[]]. rewrite H4 in Hd. apply H6. by apply elem_of_dom.
Qed.
End Recorder.

(** ** Runs *)

#[local] Existing Instances trace_writer trace_laws.

Definition writer_of (c : string) : RoleAttributes := mkAttr None None None None (Some c) None (Some "Type"%string) (Some "desc"%string) None None None.

(** All channels but [rosout]. *)
Definition demo_step : recorder (F := list call) → label → option recorder := step in_map_order "log" true [] ["rosout"%string] (λ _ _, true).
Definition demo_new : recorder (F := list call) := new_recorder short_segments.

(** A callback from its begin to its end. *)
Definition whole (c : string) (x : list Z) (now : Z) : list label := Hear c (Some x) :: replicate 6 (Turn c now).

Definition demo_start : list label := [Change true true (writer_of "pose"); Change true true (writer_of "rosout"); Go; Go; Go; Go; Go; Go; Go].
Definition demo_stop : list label := [CallStop; Go; Go; Go; Go].

(** The callback of [scan] takes its message while that of [pose] counts. *)
Definition demo_run : list label :=
  demo_start ++ whole "pose" [1] 5 ++ [Change true true (writer_of "scan"); Hear "pose" (Some [3]); Turn "pose" 15; Turn "pose" 16; Turn "pose" 16; Turn "pose" 16] ++
  whole "scan" [2] 17 ++ [Hear "rosout" (Some [9]); Turn "pose" 18; Turn "pose" 18] ++ demo_stop.

Definition demo_end : recorder (F := list call) := default demo_new (run demo_step demo_new demo_run).

Lemma demo_end_facts :
  run demo_step demo_new demo_run = Some demo_end ∧ pc demo_end = MDone ∧ failed demo_end = false ∧ late demo_end = false ∧ inflight demo_end = ∅ ∧
  written demo_end = [mkMessage "pose" 5 [1]; mkMessage "pose" 16 [3]; mkMessage "scan" 17 [2]] ∧ heard demo_end = written demo_end ∧ length (segments (writer_ demo_end)) = 2%nat.
Proof. vm_compute. done. Qed.

Lemma recorder_keeps_what_it_hears_witness :
  run demo_step demo_new demo_run = Some demo_end ∧ length (segments (writer_ demo_end)) = 2%nat ∧
  mjoin (log_messages <$> (fw_log <$> segments (writer_ demo_end))) = [mkMessage "pose" 5 [1]; mkMessage "pose" 16 [3]; mkMessage "scan" 17 [2]] ∧ message_count_ demo_end ≤ 3.
Proof.
  destruct demo_end_facts as (E & Hp & Hf & Hl & Hi & Hw & Hh & Hn). split; [exact E|]. split; [exact Hn|].
  destruct (recorder_keeps_what_it_hears in_map_order "log" true [] ["rosout"%string] short_segments (λ _ _, true) (λ _ _, eq_refl) (λ m, reflexivity _) demo_run demo_end E Hp Hf Hl Hi) as (H1 & _ & _ & H2 & _).
  - reflexivity.
  - rewrite Hh, Hw. repeat apply Forall_cons_2; [simpl; lia..|apply Forall_nil_2].
  - rewrite Hw. reflexivity.
  - rewrite Hw. reflexivity.
  - rewrite Hw in H1, H2. split; [exact H1|exact (proj2 H2)].
Defined.

(** The callbacks of two channels count at once: a message is written and not
    counted. *)
Theorem counts_get_lost :
  ∃ y, run demo_step demo_new (demo_start ++ [Change true true (writer_of "scan")] ++ [Hear "pose" (Some [1]); Hear "scan" (Some [2])] ++
      replicate 5 (Turn "pose" 5) ++ replicate 6 (Turn "scan" 6) ++ [Turn "pose" 7]) = Some y ∧
    written y = [mkMessage "pose" 5 [1]; mkMessage "scan" 6 [2]] ∧ failed y = false ∧ inflight y = ∅ ∧ message_count_ y = 1.
Proof. eexists. split; [vm_compute; reflexivity|]. split_and!; vm_compute; reflexivity. Qed.

(** The callback of another channel reads the clock between the two uses of
    [message_time_]: the message gets the time of the other one. *)
Theorem time_of_another_message :
  ∃ y, run demo_step demo_new (demo_start ++ [Change true true (writer_of "scan")] ++ [Hear "pose" (Some [1]); Hear "scan" (Some [2])] ++
      [Turn "pose" 5; Turn "pose" 5; Turn "scan" 9; Turn "scan" 9; Turn "pose" 9; Turn "pose" 9]) = Some y ∧
    heard y = [mkMessage "pose" 5 [1]; mkMessage "scan" 9 [2]] ∧ written y = [mkMessage "pose" 9 [1]].
Proof. eexists. split; [vm_compute; reflexivity|]. split_and!; vm_compute; reflexivity. Qed.

(** [Stop] does not wait for the callbacks: one that is past its tests gives its
    message to the writer after that was closed, and counts it. *)
Theorem message_after_the_close :
  ∃ y, run demo_step demo_new (demo_start ++ [Hear "pose" (Some [1]); Turn "pose" 5; Turn "pose" 5; Turn "pose" 5] ++ demo_stop ++ replicate 3 (Turn "pose" 6)) = Some y ∧
    pc y = MDone ∧ failed y = false ∧ message_count_ y = 1 ∧
    fw_log <$> file_writer_ (writer_ y) = Some ((default [] (fw_log <$> file_writer_ (default (RecordWriter_new short_segments) (writer_ <$> run demo_step demo_new (demo_start ++ demo_stop))))) ++ [CMessage (mkMessage "pose" 5 [1])]) ∧
    last (default [] (fw_log <$> file_writer_ (default (RecordWriter_new short_segments) (writer_ <$> run demo_step demo_new (demo_start ++ demo_stop))))) = Some CClose.
Proof. eexists. split; [vm_compute; reflexivity|]. split_and!; vm_compute; reflexivity. Qed.

(** A writer that comes between [GetWriters] and [AddChangeListener] is not
    recorded. *)
Theorem writer_in_between_is_missed :
  ∃ y, run demo_step demo_new [Go; Go; Change true true (writer_of "pose"); Go; Go; Go] = Some y ∧
    run demo_step y [Hear "pose" (Some [1])] = Some y ∧ pc y = MRun ∧ topology y = [writer_of "pose"] ∧ channel_reader_map_ y = ∅ ∧ written y = [].
Proof. eexists. split; [vm_compute; reflexivity|]. split_and!; vm_compute; reflexivity. Qed.

(** What a reader hears before [Start] is at its end is dropped. *)
Theorem early_message_is_dropped :
  ∃ y, run demo_step demo_new [Change true true (writer_of "pose"); Go; Go; Go; Hear "pose" (Some [1]); Go; Go; Go] = Some y ∧
    pc y = MRun ∧ channel_reader_map_ y !! "pose"%string = Some "Type"%string ∧ written y = [] ∧ inflight y = ∅.
Proof. eexists. split; [vm_compute; reflexivity|]. split_and!; vm_compute; reflexivity. Qed.

(** A writer that goes counts as one that comes: [TopologyCallback] does not look
    whether it joins or leaves. *)
Theorem leaving_writer_is_announced :
  ∃ y, run demo_step demo_new [Go; Go; Go; Go; Go; Change true false (writer_of "pose")] = Some y ∧ topology y = [] ∧ asked y = [ReqChannel "pose" "Type" "desc"].
Proof. eexists. split; [vm_compute; reflexivity|]. split_and!; vm_compute; reflexivity. Qed.
