(* ===== verification/Time.v ===== *)
(** * Time

    [Time], [Duration], [Rate] and [Clock] ([src/code/cyber/time/]) and the
    conversions between UNIX and GPS time
    ([src/code/cyber/common/time_conversion.h]), on machine integers; the
    conversions from and to floating point numbers are left out, those from and
    to strings are in CommandLine.
    The system clock is an argument. *)

From stdpp Require Import base list.
From S2P Require Import Prelude.

(** ** [Time], [Duration]: nanoseconds, unsigned and signed *)

Record Time := mkTime { t_nanoseconds : Z }.
Record Duration := mkDuration { d_nanoseconds : Z }.

Definition Time_of (seconds nanoseconds : Z) : Time := mkTime (u64 (u64 (seconds * 1000000000) + nanoseconds)).
Definition Duration_of (seconds nanoseconds : Z) : Duration := mkDuration (i64 (u64 (seconds * 1000000000) + nanoseconds)).
Definition Time_MAX : Time := mkTime (2 ^ 64 - 1).
Definition Time_MIN : Time := mkTime 0.

Definition Time_IsZero (t : Time) : bool := t_nanoseconds t =? 0.
Definition Time_diff (a b : Time) : Duration := mkDuration (i64 (u64 (t_nanoseconds a - t_nanoseconds b))).
(** The signed count is converted to an unsigned one before it is added. *)
Definition Time_add (t : Time) (d : Duration) : Time := mkTime (u64 (t_nanoseconds t + u64 (d_nanoseconds d))).
Definition Time_sub (t : Time) (d : Duration) : Time := mkTime (u64 (t_nanoseconds t - u64 (d_nanoseconds d))).
Definition Time_lt (a b : Time) : bool := t_nanoseconds a <? t_nanoseconds b.
Definition Time_le (a b : Time) : bool := t_nanoseconds a <=? t_nanoseconds b.

Definition Duration_IsZero (d : Duration) : bool := d_nanoseconds d =? 0.
Definition Duration_add (a b : Duration) : Duration := mkDuration (i64 (d_nanoseconds a + d_nanoseconds b)).
Definition Duration_sub (a b : Duration) : Duration := mkDuration (i64 (d_nanoseconds a - d_nanoseconds b)).
Definition Duration_opp (d : Duration) : Duration := mkDuration (i64 (- d_nanoseconds d)).
Definition Duration_lt (a b : Duration) : bool := d_nanoseconds a <? d_nanoseconds b.

Definition time_wf (t : Time) : Prop := in_u 64 (t_nanoseconds t).
Definition duration_wf (d : Duration) : Prop := in_s 64 (d_nanoseconds d).

(** Adding a duration and taking it off again, and the difference of two times:
    exact, whatever wraps around. *)
Lemma time_add_sub t d : time_wf t → Time_sub (Time_add t d) d = t.
Proof.
  destruct t as [t], d as [d]. unfold time_wf, Time_sub, Time_add. simpl. intros Ht. f_equal.
  rewrite wrap_sub_l. rewrite <- (wrap_small 64 t Ht) at 2. f_equal. lia.
Qed.

Lemma time_add_diff a b : time_wf a → Time_add b (Time_diff a b) = a.
Proof.
  destruct a as [a], b as [b]. unfold time_wf, Time_diff, Time_add. simpl. intros Ha. f_equal.
  rewrite wrap_swrap, !wrap_add_r by lia. rewrite <- (wrap_small 64 a Ha) at 2. f_equal. lia.
Qed.

Lemma time_diff_exact a b : time_wf a → time_wf b → - 2 ^ 63 ≤ t_nanoseconds a - t_nanoseconds b < 2 ^ 63 → d_nanoseconds (Time_diff a b) = t_nanoseconds a - t_nanoseconds b.
Proof. intros Ha Hb H. simpl. rewrite swrap_wrap. apply swrap_small; unfold in_s; lia. Qed.

(** ** [Rate] *)

Record Rate := mkRate { start_ : Time; expected_cycle_time_ : Duration; actual_cycle_time_ : Duration }.

Definition Rate_new (now : Time) (d : Duration) : Rate := mkRate now d (mkDuration 0).
Definition Rate_Reset (now : Time) (r : Rate) : Rate := mkRate now (expected_cycle_time_ r) (actual_cycle_time_ r).
Definition CycleTime (r : Rate) : Duration := actual_cycle_time_ r.

(** [Sleep] when the clock says [actual_end]; what it sleeps until, if it does. *)
Definition Rate_Sleep (actual_end : Time) (r : Rate) : Rate * option Time :=
  let expected_end := Time_add (start_ r) (expected_cycle_time_ r) in
  let expected_end := if Time_lt actual_end (start_ r) then Time_add actual_end (expected_cycle_time_ r) else expected_end in
  let sleep_time := Time_diff expected_end actual_end in
  let actual := Time_diff actual_end (start_ r) in
  if Duration_lt sleep_time (mkDuration 0) then
    let start := if Time_lt (Time_add expected_end (expected_cycle_time_ r)) actual_end then actual_end else expected_end in
    (mkRate start (expected_cycle_time_ r) actual, None)
  else (mkRate expected_end (expected_cycle_time_ r) actual, Some expected_end).

(** A loop: the clock at the end of each turn's work. *)
Fixpoint turns (ends : list Z) (r : Rate) : Rate * list (option Z) :=
  match ends with
  | [] => (r, [])
  | t :: ends =>
      let '(r, s) := Rate_Sleep (mkTime t) r in
      let '(r, ss) := turns ends r in (r, (t_nanoseconds <$> s) :: ss)
  end.

Lemma Time_lt_false a b : b ≤ a → Time_lt (mkTime a) (mkTime b) = false.
Proof. intros H. by apply Z.ltb_ge. Qed.

Lemma Time_add_small s e : 0 ≤ s + e < 2 ^ 64 → Time_add (mkTime s) (mkDuration e) = mkTime (s + e).
Proof. intros H. unfold Time_add. simpl. f_equal. rewrite wrap_add_r. by apply wrap_small. Qed.

Section Rate.
Context (e : Z) (cycle : 0 ≤ e < 2 ^ 62).

Lemma sleep_on_time s t a : 0 ≤ s → s ≤ t ≤ s + 2 * e → s + 2 * e < 2 ^ 64 →
  ∃ a', Rate_Sleep (mkTime t) (mkRate (mkTime s) (mkDuration e) a) = (mkRate (mkTime (s + e)) (mkDuration e) a', if t <=? s + e then Some (mkTime (s + e)) else None).
Proof using cycle.
  intros Hs Ht Hb. unfold Rate_Sleep. cbn [start_ expected_cycle_time_]. rewrite (Time_lt_false t s) by lia. rewrite (Time_add_small s) by lia.
  unfold Duration_lt. rewrite time_diff_exact by (unfold time_wf, in_u; simpl; lia). rewrite (Time_add_small (s + e)) by lia. rewrite (Time_lt_false (s + e + e) t) by lia. simpl.
  destruct (Z.ltb_spec (s + e - t) 0), (Z.leb_spec t (s + e)); try lia; by eexists.
Qed.

Lemma turns_on_time ends : ∀ s a, 0 ≤ s → s + (zlen ends + 1) * e < 2 ^ 64 →
  (∀ i t, ends !! i = Some t → s + Z.of_nat i * e ≤ t ≤ s + (Z.of_nat i + 2) * e) →
  ∃ a', turns ends (mkRate (mkTime s) (mkDuration e) a) =
    (mkRate (mkTime (s + zlen ends * e)) (mkDuration e) a',
     imap (λ i t, let w := s + (Z.of_nat i + 1) * e in if t <=? w then Some w else None) ends).
Proof using cycle.
  induction ends as [|t ends IH]; intros s a Hs Hb He; [exists a; unfold zlen; simpl; by rewrite Z.add_0_r|].
  assert (Hz : zlen (t :: ends) = zlen ends + 1) by (unfold zlen; simpl; lia). assert (0 ≤ zlen ends) by (unfold zlen; lia). rewrite Hz in *.
  pose proof (He 0%nat t eq_refl) as Ht. simpl in Ht. cbn [turns].
  destruct (sleep_on_time s t a) as (a1 & E); [done|lia|nia|]. rewrite E.
  destruct (IH (s + e) a1) as (a' & E'); [lia|nia|intros i u Hi; pose proof (He (S i) u Hi); nia|]. rewrite E'. exists a'. simpl. f_equal; [do 2 f_equal; lia|]. f_equal.
  - replace (s + (Z.of_nat 0 + 1) * e) with (s + e) by lia. by destruct (t <=? s + e).
  - apply imap_ext. intros i u _. simpl. replace (s + e + (Z.of_nat i + 1) * e) with (s + (Z.of_nat (S i) + 1) * e) by lia. done.
Qed.

(** Property: a loop that sleeps by a [Rate] does not drift: as long as no turn ends
    more than one cycle after its time, the [i]-th turn sleeps until the start
    plus [i + 1] cycles exactly, or not at all when that time is over, and turns
    that are late are made up for. *)
Theorem rate_does_not_drift now ends : 0 ≤ now → now + (zlen ends + 1) * e < 2 ^ 64 →
  (∀ i t, ends !! i = Some t → now + Z.of_nat i * e ≤ t ≤ now + (Z.of_nat i + 2) * e) →
  ∃ r, turns ends (Rate_new (mkTime now) (mkDuration e)) =
    (r, imap (λ i t, let w := now + (Z.of_nat i + 1) * e in if t <=? w then Some w else None) ends) ∧ t_nanoseconds (start_ r) = now + zlen ends * e.
Proof using cycle. intros Hn Hb He. destruct (turns_on_time ends now (mkDuration 0) Hn Hb He) as (a & E). eexists. by split. Qed.
End Rate.

Lemma rate_does_not_drift_witness :
  ∃ r, turns [105; 125; 129] (Rate_new (mkTime 100) (mkDuration 10)) = (r, [Some 110; None; Some 130]) ∧ t_nanoseconds (start_ r) = 130.
Proof.
  apply (rate_does_not_drift 10 ltac:(lia) 100 [105; 125; 129]).
  - lia.
  - unfold zlen. simpl. lia.
  - intros i t Hi. do 3 (destruct i as [|i]; [injection Hi as <-; lia|]). done.
Defined.

(** More than a cycle late: the cycles begin anew. *)
Theorem late_turn_resets_rate s t e a : 0 ≤ e < 2 ^ 62 → 0 ≤ s → s + 2 * e < t → t < s + 2 ^ 63 → t < 2 ^ 64 →
  ∃ a', Rate_Sleep (mkTime t) (mkRate (mkTime s) (mkDuration e) a) = (mkRate (mkTime t) (mkDuration e) a', None).
Proof.
  intros He Hs Ht Hd Hb. unfold Rate_Sleep. cbn [start_ expected_cycle_time_]. rewrite (Time_lt_false t s) by lia. rewrite (Time_add_small s) by lia.
  unfold Duration_lt. rewrite time_diff_exact by (unfold time_wf, in_u; simpl; lia). rewrite (Time_add_small (s + e)) by lia. simpl.
  rewrite (proj2 (Z.ltb_lt _ _)) by lia. unfold Time_lt. simpl. rewrite (proj2 (Z.ltb_lt _ _)) by lia. by eexists.
Qed.

(** ** [Clock] *)

Inductive ClockMode := MODE_CYBER | MODE_MOCK.
Record Clock := mkClock { mode_ : ClockMode; mock_now_ : Time }.

Definition Clock_new (clock_mode : ClockMode) : Clock := mkClock clock_mode (mkTime 0).
Definition Clock_Now (system : Time) (c : Clock) : Time := match mode_ c with MODE_CYBER => system | MODE_MOCK => mock_now_ c end.
Definition SetMode (mode : ClockMode) (c : Clock) : Clock := mkClock mode (mkTime 0).
Definition SetNow (now : Time) (c : Clock) : Clock := match mode_ c with MODE_MOCK => mkClock MODE_MOCK now | MODE_CYBER => c end.

Inductive clock_call := CallSetMode (m : ClockMode) | CallSetNow (t : Time).
Definition clock_exec (c : Clock) (x : clock_call) : Clock := match x with CallSetMode m => SetMode m c | CallSetNow t => SetNow t c end.

(** The time that was set since the clock is a mock. *)
Fixpoint last_set (m : ClockMode) (t : Time) (xs : list clock_call) : option Time :=
  match xs with
  | [] => match m with MODE_MOCK => Some t | MODE_CYBER => None end
  | CallSetMode m :: xs => last_set m (mkTime 0) xs
  | CallSetNow t' :: xs => last_set m (match m with MODE_MOCK => t' | MODE_CYBER => t end) xs
  end.

(** A mock clock shows the time that was set last since the mode was set, and 0
    before; the other one the system's. *)
Theorem clock_shows_last_set xs system : ∀ c, Clock_Now system (foldl clock_exec c xs) = default system (last_set (mode_ c) (mock_now_ c) xs).
Proof.
  induction xs as [|[m|t] xs IH]; intros [[|] now]; simpl; try done; by rewrite IH.
Qed.

(** ** UNIX and GPS time *)

Definition LEAP_SECONDS : list (Z * Z) := [(1483228800, 18); (1435708800, 17); (1341100800, 16); (1230768000, 15); (1136073600, 14)].
Definition UNIX_GPS_DIFF : Z := 315964800.
Definition ONE_MILLION : Z := 1000000.
Definition ONE_BILLION : Z := 1000000000.

(** The template at [int64_t]. *)
Fixpoint unix_to_gps (table : list (Z * Z)) (unix_seconds : Z) : Z :=
  match table with
  | [] => 0
  | (from, leap) :: table => if from <=? unix_seconds then i64 (unix_seconds - (UNIX_GPS_DIFF - leap)) else unix_to_gps table unix_seconds
  end.
Definition UnixToGpsSeconds : Z → Z := unix_to_gps LEAP_SECONDS.

(** The result is compared as an [int32_t]. *)
Fixpoint gps_to_unix (table : list (Z * Z)) (gps_seconds : Z) : Z :=
  match table with
  | [] => 0
  | (from, leap) :: table =>
      let result := i64 (gps_seconds + (UNIX_GPS_DIFF - leap)) in
      if from <=? i32 result then result else gps_to_unix table gps_seconds
  end.
Definition GpsToUnixSeconds : Z → Z := gps_to_unix LEAP_SECONDS.

Definition UnixToGpsMicroseconds (t : Z) : Z := i64 (i64 (UnixToGpsSeconds (Z.quot t ONE_MILLION) * ONE_MILLION) + Z.rem t ONE_MILLION).
Definition UnixToGpsNanoseconds (t : Z) : Z := i64 (i64 (UnixToGpsSeconds (Z.quot t ONE_BILLION) * ONE_BILLION) + Z.rem t ONE_BILLION).
Definition GpsToUnixMicroseconds (t : Z) : Z := i64 (i64 (GpsToUnixSeconds (Z.quot t ONE_MILLION) * ONE_MILLION) + Z.rem t ONE_MILLION).
Definition GpsToUnixNanoseconds (t : Z) : Z := i64 (i64 (GpsToUnixSeconds (Z.quot t ONE_BILLION) * ONE_BILLION) + Z.rem t ONE_BILLION).

(** The seconds that the table covers, before those that do not fit into 31 bits. *)
Definition covered (unix_seconds : Z) : Prop := 1136073600 ≤ unix_seconds < 2 ^ 31.

(** The seconds inserted, in GPS time. *)
Definition leap_second (gps_seconds : Z) : Prop := gps_seconds ∈ (λ x, x.1 - UNIX_GPS_DIFF + x.2 - 1) <$> LEAP_SECONDS.

Ltac seconds := repeat match goal with
  | |- context [i64 ?z] => rewrite (swrap_small 64 ltac:(lia) z) by (unfold in_s; lia)
  | |- context [i32 ?z] => rewrite (swrap_small 32 ltac:(lia) z) by (unfold in_s; lia)
  | |- context [?a <=? ?b] => destruct (Z.leb_spec a b)
  end.

Lemma unix_gps_unix u : covered u → GpsToUnixSeconds (UnixToGpsSeconds u) = u ∧ 820000000 < UnixToGpsSeconds u < 2 ^ 31.
Proof.
  unfold covered, UnixToGpsSeconds, GpsToUnixSeconds, LEAP_SECONDS, UNIX_GPS_DIFF. intros Hu. cbn [unix_to_gps]. unfold UNIX_GPS_DIFF at 1 2 3 4 5.
  repeat match goal with |- context [?a <=? u] => destruct (Z.leb_spec a u) end; cbn [gps_to_unix]; unfold UNIX_GPS_DIFF; seconds; lia.
Qed.

Lemma gps_unix_gps g : covered (GpsToUnixSeconds g) → 0 ≤ g < 2 ^ 31 - UNIX_GPS_DIFF → 
  UnixToGpsSeconds (GpsToUnixSeconds g) = if decide (leap_second g) then g + 1 else g.
Proof.
  unfold covered, UnixToGpsSeconds, GpsToUnixSeconds, LEAP_SECONDS, UNIX_GPS_DIFF. intros Hc Hg.
  assert (Hl : leap_second g ↔ g = 1167264017 ∨ g = 1119744016 ∨ g = 1025136015 ∨ g = 914803214 ∨ g = 820108813).
  { unfold leap_second, LEAP_SECONDS, UNIX_GPS_DIFF. simpl. rewrite !elem_of_cons, elem_of_nil. lia. }
  revert Hc. cbn [gps_to_unix]. unfold UNIX_GPS_DIFF. seconds; cbn [unix_to_gps]; unfold UNIX_GPS_DIFF; seconds; intros Hc; destruct (decide (leap_second g)) as [H'|H']; rewrite Hl in H'; lia.
Qed.

(** Property: UNIX time, GPS time and back: exact, to the nanosecond, for the years
    that the table covers until 2038; and from GPS time and back, but that an
    inserted leap second, which UNIX time does not have, becomes the next one. *)
Theorem gps_time_round_trip t : covered (Z.quot t ONE_BILLION) →
  GpsToUnixNanoseconds (UnixToGpsNanoseconds t) = t ∧
  ∀ g, covered (GpsToUnixSeconds g) → 0 ≤ g < 2 ^ 31 - UNIX_GPS_DIFF → UnixToGpsSeconds (GpsToUnixSeconds g) = if decide (leap_second g) then g + 1 else g.
Proof.
  intros Hc. split; [|intros g; apply gps_unix_gps]. destruct (unix_gps_unix _ Hc) as [E B]. unfold GpsToUnixNanoseconds, UnixToGpsNanoseconds.
  unfold covered in Hc. assert (Ht : 0 ≤ t) by (destruct (Z.le_gt_cases 0 t); [done|]; pose proof (Z.quot_opp_l (- t) ONE_BILLION ltac:(done)); pose proof (Z.quot_pos (- t) ONE_BILLION); rewrite Z.opp_involutive in *; unfold ONE_BILLION in *; lia).
  pose proof (Z.quot_rem' t ONE_BILLION) as Eq. pose proof (Z.rem_bound_pos t ONE_BILLION Ht ltac:(done)) as Hr.
  set (s := UnixToGpsSeconds (Z.quot t ONE_BILLION)) in *. set (r := Z.rem t ONE_BILLION) in *. unfold ONE_BILLION in *.
  rewrite !(swrap_small 64 ltac:(lia) (s * 1000000000)), (swrap_small 64 ltac:(lia) (s * 1000000000 + r)) by (unfold in_s; lia).
  assert (Eq1 : Z.quot (s * 1000000000 + r) 1000000000 = s) by (rewrite Z.quot_div_nonneg by lia; rewrite Z.div_add_l by lia; rewrite (Z.div_small r) by lia; lia).
  assert (Eq2 : Z.rem (s * 1000000000 + r) 1000000000 = r) by (rewrite Z.rem_mod_nonneg by lia; rewrite Z.add_comm, Z.mod_add by lia; apply Z.mod_small; lia).
  rewrite Eq1, Eq2, E. rewrite (swrap_small 64 ltac:(lia) (Z.quot t 1000000000 * 1000000000)), swrap_small by (unfold in_s; lia). lia.
Qed.

Lemma gps_time_round_trip_witness :
  GpsToUnixNanoseconds (UnixToGpsNanoseconds 1483228800000000001) = 1483228800000000001 ∧ UnixToGpsSeconds (GpsToUnixSeconds 914803214) = 914803215.
Proof.
  destruct (gps_time_round_trip 1483228800000000001) as [H1 H2]; [vm_compute; split; [discriminate|reflexivity]|].
  split; [exact H1|]. rewrite (H2 914803214); [|vm_compute; split; [discriminate|reflexivity]|unfold UNIX_GPS_DIFF; lia].
  vm_compute. reflexivity.
Defined.

(** From 2038 on the comparison, which is done on 32 bits, fails: the result is
    0. *)
Theorem gps_time_ends_in_2038 : GpsToUnixSeconds (UnixToGpsSeconds (2 ^ 31)) = 0.
Proof. vm_compute. reflexivity. Qed.

(** Times before the table are 0, although GPS time began in 1980. *)
Theorem gps_time_begins_in_2006 u : u < 1136073600 → UnixToGpsSeconds u = 0.
Proof. intros H. unfold UnixToGpsSeconds, LEAP_SECONDS. cbn [unix_to_gps]. repeat (rewrite (proj2 (Z.leb_gt _ _)) by lia). done. Qed.
