(* ===== verification/Poller.v ===== *)
(** * Polling

    [Poller] ([src/code/cyber/io/poller.h], [poller.cc]) watches file descriptors
    for the coroutines: requests are put into a table and their changes into
    another one, which the thread of the poller hands to [epoll]; it answers a
    request when an event comes or its time is over.  [PollHandler]
    ([poll_handler.cc]) makes a coroutine wait for an answer.  [epoll] itself is
    an interface with the laws of its manual page. *)

From stdpp Require Import base list gmap.
From S2P Require Import Prelude.

(** ** [epoll] *)

Inductive operation := EPOLL_CTL_ADD | EPOLL_CTL_MOD | EPOLL_CTL_DEL.

(** [registered] is what an instance watches; a call that fails changes
    nothing: adding what is there ([EEXIST]), changing or deleting what is not
    ([ENOENT]).  The other failures of the manual page are taken not to occur: the
    descriptors are open ([EBADF]), stay so while they are registered (closing one
    removes it) and can be watched ([EPERM]), and there is room ([ENOSPC],
    [ENOMEM]). *)
Class Epoll (K : Type) := {
  registered : K → gmap Z Z;
  epoll_ctl : operation → Z → Z → K → K;
  ctl_add fd e k : registered (epoll_ctl EPOLL_CTL_ADD fd e k) = match registered k !! fd with None => <[fd := e]> (registered k) | Some _ => registered k end;
  ctl_mod fd e k : registered (epoll_ctl EPOLL_CTL_MOD fd e k) = match registered k !! fd with None => registered k | Some _ => <[fd := e]> (registered k) end;
  ctl_del fd e k : registered (epoll_ctl EPOLL_CTL_DEL fd e k) = delete fd (registered k);
}.

Section Poller.
Context {K : Type} `{!Epoll K} {C : Type}.

(** ** State *)

Record PollRequest := mkRequest { events : Z; timeout_ms : Z; callback : C }.

Definition with_timeout (t : Z) (r : PollRequest) : PollRequest := mkRequest (events r) t (callback r).

(** Where the thread is: between two turns, handing on the changes it has taken,
    about to wait, or answering.  The lock is taken for each of these steps. *)
Inductive phase := AtChanges | AtCtl (local_params : list (Z * (operation * Z))) | AtPoll | AtRespond (responses : list (Z * Z)).

(** [answers] and [overtaken] are not part of the program: the calls of
    callbacks, and whether a change came upon one of the same descriptor that
    the thread had not taken yet. *)
Record Poller := mkPoller {
  is_shutdown_ : bool; requests_ : gmap Z PollRequest; ctrl_params_ : gmap Z (operation * Z); epoll_fd_ : K;
  thread_ : phase; answers : list (Z * C * Z); overtaken : bool }.

Definition kPollTimeoutMs : Z := 100.

Definition EPOLLIN : Z := 1.

(** [Init], with the descriptor of the pipe and the callback that empties it. *)
Definition Init (k : K) (pipe : Z) (drain : C) : Poller :=
  mkPoller false {[pipe := mkRequest EPOLLIN (-1) drain]} {[pipe := (EPOLL_CTL_ADD, EPOLLIN)]} k AtChanges [] false.

Definition change (fd : Z) (c : operation * Z) (r : option PollRequest) (y : Poller) : Poller :=
  mkPoller (is_shutdown_ y) (partial_alter (λ _, r) fd (requests_ y)) (<[fd := c]> (ctrl_params_ y)) (epoll_fd_ y) (thread_ y) (answers y)
    (overtaken y || bool_decide (is_Some (ctrl_params_ y !! fd))).

(** [None] is the callback [nullptr]. *)
Definition Register (fd ev timeout : Z) (cb : option C) (y : Poller) : Poller * bool :=
  if is_shutdown_ y then (y, false)
  else
    match cb with
    | None => (y, false)
    | Some cb =>
        if fd <? 0 then (y, false)
        else
          let op := match requests_ y !! fd with None => EPOLL_CTL_ADD | Some _ => EPOLL_CTL_MOD end in
          (change fd (op, ev) (Some (mkRequest ev timeout cb)) y, true)
    end.

Definition Unregister (fd : Z) (cb : option C) (y : Poller) : Poller * bool :=
  if is_shutdown_ y then (y, false)
  else
    match cb with
    | None => (y, false)
    | Some _ =>
        if fd <? 0 then (y, false)
        else match requests_ y !! fd with None => (y, false) | Some _ => (change fd (EPOLL_CTL_DEL, 0) None y, true) end
    end.

(** ** The thread *)

Definition at_phase (p : phase) (y : Poller) : Poller :=
  mkPoller (is_shutdown_ y) (requests_ y) (ctrl_params_ y) (epoll_fd_ y) p (answers y) (overtaken y).

(** [HandleChanges]: the swap, and one call for each change. *)
Definition take_changes (y : Poller) : Poller :=
  mkPoller (is_shutdown_ y) (requests_ y) ∅ (epoll_fd_ y) (AtCtl (map_to_list (ctrl_params_ y))) (answers y) (overtaken y).

Definition apply_change (k : K) (x : Z * (operation * Z)) : K := epoll_ctl x.2.1 x.1 x.2.2 k.

Definition hand_on (x : Z * (operation * Z)) (l : list (Z * (operation * Z))) (y : Poller) : Poller :=
  mkPoller (is_shutdown_ y) (requests_ y) (ctrl_params_ y) (apply_change (epoll_fd_ y) x) (AtCtl l) (answers y) (overtaken y).

Definition shorter (r : PollRequest) (t : Z) : Z := if (0 <=? timeout_ms r) && (timeout_ms r <? t) then timeout_ms r else t.

Definition GetTimeoutMs (y : Poller) : Z := foldr shorter kPollTimeoutMs (map_to_list (requests_ y)).*2.

Definition interval (elapsed_ms : Z) : Z := if elapsed_ms =? 0 then 1 else elapsed_ms.

(** The time of one request goes on; true: it is over. *)
Definition elapse (interval_ms : Z) (r : PollRequest) : PollRequest * bool :=
  let t := if 0 <? timeout_ms r then Z.max 0 (timeout_ms r - interval_ms) else timeout_ms r in
  if t =? 0 then (with_timeout (-1) r, true) else (with_timeout t r, false).

(** Those with a pending change are passed over. *)
Definition elapse_all (interval_ms : Z) (y : Poller) : gmap Z (PollRequest * bool) :=
  map_imap (λ fd r, Some (if ctrl_params_ y !! fd then (r, false) else elapse interval_ms r)) (requests_ y).

Definition put_response (m : gmap Z Z) (e : Z * Z) : gmap Z Z := <[e.1 := e.2]> m.

Definition responses (over : gmap Z (PollRequest * bool)) (ready : list (Z * Z)) : gmap Z Z :=
  foldl put_response (omap (λ x : PollRequest * bool, if x.2 then Some 0 else None) over) ready.

(** [Poll], when [epoll_wait] took [elapsed_ms] and gave [ready]: what it
    collects, *)
Definition collect (elapsed_ms : Z) (ready : list (Z * Z)) (y : Poller) : Poller :=
  let over := elapse_all (interval elapsed_ms) y in
  mkPoller (is_shutdown_ y) (fst <$> over) (ctrl_params_ y) (epoll_fd_ y) (AtRespond (map_to_list (responses over ready))) (answers y) (overtaken y).

(** and its answer to one request. *)
Definition respond (fd ev : Z) (l : list (Z * Z)) (y : Poller) : Poller :=
  match requests_ y !! fd with
  | Some r => mkPoller (is_shutdown_ y) (<[fd := with_timeout (-1) r]> (requests_ y)) (ctrl_params_ y) (epoll_fd_ y) (AtRespond l) (answers y ++ [(fd, callback r, ev)]) (overtaken y)
  | None => at_phase (AtRespond l) y
  end.

(** [ThreadFunc], a step; the loop ends between two turns. *)
Definition ThreadFunc (elapsed_ms : Z) (ready : list (Z * Z)) (y : Poller) : option Poller :=
  match thread_ y with
  | AtChanges => if is_shutdown_ y then None else Some (take_changes y)
  | AtCtl [] => Some (at_phase AtPoll y)
  | AtCtl (x :: l) => Some (hand_on x l y)
  | AtPoll => Some (collect elapsed_ms ready y)
  | AtRespond [] => Some (at_phase AtChanges y)
  | AtRespond ((fd, ev) :: l) => Some (respond fd ev l y)
  end.

(** [Shutdown]: the flag, and [Clear] when the thread has ended. *)
Definition Shutdown (y : Poller) : Poller :=
  mkPoller true (requests_ y) (ctrl_params_ y) (epoll_fd_ y) (thread_ y) (answers y) (overtaken y).

Definition Clear (y : Poller) : option Poller :=
  match thread_ y with
  | AtChanges => if is_shutdown_ y then Some (mkPoller true ∅ ∅ (epoll_fd_ y) AtChanges (answers y) (overtaken y)) else None
  | _ => None
  end.

Inductive label :=
  | DoRegister (fd ev timeout : Z) (cb : option C)
  | DoUnregister (fd : Z) (cb : option C)
  | DoThread (elapsed_ms : Z) (ready : list (Z * Z))
  | DoShutdown
  | DoClear.

Definition exec (y : Poller) (l : label) : option Poller :=
  match l with
  | DoRegister fd ev t cb => Some (Register fd ev t cb y).1
  | DoUnregister fd cb => Some (Unregister fd cb y).1
  | DoThread d ready => ThreadFunc d ready y
  | DoShutdown => Some (Shutdown y)
  | DoClear => Clear y
  end.

(** ** What [epoll] watches *)

(** What a call makes of the entry of its descriptor. *)
Definition entry_after (c : operation * Z) (x : option Z) : option Z :=
  match c.1, x with
  | EPOLL_CTL_ADD, None => Some c.2
  | EPOLL_CTL_ADD, Some e => Some e
  | EPOLL_CTL_MOD, None => None
  | EPOLL_CTL_MOD, Some _ => Some c.2
  | EPOLL_CTL_DEL, _ => None
  end.

Lemma registered_ctl c fd k : registered (epoll_ctl c.1 fd c.2 k) !! fd = entry_after c (registered k !! fd).
Proof.
  destruct c as [[] e]; simpl; rewrite ?ctl_add, ?ctl_mod, ?ctl_del; unfold entry_after; simpl; [| |by simplify_map_eq].
  all: destruct (registered k !! fd) eqn:E; simpl; by simplify_map_eq.
Qed.

Lemma registered_ctl_ne o e fd fd' k : fd ≠ fd' → registered (epoll_ctl o fd e k) !! fd' = registered k !! fd'.
Proof.
  intros Hne. destruct o; rewrite ?ctl_add, ?ctl_mod, ?ctl_del; [| |by simplify_map_eq].
  all: destruct (registered k !! fd); simpl; by simplify_map_eq.
Qed.

(** What [epoll] will watch when the thread has made the calls it has to make. *)
Definition in_hand (y : Poller) : list (Z * (operation * Z)) := match thread_ y with AtCtl l => l | _ => [] end.

Definition handed (y : Poller) (fd : Z) : option Z := registered (foldl apply_change (epoll_fd_ y) (in_hand y)) !! fd.

Lemma registered_changes l fd k : NoDup l.*1 →
  registered (foldl apply_change k l) !! fd = match (list_to_map l : gmap Z (operation * Z)) !! fd with Some c => entry_after c (registered k !! fd) | None => registered k !! fd end.
Proof.
  revert k. induction l as [|[fd' c] l IH]; intros k Hn; simpl in *; [by rewrite lookup_empty|].
  apply NoDup_cons in Hn as [Hni Hn]. rewrite IH by done.
  destruct (decide (fd' = fd)) as [->|Hne].
  - rewrite lookup_insert_eq, not_elem_of_list_to_map_1 by done. unfold apply_change. simpl. by rewrite registered_ctl.
  - rewrite lookup_insert_ne by done. unfold apply_change. simpl. by rewrite registered_ctl_ne.
Qed.

(** What a pending change says of a descriptor. *)
Definition watch_ok (y : Poller) (fd : Z) : Prop :=
  match ctrl_params_ y !! fd with
  | None => handed y fd = events <$> requests_ y !! fd
  | Some (EPOLL_CTL_ADD, e) => handed y fd = None ∧ events <$> requests_ y !! fd = Some e
  | Some (EPOLL_CTL_MOD, e) => is_Some (handed y fd) ∧ events <$> requests_ y !! fd = Some e
  | Some (EPOLL_CTL_DEL, _) => requests_ y !! fd = None
  end.

Definition poller_ok (y : Poller) : Prop := is_shutdown_ y = false → overtaken y = false → ∀ fd, watch_ok y fd.

Lemma handed_swap y fd : thread_ y = AtChanges →
  handed (take_changes y) fd = match ctrl_params_ y !! fd with Some c => entry_after c (handed y fd) | None => handed y fd end.
Proof.
  intros E. unfold handed, in_hand. rewrite E. simpl. rewrite registered_changes by apply NoDup_fst_map_to_list. by rewrite list_to_map_to_list.
Qed.

Lemma poller_ok_change fd c r y : is_shutdown_ y = false → poller_ok y →
  (handed y fd = events <$> requests_ y !! fd →
     match c with
     | (EPOLL_CTL_ADD, e) => handed y fd = None ∧ events <$> r = Some e
     | (EPOLL_CTL_MOD, e) => is_Some (handed y fd) ∧ events <$> r = Some e
     | (EPOLL_CTL_DEL, _) => r = None
     end) → poller_ok (change fd c r y).
Proof.
  intros Hs Hok Hc _ [Ho Hp%bool_decide_eq_false]%orb_false_iff fd'. specialize (Hok Hs Ho).
  rewrite <- eq_None_not_Some in Hp. unfold watch_ok, handed in *. simpl in *.
  destruct (decide (fd = fd')) as [<-|Hne].
  - rewrite lookup_insert_eq, lookup_partial_alter_eq. specialize (Hok fd). rewrite Hp in Hok. by destruct c as [[] e]; apply Hc.
  - rewrite lookup_insert_ne, lookup_partial_alter_ne by done. apply Hok.
Qed.

Lemma poller_ok_Register fd ev t cb y : poller_ok y → poller_ok (Register fd ev t cb y).1.
Proof.
  intros Hok. unfold Register. destruct (is_shutdown_ y) eqn:Es; [done|]. destruct cb as [cb|]; [|done]. destruct (fd <? 0); [done|].
  apply poller_ok_change; [done..|]. intros E. destruct (requests_ y !! fd) eqn:Er; simpl in *; rewrite E; eauto.
Qed.

Lemma poller_ok_Unregister fd cb y : poller_ok y → poller_ok (Unregister fd cb y).1.
Proof.
  intros Hok. unfold Unregister. destruct (is_shutdown_ y) eqn:Es; [done|]. destruct cb as [cb|]; [|done]. destruct (fd <? 0); [done|].
  destruct (requests_ y !! fd) eqn:Er; [|done]. by apply poller_ok_change.
Qed.

(** A step that leaves the events of the requests, the pending changes and what
    is in hand as they are. *)
Lemma poller_ok_same y y' : is_shutdown_ y' = is_shutdown_ y → overtaken y' = overtaken y → ctrl_params_ y' = ctrl_params_ y →
  (∀ fd, handed y' fd = handed y fd) → (∀ fd, events <$> requests_ y' !! fd = events <$> requests_ y !! fd) → poller_ok y → poller_ok y'.
Proof.
  intros Es Eo Ec Eh Er Hok Hs Ho fd. rewrite Es in Hs. rewrite Eo in Ho. specialize (Hok Hs Ho fd). revert Hok. unfold watch_ok. rewrite Ec, Eh, Er.
  destruct (ctrl_params_ y !! fd) as [[[] e]|]; try done. intros E. specialize (Er fd). rewrite E in Er. by destruct (requests_ y' !! fd).
Qed.

Lemma poller_ok_take y : thread_ y = AtChanges → poller_ok y → poller_ok (take_changes y).
Proof.
  intros Et Hok Hs Ho fd. specialize (Hok Hs Ho fd). unfold watch_ok in *. simpl. rewrite lookup_empty, handed_swap by done.
  destruct (ctrl_params_ y !! fd) as [[[] e]|]; simpl in *; [| | |done].
  - destruct Hok as [-> ->]. done.
  - destruct Hok as [[x ->] ->]. done.
  - by rewrite Hok.
Qed.

Lemma events_elapse i r : events (elapse i r).1 = events r.
Proof. unfold elapse. by destruct (_ =? _). Qed.

Lemma elapse_all_events i y fd : events <$> (fst <$> elapse_all i y) !! fd = events <$> requests_ y !! fd.
Proof.
  unfold elapse_all. rewrite lookup_fmap, map_lookup_imap. destruct (requests_ y !! fd) as [r|]; [|done]. simpl. destruct (ctrl_params_ y !! fd); simpl; by rewrite ?events_elapse.
Qed.

Lemma respond_requests fd ev l y fd' :
  requests_ (respond fd ev l y) !! fd' = if decide (fd = fd') then with_timeout (-1) <$> requests_ y !! fd else requests_ y !! fd'.
Proof.
  unfold respond. destruct (requests_ y !! fd) as [r|] eqn:E; simpl.
  - destruct (decide (fd = fd')) as [<-|]; by simplify_map_eq.
  - destruct (decide (fd = fd')) as [<-|]; by rewrite ?E.
Qed.

Lemma poller_ok_thread d ready y y' : ThreadFunc d ready y = Some y' → poller_ok y → poller_ok y'.
Proof.
  unfold ThreadFunc. destruct (thread_ y) as [|[|x l]| |[|[fd ev] l]] eqn:Et; intros E Hok.
  - destruct (is_shutdown_ y); simplify_eq. by apply poller_ok_take.
  - simplify_eq. revert Hok. apply poller_ok_same; try done. intros fd. unfold handed, in_hand. by rewrite Et.
  - simplify_eq. revert Hok. apply poller_ok_same; try done. intros fd. unfold handed, in_hand. by rewrite Et.
  - simplify_eq. revert Hok. apply poller_ok_same; try done; [|apply elapse_all_events]. intros fd. unfold handed, in_hand. by rewrite Et.
  - simplify_eq. revert Hok. apply poller_ok_same; try done. intros fd. unfold handed, in_hand. by rewrite Et.
  - simplify_eq. revert Hok. apply poller_ok_same.
    + unfold respond. by destruct (requests_ y !! fd).
    + unfold respond. by destruct (requests_ y !! fd).
    + unfold respond. by destruct (requests_ y !! fd).
    + intros fd'. unfold handed, in_hand, respond. rewrite Et. by destruct (requests_ y !! fd).
    + intros fd'. rewrite respond_requests. destruct (decide (fd = fd')) as [<-|]; [|done]. by destruct (requests_ y !! fd).
Qed.

Lemma poller_ok_exec y l y' : exec y l = Some y' → poller_ok y → poller_ok y'.
Proof.
  destruct l as [fd ev t cb|fd cb|d ready| |]; simpl; intros E Hok; simplify_eq.
  - by apply poller_ok_Register.
  - by apply poller_ok_Unregister.
  - by eapply poller_ok_thread.
  - done.
  - unfold Clear in E. destruct (thread_ y); [|done..]. by destruct (is_shutdown_ y); simplify_eq.
Qed.

Lemma poller_ok_Init k pipe drain : registered k = ∅ → poller_ok (Init k pipe drain).
Proof.
  intros Ek _ _ fd. unfold watch_ok, handed, Init, in_hand. simpl. rewrite Ek.
  destruct (decide (pipe = fd)) as [<-|]; [rewrite !lookup_singleton_eq; by rewrite lookup_empty|by rewrite !lookup_singleton_ne, lookup_empty].
Qed.

(** C28: when the thread is about to wait, no change is pending, and no change
    ever came upon another of the same descriptor that had not been taken,
    [epoll] watches what is registered, each descriptor for its events, and
    nothing else. *)
Theorem epoll_follows_requests k pipe drain ls y : registered k = ∅ → run exec (Init k pipe drain) ls = Some y →
  is_shutdown_ y = false → overtaken y = false → thread_ y = AtPoll → ctrl_params_ y = ∅ →
  registered (epoll_fd_ y) = events <$> requests_ y.
Proof.
  intros Ek Hr Hs Ho Et Ec. assert (Hok : poller_ok y).
  { apply (trace_invariant (exec_step exec) poller_ok (Init k pipe drain) ls); [by apply poller_ok_Init| |by apply run_trace].
    intros s l s' ? E. by eapply poller_ok_exec. }
  apply map_eq. intros fd. specialize (Hok Hs Ho fd). unfold watch_ok, handed, in_hand in Hok. rewrite Ec, lookup_empty, Et in Hok. by rewrite lookup_fmap.
Qed.

(** ** The time of a request *)

Definition answers_to (fd : Z) (y : Poller) : list (Z * C * Z) := filter (λ a, a.1.1 = fd) (answers y).

(** The loop over the responses, undisturbed. *)
Fixpoint answer_all (l : list (Z * Z)) (y : Poller) : Poller :=
  match l with [] => at_phase AtChanges y | (fd, ev) :: l => answer_all l (respond fd ev l y) end.

(** A turn when nothing is pending: the swap, the wait, the answers. *)
Definition turn (t : Z * list (Z * Z)) (y : Poller) : Poller :=
  answer_all (map_to_list (responses (elapse_all (interval t.1) y) t.2)) (collect t.1 t.2 (at_phase AtPoll y)).

Definition turn_steps (t : Z * list (Z * Z)) (y : Poller) : nat := 4 + length (map_to_list (responses (elapse_all (interval t.1) y) t.2)).

(** The thread alone, turn after turn. *)
Fixpoint turns (ts : list (Z * list (Z * Z))) (y : Poller) : option Poller :=
  match ts with
  | [] => Some y
  | t :: ts => y' ← run exec y (replicate (turn_steps t y) (DoThread t.1 t.2)); turns ts y'
  end.

Lemma respond_keeps fd ev l y : is_shutdown_ (respond fd ev l y) = is_shutdown_ y ∧ ctrl_params_ (respond fd ev l y) = ctrl_params_ y ∧ thread_ (respond fd ev l y) = AtRespond l.
Proof. unfold respond. by destruct (requests_ y !! fd). Qed.

Lemma run_answers d ready l y : thread_ y = AtRespond l → run exec y (replicate (S (length l)) (DoThread d ready)) = Some (answer_all l y).
Proof.
  revert y. induction l as [|[fd ev] l IH]; intros y Et; simpl; unfold ThreadFunc at 1; rewrite Et; [done|].
  simpl in IH. apply IH. apply respond_keeps.
Qed.

Lemma run_turn t y : thread_ y = AtChanges → is_shutdown_ y = false → ctrl_params_ y = ∅ →
  run exec y (replicate (turn_steps t y) (DoThread t.1 t.2)) = Some (turn t y).
Proof.
  intros Et Es Ec. unfold turn_steps. replace (4 + _)%nat with (3 + S (length (map_to_list (responses (elapse_all (interval t.1) y) t.2))))%nat by lia.
  rewrite replicate_add, run_app. simpl. unfold ThreadFunc at 1. rewrite Et, Es. simpl. unfold ThreadFunc at 1. simpl. rewrite Ec, map_to_list_empty. simpl.
  change (match exec ?s ?l with Some s' => run exec s' ?ls | None => None end) with (run exec s (l :: ls)).
  set (y1 := collect _ _ _).
  assert (E : y1 = collect t.1 t.2 (at_phase AtPoll y)) by (subst y1; unfold collect, elapse_all, at_phase, take_changes; simpl; by rewrite Ec).
  rewrite E. apply (run_answers t.1 t.2). done.
Qed.

Lemma turns_cons t ts y : thread_ y = AtChanges → is_shutdown_ y = false → ctrl_params_ y = ∅ → turns (t :: ts) y = turns ts (turn t y).
Proof. intros. cbn [turns]. by rewrite run_turn. Qed.

Lemma answer_all_keeps l y : is_shutdown_ (answer_all l y) = is_shutdown_ y ∧ ctrl_params_ (answer_all l y) = ctrl_params_ y ∧ thread_ (answer_all l y) = AtChanges.
Proof.
  revert y. induction l as [|[fd ev] l IH]; intros y; simpl; [done|]. destruct (IH (respond fd ev l y)) as (-> & -> & ->). destruct (respond_keeps fd ev l y) as (-> & -> & _). done.
Qed.

Lemma answers_to_respond fd' ev l y fd : answers_to fd (respond fd' ev l y) =
  answers_to fd y ++ match requests_ y !! fd' with Some r => if decide (fd' = fd) then [(fd, callback r, ev)] else [] | None => [] end.
Proof.
  unfold answers_to, respond. destruct (requests_ y !! fd') as [r|]; simpl; [|by rewrite app_nil_r]. rewrite filter_app. f_equal.
  destruct (decide (fd' = fd)) as [->|]; [by rewrite filter_cons_True|by rewrite filter_cons_False].
Qed.

Lemma answer_all_at l y fd : NoDup l.*1 →
  answers_to fd (answer_all l y) = answers_to fd y ++
    match (list_to_map l : gmap Z Z) !! fd, requests_ y !! fd with Some ev, Some r => [(fd, callback r, ev)] | _, _ => [] end ∧
  requests_ (answer_all l y) !! fd = match (list_to_map l : gmap Z Z) !! fd with Some _ => with_timeout (-1) <$> requests_ y !! fd | None => requests_ y !! fd end.
Proof.
  revert y. induction l as [|[fd' ev] l IH]; intros y Hn; simpl in *; [by rewrite lookup_empty, app_nil_r|].
  apply NoDup_cons in Hn as [Hni Hn]. destruct (IH (respond fd' ev l y) Hn) as [-> ->].
  rewrite answers_to_respond, respond_requests. destruct (decide (fd' = fd)) as [->|Hne].
  - rewrite lookup_insert_eq, not_elem_of_list_to_map_1 by done. rewrite app_nil_r. done.
  - rewrite lookup_insert_ne by done. destruct (requests_ y !! fd'); by rewrite app_nil_r.
Qed.

Lemma responses_unready (over : gmap Z (PollRequest * bool)) ready fd : fd ∉ ready.*1 → responses over ready !! fd = match (over !! fd : option (PollRequest * bool)) with Some x => if x.2 then Some 0 else None | None => None end.
Proof.
  intros Hni. transitivity ((omap (λ x : PollRequest * bool, if x.2 then Some 0 else None) over : gmap Z Z) !! fd); [|rewrite lookup_omap; by destruct (over !! fd)].
  unfold responses. generalize (omap (λ x : PollRequest * bool, if x.2 then Some 0 else None) over : gmap Z Z).
  induction ready as [|[fd' e] ready IH]; intros m; simpl in *; [done|]. apply not_elem_of_cons in Hni as [Hne Hni]. rewrite IH by done. unfold put_response. simpl. by rewrite lookup_insert_ne.
Qed.

(** A turn in which there is no event for the descriptor. *)
Lemma turn_at t y fd r : ctrl_params_ y = ∅ → fd ∉ t.2.*1 → requests_ y !! fd = Some r →
  answers_to fd (turn t y) = answers_to fd y ++ (if (elapse (interval t.1) r).2 then [(fd, callback r, 0)] else []) ∧
  requests_ (turn t y) !! fd = Some (elapse (interval t.1) r).1.
Proof.
  intros Ec Hni Er. unfold turn. set (over := elapse_all _ _).
  destruct (answer_all_at (map_to_list (responses over t.2)) (collect t.1 t.2 (at_phase AtPoll y)) fd) as [-> ->]; [apply NoDup_fst_map_to_list|].
  rewrite list_to_map_to_list, responses_unready by done.
  assert (Eo : over !! fd = Some (elapse (interval t.1) r)).
  { unfold over, elapse_all. rewrite map_lookup_imap, Er. simpl. by rewrite Ec, lookup_empty. }
  assert (E : requests_ (collect t.1 t.2 (at_phase AtPoll y)) !! fd = Some (elapse (interval t.1) r).1).
  { change (requests_ (collect t.1 t.2 (at_phase AtPoll y))) with (fst <$> over). by rewrite lookup_fmap, Eo. }
  rewrite E, Eo. simpl. unfold elapse. destruct (_ =? _); done.
Qed.

Definition total (ts : list (Z * list (Z * Z))) : Z := foldr (λ t n, interval t.1 + n) 0 ts.

(** Once answered for its time a request is not answered for it again. *)
Lemma turns_never fd r ts y : thread_ y = AtChanges → is_shutdown_ y = false → ctrl_params_ y = ∅ →
  Forall (λ t : Z * list (Z * Z), fd ∉ t.2.*1) ts → requests_ y !! fd = Some r → timeout_ms r < 0 →
  ∃ y', turns ts y = Some y' ∧ answers_to fd y' = answers_to fd y.
Proof.
  revert y r. induction ts as [|t ts IH]; intros y r Et Es Ec Hf Er Hr; [by exists y|]. apply Forall_cons in Hf as [Hni Hf].
  rewrite turns_cons by done. destruct (turn_at t y fd r Ec Hni Er) as [Ha Hq].
  assert (E : elapse (interval t.1) r = (r, false)).
  { unfold elapse. destruct (Z.ltb_spec 0 (timeout_ms r)); [lia|]. destruct (Z.eqb_spec (timeout_ms r) 0); [lia|]. by destruct r. }
  rewrite E in Ha, Hq. simpl in *. rewrite app_nil_r in Ha.
  destruct (answer_all_keeps (map_to_list (responses (elapse_all (interval t.1) y) t.2)) (collect t.1 t.2 (at_phase AtPoll y))) as (E1 & E2 & E3).
  destruct (IH (turn t y) r) as (y' & ? & Ha'); unfold turn in *; try done; [by rewrite E1|by rewrite E2|]. exists y'. by rewrite Ha', Ha.
Qed.

(** C29: From when the thread of the poller is at the top of its loop and no
    change is pending, while it turns alone (no [Register] or [Unregister]
    comes meanwhile: see [stale_event_answers_new_request]) and no event comes
    for a descriptor, a request with a time limit is answered once, with no
    event, in the turn in which the time of the waits reaches the limit, and
    not before. *)
Theorem timeout_is_answered_once fd r ts y : thread_ y = AtChanges → is_shutdown_ y = false → ctrl_params_ y = ∅ →
  Forall (λ t : Z * list (Z * Z), 0 ≤ t.1 ∧ fd ∉ t.2.*1) ts → requests_ y !! fd = Some r → 0 < timeout_ms r →
  ∃ y', turns ts y = Some y' ∧ answers_to fd y' = answers_to fd y ++ (if timeout_ms r <=? total ts then [(fd, callback r, 0)] else []).
Proof.
  revert y r. induction ts as [|t ts IH]; intros y r Et Es Ec Hf Er Hr.
  - simpl. exists y. destruct (Z.leb_spec (timeout_ms r) 0); [lia|]. by rewrite app_nil_r.
  - apply Forall_cons in Hf as [[Hd Hni] Hf]. rewrite turns_cons by done. destruct (turn_at t y fd r Ec Hni Er) as [Ha Hq].
    destruct (answer_all_keeps (map_to_list (responses (elapse_all (interval t.1) y) t.2)) (collect t.1 t.2 (at_phase AtPoll y))) as (E1 & E2 & E3).
    fold (turn t y) in E1, E2, E3. simpl in E1, E2.
    assert (Hi : 1 ≤ interval t.1) by (unfold interval; destruct (Z.eqb_spec t.1 0); lia).
    assert (Ht : 0 ≤ total ts).
    { clear -Hf. induction Hf as [|u us [? _] _ IHt]; simpl; [lia|]. unfold interval at 1. destruct (Z.eqb_spec u.1 0); lia. }
    unfold elapse in Ha, Hq. destruct (Z.ltb_spec 0 (timeout_ms r)); [|lia].
    destruct (Z.eqb_spec (Z.max 0 (timeout_ms r - interval t.1)) 0) as [Ez|Ez]; simpl in Ha, Hq.
    + destruct (turns_never fd (with_timeout (-1) r) ts (turn t y)) as (y' & ? & Ha'); try done; [by rewrite E1|by rewrite E2| |].
      { eapply Forall_impl; [exact Hf|]. by intros ? []. }
      exists y'. split; [done|]. rewrite Ha', Ha. simpl. destruct (Z.leb_spec (timeout_ms r) (interval t.1 + total ts)); [done|lia].
    + destruct (IH (turn t y) _ E3 ltac:(by rewrite E1) ltac:(by rewrite E2) Hf Hq) as (y' & ? & Ha'); simpl; [lia|].
      exists y'. split; [done|]. rewrite Ha', Ha, app_nil_r. simpl.
      destruct (Z.leb_spec (Z.max 0 (timeout_ms r - interval t.1)) (total ts)), (Z.leb_spec (timeout_ms r) (interval t.1 + total ts)); done || lia.
Qed.

(** The wait is at most 100 ms, and no longer than the time of any request. *)
Lemma wait_is_bounded y : 0 ≤ GetTimeoutMs y ≤ kPollTimeoutMs ∧ ∀ fd r, requests_ y !! fd = Some r → 0 ≤ timeout_ms r → GetTimeoutMs y ≤ timeout_ms r.
Proof.
  unfold GetTimeoutMs. assert (H : ∀ l, 0 ≤ foldr shorter kPollTimeoutMs l ≤ kPollTimeoutMs ∧ ∀ r, r ∈ l → 0 ≤ timeout_ms r → foldr shorter kPollTimeoutMs l ≤ timeout_ms r).
  { induction l as [|r l [IH1 IH2]]; simpl; [unfold kPollTimeoutMs; split; [lia|]; intros r Hr; by apply not_elem_of_nil in Hr|].
    unfold shorter at 1 3 5. destruct (Z.leb_spec 0 (timeout_ms r)); simpl; [destruct (Z.ltb_spec (timeout_ms r) (foldr shorter kPollTimeoutMs l))|].
    all: split; [lia|]; intros r' [->|Hr']%elem_of_cons ?; [lia|specialize (IH2 r' Hr'); lia]. }
  destruct (H (map_to_list (requests_ y)).*2) as [H1 H2]. split; [done|]. intros fd r Hr. apply H2, list_elem_of_fmap. exists (fd, r). split; [done|]. by apply elem_of_map_to_list.
Qed.

End Poller.

(** ** At work *)

(** An instance of [epoll] as a table. *)
Definition table_ctl (o : operation) (fd e : Z) (m : gmap Z Z) : gmap Z Z :=
  match o with
  | EPOLL_CTL_ADD => match m !! fd with None => <[fd := e]> m | Some _ => m end
  | EPOLL_CTL_MOD => match m !! fd with None => m | Some _ => <[fd := e]> m end
  | EPOLL_CTL_DEL => delete fd m
  end.

#[export] Instance table_epoll : Epoll (gmap Z Z).
Proof. by refine {| registered := id; epoll_ctl := table_ctl |}. Defined.

Definition demo_new : Poller := Init (K := gmap Z Z) (C := nat) ∅ 3 0%nat.

(** Descriptor 7 is registered with 5 ms and 8 without; 8 gets an event, 7 none;
    then 8 changes its events and 7 leaves. *)
Definition demo_steps : list (label (C := nat)) :=
  replicate 4 (DoThread 0 []) ++ [DoThread 0 []] ++ [DoRegister 7 1 5 (Some 1%nat); DoRegister 8 4 (-1) (Some 2%nat)] ++ replicate 5 (DoThread 2 [(8, 4)]) ++
  [DoThread 2 [(8, 4)]] ++ [DoRegister 8 1 (-1) (Some 2%nat); DoUnregister 7 (Some 1%nat)] ++ replicate 5 (DoThread 0 []).

Definition demo_end : Poller := default demo_new (run exec demo_new demo_steps).

Lemma poller_demo_facts : run exec demo_new demo_steps = Some demo_end ∧ is_shutdown_ demo_end = false ∧ overtaken demo_end = false ∧ thread_ demo_end = AtPoll ∧
  ctrl_params_ demo_end = ∅ ∧ answers demo_end = [(8, 2%nat, 4)].
Proof. vm_compute. repeat split. Qed.

Lemma epoll_follows_requests_witness : registered (epoll_fd_ demo_end) = events <$> requests_ demo_end ∧ registered (epoll_fd_ demo_end) !! 8 = Some 1.
Proof.
  destruct poller_demo_facts as (H & H1 & H2 & H3 & H4 & _). split; [|vm_compute; reflexivity].
  exact (epoll_follows_requests ∅ 3 0%nat demo_steps demo_end eq_refl H H1 H2 H3 H4).
Defined.

(** A request with 5 ms; two waits of 2 ms and one that came back at once. *)
Definition demo_timed : Poller := mkPoller false {[7 := mkRequest 1 5 1%nat]} ∅ ({[7 := 1]} : gmap Z Z) AtChanges [] false.

Lemma timeout_is_answered_once_witness :
  ∃ y', turns [(2, [(8, 1)]); (2, []); (0, []); (100, [])] demo_timed = Some y' ∧ answers_to 7 y' = [(7, 1%nat, 0)].
Proof.
  apply (timeout_is_answered_once 7 (mkRequest 1 5 1%nat) [(2, [(8, 1)]); (2, []); (0, []); (100, [])] demo_timed);
    [reflexivity|reflexivity|reflexivity|repeat constructor; simpl; try lia; set_solver|reflexivity|reflexivity].
Defined.

(** ** What goes wrong *)

Definition opening : list (label (C := nat)) := replicate 5 (DoThread 0 []).

(** Two requests before the thread takes the first: the second change, [MOD],
    replaces the first, [ADD], and fails: the descriptor is never watched. *)
Theorem second_request_unwatched : ∃ y, run exec demo_new (opening ++ [DoRegister 7 1 (-1) (Some 1%nat); DoRegister 7 1 (-1) (Some 1%nat)] ++ replicate 3 (DoThread 0 [])) = Some y ∧
  thread_ y = AtPoll ∧ is_Some (requests_ y !! 7) ∧ registered (epoll_fd_ y) !! 7 = None.
Proof. eexists. split; [vm_compute; reflexivity|]. vm_compute. by eauto. Qed.

(** A request that leaves and comes again before the thread looks: the [ADD]
    replaces the [DEL] and fails: the old events are watched. *)
Theorem renewed_request_unheard : ∃ y, run exec demo_new
    (opening ++ [DoRegister 7 1 (-1) (Some 1%nat)] ++ replicate 5 (DoThread 0 []) ++ [DoUnregister 7 (Some 1%nat); DoRegister 7 4 (-1) (Some 2%nat)] ++ replicate 3 (DoThread 0 [])) = Some y ∧
  thread_ y = AtPoll ∧ events <$> requests_ y !! 7 = Some 4 ∧ registered (epoll_fd_ y) !! 7 = Some 1.
Proof. eexists. split; [vm_compute; reflexivity|]. vm_compute. done. Qed.

(** An event that was collected for one request answers the one that took its
    place, and ends its time. *)
Theorem stale_event_answers_new_request : ∃ y, run exec demo_new
    (opening ++ [DoRegister 7 1 (-1) (Some 1%nat)] ++ replicate 3 (DoThread 0 []) ++ [DoThread 0 [(7, 1)]; DoUnregister 7 (Some 1%nat); DoRegister 7 4 50 (Some 2%nat); DoThread 0 []]) = Some y ∧
  answers y = [(7, 2%nat, 1)] ∧ timeout_ms <$> requests_ y !! 7 = Some (-1).
Proof. eexists. split; [vm_compute; reflexivity|]. vm_compute. done. Qed.
