(* ===== verification/PollHandler.v ===== *)
(** * Waiting for a descriptor

    [PollHandler] ([src/code/cyber/io/poll_handler.h], [poll_handler.cc]) lets a
    coroutine wait until the poller answers its request; [Session]
    ([session.h], [session.cc]) repeats a system call that would block.  The
    system calls are parameters. *)

From stdpp Require Import base list gmap.
From S2P Require Import Prelude Croutine Poller.

Section PollHandler.
Context {K : Type} `{!Epoll K}.

(** ** State *)

(** Coroutines have their identifier; [response_] is the events of the answer. *)
Record PollHandler := mkHandler { fd_ : Z; response_ : Z; is_blocking_ : bool; routine_ : option nat }.

Definition PollHandler_new (fd : Z) : PollHandler := mkHandler fd 0 false None.

Inductive callback_of := DrainPipe | ResponseOf.

(** The poller, one handler, and the coroutines that use it. *)
Record io := mkIo { poller : Poller (K := K) (C := callback_of); handler : PollHandler; routines : gmap nat CRoutine }.

Definition EPOLLOUT : Z := 4.
Definition EPOLLONESHOT : Z := Z.shiftl 1 30.
Definition EPOLLET : Z := Z.shiftl 1 31.

Definition target_events (is_read : bool) : Z := if is_read then EPOLLIN else EPOLLOUT.

(** ** Operations *)

(** [Check] stores the coroutine that calls. *)
Definition Check_block (timeout_ms : Z) (me : option nat) (h : PollHandler) : PollHandler * bool :=
  if timeout_ms =? 0 then (h, false)
  else if fd_ h <? 0 then (h, false)
  else match me with None => (mkHandler (fd_ h) (response_ h) (is_blocking_ h) None, false) | Some _ => (mkHandler (fd_ h) (response_ h) (is_blocking_ h) me, true) end.

Definition set_blocking (b : bool) (h : PollHandler) : PollHandler := mkHandler (fd_ h) (response_ h) b (routine_ h).

(** [Fill] and [Register]. *)
Definition Fill (is_read : bool) : Z := Z.lor (Z.lor EPOLLET EPOLLONESHOT) (target_events is_read).

(** [Block] up to the call of [Yield]; false: it has returned false. *)
Definition Block (timeout_ms : Z) (is_read : bool) (me : option nat) (w : io) : io * bool :=
  let '(h, ok) := Check_block timeout_ms me (handler w) in
  if ok then
    if is_blocking_ h then (mkIo (poller w) h (routines w), false)
    else
      let '(p, registered) := Register (fd_ h) (Fill is_read) timeout_ms (Some ResponseOf) (poller w) in
      (mkIo p (set_blocking registered h) (routines w), registered)
  else (mkIo (poller w) h (routines w), false).

(** [Yield]. *)
Definition Yield (me : nat) (w : io) : io := mkIo (poller w) (handler w) (alter (set_state IO_WAIT) me (routines w)).

(** [Block] after [Yield], when the coroutine runs again: its result. *)
Definition Resume (is_read : bool) (w : io) : io * bool :=
  (mkIo (poller w) (set_blocking false (handler w)) (routines w), negb (Z.land (response_ (handler w)) (target_events is_read) =? 0)).

Definition Unblock (w : io) : io * bool :=
  let '(p, ok) := Unregister (fd_ (handler w)) (Some ResponseOf) (poller w) in
  (mkIo p (set_blocking false (handler w)) (routines w), ok).

(** [NotifyTask] sets the flag of the coroutine. *)
Definition ResponseCallback (ev : Z) (w : io) : io :=
  let h := handler w in
  if is_blocking_ h then
    match routine_ h with
    | None => w
    | Some r =>
        mkIo (poller w) (mkHandler (fd_ h) ev true (Some r))
          (match routines w !! r with
           | Some c => if bool_decide (state_ c = IO_WAIT) then <[r := SetUpdateFlag c]> (routines w) else routines w
           | None => routines w
           end)
    end
  else w.

(** A step of the thread of the poller, with the callback it calls. *)
Definition thread_step (elapsed_ms : Z) (ready : list (Z * Z)) (w : io) : option io :=
  match ThreadFunc elapsed_ms ready (poller w) with
  | None => None
  | Some p =>
      let w' := mkIo p (handler w) (routines w) in
      match drop (length (answers (poller w))) (answers p) with
      | [(_, ResponseOf, ev)] => Some (ResponseCallback ev w')
      | _ => Some w'
      end
  end.

(** [UpdateState] by a processor that looks for work. *)
Definition wake (now : Z) (r : nat) (w : io) : io := mkIo (poller w) (handler w) (alter (UpdateState now) r (routines w)).

Inductive io_label :=
  | DoBlock (timeout_ms : Z) (is_read : bool) (me : option nat)
  | DoYield (me : nat)
  | DoResume (is_read : bool) (me : nat)
  | DoUnblock
  | DoThread (elapsed_ms : Z) (ready : list (Z * Z))
  | DoWake (now : Z) (r : nat).

Definition io_exec (w : io) (l : io_label) : option io :=
  match l with
  | DoBlock t b me => Some (Block t b me w).1
  | DoYield me => Some (Yield me w)
  | DoResume b me =>
      match routines w !! me with
      | Some c => if bool_decide (state_ c = READY) then Some (Resume b w).1 else None
      | None => None
      end
  | DoUnblock => Some (Unblock w).1
  | DoThread d ready => thread_step d ready w
  | DoWake now r => Some (wake now r w)
  end.

(** ** Waiting works *)

Definition waiting_io (r : nat) (w : io) : Prop :=
  is_blocking_ (handler w) = true ∧ routine_ (handler w) = Some r ∧ ∃ c, routines w !! r = Some c ∧ state_ c = IO_WAIT.

(** The answer that comes for a coroutine that waits reaches it: it is ready
    when a processor looks, and [Block] says whether the event it asked for is
    among those of the answer. *)
Lemma answer_wakes fd ev l is_read now r w q : waiting_io r w →
  thread_ (poller w) = AtRespond ((fd, ev) :: l) → requests_ (poller w) !! fd = Some q → callback q = ResponseOf →
  ∃ w', thread_step 0 [] w = Some w' ∧ state_ <$> routines (wake now r w') !! r = Some READY ∧
    (Resume is_read (wake now r w')).2 = negb (Z.land ev (target_events is_read) =? 0).
Proof.
  intros (Hb & Hr & c & Hc & Hs) Et Eq Ec. unfold thread_step, ThreadFunc. rewrite Et. unfold respond. rewrite Eq. simpl.
  rewrite drop_app_length, Ec. eexists. split; [done|]. unfold ResponseCallback, wake, Resume. simpl. rewrite Hb, Hr. simpl. rewrite Hc, bool_decide_true by done. split; [|done].
  rewrite lookup_alter_eq, lookup_insert_eq. simpl. unfold UpdateState, SetUpdateFlag, set_updated. simpl. rewrite Hs. simpl. done.
Qed.
End PollHandler.

(** ** Sessions *)

Inductive outcome := Bytes (n : Z) | WouldBlock | Failed.

Definition would_block (o : outcome) : bool := match o with WouldBlock => true | _ => false end.

(** The loop of [Recv], [RecvFrom], [Send], [SendTo], [Read] and [Write]:
    [calls] gives the results of the system call, one after another, and
    [blocks] those of [Block]. *)
Fixpoint io_loop (fuel : nat) (calls : nat → outcome) (blocks : nat → bool) (timeout_ms : Z) (made blocked : nat) (nbytes : outcome) : option outcome :=
  match fuel with
  | O => None
  | S fuel =>
      if would_block nbytes then
        let '(made, nbytes) := if blocks blocked then (S made, calls made) else (made, nbytes) in
        if 0 <? timeout_ms then Some nbytes else io_loop fuel calls blocks timeout_ms made (S blocked) nbytes
      else Some nbytes
  end.

Definition session_io (fuel : nat) (calls : nat → outcome) (blocks : nat → bool) (timeout_ms : Z) : option outcome :=
  if timeout_ms =? 0 then Some (calls 0%nat) else io_loop fuel calls blocks timeout_ms 1 0 (calls 0%nat).

Lemma io_loop_S fuel calls blocks timeout_ms m b : timeout_ms < 0 → blocks b = true →
  io_loop (S fuel) calls blocks timeout_ms m b WouldBlock = io_loop fuel calls blocks timeout_ms (S m) (S b) (calls m).
Proof. intros Ht Hb. simpl. rewrite Hb. destruct (Z.ltb_spec 0 timeout_ms); [lia|done]. Qed.

Lemma io_loop_waits calls blocks timeout_ms k m b o : timeout_ms < 0 → (∀ i, blocks i = true) →
  (∀ i, (i < k)%nat → calls (m + i)%nat = WouldBlock) → calls (m + k)%nat ≠ WouldBlock → o = WouldBlock →
  io_loop (S (S k)) calls blocks timeout_ms m b o = Some (calls (m + k)%nat).
Proof.
  intros Ht Hb. revert m b o. induction k as [|k IH]; intros m b o Hk Hn ->; rewrite io_loop_S by done.
  - rewrite Nat.add_0_r in *. simpl. by destruct (calls m).
  - pose proof (Hk 0%nat ltac:(lia)) as E. rewrite Nat.add_0_r in E. rewrite E.
    specialize (IH (S m) (S b) WouldBlock). rewrite Nat.add_succ_comm in IH. apply IH; try done. intros i Hi. rewrite Nat.add_succ_comm. apply Hk. lia.
Qed.

(** Without a time limit the result is that of the first call that does not
    block, with a limit there is a result after one wait, and with a limit of 0
    without one. *)
Lemma session_gives_result calls blocks timeout_ms :
  (timeout_ms = 0 → session_io 0 calls blocks timeout_ms = Some (calls 0%nat)) ∧
  (0 < timeout_ms → session_io 1 calls blocks timeout_ms = Some (if would_block (calls 0%nat) && blocks 0%nat then calls 1%nat else calls 0%nat)) ∧
  (timeout_ms < 0 → (∀ i, blocks i = true) → ∀ k, (∀ i, (i < k)%nat → calls i = WouldBlock) → calls k ≠ WouldBlock →
     session_io (S k) calls blocks timeout_ms = Some (calls k)).
Proof.
  unfold session_io. split_and!; intros Ht.
  - by rewrite Ht.
  - destruct (Z.eqb_spec timeout_ms 0); [lia|]. simpl. destruct (Z.ltb_spec 0 timeout_ms); [|lia]. destruct (calls 0%nat) eqn:E; simpl; try done. by destruct (blocks 0%nat).
  - intros Hb k Hk Hn. destruct (Z.eqb_spec timeout_ms 0); [lia|]. destruct k as [|k]; [simpl; by destruct (calls 0%nat)|].
    apply (io_loop_waits calls blocks timeout_ms k 1 0); try done; [|apply Hk; lia]. intros i Hi. apply Hk. lia.
Qed.

(** ** What goes wrong *)

Definition demo_io : io (K := gmap Z Z) := mkIo (Init ∅ 3 DrainPipe) (PollHandler_new 7) {[1%nat := CRoutine_new 0; 2%nat := CRoutine_new 0]}.

Definition opened : list io_label := replicate 5 (DoThread 0 []).

(** Where nobody will wake the coroutine: nothing is on its way and its request
    has no time left. *)
Definition stranded (r : nat) (w : io (K := gmap Z Z)) : bool :=
  match routines w !! r, thread_ (poller w) with
  | Some c, AtChanges => bool_decide (state_ c = IO_WAIT) && updated_ c && bool_decide (ctrl_params_ (poller w) = ∅) && forallb (λ x : Z * PollRequest, timeout_ms x.2 <? 0) (map_to_list (requests_ (poller w)))
  | _, _ => false
  end.

(** An answer that comes after [Register] and before the state is [IO_WAIT]
    wakes nobody, and the descriptor is watched for one event only: the
    coroutine waits for ever, in spite of its time limit. *)
Theorem answer_before_yield_is_lost :
  stranded 1 <$> run io_exec demo_io (opened ++ [DoBlock 10 true (Some 1%nat)] ++ replicate 3 (DoThread 0 []) ++ replicate 3 (DoThread 0 [(7, 1)]) ++ [DoYield 1%nat; DoWake 5 1%nat]) = Some true.
Proof. vm_compute. reflexivity. Qed.

(** A second coroutine that calls [Block] is refused, but [routine_] is now the
    second: the answer for the first is lost. *)
Theorem second_block_strands_the_first :
  stranded 1 <$> run io_exec demo_io (opened ++ [DoBlock 10 true (Some 1%nat); DoYield 1%nat; DoBlock 10 true (Some 2%nat)] ++ replicate 3 (DoThread 0 []) ++ replicate 3 (DoThread 0 [(7, 1)]) ++ [DoWake 5 1%nat]) = Some true.
Proof. vm_compute. reflexivity. Qed.

(** [Unblock], which [Session::Close] calls, wakes nobody either. *)
Theorem unblock_strands_the_waiter :
  stranded 1 <$> run io_exec demo_io (opened ++ [DoBlock 10 true (Some 1%nat); DoYield 1%nat] ++ replicate 3 (DoThread 0 []) ++ [DoUnblock] ++ replicate 2 (DoThread 0 []) ++ replicate 5 (DoThread 100 []) ++ [DoWake 5 1%nat]) = Some true.
Proof. vm_compute. reflexivity. Qed.

(** Outside a coroutine [Block] returns false at once: without a time limit the
    loop never ends. *)
Theorem session_outside_coroutine_spins fuel timeout_ms (w : io (K := gmap Z Z)) : timeout_ms < 0 →
  (Block timeout_ms true None w).2 = false ∧ session_io fuel (λ _, WouldBlock) (λ _, (Block timeout_ms true None w).2) timeout_ms = None.
Proof.
  intros Ht. assert (E : (Block timeout_ms true None w).2 = false).
  { unfold Block, Check_block. destruct (timeout_ms =? 0); [done|]. by destruct (_ <? 0). }
  split; [done|]. rewrite E. unfold session_io. destruct (Z.eqb_spec timeout_ms 0); [lia|]. generalize 1%nat as m. generalize 0%nat.
  induction fuel as [|fuel IH]; intros b; simpl; [done|]. destruct (Z.ltb_spec 0 timeout_ms); [lia|]. apply IH.
Qed.
