(* ===== verification/XsiSegment.v ===== *)
(** * Shared memory by System V

    [XsiSegment] ([src/code/cyber/transport/shm/xsi_segment.h],
    [xsi_segment.cc]), the kind of segment that [SegmentFactory]
    ([segment_factory.cc]) makes unless the configuration names the other one.
    What it shares with [PosixSegment], and the operations on blocks, are in
    Segment.  A memory object is found by a key of 32 bits, unless it was made
    with the key 0, [IPC_PRIVATE]; it is not found any more when it has been
    marked for removal. *)

From S2P Require Import Prelude RWLock ShmBlock Segment.

(** ** System calls *)

(** What [shmget] answers that is to create an object when its key is free
    ([EEXIST] is the answer when it is not), and whether the others succeed. *)
Inductive create_answer := Created | Einval | OtherError.

Record xsi := mkXsi { create1 : create_answer; create2 : create_answer; get_ok : bool; shmat_ok : bool; rmid_ok : bool }.

Definition xsi_good : xsi := mkXsi Created Created true true true.

(** The first [shmget] says that the size is wrong, the second does not. *)
Definition xsi_retry : xsi := mkXsi Einval Created true true true.

(** The constructor: the identifier of a channel has 64 bits, the key 32. *)
Definition XsiSegment_key (channel_id : Z) : Z := i32 channel_id.

Definition IPC_PRIVATE : Z := 0.

(** [shmget] without [IPC_CREAT]: the object under the key; none is under
    [IPC_PRIVATE]. *)
Definition find (key_ : Z) (w : World) : option nat := if key_ =? IPC_PRIVATE then None else name w.

Section Xsi.
Context (sizeof_State sizeof_Block : Z).
(** The key of the segment; the [name] of a world is what [shmget] finds under it. *)
Context (key_ : Z).

Local Notation attach := (attach sizeof_State sizeof_Block).

(** ** Operations *)

Definition Xsi_Reset : M () := Reset.

Definition Xsi_Remove (e : xsi) : M bool :=
  w ← world;
  match find key_ w with
  | None => mret false
  | Some _ => if get_ok e && rmid_ok e then set_name None;; mret true else mret false
  end.

Definition Xsi_OpenOnly (e : xsi) : M bool :=
  g ← get;
  w ← world;
  if init_ g then mret true
  else match find key_ w with
       | None => mret false
       | Some id =>
           if negb (get_ok e) then mret false
           else if negb (shmat_ok e) then set_managed MapFailed;; mret false
           else set_managed (Mapped id);; attach id (λ o, o)
       end.

(** After a successful [shmget]. *)
Definition Xsi_create (e : xsi) : M bool :=
  g ← get;
  w ← world;
  let id := length (objs w) in
  set_world (mkWorld (if key_ =? IPC_PRIVATE then None else Some id) (objs w ++ [mkShm (managed_shm_size_ (conf_ g)) false 0 0 0 []]));;
  if negb (shmat_ok e) then set_managed MapFailed;; set_name None;; mret false
  else set_managed (Mapped id);; attach id (place (conf_ g)).

(** The loop: [answers] are those of the rounds that are left. *)
Fixpoint Xsi_tries (e : xsi) (answers : list create_answer) : M bool :=
  match answers with
  | [] => mret false
  | a :: answers =>
      w ← world;
      match find key_ w, a with
      | Some _, _ => Xsi_OpenOnly e
      | None, Created => Xsi_create e
      | None, Einval => Xsi_Reset;; Xsi_Remove e;; Xsi_tries e answers
      | None, OtherError => mret false
      end
  end.

Definition Xsi_OpenOrCreate (e : xsi) : M bool :=
  g ← get;
  if init_ g then mret true else Xsi_tries e [create1 e; create2 e].

(** [SegmentFactory::CreateSegment]: the type that the configuration names, if
    it does. *)
Definition CreateSegment {S : Type} (shm_type : option (list Z)) (posix_name : list Z) (posix xsi : S) : S :=
  match shm_type with Some t => if bool_decide (t = posix_name) then posix else xsi | None => xsi end.

(** ** It does what the other one does *)

(** The objects that are found have a size. *)
Definition sized (w : World) : Prop := ∀ id o, name w = Some id → objs w !! id = Some o → 0 < st_size o.

Definition xsi_os (e : xsi) : os := mkOs (get_ok e) true true (shmat_ok e) (get_ok e && rmid_ok e).

Section Shared_key.
Context (public : key_ ≠ IPC_PRIVATE).

Lemma find_name w : find key_ w = name w.
Proof using public. unfold find. by rewrite (proj2 (Z.eqb_neq _ _) public). Qed.

Lemma Xsi_OpenOnly_equiv e g w : wf_world w → sized w → Xsi_OpenOnly e g w = OpenOnly sizeof_State sizeof_Block (xsi_os e) g w.
Proof using public.
  intros Hw Hs. unfold Xsi_OpenOnly, OpenOnly, get, world, mbind, M_bind. rewrite find_name. destruct (init_ g); [done|]. destruct (name w) as [id|] eqn:En; [|done].
  destruct (Hw id En) as (o & Ho & _). simpl. rewrite Ho, (proj2 (Z.ltb_lt _ _) (Hs id o En Ho)), andb_true_r. destruct (get_ok e); [|done]. by destruct (shmat_ok e).
Qed.

Lemma Xsi_create_equiv e g w : init_ g = false → name w = None → Xsi_create e g w = OpenOrCreate sizeof_State sizeof_Block (mkOs true true true (shmat_ok e) true) g w.
Proof using public. intros Ei En. unfold Xsi_create, OpenOrCreate, get, world, mbind, M_bind. by rewrite Ei, En, (proj2 (Z.eqb_neq _ _) public). Qed.

Lemma Xsi_Remove_equiv e g w : Xsi_Remove e g w = Remove (xsi_os e) g w.
Proof using public. unfold Xsi_Remove, Remove, world, mbind, M_bind. by rewrite find_name. Qed.

(** The rounds of the loop. *)
Lemma Xsi_tries_found e a answers g w id : name w = Some id → Xsi_tries e (a :: answers) g w = Xsi_OpenOnly e g w.
Proof using public. intros E. cbn [Xsi_tries]. unfold mbind, M_bind, world. by rewrite find_name, E. Qed.

Lemma Xsi_tries_created e answers g w : name w = None → Xsi_tries e (Created :: answers) g w = Xsi_create e g w.
Proof using public. intros E. cbn [Xsi_tries]. unfold mbind, M_bind, world. by rewrite find_name, E. Qed.

Definition after_Reset (g : Seg) : Seg := mkSeg (init_ g) (conf_ g) None None Unmapped ∅.

Lemma Xsi_tries_einval e answers g w : name w = None → Xsi_tries e (Einval :: answers) g w = Xsi_tries e answers (after_Reset g) w.
Proof using public. intros E. cbn [Xsi_tries]. unfold Xsi_Reset, Xsi_Remove, Reset, get, put, mbind, M_bind, world. rewrite find_name, E. simpl. by rewrite find_name, E. Qed.

Lemma Xsi_tries_opened e answers : ∀ g w, wf sizeof_State sizeof_Block g w → sized w → init_ g = false → state_ g = None →
  post (Xsi_tries e answers) g w (λ b g' w', opened sizeof_State sizeof_Block b g w g' w').
Proof using public.
  induction answers as [|a answers IH]; intros g w Hwf Hs Hi Hst; pose proof Hwf as [Hw Hg]; unfold post.
  - apply opened_fail; auto using evolves_refl.
  - destruct (name w) as [id|] eqn:En.
    + rewrite (Xsi_tries_found _ _ _ _ _ _ En), Xsi_OpenOnly_equiv by done. pose proof (OpenOnly_opened sizeof_State sizeof_Block (xsi_os e) g w Hwf Hi) as H. unfold post in H. destruct (OpenOnly _ _ _ g w); [apply H|done..].
    + destruct a.
      * rewrite Xsi_tries_created, Xsi_create_equiv by done. by apply OpenOrCreate_opened.
      * rewrite Xsi_tries_einval by done. pose proof (IH _ w (Reset_wf _ _ g w Hwf) Hs eq_refl eq_refl) as H. unfold post in H. unfold after_Reset. rewrite Hi. destruct (Xsi_tries _ _ _ w) as [b g' w'| |]; [|done..].
        destruct H as (H1 & H2 & H3). split; [done|]. split; [done|]. destruct b; [done|]. by rewrite Hst.
      * cbn [Xsi_tries]. unfold mbind, M_bind, world. rewrite find_name, En. apply opened_fail; auto using evolves_refl.
Qed.

(** Whichever system calls fail, opening a System V segment keeps the same promise
    as opening the other one: on success it is attached to the object that its
    key stands for, which is complete; on failure it is not; and objects that
    others use stay as they are. *)
Lemma xsi_open_opened e g w : wf sizeof_State sizeof_Block g w → sized w → init_ g = false → state_ g = None →
  post (Xsi_OpenOrCreate e) g w (λ b g' w', opened sizeof_State sizeof_Block b g w g' w').
Proof using public. intros Hwf Hs Hi Hst. unfold post, Xsi_OpenOrCreate, get, mbind, M_bind. rewrite Hi. by apply Xsi_tries_opened. Qed.
End Shared_key.
End Xsi.

(** C33: a segment whose key is not 0 ([XsiSegment_key channel_id] is not
    [IPC_PRIVATE]; see [channel_of_key_zero_is_never_shared]) and belongs to no
    other channel ([channels_of_one_key_collide]) cannot be told apart from the
    other kind: when no system call fails, opening, creating and removing it do
    the same to the segment and to the memory, from every well-formed state in
    which the object under the key, if any, has a size; and when the first
    [shmget] says [EINVAL] where nothing is under the key, what is done is what
    the other kind does after [Reset]. *)
Theorem xsi_equals_posix stt blk channel_id g w : XsiSegment_key channel_id ≠ IPC_PRIVATE → wf_world w → sized w →
  let key := XsiSegment_key channel_id in
  Xsi_OpenOrCreate stt blk key xsi_good g w = OpenOrCreate stt blk os_good g w ∧
  Xsi_OpenOnly stt blk key xsi_good g w = OpenOnly stt blk os_good g w ∧
  Xsi_Remove key xsi_good g w = Remove os_good g w ∧
  (init_ g = false → name w = None → Xsi_OpenOrCreate stt blk key xsi_retry g w = (Reset;; OpenOrCreate stt blk os_good) g w) ∧
  (init_ g = true ∨ is_Some (name w) → Xsi_OpenOrCreate stt blk key xsi_retry g w = OpenOrCreate stt blk os_good g w).
Proof.
  intros Hk Hw Hs key.
  assert (Hi : ∀ e, init_ g = true → Xsi_OpenOrCreate stt blk key e g w = OpenOrCreate stt blk os_good g w).
  { intros e Ei. unfold Xsi_OpenOrCreate, OpenOrCreate, get, world, mbind, M_bind. by rewrite Ei. }
  assert (Hn : ∀ e, init_ g = false → Xsi_OpenOrCreate stt blk key e g w = Xsi_tries stt blk key e [create1 e; create2 e] g w).
  { intros e Ei. unfold Xsi_OpenOrCreate, get, mbind, M_bind. by rewrite Ei. }
  assert (Hf : ∀ e id, xsi_os e = os_good → name w = Some id → Xsi_OpenOrCreate stt blk key e g w = OpenOrCreate stt blk os_good g w).
  { intros e id He En. destruct (init_ g) eqn:Ei; [by apply Hi|]. rewrite Hn, (Xsi_tries_found stt blk key Hk _ _ _ _ _ _ En), (Xsi_OpenOnly_equiv stt blk key Hk), He by done.
    unfold OpenOrCreate, get, world, mbind, M_bind. by rewrite Ei, En. }
  split_and!.
  - destruct (init_ g) eqn:Ei; [by apply Hi|]. destruct (name w) as [id|] eqn:En; [by eapply Hf|].
    rewrite Hn by done. unfold xsi_good. cbn [create1 create2]. rewrite (Xsi_tries_created stt blk key Hk) by done. by rewrite (Xsi_create_equiv stt blk key Hk).
  - by apply Xsi_OpenOnly_equiv.
  - by apply Xsi_Remove_equiv.
  - intros Ei En. rewrite Hn by done. unfold xsi_retry. cbn [create1 create2]. rewrite (Xsi_tries_einval stt blk key Hk), (Xsi_tries_created stt blk key Hk) by done.
    by rewrite (Xsi_create_equiv stt blk key Hk).
  - intros [Ei|[id En]]; [by apply Hi|by eapply Hf].
Qed.

Lemma world_empty_ok : wf_world world_empty ∧ sized world_empty.
Proof. by split. Qed.

(** A channel that does not exist yet: made at once, and made after [EINVAL]. *)
Lemma xsi_equals_posix_witness : Xsi_OpenOrCreate 48 32 (XsiSegment_key 7) xsi_good Segment_new world_empty = OpenOrCreate 48 32 os_good Segment_new world_empty ∧
  Xsi_OpenOrCreate 48 32 (XsiSegment_key 7) xsi_retry Segment_new world_empty = (Reset;; OpenOrCreate 48 32 os_good) Segment_new world_empty ∧
  ∃ g w, OpenOrCreate 48 32 os_good Segment_new world_empty = Ok true g w ∧ name w = Some 0%nat.
Proof.
  destruct (xsi_equals_posix 48 32 7 Segment_new world_empty ltac:(vm_compute; discriminate) (proj1 world_empty_ok) (proj2 world_empty_ok)) as (H1 & _ & _ & H2 & _).
  split; [exact H1|]. split; [apply H2; reflexivity|]. do 2 eexists. split; vm_compute; reflexivity.
Defined.

(** ** Keys *)

(** The objects of all channels, with those that a key finds. *)
Record Shared := mkShared { names : gmap Z nat; mem : list Shm }.

(** What a segment sees of them. *)
Definition view (key : Z) (s : Shared) : World := mkWorld (names s !! key) (mem s).

Definition unview (key : Z) (w : World) (s : Shared) : Shared := mkShared (partial_alter (λ _, name w) key (names s)) (objs w).

(** A segment of a channel that is opened. *)
Definition open_channel (sizeof_State sizeof_Block : Z) (e : xsi) (channel_id : Z) (s : Shared) : option (Seg * Shared) :=
  match Xsi_OpenOrCreate sizeof_State sizeof_Block (XsiSegment_key channel_id) e Segment_new (view (XsiSegment_key channel_id) s) with
  | Ok true g w => Some (g, unview (XsiSegment_key channel_id) w s)
  | _ => None
  end.

(** What a channel opens again it finds, when its key is not 0. *)
Lemma channel_is_found stt blk id s g s' : open_channel stt blk xsi_good id s = Some (g, s') → XsiSegment_key id ≠ IPC_PRIVATE → wf stt blk Segment_new (view (XsiSegment_key id) s) → sized (view (XsiSegment_key id) s) →
  state_ g = names s' !! XsiSegment_key id ∧ is_Some (state_ g).
Proof.
  intros E Hk Hwf Hs. unfold open_channel in E. pose proof (xsi_open_opened stt blk _ Hk xsi_good Segment_new _ Hwf Hs eq_refl eq_refl) as H. unfold post in H.
  destruct (Xsi_OpenOrCreate _ _ _ _ _ _) as [b g1 w1| |]; [|done..]. destruct b; [|done]. injection E as <- <-. destruct H as (_ & _ & _ & n & o & Hn & Hst & _).
  rewrite Hst, <- Hn. unfold unview. simpl. rewrite lookup_partial_alter_eq. rewrite Hn. by split.
Qed.

Definition shared_empty : Shared := mkShared ∅ [].

(** Two channels whose identifiers agree in 32 bits have one memory. *)
Theorem channels_of_one_key_collide : ∃ a s g b s', a ≠ 2 ^ 32 + a ∧
  open_channel 48 32 xsi_good a shared_empty = Some (g, s) ∧ open_channel 48 32 xsi_good (2 ^ 32 + a) s = Some (b, s') ∧ is_Some (state_ g) ∧ state_ b = state_ g.
Proof.
  exists 7. do 4 eexists. split; [lia|]. split; [vm_compute; reflexivity|]. split; [vm_compute; reflexivity|]. split; [by eexists|reflexivity].
Qed.

(** A channel whose key is 0 gets a new memory whenever it is opened. *)
Theorem channel_of_key_zero_is_never_shared : ∃ s g b s',
  open_channel 48 32 xsi_good (2 ^ 32) shared_empty = Some (g, s) ∧ open_channel 48 32 xsi_good (2 ^ 32) s = Some (b, s') ∧ state_ g = Some 0%nat ∧ state_ b = Some 1%nat.
Proof. do 4 eexists. split; [vm_compute; reflexivity|]. split; [vm_compute; reflexivity|]. split; reflexivity. Qed.
