(* ===== verification/MessageTraits.v ===== *)
(** * Messages as templates

    The functions of [src/code/cyber/message/message_traits.h] that write a
    message behind a [MessageHeader] and read it again, with the two kinds of
    message the repository itself defines, [RawMessage] ([raw_message.h]) and
    [PyMessageWrap] ([py_message.h]).
    What a template finds out about a type is a class. *)

From stdpp Require Import base list gmap.
From S2P Require Import Prelude Message.

(** ** Memory *)

(** What a pointer points to, to the end of the buffer. *)
Definition memory : Type := list Z.

(** Copying more than there is room for is an access out of bounds: [None]. *)
Definition memcpy (dst src : memory) : option memory :=
  if (length src <=? length dst)%nat then Some (src ++ drop (length src) dst) else None.

Definition read_bytes (src : memory) (n : Z) : option memory :=
  if (Z.to_nat n <=? length src)%nat then Some (take (Z.to_nat n) src) else None.

(** ** What a template knows of a type *)

(** [option] where the template has another body for a type without the
    member. *)
Class Traits (T : Type) := {
  MessageType : T → list Z;
  SetTypeName : option (list Z → T → T);
  ByteSizeLong : option (T → Z);
  SerializeToArray : option (T → option memory → Z → option (bool * option memory));
  ParseFromArray : option (option memory → Z → T → option (bool * T));
}.

Section HC.
Context (big_endian : bool) {T : Type} `{!Traits T}.

Definition header_bytes (h : MessageHeader) : memory :=
  magic_num_ h ++ seq_ h ++ timestamp_ns_ h ++ src_id_ h ++ dst_id_ h ++ msg_type_ h ++ res_ h ++ content_size_ h.

Definition header_size : Z := 192.

Definition header_of (bs : memory) : MessageHeader :=
  mkHeader (take 8 bs) (take 8 (drop 8 bs)) (take 8 (drop 16 bs)) (take 8 (drop 24 bs)) (take 8 (drop 32 bs)) (take 129 (drop 40 bs)) (take 19 (drop 169 bs)) (take 4 (drop 188 bs)).

(** [msg_type()]: the characters before the first zero. *)
Fixpoint c_string (bs : memory) : list Z :=
  match bs with [] => [] | b :: bs => if b =? 0 then [] else b :: c_string bs end.

Definition ByteSize (message : T) : Z := match ByteSizeLong with Some size => i32 (size message) | None => -1 end.

Definition FullByteSize (message : T) : Z :=
  let content_size := ByteSize message in
  if content_size <? 0 then content_size else i32 (content_size + header_size).

Definition SerializeToHC (message : T) (data : option memory) (size : Z) : option (bool * option memory) :=
  match SerializeToArray with
  | None => Some (false, data)
  | Some serialize =>
      let msg_size := ByteSize message in
      if msg_size <? 0 then Some (false, data)
      else
        let header := set_content_size big_endian (set_msg_type MessageHeader_new (Some (MessageType message))) (u32 msg_size) in
        if u64 size <? header_size then Some (false, data)
        else
          match data with
          | None => None
          | Some buf =>
              match memcpy buf (header_bytes header) with
              | None => None
              | Some buf =>
                  let left_size := i32 (size - header_size) in
                  match serialize message (Some (drop 192 buf)) left_size with
                  | Some (ok, Some rest) => Some (ok, Some (take 192 buf ++ rest))
                  | Some (ok, None) => Some (ok, Some buf)
                  | None => None
                  end
              end
          end
  end.

Definition ParseFromHC (data : option memory) (size : Z) (message : T) : option (bool * T) :=
  match ParseFromArray with
  | None => Some (false, message)
  | Some parse =>
      if size <? header_size then Some (false, message)
      else
        match data with
        | None => None
        | Some buf =>
            match read_bytes buf header_size with
            | None => None
            | Some bs =>
                let header := header_of bs in
                if u64 (size - header_size) <? content_size big_endian header then Some (false, message)
                else
                  let message := match SetTypeName with Some set => set (c_string (msg_type_ header)) message | None => message end in
                  parse (Some (drop 192 buf)) (i32 (content_size big_endian header)) message
            end
        end
  end.

(** ** What a type promises *)

(** [bytes_of] a message is what it writes; the laws say that it does so when
    there is room and reads it again from the bytes that begin with it. *)
Class TraitsLaws (wire_ok : T → Prop) (bytes_of : T → memory) := {
  size_of_bytes : ∃ f, ByteSizeLong = Some f ∧ ∀ m, wire_ok m → f m = zlen (bytes_of m) ∧ zlen (bytes_of m) < 2 ^ 31;
  writes_bytes : ∃ f, SerializeToArray = Some f ∧ ∀ m buf size, wire_ok m → zlen (bytes_of m) ≤ size ≤ zlen buf →
    ∃ buf', memcpy buf (bytes_of m) = Some buf' ∧ f m (Some buf) size = Some (true, Some buf');
  reads_bytes : ∃ f, ParseFromArray = Some f ∧ ∀ m rest m0, wire_ok m →
    ∃ m', f (Some (bytes_of m ++ rest)) (zlen (bytes_of m)) m0 = Some (true, m') ∧ bytes_of m' = bytes_of m;
}.

Lemma memcpy_room dst src : (length src ≤ length dst)%nat → memcpy dst src = Some (src ++ drop (length src) dst).
Proof using Type. intros H. unfold memcpy. by destruct (Nat.leb_spec (length src) (length dst)); [|lia]. Qed.

Lemma length_header h : length (magic_num_ h) = 8%nat → length (seq_ h) = 8%nat → length (timestamp_ns_ h) = 8%nat → length (src_id_ h) = 8%nat →
  length (dst_id_ h) = 8%nat → length (msg_type_ h) = 129%nat → length (res_ h) = 19%nat → length (content_size_ h) = 4%nat →
  length (header_bytes h) = 192%nat ∧ header_of (header_bytes h) = h.
Proof using Type.
  intros E1 E2 E3 E4 E5 E6 E7 E8. destruct h as [a b c d e f g i]. simpl in *. unfold header_bytes, header_of. simpl. split; [rewrite !length_app; lia|].
  assert (D : ∀ n m (x y : list Z), length x = n → drop (n + m) (x ++ y) = drop m y) by (intros n m x y <-; by rewrite drop_app_add).
  rewrite (take_app_length' a) by done. f_equal.
  - change 8%nat with (8 + 0)%nat at 2. rewrite D, drop_0 by done. by apply take_app_length'.
  - change 16%nat with (8 + (8 + 0))%nat. rewrite !D, drop_0 by done. by apply take_app_length'.
  - change 24%nat with (8 + (8 + (8 + 0)))%nat. rewrite !D, drop_0 by done. by apply take_app_length'.
  - change 32%nat with (8 + (8 + (8 + (8 + 0))))%nat. rewrite !D, drop_0 by done. by apply take_app_length'.
  - change 40%nat with (8 + (8 + (8 + (8 + (8 + 0)))))%nat. rewrite !D, drop_0 by done. by apply take_app_length'.
  - change 169%nat with (8 + (8 + (8 + (8 + (8 + (129 + 0))))))%nat. rewrite !D, drop_0 by done. by apply take_app_length'.
  - change 188%nat with (8 + (8 + (8 + (8 + (8 + (129 + (19 + 0)))))))%nat. rewrite !D, drop_0 by done. rewrite take_ge by lia. done.
Qed.

Lemma hc_header ty n : in_u 32 n → let h := set_content_size big_endian (set_msg_type MessageHeader_new (Some ty)) n in
  length (header_bytes h) = 192%nat ∧ header_of (header_bytes h) = h ∧ content_size big_endian h = n.
Proof using Type.
  intros Hn h. assert (Em : length (msg_type_ (set_msg_type MessageHeader_new (Some ty))) = 129%nat).
  { destruct ty as [|t ty]; [done|]. unfold set_msg_type. cbv beta iota zeta delta [msg_type_]. rewrite length_app. unfold zeros. rewrite length_replicate, length_take. destruct (decide _); lia. }
  assert (Eo : length (content_size_ h) = 4%nat) by apply length_host_bytes.
  destruct (length_header h) as [H1 H2]; [by destruct ty..|done|by destruct ty|done|]. split; [done|]. split; [done|].
  unfold content_size, h, set_content_size. simpl. rewrite <- (app_nil_r (Convert32ToArray big_endian n)). by apply Convert32_roundtrip.
Qed.

(** C35: a message that is written behind its header into a buffer that has
    room for both is read again from there, whatever lies behind it and whatever
    the message was before. *)
Theorem hc_round_trip wire_ok bytes_of `{!TraitsLaws wire_ok bytes_of} m m0 buf size : wire_ok m →
  zlen (bytes_of m) + header_size ≤ size ≤ zlen buf → size < 2 ^ 31 →
  ∃ buf', SerializeToHC m (Some buf) size = Some (true, Some buf') ∧ length buf' = length buf ∧
    ∃ m', ParseFromHC (Some buf') size m0 = Some (true, m') ∧ bytes_of m' = bytes_of m.
Proof using Type.
  intros Hm Hs Hb. destruct size_of_bytes as (f & Ef & Hf), writes_bytes as (g & Eg & Hg), reads_bytes as (p & Ep & Hp).
  destruct (Hf m Hm) as [E1 E2]. assert (0 ≤ zlen (bytes_of m)) by (unfold zlen; lia). unfold header_size in *.
  unfold SerializeToHC, ParseFromHC, ByteSize. rewrite Ef, Eg, Ep, E1, (swrap_small 32 ltac:(lia) (zlen _)) by (unfold in_s; lia).
  rewrite (wrap_small 32 (zlen _)) by (unfold in_u; lia). destruct (Z.ltb_spec (zlen (bytes_of m)) 0); [lia|].
  unfold header_size. rewrite (wrap_small 64 size) by (unfold in_u; lia). destruct (Z.ltb_spec size 192); [lia|].
  destruct (hc_header (MessageType m) (zlen (bytes_of m))) as (L1 & L2 & L3); [unfold in_u; lia|].
  set (h := set_content_size _ _ _) in *. unfold zlen in Hs, Hb, H, E2.
  rewrite memcpy_room, L1 by lia.
  rewrite drop_app_length' by done. rewrite take_app_length' by done. rewrite (swrap_small 32 ltac:(lia)) by (unfold in_s; lia).
  destruct (Hg m (drop 192 buf) (size - 192) Hm) as (buf' & Eb & ->); [unfold zlen; rewrite length_drop; lia|].
  exists (header_bytes h ++ buf'). split; [done|].
  unfold memcpy in Eb. rewrite length_drop in Eb. destruct (Nat.leb_spec (length (bytes_of m)) (length buf - 192)); [|lia]. injection Eb as <-.
  split; [rewrite !length_app, L1, !length_drop; lia|].
  unfold read_bytes. change (Z.to_nat 192) with 192%nat. rewrite length_app, L1. destruct (Nat.leb_spec 192 (192 + length (bytes_of m ++ drop (length (bytes_of m)) (drop 192 buf)))); [|lia].
  rewrite take_app_length' by done. rewrite L2, L3. rewrite (wrap_small 64 (size - 192)) by (unfold in_u; lia).
  destruct (Z.ltb_spec (size - 192) (zlen (bytes_of m))); [unfold zlen in *; lia|]. rewrite drop_app_length' by done.
  rewrite (swrap_small 32 ltac:(lia)) by (unfold in_s, zlen; lia).
  destruct (Hp m (drop (length (bytes_of m)) (drop 192 buf)) (match SetTypeName with Some set => set (c_string (msg_type_ h)) m0 | None => m0 end) Hm) as (m' & -> & E). by exists m'.
Qed.
End HC.

(** ** [RawMessage] *)

Record RawMessage := mkRaw { message : list Z; timestamp : Z }.

Definition RawMessage_new (data : list Z) : RawMessage := mkRaw data 0.

(** "apollo.cyber.message.RawMessage". *)
Definition raw_type_name : list Z :=
  [97; 112; 111; 108; 108; 111; 46; 99; 121; 98; 101; 114; 46; 109; 101; 115; 115; 97; 103; 101; 46; 82; 97; 119; 77; 101; 115; 115; 97; 103; 101].

Definition raw_ByteSize (m : list Z) : Z := i32 (zlen m).

(** [SerializeToArray] and [ParseFromArray] of both kinds of message, on the
    bytes that they hold. *)
Definition raw_SerializeToArray (m : list Z) (data : option memory) (size : Z) : option (bool * option memory) :=
  match data with
  | None => Some (false, None)
  | Some buf =>
      if size <? raw_ByteSize m then Some (false, data)
      else match memcpy buf m with Some buf => Some (true, Some buf) | None => None end
  end.

Definition raw_ParseFromArray (data : option memory) (size : Z) (m : list Z) : option (bool * list Z) :=
  match data with
  | None => Some (false, m)
  | Some buf =>
      if size <=? 0 then Some (false, m)
      else match read_bytes buf size with Some bs => Some (true, bs) | None => None end
  end.

#[export] Instance RawMessage_Traits : Traits RawMessage := {|
  MessageType := λ _, raw_type_name;
  SetTypeName := None;
  ByteSizeLong := Some (λ m, raw_ByteSize (message m));
  SerializeToArray := Some (λ m, raw_SerializeToArray (message m));
  ParseFromArray := Some (λ data size m, match raw_ParseFromArray data size (message m) with Some (ok, bs) => Some (ok, mkRaw bs (timestamp m)) | None => None end);
|}.

(** ** [PyMessageWrap] *)

Record PyMessageWrap := mkPy { data_ : list Z; type_name_ : list Z }.

(** "apollo.cyber.message.PyMessage". *)
Definition PY_MESSAGE_FULLNAME : list Z :=
  [97; 112; 111; 108; 108; 111; 46; 99; 121; 98; 101; 114; 46; 109; 101; 115; 115; 97; 103; 101; 46; 80; 121; 77; 101; 115; 115; 97; 103; 101].

#[export] Instance PyMessageWrap_Traits : Traits PyMessageWrap := {|
  MessageType := λ _, PY_MESSAGE_FULLNAME;
  SetTypeName := None;
  ByteSizeLong := Some (λ m, raw_ByteSize (data_ m));
  SerializeToArray := Some (λ m, raw_SerializeToArray (data_ m));
  ParseFromArray := Some (λ data size m, match raw_ParseFromArray data size (data_ m) with Some (ok, bs) => Some (ok, mkPy bs (type_name_ m)) | None => None end);
|}.

(** Both keep the laws, unless they are empty. *)
Definition fits (m : list Z) : Prop := 0 < zlen m < 2 ^ 31.

Lemma raw_writes m buf size : fits m → zlen m ≤ size ≤ zlen buf →
  ∃ buf', memcpy buf m = Some buf' ∧ raw_SerializeToArray m (Some buf) size = Some (true, Some buf').
Proof.
  intros [H1 H2] H3. unfold raw_SerializeToArray, raw_ByteSize. rewrite (swrap_small 32 ltac:(lia)) by (unfold in_s; lia).
  destruct (Z.ltb_spec size (zlen m)); [lia|]. rewrite memcpy_room by (unfold zlen in *; lia). by eexists.
Qed.

Lemma raw_reads m rest m0 : fits m → raw_ParseFromArray (Some (m ++ rest)) (zlen m) m0 = Some (true, m).
Proof.
  intros [H1 H2]. unfold raw_ParseFromArray, read_bytes. destruct (Z.leb_spec (zlen m) 0); [lia|]. unfold zlen. rewrite Nat2Z.id, length_app.
  destruct (Nat.leb_spec (length m) (length m + length rest)); [|lia]. by rewrite take_app_length.
Qed.

#[export] Instance RawMessage_laws : TraitsLaws (λ m, fits (message m)) message.
Proof.
  split.
  - eexists. split; [done|]. intros m [H1 H2]. split; [|done]. apply swrap_small; [lia|unfold in_s; lia].
  - eexists. split; [done|]. intros m buf size Hm Hs. by apply raw_writes.
  - eexists. split; [done|]. intros m rest m0 Hm. exists (mkRaw (message m) (timestamp m0)). cbn -[raw_ParseFromArray]. by rewrite raw_reads.
Qed.

#[export] Instance PyMessageWrap_laws : TraitsLaws (λ m, fits (data_ m)) data_.
Proof.
  split.
  - eexists. split; [done|]. intros m [H1 H2]. split; [|done]. apply swrap_small; [lia|unfold in_s; lia].
  - eexists. split; [done|]. intros m buf size Hm Hs. by apply raw_writes.
  - eexists. split; [done|]. intros m rest m0 Hm. exists (mkPy (data_ m) (type_name_ m0)). cbn -[raw_ParseFromArray]. by rewrite raw_reads.
Qed.

Lemma hc_round_trip_witness : ∃ buf', SerializeToHC false (mkPy [7; 0; 9] [1; 2]) (Some (replicate 200 5)) 198 = Some (true, Some buf') ∧ length buf' = 200%nat ∧
  ∃ m', ParseFromHC false (Some buf') 198 (mkPy [1] [3]) = Some (true, m') ∧ data_ m' = [7; 0; 9].
Proof.
  apply (hc_round_trip false (λ m, fits (data_ m)) data_ (mkPy [7; 0; 9] [1; 2]) (mkPy [1] [3]) (replicate 200 5) 198).
  - unfold fits, zlen. simpl. lia.
  - unfold zlen, header_size. simpl. lia.
  - lia.
Defined.

(** An empty message is written, but what is written is not read. *)
Theorem empty_message_is_not_read be ts : ∃ buf', SerializeToHC be (mkRaw [] ts) (Some (zeros 192)) 192 = Some (true, Some buf') ∧
  ParseFromHC be (Some buf') 192 (mkRaw [] 0) = Some (false, mkRaw [] 0).
Proof. destruct be; eexists; (split; [vm_compute; reflexivity|]; vm_compute; reflexivity). Qed.

(** The type of a python message does not travel with it. *)
Theorem type_of_python_message_is_lost : ∃ buf', SerializeToHC false (mkPy [7] [84]) (Some (zeros 193)) 193 = Some (true, Some buf') ∧
  ParseFromHC false (Some buf') 193 (mkPy [] []) = Some (true, mkPy [7] []).
Proof. eexists. split; [vm_compute; reflexivity|]. vm_compute. reflexivity. Qed.

(** The size of a message of 2 GiB is negative as an [int]: whatever the room,
    the message is copied. *)
Theorem huge_message_overruns m buf size : zlen m = 2 ^ 31 → zlen buf < 2 ^ 31 → 0 ≤ size → raw_SerializeToArray m (Some buf) size = None.
Proof.
  intros Hm Hb Hs. unfold raw_SerializeToArray, raw_ByteSize. rewrite Hm. change (i32 (2 ^ 31)) with (- 2 ^ 31). destruct (Z.ltb_spec size (- 2 ^ 31)); [lia|].
  unfold memcpy. unfold zlen in *. destruct (Nat.leb_spec (length m) (length buf)); [lia|done].
Qed.
