(* ===== verification/ProtobufFactory.v ===== *)
(** * Descriptions of types

    [ProtobufFactory] ([src/code/cyber/message/protobuf_factory.h],
    [protobuf_factory.cc]): the description of a type, with the files that its
    file needs, is written into a string that a writer announces
    ([GetDescriptorString]), and a process that reads the string registers the
    files in a pool ([RegisterMessage]).  [protobuf] is an interface: a file's
    own description, and a pool that takes a file when those it needs are there. *)

From stdpp Require Import base list gmap strings.
From S2P Require Import Prelude.

(** ** [protobuf] *)

(** [file] is a [FileDescriptorProto].  [parse] is what a message holds after
    [ParseFromString], whatever that returns.  [BuildFileCollectingErrors] takes
    a file whose name is free, or that is there already, when the files it needs
    are there. *)
Class Protobuf (file pool : Type) := {
  file_name : file → string;
  file_dependencies : file → list string;
  well_formed : file → Prop;
  serialize : file → option string;
  parse : string → file;
  parse_serialize f s : serialize f = Some s → parse s = f;
  files : pool → gmap string file;
  build : file → pool → pool * bool;
  build_fails f p : (build f p).2 = false → (build f p).1 = p;
  build_adds f p : (build f p).2 = true → files (build f p).1 = <[file_name f := f]> (files p);
  build_takes f p : well_formed f → (∀ d, d ∈ file_dependencies f → is_Some (files p !! d)) → (files p !! file_name f = None ∨ files p !! file_name f = Some f) → (build f p).2 = true;
}.

Section ProtobufFactory.
Context {file pool : Type} `{!Protobuf file pool}.

(** ** Data *)

(** A [FileDescriptor] with those it depends on. *)
Inductive FileDescriptor := mkFile (proto : file) (dependency : list FileDescriptor).

(** proto/proto_desc.proto. *)
Inductive ProtoDesc := mkDesc (desc : string) (dependencies : list ProtoDesc).

Definition file_of (d : FileDescriptor) : file := match d with mkFile f _ => f end.

(** ** Operations *)

(** The loops over the dependencies stop at the first failure. *)
Section all_descs.
Context (get : FileDescriptor → option ProtoDesc).
Fixpoint all_descs (l : list FileDescriptor) : option (list ProtoDesc) :=
  match l with
  | [] => Some []
  | d :: l => match get d with Some p => match all_descs l with Some ps => Some (p :: ps) | None => None end | None => None end
  end.
End all_descs.

Fixpoint GetProtoDesc (file_desc : FileDescriptor) : option ProtoDesc :=
  match file_desc with
  | mkFile f deps =>
      match serialize f with
      | None => None
      | Some str => match all_descs GetProtoDesc deps with Some ps => Some (mkDesc str ps) | None => None end
      end
  end.

Section all_registered.
Context (register : ProtoDesc → pool → pool * bool).
Fixpoint all_registered (l : list ProtoDesc) (p : pool) : pool * bool :=
  match l with
  | [] => (p, true)
  | dep :: l => let '(p, ok) := register dep p in if ok then all_registered l p else (p, false)
  end.
End all_registered.

Fixpoint RegisterMessage (proto_desc : ProtoDesc) (p : pool) : pool * bool :=
  match proto_desc with
  | mkDesc desc deps =>
      let '(p, ok) := all_registered RegisterMessage deps p in
      if ok then build (parse desc) p else (p, false)
  end.

Definition RegisterPythonMessage (proto_str : string) (p : pool) : pool * bool := build (parse proto_str) p.

(** [RegisterMessage] of a descriptor: its file only. *)
Definition RegisterDescriptor (d : FileDescriptor) (p : pool) : pool * bool := build (file_of d) p.

(** ** The files of a description *)

Fixpoint all_files (d : FileDescriptor) : list file :=
  match d with mkFile f deps => (deps ≫= all_files) ++ [f] end.

(** A descriptor is that of its file: what the file needs are the names of the
    descriptors it depends on. *)
Fixpoint file_ok (d : FileDescriptor) : Prop :=
  match d with mkFile f deps => well_formed f ∧ is_Some (serialize f) ∧ file_dependencies f = (λ d, file_name (file_of d)) <$> deps ∧ foldr (λ d P, file_ok d ∧ P) True deps end.

(** One file for a name, in the pool and in the description. *)
Definition compatible (d : FileDescriptor) (p : pool) : Prop :=
  ∃ u : gmap string file, files p ⊆ u ∧ Forall (λ f, u !! file_name f = Some f) (all_files d).

Lemma FileDescriptor_ind' (P : FileDescriptor → Prop) : (∀ f deps, Forall P deps → P (mkFile f deps)) → ∀ d, P d.
Proof.
  intros H. fix IH 1. intros [f deps]. apply H. induction deps as [|d deps IHd]; constructor; [apply IH|exact IHd].
Qed.

Lemma GetProtoDesc_total d : file_ok d → is_Some (GetProtoDesc d).
Proof.
  induction d as [f deps IH] using FileDescriptor_ind'. simpl. intros (_ & [s ->] & _ & Hd).
  assert (E : is_Some (all_descs GetProtoDesc deps)).
  { induction IH as [|d deps Hp _ IHd]; simpl in *; [by eexists|]. destruct Hd as [H1 H2]. destruct (Hp H1) as [p ->], (IHd H2) as [ps ->]. by eexists. }
  destruct E as [ps ->]. by eexists.
Qed.

(** What registering a description does to a pool that agrees with it. *)
Definition registers (d : FileDescriptor) (x : ProtoDesc) (u : gmap string file) : Prop :=
  ∀ p, files p ⊆ u → (RegisterMessage x p).2 = true ∧ files p ⊆ files (RegisterMessage x p).1 ∧ files (RegisterMessage x p).1 ⊆ u ∧
    Forall (λ f, files (RegisterMessage x p).1 !! file_name f = Some f) (all_files d).

Lemma all_register deps ps u : Forall2 (λ d x, registers d x u) deps ps → ∀ p, files p ⊆ u →
  (all_registered RegisterMessage ps p).2 = true ∧ files p ⊆ files (all_registered RegisterMessage ps p).1 ∧ files (all_registered RegisterMessage ps p).1 ⊆ u ∧
  Forall (λ d, Forall (λ f, files (all_registered RegisterMessage ps p).1 !! file_name f = Some f) (all_files d)) deps.
Proof.
  induction 1 as [|d x deps ps Hd _ IH]; intros p Hu; simpl; [done|].
  destruct (Hd p Hu) as (E1 & E2 & E3 & E4). destruct (RegisterMessage x p) as [p1 ok]. simpl in *. subst ok.
  destruct (IH p1 E3) as (F1 & F2 & F3 & F4). split; [done|]. split; [by trans (files p1)|]. split; [done|]. constructor; [|done].
  eapply Forall_impl; [exact E4|]. intros f Hf. exact (lookup_weaken _ _ _ _ Hf F2).
Qed.

Lemma registers_all d x u : file_ok d → Forall (λ f, u !! file_name f = Some f) (all_files d) → GetProtoDesc d = Some x → registers d x u.
Proof.
  revert x. induction d as [f deps IH] using FileDescriptor_ind'. simpl. intros x (Hw & [s Es] & Ed & Hok) Hu. rewrite Es.
  destruct (all_descs GetProtoDesc deps) as [ps|] eqn:Eps; [|done]. intros [= <-]. apply Forall_app in Hu as [Hu1 Hu2]. rewrite Forall_singleton in Hu2.
  assert (H2 : Forall2 (λ d x, registers d x u) deps ps).
  { clear Ed Hw Es. revert ps Eps. induction IH as [|d deps Hd _ IHd]; simpl in *; intros ps Eps; [injection Eps as <-; constructor|].
    destruct Hok as [H1 H2]. apply Forall_app in Hu1 as [G1 G2]. destruct (GetProtoDesc d) as [y|] eqn:Ey; [|done].
    destruct (all_descs GetProtoDesc deps) as [ys|]; [|done]. injection Eps as <-. constructor; [by apply Hd|by apply IHd]. }
  intros p Hp. destruct (all_register deps ps u H2 p Hp) as (E1 & E2 & E3 & E4). simpl.
  destruct (all_registered RegisterMessage ps p) as [p1 ok]. simpl in *. subst ok. rewrite (parse_serialize f s Es).
  assert (Hb : (build f p1).2 = true).
  { apply build_takes; [done| |].
    - intros d Hd. rewrite Ed in Hd. apply list_elem_of_fmap in Hd as (d' & -> & Hd'). rewrite Forall_forall in E4. specialize (E4 d' Hd').
      destruct d' as [g gs]. simpl in *. apply Forall_app in E4 as [_ E4]. rewrite Forall_singleton in E4. eauto.
    - destruct (files p1 !! file_name f) as [g|] eqn:Eg; [|by left]. right. pose proof (lookup_weaken _ _ _ _ Eg E3). congruence. }
  pose proof (build_adds f p1 Hb) as Ea. split; [done|]. rewrite Ea.
  assert (Hin : files p1 ⊆ <[file_name f := f]> (files p1)).
  { apply map_subseteq_spec. intros n g Hg. destruct (decide (file_name f = n)) as [<-|]; [|by rewrite lookup_insert_ne].
    rewrite lookup_insert_eq. pose proof (lookup_weaken _ _ _ _ Hg E3). congruence. }
  split; [by trans (files p1)|]. split; [by apply insert_subseteq_l|]. apply Forall_app. split; [|rewrite Forall_singleton; by rewrite lookup_insert_eq].
  apply Forall_bind. eapply Forall_impl; [exact E4|]. intros d Hd. eapply Forall_impl; [exact Hd|]. intros g Hg. exact (lookup_weaken _ _ _ _ Hg Hin).
Qed.

(** Property: what a process announces of a type another one can register: if its pool
    has no other file of a name, registering succeeds, the pool then has the
    type's file and all that it needs, directly or not, and nothing is lost. *)
Theorem announced_types_register d p : file_ok d → compatible d p → ∃ x, GetProtoDesc d = Some x ∧ (RegisterMessage x p).2 = true ∧
  files p ⊆ files (RegisterMessage x p).1 ∧ ∀ f, f ∈ all_files d → files (RegisterMessage x p).1 !! file_name f = Some f.
Proof.
  intros Hok (u & Hu & Ha). destruct (GetProtoDesc_total d Hok) as [x Ex]. exists x. split; [done|].
  destruct (registers_all d x u Hok Ha Ex p Hu) as (E1 & E2 & _ & E4). split; [done|]. split; [done|]. by apply Forall_forall.
Qed.

(** A file that many need is written once for each of the ways to it. *)
Fixpoint size_of (x : ProtoDesc) : nat := match x with mkDesc _ deps => S (foldr (λ x n, size_of x + n)%nat 0%nat deps) end.

(** Each of the files needs the two before it. *)
Fixpoint ladder (f : nat → file) (n : nat) : FileDescriptor :=
  match n with
  | O => mkFile (f 0%nat) []
  | S m => mkFile (f n) match m with O => [ladder f m] | S k => [ladder f m; ladder f k] end
  end.

Theorem description_doubles f n : (∀ i, is_Some (serialize (f i))) → ∃ x, GetProtoDesc (ladder f n) = Some x ∧ (2 ^ (n / 2) ≤ size_of x)%nat.
Proof.
  intros Hs. assert (H : ∃ x y, GetProtoDesc (ladder f n) = Some x ∧ GetProtoDesc (ladder f (S n)) = Some y ∧ (2 ^ (n / 2) ≤ size_of x)%nat ∧ (2 ^ (S n / 2) ≤ size_of y)%nat ∧ (size_of x ≤ size_of y)%nat).
  { induction n as [|n (x & y & Ex & Ey & Hx & Hy & Hxy)].
    - destruct (Hs 0%nat) as [a Ea], (Hs 1%nat) as [b Eb]. simpl. rewrite Ea, Eb. do 2 eexists. do 2 (split; [done|]). simpl. lia.
    - exists y. destruct (Hs (S (S n))) as [a Ea]. exists (mkDesc a [y; x]).
      assert (E : GetProtoDesc (ladder f (S (S n))) = Some (mkDesc a [y; x])).
      { change (ladder f (S (S n))) with (mkFile (f (S (S n))) [ladder f (S n); ladder f n]). cbn [GetProtoDesc all_descs]. by rewrite Ea, Ey, Ex. }
      do 2 (split; [done|]). split; [done|]. replace (S (S n) / 2)%nat with (S (n / 2)) by (replace (S (S n)) with (n + 1 * 2)%nat by lia; rewrite Nat.div_add by lia; lia).
      rewrite Nat.pow_succ_r'. cbn [size_of foldr]. lia. }
  destruct H as (x & _ & Ex & _ & Hx & _). by exists x.
Qed.
End ProtobufFactory.

(** ** At work *)

(** Files with a name and what they need; a pool as a table. *)
Record plain_file := mkPlain { plain_name : string; plain_needs : list string }.

#[export] Instance plain_file_eq_dec : EqDecision plain_file.
Proof. solve_decision. Defined.

Definition plain_build (f : plain_file) (p : gmap string plain_file) : gmap string plain_file * bool :=
  if forallb (λ d, bool_decide (is_Some (p !! d))) (plain_needs f) && bool_decide (p !! plain_name f = None ∨ p !! plain_name f = Some f)
  then (<[plain_name f := f]> p, true) else (p, false).

(** A library of three files; what is written of a file is its name. *)
Definition library : list plain_file := [mkPlain "time.proto" []; mkPlain "header.proto" ["time.proto"]; mkPlain "scan.proto" ["header.proto"; "time.proto"]].

Definition plain_parse (s : string) : plain_file := default (mkPlain s []) (head (filter (λ f, plain_name f = s) library)).

Definition plain_serialize (f : plain_file) : option string := if decide (plain_parse (plain_name f) = f) then Some (plain_name f) else None.

#[export] Instance plain_protobuf : Protobuf plain_file (gmap string plain_file).
Proof.
  refine {| file_name := plain_name; file_dependencies := plain_needs; well_formed := λ _, True; serialize := plain_serialize; parse := plain_parse; files := id; build := plain_build |}.
  - intros f s. unfold plain_serialize. destruct (decide _); [|done]. by intros [= <-].
  - intros f p. unfold plain_build. by destruct (_ && _).
  - intros f p. unfold plain_build. by destruct (_ && _).
  - intros f p _ Hd Hn. unfold plain_build. rewrite bool_decide_true by done. rewrite andb_true_r.
    assert (E : forallb (λ d, bool_decide (is_Some (p !! d))) (plain_needs f) = true) by (apply forallb_forall; intros d Hin; apply bool_decide_true, Hd; by apply list_elem_of_In).
    by rewrite E.
Defined.

Definition time_file : FileDescriptor := mkFile (mkPlain "time.proto" []) [].
Definition header_file : FileDescriptor := mkFile (mkPlain "header.proto" ["time.proto"]) [time_file].
Definition scan_file : FileDescriptor := mkFile (mkPlain "scan.proto" ["header.proto"; "time.proto"]) [header_file; time_file].

Lemma announced_types_register_witness : ∃ x, GetProtoDesc scan_file = Some x ∧ size_of x = 4%nat ∧
  (RegisterMessage x ({["time.proto" := mkPlain "time.proto" []]} : gmap string plain_file)).2 = true ∧
  files (RegisterMessage x ({["time.proto" := mkPlain "time.proto" []]} : gmap string plain_file)).1 !! "header.proto" = Some (mkPlain "header.proto" ["time.proto"]).
Proof.
  destruct (announced_types_register scan_file ({["time.proto" := mkPlain "time.proto" []]} : gmap string plain_file)) as (x & Ex & Er & _ & Ef).
  - vm_compute. repeat split; by eexists.
  - exists (list_to_map ((λ f, (plain_name f, f)) <$> library)). split; [apply map_subseteq_spec; intros n f Hf; unfold files in Hf; simpl in Hf; apply lookup_singleton_Some in Hf as [<- <-]; vm_compute; reflexivity|].
    repeat constructor.
  - exists x. split; [exact Ex|]. split; [vm_compute in Ex; injection Ex as <-; reflexivity|]. split; [exact Er|]. apply (Ef (mkPlain "header.proto" ["time.proto"])).
    vm_compute. right. left.
Defined.
