(* ===== verification/Rtps.v ===== *)
(** * The way over the network, and the choice of the way

    [AttributesFiller], [SubListener] and [Participant]
    ([src/code/cyber/transport/rtps/]), [RtpsTransmitter]
    ([transmitter/rtps_transmitter.h]), [RtpsDispatcher]
    ([dispatcher/rtps_dispatcher.h], [rtps_dispatcher.cc]), the receivers of one
    way ([receiver/intra_receiver.h], [shm_receiver.h], [rtps_receiver.h]),
    [Endpoint] ([common/endpoint.cc]), the profiles of [QosProfileConf]
    ([qos/qos_profile_conf.cc]) and [Transport] ([transport.h], [transport.cc]).
    The Fast RTPS library is behind arguments: what it makes publishers and
    subscribers from, and samples that carry 16 bytes and a number of 32 + 32
    bits. *)

From stdpp Require Import base list gmap.
From S2P Require Import Prelude Message.

(** ** Quality of service *)

Inductive QosHistoryPolicy := HISTORY_SYSTEM_DEFAULT | HISTORY_KEEP_LAST | HISTORY_KEEP_ALL.
Inductive QosReliabilityPolicy := RELIABILITY_SYSTEM_DEFAULT | RELIABILITY_RELIABLE | RELIABILITY_BEST_EFFORT.
Inductive QosDurabilityPolicy := DURABILITY_SYSTEM_DEFAULT | DURABILITY_TRANSIENT_LOCAL | DURABILITY_VOLATILE.

Record QosProfile := CreateQosProfile { history : QosHistoryPolicy; depth : Z; mps : Z; reliability : QosReliabilityPolicy; durability : QosDurabilityPolicy }.

Definition QOS_HISTORY_DEPTH_SYSTEM_DEFAULT : Z := 0.
Definition QOS_MPS_SYSTEM_DEFAULT : Z := 0.
Definition QOS_PROFILE_DEFAULT : QosProfile := CreateQosProfile HISTORY_KEEP_LAST 1 QOS_MPS_SYSTEM_DEFAULT RELIABILITY_RELIABLE DURABILITY_VOLATILE.
Definition QOS_PROFILE_SENSOR_DATA : QosProfile := CreateQosProfile HISTORY_KEEP_LAST 5 QOS_MPS_SYSTEM_DEFAULT RELIABILITY_BEST_EFFORT DURABILITY_VOLATILE.
Definition QOS_PROFILE_PARAMETERS : QosProfile := CreateQosProfile HISTORY_KEEP_LAST 1000 QOS_MPS_SYSTEM_DEFAULT RELIABILITY_RELIABLE DURABILITY_VOLATILE.
Definition QOS_PROFILE_SERVICES_DEFAULT : QosProfile := CreateQosProfile HISTORY_KEEP_LAST 10 QOS_MPS_SYSTEM_DEFAULT RELIABILITY_RELIABLE DURABILITY_TRANSIENT_LOCAL.
Definition QOS_PROFILE_PARAM_EVENT : QosProfile := CreateQosProfile HISTORY_KEEP_LAST 1000 QOS_MPS_SYSTEM_DEFAULT RELIABILITY_RELIABLE DURABILITY_VOLATILE.
Definition QOS_PROFILE_SYSTEM_DEFAULT : QosProfile := CreateQosProfile HISTORY_SYSTEM_DEFAULT QOS_HISTORY_DEPTH_SYSTEM_DEFAULT QOS_MPS_SYSTEM_DEFAULT RELIABILITY_RELIABLE DURABILITY_TRANSIENT_LOCAL.
Definition QOS_PROFILE_TF_STATIC : QosProfile := CreateQosProfile HISTORY_KEEP_ALL 10 QOS_MPS_SYSTEM_DEFAULT RELIABILITY_RELIABLE DURABILITY_TRANSIENT_LOCAL.
Definition QOS_PROFILE_TOPO_CHANGE : QosProfile := CreateQosProfile HISTORY_KEEP_ALL 10 QOS_MPS_SYSTEM_DEFAULT RELIABILITY_RELIABLE DURABILITY_TRANSIENT_LOCAL.

(** ** [AttributesFiller] *)

Inductive HistoryKind := KEEP_LAST_HISTORY_QOS | KEEP_ALL_HISTORY_QOS.
Inductive DurabilityKind := TRANSIENT_LOCAL_DURABILITY_QOS | VOLATILE_DURABILITY_QOS | OtherDurability.
Inductive ReliabilityKind := BEST_EFFORT_RELIABILITY_QOS | RELIABLE_RELIABILITY_QOS.

(** What both sides have in common, and the period of the heartbeat of a
    publisher in seconds and fractions of 32 bits. *)
Record Attributes := mkAttributes { topicName : list Z; history_kind : HistoryKind; history_depth : Z; durability_kind : DurabilityKind; reliability_kind : ReliabilityKind; max_samples : Z }.
Record Duration_t := mkDuration_t { seconds : Z; fraction : Z }.

(** The policies that the profile names; [SYSTEM_DEFAULT] leaves the attributes
    as the library has made them.  [None]: the depth does not fit. *)
Definition fill (channel_name : list Z) (qos : QosProfile) (a : Attributes) : option Attributes :=
  let h := match history qos with HISTORY_KEEP_LAST => KEEP_LAST_HISTORY_QOS | HISTORY_KEEP_ALL => KEEP_ALL_HISTORY_QOS | HISTORY_SYSTEM_DEFAULT => history_kind a end in
  let d := match durability qos with DURABILITY_TRANSIENT_LOCAL => TRANSIENT_LOCAL_DURABILITY_QOS | DURABILITY_VOLATILE => VOLATILE_DURABILITY_QOS | DURABILITY_SYSTEM_DEFAULT => durability_kind a end in
  let r := match reliability qos with RELIABILITY_BEST_EFFORT => BEST_EFFORT_RELIABILITY_QOS | RELIABILITY_RELIABLE => RELIABLE_RELIABILITY_QOS | RELIABILITY_SYSTEM_DEFAULT => reliability_kind a end in
  let n := if depth qos =? QOS_HISTORY_DEPTH_SYSTEM_DEFAULT then history_depth a else i32 (depth qos) in
  if n <? 0 then None else Some (mkAttributes channel_name h n d r 10000).

Definition heartbeat (qos : QosProfile) : Duration_t :=
  if mps qos =? 0 then mkDuration_t 1 0
  else
    let m := if 1024 <? mps qos then 1024 else if mps qos <? 64 then 64 else mps qos in
    let fractions := u64 (Z.shiftl 256 32) / m in
    mkDuration_t (i32 (Z.shiftr fractions 32)) (Z.land fractions 0xffffffff).

Definition FillInPubAttr (channel_name : list Z) (qos : QosProfile) (a : Attributes) : option (Attributes * Duration_t) :=
  match fill channel_name qos a with Some a => Some (a, heartbeat qos) | None => None end.

Definition FillInSubAttr (channel_name : list Z) (qos : QosProfile) (a : Attributes) : option Attributes := fill channel_name qos a.

(** A publisher and a subscriber of one profile agree in all that the profile
    names; that fails only where the depth is not an [int]. *)
Lemma profile_is_agreed ch qos a a' : 0 < depth qos → history qos ≠ HISTORY_SYSTEM_DEFAULT → reliability qos ≠ RELIABILITY_SYSTEM_DEFAULT → durability qos ≠ DURABILITY_SYSTEM_DEFAULT →
  fst <$> FillInPubAttr ch qos a = FillInSubAttr ch qos a'.
Proof.
  intros Hd Hh Hr Hu. unfold FillInPubAttr, FillInSubAttr, fill. unfold QOS_HISTORY_DEPTH_SYSTEM_DEFAULT. rewrite (proj2 (Z.eqb_neq (depth qos) 0)) by lia.
  destruct (history qos), (reliability qos), (durability qos); try done; by destruct (_ <? 0).
Qed.

(** Property: the heartbeat of a publisher comes every 256 messages: its period times
    the messages per second is 256 seconds, but for less than the smallest
    fraction for each message; the rate is taken to be between 64 and 1024, so
    that the period is between a quarter of a second and four seconds. *)
Theorem heartbeat_every_256_messages qos : in_u 32 (mps qos) → mps qos ≠ 0 →
  let period := seconds (heartbeat qos) * 2 ^ 32 + fraction (heartbeat qos) in
  let rate := Z.max 64 (Z.min 1024 (mps qos)) in
  256 * 2 ^ 32 - rate < period * rate ≤ 256 * 2 ^ 32 ∧ 2 ^ 30 ≤ period ≤ 4 * 2 ^ 32 ∧ 0 ≤ fraction (heartbeat qos) < 2 ^ 32.
Proof.
  intros Hm Hz. unfold heartbeat. rewrite (proj2 (Z.eqb_neq _ _) Hz). set (rate := Z.max 64 (Z.min 1024 (mps qos))).
  assert (Er : (if 1024 <? mps qos then 1024 else if mps qos <? 64 then 64 else mps qos) = rate) by (destruct (Z.ltb_spec 1024 (mps qos)), (Z.ltb_spec (mps qos) 64); lia). rewrite Er.
  change (u64 (Z.shiftl 256 32)) with (256 * 2 ^ 32). set (f := 256 * 2 ^ 32 / rate). assert (Hr : 64 ≤ rate ≤ 1024) by lia.
  pose proof (Z.div_mod (256 * 2 ^ 32) rate ltac:(lia)) as Hd. pose proof (Z.mod_pos_bound (256 * 2 ^ 32) rate ltac:(lia)) as Hb. fold f in Hd.
  assert (Hf : 2 ^ 30 ≤ f ≤ 4 * 2 ^ 32).
  { unfold f. split; [apply Z.div_le_lower_bound; lia|]. apply Z.lt_succ_r, Z.div_lt_upper_bound; lia. }
  cbn [seconds fraction]. change 0xffffffff with (Z.ones 32). rewrite Z.land_ones, Z.shiftr_div_pow2 by lia.
  pose proof (Z.div_mod f (2 ^ 32) ltac:(lia)) as Hs. pose proof (Z.mod_pos_bound f (2 ^ 32) ltac:(lia)) as Hs2.
  rewrite swrap_small; [|lia|unfold in_s; lia]. replace (f / 2 ^ 32 * 2 ^ 32 + f mod 2 ^ 32) with f by lia. lia.
Qed.

Lemma heartbeat_every_256_messages_witness : let period := seconds (heartbeat (CreateQosProfile HISTORY_KEEP_LAST 1 100 RELIABILITY_RELIABLE DURABILITY_VOLATILE)) * 2 ^ 32 + fraction (heartbeat (CreateQosProfile HISTORY_KEEP_LAST 1 100 RELIABILITY_RELIABLE DURABILITY_VOLATILE)) in
  256 * 2 ^ 32 - 100 < period * 100 ≤ 256 * 2 ^ 32 ∧ 2 ^ 30 ≤ period ≤ 4 * 2 ^ 32 ∧ 0 ≤ fraction (heartbeat (CreateQosProfile HISTORY_KEEP_LAST 1 100 RELIABILITY_RELIABLE DURABILITY_VOLATILE)) < 2 ^ 32.
Proof. apply (heartbeat_every_256_messages (CreateQosProfile HISTORY_KEEP_LAST 1 100 RELIABILITY_RELIABLE DURABILITY_VOLATILE)); [unfold in_u; simpl; lia|discriminate]. Defined.

(** A depth of more than an [int] is refused. *)
Theorem huge_depth_is_refused ch qos a : 2 ^ 31 ≤ depth qos < 2 ^ 32 → FillInPubAttr ch qos a = None ∧ FillInSubAttr ch qos a = None.
Proof.
  intros Hd. assert (E : fill ch qos a = None).
  { unfold fill, QOS_HISTORY_DEPTH_SYSTEM_DEFAULT. rewrite (proj2 (Z.eqb_neq (depth qos) 0)) by lia.
    assert (Ei : i32 (depth qos) = depth qos - 2 ^ 32). { rewrite <- (swrap_small 32 ltac:(lia) (depth qos - 2 ^ 32)) by (unfold in_s; lia). unfold swrap. replace (depth qos + 2 ^ (32 - 1)) with (depth qos - 2 ^ 32 + 2 ^ (32 - 1) + 1 * 2 ^ 32) by lia. by rewrite Z_mod_plus_full. }
    rewrite Ei. destruct (Z.ltb_spec (depth qos - 2 ^ 32) 0); [done|lia]. }
  unfold FillInPubAttr, FillInSubAttr. by rewrite E.
Qed.

(** ** Samples *)

Section Rtps.
Context (hash : list Z → Z).

(** [related_sample_identity]: 16 bytes, and a number as an [int32_t] and a
    [uint32_t]. *)
Record WriteParams := mkParams { writer_guid : list Z; seq_high : Z; seq_low : Z }.

(** [RtpsTransmitter::Transmit]. *)
Definition params_of (msg_info : MessageInfo) : WriteParams :=
  mkParams (take ID_SIZE (data_ (sender_id_ msg_info)) ++ take ID_SIZE (data_ (spare_id_ msg_info)))
    (i32 (Z.shiftr (Z.land (seq_num_ msg_info) 0xFFFFFFFF00000000) 32)) (u32 (i32 (Z.land (seq_num_ msg_info) 0xFFFFFFFF))).

(** [SubListener::onNewDataMessage] fills the [MessageInfo] that it keeps. *)
Definition info_of (p : WriteParams) (msg_info_ : MessageInfo) : MessageInfo :=
  mkInfo (set_data hash (writer_guid p)) (channel_id_ msg_info_) (u64 (Z.lor (i64 (Z.shiftl (seq_high p) 32)) (seq_low p))) (set_data hash (drop ID_SIZE (writer_guid p))).

Lemma seq_halves n : in_u 64 n → u64 (Z.lor (i64 (Z.shiftl (i32 (Z.shiftr (Z.land n 0xFFFFFFFF00000000) 32)) 32)) (u32 (i32 (Z.land n 0xFFFFFFFF)))) = n.
Proof.
  intros Hn. rewrite land_high by done. change 0xFFFFFFFF with (Z.ones 32). rewrite Z.land_ones by lia.
  assert (H1 : in_u 32 (n mod 2 ^ 32)) by (unfold in_u; apply Z.mod_pos_bound; lia).
  rewrite wrap_swrap, (wrap_small 32 (n mod 2 ^ 32)) by done. rewrite Z.shiftl_mul_pow2 by lia.
  assert (H2 : 0 ≤ n / 2 ^ 32 < 2 ^ 32) by (split; [apply Z.div_pos; unfold in_u in Hn; lia|apply Z.div_lt_upper_bound; unfold in_u in Hn; lia]).
  assert (E : i64 (i32 (n / 2 ^ 32) * 2 ^ 32) = i32 (n / 2 ^ 32) * 2 ^ 32) by (apply swrap_small; [lia|]; pose proof (swrap_bound 32 ltac:(lia) (n / 2 ^ 32)) as Hs; unfold in_s in *; lia).
  rewrite E. set (h := i32 (n / 2 ^ 32)).
  assert (El : Z.land (h * 2 ^ 32) (n mod 2 ^ 32) = 0).
  { apply Z.bits_inj'. intros i Hi. rewrite Z.land_spec, Z.bits_0. destruct (Z.lt_ge_cases i 32).
    - rewrite <- Z.shiftl_mul_pow2, Z.shiftl_spec_low by lia. done.
    - rewrite (Z.mod_pow2_bits_high n 32 i) by lia. apply andb_false_r. }
  rewrite <- Z.lxor_lor, <- Z.add_nocarry_lxor by done.
  assert (Ew : h mod 2 ^ 32 = n / 2 ^ 32). { change (u32 h = n / 2 ^ 32). unfold h. rewrite wrap_swrap by lia. by apply wrap_small. }
  pose proof (Z.div_mod h (2 ^ 32) ltac:(lia)) as Hd. rewrite Ew in Hd. pose proof (Z.div_mod n (2 ^ 32) ltac:(lia)) as Hd2.
  unfold wrap. replace (h * 2 ^ 32 + n mod 2 ^ 32) with (n + (h / 2 ^ 32) * 2 ^ 64) by lia. rewrite Z_mod_plus_full. apply Z.mod_small. exact Hn.
Qed.

(** ** Publisher and subscriber *)

(** [P] is what the library knows a participant, a publisher or a subscriber by.
    A participant is made when it is first asked for; a failure is tried again. *)
Context {P : Type}.

Record Participant := mkParticipant { p_shutdown_ : bool; fastrtps_participant_ : option P }.

Definition fastrtps_participant (made : option P) (p : Participant) : Participant * option P :=
  if p_shutdown_ p then (p, None)
  else match fastrtps_participant_ p with
       | Some x => (p, Some x)
       | None => (mkParticipant false made, made)
       end.

Definition Participant_Shutdown (p : Participant) : Participant := if p_shutdown_ p then p else mkParticipant true None.

Record RtpsTransmitter := mkRtps { enabled_ : bool; t_channel_ : list Z; t_qos_ : QosProfile; publisher_ : option P }.

(** [create] is [createPublisher]. *)
Definition Rtps_Enable (has_participant : bool) (made : option P) (create : option P → Attributes * Duration_t → option P) (default_attr : Attributes) (p : Participant) (t : RtpsTransmitter) : Participant * RtpsTransmitter :=
  if enabled_ t then (p, t)
  else if negb has_participant then (p, t)
  else
    match FillInPubAttr (t_channel_ t) (t_qos_ t) default_attr with
    | None => (p, t)
    | Some pub_attr =>
        let '(p, x) := fastrtps_participant made p in
        match create x pub_attr with
        | None => (p, mkRtps false (t_channel_ t) (t_qos_ t) None)
        | Some pub => (p, mkRtps true (t_channel_ t) (t_qos_ t) (Some pub))
        end
    end.

Definition Rtps_Disable (t : RtpsTransmitter) : RtpsTransmitter :=
  if enabled_ t then mkRtps false (t_channel_ t) (t_qos_ t) None else t.

(** What is given to the publisher, if anything is. *)
Definition Rtps_Transmit (p : Participant) (serialized : option (list Z)) (msg_info : MessageInfo) (t : RtpsTransmitter) : option (list Z * WriteParams) :=
  if negb (enabled_ t) then None
  else match serialized with
       | None => None
       | Some m => if p_shutdown_ p then None else Some (m, params_of msg_info)
       end.

Record RtpsDispatcher := mkDispatcher { is_shutdown_ : bool; has_participant_ : bool; subs_ : gmap Z (option P); listeners : gmap Z nat }.

(** [AddListener] and [AddSubscriber]: one subscriber for a channel, with the
    profile of the first that asks. *)
Definition AddSubscriber (create : Attributes → option P) (default_attr : Attributes) (channel_id : Z) (channel : list Z) (qos : QosProfile) (d : RtpsDispatcher) : RtpsDispatcher :=
  if negb (has_participant_ d) then d
  else match subs_ d !! channel_id with
       | Some _ => d
       | None =>
           match FillInSubAttr channel qos default_attr with
           | None => d
           | Some a => match create a with None => d | Some s => mkDispatcher (is_shutdown_ d) true (<[channel_id := Some s]> (subs_ d)) (listeners d) end
           end
       end.

Definition Rtps_AddListener (create : Attributes → option P) (default_attr : Attributes) (channel_id : Z) (channel : list Z) (qos : QosProfile) (d : RtpsDispatcher) : RtpsDispatcher :=
  if is_shutdown_ d then AddSubscriber create default_attr channel_id channel qos d
  else AddSubscriber create default_attr channel_id channel qos (mkDispatcher false (has_participant_ d) (subs_ d) (partial_alter (λ n, Some (S (default 0%nat n))) channel_id (listeners d))).

Definition Rtps_Shutdown (d : RtpsDispatcher) : RtpsDispatcher :=
  if is_shutdown_ d then d else mkDispatcher true false ((λ _, None) <$> subs_ d) (listeners d).

(** A sample that has come: [takeNextData] may fail, and there are samples that
    only say that a writer is gone.  The callback's arguments. *)
Record SubListener := mkSub { msg_info_ : MessageInfo }.

Definition onNewDataMessage (topic_id : Z) (taken alive : bool) (data : list Z) (p : WriteParams) (s : SubListener) : SubListener * option (Z * list Z * MessageInfo) :=
  if negb taken then (s, None)
  else if negb alive then (s, None)
  else let i := info_of p (msg_info_ s) in (mkSub i, Some (topic_id, data, i)).

(** [RtpsDispatcher::OnMessage]: how many listeners hear of it. *)
Definition OnMessage (channel_id : Z) (d : RtpsDispatcher) : nat := if is_shutdown_ d then 0 else default 0%nat (listeners d !! channel_id).

(** C37: what a transmitter that is enabled gives to the network, and a
    subscriber takes from it, arrives as it was: the bytes of the message, who
    sent it, its spare identity, and its number, all 64 bits of it. *)
Theorem rtps_carries_message_and_info p m i t topic s : info_ok i → enabled_ t = true → p_shutdown_ p = false →
  (∀ j, j = sender_id_ i ∨ j = spare_id_ i → hash_value_ j = hash (data_ j)) →
  ∃ w, Rtps_Transmit p (Some m) i t = Some (m, w) ∧
    ∃ i', onNewDataMessage topic true true m w s = (mkSub i', Some (topic, m, i')) ∧ sender_id_ i' = sender_id_ i ∧ spare_id_ i' = spare_id_ i ∧ seq_num_ i' = seq_num_ i ∧ channel_id_ i' = channel_id_ (msg_info_ s).
Proof.
  intros (H1 & H2 & H3) He Hp Hh. unfold Rtps_Transmit. rewrite He, Hp. simpl. eexists. split; [done|]. eexists. split; [reflexivity|]. simpl.
  unfold identity_ok in *. destruct i as [[sd sh] c n [pd ph]]. simpl in *. rewrite !(take_ge _ ID_SIZE) by lia.
  unfold set_data. rewrite take_app_length', drop_app_length' by done. rewrite (take_ge pd) by lia. rewrite seq_halves by done.
  split_and!; try done; f_equal; symmetry; [apply (Hh (mkIdentity sd sh)); by left|apply (Hh (mkIdentity pd ph)); by right].
Qed.

(** The second reader's profile does not matter: the subscriber stays. *)
Lemma first_profile_stays create a c ch ch' q q' d : is_Some (subs_ (AddSubscriber create a c ch q d) !! c) →
  subs_ (AddSubscriber create a c ch' q' (AddSubscriber create a c ch q d)) = subs_ (AddSubscriber create a c ch q d).
Proof. intros [s Es]. unfold AddSubscriber at 1. destruct (negb _); [done|]. by rewrite Es. Qed.
End Rtps.

Lemma rtps_carries_message_and_info_witness : let hash := λ l : list Z, zlen l in
  let i := mkInfo (mkIdentity (zeros 8) 8) 1 (2 ^ 64 - 5) (mkIdentity [1; 2; 3; 4; 5; 6; 7; 8] 8) in
  ∃ w, Rtps_Transmit (P := nat) (mkParticipant false (Some 0%nat)) (Some [104; 105]) i (mkRtps true [] QOS_PROFILE_DEFAULT (Some 1%nat)) = Some ([104; 105], w) ∧
    ∃ i', onNewDataMessage hash 77 true true [104; 105] w (mkSub i) = (mkSub i', Some (77, [104; 105], i')) ∧ sender_id_ i' = sender_id_ i ∧ spare_id_ i' = spare_id_ i ∧ seq_num_ i' = 2 ^ 64 - 5 ∧ channel_id_ i' = 1.
Proof.
  intros hash i. apply (rtps_carries_message_and_info hash (mkParticipant false (Some 0%nat)) [104; 105] i (mkRtps true [] QOS_PROFILE_DEFAULT (Some 1%nat)) 77 (mkSub i)).
  - repeat split; unfold in_u; simpl; lia.
  - reflexivity.
  - reflexivity.
  - intros j [->| ->]; reflexivity.
Defined.

(** ** Receivers of one way *)

Section Receiver.
Context {A : Type} `{!EqDecision A} `{!Countable A}.

(** What a receiver asks of its dispatcher ([IntraDispatcher], [ShmDispatcher]
    or [RtpsDispatcher]): to listen to a whole channel, or to one writer of it. *)
Record Receiver := mkReceiver { r_enabled_ : bool; listens : bool; listens_to : gset A }.

Definition Receiver_new : Receiver := mkReceiver false false ∅.
Definition Receiver_Enable (r : Receiver) : Receiver := if r_enabled_ r then r else mkReceiver true true (listens_to r).
Definition Receiver_Disable (r : Receiver) : Receiver := if r_enabled_ r then mkReceiver false false (listens_to r) else r.
Definition Receiver_Enable_to (a : A) (r : Receiver) : Receiver := mkReceiver (r_enabled_ r) (listens r) ({[a]} ∪ listens_to r).
Definition Receiver_Disable_to (a : A) (r : Receiver) : Receiver := mkReceiver (r_enabled_ r) (listens r) (listens_to r ∖ {[a]}).

(** The destructor calls [Disable]. *)
Definition Receiver_delete (r : Receiver) : Receiver := Receiver_Disable r.

Inductive receiver_call := CallEnable | CallDisable | CallEnableTo (a : A) | CallDisableTo (a : A).

Definition receiver_exec (r : Receiver) (c : receiver_call) : Receiver :=
  match c with CallEnable => Receiver_Enable r | CallDisable => Receiver_Disable r | CallEnableTo a => Receiver_Enable_to a r | CallDisableTo a => Receiver_Disable_to a r end.

(** It listens to the channel exactly when it is enabled, and to the writers
    whose last call was to enable. *)
Definition wants (cs : list receiver_call) (a : A) : bool :=
  foldl (λ b c, match c with CallEnableTo a' => if bool_decide (a' = a) then true else b | CallDisableTo a' => if bool_decide (a' = a) then false else b | _ => b end) false cs.

Lemma receiver_listens cs r : r = foldl receiver_exec Receiver_new cs → listens r = r_enabled_ r ∧ ∀ a, a ∈ listens_to r ↔ wants cs a = true.
Proof.
  intros ->. unfold wants. assert (H : ∀ cs r f, listens r = r_enabled_ r → (∀ a, a ∈ listens_to r ↔ f a = true) →
    listens (foldl receiver_exec r cs) = r_enabled_ (foldl receiver_exec r cs) ∧ ∀ a, a ∈ listens_to (foldl receiver_exec r cs) ↔
      foldl (λ b c, match c with CallEnableTo a' => if bool_decide (a' = a) then true else b | CallDisableTo a' => if bool_decide (a' = a) then false else b | _ => b end) (f a) cs = true).
  { clear. induction cs as [|c cs IH]; intros r f Hl Hf; simpl; [by auto|].
    apply (IH (receiver_exec r c) (λ a, match c with CallEnableTo a' => if bool_decide (a' = a) then true else f a | CallDisableTo a' => if bool_decide (a' = a) then false else f a | _ => f a end)).
    - destruct c; simpl; try done; unfold Receiver_Enable, Receiver_Disable; by destruct (r_enabled_ r) eqn:E; rewrite ?E.
    - intros a. destruct c as [| |a'|a']; simpl.
      + unfold Receiver_Enable. destruct (r_enabled_ r); apply Hf.
      + unfold Receiver_Disable. destruct (r_enabled_ r); apply Hf.
      + case_bool_decide; subst; [set_solver|]. rewrite <- Hf. set_solver.
      + case_bool_decide; subst; [set_solver|]. rewrite <- Hf. set_solver. }
  apply (H cs Receiver_new (λ _, false)); [done|set_solver].
Qed.

(** A receiver that is deleted with writers enabled stays a listener of them:
    the dispatcher keeps a callback into memory that is gone. *)
Theorem deleted_receiver_listens a : a ∈ listens_to (Receiver_delete (Receiver_Enable_to a Receiver_new)).
Proof. unfold Receiver_delete, Receiver_Disable. simpl. set_solver. Qed.
End Receiver.

(** ** [Endpoint] and [Transport] *)

Record RoleAttributes := mkRole { host_name : option (list Z); process_id : option Z; role_id : option Z; qos_profile : option QosProfile }.

(** The constructor fills in what is missing. *)
Definition Endpoint_new (host : list Z) (pid hash_value : Z) (attr : RoleAttributes) : RoleAttributes :=
  mkRole (Some (default host (host_name attr))) (Some (default pid (process_id attr))) (Some (default hash_value (role_id attr))) (qos_profile attr).

Inductive OptionalMode := HYBRID | INTRA | SHM | RTPS.

(** What is made, and whether [Enable] was called. *)
Record made_endpoint := mkMade { way : OptionalMode; made_attr : RoleAttributes; called_enable : bool }.

(** [CreateTransmitter] and [CreateReceiver]. *)
Definition Create (host : list Z) (pid hash_value : Z) (is_shutdown : bool) (attr : RoleAttributes) (mode : OptionalMode) : option made_endpoint :=
  if is_shutdown then None
  else
    let modified_attr := match qos_profile attr with Some _ => attr | None => mkRole (host_name attr) (process_id attr) (role_id attr) (Some QOS_PROFILE_DEFAULT) end in
    Some (mkMade mode (Endpoint_new host pid hash_value modified_attr) (match mode with HYBRID => false | _ => true end)).

(** What is made is complete, and nothing is made after [Shutdown]. *)
Lemma created_is_complete host pid hv down attr mode : match Create host pid hv down attr mode with
  | None => down = true
  | Some e => down = false ∧ way e = mode ∧ (called_enable e = false ↔ mode = HYBRID) ∧ is_Some (host_name (made_attr e)) ∧ is_Some (process_id (made_attr e)) ∧ is_Some (role_id (made_attr e)) ∧
      qos_profile (made_attr e) = Some (default QOS_PROFILE_DEFAULT (qos_profile attr)) ∧ (∀ h, host_name attr = Some h → host_name (made_attr e) = Some h)
  end.
Proof.
  unfold Create. destruct down; [done|]. unfold Endpoint_new. simpl. destruct (qos_profile attr) eqn:Eq; simpl; rewrite ?Eq; split_and!; eauto; try (by destruct mode); by intros h ->.
Qed.

(** [Transport::Shutdown], once: which parts are shut down, in order. *)
Inductive part := PIntra | PShm | PRtps | PNotifier | PParticipant.

Definition Transport_Shutdown (is_shutdown has_participant : bool) : bool * list part :=
  if is_shutdown then (true, []) else (true, [PIntra; PShm; PRtps; PNotifier] ++ if has_participant then [PParticipant] else []).

(** A way that cannot be opened is returned as if it could: nobody looks at the
    state after [Enable]. *)
Theorem unopened_transmitter_is_returned host pid hv attr : ∃ e, Create host pid hv false attr RTPS = Some e ∧ called_enable e = true ∧
  ∀ ch q a, enabled_ (Rtps_Enable (P := nat) true None (λ _ _, None) a (mkParticipant false None) (mkRtps false ch q None)).2 = false.
Proof. eexists. split; [done|]. split; [done|]. intros ch q a. unfold Rtps_Enable. simpl. by destruct (FillInPubAttr ch q a). Qed.
