(* ===== verification/PerfEvents.v ===== *)
(** * Performance events

    [PerfEventCache] ([src/code/cyber/event/perf_event_cache.h],
    [perf_event_cache.cc]) takes events of the scheduler and of the transport
    ([perf_event.h]) from any thread, and writes them to a file in a thread of
    its own; between them is the queue of BoundedQueue, whose operations are
    taken as single steps here.  The names of tasks and channels, the clock and
    the form of numbers are arguments. *)

From stdpp Require Import base list strings pretty.
From S2P Require Import Prelude BoundedQueue.

Section Events.
Context (GetTaskNameById GetChannelById : Z → string).

(** ** Events *)

Inductive event :=
| SchedEvent (eid : Z) (cr_id proc_id cr_state stamp : Z)
| TransportEvent (eid : Z) (channel_id msg_seq stamp : Z) (adder : string).

Definition etype (e : event) : Z := match e with SchedEvent _ _ _ _ _ => 0 | TransportEvent _ _ _ _ _ => 1 end.

Definition tab : string := String (Ascii.ascii_of_nat 9) EmptyString.

Definition fields (l : list string) : string := String.concat tab l.

Definition SerializeToString (e : event) : string :=
  match e with
  | SchedEvent eid cr_id proc_id cr_state stamp => fields [pretty (etype e); pretty eid; GetTaskNameById cr_id; pretty proc_id; pretty cr_state; pretty stamp]
  | TransportEvent eid channel_id msg_seq stamp adder => fields [pretty (etype e); pretty eid; GetChannelById channel_id; pretty msg_seq; pretty stamp; adder]
  end.

Inductive TransPerf := TRANSMIT_BEGIN | SERIALIZE | SEND | MESSAGE_ARRIVE | OBTAIN | DESERIALIZE | DISPATCH | NOTIFY | FETCH | CALLBACK | TRANS_END.

Definition ShowTransPerf (type : TransPerf) : string :=
  match type with
  | TRANSMIT_BEGIN => "TRANSMIT_BEGIN" | SERIALIZE => "SERIALIZE" | SEND => "SEND" | MESSAGE_ARRIVE => "MESSAGE_ARRIVE" | OBTAIN => "OBTAIN"
  | DESERIALIZE => "DESERIALIZE" | DISPATCH => "DISPATCH" | NOTIFY => "NOTIFY" | FETCH => "FETCH" | CALLBACK => "CALLBACK" | TRANS_END => EmptyString
  end.

(** ** The cache *)

Inductive PerfType := SCHED | TRANSPORT | DATA_CACHE | ALL.

#[global] Instance PerfType_eq_dec : EqDecision PerfType.
Proof. solve_decision. Defined.

(** [running] is whether the thread has not left its loop.  [offered] is not
    part of the program: the events that passed the tests, and whether the queue
    took them. *)
Record PerfEventCache := mkCache {
  enable_ : bool; shutdown_ : bool; type_ : PerfType; event_queue_ : BoundedQueue event; running : bool;
  of_ : list string; buf_size : Z; flushed : nat; closed : bool; offered : list (event * bool) }.

Definition kFlushSize : Z := 512.
Definition kEventQueueSize : Z := 8192.

(** The constructor, and [Start], whose first line is the time. *)
Definition PerfEventCache_new (dflt : event) (conf : option (bool * PerfType)) (now : Z) : PerfEventCache :=
  match conf with
  | Some (true, t) => mkCache true false t (Init dflt kEventQueueSize) true [pretty now] 0 0 false []
  | Some (false, t) => mkCache false false t (Init dflt 0) false [] 0 0 false []
  | None => mkCache false false ALL (Init dflt 0) false [] 0 0 false []
  end.

Definition enqueue_event (e : event) (c : PerfEventCache) : PerfEventCache :=
  let '(ok, q) := Enqueue (event_queue_ c) e in
  mkCache (enable_ c) (shutdown_ c) (type_ c) q (running c) (of_ c) (buf_size c) (flushed c) (closed c) (offered c ++ [(e, ok)]).

Definition AddSchedEvent (event_id cr_id proc_id cr_state now : Z) (c : PerfEventCache) : PerfEventCache :=
  if negb (enable_ c) then c
  else if bool_decide (type_ c ≠ SCHED) && bool_decide (type_ c ≠ ALL) then c
  else enqueue_event (SchedEvent event_id cr_id proc_id cr_state now) c.

Definition AddTransportEvent (event_id channel_id msg_seq stamp : Z) (adder : string) (now : Z) (c : PerfEventCache) : PerfEventCache :=
  if negb (enable_ c) then c
  else if bool_decide (type_ c ≠ TRANSPORT) && bool_decide (type_ c ≠ ALL) then c
  else enqueue_event (TransportEvent event_id channel_id msg_seq (if stamp =? 0 then now else stamp) adder) c.

(** A turn of the loop of [Run]; [is_shutdown] is the state of the process, and
    the wait of [WaitDequeue] is a turn that changes nothing. *)
Definition Run (is_shutdown : bool) (c : PerfEventCache) : option PerfEventCache :=
  if negb (running c) then None
  else if shutdown_ c || is_shutdown
  then Some (mkCache (enable_ c) (shutdown_ c) (type_ c) (event_queue_ c) false (of_ c) (buf_size c) (flushed c) (closed c) (offered c))
  else
    match WaitDequeue [mkRound (event_queue_ c) true] with
    | WaitDone _ e q =>
        let lines := of_ c ++ [SerializeToString e] in
        let n := buf_size c + 1 in
        Some (if kFlushSize <=? n then mkCache (enable_ c) (shutdown_ c) (type_ c) q true lines 0 (length lines) (closed c) (offered c)
              else mkCache (enable_ c) (shutdown_ c) (type_ c) q true lines n (flushed c) (closed c) (offered c))
    | _ => Some c
    end.

(** [Shutdown] up to the join, and after it. *)
Definition Shutdown_begin (c : PerfEventCache) : PerfEventCache :=
  if negb (enable_ c) then c
  else mkCache (enable_ c) true (type_ c) (BreakAllWait (event_queue_ c)) (running c) (of_ c) (buf_size c) (flushed c) (closed c) (offered c).

Definition Shutdown_end (now : Z) (c : PerfEventCache) : option PerfEventCache :=
  if enable_ c && shutdown_ c && negb (running c) && negb (closed c)
  then Some (mkCache (enable_ c) true (type_ c) (event_queue_ c) false (of_ c ++ [pretty now]) (buf_size c) (length (of_ c ++ [pretty now])) true (offered c))
  else None.

Inductive label :=
| DoSched (event_id cr_id proc_id cr_state now : Z)
| DoTransport (event_id channel_id msg_seq stamp : Z) (adder : string) (now : Z)
| DoRun (is_shutdown : bool)
| DoShutdown
| DoShutdownEnd (now : Z).

Definition exec (c : PerfEventCache) (l : label) : option PerfEventCache :=
  match l with
  | DoSched a b d f now => Some (AddSchedEvent a b d f now c)
  | DoTransport a b d s x now => Some (AddTransportEvent a b d s x now c)
  | DoRun b => Run b c
  | DoShutdown => Some (Shutdown_begin c)
  | DoShutdownEnd now => Shutdown_end now c
  end.

(** ** What is in the file *)

Definition taken (l : list (event * bool)) : list event := (filter (λ x : event * bool, x.2 = true) l).*1.

(** [head] is the first line, [l] what is in the queue, [w] the events that have
    been written; [k] bounds the number of steps. *)
Definition cache_ok (head : string) (k : nat) (c : PerfEventCache) : Prop :=
  ∃ l w, quiescent (event_queue_ c) l ∧ pool_size_ (event_queue_ c) = kEventQueueSize + 2 ∧ tail_ (event_queue_ c) ≤ 1 + Z.of_nat k ∧
    taken (offered c) = w ++ l ∧ (closed c = false → of_ c = head :: (SerializeToString <$> w)) ∧
    (closed c = true → ∃ now : Z, of_ c = head :: (SerializeToString <$> w) ++ [pretty now]) ∧ (closed c = true → running c = false ∧ flushed c = length (of_ c)).

Lemma taken_app l x : taken (l ++ [x]) = taken l ++ (if x.2 then [x.1] else []).
Proof using Type. unfold taken. rewrite filter_app, fmap_app. destruct x as [e []]; simpl; by rewrite ?filter_cons_True, ?filter_cons_False. Qed.

Lemma Enqueue_frame {T} (q : BoundedQueue T) x : pool_size_ (Enqueue q x).2 = pool_size_ q ∧ (tail_ (Enqueue q x).2 = tail_ q ∨ tail_ (Enqueue q x).2 = u64 (tail_ q + 1)).
Proof using Type. unfold Enqueue. destruct (_ =? _); simpl; auto. Qed.

Lemma perf_enqueue_ok head k e c : Z.of_nat k < 2 ^ 63 → cache_ok head k c → cache_ok head (S k) (enqueue_event e c).
Proof using Type.
  intros Hk (l & w & Hq & Hp & Ht & Ho & H1 & H2 & H3). pose proof (Enqueue_quiescent (event_queue_ c) l e Hq ltac:(lia)) as He. destruct (Enqueue_frame (event_queue_ c) e) as [F1 F2].
  assert (0 ≤ tail_ (event_queue_ c)) by (destruct Hq as ((_ & _ & ? & ? & _) & _); lia). rewrite (wrap_small 64) in F2 by (unfold in_u; lia).
  unfold enqueue_event. destruct (Enqueue (event_queue_ c) e) as [ok q]. simpl in *. unfold cache_ok. simpl. rewrite taken_app. simpl. destruct (decide _).
  - destruct He as [-> Hq']. exists (l ++ [e]), w. split_and!; [done|lia|lia|by rewrite Ho, app_assoc|done|done|done].
  - injection He as -> ->. exists l, w. rewrite app_nil_r. split_and!; [done|lia|lia|done|done|done|done].
Qed.

Lemma cache_ok_weaken head k c : cache_ok head k c → cache_ok head (S k) c.
Proof using Type. intros (l & w & H). exists l, w. naive_solver lia. Qed.

Lemma Run_ok head k b c c' : Run b c = Some c' → cache_ok head k c → cache_ok head (S k) c'.
Proof using Type.
  intros E H. pose proof H as (l & w & Hq & Hp & Ht & Ho & H1 & H2 & H3). unfold Run in E. destruct (running c) eqn:Er; [|done]. simpl in E.
  destruct (closed c) eqn:Ec; [destruct H3; congruence|]. destruct (shutdown_ c || b).
  { injection E as <-. exists l, w. simpl. split_and!; try done; try lia; by rewrite Ec. }
  unfold WaitDequeue in E. simpl in E. destruct (break_all_wait_ (event_queue_ c)); [injection E as <-; by apply cache_ok_weaken|].
  pose proof (Dequeue_quiescent (event_queue_ c) l Hq) as Hd. destruct l as [|x l].
  { rewrite Hd in E. injection E as <-. by apply cache_ok_weaken. }
  assert (F : pool_size_ (Dequeue (event_queue_ c)).2 = pool_size_ (event_queue_ c) ∧ tail_ (Dequeue (event_queue_ c)).2 = tail_ (event_queue_ c)) by (unfold Dequeue; by destruct (_ =? _)).
  destruct (Dequeue (event_queue_ c)) as [o q]. simpl in *. destruct Hd as [-> Hq']. destruct F as [F1 F2].
  injection E as <-. exists l, (w ++ [x]). destruct (kFlushSize <=? buf_size c + 1); simpl; rewrite F1, F2, fmap_app, (H1 eq_refl), ?Ec; (split_and!; [done|done|lia|by rewrite <- app_assoc|done|done|done]).
Qed.

Lemma perf_exec_ok head k l c c' : exec c l = Some c' → Z.of_nat k < 2 ^ 63 → cache_ok head k c → cache_ok head (S k) c'.
Proof using Type.
  intros E Hk H. destruct l as [a b d f now|a b d s x now|b| |now]; simpl in E.
  - injection E as <-. unfold AddSchedEvent. destruct (negb _); [by apply cache_ok_weaken|]. destruct (_ && _); [by apply cache_ok_weaken|]. by apply perf_enqueue_ok.
  - injection E as <-. unfold AddTransportEvent. destruct (negb _); [by apply cache_ok_weaken|]. destruct (_ && _); [by apply cache_ok_weaken|]. by apply perf_enqueue_ok.
  - by eapply Run_ok.
  - injection E as <-. unfold Shutdown_begin. destruct (negb _); [by apply cache_ok_weaken|]. destruct H as (l & w & H). exists l, w. simpl. naive_solver lia.
  - unfold Shutdown_end in E. destruct (enable_ c && shutdown_ c); [|done]. destruct (running c); [done|]. destruct (closed c) eqn:Ec; [done|]. injection E as <-.
    destruct H as (l & w & Hq & Hp & Ht & Ho & H1 & _). exists l, w. simpl. split_and!; [done|done|lia|done|done| |done]. intros _. exists now. by rewrite (H1 Ec).
Qed.

(** Property: the file holds the time of the start, then the events that the queue has
    taken, in the order in which it took them, each once, all but those that are
    still in the queue; after the shutdown the time of the end, and all of it is
    flushed. *)
Theorem events_are_written_in_order dflt t now ls c : run exec (PerfEventCache_new dflt (Some (true, t)) now) ls = Some c → Z.of_nat (length ls) < 2 ^ 63 →
  ∃ w l, taken (offered c) = w ++ l ∧ Size (event_queue_ c) = zlen l ∧
    (closed c = false → of_ c = pretty now :: (SerializeToString <$> w)) ∧
    (closed c = true → flushed c = length (of_ c) ∧ ∃ stop, of_ c = pretty now :: (SerializeToString <$> w) ++ [pretty (stop : Z)]).
Proof using Type.
  intros Hr Hn. assert (H : ∀ ls k c0 c, run exec c0 ls = Some c → Z.of_nat (k + length ls) < 2 ^ 63 → cache_ok (pretty now) k c0 → ∃ k', cache_ok (pretty now) k' c).
  { clear. induction ls as [|l ls IH]; intros k c0 c Hr Hk Hc; simpl in *; [injection Hr as <-; eauto|].
    destruct (exec c0 l) as [c1|] eqn:E; [|done]. apply (IH (S k) c1 c Hr); [lia|]. eapply perf_exec_ok; [done|lia|done]. }
  destruct (H ls 0%nat _ c Hr) as (k & l & w & Hq & _ & _ & Ho & H1 & H2 & H3); [lia| |].
  - exists [], []. simpl. split_and!; try done. by apply Init_quiescent.
  - exists w, l. split_and!; [done|by apply Size_quiescent|done|]. intros Hc. split; [by apply H3|by apply H2].
Qed.
End Events.

Definition task_name (i : Z) : string := "task".
Definition channel_name (i : Z) : string := "/channel".
Definition no_event : event := SchedEvent 0 0 0 0 0.

Definition demo_steps : list label :=
  [DoSched 1 7 0 2 100; DoTransport 3 9 4 0 "-" 101; DoRun false; DoSched 2 7 0 2 102; DoRun false; DoShutdown; DoRun false; DoShutdownEnd 103].

Definition demo_new : PerfEventCache := PerfEventCache_new no_event (Some (true, ALL)) 99.

Definition demo_end : PerfEventCache := default demo_new (run (exec task_name channel_name) demo_new demo_steps).

Lemma perf_demo_facts : run (exec task_name channel_name) demo_new demo_steps = Some demo_end ∧ closed demo_end = true ∧ length (of_ demo_end) = 4%nat ∧ length (taken (offered demo_end)) = 3%nat ∧ Size (event_queue_ demo_end) = 1.
Proof. vm_compute. repeat split. Qed.

Lemma events_are_written_in_order_witness : ∃ w l, taken (offered demo_end) = w ++ l ∧ Size (event_queue_ demo_end) = zlen l ∧
  (closed demo_end = false → of_ demo_end = pretty 99 :: (SerializeToString task_name channel_name <$> w)) ∧
  (closed demo_end = true → flushed demo_end = length (of_ demo_end) ∧ ∃ stop, of_ demo_end = pretty 99 :: (SerializeToString task_name channel_name <$> w) ++ [pretty (stop : Z)]).
Proof.
  destruct perf_demo_facts as (H & _). apply (events_are_written_in_order task_name channel_name no_event ALL 99 demo_steps demo_end H). simpl. lia.
Defined.

(** What is in the queue at the shutdown is not written. *)
Theorem pending_events_are_lost : ∃ c, run (exec task_name channel_name) demo_new demo_steps = Some c ∧ closed c = true ∧ length (taken (offered c)) = 3%nat ∧ length (of_ c) = 4%nat.
Proof. exists demo_end. destruct perf_demo_facts as (H1 & H2 & H3 & H4 & _). auto. Qed.
