(* ===== verification/Lifecycle.v ===== *)
(** * The life of a process

    [src/code/cyber/state.h], [state.cc], [init.cc] and [sysmo/sysmo.cc]: the
    state of the process, how [Init] sets it up, how [Clear] takes it down, and
    the signal that asks for it; [py_init] of the python bindings. *)

From stdpp Require Import base list gmap.
From S2P Require Import Prelude.

(** ** State *)

Inductive State := STATE_UNINITIALIZED | STATE_INITIALIZED | STATE_SHUTTING_DOWN | STATE_SHUTDOWN.

#[global] Instance State_eq_dec : EqDecision State.
Proof. solve_decision. Defined.

(** Their numbers. *)
Definition rank (s : State) : nat := match s with STATE_UNINITIALIZED => 0 | STATE_INITIALIZED => 1 | STATE_SHUTTING_DOWN => 2 | STATE_SHUTDOWN => 3 end%nat.

(** Who holds [g_mutex], and where it is: [Init] before the signal is bound,
    after it, and after the state is set. *)
Inductive holder := Nobody | InInit | InitBound | InitDone | InClear.

(** [handler] is what [OnShutdown] has read, while it runs; [inited] is the
    static variable of [py_init], which is true while [in_py] when [Init] was called from there.
    [loggers] and [cleaned] count the calls of [InitLogger] and of the clean-up:
    each deletes the logger. *)
Record process := mkProcess {
  g_cyber_state : State; g_mutex : holder; bound : bool; g_atexit_registered : bool; handler : option State;
  has_clock_node : bool; loggers : nat; cleaned : nat }.

Definition process_new : process := mkProcess STATE_UNINITIALIZED Nobody false false None false 0 0.

Definition SetState (s : State) (p : process) : process :=
  mkProcess s (g_mutex p) (bound p) (g_atexit_registered p) (handler p) (has_clock_node p) (loggers p) (cleaned p).

Definition hold (h : holder) (p : process) : process :=
  mkProcess (g_cyber_state p) h (bound p) (g_atexit_registered p) (handler p) (has_clock_node p) (loggers p) (cleaned p).

Definition OK (p : process) : bool := bool_decide (g_cyber_state p = STATE_INITIALIZED).
Definition IsShutdown (p : process) : bool := bool_decide (g_cyber_state p = STATE_SHUTTING_DOWN ∨ g_cyber_state p = STATE_SHUTDOWN).

(** ** Operations *)

(** [Init], step by step: the test and the logger, *)
Definition Init_begin (p : process) : process :=
  if bool_decide (g_cyber_state p = STATE_UNINITIALIZED)
  then mkProcess (g_cyber_state p) InInit (bound p) (g_atexit_registered p) (handler p) (has_clock_node p) (S (loggers p)) (cleaned p)
  else p.

(** the signal and the handler of the exit, *)
Definition Init_bind (p : process) : process :=
  mkProcess (g_cyber_state p) InitBound true true (handler p) (has_clock_node p) (loggers p) (cleaned p).

(** the state, *)
Definition Init_state (p : process) : process := hold InitDone (SetState STATE_INITIALIZED p).

(** and the node that sets the clock. *)
Definition Init_end (mock : bool) (p : process) : process :=
  mkProcess (g_cyber_state p) Nobody (bound p) (g_atexit_registered p) (handler p) (has_clock_node p || mock) (loggers p) (cleaned p).

(** [Clear]: the test, *)
Definition Clear_begin (p : process) : process :=
  if bool_decide (g_cyber_state p = STATE_SHUTDOWN ∨ g_cyber_state p = STATE_UNINITIALIZED) then p else hold InClear p.

(** and the clean-up of all parts, the logger last. *)
Definition Clear_end (p : process) : process :=
  mkProcess STATE_SHUTDOWN Nobody (bound p) (g_atexit_registered p) (handler p) (has_clock_node p) (loggers p) (S (cleaned p)).

(** [OnShutdown]: reads the state, then writes it. *)
Definition OnShutdown_read (p : process) : process :=
  mkProcess (g_cyber_state p) (g_mutex p) (bound p) (g_atexit_registered p) (Some (g_cyber_state p)) (has_clock_node p) (loggers p) (cleaned p).
Definition OnShutdown_write (s : State) (p : process) : process :=
  mkProcess (if bool_decide (s = STATE_SHUTDOWN) then g_cyber_state p else STATE_SHUTTING_DOWN) (g_mutex p) (bound p) (g_atexit_registered p) None (has_clock_node p) (loggers p) (cleaned p).

Inductive label := LInit | LBind | LSet | LInitEnd (mock : bool) | LClear | LClearEnd | LSignal | LHandler.

Definition exec (p : process) (l : label) : option process :=
  match l, g_mutex p with
  | LInit, Nobody => Some (Init_begin p)
  | LBind, InInit => Some (Init_bind p)
  | LSet, InitBound => Some (Init_state p)
  | LInitEnd mock, InitDone => Some (Init_end mock p)
  | LClear, Nobody => Some (Clear_begin p)
  | LClearEnd, InClear => Some (Clear_end p)
  | LSignal, _ => if bound p then match handler p with None => Some (OnShutdown_read p) | Some _ => None end else None
  | LHandler, _ => match handler p with Some s => Some (OnShutdown_write s p) | None => None end
  | _, _ => None
  end.

(** [WaitForShutdown] returns when [IsShutdown]; [AsyncShutdown] sends the
    signal. *)

(** ** The state goes forward *)

(** A signal is taken at once, and not while [Init] has bound it and not yet set
    the state. *)
Fixpoint orderly (p : process) (ls : list label) : bool :=
  match ls with
  | [] => true
  | LSignal :: LHandler :: ls =>
      match g_mutex p with
      | InitBound => false
      | _ => match exec p LSignal with Some p' => match exec p' LHandler with Some p' => orderly p' ls | None => true end | None => true end
      end
  | LSignal :: _ => false
  | l :: ls => match exec p l with Some p' => orderly p' ls | None => true end
  end.

Definition life_ok (p : process) : Prop :=
  handler p = None ∧
  match g_cyber_state p with
  | STATE_UNINITIALIZED => cleaned p = 0%nat ∧ (g_mutex p = Nobody ∧ loggers p = 0%nat ∧ bound p = false ∨ (g_mutex p = InInit ∧ bound p = false ∨ g_mutex p = InitBound) ∧ loggers p = 1%nat)
  | STATE_INITIALIZED | STATE_SHUTTING_DOWN => cleaned p = 0%nat ∧ loggers p = 1%nat ∧ (g_mutex p = Nobody ∨ g_mutex p = InitDone ∨ g_mutex p = InClear)
  | STATE_SHUTDOWN => cleaned p = 1%nat ∧ loggers p = 1%nat ∧ g_mutex p = Nobody
  end.

Lemma life_step p l p' : exec p l = Some p' → l ≠ LSignal → life_ok p → life_ok p' ∧ (rank (g_cyber_state p) ≤ rank (g_cyber_state p'))%nat.
Proof.
  destruct p as [s m b a h c lg cl]. unfold life_ok. simpl. intros E Hl [-> H].
  destruct l, m; try done; unfold exec in E; simpl in E; simplify_eq; unfold Init_begin, Clear_begin in *; simpl in *;
    destruct s; simpl in *; repeat (case_bool_decide; simpl in *); try naive_solver lia.
Qed.

Lemma life_signal p p1 p2 : exec p LSignal = Some p1 → exec p1 LHandler = Some p2 → g_mutex p ≠ InitBound → life_ok p →
  life_ok p2 ∧ (rank (g_cyber_state p) ≤ rank (g_cyber_state p2))%nat.
Proof.
  destruct p as [s m b a h c lg cl]. unfold life_ok. simpl. intros E1 E2 Hm [-> H]. destruct b; [|by destruct m].
  assert (p1 = OnShutdown_read (mkProcess s m true a None c lg cl)) as -> by (destruct m; by injection E1). simpl in E2.
  assert (p2 = OnShutdown_write s (OnShutdown_read (mkProcess s m true a None c lg cl))) as -> by (destruct m; by injection E2).
  unfold OnShutdown_write, OnShutdown_read. simpl. destruct s; simpl; repeat (case_bool_decide; simpl); naive_solver lia.
Qed.

Lemma life_run ls : ∀ p p', orderly p ls = true → life_ok p → run exec p ls = Some p' → life_ok p' ∧ (rank (g_cyber_state p) ≤ rank (g_cyber_state p'))%nat.
Proof.
  remember (length ls) as n eqn:En. revert ls En. induction n as [n IH] using lt_wf_ind. intros ls -> p p' Ho Hp Hr.
  destruct ls as [|l ls]; [injection Hr as <-; by split|]. cbn [run] in Hr. destruct (exec p l) as [p1|] eqn:E; [|done].
  assert (Hcase : l ≠ LSignal ∧ orderly p1 ls = true ∨ ∃ ls', l = LSignal ∧ ls = LHandler :: ls' ∧ g_mutex p ≠ InitBound).
  { destruct l; try (left; split; [done|]; cbn [orderly] in Ho; by rewrite E in Ho). right. destruct ls as [|[] ls]; try done. exists ls. split; [done|]. split; [done|]. cbn [orderly] in Ho. by destruct (g_mutex p). }
  destruct Hcase as [[Hl Ho1]|(ls' & -> & -> & Hm)].
  - destruct (life_step p l p1 E Hl Hp) as [Hp1 Hle]. destruct (IH (length ls) ltac:(simpl; lia) ls eq_refl p1 p' Ho1 Hp1 Hr) as [? ?]. split; [done|lia].
  - cbn [run] in Hr. destruct (exec p1 LHandler) as [p2|] eqn:E2; [|done]. destruct (life_signal p p1 p2 E E2 Hm Hp) as [Hp2 Hle].
    assert (Ho2 : orderly p2 ls' = true) by (cbn [orderly] in Ho; rewrite E, E2 in Ho; by destruct (g_mutex p)).
    destruct (IH (length ls') ltac:(simpl; lia) ls' eq_refl p2 p' Ho2 Hp2 Hr) as [? ?]. split; [done|lia].
Qed.

(** Property: as long as signals are taken at once, and not within [Init], the state
    of a process only goes forward, there is one logger at most, and the
    clean-up, which deletes it, is done once, in the end. *)
Theorem life_goes_forward ls1 ls2 q p : orderly process_new ls1 = true → run exec process_new ls1 = Some q → orderly q ls2 = true → run exec q ls2 = Some p →
  (rank (g_cyber_state q) ≤ rank (g_cyber_state p))%nat ∧ (loggers p ≤ 1)%nat ∧ (cleaned p ≤ loggers p)%nat ∧ (g_cyber_state p = STATE_SHUTDOWN ↔ cleaned p = 1%nat).
Proof.
  intros Ho1 Hr1 Ho2 Hr2. destruct (life_run ls1 process_new q Ho1) as [Hq _]; [unfold life_ok; simpl; split; [done|]; split; [done|by left]|done|].
  destruct (life_run ls2 q p Ho2 Hq Hr2) as [[_ Hp] Hle]. split; [done|]. destruct (g_cyber_state p); naive_solver lia.
Qed.

Definition a_life : list label := [LInit; LBind; LSet; LInitEnd true; LSignal; LHandler].

Lemma life_goes_forward_witness : ∃ q p, run exec process_new a_life = Some q ∧ run exec q [LClear; LClearEnd; LClear; LSignal; LHandler; LInit] = Some p ∧
  (rank (g_cyber_state q) ≤ rank (g_cyber_state p))%nat ∧ (loggers p ≤ 1)%nat ∧ (cleaned p ≤ loggers p)%nat ∧ (g_cyber_state p = STATE_SHUTDOWN ↔ cleaned p = 1%nat).
Proof.
  do 2 eexists. split; [reflexivity|]. split; [reflexivity|].
  apply (life_goes_forward a_life [LClear; LClearEnd; LClear; LSignal; LHandler; LInit]); reflexivity.
Defined.

(** A signal after it has been bound and before the state is set is lost. *)
Theorem signal_during_init_is_lost : ∃ p, run exec process_new [LInit; LBind; LSignal; LHandler; LSet; LInitEnd false] = Some p ∧ OK p = true ∧ handler p = None.
Proof. by eexists. Qed.

(** A signal that has read the state before [Clear] and writes it after: [Clear]
    at the exit of the process cleans up again and deletes the logger twice. *)
Theorem late_signal_clears_twice : ∃ p, run exec process_new [LInit; LBind; LSet; LInitEnd false; LSignal; LClear; LClearEnd; LHandler; LClear; LClearEnd] = Some p ∧ loggers p = 1%nat ∧ cleaned p = 2%nat.
Proof. by eexists. Qed.

(** ** [py_init] *)

(** [init] is what [Init] returns; the result, and the static variable. *)
Definition py_init (init inited : bool) : bool * bool :=
  if inited then (true, inited) else if init then (true, true) else (false, inited).

Definition Init_returns (p : process) : bool := bool_decide (g_cyber_state p = STATE_UNINITIALIZED).

(** After a shutdown [Init] refuses, but [py_init] says that all is well. *)
Theorem py_init_pretends p : g_cyber_state p = STATE_SHUTDOWN → Init_returns p = false ∧ (py_init (Init_returns p) (py_init true false).2).1 = true ∧ OK p = false.
Proof. intros E. unfold Init_returns, OK. by rewrite E. Qed.
