(* ===== verification/PyCyber.v ===== *)
(** * What the python bindings add

    The classes of [src/code/cyber/python/internal/py_cyber.h] between python
    and the C++ nodes: [PyReader], which keeps messages until python reads them,
    [PyService], which asks python for its answers, [PyClient], [PyWriter] and
    [PyChannelUtils].  The functions that python registers are those of
    [python/cyber_py3/cyber.py].  The conversions of arguments between python
    and C++ ([py_cyber.cc] and others) are left out. *)

From stdpp Require Import base list gmap strings.
From S2P Require Import Prelude.

(** ** [PyReader] *)

Section PyReader.

(** [registered] is whether [func_] is set; a thread in [read] that waits for
    [msg_cond_] is in [waiting], with what it holds in [msg].  [given] is not
    part of the program: what reads have returned and the user's callback was
    called with. *)
Record PyReader := mkReader { registered : bool; cache_ : list string; waiting : gmap nat string; given : list string }.

Definition PyReader_new : PyReader := mkReader false [] ∅ [].

(** [read(false)]. *)
Definition pop_front (l : list string) : string * list string := match l with [] => (EmptyString, []) | x :: l => (x, l) end.

Definition read_now (y : PyReader) : string * PyReader :=
  let '(msg, l) := pop_front (cache_ y) in (msg, mkReader (registered y) l (waiting y) (given y)).

(** [reader_callback] in python reads one message and hands it to the user
    unless it is empty. *)
Definition reader_callback (y : PyReader) : PyReader :=
  let '(msg, y) := read_now y in
  if (String.length msg =? 0)%nat then y else mkReader (registered y) (cache_ y) (waiting y) (given y ++ [msg]).

(** [cb] and [cb_rawmsg]: the message is put into the cache, and the callback is
    called after the lock is released. *)
Definition cb_push (message : string) (y : PyReader) : PyReader :=
  mkReader (registered y) (cache_ y ++ [message]) (waiting y) (given y).
Definition cb_call (y : PyReader) : PyReader := if registered y then reader_callback y else y.

Definition return_read (msg : string) (y : PyReader) : PyReader :=
  mkReader (registered y) (cache_ y) (waiting y) (given y ++ [msg]).

(** [read]: the first part takes a message if there is one; with [wait] the
    thread then waits until there is one, and takes it. *)
Definition wait_or_take (t : nat) (msg : string) (y : PyReader) : PyReader :=
  match cache_ y with
  | [] => mkReader (registered y) [] (<[t := msg]> (waiting y)) (given y)
  | msg :: l => mkReader (registered y) l (waiting y) (given y ++ [msg])
  end.

Definition read (t : nat) (wait : bool) (y : PyReader) : PyReader :=
  let '(msg, y) := read_now y in if wait then wait_or_take t msg y else return_read msg y.

Inductive reader_label := DoRegister | DoPush (message : string) | DoCall | DoRead (t : nat) (wait : bool) | DoWake (t : nat).

Definition reader_exec (y : PyReader) (l : reader_label) : option PyReader :=
  match l with
  | DoRegister => Some (mkReader true (cache_ y) (waiting y) (given y))
  | DoPush m => Some (cb_push m y)
  | DoCall => Some (cb_call y)
  | DoRead t wait => match waiting y !! t with Some _ => None | None => Some (read t wait y) end
  | DoWake t =>
      match waiting y !! t, cache_ y with
      | Some _, msg :: l => Some (mkReader (registered y) l (delete t (waiting y)) (given y ++ [msg]))
      | _, _ => None
      end
  end.

Definition pushed (ls : list reader_label) : list string := omap (λ l, match l with DoPush m => Some m | _ => None end) ls.

Definition nonempty (l : list string) : list string := filter (λ m, m ≠ EmptyString) l.

Definition waits_never (l : reader_label) : Prop := match l with DoRead _ true => False | _ => True end.

Lemma nonempty_app l l' : nonempty (l ++ l') = nonempty l ++ nonempty l'.
Proof. apply filter_app. Qed.

Lemma read_now_nonempty y : nonempty (cache_ y) = nonempty [(read_now y).1] ++ nonempty (cache_ (read_now y).2).
Proof. unfold read_now. destruct (cache_ y) as [|m l]; [done|]. simpl. by rewrite <- nonempty_app. Qed.

(** What has left and what is in the cache. *)
Definition held (y : PyReader) : list string := nonempty (given y) ++ nonempty (cache_ y).

Lemma held_read_now y : given (read_now y).2 = given y ∧ waiting (read_now y).2 = waiting y.
Proof. unfold read_now. by destruct (pop_front (cache_ y)). Qed.

Lemma held_step y l y' : reader_exec y l = Some y' → waits_never l → waiting y = ∅ → held y' = held y ++ nonempty (pushed [l]) ∧ waiting y' = ∅.
Proof.
  unfold held. pose proof (read_now_nonempty y) as Hn. destruct (held_read_now y) as [Hg Hk]. destruct l as [|m| |t wait|t]; simpl; intros E Hw Hwt; rewrite ?Hwt, ?lookup_empty in E; simplify_eq/=.
  - by rewrite app_nil_r.
  - by rewrite nonempty_app, app_assoc.
  - rewrite app_nil_r. unfold cb_call. destruct (registered y); [|done]. unfold reader_callback. destruct (read_now y) as [msg y1]. simpl in *. rewrite Hn.
    destruct (Nat.eqb_spec (String.length msg) 0) as [Em|Em]; simpl; rewrite ?Hg, ?Hk; (split; [|done]); [by destruct msg|by rewrite nonempty_app, app_assoc].
  - destruct wait; [done|]. rewrite app_nil_r. unfold read. destruct (read_now y) as [msg y1]. simpl in *. by rewrite Hn, Hg, Hk, nonempty_app, app_assoc.
Qed.

(** Property: as long as nobody reads with [wait], the messages that come reach python
    in the order in which they came, each once, be it by reads or by callbacks;
    those that have not are in the cache.  Messages that are empty do not count. *)
Theorem reads_take_each_message_once ls y : run reader_exec PyReader_new ls = Some y → Forall waits_never ls → nonempty (given y) ++ nonempty (cache_ y) = nonempty (pushed ls).
Proof.
  intros Hr Hw. enough (H : ∀ ls y0 y, run reader_exec y0 ls = Some y → Forall waits_never ls → waiting y0 = ∅ → held y = held y0 ++ nonempty (pushed ls)) by exact (H ls PyReader_new y Hr Hw eq_refl).
  clear. induction ls as [|l ls IH]; intros y0 y Hr Hw Hwt; simpl in *; [injection Hr as <-; by rewrite app_nil_r|].
  destruct (reader_exec y0 l) as [y1|] eqn:E; [|done]. apply Forall_cons in Hw as [Hl Hw]. destruct (held_step y0 l y1 E Hl Hwt) as [H1 H2].
  rewrite (IH y1 y Hr Hw H2), H1, <- app_assoc. f_equal. rewrite <- nonempty_app. f_equal. by destruct l.
Qed.

Lemma reads_take_each_message_once_witness : ∃ y, run reader_exec PyReader_new [DoPush "a"; DoRead 1 false; DoRead 1 false; DoRegister; DoPush "b"; DoPush "c"; DoCall] = Some y ∧ nonempty (given y) = ["a"; "b"] ∧ nonempty (given y) ++ nonempty (cache_ y) = ["a"; "b"; "c"].
Proof.
  eexists. split; [vm_compute; reflexivity|]. split; [vm_compute; reflexivity|].
  apply (reads_take_each_message_once [DoPush "a"; DoRead 1 false; DoRead 1 false; DoRegister; DoPush "b"; DoPush "c"; DoCall]); [vm_compute; reflexivity|repeat constructor].
Defined.

(** [read(true)] takes a message and then waits for another, which it returns:
    the first is lost, always. *)
Theorem waiting_read_drops_a_message t a l y : cache_ y = a :: l → waiting y !! t = None →
  match l with
  | b :: l => ∃ y', reader_exec y (DoRead t true) = Some y' ∧ given y' = given y ++ [b] ∧ cache_ y' = l
  | [] => ∃ y', reader_exec y (DoRead t true) = Some y' ∧ given y' = given y ∧ cache_ y' = [] ∧
      ∀ b, ∃ y'', run reader_exec y' [DoPush b; DoWake t] = Some y'' ∧ given y'' = given y ++ [b] ∧ cache_ y'' = []
  end.
Proof.
  intros Ec Ew. simpl. rewrite Ew. unfold read, read_now. rewrite Ec. simpl. destruct l as [|b l]; unfold wait_or_take; simpl.
  - eexists. split_and!; [done..|]. intros b. eexists. simpl. rewrite lookup_insert_eq. by split_and!.
  - by eexists.
Qed.

(** A message that comes before the callback is registered makes every callback
    one message late. *)
Theorem early_message_delays_callbacks a b c : a ≠ EmptyString → b ≠ EmptyString →
  ∃ y, run reader_exec PyReader_new [DoPush a; DoCall; DoRegister; DoPush b; DoCall; DoPush c; DoCall] = Some y ∧ given y = [a; b] ∧ cache_ y = [c].
Proof.
  intros Ha Hb. destruct a as [|a1 a]; [done|]. destruct b as [|b1 b]; [done|]. eexists. by split_and!.
Qed.
End PyReader.

(** ** [PyService] *)

Section PyService.

(** What the user's function answers. *)
Context (answer : string → string).

Record PyService := mkService { s_registered : bool; request_cache_ : list string; response_cache_ : list string }.

Definition PyService_new : PyService := mkService false [] [].

Definition service_read (y : PyService) : string * PyService :=
  let '(msg, l) := pop_front (request_cache_ y) in (msg, mkService (s_registered y) l (response_cache_ y)).

Definition service_write (data : string) (y : PyService) : PyService := mkService (s_registered y) (request_cache_ y) (response_cache_ y ++ [data]).

(** [service_callback] in python. *)
Definition service_callback (y : PyService) : PyService :=
  let '(msg, y) := service_read y in if (String.length msg =? 0)%nat then y else service_write (answer msg) y.

(** [cb], under the lock: the response to a request. *)
Definition service_cb (request : string) (y : PyService) : string * PyService :=
  let y := mkService (s_registered y) (request_cache_ y ++ [request]) (response_cache_ y) in
  let y := if s_registered y then service_callback y else y in
  let '(msg, l) := pop_front (response_cache_ y) in (msg, mkService (s_registered y) (request_cache_ y) l).

Fixpoint serve (requests : list string) (y : PyService) : list string * PyService :=
  match requests with
  | [] => ([], y)
  | r :: rs => let '(a, y) := service_cb r y in let '(l, y) := serve rs y in (a :: l, y)
  end.

Lemma serve_oldest q rs : Forall (λ r, r ≠ EmptyString) (q ++ rs) →
  serve rs (mkService true q []) = (answer <$> take (length rs) (q ++ rs), mkService true (drop (length rs) (q ++ rs)) []).
Proof.
  revert q. induction rs as [|r rs IH]; intros q Hq; [simpl; by rewrite app_nil_r|]. cbn [serve length]. unfold service_cb. cbn [s_registered].
  unfold service_callback, service_read. cbn [request_cache_ response_cache_ s_registered].
  assert (E : ∃ x q', q ++ [r] = x :: q' ∧ x ≠ EmptyString ∧ q' ++ rs = drop 1 (q ++ r :: rs) ∧ q ++ r :: rs = x :: (q' ++ rs)).
  { replace (q ++ r :: rs) with ((q ++ [r]) ++ rs) in * by (by rewrite <- app_assoc). destruct (q ++ [r]) as [|x q'] eqn:Eq; [by destruct q|].
    exists x, q'. apply Forall_cons in Hq as [Hx _]. done. }
  destruct E as (x & q' & E1 & Hx & E2 & E3). rewrite E1. cbn [pop_front]. destruct (Nat.eqb_spec (String.length x) 0); [by destruct x|].
  unfold service_write. cbn [s_registered request_cache_ response_cache_ app pop_front]. rewrite IH by (rewrite E3 in Hq; by apply Forall_cons in Hq as [_ ?]). by rewrite E3.
Qed.

(** Property: once python's function is registered, a request is answered with the
    answer to the oldest request that has none: to itself when none came before
    the function was registered.  No request is empty. *)
Theorem service_answers_the_oldest early rs : Forall (λ r, r ≠ EmptyString) (early ++ rs) →
  let y := (serve early PyService_new).2 in
  (serve early PyService_new).1 = (λ _, EmptyString) <$> early ∧
  (serve rs (mkService true (request_cache_ y) (response_cache_ y))).1 = answer <$> take (length rs) (early ++ rs).
Proof.
  intros Hr. assert (E : ∀ l q, serve l (mkService false q []) = ((λ _, EmptyString) <$> l, mkService false (q ++ l) [])).
  { clear. induction l as [|r l IH]; intros q; simpl; [by rewrite app_nil_r|]. rewrite IH. by rewrite <- app_assoc. }
  unfold PyService_new. rewrite E. simpl. split; [done|]. by rewrite serve_oldest.
Qed.
End PyService.

Lemma service_answers_the_oldest_witness :
  (serve (String.append "re: ") ["a"] PyService_new).1 = [EmptyString] ∧
  (serve (String.append "re: ") ["b"; "c"] (mkService true ["a"] [])).1 = ["re: a"; "re: b"].
Proof.
  destruct (service_answers_the_oldest (String.append "re: ") ["a"] ["b"; "c"]) as [H1 H2]; [repeat constructor; done|]. split; [exact H1|exact H2].
Defined.

(** A request that comes before the function is registered shifts all the
    answers, for ever. *)
Theorem early_request_shifts_answers (answer : string → string) a b c : a ≠ EmptyString → b ≠ EmptyString → c ≠ EmptyString →
  (serve answer [b; c] (mkService true (request_cache_ (service_cb answer a PyService_new).2) [])).1 = [answer a; answer b].
Proof. intros Ha Hb Hc. simpl. exact (f_equal fst (serve_oldest answer [a] [b; c] ltac:(by repeat constructor))). Qed.

(** ** [PyWriter], [PyChannelUtils] *)

(** [writer_] stays null when there is no description of the type; [write]
    follows it all the same. *)
Definition PyWriter_new {W : Type} (proto_desc : string) (writer : W) : option W :=
  if (String.length proto_desc =? 0)%nat then None else Some writer.

Definition py_write {W : Type} (write : W → string → bool) (writer_ : option W) (data : string) : option bool :=
  match writer_ with None => None | Some w => Some (write w data) end.

Theorem writer_of_unknown_type_crashes {W : Type} (w : W) write data : py_write write (PyWriter_new EmptyString w) data = None.
Proof. done. Qed.

Section ChannelUtils.
Context {M : Type} (GenerateMessageByType : string → option M) (DebugString : M → string → option string).

(** [raw_msg_class_] is static: it is made once. *)
Definition get_debugstring_by_msgtype_rawmsgdata (msg_type rawmsgdata : string) (raw_msg_class_ : option M) : string * option M :=
  if (String.length msg_type =? 0)%nat then (EmptyString, raw_msg_class_)
  else if (String.length rawmsgdata =? 0)%nat then (EmptyString, raw_msg_class_)
  else
    let raw_msg_class_ := match raw_msg_class_ with None => GenerateMessageByType msg_type | Some c => Some c end in
    match raw_msg_class_ with
    | None => (EmptyString, None)
    | Some c => (default EmptyString (DebugString c rawmsgdata), Some c)
    end.

(** Whatever type is asked for, messages are read as the first one was. *)
Theorem messages_are_read_as_the_first type1 data1 c type2 data2 : type1 ≠ EmptyString → data1 ≠ EmptyString → type2 ≠ EmptyString → data2 ≠ EmptyString →
  GenerateMessageByType type1 = Some c →
  (get_debugstring_by_msgtype_rawmsgdata type2 data2 (get_debugstring_by_msgtype_rawmsgdata type1 data1 None).2).1 = default EmptyString (DebugString c data2).
Proof.
  intros H1 H2 H3 H4 Ec. destruct type1, data1, type2, data2; try done. unfold get_debugstring_by_msgtype_rawmsgdata. simpl. by rewrite Ec.
Qed.
End ChannelUtils.
