(* ===== verification/NodeData.v ===== *)
(** * What the readers of a node hold

    The data of [Reader] ([src/code/cyber/node/reader.h]: [Enqueue], [Observe],
    [ClearData] and what can be asked of it) over the Blocker it owns, and
    [Node] ([node.h], [node.cc]), which has one reader for a channel and lets
    all of them observe, in reality mode (the readers of the simulation are in
    Blocker).  How readers get their messages is in Channels and
    Component.  Times are numbers of one unit instead of floating point
    seconds. *)

From stdpp Require Import base list gmap strings.
From S2P Require Import Prelude Blocker.

Section Reader.
Context {M : Type}.

(** ** [Reader] *)

(** A time is [None] where the code has -1. *)
Record Reader := mkReader { blocker_ : Blocker M nat; latest_recv_time_sec_ : option Z; second_to_lastest_recv_time_sec_ : option Z; pending_queue_size_ : Z }.

Definition Reader_new (depth : Z) (channel : string) (pending : Z) : Reader := mkReader (Blocker_new (mkAttr depth channel)) None None pending.

Definition with_blocker (f : Blocker M nat → Blocker M nat) (r : Reader) : Reader :=
  mkReader (f (blocker_ r)) (latest_recv_time_sec_ r) (second_to_lastest_recv_time_sec_ r) (pending_queue_size_ r).

Definition Reader_Enqueue (now : Z) (msg : M) (r : Reader) : Reader :=
  mkReader (Publish (blocker_ r) msg).1 (Some now) (latest_recv_time_sec_ r) (pending_queue_size_ r).

Definition Reader_Observe : Reader → Reader := with_blocker Observe.
Definition Reader_ClearData : Reader → Reader := with_blocker (λ b, ClearObserved (ClearPublished b)).
Definition SetHistoryDepth (depth : Z) : Reader → Reader := with_blocker (λ b, set_capacity b depth).
Definition GetHistoryDepth (r : Reader) : Z := u32 (capacity (attr_ (blocker_ r))).
Definition HasReceived (r : Reader) : bool := negb (IsPublishedEmpty (blocker_ r)).
Definition Empty (r : Reader) : bool := IsObservedEmpty (blocker_ r).
Definition GetLatestObserved (r : Reader) : option M := GetLatestObservedPtr (blocker_ r).
Definition GetOldestObserved (r : Reader) : option M := GetOldestObservedPtr (blocker_ r).

Definition GetDelaySec (now : Z) (r : Reader) : Z :=
  match latest_recv_time_sec_ r with
  | None => -1
  | Some latest => match second_to_lastest_recv_time_sec_ r with None => now - latest | Some second => Z.max (now - latest) (latest - second) end
  end.

(** ** [Node] *)

(** A reader with its message type: a number for the type. *)
Record Node := mkNode { readers_ : gmap string (nat * Reader) }.

Definition Node_new : Node := mkNode ∅.

(** [CreateReader]; [made] is whether [NodeChannelImpl::CreateReader] succeeds. *)
Definition CreateReader (ty : nat) (channel : string) (depth pending : Z) (made : bool) (n : Node) : Node * option Reader :=
  match readers_ n !! channel with
  | Some _ => (n, None)
  | None => if made then let r := Reader_new depth channel pending in (mkNode (<[channel := (ty, r)]> (readers_ n)), Some r) else (n, None)
  end.

Definition GetReader (ty : nat) (channel : string) (n : Node) : option Reader :=
  match readers_ n !! channel with Some (ty', r) => if (ty' =? ty)%nat then Some r else None | None => None end.

(** The loop over the readers, as one step: [node.cc] takes no lock for it, so
    that messages can come between two readers.  Each channel has its own reader,
    and what is stated is stated channel by channel; a reader made meanwhile,
    which would change the map under the loop, is not covered. *)
Definition Node_Observe (n : Node) : Node := mkNode ((λ x, (x.1, Reader_Observe x.2)) <$> readers_ n).
Definition Node_ClearData (n : Node) : Node := mkNode ((λ x, (x.1, Reader_ClearData x.2)) <$> readers_ n).

Definition on_reader (channel : string) (f : Reader → Reader) (n : Node) : Node := mkNode (alter (λ x, (x.1, f x.2)) channel (readers_ n)).

Inductive label :=
| DoCreate (ty : nat) (channel : string) (depth pending : Z) (made : bool)
| DoDeliver (channel : string) (now : Z) (msg : M)
| DoDepth (channel : string) (depth : Z)
| DoObserve | DoClear.

Definition exec (n : Node) (l : label) : Node :=
  match l with
  | DoCreate ty ch depth pending made => (CreateReader ty ch depth pending made n).1
  | DoDeliver ch now msg => on_reader ch (Reader_Enqueue now msg) n
  | DoDepth ch depth => on_reader ch (SetHistoryDepth depth) n
  | DoObserve => Node_Observe n
  | DoClear => Node_ClearData n
  end.

(** ** What a reader shows *)

(** Of one channel: the depth, the newest messages and the observed ones, the
    newest first; [None] before the reader is made. *)
Record shown := mkShown { s_depth : Z; s_kept : list M; s_observed : list M }.

Definition show (channel : string) (s : option shown) (l : label) : option shown :=
  match s, l with
  | None, DoCreate _ ch depth _ true => if bool_decide (ch = channel) then Some (mkShown depth [] []) else None
  | Some s, DoDeliver ch _ msg => Some (if bool_decide (ch = channel) then mkShown (s_depth s) (take (Z.to_nat (s_depth s)) (msg :: s_kept s)) (s_observed s) else s)
  | Some s, DoDepth ch depth => Some (if bool_decide (ch = channel) then mkShown depth (take (Z.to_nat depth) (s_kept s)) (s_observed s) else s)
  | Some s, DoObserve => Some (mkShown (s_depth s) (s_kept s) (s_kept s))
  | Some s, DoClear => Some (mkShown (s_depth s) [] [])
  | s, _ => s
  end.

Definition depth_ok (l : label) : Prop := match l with DoCreate _ _ depth _ _ | DoDepth _ depth => in_u 32 depth | _ => True end.

(** The reader of a channel as the specification has it. *)
Definition shows (channel : string) (n : Node) (s : option shown) : Prop :=
  match readers_ n !! channel, s with
  | None, None => True
  | Some (_, r), Some s => blocker_ok (blocker_ r) ∧ capacity (attr_ (blocker_ r)) = s_depth s ∧ published_msg_queue_ (blocker_ r) = s_kept s ∧ observed_msg_queue_ (blocker_ r) = s_observed s ∧ in_u 32 (s_depth s)
  | _, _ => False
  end.

Lemma shows_step ch n s l : depth_ok l → shows ch n s → shows ch (exec n l) (show ch s l).
Proof.
  unfold shows, show. intros Hd. destruct l as [ty c depth pending made|c now msg|c depth| |]; simpl.
  - unfold CreateReader. destruct (readers_ n !! c) as [x|] eqn:Ec.
    + simpl. destruct (readers_ n !! ch) as [[ty' r]|] eqn:Er, s as [s|]; try done. destruct made; [|done]. case_bool_decide as Hc; [|done]. rewrite Hc in Ec. congruence.
    + destruct made; simpl; [|by destruct (readers_ n !! ch) as [[]|], s]. destruct (decide (c = ch)) as [->|Hne].
      * rewrite lookup_insert_eq, Ec. destruct s; [done|]. intros _. rewrite bool_decide_true by done. simpl. simpl in Hd. split_and!; try done. split; [apply Hd|simpl; lia].
      * rewrite lookup_insert_ne by done. destruct (readers_ n !! ch) as [[]|], s; try done. by rewrite bool_decide_false.
  - destruct (decide (c = ch)) as [->|Hne].
    + rewrite lookup_alter_eq. destruct (readers_ n !! ch) as [[ty r]|], s as [s|]; try done. simpl. intros (Hok & Hc & Hp & Ho & Hi). rewrite bool_decide_true by done. simpl.
      destruct (Enqueue_published (blocker_ r) msg) as (E1 & E2 & E3 & _); [apply Hok..|]. rewrite E1, E2, E3, Hc, Hp. split_and!; try done.
      apply (blocker_exec_ok (blocker_ r) (OpPublish msg)); done.
    + rewrite lookup_alter_ne by done. destruct (readers_ n !! ch) as [[]|], s; try done. by rewrite bool_decide_false.
  - destruct (decide (c = ch)) as [->|Hne].
    + rewrite lookup_alter_eq. destruct (readers_ n !! ch) as [[ty r]|], s as [s|]; try done. simpl. intros (Hok & Hc & Hp & Ho & Hi). rewrite bool_decide_true by done. simpl.
      rewrite pop_back_while_take by (done || apply Hd). rewrite Hp. split_and!; try done; try apply Hd. apply (blocker_exec_ok (blocker_ r) (OpCapacity depth)); [done|]. simpl. rewrite decide_True; [done|apply Hd].
    + rewrite lookup_alter_ne by done. destruct (readers_ n !! ch) as [[]|], s; try done. by rewrite bool_decide_false.
  - rewrite lookup_fmap. destruct (readers_ n !! ch) as [[ty r]|], s as [s|]; try done. simpl. intros (Hok & Hc & Hp & Ho & Hi). by rewrite Hp.
  - rewrite lookup_fmap. destruct (readers_ n !! ch) as [[ty r]|], s as [s|]; try done. simpl. intros (Hok & Hc & Hp & Ho & Hi). split_and!; try done. split; [apply Hok|simpl; lia].
Qed.

(** C38: each reader of a node, whatever the others get, shows the newest messages
    of its channel, as many as its depth, as they were at the last [Observe];
    nothing else changes what it shows but [ClearData]. *)
Theorem node_shows_newest ls channel ty : Forall depth_ok ls →
  match GetReader ty channel (foldl exec Node_new ls), foldl (show channel) None ls with
  | Some r, Some s => GetLatestObserved r = head (s_observed s) ∧ GetOldestObserved r = last (s_observed s) ∧ Empty r = bool_decide (s_observed s = []) ∧
      HasReceived r = negb (bool_decide (s_kept s = [])) ∧ GetHistoryDepth r = s_depth s ∧ (length (s_kept s) ≤ Z.to_nat (s_depth s))%nat
  | Some _, None => False
  | None, _ => True
  end.
Proof.
  intros Hd. assert (H : ∀ ls n s, Forall depth_ok ls → shows channel n s → shows channel (foldl exec n ls) (foldl (show channel) s ls)).
  { clear. induction ls as [|l ls IH]; intros n s Hd Hs; simpl; [done|]. apply Forall_cons in Hd as [Hl Hd]. by apply IH, shows_step. }
  specialize (H ls Node_new None Hd I). unfold GetReader, shows in *. destruct (readers_ (foldl exec Node_new ls) !! channel) as [[ty' r]|]; [|done].
  destruct (foldl (show channel) None ls) as [s|]; [|done]. destruct (ty' =? ty)%nat; [|done]. destruct H as ([H0 Hl] & Hc & Hp & Ho & Hi).
  unfold GetLatestObserved, GetOldestObserved, GetLatestObservedPtr, GetOldestObservedPtr, Empty, HasReceived, IsObservedEmpty, IsPublishedEmpty, GetHistoryDepth.
  rewrite Hp, Ho, Hc in *. split_and!; try done. by apply wrap_small.
Qed.

(** The delay is that of the last two messages, or longer. *)
Lemma delay_grows r now now' : latest_recv_time_sec_ r ≠ None → now ≤ now' → GetDelaySec now r ≤ GetDelaySec now' r.
Proof. intros H Hn. unfold GetDelaySec. destruct (latest_recv_time_sec_ r); [|done]. destruct (second_to_lastest_recv_time_sec_ r); lia. Qed.

(** A profile with the depth 0, as that of [QOS_PROFILE_SYSTEM_DEFAULT], makes a
    reader that never has anything to show. *)
Theorem depth_0_shows_nothing now m channel pending : HasReceived (Reader_Enqueue now m (Reader_new 0 channel pending)) = false.
Proof. done. Qed.

(** A reader that was shut down keeps its channel: no other can be made. *)
Theorem channel_has_one_reader_for_ever ty ty' channel d d' p p' n : (CreateReader ty' channel d' p' true (CreateReader ty channel d p true n).1).2 = None.
Proof. unfold CreateReader. destruct (readers_ n !! channel) eqn:E; simpl; [by rewrite E|by rewrite lookup_insert_eq]. Qed.
End Reader.

Definition demo_labels : list (label (M := Z)) :=
  [DoCreate 0 "a" 2 1 true; DoCreate 1 "b" 1 1 true; DoDeliver "a" 10 1; DoDeliver "a" 11 2; DoDeliver "b" 12 9; DoDeliver "a" 13 3; DoObserve; DoDeliver "a" 14 4].

Lemma node_shows_newest_witness : match GetReader 0 "a" (foldl exec Node_new demo_labels), foldl (show "a") None demo_labels with
  | Some r, Some s => GetLatestObserved r = head (s_observed s) ∧ GetOldestObserved r = last (s_observed s) ∧ Empty r = bool_decide (s_observed s = []) ∧
      HasReceived r = negb (bool_decide (s_kept s = [])) ∧ GetHistoryDepth r = s_depth s ∧ (length (s_kept s) ≤ Z.to_nat (s_depth s))%nat
  | Some _, None => False
  | None, _ => True
  end.
Proof. apply (node_shows_newest demo_labels "a" 0). repeat constructor; unfold in_u; lia. Defined.

(** ** Attributes *)

(** What [NodeChannelImpl] fills into the attributes of a writer or reader:
    those of its node always, the others where they are missing. *)
Section NodeImpl.
Context {Q : Type} (RegisterChannel : string → Z) (MessageType : string) (GetDescriptorString : string → string) (QOS_PROFILE_DEFAULT : Q).

Record NodeAttr := mkNodeAttr { host_name : string; host_ip : string; process_id : Z; node_name : string; node_id : Z }.

Record RoleAttr := mkRoleAttr { of_node : option NodeAttr; role_channel_name : option string; role_channel_id : option Z; message_type : option string; proto_desc : option string; qos_profile : option Q }.

Definition FillInAttr (node_attr_ : NodeAttr) (attr : RoleAttr) : RoleAttr :=
  let ty := default MessageType (message_type attr) in
  mkRoleAttr (Some node_attr_) (role_channel_name attr) (Some (RegisterChannel (default EmptyString (role_channel_name attr)))) (Some ty)
    (Some (default (GetDescriptorString ty) (proto_desc attr))) (Some (default QOS_PROFILE_DEFAULT (qos_profile attr))).

(** [CreateWriter]: a writer of the mode, with the attributes, when its [Init]
    succeeds. *)
Inductive writer_kind := RealWriter | IntraWriterOf.

Definition CreateWriter (node_attr_ : NodeAttr) (is_reality_mode_ : bool) (init : RoleAttr → bool) (role_attr : RoleAttr) : option (writer_kind * RoleAttr) :=
  match role_channel_name role_attr with
  | None | Some EmptyString => None
  | Some _ =>
      let new_attr := FillInAttr node_attr_ role_attr in
      if init new_attr then Some (if is_reality_mode_ then RealWriter else IntraWriterOf, new_attr) else None
  end.

Lemma FillInAttr_complete na attr : let a := FillInAttr na attr in
  is_Some (role_channel_id a) ∧ is_Some (message_type a) ∧ is_Some (proto_desc a) ∧ is_Some (qos_profile a) ∧ FillInAttr na a = a ∧
  (∀ t, message_type attr = Some t → message_type a = Some t) ∧ (∀ d, proto_desc attr = Some d → proto_desc a = Some d) ∧ (∀ q, qos_profile attr = Some q → qos_profile a = Some q).
Proof. unfold FillInAttr. simpl. split_and!; eauto; by intros ? ->. Qed.

(** [NodeServiceImpl]: the services and clients it has made, and the joins of the
    topology, in order. *)
Record NodeServiceImpl := mkServices { service_list_ : list string; client_list_ : list string; joins : list (string * bool) }.

Definition CreateService (service_name : string) (init : bool) (n : NodeServiceImpl) : NodeServiceImpl * bool :=
  if init then (mkServices (service_list_ n ++ [service_name]) (client_list_ n) (joins n ++ [(service_name, true)]), true) else (n, false).

Definition CreateClient (service_name : string) (init : bool) (n : NodeServiceImpl) : NodeServiceImpl * bool :=
  if init then (mkServices (service_list_ n) (client_list_ n ++ [service_name]) (joins n ++ [(service_name, false)]), true) else (n, false).

(** Two services of one name are both made and announced. *)
Theorem services_of_one_name name n : ∃ n', CreateService name true (CreateService name true n).1 = (n', true) ∧ joins n' = joins n ++ [(name, true); (name, true)].
Proof. eexists. split; [done|]. simpl. by rewrite <- app_assoc. Qed.
End NodeImpl.
