(* ===== verification/Monitor.v ===== *)
(** * The monitor's table of channels

    The logic of [src/code/cyber/tools/cyber_monitor/]: the table that
    [CyberTopologyMessage] ([cyber_topology_message.cc]) keeps of the channels it
    hears of, what [GeneralChannelMessage] ([general_channel_message.h], [.cc])
    knows of one of them, and the pages of [RenderableMessage]
    ([renderable_message.cc]).  What is drawn on the screen is left out. *)

From stdpp Require Import base list gmap strings pretty sorting.
From S2P Require Import Prelude.

(** ** A channel *)

Inductive ErrorCode := NewSubClassFailed | CreateNodeFailed | CreateReaderFailed | MessageTypeIsEmpty | ChannelNameOrNodeNameIsEmpty | NoCloseChannel.

(** [enabled] is whether there is a reader; [has_node] whether there is a node.
    Times are nanoseconds, the ratio is in frames for each [msg_time_] of
    nanoseconds: a pair. *)
Record GeneralChannelMessage := mkChannel {
  node_name_ : string; message_type_ : string; readers_ : list string; writers_ : list string; has_node : bool; enabled : bool;
  has_message_come_ : bool; frame_counter_ : Z; last_time_ : Z; msg_time_ : Z; time_last_calc_ : Z; frame_ratio_ : Z * Z }.

Definition GeneralChannelMessage_new (node_name : string) (now : Z) : GeneralChannelMessage :=
  mkChannel node_name EmptyString [] [] false false false 0 now (now + 1) now (0, 1).

Definition DoAdd (vec : list string) (str : string) : list string := if bool_decide (str ∈ vec) then vec else vec ++ [str].

Fixpoint DoDelete (vec : list string) (str : string) : list string :=
  match vec with [] => [] | x :: vec => if bool_decide (x = str) then vec else x :: DoDelete vec str end.

Definition with_roles (rs ws : list string) (come : bool) (c : GeneralChannelMessage) : GeneralChannelMessage :=
  mkChannel (node_name_ c) (message_type_ c) rs ws (has_node c) (enabled c) come (frame_counter_ c) (last_time_ c) (msg_time_ c) (time_last_calc_ c) (frame_ratio_ c).

Definition add_reader (r : string) (c : GeneralChannelMessage) : GeneralChannelMessage := with_roles (DoAdd (readers_ c) r) (writers_ c) (has_message_come_ c) c.
Definition del_reader (r : string) (c : GeneralChannelMessage) : GeneralChannelMessage := with_roles (DoDelete (readers_ c) r) (writers_ c) (has_message_come_ c) c.
Definition add_writer (w : string) (c : GeneralChannelMessage) : GeneralChannelMessage := with_roles (readers_ c) (DoAdd (writers_ c) w) (has_message_come_ c) c.
Definition del_writer (w : string) (c : GeneralChannelMessage) : GeneralChannelMessage :=
  let ws := DoDelete (writers_ c) w in with_roles (readers_ c) ws (if bool_decide (ws = []) then false else has_message_come_ c) c.

Definition set_message_type (t : string) (c : GeneralChannelMessage) : GeneralChannelMessage :=
  mkChannel (node_name_ c) t (readers_ c) (writers_ c) (has_node c) (enabled c) (has_message_come_ c) (frame_counter_ c) (last_time_ c) (msg_time_ c) (time_last_calc_ c) (frame_ratio_ c).

Definition set_open (node reader : bool) (c : GeneralChannelMessage) : GeneralChannelMessage :=
  mkChannel (node_name_ c) (message_type_ c) (readers_ c) (writers_ c) node reader (has_message_come_ c) (frame_counter_ c) (last_time_ c) (msg_time_ c) (time_last_calc_ c) (frame_ratio_ c).

(** [OpenChannel]; [made_node] and [made_reader] are what is made when asked
    for. *)
Definition OpenChannel (channel_name : string) (made_node made_reader : bool) (c : GeneralChannelMessage) : GeneralChannelMessage * option ErrorCode :=
  if bool_decide (channel_name = EmptyString ∨ node_name_ c = EmptyString) then (c, Some ChannelNameOrNodeNameIsEmpty)
  else if has_node c || enabled c then (c, Some NoCloseChannel)
  else if negb made_node then (c, Some CreateNodeFailed)
  else if negb made_reader then (set_open false false c, Some CreateReaderFailed)
  else (set_open true true c, None).

Definition CloseChannel (c : GeneralChannelMessage) : GeneralChannelMessage := set_open false false c.

(** [UpdateRawMessage]: a message comes. *)
Definition UpdateRawMessage (now : Z) (c : GeneralChannelMessage) : GeneralChannelMessage :=
  mkChannel (node_name_ c) (message_type_ c) (readers_ c) (writers_ c) (has_node c) (enabled c) true (i32 (frame_counter_ c + 1)) (last_time_ c) now (time_last_calc_ c) (frame_ratio_ c).

(** [frame_ratio]: once a second the messages counted, by the time they took. *)
Definition frame_ratio (now : Z) (c : GeneralChannelMessage) : GeneralChannelMessage * (Z * Z) :=
  if negb (enabled c) || negb (has_message_come_ c) then (c, (0, 1))
  else if 1000000000 <? now - time_last_calc_ c then
    let old := frame_counter_ c in
    let c0 := mkChannel (node_name_ c) (message_type_ c) (readers_ c) (writers_ c) (has_node c) (enabled c) (has_message_come_ c) 0 (last_time_ c) (msg_time_ c) (time_last_calc_ c) (frame_ratio_ c) in
    if old =? 0 then (c0, (0, 1))
    else
      let ratio := (old, msg_time_ c - last_time_ c) in
      (mkChannel (node_name_ c) (message_type_ c) (readers_ c) (writers_ c) (has_node c) (enabled c) (has_message_come_ c) 0 (msg_time_ c) (msg_time_ c) now ratio, ratio)
  else (c, frame_ratio_ c).

(** ** The table *)

(** A pointer that may be an error code. *)
Definition entry : Type := GeneralChannelMessage + ErrorCode.

Record CyberTopologyMessage := mkTopology {
  pid_ : Z; col1_width_ : Z; specified_channel_ : string; all_channels_map_ : gmap string entry; index : Z;
  pages_ : Z; page_index_ : Z; page_item_count_ : Z }.

Definition CyberTopologyMessage_new (pid : Z) (channel : string) : CyberTopologyMessage := mkTopology pid 8 channel ∅ 0 1 0 24.

Definition with_channels (m : gmap string entry) (t : CyberTopologyMessage) : CyberTopologyMessage :=
  mkTopology (pid_ t) (col1_width_ t) (specified_channel_ t) m (index t) (pages_ t) (page_index_ t) (page_item_count_ t).

Definition template_name (pid : Z) : string := "MonitorReader" +:+ pretty pid.

Definition IsFromHere (node_name : string) (t : CyberTopologyMessage) : bool := String.prefix (template_name (pid_ t)) node_name.

Record role := mkRole { channel_name : string; node_name : string; message_type : string }.

(** The type of a [RawMessage]. *)
Definition raw_type : string := "apollo.cyber.message.RawMessage".

(** The name of the reader of the monitor's own. *)
Definition own_name (t : CyberTopologyMessage) : string := template_name (pid_ t) +:+ "-" +:+ pretty (index t).

(** A channel that is not in the table is opened; when that fails it is in the
    table all the same. *)
Definition open_new (now : Z) (made_node made_reader : bool) (r : role) (t : CyberTopologyMessage) : GeneralChannelMessage :=
  let c := GeneralChannelMessage_new (own_name t) now in
  match OpenChannel (channel_name r) made_node made_reader c with
  | (c, None) => add_reader (node_name_ c) (set_message_type (message_type r) c)
  | (c, Some _) => c
  end.

Definition note_role (r : role) (isWriter : bool) (c : GeneralChannelMessage) : GeneralChannelMessage :=
  if isWriter then add_writer (node_name r) (if bool_decide (message_type r = raw_type) then c else set_message_type (message_type r) c)
  else add_reader (node_name r) c.

Definition AddReaderWriter (now : Z) (made_node made_reader : bool) (r : role) (isWriter : bool) (t : CyberTopologyMessage) : CyberTopologyMessage :=
  if bool_decide (specified_channel_ t ≠ EmptyString ∧ specified_channel_ t ≠ channel_name r) then t
  else
    let t := mkTopology (pid_ t) (Z.max (col1_width_ t) (Z.of_nat (String.length (channel_name r)))) (specified_channel_ t) (all_channels_map_ t) (index t) (pages_ t) (page_index_ t) (page_item_count_ t) in
    if IsFromHere (node_name r) t then t
    else
      match all_channels_map_ t !! channel_name r with
      | None =>
          let c := note_role r isWriter (open_new now made_node made_reader r t) in
          mkTopology (pid_ t) (col1_width_ t) (specified_channel_ t) (<[channel_name r := inl c]> (all_channels_map_ t)) (index t + 1) (pages_ t) (page_index_ t) (page_item_count_ t)
      | Some (inl c) => with_channels (<[channel_name r := inl (note_role r isWriter c)]> (all_channels_map_ t)) t
      | Some (inr _) => t
      end.

(** [TopologyChanged]. *)
Definition TopologyChanged (now : Z) (made_node made_reader : bool) (join : bool) (isWriter : bool) (r : role) (t : CyberTopologyMessage) : CyberTopologyMessage :=
  if join then AddReaderWriter now made_node made_reader r isWriter t
  else
    match all_channels_map_ t !! channel_name r with
    | Some (inl c) => with_channels (<[channel_name r := inl (if isWriter then del_writer (node_name r) c else del_reader (node_name r) c)]> (all_channels_map_ t)) t
    | _ => t
    end.

(** ** Pages *)

Inductive key := PageDown | PageUp | Space | OtherKey.

Definition SplitPages (k : key) (t : CyberTopologyMessage) : CyberTopologyMessage :=
  let i := match k with
           | PageDown => if pages_ t <=? page_index_ t + 1 then pages_ t - 1 else page_index_ t + 1
           | PageUp => if page_index_ t - 1 <? 1 then 0 else page_index_ t - 1
           | _ => page_index_ t
           end in
  mkTopology (pid_ t) (col1_width_ t) (specified_channel_ t) (all_channels_map_ t) (index t) (pages_ t) i (page_item_count_ t).

(** The channels in the order of the map. *)
Definition string_le (a b : string) : Prop := String.leb a b = true.

#[global] Instance string_le_dec a b : Decision (string_le a b).
Proof. unfold string_le. apply _. Defined.

Definition channels (t : CyberTopologyMessage) : list string := merge_sort string_le (map_to_list (all_channels_map_ t)).*1.

(** What is on the page: [None] when the iterator runs beyond the end of the
    map. *)
Definition page (t : CyberTopologyMessage) : option (list string) :=
  let start := page_index_ t * page_item_count_ t in
  if Z.of_nat (length (channels t)) <? start then None else Some (take (Z.to_nat (page_item_count_ t)) (drop (Z.to_nat start) (channels t))).

(** [FindChild]: [Some None] is the end of the map. *)
Definition FindChild (line_no : Z) (t : CyberTopologyMessage) : option (option string) :=
  let line := line_no - 1 in
  if (-1 <? line) && (line <? page_item_count_ t)
  then match page t with None => None | Some l => Some (l !! Z.to_nat line) end
  else Some None.

(** The key that opens and closes a channel: the entry of the end of the map is
    read ([None]) when there is no channel in that line. *)
Definition toggle (line_no : Z) (made_node made_reader : bool) (t : CyberTopologyMessage) : option CyberTopologyMessage :=
  match FindChild line_no t with
  | Some (Some ch) =>
      match all_channels_map_ t !! ch with
      | Some (inl c) =>
          if enabled c then Some (with_channels (<[ch := inl (CloseChannel c)]> (all_channels_map_ t)) t)
          else match OpenChannel ch made_node made_reader c with
               | (_, Some e) => Some (with_channels (<[ch := inr e]> (all_channels_map_ t)) t)
               | (c, None) => Some (with_channels (<[ch := inl (add_reader (node_name_ c) c)]> (all_channels_map_ t)) t)
               end
      | _ => Some t
      end
  | _ => None
  end.

(** [Render] up to the drawing: the page that is then drawn; a screen of one
    line divides by 0. *)
Definition Render (height : Z) (k : key) (line_no : Z) (made_node made_reader : bool) (t : CyberTopologyMessage) : option (CyberTopologyMessage * list string) :=
  let count := height - 1 in
  if count =? 0 then None
  else
    let t := mkTopology (pid_ t) (col1_width_ t) (specified_channel_ t) (all_channels_map_ t) (index t) (Z.quot (Z.of_nat (size (all_channels_map_ t))) count + 1) (page_index_ t) count in
    match (match k with Space => toggle line_no made_node made_reader t | _ => Some t end) with
    | None => None
    | Some t => let t := SplitPages k t in match page t with Some l => Some (t, l) | None => None end
    end.

(** ** What the table shows *)

(** A change of the topology, with the time and what can be made at it. *)
Record event := mkEvent { at_time : Z; makes_node : bool; makes_reader : bool; is_join : bool; of_writer : bool; its_role : role }.

Definition on_event (t : CyberTopologyMessage) (e : event) : CyberTopologyMessage :=
  TopologyChanged (at_time e) (makes_node e) (makes_reader e) (is_join e) (of_writer e) (its_role e) t.

Definition roles_of (writer : bool) (ch : string) (t : CyberTopologyMessage) : list string :=
  match all_channels_map_ t !! ch with Some (inl c) => if writer then writers_ c else readers_ c | _ => [] end.

(** The specification: whether the last change of the node was that it joined. *)
Definition joined_step (writer : bool) (ch n : string) (was : bool) (e : event) : bool :=
  if bool_decide (of_writer e = writer ∧ channel_name (its_role e) = ch ∧ node_name (its_role e) = n) then is_join e else was.

Definition joined (writer : bool) (ch n : string) (es : list event) : bool := foldl (joined_step writer ch n) false es.

Lemma elem_of_DoAdd l s x : x ∈ DoAdd l s ↔ x ∈ l ∨ x = s.
Proof. unfold DoAdd. case_bool_decide; set_solver. Qed.

Lemma NoDup_DoAdd l s : NoDup l → NoDup (DoAdd l s).
Proof. unfold DoAdd. case_bool_decide; [done|]. intros. apply NoDup_app. split_and!; [done|set_solver|apply NoDup_singleton]. Qed.

Lemma elem_of_DoDelete l s x : NoDup l → x ∈ DoDelete l s ↔ x ∈ l ∧ x ≠ s.
Proof.
  induction l as [|y l IH]; simpl; [set_solver|]. rewrite NoDup_cons. intros [Hy Hl]. case_bool_decide as E; [subst; set_solver|].
  rewrite elem_of_cons, IH by done. set_solver.
Qed.

Lemma sublist_DoDelete l s : sublist (DoDelete l s) l.
Proof. induction l as [|y l IH]; simpl; [constructor|]. case_bool_decide; by constructor. Qed.

Lemma NoDup_DoDelete l s : NoDup l → NoDup (DoDelete l s).
Proof. intros. eapply sublist_NoDup; [done|apply sublist_DoDelete]. Qed.

(** The monitor never forgets a channel nor turns one into an error by itself,
    and keeps its name. *)
Definition table_ok (t : CyberTopologyMessage) : Prop :=
  ∀ ch, match all_channels_map_ t !! ch with Some (inl c) => NoDup (writers_ c) ∧ NoDup (readers_ c) | Some (inr _) => False | None => True end.

Lemma open_new_roles now mn mr r t : let c := open_new now mn mr r t in
  writers_ c = [] ∧ (readers_ c = [] ∨ readers_ c = [own_name t]).
Proof.
  unfold open_new, OpenChannel. simpl. case_bool_decide; [auto|]. destruct mn, mr; simpl; auto.
Qed.

Lemma note_role_roles r w c : let c' := note_role r w c in
  writers_ c' = (if w then DoAdd (writers_ c) (node_name r) else writers_ c) ∧ readers_ c' = (if w then readers_ c else DoAdd (readers_ c) (node_name r)).
Proof. unfold note_role. destruct w; simpl; [|done]. by case_bool_decide. Qed.

Lemma prefix_app a b : String.prefix a (a +:+ b) = true.
Proof. induction a as [|x a IH]; simpl; [by destruct b|]. by destruct (Ascii.ascii_dec x x). Qed.

Lemma own_is_from_here t : IsFromHere (own_name t) t = true.
Proof. unfold IsFromHere, own_name. apply prefix_app. Qed.

Lemma on_event_keeps t e : pid_ (on_event t e) = pid_ t ∧ specified_channel_ (on_event t e) = specified_channel_ t.
Proof.
  unfold on_event, TopologyChanged, AddReaderWriter. destruct (is_join e); [|by destruct (_ !! _) as [[]|]]. case_bool_decide; [done|]. simpl.
  destruct (IsFromHere _ _); [done|]. by destruct (_ !! _) as [[]|].
Qed.

Lemma on_event_roles t e writer ch n :
  table_ok t → (specified_channel_ t = EmptyString ∨ specified_channel_ t = ch) → IsFromHere n t = false →
  table_ok (on_event t e) ∧ (n ∈ roles_of writer ch (on_event t e) ↔ joined_step writer ch n (bool_decide (n ∈ roles_of writer ch t)) e = true).
Proof.
  intros Hok Hs Hn. unfold on_event, TopologyChanged, joined_step. destruct e as [now mn mr j w [rch rn rty]]. simpl. destruct j.
  - unfold AddReaderWriter. simpl. case_bool_decide as Hsp.
    { split; [done|]. rewrite bool_decide_false by (intros (_ & -> & _); naive_solver). by rewrite bool_decide_eq_true. }
    set (t0 := mkTopology _ _ _ _ _ _ _ _). assert (Hh : ∀ s, IsFromHere s t0 = IsFromHere s t) by done. rewrite Hh.
    destruct (IsFromHere rn t) eqn:Hrn.
    { split; [done|]. rewrite bool_decide_false by (intros (_ & _ & ->); congruence). by rewrite bool_decide_eq_true. }
    assert (Hown : n ≠ own_name t0) by (intros ->; unfold own_name in Hn; simpl in Hn; pose proof (own_is_from_here t); unfold own_name in *; congruence).
    pose proof (Hok rch) as Hc. destruct (all_channels_map_ t !! rch) as [[c|]|] eqn:Ec; [| |]; [|done|].
    + destruct (note_role_roles (mkRole rch rn rty) w c) as [Ew Er]. simpl in Ew, Er. split.
      * intros ch'. simpl. destruct (decide (rch = ch')) as [<-|Hne]; [rewrite lookup_insert_eq|rewrite lookup_insert_ne by done; apply Hok].
        rewrite Ew, Er. destruct w; split; try apply NoDup_DoAdd; apply Hc.
      * unfold roles_of. simpl. destruct (decide (rch = ch)) as [<-|Hne]; [rewrite lookup_insert_eq, Ec|rewrite lookup_insert_ne, (bool_decide_false (_ ∧ _)), bool_decide_eq_true by naive_solver; done].
        rewrite Ew, Er. case_bool_decide as Hd; destruct w, writer; rewrite ?elem_of_DoAdd, ?bool_decide_eq_true; naive_solver.
    + destruct (note_role_roles (mkRole rch rn rty) w (open_new now mn mr (mkRole rch rn rty) t0)) as [Ew Er]. simpl in Ew, Er.
      destruct (open_new_roles now mn mr (mkRole rch rn rty) t0) as [Ow Or]. rewrite Ow in Ew. split.
      * intros ch'. simpl. destruct (decide (rch = ch')) as [<-|Hne]; [rewrite lookup_insert_eq|rewrite lookup_insert_ne by done; apply Hok].
        rewrite Ew, Er. destruct w, Or as [Or|Or]; rewrite ?Or; split; try apply NoDup_DoAdd; try apply NoDup_nil_2; apply NoDup_singleton.
      * unfold roles_of. simpl. destruct (decide (rch = ch)) as [<-|Hne]; [rewrite lookup_insert_eq, Ec|rewrite lookup_insert_ne, (bool_decide_false (_ ∧ _)), bool_decide_eq_true by naive_solver; done].
        rewrite Ew, Er. case_bool_decide as Hd; destruct w, writer, Or as [Or|Or]; rewrite ?Or, ?elem_of_DoAdd, ?bool_decide_eq_true; set_solver.
  - pose proof (Hok rch) as Hc. destruct (all_channels_map_ t !! rch) as [[c|]|] eqn:Ec; [|done|].
    + split.
      * intros ch'. simpl. destruct (decide (rch = ch')) as [<-|Hne]; [rewrite lookup_insert_eq|rewrite lookup_insert_ne by done; apply Hok].
        destruct w; simpl; split; try apply NoDup_DoDelete; apply Hc.
      * unfold roles_of. simpl. destruct (decide (rch = ch)) as [<-|Hne]; [rewrite lookup_insert_eq, Ec|rewrite lookup_insert_ne, (bool_decide_false (_ ∧ _)), bool_decide_eq_true by naive_solver; done].
        case_bool_decide as Hd; destruct w, writer; simpl; rewrite ?elem_of_DoDelete, ?bool_decide_eq_true by apply Hc; naive_solver.
    + split; [done|]. case_bool_decide as Hd; [|by rewrite bool_decide_eq_true]. destruct Hd as (_ & -> & _). unfold roles_of. rewrite Ec. set_solver.
Qed.

Lemma on_events_keep es t : pid_ (foldl on_event t es) = pid_ t ∧ specified_channel_ (foldl on_event t es) = specified_channel_ t.
Proof.
  revert t. induction es as [|e es IH]; intros t; simpl; [done|]. destruct (IH (on_event t e)) as [-> ->]. apply on_event_keeps.
Qed.

Lemma on_events_roles es t writer ch n :
  table_ok t → (specified_channel_ t = EmptyString ∨ specified_channel_ t = ch) → IsFromHere n t = false →
  table_ok (foldl on_event t es) ∧ (n ∈ roles_of writer ch (foldl on_event t es) ↔ foldl (joined_step writer ch n) (bool_decide (n ∈ roles_of writer ch t)) es = true).
Proof.
  revert t. induction es as [|e es IH]; intros t Hok Hs Hn; simpl; [by rewrite bool_decide_eq_true|].
  destruct (on_event_roles t e writer ch n) as [Hok' He]; [done..|]. destruct (on_event_keeps t e) as [Ep Es].
  destruct (IH (on_event t e)) as [H1 H2]; [done|by rewrite Es|unfold IsFromHere in *; by rewrite Ep|]. split; [done|].
  rewrite H2. replace (bool_decide (n ∈ roles_of writer ch (on_event t e))) with (joined_step writer ch n (bool_decide (n ∈ roles_of writer ch t)) e); [done|].
  symmetry. destruct (joined_step _ _ _ _ _) eqn:E; [by apply bool_decide_eq_true_2, He|apply bool_decide_eq_false_2; intros H; apply He in H; congruence].
Qed.

(** Property: for a channel that the monitor is to show, the nodes listed as its
    writers, and those listed as its readers, are each listed once and are those
    whose last change was that they joined, whatever the other channels and
    roles did; nodes with the monitor's own prefix aside. *)
Theorem monitor_shows_topology pid specified es writer ch n :
  (specified = EmptyString ∨ specified = ch) → String.prefix (template_name pid) n = false →
  let t := foldl on_event (CyberTopologyMessage_new pid specified) es in
  NoDup (roles_of writer ch t) ∧ (n ∈ roles_of writer ch t ↔ joined writer ch n es = true).
Proof.
  intros Hs Hn t. destruct (on_events_roles es (CyberTopologyMessage_new pid specified) writer ch n) as [Hok H]; [by intros ?|done|done|].
  split; [|apply H]. specialize (Hok ch). fold t in Hok. unfold roles_of. destruct (all_channels_map_ t !! ch) as [[c|]|]; [|constructor|constructor]. destruct writer; apply Hok.
Qed.

Definition demo_events : list event :=
  [mkEvent 1 true true true true (mkRole "/points" "lidar" "P"); mkEvent 2 true true true false (mkRole "/points" "fusion" raw_type);
   mkEvent 3 true true true true (mkRole "/points" "sim" "P"); mkEvent 4 true true false true (mkRole "/points" "lidar" "P")].

Lemma monitor_shows_topology_witness :
  let t := foldl on_event (CyberTopologyMessage_new 12 "") demo_events in
  NoDup (roles_of true "/points" t) ∧ ("sim" ∈ roles_of true "/points" t ↔ joined true "/points" "sim" demo_events = true).
Proof. apply (monitor_shows_topology 12 "" demo_events true "/points" "sim"); [by left|vm_compute; reflexivity]. Defined.

Example demo_roles : let t := foldl on_event (CyberTopologyMessage_new 12 "") demo_events in
  roles_of true "/points" t = ["sim"%string] ∧ roles_of false "/points" t = ["MonitorReader12-0"%string; "fusion"%string].
Proof. by vm_compute. Qed.

(** ** Pages *)

Lemma length_channels t : length (channels t) = size (all_channels_map_ t).
Proof. unfold channels. by rewrite merge_sort_Permutation, length_fmap, length_map_to_list. Qed.

(** What [Render] sets before it draws. *)
Definition sized (height : Z) (t : CyberTopologyMessage) : CyberTopologyMessage :=
  mkTopology (pid_ t) (col1_width_ t) (specified_channel_ t) (all_channels_map_ t) (index t) (Z.quot (Z.of_nat (size (all_channels_map_ t))) (height - 1) + 1) (page_index_ t) (height - 1).

Definition page_ok (height : Z) (t : CyberTopologyMessage) : Prop := 0 ≤ page_index_ t ≤ Z.quot (Z.of_nat (size (all_channels_map_ t))) (height - 1).

Lemma page_ok_drawn height t : 1 < height → page_ok height t → page_item_count_ t = height - 1 → is_Some (page t).
Proof.
  intros Hh [H0 H1] Hc. unfold page. rewrite length_channels, Hc. rewrite Z.quot_div_nonneg in H1 by lia.
  destruct (Z.ltb_spec (Z.of_nat (size (all_channels_map_ t))) (page_index_ t * (height - 1))) as [H|]; [|eauto].
  pose proof (Z.mul_div_le (Z.of_nat (size (all_channels_map_ t))) (height - 1)). nia.
Qed.

Lemma SplitPages_ok height k t : 1 < height → page_ok height t → page_ok height (SplitPages k (sized height t)).
Proof.
  intros Hh. unfold page_ok, SplitPages, sized. simpl. intros H. pose proof (Z.quot_pos (Z.of_nat (size (all_channels_map_ t))) (height - 1)).
  destruct k; simpl; [case_match|case_match| |]; lia.
Qed.

Lemma on_event_size t e : (size (all_channels_map_ t) ≤ size (all_channels_map_ (on_event t e)))%nat ∧ page_index_ (on_event t e) = page_index_ t.
Proof.
  assert (Hi : ∀ ch c, (size (all_channels_map_ t) ≤ size (<[ch:=c]> (all_channels_map_ t)))%nat).
  { intros ch c. rewrite map_size_insert. destruct (_ !! _); simpl; lia. }
  unfold on_event, TopologyChanged, AddReaderWriter. destruct (is_join e).
  - case_bool_decide; [done|]. simpl. destruct (IsFromHere _ _); [done|]. destruct (_ !! _) as [[]|]; simpl; auto.
  - destruct (_ !! _) as [[]|]; simpl; auto.
Qed.

Lemma on_event_page_ok height t e : 1 < height → page_ok height t → page_ok height (on_event t e).
Proof.
  intros Hh [H0 H1]. destruct (on_event_size t e) as [Hs Hp]. unfold page_ok. rewrite Hp. split; [done|]. etrans; [apply H1|]. apply Z.quot_le_mono; lia.
Qed.

(** What happens on a screen of one height: changes and keys, but the one that
    opens and closes. *)
Inductive happening := Changes (e : event) | Draws (k : key) (line_no : Z).

Definition happen (height : Z) (t : CyberTopologyMessage) (h : happening) : option CyberTopologyMessage :=
  match h with
  | Changes e => Some (on_event t e)
  | Draws k line => fst <$> Render height k line true true t
  end.

Definition happens (height : Z) (t : CyberTopologyMessage) (hs : list happening) : option CyberTopologyMessage :=
  foldl (λ t h, t ← t; happen height t h) (Some t) hs.

Lemma Render_ok height k line mn mr t : 1 < height → k ≠ Space → page_ok height t →
  ∃ t' l, Render height k line mn mr t = Some (t', l) ∧ page_ok height t' ∧ page t' = Some l ∧ all_channels_map_ t' = all_channels_map_ t ∧ page_item_count_ t' = height - 1.
Proof.
  intros Hh Hk Ht. pose proof (SplitPages_ok height k t Hh Ht) as Hok. destruct (page_ok_drawn height (SplitPages k (sized height t))) as [l El]; [done|done|by destruct k|].
  exists (SplitPages k (sized height t)), l. split_and!; [|done|done|by destruct k|by destruct k]. unfold Render. destruct (Z.eqb_spec (height - 1) 0); [lia|]. fold (sized height t). destruct k; [| |done|]; by rewrite El.
Qed.

(** Property: on a screen of at least two lines that keeps its height, drawing never
    runs beyond the end of the table, whatever changes and pages are turned. *)
Theorem monitor_draws_within_table height pid specified hs : 1 < height → Forall (λ h, match h with Draws Space _ => False | _ => True end) hs →
  ∃ t, happens height (CyberTopologyMessage_new pid specified) hs = Some t ∧ ∀ k line, k ≠ Space → is_Some (Render height k line true true t).
Proof.
  intros Hh Hhs. assert (H : ∀ hs t, Forall (λ h, match h with Draws Space _ => False | _ => True end) hs → page_ok height t →
    ∃ t', happens height t hs = Some t' ∧ page_ok height t').
  { clear -Hh. induction hs as [|h hs IH]; intros t Hhs Ht; [by exists t|]. apply Forall_cons in Hhs as [Hk Hhs]. unfold happens. simpl.
    destruct h as [e|k line]; simpl; [by apply IH, on_event_page_ok|].
    destruct (Render_ok height k line true true t) as (t' & l & -> & Hok & _); [done|by intros ->|done|]. simpl. by apply IH. }
  destruct (H hs (CyberTopologyMessage_new pid specified)) as (t & Et & Ht); [done| |].
  { unfold page_ok, CyberTopologyMessage_new. simpl. rewrite map_size_empty. simpl. rewrite Z.quot_0_l; lia. }
  exists t. split; [done|]. intros k line Hk. destruct (Render_ok height k line true true t) as (t' & l & -> & _); [done..|]. eauto.
Qed.

Definition demo_happenings : list happening := map Changes demo_events ++ [Draws PageDown 1; Draws PageUp 1].

Lemma monitor_draws_within_table_witness :
  ∃ t, happens 3 (CyberTopologyMessage_new 12 "") demo_happenings = Some t ∧ ∀ k line, k ≠ Space → is_Some (Render 3 k line true true t).
Proof. apply (monitor_draws_within_table 3 12 "" demo_happenings); [lia|repeat constructor]. Defined.

(** Every channel is on a page that can be turned to. *)
Lemma every_channel_has_a_page height t ch : 1 < height → ch ∈ channels t →
  ∃ i l, 0 ≤ i < pages_ (sized height t) ∧
    page (mkTopology (pid_ t) (col1_width_ t) (specified_channel_ t) (all_channels_map_ t) (index t) (pages_ (sized height t)) i (height - 1)) = Some l ∧ ch ∈ l.
Proof.
  intros Hh [j Hj]%list_elem_of_lookup. pose proof (lookup_lt_Some _ _ _ Hj) as Hl. rewrite length_channels in Hl. simpl.
  rewrite Z.quot_div_nonneg by lia. set (c := height - 1) in *. assert (Hc : 0 < c) by lia.
  pose proof (Z.div_mod (Z.of_nat j) c) as Hdm. pose proof (Z.mod_pos_bound (Z.of_nat j) c Hc) as Hm.
  assert (Hd : 0 ≤ Z.of_nat j / c) by (apply Z.div_pos; lia).
  exists (Z.of_nat j / c). eexists. split_and!; [done| |unfold page; simpl; rewrite (proj2 (Z.ltb_ge _ _)); [reflexivity|]|].
  - assert (Z.of_nat j / c ≤ Z.of_nat (size (all_channels_map_ t)) / c); [apply Z.div_le_mono; lia|lia].
  - change (channels (mkTopology _ _ _ _ _ _ _ _)) with (channels t). rewrite length_channels. nia.
  - change (channels (mkTopology _ _ _ _ _ _ _ _)) with (channels t). apply list_elem_of_lookup. exists (Z.to_nat (Z.of_nat j mod c)).
    rewrite lookup_take_lt by lia. rewrite lookup_drop, <-Hj. f_equal. nia.
Qed.

(** ** Where it goes wrong *)

Definition three_channels : list event :=
  map (λ s, mkEvent 1 true true true true (mkRole s "n" "T")) ["/a"%string; "/b"%string; "/c"%string].

(** The screen is made higher while a later page is shown: the next drawing runs
    beyond the end of the table. *)
Theorem grown_screen_runs_off_the_end : ∃ t l, Render 2 PageDown 1 true true (foldl on_event (CyberTopologyMessage_new 12 "") three_channels) = Some (t, l) ∧ Render 10 OtherKey 1 true true t = None.
Proof. vm_compute. eauto. Qed.

(** The space key in a line without a channel reads what is not there; so it
    does before the first channel comes. *)
Theorem space_on_missing_line pid specified mn mr : Render 24 Space 1 mn mr (CyberTopologyMessage_new pid specified) = None.
Proof. by vm_compute. Qed.

(** When the number of channels is a multiple of the lines, the last page is
    empty. *)
Theorem last_page_can_be_empty : ∃ t t' l, Render 2 PageDown 1 true true (foldl on_event (CyberTopologyMessage_new 12 "") three_channels) = Some (t, l) ∧
  (Render 2 PageDown 1 true true t ≫= λ x, Render 2 PageDown 1 true true x.1) = Some (t', []).
Proof. vm_compute. eauto. Qed.

(** A node of another monitor whose process id only begins like this one's is
    taken for its own: it is never listed. *)
Lemma own_names_are_ignored now mn mr r w t : IsFromHere (node_name r) t = true → all_channels_map_ (AddReaderWriter now mn mr r w t) = all_channels_map_ t.
Proof. intros H. unfold AddReaderWriter. case_bool_decide; [done|]. cbn. unfold IsFromHere in *. cbn -[String.prefix]. by rewrite H. Qed.

Theorem other_monitor_taken_for_own now mn mr ch ty w :
  all_channels_map_ (AddReaderWriter now mn mr (mkRole ch (own_name (CyberTopologyMessage_new 123 "")) ty) w (CyberTopologyMessage_new 12 "")) = ∅.
Proof. apply own_names_are_ignored. by vm_compute. Qed.

(** A node with two writers of one channel is no longer listed when one of them
    leaves. *)
Theorem second_writer_of_node_vanishes : roles_of true "/a" (foldl on_event (CyberTopologyMessage_new 12 "")
  [mkEvent 1 true true true true (mkRole "/a" "n" "T"); mkEvent 2 true true true true (mkRole "/a" "n" "T"); mkEvent 3 true true false true (mkRole "/a" "n" "T")]) = [].
Proof. by vm_compute. Qed.

(** A channel that could not be opened is listed like any other, without an
    error. *)
Theorem failed_channel_is_listed now t r : specified_channel_ t = EmptyString → IsFromHere (node_name r) t = false → all_channels_map_ t !! channel_name r = None →
  ∃ c, all_channels_map_ (AddReaderWriter now false false r true t) !! channel_name r = Some (inl c) ∧ enabled c = false.
Proof.
  intros Hs Hn Hc. unfold AddReaderWriter. rewrite bool_decide_false by naive_solver. set (t0 := mkTopology _ _ _ _ _ _ _ _).
  change (IsFromHere (node_name r) t0) with (IsFromHere (node_name r) t). change (all_channels_map_ t0) with (all_channels_map_ t). rewrite Hn.
  destruct (all_channels_map_ t !! channel_name r) as [[]|] eqn:E; [by rewrite Hc in E..|]. simpl. eexists. rewrite lookup_insert_eq. split; [done|]. unfold open_new, OpenChannel. simpl. case_bool_decide; by case_bool_decide.
Qed.

(** A channel that the user closes keeps the monitor's own reader listed. *)
Theorem closed_channel_keeps_own_reader c : readers_ (CloseChannel c) = readers_ c ∧ enabled (CloseChannel c) = false.
Proof. done. Qed.

(** The ratio is the number of messages since the last ratio by the time between
    the last messages of the two, and the count begins anew. *)
Lemma frame_ratio_counts now c : enabled c = true → has_message_come_ c = true → 1000000000 < now - time_last_calc_ c → frame_counter_ c ≠ 0 →
  let (c', r) := frame_ratio now c in r = (frame_counter_ c, msg_time_ c - last_time_ c) ∧ frame_counter_ c' = 0 ∧ last_time_ c' = msg_time_ c ∧ frame_ratio_ c' = r.
Proof.
  intros H1 H2 H3 H4. unfold frame_ratio. rewrite H1, H2. simpl. rewrite (proj2 (Z.ltb_lt _ _)) by lia. destruct (Z.eqb_spec (frame_counter_ c) 0); [done|]. done.
Qed.
