(* ===== verification/CommandLine.v ===== *)
(** * Command lines

    How the programs read theirs: [ModuleArgument]
    ([src/code/cyber/mainboard/module_argument.cc]) and [main] of the recorder
    ([tools/cyber_recorder/main.cc]), up to what they then run.  [getopt_long] is
    that of the C library: it skips operands and keeps them for the end; the
    state is [argv] from [optind] on, the rest of a group of short options, and
    the operands.  The times of the recorder's options are read by
    [StringToUnixSeconds] and printed by [UnixSecondsToString]
    ([common/time_conversion.h]), with [strptime] and [strftime] of the C
    library for the directives that these use; the time zone is a parameter. *)

From stdpp Require Import base list strings gmap.
From Stdlib Require Import Ascii.
From S2P Require Import Prelude Topology RecordFile RecordWriter Player.

(** ** [getopt_long] *)

Record long := mkLong { l_name : string; l_arg : bool; l_val : ascii }.

(** The table is read beyond its end when it has no terminator. *)
Record options := mkOptions { short_opts : string; long_opts : list long; terminated : bool }.

Record getopt_state := mkOpt { unread : list string; nextchar : string; operands : list string }.

Inductive answer := AEnd | AOpt (c : ascii) (optarg : string) | AUnknown | AOverrun.

Definition begins_dash (s : string) : bool := match s with String "-" _ => true | _ => false end.

Definition is_operand (s : string) : bool := match s with String "-" (String _ _) => false | _ => true end.

Fixpoint skip_operands (l : list string) : list string * list string :=
  match l with
  | [] => ([], [])
  | w :: l' => if is_operand w then let (a, b) := skip_operands l' in (w :: a, b) else ([], l)
  end.

(** Whether a short option is known, and takes an argument. *)
Fixpoint short_kind (opts : string) (c : ascii) : option bool :=
  match opts with
  | EmptyString => None
  | String d opts => if Ascii.eqb c d then Some (match opts with String ":" _ => true | _ => false end) else short_kind opts c
  end.

Definition short_option (o : options) (c : ascii) (rest : string) (words ops : list string) : getopt_state * answer :=
  let next := match rest with EmptyString => tail words | _ => words end in
  if Ascii.eqb c ":" || Ascii.eqb c ";" then (mkOpt next rest ops, AUnknown)
  else
    match short_kind (short_opts o) c, rest with
    | None, _ => (mkOpt next rest ops, AUnknown)
    | Some false, _ => (mkOpt next rest ops, AOpt c EmptyString)
    | Some true, String _ _ => (mkOpt (tail words) EmptyString ops, AOpt c rest)
    | Some true, EmptyString => match tail words with [] => (mkOpt [] EmptyString ops, AUnknown) | a :: words => (mkOpt words EmptyString ops, AOpt c a) end
    end.

Fixpoint split_equals (s : string) : string * option string :=
  match s with
  | EmptyString => (EmptyString, None)
  | String "=" s => (EmptyString, Some s)
  | String c s => let (a, b) := split_equals s in (String c a, b)
  end.

(** A name that is not in the table may be the beginning of one. *)
Definition find_long (o : options) (name : string) : option (option long) :=
  match List.find (λ l, String.eqb (l_name l) name) (long_opts o) with
  | Some l => Some (Some l)
  | None =>
      if negb (terminated o) then None
      else Some (match filter (λ l, String.prefix name (l_name l) = true) (long_opts o) with [l] => Some l | _ => None end)
  end.

Definition long_option (o : options) (s : string) (words ops : list string) : getopt_state * answer :=
  let (name, value) := split_equals s in
  match find_long o name with
  | None => (mkOpt words EmptyString ops, AOverrun)
  | Some None => (mkOpt words EmptyString ops, AUnknown)
  | Some (Some l) =>
      match l_arg l, value with
      | false, None => (mkOpt words EmptyString ops, AOpt (l_val l) EmptyString)
      | false, Some _ => (mkOpt words EmptyString ops, AUnknown)
      | true, Some v => (mkOpt words EmptyString ops, AOpt (l_val l) v)
      | true, None => match words with [] => (mkOpt [] EmptyString ops, AUnknown) | a :: words => (mkOpt words EmptyString ops, AOpt (l_val l) a) end
      end
  end.

Definition getopt_long (o : options) (st : getopt_state) : getopt_state * answer :=
  match nextchar st with
  | String c rest => short_option o c rest (unread st) (operands st)
  | EmptyString =>
      let (skipped, words) := skip_operands (unread st) in
      let ops := operands st ++ skipped in
      match words with
      | [] => (mkOpt [] EmptyString ops, AEnd)
      | String _ (String "-" EmptyString) :: words => (mkOpt [] EmptyString (ops ++ words), AEnd)
      | String _ (String "-" name) :: words => long_option o name words ops
      | String _ (String c rest) :: _ => short_option o c rest words ops
      | _ => (mkOpt [] EmptyString ops, AEnd)
      end
  end.

(** ** The loop over the options *)

Section Loop.
Context {S E : Type} (o : options) (body : S → ascii → string → list string → S + E).

(** What the loop ends with: the settings and the operands, an exit, or a read
    beyond the table.  An unknown option is passed to the body as '?'. *)
Inductive ending := Ends (s : S) (ops : list string) | Exits (e : E) | Overruns.

Fixpoint loop (fuel : nat) (st : getopt_state) (s : S) : option ending :=
  match fuel with
  | O => None
  | Datatypes.S fuel =>
      match getopt_long o st with
      | (st, AEnd) => Some (Ends s (operands st))
      | (st, AOpt c a) => match body s c a (unread st) with inl s => loop fuel st s | inr e => Some (Exits e) end
      | (st, AUnknown) => match body s "?" EmptyString (unread st) with inl s => loop fuel st s | inr e => Some (Exits e) end
      | (_, AOverrun) => Some Overruns
      end
  end.

(** What is left to read. *)
Definition size_of (l : list string) : nat := sum_list (map (λ w, Datatypes.S (String.length w)) l).

Definition left_of (st : getopt_state) : nat :=
  match nextchar st with EmptyString => size_of (unread st) | c => String.length c + size_of (tail (unread st)) end.

Lemma skip_operands_app l : l = (skip_operands l).1 ++ (skip_operands l).2.
Proof. induction l as [|w l IH]; [done|]. simpl. destruct (is_operand w); [|done]. destruct (skip_operands l). simpl in *. by rewrite IH at 1. Qed.

Lemma size_of_app l k : size_of (l ++ k) = (size_of l + size_of k)%nat.
Proof. unfold size_of. induction l as [|w l IH]; simpl in *; lia. Qed.

Lemma short_option_less c rest w words ops :
  (left_of (short_option o c rest (w :: words) ops).1 ≤ String.length rest + size_of words)%nat.
Proof.
  unfold short_option. destruct rest as [|d rest], (Ascii.eqb c ":" || Ascii.eqb c ";"), (short_kind (short_opts o) c) as [[]|]; unfold left_of, size_of; simpl; try lia; destruct words; simpl; lia.
Qed.

Lemma long_option_less s words ops : (left_of (long_option o s words ops).1 ≤ size_of words)%nat.
Proof.
  unfold long_option. destruct (split_equals s) as [name v]. destruct (find_long o name) as [[[? [] ?]|]|], v; unfold left_of, size_of; simpl; try lia; destruct words; simpl; lia.
Qed.

Lemma getopt_less st : (getopt_long o st).2 ≠ AEnd → (nextchar st = EmptyString ∨ unread st ≠ []) → (left_of (getopt_long o st).1 < left_of st)%nat.
Proof.
  intros He Hn. assert (Hl : left_of st = match nextchar st with EmptyString => size_of (unread st) | c => String.length c + size_of (tail (unread st)) end%nat) by done.
  rewrite Hl. unfold getopt_long in *. destruct (nextchar st) as [|c rest] eqn:Ec.
  - pose proof (skip_operands_app (unread st)) as Hs. destruct (skip_operands (unread st)) as [skipped words]. simpl in Hs. rewrite Hs, size_of_app.
    destruct words as [|w words]; [done|]. change (size_of (w :: words)) with (Datatypes.S (String.length w) + size_of words)%nat.
    destruct w as [|d [|d2 rest]]; [done..|]. simpl.
    assert (Hshort : (left_of (short_option o d2 rest (String d (String d2 rest) :: words) (operands st ++ skipped)).1 < size_of skipped + Datatypes.S (Datatypes.S (Datatypes.S (String.length rest)) + size_of words))%nat).
    { pose proof (short_option_less d2 rest (String d (String d2 rest)) words (operands st ++ skipped)). lia. }
    pose proof (long_option_less rest words (operands st ++ skipped)) as Hlong.
    destruct d2 as [[] [] [] [] [] [] [] []]; try exact Hshort. destruct rest; [done|]. simpl in *. lia.
  - destruct Hn as [|Hn]; [done|]. destruct (unread st) as [|w words]; [done|].
    pose proof (short_option_less c rest w words (operands st)). simpl. lia.
Qed.

(** A group of short options that is being read is still the next word. *)
Definition in_group (st : getopt_state) : Prop := nextchar st = EmptyString ∨ unread st ≠ [].

Lemma getopt_in_group st : in_group st → in_group (getopt_long o st).1.
Proof.
  assert (Hs : ∀ c rest w words ops, in_group (short_option o c rest (w :: words) ops).1).
  { intros c rest w words ops. unfold in_group, short_option. destruct rest, (Ascii.eqb c ":" || Ascii.eqb c ";"), (short_kind (short_opts o) c) as [[]|]; simpl; auto; destruct words; simpl; auto. }
  assert (Hl : ∀ s words ops, in_group (long_option o s words ops).1).
  { intros s words ops. left. unfold long_option. destruct (split_equals s) as [name v]. destruct (find_long o name) as [[[? [] ?]|]|], v; simpl; auto. by destruct words. }
  intros H. unfold getopt_long. destruct (nextchar st) as [|c rest] eqn:Ec.
  - destruct (skip_operands (unread st)) as [skipped [|[|d [|d2 rest]] words]]; try (by left).
    destruct d2 as [[] [] [] [] [] [] [] []]; try apply Hs. destruct rest; [by left|apply Hl].
  - destruct H as [H|H]; [congruence|]. destruct (unread st); [done|apply Hs].
Qed.

(** Enough fuel: one more than there is to read. *)
Lemma loop_ends fuel st s : in_group st → (left_of st < fuel)%nat → is_Some (loop fuel st s).
Proof.
  revert st s. induction fuel as [|fuel IH]; intros st s Hg Hf; [lia|]. simpl.
  pose proof (getopt_in_group st Hg) as Hg'. pose proof (getopt_less st) as Hl. destruct (getopt_long o st) as [st' []]; simpl in *; [eauto|..|eauto];
    (specialize (Hl ltac:(done) Hg); destruct (body _ _ _ _); [apply IH; [done|lia]|eauto]).
Qed.
End Loop.

Arguments Ends {S E}. Arguments Exits {S E}. Arguments Overruns {S E}.

(** All of [argv] but the name of the program. *)
Definition scan {S E} (o : options) (body : S → ascii → string → list string → S + E) (args : list string) (s : S) : option (ending (S := S) (E := E)) :=
  loop o body (Datatypes.S (size_of args)) (mkOpt args EmptyString []) s.

Lemma scan_total {S E} o (body : S → ascii → string → list string → S + E) args s : is_Some (scan o body args s).
Proof. apply loop_ends; [by left|]. unfold left_of. simpl. lia. Qed.

(** The words that follow an option as far as the first that begins with a
    dash. *)
Fixpoint following (l : list string) : list string :=
  match l with [] => [] | w :: l => if begins_dash w then [] else w :: following l end.

(** ** [ModuleArgument] *)

Record ModuleArgument := mkArgs { dag_conf_list_ : list string; process_group_ : string; sched_name_ : string }.

Definition DEFAULT_process_group_ : string := "mainboard_default".
Definition DEFAULT_sched_name_ : string := "CYBER_DEFAULT".

Definition mainboard_options : options :=
  mkOptions "hd:p:s:" [mkLong "help" false "h"; mkLong "dag_conf" true "d"; mkLong "process_name" true "p"; mkLong "sched_name" true "s"] true.

Definition mainboard_option (a : ModuleArgument) (c : ascii) (optarg : string) (argv : list string) : ModuleArgument + Z :=
  if Ascii.eqb c "d" then inl (mkArgs (dag_conf_list_ a ++ optarg :: following argv) (process_group_ a) (sched_name_ a))
  else if Ascii.eqb c "p" then inl (mkArgs (dag_conf_list_ a) optarg (sched_name_ a))
  else if Ascii.eqb c "s" then inl (mkArgs (dag_conf_list_ a) (process_group_ a) optarg)
  else if Ascii.eqb c "h" then inr 0
  else inl a.

(** [inr]: the program exits. *)
Definition GetOptions (args : list string) : option (ModuleArgument + Z) :=
  if bool_decide (args = []) then Some (inr 0)
  else
    match scan mainboard_options mainboard_option args (mkArgs [] EmptyString EmptyString) with
    | Some (Ends a ops) => Some (if bool_decide (ops ≠ []) then inr 1 else if bool_decide (dag_conf_list_ a = []) then inr 1 else inl a)
    | Some (Exits rc) => Some (inr rc)
    | _ => None
    end.

Definition or_default (d s : string) : string := if bool_decide (s = EmptyString) then d else s.

Definition ParseArgument (args : list string) : option (ModuleArgument + Z) :=
  (λ r, match r with inl a => inl (mkArgs (dag_conf_list_ a) (or_default DEFAULT_process_group_ (process_group_ a)) (or_default DEFAULT_sched_name_ (sched_name_ a))) | inr rc => inr rc end) <$> GetOptions args.

Example parse_two_dags : ParseArgument ["-d"; "a.dag"; "-p"; "g"; "--dag_conf=b.dag"] = Some (inl (mkArgs ["a.dag"; "b.dag"] "g" "CYBER_DEFAULT")).
Proof. by vm_compute. Qed.

(** ** Times *)

(** [struct tm] as [mktime] reads it. *)
Record tm := mkTm { tm_year : Z; tm_mon : Z; tm_mday : Z; tm_hour : Z; tm_min : Z; tm_sec : Z }.

Fixpoint more_digits (n : nat) (to val : Z) (s : string) : Z * string :=
  match n, s with
  | S n, String c s' => if (val * 10 <=? to) && is_digit c then more_digits n to (val * 10 + (ascii_code c - 48)) s' else (val, s)
  | _, _ => (val, s)
  end.

Definition get_number (from to : Z) (n : nat) (s : string) : option (Z * string) :=
  match skip_spaces s with
  | String c s => if is_digit c then let (v, s) := more_digits (n - 1) to (ascii_code c - 48) s in if (v <? from) || (to <? v) then None else Some (v, s) else None
  | EmptyString => None
  end.

(** A directive: what it reads, and where it is kept. *)
Definition directive (c : ascii) : option (Z * Z * nat * (Z → tm → tm)) :=
  if Ascii.eqb c "Y" then Some (0, 9999, 4%nat, λ v t, mkTm (v - 1900) (tm_mon t) (tm_mday t) (tm_hour t) (tm_min t) (tm_sec t))
  else if Ascii.eqb c "m" then Some (1, 12, 2%nat, λ v t, mkTm (tm_year t) (v - 1) (tm_mday t) (tm_hour t) (tm_min t) (tm_sec t))
  else if Ascii.eqb c "d" then Some (1, 31, 2%nat, λ v t, mkTm (tm_year t) (tm_mon t) v (tm_hour t) (tm_min t) (tm_sec t))
  else if Ascii.eqb c "H" then Some (0, 23, 2%nat, λ v t, mkTm (tm_year t) (tm_mon t) (tm_mday t) v (tm_min t) (tm_sec t))
  else if Ascii.eqb c "M" then Some (0, 59, 2%nat, λ v t, mkTm (tm_year t) (tm_mon t) (tm_mday t) (tm_hour t) v (tm_sec t))
  else if Ascii.eqb c "S" then Some (0, 61, 2%nat, λ v t, mkTm (tm_year t) (tm_mon t) (tm_mday t) (tm_hour t) (tm_min t) v)
  else None.

(** It stops at the first thing that does not fit, and leaves the rest of the
    time as it was. *)
Fixpoint strptime (s format : string) (t : tm) : tm :=
  match format with
  | EmptyString => t
  | String "%" (String c format) =>
      match directive c with
      | Some (from, to, n, set) => match get_number from to n s with Some (v, s) => strptime s format (set v t) | None => t end
      | None => t
      end
  | String c format =>
      if is_space c then strptime (skip_spaces s) format t
      else match s with String d s => if Ascii.eqb c d then strptime s format t else t | EmptyString => t end
  end.

Fixpoint put_number (n : nat) (v : Z) (s : string) : string := match n with O => s | S n => put_number n (v / 10) (String (digit (v mod 10)) s) end.

Fixpoint strftime (format : string) (t : tm) : string :=
  match format with
  | EmptyString => EmptyString
  | String "%" (String c format) =>
      let rest := strftime format t in
      if Ascii.eqb c "Y" then put_number 4 (tm_year t + 1900) rest
      else if Ascii.eqb c "m" then put_number 2 (tm_mon t + 1) rest
      else if Ascii.eqb c "d" then put_number 2 (tm_mday t) rest
      else if Ascii.eqb c "H" then put_number 2 (tm_hour t) rest
      else if Ascii.eqb c "M" then put_number 2 (tm_min t) rest
      else if Ascii.eqb c "S" then put_number 2 (tm_sec t) rest
      else String "%" (String c rest)
  | String c format => String c (strftime format t)
  end.

(** The defaults of the two functions are not the same. *)
Definition read_format : string := "%Y-%m-%d %H:%M:%S".
Definition print_format : string := "%Y-%m-%d-%H:%M:%S".

(** [garbage] is what [tmp_time] holds before it is read. *)
Definition StringToUnixSeconds (mktime : tm → Z) (garbage : tm) (format time_str : string) : Z := u64 (mktime (strptime time_str format garbage)).

Definition UnixSecondsToString (localtime : Z → option tm) (format : string) (unix_seconds : Z) : string :=
  match localtime (i64 unix_seconds) with Some t => strftime format t | None => EmptyString end.

(** ** The recorder *)

Section RecorderMain.
Context {R : Type} (stof : string → option R) (one : R).
Context (mktime : tm → Z) (garbage : tm).

Record settings := mkSettings {
  opt_file_vec : list string; opt_output_vec : list string; opt_white_channels : list string; opt_black_channels : list string;
  opt_all : bool; opt_loop : bool; opt_rate : R; opt_begin : Z; opt_end : Z; opt_start : Z; opt_delay : Z; opt_preload : Z; opt_header : Header }.

Definition default_settings : settings := mkSettings [] [] [] [] false false one 0 (2 ^ 64 - 1) 0 0 3 GetHeader.

Definition set_lists (f o w b : list string) (s : settings) : settings :=
  mkSettings f o w b (opt_all s) (opt_loop s) (opt_rate s) (opt_begin s) (opt_end s) (opt_start s) (opt_delay s) (opt_preload s) (opt_header s).
Definition set_switches (a l : bool) (s : settings) : settings :=
  mkSettings (opt_file_vec s) (opt_output_vec s) (opt_white_channels s) (opt_black_channels s) a l (opt_rate s) (opt_begin s) (opt_end s) (opt_start s) (opt_delay s) (opt_preload s) (opt_header s).
Definition set_rate (r : R) (s : settings) : settings :=
  mkSettings (opt_file_vec s) (opt_output_vec s) (opt_white_channels s) (opt_black_channels s) (opt_all s) (opt_loop s) r (opt_begin s) (opt_end s) (opt_start s) (opt_delay s) (opt_preload s) (opt_header s).
Definition set_times (b e : Z) (s : settings) : settings :=
  mkSettings (opt_file_vec s) (opt_output_vec s) (opt_white_channels s) (opt_black_channels s) (opt_all s) (opt_loop s) (opt_rate s) b e (opt_start s) (opt_delay s) (opt_preload s) (opt_header s).
Definition set_seconds (st d p : Z) (s : settings) : settings :=
  mkSettings (opt_file_vec s) (opt_output_vec s) (opt_white_channels s) (opt_black_channels s) (opt_all s) (opt_loop s) (opt_rate s) (opt_begin s) (opt_end s) st d p (opt_header s).
Definition set_header (interval raw_size : Z) (s : settings) : settings :=
  mkSettings (opt_file_vec s) (opt_output_vec s) (opt_white_channels s) (opt_black_channels s) (opt_all s) (opt_loop s) (opt_rate s) (opt_begin s) (opt_end s) (opt_start s) (opt_delay s) (opt_preload s)
    (let h := opt_header s in mkHeader (major_version h) (minor_version h) (compress h) (chunk_interval h) interval (index_position h) (chunk_number h) (channel_number h) (begin_time h) (end_time h)
       (message_number h) (RecordFile.size h) (is_complete h) (chunk_raw_size h) raw_size).

(** The terminating entry is missing. *)
Definition recorder_options : options :=
  mkOptions "f:c:k:o:alr:b:e:s:d:p:i:m:h"
    [mkLong "files" true "f"; mkLong "white-channel" true "c"; mkLong "black-channel" true "k"; mkLong "output" true "o"; mkLong "all" false "a"; mkLong "loop" false "l"; mkLong "rate" true "r";
     mkLong "begin" true "b"; mkLong "end" true "e"; mkLong "start" true "s"; mkLong "delay" true "d"; mkLong "preload" true "p"; mkLong "segment-interval" true "i"; mkLong "segment-size" true "m"; mkLong "help" false "h"] false.

(** A return of [main], or an overflow of [int], which is undefined. *)
Inductive stop := Returns (rc : Z) | Overflows.

Definition seconds_of (time_str : string) : Z := u64 (StringToUnixSeconds mktime garbage read_format time_str * 1000000000).

Definition record_option (s : settings) (c : ascii) (optarg : string) (argv : list string) : settings + stop :=
  if Ascii.eqb c "f" then inl (set_lists (opt_file_vec s ++ optarg :: following argv) (opt_output_vec s) (opt_white_channels s) (opt_black_channels s) s)
  else if Ascii.eqb c "c" then inl (set_lists (opt_file_vec s) (opt_output_vec s) (opt_white_channels s ++ optarg :: following argv) (opt_black_channels s) s)
  else if Ascii.eqb c "k" then inl (set_lists (opt_file_vec s) (opt_output_vec s) (opt_white_channels s) (opt_black_channels s ++ optarg :: following argv) s)
  else if Ascii.eqb c "o" then inl (set_lists (opt_file_vec s) (opt_output_vec s ++ [optarg]) (opt_white_channels s) (opt_black_channels s) s)
  else if Ascii.eqb c "a" then inl (set_switches true (opt_loop s) s)
  else if Ascii.eqb c "l" then inl (set_switches (opt_all s) true s)
  else if Ascii.eqb c "r" then match stof optarg with Some r => inl (set_rate r s) | None => inr (Returns (-1)) end
  else if Ascii.eqb c "b" then inl (set_times (seconds_of optarg) (opt_end s) s)
  else if Ascii.eqb c "e" then inl (set_times (opt_begin s) (seconds_of optarg) s)
  else if Ascii.eqb c "s" then match stoi optarg with Some v => inl (set_seconds (u64 v) (opt_delay s) (opt_preload s) s) | None => inr (Returns (-1)) end
  else if Ascii.eqb c "d" then match stoi optarg with Some v => inl (set_seconds (opt_start s) (u64 v) (opt_preload s) s) | None => inr (Returns (-1)) end
  else if Ascii.eqb c "p" then match stoi optarg with Some v => inl (set_seconds (opt_start s) (opt_delay s) (u32 v) s) | None => inr (Returns (-1)) end
  else if Ascii.eqb c "i" then
    match stoi optarg with
    | Some v => if v <? 0 then inr (Returns (-1)) else inl (set_header (u64 (v * 1000000000)) (segment_raw_size (opt_header s)) s)
    | None => inr (Returns (-1))
    end
  else if Ascii.eqb c "m" then
    match stoi optarg with
    | Some v => if v <? 0 then inr (Returns (-1)) else if negb (int_range (v * 1024)) then inr Overflows else inl (set_header (segment_interval (opt_header s)) (u64 (v * 1024 * 1024)) s)
    | None => inr (Returns (-1))
    end
  else if Ascii.eqb c "h" then inr (Returns 0)
  else inl s.

(** What is then made and run. *)
Record PlayRun := mkPlayRun { play_param : PlayParam; play_rate : R; delay_time_s : Z; files_to_play : gset string }.

Inductive action :=
| DoReturn (rc : Z) | DoUndefined
| DoInfo (file : string) | DoRecover (input output : string) | DoPlay (p : PlayRun)
| DoRecord (output : string) (all : bool) (white black : list string) (header : Header)
| DoSplit (input output : string) (white black : list string) (begin end_ : Z).

(** [now] is [UnixSecondsToString] of the clock. *)
Definition run_command (now command file_path : string) (s : settings) : action :=
  if String.eqb command "info" then if String.eqb file_path EmptyString then DoReturn (-1) else DoInfo file_path
  else if String.eqb command "recover" then
    match opt_file_vec s, opt_output_vec s with
    | [f], [] => DoRecover f (f +:+ ".recover")
    | [f], [o] => DoRecover f o
    | _, _ => DoReturn (-1)
    end
  else if String.eqb command "play" then
    match opt_file_vec s with
    | [] => DoReturn (-1)
    | _ =>
        DoPlay (mkPlayRun (mkParam (opt_all s || bool_decide (opt_white_channels s = [])) (opt_loop s) (opt_begin s) (opt_end s) (opt_start s) (opt_preload s) (list_to_set (opt_white_channels s)) (list_to_set (opt_black_channels s)))
                  (opt_rate s) (opt_delay s) (list_to_set (opt_file_vec s)))
    end
  else if String.eqb command "record" then
    if bool_decide (opt_white_channels s = []) && negb (opt_all s) then DoReturn (-1)
    else match opt_output_vec s with
         | [] => DoRecord (now +:+ ".record") (opt_all s) (opt_white_channels s) (opt_black_channels s) (opt_header s)
         | [o] => DoRecord o (opt_all s) (opt_white_channels s) (opt_black_channels s) (opt_header s)
         | _ => DoReturn (-1)
         end
  else if String.eqb command "split" then
    match opt_file_vec s, opt_output_vec s with
    | [f], [] => DoSplit f (f +:+ ".split") (opt_white_channels s) (opt_black_channels s) (opt_begin s) (opt_end s)
    | [f], [o] => DoSplit f o (opt_white_channels s) (opt_black_channels s) (opt_begin s) (opt_end s)
    | _, _ => DoReturn (-1)
    end
  else DoReturn (-1).

Definition recorder_main (now : string) (args : list string) : option action :=
  match args with
  | [] => Some (DoReturn (-1))
  | command :: others =>
      match scan recorder_options record_option args default_settings with
      | Some (Ends s _) => Some (run_command now command (default EmptyString (head others)) s)
      | Some (Exits (Returns rc)) => Some (DoReturn rc)
      | Some (Exits Overflows) | Some Overruns => Some DoUndefined
      | None => None
      end
  end.
End RecorderMain.

(** ** Runs of the loop *)

Section Runs.
Context {S E : Type} (o : options) (body : S → ascii → string → list string → S + E).

Definition runs (st : getopt_state) (s : S) (r : ending (S := S) (E := E)) : Prop := ∃ fuel, loop o body fuel st s = Some r.

Lemma loop_more n m st s r : loop o body n st s = Some r → (n ≤ m)%nat → loop o body m st s = Some r.
Proof.
  revert m st s. induction n as [|n IH]; intros m st s H Hm; [done|]. destruct m as [|m]; [lia|]. simpl in *.
  destruct (getopt_long o st) as [st' []]; [done|..|done]; (destruct (body _ _ _ _); [apply IH; [done|lia]|done]).
Qed.

Lemma scan_runs args s r : runs (mkOpt args EmptyString []) s r → scan o body args s = Some r.
Proof.
  intros [n Hn]. destruct (scan_total o body args s) as [r' Hr]. rewrite Hr. unfold scan in Hr.
  apply (loop_more _ (n `max` Datatypes.S (size_of args))) in Hr; [|lia]. apply (loop_more _ (n `max` Datatypes.S (size_of args))) in Hn; [|lia]. congruence.
Qed.

Lemma runs_option st st' c a s s' r : getopt_long o st = (st', AOpt c a) → body s c a (unread st') = inl s' → runs st' s' r → runs st s r.
Proof. intros Hg Hb [n Hn]. exists (Datatypes.S n). simpl. by rewrite Hg, Hb. Qed.

Lemma skip_operands_all l k : Forall (λ w, is_operand w = true) l → skip_operands (l ++ k) = (l ++ (skip_operands k).1, (skip_operands k).2).
Proof. induction 1 as [|w l Hw _ IH]; simpl; [by destruct (skip_operands k)|]. by rewrite Hw, IH. Qed.

Lemma getopt_skips l k ops : Forall (λ w, is_operand w = true) l → getopt_long o (mkOpt (l ++ k) EmptyString ops) = getopt_long o (mkOpt k EmptyString (ops ++ l)).
Proof.
  intros Hl. unfold getopt_long. simpl. rewrite skip_operands_all by done. destruct (skip_operands k) as [a b]. simpl. by rewrite (assoc_L (++)).
Qed.

Lemma runs_skip l k ops s r : Forall (λ w, is_operand w = true) l → runs (mkOpt k EmptyString (ops ++ l)) s r → runs (mkOpt (l ++ k) EmptyString ops) s r.
Proof. intros Hl [[|n] Hn]; [done|]. exists (Datatypes.S n). simpl in *. by rewrite getopt_skips. Qed.

(** Words kept for the end, or to be kept next. *)
Definition pending (st : getopt_state) : Prop := operands st ≠ [] ∨ (nextchar st = EmptyString ∧ ∃ w l, unread st = w :: l ∧ is_operand w = true).

Lemma short_option_operands c rest words ops : operands (short_option o c rest words ops).1 = ops.
Proof. unfold short_option. destruct (Ascii.eqb c ":" || Ascii.eqb c ";"), (short_kind (short_opts o) c) as [[]|], rest; try done; by destruct (tail words). Qed.

Lemma long_option_operands s words ops : operands (long_option o s words ops).1 = ops ∧ nextchar (long_option o s words ops).1 = EmptyString.
Proof. unfold long_option. destruct (split_equals s) as [name v]. destruct (find_long o name) as [[[? [] ?]|]|], v; try done; by destruct words. Qed.

Lemma getopt_pending st : pending st → operands (getopt_long o st).1 ≠ [].
Proof.
  intros H. unfold getopt_long. destruct (nextchar st) as [|c rest] eqn:Ec.
  - assert (Hne : operands st ++ (skip_operands (unread st)).1 ≠ []).
    { destruct H as [H|(_ & w & l & -> & Hw)]; [by destruct (operands st)|]. simpl. rewrite Hw. destruct (skip_operands l). simpl. by destruct (operands st). }
    destruct (skip_operands (unread st)) as [skipped words]. cbn in Hne. destruct words as [|[|d [|d2 rest]] words]; try exact Hne.
    destruct d2 as [[] [] [] [] [] [] [] []]; try (rewrite short_option_operands; exact Hne).
    destruct rest; [|rewrite (proj1 (long_option_operands _ _ _)); exact Hne]. cbn. intros [? _]%app_eq_nil. done.
  - destruct H as [H|[H _]]; [|congruence]. by rewrite short_option_operands.
Qed.

(** An option with an argument ends its group. *)
Lemma getopt_argument st st' c a : getopt_long o st = (st', AOpt c a) → short_kind (short_opts o) c = Some true → nextchar st' = EmptyString.
Proof.
  assert (Hs : ∀ d rest words ops, short_option o d rest words ops = (st', AOpt c a) → short_kind (short_opts o) c = Some true → nextchar st' = EmptyString).
  { intros d rest words ops. unfold short_option. destruct (Ascii.eqb d ":" || Ascii.eqb d ";"); [done|]. destruct (short_kind (short_opts o) d) as [[]|] eqn:Ek; [|intros [= <- <- <-]; congruence|done].
    destruct rest; [|by intros [= <- _ _]]. destruct (tail words); [done|by intros [= <- _ _]]. }
  intros Hg Hk. unfold getopt_long in Hg. destruct (nextchar st); [|by eapply Hs].
  destruct (skip_operands (unread st)) as [skipped [|[|d [|d2 rest]] words]]; try done.
  destruct d2 as [[] [] [] [] [] [] [] []]; try (by eapply Hs). destruct rest as [|r rest]; [done|].
  rewrite <-(proj2 (long_option_operands (String r rest) words (operands st ++ skipped))). by rewrite Hg.
Qed.
End Runs.

(** A table with its terminator is never left. *)
Lemma terminated_reads_table o st : terminated o = true → (getopt_long o st).2 ≠ AOverrun.
Proof.
  intros Ht.
  assert (Hs : ∀ c r w ops, (short_option o c r w ops).2 ≠ AOverrun).
  { intros c r w ops. unfold short_option. destruct (Ascii.eqb c ":" || Ascii.eqb c ";"), (short_kind (short_opts o) c) as [[]|], r; try done; by destruct (tail w). }
  assert (Hf : ∀ name, find_long o name ≠ None) by (intros name; unfold find_long; rewrite Ht; by destruct (List.find _ _)).
  assert (Hl : ∀ s w ops, (long_option o s w ops).2 ≠ AOverrun).
  { intros s w ops. unfold long_option. destruct (split_equals s) as [name v]. specialize (Hf name). destruct (find_long o name) as [[[? [] ?]|]|], v; try done; by destruct w. }
  unfold getopt_long. destruct (nextchar st); [|apply Hs]. destruct (skip_operands (unread st)) as [sk [|[|d [|d2 rest]] words]]; try done.
  destruct d2 as [[] [] [] [] [] [] [] []]; try apply Hs. destruct rest; [done|apply Hl].
Qed.

Lemma terminated_loop_reads_table {S E} o (body : S → ascii → string → list string → S + E) fuel st s : terminated o = true → loop o body fuel st s ≠ Some Overruns.
Proof.
  intros Ht. revert st s. induction fuel as [|fuel IH]; intros st s; [done|]. simpl. pose proof (terminated_reads_table o st Ht) as Hn.
  destruct (getopt_long _ _) as [st' []]; try done; by destruct (body _ _ _ _).
Qed.

Lemma following_pending st : nextchar st = EmptyString → following (unread st) ≠ [] → pending st.
Proof.
  intros Hn Hf. right. split; [done|]. destruct (unread st) as [|w l]; [done|]. exists w, l. split; [done|]. simpl in Hf. destruct (begins_dash w) eqn:Hw; [done|].
  destruct w as [|c w]; [done|]. by destruct c as [[] [] [] [] [] [] [] []].
Qed.

(** ** What the mainboard makes of its line *)

(** The reference: one file for each -d. *)
Definition one_dag (a : ModuleArgument) (c : ascii) (optarg : string) (argv : list string) : ModuleArgument + Z :=
  if Ascii.eqb c "d" then inl (mkArgs (dag_conf_list_ a ++ [optarg]) (process_group_ a) (sched_name_ a)) else mainboard_option a c optarg argv.

Definition one_dag_each (args : list string) : option (ModuleArgument + Z) :=
  if bool_decide (args = []) then Some (inr 0)
  else
    match scan mainboard_options one_dag args (mkArgs [] EmptyString EmptyString) with
    | Some (Ends a ops) => Some (if bool_decide (ops ≠ []) then inr 1 else if bool_decide (dag_conf_list_ a = []) then inr 1 else inl a)
    | Some (Exits rc) => Some (inr rc)
    | _ => None
    end.

Definition same_but_dags (a b : ModuleArgument) : Prop := process_group_ a = process_group_ b ∧ sched_name_ a = sched_name_ b.

(** How two ends of the loops agree: only when operands are left may the files
    differ. *)
Definition ends_agree (x y : ending (S := ModuleArgument) (E := Z)) : Prop :=
  match x, y with
  | Ends a ops, Ends b ops' => ops = ops' ∧ (a = b ∨ ops ≠ [])
  | Exits e, Exits e' => e = e'
  | Overruns, Overruns => True
  | _, _ => False
  end.

Lemma options_agree a b c x words : same_but_dags a b →
  match mainboard_option a c x words, one_dag b c x words with
  | inl a', inl b' => same_but_dags a' b' ∧ (a = b → c ≠ "d"%char ∨ following words = [] → a' = b')
  | inr e, inr e' => e = e'
  | _, _ => False
  end.
Proof.
  intros [Hp Hs]. unfold one_dag, mainboard_option. destruct (Ascii.eqb_spec c "d") as [->|].
  { split; [done|]. intros -> [|Hf]; [done|]. by rewrite Hf. }
  destruct (Ascii.eqb c "p"); [by split; [split|intros ->]|]. destruct (Ascii.eqb c "s"); [by split; [split|intros ->]|].
  destruct (Ascii.eqb c "h"); [done|]. by split; [split|intros ->].
Qed.

Lemma loops_agree fuel st a b : same_but_dags a b → a = b ∨ pending st →
  match loop mainboard_options mainboard_option fuel st a, loop mainboard_options one_dag fuel st b with
  | Some x, Some y => ends_agree x y
  | None, None => True
  | _, _ => False
  end.
Proof.
  revert st a b. induction fuel as [|fuel IH]; intros st a b Hab Hpend; [done|]. simpl.
  assert (Hops : a = b ∨ operands (getopt_long mainboard_options st).1 ≠ []) by (destruct Hpend; [by left|right; by apply getopt_pending]).
  destruct (getopt_long mainboard_options st) as [st' [|c x| |]] eqn:Eg; cbn in Hops; [done|..|done].
  - pose proof (options_agree a b c x (unread st') Hab) as Ho. destruct (mainboard_option a c x (unread st')) as [a'|], (one_dag b c x (unread st')) as [b'|]; try done.
    destruct Ho as [Hab' Heq]. apply IH; [done|]. destruct Hops as [->|Hops]; [|right; by left]. specialize (Heq eq_refl).
    destruct (decide (c = "d"%char)) as [->|Hc]; [|left; by apply Heq; left].
    destruct (decide (following (unread st') = [])) as [Hf|Hf]; [left; by apply Heq; right|]. right. apply following_pending; [|done]. by eapply getopt_argument.
  - apply IH; [done|]. destruct Hops; [by left|right; by left].
Qed.

(** C40: whatever the command line, the mainboard runs or exits, and with the
    files, group and scheduler that it would if it took one file for each -d: the
    loop over the words after a -d never adds a file to a run, for these words
    are operands too, and with operands the mainboard exits. *)
Theorem one_dag_for_each_d args : is_Some (GetOptions args) ∧ GetOptions args = one_dag_each args.
Proof.
  unfold GetOptions, one_dag_each. destruct (bool_decide (args = [])); [by split|].
  pose proof (loops_agree (Datatypes.S (size_of args)) (mkOpt args EmptyString []) (mkArgs [] EmptyString EmptyString) (mkArgs [] EmptyString EmptyString)) as H.
  destruct (scan_total mainboard_options mainboard_option args (mkArgs [] EmptyString EmptyString)) as [x Hx]. unfold scan in *. rewrite Hx in *.
  specialize (H ltac:(done) ltac:(by left)). destruct (loop mainboard_options one_dag _ _ _) as [y|]; [|done].
  destruct x as [a ops|e|], y as [b ops'|e'|]; try done; [|by rewrite H; eauto|by destruct (terminated_loop_reads_table mainboard_options _ _ _ _ eq_refl Hx)]. destruct H as [<- [->|Hops]]; [eauto|]. rewrite !(bool_decide_true (ops ≠ [])) by done. eauto.
Qed.

(** What [ParseArgument] gives is complete. *)
Lemma parsed_is_complete args a : ParseArgument args = Some (inl a) → dag_conf_list_ a ≠ [] ∧ process_group_ a ≠ EmptyString ∧ sched_name_ a ≠ EmptyString.
Proof.
  unfold ParseArgument, GetOptions. case_bool_decide; [done|]. destruct (scan _ _ _ _) as [[b ops| |]|]; try done. simpl.
  case_bool_decide; [done|]. case_bool_decide as Hd; [done|]. intros [= <-]. simpl. unfold or_default. split_and!; [done|by case_bool_decide|by case_bool_decide].
Qed.

(** Only the first of two files after one -d would be taken, and the mainboard
    exits. *)
Theorem second_file_of_one_d_exits f1 f2 : begins_dash f2 = false → ParseArgument ["-d"; f1; f2]%string = Some (inr 1).
Proof.
  intros Hf. assert (Ho : is_operand f2 = true) by (destruct f2 as [|c f2]; [done|]; by destruct c as [[] [] [] [] [] [] [] []]).
  assert (Hr : runs mainboard_options mainboard_option (mkOpt ["-d"; f1; f2]%string EmptyString []) (mkArgs [] EmptyString EmptyString) (Ends (mkArgs [f1; f2] EmptyString EmptyString) [f2])).
  { eapply runs_option; [reflexivity|unfold mainboard_option; cbn -[begins_dash]; by rewrite Hf|]. apply (runs_skip _ _ [f2] []); [by repeat constructor|]. by exists 1%nat. }
  unfold ParseArgument, GetOptions. rewrite bool_decide_false by done. by rewrite (scan_runs _ _ _ _ _ Hr).
Qed.

(** The option that the usage names is not known: with its group as the next word
    the mainboard exits, with an equals sign the default group is taken. *)
Theorem process_group_is_unknown :
  ParseArgument ["-d"; "a.dag"; "--process_group"; "g"]%string = Some (inr 1) ∧
  ParseArgument ["-d"; "a.dag"; "--process_group=g"]%string = Some (inl (mkArgs ["a.dag"%string] DEFAULT_process_group_ DEFAULT_sched_name_)).
Proof. by vm_compute. Qed.

(** ** What the recorder makes of its line *)

Section Request.
Context {R : Type} (stof : string → option R) (one : R) (mktime : tm → Z) (garbage : tm).

(** What a user may ask, and the words for it. *)
Record request := mkRequest {
  r_files : list string; r_outputs : list string; r_white : list string; r_black : list string; r_all : bool; r_loop : bool;
  r_start : Z; r_delay : Z; r_preload : Z; r_interval : Z; r_megabytes : Z }.

Definition group (opt : string) (l : list string) : list string := match l with [] => [] | _ => opt :: l end.

(** The words after the lists. *)
Definition numbers_of (r : request) : list string :=
  ["-s"; to_string (r_start r); "--delay"; to_string (r_delay r); "-p"; to_string (r_preload r); "-i"; to_string (r_interval r); "-m"; to_string (r_megabytes r)]%string.

Definition words_of (r : request) : list string :=
  group "-f" (r_files r) ++ group "-c" (r_white r) ++ group "-k" (r_black r) ++ flat_map (λ o, ["-o"%string; o]) (r_outputs r) ++
  (if r_all r then ["-a"%string] else []) ++ (if r_loop r then ["--loop"%string] else []) ++ numbers_of r.

Definition settings_of (r : request) : settings :=
  mkSettings (r_files r) (r_outputs r) (r_white r) (r_black r) (r_all r) (r_loop r) one 0 (2 ^ 64 - 1) (r_start r) (r_delay r) (r_preload r)
    (GetHeaderWithSegmentParams (r_interval r * 1000000000) (r_megabytes r * 1048576)).

(** Words that do not look like options; seconds are ints, and the megabytes so
    few that their kilobytes are one. *)
Definition request_ok (r : request) : Prop :=
  Forall (λ w, begins_dash w = false) (r_files r ++ r_white r ++ r_black r) ∧
  Forall (λ n, 0 ≤ n < 2 ^ 31) [r_start r; r_delay r; r_preload r; r_interval r] ∧ 0 ≤ r_megabytes r < 2 ^ 21.

(** Nothing, or an option. *)
Definition dashed (k : list string) : Prop := match k with [] => True | w :: _ => begins_dash w = true end.

Lemma following_app l k : Forall (λ w, begins_dash w = false) l → dashed k → following (l ++ k) = l.
Proof. intros Hl Hk. induction Hl as [|w l Hw _ IH]; simpl; [|by rewrite Hw, IH]. destruct k as [|w k]; [done|]. simpl in *. by rewrite Hk. Qed.

Lemma group_dashed opt l k : begins_dash opt = true → dashed k → dashed (group opt l ++ k).
Proof. by destruct l. Qed.

Lemma no_dash_is_operand l : Forall (λ w, begins_dash w = false) l → Forall (λ w, is_operand w = true) l.
Proof. intros H. eapply Forall_impl; [done|]. intros w Hw. destruct w as [|c w]; [done|]. by destruct c as [[] [] [] [] [] [] [] []]. Qed.

(** Words read from settings to settings. *)
Definition reads (k : list string) (s f : settings) : Prop :=
  ∀ ops, ∃ ops', runs recorder_options (record_option stof mktime garbage) (mkOpt k EmptyString ops) s (Ends f ops').

Lemma reads_nil s : reads [] s s.
Proof. intros ops. exists (ops ++ []). by exists 1%nat. Qed.

(** A switch, and an option with its argument. *)
Lemma reads_switch opt c k s s' f :
  (∀ words ops, getopt_long recorder_options (mkOpt (opt :: words) EmptyString ops) = (mkOpt words EmptyString (ops ++ []), AOpt c EmptyString)) →
  record_option stof mktime garbage s c EmptyString k = inl s' → reads k s' f → reads (opt :: k) s f.
Proof. intros Hg Hs Hk ops. destruct (Hk (ops ++ [])) as [ops' Hr]. exists ops'. by eapply runs_option. Qed.

Definition takes_word (opt : string) (c : ascii) : Prop :=
  ∀ x words ops, getopt_long recorder_options (mkOpt (opt :: x :: words) EmptyString ops) = (mkOpt words EmptyString (ops ++ []), AOpt c x).

Lemma reads_option opt c x k s s' f : takes_word opt c → record_option stof mktime garbage s c x k = inl s' → reads k s' f → reads (opt :: x :: k) s f.
Proof. intros Hg Hs Hk ops. destruct (Hk (ops ++ [])) as [ops' Hr]. exists ops'. by eapply runs_option. Qed.

(** An option and the words that belong to it; what follows is another option. *)
Lemma reads_group opt c l k s s' f : takes_word opt c → Forall (λ w, begins_dash w = false) l →
  (∀ x words, l = x :: words → record_option stof mktime garbage s c x (words ++ k) = inl s') → (l = [] → s' = s) → reads k s' f → reads (group opt l ++ k) s f.
Proof.
  intros Hg Hl Hs Hn Hk. destruct l as [|x l]; simpl; [by rewrite <-Hn|]. intros ops. destruct (Hk ((ops ++ []) ++ l)) as [ops' Hr]. exists ops'.
  eapply runs_option; [apply Hg|by apply Hs|]. apply runs_skip; [|done]. apply no_dash_is_operand. by apply Forall_cons in Hl as [_ ?].
Qed.

Lemma reads_outputs l k s f : reads k (set_lists (opt_file_vec s) (opt_output_vec s ++ l) (opt_white_channels s) (opt_black_channels s) s) f → reads (flat_map (λ o, ["-o"%string; o]) l ++ k) s f.
Proof.
  revert s. induction l as [|o l IH]; intros s Hk; simpl.
  - rewrite app_nil_r in Hk. by destruct s.
  - eapply reads_option; [by intros ???|reflexivity|]. apply IH. simpl. by rewrite <-(assoc_L (++)).
Qed.

Lemma reads_number opt c n k s s' f : takes_word opt c → 0 ≤ n < 2 ^ 31 → (stoi (to_string n) = Some n → record_option stof mktime garbage s c (to_string n) k = inl s') → reads k s' f → reads (opt :: to_string n :: k) s f.
Proof. intros Hg Hn Hs. eapply reads_option; [done|]. apply Hs, stoi_to_string. unfold int_range. lia. Qed.

Lemma dashed_tail r : dashed (flat_map (λ o, ["-o"%string; o]) (r_outputs r) ++ (if r_all r then ["-a"%string] else []) ++ (if r_loop r then ["--loop"%string] else []) ++ numbers_of r).
Proof. by destruct (r_outputs r), (r_all r), (r_loop r). Qed.

Lemma reads_numbers r f w b o a l : request_ok r →
  reads (numbers_of r) (mkSettings f o w b a l one 0 (2 ^ 64 - 1) 0 0 3 GetHeader)
    (mkSettings f o w b a l one 0 (2 ^ 64 - 1) (r_start r) (r_delay r) (r_preload r) (GetHeaderWithSegmentParams (r_interval r * 1000000000) (r_megabytes r * 1048576))).
Proof.
  intros (_ & Hn & Hm). rewrite !Forall_cons in Hn. destruct Hn as (Hst & Hd & Hp & Hi & _). unfold numbers_of.
  eapply reads_number; [by intros ???|done|intros E; unfold record_option; cbn -[stoi to_string]; by rewrite E|].
  eapply reads_number; [by intros ???|done|intros E; unfold record_option; cbn -[stoi to_string]; by rewrite E|].
  eapply reads_number; [by intros ???|done|intros E; unfold record_option; cbn -[stoi to_string]; by rewrite E|].
  eapply reads_number; [by intros ???|done|intros E; unfold record_option; cbn -[stoi to_string]; rewrite E, (proj2 (Z.ltb_ge _ _)) by lia; reflexivity|].
  eapply reads_number; [by intros ???|lia|intros E; unfold record_option; cbn -[stoi to_string int_range]; rewrite E, (proj2 (Z.ltb_ge _ _)) by lia; replace (int_range (r_megabytes r * 1024)) with true by (unfold int_range; lia); reflexivity|].
  rewrite !wrap_small by (unfold in_u; lia).
  replace (r_megabytes r * 1048576) with (r_megabytes r * 1024 * 1024) by lia. apply reads_nil.
Qed.
Lemma reads_words r : request_ok r → reads (words_of r) (default_settings one) (settings_of r).
Proof.
  intros Hr. pose proof Hr as (Hl & _). apply Forall_app in Hl as [Hf [Hw Hb]%Forall_app]. pose proof (dashed_tail r) as Hd. unfold words_of, default_settings.
  set (tl := flat_map _ _ ++ _) in *.
  eapply (reads_group "-f" "f"); [by intros ???|done|intros x l E; unfold record_option; cbn -[following]; rewrite following_app, <-E; [reflexivity|by rewrite E in Hf; apply Forall_cons in Hf as [_ ?]|apply group_dashed; [done|]; by apply group_dashed]|by intros ->|].
  eapply (reads_group "-c" "c"); [by intros ???|done|intros x l E; unfold record_option; cbn -[following]; rewrite following_app, <-E; [reflexivity|by rewrite E in Hw; apply Forall_cons in Hw as [_ ?]|by apply group_dashed]|by intros ->|].
  eapply (reads_group "-k" "k"); [by intros ???|done|intros x l E; unfold record_option; cbn -[following]; rewrite following_app, <-E; [reflexivity|by rewrite E in Hb; apply Forall_cons in Hb as [_ ?]|done]|by intros ->|].
  apply reads_outputs. unfold set_lists. cbn [opt_file_vec opt_output_vec opt_white_channels opt_black_channels opt_all opt_loop opt_rate opt_begin opt_end opt_start opt_delay opt_preload opt_header app].
  destruct (r_all r) eqn:Ea, (r_loop r) eqn:El; cbn [app]; repeat (eapply reads_switch; [by intros ??|reflexivity|]); unfold settings_of; rewrite Ea, El; by apply reads_numbers.
Qed.

(** Property: what a user asks for in words - files and channels in groups, switches,
    seconds and sizes - is what the recorder runs its command with. *)
Theorem recorder_takes_what_is_asked now command r : request_ok r → is_operand command = true →
  recorder_main stof one mktime garbage now (command :: words_of r) = Some (run_command now command (default EmptyString (head (words_of r))) (settings_of r)).
Proof.
  intros Hr Hc. destruct (reads_words r Hr ([] ++ [command])) as [ops Hops]. unfold recorder_main.
  apply (runs_skip _ _ [command] (words_of r) []) in Hops; [|by repeat constructor]. change ([command] ++ words_of r) with (command :: words_of r) in Hops. by rewrite (scan_runs _ _ _ _ _ Hops).
Qed.
End Request.

Definition demo_request : request := mkRequest ["a.record"; "b.record"]%string [] ["/points"%string] [] false true 2 0 3 60 2048.

Lemma recorder_takes_what_is_asked_witness :
  recorder_main (λ _, Some 1) 1 (λ _, 0) (mkTm 0 0 0 0 0 0) "now" ("play"%string :: words_of demo_request) =
  Some (run_command "now" "play" (default EmptyString (head (words_of demo_request))) (settings_of 1 demo_request)).
Proof.
  apply (recorder_takes_what_is_asked (λ _, Some 1) 1 (λ _, 0) (mkTm 0 0 0 0 0 0) "now" "play" demo_request); [|reflexivity].
  split; [repeat constructor|]. split; [repeat constructor; simpl; lia|simpl; lia].
Defined.

(** ** Times are read as they are printed *)

Definition time_ok (t : tm) : Prop :=
  1000 ≤ tm_year t + 1900 ≤ 9999 ∧ 0 ≤ tm_mon t ≤ 11 ∧ 1 ≤ tm_mday t ≤ 31 ∧ 0 ≤ tm_hour t ≤ 23 ∧ 0 ≤ tm_min t ≤ 59 ∧ 0 ≤ tm_sec t ≤ 61.

Lemma digit_is_no_space d : 0 ≤ d < 10 → is_space (digit d) = false.
Proof. intros H. unfold is_space. rewrite digit_code by done. lia. Qed.

Lemma get_two from to v s : 0 ≤ from → from ≤ v ≤ to → to ≤ 99 → get_number from to 2 (put_number 2 v s) = Some (v, s).
Proof.
  intros H0 Hv Ht. pose proof (Z.div_mod v 10) as Hd. pose proof (Z.mod_pos_bound v 10) as Hm. assert (Hq : 0 ≤ v / 10 < 10) by (split; [apply Z.div_pos|apply Z.div_lt_upper_bound]; lia).
  cbn [put_number]. rewrite (Z.mod_small (v / 10)) by done. unfold get_number. cbn [skip_spaces]. rewrite digit_is_no_space, digit_is_digit, digit_code by done.
  cbn [more_digits Nat.sub]. rewrite digit_is_digit, digit_code by lia. replace (48 + v / 10 - 48) with (v / 10) by lia.
  rewrite (proj2 (Z.leb_le _ _)) by lia. cbn [andb]. destruct s; cbn [more_digits]; replace (v / 10 * 10 + (48 + v mod 10 - 48)) with v by lia; rewrite (proj2 (Z.ltb_ge _ _)), (proj2 (Z.ltb_ge _ _)) by lia; done.
Qed.

Lemma get_four v s : 1000 ≤ v ≤ 9999 → get_number 0 9999 4 (put_number 4 v s) = Some (v, s).
Proof.
  intros Hv. cbn [put_number]. set (a := v mod 10). set (b := v / 10 mod 10). set (c := v / 10 / 10 mod 10). set (d := v / 10 / 10 / 10 mod 10).
  assert (Ha : 0 ≤ a < 10) by (apply Z.mod_pos_bound; lia). assert (Hb : 0 ≤ b < 10) by (apply Z.mod_pos_bound; lia). assert (Hc : 0 ≤ c < 10) by (apply Z.mod_pos_bound; lia). assert (Hd : 0 ≤ d < 10) by (apply Z.mod_pos_bound; lia).
  assert (Hval : v = ((d * 10 + c) * 10 + b) * 10 + a).
  { unfold a, b, c, d. pose proof (Z.div_mod v 10). pose proof (Z.div_mod (v / 10) 10). pose proof (Z.div_mod (v / 10 / 10) 10).
    rewrite (Z.mod_small (v / 10 / 10 / 10)); [lia|]. rewrite !Z.div_div by lia. split; [apply Z.div_pos|apply Z.div_lt_upper_bound]; lia. }
  clearbody a b c d. unfold get_number. cbn [skip_spaces]. rewrite digit_is_no_space, digit_is_digit, digit_code by done. cbn [more_digits Nat.sub].
  rewrite !digit_is_digit, !digit_code by done. replace (48 + d - 48) with d by lia. rewrite (proj2 (Z.leb_le (d * 10) _)) by lia. cbn [andb]. replace (48 + c - 48) with c by lia.
  rewrite (proj2 (Z.leb_le ((d * 10 + c) * 10) _)) by lia. cbn [andb]. replace (48 + b - 48) with b by lia. rewrite (proj2 (Z.leb_le (((d * 10 + c) * 10 + b) * 10) _)) by lia. cbn [andb].
  replace (48 + a - 48) with a by lia. rewrite <-Hval. destruct s; cbn [more_digits]; rewrite (proj2 (Z.ltb_ge _ _)), (proj2 (Z.ltb_ge _ _)) by lia; done.
Qed.

Lemma strptime_number c from to n set s v s' f t : directive c = Some (from, to, n, set) → get_number from to n s = Some (v, s') →
  strptime s (String "%" (String c f)) t = strptime s' f (set v t).
Proof. intros Hd Hg. change (strptime s (String "%" (String c f)) t) with (match directive c with Some (from, to, n, set) => match get_number from to n s with Some (v, s) => strptime s f (set v t) | None => t end | None => t end). by rewrite Hd, Hg. Qed.

Lemma strptime_two c from to set v s f t : directive c = Some (from, to, 2%nat, set) → 0 ≤ from ∧ from ≤ v ≤ to ∧ to ≤ 99 →
  strptime (put_number 2 v s) (String "%" (String c f)) t = strptime s f (set v t).
Proof. intros Hd (H0 & Hv & Ht). apply (strptime_number c from to 2 set); [done|]. by apply get_two. Qed.

Lemma strptime_dash s f t : strptime (String "-" s) (String "-" f) t = strptime s f t.
Proof. done. Qed.

Lemma strptime_colon s f t : strptime (String ":" s) (String ":" f) t = strptime s f t.
Proof. done. Qed.

Lemma strptime_space v s f t : 0 ≤ v ≤ 99 → strptime (String " " (put_number 2 v s)) (String " " f) t = strptime (put_number 2 v s) f t.
Proof.
  intros Hv. change (strptime (skip_spaces (put_number 2 v s)) f t = strptime (put_number 2 v s) f t). cbn [put_number skip_spaces].
  rewrite digit_is_no_space; [done|]. apply Z.mod_pos_bound. lia.
Qed.

(** What the two formats print, but for what is between the day and the hour. *)
Definition printed (between : ascii) (t : tm) : string :=
  put_number 4 (tm_year t + 1900) (String "-" (put_number 2 (tm_mon t + 1) (String "-" (put_number 2 (tm_mday t) (String between
    (put_number 2 (tm_hour t) (String ":" (put_number 2 (tm_min t) (String ":" (put_number 2 (tm_sec t) EmptyString)))))))))).

Lemma date_is_read t between f garbage : time_ok t →
  strptime (printed between t) (String "%" (String "Y" (String "-" (String "%" (String "m" (String "-" (String "%" (String "d" f)))))))) garbage =
  strptime (String between (put_number 2 (tm_hour t) (String ":" (put_number 2 (tm_min t) (String ":" (put_number 2 (tm_sec t) EmptyString)))))) f
    (mkTm (tm_year t) (tm_mon t) (tm_mday t) (tm_hour garbage) (tm_min garbage) (tm_sec garbage)).
Proof.
  intros (Hy & Hmo & Hd & _). unfold printed.
  rewrite (strptime_number "Y" 0 9999 4 _ _ _ _ _ _ eq_refl (get_four _ _ Hy)), strptime_dash.
  rewrite (strptime_two "m" 1 12 _ _ _ _ _ eq_refl) by lia. rewrite strptime_dash.
  rewrite (strptime_two "d" 1 31 _ _ _ _ _ eq_refl) by lia.
  cbn [tm_year tm_mon tm_mday tm_hour tm_min tm_sec]. f_equal. f_equal; lia.
Qed.

Lemma clock_is_read h m s t : 0 ≤ h ≤ 23 → 0 ≤ m ≤ 59 → 0 ≤ s ≤ 61 →
  strptime (put_number 2 h (String ":" (put_number 2 m (String ":" (put_number 2 s EmptyString))))) "%H:%M:%S" t = mkTm (tm_year t) (tm_mon t) (tm_mday t) h m s.
Proof.
  intros Hh Hm Hs.
  rewrite (strptime_two "H" 0 23 _ _ _ _ _ eq_refl) by lia. rewrite strptime_colon.
  rewrite (strptime_two "M" 0 59 _ _ _ _ _ eq_refl) by lia. rewrite strptime_colon.
  by rewrite (strptime_two "S" 0 61 _ _ _ _ _ eq_refl) by lia.
Qed.

(** Property: a time that is printed with a format is read back with it, whatever was
    in the memory it is read into. *)
Theorem printed_time_is_read format t garbage : format = read_format ∨ format = print_format → time_ok t → strptime (strftime format t) format garbage = t.
Proof.
  intros Hf Ht. pose proof Ht as (_ & _ & _ & Hh & Hmi & Hs). destruct Hf as [-> | ->].
  - change (strftime read_format t) with (printed " " t). unfold read_format. rewrite date_is_read by done. rewrite strptime_space by lia. rewrite clock_is_read by done. by destruct t.
  - change (strftime print_format t) with (printed "-" t). unfold print_format. rewrite date_is_read by done. rewrite strptime_dash, clock_is_read by done. by destruct t.
Qed.

Lemma printed_time_is_read_witness : strptime (strftime read_format (mkTm 118 6 1 23 59 60)) read_format (mkTm 7 7 7 7 7 7) = mkTm 118 6 1 23 59 60.
Proof. apply (printed_time_is_read read_format (mkTm 118 6 1 23 59 60) (mkTm 7 7 7 7 7 7)); [by left|repeat split; simpl; lia]. Defined.

(** ** Where it goes wrong *)

(** The defaults do not go together: of a time that [UnixSecondsToString] prints,
    or that is written as the help of the recorder says, [StringToUnixSeconds]
    reads the date; the clock is that of the memory. *)
Theorem printed_clock_is_not_read t garbage : time_ok t →
  strptime (strftime print_format t) read_format garbage = mkTm (tm_year t) (tm_mon t) (tm_mday t) (tm_hour garbage) (tm_min garbage) (tm_sec garbage).
Proof. intros Ht. change (strftime print_format t) with (printed "-" t). unfold read_format. by rewrite date_is_read. Qed.

Example help_time_is_not_read : strptime "2018-07-01-00:00:00" read_format (mkTm 0 0 0 9 9 9) = mkTm 118 6 1 9 9 9.
Proof. by vm_compute. Qed.

Section RecorderDefects.
Context {R : Type} (stof : string → option R) (one : R) (mktime : tm → Z) (garbage : tm) (now : string).

Local Notation main := (recorder_main stof one mktime garbage now).

(** A long option that is not spelled out makes [getopt_long] read beyond the
    table. *)
Theorem abbreviated_option_reads_beyond_table : main ["play"; "--file"; "a.record"]%string = Some DoUndefined.
Proof. by vm_compute. Qed.

(** Seconds below zero are taken for a start, or delay, in a far future; for the
    segments they are refused. *)
Theorem negative_start_is_taken : ∃ p, main ["play"; "-f"; "a.record"; "-s"; "-1"]%string = Some (DoPlay p) ∧ start_time_s (play_param p) = 2 ^ 64 - 1.
Proof. vm_compute. eauto. Qed.

Theorem negative_interval_is_refused : main ["record"; "-a"; "-i"; "-1"]%string = Some (DoReturn (-1)).
Proof. by vm_compute. Qed.

(** Segments of two terabytes overflow an [int]. *)
Theorem huge_segment_overflows : main ["record"; "-a"; "-m"; "2097152"]%string = Some DoUndefined.
Proof. by vm_compute. Qed.

(** What follows a number is not looked at. *)
Theorem minutes_are_taken_for_seconds : ∃ p, main ["play"; "-f"; "a.record"; "-s"; "5min"]%string = Some (DoPlay p) ∧ start_time_s (play_param p) = 5.
Proof. vm_compute. eauto. Qed.
End RecorderDefects.
