(* ===== verification/Multicast.v ===== *)
(** * The notifier over the network

    [MulticastNotifier] ([src/code/cyber/transport/shm/multicast_notifier.cc])
    and the choice of the notifier ([notifier_factory.cc]).  Sockets are those of
    the system: a descriptor with the datagrams it has received, and the
    descriptors that have joined the group.  What the system answers to each call
    is an argument, and which members miss a datagram too. *)

From stdpp Require Import base list gmap sets strings.
From S2P Require Import Prelude Message.

Section Multicast.
Context (big_endian : bool).

(** ** The system *)

Record net := mkNet { sockets : gmap Z (list (list Z)); members : gset Z }.

Definition close (fd : Z) (w : net) : net := mkNet (delete fd (sockets w)) (members w ∖ {[fd]}).
Definition open_socket (fd : Z) (w : net) : net := mkNet (<[fd := []]> (sockets w)) (members w).

(** A datagram reaches the members but those that miss it. *)
Definition send (bytes : list Z) (missed : gset Z) (w : net) : net :=
  mkNet (map_imap (λ fd q, Some (if bool_decide (fd ∈ members w ∧ fd ∉ missed) then q ++ [bytes] else q)) (sockets w)) (members w).

(** ** [MulticastNotifier] *)

Record MulticastNotifier := mkMulticast { notify_fd_ : Z; notify_addr_ : option (string * Z); listen_fd_ : Z; listen_port_ : option Z; is_shutdown_ : bool }.

Definition fresh_notifier : MulticastNotifier := mkMulticast (-1) None (-1) None false.

Definition Shutdown (n : MulticastNotifier) (w : net) : MulticastNotifier * net :=
  if is_shutdown_ n then (n, w)
  else
    let w := if notify_fd_ n =? -1 then w else close (notify_fd_ n) w in
    let w := if listen_fd_ n =? -1 then w else close (listen_fd_ n) w in
    (mkMulticast (-1) None (-1) None true, w).

(** The answers to [socket], twice, [fcntl], [setsockopt], [bind], and
    [setsockopt] twice more. *)
Record answers := mkAnswers { a_notify : option Z; a_listen : option Z; a_nonblock : bool; a_reuse : bool; a_bind : bool; a_loop : bool; a_join : bool }.

(** [locator] is that of the configuration, when it has one. *)
Definition Init (locator : option (string * Z)) (a : answers) (n : MulticastNotifier) (w : net) : MulticastNotifier * net * bool :=
  let '(mcast_ip, mcast_port) := match locator with Some (ip, port) => (ip, port mod 2 ^ 16) | None => ("239.255.0.100"%string, 8888) end in
  match a_notify a with
  | None => (mkMulticast (-1) (notify_addr_ n) (listen_fd_ n) (listen_port_ n) (is_shutdown_ n), w, false)
  | Some fd =>
      let w := open_socket fd w in
      match a_listen a with
      | None => (mkMulticast fd (Some (mcast_ip, mcast_port)) (-1) (listen_port_ n) (is_shutdown_ n), w, false)
      | Some fd' =>
          let w := open_socket fd' w in
          if negb (a_nonblock a) then (mkMulticast fd (Some (mcast_ip, mcast_port)) fd' (listen_port_ n) (is_shutdown_ n), w, false)
          else
            let n := mkMulticast fd (Some (mcast_ip, mcast_port)) fd' (Some mcast_port) (is_shutdown_ n) in
            if negb (a_reuse a) then (n, w, false)
            else if negb (a_bind a) then (n, w, false)
            else if negb (a_loop a) then (n, w, false)
            else if negb (a_join a) then (n, w, false)
            else (n, mkNet (sockets w) (members w ∪ {[fd']}), true)
      end
  end.

Definition MulticastNotifier_new (locator : option (string * Z)) (a : answers) (w : net) : MulticastNotifier * net :=
  match Init locator a fresh_notifier w with
  | (n, w, true) => (n, w)
  | (n, w, false) => Shutdown n w
  end.

(** [None] for [missed]: [sendto] fails. *)
Definition Notify (info : ReadableInfo) (missed : option (gset Z)) (n : MulticastNotifier) (w : net) : net * bool :=
  if is_shutdown_ n then (w, false)
  else match missed with
       | None => (w, false)
       | Some missed => let bytes := ReadableInfo_SerializeTo big_endian info in (send bytes missed w, (0 <? length bytes)%nat)
       end.

(** What [poll] and [recvfrom] do: [poll] may be interrupted, and [recvfrom] may
    fail although there was something. *)
Inductive weather := Fine | Interrupted | NotReceived.

Definition Listen (s : weather) (info : ReadableInfo) (n : MulticastNotifier) (w : net) : net * bool * ReadableInfo :=
  if is_shutdown_ n then (w, false, info)
  else
    match s, sockets w !! listen_fd_ n with
    | Fine, Some (bytes :: q) =>
        let w := mkNet (<[listen_fd_ n := q]> (sockets w)) (members w) in
        let (ok, info) := ReadableInfo_DeserializeFrom big_endian info (Some (take 32 bytes)) in (w, ok, info)
    | _, _ => (w, false, info)
    end.

(** [NotifierFactory::CreateNotifier]. *)
Inductive notifier_kind := ConditionKind | MulticastKind.

Definition CreateNotifier (notifier_type : option string) : notifier_kind :=
  if bool_decide (default "condition"%string notifier_type = "multicast"%string) then MulticastKind else ConditionKind.

(** ** What a listener hears *)

(** What happens around one listener: somebody of the group notifies, or sends
    something else; and it listens. *)
Inductive event := Sent (info : ReadableInfo) (missed : gset Z) | Noise (bytes : list Z) (missed : gset Z) | Listens (s : weather).

Definition step (sender n : MulticastNotifier) (x : net * list (option ReadableInfo)) (e : event) : net * list (option ReadableInfo) :=
  match e with
  | Sent info missed => ((Notify info (Some missed) sender x.1).1, x.2)
  | Noise bytes missed => (send bytes missed x.1, x.2)
  | Listens s => let '(w, ok, info) := Listen s (mkReadable 0 0 0) n x.1 in (w, x.2 ++ [if ok then Some info else None])
  end.

(** The specification: a queue of notices, [None] for what is not one. *)
Definition spec_step (fd : Z) (x : list (option ReadableInfo) * list (option ReadableInfo)) (e : event) : list (option ReadableInfo) * list (option ReadableInfo) :=
  match e with
  | Sent info missed => (if bool_decide (fd ∈ missed) then x.1 else x.1 ++ [Some info], x.2)
  | Noise _ missed => (if bool_decide (fd ∈ missed) then x.1 else x.1 ++ [None], x.2)
  | Listens Fine => (tail x.1, x.2 ++ [default None (head x.1)])
  | Listens _ => (x.1, x.2 ++ [None])
  end.

Definition event_ok (e : event) : Prop :=
  match e with Sent info _ => readable_ok info | Noise bytes _ => length (take 32 bytes) ≠ ReadableInfo_kSize | Listens _ => True end.

(** A datagram is a notice, or no notice. *)
Definition stands_for (bytes : list Z) (i : option ReadableInfo) : Prop :=
  match i with Some i => readable_ok i ∧ bytes = ReadableInfo_SerializeTo big_endian i | None => length (take 32 bytes) ≠ ReadableInfo_kSize end.

Definition hears (n : MulticastNotifier) (x : net * list (option ReadableInfo)) (y : list (option ReadableInfo) * list (option ReadableInfo)) : Prop :=
  (∃ q, sockets x.1 !! listen_fd_ n = Some q ∧ Forall2 stands_for q y.1) ∧ listen_fd_ n ∈ members x.1 ∧ x.2 = y.2.

Lemma send_hears n bytes missed x y i : stands_for bytes i → hears n x y →
  hears n (send bytes missed x.1, x.2) (if bool_decide (listen_fd_ n ∈ missed) then y.1 else y.1 ++ [i], y.2).
Proof.
  intros Hi ((q & Hq & Hf) & Hm & Hr). split; [|done]. simpl. rewrite map_lookup_imap, Hq. simpl. eexists. split; [done|].
  destruct (decide (listen_fd_ n ∈ missed)) as [Hin|Hin]; [rewrite bool_decide_false by naive_solver; by rewrite bool_decide_true|].
  rewrite bool_decide_true by done. rewrite bool_decide_false by done. apply Forall2_app; [done|]. by constructor.
Qed.

#[local] Arguments ReadableInfo_DeserializeFrom : simpl never.

Lemma Listen_hears s n x y : is_shutdown_ n = false → hears n x y → hears n (step fresh_notifier n x (Listens s)) (spec_step (listen_fd_ n) y (Listens s)).
Proof.
  intros Hn ((q & Hq & Hf) & Hm & Hr). destruct x as [w rs], y as [p rs']. simpl in *. subst rs'. unfold Listen. rewrite Hn.
  destruct s; simpl; [|by split; [exists q|]..]. rewrite Hq. destruct Hf as [|bytes i q p Hi Hf]; simpl; [by split; [exists []|]|].
  destruct i as [i|].
  - destruct Hi as [Hok ->]. destruct (Readable_roundtrip big_endian (mkReadable 0 0 0) i Hok) as [Hl Hd]. rewrite take_ge by (rewrite Hl; unfold ReadableInfo_kSize; lia). rewrite Hd.
    split; [|done]. exists q. simpl. by rewrite lookup_insert_eq.
  - unfold ReadableInfo_DeserializeFrom. rewrite decide_False by done. split; [|done]. exists q. simpl. by rewrite lookup_insert_eq.
Qed.

Lemma step_hears sender n x y e : is_shutdown_ sender = false → is_shutdown_ n = false → event_ok e → hears n x y → hears n (step sender n x e) (spec_step (listen_fd_ n) y e).
Proof.
  intros Hs Hn He Hx. destruct e as [i missed|bytes missed|s]; [| |by apply (Listen_hears s n x y)].
  - simpl. unfold Notify. rewrite Hs. simpl. pose proof (send_hears n (ReadableInfo_SerializeTo big_endian i) missed x y (Some i)) as H. case_bool_decide; by apply H.
  - simpl. pose proof (send_hears n bytes missed x y None) as H. case_bool_decide; by apply H.
Qed.

(** Property: a listener of the group hears the notices that do not miss it, each once,
    in order and unchanged, whatever else is sent to the group. *)
Theorem multicast_is_a_queue sender n w es :
  is_shutdown_ sender = false → is_shutdown_ n = false → sockets w !! listen_fd_ n = Some [] → listen_fd_ n ∈ members w → Forall event_ok es →
  (foldl (step sender n) (w, []) es).2 = (foldl (spec_step (listen_fd_ n)) ([], []) es).2.
Proof.
  intros Hs Hn Hq Hm Hes. assert (H : hears n (w, []) ([], [])) by (split; [by exists []|done]). revert H. generalize (w, [] : list (option ReadableInfo)), ([] : list (option ReadableInfo), [] : list (option ReadableInfo)).
  induction Hes as [|e es He _ IH]; intros x y H; [apply H|]. simpl. apply IH. by apply step_hears.
Qed.

(** The descriptors that a constructor was given are new. *)
Definition answers_fresh (a : answers) (w : net) : Prop :=
  (∀ fd, a_notify a = Some fd → fd ≠ -1 ∧ sockets w !! fd = None ∧ fd ∉ members w) ∧
  (∀ fd, a_listen a = Some fd → fd ≠ -1 ∧ sockets w !! fd = None ∧ fd ∉ members w ∧ a_notify a ≠ Some fd).

(** C39: a notifier is made with two sockets, of which one has joined the group; or
    nothing is left open, and it says no to whatever it is asked for. *)
Theorem made_or_closed locator a w : answers_fresh a w →
  let (n, w') := MulticastNotifier_new locator a w in
  (is_shutdown_ n = false ∧ ∃ fd fd', notify_fd_ n = fd ∧ listen_fd_ n = fd' ∧ sockets w' = <[fd' := []]> (<[fd := []]> (sockets w)) ∧ members w' = members w ∪ {[fd']}) ∨
  (is_shutdown_ n = true ∧ w' = w ∧ (∀ i m, Notify i m n w' = (w', false)) ∧ ∀ s i, Listen s i n w' = (w', false, i)).
Proof.
  intros [Hn Hl]. unfold MulticastNotifier_new, Init. destruct (match locator with Some (ip, port) => _ | None => _ end) as [ip port].
  assert (Hc : ∀ fd, sockets w !! fd = None → fd ∉ members w → mkNet (delete fd (<[fd := []]> (sockets w))) (members w ∖ {[fd]}) = w).
  { intros fd H1 H2. rewrite delete_insert_id by done. destruct w as [s m]. simpl in *. f_equal. set_solver. }
  destruct (a_notify a) as [fd|] eqn:En; [|right; by unfold Notify, Listen].
  destruct (Hn fd eq_refl) as (H1 & H2 & H3). destruct (a_listen a) as [fd'|] eqn:El.
  - destruct (Hl fd' eq_refl) as (H4 & H5 & H6 & H7). assert (fd ≠ fd') by congruence.
    assert (Hcc : mkNet (delete fd' (delete fd (<[fd' := []]> (<[fd := []]> (sockets w))))) (members w ∖ {[fd]} ∖ {[fd']}) = w).
    { rewrite delete_insert_ne by done. rewrite (delete_insert_id (sockets w) fd) by done. rewrite delete_insert_id by done. destruct w as [s m]. simpl in *. f_equal. set_solver. }
    destruct (a_nonblock a), (a_reuse a), (a_bind a), (a_loop a), (a_join a); cbn; [left; eauto 10|..];
      (right; unfold Shutdown, close, open_socket; cbn; rewrite (proj2 (Z.eqb_neq fd (-1))), (proj2 (Z.eqb_neq fd' (-1))) by done; cbn; by rewrite Hcc).
  - cbn. right. unfold Shutdown, close, open_socket; cbn. rewrite (proj2 (Z.eqb_neq fd (-1))) by done. cbn. rewrite Hc by done. by unfold Notify, Listen.
Qed.

(** Twenty bytes of anybody are taken for a notice. *)
Theorem any_twenty_bytes_are_a_notice n bytes q w : is_shutdown_ n = false → length bytes = 20%nat → sockets w !! listen_fd_ n = Some (bytes :: q) → (Listen Fine (mkReadable 0 0 0) n w).1.2 = true.
Proof. intros Hn Hl Hq. unfold Listen. rewrite Hn, Hq, take_ge by lia. unfold ReadableInfo_DeserializeFrom. by rewrite decide_True. Qed.

(** A notice that a listener misses is not sent again: [Notify] is true all the
    same. *)
Theorem missed_notice_is_reported_sent i m n w : is_shutdown_ n = false → readable_ok i → (Notify i (Some m) n w).2 = true.
Proof. intros Hn Hi. unfold Notify. rewrite Hn. destruct (Readable_roundtrip big_endian (mkReadable 0 0 0) i Hi) as [Hl _]. by rewrite Hl. Qed.
End Multicast.

Definition demo_net : net := mkNet {[3 := []; 4 := []]} {[4]}.
Definition demo_notifier : MulticastNotifier := mkMulticast 3 (Some ("239.255.0.100"%string, 8888)) 4 (Some 8888) false.
Definition demo_events : list event := [Sent (mkReadable 7 1 2) ∅; Noise [1; 2] ∅; Listens Interrupted; Listens Fine; Sent (mkReadable 7 2 2) {[4]}; Listens Fine; Listens Fine].

Lemma multicast_is_a_queue_witness : (foldl (step false demo_notifier demo_notifier) (demo_net, []) demo_events).2 = (foldl (spec_step 4) ([], []) demo_events).2.
Proof. apply (multicast_is_a_queue false demo_notifier demo_notifier demo_net demo_events); [reflexivity..|set_solver|]. unfold demo_events. rewrite !Forall_cons. simpl. unfold readable_ok, in_u, ReadableInfo_kSize. simpl. split_and!; try done; lia. Defined.

Example demo_heard : (foldl (spec_step 4) ([], []) demo_events).2 = [None; Some (mkReadable 7 1 2); None; None].
Proof. by vm_compute. Qed.

Lemma made_or_closed_witness :
  let (n, w') := MulticastNotifier_new None (mkAnswers (Some 3) (Some 4) true true true true false) (mkNet ∅ ∅) in
  (is_shutdown_ n = false ∧ ∃ fd fd', notify_fd_ n = fd ∧ listen_fd_ n = fd' ∧ sockets w' = <[fd' := []]> (<[fd := []]> (sockets (mkNet ∅ ∅))) ∧ members w' = members (mkNet ∅ ∅) ∪ {[fd']}) ∨
  (is_shutdown_ n = true ∧ w' = mkNet ∅ ∅ ∧ (∀ i m, Notify false i m n w' = (w', false)) ∧ ∀ s i, Listen false s i n w' = (w', false, i)).
Proof.
  apply (made_or_closed false None (mkAnswers (Some 3) (Some 4) true true true true false) (mkNet ∅ ∅)).
  split; intros fd [= <-]; repeat split; (lia || reflexivity || set_solver || discriminate).
Defined.
